(* ===== verification/_CoqProject ===== *)
-Q . S2P
Prelude.v
JsString.v
Json.v
Containment.v
TtlLru.v
AuthzTypes.v
Pattern.v
Relation.v
Selection.v
Semantics.v
MatchLaws.v
Targets.v
Specificity.v
AuthzConfig.v
Witness.v
Validate.v
Compile.v
CompileLaws.v
Resolve.v
Decide.v
Samples.v
ResolveLaws.v
DecideLaws.v
Dind.v
Redaction.v
OrderLaws.v
TargetLaws.v
PathLaws.v
Graphql.v
GraphqlLaws.v
GraphqlProps.v
Base64.v
IpPolicy.v
Secrets.v
Protocol.v
Messages.v
Credential.v
Mask.v
Broker.v
BrokerKeys.v
BrokerLaws.v
BrokerProps.v
Calendar.v
AuditStore.v
AuditLaws.v
AuditProps.v
AuditQuery.v
PortForward.v
Effects.v
PortBind.v
PortBindLaws.v
PortControl.v
PortBindProps.v
Threads.v
NodePath.v
HostMatch.v
HostMatchLaws.v
HostKeys.v
ContainerPlan.v
Agents.v
MountPlan.v
MountLaws.v
EnvLaws.v
LaunchPlan.v
LaunchLaws.v
LineReader.v
LineReaderLaws.v
GatewayProtocol.v
GatewayProtocolLaws.v
GatewayRun.v
GatewayRunLaws.v
GatewayRunProps.v
HostExec.v
HostExecLaws.v
HostExecProps.v
Config.v
ConfigLaws.v
ConfigProps.v
DbusProxy.v
SecretStore.v
