(* ===== verification/Prelude.v ===== *)
(** * nas: verification of the brokers of a sandbox session

    nas (Nix Agent Sandbox) runs a coding agent in a container.  What the agent may
    do outside of it goes through brokers on the host: its network traffic through a
    proxy that asks the session broker about every request, the commands it wants to
    run on the host through the host command broker, the ports it opens through the
    port broker.  Each decides by rules the user has written, asks a person where
    the rules say so, remembers what was answered, and carries out what is allowed.
    What the container itself sees and may do is planned before it starts, from a
    configuration that is validated first.  This library models these three paths,
    the validation and the plan, and proves what they are relied on for.

    ** Parts and how they interact

    - src/src/network/authz/: the configuration language of network access.
      [compileAuthzConfig] checks a configuration and compiles its scopes,
      [resolveAuthzConfig] turns the result into a document, [decide] answers one
      request, [withoutInjectLiterals] makes the copy that may leave the host,
      [resolveDindAuthzConfig] makes the document of Docker-in-Docker.
    - src/src/network/broker.ts: the session broker.  [receive] validates a parsed
      line, [handle] runs the method it calls, [resume] continues a method that
      waited.  It uses [decide], the address policy, the secrets, the credentials of
      the host, the mask patterns and the bounded cache; network/protocol.ts has the
      messages of the proxy.
    - src/src/network/port_forward_model.ts, port_bind_broker.ts and
      port_bind_protocol.ts: port forwards, the broker of them, its requests.
    - src/src/hostexec/: a command of the host is asked for over a connection of the
      gateway.  match.ts, integrity.ts and broker.ts find the rule, check the file,
      ask and remember; gateway_protocol.ts checks the messages of the connection,
      gateway_execution.ts cuts the connection into lines and, once the command is
      allowed, runs it: start, output through the mask filters, exit code.
    - src/src/audit/: the store of the audit log and of the request bodies that were
      inspected.  [appendAuditLog] and [storeRequestBody] write, [queryAuditLogs] and
      [getRequestBody] read.
    - src/config/: [validateConfig] checks what the language of the configuration
      cannot express and puts the port forwards of every profile in normal form;
      [resolveProfile] picks the profile of a session.
    - src/stages/dbus_proxy/: [dbus_stage] starts the filter between the agent and the
      session bus of the host; its state is an input of [planMount].
    - src/pipeline/, src/agents/, src/stages/mount/ and src/stages/launch/: the plan
      of a container.  [planMount] decides its mounts and its environment, with what
      [configureAgent] and [provisionAgent] need for the agents; the stage merges
      its patch into the plan ([mergeContainerPlan]); [planLaunch] and
      [compileCompose] make of the finished plan what Docker is given.

    ** Files

    Shared vocabulary:
    - Prelude: outcomes ([Result]), arrays read as sets, ordered maps, tactics and
      the hint database of the library.  JsString: the methods of strings.  Json:
      numbers, JSON values, object key order.  Containment: accepted sets and the
      interface of a conservative containment test.  TtlLru: lib/ttl_lru_cache.ts.
      Effects: asynchronous methods as programs, and a queue that runs them one after
      the other.  Threads: methods that run concurrently.  NodePath: node:path.

    The authorization core, file by file as in network/authz/:
    - AuthzTypes (types.ts), AuthzConfig (config.ts), Pattern (pattern.ts),
      Selection (graphql_selection.ts), Semantics (semantics.ts), Relation and
      Targets (relation.ts), Specificity (specificity.ts), Witness (witness.ts),
      Validate and Compile (validate.ts), Resolve and Decide (resolve.ts), Dind
      (dind.ts, with its property), Graphql (graphql.ts).
    - MatchLaws, CompileLaws, ResolveLaws: lemmas on these definitions.  DecideLaws,
      Redaction, OrderLaws, TargetLaws, PathLaws: the properties.
      GraphqlLaws: the search for cyclic fragments; GraphqlProps: the properties.
      Samples: the configuration the witnesses evaluate on.

    The session broker and what it calls:
    - Base64, IpPolicy (network/ip_policy.ts), Secrets (network/secrets.ts),
      Protocol and Messages (network/protocol.ts), Credential
      (network/agent_credential.ts), Mask (network/mask_patterns.ts), Broker
      (network/broker.ts).
    - BrokerKeys: the keys of the broker determine what they are made of.
      BrokerLaws: the invariant of every reachable state.  BrokerProps: the
      properties, and a sample session.

    The audit store:
    - Calendar (dates as text), AuditStore (audit/store.ts), AuditLaws (sorting,
      LIKE, tables, a runtime for the witnesses), AuditProps (retained bodies),
      AuditQuery (the log).

    The port broker:
    - PortForward (port_forward_model.ts), PortBind (port_bind_broker.ts),
      PortControl (its control requests).  PortBindLaws: the invariant.
      PortBindProps: the properties.

    Host commands:
    - HostMatch (match.ts, integrity.ts and the parts of broker.ts that compute from
      a request and a rule), HostMatchLaws, HostKeys (the keys of approvals).
      HostExec (broker.ts), HostExecLaws (its invariant), HostExecProps.
    - LineReader (the two line readers of gateway_execution.ts), LineReaderLaws.
      GatewayProtocol (gateway_protocol.ts), GatewayProtocolLaws.  GatewayRun
      (`runGatewayExecution`), GatewayRunLaws (its invariant), GatewayRunProps.

    The container:
    - ContainerPlan (pipeline/state.ts, container_plan.ts, env_ops.ts), Agents
      (src/agents/), MountPlan (stages/mount/stage.ts), LaunchPlan (stages/launch/).
    - MountLaws: what of the workspace is protected.  EnvLaws: what the entries of
      the profile make of the environment.  LaunchLaws: what Docker, Compose and the
      shell of the entrypoint read.

    The configuration:
    - Config (config/types.ts, port_forwards.ts, validate.ts, `resolveProfile`),
      ConfigLaws (the normal form of forwards, what a valid profile is, and that each
      check decides its part), ConfigProps (the validation as a whole, its warnings, a
      sample).  DbusProxy: stages/dbus_proxy/ and what the proxy reads.
    - SecretStore (hostexec/secret_store.ts): where the values of secrets come from, with
      its laws.

    ** State and operations

    Compilation, resolution, decision, matching and parsing are functions.  An
    operation that may throw returns an [option], [None] standing for the exception;
    an operation that returns a `Result`, or whose error text matters, returns a
    [Result].  The error texts are those of the code.

    Code that waits is modelled in one of three ways.

    The state of a session broker is the record [Broker.Broker]: the four sets of
    remembered answers, the cache of recent denials, the map of open groups and the
    index of requests, a heap of group objects (a group is shared between methods and
    lives on after it has left the map), the methods suspended at an `await`, the
    number of calls and the settled promises.  A method is cut into the segments
    between its `await`s; [step] runs one segment, chosen by an [Event] (a message,
    the continuation of a suspended method, a timer, the closing); [run] runs a list
    of events.  What the world answers during a segment (the clock, the credentials
    the host holds, success or failure of a write) is an argument, [Env].

    The port broker and the host command broker are written as programs of [Effects]:
    [Ret], the state of the class, the operations of the outside world, `await`, and
    exceptions with `try`.  The port broker queues its operations ([machine]); those
    of the host command broker run concurrently ([Threads]).  At every `await`
    everything else may happen; what the world answers is any answer [permits]
    allows.  [PortBind.PortBroker] and [HostExec.HostExecState] are the fields of the
    classes; a socket, its reader and the promise of its waiter are known by the
    number of the connection.

    The line readers and the execution of a command are machines: a record of the
    fields of the object, with what it waits for, and a [step] for each thing that
    may happen next ([LineReader.step], [buffered_step], [execution_step]).

    The theorems on runs quantify over every list of events, so over every
    interleaving.

    ** What the theorems show

    - The decision (DecideLaws): [decide] is defined on every resolved document and
      returns what the configuration prescribes, by a specification that mentions
      neither sorting nor the order of declaration; a narrower rule is never
      overtaken by a wider one; an "allow" has a true rule or a fallback behind it;
      a WebSocket needs an opt-in.
    - The checks behind it (MatchLaws, OrderLaws, TargetLaws, PathLaws, Semantics,
      Containment): a claimed containment of two matches is one, two matches that
      share a request are never taken for disjoint, targets are compared exactly,
      overlapping rules are ordered, ids identify one rule, the sort returns an order
      or a genuine cycle; parsing inverts printing.
    - Inheritance and redaction (DecideLaws, Redaction): budgets only decrease,
      injected secrets are registered for injection, tolerated violations are
      audited; the redacted document decides as the original does.
    - GraphQL (GraphqlLaws, GraphqlProps): a text is read exactly if it parses, can be
      executed and its expansion is within the budget; its facts are that expansion,
      so no field is hidden behind a fragment; what is kept of it is bounded.
    - Docker-in-Docker (Dind): its document never asks a person, whatever the request,
      and denies every address outside of its scopes.
    - The session broker (BrokerProps): in every run, an "allow" comes from the
      policy or from a person who approved that very question, and never for a denied
      address; an approval and the opposite denial are never remembered together;
      remembered answers are reused, a denial over any approval; resolving a group
      ends and answers everyone who waits in it.
    - Its surroundings: the denied addresses are the documented blocks in every
      written form (IpPolicy); an accepted message has the type the broker reads it
      at (Messages); the headers shown to the approver are those sent (Secrets); the
      credential of the host wins (Credential); masked text shows no secret, in no
      form a URL has and in no base64 text it is a part of (Mask);
      the cache is bounded and evicts the least recently used entry (TtlLru).
    - The audit store (AuditProps, AuditQuery): in every run the retained bodies are
      within their budget, those captured first make room, just as many as needed, and
      what is read is what was written for that request, before it expires; what is
      logged is read back, and a query returns exactly the rows of the days it asks
      for, the newest ones under a limit (a row of the first second of a day is one of
      the day before).  Times as text are ordered as times (Calendar).
    - The port broker (PortForward, PortControl, PortBindProps): a forward is refused
      as a cycle exactly when it closes one; the table stays in order at every
      moment; at rest, the servers that listen and the ports the gateway forwards are
      those of the table; adding and preparing succeed as a whole or leave nothing
      open; removing revokes; requests parse back.
    - Host commands (HostMatchLaws, HostKeys, HostExecProps): in every run, a command
      that starts was asked for on its connection, is what its request resolves to,
      and has an unchanged file and a rule, or a person, that allows it; a rule for a
      file of the workspace matches that very file; the inherited environment is
      exactly what the rule names; the key of an approval determines the command; a
      rule confines the working directory; resolving a group answers it.
    - The connection of a command (LineReaderLaws, GatewayProtocolLaws,
      GatewayRunProps): the reader of lines refines a buffer of bytes, loses, repeats
      and reorders nothing, bounds its lines and never forgets a waiting read; a line
      taken ahead by the monitor is read; an accepted message has the shape its
      reader relies on.  In every run of a command the gateway gets one well-formed
      dialogue, the output it gets back is in order what the filters printed, the
      exit code comes after all of it, and a failure stops the filters.
    - The container (MountLaws, EnvLaws, LaunchLaws): every path of the workspace
      that the host runs code from is a read-only mount, and the way to it is pinned
      against renaming, unless it goes on below the root with two dots; the environment is what the entries say in their order,
      whether a value is known when the plan is made or only in the image; the text
      for the entrypoint is read back by a shell; `docker run` and Compose both ask
      for exactly the mounts, the network and the few privileges of the plan, each read
      by a specification of Docker that shares no constant with the code (of `docker run`
      when no path to mount holds a colon).
    - The configuration (ConfigProps, DbusProxy): a configuration is
      accepted exactly when it is valid, by a specification that writes out what each part
      has to be (the authorization parts: that they resolve to a document, which the
      theorems on decisions are about), and validation accepts what it returns as it is;
      a rule it warns of is never chosen;
      the proxy of the session bus reads exactly the policy of a valid profile.
    - The sources of secrets (SecretStore): no value depends on a file in a credential
      store, in the state of nas or in a system directory, when HOME is not empty and the
      path does not go on below it with two dots; dotenv files are read back;
      a value once given is given again.
    - Lemmas that exhibit a fault of the code: [BrokerProps.waiter_lost],
      [PathLaws.prototype_capture_throws], [Messages.unsafe_rule_id_refused],
      [Secrets.prototype_secret_unguarded], [Mask.starred_value_survives],
      [HostExecProps.request_lost], [MountLaws.dotted_directory_unprotected],
      [EnvLaws.prototype_name_is_known], [AuditQuery.first_second_misfiled],
      [AuditProps.far_expiry_is_past], [AuditProps.long_retention_throws],
      [ConfigProps.inherited_names_accepted], [SecretStore.dotted_credential_readable],
      [SecretStore.empty_home_unprotected], [SecretStore.inherited_secret].

    ** Conventions and bounds

    - Strings are lists of 8-bit units.  In the authorization core a unit stands for
      a UTF-16 unit below 256, in Mask and Base64 for a byte of UTF-8.  Case mapping
      and `trim` are those of ASCII.
    - A JavaScript object used as a map is an association list in the order its
      keys are enumerated (integer-like keys first); a property read that would find
      a member of `Object.prototype` is modelled where the code performs one.
    - A number is its sign, its shortest decimal significand and its exponent;
      budgets, ports and lengths, which are safe integers, are [Z].
    - Fuel: the walk that exhibits a cycle has one unit per vertex, and a walk of
      distinct vertices is no longer; the loop of the sort runs once per vertex and
      each turn that does not end it emits one (Specificity); the loop of `close` of
      the host command broker has a unit per group and waiter; a chunk is cut into
      pieces with a unit per byte (GatewayRun); the walk up from a protected path has
      a unit per character of it, and every step takes away a segment (MountLaws); the
      search for cyclic fragments has one per fragment and spread, the expansion of a
      GraphQL document two per unit of its budget and one per operation (Graphql).
      Every other recursion is structural.
    - What the code takes from its runtime or from other packages is a parameter:
      [IpPolicy.Runtime] (`isIP`, `Number` of unusual texts), [HostMatch.HostRuntime]
      (regular expressions, collation, hashes), [GatewayProtocol.Wire] (UTF-8
      decoding, `JSON.parse`, zod), [AuditStore.AuditRuntime] (`Date.parse`,
      `JSON.parse`, SHA-256), [Config.ConfigRuntime] (syntax of regular
      expressions, `Number` of digits).  Theorems that rely on their documented behaviour
      say so in their hypotheses.  [MountPlan.ObjectRuntime] is the text of a function
      inherited from `Object.prototype`.  What the options of xdg-dbus-proxy and an
      address of D-Bus (DbusProxy), what the flags of `docker run`, the
      interpolation of Compose and the words of a shell mean is part of the
      specification in LaunchLaws.
    - The ports of a configuration are integers, as its schema says; a size of the
      request body audit may be any number ([None] when it is no integer).
    - In the session broker the sources of secrets and of credentials are arguments.  In
      SecretStore a read has three moments (a path is followed, the roots are, the file is
      read), and what the file system answers at each is an argument.  The body of a
      request carries its GraphQL documents as graphql.ts would read them: in Graphql
      the parser of the package `graphql` is an argument, and the nodes of its tree
      are data types with the fields the code looks at.
    - The open groups of a session broker are visited by `close` in the order of
      their keys here, and in the order of their insertion in the code; the answers
      are the same.  Runs of two or more awaits without an access to the state in
      between are one suspension.  Two calls of `close` of the port broker run one
      after the other here, and may interleave in the code.  In the host command
      broker an `await` of a settled promise is a wait too ([Tick]); the turn between
      the end of a called method and the continuation of its caller is left out, and
      `Promise.all` over the allowed directories is taken in order.
    - In GatewayRun a pump takes the next chunk of its filter when the pieces of the
      last one have been sent; the end of a filter's process, of its input, of its
      output, and of each write to the socket are separate events in any order.

    ** What is not modelled

    `detectLegacyIdentifiers` of validate.ts, which only words a message; of
    protocol.ts the decoding of proxy credentials and the parsing of URLs; sockets,
    processes, files, desktop notifications and times of day of the brokers; the
    relay of forwarded ports.  Of the audit store the migration of columns and the
    settings of the connection; a statement of SQL is read as the function it
    denotes, and an operation is one transaction.  Of the plan of a container the probes of the host, the
    preparation of the private state of Claude, the warnings, and the stages that
    start helper processes other than the proxy of the session bus.  Of the
    configuration its evaluation by Pkl, the record of trusted files, the migration of
    old formats, and the members of a profile that nothing checks.  Of the rest of the
    repository nothing is modelled but lib/ttl_lru_cache.ts: the Docker client, the
    stores of histories and sessions, the user interface. *)
From stdpp Require Export base list strings gmap.
From Stdlib Require Export ZArith Lia Ascii.

#[export] Set Default Goal Selector "!".
#[export] Set Warnings "-clear-no-such-hyp".
Set Warnings "-clear-no-such-hyp".

(** ** Outcomes

    [Result T] is `Result<T>` of network/authz/types.ts.  A thrown JavaScript
    exception is not a [Result]: an operation that can throw returns
    [option], [None] standing for the exception. *)

Inductive Result (T : Type) : Type :=
  | Ok (value : T)
  | Err (error : string).
Arguments Ok {T} value.
Arguments Err {T} error.

#[export] Instance result_ret : MRet Result := @Ok.
#[export] Instance result_bind : MBind Result := λ A B f r,
  match r with Ok v => f v | Err e => Err e end.

Definition is_Ok {T} (r : Result T) : bool :=
  match r with Ok _ => true | Err _ => false end.

(** ** Arrays read as sets: `includes`, `some`, `every`, `[...new Set(l)]` *)

Section Includes.
Context {A : Type} `{EqDecision A}.

Definition includes (l : list A) (x : A) : bool :=
  existsb (λ y, bool_decide (x = y)) l.

Definition unique (l : list A) : list A :=
  fold_left (λ acc x, if includes acc x then acc else acc ++ [x]) l [].

Lemma includes_In l x : includes l x = true ↔ In x l.
Proof.
  unfold includes. rewrite existsb_exists. split.
  - intros (y & Hy & He%bool_decide_eq_true). by subst.
  - intros Hx. exists x. by rewrite bool_decide_eq_true.
Qed.

Lemma includes_false l x : includes l x = false ↔ ¬ In x l.
Proof. rewrite <- includes_In. by destruct (includes l x). Qed.

Lemma unique_go_In l : ∀ acc x,
  In x (fold_left (λ acc x, if includes acc x then acc else acc ++ [x]) l acc)
    ↔ In x acc ∨ In x l.
Proof.
  induction l as [|y l IH]; intros acc x; simpl; [tauto|].
  rewrite IH. destruct (includes acc y) eqn:E.
  - apply includes_In in E. naive_solver.
  - rewrite in_app_iff. simpl. tauto.
Qed.

Lemma unique_In l x : In x (unique l) ↔ In x l.
Proof. unfold unique. rewrite unique_go_In. simpl. tauto. Qed.

Lemma unique_go_NoDup l : ∀ acc, List.NoDup acc →
  List.NoDup (fold_left (λ acc x, if includes acc x then acc else acc ++ [x]) l acc).
Proof.
  induction l as [|y l IH]; intros acc Hacc; simpl; [done|].
  apply IH. destruct (includes acc y) eqn:E; [done|].
  apply includes_false in E.
  apply NoDup_ListNoDup, NoDup_app. split; [by apply NoDup_ListNoDup|].
  split; [|apply NoDup_singleton].
  intros x Hx Hy%list_elem_of_singleton. subst.
  by apply E, list_elem_of_In.
Qed.

Lemma unique_NoDup l : List.NoDup (unique l).
Proof. apply unique_go_NoDup. constructor. Qed.

Lemma unique_go_app (l : list A) : ∀ acc,
  List.NoDup (acc ++ l) →
  fold_left (λ acc x, if includes acc x then acc else acc ++ [x]) l acc = acc ++ l.
Proof.
  induction l as [|x l IH]; intros acc Hnd; simpl; [by rewrite app_nil_r|].
  assert (includes acc x = false) as ->.
  { apply includes_false. intros Hin. apply NoDup_ListNoDup, NoDup_app in Hnd as (_ & Hd & _).
    apply (Hd x); [by apply list_elem_of_In|by left]. }
  rewrite IH; rewrite <- app_assoc; done.
Qed.

Lemma unique_id (l : list A) : List.NoDup l → unique l = l.
Proof. apply (unique_go_app l []). Qed.

Lemma unique_nil l : unique l = [] → l = [].
Proof.
  intros H. destruct l as [|x l]; [done|].
  exfalso. assert (In x (unique (x :: l))) as Hin by (apply unique_In; by left).
  by rewrite H in Hin.
Qed.
End Includes.

Lemma NoDup_map_inj {A B} (f : A → B) l a b : List.NoDup (map f l) → In a l → In b l → f a = f b → a = b.
Proof.
  induction l as [|x l IH]; [done|]. cbn [map]. intros Hu Ha Hb E. apply List.NoDup_cons_iff in Hu as [Hn Hu].
  destruct Ha as [->|Ha], Hb as [->|Hb]; [done| | |by apply IH]; destruct Hn; [rewrite E|rewrite <- E]; by apply in_map.
Qed.

(** ** JavaScript `Map`s and objects read through `Object.entries`

    Both keep their entries in insertion order and write an existing key in
    place.  An object literal evaluated from the configuration is the list of
    its `Object.entries`. *)

Section JsMap.
Context {K V : Type} `{EqDecision K}.

Fixpoint map_get (m : list (K * V)) (k : K) : option V :=
  match m with
  | [] => None
  | (k', v) :: m' => if decide (k = k') then Some v else map_get m' k
  end.

Fixpoint map_set (m : list (K * V)) (k : K) (v : V) : list (K * V) :=
  match m with
  | [] => [(k, v)]
  | (k', v') :: m' =>
      if decide (k = k') then (k', v) :: m' else (k', v') :: map_set m' k v
  end.

Definition map_has (m : list (K * V)) (k : K) : bool :=
  match map_get m k with Some _ => true | None => false end.

Fixpoint map_delete (m : list (K * V)) (k : K) : list (K * V) :=
  match m with
  | [] => []
  | (k', v) :: m' =>
      if decide (k = k') then m' else (k', v) :: map_delete m' k
  end.

(** `for (const [k, v] of entries) map.set(k, v)`, also `{...m, ...entries}`. *)
Definition map_set_all (m entries : list (K * V)) : list (K * V) :=
  fold_left (λ acc e, map_set acc e.1 e.2) entries m.

Definition map_keys (m : list (K * V)) : list K := m.*1.

Lemma map_get_In m k v : map_get m k = Some v → In (k, v) m.
Proof.
  induction m as [|[k' v'] m IH]; simpl; [done|].
  case_decide; naive_solver.
Qed.

Lemma map_get_None m k : map_get m k = None ↔ ¬ In k (map_keys m).
Proof.
  induction m as [|[k' v'] m IH]; simpl; [tauto|].
  case_decide; naive_solver.
Qed.

Lemma In_map_get m k v : In (k, v) m → ∃ v', map_get m k = Some v'.
Proof.
  intros Hin. destruct (map_get m k) eqn:E; [eauto|].
  apply map_get_None in E. destruct E. by apply (in_map fst) in Hin.
Qed.

Lemma map_get_NoDup m k v :
  List.NoDup (map_keys m) → In (k, v) m → map_get m k = Some v.
Proof.
  induction m as [|[k' v'] m IH]; simpl; [done|].
  intros Hnd Hin. inversion_clear Hnd as [|? ? Hk Hnd'].
  case_decide as Hd; [subst|naive_solver].
  destruct Hin as [?|Hin]; [by simplify_eq|].
  destruct Hk. by apply (in_map fst) in Hin.
Qed.

Lemma map_get_set_eq m k v : map_get (map_set m k v) k = Some v.
Proof.
  induction m as [|[k' v'] m IH]; simpl; [by rewrite decide_True|].
  case_decide; simpl; [by rewrite decide_True|by rewrite decide_False].
Qed.

Lemma map_get_set_ne m k k' v :
  k ≠ k' → map_get (map_set m k v) k' = map_get m k'.
Proof.
  intros Hne. induction m as [|[j w] m IH]; simpl.
  - by rewrite decide_False by congruence.
  - case_decide; simpl; [subst; by rewrite !decide_False by congruence|].
    case_decide; done.
Qed.

Lemma map_get_set m k k' v :
  map_get (map_set m k v) k' = if decide (k = k') then Some v else map_get m k'.
Proof.
  case_decide; [subst; apply map_get_set_eq|by apply map_get_set_ne].
Qed.

Lemma map_keys_set m k v x :
  In x (map_keys (map_set m k v)) ↔ x = k ∨ In x (map_keys m).
Proof.
  induction m as [|[j w] m IH]; simpl; [naive_solver|].
  case_decide; simpl; [subst|]; naive_solver.
Qed.

Lemma map_set_NoDup m k v :
  List.NoDup (map_keys m) → List.NoDup (map_keys (map_set m k v)).
Proof.
  induction m as [|[j w] m IH]; simpl.
  - intros _. repeat constructor. tauto.
  - intros Hnd. inversion_clear Hnd as [|? ? Hj Hnd'].
    case_decide; simpl; constructor; auto.
    change (¬ In j (map_keys (map_set m k v))). rewrite map_keys_set. naive_solver.
Qed.

Lemma map_set_all_NoDup es : ∀ m,
  List.NoDup (map_keys m) → List.NoDup (map_keys (map_set_all m es)).
Proof.
  induction es as [|[k v] es IH]; intros m Hm; simpl; [done|].
  by apply IH, map_set_NoDup.
Qed.

Lemma map_get_delete_ne m k k' :
  k ≠ k' → map_get (map_delete m k) k' = map_get m k'.
Proof.
  intros Hne. induction m as [|[j w] m IH]; simpl; [done|].
  case_decide; simpl; [subst; by rewrite decide_False by congruence|].
  case_decide; done.
Qed.

Lemma map_set_In m k v x : In x (map_set m k v) → x = (k, v) ∨ In x m.
Proof.
  induction m as [|[j w] m IH]; simpl; [naive_solver|].
  case_decide; simpl; [subst|]; naive_solver.
Qed.

Lemma map_delete_In m k x : In x (map_delete m k) → In x m.
Proof.
  induction m as [|[j w] m IH]; simpl; [done|]. case_decide; naive_solver.
Qed.

Lemma map_delete_NoDup m k :
  List.NoDup (map_keys m) →
  List.NoDup (map_keys (map_delete m k)) ∧ ¬ In k (map_keys (map_delete m k)).
Proof.
  induction m as [|[j w] m IH]; simpl; [split; [constructor|tauto]|].
  intros Hnd. inversion_clear Hnd as [|? ? Hj Hnd'].
  destruct (IH Hnd') as [IH1 IH2].
  case_decide as Hd; simpl; [by subst|].
  split; [|naive_solver]. constructor; [|done].
  intros (p & <- & Hp%map_delete_In)%in_map_iff. apply Hj, in_map_iff. eauto.
Qed.

Lemma map_get_delete_eq m k :
  List.NoDup (map_keys m) → map_get (map_delete m k) k = None.
Proof. intros [_ H]%(map_delete_NoDup m k). by apply map_get_None. Qed.

Lemma map_delete_length (m : list (K * V)) key :
  length (map_delete m key) =
  (length m - match map_get m key with Some _ => 1 | None => 0 end)%nat.
Proof.
  induction m as [|[k v] m IH]; simpl; [done|]. case_decide; simpl; [lia|].
  rewrite IH. destruct (map_get m key) eqn:E; [|lia].
  destruct m; [done|]. simpl. lia.
Qed.

Lemma map_set_missing m key v' :
  map_get m key = None → map_set m key v' = m ++ [(key, v')].
Proof.
  induction m as [|[k v] m IH]; simpl; [done|]. case_decide; [done|].
  intros Hget. by rewrite IH.
Qed.

Lemma map_delete_sublist (m : list (K * V)) key : map_delete m key `sublist_of` m.
Proof.
  induction m as [|[k v] m IH]; simpl; [done|]. case_decide; [by apply sublist_cons|by constructor].
Qed.

Lemma sublist_keys_NoDup (l m : list (K * V)) :
  l `sublist_of` m → List.NoDup (map_keys m) → List.NoDup (map_keys l).
Proof.
  intros Hl. rewrite <- !NoDup_ListNoDup. unfold map_keys. intros Hnd.
  eapply sublist_NoDup; [exact Hnd|]. by apply fmap_sublist.
Qed.

Lemma map_get_missing_app (l : list (K * V)) key v' k :
  map_get (l ++ [(key, v')]) k =
  match map_get l k with Some e => Some e | None => if decide (k = key) then Some v' else None end.
Proof.
  induction l as [|[k' v] l IH]; simpl; [by repeat case_decide|].
  destruct (decide (k = k')); [done|exact IH].
Qed.

Lemma map_delete_perm m k v : map_get m k = Some v → m ≡ₚ (k, v) :: map_delete m k.
Proof.
  induction m as [|[j w] m IH]; simpl; [done|]. case_decide; [naive_solver|].
  intros Hv%IH. rewrite Hv at 1. apply perm_swap.
Qed.

Lemma map_delete_missing m k : map_get m k = None → map_delete m k = m.
Proof. induction m as [|[j w] m IH]; simpl; [done|]. case_decide; [done|]. by intros ->%IH. Qed.
Lemma map_get_perm m m' k : m ≡ₚ m' → List.NoDup (map_keys m) → map_get m k = map_get m' k.
Proof.
  intros Hp Hnd. assert (List.NoDup (map_keys m')) as Hnd'.
  { eapply Permutation_NoDup; [|exact Hnd]. by apply Permutation.Permutation_map. }
  destruct (map_get m' k) as [v|] eqn:E.
  - apply map_get_NoDup; [done|]. apply map_get_In in E. eapply Permutation_in; [symmetry; exact Hp|done].
  - apply map_get_None in E. apply map_get_None. intros Hin. apply E.
    eapply Permutation_in; [|exact Hin]. by apply Permutation.Permutation_map.
Qed.
End JsMap.

(** Reading `object[name]`: an own property, a property inherited from
    `Object.prototype`, or `undefined`. *)
Inductive PropRead (V : Type) : Type :=
  | Own (v : V)
  | Inherited
  | Missing.
Arguments Own {V} v.
Arguments Inherited {V}.
Arguments Missing {V}.

Definition object_prototype_names : list string :=
  ["constructor"; "__defineGetter__"; "__defineSetter__"; "hasOwnProperty";
   "__lookupGetter__"; "__lookupSetter__"; "isPrototypeOf";
   "propertyIsEnumerable"; "toString"; "valueOf"; "__proto__";
   "toLocaleString"]%string.

Definition prop_read {V} (o : list (string * V)) (name : string) : PropRead V :=
  match map_get o name with
  | Some v => Own v
  | None => if includes object_prototype_names name then Inherited else Missing
  end.

(** ** Automation shared by every file *)

Lemma forallb_impl {A} (f g : A → bool) l :
  (∀ x, In x l → f x = true → g x = true) → forallb f l = true → forallb g l = true.
Proof. rewrite !forallb_forall. naive_solver. Qed.

Lemma forallb_false {A} (f : A → bool) l :
  forallb f l = false ↔ ∃ x, In x l ∧ f x = false.
Proof.
  induction l as [|y l IH]; simpl; [naive_solver|].
  rewrite andb_false_iff, IH. naive_solver.
Qed.

Lemma existsb_false {A} (f : A → bool) l :
  existsb f l = false ↔ ∀ x, In x l → f x = false.
Proof.
  induction l as [|y l IH]; simpl; [naive_solver|].
  rewrite orb_false_iff, IH. naive_solver.
Qed.

Create HintDb jsdb.
Create Rewrite HintDb jsdb.
#[export] Hint Rewrite @includes_In @includes_false @unique_In : jsdb.
#[export] Hint Rewrite andb_true_iff orb_true_iff negb_true_iff negb_false_iff : jsdb.
#[export] Hint Rewrite @forallb_forall @existsb_exists : jsdb.
#[export] Hint Resolve map_get_In unique_NoDup map_set_NoDup map_set_all_NoDup : jsdb.

(** Turn every boolean test of the code in the context into the proposition it
    decides. *)
Ltac reflect_js := autorewrite with jsdb in *.

(** Case analysis on the scrutinees of the hypotheses and the goal. *)
Ltac case_js :=
  repeat (case_match; simplify_eq/=; try done).
