(* ===== verification/JsString.v ===== *)
(** * JavaScript strings

    The methods of [String.prototype] the program uses, on strings of 8-bit
    code units.  Case mapping is the ASCII one: the inputs it is applied to are
    HTTP methods and DNS names. *)
From S2P Require Import Prelude.

#[global] Arguments String.append : simpl nomatch.

Open Scope string_scope.
Open Scope list_scope.

Abbreviation slen := String.length.

(** ** `s.split(c)` for a one-character separator, and `tokens.join(c)` *)

Fixpoint split_on (c : ascii) (s : string) : list string :=
  match s with
  | EmptyString => [""]
  | String a s' =>
      if Ascii.eqb a c then "" :: split_on c s'
      else match split_on c s' with
           | [] => [String a ""]
           | t :: ts => String a t :: ts
           end
  end.

Fixpoint join (sep : string) (ts : list string) : string :=
  match ts with
  | [] => ""
  | [t] => t
  | t :: ts' => t +:+ sep +:+ join sep ts'
  end.

Fixpoint has_char (c : ascii) (s : string) : bool :=
  match s with
  | EmptyString => false
  | String a s' => Ascii.eqb a c || has_char c s'
  end.

Fixpoint string_all (f : ascii → bool) (s : string) : bool :=
  match s with
  | EmptyString => true
  | String a s' => f a && string_all f s'
  end.

(** ** Searching *)

(** `s.startsWith(pre)` and `s.endsWith(suf)`. *)
Definition startsWith (s pre : string) : bool := String.prefix pre s.

Definition endsWith (s suf : string) : bool :=
  (slen suf <=? slen s)%nat &&
  String.eqb (String.substring (slen s - slen suf) (slen suf) s) suf.

(** `s.includes(sub)`. *)
Fixpoint str_includes (s sub : string) : bool :=
  String.prefix sub s ||
  match s with
  | EmptyString => false
  | String _ s' => str_includes s' sub
  end.

(** `s.indexOf(c)` for one character; [None] is `-1`. *)
Fixpoint indexOf (s : string) (c : ascii) : option nat :=
  match s with
  | EmptyString => None
  | String a s' => if Ascii.eqb a c then Some 0 else S <$> indexOf s' c
  end.

(** `s.lastIndexOf(c)` for one character. *)
Fixpoint lastIndexOf (s : string) (c : ascii) : option nat :=
  match s with
  | EmptyString => None
  | String a s' =>
      match lastIndexOf s' c with
      | Some i => Some (S i)
      | None => if Ascii.eqb a c then Some 0 else None
      end
  end.

(** `s.slice(i)` and `s.slice(i, j)` for non-negative arguments. *)
Fixpoint drop_str (n : nat) (s : string) : string :=
  match n, s with
  | 0, _ => s
  | S n', String _ s' => drop_str n' s'
  | S _, EmptyString => ""
  end.

Fixpoint take_str (n : nat) (s : string) : string :=
  match n, s with
  | 0, _ => ""
  | S n', String a s' => String a (take_str n' s')
  | S _, EmptyString => ""
  end.

Definition slice (i j : nat) (s : string) : string := take_str (j - i) (drop_str i s).

(** `s.replaceAll(ab, by)` for a two-character needle. *)
Fixpoint replace2 (a b : ascii) (by_ s : string) : string :=
  match s with
  | EmptyString => ""
  | String x s' =>
      match s' with
      | EmptyString => s
      | String y s'' =>
          if Ascii.eqb x a && Ascii.eqb y b then by_ +:+ replace2 a b by_ s''
          else String x (replace2 a b by_ s')
      end
  end.

(** ** Character classes and case *)

Definition code (a : ascii) : nat := nat_of_ascii a.
Definition in_range (lo hi : nat) (a : ascii) : bool :=
  (lo <=? code a)%nat && (code a <=? hi)%nat.

Definition is_digit : ascii → bool := in_range 48 57.
Definition is_upper : ascii → bool := in_range 65 90.
Definition is_lower : ascii → bool := in_range 97 122.
Definition is_alpha (a : ascii) : bool := is_upper a || is_lower a.

Definition upper_char (a : ascii) : ascii :=
  if is_lower a then ascii_of_nat (code a - 32) else a.
Definition lower_char (a : ascii) : ascii :=
  if is_upper a then ascii_of_nat (code a + 32) else a.

Fixpoint map_string (f : ascii → ascii) (s : string) : string :=
  match s with
  | EmptyString => ""
  | String a s' => String (f a) (map_string f s')
  end.

Definition toUpperCase : string → string := map_string upper_char.
Definition toLowerCase : string → string := map_string lower_char.

(** `"x".repeat(n)` and `s.padEnd(n)`. *)
Fixpoint repeat_str (n : nat) (s : string) : string :=
  match n with 0 => "" | S n' => s +:+ repeat_str n' s end.

Definition padEnd (s : string) (n : nat) : string :=
  s +:+ repeat_str (n - slen s) " ".

(** ** Lemmas *)

Lemma sapp_nil_r s : s +:+ "" = s.
Proof. induction s; simpl; congruence. Qed.

Lemma sapp_assoc (a b c : string) : (a +:+ b) +:+ c = a +:+ (b +:+ c).
Proof. induction a; simpl; congruence. Qed.

Lemma slen_app a b : slen (a +:+ b) = (slen a + slen b)%nat.
Proof. induction a; simpl; congruence. Qed.

Lemma sapp_inj_l a b c : a +:+ b = a +:+ c → b = c.
Proof. induction a; simpl; [done|]. intros [=]; auto. Qed.

Lemma sapp_inj_len a a' b b' :
  a +:+ b = a' +:+ b' → slen a = slen a' → a = a' ∧ b = b'.
Proof.
  revert a'. induction a as [|x a IH]; intros [|x' a']; simpl; try done.
  intros [= -> H] [= Hl]. by destruct (IH a' H Hl) as [-> ->].
Qed.

Lemma sapp_inj_r a b c : a +:+ c = b +:+ c → a = b.
Proof.
  intros H. assert (slen a = slen b).
  { apply (f_equal slen) in H. rewrite !slen_app in H. lia. }
  by destruct (sapp_inj_len _ _ _ _ H).
Qed.

Lemma split_on_nonempty c s : split_on c s ≠ [].
Proof. destruct s; simpl; [done|]. case_match; [done|]. by case_match. Qed.

Lemma join_cons sep t ts :
  ts ≠ [] → join sep (t :: ts) = t +:+ sep +:+ join sep ts.
Proof. by destruct ts. Qed.

(** Splitting and joining on the same character is the identity. *)
Lemma join_split c s : join (String c "") (split_on c s) = s.
Proof.
  induction s as [|a s IH]; simpl; [done|].
  destruct (Ascii.eqb_spec a c) as [->|Hne].
  - rewrite join_cons by apply split_on_nonempty. simpl. by rewrite IH.
  - pose proof (split_on_nonempty c s).
    destruct (split_on c s) as [|t [|t' ts]]; simpl in *; congruence.
Qed.

Lemma split_on_char_free c s : has_char c s = false → split_on c s = [s].
Proof.
  induction s as [|a s IH]; simpl; [done|].
  intros [Ha Hs]%orb_false_iff. by rewrite Ha, IH.
Qed.

Lemma split_on_app c t s :
  has_char c t = false → split_on c (t +:+ String c s) = t :: split_on c s.
Proof.
  induction t as [|a t IH]; simpl.
  - by rewrite Ascii.eqb_refl.
  - intros [Ha Ht]%orb_false_iff. by rewrite Ha, IH.
Qed.

(** Joining and splitting again gives the tokens back when no token holds the
    separator. *)
Lemma split_join c ts :
  ts ≠ [] → Forall (λ t, has_char c t = false) ts →
  split_on c (join (String c "") ts) = ts.
Proof.
  induction ts as [|t ts IH]; intros Hne Hf; [done|].
  inversion_clear Hf as [|? ? Ht Hts].
  destruct (decide (ts = [])) as [->|Hne']; [by apply split_on_char_free|].
  rewrite join_cons by done. simpl. by rewrite split_on_app, IH.
Qed.

Lemma split_on_char_free_tokens c s :
  Forall (λ t, has_char c t = false) (split_on c s).
Proof.
  induction s as [|a s IH]; simpl; [by repeat constructor|].
  destruct (Ascii.eqb a c) eqn:E; [by constructor|].
  destruct (split_on c s); [repeat constructor; simpl; by rewrite E|].
  inversion_clear IH. constructor; simpl; [|done]. by rewrite E.
Qed.

Lemma has_char_app c a b : has_char c (a +:+ b) = has_char c a || has_char c b.
Proof. induction a; simpl; [done|]. by rewrite <- orb_assoc, IHa. Qed.

Lemma drop_str_app a b : drop_str (slen a) (a +:+ b) = b.
Proof. induction a; simpl; auto. Qed.

Lemma take_str_app a b : take_str (slen a) (a +:+ b) = a.
Proof. induction a; simpl; congruence. Qed.

Lemma take_drop_str n s : take_str n s +:+ drop_str n s = s.
Proof. revert s. induction n; intros [|a s]; simpl; congruence. Qed.

Lemma slen_drop_str n s : slen (drop_str n s) = (slen s - n)%nat.
Proof. revert s. induction n; intros [|a s]; simpl; auto. Qed.

Lemma substring_drop s : ∀ n m,
  String.substring n m s = take_str m (drop_str n s).
Proof.
  induction s as [|a s IH]; intros [|n] [|m]; simpl; try done; by rewrite IH.
Qed.

Lemma take_str_all s n : (slen s ≤ n)%nat → take_str n s = s.
Proof.
  revert n. induction s as [|a s IH]; intros [|n]; simpl; intros; try done; [lia|].
  f_equal. apply IH. lia.
Qed.

Lemma startsWith_iff s pre : startsWith s pre = true ↔ ∃ r, s = pre +:+ r.
Proof.
  unfold startsWith. revert s. induction pre as [|a pre IH]; intros s; simpl.
  - destruct s; split; eauto.
  - destruct s as [|b s]; simpl; [split; [done|by intros [r [=]]]|].
    destruct (ascii_dec a b) as [->|Hne].
    + rewrite IH. split; intros [r Hr]; exists r; congruence.
    + split; [done|]. intros [r [=]]. congruence.
Qed.

Lemma endsWith_iff s suf : endsWith s suf = true ↔ ∃ p, s = p +:+ suf.
Proof.
  unfold endsWith. rewrite andb_true_iff, Nat.leb_le, String.eqb_eq, substring_drop.
  split.
  - intros [Hl He]. exists (take_str (slen s - slen suf) s).
    rewrite <- (take_drop_str (slen s - slen suf) s) at 1. f_equal.
    rewrite take_str_all in He; [done|]. rewrite slen_drop_str. lia.
  - intros [p ->]. rewrite slen_app. split; [lia|].
    replace (slen p + slen suf - slen suf)%nat with (slen p) by lia.
    rewrite drop_str_app. by apply take_str_all.
Qed.

Lemma indexOf_None s c : indexOf s c = None ↔ has_char c s = false.
Proof.
  induction s as [|a s IH]; simpl; [done|].
  destruct (Ascii.eqb a c); simpl; [done|].
  rewrite <- IH. by destruct (indexOf s c).
Qed.

Lemma lastIndexOf_None s c : lastIndexOf s c = None ↔ has_char c s = false.
Proof.
  induction s as [|a s IH]; simpl; [done|].
  rewrite orb_false_iff, <- IH. destruct (lastIndexOf s c) as [i|]; [naive_solver|].
  by destruct (Ascii.eqb a c); naive_solver.
Qed.

Lemma lastIndexOf_app a b c :
  has_char c b = false → lastIndexOf (a +:+ String c b) c = Some (slen a).
Proof.
  intros Hb. induction a as [|x a IH]; simpl.
  - rewrite (proj2 (lastIndexOf_None b c) Hb). by rewrite Ascii.eqb_refl.
  - by rewrite IH.
Qed.

Lemma toLowerCase_app a b : toLowerCase (a +:+ b) = toLowerCase a +:+ toLowerCase b.
Proof. unfold toLowerCase. induction a; simpl; congruence. Qed.

Lemma lower_char_idem a : lower_char (lower_char a) = lower_char a.
Proof. by destruct a as [[] [] [] [] [] [] [] []]. Qed.

Lemma upper_char_idem a : upper_char (upper_char a) = upper_char a.
Proof. by destruct a as [[] [] [] [] [] [] [] []]. Qed.

Lemma toLowerCase_idem s : toLowerCase (toLowerCase s) = toLowerCase s.
Proof.
  unfold toLowerCase. induction s; simpl; [done|]. by rewrite lower_char_idem, IHs.
Qed.

Lemma toUpperCase_idem s : toUpperCase (toUpperCase s) = toUpperCase s.
Proof.
  unfold toUpperCase. induction s; simpl; [done|]. by rewrite upper_char_idem, IHs.
Qed.

#[export] Hint Rewrite sapp_nil_r sapp_assoc slen_app : jsdb.
#[export] Hint Resolve split_on_nonempty split_on_char_free_tokens : jsdb.

Lemma str_includes_char s c : str_includes s (String c "") = has_char c s.
Proof.
  induction s as [|a s IH]; [done|]. cbn [str_includes has_char]. rewrite IH. f_equal.
  unfold startsWith. simpl. destruct (ascii_dec c a) as [->|Hn].
  - rewrite Ascii.eqb_refl. by destruct s.
  - symmetry. apply Ascii.eqb_neq. congruence.
Qed.

Lemma string_all_free (f : ascii → bool) c s :
  f c = false → string_all f s = true → has_char c s = false.
Proof.
  intros Hf. induction s as [|a s IH]; simpl; [done|]. intros [Ha Hs]%andb_true_iff.
  rewrite IH by done. destruct (Ascii.eqb_spec a c) as [->|]; [congruence|done].
Qed.

