(* ===== verification/Json.v ===== *)
(** * JSON values and JavaScript numbers

    A finite non-zero number is its sign, its shortest decimal significand [s]
    and its decimal point position [n]: the triple from which ECMAScript's
    Number::toString prints it, value [s * 10 ^ (n - k)] with [k] the number of
    digits of [s]. *)
From S2P Require Import Prelude JsString.
From Stdlib Require Import DecimalString DecimalFacts DecimalPos DecimalN DecimalZ.

(** ** Numbers *)

Inductive number : Type :=
  | NaN
  | Infinite (neg : bool)
  | Zero (neg : bool)
  | Finite (neg : bool) (s : positive) (n : Z).

#[export] Instance number_eq_dec : EqDecision number.
Proof. solve_decision. Defined.

(** Decimal digits of a natural number and of an integer. *)
Definition N_to_string (n : N) : string := NilZero.string_of_uint (N.to_uint n).
Definition Z_to_string (z : Z) : string :=
  match z with
  | Z0 => "0"
  | Zpos p => N_to_string (Npos p)
  | Zneg p => "-" +:+ N_to_string (Npos p)
  end.
Definition nat_to_string (n : nat) : string := N_to_string (N.of_nat n).

Definition pos_to_string (p : positive) (n : Z) : string :=
  let digits := N_to_string (Npos p) in
  let k := Z.of_nat (slen digits) in
  if (k <=? n)%Z && (n <=? 21)%Z then
    digits +:+ repeat_str (Z.to_nat (n - k)) "0"
  else if (0 <? n)%Z && (n <=? 21)%Z then
    take_str (Z.to_nat n) digits +:+ "." +:+ drop_str (Z.to_nat n) digits
  else if (-6 <? n)%Z && (n <=? 0)%Z then
    "0." +:+ repeat_str (Z.to_nat (- n)) "0" +:+ digits
  else
    let e := (n - 1)%Z in
    let exponent := (if (e <? 0)%Z then "-" else "+") +:+ Z_to_string (Z.abs e) in
    if (k =? 1)%Z then digits +:+ "e" +:+ exponent
    else take_str 1 digits +:+ "." +:+ drop_str 1 digits +:+ "e" +:+ exponent.

(** `String(x)` for a number. *)
Definition number_to_string (x : number) : string :=
  match x with
  | NaN => "NaN"
  | Zero _ => "0"
  | Infinite neg => (if neg then "-" else "") +:+ "Infinity"
  | Finite neg s n => (if neg then "-" else "") +:+ pos_to_string s n
  end.

(** `Number.isFinite`. *)
Definition number_isFinite (x : number) : bool :=
  match x with NaN | Infinite _ => false | _ => true end.

(** The number an integer literal denotes. *)
Fixpoint strip_zeros (fuel : nat) (p : N) : N :=
  match fuel with
  | 0 => p
  | S f => if (p mod 10 =? 0)%N then strip_zeros f (p / 10)%N else p
  end.

Definition of_Z (z : Z) : number :=
  match z with
  | Z0 => Zero false
  | _ =>
      let a := Z.abs_N z in
      let k := slen (N_to_string a) in
      match strip_zeros k a with
      | Npos s => Finite (z <? 0)%Z s (Z.of_nat k)
      | N0 => Zero false
      end
  end.

(** ** Scalars and values *)

Inductive JsonScalar : Type :=
  | ScString (s : string)
  | ScNumber (x : number)
  | ScBoolean (b : bool).

#[export] Instance JsonScalar_eq_dec : EqDecision JsonScalar.
Proof. solve_decision. Defined.

Inductive JsonValue : Type :=
  | JNull
  | JScalar (s : JsonScalar)
  | JArray (elements : list JsonValue)
  | JObject (members : list (string * JsonValue)).

(** Induction with the hypotheses for the elements and the members. *)
Fixpoint JsonValue_rect' (P : JsonValue → Prop)
    (Hnull : P JNull) (Hscalar : ∀ s, P (JScalar s))
    (Harray : ∀ l, Forall P l → P (JArray l))
    (Hobject : ∀ m, Forall (λ e, P e.2) m → P (JObject m))
    (v : JsonValue) : P v :=
  let rec := JsonValue_rect' P Hnull Hscalar Harray Hobject in
  match v with
  | JNull => Hnull
  | JScalar s => Hscalar s
  | JArray l => Harray l
      ((fix go l := match l return Forall P l with
        | [] => Forall_nil_2 P
        | x :: l' => Forall_cons_2 _ _ _ (rec x) (go l') end) l)
  | JObject m => Hobject m
      ((fix go m := match m return Forall (λ e, P e.2) m with
        | [] => Forall_nil_2 _
        | e :: m' => Forall_cons_2 _ _ _ (rec e.2) (go m') end) m)
  end.

(** `String(v)` and `typeof v` for a scalar. *)
Definition scalar_to_string (v : JsonScalar) : string :=
  match v with
  | ScString s => s
  | ScNumber x => number_to_string x
  | ScBoolean b => if b then "true" else "false"
  end.

Definition scalar_typeof (v : JsonScalar) : string :=
  match v with
  | ScString _ => "string"
  | ScNumber _ => "number"
  | ScBoolean _ => "boolean"
  end.

(** ** `JSON.stringify` *)

Definition hex_digit (n : nat) : string :=
  match String.get n "0123456789abcdef" with
  | Some a => String a ""
  | None => ""
  end.

Definition escape_char (a : ascii) : string :=
  match code a with
  | 34 => "\" +:+ String (ascii_of_nat 34) ""
  | 92 => "\\"
  | 8 => "\b"
  | 12 => "\f"
  | 10 => "\n"
  | 13 => "\r"
  | 9 => "\t"
  | n => if (n <? 32)%nat
         then "\u00" +:+ hex_digit (n / 16) +:+ hex_digit (n mod 16)
         else String a ""
  end.

Fixpoint escape_string (s : string) : string :=
  match s with
  | EmptyString => ""
  | String a s' => escape_char a +:+ escape_string s'
  end.

Definition dquote : string := String (ascii_of_nat 34) "".

Definition stringify_string (s : string) : string := dquote +:+ escape_string s +:+ dquote.

Definition stringify_scalar (v : JsonScalar) : string :=
  match v with
  | ScString s => stringify_string s
  | ScNumber x => if number_isFinite x then number_to_string x else "null"
  | ScBoolean b => if b then "true" else "false"
  end.

Fixpoint stringify (v : JsonValue) : string :=
  match v with
  | JNull => "null"
  | JScalar s => stringify_scalar s
  | JArray l => "[" +:+ join "," (map stringify l) +:+ "]"
  | JObject m =>
      "{" +:+ join "," (map (λ e, stringify_string e.1 +:+ ":" +:+ stringify e.2) m) +:+ "}"
  end.

(** ** Lemmas on decimal printing *)

Lemma string_of_uint_inj u v :
  u ≠ Decimal.Nil → v ≠ Decimal.Nil →
  NilZero.string_of_uint u = NilZero.string_of_uint v → u = v.
Proof.
  intros Hu Hv H. apply (f_equal NilZero.uint_of_string) in H.
  rewrite !NilZero.usu in H by done. congruence.
Qed.

Lemma N_to_string_inj a b : N_to_string a = N_to_string b → a = b.
Proof.
  intros H. apply DecimalN.Unsigned.to_uint_inj.
  assert (∀ n, N.to_uint n ≠ Decimal.Nil).
  { intros [|p]; simpl; [done|]. apply DecimalPos.Unsigned.to_uint_nonnil. }
  by apply string_of_uint_inj.
Qed.

Example number_to_string_ex :
  map number_to_string
    [of_Z 0; of_Z 443; of_Z (-1500); Finite false 15 1; Finite false 1 (-6);
     Finite false 25 0; Finite false 1 22; Zero true]
  = ["0"; "443"; "-1500"; "1.5"; "1e-7"; "0.25"; "1e+21"; "0"].
Proof. vm_compute. reflexivity. Qed.

Lemma N_to_string_digits n : string_all is_digit (N_to_string n) = true.
Proof.
  assert (∀ d, string_all is_digit (NilEmpty.string_of_uint d) = true) as H.
  { induction d; cbn; auto. }
  unfold N_to_string, NilZero.string_of_uint. by destruct (N.to_uint n); [|apply H..].
Qed.

Lemma Z_to_string_digits z : (0 ≤ z)%Z → string_all is_digit (Z_to_string z) = true.
Proof. destruct z; [done|intros _; apply N_to_string_digits|lia]. Qed.

(** ** Integers as JSON writes them *)

(** The integer a number is. *)
Definition number_to_Z (x : number) : option Z :=
  match x with
  | Zero _ => Some 0%Z
  | Finite neg s n =>
      let k := Z.of_nat (slen (N_to_string (Npos s))) in
      if (k <=? n)%Z then Some ((if neg then -1 else 1) * Zpos s * 10 ^ (n - k))%Z else None
  | _ => None
  end.

Lemma digits_tenfold p : slen (N_to_string (10 * Npos p)) = S (slen (N_to_string (Npos p))).
Proof.
  assert (∀ q, slen (N_to_string (Npos q)) = Decimal.nb_digits (Pos.to_little_uint q)) as Hd.
  { assert (∀ d, slen (NilEmpty.string_of_uint d) = Decimal.nb_digits d) as Hs
      by (induction d; cbn; auto).
    intros q. unfold N_to_string, NilZero.string_of_uint. cbn [N.to_uint].
    rewrite <- (nb_digits_rev (Pos.to_little_uint q)). change (Decimal.rev (Pos.to_little_uint q)) with (Pos.to_uint q).
    rewrite <- Hs. destruct (Pos.to_uint q) eqn:E; [|done..]. by destruct (DecimalPos.Unsigned.to_uint_nonnil q). }
  change (10 * Npos p)%N with (Npos (10 * p)). rewrite !Hd.
  pose proof (DecimalPos.Unsigned.to_ldec_tenfold p) as Ht.
  change (Pos.to_little_uint (10 * p) = Decimal.D0 (Pos.to_little_uint p)) in Ht. by rewrite Ht.
Qed.

Lemma strip_zeros_spec fuel : ∀ p, (0 < p)%N →
  ∃ j s, strip_zeros fuel p = Npos s ∧ p = (Npos s * 10 ^ N.of_nat j)%N ∧
         slen (N_to_string p) = (slen (N_to_string (Npos s)) + j)%nat.
Proof.
  induction fuel as [|fuel IH]; intros p Hp; cbn [strip_zeros].
  - destruct p as [|p]; [lia|]. exists 0, p. split_and!; [done|by rewrite N.mul_1_r|by rewrite Nat.add_0_r].
  - destruct (N.eqb_spec (p mod 10) 0) as [Hm|Hm].
    + pose proof (N.div_mod p 10 ltac:(done)) as Hd. rewrite Hm, N.add_0_r in Hd. clear Hm. revert Hd.
      generalize (p / 10)%N. intros q Hd. destruct (IH q) as (j & s & H1 & H2 & H3); [lia|]. exists (S j), s.
      split_and!; [done|..].
      * rewrite Hd, H2, Nat2N.inj_succ, N.pow_succ_r by lia. lia.
      * destruct q as [|q]; [lia|]. rewrite Hd, digits_tenfold, H3. by rewrite Nat.add_succ_r.
    + destruct p as [|p]; [lia|]. exists 0, p. split_and!; [done|by rewrite N.mul_1_r|by rewrite Nat.add_0_r].
Qed.

Lemma number_to_Z_of_Z z : number_to_Z (of_Z z) = Some z.
Proof.
  destruct (decide (z = 0%Z)) as [->|Hz]; [done|].
  assert (of_Z z = match strip_zeros (slen (N_to_string (Z.abs_N z))) (Z.abs_N z) with
    | Npos s => Finite (z <? 0)%Z s (Z.of_nat (slen (N_to_string (Z.abs_N z)))) | N0 => Zero false end) as ->
    by by destruct z.
  destruct (strip_zeros_spec (slen (N_to_string (Z.abs_N z))) (Z.abs_N z)) as (j & s & -> & H2 & H3); [lia|].
  unfold number_to_Z. rewrite H3. rewrite (proj2 (Z.leb_le _ _)) by lia. f_equal.
  replace (Z.of_nat (_ + j) - _)%Z with (Z.of_nat j) by lia.
  assert (Z.abs z = Zpos s * 10 ^ Z.of_nat j)%Z as Ha.
  { rewrite <- N2Z.inj_abs_N, H2, N2Z.inj_mul, N2Z.inj_pow. by rewrite nat_N_Z. }
  destruct (Z.ltb_spec z 0); lia.
Qed.
