(* ===== verification/Containment.v ===== *)
(** * Accepted sets and the conservative tests on them

    Every axis of the authorization model (a path segment, a method list, a path
    pattern, a body condition, a host pattern, ...) denotes a set of elements and
    comes with two tests, "a is contained in b" and "a and b intersect".
    [ContainmentLaws] is what network/authz/relation.ts promises to its clients:
    a claimed containment is real, claimed containment is transitive, and a
    claimed disjointness is real. *)
From S2P Require Import Prelude.

Class Containment (S E : Type) : Type := {
  mem : S → E → bool;
  subsumes : S → S → bool;
  intersects : S → S → bool;
}.
#[export] Hint Mode Containment ! - : typeclass_instances.

Class ContainmentLaws (S E : Type) `{Containment S E} (wf : S → Prop) : Prop := {
  subsumes_sound (a b : S) (x : E) : subsumes a b = true → mem a x = true → mem b x = true;
  subsumes_trans (a b c : S) : subsumes a b = true → subsumes b c = true → subsumes a c = true;
  intersects_complete (a b : S) (x : E) :
    wf a → wf b → mem a x = true → mem b x = true → intersects a b = true;
}.
#[export] Hint Mode ContainmentLaws ! - - - : typeclass_instances.

(** "Anything goes": the well-formedness of the axes that need none. *)
Definition any {S : Type} (_ : S) : Prop := True.

(** ** Unions

    A list of patterns denotes the union of their sets, and the program tests
    unions by "every pattern of a is contained in some pattern of b". *)
Section Union.
Context {S E : Type} `{ContainmentLaws S E any}.

#[export] Instance union_containment : Containment (list S) E := {
  mem l x := existsb (λ s, mem s x) l;
  subsumes a b := forallb (λ pa, existsb (λ pb, subsumes pa pb) b) a;
  intersects a b := existsb (λ pa, existsb (λ pb, intersects pa pb) b) a;
}.

#[export] Instance union_laws : ContainmentLaws (list S) E any.
Proof.
  split; simpl; intros a b.
  - intros x Hab (s & Hs & Hx)%existsb_exists.
    rewrite forallb_forall in Hab.
    apply Hab in Hs. apply existsb_exists in Hs as (t & Ht & Hst).
    apply existsb_exists. exists t. eauto using subsumes_sound.
  - intros c Hab Hbc. rewrite forallb_forall in *.
    intros s (t & Ht & Hst)%Hab%existsb_exists.
    apply Hbc, existsb_exists in Ht as (u & Hu & Htu).
    apply existsb_exists. exists u. eauto using subsumes_trans.
  - intros x _ _ (s & Hs & Hsx)%existsb_exists (t & Ht & Htx)%existsb_exists.
    apply existsb_exists. exists s. split; [done|].
    apply existsb_exists. exists t. split; [done|].
    by apply (intersects_complete s t x).
Qed.
End Union.

(** ** Finite sets of values, and an optional constraint

    [None] is "no constraint"; a list is a finite set. *)
Section Finite.
Context {A : Type} `{EqDecision A}.

Definition finite_subsumes (a b : list A) : bool := forallb (includes b) a.
Definition finite_intersects (a b : list A) : bool := existsb (includes b) a.

#[export] Instance finite_containment : Containment (list A) A | 100 := {
  mem := includes; subsumes := finite_subsumes; intersects := finite_intersects }.

Lemma finite_subsumes_iff a b :
  finite_subsumes a b = true ↔ ∀ x, In x a → In x b.
Proof.
  unfold finite_subsumes. rewrite forallb_forall. by setoid_rewrite includes_In.
Qed.

Lemma finite_intersects_iff a b :
  finite_intersects a b = true ↔ ∃ x, In x a ∧ In x b.
Proof.
  unfold finite_intersects. rewrite existsb_exists. by setoid_rewrite includes_In.
Qed.

#[export] Instance finite_laws : ContainmentLaws (list A) A any | 100.
Proof.
  split; simpl.
  - intros a b x. rewrite finite_subsumes_iff, !includes_In. naive_solver.
  - intros a b c. rewrite !finite_subsumes_iff. naive_solver.
  - intros a b x _ _. rewrite finite_intersects_iff, !includes_In. naive_solver.
Qed.
End Finite.

(** ** The strict part of containment is a strict order *)
Section Strict.
Context {S E : Type} `{ContainmentLaws S E wf}.

Definition strictly_narrower (a b : S) : bool := subsumes a b && negb (subsumes b a).

Lemma strictly_narrower_irrefl a : strictly_narrower a a = false.
Proof. unfold strictly_narrower. by destruct (subsumes a a). Qed.

Lemma strictly_narrower_trans a b c :
  strictly_narrower a b = true → strictly_narrower b c = true →
  strictly_narrower a c = true.
Proof.
  unfold strictly_narrower. rewrite !andb_true_iff, !negb_true_iff.
  intros [Hab Hba] [Hbc Hcb]. split; [by eapply subsumes_trans|].
  apply not_true_iff_false. intros Hca.
  rewrite (subsumes_trans b c a) in Hba; done.
Qed.
End Strict.
