(* ===== verification/TtlLru.v ===== *)
(** * The bounded cache with expiry (lib/ttl_lru_cache.ts)

    The private `Map` is the list of its entries in insertion order, the least
    recently used one first.  The clock `Date.now()` is an argument. *)
From S2P Require Import Prelude.

Record Entry (V : Type) : Type := { e_value : V; e_expiresAt : Z }.
Arguments e_value {V} _.
Arguments e_expiresAt {V} _.

Record TtlLruCache (K V : Type) : Type := {
  c_maxSize : nat;
  c_ttlMs : Z;
  c_entries : list (K * Entry V);
}.
Arguments c_maxSize {K V} _.
Arguments c_ttlMs {K V} _.
Arguments c_entries {K V} _.

Section Cache.
Context {K V : Type} `{EqDecision K}.

Definition with_entries (c : TtlLruCache K V) (entries : list (K * Entry V)) : TtlLruCache K V :=
  {| c_maxSize := c_maxSize c; c_ttlMs := c_ttlMs c; c_entries := entries |}.

(** The constructor; the errors are its `RangeError`s. *)
Definition newCache (maxSize : nat) (ttlMs : Z) : Result (TtlLruCache K V) :=
  if (maxSize <? 1)%nat then Err "maxSize must be >= 1"
  else if (ttlMs <? 0)%Z then Err "ttlMs must be >= 0"
  else Ok {| c_maxSize := maxSize; c_ttlMs := ttlMs; c_entries := [] |}.

Definition cache_get (now : Z) (c : TtlLruCache K V) (key : K) : option V * TtlLruCache K V :=
  match map_get (c_entries c) key with
  | None => (None, c)
  | Some entry =>
      if (e_expiresAt entry <=? now)%Z
      then (None, with_entries c (map_delete (c_entries c) key))
      else (Some (e_value entry),
            with_entries c (map_set (map_delete (c_entries c) key) key entry))
  end.

Definition cache_set (now : Z) (c : TtlLruCache K V) (key : K) (value : V) : TtlLruCache K V :=
  let entries := map_delete (c_entries c) key in
  let entries :=
    if (c_maxSize c <=? length entries)%nat
    then match entries with
         | [] => []
         | (oldest, _) :: _ => map_delete entries oldest
         end
    else entries in
  with_entries c (map_set entries key {| e_value := value; e_expiresAt := now + c_ttlMs c |}).

Definition cache_delete (c : TtlLruCache K V) (key : K) : bool * TtlLruCache K V :=
  (map_has (c_entries c) key, with_entries c (map_delete (c_entries c) key)).

Definition cache_clear (c : TtlLruCache K V) : TtlLruCache K V := with_entries c [].

Definition cache_size (c : TtlLruCache K V) : nat := length (c_entries c).

(** ** Well-formed caches: distinct keys, at most `maxSize` of them *)

Definition wf_cache (c : TtlLruCache K V) : Prop :=
  (1 ≤ c_maxSize c)%nat ∧ List.NoDup (map_keys (c_entries c)) ∧
  (length (c_entries c) ≤ c_maxSize c)%nat.

(** What `set` keeps: all but the key itself and, at capacity, the oldest. *)
Definition kept_entries (c : TtlLruCache K V) (key : K) : list (K * Entry V) :=
  let entries := map_delete (c_entries c) key in
  if (c_maxSize c <=? length entries)%nat then tail entries else entries.

Lemma cache_set_entries now c key value :
  wf_cache c →
  c_entries (cache_set now c key value) =
  kept_entries c key ++ [(key, {| e_value := value; e_expiresAt := now + c_ttlMs c |})].
Proof.
  intros (_ & Hnd & _). unfold cache_set, kept_entries. cbn [c_entries with_entries].
  destruct (map_delete_NoDup _ key Hnd) as [Hnd' Hout].
  assert (∀ l, sublist l (map_delete (c_entries c) key) → map_get l key = None) as Hsub.
  { intros l Hl. apply map_get_None. intros Hin. apply Hout. unfold map_keys in *.
    apply list_elem_of_In. apply list_elem_of_In in Hin.
    eapply elem_of_sublist; [exact Hin|]. by apply fmap_sublist. }
  destruct (c_maxSize c <=? length (map_delete (c_entries c) key))%nat.
  - destruct (map_delete (c_entries c) key) as [|[oldest e] rest] eqn:E; [done|].
    cbn [map_delete tail]. rewrite decide_True by done. apply map_set_missing, Hsub.
    by apply sublist_cons.
  - by apply map_set_missing, Hsub.
Qed.

Lemma kept_entries_sublist c key : kept_entries c key `sublist_of` map_delete (c_entries c) key.
Proof.
  unfold kept_entries. case_match; [|done].
  destruct (map_delete (c_entries c) key); [done|]. by apply sublist_cons.
Qed.

Lemma kept_entries_length c key :
  wf_cache c → (length (kept_entries c key) < c_maxSize c)%nat.
Proof.
  intros (Hm & _ & Hl). unfold kept_entries. rewrite map_delete_length.
  destruct (Nat.leb_spec (c_maxSize c)
    (length (c_entries c) - match map_get (c_entries c) key with Some _ => 1 | None => 0 end)).
  - pose proof (map_delete_length (c_entries c) key) as Hd.
    destruct (map_delete (c_entries c) key); simpl in *; lia.
  - rewrite map_delete_length. lia.
Qed.

(** ** Operations preserve well-formedness *)

Inductive operation : Type :=
  | OpGet (now : Z) (key : K)
  | OpSet (now : Z) (key : K) (value : V)
  | OpDelete (key : K)
  | OpClear.

Definition run_operation (c : TtlLruCache K V) (op : operation) : TtlLruCache K V :=
  match op with
  | OpGet now key => (cache_get now c key).2
  | OpSet now key value => cache_set now c key value
  | OpDelete key => (cache_delete c key).2
  | OpClear => cache_clear c
  end.

Lemma wf_delete c key : wf_cache c → wf_cache (with_entries c (map_delete (c_entries c) key)).
Proof.
  intros (Hm & Hnd & Hl). split_and!; cbn; [done| |].
  - by eapply sublist_keys_NoDup, Hnd; apply map_delete_sublist.
  - rewrite map_delete_length. lia.
Qed.

Lemma wf_snoc c l key entry :
  (1 ≤ c_maxSize c)%nat → List.NoDup (map_keys l) → ¬ In key (map_keys l) →
  (length l < c_maxSize c)%nat → wf_cache (with_entries c (l ++ [(key, entry)])).
Proof.
  intros Hm Hnd Hn Hl. split_and!; cbn; [done| |rewrite length_app; simpl; lia].
  unfold map_keys in *. rewrite fmap_app. apply NoDup_ListNoDup, NoDup_app.
  split_and!; [by apply NoDup_ListNoDup| |apply NoDup_singleton].
  intros x Hx%list_elem_of_In ->%list_elem_of_singleton. done.
Qed.

Lemma wf_run c op : wf_cache c → wf_cache (run_operation c op).
Proof.
  intros Hwf. pose proof Hwf as (Hm & Hnd & Hl). destruct op as [now key|now key value|key|]; cbn.
  - unfold cache_get. destruct (map_get (c_entries c) key) as [entry|] eqn:E; [|done].
    case_match; [by apply wf_delete|]. cbn.
    destruct (map_delete_NoDup _ key Hnd) as [Hnd' Hout].
    rewrite map_set_missing by by apply map_get_None.
    apply wf_snoc; [done..|]. rewrite map_delete_length, E.
    destruct (c_entries c); [done|]. simpl in *. lia.
  - pose proof (cache_set_entries now c key value Hwf) as He.
    assert (cache_set now c key value = with_entries c (c_entries (cache_set now c key value))) as ->
      by done.
    rewrite He. destruct (map_delete_NoDup _ key Hnd) as [Hnd' Hout]. apply wf_snoc; [done| | |].
    + by eapply sublist_keys_NoDup, Hnd'; apply kept_entries_sublist.
    + intros Hin. apply Hout. unfold map_keys in *. apply list_elem_of_In.
      apply list_elem_of_In in Hin. eapply elem_of_sublist; [exact Hin|].
      apply fmap_sublist, kept_entries_sublist.
    + by apply kept_entries_length.
  - by apply wf_delete.
  - split_and!; cbn; [done|constructor|lia].
Qed.

End Cache.

(** ** Properties *)

(** The cache stays bounded: whatever the operations run on a new cache, and at
    whatever times, it holds at most `maxSize` entries with distinct keys. *)
Theorem cache_bounded {K V} `{EqDecision K} maxSize ttlMs (c : TtlLruCache K V) ops
    (Hnew : newCache maxSize ttlMs = Ok c) :
  (cache_size (fold_left run_operation ops c) ≤ maxSize)%nat ∧
  List.NoDup (map_keys (c_entries (fold_left run_operation ops c))).
Proof.
  assert (wf_cache c ∧ c_maxSize c = maxSize) as [Hwf Hm].
  { unfold newCache in Hnew. destruct (Nat.ltb_spec maxSize 1); [done|].
    destruct (ttlMs <? 0)%Z; [done|]. injection Hnew as <-.
    split; [|done]. split_and!; cbn; [lia|constructor|lia]. }
  rewrite <- Hm. clear Hnew Hm. revert c Hwf. induction ops as [|op ops IH]; intros c Hwf.
  { destruct Hwf as (_ & ? & ?). done. }
  assert (c_maxSize (run_operation c op) = c_maxSize c) as Heq.
  { destruct op; cbn; [|done..]. unfold cache_get. by repeat case_match. }
  simpl. rewrite <- Heq. apply IH. by apply wf_run.
Qed.

Lemma cache_bounded_witness :
  (cache_size (fold_left run_operation [OpSet 0 "a" 1; OpSet 1 "b" 2; OpSet 2 "c" 3; OpGet 3 "b"]
     {| c_maxSize := 2; c_ttlMs := 10; c_entries := [] |}) ≤ 2)%nat.
Proof.
  exact (proj1 (cache_bounded 2 10 {| c_maxSize := 2; c_ttlMs := 10; c_entries := [] |}
    [OpSet 0 "a" 1; OpSet 1 "b" 2; OpSet 2 "c" 3; OpGet 3 "b"] eq_refl)).
Defined.

(** What the cache answers after a `set`: the value until the time to live has
    passed and nothing from then on; every other key keeps its entry, except
    that at capacity the least recently used one, and only it, is evicted. *)
Theorem cache_set_get {K V} `{EqDecision K} (c : TtlLruCache K V) now key value
    (Hwf : wf_cache c) :
  (∀ later, (cache_get later (cache_set now c key value) key).1 =
            if (now + c_ttlMs c <=? later)%Z then None else Some value) ∧
  (∀ other, other ≠ key →
     map_get (c_entries (cache_set now c key value)) other =
     match map_delete (c_entries c) key with
     | (oldest, _) :: rest =>
         if bool_decide (other = oldest) && (c_maxSize c <=? S (length rest))%nat
         then None else map_get (c_entries c) other
     | [] => None
     end).
Proof.
  pose proof Hwf as (_ & Hnd & _). destruct (map_delete_NoDup _ key Hnd) as [Hnd' Hout].
  rewrite cache_set_entries by done. split.
  - intros later. unfold cache_get. rewrite cache_set_entries, map_get_missing_app by done.
    assert (map_get (kept_entries c key) key = None) as ->.
    { apply map_get_None. intros Hin. apply Hout. unfold map_keys in *. apply list_elem_of_In.
      apply list_elem_of_In in Hin. eapply elem_of_sublist; [exact Hin|].
      apply fmap_sublist, kept_entries_sublist. }
    rewrite decide_True by done. cbn. by case_match.
  - intros other Hne. rewrite map_get_missing_app, decide_False by done.
    assert (map_get (map_delete (c_entries c) key) other = map_get (c_entries c) other) as Hsame
      by (apply map_get_delete_ne; congruence).
    unfold kept_entries.
    destruct (map_delete (c_entries c) key) as [|[oldest e] rest] eqn:E.
    + cbn [length tail]. by destruct (c_maxSize c <=? 0)%nat.
    + rewrite <- Hsame. cbn [length tail].
      destruct (c_maxSize c <=? S (length rest))%nat; case_bool_decide as Ho; cbn [andb].
      * subst. assert (map_get rest oldest = None) as ->; [|done].
        apply map_get_None. by inversion Hnd'.
      * simpl. rewrite decide_False by done. by destruct (map_get rest other).
      * by destruct (map_get ((oldest, e) :: rest) other).
      * by destruct (map_get ((oldest, e) :: rest) other).
Qed.

Lemma cache_set_get_witness :
  (cache_get 9 (cache_set 0 {| c_maxSize := 1; c_ttlMs := 10; c_entries := [] |} "a" 1) "a").1 = Some 1.
Proof.
  refine (proj1 (cache_set_get {| c_maxSize := 1; c_ttlMs := 10; c_entries := [] |} 0 "a" 1 _) 9%Z).
  split; [reflexivity|]. split; [constructor|]. apply le_S, le_n.
Defined.
