(* ===== verification/AuthzTypes.v ===== *)
(** * Vocabulary of the authorization configuration (network/authz/types.ts) *)
From S2P Require Import Prelude JsString Json.

Inductive GraphqlOperation : Type := OpQuery | OpMutation | OpSubscription.
#[export] Instance GraphqlOperation_eq_dec : EqDecision GraphqlOperation.
Proof. solve_decision. Defined.

Inductive BodyFormat : Type := FmtNone | FmtJson | FmtOpaque.
#[export] Instance BodyFormat_eq_dec : EqDecision BodyFormat.
Proof. solve_decision. Defined.

Definition GraphqlOperation_string (op : GraphqlOperation) : string :=
  match op with
  | OpQuery => "query" | OpMutation => "mutation" | OpSubscription => "subscription"
  end.

Definition BodyFormat_string (f : BodyFormat) : string :=
  match f with FmtNone => "none" | FmtJson => "json" | FmtOpaque => "opaque" end.

Definition DEFAULT_GRAPHQL_AT : string := "/query".

Record GraphqlMatch : Type := {
  gm_at : option string;
  gm_operations : list GraphqlOperation;
  gm_fieldPaths : option (list string);
  gm_fieldArguments : option (list (string * list (string * list string)));
  (** keys of the evaluated object other than the four above *)
  gm_unknownKeys : list string;
}.

Record BodyMatch : Type := {
  bm_format : BodyFormat;
  bm_equals : option (list (string * JsonScalar));
  bm_oneOf : option (list (string * list JsonScalar));
  bm_graphql : option GraphqlMatch;
}.

Record Match : Type := {
  m_methods : option (list string);
  m_paths : list string;
  m_captures : option (list (string * list string));
  m_body : option BodyMatch;
}.

(** One occurrence of a field of a GraphQL document. *)
Record GraphqlFieldOccurrence : Type := {
  occ_path : string;
  occ_leaf : bool;
  occ_argumentValues : list (string * string);
  occ_unresolvedArguments : list string;
}.

Record GraphqlDocument : Type := {
  doc_operations : list GraphqlOperation;
  doc_fields : list GraphqlFieldOccurrence;
}.

Inductive RequestBody : Type :=
  | BodyAbsent
  | BodyEmpty
  | BodyBinary
  | BodyJson (value : JsonValue) (documents : option (list (string * GraphqlDocument))).

Record AuthzRequest : Type := {
  req_method : string;
  req_path : string;
  req_body : RequestBody;
}.

Inductive HostPattern : Type :=
  | HostExact (host : string)
  | HostSuffix (suffix : string).

Record Target : Type := {
  t_source : string;
  t_host : HostPattern;
  t_port : option Z;
}.

Record TargetAddress : Type := {
  ta_host : string;
  ta_port : Z;
}.

#[export] Instance HostPattern_eq_dec : EqDecision HostPattern.
Proof. solve_decision. Defined.
#[export] Instance Target_eq_dec : EqDecision Target.
Proof. solve_decision. Defined.
#[export] Instance TargetAddress_eq_dec : EqDecision TargetAddress.
Proof. solve_decision. Defined.
