(* ===== verification/Pattern.v ===== *)
(** * Path patterns (network/authz/pattern.ts)

    Parsing of a path pattern, the sets its segments denote, and the matching of
    a request path.  The laws of the segment sets are the instance
    [segment_laws]. *)
From S2P Require Import Prelude JsString Json Containment.

Inductive PatternSegment : Type :=
  | SegLiteral (value : string)
  | SegWildcard
  | SegCapture (name : string).

Record PathPattern : Type := {
  pp_source : string;
  pp_segments : list PatternSegment;
  pp_trailingDoubleStar : bool;
}.

Inductive SegmentSet : Type :=
  | SetAll
  | SetFinite (values : list string).

Record CompiledPath : Type := {
  cp_source : string;
  cp_segments : list SegmentSet;
  cp_trailingDoubleStar : bool;
}.

(** `/^[A-Za-z_][A-Za-z0-9_-]*$/` *)
Definition CAPTURE_NAME (s : string) : bool :=
  match s with
  | EmptyString => false
  | String a s' =>
      (is_alpha a || Ascii.eqb a "_") &&
      string_all (λ c, is_alpha c || is_digit c || Ascii.eqb c "_" || Ascii.eqb c "-") s'
  end.

Definition WITNESS_SEGMENT : string := "x".

(** ** Parsing *)

(** The loop of `parsePathPattern` over the tokens left, with the segments and
    the capture names collected so far. *)
Fixpoint parse_tokens (source : string) (tokens : list string)
    (segments : list PatternSegment) (names : list string) : Result PathPattern :=
  match tokens with
  | [] => Ok {| pp_source := source; pp_segments := segments;
                pp_trailingDoubleStar := false |}
  | token :: rest =>
      if String.eqb token "**" then
        match rest with
        | [] => Ok {| pp_source := source; pp_segments := segments;
                      pp_trailingDoubleStar := true |}
        | _ :: _ =>
            Err (dquote +:+ "**" +:+ dquote +:+ " may only appear as the last segment: " +:+ source)
        end
      else if str_includes token "**" then
        Err (dquote +:+ "**" +:+ dquote +:+ " cannot be part of a segment: " +:+ source)
      else if String.eqb token "*" then
        parse_tokens source rest (segments ++ [SegWildcard]) names
      else if str_includes token "*" then
        Err (dquote +:+ "*" +:+ dquote +:+ " cannot be part of a segment: " +:+ source)
      else if startsWith token "{" && endsWith token "}" && (2 <=? slen token)%nat then
        let name := slice 1 (slen token - 1) token in
        if negb (CAPTURE_NAME name) then
          Err ("invalid capture name: " +:+ token +:+ " (" +:+ source +:+ ")")
        else if includes names name then
          Err ("duplicate capture name within one pattern: " +:+ name +:+ " (" +:+ source +:+ ")")
        else parse_tokens source rest (segments ++ [SegCapture name]) (names ++ [name])
      else if str_includes token "{" || str_includes token "}" then
        Err ("a capture must span the whole segment: " +:+ token +:+ " (" +:+ source +:+ ")")
      else parse_tokens source rest (segments ++ [SegLiteral token]) names
  end.

Definition parsePathPattern (source : string) : Result PathPattern :=
  parse_tokens source (split_on "/" source) [] [].

(** ** Compilation

    `captures[segment.name]` also finds the properties of `Object.prototype`;
    spreading such a function into a `Set` throws a TypeError. *)
Definition resolveSegment (segment : PatternSegment)
    (captures : list (string * list string)) : option SegmentSet :=
  match segment with
  | SegLiteral value => Some (SetFinite [value])
  | SegWildcard => Some SetAll
  | SegCapture name =>
      match prop_read captures name with
      | Missing => Some SetAll
      | Own constraint => Some (SetFinite (unique constraint))
      | Inherited => None
      end
  end.

(** [None] is the thrown TypeError. *)
Definition compilePathPattern (source : string) (captures : list (string * list string)) :
    option (Result CompiledPath) :=
  match parsePathPattern source with
  | Err e => Some (Err e)
  | Ok parsed =>
      segments ← mapM (λ segment, resolveSegment segment captures) (pp_segments parsed);
      Some (Ok {| cp_source := source; cp_segments := segments;
                  cp_trailingDoubleStar := pp_trailingDoubleStar parsed |})
  end.

(** ** Segment sets *)

Definition segmentSetsIntersect (a b : SegmentSet) : bool :=
  match a, b with
  | SetAll, SetAll => true
  | SetAll, SetFinite vs => negb (bool_decide (vs = []))
  | SetFinite vs, SetAll => negb (bool_decide (vs = []))
  | SetFinite va, SetFinite vb => existsb (includes vb) va
  end.

Definition segmentSetSubsumes (a b : SegmentSet) : bool :=
  match b, a with
  | SetAll, _ => true
  | SetFinite _, SetAll => false
  | SetFinite vb, SetFinite va => forallb (includes vb) va
  end.

Definition segmentSetSample (s : SegmentSet) : option string :=
  match s with SetAll => Some WITNESS_SEGMENT | SetFinite vs => head vs end.

Definition segmentSetIntersectionSample (a b : SegmentSet) : option string :=
  match a, b with
  | SetAll, _ => segmentSetSample b
  | _, SetAll => segmentSetSample a
  | SetFinite va, SetFinite vb => find (includes vb) va
  end.

Definition segmentSetMatches (s : SegmentSet) (token : string) : bool :=
  match s with SetAll => true | SetFinite vs => includes vs token end.

(** ** Matching a path *)

Definition splitPath (path : string) : list string := split_on "/" path.
Definition joinPath (tokens : list string) : string := join "/" tokens.

(** `segments.every((set, index) => segmentSetMatches(set, tokens[index]))` *)
Definition segments_every (segments : list SegmentSet) (tokens : list string) : bool :=
  forallb (λ i, match segments !! i, tokens !! i with
                | Some s, Some t => segmentSetMatches s t
                | _, _ => false
                end) (seq 0 (length segments)).

Definition compiledPathMatches (pattern : CompiledPath) (path : string) : bool :=
  let tokens := splitPath path in
  let m := length (cp_segments pattern) in
  if cp_trailingDoubleStar pattern then
    if (length tokens <? m)%nat then false
    else segments_every (cp_segments pattern) tokens
  else if negb (length tokens =? m)%nat then false
  else segments_every (cp_segments pattern) tokens.

(** ** Laws of the segment sets *)

#[export] Instance segment_containment : Containment SegmentSet string := {
  mem := segmentSetMatches;
  subsumes := segmentSetSubsumes;
  intersects := segmentSetsIntersect;
}.

#[export] Instance segment_laws : ContainmentLaws SegmentSet string any.
Proof.
  split; simpl.
  - intros [|va] [|vb] x; simpl; try done.
    rewrite forallb_forall, !includes_In. intros H Hx. by apply includes_In, H.
  - intros [|va] [|vb] [|vc]; simpl; try done.
    rewrite !forallb_forall. intros Hab Hbc x Hx. by apply Hbc, includes_In, Hab.
  - intros [|va] [|vb] x _ _; simpl; try done.
    + intros _ Hx%includes_In. rewrite negb_true_iff, bool_decide_eq_false. by intros ->.
    + intros Hx%includes_In _. rewrite negb_true_iff, bool_decide_eq_false. by intros ->.
    + rewrite existsb_exists. intros Ha%includes_In Hb. eauto.
Qed.

(** The laws on the functions themselves. *)
Lemma segmentSetSubsumes_sound a b x :
  segmentSetSubsumes a b = true → segmentSetMatches a x = true →
  segmentSetMatches b x = true.
Proof. exact (subsumes_sound (S := SegmentSet) (E := string) a b x). Qed.

Lemma segmentSetSubsumes_trans a b c :
  segmentSetSubsumes a b = true → segmentSetSubsumes b c = true →
  segmentSetSubsumes a c = true.
Proof. exact (subsumes_trans (S := SegmentSet) (E := string) a b c). Qed.

Lemma segmentSetsIntersect_complete a b x :
  segmentSetMatches a x = true → segmentSetMatches b x = true →
  segmentSetsIntersect a b = true.
Proof. exact (intersects_complete (S := SegmentSet) (E := string) a b x I I). Qed.

(** Intersection of two segment sets is decided exactly, and the sample is a
    common element. *)
Lemma segmentSetIntersectionSample_spec a b :
  match segmentSetIntersectionSample a b with
  | Some t => segmentSetMatches a t = true ∧ segmentSetMatches b t = true ∧
              segmentSetsIntersect a b = true
  | None => segmentSetsIntersect a b = false
  end.
Proof.
  destruct a as [|va], b as [|vb]; simpl.
  - done.
  - destruct vb as [|v vb]; simpl; [done|]. by rewrite bool_decide_true.
  - destruct va as [|v va]; simpl; [done|]. by rewrite bool_decide_true.
  - destruct (find (includes vb) va) as [t|] eqn:E.
    + apply find_some in E as [Ht Hb]. rewrite includes_In, existsb_exists. eauto.
    + apply existsb_false. apply find_none. done.
Qed.

Lemma segmentSetSample_spec s t :
  segmentSetSample s = Some t → segmentSetMatches s t = true.
Proof.
  destruct s as [|[|v vs]]; simpl; [done|done|].
  intros [= ->]. by rewrite bool_decide_true.
Qed.

(** ** Matching, as a statement on positions *)

Lemma segments_every_iff segments tokens :
  segments_every segments tokens = true ↔
  ∀ i s, segments !! i = Some s →
    ∃ t, tokens !! i = Some t ∧ segmentSetMatches s t = true.
Proof.
  unfold segments_every. rewrite forallb_forall. split.
  - intros H i s Hs.
    assert (In i (seq 0 (length segments))) as Hi.
    { apply in_seq. apply lookup_lt_Some in Hs. lia. }
    apply H in Hi. rewrite Hs in Hi. case_match; [eauto|done].
  - intros H i [_ Hi]%in_seq.
    destruct (lookup_lt_is_Some_2 segments i Hi) as [s Hs].
    destruct (H i s Hs) as (t & -> & Ht). by rewrite Hs.
Qed.

Definition length_ok (pattern : CompiledPath) (n : nat) : Prop :=
  if cp_trailingDoubleStar pattern then (length (cp_segments pattern) ≤ n)%nat
  else n = length (cp_segments pattern).

Lemma compiledPathMatches_iff pattern path :
  compiledPathMatches pattern path = true ↔
  length_ok pattern (length (splitPath path)) ∧
  ∀ i s, cp_segments pattern !! i = Some s →
    ∃ t, splitPath path !! i = Some t ∧ segmentSetMatches s t = true.
Proof.
  unfold compiledPathMatches, length_ok.
  destruct (cp_trailingDoubleStar pattern).
  - case_match eqn:E; rewrite <- segments_every_iff.
    + apply Nat.ltb_lt in E. split; [done|lia].
    + apply Nat.ltb_ge in E. tauto.
  - case_match eqn:E; rewrite <- segments_every_iff.
    + apply negb_true_iff, Nat.eqb_neq in E. split; [done|lia].
    + apply negb_false_iff, Nat.eqb_eq in E. tauto.
Qed.
