(* ===== verification/Relation.v ===== *)
(** * Intersection and containment of matches (network/authz/relation.ts)

    Normalization of a configured match and the conservative tests on its three
    axes (method, path, body).  The laws that involve the meaning of a body
    condition are in MatchLaws. *)
From S2P Require Import Prelude JsString Json Containment AuthzTypes Pattern.

Record NormalizedGraphql : Type := {
  ng_at : string;
  ng_operations : list GraphqlOperation;
  ng_fieldPaths : list string;
  ng_fieldArguments : list (string * list (string * list string));
}.

Record NormalizedBody : Type := {
  nb_format : option BodyFormat;
  nb_pointers : list (string * list JsonScalar);
  nb_graphql : option NormalizedGraphql;
}.

Record CompiledMatch : Type := {
  cm_methods : option (list string);
  cm_paths : list CompiledPath;
  cm_body : NormalizedBody;
}.

(** ** Scalar sets: values are compared by `scalarKey` *)

Definition scalarKey (value : JsonScalar) : string :=
  scalar_typeof value +:+ ":" +:+ scalar_to_string value.

Definition scalarSetsIntersect (a b : list JsonScalar) : bool :=
  let keys := map scalarKey b in existsb (λ v, includes keys (scalarKey v)) a.

Definition scalarSetSubsumes (a b : list JsonScalar) : bool :=
  let keys := map scalarKey b in forallb (λ v, includes keys (scalarKey v)) a.

Definition uniqueScalars (values : list JsonScalar) : list JsonScalar :=
  (fold_left (λ (acc : list string * list JsonScalar) value,
     let key := scalarKey value in
     if includes acc.1 key then acc else ((acc.1 ++ [key])%list, (acc.2 ++ [value])%list))
   values ([], [])).2.

(** ** Normalization *)

Definition normalizeMethod (method : string) : string := toUpperCase method.

Definition KNOWN_HTTP_METHODS : list string :=
  ["GET"; "HEAD"; "POST"; "PUT"; "PATCH"; "DELETE"; "CONNECT"; "OPTIONS"; "TRACE"].

Definition normalizeGraphql (graphql : GraphqlMatch) : NormalizedGraphql := {|
  ng_at := default DEFAULT_GRAPHQL_AT (gm_at graphql);
  ng_operations := unique (gm_operations graphql);
  ng_fieldPaths := unique (default [] (gm_fieldPaths graphql));
  ng_fieldArguments :=
    map (λ '(path, args), (path, map (λ '(name, values), (name, unique values)) args))
        (default [] (gm_fieldArguments graphql));
|}.

Definition normalizePointers (body : BodyMatch) : list (string * list JsonScalar) :=
  let pointers := fold_left (λ acc '(pointer, values),
                    map_set acc pointer (uniqueScalars values))
                    (default [] (bm_oneOf body)) [] in
  fold_left (λ acc '(pointer, value),
    map_set acc pointer
      match map_get acc pointer with
      | None => [value]
      | Some existing =>
          List.filter (λ candidate, String.eqb (scalarKey candidate) (scalarKey value)) existing
      end)
    (default [] (bm_equals body)) pointers.

Definition normalizeBody (body : option BodyMatch) : NormalizedBody :=
  match body with
  | None => {| nb_format := None; nb_pointers := []; nb_graphql := None |}
  | Some body =>
      {| nb_format := Some (bm_format body);
         nb_pointers := normalizePointers body;
         nb_graphql := normalizeGraphql <$> bm_graphql body |}
  end.

Fixpoint compile_paths (paths : list string) (captures : list (string * list string)) :
    option (Result (list CompiledPath)) :=
  match paths with
  | [] => Some (Ok [])
  | source :: rest =>
      compiled ← compilePathPattern source captures;
      match compiled with
      | Err e => Some (Err e)
      | Ok p =>
          others ← compile_paths rest captures;
          Some (match others with Err e => Err e | Ok ps => Ok (p :: ps) end)
      end
  end.

(** [None] is a thrown TypeError (see [Pattern.resolveSegment]). *)
Definition compileMatch (match_ : Match) : option (Result CompiledMatch) :=
  compiled ← compile_paths (m_paths match_) (default [] (m_captures match_));
  Some (match compiled with
        | Err e => Err e
        | Ok paths => Ok {|
            cm_methods := (λ methods, unique (map normalizeMethod methods)) <$> m_methods match_;
            cm_paths := paths;
            cm_body := normalizeBody (m_body match_) |}
        end).

(** ** Methods *)

Definition methodsIntersect (a b : option (list string)) : bool :=
  match a, b with
  | None, None => true
  | None, Some b => negb (bool_decide (b = []))
  | Some a, None => negb (bool_decide (a = []))
  | Some a, Some b => existsb (includes b) a
  end.

Definition methodsSubsume (a b : option (list string)) : bool :=
  match b, a with
  | None, _ => true
  | Some _, None => false
  | Some b, Some a => forallb (includes b) a
  end.

(** ** Paths *)

Definition rangeEvery (length : nat) (predicate : nat → bool) : bool :=
  forallb predicate (seq 0 length).

Definition prefixIntersects (a b : CompiledPath) (length : nat) : bool :=
  rangeEvery length (λ i,
    match cp_segments a !! i, cp_segments b !! i with
    | Some x, Some y => segmentSetsIntersect x y
    | _, _ => false
    end).

Definition prefixSubsumes (a b : CompiledPath) (length : nat) : bool :=
  rangeEvery length (λ i,
    match cp_segments a !! i, cp_segments b !! i with
    | Some x, Some y => segmentSetSubsumes x y
    | _, _ => false
    end).

Definition pathPatternsIntersect (a b : CompiledPath) : bool :=
  let m := length (cp_segments a) in
  let n := length (cp_segments b) in
  if cp_trailingDoubleStar a && cp_trailingDoubleStar b then prefixIntersects a b (Nat.min m n)
  else if cp_trailingDoubleStar a then (m <=? n)%nat && prefixIntersects a b m
  else if cp_trailingDoubleStar b then (n <=? m)%nat && prefixIntersects a b n
  else (m =? n)%nat && prefixIntersects a b m.

Definition pathPatternSubsumes (a b : CompiledPath) : bool :=
  let m := length (cp_segments a) in
  let n := length (cp_segments b) in
  if cp_trailingDoubleStar a && negb (cp_trailingDoubleStar b) then false
  else if cp_trailingDoubleStar b then (n <=? m)%nat && prefixSubsumes a b n
  else (m =? n)%nat && prefixSubsumes a b m.

Definition pathsIntersect (a b : list CompiledPath) : bool :=
  existsb (λ pa, existsb (λ pb, pathPatternsIntersect pa pb) b) a.

Definition pathsSubsume (a b : list CompiledPath) : bool :=
  forallb (λ pa, existsb (λ pb, pathPatternSubsumes pa pb) b) a.

(** ** Bodies *)

Definition formatSubsumes (a b : option BodyFormat) : bool :=
  match b, a with
  | None, _ => true
  | Some _, None => false
  | Some b, Some a => bool_decide (a = b) || bool_decide (b = FmtOpaque)
  end.

Definition formatIntersects (a b : option BodyFormat) : bool :=
  match a, b with
  | None, _ | _, None => true
  | Some a, Some b =>
      bool_decide (a = b) || bool_decide (a = FmtOpaque) || bool_decide (b = FmtOpaque)
  end.

Definition pointersIntersect (a b : list (string * list JsonScalar)) : bool :=
  forallb (λ '(pointer, valuesA),
    match map_get b pointer with
    | None => true
    | Some valuesB => scalarSetsIntersect valuesA valuesB
    end) a.

Definition pointersSubsume (a b : list (string * list JsonScalar)) : bool :=
  forallb (λ '(pointer, valuesB),
    match map_get a pointer with
    | None => false
    | Some valuesA => scalarSetSubsumes valuesA valuesB
    end) b.

Definition graphqlIntersects (a b : option NormalizedGraphql) : bool :=
  match a, b with
  | None, _ | _, None => true
  | Some a, Some b =>
      if negb (String.eqb (ng_at a) (ng_at b)) then true
      else if negb (existsb (includes (ng_operations b)) (ng_operations a)) then false
      else existsb (includes (ng_fieldPaths b)) (ng_fieldPaths a)
  end.

(** Every argument constraint of [b] is implied by one of [a]. *)
Definition argumentsSubsume (a b : list (string * list (string * list string))) : bool :=
  forallb (λ '(path, argsB),
    match map_get a path with
    | None => false
    | Some argsA =>
        forallb (λ '(name, valuesB),
          match map_get argsA name with
          | None => false
          | Some valuesA => forallb (includes valuesB) valuesA
          end) argsB
    end) b.

Definition graphqlSubsumes (a b : option NormalizedGraphql) : bool :=
  match b, a with
  | None, _ => true
  | Some _, None => false
  | Some b, Some a =>
      String.eqb (ng_at a) (ng_at b) &&
      forallb (includes (ng_operations b)) (ng_operations a) &&
      forallb (includes (ng_fieldPaths b)) (ng_fieldPaths a) &&
      argumentsSubsume (ng_fieldArguments a) (ng_fieldArguments b)
  end.

Definition bodiesIntersect (a b : NormalizedBody) : bool :=
  formatIntersects (nb_format a) (nb_format b) &&
  pointersIntersect (nb_pointers a) (nb_pointers b) &&
  graphqlIntersects (nb_graphql a) (nb_graphql b).

Definition bodySubsumes (a b : NormalizedBody) : bool :=
  formatSubsumes (nb_format a) (nb_format b) &&
  pointersSubsume (nb_pointers a) (nb_pointers b) &&
  graphqlSubsumes (nb_graphql a) (nb_graphql b).

(** ** Composition *)

Definition matchesIntersect (a b : CompiledMatch) : bool :=
  methodsIntersect (cm_methods a) (cm_methods b) &&
  pathsIntersect (cm_paths a) (cm_paths b) &&
  bodiesIntersect (cm_body a) (cm_body b).

Definition matchSubsumes (a b : CompiledMatch) : bool :=
  methodsSubsume (cm_methods a) (cm_methods b) &&
  pathsSubsume (cm_paths a) (cm_paths b) &&
  bodySubsumes (cm_body a) (cm_body b).

(** ** Laws of the method and path axes *)

Definition methods_mem (methods : option (list string)) (method : string) : bool :=
  match methods with None => true | Some ms => includes ms method end.

#[export] Instance methods_containment : Containment (option (list string)) string := {
  mem := methods_mem; subsumes := methodsSubsume; intersects := methodsIntersect }.

#[export] Instance methods_laws : ContainmentLaws (option (list string)) string any.
Proof.
  split; simpl.
  - intros [a|] [b|] x; simpl; try done.
    rewrite forallb_forall, !includes_In. intros H Hx. by apply includes_In, H.
  - intros [a|] [b|] [c|]; simpl; try done.
    rewrite !forallb_forall. intros Hab Hbc x Hx. by apply Hbc, includes_In, Hab.
  - intros [a|] [b|] x _ _; simpl; try done.
    + rewrite existsb_exists. intros Ha%includes_In Hb. eauto.
    + intros Hx%includes_In _. rewrite negb_true_iff, bool_decide_eq_false. by intros ->.
    + intros _ Hx%includes_In. rewrite negb_true_iff, bool_decide_eq_false. by intros ->.
Qed.

Lemma rangeEvery_segments (f : SegmentSet → SegmentSet → bool) (sa sb : list SegmentSet) n :
  rangeEvery n (λ i, match sa !! i, sb !! i with
                     | Some x, Some y => f x y | _, _ => false end) = true ↔
  ∀ i, (i < n)%nat → ∃ x y, sa !! i = Some x ∧ sb !! i = Some y ∧ f x y = true.
Proof.
  unfold rangeEvery. rewrite forallb_forall. setoid_rewrite in_seq. split.
  - intros H i Hi. specialize (H i ltac:(lia)). repeat case_match; naive_solver.
  - intros H i Hi. destruct (H i ltac:(lia)) as (x & y & -> & -> & Hf). done.
Qed.

Lemma prefixSubsumes_iff a b n :
  prefixSubsumes a b n = true ↔
  ∀ i, (i < n)%nat → ∃ x y, cp_segments a !! i = Some x ∧ cp_segments b !! i = Some y ∧
                            segmentSetSubsumes x y = true.
Proof. apply rangeEvery_segments. Qed.

Lemma prefixIntersects_iff a b n :
  prefixIntersects a b n = true ↔
  ∀ i, (i < n)%nat → ∃ x y, cp_segments a !! i = Some x ∧ cp_segments b !! i = Some y ∧
                            segmentSetsIntersect x y = true.
Proof. apply rangeEvery_segments. Qed.

(** Containment of two path patterns, as a statement on lengths and positions. *)
Lemma pathPatternSubsumes_iff a b :
  pathPatternSubsumes a b = true ↔
  (∀ n, length_ok a n → length_ok b n) ∧
  ∀ i, (i < length (cp_segments b))%nat →
    ∃ x y, cp_segments a !! i = Some x ∧ cp_segments b !! i = Some y ∧
           segmentSetSubsumes x y = true.
Proof.
  unfold pathPatternSubsumes, length_ok.
  destruct (cp_trailingDoubleStar a), (cp_trailingDoubleStar b); simpl;
    rewrite ?andb_true_iff, ?prefixSubsumes_iff, ?Nat.leb_le, ?Nat.eqb_eq.
  - split; intros [H ?]; split; try done; [intros; lia|].
    by apply (H (length (cp_segments a))).
  - split; [done|]. intros [H _]. exfalso.
    pose proof (H (length (cp_segments a)) ltac:(lia)).
    pose proof (H (S (length (cp_segments a))) ltac:(lia)). lia.
  - split; intros [H ?]; split; try done; [intros; lia|].
    by apply (H (length (cp_segments a))).
  - split.
    + intros [Hl H]. split; [intros; lia|]. by rewrite <- Hl.
    + intros [Hl H]. rewrite (Hl (length (cp_segments a))) by done. done.
Qed.

#[export] Instance path_containment : Containment CompiledPath string := {
  mem := compiledPathMatches;
  subsumes := pathPatternSubsumes;
  intersects := pathPatternsIntersect;
}.

Lemma pathPattern_intersects_complete a b path :
  compiledPathMatches a path = true → compiledPathMatches b path = true →
  pathPatternsIntersect a b = true.
Proof.
  rewrite !compiledPathMatches_iff. intros [Hla Ha] [Hlb Hb].
  assert (∀ i, (i < length (cp_segments a))%nat → (i < length (cp_segments b))%nat →
    ∃ x y, cp_segments a !! i = Some x ∧ cp_segments b !! i = Some y ∧
           segmentSetsIntersect x y = true) as Hboth.
  { intros i [x Hx]%lookup_lt_is_Some_2 [y Hy]%lookup_lt_is_Some_2.
    exists x, y. split_and!; [done..|].
    destruct (Ha i x Hx) as (t & Ht & Htx), (Hb i y Hy) as (t' & Ht' & Hty).
    simplify_eq. by eapply segmentSetsIntersect_complete. }
  unfold pathPatternsIntersect, length_ok in *.
  destruct (cp_trailingDoubleStar a), (cp_trailingDoubleStar b); simpl;
    rewrite ?andb_true_iff, ?Nat.leb_le, ?Nat.eqb_eq, prefixIntersects_iff;
    repeat split; try lia; intros; apply Hboth; lia.
Qed.

#[export] Instance path_laws : ContainmentLaws CompiledPath string any.
Proof.
  split; simpl.
  - intros a b path. rewrite pathPatternSubsumes_iff, !compiledPathMatches_iff.
    intros [Hl Hs] [Hla Ha]. split; [auto|]. intros i y Hy.
    destruct (Hs i) as (x & y' & Hx & Hy' & Hxy); [by eapply lookup_lt_Some|].
    simplify_eq. destruct (Ha i x Hx) as (t & Ht & Htx).
    exists t. split; [done|]. by eapply segmentSetSubsumes_sound.
  - intros a b c. rewrite !pathPatternSubsumes_iff. intros [Hl1 H1] [Hl2 H2].
    split; [auto|]. intros i Hi. destruct (H2 i Hi) as (y & z & Hy & Hz & Hyz).
    destruct (H1 i) as (x & y' & Hx & Hy' & Hxy); [by eapply lookup_lt_Some|].
    simplify_eq. exists x, z. split_and!; [done..|].
    by eapply segmentSetSubsumes_trans.
  - intros a b path _ _. apply pathPattern_intersects_complete.
Qed.

(** ** Scalar sets by key *)

Lemma scalarSetSubsumes_iff a b :
  scalarSetSubsumes a b = true ↔
  ∀ k, In k (map scalarKey a) → In k (map scalarKey b).
Proof.
  unfold scalarSetSubsumes. rewrite forallb_forall. setoid_rewrite includes_In.
  split; [|intros H v Hv; apply H, in_map_iff; eauto].
  intros H k (v & <- & Hv)%in_map_iff. auto.
Qed.

Lemma scalarSetsIntersect_iff a b :
  scalarSetsIntersect a b = true ↔
  ∃ k, In k (map scalarKey a) ∧ In k (map scalarKey b).
Proof.
  unfold scalarSetsIntersect. rewrite existsb_exists. setoid_rewrite includes_In.
  setoid_rewrite in_map_iff. naive_solver.
Qed.

Lemma scalarSetSubsumes_trans a b c :
  scalarSetSubsumes a b = true → scalarSetSubsumes b c = true →
  scalarSetSubsumes a c = true.
Proof. rewrite !scalarSetSubsumes_iff. auto. Qed.
