(* ===== verification/Selection.v ===== *)
(** * GraphQL selection paths (network/authz/graphql_selection.ts)

    The path grammar, the proper prefixes of the allowed leaves, and the
    three-valued evaluation of a document's field occurrences. *)
From S2P Require Import Prelude JsString Json Containment AuthzTypes Pattern Relation.

(** `Truth` of network/authz/semantics.ts. *)
Inductive Truth : Type := TTrue | TFalse | TIndeterminate.
#[export] Instance Truth_eq_dec : EqDecision Truth.
Proof. solve_decision. Defined.

(** ** The grammar: one or more of a slash followed by a GraphQL Name *)

Definition name_start (a : ascii) : bool := is_alpha a || Ascii.eqb a "_".
Definition name_char (a : ascii) : bool := is_digit a || is_alpha a || Ascii.eqb a "_".

Definition isGraphqlName (value : string) : bool :=
  match value with
  | EmptyString => false
  | String a s => name_start a && string_all name_char s
  end.

Definition isGraphqlFieldPath (value : string) : bool :=
  match split_on "/" value with
  | "" :: (_ :: _) as names => forallb isGraphqlName (tail names)
  | _ => false
  end.

(** ** Chains and prefixes *)

(** `path.slice(0, end)` for every `end` found by
    `path.indexOf("/", 1)`, `path.indexOf("/", end + 1)`, ...; [before] is the
    part of the path already scanned. *)
Fixpoint path_cuts (before rest : string) : list string :=
  match rest with
  | EmptyString => []
  | String c rest' =>
      let cuts := path_cuts (before +:+ String c "") rest' in
      if Ascii.eqb c "/" && negb (String.eqb before "") then before :: cuts else cuts
  end.

Definition graphqlPathChain (path : string) : list string := path_cuts "" path ++ [path].

Definition graphqlPathPrefixes (fieldPaths : list string) : list string :=
  unique (flat_map (path_cuts "") fieldPaths).

(** ** Evaluation

    [argument_verdict] is the body of the inner loop: does the named argument of
    this occurrence leave the answer unknown, or refuse it? *)
Inductive Verdict : Type := VPass | VRefused | VUnknown.

Definition argument_verdict (field : GraphqlFieldOccurrence)
    (constraint : string * list string) : Verdict :=
  if includes (occ_unresolvedArguments field) constraint.1 then VUnknown
  else match map_get (occ_argumentValues field) constraint.1 with
       | None => VRefused
       | Some value => if includes constraint.2 value then VPass else VRefused
       end.

(** The loop state `(refused, unknown)`. *)
Definition argument_step (field : GraphqlFieldOccurrence) (acc : bool * bool)
    (constraint : string * list string) : bool * bool :=
  match argument_verdict field constraint with
  | VPass => acc
  | VRefused => (true, acc.2)
  | VUnknown => (acc.1, true)
  end.

Definition field_step (leaves prefixes : list string)
    (fieldArguments : list (string * list (string * list string)))
    (acc : bool * bool) (field : GraphqlFieldOccurrence) : bool * bool :=
  let refused :=
    if negb (includes (if occ_leaf field then leaves else prefixes) (occ_path field))
    then true else acc.1 in
  fold_left (argument_step field)
    (default [] (map_get fieldArguments (occ_path field))) (refused, acc.2).

Definition selectionSatisfies (fieldPaths : list string)
    (fieldArguments : list (string * list (string * list string)))
    (document : option GraphqlDocument) : Truth :=
  match document with
  | None => TIndeterminate
  | Some document =>
      if negb (existsb occ_leaf (doc_fields document)) then TIndeterminate
      else
        let leaves := unique fieldPaths in
        let prefixes := graphqlPathPrefixes leaves in
        let acc := fold_left (field_step leaves prefixes fieldArguments)
                     (doc_fields document) (false, false) in
        if acc.2 then TIndeterminate else if acc.1 then TFalse else TTrue
  end.

(** ** What the loop computes *)

Definition path_allowed (fieldPaths : list string) (field : GraphqlFieldOccurrence) : Prop :=
  if occ_leaf field then In (occ_path field) fieldPaths
  else In (occ_path field) (flat_map (path_cuts "") fieldPaths).

Definition constraints_of (fieldArguments : list (string * list (string * list string)))
    (field : GraphqlFieldOccurrence) : list (string * list string) :=
  default [] (map_get fieldArguments (occ_path field)).

Definition is_unknown (v : Verdict) : bool := match v with VUnknown => true | _ => false end.
Definition is_refused (v : Verdict) : bool := match v with VRefused => true | _ => false end.

Lemma argument_fold field cs : ∀ acc,
  fold_left (argument_step field) cs acc =
  (acc.1 || existsb (λ c, is_refused (argument_verdict field c)) cs,
   acc.2 || existsb (λ c, is_unknown (argument_verdict field c)) cs).
Proof.
  induction cs as [|c cs IH]; intros [r u]; simpl; [by rewrite !orb_false_r|].
  rewrite IH. unfold argument_step. destruct (argument_verdict field c); simpl;
    rewrite ?orb_true_r, ?orb_true_l; try done; by destruct r, u.
Qed.

Definition field_refused (leaves prefixes : list string) fieldArguments
    (field : GraphqlFieldOccurrence) : bool :=
  negb (includes (if occ_leaf field then leaves else prefixes) (occ_path field)) ||
  existsb (λ c, is_refused (argument_verdict field c)) (constraints_of fieldArguments field).

Definition field_unknown fieldArguments (field : GraphqlFieldOccurrence) : bool :=
  existsb (λ c, is_unknown (argument_verdict field c)) (constraints_of fieldArguments field).

Lemma field_fold leaves prefixes fieldArguments fields : ∀ acc,
  fold_left (field_step leaves prefixes fieldArguments) fields acc =
  (acc.1 || existsb (field_refused leaves prefixes fieldArguments) fields,
   acc.2 || existsb (field_unknown fieldArguments) fields).
Proof.
  induction fields as [|f fields IH]; intros [r u]; simpl; [by rewrite !orb_false_r|].
  rewrite IH. unfold field_step at 1 2. rewrite !argument_fold. simpl.
  unfold field_refused at 2, field_unknown at 2, constraints_of. f_equal.
  - destruct (includes _ _); simpl; [by rewrite <- orb_assoc|by destruct r].
  - by rewrite <- orb_assoc.
Qed.

Lemma argument_verdict_pass field c :
  argument_verdict field c = VPass ↔
  ¬ In c.1 (occ_unresolvedArguments field) ∧
  ∃ v, map_get (occ_argumentValues field) c.1 = Some v ∧ In v c.2.
Proof.
  unfold argument_verdict. repeat case_match; reflect_js; naive_solver.
Qed.

(** A document satisfies the condition exactly when it has a leaf and every
    occurrence is on an allowed path and carries every constrained argument,
    resolved, with an allowed value. *)
Lemma selectionSatisfies_true fieldPaths fieldArguments document :
  selectionSatisfies fieldPaths fieldArguments (Some document) = TTrue ↔
  (∃ field, In field (doc_fields document) ∧ occ_leaf field = true) ∧
  ∀ field, In field (doc_fields document) →
    path_allowed fieldPaths field ∧
    ∀ c, In c (constraints_of fieldArguments field) → argument_verdict field c = VPass.
Proof.
  unfold selectionSatisfies. rewrite field_fold. simpl.
  assert (∀ field, field_refused (unique fieldPaths) (graphqlPathPrefixes (unique fieldPaths))
                     fieldArguments field = false ∧ field_unknown fieldArguments field = false
          ↔ path_allowed fieldPaths field ∧
            ∀ c, In c (constraints_of fieldArguments field) →
                 argument_verdict field c = VPass) as Hfield.
  { intros field. unfold field_refused, field_unknown, path_allowed.
    rewrite orb_false_iff, negb_false_iff, !existsb_false, includes_In.
    assert (In (occ_path field) (if occ_leaf field then unique fieldPaths
              else graphqlPathPrefixes (unique fieldPaths)) ↔
            path_allowed fieldPaths field) as ->.
    { unfold path_allowed, graphqlPathPrefixes.
      destruct (occ_leaf field); rewrite ?unique_In; [done|].
      rewrite !in_flat_map. by setoid_rewrite unique_In. }
    unfold path_allowed. split.
    - intros [[Hp Hr] Hu]. split; [done|]. intros c Hc.
      specialize (Hr c Hc). specialize (Hu c Hc). by destruct (argument_verdict field c).
    - intros [Hp Hc]. split_and!; [done| |]; intros c Hin; by rewrite (Hc c Hin). }
  destruct (existsb occ_leaf (doc_fields document)) eqn:El; simpl.
  - apply existsb_exists in El.
    destruct (existsb (field_unknown _) _) eqn:Eu.
    + split; [done|]. intros [_ H]. apply existsb_exists in Eu as (f & Hf & Hu).
      apply H, Hfield in Hf as [_ Hf]. congruence.
    + destruct (existsb (field_refused _ _ _) _) eqn:Er.
      * split; [done|]. intros [_ H]. apply existsb_exists in Er as (f & Hf & Hr).
        apply H, Hfield in Hf as [Hf _]. congruence.
      * split; [|done]. intros _. split; [done|]. intros f Hf. apply Hfield.
        rewrite existsb_false in *. auto.
  - rewrite existsb_false in El. split; [done|].
    intros [(f & Hf & Hl) _]. rewrite El in Hl; done.
Qed.

(** An argument that does not resolve makes the whole document indeterminate:
    no violation elsewhere turns the answer into "false". *)
Lemma selectionSatisfies_unknown fieldPaths fieldArguments document field c :
  In field (doc_fields document) →
  In c (constraints_of fieldArguments field) →
  In c.1 (occ_unresolvedArguments field) →
  selectionSatisfies fieldPaths fieldArguments (Some document) = TIndeterminate.
Proof.
  intros Hf Hc Hu. unfold selectionSatisfies. rewrite field_fold. simpl.
  destruct (negb _); [done|].
  assert (existsb (field_unknown fieldArguments) (doc_fields document) = true) as ->; [|done].
  apply existsb_exists. exists field. split; [done|]. apply existsb_exists.
  exists c. split; [done|]. unfold argument_verdict.
  apply includes_In in Hu. by rewrite Hu.
Qed.

Lemma path_cuts_spec rest : ∀ before p,
  In p (path_cuts before rest) ↔
  ∃ mid tail, rest = mid +:+ String "/" tail ∧ p = before +:+ mid ∧ p ≠ "".
Proof.
  induction rest as [|c rest IH]; intros before p; simpl.
  - split; [done|]. intros (mid & tl & H & _). by destruct mid.
  - assert (In p (path_cuts (before +:+ String c "") rest) ↔
      ∃ mid tail, String c rest = String c mid +:+ String "/" tail ∧
        p = before +:+ String c mid ∧ p ≠ "") as Hrec.
    { rewrite IH. setoid_rewrite sapp_assoc. simpl. naive_solver. }
    destruct (Ascii.eqb_spec c "/") as [->|Hc]; simpl.
    + destruct (String.eqb_spec before "") as [->|Hb]; simpl.
      * rewrite Hrec. split; [intros (mid & tl & ?); by exists (String "/" mid), tl|].
        intros ([|a mid] & tl & He & Hp & Hne); simpl in *; [done|].
        injection He as -> ->. by exists mid, tl.
      * rewrite Hrec. split.
        -- intros [<-|(mid & tl & ?)]; [|by exists (String "/" mid), tl].
           exists "", rest. by rewrite sapp_nil_r.
        -- intros ([|a mid] & tl & He & Hp & Hne); simpl in *.
           ++ left. by rewrite sapp_nil_r in Hp.
           ++ right. injection He as -> ->. by exists mid, tl.
    + rewrite Hrec. split; [intros (mid & tl & ?); by exists (String c mid), tl|].
      intros ([|a mid] & tl & He & Hp & Hne); simpl in *; [congruence|].
      injection He as -> ->. by exists mid, tl.
Qed.

Example graphqlPathChain_ex : graphqlPathChain "/a/b/c" = ["/a"; "/a/b"; "/a/b/c"].
Proof. reflexivity. Qed.
