(* ===== verification/Semantics.v ===== *)
(** * The meaning of a match (network/authz/semantics.ts)

    The three-valued evaluation of a compiled match on one request. *)
From S2P Require Import Prelude JsString Json Containment AuthzTypes Pattern Relation Selection.

(** ** JSON Pointers *)

Definition unescape_token (raw : string) : string :=
  replace2 "~" "0" "~" (replace2 "~" "1" "/" raw).

(** A decimal array index: `0`, or digits with no leading zero. *)
Definition is_array_index (token : string) : bool :=
  match token with
  | EmptyString => false
  | String a rest =>
      if Ascii.eqb a "0" then String.eqb rest ""
      else is_digit a && string_all is_digit rest
  end.

(** `Number.parseInt(token, 10)` of a string of digits. *)
Fixpoint parse_digits (acc : N) (s : string) : N :=
  match s with
  | EmptyString => acc
  | String a s' => parse_digits (acc * 10 + N.of_nat (code a - 48))%N s'
  end.

Definition pointer_step (current : JsonValue) (raw : string) : option JsonValue :=
  let token := unescape_token raw in
  match current with
  | JArray elements =>
      if is_array_index token then elements !! N.to_nat (parse_digits 0 token) else None
  | JObject members => map_get members token
  | _ => None
  end.

Fixpoint pointer_walk (current : JsonValue) (tokens : list string) : option JsonValue :=
  match tokens with
  | [] => Some current
  | raw :: rest => next ← pointer_step current raw; pointer_walk next rest
  end.

Definition resolvePointer (root : JsonValue) (pointer : string) : option JsonValue :=
  if String.eqb pointer "" then Some root
  else if negb (startsWith pointer "/") then None
  else pointer_walk root (split_on "/" (drop_str 1 pointer)).

(** ** Queries *)

Definition hasQueryString (requestPath : string) : bool :=
  match indexOf requestPath "?" with
  | None => false
  | Some query => (query + 1 <? slen requestPath)%nat
  end.

(** ** Body conditions *)

Definition evaluatePointer (root : JsonValue) (pointer : string) (values : list JsonScalar) :
    Truth :=
  match resolvePointer root pointer with
  | None => TFalse
  | Some (JScalar found) =>
      if includes (map scalarKey values) (scalarKey found) then TTrue else TFalse
  | Some _ => TIndeterminate
  end.

Definition satisfiesDocument (condition : NormalizedGraphql) (document : GraphqlDocument) :
    Truth :=
  let selection := selectionSatisfies (ng_fieldPaths condition)
                     (ng_fieldArguments condition) (Some document) in
  match selection with
  | TIndeterminate => TIndeterminate
  | _ =>
      match doc_operations document with
      | [] => TIndeterminate
      | _ :: _ =>
          if negb (forallb (includes (ng_operations condition)) (doc_operations document))
          then TFalse else selection
      end
  end.

(** A name of `Object.prototype` read through `documents[at]` gives a value
    without `fields`, on which `selectionSatisfies` answers "indeterminate". *)
Definition evaluateGraphql (condition : NormalizedGraphql) (value : JsonValue)
    (documents : option (list (string * GraphqlDocument))) (requestPath : string) : Truth :=
  if hasQueryString requestPath then TIndeterminate
  else
    let missing := match resolvePointer value (ng_at condition) with
                   | None => TFalse | Some _ => TIndeterminate end in
    match documents with
    | None => missing
    | Some documents =>
        match prop_read documents (ng_at condition) with
        | Own document => satisfiesDocument condition document
        | Inherited => TIndeterminate
        | Missing => missing
        end
    end.

(** The two flags of `evaluateContent`, updated by one more verdict. *)
Definition content_step (acc : bool * bool) (verdict : Truth) : bool * bool :=
  match verdict with
  | TIndeterminate => (true, acc.2)
  | TFalse => (acc.1, true)
  | TTrue => acc
  end.

Definition evaluateContent (condition : NormalizedBody) (body : RequestBody)
    (requestPath : string) : Truth :=
  match nb_pointers condition, nb_graphql condition with
  | [], None => TTrue
  | pointers, graphql =>
      match body with
      | BodyJson value documents =>
          let acc := fold_left (λ acc '(pointer, values),
                       content_step acc (evaluatePointer value pointer values))
                       pointers (false, false) in
          let acc := match graphql with
                     | None => acc
                     | Some g => content_step acc (evaluateGraphql g value documents requestPath)
                     end in
          if acc.1 then TIndeterminate else if acc.2 then TFalse else TTrue
      | _ => TIndeterminate
      end
  end.

Definition evaluateBody (condition : NormalizedBody) (body : RequestBody)
    (requestPath : string) : Truth :=
  match nb_format condition with
  | None => TTrue
  | Some format =>
      match body with
      | BodyAbsent => TFalse
      | _ =>
          match format with
          | FmtNone =>
              match body with
              | BodyEmpty => evaluateContent condition body requestPath
              | _ => TFalse
              end
          | FmtOpaque => evaluateContent condition body requestPath
          | FmtJson =>
              match body with
              | BodyJson _ _ => evaluateContent condition body requestPath
              | _ => TIndeterminate
              end
          end
      end
  end.

Definition evaluateMatch (match_ : CompiledMatch) (request : AuthzRequest) : Truth :=
  if match cm_methods match_ with
     | None => false
     | Some methods => negb (includes methods (req_method request))
     end then TFalse
  else if negb (existsb (λ path, compiledPathMatches path (req_path request)) (cm_paths match_))
  then TFalse
  else evaluateBody (cm_body match_) (req_body request) (req_path request).

Definition accepts (match_ : CompiledMatch) (request : AuthzRequest) : bool :=
  bool_decide (evaluateMatch match_ request = TTrue).

(** ** What the evaluation computes *)

Lemma content_fold value pointers : ∀ acc,
  fold_left (λ acc '(pointer, values),
    content_step acc (evaluatePointer value pointer values)) pointers acc =
  (acc.1 || existsb (λ '(p, vs), bool_decide (evaluatePointer value p vs = TIndeterminate)) pointers,
   acc.2 || existsb (λ '(p, vs), bool_decide (evaluatePointer value p vs = TFalse)) pointers).
Proof.
  induction pointers as [|[p vs] pointers IH]; intros [i f]; simpl; [by rewrite !orb_false_r|].
  rewrite IH. destruct (evaluatePointer value p vs); simpl;
    rewrite ?orb_true_r, ?orb_true_l; try done; by destruct i, f.
Qed.

(** A JSON body satisfies the content conditions exactly when every pointer and
    the GraphQL condition are true. *)
Lemma evaluateContent_json_true condition value documents path :
  evaluateContent condition (BodyJson value documents) path = TTrue ↔
  (∀ p vs, In (p, vs) (nb_pointers condition) → evaluatePointer value p vs = TTrue) ∧
  (∀ g, nb_graphql condition = Some g → evaluateGraphql g value documents path = TTrue).
Proof.
  assert (∀ ps g,
    (let acc := fold_left (λ acc '(p, vs), content_step acc (evaluatePointer value p vs))
                  ps (false, false) in
     let acc := match g with None => acc | Some g =>
                  content_step acc (evaluateGraphql g value documents path) end in
     if acc.1 then TIndeterminate else if acc.2 then TFalse else TTrue) = TTrue ↔
    (∀ p vs, In (p, vs) ps → evaluatePointer value p vs = TTrue) ∧
    (∀ g', g = Some g' → evaluateGraphql g' value documents path = TTrue)) as Hgen.
  { intros ps g. simpl. rewrite content_fold. simpl.
    destruct (existsb (λ '(p, vs), bool_decide (evaluatePointer value p vs = TIndeterminate)) ps)
      eqn:Ei.
    { apply existsb_exists in Ei as ([p vs] & Hin & He%bool_decide_eq_true).
      split; [by destruct g as [g|]; [destruct (evaluateGraphql _ _ _ _)|]|].
      intros [H _]. apply H in Hin. congruence. }
    destruct (existsb (λ '(p, vs), bool_decide (evaluatePointer value p vs = TFalse)) ps)
      eqn:Ef.
    { apply existsb_exists in Ef as ([p vs] & Hin & He%bool_decide_eq_true).
      split; [by destruct g as [g|]; [destruct (evaluateGraphql _ _ _ _)|]|].
      intros [H _]. apply H in Hin. congruence. }
    assert (∀ p vs, In (p, vs) ps → evaluatePointer value p vs = TTrue) as Hall.
    { intros p vs Hin. rewrite existsb_false in *.
      pose proof (Ei _ Hin) as E1. pose proof (Ef _ Hin) as E2. simpl in E1, E2.
      apply bool_decide_eq_false in E1, E2. by destruct (evaluatePointer value p vs). }
    destruct g as [g|]; simpl; [|split; [by intros _|done]].
    destruct (evaluateGraphql g value documents path) eqn:Eg; simpl; split; try done.
    - intros _. split; [done|]. by intros g' [= <-].
    - intros [_ H]. specialize (H g eq_refl). congruence.
    - intros [_ H]. specialize (H g eq_refl). congruence. }
  unfold evaluateContent.
  destruct (nb_pointers condition) as [|pt pts] eqn:Ep, (nb_graphql condition) as [g|] eqn:Eg;
    [exact (Hgen [] (Some g))| |exact (Hgen (pt :: pts) (Some g))|exact (Hgen (pt :: pts) None)].
  split; [|done]. intros _. split; [intros p vs []|done].
Qed.

(** Without content conditions any body satisfies them; with some, only a JSON
    body can. *)
Lemma evaluateContent_other condition body path :
  (∀ value documents, body ≠ BodyJson value documents) →
  evaluateContent condition body path = TTrue ↔
  nb_pointers condition = [] ∧ nb_graphql condition = None.
Proof.
  intros Hb. unfold evaluateContent.
  destruct (nb_pointers condition), (nb_graphql condition), body; naive_solver.
Qed.

Lemma satisfiesDocument_true g document :
  satisfiesDocument g document = TTrue ↔
  selectionSatisfies (ng_fieldPaths g) (ng_fieldArguments g) (Some document) = TTrue ∧
  doc_operations document ≠ [] ∧
  ∀ op, In op (doc_operations document) → In op (ng_operations g).
Proof.
  unfold satisfiesDocument.
  destruct (selectionSatisfies _ _ _); [| |naive_solver];
    destruct (doc_operations document) as [|o ops] eqn:Eo; try naive_solver;
    destruct (forallb _ (o :: ops)) eqn:Ef; cbn [negb]; try naive_solver.
  - rewrite forallb_forall in Ef. setoid_rewrite includes_In in Ef. naive_solver.
  - apply forallb_false in Ef as (x & Hx & Hn%includes_false). naive_solver.
Qed.

Lemma evaluateGraphql_true g value documents path :
  evaluateGraphql g value documents path = TTrue ↔
  hasQueryString path = false ∧
  ∃ ds document, documents = Some ds ∧ map_get ds (ng_at g) = Some document ∧
                 satisfiesDocument g document = TTrue.
Proof.
  unfold evaluateGraphql, prop_read.
  split.
  - destruct (hasQueryString path); [done|]. intros H.
    destruct documents as [ds|]; [|by case_match].
    destruct (map_get ds (ng_at g)) eqn:E; [by eauto 10|]. by repeat case_match.
  - intros (-> & ds & document & -> & -> & H). done.
Qed.

Lemma evaluatePointer_true value p vs :
  evaluatePointer value p vs = TTrue ↔
  ∃ found, resolvePointer value p = Some (JScalar found) ∧ In (scalarKey found) (map scalarKey vs).
Proof.
  unfold evaluatePointer. split.
  - repeat case_match; try done. intros _. eexists. split; [done|]. by apply includes_In.
  - intros (found & -> & Hin). apply includes_In in Hin. by rewrite Hin.
Qed.

Lemma accepts_iff m r :
  accepts m r = true ↔
  methods_mem (cm_methods m) (req_method r) = true ∧
  existsb (λ path, compiledPathMatches path (req_path r)) (cm_paths m) = true ∧
  evaluateBody (cm_body m) (req_body r) (req_path r) = TTrue.
Proof.
  unfold accepts, evaluateMatch, methods_mem. rewrite bool_decide_eq_true.
  destruct (cm_methods m) as [ms|]; [destruct (includes ms (req_method r)); simpl|];
    (destruct (existsb _ _); simpl; naive_solver).
Qed.

(** ** Properties *)

(** An unresolved constrained argument, wherever it occurs in the document,
    makes the evaluation of the whole match indeterminate: neither a refused path
    nor a refused pointer turns the answer into "false", which would let the
    request fall through to a wider rule. *)
Theorem unresolved_argument_indeterminate (m : CompiledMatch) (g : NormalizedGraphql)
    (value : JsonValue) (docs : list (string * GraphqlDocument)) (doc : GraphqlDocument)
    (field : GraphqlFieldOccurrence) (name : string) (allowed : list string)
    (method path : string)
    (Hmethod : methods_mem (cm_methods m) method = true)
    (Hpath : existsb (λ p, compiledPathMatches p path) (cm_paths m) = true)
    (Hformat : nb_format (cm_body m) = Some FmtJson)
    (Hgraphql : nb_graphql (cm_body m) = Some g)
    (Hdoc : map_get docs (ng_at g) = Some doc)
    (Hfield : In field (doc_fields doc))
    (Hconstraint : In (name, allowed) (constraints_of (ng_fieldArguments g) field))
    (Hunresolved : In name (occ_unresolvedArguments field)) :
  evaluateMatch m {| req_method := method; req_path := path;
                     req_body := BodyJson value (Some docs) |} = TIndeterminate.
Proof.
  unfold evaluateMatch. simpl. rewrite Hpath.
  assert (match cm_methods m with None => false | Some ms => negb (includes ms method) end = false)
    as -> by (destruct (cm_methods m); simpl in *; [by rewrite Hmethod|done]).
  unfold evaluateBody. rewrite Hformat. unfold evaluateContent. rewrite Hgraphql.
  assert (evaluateGraphql g value (Some docs) path = TIndeterminate) as ->.
  { unfold evaluateGraphql, prop_read. rewrite Hdoc. destruct (hasQueryString path); [done|].
    unfold satisfiesDocument.
    by rewrite (selectionSatisfies_unknown _ _ doc field (name, allowed)). }
  by destruct (nb_pointers (cm_body m)).
Qed.

Section UnresolvedSample.
Local Definition sample_field : GraphqlFieldOccurrence := {|
  occ_path := "/viewer"; occ_leaf := true; occ_argumentValues := [];
  occ_unresolvedArguments := ["first"] |}.
Local Definition sample_condition : NormalizedGraphql := {|
  ng_at := "/query"; ng_operations := [OpQuery]; ng_fieldPaths := ["/other"];
  ng_fieldArguments := [("/viewer", [("first", ["1"])])] |}.
Local Definition sample_match : CompiledMatch := {|
  cm_methods := None;
  cm_paths := [{| cp_source := "/**"; cp_segments := [SetFinite [""]];
                  cp_trailingDoubleStar := true |}];
  cm_body := {| nb_format := Some FmtJson; nb_pointers := [("/x", [ScBoolean true])];
                nb_graphql := Some sample_condition |} |}.
Local Definition sample_document : GraphqlDocument :=
  {| doc_operations := [OpQuery]; doc_fields := [sample_field] |}.

Lemma unresolved_argument_indeterminate_witness :
  evaluateMatch sample_match {| req_method := "POST"; req_path := "/graphql";
    req_body := BodyJson (JObject []) (Some [("/query", sample_document)]) |} = TIndeterminate.
Proof.
  apply (unresolved_argument_indeterminate sample_match sample_condition (JObject [])
           [("/query", sample_document)] sample_document sample_field "first" ["1"]);
    try reflexivity; left; reflexivity.
Defined.
End UnresolvedSample.
