(* ===== verification/MatchLaws.v ===== *)
(** * Soundness of the relations on matches

    relation.ts claims containment or disjointness of two matches only when it
    can show it; semantics.ts says what a match accepts.  Here the first is
    proved sound for the second, axis by axis and composed, as the instances
    [body_laws] and [match_laws] of the [ContainmentLaws] interface. *)
From S2P Require Import Prelude JsString Json Containment AuthzTypes Pattern Relation Selection.
From S2P Require Import Semantics.

(** A body condition without a format carries no content condition: the shape
    `normalizeBody` gives. *)
Definition wf_body (b : NormalizedBody) : Prop :=
  nb_format b = None → nb_pointers b = [] ∧ nb_graphql b = None.

Lemma normalizeBody_wf body : wf_body (normalizeBody body).
Proof. by destruct body. Qed.

(** ** GraphQL conditions *)

Lemma argumentsSubsume_get a b path name valuesB args :
  argumentsSubsume a b = true →
  map_get b path = Some args → In (name, valuesB) args →
  ∃ argsA valuesA, map_get a path = Some argsA ∧ In (name, valuesA) argsA ∧
    ∀ v, In v valuesA → In v valuesB.
Proof.
  unfold argumentsSubsume. rewrite forallb_forall. intros H Hb Hin.
  apply map_get_In, H in Hb. simpl in Hb.
  destruct (map_get a path) as [argsA|] eqn:Ea; [|done].
  rewrite forallb_forall in Hb. apply Hb in Hin. simpl in Hin.
  destruct (map_get argsA name) as [valuesA|] eqn:En; [|done].
  exists argsA, valuesA. split_and!; [done|by apply map_get_In|].
  rewrite forallb_forall in Hin. intros v Hv. by apply includes_In, Hin.
Qed.

Lemma argumentsSubsume_trans a b c :
  argumentsSubsume a b = true → argumentsSubsume b c = true → argumentsSubsume a c = true.
Proof.
  intros Hab Hbc. unfold argumentsSubsume in *. rewrite forallb_forall in *.
  intros [path argsC] Hc. apply Hbc in Hc. simpl in *.
  destruct (map_get b path) as [argsB|] eqn:Eb; [|done].
  apply map_get_In, Hab in Eb. simpl in Eb.
  destruct (map_get a path) as [argsA|]; [|done].
  rewrite forallb_forall in *. intros [name valuesC] Hn. apply Hc in Hn. simpl in *.
  destruct (map_get argsB name) as [valuesB|] eqn:En; [|done].
  apply map_get_In, Eb in En. simpl in En.
  destruct (map_get argsA name) as [valuesA|]; [|done].
  rewrite forallb_forall in *. intros v Hv. by apply Hn, includes_In, En.
Qed.

Lemma graphqlSubsumes_trans a b c :
  graphqlSubsumes a b = true → graphqlSubsumes b c = true → graphqlSubsumes a c = true.
Proof.
  destruct a as [a|], b as [b|], c as [c|]; simpl; try done.
  rewrite !andb_true_iff, !String.eqb_eq, !forallb_forall.
  intros [[[-> Ho] Hf] Ha] [[[-> Ho'] Hf'] Ha']. split_and!; [done| | |].
  - intros o Hin. by apply Ho', includes_In, Ho.
  - intros p Hin. by apply Hf', includes_In, Hf.
  - by eapply argumentsSubsume_trans.
Qed.

Lemma graphqlSubsumes_sound a b value documents path :
  graphqlSubsumes (Some a) (Some b) = true →
  evaluateGraphql a value documents path = TTrue →
  evaluateGraphql b value documents path = TTrue.
Proof.
  simpl. rewrite !andb_true_iff, String.eqb_eq, !forallb_forall.
  intros [[[Hat Ho] Hf] Ha]. rewrite !evaluateGraphql_true.
  intros (Hq & ds & doc & -> & Hget & Hsat). split; [done|].
  exists ds, doc. rewrite <- Hat. split_and!; [done..|].
  rewrite satisfiesDocument_true in *. destruct Hsat as (Hsel & Hne & Hops).
  split_and!; [|done|].
  - rewrite selectionSatisfies_true in *. destruct Hsel as [Hleaf Hall]. split; [done|].
    intros field Hin. destruct (Hall field Hin) as [Hp Hc]. split.
    + unfold path_allowed in *. destruct (occ_leaf field); [by apply includes_In, Hf|].
      rewrite in_flat_map in *. destruct Hp as (l & Hl & Hp). exists l.
      split; [by apply includes_In, Hf|done].
    + intros [name valuesB] HcB. unfold constraints_of in *.
      destruct (map_get (ng_fieldArguments b) (occ_path field)) as [args|] eqn:Eb; [|done].
      destruct (argumentsSubsume_get _ _ _ _ _ _ Ha Eb HcB) as (argsA & valuesA & EA & HcA & Hsub).
      rewrite EA in Hc. apply Hc, argument_verdict_pass in HcA. simpl in HcA.
      apply argument_verdict_pass. simpl. naive_solver.
  - intros op Hop. by apply includes_In, Ho, Hops.
Qed.

Lemma graphqlIntersects_complete a b value documents path :
  evaluateGraphql a value documents path = TTrue →
  evaluateGraphql b value documents path = TTrue →
  graphqlIntersects (Some a) (Some b) = true.
Proof.
  rewrite !evaluateGraphql_true.
  intros (_ & ds & doc & -> & Hget & Hsat) (_ & ds' & doc' & [= <-] & Hget' & Hsat').
  simpl. destruct (String.eqb_spec (ng_at a) (ng_at b)) as [Hat|]; simpl; [|done].
  rewrite Hat in Hget. assert (doc' = doc) as -> by congruence.
  apply satisfiesDocument_true in Hsat as (Hsel & Hne & Hops).
  apply satisfiesDocument_true in Hsat' as (Hsel' & _ & Hops').
  assert (existsb (includes (ng_operations b)) (ng_operations a) = true) as ->.
  { destruct (doc_operations doc) as [|op ops]; [done|].
    apply existsb_exists. exists op. rewrite includes_In.
    split; [apply Hops|apply Hops']; by left. }
  simpl. apply selectionSatisfies_true in Hsel as [(f & Hf & Hl) Hall].
  apply selectionSatisfies_true in Hsel' as [_ Hall'].
  destruct (Hall f Hf) as [Hp _], (Hall' f Hf) as [Hp' _].
  unfold path_allowed in *. rewrite Hl in Hp, Hp'.
  apply existsb_exists. exists (occ_path f). by rewrite includes_In.
Qed.

(** ** Pointers *)

Lemma pointersSubsume_trans a b c :
  pointersSubsume a b = true → pointersSubsume b c = true → pointersSubsume a c = true.
Proof.
  unfold pointersSubsume. rewrite !forallb_forall. intros Hab Hbc [p vc] Hc.
  apply Hbc in Hc. simpl in *. destruct (map_get b p) as [vb|] eqn:Eb; [|done].
  apply map_get_In, Hab in Eb. simpl in Eb. destruct (map_get a p) as [va|]; [|done].
  by eapply scalarSetSubsumes_trans.
Qed.

Lemma pointersSubsume_sound a b value :
  pointersSubsume a b = true →
  (∀ p vs, In (p, vs) a → evaluatePointer value p vs = TTrue) →
  ∀ p vs, In (p, vs) b → evaluatePointer value p vs = TTrue.
Proof.
  unfold pointersSubsume. rewrite forallb_forall. intros Hab Ha p vb Hb.
  apply Hab in Hb. simpl in Hb. destruct (map_get a p) as [va|] eqn:Ea; [|done].
  apply map_get_In, Ha in Ea. rewrite evaluatePointer_true in *.
  destruct Ea as (found & Hr & Hk). exists found. split; [done|].
  by apply (scalarSetSubsumes_iff va vb).
Qed.

Lemma pointersIntersect_complete a b value :
  (∀ p vs, In (p, vs) a → evaluatePointer value p vs = TTrue) →
  (∀ p vs, In (p, vs) b → evaluatePointer value p vs = TTrue) →
  pointersIntersect a b = true.
Proof.
  intros Ha Hb. unfold pointersIntersect. apply forallb_forall. intros [p va] Hin.
  destruct (map_get b p) as [vb|] eqn:Eb; [|done].
  apply Ha, evaluatePointer_true in Hin as (fa & Hfa & Hka).
  apply map_get_In, Hb, evaluatePointer_true in Eb as (fb & Hfb & Hkb).
  simplify_eq. apply scalarSetsIntersect_iff. eauto.
Qed.

Lemma pointersSubsume_nil b : pointersSubsume [] b = true → b = [].
Proof. by destruct b as [|[p vs] b]. Qed.

(** ** Bodies *)

(** When a body is accepted: its format is met and, if the condition looks at
    the content, the body is a JSON value that satisfies it. *)
Definition format_met (f : option BodyFormat) (body : RequestBody) : Prop :=
  match f, body with
  | None, _ => True
  | Some _, BodyAbsent => False
  | Some FmtNone, BodyEmpty => True
  | Some FmtNone, _ => False
  | Some FmtOpaque, _ => True
  | Some FmtJson, BodyJson _ _ => True
  | Some FmtJson, _ => False
  end.

Definition content_met (c : NormalizedBody) (body : RequestBody) (path : string) : Prop :=
  match body with
  | BodyJson value documents =>
      (∀ p vs, In (p, vs) (nb_pointers c) → evaluatePointer value p vs = TTrue) ∧
      (∀ g, nb_graphql c = Some g → evaluateGraphql g value documents path = TTrue)
  | _ => nb_pointers c = [] ∧ nb_graphql c = None
  end.

Lemma evaluateContent_true c body path :
  evaluateContent c body path = TTrue ↔ content_met c body path.
Proof.
  destruct body; simpl; try (by apply evaluateContent_other).
  apply evaluateContent_json_true.
Qed.

Lemma evaluateBody_true c body path :
  evaluateBody c body path = TTrue ↔
  format_met (nb_format c) body ∧ (nb_format c ≠ None → content_met c body path).
Proof.
  unfold evaluateBody. rewrite <- evaluateContent_true.
  destruct (nb_format c) as [[]|], body; simpl; naive_solver.
Qed.

Lemma formatSubsumes_sound a b body :
  formatSubsumes a b = true → format_met a body → format_met b body.
Proof. by destruct a as [[]|], b as [[]|], body. Qed.

Lemma formatSubsumes_trans a b c :
  formatSubsumes a b = true → formatSubsumes b c = true → formatSubsumes a c = true.
Proof. by destruct a as [[]|], b as [[]|], c as [[]|]. Qed.

Lemma formatIntersects_complete a b body :
  format_met a body → format_met b body → formatIntersects a b = true.
Proof. by destruct a as [[]|], b as [[]|], body. Qed.

Lemma content_met_mono a b body path :
  pointersSubsume (nb_pointers a) (nb_pointers b) = true →
  graphqlSubsumes (nb_graphql a) (nb_graphql b) = true →
  content_met a body path → content_met b body path.
Proof.
  intros Hp Hg. unfold content_met. destruct body as [| | |value documents].
  1-3: intros [Ea Ega]; rewrite Ea in Hp; rewrite Ega in Hg;
    apply pointersSubsume_nil in Hp; by destruct (nb_graphql b).
  intros [Ha Hga]. split; [by eapply pointersSubsume_sound|].
  intros gb Eb. rewrite Eb in Hg.
  destruct (nb_graphql a) as [ga|] eqn:Ea; [|done].
  by eapply graphqlSubsumes_sound; [|apply Hga].
Qed.

#[export] Instance body_containment : Containment NormalizedBody (RequestBody * string) := {
  mem c x := bool_decide (evaluateBody c x.1 x.2 = TTrue);
  subsumes := bodySubsumes;
  intersects := bodiesIntersect;
}.

#[export] Instance body_laws : ContainmentLaws NormalizedBody (RequestBody * string) wf_body.
Proof.
  split; simpl; unfold bodySubsumes, bodiesIntersect.
  - intros a b [body path]. rewrite !bool_decide_eq_true, !andb_true_iff, !evaluateBody_true.
    intros [[Hf Hp] Hg] [Hfa Ha]. simpl in *.
    split; [by eapply formatSubsumes_sound|]. intros Hb.
    eapply content_met_mono; [done..|]. apply Ha. by destruct (nb_format a), (nb_format b).
  - intros a b c. rewrite !andb_true_iff. intros [[] ?] [[] ?].
    eauto 10 using formatSubsumes_trans, pointersSubsume_trans, graphqlSubsumes_trans.
  - intros a b [body path] Wa Wb. rewrite !bool_decide_eq_true, !evaluateBody_true. simpl.
    intros [Hfa Ha] [Hfb Hb]. rewrite !andb_true_iff.
    assert (∀ c, wf_body c → format_met (nb_format c) body →
              (nb_format c ≠ None → content_met c body path) →
              (nb_pointers c = [] ∧ nb_graphql c = None) ∨ content_met c body path) as Hc.
    { intros c Wc _ Hc. destruct (nb_format c) eqn:E; [right; auto|left; by apply Wc]. }
    destruct (Hc a Wa Hfa Ha) as [[Ea Ega]|Hca]; [rewrite Ea, Ega; simpl|].
    { eauto using formatIntersects_complete. }
    destruct (Hc b Wb Hfb Hb) as [[Eb Egb]|Hcb]; [rewrite Eb, Egb; simpl|].
    { split_and!; [by eapply formatIntersects_complete|by apply forallb_forall; intros []|].
      by destruct (nb_graphql a). }
    unfold content_met in *. destruct body as [| | |value documents];
      [destruct Hca as [Ea Ega]; rewrite Ea, Ega; simpl;
       eauto using formatIntersects_complete..|].
    destruct Hca as [Hpa Hga], Hcb as [Hpb Hgb].
    split_and!; [by eapply formatIntersects_complete|by eapply pointersIntersect_complete|].
    destruct (nb_graphql a) as [ga|], (nb_graphql b) as [gb|]; [|done..].
    by eapply graphqlIntersects_complete; [apply Hga|apply Hgb].
Qed.

(** ** Matches *)

Definition wf_match (m : CompiledMatch) : Prop := wf_body (cm_body m).

Lemma compileMatch_wf m c : compileMatch m = Some (Ok c) → wf_match c.
Proof.
  unfold compileMatch. destruct (compile_paths _ _) as [[ps|e]|]; simpl; [|done..].
  intros [= <-]. apply normalizeBody_wf.
Qed.

#[export] Instance match_containment : Containment CompiledMatch AuthzRequest := {
  mem := accepts; subsumes := matchSubsumes; intersects := matchesIntersect }.

Lemma accepts_axes m r :
  accepts m r = true ↔
  mem (cm_methods m) (req_method r) = true ∧ mem (cm_paths m) (req_path r) = true ∧
  mem (cm_body m) (req_body r, req_path r) = true.
Proof. rewrite accepts_iff. simpl. by rewrite bool_decide_eq_true. Qed.

Lemma matchSubsumes_axes a b :
  matchSubsumes a b = true ↔
  subsumes (E := string) (cm_methods a) (cm_methods b) = true ∧
  subsumes (E := string) (cm_paths a) (cm_paths b) = true ∧
  subsumes (E := RequestBody * string) (cm_body a) (cm_body b) = true.
Proof. unfold matchSubsumes. simpl. rewrite !andb_true_iff. tauto. Qed.

Lemma matchesIntersect_axes a b :
  matchesIntersect a b = true ↔
  intersects (E := string) (cm_methods a) (cm_methods b) = true ∧
  intersects (E := string) (cm_paths a) (cm_paths b) = true ∧
  intersects (E := RequestBody * string) (cm_body a) (cm_body b) = true.
Proof. unfold matchesIntersect. simpl. rewrite !andb_true_iff. tauto. Qed.

#[export] Instance match_laws : ContainmentLaws CompiledMatch AuthzRequest wf_match.
Proof.
  split; simpl.
  - intros a b r. rewrite matchSubsumes_axes, !accepts_axes.
    intros (Hm & Hp & Hb) (Ha1 & Ha2 & Ha3).
    split_and!; eapply subsumes_sound; eauto.
  - intros a b c. rewrite !matchSubsumes_axes. intros (?&?&?) (?&?&?).
    split_and!; eapply subsumes_trans; eauto.
  - intros a b r Wa Wb. rewrite matchesIntersect_axes, !accepts_axes.
    intros (?&?&?) (?&?&?).
    split_and!; eapply intersects_complete; eauto; done.
Qed.

(** ** Properties *)

Section Examples.
Local Definition ex_graphql : GraphqlMatch := {|
  gm_at := None; gm_operations := [OpQuery]; gm_fieldPaths := Some ["/viewer/login"; "/rateLimit"];
  gm_fieldArguments := Some [("/viewer", [("first", ["one"; "two"])])]; gm_unknownKeys := [] |}.
Local Definition ex_graphql_narrow : GraphqlMatch := {|
  gm_at := None; gm_operations := [OpQuery]; gm_fieldPaths := Some ["/viewer/login"];
  gm_fieldArguments := Some [("/viewer", [("first", ["one"])])]; gm_unknownKeys := [] |}.
Local Definition ex_match (methods : option (list string)) path graphql : Match := {|
  m_methods := methods; m_paths := [path]; m_captures := Some [("org", ["octo"; "cat"])];
  m_body := Some {| bm_format := FmtJson; bm_equals := None; bm_oneOf := None;
                    bm_graphql := Some graphql |} |}.
Definition ex_wide_config : Match := ex_match None "/{org}/**" ex_graphql.
Definition ex_narrow_config : Match := ex_match (Some ["post"]) "/octo/graphql" ex_graphql_narrow.
Local Definition force (m : Match) : CompiledMatch :=
  match compileMatch m with
  | Some (Ok c) => c
  | _ => {| cm_methods := None; cm_paths := []; cm_body := normalizeBody None |}
  end.
Definition ex_wide : CompiledMatch := Eval vm_compute in force ex_wide_config.
Definition ex_narrow : CompiledMatch := Eval vm_compute in force ex_narrow_config.
Definition ex_request : AuthzRequest := {|
  req_method := "POST"; req_path := "/octo/graphql";
  req_body := BodyJson (JObject [("query", JScalar (ScString "{ viewer(first: one) { login } }"))])
    (Some [("/query", {| doc_operations := [OpQuery]; doc_fields :=
      [{| occ_path := "/viewer"; occ_leaf := false; occ_argumentValues := [("first", "one")];
          occ_unresolvedArguments := [] |};
       {| occ_path := "/viewer/login"; occ_leaf := true; occ_argumentValues := [];
          occ_unresolvedArguments := [] |}] |})]) |}.
End Examples.

(** C4.  Containment is sound: when [matchSubsumes a b] holds, every request the
    match [a] accepts (truth value "true", body and GraphQL document included) is
    accepted by [b]. *)
Theorem matchSubsumes_accepts (a b : CompiledMatch) (r : AuthzRequest)
    (Hsub : matchSubsumes a b = true) (Ha : accepts a r = true) :
  accepts b r = true.
Proof. exact (subsumes_sound (S := CompiledMatch) (E := AuthzRequest) a b r Hsub Ha). Qed.

Lemma matchSubsumes_accepts_witness : accepts ex_wide ex_request = true.
Proof.
  apply (matchSubsumes_accepts ex_narrow ex_wide ex_request); vm_compute; reflexivity.
Defined.

(** C6.  Disjointness is sound: two matches compiled from the configuration that
    both accept one request are reported as intersecting, so an overlap never
    escapes the overlap check. *)
Theorem matchesIntersect_complete (ma mb : Match) (a b : CompiledMatch) (r : AuthzRequest)
    (Ca : compileMatch ma = Some (Ok a)) (Cb : compileMatch mb = Some (Ok b))
    (Ha : accepts a r = true) (Hb : accepts b r = true) :
  matchesIntersect a b = true.
Proof.
  exact (intersects_complete (S := CompiledMatch) (E := AuthzRequest) a b r
           (compileMatch_wf _ _ Ca) (compileMatch_wf _ _ Cb) Ha Hb).
Qed.

Lemma matchesIntersect_complete_witness : matchesIntersect ex_narrow ex_wide = true.
Proof.
  apply (matchesIntersect_complete ex_narrow_config ex_wide_config ex_narrow ex_wide ex_request);
    vm_compute; reflexivity.
Defined.
