(* ===== verification/Targets.v ===== *)
(** * Targets: hosts and ports (network/authz/relation.ts, second half)

    Parsing of a target, and the relations between host patterns, ports,
    targets and target sets, as instances of the [ContainmentLaws] interface. *)
From S2P Require Import Prelude JsString Json Containment AuthzTypes Semantics.
From Stdlib Require Import DecimalString DecimalPos DecimalN.

(** ** Parsing *)

(** `/^[0-9]{1,5}$/` *)
Definition PORT (s : string) : bool :=
  (1 <=? slen s)%nat && (slen s <=? 5)%nat && string_all is_digit s.

Definition normalizeHost (host : string) : string := toLowerCase host.

Definition parseHostPattern (host : string) : Result HostPattern :=
  if String.eqb host "" then Err "host is empty"
  else if startsWith host "*." then
    let suffix := drop_str 2 host in
    if String.eqb suffix "" || str_includes suffix "*"
    then Err ("invalid host pattern: " +:+ host)
    else Ok (HostSuffix (normalizeHost suffix))
  else if str_includes host "*" then
    Err ("a wildcard may only appear as a leading " +:+ dquote +:+ "*." +:+ dquote +:+ " in " +:+ host)
  else Ok (HostExact (normalizeHost host)).

Definition parsePort (source portPart : string) : Result Z :=
  if negb (PORT portPart) then Err ("invalid port: " +:+ source)
  else
    let port := Z.of_N (parse_digits 0 portPart) in
    if (port <? 1)%Z || (65535 <? port)%Z then Err ("port out of range: " +:+ source)
    else Ok port.

Definition parseTarget (source : string) : Result Target :=
  let separator := lastIndexOf source ":" in
  let hostPart := match separator with None => source | Some i => take_str i source end in
  let portPart := match separator with None => None | Some i => Some (drop_str (i + 1) source) end in
  match (match portPart with
         | None => Ok None
         | Some p => match parsePort source p with Err e => Err e | Ok z => Ok (Some z) end
         end) with
  | Err e => Err e
  | Ok port =>
      match parseHostPattern hostPart with
      | Err e => Err (e +:+ " (" +:+ source +:+ ")")
      | Ok host => Ok {| t_source := source; t_host := host; t_port := port |}
      end
  end.

(** ** Relations *)

Definition hostMatches (pattern : HostPattern) (host : string) : bool :=
  match pattern with
  | HostExact h => String.eqb h host
  | HostSuffix suffix =>
      endsWith host ("." +:+ suffix) && (slen suffix + 1 <? slen host)%nat
  end.

Definition hostPatternSubsumes (a b : HostPattern) : bool :=
  match b, a with
  | HostExact hb, HostExact ha => String.eqb ha hb
  | HostExact _, HostSuffix _ => false
  | HostSuffix _, HostExact ha => hostMatches b ha
  | HostSuffix sb, HostSuffix sa => String.eqb sa sb || endsWith sa ("." +:+ sb)
  end.

Definition hostPatternsIntersect (a b : HostPattern) : bool :=
  hostPatternSubsumes a b || hostPatternSubsumes b a.

Definition portsIntersect (a b : option Z) : bool :=
  match a, b with
  | None, _ | _, None => true
  | Some a, Some b => (a =? b)%Z
  end.

Definition portSubsumes (a b : option Z) : bool :=
  match b with None => true | Some _ => bool_decide (a = b) end.

Definition targetsIntersect (a b : Target) : bool :=
  hostPatternsIntersect (t_host a) (t_host b) && portsIntersect (t_port a) (t_port b).

Definition targetSubsumes (a b : Target) : bool :=
  hostPatternSubsumes (t_host a) (t_host b) && portSubsumes (t_port a) (t_port b).

Definition targetSetsIntersect (a b : list Target) : bool :=
  existsb (λ ta, existsb (λ tb, targetsIntersect ta tb) b) a.

Definition targetSetsSubsume (a b : list Target) : bool :=
  forallb (λ ta, existsb (λ tb, targetSubsumes ta tb) b) a.

(** The test of `scopeMatchesAddress` (network/authz/resolve.ts) on one target. *)
Definition targetMatches (target : Target) (address : TargetAddress) : bool :=
  hostMatches (t_host target) (ta_host address) &&
  match t_port target with None => true | Some p => (p =? ta_port address)%Z end.

(** ** Hosts *)

Lemma hostMatches_suffix suffix host :
  hostMatches (HostSuffix suffix) host = true ↔
  ∃ p, p ≠ "" ∧ host = p +:+ "." +:+ suffix.
Proof.
  simpl. rewrite andb_true_iff, endsWith_iff, Nat.ltb_lt. split.
  - intros [[p ->] Hl]. exists p. split; [|done]. intros ->. simpl in Hl. lia.
  - intros (p & Hp & ->). split; [by exists p|]. rewrite slen_app.
    destruct p; [done|]. simpl. lia.
Qed.

(** Of two suffixes of one string, the shorter is a suffix of the longer. *)
Lemma suffix_of_suffix p q (a b : string) :
  p +:+ a = q +:+ b → (slen a ≤ slen b)%nat → ∃ r, b = r +:+ a.
Proof.
  revert q. induction p as [|c p IH]; intros [|d q]; simpl; intros H Hl.
  - exists "". by rewrite H.
  - apply (f_equal slen) in H. simpl in H. rewrite slen_app in H. lia.
  - exists (String c p). by rewrite <- H.
  - injection H as _ H. by eapply IH.
Qed.

Lemma suffixes_nested sa sb host :
  hostMatches (HostSuffix sa) host = true → hostMatches (HostSuffix sb) host = true →
  (slen sa ≤ slen sb)%nat → hostPatternSubsumes (HostSuffix sb) (HostSuffix sa) = true.
Proof.
  rewrite !hostMatches_suffix. intros (p & _ & ->) (q & _ & He) Hl.
  simpl. rewrite orb_true_iff, String.eqb_eq, endsWith_iff.
  destruct (decide (slen sa = slen sb)) as [Heq|Hne].
  - left. apply (f_equal (λ s, s)) in He. change (p +:+ String "." sa) with (p +:+ ("." +:+ sa)) in He.
    rewrite <- !sapp_assoc in He. symmetry.
    destruct (suffix_of_suffix (p +:+ ".") (q +:+ ".") sa sb) as [r Hr]; [done|lia|].
    assert (slen r = 0)%nat by (rewrite Hr, slen_app in Heq; lia).
    by destruct r.
  - right. eapply suffix_of_suffix with (p := p) (q := q +:+ ".").
    + rewrite sapp_assoc. exact He.
    + simpl. lia.
Qed.

#[export] Instance host_containment : Containment HostPattern string := {
  mem := hostMatches; subsumes := hostPatternSubsumes; intersects := hostPatternsIntersect }.

Lemma hostPatternSubsumes_sound a b host :
  hostPatternSubsumes a b = true → hostMatches a host = true → hostMatches b host = true.
Proof.
  destruct a as [ha|sa], b as [hb|sb].
  - simpl. rewrite !String.eqb_eq. congruence.
  - intros H. simpl (hostMatches (HostExact _) _). rewrite String.eqb_eq. by intros <-.
  - done.
  - simpl (hostPatternSubsumes _ _).
    rewrite orb_true_iff, String.eqb_eq, endsWith_iff, !hostMatches_suffix.
    intros [->|[r ->]]; [done|]. intros (p & Hp & ->).
    exists (p +:+ "." +:+ r). split; [by destruct p|].
    by rewrite !sapp_assoc.
Qed.

#[export] Instance host_laws : ContainmentLaws HostPattern string any.
Proof.
  split; simpl.
  - apply hostPatternSubsumes_sound.
  - intros a b c. destruct b as [hb|sb], c as [hc|sc], a as [ha|sa]; try done.
    + simpl. rewrite !String.eqb_eq. congruence.
    + simpl (hostPatternSubsumes (HostExact _) (HostExact _)).
      rewrite String.eqb_eq. by intros ->.
    + intros Hab Hbc. by eapply (hostPatternSubsumes_sound (HostSuffix sb)).
    + simpl. rewrite !orb_true_iff, !String.eqb_eq, !endsWith_iff.
      intros [->|[r ->]] [->|[r' ->]]; eauto.
      right. exists (r +:+ "." +:+ r'). by rewrite !sapp_assoc.
  - intros a b host _ _ Ha Hb. unfold hostPatternsIntersect. rewrite orb_true_iff.
    destruct a as [ha|sa], b as [hb|sb].
    + left. simpl in *. rewrite String.eqb_eq in *. congruence.
    + left. simpl (hostMatches (HostExact _) _) in Ha. apply String.eqb_eq in Ha. by subst.
    + right. simpl (hostMatches (HostExact _) _) in Hb. apply String.eqb_eq in Hb. by subst.
    + destruct (Nat.le_ge_cases (slen sa) (slen sb)); [right|left]; by eapply suffixes_nested.
Qed.

(** ** Ports, targets and target sets *)

Definition port_mem (p : option Z) (port : Z) : bool :=
  match p with None => true | Some p => (p =? port)%Z end.

#[export] Instance port_containment : Containment (option Z) Z := {
  mem := port_mem; subsumes := portSubsumes; intersects := portsIntersect }.

#[export] Instance port_laws : ContainmentLaws (option Z) Z any.
Proof.
  split; simpl.
  - intros [a|] [b|] x; simpl; rewrite ?bool_decide_eq_true; naive_solver.
  - intros [a|] [b|] [c|]; simpl; rewrite ?bool_decide_eq_true; naive_solver.
  - intros [a|] [b|] x _ _; simpl; rewrite ?Z.eqb_eq; naive_solver.
Qed.

#[export] Instance target_containment : Containment Target TargetAddress := {
  mem := targetMatches; subsumes := targetSubsumes; intersects := targetsIntersect }.

Lemma targetMatches_axes t a :
  targetMatches t a = true ↔ mem (t_host t) (ta_host a) = true ∧ mem (t_port t) (ta_port a) = true.
Proof. unfold targetMatches. by rewrite andb_true_iff. Qed.

Lemma targetSubsumes_axes a b :
  targetSubsumes a b = true ↔
  subsumes (E := string) (t_host a) (t_host b) = true ∧
  subsumes (E := Z) (t_port a) (t_port b) = true.
Proof. unfold targetSubsumes. by rewrite andb_true_iff. Qed.

Lemma targetsIntersect_axes a b :
  targetsIntersect a b = true ↔
  intersects (E := string) (t_host a) (t_host b) = true ∧
  intersects (E := Z) (t_port a) (t_port b) = true.
Proof. unfold targetsIntersect. by rewrite andb_true_iff. Qed.

#[export] Instance target_laws : ContainmentLaws Target TargetAddress any.
Proof.
  split; simpl.
  - intros a b x. rewrite targetSubsumes_axes, !targetMatches_axes. intros [] [].
    split; by eapply subsumes_sound.
  - intros a b c. rewrite !targetSubsumes_axes. intros [] []. split; by eapply subsumes_trans.
  - intros a b x _ _. rewrite targetsIntersect_axes, !targetMatches_axes. intros [] [].
    split; by eapply intersects_complete.
Qed.

Lemma targetSetsSubsume_sound a b x :
  targetSetsSubsume a b = true → existsb (λ t, targetMatches t x) a = true →
  existsb (λ t, targetMatches t x) b = true.
Proof. exact (subsumes_sound (S := list Target) (E := TargetAddress) a b x). Qed.

Lemma targetSetsSubsume_trans a b c :
  targetSetsSubsume a b = true → targetSetsSubsume b c = true → targetSetsSubsume a c = true.
Proof. exact (subsumes_trans (S := list Target) (E := TargetAddress) a b c). Qed.

Lemma targetSetsIntersect_complete a b x :
  existsb (λ t, targetMatches t x) a = true → existsb (λ t, targetMatches t x) b = true →
  targetSetsIntersect a b = true.
Proof. exact (intersects_complete (S := list Target) (E := TargetAddress) a b x I I). Qed.

(** ** Decimal round trip *)

Lemma parse_digits_acc d : ∀ acc,
  parse_digits (Npos acc) (NilEmpty.string_of_uint d) = Npos (Pos.of_uint_acc d acc).
Proof.
  induction d as [|d IH|d IH|d IH|d IH|d IH|d IH|d IH|d IH|d IH|d IH]; intros acc; [done|..];
    cbn [NilEmpty.string_of_uint parse_digits Pos.of_uint_acc]; rewrite <- IH; f_equal;
    vm_compute (N.of_nat (code _ - 48)); lia.
Qed.

Lemma parse_digits_zero d :
  parse_digits 0 (NilEmpty.string_of_uint d) = Pos.of_uint d.
Proof.
  induction d as [|d IH|d IH|d IH|d IH|d IH|d IH|d IH|d IH|d IH|d IH]; [done|..].
  { exact IH. }
  all: cbn [NilEmpty.string_of_uint parse_digits Pos.of_uint]; exact (parse_digits_acc d _).
Qed.

Lemma parse_digits_N_to_string n : parse_digits 0 (N_to_string n) = n.
Proof.
  unfold N_to_string, NilZero.string_of_uint.
  assert (Pos.of_uint (N.to_uint n) = n) as Hn by apply DecimalN.Unsigned.of_to.
  destruct n as [|p]; [done|].
  assert (N.to_uint (Npos p) ≠ Decimal.Nil) by apply DecimalPos.Unsigned.to_uint_nonnil.
  destruct (N.to_uint (Npos p)) eqn:E; [done|..]; rewrite parse_digits_zero; exact Hn.
Qed.
