(* ===== verification/Specificity.v ===== *)
(** * Evaluation order (network/authz/specificity.ts)

    Comparison of accepted sets, and the topological sort that turns a
    precedence relation into an evaluation order or exhibits a cycle. *)
From S2P Require Import Prelude JsString Json Containment AuthzTypes Pattern Relation Selection.
From S2P Require Import Semantics MatchLaws Targets.

Inductive Specificity : Type := Equivalent | Narrower | Wider | Incomparable.
#[export] Instance Specificity_eq_dec : EqDecision Specificity.
Proof. solve_decision. Defined.

Definition orderOf (aInB bInA : bool) : Specificity :=
  if aInB && bInA then Equivalent
  else if aInB then Narrower
  else if bInA then Wider
  else Incomparable.

Definition compareSpecificity (a b : CompiledMatch) : Specificity :=
  orderOf (matchSubsumes a b) (matchSubsumes b a).

Definition compareTargetSpecificity (a b : list Target) : Specificity :=
  orderOf (targetSetsSubsume a b) (targetSetsSubsume b a).

Inductive PrecedenceOutcome (T : Type) : Type :=
  | Ordered (ordered : list T)
  | Cyclic (cycle : list T).
Arguments Ordered {T} ordered.
Arguments Cyclic {T} cycle.

(** ** The sort on indices

    [preds j] lists the indices that must come before [j]. *)

Definition ready (preds : nat → list nat) (emitted : list nat) (index : nat) : bool :=
  negb (includes emitted index) && forallb (includes emitted) (preds index).

(** The walk of `findCycle` along predecessors that are not emitted yet. *)
Fixpoint cycle_walk (fuel : nat) (preds : nat → list nat) (emitted : list nat)
    (at_ : nat) (walk : list nat) : list nat :=
  match fuel with
  | 0 => []
  | S f =>
      match list_find (λ i, i = at_) walk with
      | Some (start, _) => reverse (drop start walk)
      | None =>
          match find (λ i, negb (includes emitted i)) (preds at_) with
          | None => [at_]
          | Some from => cycle_walk f preds emitted from (walk ++ [at_])
          end
      end
  end.

Definition findCycle (size : nat) (preds : nat → list nat) (emitted : list nat) : list nat :=
  match find (λ i, negb (includes emitted i)) (seq 0 size) with
  | None => []
  | Some at_ => cycle_walk (S size) preds emitted at_ []
  end.

(** The emission loop.  Every turn emits one index, so [size] turns are what the
    `while` runs. *)
Fixpoint order_loop (turns size : nat) (preds : nat → list nat) (emitted : list nat) :
    list nat + list nat :=
  match turns with
  | 0 => inl emitted
  | S t =>
      match find (ready preds emitted) (seq 0 size) with
      | None => inr (findCycle size preds emitted)
      | Some next => order_loop t size preds (emitted ++ [next])
      end
  end.

Section Order.
Context {T : Type}.

Definition predecessors (items : list T) (precedes : T → T → nat → nat → bool) (j : nat) :
    list nat :=
  List.filter (λ i, negb (i =? j)%nat &&
    match items !! i, items !! j with
    | Some a, Some b => precedes a b i j
    | _, _ => false
    end) (seq 0 (length items)).

Definition items_at (items : list T) (indices : list nat) : list T :=
  omap (λ i, items !! i) indices.

Definition precedenceOrder (items : list T) (precedes : T → T → nat → nat → bool) :
    PrecedenceOutcome T :=
  let size := length items in
  match order_loop size size (predecessors items precedes) [] with
  | inl ordered => Ordered (items_at items ordered)
  | inr cycle => Cyclic (items_at items cycle)
  end.

Definition evaluationOrder (items : list T) (matchOf : T → CompiledMatch) :
    PrecedenceOutcome T :=
  let matches := map matchOf items in
  precedenceOrder items (λ _ _ i j,
    match matches !! i, matches !! j with
    | Some a, Some b => bool_decide (compareSpecificity a b = Narrower)
    | _, _ => false
    end).
End Order.

(** ** Theory of the sort on indices *)

Lemma find_some_iff {A} (f : A → bool) l :
  is_Some (find f l) ↔ ∃ x, In x l ∧ f x = true.
Proof.
  split.
  - intros [x Hx]. apply find_some in Hx. eauto.
  - intros (x & Hx & Hf). destruct (find f l) eqn:E; [done|].
    by rewrite (find_none _ _ E x Hx) in Hf.
Qed.

Lemma last_drop_lt {A} n (l : list A) : (n < length l)%nat → last (drop n l) = last l.
Proof.
  intros Hn. rewrite !last_lookup, lookup_drop, length_drop. f_equal. lia.
Qed.

Section Sort.
Context (size : nat) (preds : nat → list nat).
Hypothesis preds_bound : ∀ j i, In i (preds j) → (i < size)%nat.

(** Every index comes after all its predecessors. *)
Definition respects (l : list nat) : Prop :=
  ∀ k j, l !! k = Some j → ∀ i, In i (preds j) → In i (take k l).

Record emitted_inv (emitted : list nat) : Prop := {
  inv_nodup : List.NoDup emitted;
  inv_bound : ∀ i, In i emitted → (i < size)%nat;
  inv_respects : respects emitted;
}.

Lemma emitted_inv_nil : emitted_inv [].
Proof. split; [constructor|done|]. by intros k j ?. Qed.

Lemma ready_iff emitted i :
  ready preds emitted i = true ↔ ¬ In i emitted ∧ ∀ p, In p (preds i) → In p emitted.
Proof.
  unfold ready. rewrite andb_true_iff, negb_true_iff, includes_false, forallb_forall.
  by setoid_rewrite includes_In.
Qed.

Lemma emitted_inv_step emitted next :
  emitted_inv emitted → find (ready preds emitted) (seq 0 size) = Some next →
  emitted_inv (emitted ++ [next]).
Proof.
  intros [Hn Hb Hr] [Hs Hready]%find_some. apply ready_iff in Hready as [Hni Hp].
  split.
  - apply NoDup_ListNoDup, NoDup_app. split_and!; [by apply NoDup_ListNoDup| |apply NoDup_singleton].
    intros x Hx%list_elem_of_In Hx'%list_elem_of_singleton. by subst.
  - intros i [?|[<-|[]]]%in_app_iff; [auto|]. apply in_seq in Hs. lia.
  - intros k j Hk i Hi. destruct (decide (k < length emitted)%nat) as [Hlt|Hge].
    + rewrite lookup_app_l in Hk by done. rewrite take_app_le by lia. by eapply Hr.
    + assert (k = length emitted) as ->.
      { apply lookup_lt_Some in Hk. rewrite length_app in Hk. simpl in Hk. lia. }
      rewrite take_app_length. rewrite lookup_app_r, Nat.sub_diag in Hk by lia.
      simplify_eq/=. auto.
Qed.

Lemma order_loop_inl turns : ∀ emitted l,
  emitted_inv emitted → order_loop turns size preds emitted = inl l →
  emitted_inv l ∧ length l = (length emitted + turns)%nat.
Proof.
  induction turns as [|t IH]; intros emitted l Hinv; simpl; [intros [= <-]; split; [done|lia]|].
  case_match eqn:E; [|done]. intros H.
  apply IH in H as [? Hl]; [|by eapply emitted_inv_step].
  split; [done|]. rewrite Hl, length_app. simpl. lia.
Qed.

(** Stuck: some index is left and none of those left is ready. *)
Definition stuck (emitted : list nat) : Prop :=
  (∃ i, (i < size)%nat ∧ ¬ In i emitted) ∧
  ∀ i, (i < size)%nat → ¬ In i emitted → ∃ p, In p (preds i) ∧ ¬ In p emitted.

Lemma not_all_emitted emitted :
  emitted_inv emitted → (length emitted < size)%nat → ∃ i, (i < size)%nat ∧ ¬ In i emitted.
Proof.
  intros [Hn Hb _] Hl.
  destruct (find (λ i, negb (includes emitted i)) (seq 0 size)) as [i|] eqn:E.
  - apply find_some in E as [Hi%in_seq Hni]. exists i. split; [lia|].
    by apply negb_true_iff, includes_false in Hni.
  - assert (incl (seq 0 size) emitted) as Hincl.
    { intros i Hi. apply (find_none _ _ E), negb_false_iff, includes_In in Hi. done. }
    apply NoDup_incl_length in Hincl; [|apply seq_NoDup]. rewrite length_seq in Hincl. lia.
Qed.

Lemma stuck_of_find emitted :
  emitted_inv emitted → (length emitted < size)%nat →
  find (ready preds emitted) (seq 0 size) = None → stuck emitted.
Proof.
  intros Hinv Hl Hnone. split; [by apply not_all_emitted|].
  intros i Hi Hni. assert (In i (seq 0 size)) as Hs by (apply in_seq; lia).
  apply (find_none _ _ Hnone) in Hs. unfold ready in Hs.
  apply andb_false_iff in Hs as [Hs|Hs].
  - by apply negb_false_iff, includes_In in Hs.
  - apply forallb_false in Hs as (p & Hp & Hnp%includes_false). eauto.
Qed.

Lemma order_loop_inr turns : ∀ emitted c,
  emitted_inv emitted → (length emitted + turns = size)%nat →
  order_loop turns size preds emitted = inr c →
  ∃ e, stuck e ∧ c = findCycle size preds e.
Proof.
  induction turns as [|t IH]; intros emitted c Hinv Hl; simpl; [done|].
  case_match eqn:E.
  - apply IH; [by eapply emitted_inv_step|]. rewrite length_app. simpl. lia.
  - intros [= <-]. exists emitted. split; [|done]. apply stuck_of_find; [done|lia|done].
Qed.

(** *** The cycle *)

Definition linked (l : list nat) : Prop :=
  ∀ k a b, l !! k = Some a → l !! S k = Some b → In a (preds b).

(** Consecutive elements are in the relation, and the last one with the first. *)
Definition is_cycle (c : list nat) : Prop :=
  List.NoDup c ∧ (∀ i, In i c → (i < size)%nat) ∧ linked c ∧
  ∃ first last_, head c = Some first ∧ last c = Some last_ ∧ In last_ (preds first).

Lemma linked_reverse_drop walk start :
  (∀ k a b, walk !! k = Some a → walk !! S k = Some b → In b (preds a)) →
  linked (reverse (drop start walk)).
Proof.
  intros Hw k a b Ha Hb.
  assert (S k < length (drop start walk))%nat as Hlt.
  { apply lookup_lt_Some in Hb. by rewrite length_reverse in Hb. }
  rewrite reverse_lookup in Ha by lia. rewrite reverse_lookup in Hb by lia.
  rewrite lookup_drop in Ha, Hb. eapply Hw; [exact Hb|].
  rewrite <- Ha. f_equal. lia.
Qed.

Lemma cycle_walk_spec emitted : stuck emitted → ∀ fuel at_ walk,
  (size + 1 ≤ fuel + length walk)%nat →
  List.NoDup walk → (∀ i, In i walk → (i < size)%nat) →
  (∀ k a b, walk !! k = Some a → walk !! S k = Some b → In b (preds a)) →
  (at_ < size)%nat → ¬ In at_ emitted →
  (∀ w, last walk = Some w → In at_ (preds w)) →
  is_cycle (cycle_walk fuel preds emitted at_ walk).
Proof.
  intros [_ Hstuck]. induction fuel as [|f IH];
    intros at_ walk Hfuel Hn Hb Hw Hat Hne Hlast; simpl.
  { exfalso. apply NoDup_incl_length with (l' := seq 0 size) in Hn.
    - rewrite length_seq in Hn. lia.
    - intros i Hi%Hb. apply in_seq. lia. }
  destruct (list_find (λ i, i = at_) walk) as [[start x]|] eqn:E.
  - apply list_find_Some in E as (Hx & -> & _).
    assert (drop start walk = at_ :: drop (S start) walk) as Hd by by apply drop_S.
    assert (∀ i, In i (reverse (drop start walk)) → In i walk) as Hin.
    { intros i Hi. apply list_elem_of_In. apply list_elem_of_In in Hi.
      rewrite elem_of_reverse in Hi. revert Hi.
      apply sublist_subseteq, sublist_drop. }
    unfold is_cycle. split_and!; [| |by apply linked_reverse_drop|].
    + apply NoDup_ListNoDup. rewrite reverse_Permutation. apply NoDup_ListNoDup in Hn.
      rewrite <- (take_drop start walk) in Hn. by apply NoDup_app in Hn as (_ & _ & ?).
    + auto.
    + destruct (last walk) as [w|] eqn:Ew; [|by apply last_None in Ew; subst].
      exists w, at_. split_and!; [| |by apply Hlast].
      * rewrite head_reverse, last_drop_lt; [done|]. by apply lookup_lt_Some in Hx.
      * by rewrite last_reverse, Hd.
  - assert (¬ In at_ walk) as Hnotin.
    { intros Hi. apply list_find_None in E. rewrite Forall_forall in E.
      apply (E at_); [by apply list_elem_of_In|done]. }
    destruct (Hstuck at_ Hat Hne) as (p & Hp & Hpe).
    destruct (find (λ i, negb (includes emitted i)) (preds at_)) as [from|] eqn:Ef.
    2:{ exfalso. apply (find_none _ _ Ef) in Hp. by apply negb_false_iff, includes_In in Hp. }
    apply find_some in Ef as [Hfrom Hfe%negb_true_iff%includes_false].
    apply IH.
    + rewrite length_app. simpl. lia.
    + apply NoDup_ListNoDup, NoDup_app.
      split_and!; [by apply NoDup_ListNoDup| |apply NoDup_singleton].
      intros y Hy%list_elem_of_In Hy'%list_elem_of_singleton. by subst.
    + intros i [?|[<-|[]]]%in_app_iff; auto.
    + intros k a b Ha Hbk.
      assert (S k < length (walk ++ [at_]))%nat as Hlt by by apply lookup_lt_Some in Hbk.
      rewrite length_app in Hlt. simpl in Hlt.
      rewrite lookup_app_l in Ha by lia.
      destruct (decide (S k < length walk)%nat).
      * rewrite lookup_app_l in Hbk by done. by eapply Hw.
      * assert (S k = length walk) as Hk by lia.
        rewrite lookup_app_r, Hk, Nat.sub_diag in Hbk by lia. simplify_eq/=.
        apply Hlast. rewrite last_lookup, <- Hk. exact Ha.
    + by eapply preds_bound.
    + done.
    + intros w. rewrite last_snoc. by intros [= <-].
Qed.

Lemma findCycle_spec emitted : stuck emitted → is_cycle (findCycle size preds emitted).
Proof.
  intros Hs. unfold findCycle.
  destruct (find _ (seq 0 size)) as [at_|] eqn:E.
  - apply find_some in E as [Hi%in_seq Hn%negb_true_iff%includes_false].
    apply cycle_walk_spec; try done; [simpl; lia|constructor|lia].
  - destruct Hs as [(i & Hi & Hni) _].
    assert (In i (seq 0 size)) as Hin by (apply in_seq; lia).
    apply (find_none _ _ E) in Hin. by apply negb_false_iff, includes_In in Hin.
Qed.

(** *** A ranking excludes the stuck state *)

Lemma ranked_not_stuck (rank : nat → nat) emitted :
  (∀ i j, In i (preds j) → (rank i < rank j)%nat) → ¬ stuck emitted.
Proof.
  intros Hrank [(i & Hi & Hni) Hs].
  revert Hi Hni. induction i as [i IH] using (induction_ltof1 _ rank). intros Hi Hni.
  destruct (Hs i Hi Hni) as (p & Hp & Hnp).
  apply (IH p); [by apply Hrank|by eapply preds_bound|done].
Qed.
End Sort.

(** ** Theory of [precedenceOrder] *)

(** An order of the positions of a list: the positions it visits, in turn. *)
Definition orders {T} (items : list T) (indices : list nat) (l : list T) : Prop :=
  Permutation indices (seq 0 (length items)) ∧ l = items_at items indices.

(** The declared relation between two distinct positions. *)
Definition edge {T} (items : list T) (precedes : T → T → nat → nat → bool) (i j : nat) : Prop :=
  i ≠ j ∧ ∃ a b, items !! i = Some a ∧ items !! j = Some b ∧ precedes a b i j = true.

Lemma items_at_lookup {T} (items : list T) indices :
  (∀ i, In i indices → (i < length items)%nat) →
  ∀ k, items_at items indices !! k = (indices !! k) ≫= (λ i, items !! i).
Proof.
  intros Hb. induction indices as [|i indices IH]; intros k; simpl; [done|].
  destruct (lookup_lt_is_Some_2 items i) as [x Hx]; [apply Hb; by left|].
  rewrite Hx. destruct k as [|k]; simpl; [done|]. apply IH. intros j Hj. apply Hb. by right.
Qed.

Lemma length_items_at {T} (items : list T) indices :
  (∀ i, In i indices → (i < length items)%nat) →
  length (items_at items indices) = length indices.
Proof.
  intros Hb. induction indices as [|i indices IH]; simpl; [done|].
  destruct (lookup_lt_is_Some_2 items i) as [x Hx]; [apply Hb; by left|].
  rewrite Hx. simpl. rewrite IH; [done|]. intros j Hj. apply Hb. by right.
Qed.

Lemma items_at_seq {T} (items : list T) : items_at items (seq 0 (length items)) = items.
Proof.
  apply list_eq. intros k. rewrite items_at_lookup.
  - destruct (decide (k < length items)%nat).
    + by rewrite lookup_seq_lt.
    + rewrite lookup_seq_ge by lia. simpl. symmetry. apply lookup_ge_None. lia.
  - intros i Hi%in_seq. lia.
Qed.

Section Precedence.
Context {T : Type} (items : list T) (precedes : T → T → nat → nat → bool).

Lemma predecessors_iff i j : In i (predecessors items precedes j) ↔ edge items precedes i j.
Proof.
  unfold predecessors, edge. rewrite filter_In, in_seq, andb_true_iff, negb_true_iff, Nat.eqb_neq.
  split.
  - intros [_ [Hne H]]. repeat case_match; try done. eauto 10.
  - intros (Hne & a & b & Ha & Hb & H). rewrite Ha, Hb.
    apply lookup_lt_Some in Ha. split_and!; [lia|done|done|done].
Qed.

Lemma predecessors_bound j i :
  In i (predecessors items precedes j) → (i < length items)%nat.
Proof.
  rewrite predecessors_iff. intros (_ & a & b & Ha & _). by apply lookup_lt_Some in Ha.
Qed.

(** Success: every position is visited once, after all the positions that
    precede it. *)
Lemma precedenceOrder_Ordered l :
  precedenceOrder items precedes = Ordered l →
  ∃ indices, orders items indices l ∧
    ∀ i j, edge items precedes i j →
      ∃ k m, indices !! k = Some i ∧ indices !! m = Some j ∧ (k < m)%nat.
Proof.
  unfold precedenceOrder. case_match eqn:E; [|done]. intros [= <-].
  apply order_loop_inl in E as [[Hn Hb Hr] Hl]; [|apply emitted_inv_nil].
  rename l0 into ind. exists ind. simpl in Hl.
  assert (Permutation ind (seq 0 (length items))) as Hperm.
  { apply NoDup_Permutation_bis; [done|rewrite length_seq; lia|].
    intros i Hi%Hb. apply in_seq. lia. }
  split; [done|]. intros i j Hij.
  assert (In j ind) as Hj.
  { eapply Permutation_in; [by symmetry|]. destruct Hij as (_ & a & b & _ & Hb' & _).
    apply lookup_lt_Some in Hb'. apply in_seq. lia. }
  apply list_elem_of_In, list_elem_of_lookup in Hj as [m Hm].
  apply predecessors_iff in Hij. pose proof (Hr m j Hm i Hij) as Hi.
  apply list_elem_of_In, list_elem_of_lookup in Hi as [k Hk].
  apply lookup_take_Some in Hk as [Hk Hlt]. eauto.
Qed.

(** Failure: the reported elements sit at distinct positions and each of them
    precedes the next, the last one the first. *)
Lemma precedenceOrder_Cyclic c :
  precedenceOrder items precedes = Cyclic c →
  ∃ indices, c = items_at items indices ∧ List.NoDup indices ∧
    (∀ k i j, indices !! k = Some i → indices !! S k = Some j → edge items precedes i j) ∧
    ∃ first last_, head indices = Some first ∧ last indices = Some last_ ∧
                   edge items precedes last_ first.
Proof.
  unfold precedenceOrder. case_match eqn:E; [done|]. intros [= <-].
  apply order_loop_inr in E as (e & Hstuck & ->); [|apply emitted_inv_nil|done].
  destruct (findCycle_spec _ _ predecessors_bound e Hstuck)
    as (Hn & Hb & Hl & first & last_ & Hf & Hla & Hlink).
  eexists. split; [done|]. split; [done|]. split.
  - intros k i j Hi Hj. apply predecessors_iff. by eapply Hl.
  - exists first, last_. by rewrite <- predecessors_iff.
Qed.

(** A relation that decreases some rank is always ordered. *)
Lemma precedenceOrder_ranked (rank : nat → nat) :
  (∀ i j, edge items precedes i j → (rank i < rank j)%nat) →
  ∃ l, precedenceOrder items precedes = Ordered l.
Proof.
  intros Hr. unfold precedenceOrder.
  destruct (order_loop _ _ _ _) as [l|c] eqn:E; [eauto|].
  apply order_loop_inr in E as (e & Hstuck & _); [|apply emitted_inv_nil|done].
  exfalso. eapply (ranked_not_stuck _ _ predecessors_bound rank e); [|exact Hstuck].
  intros i j Hij%predecessors_iff. by apply Hr.
Qed.

(** Conversely a successful sort provides the rank. *)
Lemma precedenceOrder_rank l :
  precedenceOrder items precedes = Ordered l →
  ∃ rank : nat → nat, ∀ i j, edge items precedes i j → (rank i < rank j)%nat.
Proof.
  intros H. apply precedenceOrder_Ordered in H as (ind & [Hperm _] & Hord).
  assert (NoDup ind) as Hnd.
  { apply NoDup_ListNoDup. eapply Permutation_NoDup; [by symmetry|apply seq_NoDup]. }
  exists (λ i, match list_find (λ x, x = i) ind with Some (k, _) => k | None => 0 end).
  intros i j (k & m & Hk & Hm & Hlt)%Hord.
  assert (∀ p x, ind !! p = Some x → list_find (λ y, y = x) ind = Some (p, x)) as Hfind.
  { intros p x Hp. apply list_find_Some. split_and!; [done|done|].
    intros q y Hq Hlq ->. assert (q = p) by (by eapply NoDup_lookup). lia. }
  by rewrite (Hfind k i Hk), (Hfind m j Hm).
Qed.
End Precedence.

(** ** Relations that are always ordered *)

(** A strict order on positions. *)
Lemma precedenceOrder_strict {T} (items : list T) precedes :
  (∀ i j k, edge items precedes i j → edge items precedes j k → edge items precedes i k) →
  ∃ l, precedenceOrder items precedes = Ordered l.
Proof.
  intros Htrans. apply (precedenceOrder_ranked _ _
    (λ j, length (predecessors items precedes j))). intros i j Hij.
  assert (∀ p, In p (predecessors items precedes i) → In p (predecessors items precedes j)) as Hsub.
  { intros p. rewrite !predecessors_iff. eauto. }
  assert (List.NoDup (predecessors items precedes i)) as Hnd by apply List.NoDup_filter, seq_NoDup.
  assert (¬ In i (predecessors items precedes i)) as Hi by (rewrite predecessors_iff; by intros []).
  apply (NoDup_incl_length (l := i :: predecessors items precedes i)); [by constructor|].
  intros p [<-|Hp]; [by apply predecessors_iff|by apply Hsub].
Qed.

Lemma find_seq_first (f : nat → bool) n k :
  (∀ i, (i < k)%nat → f i = false) → (k < n)%nat → f k = true → find f (seq 0 n) = Some k.
Proof.
  intros Hlt Hk Hf.
  replace n with (k + S (n - S k))%nat by lia. rewrite seq_app. simpl.
  assert (∀ l, (∀ i, In i l → f i = false) →
    find f (l ++ k :: seq (S k) (n - S k)) = Some k) as H.
  { induction l as [|y l IH]; intros Hl; simpl; [by rewrite Hf|].
    rewrite (Hl y) by (by left). apply IH. intros i Hi. apply Hl. by right. }
  apply H. intros i Hi%in_seq. apply Hlt. lia.
Qed.

(** When the relation never points backwards, the declaration order is kept. *)
Lemma precedenceOrder_declared {T} (items : list T) precedes :
  (∀ i j, edge items precedes i j → (i < j)%nat) →
  precedenceOrder items precedes = Ordered items.
Proof.
  intros Hfwd. unfold precedenceOrder.
  assert (∀ t k, (k + t = length items)%nat →
    order_loop t (length items) (predecessors items precedes) (seq 0 k) =
    inl (seq 0 (length items))) as H.
  { induction t as [|t IH]; intros k Hk; simpl; [f_equal; f_equal; lia|].
    rewrite (find_seq_first _ _ k); [|..|lia|].
    - rewrite <- seq_S. apply IH. lia.
    - intros i Hi. apply not_true_iff_false. rewrite ready_iff, in_seq. intros [Hn _]. lia.
    - apply ready_iff. rewrite in_seq. split; [lia|].
      intros p Hp%predecessors_iff%Hfwd. apply in_seq. lia. }
  specialize (H (length items) 0 eq_refl). change (seq 0 0) with (@nil nat) in H.
  by rewrite H, items_at_seq.
Qed.

(** A relation that does not look at positions stays ordered on a sublist. *)
Lemma sublist_positions {T} (l1 l2 : list T) :
  l1 `sublist_of` l2 →
  ∃ f : nat → nat, (∀ i x, l1 !! i = Some x → l2 !! f i = Some x) ∧
                   (∀ i j, (i < j)%nat → (j < length l1)%nat → (f i < f j)%nat).
Proof.
  induction 1 as [|x l1 l2 _ (f & Hf & Hm)|x l1 l2 _ (f & Hf & Hm)].
  - exists id. split; [done|]. simpl. lia.
  - exists (λ i, match i with 0 => 0 | S i => S (f i) end). split.
    + intros [|i] y; simpl; [done|apply Hf].
    + intros [|i] [|j] Hij Hj; simpl in *; try lia. specialize (Hm i j). lia.
  - exists (λ i, S (f i)). split; [intros i y; simpl; apply Hf|].
    intros i j Hij Hj. specialize (Hm i j). lia.
Qed.

Lemma precedenceOrder_sublist {T} (l1 l2 : list T) (precedes : T → T → bool) o :
  l1 `sublist_of` l2 →
  precedenceOrder l2 (λ a b _ _, precedes a b) = Ordered o →
  ∃ o', precedenceOrder l1 (λ a b _ _, precedes a b) = Ordered o'.
Proof.
  intros (f & Hf & Hm)%sublist_positions [rank Hrank]%precedenceOrder_rank.
  apply (precedenceOrder_ranked _ _ (λ i, rank (f i))).
  intros i j (Hne & a & b & Ha & Hb & Hp). apply Hrank. split.
  - pose proof (lookup_lt_Some _ _ _ Ha). pose proof (lookup_lt_Some _ _ _ Hb).
    destruct (Nat.lt_gt_cases i j) as [H' _]. destruct (H' Hne) as [Hlt|Hlt];
      apply Hm in Hlt; lia.
  - exists a, b. auto.
Qed.

(** ** Comparison of accepted sets *)

Lemma orderOf_Narrower a b : orderOf a b = Narrower ↔ a = true ∧ b = false.
Proof. destruct a, b; simpl; naive_solver. Qed.

Lemma compareSpecificity_Narrower a b :
  compareSpecificity a b = Narrower ↔ strictly_narrower (E := AuthzRequest) a b = true.
Proof.
  unfold compareSpecificity, strictly_narrower. rewrite orderOf_Narrower. simpl.
  by rewrite andb_true_iff, negb_true_iff.
Qed.

Lemma compareTargetSpecificity_Narrower a b :
  compareTargetSpecificity a b = Narrower ↔ strictly_narrower (E := TargetAddress) a b = true.
Proof.
  unfold compareTargetSpecificity, strictly_narrower. rewrite orderOf_Narrower. simpl.
  by rewrite andb_true_iff, negb_true_iff.
Qed.

Lemma compareSpecificity_trans a b c :
  compareSpecificity a b = Narrower → compareSpecificity b c = Narrower →
  compareSpecificity a c = Narrower.
Proof. rewrite !compareSpecificity_Narrower. apply strictly_narrower_trans. Qed.

Lemma compareTargetSpecificity_trans a b c :
  compareTargetSpecificity a b = Narrower → compareTargetSpecificity b c = Narrower →
  compareTargetSpecificity a c = Narrower.
Proof. rewrite !compareTargetSpecificity_Narrower. apply strictly_narrower_trans. Qed.

Lemma compareSpecificity_irrefl a : compareSpecificity a a ≠ Narrower.
Proof. rewrite compareSpecificity_Narrower. by rewrite strictly_narrower_irrefl. Qed.

Lemma compareTargetSpecificity_irrefl a : compareTargetSpecificity a a ≠ Narrower.
Proof. rewrite compareTargetSpecificity_Narrower. by rewrite strictly_narrower_irrefl. Qed.

(** Sorting by a relation between elements that is a strict order. *)
Lemma precedenceOrder_strict_elements {T} (items : list T) (precedes : T → T → bool) :
  (∀ a, precedes a a = false) →
  (∀ a b c, precedes a b = true → precedes b c = true → precedes a c = true) →
  ∃ l, precedenceOrder items (λ a b _ _, precedes a b) = Ordered l.
Proof.
  intros Hirr Htrans. apply precedenceOrder_strict.
  intros i j k (Hij & a & b & Ha & Hb & Hab) (Hjk & b' & c & Hb' & Hc & Hbc).
  simplify_eq. assert (precedes a c = true) as Hac by eauto. split; [|by exists a, c].
  intros ->. simplify_eq. congruence.
Qed.
