(* ===== verification/AuthzConfig.v ===== *)
(** * The authorization configuration (network/authz/config.ts)

    A `Record` of the evaluated configuration is the list of its
    `Object.entries`; an optional field is an [option]. *)
From S2P Require Import Prelude JsString Json Containment AuthzTypes.

Inductive Action : Type := Allow | Review | Deny.
Inductive WebSocketPolicy : Type := WsAllow | WsDeny.
Inductive NetworkFallback : Type := NetReview | NetDeny.
Inductive IndeterminateAction : Type := IndReview | IndDeny.
Inductive ViolationAction : Type := VioDeny | VioReview | VioAllow.
Inductive SecretDisposition : Type := DispInject | DispMask | DispForbid | DispIgnore.
Inductive AuditMode : Type := AuditAlways | AuditAggregate | AuditOff.

#[export] Instance Action_eq_dec : EqDecision Action.
Proof. solve_decision. Defined.
#[export] Instance WebSocketPolicy_eq_dec : EqDecision WebSocketPolicy.
Proof. solve_decision. Defined.
#[export] Instance ViolationAction_eq_dec : EqDecision ViolationAction.
Proof. solve_decision. Defined.
#[export] Instance SecretDisposition_eq_dec : EqDecision SecretDisposition.
Proof. solve_decision. Defined.
#[export] Instance AuditMode_eq_dec : EqDecision AuditMode.
Proof. solve_decision. Defined.

Definition NetworkFallback_action (f : NetworkFallback) : Action :=
  match f with NetReview => Review | NetDeny => Deny end.
Definition IndeterminateAction_action (a : IndeterminateAction) : Action :=
  match a with IndReview => Review | IndDeny => Deny end.
Definition SecretDisposition_string (d : SecretDisposition) : string :=
  match d with
  | DispInject => "inject" | DispMask => "mask" | DispForbid => "forbid" | DispIgnore => "ignore"
  end.

(** `/^[a-z][a-z0-9._-]{0,63}$/` *)
Definition RULE_KEY_PATTERN (key : string) : bool :=
  match key with
  | EmptyString => false
  | String a rest =>
      is_lower a && (slen rest <=? 63)%nat &&
      string_all (λ c, is_lower c || is_digit c || Ascii.eqb c "." || Ascii.eqb c "_"
                       || Ascii.eqb c "-") rest
  end.

Definition FALLBACK_RULE_KEY : string := "$fallback".

Record SecretConfig : Type := { sc_from : string; sc_required : option bool }.

Record MaskConfig : Type := {
  mk_maskfs : option bool;
  mk_filter : option bool;
  mk_proxy : option bool;
  mk_apply : option (list string);
}.

(** ** Budgets *)

Inductive LimitKey : Type := MaxBodyBytes | MaxDepth | MaxNodes | MaxSelectorExpansions.
#[export] Instance LimitKey_eq_dec : EqDecision LimitKey.
Proof. solve_decision. Defined.

Definition LimitKey_string (k : LimitKey) : string :=
  match k with
  | MaxBodyBytes => "maxBodyBytes" | MaxDepth => "maxDepth" | MaxNodes => "maxNodes"
  | MaxSelectorExpansions => "maxSelectorExpansions"
  end.

Definition LIMIT_KEYS : list LimitKey :=
  [MaxBodyBytes; MaxDepth; MaxNodes; MaxSelectorExpansions].

Record Limits : Type := {
  l_maxBodyBytes : option Z;
  l_maxDepth : option Z;
  l_maxNodes : option Z;
  l_maxSelectorExpansions : option Z;
}.

Record ResolvedLimits : Type := {
  rl_maxBodyBytes : Z;
  rl_maxDepth : Z;
  rl_maxNodes : Z;
  rl_maxSelectorExpansions : Z;
}.

(** `limits[key]` *)
Definition limit_get (l : Limits) (k : LimitKey) : option Z :=
  match k with
  | MaxBodyBytes => l_maxBodyBytes l | MaxDepth => l_maxDepth l | MaxNodes => l_maxNodes l
  | MaxSelectorExpansions => l_maxSelectorExpansions l
  end.

Definition rlimit_get (l : ResolvedLimits) (k : LimitKey) : Z :=
  match k with
  | MaxBodyBytes => rl_maxBodyBytes l | MaxDepth => rl_maxDepth l | MaxNodes => rl_maxNodes l
  | MaxSelectorExpansions => rl_maxSelectorExpansions l
  end.

(** `merged[key] = value` *)
Definition rlimit_set (l : ResolvedLimits) (k : LimitKey) (v : Z) : ResolvedLimits :=
  {| rl_maxBodyBytes := if decide (k = MaxBodyBytes) then v else rl_maxBodyBytes l;
     rl_maxDepth := if decide (k = MaxDepth) then v else rl_maxDepth l;
     rl_maxNodes := if decide (k = MaxNodes) then v else rl_maxNodes l;
     rl_maxSelectorExpansions :=
       if decide (k = MaxSelectorExpansions) then v else rl_maxSelectorExpansions l |}.

Definition LIMIT_CEILINGS : ResolvedLimits := {|
  rl_maxBodyBytes := 33554432;
  rl_maxDepth := 64;
  rl_maxNodes := 200000;
  rl_maxSelectorExpansions := 1000000;
|}.

Definition MAX_BODY_EXPECT_POINTER_CHARS : nat := 256.

(** ** Expectations *)

Record Inject : Type := { inj_name : string; inj_value : string }.
#[export] Instance Inject_eq_dec : EqDecision Inject.
Proof. solve_decision. Defined.

Record BodyExpect : Type := {
  be_equals : option (list (string * JsonScalar));
  be_oneOf : option (list (string * list JsonScalar));
  be_absent : option (list string);
  be_graphql : option GraphqlMatch;
}.

Inductive JsonRootType : Type := RootObject | RootArray.

Record UnionShapeExpect : Type := {
  us_at : string;
  us_exclude : option (list string);
  us_discriminator : string;
  us_allowed : list string;
}.

(** The tagged part of `Expect`; `onViolation` is common to all of them. *)
Inductive ExpectShape : Type :=
  | EmptyBody
  | JsonRoot (rootType : JsonRootType)
  | Body (expect : BodyExpect)
  | UnionShape (expect : UnionShapeExpect).

Record Expect : Type := {
  ex_shape : ExpectShape;
  ex_onViolation : option ViolationAction;
}.

Definition ExpectKind_string (e : Expect) : string :=
  match ex_shape e with
  | EmptyBody => "emptyBody" | JsonRoot _ => "jsonRoot" | Body _ => "body"
  | UnionShape _ => "unionShape"
  end.

Definition requiresJsonBody (expect : Expect) : bool :=
  match ex_shape expect with EmptyBody => false | _ => true end.

(** ** Rules, scopes and the network *)

Record RuleConfig : Type := {
  rc_match : Match;
  rc_onMatch : Action;
  rc_onIndeterminate : option IndeterminateAction;
  rc_expect : option (list Expect);
  rc_limits : option Limits;
  rc_secrets : option (list (string * SecretDisposition));
  rc_inject : option (list Inject);
  rc_audit : option AuditMode;
  rc_overrides : option (list string);
}.

Record ScopeConfig : Type := {
  so_targets : list string;
  so_fallback : option Action;
  so_webSocket : option WebSocketPolicy;
  so_limits : option Limits;
  so_secrets : option (list (string * SecretDisposition));
  so_inject : option (list Inject);
  so_audit : option AuditMode;
  so_rules : option (list (string * RuleConfig));
}.

Record NetworkDefaults : Type := {
  nd_limits : option Limits;
  nd_secrets : option (list (string * SecretDisposition));
  nd_audit : option AuditMode;
}.

Record NetworkConfig : Type := {
  nc_scopes : list (string * ScopeConfig);
  nc_fallback : option NetworkFallback;
  nc_defaults : option NetworkDefaults;
}.

Record AuthzConfig : Type := {
  ac_secrets : option (list (string * SecretConfig));
  ac_mask : option MaskConfig;
  ac_network : NetworkConfig;
}.

Definition DEFAULT_SECRET_DISPOSITIONS : list (string * SecretDisposition) := [("*", DispMask)].
Definition DEFAULT_AUDIT_MODE : AuditMode := AuditAlways.

Definition expandsToMultipleValues (secret : SecretConfig) : bool :=
  startsWith (sc_from secret) "lines:".

(** ** Injected values *)

Inductive InjectValue : Type :=
  | InjLiteral (text : string)
  | InjSecret (name : string)
  | InjTemplate (text : string) (names : list string).

(** `text.matchAll(TEMPLATE_REFERENCE)`, a dollar and a name in braces: the scan
    is outside a reference (just after a dollar or not) or inside one with the
    name read so far. *)
Inductive TemplateState : Type := Outside (dollar : bool) | Inside (name : string).

Fixpoint template_scan (st : TemplateState) (s : string) : list string :=
  match s with
  | EmptyString => []
  | String c s' =>
      match st with
      | Inside name =>
          if Ascii.eqb c "}" then name :: template_scan (Outside false) s'
          else template_scan (Inside (name +:+ String c "")) s'
      | Outside dollar =>
          if dollar && Ascii.eqb c "{" then template_scan (Inside "") s'
          else template_scan (Outside (Ascii.eqb c "$")) s'
      end
  end.

Definition template_names (text : string) : list string := template_scan (Outside false) text.

Definition inject_value_error : string :=
  "an inject value must start with literal: / secret: / template:" +:+
  " (the value itself is not shown because it may contain a secret; prefix with literal: if you meant a raw value)".

Definition parseInjectValue (value : string) : Result InjectValue :=
  if startsWith value "literal:" then Ok (InjLiteral (drop_str 8 value))
  else if startsWith value "secret:" then
    let name := drop_str 7 value in
    if String.eqb name "" then Err "secret: name is empty" else Ok (InjSecret name)
  else if startsWith value "template:" then
    let text := drop_str 9 value in Ok (InjTemplate text (template_names text))
  else Err inject_value_error.

Definition injectReferences (value : InjectValue) : list string :=
  match value with
  | InjLiteral _ => []
  | InjSecret name => [name]
  | InjTemplate _ names => names
  end.

(** ** Lemmas *)

Lemma rlimit_get_set l k k' v :
  rlimit_get (rlimit_set l k v) k' = if decide (k = k') then v else rlimit_get l k'.
Proof. by destruct k, k'. Qed.

Lemma LIMIT_KEYS_all k : In k LIMIT_KEYS.
Proof. destruct k; simpl; tauto. Qed.

(** Pointwise order of budgets. *)
Definition limits_le (a b : ResolvedLimits) : Prop := ∀ k, (rlimit_get a k ≤ rlimit_get b k)%Z.

#[export] Instance limits_le_preorder : PreOrder limits_le.
Proof.
  split; [intros a k; lia|]. intros a b c Hab Hbc k. specialize (Hab k). specialize (Hbc k). lia.
Qed.

(** Rebuilding a template from references alone. *)
Lemma template_scan_text_free pre rest :
  has_char "$" pre = false →
  template_scan (Outside false) (pre +:+ rest) = template_scan (Outside false) rest.
Proof.
  induction pre as [|c pre IH]; simpl; [done|].
  intros [Hc Hp]%orb_false_iff. rewrite Hc. auto.
Qed.

Lemma template_scan_inside name acc rest :
  has_char "}" name = false →
  template_scan (Inside acc) (name +:+ String "}" rest) =
  (acc +:+ name) :: template_scan (Outside false) rest.
Proof.
  revert acc. induction name as [|c name IH]; intros acc; simpl.
  - by rewrite sapp_nil_r.
  - intros [Hc Hn]%orb_false_iff. rewrite Hc, IH by done. by rewrite sapp_assoc.
Qed.

Lemma template_names_reference name rest :
  has_char "}" name = false →
  template_names ("${" +:+ name +:+ "}" +:+ rest) = name :: template_names rest.
Proof. intros H. unfold template_names. simpl. by rewrite template_scan_inside. Qed.

(** The names a template refers to hold no closing brace. *)
Lemma template_scan_brace_free s : ∀ st,
  (match st with Inside acc => has_char "}" acc = false | _ => True end) →
  Forall (λ n, has_char "}" n = false) (template_scan st s).
Proof.
  induction s as [|c s IH]; intros st Hst; simpl; [constructor|].
  destruct st as [d|acc].
  - destruct (d && Ascii.eqb c "{"); by apply IH.
  - destruct (Ascii.eqb c "}") eqn:E; [by constructor; [|apply IH]|].
    apply IH. rewrite has_char_app, Hst. simpl. by rewrite E.
Qed.

Example parseInjectValue_ex :
  parseInjectValue "template:Bearer ${token}-${a${b}" =
  Ok (InjTemplate "Bearer ${token}-${a${b}" ["token"; "a${b"]).
Proof. reflexivity. Qed.
