(* ===== verification/Witness.v ===== *)
(** * Witness requests (network/authz/witness.ts)

    Construction of one request both matches accept and of one address both
    target sets hold, used to explain an overlap.  A JavaScript object under
    construction is the list of its members in insertion order. *)
From S2P Require Import Prelude JsString Json Containment AuthzTypes Pattern Relation Selection.
From S2P Require Import Semantics MatchLaws Targets.

Definition DEFAULT_METHOD : string := "GET".
Definition DEFAULT_PORT : Z := 443.

(** ** Methods and paths *)

Definition methodWitness (a b : option (list string)) : option string :=
  match a, b with
  | None, None => Some DEFAULT_METHOD
  | None, Some b => head b
  | Some a, None => head a
  | Some a, Some b => find (includes b) a
  end.

(** The tokens at the positions [indices] of both patterns, or [None]. *)
Fixpoint shared_tokens (a b : CompiledPath) (indices : list nat) : option (list string) :=
  match indices with
  | [] => Some []
  | i :: rest =>
      x ← cp_segments a !! i; y ← cp_segments b !! i;
      token ← segmentSetIntersectionSample x y;
      tokens ← shared_tokens a b rest;
      Some (token :: tokens)
  end.

Fixpoint own_tokens (p : CompiledPath) (indices : list nat) : option (list string) :=
  match indices with
  | [] => Some []
  | i :: rest =>
      x ← cp_segments p !! i;
      token ← segmentSetSample x;
      tokens ← own_tokens p rest;
      Some (token :: tokens)
  end.

Definition pathPatternWitness (a b : CompiledPath) : option (list string) :=
  let m := length (cp_segments a) in
  let n := length (cp_segments b) in
  let shared := Nat.min m n in
  let total := Nat.max m n in
  first ← shared_tokens a b (seq 0 shared);
  let longer := if (n <=? m)%nat then a else b in
  rest ← own_tokens longer (seq shared (total - shared));
  let tokens := (first ++ rest)%list in
  Some (if String.eqb (joinPath tokens) "" && cp_trailingDoubleStar a && cp_trailingDoubleStar b
        then (tokens ++ [WITNESS_SEGMENT])%list else tokens).

(** The first result of the nested loops over the pairs of two lists. *)
Definition first_pair {A B R} (f : A → B → option R) (a : list A) (b : list B) : option R :=
  let fix outer (a : list A) : option R :=
    match a with
    | [] => None
    | x :: a' =>
        match (fix inner (b : list B) : option R :=
                 match b with
                 | [] => None
                 | y :: b' => match f x y with Some r => Some r | None => inner b' end
                 end) b with
        | Some r => Some r
        | None => outer a'
        end
    end in outer a.

Definition pathWitness (a b : list CompiledPath) : option string :=
  first_pair (λ pa pb,
    if negb (pathPatternsIntersect pa pb) then None
    else joinPath <$> pathPatternWitness pa pb) a b.

(** ** Objects under construction *)

Record WitnessValue : Type := { wv_value : JsonValue; wv_constrained : bool }.

Definition scalar_is (existing : JsonValue) (value : JsonScalar) : bool :=
  match existing with
  | JScalar e => String.eqb (scalarKey e) (scalarKey value)
  | _ => false
  end.

(** Walk down [tokens], creating the objects that are missing, and define the
    last one.  The flag says whether a property was defined. *)
Fixpoint set_path (members : list (string * JsonValue)) (tokens : list string)
    (value : JsonScalar) : option (list (string * JsonValue) * bool) :=
  match tokens with
  | [] => None
  | [last] =>
      match map_get members last with
      | Some existing => if scalar_is existing value then Some (members, false) else None
      | None => Some (map_set members last (JScalar value), true)
      end
  | token :: rest =>
      match map_get members token with
      | None =>
          sub ← set_path [] rest value;
          Some (map_set members token (JObject sub.1), sub.2)
      | Some (JObject next) =>
          sub ← set_path next rest value;
          Some (map_set members token (JObject sub.1), sub.2)
      | Some _ => None
      end
  end.

(** [None] is `false`: after it the caller gives up and drops the value. *)
Definition setPointer (root : WitnessValue) (pointer : string) (value : JsonScalar) :
    option WitnessValue :=
  if String.eqb pointer "" then
    if negb (wv_constrained root)
    then Some {| wv_value := JScalar value; wv_constrained := true |}
    else if scalar_is (wv_value root) value then Some root else None
  else if negb (startsWith pointer "/") then None
  else
    let tokens := map unescape_token (split_on "/" (drop_str 1 pointer)) in
    match wv_value root with
    | JObject members =>
        result ← set_path members tokens value;
        Some {| wv_value := JObject result.1; wv_constrained := wv_constrained root || result.2 |}
    | _ => None
    end.

(** ** Bodies *)

(** The outer [None] is `undefined` (the formats do not intersect), the inner
    one is `null` (no body condition). *)
Definition intersectFormat (a b : option BodyFormat) : option (option BodyFormat) :=
  match a, b with
  | None, _ => Some b
  | _, None => Some a
  | Some fa, Some fb =>
      if decide (fa = fb) then Some a
      else if decide (fa = FmtOpaque) then Some b
      else if decide (fb = FmtOpaque) then Some a
      else None
  end.

Definition mergedPointers (a b : NormalizedBody) : list (string * list JsonScalar) :=
  fold_left (λ merged '(pointer, values),
    match map_get merged pointer with
    | None => map_set merged pointer values
    | Some existing =>
        let keys := map scalarKey values in
        map_set merged pointer (List.filter (λ v, includes keys (scalarKey v)) existing)
    end)
    (nb_pointers b) (map_set_all [] (nb_pointers a)).

Record WitnessDocument : Type := {
  wd_at : string;
  wd_facts : GraphqlDocument;
  wd_text : string;
}.

Definition pickArguments (a b : option (list (string * list string))) :
    option (list (string * string)) :=
  let names := unique (map_keys (default [] a) ++ map_keys (default [] b))%list in
  foldr (λ name k picked,
    let valuesA := a ≫= λ m, map_get m name in
    let valuesB := b ≫= λ m, map_get m name in
    let value := match valuesA, valuesB with
                 | None, None => None
                 | None, Some vb => head vb
                 | Some va, None => head va
                 | Some va, Some vb => find (includes vb) va
                 end in
    match value with
    | None => None
    | Some v => k (map_set picked name v)
    end) Some names [].

(** The last name of a path: `path.slice(path.lastIndexOf("/") + 1)`. *)
Definition last_name (path : string) : string :=
  match lastIndexOf path "/" with
  | None => path
  | Some i => drop_str (i + 1) path
  end.

Definition render_arguments (args : list (string * string)) : string :=
  match args with
  | [] => ""
  | _ => "(" +:+ join ", " (map (λ '(k, v), k +:+ ": " +:+ stringify_string v) args) +:+ ")"
  end.

(** The loop from the last index of the chain down to the first. *)
Definition renderDocument (operation : GraphqlOperation)
    (fields : list GraphqlFieldOccurrence) : string :=
  let inner := fold_left (λ inner field,
    let text := last_name (occ_path field) +:+ render_arguments (occ_argumentValues field) in
    if String.eqb inner "" then text else text +:+ " { " +:+ inner +:+ " }")
    (reverse fields) "" in
  GraphqlOperation_string operation +:+ " { " +:+ inner +:+ " }".

(** The fields of the chain from index [index] on. *)
Fixpoint chain_fields (a : NormalizedGraphql) (b : option NormalizedGraphql)
    (chain : list string) : option (list GraphqlFieldOccurrence) :=
  match chain with
  | [] => Some []
  | path :: rest =>
      argumentValues ← pickArguments (map_get (ng_fieldArguments a) path)
                         (b ≫= λ b, map_get (ng_fieldArguments b) path);
      fields ← chain_fields a b rest;
      Some ({| occ_path := path; occ_leaf := bool_decide (rest = []);
               occ_argumentValues := argumentValues; occ_unresolvedArguments := [] |} :: fields)
  end.

Definition documentForLeaf (a : NormalizedGraphql) (b : option NormalizedGraphql)
    (operation : GraphqlOperation) (leaf : string) : option WitnessDocument :=
  fields ← chain_fields a b (graphqlPathChain leaf);
  Some {| wd_at := ng_at a;
          wd_facts := {| doc_operations := [operation]; doc_fields := fields |};
          wd_text := renderDocument operation fields |}.

Definition documentFor (a : NormalizedGraphql) (b : option NormalizedGraphql) :
    option WitnessDocument :=
  operation ← match b with
              | None => head (ng_operations a)
              | Some b => find (includes (ng_operations b)) (ng_operations a)
              end;
  (fix try (leaves : list string) : option WitnessDocument :=
     match leaves with
     | [] => None
     | leaf :: rest =>
         if match b with None => false | Some b => negb (includes (ng_fieldPaths b) leaf) end
         then try rest
         else match documentForLeaf a b operation leaf with
              | Some d => Some d
              | None => try rest
              end
     end) (ng_fieldPaths a).

Definition mergedGraphql (a b : option NormalizedGraphql) : option (list WitnessDocument) :=
  let requested : list (NormalizedGraphql * option NormalizedGraphql) :=
    match a, b with
    | None, None => []
    | None, Some b => [(b, None)]
    | Some a, None => [(a, None)]
    | Some a, Some b =>
        if String.eqb (ng_at a) (ng_at b) then [(a, Some b)] else [(a, None); (b, None)]
    end in
  mapM (λ r, documentFor r.1 r.2) requested.

Definition set_pointers (pointers : list (string * list JsonScalar)) (root : WitnessValue) :
    option WitnessValue :=
  fold_left (λ acc '(pointer, values),
    root ← acc; scalar ← head values; setPointer root pointer scalar) pointers (Some root).

Definition set_documents (documents : list WitnessDocument) (root : WitnessValue) :
    option WitnessValue :=
  fold_left (λ acc d, root ← acc; setPointer root (wd_at d) (ScString (wd_text d)))
    documents (Some root).

Definition bodyWitness (a b : NormalizedBody) : option RequestBody :=
  format ← intersectFormat (nb_format a) (nb_format b);
  match format with
  | None => Some BodyAbsent
  | Some FmtNone => Some BodyEmpty
  | Some _ =>
      value ← set_pointers (mergedPointers a b)
                {| wv_value := JObject []; wv_constrained := false |};
      documents ← mergedGraphql (nb_graphql a) (nb_graphql b);
      value ← set_documents documents value;
      Some (BodyJson (wv_value value)
             (Some (fold_left (λ acc d, map_set acc (wd_at d) (wd_facts d)) documents [])))
  end.

Definition matchIntersectionWitness (a b : CompiledMatch) : option AuthzRequest :=
  method ← methodWitness (cm_methods a) (cm_methods b);
  path ← pathWitness (cm_paths a) (cm_paths b);
  body ← bodyWitness (cm_body a) (cm_body b);
  Some {| req_method := method; req_path := path; req_body := body |}.

(** ** Targets *)

Definition hostWitness (a b : Target) : option string :=
  if negb (hostPatternsIntersect (t_host a) (t_host b)) then None
  else if negb (portsIntersect (t_port a) (t_port b)) then None
  else
    match (match t_host a with HostExact _ => t_host a | HostSuffix _ => t_host b end) with
    | HostExact host => Some host
    | HostSuffix _ =>
        let suffixA := match t_host a with HostSuffix s => s | _ => "" end in
        let suffixB := match t_host b with HostSuffix s => s | _ => "" end in
        let suffix := if (slen suffixB <=? slen suffixA)%nat then suffixA else suffixB in
        Some (WITNESS_SEGMENT +:+ "." +:+ suffix)
    end.

Definition targetIntersectionWitness (a b : list Target) : option TargetAddress :=
  first_pair (λ ta tb,
    if negb (targetsIntersect ta tb) then None
    else (λ host, {| ta_host := host;
                     ta_port := default (default DEFAULT_PORT (t_port tb)) (t_port ta) |})
         <$> hostWitness ta tb) a b.

(** ** Description *)

Definition describeBody (body : RequestBody) : string :=
  match body with
  | BodyAbsent => "no body condition"
  | BodyEmpty => "body: length 0"
  | BodyBinary => "body: arbitrary bytes that do not parse as JSON"
  | BodyJson value _ => "body: " +:+ stringify value
  end.

Definition describeRequest (request : AuthzRequest) : list string :=
  [req_method request +:+ " " +:+ req_path request; describeBody (req_body request)].

Definition describeTargetAddress (address : TargetAddress) : string :=
  ta_host address +:+ ":" +:+ Z_to_string (ta_port address).

(** ** Lemmas *)

Lemma first_pair_Some {A B R} (f : A → B → option R) a b r :
  first_pair f a b = Some r → ∃ x y, In x a ∧ In y b ∧ f x y = Some r.
Proof.
  unfold first_pair. induction a as [|x a IH]; simpl; [done|].
  set (inner := (fix inner (b : list B) : option R := _)).
  assert (∀ b, inner b = Some r → ∃ y, In y b ∧ f x y = Some r) as Hinner.
  { clear. induction b as [|y b IHb]; simpl; [done|].
    destruct (f x y) eqn:E; [intros [= ->]; eauto|]. intros (z & ? & ?)%IHb. eauto. }
  destruct (inner b) as [r'|] eqn:E.
  - intros [= ->]. apply Hinner in E as (y & ? & ?). eauto 10.
  - intros (x' & y & ? & ? & ?)%IH. eauto 10.
Qed.

Lemma first_pair_None {A B R} (f : A → B → option R) a b :
  first_pair f a b = None → ∀ x y, In x a → In y b → f x y = None.
Proof.
  unfold first_pair. induction a as [|x a IH]; simpl; [done|].
  set (inner := (fix inner (b : list B) : option R := _)).
  assert (∀ b, inner b = None → ∀ y, In y b → f x y = None) as Hinner.
  { clear. induction b as [|y b IHb]; simpl; [done|].
    destruct (f x y) eqn:E; [done|]. intros H z [<-|Hz]; auto. }
  destruct (inner b) as [r'|] eqn:E; [done|].
  intros H x' y [<-|Hx] Hy; [by eapply Hinner|by eapply IH].
Qed.

Lemma hostWitness_intersects a b :
  targetsIntersect a b = true → is_Some (hostWitness a b).
Proof.
  unfold targetsIntersect, hostWitness. intros [-> ->]%andb_true_iff. simpl.
  destruct (t_host a); [by eexists|]. destruct (t_host b); by eexists.
Qed.

Lemma longer_suffix_matches sa sb p :
  p ≠ "" → hostPatternsIntersect (HostSuffix sa) (HostSuffix sb) = true →
  (slen sb ≤ slen sa)%nat →
  hostMatches (HostSuffix sa) (p +:+ "." +:+ sa) = true ∧
  hostMatches (HostSuffix sb) (p +:+ "." +:+ sa) = true.
Proof.
  intros Hp Hi Hl.
  assert (hostMatches (HostSuffix sa) (p +:+ "." +:+ sa) = true) as Ha.
  { apply hostMatches_suffix. eauto. }
  split; [done|].
  assert (hostPatternSubsumes (HostSuffix sa) (HostSuffix sb) = true) as Hs.
  { unfold hostPatternsIntersect in Hi. apply orb_true_iff in Hi as [?|Hi]; [done|].
    simpl in *. apply orb_true_iff in Hi as [->%String.eqb_eq|[r ->]%endsWith_iff];
      [by rewrite String.eqb_refl|].
    rewrite slen_app in Hl. simpl in Hl. lia. }
  by eapply hostPatternSubsumes_sound.
Qed.

Lemma hostPatternsIntersect_sym a b :
  hostPatternsIntersect a b = hostPatternsIntersect b a.
Proof. apply orb_comm. Qed.

Lemma hostWitness_sound a b host :
  hostWitness a b = Some host →
  hostMatches (t_host a) host = true ∧ hostMatches (t_host b) host = true.
Proof.
  unfold hostWitness.
  destruct (hostPatternsIntersect (t_host a) (t_host b)) eqn:Hi; [|done].
  destruct (portsIntersect _ _); [|done]. cbn [negb].
  destruct (t_host a) as [ha|sa], (t_host b) as [hb|sb].
  - intros [= <-]. unfold hostPatternsIntersect in Hi. simpl in *.
    rewrite String.eqb_refl. split; [done|].
    apply orb_true_iff in Hi as [H|H]; [by rewrite String.eqb_sym|done].
  - intros [= <-]. unfold hostPatternsIntersect in Hi. simpl (hostPatternSubsumes _ _) in Hi.
    rewrite orb_false_r in Hi. split; [apply String.eqb_refl|done].
  - intros [= <-]. unfold hostPatternsIntersect in Hi. simpl (hostPatternSubsumes _ _) in Hi.
    split; [done|apply String.eqb_refl].
  - intros [= <-]. destruct (Nat.leb_spec (slen sb) (slen sa)) as [Hl|Hl].
    + exact (longer_suffix_matches sa sb WITNESS_SEGMENT ltac:(done) Hi Hl).
    + rewrite hostPatternsIntersect_sym in Hi.
      destruct (longer_suffix_matches sb sa WITNESS_SEGMENT) as [? ?]; [done|done|lia|done].
Qed.
