(* ===== verification/Validate.v ===== *)
(** * Validation and compilation of the configuration (network/authz/validate.ts)

    [compileAuthzConfig] compiles the scopes and collects the diagnostics in the
    order the code pushes them.  A check that pushes to `diagnostics` returns the
    list it pushes.  [None] is a thrown TypeError: reading a configured name that
    is also a property of `Object.prototype` (see [Prelude.prop_read]).  The
    arrows and ellipses of the messages are UTF-8 encoded. *)
From S2P Require Import Prelude JsString Json Containment AuthzTypes Pattern Relation Selection.
From S2P Require Import Semantics MatchLaws Targets Specificity AuthzConfig Witness.

Inductive Severity : Type := SevError | SevWarning.

Record Diagnostic : Type := { d_severity : Severity; d_message : string }.

Definition error (message : string) : Diagnostic :=
  {| d_severity := SevError; d_message := message |}.
Definition warning (message : string) : Diagnostic :=
  {| d_severity := SevWarning; d_message := message |}.

Definition is_error (d : Diagnostic) : bool :=
  match d_severity d with SevError => true | SevWarning => false end.

(** `diagnostics.some((diagnostic) => diagnostic.severity === "error")` *)
Definition has_error (ds : list Diagnostic) : bool := existsb is_error ds.

Record CompiledRule : Type := {
  cr_scopeName : string;
  cr_key : string;
  cr_id : string;
  cr_config : RuleConfig;
  cr_match : CompiledMatch;
}.

Record CompiledScope : Type := {
  cs_name : string;
  cs_config : ScopeConfig;
  cs_targets : list Target;
  cs_rules : list CompiledRule;
  cs_dispositions : list (string * SecretDisposition);
}.

Record CompileOutcome : Type := {
  co_scopes : list CompiledScope;
  co_diagnostics : list Diagnostic;
}.

Definition newline : string := String (ascii_of_nat 10) "".
Definition quoted (s : string) : string := dquote +:+ s +:+ dquote.
Definition ids (parts : list string) : string := join "" parts.

(** ** Body conditions *)

(** No tilde that is not followed by 0 or 1. *)
Fixpoint tildes_escaped (s : string) : bool :=
  match s with
  | EmptyString => true
  | String a s' =>
      (if Ascii.eqb a "~" then
         match s' with
         | String b _ => Ascii.eqb b "0" || Ascii.eqb b "1"
         | EmptyString => false
         end
       else true) && tildes_escaped s'
  end.

Definition isValidJsonPointer (pointer : string) : bool :=
  String.eqb pointer "" || (startsWith pointer "/" && tildes_escaped pointer).

Definition isFiniteJsonScalar (value : JsonScalar) : bool :=
  match value with ScNumber x => number_isFinite x | _ => true end.

Definition when (b : bool) (message : string) : list string := if b then [message] else [].

Definition GRAPHQL_KEYS : list string := ["at"; "operations"; "fieldPaths"; "fieldArguments"].

(** The messages `checkGraphqlCondition` passes to `fail`. *)
Definition checkGraphqlCondition (graphql : GraphqlMatch) (never : string) : list string :=
  map (λ key, ids ["graphql has an unknown key "; stringify_string key; ". Allowed keys: ";
                   join ", " GRAPHQL_KEYS; "."]) (gm_unknownKeys graphql) ++
  match gm_at graphql with
  | Some at_ => when (negb (isValidJsonPointer at_))
                  (ids ["graphql.at "; at_; " is not a valid RFC 6901 JSON Pointer."])
  | None => []
  end ++
  when (bool_decide (gm_operations graphql = []))
    (ids ["graphql.operations is an empty Listing. The accepted set is empty, so "; never; "."]) ++
  match gm_fieldPaths graphql with
  | None => ["graphql.fieldPaths is missing. Paths to the leaves you allow are required; a GraphQL condition cannot leave paths unconstrained."]
  | Some [] => [ids ["graphql.fieldPaths is an empty Listing. The accepted set is empty, so "; never; "."]]
  | Some _ => []
  end ++
  flat_map (λ path, when (negb (isGraphqlFieldPath path))
    (ids ["graphql.fieldPaths entry "; stringify_string path; " is not a GraphQL selection path.";
          " It must start with "; quoted "/"; " and every element must be a GraphQL name; wildcards, empty elements, a trailing "; quoted "/"; ", and JSON Pointer escapes are not allowed."]))
    (default [] (gm_fieldPaths graphql)) ++
  let leaves := unique (List.filter isGraphqlFieldPath (default [] (gm_fieldPaths graphql))) in
  let prefixes := graphqlPathPrefixes leaves in
  flat_map (λ '(path, args),
    (if negb (isGraphqlFieldPath path) then
       [ids ["graphql.fieldArguments key "; stringify_string path; " is not a GraphQL selection path. It cannot appear in a document, so its constraints constrain nothing."]]
     else if negb (includes leaves path) && negb (includes prefixes path) then
       [ids ["graphql.fieldArguments key "; stringify_string path; " is neither a leaf nor a prefix of any fieldPaths entry. Fields on this path are not allowed, so its constraints constrain nothing."]]
     else []) ++
    when (bool_decide (args = []))
      (ids ["graphql.fieldArguments "; path; " is an empty Mapping. It requires no argument, so the intent of writing it is lost."]) ++
    flat_map (λ '(name, values),
      when (negb (isGraphqlName name))
        (ids ["graphql.fieldArguments "; path; " key "; stringify_string name; " is not a GraphQL name. It cannot appear in a document, so this argument can never be satisfied."]) ++
      when (bool_decide (values = []))
        (ids ["graphql.fieldArguments "; path; " "; name; " is an empty Listing. The accepted set is empty, so "; never; "."])) args)
    (default [] (gm_fieldArguments graphql)).

(** The messages `checkBodyConditions` passes to `fail`; it returns `true`
    exactly when there is one. *)
Definition checkBodyConditions (equals : option (list (string * JsonScalar)))
    (oneOf : option (list (string * list JsonScalar))) (graphql : option GraphqlMatch)
    (never : string) : list string :=
  flat_map (λ '(pointer, value),
    when (negb (isValidJsonPointer pointer))
      (ids ["equals "; pointer; " is not a valid RFC 6901 JSON Pointer."]) ++
    when (negb (isFiniteJsonScalar value))
      (ids ["equals "; pointer; " must be a string, a finite number, or a boolean."]))
    (default [] equals) ++
  flat_map (λ '(pointer, values),
    when (negb (isValidJsonPointer pointer))
      (ids ["oneOf "; pointer; " is not a valid RFC 6901 JSON Pointer."]) ++
    when (bool_decide (values = []))
      (ids ["oneOf "; pointer; " is an empty Listing. The accepted set is empty, so "; never; "."]) ++
    when (negb (forallb isFiniteJsonScalar values))
      (ids ["oneOf "; pointer; " may only contain strings, finite numbers, or booleans."]))
    (default [] oneOf) ++
  match graphql with
  | None => []
  | Some g => checkGraphqlCondition g never
  end.

(** ** Rule matches *)

Definition checkBodyMatch (id : string) (body : option BodyMatch) : list Diagnostic :=
  match body with
  | None => []
  | Some body =>
      let conditions : list (string * bool) :=
        [("equals", negb (bool_decide (default [] (bm_equals body) = [])));
         ("oneOf", negb (bool_decide (map_keys (default [] (bm_oneOf body)) = [])));
         ("graphql", match bm_graphql body with Some _ => true | None => false end)] in
      flat_map (λ '(name, present),
        if bool_decide (bm_format body = FmtJson) || negb present then []
        else [error (ids ["rule "; id; " cannot combine match.body.format = ";
                quoted (BodyFormat_string (bm_format body)); " with "; name;
                ". Body conditions require format = "; quoted "json"; "."])]) conditions ++
      map (λ message, error (ids ["rule "; id; " match.body."; message]))
        (checkBodyConditions (bm_equals body) (bm_oneOf body) (bm_graphql body)
           "this rule never fires")
  end.

Definition checkMethods (id : string) (methods : option (list string)) : list Diagnostic :=
  flat_map (λ method,
    if includes KNOWN_HTTP_METHODS (normalizeMethod method) then []
    else [warning (ids ["rule "; id; " match.methods contains "; stringify_string method;
            ", which is not a known HTTP method."; " If the spelling is wrong, this rule never fires."])])
    (default [] methods).

Definition path_diagnostics (id : string) (paths : list string) : list Diagnostic :=
  flat_map (λ source,
    match parsePathPattern source with
    | Err e => [error (ids ["rule "; id; " path pattern: "; e])]
    | Ok _ => []
    end) paths ++
  (if bool_decide (paths = []) then
     [error (ids ["rule "; id; " has no paths. Its accepted set is empty, so this rule never fires."])]
   else []).

Definition capture_names (paths : list string) : list string :=
  flat_map (λ source,
    match parsePathPattern source with
    | Err _ => []
    | Ok parsed => flat_map (λ segment, match segment with SegCapture name => [name] | _ => [] end)
                     (pp_segments parsed)
    end) paths.

Definition capture_diagnostics (id : string) (match_ : Match) : list Diagnostic :=
  flat_map (λ '(name, values),
    if negb (includes (capture_names (m_paths match_)) name) then
      [error (ids ["rule "; id; " constrains the capture "; name; ", which appears in no path pattern."])]
    else if bool_decide (values = ([] : list string)) then
      [error (ids ["rule "; id; " has an empty Listing at captures."; name; ". Its accepted set is empty, so this rule never fires."])]
    else []) (default [] (m_captures match_)).

Definition compileRuleMatch (id : string) (rule : RuleConfig) :
    option (list Diagnostic * option CompiledMatch) :=
  let paths := path_diagnostics id (m_paths (rc_match rule)) in
  let bodies := checkBodyMatch id (m_body (rc_match rule)) in
  let diagnostics := paths ++ capture_diagnostics id (rc_match rule) ++
                     checkMethods id (m_methods (rc_match rule)) ++ bodies in
  if negb (bool_decide (length paths = 0)) || negb (bool_decide (length bodies = 0))
  then Some (diagnostics, None)
  else
    compiled ← compileMatch (rc_match rule);
    Some (match compiled with
          | Err e => (diagnostics ++ [error (ids ["rule "; id; " match: "; e])], None)
          | Ok m => (diagnostics, Some m)
          end).

(** ** Expectations *)

Definition effectiveAudit (defaults scope rule : option AuditMode) : AuditMode :=
  default (default (default DEFAULT_AUDIT_MODE defaults) scope) rule.

Definition checkAbsent (where_ : string) (expect : BodyExpect) : list Diagnostic :=
  let required := unique (map_keys (default [] (be_equals expect)) ++
                          map_keys (default [] (be_oneOf expect))) in
  flat_map (λ pointer,
    if negb (isValidJsonPointer pointer) then
      [error (ids [where_; " absent "; pointer; " is not a valid RFC 6901 JSON Pointer."])]
    else if String.eqb pointer "" then
      [error (ids [where_; " absent names the root. The body always exists, so it is always violated."])]
    else if includes required pointer ||
            existsb (λ other, startsWith other (pointer +:+ "/")) required then
      [error (ids [where_; " absent "; pointer; " is also required by equals or oneOf. It is always violated."])]
    else []) (default [] (be_absent expect)).

Definition checkPointerLengths (where_ : string) (expect : BodyExpect) : list Diagnostic :=
  flat_map (λ '(field, pointers),
    flat_map (λ pointer,
      if (slen pointer <=? MAX_BODY_EXPECT_POINTER_CHARS)%nat then []
      else [error (ids [where_; " "; field; " Pointer "; take_str 32 pointer; "… is ";
              nat_to_string (slen pointer); " characters, over the ";
              nat_to_string MAX_BODY_EXPECT_POINTER_CHARS; "-character limit. Violation records carry this Pointer as a value, so a longer Pointer produces violation records that cannot be approved."])])
      pointers)
    [("equals", map_keys (default [] (be_equals expect)));
     ("oneOf", map_keys (default [] (be_oneOf expect)));
     ("absent", default [] (be_absent expect))].

Definition checkExpectConditions (id : string) (index : nat) (expect : Expect) :
    list Diagnostic :=
  let where_ := ids ["rule "; id; " expect["; nat_to_string index; "]"] in
  match ex_shape expect with
  | UnionShape shape =>
      if bool_decide (us_allowed shape = []) then
        [error (ids [where_; " allowed is an empty Listing. It is always violated."])]
      else []
  | Body body =>
      map (λ message, error (ids [where_; " "; message]))
        (checkBodyConditions (be_equals body) (be_oneOf body) (be_graphql body)
           "this condition is never satisfied") ++
      checkAbsent where_ body ++
      checkPointerLengths where_ body
  | _ => []
  end.

Definition checkExpects (id : string) (rule : RuleConfig) (audit : AuditMode) :
    list Diagnostic :=
  let expects := default [] (rc_expect rule) in
  let format := bm_format <$> m_body (rc_match rule) in
  concat (imap (λ index expect,
    (if requiresJsonBody expect && negb (bool_decide (format = Some FmtJson)) then
       [error (ids ["rule "; id; " expect["; nat_to_string index; "] (";
               ExpectKind_string expect; ") requires match.body.format = "; quoted "json"; "."])]
     else []) ++
    checkExpectConditions id index expect) expects) ++
  if negb (existsb (λ expect, bool_decide (ex_onViolation expect = Some VioAllow)) expects) then []
  else if negb (bool_decide (audit = AuditAlways)) then
    [error (ids ["rule "; id; " has onViolation = "; quoted "allow"; ", which requires audit = ";
            quoted "always"; "."; " Letting violations through without a record is not allowed."])]
  else [].

(** ** Budgets *)

Definition limit_step (where_ : string) (limits : Limits) (inherited : ResolvedLimits)
    (acc : list Diagnostic * ResolvedLimits) (key : LimitKey) :
    list Diagnostic * ResolvedLimits :=
  match limit_get limits key with
  | None => acc
  | Some value =>
      if (rlimit_get inherited key <? value)%Z then
        (acc.1 ++ [error (ids [where_; " limits."; LimitKey_string key; " = "; Z_to_string value;
           " exceeds the inherited ceiling of "; Z_to_string (rlimit_get inherited key);
           ". Budgets can only be lowered."])], acc.2)
      else (acc.1, rlimit_set acc.2 key value)
  end.

Definition checkLimits (limits : option Limits) (where_ : string) (inherited : ResolvedLimits) :
    list Diagnostic * ResolvedLimits :=
  match limits with
  | None => ([], inherited)
  | Some limits => fold_left (limit_step where_ limits inherited) LIMIT_KEYS ([], inherited)
  end.

(** ** Secrets and injection *)

Definition mergeDispositions (base : list (string * SecretDisposition))
    (overlay : option (list (string * SecretDisposition))) : list (string * SecretDisposition) :=
  match overlay with None => base | Some o => map_set_all base o end.

Definition dispositionOf (dispositions : list (string * SecretDisposition)) (name : string) :
    SecretDisposition :=
  match map_get dispositions name with
  | Some d => d
  | None => default DispMask (map_get dispositions "*")
  end.

Definition effectiveInject (scope rule : option (list Inject)) : list Inject :=
  let add := fold_left (λ (merged : list (string * Inject)) entry,
               map_set merged (inj_name entry) entry) in
  (add (default [] rule) (add (default [] scope) [])).*2.

(** `once(seen, key)` guarding one pushed diagnostic. *)
Definition once (acc : list Diagnostic * list string) (key message : string) :
    list Diagnostic * list string :=
  if includes acc.2 key then acc else (acc.1 ++ [error message], acc.2 ++ [key]).

Definition checkInjectName (where_ : string) (dispositions : list (string * SecretDisposition))
    (secrets : list (string * SecretConfig)) (acc : list Diagnostic * list string)
    (name : string) : option (list Diagnostic * list string) :=
  match prop_read secrets name with
  | Missing =>
      Some (once acc ("unknown:" +:+ name)
        (ids [where_; " inject references "; name; ", which does not exist in the secrets registry."]))
  | Inherited => None
  | Own secret =>
      let acc := if expandsToMultipleValues secret then
                   once acc ("multi:" +:+ name)
                     (ids [where_; " inject references the secret "; name; " ("; sc_from secret;
                        "), which expands to multiple values. Injection requires a single value."])
                 else acc in
      let disposition := dispositionOf dispositions name in
      Some (if bool_decide (disposition = DispInject) then acc
            else once acc (ids ["disp:"; name; ":"; SecretDisposition_string disposition])
              (ids [where_; " inject references the secret "; name; ", whose effective disposition is ";
                 quoted (SecretDisposition_string disposition);
                 ". Secrets referenced from inject must be "; quoted "inject"; "."]))
  end.

Fixpoint foldM {A B} (f : A → B → option A) (acc : A) (l : list B) : option A :=
  match l with
  | [] => Some acc
  | x :: l' => acc ← f acc x; foldM f acc l'
  end.

Definition checkInjectEntry (where_ : string) (dispositions : list (string * SecretDisposition))
    (secrets : list (string * SecretConfig)) (acc : list Diagnostic * list string)
    (entry : Inject) : option (list Diagnostic * list string) :=
  match parseInjectValue (inj_value entry) with
  | Err e => Some (once acc ("value:" +:+ inj_value entry)
               (ids [where_; " inject header "; inj_name entry; ": "; e]))
  | Ok value => foldM (checkInjectName where_ dispositions secrets) acc (injectReferences value)
  end.

(** Returns the pushed diagnostics and the updated `seen` set. *)
Definition checkInjects (seen : list string) (where_ : string) (injects : list Inject)
    (dispositions : list (string * SecretDisposition)) (secrets : list (string * SecretConfig)) :
    option (list Diagnostic * list string) :=
  foldM (checkInjectEntry where_ dispositions secrets) ([], seen) injects.

(** ** Scopes *)

Record ScopeContext : Type := {
  ctx_dispositions : list (string * SecretDisposition);
  ctx_audit : option AuditMode;
  ctx_secrets : list (string * SecretConfig);
  ctx_limits : ResolvedLimits;
}.

Fixpoint compile_targets (name : string) (sources : list string) :
    list Diagnostic * list Target :=
  match sources with
  | [] => ([], [])
  | source :: rest =>
      let others := compile_targets name rest in
      match parseTarget source with
      | Err e => (error (ids ["scope "; name; " has invalid targets: "; e]) :: others.1, others.2)
      | Ok t => (others.1, t :: others.2)
      end
  end.

(** One turn of the loop over `config.rules`: diagnostics, `seen`, rules. *)
Definition compile_rule (name : string) (config : ScopeConfig) (context : ScopeContext)
    (dispositions : list (string * SecretDisposition)) (scopeLimits : ResolvedLimits)
    (acc : list Diagnostic * list string * list CompiledRule) (entry : string * RuleConfig) :
    option (list Diagnostic * list string * list CompiledRule) :=
  let '(diagnostics, seen, rules) := acc in
  let '(key, ruleConfig) := entry in
  let id := ids [name; "."; key] in
  if negb (RULE_KEY_PATTERN key) then
    Some (diagnostics ++ [error (ids ["rule key "; stringify_string key; " in scope "; name;
            " does not match [a-z][a-z0-9._-]{0,63}."])], seen, rules)
  else
    let limits := (checkLimits (rc_limits ruleConfig) (ids ["rule "; id]) scopeLimits).1 in
    injects ← checkInjects seen (ids ["rule "; id])
                (effectiveInject (so_inject config) (rc_inject ruleConfig))
                (mergeDispositions dispositions (rc_secrets ruleConfig)) (ctx_secrets context);
    let expects := checkExpects id ruleConfig
                     (effectiveAudit (ctx_audit context) (so_audit config) (rc_audit ruleConfig)) in
    compiled ← compileRuleMatch id ruleConfig;
    let diagnostics := diagnostics ++ limits ++ injects.1 ++ expects ++ compiled.1 in
    Some (diagnostics, injects.2,
          match compiled.2 with
          | None => rules
          | Some m => rules ++ [{| cr_scopeName := name; cr_key := key; cr_id := id;
                                   cr_config := ruleConfig; cr_match := m |}]
          end).

Definition compileScope (name : string) (config : ScopeConfig) (context : ScopeContext) :
    option (list Diagnostic * CompiledScope) :=
  let empty := if bool_decide (so_targets config = [])
               then [error (ids ["scope "; name; " has no targets."])] else [] in
  let '(invalid, targets) := compile_targets name (so_targets config) in
  let '(limits, scopeLimits) :=
    checkLimits (so_limits config) (ids ["scope "; name]) (ctx_limits context) in
  let dispositions := mergeDispositions (ctx_dispositions context) (so_secrets config) in
  injects ← checkInjects [] (ids ["scope "; name]) (default [] (so_inject config))
              dispositions (ctx_secrets context);
  compiled ← foldM (compile_rule name config context dispositions scopeLimits)
               (empty ++ invalid ++ limits ++ injects.1, injects.2, [])
               (default [] (so_rules config));
  let '(diagnostics, _, rules) := compiled in
  Some (diagnostics, {| cs_name := name; cs_config := config; cs_targets := targets;
                        cs_rules := rules; cs_dispositions := dispositions |}).
