(* ===== verification/Compile.v ===== *)
(** * Checks across rules and scopes (network/authz/validate.ts, second half)

    Overlaps, effective-id collisions, precedence cycles, overrides, and
    [compileAuthzConfig], the whole compilation. *)
From S2P Require Import Prelude JsString Json Containment AuthzTypes Pattern Relation Selection.
From S2P Require Import Semantics MatchLaws Targets Specificity AuthzConfig Witness Validate.

Definition unlines (lines : list string) : string := join newline lines.

(** ** Aligned rows *)

Definition max_list (l : list nat) : nat := foldr Nat.max 0 l.

Definition alignedRows (rows : list (list string)) : list string :=
  let columns := max_list (map length rows) in
  let widths := map (λ column, max_list (map (λ row, slen (default "" (row !! column))) rows))
                  (seq 0 columns) in
  map (λ row,
    "  " +:+ join "  " (imap (λ column cell,
      if (column =? length row - 1)%nat then cell
      else padEnd cell (default 0 (widths !! column))) row)) rows.

(** ** Scope overlaps *)

Definition describeScopeConflict (a b : CompiledScope) (equivalent : bool) : string :=
  let witness := targetIntersectionWitness (cs_targets a) (cs_targets b) in
  unlines (
    (if equivalent then
       [ids ["config error: scopes "; cs_name a; " and "; cs_name b; " have identical target sets."];
        "            The same host cannot be split across two scopes.";
        "            Use rules within a single scope to distinguish requests to the same host."; ""]
     else
       [ids ["config error: the target sets of scopes "; cs_name a; " and "; cs_name b; " intersect."];
        "            Neither contains the other, so which scope applies is undecidable."; ""]) ++
    (match witness with
     | Some address => ["  A target belonging to both:";
                        "    " +:+ describeTargetAddress address; ""]
     | None => []
     end) ++
    alignedRows [[cs_name a; join " " (so_targets (cs_config a))];
                 [cs_name b; join " " (so_targets (cs_config b))]] ++
    ["";  "  How to fix:"] ++
    (if equivalent then
       ["    - Merge the two scopes into one and distinguish cases with rules"]
     else
       ["    - Make one side's targets match down to the port";
        "    - Narrow one side's targets so the other contains them"])).

(** The pairs [(l[i], l[j])] with [i < j], in loop order. *)
Fixpoint ordered_pairs {A} (l : list A) : list (A * A) :=
  match l with
  | [] => []
  | a :: rest => map (pair a) rest ++ ordered_pairs rest
  end.

Definition checkScopePair (p : CompiledScope * CompiledScope) : list Diagnostic :=
  let '(a, b) := p in
  if negb (targetSetsIntersect (cs_targets a) (cs_targets b)) then []
  else
    match compareTargetSpecificity (cs_targets a) (cs_targets b) with
    | Narrower | Wider => []
    | order => [error (describeScopeConflict a b (bool_decide (order = Equivalent)))]
    end.

Definition checkScopeOverlaps (scopes : list CompiledScope) : list Diagnostic :=
  flat_map checkScopePair (ordered_pairs scopes).

(** ** Effective ids *)

Record IdDeclaration : Type := { id_id : string; id_scopeName : string; id_detail : string }.

Definition fallbackRuleId (scopeName : string) : string :=
  scopeName +:+ "." +:+ FALLBACK_RULE_KEY.

Definition idDeclarations (scopes : list CompiledScope) : list IdDeclaration :=
  flat_map (λ scope,
    {| id_id := fallbackRuleId (cs_name scope); id_scopeName := cs_name scope;
       id_detail := "fallback" |} ::
    map (λ rule, {| id_id := cr_id rule; id_scopeName := cs_name scope;
                    id_detail := "rule " +:+ stringify_string (cr_key rule) |}) (cs_rules scope))
    scopes.

Definition describeIdCollision (a b : IdDeclaration) : string :=
  unlines (
    [ids ["config error: two declarations produce the same effective id "; id_id a; "."];
     "            Approvals and audit records both refer to rules by effective";
     "            id, so it is undecidable which declaration an answer belongs to.";
     "            An approval given for one could let the other's requests through."; ""] ++
    alignedRows [["scope " +:+ id_scopeName a; id_detail a];
                 ["scope " +:+ id_scopeName b; id_detail b]] ++
    [""; "  How to fix:"; "    - Change one rule's key"; "    - Change one scope's name"]).

Definition id_step (acc : list Diagnostic * list (string * IdDeclaration))
    (declaration : IdDeclaration) : list Diagnostic * list (string * IdDeclaration) :=
  match map_get acc.2 (id_id declaration) with
  | None => (acc.1, map_set acc.2 (id_id declaration) declaration)
  | Some previous => (acc.1 ++ [error (describeIdCollision previous declaration)], acc.2)
  end.

Definition checkEffectiveIdCollisions (scopes : list CompiledScope) : list Diagnostic :=
  (fold_left id_step (idDeclarations scopes) ([], [])).1.

(** ** Rule overlaps and precedence *)

Definition overrides_of (rule : CompiledRule) : list string :=
  default [] (rc_overrides (cr_config rule)).

Definition eitherNamesTheOther (a b : CompiledRule) : bool :=
  includes (overrides_of a) (cr_key b) || includes (overrides_of b) (cr_key a).

Definition rulePrecedes (a b : CompiledRule) : bool :=
  if includes (overrides_of a) (cr_key b) then true
  else if includes (overrides_of b) (cr_key a) then false
  else bool_decide (compareSpecificity (cr_match a) (cr_match b) = Narrower).

Definition describeMethods (rule : CompiledRule) : string :=
  match m_methods (rc_match (cr_config rule)) with
  | None | Some [] => "(all methods)"
  | Some methods => join "|" methods
  end.

Definition hasBodyCondition (rule : CompiledRule) : bool :=
  match nb_format (cm_body (cr_match rule)) with Some _ => true | None => false end.

Definition or_root (pointer : string) : string :=
  if String.eqb pointer "" then "(root)" else pointer.

Definition describeBodyCondition (body : NormalizedBody) : string :=
  match nb_format body with
  | None => "no body condition"
  | Some format =>
      join " " (
        ["body " +:+ BodyFormat_string format] ++
        map (λ '(pointer, values), or_root pointer +:+ "=" +:+ join "|" (map stringify_scalar values))
          (nb_pointers body) ++
        match nb_graphql body with
        | None => []
        | Some graphql =>
            ["graphql " +:+ or_root (ng_at graphql);
             "operations=" +:+ join "|" (map GraphqlOperation_string (ng_operations graphql));
             "fieldPaths=" +:+ join "|" (ng_fieldPaths graphql)] ++
            flat_map (λ '(path, args),
              map (λ '(name, values), ids ["fieldArguments."; path; "."; name; "=";
                     join "|" (map stringify_string values)]) args) (ng_fieldArguments graphql)
        end)
  end.

Definition describeRuleConflict (a b : CompiledRule) : string :=
  let witness := matchIntersectionWitness (cr_match a) (cr_match b) in
  unlines (
    [ids ["config error: the accepted sets of rules "; cr_id a; " and "; cr_id b; " intersect."];
     "            Neither contains the other, so which rule applies is undecidable."; ""] ++
    (match witness with
     | Some request => "  A request matching both:" ::
                       map (λ line, "    " +:+ line) (describeRequest request) ++ [""]
     | None => []
     end) ++
    alignedRows (map (λ rule,
      [cr_id rule; describeMethods rule; join " " (m_paths (rc_match (cr_config rule)))] ++
      (if hasBodyCondition a || hasBodyCondition b
       then [describeBodyCondition (cm_body (cr_match rule))] else [])) [a; b]) ++
    [""; "  How to fix:";
     ids ["    - Add overrides { "; stringify_string (cr_key a); " } to "; cr_id b];
     "    - Narrow one side's match";
     "    - Add a third rule covering the intersection"]).

Definition checkRulePair (p : CompiledRule * CompiledRule) : list Diagnostic :=
  let '(a, b) := p in
  if negb (matchesIntersect (cr_match a) (cr_match b)) then []
  else if negb (bool_decide (compareSpecificity (cr_match a) (cr_match b) = Incomparable)) then []
  else if eitherNamesTheOther a b then []
  else [error (describeRuleConflict a b)].

Definition checkRuleOverlaps (scope : CompiledScope) : list Diagnostic :=
  flat_map checkRulePair (ordered_pairs (cs_rules scope)).

Definition describePrecedenceEdge (a b : CompiledRule) : string :=
  if includes (overrides_of a) (cr_key b) then
    ids [cr_id a; " precedes "; cr_id b; " via overrides { "; stringify_string (cr_key b); " }"]
  else ids [cr_id a; " precedes "; cr_id b; " by specificity"].

(** Each element of the ring with the next one, the last with the first. *)
Definition ring_pairs {A} (l : list A) : list (A * A) :=
  zip l (drop 1 l ++ take 1 l).

Definition describePrecedenceCycle (scope : CompiledScope) (cycle : list CompiledRule) : string :=
  let keys := map cr_key cycle in
  unlines (
    [ids ["config error: rule precedence in scope "; cs_name scope; " is cyclic."];
     "            " +:+ join " → " (keys ++ take 1 keys);
     "            Which rule to evaluate first is undecidable, so";
     "            specificity-based selection breaks down across the scope."; "";
     "  Precedence edges forming the cycle:"] ++
    map (λ '(a, b), "    " +:+ describePrecedenceEdge a b) (ring_pairs cycle) ++
    [""; "  How to fix:";
     "    - Remove one side's overrides so precedence points a single way";
     "    - Narrow one side's match so overrides are not needed";
     "    - Add a third rule covering the intersection"]).

Definition checkPrecedenceCycles (scope : CompiledScope) : list Diagnostic :=
  match precedenceOrder (cs_rules scope) (λ a b _ _, rulePrecedes a b) with
  | Ordered _ => []
  | Cyclic cycle => [error (describePrecedenceCycle scope cycle)]
  end.

Definition checkOverride (scope : CompiledScope) (byKey : list (string * CompiledRule))
    (rule : CompiledRule) (key : string) : list Diagnostic :=
  if String.eqb key (cr_key rule) then
    [error (ids ["rule "; cr_id rule; " has overrides pointing at itself."])]
  else
    match map_get byKey key with
    | None => [error (ids ["rule "; cr_id rule; " has overrides pointing at "; cs_name scope; ".";
                key; ", which does not exist."])]
    | Some other =>
        if matchesIntersect (cr_match rule) (cr_match other) then []
        else [error (ids ["rule "; cr_id rule; " has overrides pointing at "; cr_id other;
                ", whose accepted set does not intersect. Stating precedence is meaningless."])]
    end.

Definition checkOverrides (scope : CompiledScope) : list Diagnostic :=
  let rules := cs_rules scope in
  let byKey := map_set_all [] (map (λ rule, (cr_key rule, rule)) rules) in
  let total := length (flat_map overrides_of rules) in
  flat_map (λ rule, flat_map (checkOverride scope byKey rule) (overrides_of rule)) rules ++
  if (length rules <? total)%nat && (0 <? length rules)%nat then
    [warning (ids ["scope "; cs_name scope; " has "; nat_to_string total; " overrides for ";
       nat_to_string (length rules); " rules.";
       " Specificity-based selection is degenerating into a hand-written ordering."])]
  else [].

(** `wide === narrow` compares identities: the rules are compared by position. *)
Definition checkCoveringAllow (scope : CompiledScope) : list Diagnostic :=
  let rules := cs_rules scope in
  concat (imap (λ i narrow,
    match m_body (rc_match (cr_config narrow)) with
    | None => []
    | Some _ =>
        concat (imap (λ j wide,
          if (j =? i)%nat then []
          else if negb (bool_decide (rc_onMatch (cr_config wide) = Allow)) then []
          else match m_body (rc_match (cr_config wide)) with
               | Some _ => []
               | None =>
                   if negb (matchSubsumes (cr_match narrow) (cr_match wide)) then []
                   else [warning (ids ["the body condition of rule "; cr_id narrow;
                     " is covered by the broader unconditional allow rule "; cr_id wide;
                     " in the same scope."; " Requests outside the condition are caught and let through by ";
                     cr_id wide; ", so if the intent is restriction, put the condition on expect, not match."])]
               end) rules)
    end) rules).

(** ** `mask.proxy = false` *)

Definition masks (disposition : SecretDisposition) : bool :=
  bool_decide (disposition = DispMask) || bool_decide (disposition = DispForbid).

(** The first scope and disposition the nested loops stop at. *)
Definition maskProxyFault (scopes : list CompiledScope) : option (CompiledScope * SecretDisposition) :=
  head (flat_map (λ scope,
    flat_map (λ level : list (string * SecretDisposition),
      map (pair scope) (List.filter masks (level.*2)))
      (cs_dispositions scope ::
       map (λ rule, mergeDispositions (cs_dispositions scope) (rc_secrets (cr_config rule)))
         (cs_rules scope))) scopes).

Definition checkMaskProxy (config : AuthzConfig) (scopes : list CompiledScope) : list Diagnostic :=
  if negb (bool_decide ((ac_mask config ≫= mk_proxy) = Some false)) then []
  else match maskProxyFault scopes with
       | None => []
       | Some (scope, disposition) =>
           [error (ids ["scope "; cs_name scope; " uses ";
              quoted (SecretDisposition_string disposition);
              " as a secret disposition, so mask.proxy = false is not allowed.";
              " If you do not want masking at the proxy, set network.defaults.secrets { [";
              quoted "*"; "] = "; quoted "ignore"; " } explicitly."])]
       end.

(** ** The whole compilation *)

Fixpoint compile_scopes (context : ScopeContext) (scopes : list (string * ScopeConfig)) :
    option (list Diagnostic * list CompiledScope) :=
  match scopes with
  | [] => Some ([], [])
  | (name, config) :: rest =>
      first ← compileScope name config context;
      others ← compile_scopes context rest;
      Some (first.1 ++ others.1, first.2 :: others.2)
  end.

Definition empty_defaults : NetworkDefaults :=
  {| nd_limits := None; nd_secrets := None; nd_audit := None |}.

Definition scope_checks (scope : CompiledScope) : list Diagnostic :=
  checkRuleOverlaps scope ++ checkOverrides scope ++ checkPrecedenceCycles scope ++
  checkCoveringAllow scope.

Definition compileAuthzConfig (config : AuthzConfig) : option CompileOutcome :=
  let secrets := default [] (ac_secrets config) in
  let defaults := default empty_defaults (nc_defaults (ac_network config)) in
  let baseDispositions :=
    map_set_all DEFAULT_SECRET_DISPOSITIONS (default [] (nd_secrets defaults)) in
  let '(limits, defaultLimits) :=
    checkLimits (nd_limits defaults) "network.defaults" LIMIT_CEILINGS in
  compiled ← compile_scopes {| ctx_dispositions := baseDispositions;
                               ctx_audit := nd_audit defaults;
                               ctx_secrets := secrets;
                               ctx_limits := defaultLimits |}
               (nc_scopes (ac_network config));
  let '(diagnostics, scopes) := compiled in
  Some {| co_scopes := scopes;
          co_diagnostics :=
            limits ++ diagnostics ++
            checkScopeOverlaps scopes ++ checkEffectiveIdCollisions scopes ++
            flat_map scope_checks scopes ++ checkMaskProxy config scopes |}.

Definition validateAuthzConfig (config : AuthzConfig) : option (list Diagnostic) :=
  co_diagnostics <$> compileAuthzConfig config.

(** ** No error in a concatenation *)

Lemma has_error_app a b : has_error (a ++ b) = has_error a || has_error b.
Proof. apply existsb_app. Qed.

Lemma has_error_flat_map {A} (f : A → list Diagnostic) l :
  has_error (flat_map f l) = false ↔ ∀ x, In x l → has_error (f x) = false.
Proof.
  induction l as [|x l IH]; simpl; [naive_solver|].
  rewrite has_error_app, orb_false_iff, IH. naive_solver.
Qed.

Lemma ordered_pairs_lookup {A} (l : list A) i j a b :
  (i < j)%nat → l !! i = Some a → l !! j = Some b → In (a, b) (ordered_pairs l).
Proof.
  revert i j. induction l as [|x l IH]; intros [|i] [|j] Hij Ha Hb; simplify_eq/=; try lia.
  - apply in_app_iff. left. apply in_map. by apply list_elem_of_In, list_elem_of_lookup; eauto.
  - apply in_app_iff. right. apply (IH i j); [lia|done|done].
Qed.

Ltac split_errors :=
  repeat match goal with
    | H : has_error (_ ++ _) = false |- _ =>
        rewrite has_error_app in H; apply orb_false_iff in H; destruct H
    end.

(** What an outcome without errors satisfies. *)
Record valid_outcome (scopes : list CompiledScope) : Prop := {
  valid_scopes : has_error (checkScopeOverlaps scopes) = false;
  valid_ids : has_error (checkEffectiveIdCollisions scopes) = false;
  valid_rules : ∀ scope, In scope scopes → has_error (scope_checks scope) = false;
}.

Lemma compileAuthzConfig_valid config outcome :
  compileAuthzConfig config = Some outcome →
  has_error (co_diagnostics outcome) = false →
  valid_outcome (co_scopes outcome).
Proof.
  unfold compileAuthzConfig. destruct (checkLimits _ _ _) as [limits defaultLimits].
  destruct (compile_scopes _ _) as [[ds scopes]|]; simpl; [|done].
  intros [= <-] H. simpl in *. split_errors. split; [done|done|]. by apply has_error_flat_map.
Qed.

Lemma scope_pair_valid scopes i j a b :
  has_error (checkScopeOverlaps scopes) = false → (i < j)%nat →
  scopes !! i = Some a → scopes !! j = Some b →
  targetSetsIntersect (cs_targets a) (cs_targets b) = true →
  compareTargetSpecificity (cs_targets a) (cs_targets b) = Narrower ∨
  compareTargetSpecificity (cs_targets a) (cs_targets b) = Wider.
Proof.
  unfold checkScopeOverlaps. rewrite has_error_flat_map. intros H Hij Ha Hb Hi.
  pose proof (H _ (ordered_pairs_lookup _ _ _ _ _ Hij Ha Hb)) as Hp.
  unfold checkScopePair in Hp. rewrite Hi in Hp. simpl in Hp.
  destruct (compareTargetSpecificity _ _); auto; done.
Qed.

Lemma rule_pair_valid scope i j a b :
  has_error (checkRuleOverlaps scope) = false → (i < j)%nat →
  cs_rules scope !! i = Some a → cs_rules scope !! j = Some b →
  matchesIntersect (cr_match a) (cr_match b) = true →
  compareSpecificity (cr_match a) (cr_match b) ≠ Incomparable ∨ eitherNamesTheOther a b = true.
Proof.
  unfold checkRuleOverlaps. rewrite has_error_flat_map. intros H Hij Ha Hb Hi.
  pose proof (H _ (ordered_pairs_lookup _ _ _ _ _ Hij Ha Hb)) as Hp.
  unfold checkRulePair in Hp. rewrite Hi in Hp. simpl in Hp.
  case_bool_decide; [|by left]. destruct (eitherNamesTheOther a b); [by right|done].
Qed.

Lemma precedence_valid scope :
  has_error (checkPrecedenceCycles scope) = false →
  ∃ o, precedenceOrder (cs_rules scope) (λ a b _ _, rulePrecedes a b) = Ordered o.
Proof. unfold checkPrecedenceCycles. destruct (precedenceOrder _ _); [eauto|done]. Qed.

(** *** Effective ids *)

Lemma id_fold_error ds : ∀ acc,
  has_error (fold_left id_step ds acc).1 = false → has_error acc.1 = false.
Proof.
  induction ds as [|d ds IH]; intros acc; simpl; [done|].
  intros H%IH. unfold id_step in H. destruct (map_get _ _); [|done].
  simpl in H. by split_errors.
Qed.

Lemma id_fold_unique ds : ∀ acc,
  has_error (fold_left id_step ds acc).1 = false →
  List.NoDup (map id_id ds) ∧ ∀ d, In d ds → map_get acc.2 (id_id d) = None.
Proof.
  induction ds as [|d ds IH]; intros acc H; simpl in *; [split; [constructor|done]|].
  destruct (IH _ H) as [Hnd Hget]. apply id_fold_error in H.
  unfold id_step in *. destruct (map_get acc.2 (id_id d)) eqn:E.
  { simpl in H. split_errors. done. }
  simpl in *. split.
  - constructor; [|done]. intros (d' & Heq & Hin)%in_map_iff.
    apply Hget in Hin. by rewrite Heq, map_get_set_eq in Hin.
  - intros d' [<-|Hin]; [done|]. apply Hget in Hin.
    rewrite map_get_set in Hin. by case_decide.
Qed.
