(* ===== verification/CompileLaws.v ===== *)
(** * What a compilation without errors guarantees

    The compiled scopes correspond one to one to the configured ones: every
    target, every rule, in the configured order, and each rule passed the checks
    on its key, its budgets, its expectations and its injected headers. *)
From S2P Require Import Prelude JsString Json Containment AuthzTypes Pattern Relation Selection.
From S2P Require Import Semantics MatchLaws Targets Specificity AuthzConfig Witness Validate.
From S2P Require Import Compile.

(** ** Lists that hold errors only *)

Definition all_errors (ds : list Diagnostic) : Prop := Forall (λ d, is_error d = true) ds.

Lemma all_errors_nil ds : all_errors ds → has_error ds = false → ds = [].
Proof. intros [|d l Hd _]; [done|]. simpl. by rewrite Hd. Qed.

Lemma all_errors_app a b : all_errors a → all_errors b → all_errors (a ++ b).
Proof. apply Forall_app_2. Qed.

Lemma all_errors_flat_map {A} (f : A → list Diagnostic) l :
  (∀ x, all_errors (f x)) → all_errors (flat_map f l).
Proof. intros H. induction l; simpl; [constructor|by apply all_errors_app]. Qed.

Lemma all_errors_map {A} (f : A → string) l : all_errors (map (λ x, error (f x)) l).
Proof. by apply Forall_map, Forall_true. Qed.

Lemma path_diagnostics_errors id paths : all_errors (path_diagnostics id paths).
Proof.
  unfold path_diagnostics. apply all_errors_app.
  - apply all_errors_flat_map. intros s. destruct (parsePathPattern s); repeat constructor.
  - case_bool_decide; repeat constructor.
Qed.

Lemma checkBodyMatch_errors id body : all_errors (checkBodyMatch id body).
Proof.
  unfold checkBodyMatch. destruct body as [body|]; [|constructor].
  apply all_errors_app; [|apply all_errors_map]. apply all_errors_flat_map.
  intros [name present]. destruct (_ || _); repeat constructor.
Qed.

Lemma compileRuleMatch_valid id rule ds m :
  compileRuleMatch id rule = Some (ds, m) → has_error ds = false →
  ∃ c, m = Some c ∧ compileMatch (rc_match rule) = Some (Ok c).
Proof.
  unfold compileRuleMatch. intros H Hd.
  destruct (_ || _) eqn:Eb.
  - injection H as <- <-. split_errors.
    rewrite (all_errors_nil _ (path_diagnostics_errors id (m_paths (rc_match rule)))) in Eb by done.
    rewrite (all_errors_nil _ (checkBodyMatch_errors id (m_body (rc_match rule)))) in Eb by done.
    done.
  - destruct (compileMatch (rc_match rule)) as [[c|e]|]; simpl in H; [|..|done].
    + injection H as <- <-. eauto.
    + injection H as <- <-. split_errors. done.
Qed.

(** ** Folds that stop at a thrown error *)

Lemma foldM_back {A B} (f : A → B → option A) (good : A → Prop) :
  (∀ a b a', f a b = Some a' → good a' → good a) →
  ∀ l a a', foldM f a l = Some a' → good a' → good a.
Proof.
  intros Hback l. induction l as [|b l IH]; intros a a' H Hg; simpl in H; [by simplify_eq|].
  destruct (f a b) as [a1|] eqn:E; simpl in H; [|done]. eauto.
Qed.

Lemma foldM_inv {A B} (f : A → B → option A) (I good : A → Prop) (P : B → Prop) :
  (∀ a b a', f a b = Some a' → good a' → good a) →
  (∀ a b a', I a → f a b = Some a' → good a' → I a' ∧ P b) →
  ∀ l a a', foldM f a l = Some a' → I a → good a' → I a' ∧ Forall P l.
Proof.
  intros Hback Hstep l. induction l as [|b l IH]; intros a a' H HI Hg; simpl in H.
  { simplify_eq. auto. }
  destruct (f a b) as [a1|] eqn:E; simpl in H; [|done].
  destruct (Hstep _ _ _ HI E (foldM_back f good Hback _ _ _ H Hg)) as [HI1 HP].
  destruct (IH _ _ H HI1 Hg). auto.
Qed.

(** ** Budgets *)

Definition no_error (ds : list Diagnostic) : Prop := has_error ds = false.

(** Accepted budgets are the merged ones, and they only go down. *)
Lemma limit_fold_valid where_ limits inherited keys : ∀ acc,
  has_error (fold_left (limit_step where_ limits inherited) keys acc).1 = false →
  has_error acc.1 = false ∧
  (∀ key v, In key keys → limit_get limits key = Some v → (v ≤ rlimit_get inherited key)%Z) ∧
  (fold_left (limit_step where_ limits inherited) keys acc).2 =
    fold_left (λ merged key, match limit_get limits key with
                             | None => merged | Some v => rlimit_set merged key v end) keys acc.2.
Proof.
  induction keys as [|key keys IH]; intros acc H; simpl in *; [done|].
  apply IH in H as (He & Hle & Heq). rewrite Heq. unfold limit_step in He |- *.
  destruct (limit_get limits key) as [v|] eqn:El; simpl in *.
  - destruct (Z.ltb_spec (rlimit_get inherited key) v); simpl in *; [by split_errors|].
    split_and!; [done| |done]. intros k' v' [->|Hin] Hv; [|eauto]. by simplify_eq.
  - split_and!; [done| |done]. intros k' v' [->|Hin] Hv; [congruence|eauto].
Qed.

(** ** Injected headers *)

(** The name is registered, gives one value, and its effective disposition lets
    it be injected. *)
Definition injectable (dispositions : list (string * SecretDisposition))
    (secrets : list (string * SecretConfig)) (name : string) : Prop :=
  ∃ secret, map_get secrets name = Some secret ∧ expandsToMultipleValues secret = false ∧
            dispositionOf dispositions name = DispInject.

Definition header_injectable (dispositions : list (string * SecretDisposition))
    (secrets : list (string * SecretConfig)) (entry : Inject) : Prop :=
  ∃ value, parseInjectValue (inj_value entry) = Ok value ∧
           Forall (injectable dispositions secrets) (injectReferences value).

Lemma once_back acc key message : no_error (once acc key message).1 → no_error acc.1.
Proof. unfold once, no_error. destruct (includes _ _); simpl; [done|]. intros H. by split_errors. Qed.

Lemma once_nil acc key message : acc.2 = [] → ¬ no_error (once acc key message).1.
Proof.
  unfold once, no_error. intros ->. simpl. rewrite has_error_app. simpl. by rewrite orb_true_r.
Qed.

Lemma checkInjectName_back where_ dispositions secrets acc name acc' :
  checkInjectName where_ dispositions secrets acc name = Some acc' →
  no_error acc'.1 → no_error acc.1.
Proof.
  unfold checkInjectName. destruct (prop_read secrets name) as [secret| |]; [|done|].
  - intros [= <-] H. case_bool_decide; [|apply once_back in H];
      (destruct (expandsToMultipleValues secret); [by apply once_back in H|done]).
  - intros [= <-]. apply once_back.
Qed.

Lemma checkInjectName_valid where_ dispositions secrets acc name acc' :
  acc.2 = [] → checkInjectName where_ dispositions secrets acc name = Some acc' →
  no_error acc'.1 → acc'.2 = [] ∧ injectable dispositions secrets name.
Proof.
  unfold checkInjectName. intros Hn.
  unfold prop_read. destruct (map_get secrets name) as [secret|] eqn:Es.
  - intros [= <-] H. destruct (expandsToMultipleValues secret) eqn:Em.
    { exfalso. case_bool_decide; [|apply once_back in H]; by eapply once_nil. }
    case_bool_decide; [|by eapply once_nil in H]. split; [done|]. by exists secret.
  - destruct (includes object_prototype_names name); [done|].
    intros [= <-] H. exfalso. by eapply once_nil.
Qed.

Lemma checkInjectEntry_back where_ dispositions secrets acc entry acc' :
  checkInjectEntry where_ dispositions secrets acc entry = Some acc' →
  no_error acc'.1 → no_error acc.1.
Proof.
  unfold checkInjectEntry. destruct (parseInjectValue (inj_value entry)) as [value|e].
  - apply (foldM_back _ (λ a, no_error a.1)), checkInjectName_back.
  - intros [= <-]. apply once_back.
Qed.

Lemma checkInjectEntry_valid where_ dispositions secrets acc entry acc' :
  acc.2 = [] → checkInjectEntry where_ dispositions secrets acc entry = Some acc' →
  no_error acc'.1 → acc'.2 = [] ∧ header_injectable dispositions secrets entry.
Proof.
  unfold checkInjectEntry, header_injectable. intros Hn.
  destruct (parseInjectValue (inj_value entry)) as [value|e].
  - intros H Hg.
    destruct (foldM_inv _ (λ a, a.2 = []) (λ a, no_error a.1) (injectable dispositions secrets)
      (checkInjectName_back where_ dispositions secrets)
      (checkInjectName_valid where_ dispositions secrets) _ _ _ H Hn Hg). eauto.
  - intros [= <-] H. exfalso. by eapply once_nil.
Qed.

Lemma checkInjects_valid where_ injects dispositions secrets r :
  checkInjects [] where_ injects dispositions secrets = Some r → no_error r.1 →
  r.2 = [] ∧ Forall (header_injectable dispositions secrets) injects.
Proof.
  intros H Hg.
  exact (foldM_inv _ (λ a, a.2 = []) (λ a, no_error a.1) (header_injectable dispositions secrets)
    (checkInjectEntry_back where_ dispositions secrets)
    (checkInjectEntry_valid where_ dispositions secrets) _ _ _ H eq_refl Hg).
Qed.

(** ** Rules *)

(** What the loop of `compileScope` establishes for one entry of `config.rules`. *)
Record rule_compiled (name : string) (config : ScopeConfig) (context : ScopeContext)
    (dispositions : list (string * SecretDisposition)) (scopeLimits : ResolvedLimits)
    (entry : string * RuleConfig) (rule : CompiledRule) : Prop := {
  rule_key : cr_key rule = entry.1;
  rule_key_pattern : RULE_KEY_PATTERN entry.1 = true;
  rule_config : cr_config rule = entry.2;
  rule_scopeName : cr_scopeName rule = name;
  rule_id : cr_id rule = name +:+ "." +:+ entry.1;
  rule_match : compileMatch (rc_match entry.2) = Some (Ok (cr_match rule));
  rule_limits : no_error (checkLimits (rc_limits entry.2) (ids ["rule "; cr_id rule]) scopeLimits).1;
  rule_expects : no_error (checkExpects (cr_id rule) entry.2
                   (effectiveAudit (ctx_audit context) (so_audit config) (rc_audit entry.2)));
  rule_injects : Forall (header_injectable (mergeDispositions dispositions (rc_secrets entry.2))
                                           (ctx_secrets context))
                   (effectiveInject (so_inject config) (rc_inject entry.2));
}.

Lemma ids_rule_id name key : ids [name; "."; key] = name +:+ "." +:+ key.
Proof. done. Qed.

Section Rules.
Context (name : string) (config : ScopeConfig) (context : ScopeContext)
  (dispositions : list (string * SecretDisposition)) (scopeLimits : ResolvedLimits).

Local Notation compile := (compile_rule name config context dispositions scopeLimits).
Local Notation compiled := (rule_compiled name config context dispositions scopeLimits).

Lemma compile_rule_back acc entry acc' :
  compile acc entry = Some acc' → no_error acc'.1.1 → no_error acc.1.1.
Proof.
  destruct acc as [[ds seen] rules], entry as [key rule]. unfold compile_rule, no_error.
  destruct (negb _); [intros [= <-] H; simpl in *; by split_errors|].
  destruct (checkInjects _ _ _ _ _) as [injects|]; cbn [mbind option_bind]; [|done].
  destruct (compileRuleMatch _ _) as [[mds m]|]; cbn [mbind option_bind]; [|done].
  intros [= <-] H. cbn [fst snd] in *. by split_errors.
Qed.

Lemma compile_rule_valid ds rules entry acc' :
  compile (ds, [], rules) entry = Some acc' → no_error acc'.1.1 →
  acc'.1.2 = [] ∧ ∃ rule, acc'.2 = rules ++ [rule] ∧ compiled entry rule.
Proof.
  destruct entry as [key rule]. unfold compile_rule.
  destruct (RULE_KEY_PATTERN key) eqn:Ek; cbn [negb].
  2:{ intros [= <-] H. unfold no_error in H. simpl in H. by split_errors. }
  destruct (checkInjects _ _ _ _ _) as [injects|] eqn:Ei; cbn [mbind option_bind]; [|done].
  destruct (compileRuleMatch _ _) as [[mds m]|] eqn:Em; cbn [mbind option_bind]; [|done].
  intros [= <-] H. cbn [fst snd] in *. unfold no_error in H. split_errors.
  destruct (compileRuleMatch_valid _ _ _ _ Em ltac:(done)) as (c & -> & Ec).
  destruct (checkInjects_valid _ _ _ _ _ Ei ltac:(done)) as [Hseen Hinj].
  split; [done|]. eexists. split; [done|]. split; try done.
Qed.

Lemma compile_rules_valid entries : ∀ ds rules acc',
  foldM compile (ds, [], rules) entries = Some acc' → no_error acc'.1.1 →
  no_error ds ∧ ∃ new, acc'.2 = rules ++ new ∧ Forall2 compiled entries new.
Proof.
  induction entries as [|entry entries IH]; intros ds rules acc' H Hg; cbn [foldM] in H.
  { simplify_eq. split; [done|]. exists []. by rewrite app_nil_r. }
  destruct (compile _ entry) as [acc1|] eqn:E; cbn [mbind option_bind] in H; [|done].
  assert (no_error acc1.1.1) as Hg1
    by exact (foldM_back compile (λ a, no_error a.1.1) compile_rule_back _ _ _ H Hg).
  pose proof (compile_rule_back _ _ _ E Hg1) as Hds. simpl in Hds.
  destruct (compile_rule_valid _ _ _ _ E Hg1) as (Hseen & rule & Hr & Hc).
  destruct acc1 as [[ds1 seen1] rules1]. simpl in *. subst.
  destruct (IH _ _ _ H Hg) as (_ & new & -> & HF).
  split; [done|]. exists (rule :: new). rewrite <- app_assoc. split; [done|]. by constructor.
Qed.
End Rules.

(** ** Scopes *)

Record scope_compiled (context : ScopeContext) (entry : string * ScopeConfig)
    (scope : CompiledScope) : Prop := {
  scope_name : cs_name scope = entry.1;
  scope_config : cs_config scope = entry.2;
  scope_dispositions : cs_dispositions scope =
    mergeDispositions (ctx_dispositions context) (so_secrets entry.2);
  scope_targets : so_targets entry.2 ≠ [] ∧
    Forall2 (λ source t, parseTarget source = Ok t) (so_targets entry.2) (cs_targets scope);
  scope_limits :
    no_error (checkLimits (so_limits entry.2) (ids ["scope "; entry.1]) (ctx_limits context)).1;
  scope_injects : Forall (header_injectable (cs_dispositions scope) (ctx_secrets context))
    (default [] (so_inject entry.2));
  scope_rules : Forall2 (rule_compiled entry.1 entry.2 context (cs_dispositions scope)
      (checkLimits (so_limits entry.2) (ids ["scope "; entry.1]) (ctx_limits context)).2)
    (default [] (so_rules entry.2)) (cs_rules scope);
}.

Lemma compile_targets_valid name sources :
  no_error (compile_targets name sources).1 →
  Forall2 (λ source t, parseTarget source = Ok t) sources (compile_targets name sources).2.
Proof.
  induction sources as [|source sources IH]; simpl; [constructor|].
  destruct (parseTarget source) eqn:E; [|done]. simpl. intros H. by constructor; [|apply IH].
Qed.

Lemma compileScope_valid name config context ds scope :
  compileScope name config context = Some (ds, scope) → no_error ds →
  scope_compiled context (name, config) scope.
Proof.
  unfold compileScope. destruct (compile_targets name (so_targets config)) as [inv targets] eqn:Et.
  destruct (checkLimits (so_limits config) (ids ["scope "; name]) (ctx_limits context))
    as [lds scopeLimits] eqn:El.
  destruct (checkInjects _ _ _ _ _) as [[ids_ seen]|] eqn:Ei; cbn [mbind option_bind]; [|done].
  destruct (foldM _ _ _) as [[[rds seen'] rules]|] eqn:Er; cbn [mbind option_bind]; [|done].
  intros [= <- <-] Hg. cbn [fst snd] in *.
  assert (no_error ids_ → seen = [] ∧ Forall (header_injectable
    (mergeDispositions (ctx_dispositions context) (so_secrets config)) (ctx_secrets context))
    (default [] (so_inject config))) as Hinj by exact (checkInjects_valid _ _ _ _ _ Ei).
  assert (no_error (_ ++ inv ++ lds ++ ids_)) as Hpre
    by exact (foldM_back _ (λ a, no_error a.1.1)
                (compile_rule_back name config context _ scopeLimits) _ _ _ Er Hg).
  unfold no_error in Hpre. split_errors.
  destruct Hinj as [-> Hinj]; [done|].
  destruct (compile_rules_valid _ _ _ _ _ _ _ _ _ Er Hg) as (_ & new & Hnew & HF).
  simpl in Hnew. subst new.
  split; try done; simpl.
  - split; [by case_bool_decide|].
    pose proof (compile_targets_valid name (so_targets config)) as Ht. rewrite Et in Ht. by apply Ht.
  - by rewrite El.
  - by rewrite El.
Qed.

Lemma compile_scopes_valid context entries : ∀ ds scopes,
  compile_scopes context entries = Some (ds, scopes) → no_error ds →
  Forall2 (scope_compiled context) entries scopes.
Proof.
  induction entries as [|[name config] entries IH]; intros ds scopes; simpl.
  { intros [= <- <-] _. constructor. }
  destruct (compileScope name config context) as [[ds1 scope]|] eqn:E; simpl; [|done].
  destruct (compile_scopes context entries) as [[ds2 others]|] eqn:Es; simpl; [|done].
  intros [= <- <-] H. unfold no_error in H. split_errors.
  constructor; [by eapply compileScope_valid|by eapply IH].
Qed.

(** ** The whole configuration *)

Definition config_context (config : AuthzConfig) : ScopeContext :=
  let defaults := default empty_defaults (nc_defaults (ac_network config)) in {|
  ctx_dispositions := map_set_all DEFAULT_SECRET_DISPOSITIONS (default [] (nd_secrets defaults));
  ctx_audit := nd_audit defaults;
  ctx_secrets := default [] (ac_secrets config);
  ctx_limits := (checkLimits (nd_limits defaults) "network.defaults" LIMIT_CEILINGS).2 |}.

Lemma compileAuthzConfig_scopes config outcome :
  compileAuthzConfig config = Some outcome → no_error (co_diagnostics outcome) →
  no_error (checkLimits (nd_limits (default empty_defaults (nc_defaults (ac_network config))))
    "network.defaults" LIMIT_CEILINGS).1 ∧
  Forall2 (scope_compiled (config_context config)) (nc_scopes (ac_network config))
    (co_scopes outcome).
Proof.
  unfold compileAuthzConfig, config_context.
  destruct (checkLimits _ _ _) as [limits defaultLimits].
  destruct (compile_scopes _ _) as [[ds scopes]|] eqn:E; cbn [mbind option_bind]; [|done].
  intros [= <-] H. unfold no_error in *. simpl in H. split_errors. split; [done|].
  by eapply compile_scopes_valid.
Qed.
