(* ===== verification/Resolve.v ===== *)
(** * The resolved document (network/authz/resolve.ts, first half)

    Inheritance from the defaults to the scopes to the rules, the precedence
    edges of every scope, the order of the scopes, and the removal of literal
    injection text. *)
From S2P Require Import Prelude JsString Json Containment AuthzTypes Pattern Relation Selection.
From S2P Require Import Semantics MatchLaws Targets Specificity AuthzConfig Witness Validate.
From S2P Require Import Compile.

Record ResolvedGraphql : Type := {
  rg_at : string;
  rg_operations : list GraphqlOperation;
  rg_fieldPaths : list string;
  rg_fieldArguments : list (string * list (string * list string));
}.

Record ResolvedBodyExpect : Type := {
  rb_equals : list (string * JsonScalar);
  rb_oneOf : list (string * list JsonScalar);
  rb_absent : list string;
  rb_graphql : option ResolvedGraphql;
}.

Inductive ResolvedShape : Type :=
  | REmptyBody
  | RJsonRoot (rootType : JsonRootType)
  | RBody (expect : ResolvedBodyExpect)
  | RUnionShape (expect : UnionShapeExpect).

Record ResolvedExpect : Type := {
  re_shape : ResolvedShape;
  re_onViolation : ViolationAction;
}.

Record ResolvedMatch : Type := {
  rm_methods : option (list string);
  rm_paths : list CompiledPath;
  rm_bodyFormat : option BodyFormat;
  rm_equals : list (string * JsonScalar);
  rm_oneOf : list (string * list JsonScalar);
  rm_graphql : option ResolvedGraphql;
}.

Record ResolvedRule : Type := {
  rr_id : string;
  rr_key : string;
  rr_precedes : list string;
  rr_match : ResolvedMatch;
  rr_onMatch : Action;
  rr_onIndeterminate : IndeterminateAction;
  rr_expect : list ResolvedExpect;
  rr_limits : ResolvedLimits;
  rr_secrets : list (string * SecretDisposition);
  rr_inject : list Inject;
  rr_audit : AuditMode;
}.

Record ResolvedScope : Type := {
  rs_name : string;
  rs_targets : list Target;
  rs_fallback : Action;
  rs_webSocket : WebSocketPolicy;
  rs_fallbackRuleId : string;
  rs_limits : ResolvedLimits;
  rs_secrets : list (string * SecretDisposition);
  rs_inject : list Inject;
  rs_audit : AuditMode;
  rs_rules : list ResolvedRule;
}.

Record ResolvedDefaults : Type := {
  rd_limits : ResolvedLimits;
  rd_secrets : list (string * SecretDisposition);
  rd_audit : AuditMode;
}.

Record ResolvedDocument : Type := {
  doc_contractVersion : Z;
  doc_fallback : NetworkFallback;
  doc_defaults : ResolvedDefaults;
  doc_scopes : list ResolvedScope;
}.

Record ResolveOutcome : Type := {
  ro_document : option ResolvedDocument;
  ro_diagnostics : list Diagnostic;
}.

(** ** Rules *)

Definition merge_limit_step (overlay : Limits) (merged : ResolvedLimits) (key : LimitKey) :
    ResolvedLimits :=
  match limit_get overlay key with
  | None => merged
  | Some value => rlimit_set merged key value
  end.

Definition mergeLimits (base : ResolvedLimits) (overlay : option Limits) : ResolvedLimits :=
  match overlay with
  | None => base
  | Some overlay => fold_left (merge_limit_step overlay) LIMIT_KEYS base
  end.

Definition copyOneOf (oneOf : option (list (string * list JsonScalar))) :
    list (string * list JsonScalar) := default [] oneOf.

Definition toResolvedGraphql (graphql : option NormalizedGraphql) : option ResolvedGraphql :=
  (λ g, {| rg_at := ng_at g; rg_operations := ng_operations g;
           rg_fieldPaths := ng_fieldPaths g; rg_fieldArguments := ng_fieldArguments g |})
  <$> graphql.

Definition toResolvedMatch (match_ : CompiledMatch) (body : option BodyMatch) : ResolvedMatch := {|
  rm_methods := cm_methods match_;
  rm_paths := cm_paths match_;
  rm_bodyFormat := nb_format (cm_body match_);
  rm_equals := default [] (body ≫= bm_equals);
  rm_oneOf := copyOneOf (body ≫= bm_oneOf);
  rm_graphql := toResolvedGraphql (nb_graphql (cm_body match_));
|}.

Definition resolveExpect (expect : Expect) : ResolvedExpect := {|
  re_shape :=
    match ex_shape expect with
    | EmptyBody => REmptyBody
    | JsonRoot t => RJsonRoot t
    | UnionShape s => RUnionShape s
    | Body b => RBody {|
        rb_equals := default [] (be_equals b);
        rb_oneOf := copyOneOf (be_oneOf b);
        rb_absent := default [] (be_absent b);
        rb_graphql :=
          match be_graphql b with
          | None => None
          | Some g => toResolvedGraphql (nb_graphql (normalizeBody (Some
              {| bm_format := FmtJson; bm_equals := None; bm_oneOf := None;
                 bm_graphql := Some g |})))
          end |}
    end;
  re_onViolation := default VioDeny (ex_onViolation expect);
|}.

Record ScopeInheritance : Type := {
  inh_limits : ResolvedLimits;
  inh_secrets : list (string * SecretDisposition);
  inh_audit : AuditMode;
  inh_inject : list Inject;
}.

Definition resolveRule (rule : CompiledRule) (precedes : list string)
    (inherited : ScopeInheritance) : ResolvedRule :=
  let config := cr_config rule in {|
  rr_id := cr_id rule;
  rr_key := cr_key rule;
  rr_precedes := precedes;
  rr_match := toResolvedMatch (cr_match rule) (m_body (rc_match config));
  rr_onMatch := rc_onMatch config;
  rr_onIndeterminate := default IndDeny (rc_onIndeterminate config);
  rr_expect := map resolveExpect (default [] (rc_expect config));
  rr_limits := mergeLimits (inh_limits inherited) (rc_limits config);
  rr_secrets := map_set_all (inh_secrets inherited) (default [] (rc_secrets config));
  rr_inject := effectiveInject (Some (inh_inject inherited)) (rc_inject config);
  rr_audit := default (inh_audit inherited) (rc_audit config);
|}.

(** `b !== a` compares identities: the rules are compared by position. *)
Definition precedenceEdges (compiled : list CompiledRule) : list (list string) :=
  imap (λ i a,
    map (λ '(_, b), cr_key b)
      (List.filter (λ '(j, b), negb (j =? i)%nat && rulePrecedes a b) (imap pair compiled)))
    compiled.

Definition rule_precedes (a b : ResolvedRule) : bool := includes (rr_precedes a) (rr_key b).

(** ** Scopes *)

Definition cycleMessage (what : string) (ring : list string) : string :=
  unlines [
    ids ["config error: precedence among "; what; " is cyclic, so no evaluation order can be determined."];
    "            " +:+ join " → " (ring ++ take 1 ring);
    "            A session cannot start with a config whose ordering is undecidable."].

Definition precedenceCycle (scopeName : string) (rules : list ResolvedRule) : option string :=
  match precedenceOrder rules (λ a b _ _, rule_precedes a b) with
  | Ordered _ => None
  | Cyclic cycle => Some (cycleMessage ("rules in scope " +:+ scopeName) (map rr_id cycle))
  end.

Definition resolveScope (scope : CompiledScope) (defaults : ResolvedDefaults) :
    Result ResolvedScope :=
  let config := cs_config scope in
  let limits := mergeLimits (rd_limits defaults) (so_limits config) in
  let secrets := cs_dispositions scope in
  let audit := default (rd_audit defaults) (so_audit config) in
  let inject := default [] (so_inject config) in
  let rules := zip_with (λ rule edges,
                 resolveRule rule edges {| inh_limits := limits; inh_secrets := secrets;
                                           inh_audit := audit; inh_inject := inject |})
                 (cs_rules scope) (precedenceEdges (cs_rules scope)) in
  match precedenceCycle (cs_name scope) rules with
  | Some cycle => Err cycle
  | None => Ok {|
      rs_name := cs_name scope;
      rs_targets := cs_targets scope;
      rs_fallback := default Deny (so_fallback config);
      rs_webSocket := default WsDeny (so_webSocket config);
      rs_fallbackRuleId := cs_name scope +:+ "." +:+ FALLBACK_RULE_KEY;
      rs_limits := limits;
      rs_secrets := secrets;
      rs_inject := inject;
      rs_audit := audit;
      rs_rules := rules |}
  end.

Definition scope_precedes (a b : ResolvedScope) : bool :=
  bool_decide (compareTargetSpecificity (rs_targets a) (rs_targets b) = Narrower).

Definition orderScopes (scopes : list ResolvedScope) : Result (list ResolvedScope) :=
  match precedenceOrder scopes (λ a b _ _, scope_precedes a b) with
  | Ordered ordered => Ok ordered
  | Cyclic cycle => Err (cycleMessage "scopes" (map rs_name cycle))
  end.

(** The resolved scopes and the faults of the loop over the compiled ones. *)
Fixpoint resolve_scopes (scopes : list CompiledScope) (defaults : ResolvedDefaults) :
    list ResolvedScope * list Diagnostic :=
  match scopes with
  | [] => ([], [])
  | scope :: rest =>
      let others := resolve_scopes rest defaults in
      match resolveScope scope defaults with
      | Ok s => (s :: others.1, others.2)
      | Err e => (others.1, error e :: others.2)
      end
  end.

Definition resolve_defaults (config : AuthzConfig) : ResolvedDefaults :=
  let configDefaults := default empty_defaults (nc_defaults (ac_network config)) in
  {| rd_limits := mergeLimits LIMIT_CEILINGS (nd_limits configDefaults);
     rd_secrets := map_set_all DEFAULT_SECRET_DISPOSITIONS (default [] (nd_secrets configDefaults));
     rd_audit := default DEFAULT_AUDIT_MODE (nd_audit configDefaults) |}.

Definition resolveAuthzConfig (config : AuthzConfig) : option ResolveOutcome :=
  compiled ← compileAuthzConfig config;
  let diagnostics := co_diagnostics compiled in
  if has_error diagnostics then
    Some {| ro_document := None; ro_diagnostics := diagnostics |}
  else
    let defaults := resolve_defaults config in
    let '(resolved, faults) := resolve_scopes (co_scopes compiled) defaults in
    match faults with
    | _ :: _ => Some {| ro_document := None; ro_diagnostics := diagnostics ++ faults |}
    | [] =>
        match orderScopes resolved with
        | Err e => Some {| ro_document := None; ro_diagnostics := diagnostics ++ [error e] |}
        | Ok ordered =>
            Some {| ro_document := Some {|
                      doc_contractVersion := 1;
                      doc_fallback := default NetDeny (nc_fallback (ac_network config));
                      doc_defaults := defaults;
                      doc_scopes := ordered |};
                    ro_diagnostics := diagnostics |}
        end
    end.

(** ** Removal of literal injection text *)

Definition redactInject (inject : Inject) : Inject :=
  match parseInjectValue (inj_value inject) with
  | Err _ => {| inj_name := inj_name inject; inj_value := "literal:" |}
  | Ok (InjLiteral _) => {| inj_name := inj_name inject; inj_value := "literal:" |}
  | Ok (InjSecret name) => {| inj_name := inj_name inject; inj_value := "secret:" +:+ name |}
  | Ok (InjTemplate _ names) =>
      {| inj_name := inj_name inject;
         inj_value := "template:" +:+ join "" (map (λ name, "${" +:+ name +:+ "}") names) |}
  end.

Definition redact_rule (rule : ResolvedRule) : ResolvedRule := {|
  rr_id := rr_id rule; rr_key := rr_key rule; rr_precedes := rr_precedes rule;
  rr_match := rr_match rule; rr_onMatch := rr_onMatch rule;
  rr_onIndeterminate := rr_onIndeterminate rule; rr_expect := rr_expect rule;
  rr_limits := rr_limits rule; rr_secrets := rr_secrets rule;
  rr_inject := map redactInject (rr_inject rule); rr_audit := rr_audit rule |}.

Definition redact_scope (scope : ResolvedScope) : ResolvedScope := {|
  rs_name := rs_name scope; rs_targets := rs_targets scope; rs_fallback := rs_fallback scope;
  rs_webSocket := rs_webSocket scope; rs_fallbackRuleId := rs_fallbackRuleId scope;
  rs_limits := rs_limits scope; rs_secrets := rs_secrets scope;
  rs_inject := map redactInject (rs_inject scope); rs_audit := rs_audit scope;
  rs_rules := map redact_rule (rs_rules scope) |}.

Definition withoutInjectLiterals (document : ResolvedDocument) : ResolvedDocument := {|
  doc_contractVersion := doc_contractVersion document;
  doc_fallback := doc_fallback document;
  doc_defaults := doc_defaults document;
  doc_scopes := map redact_scope (doc_scopes document) |}.

(** Rebuilding the body condition of a resolved match. *)
Definition resolvedBodyMatch (match_ : ResolvedMatch) : option BodyMatch :=
  match rm_bodyFormat match_ with
  | None => None
  | Some format => Some {|
      bm_format := format;
      bm_equals := Some (rm_equals match_);
      bm_oneOf := Some (rm_oneOf match_);
      bm_graphql := (λ g, {| gm_at := Some (rg_at g); gm_operations := rg_operations g;
                             gm_fieldPaths := Some (rg_fieldPaths g);
                             gm_fieldArguments := Some (rg_fieldArguments g);
                             gm_unknownKeys := [] |}) <$> rm_graphql match_ |}
  end.
