(* ===== verification/Decide.v ===== *)
(** * Deciding one request (network/authz/resolve.ts, second half)

    Selection of the scope, collection and ordering of the candidate rules, and
    the decision.  [None] is a thrown error: candidates that cannot be ordered,
    or a body condition evaluated on a request without a body. *)
From S2P Require Import Prelude JsString Json Containment AuthzTypes Pattern Relation Selection.
From S2P Require Import Semantics MatchLaws Targets Specificity AuthzConfig Witness Validate.
From S2P Require Import Compile Resolve.

(** `RequestTransport` of network/protocol.ts. *)
Inductive RequestTransport : Type := TransportHttp | TransportWebsocket.
#[export] Instance RequestTransport_eq_dec : EqDecision RequestTransport.
Proof. solve_decision. Defined.

Record DecisionRequest : Type := {
  dr_method : string;
  dr_path : string;
  dr_body : option RequestBody;
  dr_transport : option RequestTransport;
}.

Inductive DecisionReason : Type :=
  | ReasonRule | ReasonIndeterminate | ReasonScopeFallback | ReasonNetworkFallback
  | ReasonWebsocketDenied.
#[export] Instance DecisionReason_eq_dec : EqDecision DecisionReason.
Proof. solve_decision. Defined.

Record Decision : Type := {
  dec_action : Action;
  dec_ruleId : string;
  dec_reason : DecisionReason;
  dec_scope : option ResolvedScope;
  dec_rule : option ResolvedRule;
  dec_expect : list ResolvedExpect;
  dec_inject : list Inject;
  dec_secrets : list (string * SecretDisposition);
  dec_limits : ResolvedLimits;
  dec_audit : AuditMode;
}.

Definition scopeMatchesAddress (scope : ResolvedScope) (address : TargetAddress) : bool :=
  existsb (λ target, targetMatches target address) (rs_targets scope).

Definition select_step (address : TargetAddress) (best : option ResolvedScope)
    (scope : ResolvedScope) : option ResolvedScope :=
  if negb (scopeMatchesAddress scope address) then best
  else match best with
       | None => Some scope
       | Some b =>
           if bool_decide (compareTargetSpecificity (rs_targets scope) (rs_targets b) = Narrower)
           then Some scope else best
       end.

Definition selectScope (document : ResolvedDocument) (address : TargetAddress) :
    option ResolvedScope :=
  fold_left (select_step address) (doc_scopes document) None.

Definition pathForSelection (path : string) : string :=
  match indexOf path "?" with
  | None => path
  | Some query => take_str query path
  end.

Definition isCandidate (match_ : ResolvedMatch) (method path : string) : bool :=
  match rm_methods match_ with
  | Some methods => includes methods method
  | None => true
  end && existsb (λ pattern, compiledPathMatches pattern path) (rm_paths match_).

Definition candidates (scope : ResolvedScope) (request : DecisionRequest) : list ResolvedRule :=
  let path := pathForSelection (dr_path request) in
  List.filter (λ rule, isCandidate (rr_match rule) (dr_method request) path) (rs_rules scope).

Definition orderedCandidates (scope : ResolvedScope) (request : DecisionRequest) :
    option (list ResolvedRule) :=
  let candidates := candidates scope request in
  if (length candidates <? 2)%nat then Some candidates
  else match precedenceOrder candidates (λ a b _ _, rule_precedes a b) with
       | Ordered ordered => Some ordered
       | Cyclic _ => None
       end.

(** The default leaf predicate. *)
Definition default_leaf (request : DecisionRequest) (rule : ResolvedRule) : option Truth :=
  let condition := normalizeBody (resolvedBodyMatch (rr_match rule)) in
  match dr_body request with
  | Some body => Some (evaluateBody condition body (dr_path request))
  | None => match nb_format condition with None => Some TTrue | Some _ => None end
  end.

Definition fromRule (scope : ResolvedScope) (rule : ResolvedRule) (action : Action)
    (reason : DecisionReason) (expect : list ResolvedExpect) : Decision := {|
  dec_action := action;
  dec_ruleId := rr_id rule;
  dec_reason := reason;
  dec_scope := Some scope;
  dec_rule := Some rule;
  dec_expect := expect;
  dec_inject := rr_inject rule;
  dec_secrets := rr_secrets rule;
  dec_limits := rr_limits rule;
  dec_audit := rr_audit rule;
|}.

Definition from_defaults (document : ResolvedDocument) (action : Action)
    (reason : DecisionReason) : Decision := {|
  dec_action := action;
  dec_ruleId := FALLBACK_RULE_KEY;
  dec_reason := reason;
  dec_scope := None;
  dec_rule := None;
  dec_expect := [];
  dec_inject := [];
  dec_secrets := rd_secrets (doc_defaults document);
  dec_limits := rd_limits (doc_defaults document);
  dec_audit := rd_audit (doc_defaults document);
|}.

Definition from_scope (scope : ResolvedScope) (action : Action) (reason : DecisionReason)
    (inject : list Inject) : Decision := {|
  dec_action := action;
  dec_ruleId := rs_fallbackRuleId scope;
  dec_reason := reason;
  dec_scope := Some scope;
  dec_rule := None;
  dec_expect := [];
  dec_inject := inject;
  dec_secrets := rs_secrets scope;
  dec_limits := rs_limits scope;
  dec_audit := rs_audit scope;
|}.

(** The loop over the ordered candidates. *)
Fixpoint decide_rules (scope : ResolvedScope) (leaf : ResolvedRule → option Truth)
    (rules : list ResolvedRule) : option Decision :=
  match rules with
  | [] => Some (from_scope scope (rs_fallback scope) ReasonScopeFallback (rs_inject scope))
  | rule :: rest =>
      truth ← leaf rule;
      match truth with
      | TFalse => decide_rules scope leaf rest
      | TTrue => Some (fromRule scope rule (rr_onMatch rule) ReasonRule (rr_expect rule))
      | TIndeterminate =>
          Some (fromRule scope rule (IndeterminateAction_action (rr_onIndeterminate rule))
                  ReasonIndeterminate [])
      end
  end.

Definition decide_scope (scope : ResolvedScope) (request : DecisionRequest)
    (leaf : ResolvedRule → option Truth) : option Decision :=
  rules ← orderedCandidates scope request;
  decide_rules scope leaf rules.

Definition decide_with (document : ResolvedDocument) (address : TargetAddress)
    (request : DecisionRequest) (leaf : ResolvedRule → option Truth) : option Decision :=
  let scope := selectScope document address in
  let websocket := bool_decide (dr_transport request = Some TransportWebsocket) in
  match scope with
  | None =>
      Some (if websocket then from_defaults document Deny ReasonWebsocketDenied
            else from_defaults document (NetworkFallback_action (doc_fallback document))
                   ReasonNetworkFallback)
  | Some scope =>
      if websocket && negb (bool_decide (rs_webSocket scope = WsAllow))
      then Some (from_scope scope Deny ReasonWebsocketDenied [])
      else decide_scope scope request leaf
  end.

Definition decide (document : ResolvedDocument) (address : TargetAddress)
    (request : DecisionRequest) : option Decision :=
  decide_with document address request (default_leaf request).
