(* ===== verification/Samples.v ===== *)
(** * A sample configuration

    A configuration with nested scopes, a narrow "deny" rule under a wide "allow"
    rule, a GraphQL rule with an injected header and budgets at every level, and
    its resolved document.  The witnesses of the properties evaluate on it. *)
From S2P Require Import Prelude JsString Json Containment AuthzTypes Pattern Relation Selection.
From S2P Require Import Semantics MatchLaws Targets Specificity AuthzConfig Witness Validate.
From S2P Require Import Compile Resolve Decide.

Definition plain_rule (methods : option (list string)) (paths : list string) (onMatch : Action) :
    RuleConfig := {|
  rc_match := {| m_methods := methods; m_paths := paths; m_captures := None; m_body := None |};
  rc_onMatch := onMatch; rc_onIndeterminate := None; rc_expect := None; rc_limits := None;
  rc_secrets := None; rc_inject := None; rc_audit := None; rc_overrides := None |}.

Definition sample_graphql : RuleConfig := {|
  rc_match := {|
    m_methods := Some ["post"]; m_paths := ["/graphql"]; m_captures := None;
    m_body := Some {| bm_format := FmtJson; bm_equals := Some [("/operationName", ScString "Viewer")];
      bm_oneOf := Some [("/version", [ScNumber (of_Z 1); ScNumber (of_Z 2)])];
      bm_graphql := Some {| gm_at := None; gm_operations := [OpQuery];
        gm_fieldPaths := Some ["/viewer/login"]; gm_fieldArguments := Some [("/viewer", [("first", ["1"])])];
        gm_unknownKeys := [] |} |} |};
  rc_onMatch := Allow; rc_onIndeterminate := Some IndReview;
  rc_expect := Some [{| ex_shape := JsonRoot RootObject; ex_onViolation := Some VioAllow |}];
  rc_limits := Some {| l_maxBodyBytes := Some 1024%Z; l_maxDepth := None; l_maxNodes := Some 10%Z;
                       l_maxSelectorExpansions := None |};
  rc_secrets := Some [("token", DispInject)];
  rc_inject := Some [{| inj_name := "authorization"; inj_value := "template:Bearer ${token}" |}];
  rc_audit := Some AuditAlways; rc_overrides := None |}.

Definition sample_api : ScopeConfig := {|
  so_targets := ["API.example.com:443"; "*.api.example.com:443"];
  so_fallback := Some Review; so_webSocket := Some WsAllow;
  so_limits := Some {| l_maxBodyBytes := Some 4096%Z; l_maxDepth := Some 8%Z; l_maxNodes := None;
                       l_maxSelectorExpansions := None |};
  so_secrets := None;
  so_inject := Some [{| inj_name := "x-client"; inj_value := "literal:nas" |}];
  so_audit := None;
  so_rules := Some [("read", plain_rule (Some ["get"]) ["/repos/**"] Allow);
                    ("hide", plain_rule (Some ["GET"]) ["/repos/{org}/secrets/**"] Deny);
                    ("graphql", sample_graphql)] |}.

Definition sample_wide : ScopeConfig := {|
  so_targets := ["*.example.com"];
  so_fallback := Some Allow; so_webSocket := None; so_limits := None; so_secrets := None;
  so_inject := None; so_audit := Some AuditOff;
  so_rules := Some [("all", plain_rule None ["/**"] Review)] |}.

Definition sample_config : AuthzConfig := {|
  ac_secrets := Some [("token", {| sc_from := "env:TOKEN"; sc_required := None |})];
  ac_mask := None;
  ac_network := {|
    nc_scopes := [("wide", sample_wide); ("api", sample_api)];
    nc_fallback := Some NetReview;
    nc_defaults := Some {| nd_limits := Some {| l_maxBodyBytes := Some 65536%Z; l_maxDepth := None;
                             l_maxNodes := None; l_maxSelectorExpansions := None |};
                           nd_secrets := None; nd_audit := Some AuditAlways |} |} |}.

Definition no_outcome : ResolveOutcome := {| ro_document := None; ro_diagnostics := [] |}.
Definition no_document : ResolvedDocument := {|
  doc_contractVersion := 1; doc_fallback := NetDeny;
  doc_defaults := {| rd_limits := LIMIT_CEILINGS; rd_secrets := []; rd_audit := AuditAlways |};
  doc_scopes := [] |}.

Definition sample_compiled : CompileOutcome := Eval vm_compute in
  default {| co_scopes := []; co_diagnostics := [] |} (compileAuthzConfig sample_config).
Definition sample_outcome : ResolveOutcome := Eval vm_compute in
  default no_outcome (resolveAuthzConfig sample_config).
Definition sample_document : ResolvedDocument := Eval vm_compute in
  default no_document (ro_document sample_outcome).

Lemma sample_resolves : resolveAuthzConfig sample_config = Some sample_outcome.
Proof. vm_compute. reflexivity. Defined.
Lemma sample_has_document : ro_document sample_outcome = Some sample_document.
Proof. vm_compute. reflexivity. Defined.
Lemma sample_compiles : compileAuthzConfig sample_config = Some sample_compiled.
Proof. vm_compute. reflexivity. Defined.
Lemma sample_valid : has_error (co_diagnostics sample_compiled) = false.
Proof. vm_compute. reflexivity. Defined.

Example sample_scope_order : map rs_name (doc_scopes sample_document) = ["api"; "wide"].
Proof. reflexivity. Qed.

Definition sample_address : TargetAddress := {| ta_host := "api.example.com"; ta_port := 443 |}.

Definition sample_request (method path : string) (body : RequestBody) : DecisionRequest := {|
  dr_method := method; dr_path := path; dr_body := Some body; dr_transport := None |}.

Definition sample_scope : ResolvedScope := Eval vm_compute in
  match selectScope sample_document sample_address with
  | Some s => s
  | None => {| rs_name := ""; rs_targets := []; rs_fallback := Deny; rs_webSocket := WsDeny;
               rs_fallbackRuleId := ""; rs_limits := LIMIT_CEILINGS; rs_secrets := [];
               rs_inject := []; rs_audit := AuditAlways; rs_rules := [] |}
  end.
