(* ===== verification/ResolveLaws.v ===== *)
(** * What a resolved document satisfies

    Facts on the compilation, resolution and ordering of a configuration that
    the properties of the decision share: where the scopes and rules of a
    resolved document come from, that its scopes are nested wherever they
    overlap, and that its precedence relation is the one of the configuration. *)
From S2P Require Import Prelude JsString Json Containment AuthzTypes Pattern Relation Selection.
From S2P Require Import Semantics MatchLaws Targets Specificity AuthzConfig Witness Validate.
From S2P Require Import Compile CompileLaws Resolve.

(** ** Pairs at distinct positions *)

Definition pairwise {A} (R : A → A → Prop) (l : list A) : Prop :=
  ∀ i j a b, i ≠ j → l !! i = Some a → l !! j = Some b → R a b.

Lemma orders_lookup {T} (items : list T) indices l k x :
  orders items indices l → l !! k = Some x →
  ∃ i, indices !! k = Some i ∧ items !! i = Some x.
Proof.
  intros [Hp ->]. rewrite items_at_lookup.
  - destruct (indices !! k) as [i|]; simpl; [eauto|done].
  - intros i Hi. apply (Permutation_in _ Hp), in_seq in Hi. lia.
Qed.

Lemma orders_NoDup {T} (items : list T) indices l : orders items indices l → List.NoDup indices.
Proof. intros [Hp _]. eapply Permutation_NoDup; [symmetry; exact Hp|apply seq_NoDup]. Qed.

Lemma pairwise_orders {T} (R : T → T → Prop) items indices l :
  orders items indices l → pairwise R items → pairwise R l.
Proof.
  intros Ho HR k m a b Hne Ha Hb.
  destruct (orders_lookup _ _ _ _ _ Ho Ha) as (i & Hi & Ha').
  destruct (orders_lookup _ _ _ _ _ Ho Hb) as (j & Hj & Hb').
  apply (HR i j); [|done..]. intros ->. apply Hne.
  apply orders_NoDup in Ho. rewrite <- NoDup_ListNoDup in Ho. by eapply NoDup_lookup.
Qed.

Lemma orders_In {T} (items : list T) indices l :
  orders items indices l → ∀ x, In x l ↔ In x items.
Proof.
  intros Ho x. split.
  - intros [k Hk]%list_elem_of_In%list_elem_of_lookup.
    destruct (orders_lookup _ _ _ _ _ Ho Hk) as (i & _ & Hi).
    apply list_elem_of_In, list_elem_of_lookup. eauto.
  - intros [i Hi]%list_elem_of_In%list_elem_of_lookup. destruct Ho as [Hp ->].
    unfold items_at. apply list_elem_of_In, list_elem_of_omap. exists i. split; [|done].
    apply list_elem_of_In, (Permutation_in _ (Permutation_sym Hp)), in_seq.
    apply lookup_lt_Some in Hi. lia.
Qed.

Lemma precedenceOrder_In {T} (items : list T) precedes l :
  precedenceOrder items precedes = Ordered l → ∀ x, In x l ↔ In x items.
Proof. intros (indices & Ho & _)%precedenceOrder_Ordered. by eapply orders_In. Qed.

Lemma precedenceOrder_pairwise {T} (R : T → T → Prop) items precedes l :
  precedenceOrder items precedes = Ordered l → pairwise R items → pairwise R l.
Proof. intros (indices & Ho & _)%precedenceOrder_Ordered. by eapply pairwise_orders. Qed.

Lemma NoDup_pairwise {A B} (f : A → B) l :
  List.NoDup (map f l) → pairwise (λ a b, f a ≠ f b) l.
Proof.
  rewrite <- NoDup_ListNoDup. intros Hnd i j a b Hne Ha Hb Hf. apply Hne.
  eapply (NoDup_lookup (map f l)); [done| |]; change (map f l) with (f <$> l);
    rewrite list_lookup_fmap; [rewrite Ha|rewrite Hb]; simpl; by f_equal.
Qed.

(** ** From the compiled scopes to the document *)

Lemma resolve_scopes_Forall2 defaults cs : ∀ rs,
  resolve_scopes cs defaults = (rs, []) →
  Forall2 (λ c r, resolveScope c defaults = Ok r) cs rs.
Proof.
  induction cs as [|c cs IH]; intros rs; simpl; [intros [= <-]; constructor|].
  destruct (resolve_scopes cs defaults) as [others faults].
  destruct (resolveScope c defaults) eqn:E; simpl; [|done].
  intros [= <- ->]. constructor; auto.
Qed.

Lemma resolveAuthzConfig_document config outcome document :
  resolveAuthzConfig config = Some outcome → ro_document outcome = Some document →
  ∃ compiled resolved,
    compileAuthzConfig config = Some compiled ∧ has_error (co_diagnostics compiled) = false ∧
    Forall2 (λ c r, resolveScope c (resolve_defaults config) = Ok r) (co_scopes compiled) resolved ∧
    orderScopes resolved = Ok (doc_scopes document) ∧
    doc_defaults document = resolve_defaults config ∧
    doc_fallback document = default NetDeny (nc_fallback (ac_network config)).
Proof.
  unfold resolveAuthzConfig. destruct (compileAuthzConfig config) as [compiled|]; [|done].
  cbn [mbind option_bind]. destruct (has_error (co_diagnostics compiled)) eqn:He.
  { intros [= <-]. done. }
  destruct (resolve_scopes _ _) as [resolved [|f fs]] eqn:Er; [|by intros [= <-]].
  destruct (orderScopes resolved) as [ordered|e] eqn:Eo; [|by intros [= <-]].
  intros [= <-]. cbn [ro_document]. intros [= <-].
  exists compiled, resolved. split_and!; try done. by apply resolve_scopes_Forall2.
Qed.

Lemma orderScopes_Ok scopes l :
  orderScopes scopes = Ok l → precedenceOrder scopes (λ a b _ _, scope_precedes a b) = Ordered l.
Proof. unfold orderScopes. destruct (precedenceOrder _ _); congruence. Qed.

(** What [resolveScope] leaves in the resolved scope. *)
Lemma resolveScope_Ok c defaults s :
  resolveScope c defaults = Ok s →
  rs_name s = cs_name c ∧ rs_targets s = cs_targets c ∧
  rs_limits s = mergeLimits (rd_limits defaults) (so_limits (cs_config c)) ∧
  rs_secrets s = cs_dispositions c ∧
  rs_rules s = zip_with (λ rule edges, resolveRule rule edges
      {| inh_limits := rs_limits s; inh_secrets := rs_secrets s; inh_audit := rs_audit s;
         inh_inject := rs_inject s |}) (cs_rules c) (precedenceEdges (cs_rules c)) ∧
  (∃ o, precedenceOrder (rs_rules s) (λ a b _ _, rule_precedes a b) = Ordered o).
Proof.
  unfold resolveScope, precedenceCycle.
  destruct (precedenceOrder _ _) as [o|] eqn:E; intros [= <-]; simpl.
  split_and!; try done. exists o. exact E.
Qed.

(** ** Effective ids *)

Lemma valid_ids_NoDup scopes :
  has_error (checkEffectiveIdCollisions scopes) = false →
  List.NoDup (map id_id (idDeclarations scopes)).
Proof. intros H. by apply id_fold_unique in H as [? _]. Qed.

(** An element of a duplicate-free concatenation belongs to one part only. *)
Lemma NoDup_flat_map_position {A B} (f : A → list B) l : ∀ p q a b x,
  List.NoDup (flat_map f l) → l !! p = Some a → l !! q = Some b →
  In x (f a) → In x (f b) → p = q.
Proof.
  assert (∀ a p (l : list A) x, l !! p = Some a → In x (f a) → In x (flat_map f l)) as Hin.
  { intros a p l0 x Hp Hx. apply in_flat_map. exists a. split; [|done].
    apply list_elem_of_In, list_elem_of_lookup. eauto. }
  induction l as [|y l IH]; intros [|p] [|q] a b x Hnd Hp Hq Ha Hb; simplify_eq/=; [done|..];
    apply NoDup_ListNoDup, NoDup_app in Hnd as (Hy & Hd & Hl).
  - destruct (Hd x); apply list_elem_of_In; [done|by eapply Hin].
  - destruct (Hd x); apply list_elem_of_In; [done|by eapply Hin].
  - f_equal. eapply IH; try done. by apply NoDup_ListNoDup.
Qed.

(** The ids one scope declares. *)
Definition scope_ids (scope : CompiledScope) : list string :=
  fallbackRuleId (cs_name scope) :: map cr_id (cs_rules scope).

Lemma idDeclarations_ids scopes :
  map id_id (idDeclarations scopes) = flat_map scope_ids scopes.
Proof.
  induction scopes as [|c scopes IH]; [done|].
  cbn [flat_map]. rewrite <- IH. unfold idDeclarations. cbn [flat_map].
  rewrite map_app. simpl. by rewrite map_map.
Qed.

(** An effective id names one position of one scope. *)
Lemma effective_id_position scopes p q c c' i j a b :
  has_error (checkEffectiveIdCollisions scopes) = false →
  scopes !! p = Some c → scopes !! q = Some c' →
  cs_rules c !! i = Some a → cs_rules c' !! j = Some b → cr_id a = cr_id b →
  p = q ∧ i = j ∧ c = c'.
Proof.
  intros Hv%valid_ids_NoDup Hp Hq Ha Hb Hid. rewrite idDeclarations_ids in Hv.
  assert (∀ (c : CompiledScope) i a, cs_rules c !! i = Some a → In (cr_id a) (scope_ids c)) as Hin.
  { intros c0 k x Hk. right. apply in_map, list_elem_of_In, list_elem_of_lookup. eauto. }
  assert (p = q) as <-.
  { eapply (NoDup_flat_map_position scope_ids); [exact Hv|exact Hp|exact Hq|..];
      [by eapply Hin|rewrite Hid; by eapply Hin]. }
  assert (c' = c) as -> by congruence. split_and!; [done| |done].
  destruct (Nat.eq_dec i j) as [|Hij]; [done|exfalso].
  assert (List.NoDup (map cr_id (cs_rules c))) as Hc.
  { apply take_drop_middle in Hp. rewrite <- Hp, flat_map_app in Hv.
    apply List.NoDup_app_remove_l in Hv. cbn [flat_map] in Hv.
    apply List.NoDup_app_remove_r in Hv. by inversion Hv. }
  by apply (NoDup_pairwise cr_id _ Hc i j a b Hij Ha Hb).
Qed.

Lemma effective_id_not_fallback scopes c c' j b :
  has_error (checkEffectiveIdCollisions scopes) = false →
  In c scopes → In c' scopes → cs_rules c' !! j = Some b →
  fallbackRuleId (cs_name c) ≠ cr_id b.
Proof.
  intros Hv%valid_ids_NoDup [p Hp]%list_elem_of_In%list_elem_of_lookup
    [q Hq]%list_elem_of_In%list_elem_of_lookup Hb Hid.
  rewrite idDeclarations_ids in Hv.
  assert (In (cr_id b) (map cr_id (cs_rules c'))) as Hin.
  { apply in_map, list_elem_of_In, list_elem_of_lookup. eauto. }
  assert (p = q) as <-.
  { apply (NoDup_flat_map_position scope_ids scopes p q c c' (fallbackRuleId (cs_name c)) Hv Hp Hq); [by left|].
    right. by rewrite <- Hid in Hin. }
  assert (c' = c) as -> by congruence.
  apply take_drop_middle in Hp. rewrite <- Hp, flat_map_app in Hv.
  apply List.NoDup_app_remove_l in Hv. cbn [flat_map] in Hv.
  apply List.NoDup_app_remove_r in Hv. inversion Hv as [|? ? Hn]. subst. rewrite <- Hid in Hin. done.
Qed.

(** The rules of one scope have distinct keys. *)
Lemma scope_keys_NoDup scopes scope context entry :
  has_error (checkEffectiveIdCollisions scopes) = false → In scope scopes →
  scope_compiled context entry scope → List.NoDup (map cr_key (cs_rules scope)).
Proof.
  intros Hv%valid_ids_NoDup Hin Hc. rewrite idDeclarations_ids in Hv.
  assert (List.NoDup (map cr_id (cs_rules scope))) as Hids.
  { apply in_split in Hin as (l1 & l2 & ->). rewrite flat_map_app in Hv.
    apply List.NoDup_app_remove_l in Hv. cbn [flat_map] in Hv.
    apply List.NoDup_app_remove_r in Hv. by inversion Hv. }
  assert (map cr_id (cs_rules scope) =
          map (λ k, entry.1 +:+ "." +:+ k) (map cr_key (cs_rules scope))) as Heq.
  { rewrite map_map. apply map_ext_in. intros r Hr.
    pose proof (scope_rules _ _ _ Hc) as HF.
    apply list_elem_of_In, list_elem_of_lookup in Hr as [i Hi].
    destruct (Forall2_lookup_r _ _ _ _ _ HF Hi) as (e & _ & He).
    by rewrite (rule_id _ _ _ _ _ _ _ He), (rule_key _ _ _ _ _ _ _ He). }
  rewrite Heq in Hids. by apply NoDup_map_inv in Hids.
Qed.

(** ** Rules and their precedence *)

Lemma In_imap_pair {A} (l : list A) j b : In (j, b) (imap pair l) ↔ l !! j = Some b.
Proof.
  rewrite <- list_elem_of_In, list_elem_of_lookup. setoid_rewrite list_lookup_imap.
  split.
  - intros [k Hk]. destruct (l !! k) eqn:E; by simplify_eq/=.
  - intros H. exists j. by rewrite H.
Qed.

Lemma precedenceEdges_lookup rules i a :
  rules !! i = Some a →
  ∃ edges, precedenceEdges rules !! i = Some edges ∧
    ∀ key, In key edges ↔
      ∃ j b, j ≠ i ∧ rules !! j = Some b ∧ cr_key b = key ∧ rulePrecedes a b = true.
Proof.
  intros Ha. unfold precedenceEdges. rewrite list_lookup_imap, Ha. simpl.
  eexists. split; [done|]. intros key. rewrite in_map_iff. split.
  - intros ([j b] & <- & Hin). apply filter_In in Hin as [Hin Hp].
    apply In_imap_pair in Hin. apply andb_true_iff in Hp as [Hj Hp].
    apply negb_true_iff, Nat.eqb_neq in Hj. eauto 10.
  - intros (j & b & Hj & Hb & <- & Hp). exists (j, b). split; [done|]. apply filter_In.
    split; [by apply In_imap_pair|]. rewrite Hp, andb_true_r. by apply negb_true_iff, Nat.eqb_neq.
Qed.

(** The rule at a position of a resolved scope is resolved from the one at that
    position of the compiled scope. *)
Lemma resolveScope_rule c defaults s i r :
  resolveScope c defaults = Ok s → rs_rules s !! i = Some r →
  ∃ cr edges, cs_rules c !! i = Some cr ∧ precedenceEdges (cs_rules c) !! i = Some edges ∧
    r = resolveRule cr edges {| inh_limits := rs_limits s; inh_secrets := rs_secrets s;
                                inh_audit := rs_audit s; inh_inject := rs_inject s |}.
Proof.
  intros (_ & _ & _ & _ & -> & _)%resolveScope_Ok. rewrite lookup_zip_with.
  destruct (cs_rules c !! i) as [cr|]; [|done]. simpl.
  destruct (precedenceEdges (cs_rules c) !! i) as [edges|]; [|done]. simpl.
  intros [= <-]. eauto.
Qed.

Lemma resolveScope_rule_lookup c defaults s i cr :
  resolveScope c defaults = Ok s → cs_rules c !! i = Some cr →
  ∃ r, rs_rules s !! i = Some r ∧ rr_id r = cr_id cr ∧ rr_key r = cr_key cr.
Proof.
  intros (_ & _ & _ & _ & -> & _)%resolveScope_Ok Hi. rewrite lookup_zip_with, Hi. simpl.
  destruct (precedenceEdges_lookup _ _ _ Hi) as (edges & -> & _). simpl. eauto.
Qed.

(** On distinct positions the keys stored in the resolved rules decide exactly
    the precedence of the configured ones. *)
Lemma rule_precedes_iff c defaults s i j ra rb ca cb :
  List.NoDup (map cr_key (cs_rules c)) →
  resolveScope c defaults = Ok s → i ≠ j →
  rs_rules s !! i = Some ra → rs_rules s !! j = Some rb →
  cs_rules c !! i = Some ca → cs_rules c !! j = Some cb →
  rule_precedes ra rb = rulePrecedes ca cb.
Proof.
  intros Hnd Hs Hij Ha Hb Hca Hcb.
  destruct (resolveScope_rule _ _ _ _ _ Hs Ha) as (ca' & edges & ? & He & ->). simplify_eq.
  destruct (resolveScope_rule _ _ _ _ _ Hs Hb) as (cb' & ? & ? & _ & ->). simplify_eq.
  destruct (precedenceEdges_lookup _ _ _ Hca) as (edges' & ? & Hiff). simplify_eq.
  unfold rule_precedes. cbn [rr_precedes rr_key resolveRule].
  apply eq_true_iff_eq. rewrite includes_In, Hiff. split.
  - intros (k & b & Hki & Hk & Hkey & Hp).
    assert (k = j) as ->; [|by simplify_eq].
    destruct (decide (k = j)) as [|Hne]; [done|].
    by destruct (NoDup_pairwise cr_key _ Hnd k j b cb Hne Hk Hcb).
  - intros Hp. exists j, cb. auto.
Qed.

(** ** Scopes of a document *)

(** Scopes that overlap are nested: one holds strictly fewer addresses. *)
Definition nested (a b : ResolvedScope) : Prop :=
  targetSetsIntersect (rs_targets a) (rs_targets b) = true →
  compareTargetSpecificity (rs_targets a) (rs_targets b) = Narrower ∨
  compareTargetSpecificity (rs_targets b) (rs_targets a) = Narrower.

Lemma compareTargetSpecificity_flip a b :
  compareTargetSpecificity a b = Wider ↔ compareTargetSpecificity b a = Narrower.
Proof. unfold compareTargetSpecificity. by destruct (targetSetsSubsume a b), (targetSetsSubsume b a). Qed.

Lemma targetSetsIntersect_sym a b : targetSetsIntersect a b = targetSetsIntersect b a.
Proof.
  assert (∀ x y, targetsIntersect x y = targetsIntersect y x) as Hsym.
  { intros x y. unfold targetsIntersect. rewrite hostPatternsIntersect_sym. f_equal.
    destruct (t_port x), (t_port y); simpl; try done. apply Z.eqb_sym. }
  apply eq_true_iff_eq. unfold targetSetsIntersect. rewrite !existsb_exists.
  setoid_rewrite existsb_exists. setoid_rewrite Hsym at 1. naive_solver.
Qed.

Lemma compiled_nested scopes :
  has_error (checkScopeOverlaps scopes) = false →
  pairwise (λ a b, targetSetsIntersect (cs_targets a) (cs_targets b) = true →
    compareTargetSpecificity (cs_targets a) (cs_targets b) = Narrower ∨
    compareTargetSpecificity (cs_targets b) (cs_targets a) = Narrower) scopes.
Proof.
  intros Hv i j a b Hij Ha Hb Hi. destruct (decide (i < j)%nat).
  - destruct (scope_pair_valid scopes i j a b) as [?|?%compareTargetSpecificity_flip]; auto.
  - rewrite targetSetsIntersect_sym in Hi.
    destruct (scope_pair_valid scopes j i b a) as [?|?%compareTargetSpecificity_flip]; auto. lia.
Qed.

(** Where a scope of a resolved document comes from. *)
Record scope_origin (config : AuthzConfig) (compiled : CompileOutcome) (s : ResolvedScope)
    (entry : string * ScopeConfig) (c : CompiledScope) : Prop := {
  origin_entry : In entry (nc_scopes (ac_network config));
  origin_scope : In c (co_scopes compiled);
  origin_compiled : scope_compiled (config_context config) entry c;
  origin_resolved : resolveScope c (resolve_defaults config) = Ok s;
  origin_keys : List.NoDup (map cr_key (cs_rules c));
}.

Lemma document_scopes config outcome document :
  resolveAuthzConfig config = Some outcome → ro_document outcome = Some document →
  ∃ compiled, compileAuthzConfig config = Some compiled ∧
    no_error (co_diagnostics compiled) ∧ valid_outcome (co_scopes compiled) ∧
    pairwise nested (doc_scopes document) ∧
    (∀ s, In s (doc_scopes document) → ∃ entry c, scope_origin config compiled s entry c) ∧
    (∀ entry, In entry (nc_scopes (ac_network config)) →
       ∃ s c, In s (doc_scopes document) ∧ scope_origin config compiled s entry c) ∧
    (∀ c, In c (co_scopes compiled) →
       ∃ s entry, In s (doc_scopes document) ∧ scope_origin config compiled s entry c) ∧
    doc_defaults document = resolve_defaults config ∧
    doc_fallback document = default NetDeny (nc_fallback (ac_network config)).
Proof.
  intros Hr Hd.
  destruct (resolveAuthzConfig_document _ _ _ Hr Hd)
    as (compiled & resolved & Hc & He & HF & Ho & ? & ?).
  apply orderScopes_Ok in Ho. pose proof (compileAuthzConfig_valid _ _ Hc He) as Hv.
  destruct (compileAuthzConfig_scopes _ _ Hc He) as [_ HC].
  assert (∀ i c s entry, co_scopes compiled !! i = Some c → resolved !! i = Some s →
    nc_scopes (ac_network config) !! i = Some entry → scope_origin config compiled s entry c) as Horig.
  { intros i c s entry Hic His Hie.
    assert (In c (co_scopes compiled)) by (apply list_elem_of_In, list_elem_of_lookup; eauto).
    pose proof (Forall2_lookup_lr _ _ _ _ _ _ HC Hie Hic).
    split; try done; [apply list_elem_of_In, list_elem_of_lookup; eauto| |].
    - by eapply (Forall2_lookup_lr _ _ _ _ _ _ HF).
    - by eapply scope_keys_NoDup; [apply (valid_ids _ Hv)|..]. }
  exists compiled. split_and!; try done.
  - eapply precedenceOrder_pairwise; [exact Ho|]. intros i j a b Hij Ha Hb.
    destruct (Forall2_lookup_r _ _ _ _ _ HF Ha) as (ca & Hca & Ea).
    destruct (Forall2_lookup_r _ _ _ _ _ HF Hb) as (cb & Hcb & Eb).
    apply resolveScope_Ok in Ea as (_ & Ea & _), Eb as (_ & Eb & _).
    unfold nested. rewrite Ea, Eb. by eapply compiled_nested; [apply (valid_scopes _ Hv)|..].
  - intros s [i Hi]%(precedenceOrder_In _ _ _ Ho)%list_elem_of_In%list_elem_of_lookup.
    destruct (Forall2_lookup_r _ _ _ _ _ HF Hi) as (c & Hic & _).
    destruct (Forall2_lookup_r _ _ _ _ _ HC Hic) as (entry & Hie & _). eauto.
  - intros entry [i Hi]%list_elem_of_In%list_elem_of_lookup.
    destruct (Forall2_lookup_l _ _ _ _ _ HC Hi) as (c & Hic & _).
    destruct (Forall2_lookup_l _ _ _ _ _ HF Hic) as (s & His & _).
    exists s, c. split; [|eauto]. apply (precedenceOrder_In _ _ _ Ho).
    apply list_elem_of_In, list_elem_of_lookup. eauto.
  - intros c [i Hic]%list_elem_of_In%list_elem_of_lookup.
    destruct (Forall2_lookup_r _ _ _ _ _ HC Hic) as (entry & Hie & _).
    destruct (Forall2_lookup_l _ _ _ _ _ HF Hic) as (s & His & _).
    exists s, entry. split; [|eauto]. apply (precedenceOrder_In _ _ _ Ho).
    apply list_elem_of_In, list_elem_of_lookup. eauto.
Qed.

(** ** The body condition survives the round trip through the document *)

Lemma unique_idem {A} `{EqDecision A} (l : list A) : unique (unique l) = unique l.
Proof. apply unique_id, unique_NoDup. Qed.

Lemma normalizeGraphql_resolved g :
  normalizeGraphql {| gm_at := Some (ng_at (normalizeGraphql g));
    gm_operations := ng_operations (normalizeGraphql g);
    gm_fieldPaths := Some (ng_fieldPaths (normalizeGraphql g));
    gm_fieldArguments := Some (ng_fieldArguments (normalizeGraphql g));
    gm_unknownKeys := [] |} = normalizeGraphql g.
Proof.
  unfold normalizeGraphql. simpl. rewrite !unique_idem. f_equal.
  rewrite map_map. apply map_ext. intros [path args]. f_equal.
  rewrite map_map. apply map_ext. intros [name values]. f_equal. apply unique_idem.
Qed.

Lemma resolvedBodyMatch_normalized m c :
  compileMatch m = Some (Ok c) →
  normalizeBody (resolvedBodyMatch (toResolvedMatch c (m_body m))) = cm_body c.
Proof.
  unfold compileMatch. destruct (compile_paths _ _) as [[ps|e]|]; cbn [mbind option_bind]; [|done..].
  intros [= <-]. unfold resolvedBodyMatch, toResolvedMatch. simpl.
  destruct (m_body m) as [body|]; [|done]. cbn.
  destruct (bm_graphql body) as [g|]; [|done].
  pose proof (normalizeGraphql_resolved g) as Hg. cbn in Hg |- *. by rewrite Hg.
Qed.

(** ** A configuration that compiles without errors resolves *)

(** The keys stored in the resolved rules introduce no precedence of their own, so rules
    that can be ordered as compiled can be ordered as resolved. *)
Lemma resolved_rules_ordered rules (resolve : CompiledRule → list string → ResolvedRule) :
  (∀ r edges, rr_precedes (resolve r edges) = edges ∧ rr_key (resolve r edges) = cr_key r) →
  List.NoDup (map cr_key rules) →
  (∃ o, precedenceOrder rules (λ a b _ _, rulePrecedes a b) = Ordered o) →
  ∃ o, precedenceOrder (zip_with resolve rules (precedenceEdges rules)) (λ a b _ _, rule_precedes a b) = Ordered o.
Proof.
  intros Hres Hnd [o Ho]. apply precedenceOrder_rank in Ho as [rank Hrank].
  apply (precedenceOrder_ranked _ _ rank). intros i j (Hij & ra & rb & Ha & Hb & Hp). apply Hrank.
  apply lookup_zip_with_Some in Ha as (ca & ea & -> & Ha & Hea).
  apply lookup_zip_with_Some in Hb as (cb & eb & -> & Hb & _).
  destruct (precedenceEdges_lookup _ _ _ Ha) as (edges & Hedges & Hiff). simplify_eq.
  unfold rule_precedes in Hp. rewrite (proj1 (Hres ca ea)), (proj2 (Hres cb eb)), includes_In, Hiff in Hp.
  destruct Hp as (k & b & Hki & Hk & Hkey & Hp).
  assert (k = j) as ->; [|simplify_eq; by split; [|exists ca, cb]].
  destruct (decide (k = j)) as [|Hne]; [done|]. by destruct (NoDup_pairwise cr_key _ Hnd k j b cb Hne Hk Hb).
Qed.

Lemma accepted_scope_resolves c defaults : List.NoDup (map cr_key (cs_rules c)) →
  has_error (scope_checks c) = false → ∃ s, resolveScope c defaults = Ok s.
Proof.
  unfold scope_checks. intros Hnd Hv. split_errors.
  assert (has_error (checkPrecedenceCycles c) = false) as Hord%precedence_valid by done.
  unfold resolveScope, precedenceCycle.
  match goal with |- context [zip_with ?f _ _] =>
    destruct (resolved_rules_ordered (cs_rules c) f ltac:(done) Hnd Hord) as [o ->] end.
  eauto.
Qed.

Lemma accepted_scopes_resolve defaults cs : (∀ c, In c cs → ∃ s, resolveScope c defaults = Ok s) →
  ∃ rs, resolve_scopes cs defaults = (rs, []).
Proof.
  induction cs as [|c cs IH]; intros Hall; [by exists []|]. cbn [resolve_scopes].
  destruct IH as [rs ->]; [intros; apply Hall; by right|]. destruct (Hall c (or_introl eq_refl)) as [s ->]. by exists (s :: rs).
Qed.

Lemma accepted_config_resolves config compiled : compileAuthzConfig config = Some compiled →
  no_error (co_diagnostics compiled) →
  ∃ document, resolveAuthzConfig config = Some {| ro_document := Some document; ro_diagnostics := co_diagnostics compiled |}.
Proof.
  intros Hc He. pose proof (compileAuthzConfig_valid _ _ Hc He) as [_ Hids Hrules].
  destruct (compileAuthzConfig_scopes _ _ Hc He) as [_ HF].
  destruct (accepted_scopes_resolve (resolve_defaults config) (co_scopes compiled)) as [rs Hrs].
  { intros c Hin. apply accepted_scope_resolves; [|by apply Hrules].
    pose proof Hin as [i Hi]%list_elem_of_In%list_elem_of_lookup.
    destruct (Forall2_lookup_r _ _ _ _ _ HF Hi) as (entry & _ & Hs). by eapply scope_keys_NoDup. }
  unfold resolveAuthzConfig. rewrite Hc. cbn [mbind option_bind]. unfold no_error in He. rewrite He, Hrs.
  unfold orderScopes. destruct (precedenceOrder_strict_elements rs scope_precedes) as [l ->]; [..|eauto].
  - intros a. unfold scope_precedes. apply bool_decide_eq_false, compareTargetSpecificity_irrefl.
  - intros a b c. unfold scope_precedes. rewrite !bool_decide_eq_true. apply compareTargetSpecificity_trans.
Qed.

(** There is a document exactly if there is no error. *)
Lemma resolved_iff config : (∃ outcome document, resolveAuthzConfig config = Some outcome ∧ ro_document outcome = Some document) ↔
  ∃ compiled, compileAuthzConfig config = Some compiled ∧ no_error (co_diagnostics compiled).
Proof.
  split.
  - intros (outcome & document & Hr & Hd). destruct (resolveAuthzConfig_document _ _ _ Hr Hd) as (compiled & _ & ? & ? & _). by exists compiled.
  - intros (compiled & Hc & He). destruct (accepted_config_resolves _ _ Hc He) as [document Hr]. by eexists _, document.
Qed.
