(* ===== verification/DecideLaws.v ===== *)
(** * Properties of the decision

    Totality on a resolved document, selection of the most specific scope, and
    what an "allow" presupposes: no rule that precedes the deciding one was
    skipped, and an answer that cannot be computed never lets a request through. *)
From S2P Require Import Prelude JsString Json Containment AuthzTypes Pattern Relation Selection.
From S2P Require Import Semantics MatchLaws Targets Specificity AuthzConfig Witness Validate.
From S2P Require Import Compile CompileLaws Resolve ResolveLaws Decide Samples.

(** ** Selection of the scope *)

Lemma matching_scopes_intersect a b address :
  scopeMatchesAddress a address = true → scopeMatchesAddress b address = true →
  targetSetsIntersect (rs_targets a) (rs_targets b) = true.
Proof. apply targetSetsIntersect_complete. Qed.

(** [b] is the strictly most specific of the matching scopes among [l]. *)
Definition most_specific (l : list ResolvedScope) (address : TargetAddress)
    (best : option ResolvedScope) : Prop :=
  match best with
  | None => ∀ s, In s l → scopeMatchesAddress s address = false
  | Some b => In b l ∧ scopeMatchesAddress b address = true ∧
      ∀ s, In s l → scopeMatchesAddress s address = true →
        s = b ∨ compareTargetSpecificity (rs_targets b) (rs_targets s) = Narrower
  end.

Lemma select_step_spec l s address best :
  (∀ b, In b l → nested b s) →
  most_specific l address best →
  most_specific (l ++ [s]) address (select_step address best s).
Proof.
  intros Hn Hb. unfold select_step.
  destruct (scopeMatchesAddress s address) eqn:Es; simpl.
  - destruct best as [b|]; simpl in *.
    + destruct Hb as (Hin & Hmb & Hall).
      assert (nested b s) as Hbs by auto.
      specialize (Hbs (matching_scopes_intersect _ _ _ Hmb Es)).
      case_bool_decide as Hc.
      * simpl. split_and!; [apply in_app_iff; right; by left|done|].
        intros s' [Hs'|[<-|[]]]%in_app_iff Hm; [right|by left].
        destruct (Hall s' Hs' Hm) as [->|H]; [done|]. by eapply compareTargetSpecificity_trans.
      * destruct Hbs as [Hbs|]; [|done].
        simpl. split_and!; [apply in_app_iff; by left|done|].
        intros s' [Hs'|[<-|[]]]%in_app_iff Hm; [auto|by right].
    + split_and!; [apply in_app_iff; right; by left|done|].
      intros s' [Hs'|[<-|[]]]%in_app_iff Hm; [|by left]. rewrite Hb in Hm; done.
  - destruct best as [b|]; simpl in *.
    + destruct Hb as (Hin & Hmb & Hall). split_and!; [apply in_app_iff; by left|done|].
      intros s' [Hs'|[<-|[]]]%in_app_iff Hm; [auto|congruence].
    + intros s' [Hs'|[<-|[]]]%in_app_iff; auto.
Qed.

Lemma pairwise_snoc {A} (R : A → A → Prop) l x :
  pairwise R (l ++ [x]) → pairwise R l ∧ ∀ b, In b l → R b x.
Proof.
  intros H. split.
  - intros i j a b Hij Ha Hb.
    apply (H i j); [done|by apply lookup_app_l_Some|by apply lookup_app_l_Some].
  - intros b [i Hi]%list_elem_of_In%list_elem_of_lookup.
    apply (H i (length l)); [|by apply lookup_app_l_Some|by apply list_lookup_middle].
    intros ->. apply lookup_lt_Some in Hi. lia.
Qed.

Lemma selectScope_spec l address :
  pairwise nested l → most_specific l address (fold_left (select_step address) l None).
Proof.
  induction l as [|s l IH] using rev_ind; intros H; [by intros s|].
  apply pairwise_snoc in H as [Hl Hs]. rewrite fold_left_app. simpl.
  apply select_step_spec; [done|]. by apply IH.
Qed.

Lemma selectScope_In l address best s :
  fold_left (select_step address) l best = Some s →
  (In s l ∧ scopeMatchesAddress s address = true) ∨ best = Some s.
Proof.
  revert best. induction l as [|x l IH]; intros best; simpl; [by right|].
  intros [[? ?]|H]%IH; [left; auto|]. unfold select_step in H.
  destruct (scopeMatchesAddress x address) eqn:E; simpl in H; [|by right].
  destruct best; [case_bool_decide|]; simplify_eq; auto.
Qed.

(** ** Ordered candidates *)

Lemma filter_sublist {A} (f : A → bool) l : List.filter f l `sublist_of` l.
Proof. induction l as [|x l IH]; simpl; [constructor|]. destruct (f x); by constructor. Qed.

Lemma orderedCandidates_total scope request o :
  precedenceOrder (rs_rules scope) (λ a b _ _, rule_precedes a b) = Ordered o →
  is_Some (orderedCandidates scope request).
Proof.
  intros Ho. unfold orderedCandidates. destruct (length _ <? 2)%nat; [by eexists|].
  destruct (precedenceOrder_sublist (candidates scope request) (rs_rules scope) rule_precedes o)
    as [o' Ho']; [apply filter_sublist|exact Ho|]. rewrite Ho'. by eexists.
Qed.

Lemma orderedCandidates_In scope request rules :
  orderedCandidates scope request = Some rules →
  ∀ r, In r rules ↔ In r (candidates scope request).
Proof.
  unfold orderedCandidates. destruct (length _ <? 2)%nat; [by intros [= <-]|].
  destruct (precedenceOrder _ _) as [o|] eqn:E; [|done]. intros [= <-].
  by apply (precedenceOrder_In _ _ _ E).
Qed.

(** A rule that precedes another one comes before it. *)
Lemma orderedCandidates_before scope request rules before r after r' :
  orderedCandidates scope request = Some rules → rules = before ++ r :: after →
  In r' (candidates scope request) → rule_precedes r' r = true → r' ≠ r →
  In r' before.
Proof.
  unfold orderedCandidates. intros H -> Hin Hp Hne.
  destruct (length (candidates scope request) <? 2)%nat eqn:El.
  - injection H as H. rewrite H in Hin, El. apply Nat.ltb_lt in El.
    rewrite length_app in El. simpl in El. destruct before; [|simpl in El; lia].
    destruct after; [|simpl in El; lia]. by destruct Hin as [<-|[]].
  - destruct (precedenceOrder _ _) as [o|] eqn:E; [|done]. injection H as ->.
    apply precedenceOrder_Ordered in E as (indices & Ho & He).
    destruct (orders_lookup _ _ _ (length before) r Ho) as (j & Hj & Hrj).
    { by apply list_lookup_middle. }
    apply list_elem_of_In, list_elem_of_lookup in Hin as [i Hi].
    assert (i ≠ j) as Hij by (intros ->; congruence).
    destruct (He i j) as (k & m & Hk & Hm & Hlt); [split; [done|]; eauto 10|].
    assert (m = length before) as ->.
    { pose proof (orders_NoDup _ _ _ Ho) as Hnd. rewrite <- NoDup_ListNoDup in Hnd.
      by eapply NoDup_lookup. }
    destruct Ho as [Hperm Heq]. apply list_elem_of_In, list_elem_of_lookup. exists k.
    assert ((before ++ r :: after) !! k = Some r') as Hr'.
    { rewrite Heq, items_at_lookup, Hk; [done|].
      intros x Hx. apply (Permutation_in _ Hperm), in_seq in Hx. lia. }
    by rewrite lookup_app_l in Hr' by lia.
Qed.

(** ** The loop over the candidates *)

Inductive outcome_of (scope : ResolvedScope) (leaf : ResolvedRule → option Truth)
    (rules : list ResolvedRule) : Decision → Prop :=
  | Outcome_rule before rule after :
      rules = before ++ rule :: after → Forall (λ r, leaf r = Some TFalse) before →
      leaf rule = Some TTrue →
      outcome_of scope leaf rules
        (fromRule scope rule (rr_onMatch rule) ReasonRule (rr_expect rule))
  | Outcome_indeterminate before rule after :
      rules = before ++ rule :: after → Forall (λ r, leaf r = Some TFalse) before →
      leaf rule = Some TIndeterminate →
      outcome_of scope leaf rules
        (fromRule scope rule (IndeterminateAction_action (rr_onIndeterminate rule))
           ReasonIndeterminate [])
  | Outcome_fallback :
      Forall (λ r, leaf r = Some TFalse) rules →
      outcome_of scope leaf rules
        (from_scope scope (rs_fallback scope) ReasonScopeFallback (rs_inject scope)).

Lemma decide_rules_outcome scope leaf rules d :
  decide_rules scope leaf rules = Some d ↔ outcome_of scope leaf rules d.
Proof.
  split.
  - induction rules as [|r rules IH]; simpl; [intros [= <-]; constructor; constructor|].
    destruct (leaf r) as [[]|] eqn:E; simpl; [| | |done].
    + intros [= <-]. by apply (Outcome_rule _ _ _ [] r rules).
    + intros [b x a -> Hb Hx|b x a -> Hb Hx|Hb]%IH.
      * apply (Outcome_rule _ _ _ (r :: b) x a); [done|by constructor|done].
      * apply (Outcome_indeterminate _ _ _ (r :: b) x a); [done|by constructor|done].
      * constructor. by constructor.
    + intros [= <-]. by apply (Outcome_indeterminate _ _ _ [] r rules).
  - intros H. destruct H as [b x a -> Hb Hx|b x a -> Hb Hx|Hb].
    + induction Hb as [|y b Hy _ IH]; simpl; [by rewrite Hx|by rewrite Hy].
    + induction Hb as [|y b Hy _ IH]; simpl; [by rewrite Hx|by rewrite Hy].
    + induction Hb as [|y b Hy _ IH]; simpl; [done|by rewrite Hy].
Qed.

Lemma decide_rules_total scope leaf rules :
  (∀ r, In r rules → is_Some (leaf r)) → is_Some (decide_rules scope leaf rules).
Proof.
  induction rules as [|r rules IH]; simpl; intros H; [by eexists|].
  destruct (H r (or_introl eq_refl)) as [[] ->]; simpl; eauto.
Qed.

(** The cases of a decision. *)
Inductive decision_of (document : ResolvedDocument) (address : TargetAddress)
    (request : DecisionRequest) (leaf : ResolvedRule → option Truth) : Decision → Prop :=
  | Decide_no_scope_websocket :
      selectScope document address = None → dr_transport request = Some TransportWebsocket →
      decision_of document address request leaf (from_defaults document Deny ReasonWebsocketDenied)
  | Decide_no_scope :
      selectScope document address = None → dr_transport request ≠ Some TransportWebsocket →
      decision_of document address request leaf
        (from_defaults document (NetworkFallback_action (doc_fallback document))
           ReasonNetworkFallback)
  | Decide_websocket scope :
      selectScope document address = Some scope →
      dr_transport request = Some TransportWebsocket → rs_webSocket scope ≠ WsAllow →
      decision_of document address request leaf (from_scope scope Deny ReasonWebsocketDenied [])
  | Decide_scope scope rules d :
      selectScope document address = Some scope →
      (dr_transport request = Some TransportWebsocket → rs_webSocket scope = WsAllow) →
      orderedCandidates scope request = Some rules → outcome_of scope leaf rules d →
      decision_of document address request leaf d.

Lemma decide_with_cases document address request leaf d :
  decide_with document address request leaf = Some d →
  decision_of document address request leaf d.
Proof.
  unfold decide_with. destruct (selectScope document address) as [scope|] eqn:Es.
  - destruct (_ && _) eqn:Ew.
    + apply andb_true_iff in Ew as [Ht%bool_decide_eq_true Hw%negb_true_iff%bool_decide_eq_false].
      intros [= <-]. by apply Decide_websocket.
    + unfold decide_scope. destruct (orderedCandidates scope request) as [rules|] eqn:Ho; [|done].
      intros Hd%decide_rules_outcome. eapply Decide_scope; [done| |done|done].
      intros Ht. rewrite Ht, bool_decide_true in Ew by done. simpl in Ew.
      by apply negb_false_iff, bool_decide_eq_true in Ew.
  - intros [= <-]. case_bool_decide; by constructor.
Qed.

(** ** The decision the configuration prescribes

    The truth value of a configured rule on a request: method and path select
    without the query, the body condition is evaluated with it. *)
Definition selection_truth (m : CompiledMatch) (request : DecisionRequest) (body : RequestBody) :
    Truth :=
  if methods_mem (cm_methods m) (dr_method request) &&
     existsb (λ p, compiledPathMatches p (pathForSelection (dr_path request))) (cm_paths m)
  then evaluateBody (cm_body m) body (dr_path request)
  else TFalse.

(** Without a query this is the evaluation of network/authz/semantics.ts. *)
Lemma selection_truth_evaluateMatch m request body :
  indexOf (dr_path request) "?" = None →
  selection_truth m request body =
  evaluateMatch m {| req_method := dr_method request; req_path := dr_path request;
                     req_body := body |}.
Proof.
  intros H. unfold selection_truth, evaluateMatch, pathForSelection. rewrite H. simpl.
  unfold methods_mem.
  destruct (cm_methods m) as [ms|]; [destruct (includes ms _)|]; cbn [andb negb];
    by destruct (existsb (λ p, compiledPathMatches p (dr_path request)) (cm_paths m)).
Qed.

(** The id and the action one compiled scope prescribes: by a rule that is not
    false, all the rules that precede it being false, or by the fallback, all the
    rules being false. *)
Inductive prescribes (c : CompiledScope) (request : DecisionRequest) (body : RequestBody) :
    string → Action → DecisionReason → Prop :=
  | Prescribe_rule i rule :
      cs_rules c !! i = Some rule →
      selection_truth (cr_match rule) request body = TTrue →
      (∀ j other, j ≠ i → cs_rules c !! j = Some other → rulePrecedes other rule = true →
         selection_truth (cr_match other) request body = TFalse) →
      prescribes c request body (cr_id rule) (rc_onMatch (cr_config rule)) ReasonRule
  | Prescribe_indeterminate i rule :
      cs_rules c !! i = Some rule →
      selection_truth (cr_match rule) request body = TIndeterminate →
      (∀ j other, j ≠ i → cs_rules c !! j = Some other → rulePrecedes other rule = true →
         selection_truth (cr_match other) request body = TFalse) →
      prescribes c request body (cr_id rule)
        (IndeterminateAction_action (default IndDeny (rc_onIndeterminate (cr_config rule))))
        ReasonIndeterminate
  | Prescribe_fallback :
      (∀ rule, In rule (cs_rules c) → selection_truth (cr_match rule) request body = TFalse) →
      prescribes c request body (fallbackRuleId (cs_name c))
        (default Deny (so_fallback (cs_config c))) ReasonScopeFallback.

Lemma document_rule config compiled s entry c i r :
  scope_origin config compiled s entry c → rs_rules s !! i = Some r →
  ∃ rule, cs_rules c !! i = Some rule ∧ rr_id r = cr_id rule ∧ rr_key r = cr_key rule ∧
    rr_onMatch r = rc_onMatch (cr_config rule) ∧
    rr_onIndeterminate r = default IndDeny (rc_onIndeterminate (cr_config rule)) ∧
    rm_methods (rr_match r) = cm_methods (cr_match rule) ∧
    rm_paths (rr_match r) = cm_paths (cr_match rule) ∧
    normalizeBody (resolvedBodyMatch (rr_match r)) = cm_body (cr_match rule).
Proof.
  intros Ho Hi. destruct (resolveScope_rule _ _ _ _ _ (origin_resolved _ _ _ _ _ Ho) Hi)
    as (rule & edges & Hrule & _ & ->).
  exists rule. split_and!; try done. cbn [rr_match resolveRule].
  destruct (Forall2_lookup_r _ _ _ _ _
    (scope_rules _ _ _ (origin_compiled _ _ _ _ _ Ho)) Hrule) as (e & _ & He).
  rewrite (rule_config _ _ _ _ _ _ _ He).
  apply resolvedBodyMatch_normalized, (rule_match _ _ _ _ _ _ _ He).
Qed.

Lemma isCandidate_axes m method path :
  isCandidate m method path =
  methods_mem (rm_methods m) method && existsb (λ p, compiledPathMatches p path) (rm_paths m).
Proof. unfold isCandidate, methods_mem. by destruct (rm_methods m). Qed.

Lemma candidates_In scope request r :
  In r (candidates scope request) ↔ In r (rs_rules scope) ∧
    isCandidate (rr_match r) (dr_method request) (pathForSelection (dr_path request)) = true.
Proof. apply filter_In. Qed.

(** The leaf of a candidate is the truth value of the configured rule; the other
    rules are false. *)
Lemma document_rule_truth config compiled s entry c request body i r rule :
  scope_origin config compiled s entry c → dr_body request = Some body →
  rs_rules s !! i = Some r → cs_rules c !! i = Some rule →
  (In r (candidates s request) →
     default_leaf request r = Some (selection_truth (cr_match rule) request body)) ∧
  (¬ In r (candidates s request) → selection_truth (cr_match rule) request body = TFalse).
Proof.
  intros Ho Hb Hi Hrule.
  destruct (document_rule _ _ _ _ _ _ _ Ho Hi)
    as (rule' & Hrule' & _ & _ & _ & _ & Hm & Hp & Hbody). simplify_eq.
  rewrite candidates_In, isCandidate_axes, Hm, Hp.
  assert (In r (rs_rules s)) by (apply list_elem_of_In, list_elem_of_lookup; eauto).
  unfold selection_truth, default_leaf. rewrite Hb, Hbody.
  split; [by intros [_ ->]|]. intros Hn. case_match eqn:E; [by destruct Hn|done].
Qed.

(** The rules that precede the one at the head of the rest are false. *)
Lemma preceding_false config compiled s entry c request body rules before r after i rule :
  scope_origin config compiled s entry c → dr_body request = Some body →
  orderedCandidates s request = Some rules → rules = before ++ r :: after →
  Forall (λ r, default_leaf request r = Some TFalse) before →
  rs_rules s !! i = Some r → cs_rules c !! i = Some rule →
  ∀ j other, j ≠ i → cs_rules c !! j = Some other → rulePrecedes other rule = true →
    selection_truth (cr_match other) request body = TFalse.
Proof.
  intros Ho Hb Hord Hrules Hbefore Hi Hrule j other Hji Hother Hp.
  pose proof (origin_resolved _ _ _ _ _ Ho) as Hs.
  destruct (resolveScope_rule_lookup _ _ _ _ _ Hs Hother) as (r' & Hj & _ & Hkey').
  destruct (document_rule_truth _ _ _ _ _ _ _ _ _ _ Ho Hb Hj Hother) as [Hin Hout].
  destruct (isCandidate (rr_match r') (dr_method request)
                      (pathForSelection (dr_path request))) eqn:Hc.
  2:{ apply Hout. rewrite candidates_In. intros [_ ?]. congruence. }
  assert (In r' (candidates s request)) as Hr'.
  { apply candidates_In. split; [|done]. apply list_elem_of_In, list_elem_of_lookup. eauto. }
  assert (In r' before) as Hbef.
  { eapply orderedCandidates_before; [done..| |].
    - by rewrite (rule_precedes_iff c _ s j i r' r other rule
                    (origin_keys _ _ _ _ _ Ho) Hs Hji Hj Hi Hother Hrule).
    - intros ->. destruct (document_rule _ _ _ _ _ _ _ Ho Hi) as (x & Hx & _ & Hkey & _).
      apply (NoDup_pairwise cr_key _ (origin_keys _ _ _ _ _ Ho) j i other x Hji Hother Hx).
      congruence. }
  rewrite Forall_forall in Hbefore. apply list_elem_of_In, Hbefore in Hbef.
  rewrite (Hin Hr') in Hbef. by injection Hbef.
Qed.

Lemma outcome_prescribed config compiled s entry c request body rules d :
  scope_origin config compiled s entry c → dr_body request = Some body →
  orderedCandidates s request = Some rules → outcome_of s (default_leaf request) rules d →
  prescribes c request body (dec_ruleId d) (dec_action d) (dec_reason d).
Proof.
  intros Ho Hb Hord Hout.
  assert (∀ r, In r rules → ∃ i rule, rs_rules s !! i = Some r ∧ cs_rules c !! i = Some rule ∧
    rr_id r = cr_id rule ∧ rr_onMatch r = rc_onMatch (cr_config rule) ∧
    rr_onIndeterminate r = default IndDeny (rc_onIndeterminate (cr_config rule)) ∧
    default_leaf request r = Some (selection_truth (cr_match rule) request body)) as Hrule.
  { intros r Hr%(orderedCandidates_In _ _ _ Hord). pose proof Hr as Hc.
    apply candidates_In in Hr as [[i Hi]%list_elem_of_In%list_elem_of_lookup _].
    destruct (document_rule _ _ _ _ _ _ _ Ho Hi) as (rule & Hrule & ? & _ & ? & ? & _).
    exists i, rule. split_and!; try done.
    by apply (document_rule_truth _ _ _ _ _ _ _ _ _ _ Ho Hb Hi Hrule). }
  destruct Hout as [before r after Hr Hbef Ht|before r after Hr Hbef Ht|Hall].
  - destruct (Hrule r) as (i & rule & Hi & Hc & Hid & Hon & _ & Hleaf).
    { rewrite Hr. apply in_elt. }
    cbn. rewrite Hid, Hon. eapply Prescribe_rule; [done|congruence|].
    by eapply preceding_false.
  - destruct (Hrule r) as (i & rule & Hi & Hc & Hid & _ & Hon & Hleaf).
    { rewrite Hr. apply in_elt. }
    cbn. rewrite Hid, Hon. eapply Prescribe_indeterminate; [done|congruence|].
    by eapply preceding_false.
  - pose proof (origin_resolved _ _ _ _ _ Ho) as Hs.
    assert (rs_fallbackRuleId s = fallbackRuleId (cs_name c) ∧
            rs_fallback s = default Deny (so_fallback (cs_config c))) as [Hid Hf].
    { revert Hs. unfold resolveScope. destruct (precedenceCycle _ _); [done|]. by intros [= <-]. }
    cbn. rewrite Hid, Hf. apply Prescribe_fallback.
    intros rule [i Hi]%list_elem_of_In%list_elem_of_lookup.
    destruct (resolveScope_rule_lookup _ _ _ _ _ Hs Hi) as (r & Hir & _).
    destruct (document_rule_truth _ _ _ _ _ _ _ _ _ _ Ho Hb Hir Hi) as [Hin Hout].
    destruct (isCandidate (rr_match r) (dr_method request)
                        (pathForSelection (dr_path request))) eqn:Hc.
    2:{ apply Hout. rewrite candidates_In. intros [_ ?]. congruence. }
    assert (In r (candidates s request)) as Hr.
    { apply candidates_In. split; [|done]. apply list_elem_of_In, list_elem_of_lookup. eauto. }
    rewrite Forall_forall in Hall.
    assert (default_leaf request r = Some TFalse) as Hf'.
    { apply Hall, list_elem_of_In, (orderedCandidates_In _ _ _ Hord), Hr. }
    rewrite (Hin Hr) in Hf'. by injection Hf'.
Qed.

(** ** Properties *)

(** C33.  Deciding is total on a resolved document: for a request with a body no
    error is thrown, whatever the address, because the acceptance of the
    configuration excluded every cycle among candidates. *)
Theorem decide_total config outcome document address request body
    (Hresolve : resolveAuthzConfig config = Some outcome)
    (Hdocument : ro_document outcome = Some document)
    (Hbody : dr_body request = Some body) :
  ∃ d, decide document address request = Some d.
Proof.
  destruct (document_scopes _ _ _ Hresolve Hdocument) as (compiled & _ & _ & _ & _ & Hs & _).
  unfold decide, decide_with. destruct (selectScope document address) as [s|] eqn:Es; [|eauto].
  destruct (_ && _); [eauto|].
  apply selectScope_In in Es as [[Hin _]|]; [|done].
  destruct (Hs s Hin) as (entry & c & Ho).
  destruct (resolveScope_Ok _ _ _ (origin_resolved _ _ _ _ _ Ho)) as (_ & _ & _ & _ & _ & o & Hord).
  unfold decide_scope. destruct (orderedCandidates_total s request o Hord) as [rules ->].
  destruct (decide_rules_total s (default_leaf request) rules) as [d Hd]; [|by exists d].
  intros r _. unfold default_leaf. rewrite Hbody. by eexists.
Qed.

Lemma decide_total_witness :
  ∃ d, decide sample_document sample_address
         (sample_request "POST" "/graphql?x" (BodyJson (JObject []) None)) = Some d.
Proof.
  apply (decide_total sample_config sample_outcome sample_document sample_address
           (sample_request "POST" "/graphql?x" (BodyJson (JObject []) None))
           (BodyJson (JObject []) None) sample_resolves sample_has_document).
  reflexivity.
Defined.

(** The scope selected on a resolved document holds the address and is
    strictly narrower than every other scope holding it; no scope is selected
    exactly when none holds it. *)
Theorem selectScope_most_specific config outcome document address
    (Hresolve : resolveAuthzConfig config = Some outcome)
    (Hdocument : ro_document outcome = Some document) :
  most_specific (doc_scopes document) address (selectScope document address).
Proof.
  destruct (document_scopes _ _ _ Hresolve Hdocument) as (_ & _ & _ & _ & Hn & _).
  by apply selectScope_spec.
Qed.

Lemma selectScope_most_specific_witness :
  most_specific (doc_scopes sample_document) sample_address (Some sample_scope).
Proof.
  exact (selectScope_most_specific sample_config sample_outcome sample_document sample_address
           sample_resolves sample_has_document).
Defined.

(** What the configuration says about one address and one request. *)
Inductive configured (config : AuthzConfig) (compiled : CompileOutcome) (address : TargetAddress)
    (request : DecisionRequest) (body : RequestBody) : string → Action → DecisionReason → Prop :=
  | Configured_outside :
      (∀ c, In c (co_scopes compiled) →
         existsb (λ t, targetMatches t address) (cs_targets c) = false) →
      dr_transport request ≠ Some TransportWebsocket →
      configured config compiled address request body FALLBACK_RULE_KEY
        (NetworkFallback_action (default NetDeny (nc_fallback (ac_network config))))
        ReasonNetworkFallback
  | Configured_outside_websocket :
      (∀ c, In c (co_scopes compiled) →
         existsb (λ t, targetMatches t address) (cs_targets c) = false) →
      dr_transport request = Some TransportWebsocket →
      configured config compiled address request body FALLBACK_RULE_KEY Deny ReasonWebsocketDenied
  | Configured_websocket c :
      In c (co_scopes compiled) →
      existsb (λ t, targetMatches t address) (cs_targets c) = true →
      dr_transport request = Some TransportWebsocket →
      default WsDeny (so_webSocket (cs_config c)) = WsDeny →
      configured config compiled address request body (fallbackRuleId (cs_name c)) Deny
        ReasonWebsocketDenied
  | Configured_scope c ruleId action reason :
      In c (co_scopes compiled) →
      existsb (λ t, targetMatches t address) (cs_targets c) = true →
      (∀ other, In other (co_scopes compiled) →
         existsb (λ t, targetMatches t address) (cs_targets other) = true →
         other = c ∨ compareTargetSpecificity (cs_targets c) (cs_targets other) = Narrower) →
      (dr_transport request = Some TransportWebsocket →
         so_webSocket (cs_config c) = Some WsAllow) →
      prescribes c request body ruleId action reason →
      configured config compiled address request body ruleId action reason.

Lemma compiled_most_specific compiled address c s entry config other :
  valid_outcome (co_scopes compiled) →
  scope_origin config compiled s entry c →
  (∀ s', (∃ e c', scope_origin config compiled s' e c' ∧ c' = other) →
     s' = s ∨ compareTargetSpecificity (rs_targets s) (rs_targets s') = Narrower) →
  (∃ s' e, scope_origin config compiled s' e other) →
  existsb (λ t, targetMatches t address) (cs_targets c) = true →
  existsb (λ t, targetMatches t address) (cs_targets other) = true →
  other = c ∨ compareTargetSpecificity (cs_targets c) (cs_targets other) = Narrower.
Proof.
  intros Hv Ho Hbest (s' & e & Ho') Hc Hother.
  pose proof (origin_scope _ _ _ _ _ Ho) as [i Hi]%list_elem_of_In%list_elem_of_lookup.
  pose proof (origin_scope _ _ _ _ _ Ho') as [j Hj]%list_elem_of_In%list_elem_of_lookup.
  destruct (resolveScope_Ok _ _ _ (origin_resolved _ _ _ _ _ Ho)) as (_ & Ht & _).
  destruct (resolveScope_Ok _ _ _ (origin_resolved _ _ _ _ _ Ho')) as (_ & Ht' & _).
  destruct (Nat.eq_dec i j) as [->|Hij]; [left; congruence|right].
  destruct (compiled_nested _ (valid_scopes _ Hv) i j c other Hij Hi Hj) as [?|Hlt]; [|done|].
  { by eapply targetSetsIntersect_complete. }
  rewrite <- Ht, <- Ht' in *.
  destruct (Hbest s') as [->|?]; [by eauto| |done].
  by apply compareTargetSpecificity_irrefl in Hlt.
Qed.

Lemma websocket_policy config compiled s entry c :
  scope_origin config compiled s entry c →
  rs_webSocket s = default WsDeny (so_webSocket (cs_config c)) ∧
  rs_fallbackRuleId s = fallbackRuleId (cs_name c).
Proof.
  intros Ho. pose proof (origin_resolved _ _ _ _ _ Ho) as Hs.
  revert Hs. unfold resolveScope. destruct (precedenceCycle _ _); [done|]. by intros [= <-].
Qed.

(** The decision on a resolved document is the configured one. *)
Lemma decide_configured config outcome document address request body d
    (Hresolve : resolveAuthzConfig config = Some outcome)
    (Hdocument : ro_document outcome = Some document)
    (Hbody : dr_body request = Some body)
    (Hdecide : decide document address request = Some d) :
  ∃ compiled, compileAuthzConfig config = Some compiled ∧
    configured config compiled address request body (dec_ruleId d) (dec_action d) (dec_reason d).
Proof.
  destruct (document_scopes _ _ _ Hresolve Hdocument)
    as (compiled & Hc & _ & Hv & Hn & Hs & _ & Hcs & _ & Hf).
  exists compiled. split; [done|].
  pose proof (selectScope_spec (doc_scopes document) address Hn) as Hbest.
  change (fold_left _ _ _) with (selectScope document address) in Hbest.
  assert (selectScope document address = None → ∀ c, In c (co_scopes compiled) →
    existsb (λ t, targetMatches t address) (cs_targets c) = false) as Hnone.
  { intros E c Hin. rewrite E in Hbest. destruct (Hcs c Hin) as (s & e & Hds & Ho).
    destruct (resolveScope_Ok _ _ _ (origin_resolved _ _ _ _ _ Ho)) as (_ & <- & _). by apply Hbest. }
  destruct (decide_with_cases _ _ _ _ _ Hdecide) as [E Ht|E Ht|s E Ht Hw|s rules d E Ht Hord Hout].
  - by apply Configured_outside_websocket; [apply Hnone|].
  - cbn. rewrite Hf. by apply Configured_outside; [apply Hnone|].
  - rewrite E in Hbest. destruct Hbest as (Hin & Hm & _). destruct (Hs s Hin) as (e & c & Ho).
    destruct (websocket_policy _ _ _ _ _ Ho) as [Hp Hid].
    destruct (resolveScope_Ok _ _ _ (origin_resolved _ _ _ _ _ Ho)) as (_ & Htg & _).
    cbn. rewrite Hid. apply Configured_websocket;
      [by apply (origin_scope _ _ _ _ _ Ho)|by rewrite <- Htg|done|].
    rewrite Hp in Hw. destruct (so_webSocket (cs_config c)) as [[]|]; done.
  - rewrite E in Hbest. destruct Hbest as (Hin & Hm & Hall). destruct (Hs s Hin) as (e & c & Ho).
    destruct (websocket_policy _ _ _ _ _ Ho) as [Hp Hid].
    destruct (resolveScope_Ok _ _ _ (origin_resolved _ _ _ _ _ Ho)) as (_ & Htg & _).
    eapply Configured_scope; [by apply (origin_scope _ _ _ _ _ Ho)|by rewrite <- Htg| | |].
    + intros other Ho' Hmo. destruct (Hcs other Ho') as (s' & e' & Hds & Horig).
      eapply (compiled_most_specific compiled address c s e config other); try done;
        [|by eauto|by rewrite <- Htg].
      intros s'' (e'' & ? & Ho'' & ->). pose proof (origin_resolved _ _ _ _ _ Ho'') as H1.
      rewrite (origin_resolved _ _ _ _ _ Horig) in H1. injection H1 as <-.
      apply Hall; [done|]. destruct (resolveScope_Ok _ _ _ (origin_resolved _ _ _ _ _ Horig))
        as (_ & Ht' & _). unfold scopeMatchesAddress. by rewrite Ht'.
    + intros Hws. specialize (Ht Hws). rewrite Hp in Ht.
      by destruct (so_webSocket (cs_config c)) as [[]|].
    + by eapply outcome_prescribed.
Qed.

(** C1.  Refinement: on a resolved document `decide` gives the rule id, the action
    and the reason the configuration prescribes. The most specific scope decides;
    within it a rule decides only when every rule preceding it is false on the
    request, body included, so no more specific rule is bypassed. *)
Theorem decide_refines_config config outcome document address request body d
    (Hresolve : resolveAuthzConfig config = Some outcome)
    (Hdocument : ro_document outcome = Some document)
    (Hbody : dr_body request = Some body)
    (Hdecide : decide document address request = Some d) :
  ∃ compiled, compileAuthzConfig config = Some compiled ∧
    configured config compiled address request body (dec_ruleId d) (dec_action d) (dec_reason d).
Proof. exact (decide_configured _ _ _ _ _ _ _ Hresolve Hdocument Hbody Hdecide). Qed.

Lemma decide_refines_config_witness :
  ∃ compiled, compileAuthzConfig sample_config = Some compiled ∧
    configured sample_config compiled sample_address
      (sample_request "GET" "/repos/o/secrets/x" BodyEmpty) BodyEmpty "api.hide" Deny ReasonRule.
Proof.
  destruct (decide sample_document sample_address
              (sample_request "GET" "/repos/o/secrets/x" BodyEmpty)) as [d|] eqn:E;
    [|vm_compute in E; discriminate E].
  pose proof (decide_refines_config sample_config sample_outcome sample_document sample_address
    (sample_request "GET" "/repos/o/secrets/x" BodyEmpty) BodyEmpty d
    sample_resolves sample_has_document eq_refl E) as H.
  vm_compute in E. injection E as <-. exact H.
Defined.

(** C7.  An "allow" is always granted by name: by the `onMatch` of a candidate rule
    whose condition is true, all the candidates before it being false, or by the
    fallback of a scope none of whose candidates is true or undecided. An
    undecided rule, an address outside every scope and a WebSocket without the
    opt-in never give "allow". *)
Theorem decide_allow_requires document address request leaf d
    (Hdecide : decide_with document address request leaf = Some d)
    (Hallow : dec_action d = Allow) :
  ∃ s, selectScope document address = Some s ∧
    (dr_transport request = Some TransportWebsocket → rs_webSocket s = WsAllow) ∧
    ((∃ r, dec_rule d = Some r ∧ In r (candidates s request) ∧ leaf r = Some TTrue ∧
           rr_onMatch r = Allow ∧ dec_reason d = ReasonRule ∧ dec_inject d = rr_inject r ∧
           ∀ r', In r' (candidates s request) → rule_precedes r' r = true → r' ≠ r →
                 leaf r' = Some TFalse) ∨
     (dec_rule d = None ∧ rs_fallback s = Allow ∧ dec_inject d = rs_inject s ∧
      ∀ r, In r (candidates s request) → leaf r = Some TFalse)).
Proof.
  destruct (decide_with_cases _ _ _ _ _ Hdecide) as [E Ht|E Ht|s E Ht Hw|s rules d E Ht Hord Hout];
    [done|by cbn in Hallow; destruct (doc_fallback document)|done|].
  exists s. split_and!; [done..|].
  destruct Hout as [before r after Hr Hbef Hl|before r after Hr Hbef Hl|Hall].
  - left. exists r. split_and!; try done.
    + apply (orderedCandidates_In _ _ _ Hord). rewrite Hr. apply in_elt.
    + intros r' Hin Hp Hne. rewrite Forall_forall in Hbef.
      by eapply Hbef, list_elem_of_In, orderedCandidates_before.
  - cbn in Hallow. by destruct (rr_onIndeterminate r).
  - right. split_and!; [done..|]. intros r Hr.
    rewrite Forall_forall in Hall. by apply Hall, list_elem_of_In, (orderedCandidates_In _ _ _ Hord).
Qed.

Lemma decide_allow_requires_witness :
  ∃ s, selectScope sample_document sample_address = Some s ∧
    ∃ r, In r (candidates s (sample_request "GET" "/repos/o/r" BodyEmpty)) ∧ rr_id r = "api.read".
Proof.
  destruct (decide_with sample_document sample_address (sample_request "GET" "/repos/o/r" BodyEmpty)
              (default_leaf (sample_request "GET" "/repos/o/r" BodyEmpty))) as [d|] eqn:E;
    [|vm_compute in E; discriminate E].
  assert (dec_action d = Allow ∧ (rr_id <$> dec_rule d) = Some "api.read") as [Ha Hr]
    by (vm_compute in E; injection E as <-; split; reflexivity).
  destruct (decide_allow_requires _ _ _ _ _ E Ha) as (s & Hs & _ & [(r & Hd & Hin & _)|(Hd & _)]).
  - exists s. split; [exact Hs|]. exists r. split; [exact Hin|].
    rewrite Hd in Hr. injection Hr as Hr. exact Hr.
  - rewrite Hd in Hr. discriminate Hr.
Defined.

(** WebSocket traffic fails closed: under a configuration in which no scope
    sets `webSocket = "allow"`, every WebSocket request is denied and carries no
    injected header, at every address. *)
Theorem websocket_fails_closed config outcome document address request leaf d
    (Hresolve : resolveAuthzConfig config = Some outcome)
    (Hdocument : ro_document outcome = Some document)
    (Hnone : forallb (λ entry, negb (bool_decide (so_webSocket entry.2 = Some WsAllow)))
               (nc_scopes (ac_network config)) = true)
    (Htransport : dr_transport request = Some TransportWebsocket)
    (Hdecide : decide_with document address request leaf = Some d) :
  dec_action d = Deny ∧ dec_inject d = [] ∧ dec_reason d = ReasonWebsocketDenied.
Proof.
  destruct (document_scopes _ _ _ Hresolve Hdocument) as (compiled & _ & _ & _ & _ & Hs & _).
  destruct (decide_with_cases _ _ _ _ _ Hdecide) as [| |s E Ht Hw|s rules d E Ht Hord Hout]; try done.
  exfalso. specialize (Ht Htransport). apply selectScope_In in E as [[Hin _]|]; [|done].
  destruct (Hs s Hin) as (entry & c & Ho). destruct (websocket_policy _ _ _ _ _ Ho) as [Hp _].
  rewrite forallb_forall in Hnone. pose proof (Hnone _ (origin_entry _ _ _ _ _ Ho)) as Hn.
  apply negb_true_iff, bool_decide_eq_false in Hn.
  rewrite (scope_config _ _ _ (origin_compiled _ _ _ _ _ Ho)), Ht in Hp.
  by destruct (so_webSocket entry.2) as [[]|].
Qed.

Definition quiet_config : AuthzConfig := {|
  ac_secrets := None; ac_mask := None;
  ac_network := {| nc_scopes := [("wide", sample_wide)]; nc_fallback := None; nc_defaults := None |} |}.

Lemma websocket_fails_closed_witness :
  ∃ document d,
    (resolveAuthzConfig quiet_config ≫= ro_document) = Some document ∧
    decide_with document sample_address
      {| dr_method := "GET"; dr_path := "/"; dr_body := None;
         dr_transport := Some TransportWebsocket |} (λ _, Some TTrue) = Some d ∧
    dec_action d = Deny.
Proof.
  destruct (resolveAuthzConfig quiet_config) as [o|] eqn:E1; [|vm_compute in E1; discriminate E1].
  destruct (ro_document o) as [document|] eqn:E2;
    [|vm_compute in E1; injection E1 as <-; discriminate E2].
  destruct (decide_with document sample_address
      {| dr_method := "GET"; dr_path := "/"; dr_body := None;
         dr_transport := Some TransportWebsocket |} (λ _, Some TTrue)) as [d|] eqn:E3.
  2:{ vm_compute in E1; injection E1 as <-. injection E2 as <-. vm_compute in E3. discriminate E3. }
  exists document, d. cbn. split_and!; [exact E2|exact E3|].
  refine (proj1 (websocket_fails_closed quiet_config o document sample_address _ _ d
                   E1 E2 _ _ E3)); vm_compute; reflexivity.
Defined.

(** The scope with another rule list, and a decision without its scope. *)
Definition with_rules (s : ResolvedScope) (rules : list ResolvedRule) : ResolvedScope := {|
  rs_name := rs_name s; rs_targets := rs_targets s; rs_fallback := rs_fallback s;
  rs_webSocket := rs_webSocket s; rs_fallbackRuleId := rs_fallbackRuleId s;
  rs_limits := rs_limits s; rs_secrets := rs_secrets s; rs_inject := rs_inject s;
  rs_audit := rs_audit s; rs_rules := rules |}.

Definition forget_scope (d : Decision) : Decision := {|
  dec_action := dec_action d; dec_ruleId := dec_ruleId d; dec_reason := dec_reason d;
  dec_scope := None; dec_rule := dec_rule d; dec_expect := dec_expect d;
  dec_inject := dec_inject d; dec_secrets := dec_secrets d; dec_limits := dec_limits d;
  dec_audit := dec_audit d |}.

Lemma decide_rules_with_rules s rules' leaf rules :
  forget_scope <$> decide_rules (with_rules s rules') leaf rules =
  forget_scope <$> decide_rules s leaf rules.
Proof.
  induction rules as [|r rules IH]; simpl; [done|].
  destruct (leaf r) as [[]|]; simpl; [done|exact IH|done|done].
Qed.

(** A rule that is not a candidate for the request has no influence: removing
    it from the scope, wherever it is declared and whatever its precedence
    edges, leaves the decision unchanged. *)
Theorem non_candidate_irrelevant s request leaf before r after
    (Hrules : rs_rules s = before ++ r :: after)
    (Hnot : isCandidate (rr_match r) (dr_method request)
              (pathForSelection (dr_path request)) = false) :
  forget_scope <$> decide_scope s request leaf =
  forget_scope <$> decide_scope (with_rules s (before ++ after)) request leaf.
Proof.
  assert (candidates (with_rules s (before ++ after)) request = candidates s request) as Hc.
  { unfold candidates. rewrite Hrules. simpl. rewrite !List.filter_app. simpl. by rewrite Hnot. }
  unfold decide_scope, orderedCandidates. rewrite Hc.
  destruct (if (length (candidates s request) <? 2)%nat then _ else _) as [rules|]; [|done].
  cbn [mbind option_bind]. symmetry. apply decide_rules_with_rules.
Qed.

Lemma non_candidate_irrelevant_witness :
  forget_scope <$> decide_scope sample_scope (sample_request "POST" "/graphql" BodyEmpty)
    (λ _, Some TTrue) =
  forget_scope <$> decide_scope (with_rules sample_scope (tail (rs_rules sample_scope)))
    (sample_request "POST" "/graphql" BodyEmpty) (λ _, Some TTrue).
Proof.
  destruct (rs_rules sample_scope) as [|r rest] eqn:E; [vm_compute in E; discriminate E|].
  refine (non_candidate_irrelevant sample_scope (sample_request "POST" "/graphql" BodyEmpty)
            (λ _, Some TTrue) [] r rest E _).
  vm_compute in E. injection E as <- _. vm_compute. reflexivity.
Defined.

(** A rule id holds a dot, so it is not the id of the network fallback. *)
Lemma rule_id_not_network config compiled c j b :
  compileAuthzConfig config = Some compiled → no_error (co_diagnostics compiled) →
  In c (co_scopes compiled) → cs_rules c !! j = Some b → FALLBACK_RULE_KEY ≠ cr_id b.
Proof.
  intros Hc He Hin Hb Heq. destruct (compileAuthzConfig_scopes _ _ Hc He) as [_ HF].
  apply list_elem_of_In, list_elem_of_lookup in Hin as [p Hp].
  destruct (Forall2_lookup_r _ _ _ _ _ HF Hp) as (entry & _ & Hsc).
  destruct (Forall2_lookup_r _ _ _ _ _ (scope_rules _ _ _ Hsc) Hb) as (e & _ & Hr).
  apply (f_equal (has_char ".")) in Heq. rewrite (rule_id _ _ _ _ _ _ _ Hr) in Heq.
  rewrite has_char_app in Heq. simpl in Heq. by rewrite orb_true_r in Heq.
Qed.

(** A narrower rule is never overtaken: when the match of rule [a] is strictly
    contained in that of rule [b] of the same scope and [b] does not override [a],
    then a decision attributed to [b] implies that [a] is false on the request -
    neither true nor undecided. *)
Theorem narrower_rule_not_overtaken config outcome document address request body d compiled c a b i j
    (Hresolve : resolveAuthzConfig config = Some outcome)
    (Hdocument : ro_document outcome = Some document)
    (Hcompiled : compileAuthzConfig config = Some compiled)
    (Hbody : dr_body request = Some body)
    (Hdecide : decide document address request = Some d)
    (Hscope : In c (co_scopes compiled))
    (Ha : cs_rules c !! i = Some a) (Hb : cs_rules c !! j = Some b) (Hij : i ≠ j)
    (Hnarrower : compareSpecificity (cr_match a) (cr_match b) = Narrower)
    (Hoverride : includes (overrides_of b) (cr_key a) = false)
    (Hby : dec_ruleId d = cr_id b) :
  selection_truth (cr_match a) request body = TFalse.
Proof.
  destruct (document_scopes _ _ _ Hresolve Hdocument) as (compiled' & Hc' & He & Hv & _).
  assert (compiled' = compiled) as -> by congruence.
  assert (rulePrecedes a b = true) as Hp.
  { unfold rulePrecedes. rewrite Hoverride, bool_decide_true by done.
    by destruct (includes (overrides_of a) (cr_key b)). }
  destruct (decide_configured _ _ _ _ _ _ _ Hresolve Hdocument Hbody Hdecide)
    as (compiled' & Hc'' & Hconf). assert (compiled' = compiled) as -> by congruence.
  rewrite Hby in Hconf. inversion Hconf as [Hn _ Hid|Hn _ Hid|c0 Hin _ _ _ Hid|c0 id act reason Hin _ _ _ Hpre].
  - exfalso. by eapply (rule_id_not_network config compiled c j b).
  - exfalso. by eapply (rule_id_not_network config compiled c j b).
  - exfalso. by eapply (effective_id_not_fallback _ c0 c j b (valid_ids _ Hv)).
  - subst. assert (∀ i' rule, cs_rules c0 !! i' = Some rule → cr_id rule = cr_id b →
      i' = j ∧ c0 = c) as Hpos.
    { intros i' rule Hi' Heq.
      apply list_elem_of_In, list_elem_of_lookup in Hin as [p Hpc], Hscope as [q Hqc].
      by destruct (effective_id_position _ _ _ _ _ _ _ _ _ (valid_ids _ Hv) Hpc Hqc Hi' Hb Heq)
        as (_ & ? & ?). }
    inversion Hpre as [i' rule Hi' _ Hall Hid|i' rule Hi' _ Hall Hid|Hall Hid].
    + destruct (Hpos _ _ Hi' eq_refl) as [-> ->]. simplify_eq. by eapply Hall.
    + destruct (Hpos _ _ Hi' eq_refl) as [-> ->]. simplify_eq. by eapply Hall.
    + exfalso. by eapply (effective_id_not_fallback _ c0 c j b (valid_ids _ Hv)).
Qed.

Lemma narrower_rule_not_overtaken_witness :
  ∃ a, (co_scopes sample_compiled !! 1) ≫= (λ c, cs_rules c !! 1) = Some a ∧
    selection_truth (cr_match a) (sample_request "GET" "/repos/o/r" BodyEmpty) BodyEmpty = TFalse.
Proof.
  destruct (co_scopes sample_compiled) as [|c0 [|c [|]]] eqn:E; try (vm_compute in E; discriminate E).
  destruct (cs_rules c) as [|b [|a rest]] eqn:Er;
    try (vm_compute in E; injection E as _ <-; vm_compute in Er; discriminate Er).
  destruct (decide sample_document sample_address (sample_request "GET" "/repos/o/r" BodyEmpty))
    as [d|] eqn:Ed; [|vm_compute in Ed; discriminate Ed].
  exists a. split; [cbn; rewrite Er; reflexivity|].
  refine (narrower_rule_not_overtaken sample_config sample_outcome sample_document sample_address
    (sample_request "GET" "/repos/o/r" BodyEmpty) BodyEmpty d sample_compiled c a b 1 0
    sample_resolves sample_has_document sample_compiles eq_refl Ed _ _ _ _ _ _ _).
  - rewrite E. right. left. reflexivity.
  - rewrite Er. reflexivity.
  - rewrite Er. reflexivity.
  - discriminate.
  - vm_compute in E. injection E as _ <-. vm_compute in Er. injection Er as <- <- _.
    vm_compute. reflexivity.
  - vm_compute in E. injection E as _ <-. vm_compute in Er. injection Er as <- <- _.
    vm_compute. reflexivity.
  - vm_compute in E. injection E as _ <-. vm_compute in Er. injection Er as <- <- _.
    vm_compute in Ed. injection Ed as <-. reflexivity.
Defined.

(** * Inheritance and injected headers

    Budgets only decrease from the ceilings to the defaults, the scopes and the rules;
    injected headers refer only to secrets that may be injected; tolerated violations
    are audited. *)

(** ** Budgets *)

Lemma rlimit_fold_le limits base keys : ∀ acc,
  (∀ key v, In key keys → limit_get limits key = Some v → (v ≤ rlimit_get base key)%Z) →
  limits_le acc base →
  limits_le (fold_left (merge_limit_step limits) keys acc) base.
Proof.
  induction keys as [|key keys IH]; intros acc Hle Hacc; simpl; [done|].
  apply IH; [by eauto using in_cons|]. intros k. unfold merge_limit_step.
  destruct (limit_get limits key) as [v|] eqn:E; [|apply Hacc].
  rewrite rlimit_get_set. case_decide; [|apply Hacc]. subst.
  apply Hle; [by left|done].
Qed.

(** Accepted budgets are the merged ones, and stay below what is inherited. *)
Lemma checkLimits_valid limits where_ inherited :
  no_error (checkLimits limits where_ inherited).1 →
  (checkLimits limits where_ inherited).2 = mergeLimits inherited limits ∧
  limits_le (mergeLimits inherited limits) inherited.
Proof.
  unfold checkLimits, mergeLimits, no_error. destruct limits as [limits|]; [|by split].
  intros H. apply limit_fold_valid in H as (_ & Hle & ->). split; [done|].
  by apply rlimit_fold_le.
Qed.

Lemma config_limits config :
  no_error (checkLimits (nd_limits (default empty_defaults (nc_defaults (ac_network config))))
    "network.defaults" LIMIT_CEILINGS).1 →
  ctx_limits (config_context config) = rd_limits (resolve_defaults config) ∧
  limits_le (rd_limits (resolve_defaults config)) LIMIT_CEILINGS.
Proof. intros H. by apply checkLimits_valid in H. Qed.

Lemma resolveScope_limits c defaults s :
  resolveScope c defaults = Ok s →
  rs_limits s = mergeLimits (rd_limits defaults) (so_limits (cs_config c)) ∧
  rs_secrets s = cs_dispositions c ∧ rs_audit s = default (rd_audit defaults) (so_audit (cs_config c)) ∧
  rs_inject s = default [] (so_inject (cs_config c)).
Proof. unfold resolveScope. destruct (precedenceCycle _ _); [done|]. by intros [= <-]. Qed.

(** Where a rule of a resolved document comes from. *)
Lemma document_rule_origin config outcome document s r :
  resolveAuthzConfig config = Some outcome → ro_document outcome = Some document →
  In s (doc_scopes document) → In r (rs_rules s) →
  ∃ compiled entry c i rule edges e,
    compileAuthzConfig config = Some compiled ∧ no_error (co_diagnostics compiled) ∧
    scope_origin config compiled s entry c ∧ cs_rules c !! i = Some rule ∧
    In e (default [] (so_rules entry.2)) ∧
    rule_compiled entry.1 entry.2 (config_context config) (cs_dispositions c)
      (checkLimits (so_limits entry.2) (ids ["scope "; entry.1])
         (ctx_limits (config_context config))).2 e rule ∧
    r = resolveRule rule edges {| inh_limits := rs_limits s; inh_secrets := rs_secrets s;
                                  inh_audit := rs_audit s; inh_inject := rs_inject s |}.
Proof.
  intros Hr Hd Hs [i Hi]%list_elem_of_In%list_elem_of_lookup.
  destruct (document_scopes _ _ _ Hr Hd) as (compiled & Hc & He & _ & _ & Hall & _).
  destruct (Hall s Hs) as (entry & c & Ho).
  destruct (resolveScope_rule _ _ _ _ _ (origin_resolved _ _ _ _ _ Ho) Hi)
    as (rule & edges & Hrule & _ & Heq).
  destruct (Forall2_lookup_r _ _ _ _ _ (scope_rules _ _ _ (origin_compiled _ _ _ _ _ Ho)) Hrule)
    as (e & Hin & Hrc).
  exists compiled, entry, c, i, rule, edges, e. split_and!; try done.
  apply list_elem_of_In, list_elem_of_lookup. eauto.
Qed.

(** Budgets can only be lowered: in a resolved document the defaults stay under
    the built-in ceilings, every scope under the defaults and every rule under
    its scope, for each of the four budgets. *)
Theorem budgets_only_decrease config outcome document s r
    (Hresolve : resolveAuthzConfig config = Some outcome)
    (Hdocument : ro_document outcome = Some document)
    (Hscope : In s (doc_scopes document)) (Hrule : In r (rs_rules s)) :
  limits_le (rd_limits (doc_defaults document)) LIMIT_CEILINGS ∧
  limits_le (rs_limits s) (rd_limits (doc_defaults document)) ∧
  limits_le (rr_limits r) (rs_limits s).
Proof.
  destruct (document_rule_origin _ _ _ _ _ Hresolve Hdocument Hscope Hrule)
    as (compiled & entry & c & i & rule & edges & e & Hc & He & Ho & _ & _ & Hrc & ->).
  destruct (resolveAuthzConfig_document _ _ _ Hresolve Hdocument)
    as (_ & _ & _ & _ & _ & _ & -> & _).
  destruct (compileAuthzConfig_scopes _ _ Hc He) as [Hdl _].
  apply config_limits in Hdl as [Hctx Hceil].
  destruct (resolveScope_limits _ _ _ (origin_resolved _ _ _ _ _ Ho)) as (Hl & _).
  pose proof (origin_compiled _ _ _ _ _ Ho) as Hsc.
  rewrite (scope_config _ _ _ Hsc) in Hl.
  pose proof (checkLimits_valid _ _ _ (scope_limits _ _ _ Hsc)) as [Heq Hle].
  rewrite Hctx in Heq, Hle. split; [done|]. rewrite Hl. split; [done|].
  cbn [rr_limits resolveRule inh_limits]. rewrite (rule_config _ _ _ _ _ _ _ Hrc).
  pose proof (rule_limits _ _ _ _ _ _ _ Hrc) as Hrl. rewrite Hctx, Heq in Hrl.
  by apply checkLimits_valid in Hrl as [_ ?].
Qed.

Lemma budgets_only_decrease_witness :
  ∃ s r, In s (doc_scopes sample_document) ∧ In r (rs_rules s) ∧
    rl_maxBodyBytes (rr_limits r) = 1024%Z ∧ limits_le (rr_limits r) (rs_limits s).
Proof.
  destruct (doc_scopes sample_document) as [|s rest] eqn:E; [vm_compute in E; discriminate E|].
  destruct (rs_rules s) as [|r1 [|r2 [|r l]]] eqn:Er;
    try (vm_compute in E; injection E as <- _; vm_compute in Er; discriminate Er).
  exists s, r. split; [left; reflexivity|]. split; [rewrite Er; right; right; left; reflexivity|].
  split.
  - vm_compute in E; injection E as <- _; vm_compute in Er. injection Er as _ _ <- _. reflexivity.
  - apply (budgets_only_decrease sample_config sample_outcome sample_document s r
             sample_resolves sample_has_document).
    + rewrite E. left. reflexivity.
    + rewrite Er. right. right. left. reflexivity.
Defined.

(** ** Injected headers *)

(** Every header a resolved rule injects parses, and every secret it refers to
    is registered, has a single value and has the effective disposition
    "inject" for that rule, a name without its own entry falling under the
    wildcard one. *)
Theorem injected_secrets_injectable config outcome document s r entry
    (Hresolve : resolveAuthzConfig config = Some outcome)
    (Hdocument : ro_document outcome = Some document)
    (Hscope : In s (doc_scopes document)) (Hrule : In r (rs_rules s))
    (Hentry : In entry (rr_inject r)) :
  ∃ value, parseInjectValue (inj_value entry) = Ok value ∧
    ∀ name, In name (injectReferences value) →
      ∃ secret, map_get (default [] (ac_secrets config)) name = Some secret ∧
        expandsToMultipleValues secret = false ∧ dispositionOf (rr_secrets r) name = DispInject.
Proof.
  destruct (document_rule_origin _ _ _ _ _ Hresolve Hdocument Hscope Hrule)
    as (compiled & sc & c & i & rule & edges & e & Hc & He & Ho & _ & _ & Hrc & ->).
  destruct (resolveScope_limits _ _ _ (origin_resolved _ _ _ _ _ Ho)) as (_ & Hsec & _ & Hinj).
  rewrite (scope_config _ _ _ (origin_compiled _ _ _ _ _ Ho)) in Hinj.
  cbn [rr_inject rr_secrets resolveRule inh_inject inh_secrets] in *.
  rewrite (rule_config _ _ _ _ _ _ _ Hrc) in Hentry |- *. rewrite Hsec.
  assert (effectiveInject (Some (rs_inject s)) (rc_inject e.2) =
          effectiveInject (so_inject sc.2) (rc_inject e.2)) as Heq.
  { unfold effectiveInject. by rewrite Hinj. }
  rewrite Heq in Hentry.
  pose proof (rule_injects _ _ _ _ _ _ _ Hrc) as HF. rewrite Forall_forall in HF.
  apply list_elem_of_In, HF in Hentry as (value & Hv & Hall).
  exists value. split; [done|]. intros name Hn. rewrite Forall_forall in Hall.
  apply list_elem_of_In, Hall in Hn as (secret & Hg & Hm & Hd).
  exists secret. split_and!; [done..|].
  by destruct (rc_secrets e.2).
Qed.

Lemma injected_secrets_injectable_witness :
  ∃ s r entry value, In s (doc_scopes sample_document) ∧ In r (rs_rules s) ∧ In entry (rr_inject r) ∧
    parseInjectValue (inj_value entry) = Ok value ∧ injectReferences value = ["token"].
Proof.
  destruct (doc_scopes sample_document) as [|s rest] eqn:E; [vm_compute in E; discriminate E|].
  destruct (rs_rules s) as [|r1 [|r2 [|r l]]] eqn:Er;
    try (vm_compute in E; injection E as <- _; vm_compute in Er; discriminate Er).
  destruct (rr_inject r) as [|i1 [|i2 li]] eqn:Ei;
    try (vm_compute in E; injection E as <- _; vm_compute in Er; injection Er as _ _ <- _;
         vm_compute in Ei; discriminate Ei).
  destruct (injected_secrets_injectable sample_config sample_outcome sample_document s r i2
             sample_resolves sample_has_document) as (value & Hv & _).
  { rewrite E. left. reflexivity. }
  { rewrite Er. right. right. left. reflexivity. }
  { rewrite Ei. right. left. reflexivity. }
  exists s, r, i2, value. split; [left; reflexivity|].
  split; [rewrite Er; right; right; left; reflexivity|].
  split; [rewrite Ei; right; left; reflexivity|]. split; [exact Hv|].
  vm_compute in E; injection E as <- _; vm_compute in Er; injection Er as _ _ <- _;
    vm_compute in Ei; injection Ei as _ <- _. vm_compute in Hv. injection Hv as <-. reflexivity.
Defined.

(** A violation is never let through unrecorded: a resolved rule with an
    expectation whose violation is "allow" has the audit mode "always". *)
Theorem allowed_violations_audited config outcome document s r expect
    (Hresolve : resolveAuthzConfig config = Some outcome)
    (Hdocument : ro_document outcome = Some document)
    (Hscope : In s (doc_scopes document)) (Hrule : In r (rs_rules s))
    (Hexpect : In expect (rr_expect r)) (Hallow : re_onViolation expect = VioAllow) :
  rr_audit r = AuditAlways.
Proof.
  destruct (document_rule_origin _ _ _ _ _ Hresolve Hdocument Hscope Hrule)
    as (compiled & sc & c & i & rule & edges & e & Hc & He & Ho & _ & _ & Hrc & ->).
  destruct (resolveScope_limits _ _ _ (origin_resolved _ _ _ _ _ Ho)) as (_ & _ & Haud & _).
  rewrite (scope_config _ _ _ (origin_compiled _ _ _ _ _ Ho)) in Haud.
  cbn [rr_expect rr_audit resolveRule inh_audit] in *.
  rewrite (rule_config _ _ _ _ _ _ _ Hrc) in Hexpect |- *.
  pose proof (rule_expects _ _ _ _ _ _ _ Hrc) as Hex.
  unfold checkExpects, no_error in Hex. rewrite has_error_app in Hex.
  apply orb_false_iff in Hex as [_ Hex].
  assert (existsb (λ expect, bool_decide (ex_onViolation expect = Some VioAllow))
            (default [] (rc_expect e.2)) = true) as Hsome.
  { apply in_map_iff in Hexpect as (x & <- & Hx). apply existsb_exists. exists x.
    split; [done|]. apply bool_decide_eq_true. cbn in Hallow.
    destruct (ex_onViolation x) as [[]|]; done. }
  rewrite Hsome in Hex. cbn [negb] in Hex. case_bool_decide as Ha; [|done].
  unfold effectiveAudit in Ha. rewrite Haud. exact Ha.
Qed.

Lemma allowed_violations_audited_witness :
  ∃ s r, In s (doc_scopes sample_document) ∧ In r (rs_rules s) ∧ rr_expect r ≠ [] ∧
    rr_audit r = AuditAlways.
Proof.
  destruct (doc_scopes sample_document) as [|s rest] eqn:E; [vm_compute in E; discriminate E|].
  destruct (rs_rules s) as [|r1 [|r2 [|r l]]] eqn:Er;
    try (vm_compute in E; injection E as <- _; vm_compute in Er; discriminate Er).
  destruct (rr_expect r) as [|x lx] eqn:Ex;
    [vm_compute in E; injection E as <- _; vm_compute in Er; injection Er as _ _ <- _;
     vm_compute in Ex; discriminate Ex|].
  exists s, r. split; [left; reflexivity|].
  split; [rewrite Er; right; right; left; reflexivity|]. split; [rewrite Ex; discriminate|].
  apply (allowed_violations_audited sample_config sample_outcome sample_document s r x
           sample_resolves sample_has_document).
  - rewrite E. left. reflexivity.
  - rewrite Er. right. right. left. reflexivity.
  - rewrite Ex. left. reflexivity.
  - vm_compute in E; injection E as <- _; vm_compute in Er; injection Er as _ _ <- _.
    vm_compute in Ex. injection Ex as <- _. reflexivity.
Defined.
