(* ===== verification/Dind.v ===== *)
(** * The policy of Docker-in-Docker (network/authz/dind.ts)

    Containers started inside a session get a policy of their own: the scopes of
    `docker.networkScopes`, with "deny" outside of them, and nobody to ask. *)
From S2P Require Import Prelude JsString Json Containment AuthzTypes Pattern Relation Selection.
From S2P Require Import Semantics MatchLaws Targets Specificity AuthzConfig Witness Validate.
From S2P Require Import Compile CompileLaws Resolve Decide Samples ResolveLaws DecideLaws.

#[export] Instance IndeterminateAction_eq_dec : EqDecision IndeterminateAction.
Proof. solve_decision. Defined.

(** The members of a profile the function reads. *)
Record DindProfile : Type := {
  dp_secrets : option (list (string * SecretConfig));
  dp_mask : option MaskConfig;
  (** `docker.networkScopes` *)
  dp_networkScopes : option (list (string * ScopeConfig));
}.

(** `text.replaceAll(p, by)` for a non-empty [p]; [skip] characters of an occurrence
    are still to be read. *)
Fixpoint replaceAll (p by_ : string) (skip : nat) (text : string) : string :=
  match text with
  | EmptyString => ""
  | String c rest =>
      match skip with
      | S skip => replaceAll p by_ skip rest
      | 0 =>
          if String.prefix p text
          then by_ +:+ replaceAll p by_ (slen p - 1) rest
          else String c (replaceAll p by_ 0 rest)
      end
  end.

(** `rejectReview`, on a value that is "review" or not. *)
Definition rejectReview (is_review : bool) (field : string) : list Diagnostic :=
  if is_review
  then [error (ids ["docker.networkScopes."; field; ": review is not supported for DinD"])]
  else [].

Definition reject_rule (name : string) (entry : string * RuleConfig) : list Diagnostic :=
  let rule := entry.2 in
  let prefix := name +:+ ".rules." +:+ entry.1 in
  rejectReview (bool_decide (rc_onMatch rule = Review)) (prefix +:+ ".onMatch") ++
  rejectReview (bool_decide (rc_onIndeterminate rule = Some IndReview)) (prefix +:+ ".onIndeterminate") ++
  concat (imap (λ index expect,
    rejectReview (bool_decide (ex_onViolation expect = Some VioReview))
      (prefix +:+ ".expect[" +:+ nat_to_string index +:+ "].onViolation"))
    (default [] (rc_expect rule))).

Definition reject_scope (entry : string * ScopeConfig) : list Diagnostic :=
  rejectReview (bool_decide (so_fallback entry.2 = Some Review)) (entry.1 +:+ ".fallback") ++
  flat_map (reject_rule entry.1) (default [] (so_rules entry.2)).

Definition dind_config (profile : DindProfile) : AuthzConfig := {|
  ac_secrets := dp_secrets profile; ac_mask := dp_mask profile;
  ac_network := {| nc_scopes := default [] (dp_networkScopes profile);
                   nc_fallback := Some NetDeny; nc_defaults := None |} |}.

Definition reworded (diagnostic : Diagnostic) : Diagnostic := {|
  d_severity := d_severity diagnostic;
  d_message := "docker.networkScopes: " +:+
    replaceAll "network.defaults.secrets" "docker.networkScopes.<scope>.secrets" 0
      (d_message diagnostic) |}.

Definition resolveDindAuthzConfig (profile : DindProfile) : option ResolveOutcome :=
  let diagnostics := flat_map reject_scope (default [] (dp_networkScopes profile)) in
  result ← resolveAuthzConfig (dind_config profile);
  Some {| ro_document := if (0 <? length diagnostics)%nat then None else ro_document result;
          ro_diagnostics := diagnostics ++ map reworded (ro_diagnostics result) |}.

(** ** No "review" is left *)

Lemma rejectReview_nil b field : rejectReview b field = [] → b = false.
Proof. by destruct b. Qed.

Lemma flat_map_nil {A B} (f : A → list B) l : flat_map f l = [] → ∀ x, In x l → f x = [].
Proof.
  induction l as [|a l IH]; [done|]. cbn. intros [Ha Hl]%app_eq_nil x [<-|Hx]; auto.
Qed.

Lemma concat_nil {A} (l : list (list A)) : concat l = [] → ∀ x, In x l → x = [].
Proof. rewrite <- (map_id l) at 1. rewrite <- flat_map_concat_map. apply flat_map_nil. Qed.

Lemma reject_rule_nil name entry : reject_rule name entry = [] →
  rc_onMatch entry.2 ≠ Review ∧ rc_onIndeterminate entry.2 ≠ Some IndReview ∧
  ∀ e, In e (default [] (rc_expect entry.2)) → ex_onViolation e ≠ Some VioReview.
Proof.
  unfold reject_rule. intros [Hm [Hi He]%app_eq_nil]%app_eq_nil.
  apply rejectReview_nil, bool_decide_eq_false in Hm, Hi. split_and!; [done|done|].
  intros e [i Hin]%list_elem_of_In%list_elem_of_lookup.
  refine (bool_decide_eq_false_1 _ (rejectReview_nil _ _ (concat_nil _ He _ _))).
  apply list_elem_of_In, list_elem_of_lookup. exists i. by rewrite list_lookup_imap, Hin.
Qed.

(** C39.  Nobody is asked on behalf of Docker-in-Docker: a document of DinD never
    decides "review", none of the expectations it hands to the proxy asks for a
    review, and an address outside of its scopes is denied. *)
Theorem dind_never_reviews profile outcome document address request leaf d
    (Hresolve : resolveDindAuthzConfig profile = Some outcome)
    (Hdocument : ro_document outcome = Some document)
    (Hdecide : decide_with document address request leaf = Some d) :
  dec_action d ≠ Review ∧ (∀ e, In e (dec_expect d) → re_onViolation e ≠ VioReview) ∧
  (selectScope document address = None → dec_action d = Deny).
Proof.
  unfold resolveDindAuthzConfig in Hresolve.
  destruct (resolveAuthzConfig (dind_config profile)) as [result|] eqn:Er; [|done]. cbn in Hresolve.
  injection Hresolve as <-. cbn in Hdocument.
  destruct (flat_map reject_scope _) as [|? ?] eqn:Ed; [|done]. cbn in Hdocument.
  pose proof (flat_map_nil _ _ Ed) as Hnone.
  destruct (document_scopes _ _ _ Er Hdocument) as (compiled0 & _ & _ & _ & _ & Horig & _ & _ & _ & Hfall).
  assert (∀ s, In s (doc_scopes document) → rs_fallback s ≠ Review) as Hfallback.
  { intros s Hs. destruct (Horig s Hs) as (entry & c & Ho).
    pose proof (Hnone entry (origin_entry _ _ _ _ _ Ho)) as [Hf _]%app_eq_nil.
    apply rejectReview_nil, bool_decide_eq_false in Hf.
    pose proof (origin_resolved _ _ _ _ _ Ho) as Hr. unfold resolveScope in Hr.
    destruct (precedenceCycle _ _); [done|]. injection Hr as <-. cbn.
    rewrite (scope_config _ _ _ (origin_compiled _ _ _ _ _ Ho)). by destruct (so_fallback entry.2) as [[]|]. }
  assert (∀ s r, In s (doc_scopes document) → In r (rs_rules s) →
    rr_onMatch r ≠ Review ∧ rr_onIndeterminate r = IndDeny ∧
    ∀ e, In e (rr_expect r) → re_onViolation e ≠ VioReview) as Hrules.
  { intros s r Hs Hr.
    destruct (document_rule_origin _ _ _ _ _ Er Hdocument Hs Hr)
      as (compiled & entry & c & i & rule & edges & e & _ & _ & Ho & _ & He & Hrc & ->).
    pose proof (Hnone entry (origin_entry _ _ _ _ _ Ho)) as [_ Hrs]%app_eq_nil.
    pose proof (flat_map_nil _ _ Hrs e He) as (Hm & Hi & Hx)%reject_rule_nil.
    cbn. rewrite (rule_config _ _ _ _ _ _ _ Hrc). split_and!; [done| |].
    - by destruct (rc_onIndeterminate e.2) as [[]|].
    - intros re (x & <- & Hin)%in_map_iff. specialize (Hx x Hin). cbn.
      by destruct (ex_onViolation x) as [[]|]. }
  destruct (decide_with_cases _ _ _ _ _ Hdecide) as [E Ht|E Ht|s E Ht Hw|s rules d E Ht Hord Hout];
    cbn; [by split_and!| |by split_and!|].
  { rewrite Hfall. by split_and!. }
  pose proof (selectScope_In _ _ _ _ E) as [[Hs _]|]; [|done]. rewrite E.
  destruct Hout as [b r a -> _ _|b r a -> _ _|_]; cbn; [..|by split_and!; auto].
  all: assert (In r (rs_rules s)) as Hr
    by (eapply filter_In, (orderedCandidates_In _ _ _ Hord), in_elt).
  all: destruct (Hrules s r Hs Hr) as (Hm & Hi & Hx); rewrite ?Hi; by split_and!.
Qed.

(** The registry of container images, for pulls only. *)
Definition pull_scope : ScopeConfig := {|
  so_targets := ["registry.example.com:443"]; so_fallback := None; so_webSocket := None;
  so_limits := None; so_secrets := None; so_inject := None; so_audit := None;
  so_rules := Some [("pull", {|
    rc_match := {| m_methods := Some ["GET"; "HEAD"]; m_paths := ["/v2/**"]; m_captures := None;
                   m_body := None |};
    rc_onMatch := Allow; rc_onIndeterminate := None;
    rc_expect := Some [{| ex_shape := EmptyBody; ex_onViolation := None |}]; rc_limits := None;
    rc_secrets := None; rc_inject := None; rc_audit := None; rc_overrides := None |})] |}.

Definition dind_profile (scope : ScopeConfig) : DindProfile :=
  {| dp_secrets := None; dp_mask := None; dp_networkScopes := Some [("registry", scope)] |}.

Definition dind_outcome : ResolveOutcome := Eval vm_compute in
  default no_outcome (resolveDindAuthzConfig (dind_profile pull_scope)).
Definition dind_document : ResolvedDocument := Eval vm_compute in
  default no_document (ro_document dind_outcome).

Definition dind_decision (method host : string) : option Decision :=
  decide_with dind_document {| ta_host := host; ta_port := 443 |}
    (sample_request method "/v2/library/alpine/manifests/latest" BodyEmpty) (λ _, Some TTrue).

(** Pulls are allowed, pushes and other hosts are denied. *)
Example dind_pull :
  dec_action <$> dind_decision "GET" "registry.example.com" = Some Allow ∧
  dec_action <$> dind_decision "POST" "registry.example.com" = Some Deny ∧
  dec_action <$> dind_decision "GET" "api.anthropic.com" = Some Deny.
Proof. vm_compute. repeat split. Qed.

(** A scope that falls back to "review" has no document. *)
Example dind_refuses_review :
  ro_document <$> resolveDindAuthzConfig (dind_profile {|
    so_targets := ["registry.example.com:443"]; so_fallback := Some Review; so_webSocket := None;
    so_limits := None; so_secrets := None; so_inject := None; so_audit := None;
    so_rules := None |}) = Some None.
Proof. vm_compute. reflexivity. Qed.

Lemma dind_never_reviews_witness :
  ∃ d, dind_decision "GET" "registry.example.com" = Some d ∧ dec_action d ≠ Review.
Proof.
  destruct (dind_decision "GET" "registry.example.com") as [d|] eqn:Ed; [|vm_compute in Ed; discriminate].
  exists d. split; [reflexivity|].
  exact (proj1 (dind_never_reviews (dind_profile pull_scope) dind_outcome dind_document
    {| ta_host := "registry.example.com"; ta_port := 443 |}
    (sample_request "GET" "/v2/library/alpine/manifests/latest" BodyEmpty) (λ _, Some TTrue) d
    ltac:(vm_compute; reflexivity) ltac:(vm_compute; reflexivity) Ed)).
Defined.
