(* ===== verification/Redaction.v ===== *)
(** * Redaction of injected literals

    [withoutInjectLiterals] keeps the header names and the secrets they refer to,
    drops every literal text, and changes nothing about the decisions. *)
From S2P Require Import Prelude JsString Json Containment AuthzTypes Pattern Relation Selection.
From S2P Require Import Semantics MatchLaws Targets Specificity AuthzConfig Witness Validate.
From S2P Require Import Compile CompileLaws Resolve Decide Samples.

(** ** The sort commutes with a map that keeps the relation *)

Lemma order_loop_ext size preds preds' :
  (∀ j, preds j = preds' j) → ∀ turns emitted,
  order_loop turns size preds emitted = order_loop turns size preds' emitted.
Proof.
  intros He.
  assert (∀ emitted i, ready preds emitted i = ready preds' emitted i) as Hr.
  { intros emitted i. unfold ready. by rewrite He. }
  assert (∀ emitted fuel at_ walk,
    cycle_walk fuel preds emitted at_ walk = cycle_walk fuel preds' emitted at_ walk) as Hw.
  { intros emitted. induction fuel as [|fuel IH]; intros at_ walk; [done|]. cbn [cycle_walk].
    rewrite He. repeat case_match; auto. }
  assert (∀ emitted l, find (ready preds emitted) l = find (ready preds' emitted) l) as Hf.
  { intros emitted l. induction l as [|x l IH]; simpl; [done|]. by rewrite Hr, IH. }
  induction turns as [|turns IH]; intros emitted; [done|]. cbn [order_loop]. rewrite Hf.
  case_match; [done|]. unfold findCycle. by repeat case_match; rewrite ?Hw.
Qed.

Lemma items_at_map {A B} (f : A → B) items indices :
  items_at (map f items) indices = map f (items_at items indices).
Proof.
  unfold items_at. induction indices as [|i indices IH]; [done|]. simpl.
  change (map f items) with (f <$> items). rewrite list_lookup_fmap.
  destruct (items !! i); simpl; [f_equal|]; exact IH.
Qed.

Lemma precedenceOrder_map {A B} (f : A → B) items (pa : A → A → bool) (pb : B → B → bool) :
  (∀ x y, pb (f x) (f y) = pa x y) →
  precedenceOrder (map f items) (λ a b _ _, pb a b) =
  match precedenceOrder items (λ a b _ _, pa a b) with
  | Ordered l => Ordered (map f l)
  | Cyclic l => Cyclic (map f l)
  end.
Proof.
  intros Hp. unfold precedenceOrder. rewrite length_map.
  assert (∀ j, predecessors (map f items) (λ a b _ _, pb a b) j =
               predecessors items (λ a b _ _, pa a b) j) as He.
  { intros j. unfold predecessors. rewrite length_map. apply filter_ext. intros i.
    change (map f items) with (f <$> items). rewrite !list_lookup_fmap.
    by destruct (items !! i), (items !! j); simpl; rewrite ?Hp. }
  rewrite (order_loop_ext _ _ _ He). by case_match; rewrite items_at_map.
Qed.

(** ** Headers *)

Definition reference (name : string) : string := "${" +:+ name +:+ "}".

Lemma template_names_references names :
  Forall (λ n, has_char "}" n = false) names →
  template_names (join "" (map reference names)) = names.
Proof.
  induction 1 as [|n names Hn _ IH]; [done|].
  assert (join "" (map reference (n :: names)) =
          "${" +:+ n +:+ "}" +:+ join "" (map reference names)) as ->.
  { simpl. unfold reference. destruct names; simpl; by rewrite ?sapp_nil_r, ?sapp_assoc. }
  by rewrite template_names_reference, IH.
Qed.

Lemma template_names_brace_free text : Forall (λ n, has_char "}" n = false) (template_names text).
Proof. by apply template_scan_brace_free. Qed.

(** The part of a parsed value that is not secret. *)
Definition public_part (v : InjectValue) : InjectValue :=
  match v with
  | InjLiteral _ => InjLiteral ""
  | InjSecret name => InjSecret name
  | InjTemplate _ names => InjTemplate (join "" (map reference names)) names
  end.

Lemma drop_prefix p s : drop_str (slen p) (p +:+ s) = s.
Proof. by induction p. Qed.

Lemma prefix_empty s : String.prefix "" s = true.
Proof. by destruct s. Qed.

Lemma parseInjectValue_template text :
  parseInjectValue ("template:" +:+ text) = Ok (InjTemplate text (template_names text)).
Proof. unfold parseInjectValue. cbn. by rewrite prefix_empty. Qed.

Lemma parseInjectValue_Ok value v :
  parseInjectValue value = Ok v →
  match v with
  | InjLiteral _ => True
  | InjSecret name => name ≠ ""
  | InjTemplate text names => names = template_names text
  end.
Proof.
  unfold parseInjectValue. destruct (startsWith value "literal:"); [by intros [= <-]|].
  destruct (startsWith value "secret:").
  { destruct (String.eqb_spec (drop_str 7 value) ""); [done|]. by intros [= <-]. }
  destruct (startsWith value "template:"); [|done]. by intros [= <-].
Qed.

Lemma redactInject_parse entry v :
  parseInjectValue (inj_value entry) = Ok v →
  parseInjectValue (inj_value (redactInject entry)) = Ok (public_part v).
Proof.
  intros H. unfold redactInject. rewrite H. apply parseInjectValue_Ok in H.
  destruct v as [text|name|text names]; cbn [inj_value public_part].
  - done.
  - unfold parseInjectValue. cbn.
    apply String.eqb_neq in H. by rewrite H, prefix_empty.
  - subst names. change (parseInjectValue ("template:" +:+ join "" (map reference (template_names text)))
                         = Ok (InjTemplate (join "" (map reference (template_names text)))
                                 (template_names text))).
    by rewrite parseInjectValue_template, template_names_references
      by apply template_names_brace_free.
Qed.

Lemma redactInject_invalid entry e :
  parseInjectValue (inj_value entry) = Err e →
  redactInject entry = {| inj_name := inj_name entry; inj_value := "literal:" |}.
Proof. intros H. unfold redactInject. by rewrite H. Qed.

Lemma redactInject_public entry v :
  parseInjectValue (inj_value entry) = Ok v →
  redactInject entry = {| inj_name := inj_name entry;
    inj_value := match public_part v with
                 | InjLiteral text => "literal:" +:+ text
                 | InjSecret name => "secret:" +:+ name
                 | InjTemplate text _ => "template:" +:+ text
                 end |}.
Proof. intros H. unfold redactInject. rewrite H. by destruct v. Qed.

Lemma public_part_idem v : public_part (public_part v) = public_part v.
Proof. by destruct v. Qed.

(** Redaction keeps what a header is for and nothing else: the redacted value
    parses, its header name and the secrets it refers to (in order) are those of
    the original, redacting again changes nothing, and two headers that differ
    in literal text only become equal. *)
Theorem redactInject_keeps_references entry v
    (Hparse : parseInjectValue (inj_value entry) = Ok v) :
  inj_name (redactInject entry) = inj_name entry ∧
  (∃ v', parseInjectValue (inj_value (redactInject entry)) = Ok v' ∧
         injectReferences v' = injectReferences v) ∧
  redactInject (redactInject entry) = redactInject entry ∧
  (∀ other w, inj_name other = inj_name entry → parseInjectValue (inj_value other) = Ok w →
     public_part w = public_part v → redactInject other = redactInject entry).
Proof.
  pose proof (redactInject_parse _ _ Hparse) as Hp.
  assert (inj_name (redactInject entry) = inj_name entry) as Hn
    by (rewrite (redactInject_public _ _ Hparse); done).
  split_and!; [done| | |].
  - exists (public_part v). split; [done|]. by destruct v.
  - rewrite (redactInject_public _ _ Hp), public_part_idem, Hn.
    by rewrite (redactInject_public _ _ Hparse).
  - intros other w Hname Hw Hv.
    by rewrite (redactInject_public _ _ Hw), (redactInject_public _ _ Hparse), Hname, Hv.
Qed.

Lemma redactInject_keeps_references_witness :
  redactInject {| inj_name := "h"; inj_value := "template:user ${a}:pw ${b}!" |} =
  redactInject {| inj_name := "h"; inj_value := "template:${a}${b}" |}.
Proof.
  destruct (redactInject_keeps_references {| inj_name := "h"; inj_value := "template:${a}${b}" |}
              (InjTemplate "${a}${b}" ["a"; "b"]) eq_refl) as (_ & _ & _ & H).
  apply (H _ (InjTemplate "user ${a}:pw ${b}!" ["a"; "b"])); vm_compute; reflexivity.
Defined.

(** ** Decisions *)

Definition redact_decision (d : Decision) : Decision := {|
  dec_action := dec_action d; dec_ruleId := dec_ruleId d; dec_reason := dec_reason d;
  dec_scope := redact_scope <$> dec_scope d; dec_rule := redact_rule <$> dec_rule d;
  dec_expect := dec_expect d; dec_inject := map redactInject (dec_inject d);
  dec_secrets := dec_secrets d; dec_limits := dec_limits d; dec_audit := dec_audit d |}.

Lemma select_redact address l : ∀ best,
  fold_left (select_step address) (map redact_scope l) (redact_scope <$> best) =
  redact_scope <$> fold_left (select_step address) l best.
Proof.
  induction l as [|s l IH]; intros best; simpl; [done|]. rewrite <- IH. f_equal.
  unfold select_step, scopeMatchesAddress. cbn [rs_targets redact_scope].
  destruct (negb _); [done|]. destruct best as [b|]; [|done]. cbn. by case_bool_decide.
Qed.

Lemma orderedCandidates_redact s request :
  orderedCandidates (redact_scope s) request = map redact_rule <$> orderedCandidates s request.
Proof.
  assert (candidates (redact_scope s) request = map redact_rule (candidates s request)) as Hc.
  { unfold candidates. cbn [rs_rules redact_scope]. induction (rs_rules s) as [|r l IH]; [done|].
    simpl. cbn [rr_match redact_rule]. destruct (isCandidate _ _ _); simpl; by rewrite IH. }
  unfold orderedCandidates. rewrite Hc, length_map. destruct (length _ <? 2)%nat; [done|].
  rewrite (precedenceOrder_map redact_rule _ rule_precedes rule_precedes) by done.
  by destruct (precedenceOrder _ _).
Qed.

Lemma decide_rules_redact s leaf leaf' rules :
  (∀ r, leaf' (redact_rule r) = leaf r) →
  decide_rules (redact_scope s) leaf' (map redact_rule rules) =
  redact_decision <$> decide_rules s leaf rules.
Proof.
  intros Hl. induction rules as [|r rules IH]; simpl; [done|].
  rewrite Hl. destruct (leaf r) as [[]|]; simpl; [done|exact IH|done|done].
Qed.

(** The redacted document decides like the original: for every address and
    request, the same rule, action, reason, expectations, budgets, dispositions
    and audit mode, and the headers redacted; an error on one is an error on the
    other. *)
Theorem redacted_document_decides document address request :
  decide (withoutInjectLiterals document) address request =
  redact_decision <$> decide document address request.
Proof.
  unfold decide, decide_with.
  assert (selectScope (withoutInjectLiterals document) address =
          redact_scope <$> selectScope document address) as ->.
  { exact (select_redact address (doc_scopes document) None). }
  destruct (selectScope document address) as [s|]; cbn [fmap option_fmap option_map].
  - cbn [rs_webSocket redact_scope]. destruct (_ && _); [done|].
    unfold decide_scope. rewrite orderedCandidates_redact.
    destruct (orderedCandidates s request) as [rules|]; [|done].
    cbn [fmap option_fmap option_map mbind option_bind]. by apply decide_rules_redact.
  - by case_bool_decide.
Qed.
