(* ===== verification/OrderLaws.v ===== *)
(** * Properties of the evaluation order

    What the topological sort of network/authz/specificity.ts promises, and the
    consequences of an error-free compilation for pairs of rules. *)
From S2P Require Import Prelude JsString Json Containment AuthzTypes Pattern Relation Selection.
From S2P Require Import Semantics MatchLaws Targets Specificity AuthzConfig Witness Validate.
From S2P Require Import Compile CompileLaws Resolve Decide Samples ResolveLaws.

(** The sort ends with one of two answers, each with its evidence: an order that
    is a permutation of the items and puts the source of every edge before its
    target, or a cycle, a non-empty list of distinct items each preceding the
    next and the last preceding the first. *)
Theorem precedenceOrder_correct {T} (items : list T) (precedes : T → T → nat → nat → bool) :
  match precedenceOrder items precedes with
  | Ordered l => ∃ indices, orders items indices l ∧ Permutation l items ∧
      ∀ i j, edge items precedes i j →
        ∃ k m, indices !! k = Some i ∧ indices !! m = Some j ∧ (k < m)%nat
  | Cyclic c => ∃ indices, c = items_at items indices ∧ List.NoDup indices ∧
      (∀ k i j, indices !! k = Some i → indices !! S k = Some j → edge items precedes i j) ∧
      ∃ first last_, head indices = Some first ∧ last indices = Some last_ ∧
                     edge items precedes last_ first
  end.
Proof.
  destruct (precedenceOrder items precedes) as [l|c] eqn:E.
  - destruct (precedenceOrder_Ordered _ _ _ E) as (indices & Ho & He).
    exists indices. split_and!; [done| |done]. destruct Ho as [Hp ->].
    transitivity (items_at items (seq 0 (length items))); [|by rewrite items_at_seq].
    unfold items_at. by apply omap_Permutation.
  - by apply precedenceOrder_Cyclic.
Qed.

(** Ties keep the declared order: when no item precedes an earlier one, the sort
    returns the items as they were given. *)
Theorem precedenceOrder_keeps_declaration {T} (items : list T) (precedes : T → T → bool)
    (Hforward : ∀ i j a b, items !! i = Some a → items !! j = Some b → (j < i)%nat →
                  precedes a b = false) :
  precedenceOrder items (λ a b _ _, precedes a b) = Ordered items.
Proof.
  apply precedenceOrder_declared. intros i j (Hij & a & b & Ha & Hb & Hp).
  destruct (Nat.lt_trichotomy i j) as [|[|Hlt]]; [done|done|].
  by rewrite (Hforward i j a b Ha Hb Hlt) in Hp.
Qed.

Lemma precedenceOrder_keeps_declaration_witness :
  precedenceOrder [1; 3; 2] (λ a b _ _, (a =? 1)%nat && (b =? 2)%nat) = Ordered [1; 3; 2].
Proof.
  apply (precedenceOrder_keeps_declaration [1; 3; 2] (λ a b, (a =? 1)%nat && (b =? 2)%nat)).
  intros [|[|[|i]]] [|[|[|j]]] a b Ha Hb Hlt; vm_compute in Ha, Hb;
    try discriminate; try lia; injection Ha as <-; injection Hb as <-; reflexivity.
Defined.

(** Ordering by specificity alone never fails: `evaluationOrder` returns a
    permutation of the items in which a strictly narrower match comes before
    every wider one. *)
Theorem evaluationOrder_total {T} (items : list T) (matchOf : T → CompiledMatch) :
  ∃ l indices, evaluationOrder items matchOf = Ordered l ∧ orders items indices l ∧
    ∀ i j a b, items !! i = Some a → items !! j = Some b →
      compareSpecificity (matchOf a) (matchOf b) = Narrower →
      ∃ k m, indices !! k = Some i ∧ indices !! m = Some j ∧ (k < m)%nat.
Proof.
  unfold evaluationOrder.
  assert (∀ i j, edge items (λ _ _ i j, match map matchOf items !! i, map matchOf items !! j with
      | Some a, Some b => bool_decide (compareSpecificity a b = Narrower) | _, _ => false end) i j
    ↔ ∃ a b, items !! i = Some a ∧ items !! j = Some b ∧
             compareSpecificity (matchOf a) (matchOf b) = Narrower) as Hedge.
  { intros i j. unfold edge. change (map matchOf items) with (matchOf <$> items).
    rewrite !list_lookup_fmap. split.
    - intros (_ & a & b & Ha & Hb & Hp). rewrite Ha, Hb in Hp. simpl in Hp.
      apply bool_decide_eq_true in Hp. eauto.
    - intros (a & b & Ha & Hb & Hp). split.
      + intros ->. simplify_eq. by apply compareSpecificity_irrefl in Hp.
      + exists a, b. rewrite Ha, Hb. simpl. split_and!; [done..|]. by apply bool_decide_eq_true. }
  destruct (precedenceOrder_strict items (λ _ _ i j,
      match map matchOf items !! i, map matchOf items !! j with
      | Some a, Some b => bool_decide (compareSpecificity a b = Narrower) | _, _ => false end))
    as [l Hl].
  { intros i j k. rewrite !Hedge. intros (a & b & Ha & Hb & Hab) (b' & c & Hb' & Hc & Hbc).
    simplify_eq. exists a, c. split_and!; [done..|]. by eapply compareSpecificity_trans. }
  destruct (precedenceOrder_Ordered _ _ _ Hl) as (indices & Ho & He).
  exists l, indices. split_and!; [exact Hl|done|].
  intros i j a b Ha Hb Hab. apply He, Hedge. eauto.
Qed.

(** ** Pairs of rules of an accepted configuration *)

Lemma rulePrecedes_override a b :
  includes (overrides_of a) (cr_key b) = true → rulePrecedes a b = true.
Proof. unfold rulePrecedes. by intros ->. Qed.

Lemma compareSpecificity_flip a b :
  compareSpecificity a b = Wider ↔ compareSpecificity b a = Narrower.
Proof. unfold compareSpecificity. by destruct (matchSubsumes a b), (matchSubsumes b a). Qed.

(** No overlap is left to chance: in an accepted configuration, two rules of one
    scope that accept a common request are ordered by `rulePrecedes`, or accept
    sets each contained in the other. *)
Theorem overlapping_rules_ordered config compiled c i j a b request
    (Hcompiled : compileAuthzConfig config = Some compiled)
    (Hvalid : has_error (co_diagnostics compiled) = false)
    (Hscope : In c (co_scopes compiled)) (Hij : i ≠ j)
    (Ha : cs_rules c !! i = Some a) (Hb : cs_rules c !! j = Some b)
    (Haccepts_a : accepts (cr_match a) request = true)
    (Haccepts_b : accepts (cr_match b) request = true) :
  rulePrecedes a b = true ∨ rulePrecedes b a = true ∨
  compareSpecificity (cr_match a) (cr_match b) = Equivalent.
Proof.
  destruct (compileAuthzConfig_scopes _ _ Hcompiled Hvalid) as [_ HF].
  pose proof (compileAuthzConfig_valid _ _ Hcompiled Hvalid) as Hv.
  assert (∀ k r, cs_rules c !! k = Some r → wf_match (cr_match r)) as Hwf.
  { intros k r Hk. apply list_elem_of_In, list_elem_of_lookup in Hscope as [p Hp].
    destruct (Forall2_lookup_r _ _ _ _ _ HF Hp) as (entry & _ & Hsc).
    destruct (Forall2_lookup_r _ _ _ _ _ (scope_rules _ _ _ Hsc) Hk) as (e & _ & Hr).
    by eapply compileMatch_wf, (rule_match _ _ _ _ _ _ _ Hr). }
  assert (has_error (checkRuleOverlaps c) = false) as Hover.
  { pose proof (valid_rules _ Hv c Hscope) as Hr. unfold scope_checks in Hr. by split_errors. }
  assert (∀ i j a b, (i < j)%nat → cs_rules c !! i = Some a → cs_rules c !! j = Some b →
    accepts (cr_match a) request = true → accepts (cr_match b) request = true →
    rulePrecedes a b = true ∨ rulePrecedes b a = true ∨
    compareSpecificity (cr_match a) (cr_match b) = Equivalent) as Hwlog.
  { clear i j a b Hij Ha Hb Haccepts_a Haccepts_b. intros i j a b Hij Ha Hb Haa Hab.
    destruct (rule_pair_valid c i j a b Hover Hij Ha Hb) as [Hinc|He].
    - exact (intersects_complete (S := CompiledMatch) (E := AuthzRequest) _ _ request
               (Hwf _ _ Ha) (Hwf _ _ Hb) Haa Hab).
    - unfold rulePrecedes. destruct (includes (overrides_of a) (cr_key b)); [by left|].
      destruct (includes (overrides_of b) (cr_key a)); [by right; left|].
      rewrite !bool_decide_eq_true, <- (compareSpecificity_flip (cr_match a) (cr_match b)).
      destruct (compareSpecificity _ _); auto; done.
    - unfold eitherNamesTheOther in He. apply orb_true_iff in He as [He|He];
        apply rulePrecedes_override in He; auto. }
  destruct (Nat.lt_total i j) as [Hlt|[->|Hlt]]; [by eapply Hwlog|done|].
  destruct (Hwlog j i b a Hlt Hb Ha Haccepts_b Haccepts_a) as [?|[?|He]]; [by auto..|].
  right. right. revert He. unfold compareSpecificity.
  by destruct (matchSubsumes _ _), (matchSubsumes _ _).
Qed.

Lemma overlapping_rules_ordered_witness :
  ∃ c a b, In c (co_scopes sample_compiled) ∧ cs_rules c !! 0 = Some a ∧ cs_rules c !! 1 = Some b ∧
    (rulePrecedes a b = true ∨ rulePrecedes b a = true ∨
     compareSpecificity (cr_match a) (cr_match b) = Equivalent).
Proof.
  destruct (co_scopes sample_compiled) as [|c0 [|c [|]]] eqn:E; try (vm_compute in E; discriminate E).
  destruct (cs_rules c) as [|a [|b rest]] eqn:Er;
    try (vm_compute in E; injection E as _ <-; vm_compute in Er; discriminate Er).
  exists c, a, b. split; [right; left; reflexivity|].
  split; [rewrite Er; reflexivity|]. split; [rewrite Er; reflexivity|].
  apply (overlapping_rules_ordered sample_config sample_compiled c 0 1 a b
    {| req_method := "GET"; req_path := "/repos/o/secrets/x"; req_body := BodyAbsent |}
    sample_compiles sample_valid).
  - rewrite E. right. left. reflexivity.
  - discriminate.
  - rewrite Er. reflexivity.
  - rewrite Er. reflexivity.
  - vm_compute in E; injection E as _ <-; vm_compute in Er; injection Er as <- _ _. reflexivity.
  - vm_compute in E; injection E as _ <-; vm_compute in Er; injection Er as _ <- _. reflexivity.
Defined.

(** Effective ids identify declarations: in an accepted configuration two rules
    with one effective id are the same rule of the same scope, and no rule id is
    the id of a scope fallback or of the network fallback. *)
Theorem effective_ids_unique config compiled p q c c' i j a b
    (Hcompiled : compileAuthzConfig config = Some compiled)
    (Hvalid : has_error (co_diagnostics compiled) = false)
    (Hc : co_scopes compiled !! p = Some c) (Hc' : co_scopes compiled !! q = Some c')
    (Ha : cs_rules c !! i = Some a) (Hb : cs_rules c' !! j = Some b) :
  (cr_id a = cr_id b → p = q ∧ i = j) ∧ cr_id a ≠ fallbackRuleId (cs_name c') ∧
  cr_id a ≠ FALLBACK_RULE_KEY.
Proof.
  pose proof (compileAuthzConfig_valid _ _ Hcompiled Hvalid) as Hv.
  assert (In c (co_scopes compiled)) as Hin by (apply list_elem_of_In, list_elem_of_lookup; eauto).
  split_and!.
  - intros Hid. by destruct (effective_id_position _ _ _ _ _ _ _ _ _ (valid_ids _ Hv) Hc Hc' Ha Hb Hid)
      as (? & ? & _).
  - intros Hid. eapply (effective_id_not_fallback _ c' c i a (valid_ids _ Hv)); [|done|done|done].
    apply list_elem_of_In, list_elem_of_lookup. eauto.
  - intros Hid. destruct (compileAuthzConfig_scopes _ _ Hcompiled Hvalid) as [_ HF].
    destruct (Forall2_lookup_r _ _ _ _ _ HF Hc) as (entry & _ & Hsc).
    destruct (Forall2_lookup_r _ _ _ _ _ (scope_rules _ _ _ Hsc) Ha) as (e & _ & Hr).
    apply (f_equal (has_char ".")) in Hid. rewrite (rule_id _ _ _ _ _ _ _ Hr), has_char_app in Hid.
    simpl in Hid. by rewrite orb_true_r in Hid.
Qed.

Lemma effective_ids_unique_witness :
  ∃ c a, co_scopes sample_compiled !! 1 = Some c ∧ cs_rules c !! 0 = Some a ∧
         cr_id a ≠ fallbackRuleId (cs_name c).
Proof.
  destruct (co_scopes sample_compiled !! 1) as [c|] eqn:E; [|vm_compute in E; discriminate E].
  destruct (cs_rules c !! 0) as [a|] eqn:Er;
    [|vm_compute in E; injection E as <-; vm_compute in Er; discriminate Er].
  exists c, a. split; [reflexivity|]. split; [exact Er|].
  exact (proj1 (proj2 (effective_ids_unique sample_config sample_compiled 1 1 c c 0 0 a a
    sample_compiles sample_valid E E Er Er))).
Defined.
