(* ===== verification/TargetLaws.v ===== *)
(** * Properties of targets

    Exactness of the intersection of target sets and of its witness, and what the
    parser of a target accepts. *)
From S2P Require Import Prelude JsString Json Containment AuthzTypes Pattern Relation Selection.
From S2P Require Import Semantics MatchLaws Targets Specificity AuthzConfig Witness.

(** ** Intersection *)

Lemma targetIntersection_pair ta tb address :
  (if negb (targetsIntersect ta tb) then None
   else (λ host, {| ta_host := host;
                    ta_port := default (default DEFAULT_PORT (t_port tb)) (t_port ta) |})
        <$> hostWitness ta tb) = Some address →
  targetMatches ta address = true ∧ targetMatches tb address = true.
Proof.
  destruct (targetsIntersect ta tb) eqn:E; simpl; [|done].
  destruct (hostWitness ta tb) as [host|] eqn:Eh; simpl; [|done]. intros [= <-].
  apply hostWitness_sound in Eh as [Ha Hb]. unfold targetMatches. simpl. rewrite Ha, Hb. simpl.
  unfold targetsIntersect in E. apply andb_true_iff in E as [_ Hp].
  destruct (t_port ta) as [pa|], (t_port tb) as [pb|]; simpl in *;
    rewrite ?Z.eqb_refl; split; try done. by rewrite Z.eqb_sym.
Qed.

(** The witness address is exact: when `targetIntersectionWitness` gives an
    address it belongs to both target sets, and when it gives none no address
    does; it gives one exactly when `targetSetsIntersect` holds. *)
Theorem targetIntersectionWitness_exact (a b : list Target) :
  match targetIntersectionWitness a b with
  | Some address => existsb (λ t, targetMatches t address) a = true ∧
                    existsb (λ t, targetMatches t address) b = true ∧
                    targetSetsIntersect a b = true
  | None => targetSetsIntersect a b = false ∧
            ∀ address, existsb (λ t, targetMatches t address) a = true →
                       existsb (λ t, targetMatches t address) b = false
  end.
Proof.
  unfold targetIntersectionWitness. destruct (first_pair _ a b) as [address|] eqn:E.
  - apply first_pair_Some in E as (ta & tb & Hta & Htb & Hp).
    apply targetIntersection_pair in Hp as [Ha Hb].
    assert (existsb (λ t, targetMatches t address) a = true) by (apply existsb_exists; eauto).
    assert (existsb (λ t, targetMatches t address) b = true) by (apply existsb_exists; eauto).
    split_and!; [done..|]. by eapply targetSetsIntersect_complete.
  - assert (targetSetsIntersect a b = false) as Hno.
    { apply existsb_false. intros ta Hta. apply existsb_false. intros tb Htb.
      pose proof (first_pair_None _ _ _ E ta tb Hta Htb) as Hp. simpl in Hp.
      destruct (targetsIntersect ta tb) eqn:Ei; [|done]. simpl in Hp.
      destruct (hostWitness_intersects ta tb Ei) as [host Hh]. by rewrite Hh in Hp. }
    split; [done|]. intros address Ha. apply not_true_is_false. intros Hb.
    by rewrite (targetSetsIntersect_complete _ _ _ Ha Hb) in Hno.
Qed.

(** ** Decimal ports *)

(** Visits the binary numbers that extend [p] by at most [depth] bits. *)
Fixpoint ports_from (depth : nat) (p : positive) : bool :=
  (if (Npos p <=? 65535)%N then PORT (N_to_string (Npos p)) else true) &&
  match depth with
  | 0 => true
  | S d => ports_from d (xO p) && ports_from d (xI p)
  end.

Lemma ports_from_descend q : ∀ d,
  (Pos.size_nat q ≤ S d)%nat → ports_from d 1 = true →
  ports_from (S d - Pos.size_nat q) q = true.
Proof.
  induction q as [q IH|q IH|]; intros d Hd H; simpl in Hd.
  1-2: specialize (IH d ltac:(lia) H); simpl Pos.size_nat;
    replace (S d - Pos.size_nat q)%nat with (S (S d - S (Pos.size_nat q)))%nat in IH by lia;
    cbn [ports_from] in IH; apply andb_true_iff in IH as [_ IH]; by apply andb_true_iff in IH as [? ?].
  by rewrite Nat.sub_1_r.
Qed.

Lemma size_nat_port q : (Npos q <= 65535)%N → (Pos.size_nat q ≤ 16)%nat.
Proof.
  intros H.
  assert (∀ q n, (Npos q < 2 ^ N.of_nat n)%N → (Pos.size_nat q ≤ n)%nat) as Hsize.
  { clear. induction q as [q IH|q IH|]; intros n H; destruct n as [|n]; simpl; try (simpl in H; lia).
    - apply le_n_S, IH. rewrite Nat2N.inj_succ, N.pow_succ_r' in H. lia.
    - apply le_n_S, IH. rewrite Nat2N.inj_succ, N.pow_succ_r' in H. lia. }
  apply Hsize. change (2 ^ N.of_nat 16)%N with 65536%N. lia.
Qed.

Lemma PORT_print p : (1 <= p <= 65535)%Z → PORT (Z_to_string p) = true.
Proof.
  destruct p as [|q|q]; [lia| |lia]. intros H. cbn [Z_to_string].
  assert (ports_from 15 1 = true) as Ht by (vm_compute; reflexivity).
  pose proof (size_nat_port q ltac:(lia)) as Hs.
  pose proof (ports_from_descend q 15 Hs Ht) as Hq.
  destruct (16 - Pos.size_nat q)%nat; cbn [ports_from] in Hq;
    apply andb_true_iff in Hq as [Hq _];
    by rewrite (proj2 (N.leb_le (Npos q) 65535)) in Hq by lia.
Qed.

(** ** Parsing *)

Lemma startsWith_first s c r : startsWith s (String c r) = true → has_char c s = true.
Proof.
  intros [q ->]%startsWith_iff. simpl. by rewrite Ascii.eqb_refl.
Qed.

Lemma prefix_any s : String.prefix "" s = true.
Proof. by destruct s. Qed.

Lemma lower_char_star a : Ascii.eqb (lower_char a) "*" = Ascii.eqb a "*".
Proof. by destruct a as [[] [] [] [] [] [] [] []]. Qed.

Lemma lower_free s : has_char "*" s = false → has_char "*" (toLowerCase s) = false.
Proof.
  induction s as [|a s IH]; cbn; [done|]. rewrite lower_char_star.
  intros [-> H]%orb_false_iff. by apply IH.
Qed.

Lemma lower_char_digit a : is_digit a = true → lower_char a = a.
Proof. by destruct a as [[] [] [] [] [] [] [] []]. Qed.

Lemma lower_digits s : string_all is_digit s = true → toLowerCase s = s.
Proof.
  induction s as [|a s IH]; cbn; [done|]. intros [Ha Hs]%andb_true_iff.
  rewrite lower_char_digit by done. f_equal. by apply IH.
Qed.

Lemma lastIndexOf_split s c i :
  lastIndexOf s c = Some i → s = take_str i s +:+ String c (drop_str (i + 1) s).
Proof.
  revert i. induction s as [|a s IH]; intros i; cbn [lastIndexOf]; [done|].
  destruct (lastIndexOf s c) as [k|].
  - intros [= <-]. cbn. f_equal. by apply IH.
  - destruct (Ascii.eqb_spec a c) as [->|]; [|done]. intros [= <-]. by cbn.
Qed.

(** A host pattern as it is written. *)
Definition print_host (h : HostPattern) : string :=
  match h with HostExact host => host | HostSuffix suffix => "*." +:+ suffix end.

Definition print_target (h : HostPattern) (port : option Z) : string :=
  print_host h +:+ match port with None => "" | Some p => ":" +:+ Z_to_string p end.

Definition host_text (h : HostPattern) : string :=
  match h with HostExact host => host | HostSuffix suffix => suffix end.

Definition wf_host (h : HostPattern) : Prop :=
  host_text h ≠ "" ∧ toLowerCase (host_text h) = host_text h ∧
  has_char "*" (host_text h) = false ∧ has_char ":" (host_text h) = false.

Definition wf_port (p : option Z) : Prop :=
  match p with None => True | Some p => (1 <= p <= 65535)%Z end.

Lemma parseHostPattern_print h : wf_host h → parseHostPattern (print_host h) = Ok h.
Proof.
  intros (Hne & Hl & Hs & _). destruct h as [host|suffix]; cbn [print_host host_text] in *.
  - unfold parseHostPattern. apply String.eqb_neq in Hne. rewrite Hne.
    destruct (startsWith host "*.") eqn:E; [apply startsWith_first in E; congruence|].
    rewrite str_includes_char, Hs. unfold normalizeHost. by rewrite Hl.
  - unfold parseHostPattern. cbn. rewrite prefix_any. apply String.eqb_neq in Hne. rewrite Hne.
    rewrite str_includes_char, Hs. cbn. unfold normalizeHost. by rewrite Hl.
Qed.

Lemma parsePort_print source p :
  (1 <= p <= 65535)%Z → parsePort source (Z_to_string p) = Ok p.
Proof.
  intros H. unfold parsePort. rewrite (PORT_print p H). cbn [negb].
  assert (Z.of_N (parse_digits 0 (Z_to_string p)) = p) as ->.
  { destruct p as [|q|q]; [lia| |lia]. cbn [Z_to_string]. by rewrite parse_digits_N_to_string. }
  destruct (Z.ltb_spec p 1), (Z.ltb_spec 65535 p); try lia. done.
Qed.

(** Printing and parsing a target are inverse: every host pattern in lower case
    with an optional port between 1 and 65535 is read back from its text. *)
Theorem parseTarget_print (h : HostPattern) (port : option Z)
    (Hhost : wf_host h) (Hport : wf_port port) :
  parseTarget (print_target h port) =
  Ok {| t_source := print_target h port; t_host := h; t_port := port |}.
Proof.
  pose proof (parseHostPattern_print h Hhost) as Hp.
  assert (has_char ":" (print_host h) = false) as Hc.
  { destruct Hhost as (_ & _ & _ & Hc). by destruct h. }
  unfold parseTarget. destruct port as [p|]; cbn [print_target].
  - unfold print_target. change (":" +:+ Z_to_string p) with (String ":" (Z_to_string p)).
    rewrite lastIndexOf_app.
    2:{ pose proof (PORT_print p Hport) as HP. unfold PORT in HP.
        apply andb_true_iff in HP as [_ HP]. by apply (string_all_free is_digit). }
    rewrite take_str_app.
    assert (drop_str (slen (print_host h) + 1) (print_host h +:+ String ":" (Z_to_string p)) =
            Z_to_string p) as ->.
    { replace (slen (print_host h) + 1)%nat with (slen (print_host h +:+ ":"))
        by (rewrite slen_app; done).
      replace (print_host h +:+ String ":" (Z_to_string p)) with
        ((print_host h +:+ ":") +:+ Z_to_string p) by by rewrite sapp_assoc.
      apply drop_str_app. }
    by rewrite (parsePort_print _ p Hport), Hp.
  - unfold print_target. rewrite sapp_nil_r.
    rewrite (proj2 (lastIndexOf_None _ _) Hc). by rewrite Hp.
Qed.

Lemma parseTarget_print_witness :
  parseTarget "*.example.com:8443" =
  Ok {| t_source := "*.example.com:8443"; t_host := HostSuffix "example.com"; t_port := Some 8443%Z |}.
Proof.
  apply (parseTarget_print (HostSuffix "example.com") (Some 8443%Z)).
  - split; [discriminate|]. split; [reflexivity|]. split; reflexivity.
  - vm_compute. split; discriminate.
Defined.

Lemma parseHostPattern_Ok source h :
  parseHostPattern source = Ok h →
  host_text h ≠ "" ∧ toLowerCase (host_text h) = host_text h ∧
  toLowerCase source = print_host h ∧ has_char "*" (host_text h) = false.
Proof.
  unfold parseHostPattern. destruct (String.eqb_spec source ""); [done|].
  destruct (startsWith source "*.") eqn:Es.
  - apply startsWith_iff in Es as [r ->].
    destruct (String.eqb (drop_str 2 ("*." +:+ r)) "" || str_includes (drop_str 2 ("*." +:+ r)) "*")
      eqn:E; [done|]. intros [= <-]. cbn in E |- *.
    apply orb_false_iff in E as [Hne Hs]. apply String.eqb_neq in Hne.
    rewrite str_includes_char in Hs. split_and!.
    + by destruct r.
    + apply toLowerCase_idem.
    + done.
    + by apply lower_free.
  - destruct (str_includes source "*") eqn:E; [done|]. intros [= <-]. cbn.
    rewrite str_includes_char in E. split_and!.
    + by destruct source.
    + apply toLowerCase_idem.
    + done.
    + by apply lower_free.
Qed.

(** What the parser accepts: a parsed target keeps its source, its port is absent
    or between 1 and 65535, its host text is non-empty, in lower case and free of
    wildcards, and the source up to the port is the host pattern up to case. *)
Theorem parseTarget_sound source t (Hparse : parseTarget source = Ok t) :
  t_source t = source ∧ wf_port (t_port t) ∧
  host_text (t_host t) ≠ "" ∧ toLowerCase (host_text (t_host t)) = host_text (t_host t) ∧
  has_char "*" (host_text (t_host t)) = false ∧
  match t_port t with
  | None => toLowerCase source = print_host (t_host t)
  | Some _ => ∃ digits, PORT digits = true ∧
                toLowerCase source = print_host (t_host t) +:+ ":" +:+ digits
  end.
Proof.
  revert Hparse. unfold parseTarget.
  destruct (lastIndexOf source ":") as [i|] eqn:Ei; cbn.
  - destruct (parsePort source (drop_str (i + 1) source)) as [p|e] eqn:Ep; [|done].
    destruct (parseHostPattern (take_str i source)) as [h|e] eqn:Eh; [|done].
    intros [= <-]. cbn. apply parseHostPattern_Ok in Eh as (Hne & Hl & Hsrc & Hs).
    unfold parsePort in Ep. destruct (PORT (drop_str (i + 1) source)) eqn:EP; [|done].
    cbn in Ep. destruct (_ || _) eqn:Er; [done|]. injection Ep as <-.
    apply orb_false_iff in Er as [H1%Z.ltb_ge H2%Z.ltb_ge].
    split; [done|]. split; [done|]. split; [done|]. split; [done|]. split; [done|].
    exists (drop_str (i + 1) source). split; [done|].
    rewrite <- Hsrc. apply lastIndexOf_split in Ei.
    rewrite Ei at 1. rewrite toLowerCase_app. f_equal.
    change (toLowerCase (String ":" (drop_str (i + 1) source))) with
      (String ":" (toLowerCase (drop_str (i + 1) source))). cbn. f_equal.
    apply lower_digits. unfold PORT in EP. by apply andb_true_iff in EP as [_ ?].
  - destruct (parseHostPattern source) as [h|e] eqn:Eh; [|done].
    intros [= <-]. cbn. apply parseHostPattern_Ok in Eh as (? & ? & ? & ?). auto 10.
Qed.

Lemma parseTarget_sound_witness :
  wf_port (Some 443%Z) ∧ toLowerCase "API.Example.com:443" = "api.example.com:443".
Proof.
  destruct (parseTarget_sound "API.Example.com:443"
    {| t_source := "API.Example.com:443"; t_host := HostExact "api.example.com";
       t_port := Some 443%Z |}) as (_ & Hp & _); [vm_compute; reflexivity|].
  split; [exact Hp|reflexivity].
Defined.
