(* ===== verification/PathLaws.v ===== *)
(** * Properties of path patterns and GraphQL selections

    Parsing of a path pattern is the inverse of printing it; matching a request
    path agrees with a reference matcher that reads pattern and path segment by
    segment; the three truth values of a GraphQL selection are characterized. *)
From S2P Require Import Prelude JsString Json Containment AuthzTypes Pattern Relation Selection.
From S2P Require Import Semantics MatchLaws.

(** ** Parsing *)

Definition print_segment (s : PatternSegment) : string :=
  match s with
  | SegLiteral value => value
  | SegWildcard => "*"
  | SegCapture name => "{" +:+ name +:+ "}"
  end.

Definition pattern_tokens (p : PathPattern) : list string :=
  map print_segment (pp_segments p) ++ (if pp_trailingDoubleStar p then ["**"] else []).

Definition segment_names (segments : list PatternSegment) : list string :=
  flat_map (λ s, match s with SegCapture name => [name] | _ => [] end) segments.

Lemma braces_slice token :
  startsWith token "{" = true → endsWith token "}" = true → (2 <=? slen token)%nat = true →
  token = "{" +:+ slice 1 (slen token - 1) token +:+ "}".
Proof.
  intros [r ->]%startsWith_iff [q Hq]%endsWith_iff Hl%Nat.leb_le.
  unfold slice. destruct q as [|c q].
  { apply (f_equal slen) in Hq. rewrite slen_app in Hq, Hl. simpl in *. lia. }
  simpl in Hq. injection Hq as <- Hr. subst r.
  rewrite slen_app. cbn [slen]. rewrite slen_app. cbn.
  replace (slen q + 1 - 0 - 1)%nat with (slen q) by lia. by rewrite take_str_app.
Qed.

Lemma parse_tokens_sound source tokens : ∀ segments names p,
  parse_tokens source tokens segments names = Ok p →
  segment_names segments = names → List.NoDup names →
  pp_source p = source ∧
  pattern_tokens p = map print_segment segments ++ tokens ∧
  List.NoDup (segment_names (pp_segments p)).
Proof.
  induction tokens as [|token rest IH]; intros segments names p H Hn Hnd; cbn [parse_tokens] in H.
  { injection H as <-. unfold pattern_tokens. simpl. by subst. }
  assert (∀ s names', parse_tokens source rest (segments ++ [s]) names' = Ok p →
    print_segment s = token → segment_names (segments ++ [s]) = names' → List.NoDup names' →
    pp_source p = source ∧ pattern_tokens p = map print_segment segments ++ token :: rest ∧
    List.NoDup (segment_names (pp_segments p))) as Hstep.
  { intros s names' Hp <- Hs Hd. apply IH in Hp as (? & Ht & ?); [|done..].
    rewrite map_app, <- app_assoc in Ht. done. }
  destruct (String.eqb_spec token "**") as [->|_].
  { destruct rest; [|done]. injection H as <-. unfold pattern_tokens. simpl. by subst. }
  destruct (str_includes token "**"); [done|].
  destruct (String.eqb_spec token "*") as [->|_].
  { apply (Hstep SegWildcard names); try done. unfold segment_names. rewrite flat_map_app. simpl.
    by rewrite app_nil_r. }
  destruct (str_includes token "*"); [done|].
  destruct (startsWith token "{" && endsWith token "}" && (2 <=? slen token)%nat) eqn:Eb.
  - destruct (CAPTURE_NAME _); cbn [negb] in H; [|done].
    destruct (includes names _) eqn:Ei; [done|].
    apply andb_true_iff in Eb as [[Hs He]%andb_true_iff Hl].
    eapply Hstep; [exact H|symmetry; by apply braces_slice| |].
    + unfold segment_names. rewrite flat_map_app. simpl. by rewrite <- Hn.
    + apply includes_false in Ei. apply NoDup_ListNoDup, NoDup_app.
      split_and!; [by apply NoDup_ListNoDup| |apply NoDup_singleton].
      intros x Hx ->%list_elem_of_singleton. by apply Ei, list_elem_of_In.
  - destruct (_ || _); [done|]. eapply Hstep; [exact H|done| |done].
    unfold segment_names. rewrite flat_map_app. simpl. by rewrite app_nil_r.
Qed.

(** A parsed path pattern keeps its source: joining the segments as they are
    written, and the trailing double star if any, gives the source back, and no
    capture name occurs twice. *)
Theorem parsePathPattern_print source p (Hparse : parsePathPattern source = Ok p) :
  pp_source p = source ∧ join "/" (pattern_tokens p) = source ∧
  List.NoDup (segment_names (pp_segments p)).
Proof.
  unfold parsePathPattern in Hparse.
  destruct (parse_tokens_sound _ _ _ _ _ Hparse eq_refl) as (Hs & Ht & Hn); [constructor|].
  split_and!; [done| |done]. rewrite Ht. simpl. apply join_split.
Qed.

Lemma parsePathPattern_print_witness :
  join "/" ["" ; "repos"; "{owner}"; "*"; "**"] = "/repos/{owner}/*/**".
Proof.
  destruct (parsePathPattern_print "/repos/{owner}/*/**"
    {| pp_source := "/repos/{owner}/*/**";
       pp_segments := [SegLiteral ""; SegLiteral "repos"; SegCapture "owner"; SegWildcard];
       pp_trailingDoubleStar := true |}) as (_ & H & _); [vm_compute; reflexivity|exact H].
Defined.

(** ** Matching *)

(** The reference matcher: one segment against one token of the path. *)
Definition segment_accepts (captures : list (string * list string)) (s : PatternSegment)
    (token : string) : bool :=
  match s with
  | SegLiteral value => String.eqb value token
  | SegWildcard => true
  | SegCapture name =>
      match map_get captures name with None => true | Some values => includes values token end
  end.

Fixpoint glob (captures : list (string * list string)) (segments : list PatternSegment)
    (trailing : bool) (tokens : list string) : bool :=
  match segments, tokens with
  | [], [] => true
  | [], _ :: _ => trailing
  | _ :: _, [] => false
  | s :: segments, t :: tokens =>
      segment_accepts captures s t && glob captures segments trailing tokens
  end.

Lemma resolveSegment_accepts captures s set token :
  resolveSegment s captures = Some set →
  segmentSetMatches set token = segment_accepts captures s token.
Proof.
  destruct s as [value| |name]; simpl.
  - intros [= <-]. simpl. rewrite orb_false_r.
    destruct (String.eqb_spec value token); case_bool_decide; congruence.
  - by intros [= <-].
  - unfold prop_read. destruct (map_get captures name) as [values|].
    + intros [= <-]. simpl. apply eq_true_iff_eq. by rewrite !includes_In, unique_In.
    + destruct (includes object_prototype_names name); [done|]. by intros [= <-].
Qed.

Lemma mapM_segments captures : ∀ segments sets,
  mapM (λ s, resolveSegment s captures) segments = Some sets →
  Forall2 (λ s set, resolveSegment s captures = Some set) segments sets.
Proof. intros segments sets H. by apply mapM_Some in H. Qed.

Lemma compiledPathMatches_tokens p tokens :
  (if cp_trailingDoubleStar p
   then if (length tokens <? length (cp_segments p))%nat then false
        else segments_every (cp_segments p) tokens
   else if negb (length tokens =? length (cp_segments p))%nat then false
        else segments_every (cp_segments p) tokens) = true ↔
  length_ok p (length tokens) ∧
  ∀ i s, cp_segments p !! i = Some s → ∃ t, tokens !! i = Some t ∧ segmentSetMatches s t = true.
Proof.
  unfold length_ok. rewrite <- segments_every_iff. destruct (cp_trailingDoubleStar p).
  - destruct (Nat.ltb_spec (length tokens) (length (cp_segments p)));
      [split; [done|]; intros []; lia|]. split; [intros; split; [lia|done]|by intros []].
  - destruct (Nat.eqb_spec (length tokens) (length (cp_segments p))); cbn [negb];
      [by split; [|intros []]|]. by split; [|intros []].
Qed.

Lemma glob_iff captures segments sets trailing : ∀ tokens,
  Forall2 (λ s set, resolveSegment s captures = Some set) segments sets →
  glob captures segments trailing tokens = true ↔
  (if trailing then (length sets ≤ length tokens)%nat else length tokens = length sets) ∧
  ∀ i s, sets !! i = Some s → ∃ t, tokens !! i = Some t ∧ segmentSetMatches s t = true.
Proof.
  intros tokens HF. revert tokens.
  induction HF as [|s set segments sets Hs _ IH]; intros tokens; cbn [glob].
  - destruct tokens as [|t tokens]; cbn.
    + split; [|done]. intros _. split; [by destruct trailing|done].
    + destruct trailing; split; try done; [intros _; split; [lia|done]|intros []; lia].
  - destruct tokens as [|t tokens]; cbn.
    + split; [done|]. intros [_ H]. destruct (H 0 set eq_refl) as (? & ? & _). done.
    + rewrite andb_true_iff, IH, <- (resolveSegment_accepts _ _ _ _ Hs). split.
      * intros [Ht [Hl H]]. split; [destruct trailing; lia|].
        intros [|i] x Hx; simplify_eq/=; [eauto|by apply H].
      * intros [Hl H]. split_and!.
        -- destruct (H 0 set eq_refl) as (x & ? & ?). by simplify_eq/=.
        -- destruct trailing; lia.
        -- intros i x Hx. by apply (H (S i)).
Qed.

(** Matching is the reference matching: a compiled path pattern accepts exactly
    the paths whose segments match the written pattern one by one, a trailing
    double star absorbing the rest; captures stand for any segment or for the
    values they are constrained to. *)
Theorem compiledPathMatches_glob source captures parsed p path
    (Hparse : parsePathPattern source = Ok parsed)
    (Hcompile : compilePathPattern source captures = Some (Ok p)) :
  compiledPathMatches p path =
  glob captures (pp_segments parsed) (pp_trailingDoubleStar parsed) (splitPath path).
Proof.
  unfold compilePathPattern in Hcompile. rewrite Hparse in Hcompile.
  destruct (mapM _ (pp_segments parsed)) as [sets|] eqn:Em; [|done].
  injection Hcompile as <-. apply mapM_segments in Em. apply eq_true_iff_eq.
  rewrite (glob_iff captures _ sets) by done. rewrite compiledPathMatches_iff. done.
Qed.

Lemma compiledPathMatches_glob_witness :
  glob [("owner", ["octo"])] [SegLiteral ""; SegCapture "owner"] true ["" ; "octo"; "x"; "y"] = true.
Proof.
  destruct (compilePathPattern "/{owner}/**" [("owner", ["octo"])]) as [[p|e]|] eqn:E;
    [|vm_compute in E; discriminate E..].
  assert (compiledPathMatches p "/octo/x/y" = true) as H
    by (vm_compute in E; injection E as <-; reflexivity).
  rewrite (compiledPathMatches_glob "/{owner}/**" [("owner", ["octo"])]
    {| pp_source := "/{owner}/**"; pp_segments := [SegLiteral ""; SegCapture "owner"];
       pp_trailingDoubleStar := true |} p "/octo/x/y" eq_refl E) in H.
  exact H.
Defined.

(** A capture that carries the name of a property every object has is not
    diagnosed: compiling the pattern throws, with or without constraints on
    other names, although the pattern itself parses. *)
Theorem prototype_capture_throws name captures
    (Hname : In name (List.filter CAPTURE_NAME object_prototype_names))
    (Hfree : map_get captures name = None) :
  is_Ok (parsePathPattern ("/{" +:+ name +:+ "}")) = true ∧
  compilePathPattern ("/{" +:+ name +:+ "}") captures = None.
Proof.
  unfold compilePathPattern.
  assert (parsePathPattern ("/{" +:+ name +:+ "}") =
    Ok {| pp_source := "/{" +:+ name +:+ "}"; pp_segments := [SegLiteral ""; SegCapture name];
          pp_trailingDoubleStar := false |}) as Hp.
  { vm_compute in Hname. repeat (destruct Hname as [<-|Hname]; [vm_compute; reflexivity|]). done. }
  rewrite Hp. split; [done|]. cbn. unfold prop_read. rewrite Hfree.
  apply filter_In in Hname as [Hin _]. apply includes_In in Hin. by rewrite Hin.
Qed.

Lemma prototype_capture_throws_witness :
  compilePathPattern "/{constructor}" [("owner", ["octo"])] = None.
Proof.
  apply (prototype_capture_throws "constructor" [("owner", ["octo"])]).
  - left. reflexivity.
  - reflexivity.
Defined.

(** ** GraphQL selections *)

(** The three truth values of a selection. Indeterminate: no facts, no leaf, or a
    constrained argument left unresolved somewhere. True: every occurrence is on
    an allowed path and carries each constrained argument with an allowed value.
    False: everything resolves, but some occurrence violates the condition. *)
Theorem selectionSatisfies_verdict fieldPaths fieldArguments document :
  let unresolved doc := ∃ field name allowed, In field (doc_fields doc) ∧
    In (name, allowed) (constraints_of fieldArguments field) ∧
    In name (occ_unresolvedArguments field) in
  let conforms doc := ∀ field, In field (doc_fields doc) → path_allowed fieldPaths field ∧
    ∀ name allowed, In (name, allowed) (constraints_of fieldArguments field) →
      ∃ v, map_get (occ_argumentValues field) name = Some v ∧ In v allowed in
  let has_leaf doc := ∃ field, In field (doc_fields doc) ∧ occ_leaf field = true in
  match selectionSatisfies fieldPaths fieldArguments document with
  | TTrue => ∃ doc, document = Some doc ∧ has_leaf doc ∧ ¬ unresolved doc ∧ conforms doc
  | TFalse => ∃ doc, document = Some doc ∧ has_leaf doc ∧ ¬ unresolved doc ∧ ¬ conforms doc
  | TIndeterminate => ∀ doc, document = Some doc → has_leaf doc → unresolved doc
  end.
Proof.
  cbv zeta. destruct document as [doc|]; [|done].
  destruct (existsb occ_leaf (doc_fields doc)) eqn:El.
  2:{ unfold selectionSatisfies. rewrite El. cbn. intros d [= <-] (f & Hf & Hl).
      rewrite existsb_false in El. by rewrite El in Hl. }
  pose proof El as (lf & Hlf)%existsb_exists.
  destruct (existsb (field_unknown fieldArguments) (doc_fields doc)) eqn:Eu.
  - assert (∃ field name allowed, In field (doc_fields doc) ∧
      In (name, allowed) (constraints_of fieldArguments field) ∧
      In name (occ_unresolvedArguments field)) as Hun.
    { apply existsb_exists in Eu as (field & Hf & Hu). unfold field_unknown in Hu.
      apply existsb_exists in Hu as ([name allowed] & Hc & Hu).
      exists field, name, allowed. split_and!; [done..|].
      unfold argument_verdict in Hu. cbn in Hu. destruct (includes _ name) eqn:Ei;
        [by apply includes_In|]. repeat case_match; done. }
    destruct Hun as (field & name & allowed & Hf & Hc & Hu).
    rewrite (selectionSatisfies_unknown _ _ doc field (name, allowed)) by done.
    intros d [= <-] _. eauto 10.
  - assert (¬ ∃ field name allowed, In field (doc_fields doc) ∧
      In (name, allowed) (constraints_of fieldArguments field) ∧
      In name (occ_unresolvedArguments field)) as Hnone.
    { intros (field & name & allowed & Hf & Hc & Hu). rewrite existsb_false in Eu.
      specialize (Eu field Hf). unfold field_unknown in Eu. rewrite existsb_false in Eu.
      specialize (Eu _ Hc). unfold argument_verdict in Eu. cbn in Eu.
      apply includes_In in Hu. by rewrite Hu in Eu. }
    assert (selectionSatisfies fieldPaths fieldArguments (Some doc) ≠ TIndeterminate) as Hni.
    { unfold selectionSatisfies. rewrite El, field_fold. cbn. rewrite Eu. by repeat case_match. }
    assert (selectionSatisfies fieldPaths fieldArguments (Some doc) = TTrue ↔
      ∀ field, In field (doc_fields doc) → path_allowed fieldPaths field ∧
        ∀ name allowed, In (name, allowed) (constraints_of fieldArguments field) →
          ∃ v, map_get (occ_argumentValues field) name = Some v ∧ In v allowed) as Htrue.
    { rewrite selectionSatisfies_true. split.
      - intros [_ H] field Hf. destruct (H field Hf) as [Hp Hc]. split; [done|].
        intros name allowed Hin. by apply Hc, argument_verdict_pass in Hin as [_ ?].
      - intros H. split; [by eauto|]. intros field Hf. destruct (H field Hf) as [Hp Hc].
        split; [done|]. intros [name allowed] Hin. apply argument_verdict_pass.
        split; [|by apply Hc]. cbn. intros Hu. apply Hnone. eauto 10. }
    destruct (selectionSatisfies _ _ (Some doc)) eqn:Es; [| |done]; exists doc;
      (split_and!; [done|by eauto|done|]).
    + by apply Htrue.
    + intros Hc. by apply Htrue in Hc.
Qed.

(** The proper prefixes of the allowed leaves: a path may carry children exactly
    when it is a non-empty part of an allowed path up to one of its slashes. *)
Theorem graphqlPathPrefixes_spec fieldPaths p :
  In p (graphqlPathPrefixes fieldPaths) ↔
  p ≠ "" ∧ ∃ leaf rest, In leaf fieldPaths ∧ leaf = p +:+ "/" +:+ rest.
Proof.
  unfold graphqlPathPrefixes. rewrite unique_In, in_flat_map. split.
  - intros (leaf & Hl & (mid & tl & -> & -> & Hne)%path_cuts_spec). eauto.
  - intros (Hne & leaf & rest & Hl & ->). exists (p +:+ "/" +:+ rest). split; [done|].
    apply path_cuts_spec. eauto.
Qed.
