(* ===== verification/Graphql.v ===== *)
(** * The facts of a GraphQL document (network/authz/graphql.ts)

    [parseGraphqlFacts] reads a document into the occurrences of its fields, expanded
    where fragments are used, with a budget that bounds the work a small body can ask
    for.  The parser is that of the package `graphql`: [parse] is an argument of the
    definitions, and the nodes below are those of its tree that the code looks at. *)
From S2P Require Import Prelude JsString Json AuthzTypes Semantics.

#[local] Set Warnings "-register-all".

(** ** The tree *)

(** The value of an argument or a default; [ValOther] is a number, a boolean, null or an
    enumeration value. *)
Inductive ValueNode : Type :=
  | ValString (value : string)
  | ValVariable (name : string)
  | ValList (values : list ValueNode)
  | ValObject (fields : list (string * ValueNode))
  | ValOther.

Record ArgumentNode : Type := { an_name : string; an_value : ValueNode }.
Record DirectiveNode : Type := { dn_name : string; dn_arguments : list ArgumentNode }.

(** Aliases and type conditions are not looked at. *)
Inductive SelectionNode : Type :=
  | SelField (name : string) (arguments : list ArgumentNode) (directives : list DirectiveNode)
      (selectionSet : option (list SelectionNode))
  | SelInline (directives : list DirectiveNode) (selections : list SelectionNode)
  | SelSpread (name : string) (directives : list DirectiveNode).

Record VariableDefinitionNode : Type := {
  vd_name : string;
  vd_defaultValue : option ValueNode;
  vd_directives : list DirectiveNode;
}.

(** A definition of the type system only counts with the nesting of the lists and
    objects in it. *)
Inductive DefinitionNode : Type :=
  | DefOperation (operation : GraphqlOperation) (variables : list VariableDefinitionNode)
      (directives : list DirectiveNode) (selections : list SelectionNode)
  | DefFragment (name : string) (directives : list DirectiveNode) (selections : list SelectionNode)
  | DefOther (nesting : Z).

Abbreviation DocumentNode := (list DefinitionNode) (only parsing).

Record GraphqlParseLimits : Type := { gl_maxNodes : Z; gl_maxDepth : Z }.

(** ** Depth *)

(** The visits with [depth], the number of open nodes that count, and [deepest]. *)
Fixpoint visit_value (v : ValueNode) (depth deepest : Z) : Z :=
  match v with
  | ValList values => fold_left (λ deepest v, visit_value v (depth + 1) deepest) values (Z.max deepest (depth + 1))
  | ValObject fields => fold_left (λ deepest f, visit_value f.2 (depth + 1) deepest) fields (Z.max deepest (depth + 1))
  | _ => deepest
  end%Z.

Definition visit_arguments (arguments : list ArgumentNode) (depth deepest : Z) : Z :=
  fold_left (λ deepest a, visit_value (an_value a) depth deepest) arguments deepest.

Definition visit_directives (directives : list DirectiveNode) (depth deepest : Z) : Z :=
  fold_left (λ deepest d, visit_arguments (dn_arguments d) depth deepest) directives deepest.

Fixpoint visit_selection (s : SelectionNode) (depth deepest : Z) : Z :=
  let selection_set l deepest :=
    fold_left (λ deepest s, visit_selection s (depth + 1) deepest) l (Z.max deepest (depth + 1)) in
  match s with
  | SelField _ arguments directives selectionSet =>
      let deepest := visit_directives directives depth (visit_arguments arguments depth deepest) in
      match selectionSet with Some l => selection_set l deepest | None => deepest end
  | SelInline directives l => selection_set l (visit_directives directives depth deepest)
  | SelSpread _ directives => visit_directives directives depth deepest
  end%Z.

Definition visit_selection_set (l : list SelectionNode) (deepest : Z) : Z :=
  fold_left (λ deepest s, visit_selection s 1 deepest) l (Z.max deepest 1).

Definition visit_definition (deepest : Z) (definition : DefinitionNode) : Z :=
  match definition with
  | DefOperation _ variables directives l =>
      let deepest := fold_left (λ deepest v,
        visit_directives (vd_directives v) 0
          match vd_defaultValue v with Some value => visit_value value 0 deepest | None => deepest end) variables deepest in
      visit_selection_set l (visit_directives directives 0 deepest)
  | DefFragment _ directives l => visit_selection_set l (visit_directives directives 0 deepest)
  | DefOther nesting => Z.max deepest nesting
  end.

Definition measureDepth (document : DocumentNode) : Z := fold_left visit_definition document 0%Z.

(** ** Spreads *)

Fixpoint selection_spreads (s : SelectionNode) : list string :=
  match s with
  | SelField _ _ _ (Some l) => flat_map selection_spreads l
  | SelField _ _ _ None => []
  | SelInline _ l => flat_map selection_spreads l
  | SelSpread name _ => [name]
  end.

Definition spreadNames (definition : DefinitionNode) : list string :=
  match definition with
  | DefOperation _ _ _ l | DefFragment _ _ l => flat_map selection_spreads l
  | DefOther _ => []
  end.

(** A fragment, by its directives and its selections. *)
Record FragmentNode : Type := { fg_directives : list DirectiveNode; fg_selections : list SelectionNode }.

Inductive VisitState : Type := Visiting | Done.

(** The search: a frame is a fragment and the index of its next spread, the last frame
    comes first.  [Some None] when a cycle is met, [None] when the fuel is used up. *)
Fixpoint dfs (fuel : nat) (adjacency : list (string * list string)) (state : list (string * VisitState))
    (stack : list (string * nat)) : option (option (list (string * VisitState))) :=
  match fuel with
  | O => None
  | S fuel =>
      match stack with
      | [] => Some (Some state)
      | (name, index) :: rest =>
          match default [] (map_get adjacency name) !! index with
          | None => dfs fuel adjacency (map_set state name Done) rest
          | Some next =>
              let stack := (name, S index) :: rest in
              match map_get state next with
              | Some Visiting => Some None
              | Some Done => dfs fuel adjacency state stack
              | None => dfs fuel adjacency (map_set state next Visiting) ((next, 0%nat) :: stack)
              end
          end
      end
  end.

(** One step for every spread and every fragment, and one for the end. *)
Definition dfs_fuel (adjacency : list (string * list string)) : nat :=
  S (list_sum (map (λ e, S (length e.2)) adjacency)).

Fixpoint dfs_roots (adjacency : list (string * list string)) (state : list (string * VisitState)) (roots : list string) : bool :=
  match roots with
  | [] => true
  | root :: roots =>
      match map_get state root with
      | Some Done => dfs_roots adjacency state roots
      | _ =>
          match dfs (dfs_fuel adjacency) adjacency (map_set state root Visiting) [(root, 0%nat)] with
          | Some (Some state) => dfs_roots adjacency state roots
          | _ => false
          end
      end
  end.

Definition spreadsAreValid (document : DocumentNode) (fragments : list (string * FragmentNode)) : bool :=
  forallb (map_has fragments) (flat_map spreadNames document) &&
  dfs_roots (map (λ '(name, fragment), (name, flat_map selection_spreads (fg_selections fragment))) fragments) []
    (map_keys fragments).

(** ** Arguments *)

Definition VariableDefaults : Type := list (string * option ValueNode).

Definition declaresVariableTwice (variables : list VariableDefinitionNode) : bool :=
  negb (bool_decide (unique (map vd_name variables) = map vd_name variables)).

Definition variableDefaults (variables : list VariableDefinitionNode) : VariableDefaults :=
  map_set_all [] (map (λ v, (vd_name v, vd_defaultValue v)) variables).

Definition default_string (defaults : VariableDefaults) (name : string) : option string :=
  match map_get defaults name with Some (Some (ValString value)) => Some value | _ => None end.

(** [variables] is [None] where the member is missing. *)
Definition resolveArgumentValue (value : ValueNode) (variables : option JsonValue) (defaults : VariableDefaults) :
    option string :=
  match value with
  | ValString value => Some value
  | ValVariable name =>
      match variables with
      | None | Some JNull => default_string defaults name
      | Some (JObject members) =>
          match map_get members name with
          | Some (JScalar (ScString provided)) => Some provided
          | Some _ => None
          | None => default_string defaults name
          end
      | Some _ => None
      end
  | _ => None
  end.

(** ** Expansion *)

Definition KNOWN_DIRECTIVES : list string := ["skip"; "include"].
Definition PATH_CHARGE_UNIT : Z := 64.

(** The selections of a frame are those from its index on. *)
Record Frame : Type := {
  fr_selections : list SelectionNode;
  fr_path : string;
  fr_depth : Z;
  fr_defaults : VariableDefaults;
}.

Section Collect.
Context (fragments : list (string * FragmentNode)) (variables : option JsonValue) (limits : GraphqlParseLimits).

(** The charge after the directives, [None] where the whole document is refused. *)
Fixpoint chargeDirectives (directives : list DirectiveNode) (charged : Z) : option Z :=
  match directives with
  | [] => Some charged
  | d :: rest =>
      let charged := (charged + 1)%Z in
      if (gl_maxNodes limits <? charged)%Z then None
      else if negb (includes KNOWN_DIRECTIVES (dn_name d)) then None
      else chargeDirectives rest charged
  end.

(** The arguments of a field: the charge, the values and the unresolved names. *)
Fixpoint chargeArguments (arguments : list ArgumentNode) (defaults : VariableDefaults) (seen : list string) (charged : Z)
    (values : list (string * string)) (unresolved : list string) : option (Z * list (string * string) * list string) :=
  match arguments with
  | [] => Some (charged, values, unresolved)
  | a :: rest =>
      let charged := (charged + 1)%Z in
      if (gl_maxNodes limits <? charged)%Z then None
      else if includes seen (an_name a) then None
      else
        let seen := an_name a :: seen in
        match resolveArgumentValue (an_value a) variables defaults with
        | None => chargeArguments rest defaults seen charged values (unresolved ++ [an_name a])
        | Some value => chargeArguments rest defaults seen charged (map_set values (an_name a) value) unresolved
        end
  end.

(** One selection of the last frame: the stack, the charge and the fields after it,
    [None] where the whole document is refused. *)
Definition collect_selection (frame : Frame) (below : list Frame) (selection : SelectionNode) (rest : list SelectionNode)
    (charged : Z) (fields : list GraphqlFieldOccurrence) : option (list Frame * Z * list GraphqlFieldOccurrence) :=
  let stack := {| fr_selections := rest; fr_path := fr_path frame; fr_depth := fr_depth frame;
                  fr_defaults := fr_defaults frame |} :: below in
  let inside selections path depth := {| fr_selections := selections; fr_path := path; fr_depth := depth;
                                         fr_defaults := fr_defaults frame |} in
  let charged := (charged + 1)%Z in
  if (gl_maxNodes limits <? charged)%Z then None
  else
    match selection with
    | SelField name arguments directives selectionSet =>
        charged ← chargeDirectives directives charged;
        let depth := (fr_depth frame + 1)%Z in
        if (gl_maxDepth limits <? depth)%Z then None
        else
          let path := fr_path frame +:+ "/" +:+ name in
          let charged := (charged + Z.of_nat (slen path) / PATH_CHARGE_UNIT)%Z in
          if (gl_maxNodes limits <? charged)%Z then None
          else
            '(charged, values, unresolved) ← chargeArguments arguments (fr_defaults frame) [] charged [] [];
            let leaf := match selectionSet with Some _ => false | None => true end in
            Some (match selectionSet with Some l => inside l path depth :: stack | None => stack end, charged,
                  fields ++ [{| occ_path := path; occ_leaf := leaf; occ_argumentValues := values;
                                occ_unresolvedArguments := unresolved |}])
    | SelInline directives l =>
        charged ← chargeDirectives directives charged;
        Some (inside l (fr_path frame) (fr_depth frame) :: stack, charged, fields)
    | SelSpread name directives =>
        charged ← chargeDirectives directives charged;
        fragment ← map_get fragments name;
        charged ← chargeDirectives (fg_directives fragment) charged;
        Some (inside (fg_selections fragment) (fr_path frame) (fr_depth frame) :: stack, charged, fields)
    end.

(** [None] when the fuel is used up, [Some None] where the document is refused. *)
Fixpoint collect_loop (fuel : nat) (stack : list Frame) (charged : Z) (fields : list GraphqlFieldOccurrence) :
    option (option (list GraphqlFieldOccurrence)) :=
  match fuel with
  | O => None
  | S fuel =>
      match stack with
      | [] => Some (Some fields)
      | frame :: below =>
          match fr_selections frame with
          | [] => collect_loop fuel below charged fields
          | selection :: rest =>
              match collect_selection frame below selection rest charged fields with
              | None => Some None
              | Some (stack, charged, fields) => collect_loop fuel stack charged fields
              end
          end
      end
  end.

(** The frames of the operations, with the charge of their directives. *)
Fixpoint operation_frames (document : DocumentNode) (charged : Z) : option (list Frame * Z) :=
  match document with
  | [] => Some ([], charged)
  | DefOperation _ variableDefinitions directives l :: rest =>
      charged ← chargeDirectives directives charged;
      charged ← fold_left (λ charged v, charged ← charged; chargeDirectives (vd_directives v) charged)
                  variableDefinitions (Some charged);
      '(frames, charged) ← operation_frames rest charged;
      Some ({| fr_selections := l; fr_path := ""; fr_depth := 0; fr_defaults := variableDefaults variableDefinitions |}
              :: frames, charged)
  | _ :: rest => operation_frames rest charged
  end.

(** A selection is charged, and adds at most one frame: two steps for each charge, and
    one for the end of every frame. *)
Definition collect_fuel (frames : nat) : nat := S (frames + 2 * Z.to_nat (gl_maxNodes limits)).

Definition collectSelectionFacts (document : DocumentNode) : option (list GraphqlFieldOccurrence) :=
  '(stack, charged) ← operation_frames document 0;
  default None (collect_loop (collect_fuel (length stack)) stack charged []).
End Collect.

(** ** Documents *)

(** The operations and the fragments of a document; [None] where a variable or a
    fragment is defined twice. *)
Fixpoint read_definitions (document : DocumentNode) (operations : list GraphqlOperation)
    (fragments : list (string * FragmentNode)) : option (list GraphqlOperation * list (string * FragmentNode)) :=
  match document with
  | [] => Some (operations, fragments)
  | DefOperation operation variables _ _ :: rest =>
      if declaresVariableTwice variables then None else read_definitions rest (operations ++ [operation]) fragments
  | DefFragment name directives l :: rest =>
      if map_has fragments name then None
      else read_definitions rest operations
             (map_set fragments name {| fg_directives := directives; fg_selections := l |})
  | DefOther _ :: rest => read_definitions rest operations fragments
  end.

Section Parse.
(** `parse(text, { maxTokens })`, [None] when it throws. *)
Context (parse : string → Z → option DocumentNode).

Definition parseGraphqlFacts (text : string) (limits : GraphqlParseLimits) (variables : option JsonValue) :
    option GraphqlDocument :=
  document ← parse text (gl_maxNodes limits);
  if (gl_maxDepth limits <? measureDepth document)%Z then None
  else
    '(operations, fragments) ← read_definitions document [] [];
    if bool_decide (operations = []) then None
    else if negb (spreadsAreValid document fragments) then None
    else
      fields ← collectSelectionFacts fragments variables limits document;
      Some {| doc_operations := unique operations; doc_fields := fields |}.

(** The `variables` next to the document, `undefined` being [None]. *)
Definition variablesFor (root : JsonValue) (at_ : string) : option JsonValue :=
  if String.eqb at_ "" || negb (startsWith at_ "/") then None
  else
    match lastIndexOf at_ "/" with
    | Some i => resolvePointer root (take_str i at_ +:+ "/variables")
    | None => None
    end.

Definition buildGraphqlDocuments (value : JsonValue) (ats : list string) (limits : GraphqlParseLimits) :
    list (string * GraphqlDocument) :=
  fold_left (λ documents at_,
    match resolvePointer value at_ with
    | Some (JScalar (ScString target)) =>
        match parseGraphqlFacts target limits (variablesFor value at_) with
        | Some facts => map_set documents at_ facts
        | None => documents
        end
    | _ => documents
    end) ats [].
End Parse.
