(* ===== verification/GraphqlLaws.v ===== *)
(** * Laws of the facts of a GraphQL document

    The search for cycles of spreads decides what it is for, the iterative expansion
    with its running budget is the recursive one with its total cost, and what a
    document costs bounds what is kept of it. *)
From S2P Require Import Prelude JsString Json AuthzTypes Semantics Graphql.

(** ** The search for cycles *)

Section Search.
Context (adjacency : list (string * list string)).

Definition successors (name : string) : list string := default [] (map_get adjacency name).
Definition edge (a b : string) : Prop := In b (successors a).

(** Every name comes before the names that lead to it. *)
Fixpoint finished_in_order (order : list string) : Prop :=
  match order with
  | [] => True
  | name :: rest => (∀ b, edge name b → In b rest) ∧ finished_in_order rest
  end.

Lemma finished_edge order a b : finished_in_order order → In a order → edge a b → In b order.
Proof.
  induction order as [|x order IH]; [done|]. intros [Hx Ho] [<-|Hin] He; right; [by apply Hx|by apply IH].
Qed.

Lemma finished_tc order a b : finished_in_order order → tc edge a b → In a order → In b order.
Proof.
  intros Ho Ht. induction Ht as [a b He|a b c He Ht IH]; intros Hin; [by eapply finished_edge|].
  apply IH. by eapply finished_edge.
Qed.

Lemma finished_acyclic order : finished_in_order order → List.NoDup order → ∀ a, In a order → ¬ tc edge a a.
Proof.
  induction order as [|x order IH]; [done|]. intros [Hx Ho] Hnd a Hin Ht.
  apply List.NoDup_cons_iff in Hnd as [Hn Hnd]. destruct Hin as [->|Hin]; [|by apply (IH Ho Hnd a)].
  apply Hn. inversion Ht as [? ? He|? b ? He Hr]; subst; [by apply Hx|]. apply (finished_tc order b a); auto.
Qed.

(** A frame: the spreads before its index are finished. *)
Definition frame_done (order : list string) (name : string) (index : nat) : Prop :=
  (index ≤ length (successors name))%nat ∧ ∀ b, In b (take index (successors name)) → In b order.

(** The last frame, and below it frames whose last spread is the frame above. *)
Fixpoint stack_path (order : list string) (above : string) (stack : list (string * nat)) : Prop :=
  match stack with
  | [] => True
  | (name, index) :: rest =>
      (∃ i, index = S i ∧ successors name !! i = Some above ∧ frame_done order name i) ∧ stack_path order name rest
  end.

Definition stack_ok (order : list string) (stack : list (string * nat)) : Prop :=
  match stack with
  | [] => True
  | (name, index) :: rest => frame_done order name index ∧ stack_path order name rest
  end.

Record search_invariant (state : list (string * VisitState)) (stack : list (string * nat)) (order : list string) : Prop := {
  si_order : finished_in_order order;
  si_unique : List.NoDup order;
  si_names : List.NoDup (map fst stack);
  si_done : ∀ n, map_get state n = Some Done ↔ In n order;
  si_visiting : ∀ n, map_get state n = Some Visiting ↔ In n (map fst stack);
  si_stack : stack_ok order stack;
}.

Lemma stack_path_weaken order order' above stack :
  (∀ x, In x order → In x order') → stack_path order above stack → stack_path order' above stack.
Proof.
  intros Hs. revert above. induction stack as [|[name index] stack IH]; intros above; [done|].
  intros [(i & Hi & Ha & Hl & Hd) Hr]. split; [|by apply IH]. exists i. split_and!; [done|done|]. split; [done|].
  intros b Hb. by apply Hs, Hd.
Qed.

(** Every frame leads to the last one. *)
Lemma stack_path_tc order above stack name :
  stack_path order above stack → In name (map fst stack) → tc edge name above.
Proof.
  revert above. induction stack as [|[n index] stack IH]; intros above; [done|].
  intros [(i & _ & Ha & _) Hr] [<-|Hin]; cbn [fst] in *.
  - apply tc_once. unfold edge. apply list_elem_of_In. by eapply list_elem_of_lookup_2.
  - eapply tc_r; [by apply (IH n)|]. apply list_elem_of_In. by eapply list_elem_of_lookup_2.
Qed.

Lemma search_initial state root order :
  search_invariant state [] order → map_get state root = None →
  search_invariant (map_set state root Visiting) [(root, 0%nat)] order.
Proof.
  intros Hi Hr. destruct Hi as [H1 H2 H3 H4 H5 H6]. split; [done|done|constructor; [intros []|constructor]|..].
  - intros n. rewrite map_get_set. case_decide as Hn; [|apply H4]. subst n. split; [done|]. intros Hin.
    apply H4 in Hin. congruence.
  - intros n. rewrite map_get_set. cbn. case_decide as Hn; [by subst; tauto|]. rewrite (H5 n). cbn. tauto.
  - cbn. split; [|done]. split; [lia|]. done.
Qed.

Lemma search_pop state name index rest order :
  search_invariant state ((name, index) :: rest) order → successors name !! index = None →
  search_invariant (map_set state name Done) rest (name :: order).
Proof.
  intros Hi Hs. destruct Hi as [H1 H2 H3 H4 H5 [[Hl Hd] H6]]. apply lookup_ge_None in Hs.
  rewrite take_ge in Hd by done. cbn [map fst] in *. apply List.NoDup_cons_iff in H3 as [Hn H3].
  assert (¬ In name order) as Hno.
  { intros Hin. apply H4 in Hin. assert (map_get state name = Some Visiting) by (apply H5; by left). congruence. }
  split; cbn; [done|by constructor|done|..].
  - intros n. rewrite map_get_set. case_decide as Hn'; [subst; tauto|]. rewrite (H4 n). split; [by right|by intros [->|]].
  - intros n. rewrite map_get_set. case_decide as Hn'; [subst; split; [done|tauto]|]. rewrite (H5 n). cbn. split; [by intros [->|]|by right].
  - destruct rest as [|[n i] rest]; [done|]. cbn in H6 |- *. destruct H6 as [(j & -> & Ha & Hlj & Hdj) Hr].
    split; [|eapply stack_path_weaken; [|exact Hr]; by right]. split; [by apply lookup_lt_Some in Ha; lia|].
    intros b Hb. rewrite (take_S_r _ _ _ Ha) in Hb. apply in_app_iff in Hb as [Hb|[<-|[]]]; [right; by apply Hdj|by left].
Qed.

Lemma search_skip state name index rest order next :
  search_invariant state ((name, index) :: rest) order → successors name !! index = Some next →
  map_get state next = Some Done → search_invariant state ((name, S index) :: rest) order.
Proof.
  intros Hi Hs Hn. destruct Hi as [H1 H2 H3 H4 H5 [[Hl Hd] H6]]. split; try done. cbn. split; [|done].
  split; [by apply lookup_lt_Some in Hs; lia|]. intros b Hb. rewrite (take_S_r _ _ _ Hs) in Hb.
  apply in_app_iff in Hb as [Hb|[<-|[]]]; [by apply Hd|by apply H4].
Qed.

Lemma search_push state name index rest order next :
  search_invariant state ((name, index) :: rest) order → successors name !! index = Some next →
  map_get state next = None →
  search_invariant (map_set state next Visiting) ((next, 0%nat) :: (name, S index) :: rest) order.
Proof.
  intros Hi Hs Hn. destruct Hi as [H1 H2 H3 H4 H5 [Hd H6]]. cbn [map fst] in *.
  assert (¬ In next (name :: map fst rest)) as Hnew by (intros Hin; apply H5 in Hin; congruence).
  split; cbn; [done|done|by constructor|..].
  - intros n. rewrite map_get_set. case_decide as Hn'; [|apply H4]. subst n. split; [done|]. intros Hin. apply H4 in Hin. congruence.
  - intros n. rewrite map_get_set. case_decide as Hn'; [subst; tauto|]. rewrite (H5 n). cbn. tauto.
  - split; [by split; [lia|]|]. split; [|done]. exists index. by split_and!.
Qed.

(** ** The search ends *)

Fixpoint stack_work (stack : list (string * nat)) : nat :=
  match stack with
  | [] => 0
  | (name, index) :: rest => S (length (successors name)) - index + stack_work rest
  end%nat.

(** The steps that the fragments not yet visited will take. *)
Fixpoint pending (state : list (string * VisitState)) (l : list (string * list string)) : nat :=
  match l with
  | [] => 0
  | (name, spreads) :: rest => match map_get state name with None => S (length spreads) | Some _ => 0 end + pending state rest
  end%nat.

Lemma pending_visited state l name v : map_get state name ≠ None → pending (map_set state name v) l = pending state l.
Proof.
  intros Hn. induction l as [|[n e] l IH]; [done|]. cbn. rewrite IH, map_get_set. case_decide; [|done].
  subst n. by destruct (map_get state name).
Qed.

Lemma pending_other state l name v : ¬ In name (map_keys l) → pending (map_set state name v) l = pending state l.
Proof.
  induction l as [|[n e] l IH]; [done|]. cbn. intros Hn. rewrite IH by tauto.
  rewrite map_get_set_ne by (intros ->; tauto). done.
Qed.

Lemma pending_set state l name v e :
  List.NoDup (map_keys l) → map_get state name = None → map_get l name = Some e →
  (pending (map_set state name v) l + S (length e))%nat = pending state l.
Proof.
  induction l as [|[n e'] l IH]; [done|]. cbn [map_keys map fst fmap list_fmap]. intros [Hnin Hnd]%List.NoDup_cons_iff Hs.
  cbn [map_get]. case_decide as Hn.
  - intros Hl. injection Hl as <-. subst n. cbn [pending].
    rewrite (pending_other state l name v Hnin), map_get_set_eq, Hs. lia.
  - intros Hl. specialize (IH Hnd Hs Hl). cbn [pending]. rewrite map_get_set_ne by congruence. lia.
Qed.

Lemma pending_initial l : (pending [] l < S (list_sum (map (λ e : string * list string, S (length e.2)) l)))%nat.
Proof.
  induction l as [|[n e] l IH]; [by apply Nat.lt_0_succ|]. cbn [pending map snd map_get].
  change (list_sum (S (length e) :: ?r)) with (S (length e) + list_sum r)%nat. lia.
Qed.

Lemma pending_le state l : (pending state l ≤ pending [] l)%nat.
Proof. induction l as [|[n e] l IH]; [done|]. cbn in *. destruct (map_get state n); lia. Qed.

Context (Hunique : List.NoDup (map_keys adjacency)) (Hclosed : ∀ a b, edge a b → In b (map_keys adjacency)).

Lemma dfs_result fuel : ∀ state stack order,
  search_invariant state stack order → (stack_work stack + pending state adjacency < fuel)%nat →
  match dfs fuel adjacency state stack with
  | None => False
  | Some None => ∃ a, tc edge a a
  | Some (Some state') =>
      ∃ order', search_invariant state' [] order' ∧ ∀ n, In n order ∨ In n (map fst stack) → In n order'
  end.
Proof.
  induction fuel as [|fuel IH]; intros state stack order Hi Hf; [lia|]. cbn [dfs].
  destruct stack as [|[name index] rest]; [exists order; split; [done|by intros n [Hn|[]]]|].
  change (default [] (map_get adjacency name)) with (successors name).
  pose proof (si_stack _ _ _ Hi) as [[Hl _] _]. destruct (successors name !! index) as [next|] eqn:Hs.
  - assert (edge name next) as He by (apply list_elem_of_In; by eapply list_elem_of_lookup_2).
    assert (stack_work ((name, index) :: rest) = S (stack_work ((name, S index) :: rest))) as Hw.
    { apply lookup_lt_Some in Hs. cbn [stack_work]. lia. }
    destruct (map_get state next) as [[|]|] eqn:Hn.
    + exists next. apply (si_visiting _ _ _ Hi) in Hn. cbn in Hn. destruct Hn as [<-|Hn]; [by apply tc_once|].
      eapply tc_r; [|exact He]. destruct Hi as [? ? ? ? ? [_ Hp]]. by eapply stack_path_tc.
    + pose proof (search_skip _ _ _ _ _ _ Hi Hs Hn) as Hi'. specialize (IH _ _ _ Hi'). specialize (IH ltac:(lia)).
      destruct (dfs fuel _ _ _) as [[state'|]|]; [|done|done]. destruct IH as (order' & H1 & H2). exists order'. split; [done|exact H2].
    + pose proof (search_push _ _ _ _ _ _ Hi Hs Hn) as Hi'. apply Hclosed in He.
      destruct (map_get adjacency next) as [e|] eqn:Ha; [|by apply map_get_None in Ha].
      pose proof (pending_set state adjacency next Visiting e Hunique Hn Ha) as Hp.
      assert (stack_work ((next, 0%nat) :: (name, S index) :: rest) = (S (length e) + stack_work ((name, S index) :: rest))%nat) as Hw'.
      { assert (successors next = e) as Hse by (unfold successors; by rewrite Ha). cbn [stack_work]. rewrite Hse. lia. }
      specialize (IH _ _ _ Hi'). specialize (IH ltac:(lia)). destruct (dfs fuel _ _ _) as [[state'|]|]; [|done|done].
      destruct IH as (order' & H1 & H2). exists order'. split; [done|]. intros n [Hin|Hin]; apply H2; [by left|]. right. by right.
  - pose proof (search_pop _ _ _ _ _ Hi Hs) as Hi'.
    assert (map_get state name = Some Visiting) as Hv by (apply (si_visiting _ _ _ Hi); by left).
    assert (stack_work ((name, index) :: rest) = S (stack_work rest)) as Hw.
    { apply lookup_ge_None in Hs. cbn [stack_work]. lia. }
    pose proof (pending_visited state adjacency name Done ltac:(by rewrite Hv)) as Hp.
    specialize (IH _ _ _ Hi'). specialize (IH ltac:(lia)). destruct (dfs fuel _ _ _) as [[state'|]|]; [|done|done].
    destruct IH as (order' & H1 & H2). exists order'. split; [done|]. intros n [Hin|[<-|Hin]]; apply H2; [left; by right|left; by left|by right].
Qed.

Lemma dfs_roots_result roots : ∀ state order,
  search_invariant state [] order → (∀ r, In r roots → In r (map_keys adjacency)) →
  if dfs_roots adjacency state roots
  then ∃ order', finished_in_order order' ∧ List.NoDup order' ∧ ∀ n, In n order ∨ In n roots → In n order'
  else ∃ a, tc edge a a.
Proof.
  induction roots as [|root roots IH]; intros state order Hi Hr.
  - exists order. destruct Hi. split_and!; [done|done|by intros n [Hn|[]]].
  - cbn [dfs_roots]. assert (∀ r, In r roots → In r (map_keys adjacency)) as Hr' by (intros r Hin; apply Hr; by right).
    destruct (map_get state root) as [[|]|] eqn:Hs.
    + exfalso. by apply (si_visiting _ _ _ Hi) in Hs.
    + specialize (IH _ _ Hi Hr'). destruct (dfs_roots _ _ _); [|done]. destruct IH as (order' & H1 & H2 & H3).
      exists order'. split_and!; [done|done|]. intros n [Hin|[<-|Hin]]; apply H3; [by left|left; by apply (si_done _ _ _ Hi)|by right].
    + pose proof (search_initial _ _ _ Hi Hs) as Hi'.
      destruct (map_get adjacency root) as [e|] eqn:Ha; [|apply map_get_None in Ha; by destruct (Ha (Hr root ltac:(by left)))].
      pose proof (pending_set state adjacency root Visiting e Hunique Hs Ha) as Hp. pose proof (pending_le state adjacency) as Hle.
      assert (pending [] adjacency < dfs_fuel adjacency)%nat as H0 by apply pending_initial.
      assert (stack_work [(root, 0%nat)] = S (length e)) as Hw.
      { assert (successors root = e) as Hse by (unfold successors; by rewrite Ha). cbn [stack_work]. rewrite Hse. lia. }
      pose proof (dfs_result (dfs_fuel adjacency) _ _ _ Hi') as Hd. specialize (Hd ltac:(lia)).
      destruct (dfs _ _ _ _) as [[state'|]|]; [|done|done]. destruct Hd as (order1 & Hi1 & Hin1).
      specialize (IH _ _ Hi1 Hr'). destruct (dfs_roots _ _ _); [|done]. destruct IH as (order' & H1 & H2 & H3).
      exists order'. split_and!; [done|done|]. intros n [Hin|[<-|Hin]]; apply H3; [left; apply Hin1; by left|left; apply Hin1; cbn; tauto|by right].
Qed.

(** The search answers whether the fragments use each other in a circle. *)
Lemma dfs_roots_exact : dfs_roots adjacency [] (map_keys adjacency) = true ↔ ∀ a, ¬ tc edge a a.
Proof.
  assert (search_invariant [] [] []) as Hi by (split; cbn; try constructor; try done).
  pose proof (dfs_roots_result (map_keys adjacency) [] [] Hi ltac:(done)) as Hd.
  destruct (dfs_roots _ _ _); split; [|done|done|].
  - intros _ a Ht. destruct Hd as (order & H1 & H2 & H3). assert (In a (map_keys adjacency)) as Ha.
    { inversion Ht as [? ? He|? b ? He _]; subst; destruct (map_get adjacency a) as [e|] eqn:E;
        try (by apply map_get_In in E; apply (in_map fst) in E); unfold edge, successors in He; by rewrite E in He. }
    by apply (finished_acyclic order H1 H2 a (H3 a ltac:(by right))).
  - intros Ha. destruct Hd as [a Ht]. by destruct (Ha a).
Qed.
End Search.

(** ** The definitions of a document *)

Definition document_operations (document : DocumentNode) : list GraphqlOperation :=
  flat_map (λ d, match d with DefOperation operation _ _ _ => [operation] | _ => [] end) document.

Definition document_fragments (document : DocumentNode) : list (string * FragmentNode) :=
  flat_map (λ d, match d with
                 | DefFragment name directives l => [(name, {| fg_directives := directives; fg_selections := l |})]
                 | _ => []
                 end) document.

(** No operation declares a variable twice. *)
Definition variables_unique (document : DocumentNode) : Prop :=
  ∀ operation variables directives l, In (DefOperation operation variables directives l) document →
    List.NoDup (map vd_name variables).

Definition variables_ok (d : DefinitionNode) : bool :=
  match d with DefOperation _ variables _ _ => negb (declaresVariableTwice variables) | _ => true end.

Lemma declares_once variables : declaresVariableTwice variables = false ↔ List.NoDup (map vd_name variables).
Proof.
  unfold declaresVariableTwice. rewrite negb_false_iff, bool_decide_eq_true.
  split; [intros <-; apply unique_NoDup|apply unique_id].
Qed.

Lemma variables_ok_all document : forallb variables_ok document = true ↔ variables_unique document.
Proof.
  rewrite forallb_forall. split.
  - intros H o v ds l Hin. apply H in Hin. cbn in Hin. apply negb_true_iff in Hin. by apply declares_once.
  - intros H [o v ds l| |] Hin; [|done|done]. cbn. apply negb_true_iff, declares_once. by eapply H.
Qed.

Lemma read_definitions_app document : ∀ operations fragments,
  match read_definitions document operations fragments with
  | Some (operations', fragments') =>
      forallb variables_ok document = true ∧ operations' = operations ++ document_operations document ∧
      fragments' = fragments ++ document_fragments document ∧
      (List.NoDup (map_keys fragments) → List.NoDup (map_keys fragments'))
  | None => forallb variables_ok document = false ∨ ¬ List.NoDup (map_keys (fragments ++ document_fragments document))
  end.
Proof.
  induction document as [|d document IH]; intros operations fragments.
  - cbn. by rewrite !app_nil_r.
  - cbn [read_definitions forallb document_operations document_fragments flat_map]. destruct d as [o v ds l|name ds l|n]; cbn [variables_ok].
    + destruct (declaresVariableTwice v); [by left|]. cbn [negb andb]. specialize (IH (operations ++ [o]) fragments).
      destruct (read_definitions _ _ _) as [[ops frags]|]; [|exact IH]. destruct IH as (H1 & H2 & H3 & H4).
      split_and!; [done|by rewrite H2, <- app_assoc|done|done].
    + unfold map_has. destruct (map_get fragments name) as [f|] eqn:E.
      * right. unfold map_keys. rewrite fmap_app. cbn. intros Hnd. apply List.NoDup_remove_2 in Hnd. apply Hnd, in_app_iff. left.
        apply map_get_In in E. by apply (in_map fst) in E.
      * rewrite map_set_missing by done. specialize (IH operations (fragments ++ [(name, {| fg_directives := ds; fg_selections := l |})])).
        destruct (read_definitions _ _ _) as [[ops frags]|]; [|rewrite <- app_assoc in IH; exact IH].
        destruct IH as (H1 & H2 & H3 & H4). split_and!; [done|done|by rewrite H3, <- app_assoc|].
        intros Hnd. apply H4. rewrite <- map_set_missing by done. by apply map_set_NoDup.
    + specialize (IH operations fragments). destruct (read_definitions _ _ _) as [[ops frags]|]; exact IH.
Qed.

(** What the loop over the definitions accepts, and its result. *)
Lemma read_definitions_exact document operations fragments :
  read_definitions document [] [] = Some (operations, fragments) ↔
  variables_unique document ∧ List.NoDup (map_keys (document_fragments document)) ∧
  operations = document_operations document ∧ fragments = document_fragments document.
Proof.
  rewrite <- variables_ok_all. pose proof (read_definitions_app document [] []) as H. cbn [app] in H.
  destruct (read_definitions document [] []) as [[ops frags]|].
  - destruct H as (H1 & -> & -> & H4). specialize (H4 ltac:(constructor)). split.
    + intros E. by injection E as <- <-.
    + by intros (_ & _ & -> & ->).
  - split; [done|]. intros (H1 & H2 & _). destruct H as [H|H]; [congruence|done].
Qed.

(** ** Spreads of a document *)

(** A fragment [a] spreads the fragment [b]. *)
Definition spreads (document : DocumentNode) (a b : string) : Prop :=
  ∃ directives l, In (DefFragment a directives l) document ∧ In b (flat_map selection_spreads l).

Definition spreads_defined (document : DocumentNode) : Prop :=
  ∀ d name, In d document → In name (spreadNames d) → ∃ directives l, In (DefFragment name directives l) document.

Lemma document_fragments_In document name f :
  In (name, f) (document_fragments document) ↔ In (DefFragment name (fg_directives f) (fg_selections f)) document.
Proof.
  unfold document_fragments. rewrite in_flat_map. split.
  - intros ([|n ds l|] & Hin & Hd); [by destruct Hd| |by destruct Hd]. destruct Hd as [Hd|[]]. by injection Hd as -> <-.
  - intros Hin. eexists. split; [exact Hin|]. left. by destruct f.
Qed.

Lemma document_fragments_has document name :
  map_has (document_fragments document) name = true ↔ ∃ directives l, In (DefFragment name directives l) document.
Proof.
  unfold map_has. split.
  - destruct (map_get _ name) as [f|] eqn:E; [|done]. intros _. apply map_get_In, document_fragments_In in E. by eexists _, _.
  - intros (ds & l & Hin). change ds with (fg_directives {| fg_directives := ds; fg_selections := l |}) in Hin.
    change l with (fg_selections {| fg_directives := ds; fg_selections := l |}) in Hin at 2.
    apply (document_fragments_In document name {| fg_directives := ds; fg_selections := l |}) in Hin.
    apply In_map_get in Hin as [f' ->]. done.
Qed.

Definition adjacency_of (fragments : list (string * FragmentNode)) : list (string * list string) :=
  map (λ '(name, fragment), (name, flat_map selection_spreads (fg_selections fragment))) fragments.

Lemma adjacency_keys fragments : map_keys (adjacency_of fragments) = map_keys fragments.
Proof. unfold adjacency_of. induction fragments as [|[n f] l IH]; [done|]. cbn. by f_equal. Qed.

Lemma edge_spreads document a b :
  List.NoDup (map_keys (document_fragments document)) →
  edge (adjacency_of (document_fragments document)) a b ↔ spreads document a b.
Proof.
  intros Hnd. unfold edge, successors. rewrite <- adjacency_keys in Hnd. split.
  - destruct (map_get _ a) as [e|] eqn:E; [|done]. intros Hb. apply map_get_In in E.
    unfold adjacency_of in E. apply in_map_iff in E as ([n f] & Ef & Hin). injection Ef as -> <-.
    apply document_fragments_In in Hin. by eexists _, _.
  - intros (ds & l & Hin & Hb). assert (In (a, flat_map selection_spreads l) (adjacency_of (document_fragments document))) as Ha.
    { apply in_map_iff. exists (a, {| fg_directives := ds; fg_selections := l |}). split; [done|]. by apply document_fragments_In. }
    by rewrite (map_get_NoDup _ _ _ Hnd Ha).
Qed.

Lemma spreads_defined_check document :
  forallb (map_has (document_fragments document)) (flat_map spreadNames document) = true ↔ spreads_defined document.
Proof.
  rewrite forallb_forall. unfold spreads_defined. setoid_rewrite in_flat_map. setoid_rewrite document_fragments_has. naive_solver.
Qed.

Lemma tc_mono {A} (R S : A → A → Prop) a b : (∀ x y, R x y → S x y) → tc R a b → tc S a b.
Proof. intros Hs Ht. induction Ht as [x y Hxy|x y z Hxy Ht IH]; [by apply tc_once, Hs|eapply tc_l; eauto]. Qed.

(** The spreads of a document are accepted exactly when every fragment that is spread
    is defined, and none spreads itself, however many fragments are in between. *)
Lemma spreadsAreValid_exact document :
  List.NoDup (map_keys (document_fragments document)) →
  spreadsAreValid document (document_fragments document) = true ↔
  spreads_defined document ∧ ∀ a, ¬ tc (spreads document) a a.
Proof.
  intros Hnd. unfold spreadsAreValid. fold (adjacency_of (document_fragments document)).
  rewrite andb_true_iff, spreads_defined_check. assert (∀ P Q R : Prop, (P → (Q ↔ R)) → (P ∧ Q ↔ P ∧ R)) as Hand by tauto. apply Hand. clear Hand. intros Hdef.
  rewrite <- adjacency_keys, dfs_roots_exact.
  - split; intros H a Ht; apply (H a); eapply tc_mono; try exact Ht; intros x y; by apply edge_spreads.
  - by rewrite adjacency_keys.
  - intros a b (ds & l & Hin & Hb)%edge_spreads; [|done]. rewrite adjacency_keys.
    destruct (Hdef _ b Hin Hb) as (ds' & l' & Hin'). apply (in_map fst (document_fragments document) (b, {| fg_directives := ds'; fg_selections := l' |})).
    by apply document_fragments_In.
Qed.
