(* ===== verification/GraphqlProps.v ===== *)
(** * The facts of a GraphQL document are its expansion

    [expands] says what the fields of a selection are where fragments are used, and
    what they cost.  The iterative expansion with its running budget computes it, and
    [parseGraphqlFacts] reads exactly the documents its conditions describe. *)
From S2P Require Import Prelude JsString Json AuthzTypes Semantics Graphql GraphqlLaws.

(** ** Nesting *)

Definition maximum {A} (f : A → Z) (l : list A) : Z := fold_right (λ x, Z.max (f x)) 0%Z l.

(** The levels of lists and objects in a value, and of selection sets, lists and
    objects in a selection. *)
Fixpoint value_nesting (v : ValueNode) : Z :=
  match v with
  | ValList values => 1 + maximum value_nesting values
  | ValObject fields => 1 + maximum (λ f, value_nesting f.2) fields
  | _ => 0
  end%Z.

Definition arguments_nesting (arguments : list ArgumentNode) : Z := maximum (λ a, value_nesting (an_value a)) arguments.
Definition directives_nesting (directives : list DirectiveNode) : Z :=
  maximum (λ d, arguments_nesting (dn_arguments d)) directives.

Fixpoint selection_nesting (s : SelectionNode) : Z :=
  match s with
  | SelField _ arguments directives selectionSet =>
      Z.max (Z.max (arguments_nesting arguments) (directives_nesting directives))
        match selectionSet with Some l => 1 + maximum selection_nesting l | None => 0 end
  | SelInline directives l => Z.max (directives_nesting directives) (1 + maximum selection_nesting l)
  | SelSpread _ directives => directives_nesting directives
  end%Z.

Definition definition_nesting (d : DefinitionNode) : Z :=
  match d with
  | DefOperation _ variables directives l =>
      Z.max (Z.max (maximum (λ v, Z.max match vd_defaultValue v with Some value => value_nesting value | None => 0 end
                                        (directives_nesting (vd_directives v))) variables)
                   (directives_nesting directives)) (1 + maximum selection_nesting l)
  | DefFragment _ directives l => Z.max (directives_nesting directives) (1 + maximum selection_nesting l)
  | DefOther nesting => nesting
  end%Z.

Definition nesting (document : DocumentNode) : Z := maximum definition_nesting document.

Fixpoint ValueNode_nested_ind (P : ValueNode → Prop)
    (Hstring : ∀ s, P (ValString s)) (Hvariable : ∀ s, P (ValVariable s))
    (Hlist : ∀ l, Forall P l → P (ValList l)) (Hobject : ∀ l, Forall (λ f, P f.2) l → P (ValObject l))
    (Hother : P ValOther) (v : ValueNode) : P v :=
  let rec := ValueNode_nested_ind P Hstring Hvariable Hlist Hobject Hother in
  match v with
  | ValString s => Hstring s
  | ValVariable s => Hvariable s
  | ValList l => Hlist l ((fix go l := match l return Forall P l with
                                       | [] => List.Forall_nil _
                                       | x :: l => List.Forall_cons _ x l (rec x) (go l)
                                       end) l)
  | ValObject l => Hobject l ((fix go l := match l return Forall (λ f, P f.2) l with
                                           | [] => List.Forall_nil _
                                           | x :: l => List.Forall_cons _ x l (rec x.2) (go l)
                                           end) l)
  | ValOther => Hother
  end.

Fixpoint SelectionNode_nested_ind (P : SelectionNode → Prop)
    (Hleaf : ∀ name arguments directives, P (SelField name arguments directives None))
    (Hfield : ∀ name arguments directives l, Forall P l → P (SelField name arguments directives (Some l)))
    (Hinline : ∀ directives l, Forall P l → P (SelInline directives l))
    (Hspread : ∀ name directives, P (SelSpread name directives)) (s : SelectionNode) : P s :=
  let rec := SelectionNode_nested_ind P Hleaf Hfield Hinline Hspread in
  let all := fix go l := match l return Forall P l with
                         | [] => List.Forall_nil _
                         | x :: l => List.Forall_cons _ x l (rec x) (go l)
                         end in
  match s with
  | SelField name arguments directives None => Hleaf name arguments directives
  | SelField name arguments directives (Some l) => Hfield name arguments directives l (all l)
  | SelInline directives l => Hinline directives l (all l)
  | SelSpread name directives => Hspread name directives
  end.

(** What a visit at [depth] of something nested [n] levels makes of the deepest level. *)
Definition raise (depth n deepest : Z) : Z := if (n =? 0)%Z then deepest else Z.max deepest (depth + n).

Lemma raise_raise depth m n deepest : (0 ≤ m)%Z → (0 ≤ n)%Z → raise depth n (raise depth m deepest) = raise depth (Z.max m n) deepest.
Proof. unfold raise. intros Hm Hn. destruct (Z.eqb_spec m 0), (Z.eqb_spec n 0), (Z.eqb_spec (Z.max m n) 0); lia. Qed.

Lemma raise_next depth n deepest : (0 ≤ n)%Z → raise (depth + 1) n (Z.max deepest (depth + 1)) = raise depth (1 + n) deepest.
Proof. unfold raise. intros Hn. destruct (Z.eqb_spec n 0), (Z.eqb_spec (1 + n) 0); lia. Qed.

Lemma maximum_nonneg {A} (f : A → Z) l : (0 ≤ maximum f l)%Z.
Proof. induction l as [|x l IH]; cbn [maximum fold_right]; [lia|]. unfold maximum in IH. lia. Qed.

Lemma fold_raise {A} (f : A → Z) (g : A → Z → Z) depth l :
  Forall (λ x, ∀ deepest, g x deepest = raise depth (f x) deepest) l → Forall (λ x, 0 ≤ f x)%Z l → ∀ deepest,
  fold_left (λ deepest x, g x deepest) l deepest = raise depth (maximum f l) deepest.
Proof.
  intros Hg Hf. induction l as [|x l IH]; intros deepest; [done|]. apply Forall_cons in Hg as [Hx Hg].
  apply Forall_cons in Hf as [Hfx Hf]. cbn [fold_left maximum fold_right]. rewrite Hx, (IH Hg Hf).
  apply raise_raise; [done|apply maximum_nonneg].
Qed.

Lemma value_nesting_nonneg v : (0 ≤ value_nesting v)%Z.
Proof.
  destruct v as [| |l|l|]; cbn [value_nesting]; try lia; [pose proof (maximum_nonneg value_nesting l)|
    pose proof (maximum_nonneg (λ f : string * ValueNode, value_nesting f.2) l)]; lia.
Qed.

Lemma visit_value_raise v : ∀ depth deepest, visit_value v depth deepest = raise depth (value_nesting v) deepest.
Proof.
  induction v as [s|s|l IH|l IH|] using ValueNode_nested_ind; intros depth deepest; try done; cbn [visit_value value_nesting].
  - rewrite <- raise_next by apply maximum_nonneg.
    apply (fold_raise value_nesting (λ v, visit_value v (depth + 1))); [|apply Forall_true; apply value_nesting_nonneg].
    eapply Forall_impl; [exact IH|]. by intros v Hv deepest'.
  - rewrite <- raise_next by apply maximum_nonneg.
    apply (fold_raise (λ f : string * ValueNode, value_nesting f.2) (λ f, visit_value f.2 (depth + 1)));
      [|apply Forall_true; intros; apply value_nesting_nonneg].
    eapply Forall_impl; [exact IH|]. by intros v Hv deepest'.
Qed.

Lemma arguments_nesting_nonneg l : (0 ≤ arguments_nesting l)%Z.
Proof. apply maximum_nonneg. Qed.

Lemma directives_nesting_nonneg l : (0 ≤ directives_nesting l)%Z.
Proof. apply maximum_nonneg. Qed.

Lemma visit_arguments_raise l depth deepest : visit_arguments l depth deepest = raise depth (arguments_nesting l) deepest.
Proof.
  apply (fold_raise (λ a, value_nesting (an_value a)) (λ a, visit_value (an_value a) depth)); apply Forall_true;
    intros; [apply visit_value_raise|apply value_nesting_nonneg].
Qed.

Lemma visit_directives_raise l depth deepest : visit_directives l depth deepest = raise depth (directives_nesting l) deepest.
Proof.
  apply (fold_raise (λ d, arguments_nesting (dn_arguments d)) (λ d, visit_arguments (dn_arguments d) depth));
    apply Forall_true; intros; [apply visit_arguments_raise|apply arguments_nesting_nonneg].
Qed.

Lemma selection_nesting_nonneg s : (0 ≤ selection_nesting s)%Z.
Proof.
  destruct s as [n a d [l|]|d l|n d]; cbn [selection_nesting]; pose proof (directives_nesting_nonneg d);
    try pose proof (maximum_nonneg selection_nesting l); try pose proof (arguments_nesting_nonneg a); lia.
Qed.

Lemma visit_selections_raise l depth deepest :
  Forall (λ s, ∀ depth deepest, visit_selection s depth deepest = raise depth (selection_nesting s) deepest) l →
  fold_left (λ deepest s, visit_selection s (depth + 1) deepest) l (Z.max deepest (depth + 1)) =
  raise depth (1 + maximum selection_nesting l) deepest.
Proof.
  intros IH. rewrite <- raise_next by apply maximum_nonneg.
  apply (fold_raise selection_nesting (λ s, visit_selection s (depth + 1))); [|apply Forall_true; apply selection_nesting_nonneg].
  eapply Forall_impl; [exact IH|]. by intros s Hs deepest'.
Qed.

Lemma visit_selection_raise s : ∀ depth deepest, visit_selection s depth deepest = raise depth (selection_nesting s) deepest.
Proof.
  induction s as [n a d|n a d l IH|d l IH|n d] using SelectionNode_nested_ind; intros depth deepest;
    cbn [visit_selection selection_nesting].
  - rewrite visit_arguments_raise, visit_directives_raise, raise_raise by (apply maximum_nonneg).
    f_equal. pose proof (directives_nesting_nonneg d). lia.
  - pose proof (maximum_nonneg selection_nesting l). pose proof (directives_nesting_nonneg d).
    pose proof (arguments_nesting_nonneg a).
    rewrite visit_arguments_raise, visit_directives_raise, visit_selections_raise, !raise_raise by (done || lia). f_equal. lia.
  - pose proof (maximum_nonneg selection_nesting l). pose proof (directives_nesting_nonneg d).
    rewrite visit_directives_raise, visit_selections_raise, !raise_raise by (done || lia). reflexivity || (f_equal; lia).
  - apply visit_directives_raise.
Qed.

Lemma raise_root n deepest : (0 ≤ n)%Z → (0 ≤ deepest)%Z → raise 0 n deepest = Z.max deepest n.
Proof. unfold raise. intros Hn Hd. destruct (Z.eqb_spec n 0); lia. Qed.

Lemma visit_definition_raise d deepest : (0 ≤ deepest)%Z → visit_definition deepest d = Z.max deepest (definition_nesting d).
Proof.
  assert (∀ l deepest, visit_selection_set l deepest = raise 0 (1 + maximum selection_nesting l) deepest) as Hset.
  { intros l deepest'. apply (visit_selections_raise l 0). apply Forall_true. apply visit_selection_raise. }
  intros Hd. destruct d as [o v ds l|n ds l|n]; cbn [visit_definition definition_nesting]; [| |done].
  - set (f := λ v, Z.max match vd_defaultValue v with Some value => value_nesting value | None => 0%Z end
      (directives_nesting (vd_directives v))).
    assert (∀ v, 0 ≤ f v)%Z as Hf.
    { intros x. unfold f. pose proof (directives_nesting_nonneg (vd_directives x)). lia. }
    rewrite (fold_raise f (λ v deepest, visit_directives (vd_directives v) 0
      match vd_defaultValue v with Some value => visit_value value 0 deepest | None => deepest end) 0 v).
    + pose proof (maximum_nonneg f v). pose proof (maximum_nonneg selection_nesting l). pose proof (directives_nesting_nonneg ds).
      rewrite Hset, visit_directives_raise, !raise_raise, raise_root by (done || lia). reflexivity || (f_equal; lia).
    + apply Forall_true. intros x deepest'. unfold f. pose proof (directives_nesting_nonneg (vd_directives x)).
      rewrite visit_directives_raise. destruct (vd_defaultValue x) as [value|].
      * pose proof (value_nesting_nonneg value). by rewrite visit_value_raise, raise_raise.
      * by rewrite Z.max_r by done.
    + by apply Forall_true.
  - pose proof (maximum_nonneg selection_nesting l). pose proof (directives_nesting_nonneg ds).
    rewrite Hset, visit_directives_raise, !raise_raise, raise_root by (done || lia). reflexivity || (f_equal; lia).
Qed.

(** The depth the code measures with its two counters is the nesting. *)
Lemma measureDepth_nesting document : measureDepth document = nesting document.
Proof.
  unfold measureDepth, nesting. assert (∀ deepest, (0 ≤ deepest)%Z →
    fold_left visit_definition document deepest = Z.max deepest (maximum definition_nesting document)) as Hg.
  { induction document as [|d document IH]; intros deepest Hd; [cbn; lia|]. cbn [fold_left maximum fold_right].
    rewrite visit_definition_raise by done. rewrite IH by lia. unfold maximum. lia. }
  rewrite Hg by done. pose proof (maximum_nonneg definition_nesting document). lia.
Qed.

(** ** Expansion *)

Definition sum_of {A} (f : A → Z) (l : list A) : Z := fold_right (λ x, Z.add (f x)) 0%Z l.

Section Expansion.
Context (document : DocumentNode) (variables : option JsonValue) (limits : GraphqlParseLimits).

Definition directives_known (directives : list DirectiveNode) : Prop := ∀ d, In d directives → In (dn_name d) KNOWN_DIRECTIVES.

Definition argument_values (arguments : list ArgumentNode) (defaults : VariableDefaults) : list (string * string) :=
  omap (λ a, pair (an_name a) <$> resolveArgumentValue (an_value a) variables defaults) arguments.

Definition unresolved_arguments (arguments : list ArgumentNode) (defaults : VariableDefaults) : list string :=
  map an_name (List.filter (λ a, match resolveArgumentValue (an_value a) variables defaults with None => true | Some _ => false end)
                 arguments).

Definition occurrence (path : string) (arguments : list ArgumentNode) (defaults : VariableDefaults) (leaf : bool) :
    GraphqlFieldOccurrence := {|
  occ_path := path; occ_leaf := leaf; occ_argumentValues := argument_values arguments defaults;
  occ_unresolvedArguments := unresolved_arguments arguments defaults |}.

Definition count {A} (l : list A) : Z := Z.of_nat (length l).
Definition path_cost (path : string) : Z := (Z.of_nat (slen path) / PATH_CHARGE_UNIT)%Z.

(** The fields of selections used below [path] at [depth], and their cost: 1 for every
    selection, directive and argument, and 1 for every full 64 characters of a path. *)
Inductive expands (path : string) (depth : Z) (defaults : VariableDefaults) :
    list SelectionNode → Z → list GraphqlFieldOccurrence → Prop :=
  | expands_nil : expands path depth defaults [] 0 []
  | expands_leaf name arguments directives rest cost fields :
      directives_known directives → List.NoDup (map an_name arguments) → (depth + 1 ≤ gl_maxDepth limits)%Z →
      expands path depth defaults rest cost fields →
      expands path depth defaults (SelField name arguments directives None :: rest)
        (1 + count directives + path_cost (path +:+ "/" +:+ name) + count arguments + cost)
        (occurrence (path +:+ "/" +:+ name) arguments defaults true :: fields)
  | expands_field name arguments directives selections rest inner_cost inner cost fields :
      directives_known directives → List.NoDup (map an_name arguments) → (depth + 1 ≤ gl_maxDepth limits)%Z →
      expands (path +:+ "/" +:+ name) (depth + 1) defaults selections inner_cost inner →
      expands path depth defaults rest cost fields →
      expands path depth defaults (SelField name arguments directives (Some selections) :: rest)
        (1 + count directives + path_cost (path +:+ "/" +:+ name) + count arguments + (inner_cost + cost))
        (occurrence (path +:+ "/" +:+ name) arguments defaults false :: inner ++ fields)
  | expands_inline directives selections rest inner_cost inner cost fields :
      directives_known directives → expands path depth defaults selections inner_cost inner →
      expands path depth defaults rest cost fields →
      expands path depth defaults (SelInline directives selections :: rest)
        (1 + count directives + (inner_cost + cost)) (inner ++ fields)
  | expands_spread name directives own selections rest inner_cost inner cost fields :
      directives_known directives → In (DefFragment name own selections) document → directives_known own →
      expands path depth defaults selections inner_cost inner → expands path depth defaults rest cost fields →
      expands path depth defaults (SelSpread name directives :: rest)
        (1 + count directives + count own + (inner_cost + cost)) (inner ++ fields).

(** All operations of a document, in order. *)
Inductive expands_operations : list DefinitionNode → Z → list GraphqlFieldOccurrence → Prop :=
  | operations_nil : expands_operations [] 0 []
  | operations_operation operation definitions directives selections rest inner_cost inner cost fields :
      directives_known directives → (∀ v, In v definitions → directives_known (vd_directives v)) →
      expands "" 0 (variableDefaults definitions) selections inner_cost inner → expands_operations rest cost fields →
      expands_operations (DefOperation operation definitions directives selections :: rest)
        (count directives + sum_of (λ v, count (vd_directives v)) definitions + (inner_cost + cost)) (inner ++ fields)
  | operations_other d rest cost fields :
      (∀ operation definitions directives selections, d ≠ DefOperation operation definitions directives selections) →
      expands_operations rest cost fields → expands_operations (d :: rest) cost fields.

(** ** Charges *)

Lemma count_cons {A} (x : A) l : count (x :: l) = (1 + count l)%Z.
Proof. unfold count. cbn [length]. lia. Qed.

Lemma count_nonneg {A} (l : list A) : (0 ≤ count l)%Z.
Proof. unfold count. lia. Qed.

Lemma path_cost_nonneg p : (0 ≤ path_cost p)%Z.
Proof. apply Z.div_pos; [lia|done]. Qed.

Lemma sum_of_nonneg {A} (f : A → Z) l : (∀ x, 0 ≤ f x)%Z → (0 ≤ sum_of f l)%Z.
Proof. intros Hf. induction l as [|x l IH]; cbn [sum_of fold_right]; [lia|]. specialize (Hf x). unfold sum_of in IH. lia. Qed.

Lemma chargeDirectives_exact directives : ∀ charged result, (charged ≤ gl_maxNodes limits)%Z →
  chargeDirectives limits directives charged = Some result ↔
  directives_known directives ∧ result = (charged + count directives)%Z ∧ (result ≤ gl_maxNodes limits)%Z.
Proof.
  induction directives as [|d directives IH]; intros charged result Hc.
  - cbn. unfold count. cbn. split; [intros E; injection E as <-; split_and!; [by intros d []|lia|lia]|].
    intros (_ & -> & _). f_equal. lia.
  - cbn [chargeDirectives]. rewrite count_cons. pose proof (count_nonneg directives).
    destruct (Z.ltb_spec (gl_maxNodes limits) (charged + 1)); [split; [done|lia]|].
    destruct (includes KNOWN_DIRECTIVES (dn_name d)) eqn:Ek; cbn [negb].
    + apply includes_In in Ek. rewrite IH by done. unfold directives_known. split.
      * intros (Hk & -> & Hm). split_and!; [by intros x [<-|Hx]; [|apply Hk]|lia|lia].
      * intros (Hk & -> & Hm). split_and!; [intros x Hx; apply Hk; by right|lia|lia].
    + split; [done|]. intros (Hk & _). apply includes_false in Ek. by destruct (Ek (Hk d ltac:(by left))).
Qed.

Lemma chargeArguments_exact defaults arguments : ∀ seen charged values unresolved result,
  (charged ≤ gl_maxNodes limits)%Z → (∀ k, In k (map_keys values) → In k seen) →
  chargeArguments variables limits arguments defaults seen charged values unresolved = Some result ↔
  List.NoDup (map an_name arguments) ∧ (∀ k, In k seen → ¬ In k (map an_name arguments)) ∧
  result = ((charged + count arguments)%Z, values ++ argument_values arguments defaults,
            unresolved ++ unresolved_arguments arguments defaults) ∧
  (charged + count arguments ≤ gl_maxNodes limits)%Z.
Proof.
  induction arguments as [|a arguments IH]; intros seen charged values unresolved result Hc Hv.
  - cbn. unfold count. cbn. rewrite !app_nil_r, Z.add_0_r. split; [intros E; injection E as <-; split_and!; [apply List.NoDup_nil|by intros k _ []|done|done]|].
    by intros (_ & _ & -> & _).
  - cbn [chargeArguments map]. rewrite count_cons. pose proof (count_nonneg arguments).
    destruct (Z.ltb_spec (gl_maxNodes limits) (charged + 1)); [split; [done|lia]|].
    destruct (includes seen (an_name a)) eqn:Es.
    { split; [done|]. intros (_ & Hd & _). apply includes_In in Es. by destruct (Hd _ Es (or_introl eq_refl)). }
    apply includes_false in Es.
    assert (∀ P Q : Prop, (P ∧ (∀ k, In k (an_name a :: seen) → ¬ In k (map an_name arguments)) ∧ Q) ↔
      (¬ In (an_name a) (map an_name arguments) ∧ P) ∧ (∀ k, In k seen → ¬ In k (map an_name arguments)) ∧ Q) as Hseen by naive_solver.
    assert (∀ Q : Prop, (List.NoDup (an_name a :: map an_name arguments) ∧
      (∀ k, In k seen → ¬ In k (an_name a :: map an_name arguments)) ∧ Q) ↔
      (¬ In (an_name a) (map an_name arguments) ∧ List.NoDup (map an_name arguments)) ∧
      (∀ k, In k seen → ¬ In k (map an_name arguments)) ∧ Q) as Hnames.
    { intros Q. rewrite List.NoDup_cons_iff. cbn. naive_solver. }
    unfold argument_values, unresolved_arguments. cbn [omap list_omap List.filter].
    destruct (resolveArgumentValue (an_value a) variables defaults) as [value|]; cbn [fmap option_fmap option_map map].
    + rewrite map_set_missing by (apply map_get_None; intros Hin; by apply Es, Hv).
      rewrite IH; [|lia|].
      2: { intros k. unfold map_keys. rewrite fmap_app. intros [Hin|[<-|[]]]%in_app_iff; [right; by apply Hv|by left]. }
      rewrite Hnames, Hseen, <- app_assoc, <- Z.add_assoc. done.
    + rewrite IH by (try lia; intros k Hin; right; by apply Hv). rewrite Hnames, Hseen, <- app_assoc, <- Z.add_assoc. done.
Qed.

Lemma directives_paid directives charged :
  directives_known directives → (charged + count directives ≤ gl_maxNodes limits)%Z →
  chargeDirectives limits directives charged = Some (charged + count directives)%Z.
Proof. intros Hk Hm. pose proof (count_nonneg directives). apply chargeDirectives_exact; [lia|done]. Qed.

Lemma arguments_paid defaults arguments charged :
  List.NoDup (map an_name arguments) → (charged + count arguments ≤ gl_maxNodes limits)%Z →
  chargeArguments variables limits arguments defaults [] charged [] [] =
    Some ((charged + count arguments)%Z, argument_values arguments defaults, unresolved_arguments arguments defaults).
Proof.
  intros Hn Hm. pose proof (count_nonneg arguments). apply chargeArguments_exact; [lia|by intros k|]. by split_and!; [|intros k []| |].
Qed.

Lemma expands_cost path depth defaults selections cost fields :
  expands path depth defaults selections cost fields → (0 ≤ cost)%Z.
Proof.
  induction 1; try pose proof (count_nonneg directives); try pose proof (count_nonneg arguments);
    try pose proof (path_cost_nonneg (path +:+ "/" +:+ name)); try pose proof (count_nonneg own); lia.
Qed.

(** ** The iterative expansion *)

Context (Hunique : List.NoDup (map_keys (document_fragments document))).

(** The frames that are still to be expanded, the last one first. *)
Inductive expands_stack : list Frame → Z → list GraphqlFieldOccurrence → Prop :=
  | stack_nil : expands_stack [] 0 []
  | stack_frame frame below cost fields cost' fields' :
      expands (fr_path frame) (fr_depth frame) (fr_defaults frame) (fr_selections frame) cost fields →
      expands_stack below cost' fields' → expands_stack (frame :: below) (cost + cost') (fields ++ fields').

Abbreviation frame selections path depth defaults :=
  {| fr_selections := selections; fr_path := path; fr_depth := depth; fr_defaults := defaults |}.

Lemma expands_stack_cost stack cost fields : expands_stack stack cost fields → (0 ≤ cost)%Z.
Proof. induction 1 as [|f below c fs c' fs' Hf Hb IH]; [done|]. apply expands_cost in Hf. lia. Qed.

Lemma fragment_found name own selections :
  In (DefFragment name own selections) document ↔
  map_get (document_fragments document) name = Some {| fg_directives := own; fg_selections := selections |}.
Proof.
  split.
  - intros Hin. apply map_get_NoDup; [done|]. by apply document_fragments_In.
  - intros Hg. by apply map_get_In, document_fragments_In in Hg.
Qed.

(** A selection that is taken from the stack: what is left expands to the rest. *)
Lemma collect_selection_sound path depth defaults below s rest charged fields stack' charged' fields' :
  (charged ≤ gl_maxNodes limits)%Z →
  collect_selection (document_fragments document) variables limits (frame (s :: rest) path depth defaults) below s rest
    charged fields = Some (stack', charged', fields') →
  (charged' ≤ gl_maxNodes limits)%Z ∧
  ∀ cost more, expands_stack stack' cost more →
    ∃ cost' more', expands_stack (frame (s :: rest) path depth defaults :: below) cost' more' ∧
      fields ++ more' = fields' ++ more ∧ (charged + cost' = charged' + cost)%Z.
Proof.
  intros Hc. unfold collect_selection. cbn [fr_path fr_depth fr_defaults]. destruct (Z.ltb_spec (gl_maxNodes limits) (charged + 1)) as [|H1]; [done|].
  destruct s as [name arguments directives selectionSet|directives l|name directives].
  - destruct (chargeDirectives limits directives (charged + 1)) as [c1|] eqn:Ed; [|done]. cbn [mbind option_bind].
    apply chargeDirectives_exact in Ed as (Hk & -> & Hm1); [|done].
    destruct (Z.ltb_spec (gl_maxDepth limits) (depth + 1)) as [|Hdepth]; [done|].
    destruct (Z.ltb_spec (gl_maxNodes limits) (charged + 1 + count directives +
      Z.of_nat (slen (path +:+ "/" +:+ name)) / PATH_CHARGE_UNIT)) as [|H2]; [done|].
    destruct (chargeArguments _ _ _ _ _ _ _ _) as [[[c2 values] unresolved]|] eqn:Ea; [|done].
    apply chargeArguments_exact in Ea as (Hnd & _ & Er & Hm2); [|done|done]. injection Er as -> -> ->.
    intros E. injection E as <- <- <-. split; [done|]. fold (path_cost (path +:+ "/" +:+ name)).
    intros cost more Hstack. destruct selectionSet as [l|].
    + inversion Hstack as [|f b inner_cost inner ci fi Hi Hb]; subst.
      inversion Hb as [|f b' rest_cost more0 cr fr Hr Hbelow]; subst. cbn in Hi, Hr.
      eexists _, _. split_and!; [eapply stack_frame; [eapply expands_field; eauto|exact Hbelow]| |].
      2: { cbn [fr_path]. unfold path_cost. change ("/" +:+ name) with (String "/" name). lia. }
      cbn. by rewrite <- !app_assoc.
    + inversion Hstack as [|f b rest_cost more0 cr fr Hr Hbelow]; subst. cbn in Hr.
      eexists _, _. split_and!; [eapply stack_frame; [eapply expands_leaf; eauto|exact Hbelow]| |].
      2: { cbn [fr_path]. unfold path_cost. change ("/" +:+ name) with (String "/" name). lia. }
      cbn. by rewrite <- !app_assoc.
  - destruct (chargeDirectives limits directives (charged + 1)) as [c1|] eqn:Ed; [|done]. cbn [mbind option_bind].
    apply chargeDirectives_exact in Ed as (Hk & -> & Hm1); [|done]. intros E. injection E as <- <- <-. split; [done|].
    intros cost more Hstack. inversion Hstack as [|f b inner_cost inner ci fi Hi Hb]; subst.
    inversion Hb as [|f b' rest_cost more0 cr fr Hr Hbelow]; subst. cbn in Hi, Hr.
    eexists _, _. split_and!; [eapply stack_frame; [eapply expands_inline; eauto|exact Hbelow]| |lia].
    by rewrite <- !app_assoc.
  - destruct (chargeDirectives limits directives (charged + 1)) as [c1|] eqn:Ed; [|done]. cbn [mbind option_bind].
    apply chargeDirectives_exact in Ed as (Hk & -> & Hm1); [|done].
    destruct (map_get (document_fragments document) name) as [[own l]|] eqn:Ef; [|done]. cbn [mbind option_bind fg_directives fg_selections].
    apply fragment_found in Ef.
    destruct (chargeDirectives limits own _) as [c2|] eqn:Eo; [|done]. cbn [mbind option_bind].
    apply chargeDirectives_exact in Eo as (Hko & -> & Hm2); [|done]. intros E. injection E as <- <- <-. split; [done|].
    intros cost more Hstack. inversion Hstack as [|f b inner_cost inner ci fi Hi Hb]; subst.
    inversion Hb as [|f b' rest_cost more0 cr fr Hr Hbelow]; subst. cbn in Hi, Hr.
    eexists _, _. split_and!; [eapply stack_frame; [eapply expands_spread; eauto|exact Hbelow]| |lia].
    by rewrite <- !app_assoc.
Qed.

Lemma collect_sound fuel : ∀ stack charged fields result,
  (charged ≤ gl_maxNodes limits)%Z →
  collect_loop (document_fragments document) variables limits fuel stack charged fields = Some (Some result) →
  ∃ cost more, expands_stack stack cost more ∧ result = fields ++ more ∧ (charged + cost ≤ gl_maxNodes limits)%Z.
Proof.
  induction fuel as [|fuel IH]; intros stack charged fields result Hc; [done|]. cbn [collect_loop].
  destruct stack as [|[selections path depth defaults] below].
  - intros E. injection E as <-. exists 0%Z, []. split_and!; [constructor|by rewrite app_nil_r|lia].
  - cbn [fr_selections]. destruct selections as [|s rest].
    + intros (cost & more & Hs & -> & Hm)%IH; [|done]. exists (0 + cost)%Z, ([] ++ more).
      split_and!; [constructor; [constructor|done]|done|lia].
    + destruct (collect_selection _ _ _ _ _ _ _ _ _) as [[[stack' charged'] fields']|] eqn:Es; [|done].
      apply collect_selection_sound in Es as [Hc' Hback]; [|done]. intros (cost & more & Hs & -> & Hm)%IH; [|done].
      destruct (Hback _ _ Hs) as (cost' & more' & Hs' & Hf & Hcost). exists cost', more'. split_and!; [done|done|lia].
Qed.
(** Conversely, a selection of an expansion that is paid for is taken. *)
Lemma collect_selection_complete path depth defaults below s rest charged fields cost more :
  expands_stack (frame (s :: rest) path depth defaults :: below) cost more → (charged + cost ≤ gl_maxNodes limits)%Z →
  ∃ stack' charged' fields' cost' more',
    collect_selection (document_fragments document) variables limits (frame (s :: rest) path depth defaults) below s rest
      charged fields = Some (stack', charged', fields') ∧
    expands_stack stack' cost' more' ∧ fields ++ more = fields' ++ more' ∧ (charged + cost = charged' + cost')%Z ∧
    (charged + 1 ≤ charged')%Z ∧ (length stack' ≤ S (S (length below)))%nat.
Proof.
  intros Hstack Hpaid. inversion Hstack as [|f b cost0 more0 cb fb Hframe Hbelow]; subst. clear Hstack.
  cbn [fr_path fr_depth fr_defaults fr_selections] in Hframe. apply expands_stack_cost in Hbelow as Hcb.
  unfold collect_selection. cbn [fr_path fr_depth fr_defaults].
  inversion Hframe as
    [|name arguments directives rest0 cr fr Hk Hnd Hdepth Hr
     |name arguments directives l rest0 ci fi cr fr Hk Hnd Hdepth Hi Hr
     |directives l rest0 ci fi cr fr Hk Hi Hr
     |name directives own l rest0 ci fi cr fr Hk Hin Hko Hi Hr]; subst; clear Hframe;
    apply expands_cost in Hr as Hcr; try (apply expands_cost in Hi as Hci);
    pose proof (count_nonneg directives) as Hcd; try (pose proof (count_nonneg arguments) as Hca);
    try (pose proof (path_cost_nonneg (path +:+ "/" +:+ name)) as Hcp); try (pose proof (count_nonneg own) as Hco);
    rewrite (proj2 (Z.ltb_ge _ (charged + 1))) by lia;
    rewrite directives_paid by (done || lia); cbn [mbind option_bind].
  - rewrite (proj2 (Z.ltb_ge _ (depth + 1))) by lia. fold (path_cost (path +:+ "/" +:+ name)).
    rewrite (proj2 (Z.ltb_ge _ (charged + 1 + count directives + path_cost (path +:+ "/" +:+ name)))) by lia.
    rewrite arguments_paid by (done || lia).
    eexists _, _, _, _, _. split_and!; [done|by constructor|by rewrite <- app_assoc|lia|lia|cbn; lia].
  - rewrite (proj2 (Z.ltb_ge _ (depth + 1))) by lia. fold (path_cost (path +:+ "/" +:+ name)).
    rewrite (proj2 (Z.ltb_ge _ (charged + 1 + count directives + path_cost (path +:+ "/" +:+ name)))) by lia.
    rewrite arguments_paid by (done || lia). cbn [mbind option_bind].
    eexists _, _, _, _, _. split_and!; [done|constructor; [exact Hi|constructor; [exact Hr|exact Hbelow]]| |lia|lia|cbn; lia].
    cbn. by rewrite <- !app_assoc.
  - eexists _, _, _, _, _. split_and!; [done|constructor; [exact Hi|constructor; [exact Hr|exact Hbelow]]| |lia|lia|cbn; lia].
    by rewrite <- !app_assoc.
  - apply fragment_found in Hin. rewrite Hin. cbn [mbind option_bind fg_directives fg_selections].
    rewrite directives_paid by (done || lia). cbn [mbind option_bind].
    eexists _, _, _, _, _. split_and!; [done|constructor; [exact Hi|constructor; [exact Hr|exact Hbelow]]| |lia|lia|cbn; lia].
    by rewrite <- !app_assoc.
Qed.

Lemma collect_complete fuel : ∀ stack charged fields cost more,
  expands_stack stack cost more → (charged + cost ≤ gl_maxNodes limits)%Z →
  (2 * Z.to_nat (gl_maxNodes limits - charged) + length stack < fuel)%nat →
  collect_loop (document_fragments document) variables limits fuel stack charged fields = Some (Some (fields ++ more)).
Proof.
  induction fuel as [|fuel IH]; intros stack charged fields cost more Hs Hpaid Hfuel; [lia|]. cbn [collect_loop].
  destruct stack as [|[selections path depth defaults] below]; [inversion Hs; subst; by rewrite app_nil_r|].
  cbn [fr_selections]. cbn [length] in Hfuel. destruct selections as [|s rest].
  - inversion Hs as [|f b cost0 more0 cb fb Hframe Hbelow]; subst. cbn in Hframe. inversion Hframe; subst.
    apply (IH below charged fields cb fb Hbelow); lia.
  - apply expands_stack_cost in Hs as Hc0.
    destruct (collect_selection_complete _ _ _ _ _ _ _ fields _ _ Hs Hpaid)
      as (stack' & charged' & fields' & cost' & more' & -> & Hs' & -> & Hc & Hstep & Hlen).
    apply expands_stack_cost in Hs' as Hc1. apply (IH _ _ _ cost'); [done|lia|lia].
Qed.
(** ** The frames of the operations *)

Abbreviation charge_variables := (fold_left (λ charged v, charged ← charged; chargeDirectives limits (vd_directives v) charged)).
Abbreviation variables_count := (sum_of (λ v, count (vd_directives v))).

Lemma charge_variables_None definitions : charge_variables definitions None = None.
Proof. by induction definitions. Qed.

Lemma charge_variables_exact definitions : ∀ charged result, (charged ≤ gl_maxNodes limits)%Z →
  charge_variables definitions (Some charged) = Some result ↔
  (∀ v, In v definitions → directives_known (vd_directives v)) ∧ result = (charged + variables_count definitions)%Z ∧
  (result ≤ gl_maxNodes limits)%Z.
Proof.
  induction definitions as [|v definitions IH]; intros charged result Hc.
  - cbn. split; [intros E; injection E as <-; split_and!; [by intros v []|lia|lia]|]. intros (_ & -> & _). f_equal. lia.
  - cbn [fold_left mbind option_bind sum_of fold_right].
    pose proof (sum_of_nonneg (λ v, count (vd_directives v)) definitions (λ v, count_nonneg _)) as Hn.
    change (fold_right (λ x, Z.add (count (vd_directives x))) 0%Z definitions) with (variables_count definitions).
    destruct (chargeDirectives limits (vd_directives v) charged) as [c|] eqn:Ed.
    + apply chargeDirectives_exact in Ed as (Hk & -> & Hm); [|done]. rewrite IH by done. split.
      * intros (Hv & -> & Hr). split_and!; [by intros x [<-|Hx]; [|apply Hv]|lia|lia].
      * intros (Hv & -> & Hr). split_and!; [intros x Hx; apply Hv; by right|lia|lia].
    + rewrite charge_variables_None. split; [done|]. intros (Hv & -> & Hr).
      rewrite directives_paid in Ed; [done|by apply Hv; left|lia].
Qed.

Lemma variables_paid definitions charged :
  (∀ v, In v definitions → directives_known (vd_directives v)) →
  (charged + variables_count definitions ≤ gl_maxNodes limits)%Z →
  charge_variables definitions (Some charged) = Some (charged + variables_count definitions)%Z.
Proof.
  intros Hv Hm. pose proof (sum_of_nonneg (λ v, count (vd_directives v)) definitions (λ v, count_nonneg _)).
  apply charge_variables_exact; [lia|done].
Qed.

Lemma operation_frames_sound ds : ∀ charged frames charged', (charged ≤ gl_maxNodes limits)%Z →
  operation_frames limits ds charged = Some (frames, charged') →
  (charged' ≤ gl_maxNodes limits)%Z ∧
  ∀ cost fields, expands_stack frames cost fields → expands_operations ds (charged' - charged + cost) fields.
Proof.
  induction ds as [|d ds IH]; intros charged frames charged' Hc; cbn [operation_frames].
  - intros E. injection E as <- <-. split; [done|]. intros cost fields Hs. inversion Hs; subst.
    replace (charged - charged + 0)%Z with 0%Z by lia. constructor.
  - destruct d as [operation definitions directives l|name own l|name].
    2, 3: intros E; destruct (IH _ _ _ Hc E) as [Hm Hs]; split; [done|]; intros cost fields Hf;
      apply operations_other; [done|by apply Hs].
    destruct (chargeDirectives limits directives charged) as [c1|] eqn:Ed; [|done]. cbn [mbind option_bind].
    apply chargeDirectives_exact in Ed as (Hk & -> & Hm1); [|done].
    destruct (charge_variables definitions _) as [c2|] eqn:Ev; [|done]. cbn [mbind option_bind].
    apply charge_variables_exact in Ev as (Hv & -> & Hm2); [|done].
    destruct (operation_frames limits ds _) as [[frames' c3]|] eqn:Eo; [|done]. cbn [mbind option_bind].
    intros E. injection E as <- <-. destruct (IH _ _ _ Hm2 Eo) as [Hm Hs]. split; [done|].
    intros cost fields Hstack. inversion Hstack as [|f b inner_cost inner cb fb Hi Hb]; subst. cbn in Hi.
    replace (c3 - charged + (inner_cost + cb))%Z with
      (count directives + variables_count definitions +
        (inner_cost + (c3 - (charged + count directives + variables_count definitions) + cb)))%Z by lia.
    apply operations_operation; [done|done|done|by apply Hs].
Qed.

Lemma expands_operations_cost ds cost fields : expands_operations ds cost fields → (0 ≤ cost)%Z.
Proof.
  induction 1 as [|op definitions directives l rest ic inner c fs Hk Hv Hi Hr IH|d rest c fs Hd Hr IH]; [done| |done].
  pose proof (count_nonneg directives). pose proof (sum_of_nonneg (λ v, count (vd_directives v)) definitions (λ v, count_nonneg _)).
  apply expands_cost in Hi. lia.
Qed.

Lemma operation_frames_complete ds cost fields : expands_operations ds cost fields →
  ∀ charged, (charged + cost ≤ gl_maxNodes limits)%Z →
  ∃ frames charged' cost', operation_frames limits ds charged = Some (frames, charged') ∧
    expands_stack frames cost' fields ∧ (charged + cost = charged' + cost')%Z ∧ (charged ≤ charged')%Z.
Proof.
  induction 1 as [|op definitions directives l rest ic inner c fs Hk Hv Hi Hr IH|d rest c fs Hd Hr IH]; intros charged Hpaid.
  - exists [], charged, 0%Z. split_and!; [done|constructor|lia|lia].
  - pose proof (count_nonneg directives). pose proof (sum_of_nonneg (λ v, count (vd_directives v)) definitions (λ v, count_nonneg _)).
    apply expands_cost in Hi as Hic. apply expands_operations_cost in Hr as Hrc.
    destruct (IH (charged + count directives + variables_count definitions)%Z) as (frames & c' & cost' & Ef & Hs & Hc & Hle); [lia|].
    cbn [operation_frames]. rewrite directives_paid by (done || lia). cbn [mbind option_bind].
    rewrite variables_paid by (done || lia).
    cbn [mbind option_bind]. rewrite Ef. cbn [mbind option_bind]. eexists _, _, _. split_and!; [done|by constructor|lia|lia].
  - destruct (IH charged Hpaid) as (frames & c' & cost' & Ef & Hs & Hc & Hle). exists frames, c', cost'.
    split_and!; [|done|done|done]. destruct d as [op ds l0 l1|n ds l0|n]; [by destruct (Hd op ds l0 l1)|done|done].
Qed.

(** The fields of a document are collected exactly when its expansion costs at most
    [maxNodes]. *)
Lemma collectSelectionFacts_exact fields : (0 ≤ gl_maxNodes limits)%Z →
  collectSelectionFacts (document_fragments document) variables limits document = Some fields ↔
  ∃ cost, expands_operations document cost fields ∧ (cost ≤ gl_maxNodes limits)%Z.
Proof.
  intros Hmax. unfold collectSelectionFacts. split.
  - destruct (operation_frames limits document 0) as [[frames charged]|] eqn:Eo; [|done]. cbn [mbind option_bind].
    apply operation_frames_sound in Eo as [Hm Hs]; [|done]. intros E.
    destruct (collect_loop _ _ _ _ _ _ _) as [[result|]|] eqn:El; try done. injection E as <-.
    apply collect_sound in El as (cost & more & Hstack & -> & Hpaid); [|done].
    eexists. split; [by apply Hs|]. lia.
  - intros (cost & Hops & Hm). destruct (operation_frames_complete _ _ _ Hops 0) as (frames & charged & cost' & -> & Hs & Hc & Hle); [lia|].
    cbn [mbind option_bind]. apply expands_stack_cost in Hs as Hcost.
    by rewrite (collect_complete _ _ _ _ _ _ Hs) by (unfold collect_fuel; lia).
Qed.
End Expansion.

(** ** What a document is read as *)

(** What is kept of one field, in units of the budget. *)
Definition occurrence_size (o : GraphqlFieldOccurrence) : Z :=
  1 + path_cost (occ_path o) + count (occ_argumentValues o) + count (occ_unresolvedArguments o).

Lemma sum_of_app {A} (f : A → Z) l l' : sum_of f (l ++ l') = (sum_of f l + sum_of f l')%Z.
Proof. induction l as [|x l IH]; [done|]. cbn [app sum_of fold_right]. unfold sum_of in *. lia. Qed.

Lemma sum_of_cons {A} (f : A → Z) x l : sum_of f (x :: l) = (f x + sum_of f l)%Z.
Proof. done. Qed.

Lemma sum_of_mono {A} (f g : A → Z) l : (∀ x, f x ≤ g x)%Z → (sum_of f l ≤ sum_of g l)%Z.
Proof. intros Hfg. induction l as [|x l IH]; [done|]. rewrite !sum_of_cons. specialize (Hfg x). lia. Qed.

Lemma occurrence_exact_size variables path arguments defaults leaf :
  occurrence_size (occurrence variables path arguments defaults leaf) = (1 + path_cost path + count arguments)%Z.
Proof.
  unfold occurrence_size, occurrence. cbn [occ_path occ_argumentValues occ_unresolvedArguments].
  enough (count (argument_values variables arguments defaults) + count (unresolved_arguments variables arguments defaults)
    = count arguments)%Z by lia.
  unfold argument_values, unresolved_arguments. induction arguments as [|a arguments IH]; [done|].
  cbn [omap list_omap List.filter]. destruct (resolveArgumentValue (an_value a) variables defaults);
    cbn [fmap option_fmap option_map map]; rewrite !count_cons; lia.
Qed.

Lemma expands_size document variables limits path depth defaults selections cost fields :
  expands document variables limits path depth defaults selections cost fields → (sum_of occurrence_size fields ≤ cost)%Z.
Proof.
  induction 1 as [|path depth defaults name arguments directives rest c fs Hk Hn Hd Hr IHr
    |path depth defaults name arguments directives l rest ci fi c fs Hk Hn Hd Hi IHi Hr IHr
    |path depth defaults directives l rest ci fi c fs Hk Hi IHi Hr IHr
    |path depth defaults name directives own l rest ci fi c fs Hk Hin Hko Hi IHi Hr IHr]; [done|..];
    rewrite ?sum_of_cons, ?occurrence_exact_size, ?sum_of_app; pose proof (count_nonneg directives);
    try pose proof (count_nonneg own); lia.
Qed.

Lemma expands_operations_size document variables limits ds cost fields :
  expands_operations document variables limits ds cost fields → (sum_of occurrence_size fields ≤ cost)%Z.
Proof.
  induction 1 as [|op definitions directives l rest ic inner c fs Hk Hv Hi Hr IH|d rest c fs Hd Hr IH]; [done| |done].
  pose proof (count_nonneg directives). pose proof (sum_of_nonneg (λ v, count (vd_directives v)) definitions (λ v, count_nonneg _)).
  apply expands_size in Hi. rewrite sum_of_app. lia.
Qed.

(** The document has a meaning as GraphQL text: every variable, fragment and
    operation is as a server needs it. *)
Record executable (document : DocumentNode) : Prop := {
  executable_variables : variables_unique document;
  executable_fragments : List.NoDup (map_keys (document_fragments document));
  executable_operations : document_operations document ≠ [];
  executable_spreads : spreads_defined document;
  executable_acyclic : ∀ a, ¬ tc (spreads document) a a;
}.

Lemma parseGraphqlFacts_spec parse text limits variables facts : (0 ≤ gl_maxNodes limits)%Z →
  parseGraphqlFacts parse text limits variables = Some facts ↔
  ∃ document cost, parse text (gl_maxNodes limits) = Some document ∧ (nesting document ≤ gl_maxDepth limits)%Z ∧
    executable document ∧ doc_operations facts = unique (document_operations document) ∧
    expands_operations document variables limits document cost (doc_fields facts) ∧ (cost ≤ gl_maxNodes limits)%Z.
Proof.
  intros Hmax. unfold parseGraphqlFacts. destruct (parse text _) as [document|]; cbn [mbind option_bind];
    [|split; [done|by intros (d & c & E & _)]].
  rewrite measureDepth_nesting. destruct (Z.ltb_spec (gl_maxDepth limits) (nesting document)) as [Hd|Hd].
  { split; [done|]. intros (d & c & E & Hn & _). injection E as <-. lia. }
  destruct (read_definitions document [] []) as [[operations fragments]|] eqn:Er; cbn [mbind option_bind].
  2: { split; [done|]. intros (d & c & E & _ & [Hv Hf _ _ _] & _). injection E as <-.
       by rewrite (proj2 (read_definitions_exact document _ _) (conj Hv (conj Hf (conj eq_refl eq_refl)))) in Er. }
  apply read_definitions_exact in Er as (Hv & Hf & -> & ->). case_bool_decide as Ho.
  { split; [done|]. intros (d & c & E & _ & [_ _ Ho' _ _] & _). by injection E as <-. }
  destruct (spreadsAreValid document _) eqn:Es; cbn [negb].
  2: { split; [done|]. intros (d & c & E & _ & [_ _ _ Hs Ha] & _). injection E as <-.
       by rewrite (proj2 (spreadsAreValid_exact document Hf) (conj Hs Ha)) in Es. }
  apply spreadsAreValid_exact in Es as [Hs Ha]; [|done]. split.
  - destruct (collectSelectionFacts _ _ _ _) as [fields|] eqn:Ec; [|done]. cbn [mbind option_bind]. intros E. injection E as <-.
    apply collectSelectionFacts_exact in Ec as (cost & Hops & Hc); [|done|done].
    exists document, cost. split_and!; try done.
  - intros (d & cost & E & _ & _ & Hop & Hops & Hc). injection E as <-.
    rewrite (proj2 (collectSelectionFacts_exact document variables limits Hf (doc_fields facts) Hmax)) by eauto.
    cbn [mbind option_bind]. rewrite <- Hop. by destruct facts.
Qed.

(** The document at a position, if it is one. *)
Definition facts_at parse value limits at_ : option GraphqlDocument :=
  match resolvePointer value at_ with
  | Some (JScalar (ScString target)) => parseGraphqlFacts parse target limits (variablesFor value at_)
  | _ => None
  end.

Lemma build_lookup parse value limits ats at_ facts :
  map_get (buildGraphqlDocuments parse value ats limits) at_ = Some facts ↔
  In at_ ats ∧ facts_at parse value limits at_ = Some facts.
Proof.
  unfold buildGraphqlDocuments. assert (∀ documents, map_get (fold_left (λ documents at_,
    match resolvePointer value at_ with
    | Some (JScalar (ScString target)) =>
        match parseGraphqlFacts parse target limits (variablesFor value at_) with
        | Some facts => map_set documents at_ facts
        | None => documents
        end
    | _ => documents
    end) ats documents) at_ = Some facts ↔
    (In at_ ats ∧ facts_at parse value limits at_ = Some facts) ∨
    (map_get documents at_ = Some facts ∧ (In at_ ats → facts_at parse value limits at_ = None))) as H.
  { induction ats as [|a ats IH]; intros documents; cbn [fold_left]; [cbn; naive_solver|].
    rewrite IH. clear IH. cbn [In].
    assert (∀ documents', (∀ k, map_get documents' k = match facts_at parse value limits a with
      | Some f => if decide (a = k) then Some f else map_get documents k | None => map_get documents k end) →
      (In at_ ats ∧ facts_at parse value limits at_ = Some facts ∨
        map_get documents' at_ = Some facts ∧ (In at_ ats → facts_at parse value limits at_ = None)) ↔
      ((a = at_ ∨ In at_ ats) ∧ facts_at parse value limits at_ = Some facts ∨
        map_get documents at_ = Some facts ∧ (a = at_ ∨ In at_ ats → facts_at parse value limits at_ = None))) as Hstep.
    { intros documents' Hd. rewrite Hd. destruct (in_dec String.string_dec at_ ats); destruct (facts_at parse value limits a) as [f|] eqn:Ef;
        try case_decide; subst; rewrite ?Ef; naive_solver. }
    apply Hstep. intros k. unfold facts_at. destruct (resolvePointer value a) as [v|]; [|done]. destruct v as [|s|?|?]; try done. destruct s; try done.
    destruct (parseGraphqlFacts _ _ _ _); [|done]. rewrite map_get_set. by destruct (decide (a = k)). }
  rewrite H. cbn. naive_solver.
Qed.

(** ** Every field a server could read *)

(** A field at [p] is selected by selections used below [path]: through fields, inline
    fragments and spreads, whatever their directives say. *)
Inductive reaches (document : DocumentNode) (path : string) (selections : list SelectionNode) : string → Prop :=
  | reaches_here name arguments directives inside :
      In (SelField name arguments directives inside) selections →
      reaches document path selections (path +:+ "/" +:+ name)
  | reaches_below name arguments directives inside p :
      In (SelField name arguments directives (Some inside)) selections →
      reaches document (path +:+ "/" +:+ name) inside p → reaches document path selections p
  | reaches_inline directives inside p :
      In (SelInline directives inside) selections → reaches document path inside p → reaches document path selections p
  | reaches_spread name directives own inside p :
      In (SelSpread name directives) selections → In (DefFragment name own inside) document →
      reaches document path inside p → reaches document path selections p.

Lemma reaches_nil document path p : ¬ reaches document path [] p.
Proof. by intros [n a d i []|n a d i p' []|d i p' []|n d o i p' []]. Qed.

Lemma reaches_cons document path s rest p :
  reaches document path (s :: rest) p ↔ reaches document path [s] p ∨ reaches document path rest p.
Proof.
  split.
  - intros [n a d i [->|H]|n a d i p' [->|H] Hr|d i p' [->|H] Hr|n d o i p' [->|H] Hf Hr];
      [left; eapply reaches_here|right; eapply reaches_here|left; eapply reaches_below|right; eapply reaches_below
      |left; eapply reaches_inline|right; eapply reaches_inline|left; eapply reaches_spread|right; eapply reaches_spread];
      eauto using in_eq.
  - intros [H|H]; (destruct H as [n a d i H|n a d i p' H Hr|d i p' H Hr|n d o i p' H Hf Hr];
      [eapply reaches_here|eapply reaches_below|eapply reaches_inline|eapply reaches_spread]; eauto;
      cbn in *; naive_solver).
Qed.

Lemma reaches_field document path name arguments directives inside p :
  reaches document path [SelField name arguments directives inside] p ↔
  p = path +:+ "/" +:+ name ∨ ∃ l, inside = Some l ∧ reaches document (path +:+ "/" +:+ name) l p.
Proof.
  split.
  - intros [n a d i [E|[]]|n a d i p' [E|[]] Hr|d i p' [E|[]] Hr|n d o i p' [E|[]] Hf Hr]; try done; injection E as -> -> -> ->; eauto.
  - intros [->|(l & -> & Hr)]; [eapply reaches_here|eapply reaches_below]; eauto using in_eq.
Qed.

Lemma expands_reaches document variables limits path depth defaults selections cost fields p :
  List.NoDup (map_keys (document_fragments document)) →
  expands document variables limits path depth defaults selections cost fields →
  In p (map occ_path fields) ↔ reaches document path selections p.
Proof.
  intros Hunique. induction 1 as [|path depth defaults name arguments directives rest c fs Hk Hn Hd Hr IHr
    |path depth defaults name arguments directives l rest ci fi c fs Hk Hn Hd Hi IHi Hr IHr
    |path depth defaults directives l rest ci fi c fs Hk Hi IHi Hr IHr
    |path depth defaults name directives own l rest ci fi c fs Hk Hin Hko Hi IHi Hr IHr].
  - split; [done|]. intros H. by apply reaches_nil in H.
  - rewrite reaches_cons, reaches_field, <- IHr. cbn [map In occurrence occ_path]. naive_solver.
  - rewrite reaches_cons, reaches_field, <- IHr. cbn [map In occurrence occ_path]. rewrite map_app, in_app_iff, IHi. naive_solver.
  - rewrite reaches_cons, <- IHr, map_app, in_app_iff, IHi. apply or_iff_compat_r. split.
    + intros Hp. eapply reaches_inline; eauto using in_eq.
    + intros [n a d i [E|[]]|n a d i p' [E|[]] Hp|d i p' [E|[]] Hp|n d o i p' [E|[]] Hf Hp]; try done. by injection E as -> ->.
  - rewrite reaches_cons, <- IHr, map_app, in_app_iff, IHi. apply or_iff_compat_r. split.
    + intros Hp. eapply reaches_spread; eauto using in_eq.
    + intros [n a d i [E|[]]|n a d i p' [E|[]] Hp|d i p' [E|[]] Hp|n d o i p' [E|[]] Hf Hp]; try done. injection E as -> ->.
      apply fragment_found in Hf, Hin; try done. rewrite Hf in Hin. by injection Hin as -> ->.
Qed.

Lemma expands_operations_reaches document variables limits ds cost fields p :
  List.NoDup (map_keys (document_fragments document)) →
  expands_operations document variables limits ds cost fields →
  In p (map occ_path fields) ↔
  ∃ operation definitions directives selections, In (DefOperation operation definitions directives selections) ds ∧
    reaches document "" selections p.
Proof.
  intros Hunique. induction 1 as [|op definitions directives l rest ic inner c fs Hk Hv Hi Hr IH|d rest c fs Hd Hr IH].
  - cbn. naive_solver.
  - rewrite map_app, in_app_iff, IH, (expands_reaches _ _ _ _ _ _ _ _ _ p Hunique Hi). cbn [In]. naive_solver.
  - rewrite IH. cbn [In]. split; [naive_solver|]. intros (o & v & ds & l & [->|Hin] & Hp); [by destruct (Hd o v ds l)|naive_solver].
Qed.

(** ** Properties *)

(** C24.  a position of a body has facts exactly when it holds a text that parses into an
    executable document, not nested deeper than the limit, whose expansion costs at most
    the budget, and the facts are its operations and its expansion, field by field. *)
Theorem documents_exact parse value ats limits at_ facts : (0 ≤ gl_maxNodes limits)%Z →
  map_get (buildGraphqlDocuments parse value ats limits) at_ = Some facts ↔
  In at_ ats ∧ ∃ target document cost,
    resolvePointer value at_ = Some (JScalar (ScString target)) ∧
    parse target (gl_maxNodes limits) = Some document ∧ (nesting document ≤ gl_maxDepth limits)%Z ∧
    executable document ∧ doc_operations facts = unique (document_operations document) ∧
    expands_operations document (variablesFor value at_) limits document cost (doc_fields facts) ∧
    (cost ≤ gl_maxNodes limits)%Z.
Proof.
  intros Hmax. rewrite build_lookup. apply and_iff_compat_l. unfold facts_at.
  destruct (resolvePointer value at_) as [v|]; [|naive_solver].
  destruct v as [|s|?|?]; try naive_solver. destruct s as [target| | ]; try naive_solver.
  rewrite parseGraphqlFacts_spec by done. split.
  - intros (document & cost & H). exists target, document, cost. tauto.
  - intros (target' & document & cost & E & H). injection E as <-. exists document, cost. exact H.
Qed.

(** C26.  whatever the text is, what is kept of it is bounded by the budget: the fields
    and their arguments number at most [maxNodes], and the paths are at most 64 times
    [maxNodes] characters long in all. *)
Theorem facts_bounded parse text limits variables facts : (0 ≤ gl_maxNodes limits)%Z →
  parseGraphqlFacts parse text limits variables = Some facts →
  (count (doc_fields facts) +
   sum_of (λ o, count (occ_argumentValues o) + count (occ_unresolvedArguments o)) (doc_fields facts) ≤ gl_maxNodes limits)%Z ∧
  (sum_of (λ o, Z.of_nat (slen (occ_path o))) (doc_fields facts) ≤ PATH_CHARGE_UNIT * gl_maxNodes limits)%Z.
Proof.
  intros Hmax H. apply parseGraphqlFacts_spec in H as (document & cost & _ & _ & _ & _ & Hops & Hc); [|done].
  apply expands_operations_size in Hops. clear -Hops Hc. cut (∀ l,
    (count l + sum_of (λ o, count (occ_argumentValues o) + count (occ_unresolvedArguments o)) l ≤ sum_of occurrence_size l)%Z ∧
    (sum_of (λ o, Z.of_nat (slen (occ_path o))) l ≤ PATH_CHARGE_UNIT * sum_of occurrence_size l)%Z).
  { intros H. destruct (H (doc_fields facts)). change PATH_CHARGE_UNIT with 64%Z in *. lia. }
  induction l as [|o l [IH1 IH2]]; [done|]. rewrite !sum_of_cons, count_cons. unfold occurrence_size at 1 3, path_cost.
  pose proof (count_nonneg (occ_argumentValues o)). pose proof (count_nonneg (occ_unresolvedArguments o)).
  change PATH_CHARGE_UNIT with 64%Z in *.
  pose proof (Z.div_mod (Z.of_nat (slen (occ_path o))) 64 ltac:(done)).
  pose proof (Z.mod_pos_bound (Z.of_nat (slen (occ_path o))) 64 ltac:(done)).
  pose proof (Z.div_pos (Z.of_nat (slen (occ_path o))) 64). lia.
Qed.

(** C25.  no field is hidden: the facts of a text hold a path exactly when a field at that
    path is selected by one of its operations, through whatever nesting of fields, inline
    fragments and fragment spreads, and under whatever directives. *)
Theorem no_field_hidden parse text limits variables facts document path : (0 ≤ gl_maxNodes limits)%Z →
  parseGraphqlFacts parse text limits variables = Some facts → parse text (gl_maxNodes limits) = Some document →
  In path (map occ_path (doc_fields facts)) ↔
  ∃ operation definitions directives selections,
    In (DefOperation operation definitions directives selections) document ∧ reaches document "" selections path.
Proof.
  intros Hmax H Hp. apply parseGraphqlFacts_spec in H as (document' & cost & Hp' & _ & He & _ & Hops & Hc); [|done].
  rewrite Hp in Hp'. injection Hp' as <-. eapply expands_operations_reaches; [apply executable_fragments, He|done].
Qed.

(** ** Witnesses *)

(** [query ($id: ID = "a") { viewer { ...Node, ... on User { ...Node } } }] with
    [fragment Node on T { node(id: $id) @include }]. *)
Definition sample_document : DocumentNode := [
  DefOperation OpQuery [{| vd_name := "id"; vd_defaultValue := Some (ValString "a"); vd_directives := [] |}] []
    [SelField "viewer" [] [] (Some [SelSpread "Node" []; SelInline [] [SelSpread "Node" []]])];
  DefFragment "Node" [] [SelField "node" [{| an_name := "id"; an_value := ValVariable "id" |}]
    [{| dn_name := "include"; dn_arguments := [] |}] None]].

Definition sample_parse (text : string) (maxTokens : Z) : option DocumentNode :=
  if String.eqb text "T" && (40 <=? maxTokens)%Z then Some sample_document else None.

Definition sample_limits : GraphqlParseLimits := {| gl_maxNodes := 40; gl_maxDepth := 3 |}.

Definition sample_body : JsonValue :=
  JObject [("query", JScalar (ScString "T")); ("variables", JObject [("id", JScalar (ScString "b"))])].

Definition sample_occurrence : GraphqlFieldOccurrence :=
  {| occ_path := "/viewer/node"; occ_leaf := true; occ_argumentValues := [("id", "b")]; occ_unresolvedArguments := [] |}.

Definition sample_facts : GraphqlDocument := {|
  doc_operations := [OpQuery];
  doc_fields := [{| occ_path := "/viewer"; occ_leaf := false; occ_argumentValues := []; occ_unresolvedArguments := [] |};
                 sample_occurrence; sample_occurrence] |}.

Lemma documents_exact_witness :
  map_get (buildGraphqlDocuments sample_parse sample_body ["/query"; "/missing"] sample_limits) "/query" = Some sample_facts ∧
  ∃ cost, expands_operations sample_document (variablesFor sample_body "/query") sample_limits sample_document cost
    (doc_fields sample_facts) ∧ (cost ≤ 40)%Z.
Proof.
  assert (map_get (buildGraphqlDocuments sample_parse sample_body ["/query"; "/missing"] sample_limits) "/query"
    = Some sample_facts) as E by (vm_compute; reflexivity).
  split; [exact E|].
  destruct (proj1 (documents_exact sample_parse sample_body ["/query"; "/missing"] sample_limits "/query" sample_facts
    (ltac:(vm_compute; discriminate) : (0 ≤ gl_maxNodes sample_limits)%Z)) E)
    as (_ & target & document & cost & Et & Ep & _ & _ & _ & Hops & Hc).
  vm_compute in Et. injection Et as <-. vm_compute in Ep. injection Ep as <-. exists cost. split; [exact Hops|exact Hc].
Defined.

Lemma facts_bounded_witness :
  parseGraphqlFacts sample_parse "T" sample_limits None ≠ None ∧
  ∀ facts, parseGraphqlFacts sample_parse "T" sample_limits None = Some facts →
    (sum_of (λ o, Z.of_nat (slen (occ_path o))) (doc_fields facts) ≤ 64 * 40)%Z.
Proof.
  split; [by vm_compute|]. intros facts H.
  exact (proj2 (facts_bounded sample_parse "T" sample_limits None facts ltac:(vm_compute; discriminate) H)).
Defined.

Lemma no_field_hidden_witness :
  ∃ operation definitions directives selections,
    In (DefOperation operation definitions directives selections) sample_document ∧
    reaches sample_document "" selections "/viewer/node".
Proof.
  destruct (parseGraphqlFacts sample_parse "T" sample_limits None) as [facts|] eqn:E; [|by vm_compute in E].
  apply (no_field_hidden sample_parse "T" sample_limits None facts sample_document "/viewer/node"
    ltac:(vm_compute; discriminate) E ltac:(vm_compute; reflexivity)).
  vm_compute in E. injection E as <-. right. left. reflexivity.
Defined.
