(* ===== verification/Base64.v ===== *)
(** * Base64

    `Buffer.toString("base64")` and `Buffer.from(s, "base64")` of the runtime, on
    strings of bytes; decoding is defined on well-formed input only, the input
    the program gives it. *)
From S2P Require Import Prelude JsString.

Local Open Scope N_scope.

Definition alphabet : string := "ABCDEFGHIJKLMNOPQRSTUVWXYZabcdefghijklmnopqrstuvwxyz0123456789+/".

Definition b64_char (n : N) : ascii := default "A"%char (String.get (N.to_nat n) alphabet).

Definition b64_value (c : ascii) : N :=
  let n := N_of_ascii c in
  if is_upper c then n - 65
  else if is_lower c then n - 71
  else if is_digit c then n + 4
  else if Ascii.eqb c "+" then 62 else 63.

Definition is_b64 (c : ascii) : bool :=
  is_upper c || is_lower c || is_digit c || Ascii.eqb c "+" || Ascii.eqb c "/".

Fixpoint encode (bytes : string) : string :=
  match bytes with
  | EmptyString => ""
  | String a EmptyString =>
      let a := N_of_ascii a in
      String (b64_char (a / 4)) (String (b64_char (a mod 4 * 16)) "==")
  | String a (String b EmptyString) =>
      let a := N_of_ascii a in let b := N_of_ascii b in
      String (b64_char (a / 4)) (String (b64_char (a mod 4 * 16 + b / 16))
        (String (b64_char (b mod 16 * 4)) "="))
  | String a (String b (String c rest)) =>
      let a := N_of_ascii a in let b := N_of_ascii b in let c := N_of_ascii c in
      String (b64_char (a / 4)) (String (b64_char (a mod 4 * 16 + b / 16))
        (String (b64_char (b mod 16 * 4 + c / 64)) (String (b64_char (c mod 64)) (encode rest))))
  end.

(** The bytes of two, three and four digits. *)
Definition byte1 (w x : ascii) : ascii := ascii_of_N (b64_value w * 4 + b64_value x / 16).
Definition byte2 (x y : ascii) : ascii := ascii_of_N (b64_value x mod 16 * 16 + b64_value y / 4).
Definition byte3 (y z : ascii) : ascii := ascii_of_N (b64_value y mod 4 * 64 + b64_value z).

Fixpoint decode (text : string) : string :=
  match text with
  | String w (String x (String y (String z rest))) =>
      if Ascii.eqb y "=" then String (byte1 w x) ""
      else if Ascii.eqb z "=" then String (byte1 w x) (String (byte2 x y) "")
      else String (byte1 w x) (String (byte2 x y) (String (byte3 y z) (decode rest)))
  | _ => ""
  end.

(** `/^(?:[A-Za-z0-9+/]{4})*(?:[A-Za-z0-9+/]{2}==|[A-Za-z0-9+/]{3}=)?$/` *)
Fixpoint CANONICAL_BASE64 (text : string) : bool :=
  match text with
  | EmptyString => true
  | String w (String x (String y (String z rest))) =>
      is_b64 w && is_b64 x &&
      (is_b64 y && is_b64 z && CANONICAL_BASE64 rest ||
       String.eqb rest "" &&
         (Ascii.eqb y "=" && Ascii.eqb z "=" || is_b64 y && Ascii.eqb z "="))
  | _ => false
  end.

Definition isCanonicalBase64 (value : string) : bool :=
  CANONICAL_BASE64 value && String.eqb (encode (decode value)) value.

(** ** Laws *)

Lemma string_ind3 (P : string → Prop) :
  P "" → (∀ a, P (String a "")) → (∀ a b, P (String a (String b ""))) →
  (∀ a b c s, P s → P (String a (String b (String c s)))) → ∀ s, P s.
Proof.
  intros H0 H1 H2 H3. assert (∀ n s, (slen s ≤ n)%nat → P s) as H; [|eauto].
  induction n as [|n IH]; intros s Hs.
  - destruct s; [done|]. simpl in Hs. lia.
  - destruct s as [|a [|b [|c s]]]; [done..|]. apply H3, IH. simpl in Hs. lia.
Qed.

Lemma every_sextet (p : N → bool) :
  forallb p (map N.of_nat (seq 0 64)) = true → ∀ n, n < 64 → p n = true.
Proof.
  rewrite forallb_forall. intros H n Hn. apply H, in_map_iff. exists (N.to_nat n).
  split; [lia|]. apply in_seq. lia.
Qed.

Lemma b64_char_value n : n < 64 →
  b64_value (b64_char n) = n ∧ is_b64 (b64_char n) = true ∧ Ascii.eqb (b64_char n) "=" = false.
Proof.
  intros Hn.
  pose proof (every_sextet (λ n, (b64_value (b64_char n) =? n) && is_b64 (b64_char n) &&
    negb (Ascii.eqb (b64_char n) "=")) ltac:(vm_compute; reflexivity) n Hn) as H.
  rewrite !andb_true_iff, N.eqb_eq, negb_true_iff in H. tauto.
Qed.

Lemma ascii_bound a : N_of_ascii a < 256.
Proof. apply N_ascii_bounded. Qed.

Section Digits.
Context (a b c : ascii).
Local Abbreviation x := (N_of_ascii a).
Local Abbreviation y := (N_of_ascii b).
Local Abbreviation z := (N_of_ascii c).

Lemma sextets : x / 4 < 64 ∧ x mod 4 * 16 < 64 ∧ x mod 4 * 16 + y / 16 < 64 ∧ y mod 16 * 4 < 64 ∧
  y mod 16 * 4 + z / 64 < 64 ∧ z mod 64 < 64.
Proof.
  pose proof (ascii_bound a). pose proof (ascii_bound b). pose proof (ascii_bound c).
  pose proof (N.mod_lt x 4). pose proof (N.mod_lt y 16). pose proof (N.mod_lt z 64).
  assert (y / 16 < 16) by (apply N.Div0.div_lt_upper_bound; lia).
  assert (z / 64 < 4) by (apply N.Div0.div_lt_upper_bound; lia).
  assert (x / 4 < 64) by (apply N.Div0.div_lt_upper_bound; lia).
  lia.
Qed.

Lemma byte_values :
  x / 4 * 4 + x mod 4 * 16 / 16 = x ∧ x / 4 * 4 + (x mod 4 * 16 + y / 16) / 16 = x ∧
  (x mod 4 * 16 + y / 16) mod 16 * 16 + y mod 16 * 4 / 4 = y ∧
  (x mod 4 * 16 + y / 16) mod 16 * 16 + (y mod 16 * 4 + z / 64) / 4 = y ∧
  (y mod 16 * 4 + z / 64) mod 4 * 64 + z mod 64 = z.
Proof.
  pose proof (ascii_bound b). pose proof (ascii_bound c).
  assert (y / 16 < 16) by (apply N.Div0.div_lt_upper_bound; lia).
  assert (z / 64 < 4) by (apply N.Div0.div_lt_upper_bound; lia).
  pose proof (N.div_mod x 4 ltac:(done)). pose proof (N.div_mod y 16 ltac:(done)).
  pose proof (N.div_mod z 64 ltac:(done)).
  assert (∀ q r m, r < m → (q * m + r) / m = q ∧ (q * m + r) mod m = r) as Hdm.
  { intros q r m Hr. split.
    - rewrite N.div_add_l, N.div_small by lia. lia.
    - rewrite N.add_comm, N.Div0.mod_add. by apply N.mod_small. }
  destruct (Hdm (x mod 4) (y / 16) 16 ltac:(done)) as [-> ->].
  destruct (Hdm (y mod 16) (z / 64) 4 ltac:(done)) as [-> ->].
  rewrite !N.div_mul by done. lia.
Qed.
End Digits.

Lemma decode_encode s : decode (encode s) = s.
Proof.
  induction s as [|a|a b|a b c s IH] using string_ind3; [done|..]; cbn [encode decode].
  - destruct (sextets a a a) as (H1 & H2 & _). destruct (byte_values a a a) as (E & _).
    cbn [decode]. change (Ascii.eqb "=" "=") with true. cbn iota. unfold byte1.
    rewrite (proj1 (b64_char_value _ H1)), (proj1 (b64_char_value _ H2)), E.
    by rewrite ascii_N_embedding.
  - destruct (sextets a b a) as (H1 & _ & H2 & H3 & _). destruct (byte_values a b a) as (_ & E1 & E2 & _).
    destruct (b64_char_value _ H3) as (V3 & _ & ->). change (Ascii.eqb "=" "=") with true. cbn iota.
    unfold byte1, byte2. rewrite V3, (proj1 (b64_char_value _ H1)), (proj1 (b64_char_value _ H2)).
    by rewrite E1, E2, !ascii_N_embedding.
  - destruct (sextets a b c) as (H1 & _ & H2 & _ & H3 & H4).
    destruct (byte_values a b c) as (_ & E1 & _ & E2 & E3).
    destruct (b64_char_value _ H3) as (V3 & _ & ->). destruct (b64_char_value _ H4) as (V4 & _ & ->).
    unfold byte1, byte2, byte3.
    rewrite V3, V4, (proj1 (b64_char_value _ H1)), (proj1 (b64_char_value _ H2)).
    by rewrite E1, E2, E3, !ascii_N_embedding, IH.
Qed.

Lemma CANONICAL_BASE64_encode s : CANONICAL_BASE64 (encode s) = true.
Proof.
  induction s as [|a|a b|a b c s IH] using string_ind3; [done|..]; cbn [encode CANONICAL_BASE64].
  - destruct (sextets a a a) as (H1 & H2 & _).
    destruct (b64_char_value _ H1) as (_ & -> & _), (b64_char_value _ H2) as (_ & -> & _). done.
  - destruct (sextets a b a) as (H1 & _ & H2 & H3 & _).
    destruct (b64_char_value _ H1) as (_ & -> & _), (b64_char_value _ H2) as (_ & -> & _).
    destruct (b64_char_value _ H3) as (_ & -> & ->). done.
  - destruct (sextets a b c) as (H1 & _ & H2 & _ & H3 & H4).
    destruct (b64_char_value _ H1) as (_ & -> & _), (b64_char_value _ H2) as (_ & -> & _).
    destruct (b64_char_value _ H3) as (_ & -> & _), (b64_char_value _ H4) as (_ & -> & _).
    by rewrite IH.
Qed.

(** ** Property *)

(** Attached bodies are accepted in exactly one encoding: the accepted texts are
    the encodings of byte strings, and the encoding is injective. *)
Theorem isCanonicalBase64_image value :
  (isCanonicalBase64 value = true ↔ ∃ bytes, value = encode bytes) ∧
  (∀ bytes, decode (encode bytes) = bytes).
Proof.
  split; [|apply decode_encode]. unfold isCanonicalBase64. split.
  - intros [_ He%String.eqb_eq]%andb_true_iff. eauto.
  - intros [bytes ->]. by rewrite CANONICAL_BASE64_encode, decode_encode, String.eqb_refl.
Qed.

(** ** The digits of a part of the bytes

    A digit of an encoding depends on the six bits it stands for and on nothing else:
    data that hold the same bytes at the same distance, modulo three, from their start
    have encodings that hold the same digits. *)

(** Digit [r] of a group of four, from the three bytes of the group. *)
Definition sextet (r : nat) (a b c : N) : N :=
  match r with
  | 0%nat => a / 4
  | 1%nat => a mod 4 * 16 + b / 16
  | 2%nat => b mod 16 * 4 + c / 64
  | _ => c mod 64
  end.

Definition byte_at (s : string) (j : nat) : N := default 0 (N_of_ascii <$> String.get j s).

Lemma get_encode s : ∀ q r, (r < 4)%nat → (3 * (4 * q + r + 1) ≤ 4 * slen s)%nat →
  String.get (4 * q + r) (encode s) =
  Some (b64_char (sextet r (byte_at s (3 * q)) (byte_at s (3 * q + 1)) (byte_at s (3 * q + 2)))).
Proof.
  induction s as [|a|a b|a b c s IH] using string_ind3; intros q r Hr Hlen; cbn [slen String.length] in Hlen.
  - lia.
  - assert (q = 0 ∧ r = 0)%nat as [-> ->] by lia. reflexivity.
  - assert (q = 0%nat) as -> by lia. destruct r as [|[|r]]; [reflexivity..|lia].
  - destruct q as [|q].
    + destruct r as [|[|[|[|r]]]]; [reflexivity..|lia].
    + replace (4 * S q + r)%nat with (S (S (S (S (4 * q + r))))) by lia.
      replace (3 * S q)%nat with (S (S (S (3 * q)))) by lia.
      cbn [encode String.get]. rewrite IH by (lia || done). reflexivity.
Qed.

Lemma sextet_bound r a b c : (r < 4)%nat → a < 256 → b < 256 → c < 256 → sextet r a b c < 64.
Proof.
  intros Hr Ha Hb Hc. assert (a / 4 < 64) by (apply N.Div0.div_lt_upper_bound; lia).
  assert (b / 16 < 16) by (apply N.Div0.div_lt_upper_bound; lia). assert (c / 64 < 4) by (apply N.Div0.div_lt_upper_bound; lia).
  pose proof (N.mod_lt a 4 ltac:(done)). pose proof (N.mod_lt b 16 ltac:(done)). pose proof (N.mod_lt c 64 ltac:(done)).
  destruct r as [|[|[|[|r]]]]; cbn [sextet]; lia.
Qed.

Lemma byte_at_bound s j : byte_at s j < 256.
Proof. unfold byte_at. destruct (String.get j s); cbn; [apply ascii_bound|done]. Qed.

(** A position of a text as a group and a digit of it. *)
Lemma get_digit s p : (3 * (p + 1) ≤ 4 * slen s)%nat → ∃ d, String.get p (encode s) = Some d ∧ is_b64 d = true ∧ Ascii.eqb d "=" = false.
Proof.
  intros Hp. pose proof (Nat.div_mod_eq p 4) as E. pose proof (Nat.mod_upper_bound p 4 ltac:(done)).
  rewrite E, get_encode by lia. eexists. split; [done|].
  apply b64_char_value, sextet_bound; [lia|apply byte_at_bound..].
Qed.

Lemma get_app_left n (s t : string) : (n < slen s)%nat → String.get n (s +:+ t) = String.get n s.
Proof. revert n. induction s as [|a s IH]; intros [|n]; cbn; intros; [lia..|done|]. apply IH. lia. Qed.

Lemma get_app_right n (s t : string) : String.get (slen s + n)%nat (s +:+ t) = String.get n t.
Proof. induction s; [done|]. exact IHs. Qed.

Lemma get_beyond n s : (slen s ≤ n)%nat → String.get n s = None.
Proof. revert n. induction s as [|a s IH]; intros [|n]; cbn; intros; try done; [lia|]. apply IH. lia. Qed.

Lemma byte_at_middle a b v r r' j : slen a = slen b → (slen a ≤ j < slen a + slen v)%nat →
  byte_at (a +:+ v +:+ r) j = byte_at (b +:+ v +:+ r') j.
Proof.
  intros Hab Hj. unfold byte_at. replace j with (slen a + (j - slen a))%nat by lia. rewrite get_app_right.
  rewrite Hab, get_app_right. by rewrite !get_app_left by lia.
Qed.

Lemma slice_ext i j s t : (∀ p, (i ≤ p < j)%nat → String.get p s = String.get p t) → slice i j s = slice i j t.
Proof.
  intros Hp. unfold slice. rewrite <- !substring_drop. apply String.get_correct. intros n.
  destruct (decide (n < j - i)%nat).
  - rewrite !String.substring_correct1 by done. apply Hp. lia.
  - by rewrite !String.substring_correct2 by lia.
Qed.

(** The digits of a value that its neighbours do not change. *)
Definition first_digit (k : nat) : nat := (8 * k + 5) / 6.
Definition last_digit (k n : nat) : nat := 8 * (k + n) / 6.

Lemma aligned_digits a b v r r' : slen a = slen b → (slen a < 3)%nat →
  slice (first_digit (slen a)) (last_digit (slen a) (slen v)) (encode (a +:+ v +:+ r)) =
  slice (first_digit (slen a)) (last_digit (slen a) (slen v)) (encode (b +:+ v +:+ r')).
Proof.
  intros Hab Hk. apply slice_ext. intros p [Hlo Hhi].
  assert (3 * (p + 1) ≤ 4 * (slen a + slen v))%nat as Hlast.
  { unfold last_digit in Hhi. pose proof (Nat.div_mod_eq (8 * (slen a + slen v)) 6). lia. }
  assert (3 * p ≥ 4 * slen a)%nat as Hfirst.
  { unfold first_digit in Hlo. destruct (slen a) as [|[|[|k]]]; cbn in Hlo; lia. }
  pose proof (Nat.div_mod_eq p 4) as E. pose proof (Nat.mod_upper_bound p 4 ltac:(done)) as Hr.
  set (q := (p / 4)%nat) in *. set (g := (p mod 4)%nat) in *. clearbody q g. subst p.
  rewrite !get_encode by (rewrite ?slen_app; lia). do 2 f_equal.
  assert (∀ j, (slen a ≤ j < slen a + slen v)%nat → byte_at (a +:+ v +:+ r) j = byte_at (b +:+ v +:+ r') j) as Hb
    by (intros; by apply byte_at_middle).
  destruct g as [|[|[|[|g]]]]; cbn [sextet]; rewrite ?(Hb (3 * q)%nat), ?(Hb (3 * q + 1)%nat), ?(Hb (3 * q + 2)%nat) by lia; done || lia.
Qed.

Lemma encode_app3 m a b : slen a = (3 * m)%nat → encode (a +:+ b) = encode a +:+ encode b.
Proof.
  revert a. induction m as [|m IH]; intros a Ha; [by destruct a|].
  destruct a as [|x [|y [|z a]]]; cbn [slen String.length] in Ha; try lia. cbn [String.append encode].
  rewrite IH by lia. done.
Qed.

Lemma slen_encode3 m a : slen a = (3 * m)%nat → slen (encode a) = (4 * m)%nat.
Proof.
  revert a. induction m as [|m IH]; intros a Ha; [by destruct a|].
  destruct a as [|x [|y [|z a]]]; cbn [slen String.length] in Ha; try lia. cbn [encode String.length]. rewrite IH by lia. lia.
Qed.

(** ** Texts without their padding *)

Lemma slice_left i j (s t : string) : (j ≤ slen s)%nat → slice i j (s +:+ t) = slice i j s.
Proof. intros Hj. apply slice_ext. intros p Hp. apply get_app_left. lia. Qed.

Lemma slice_right i j (s t : string) : slice (slen s + i) (slen s + j) (s +:+ t) = slice i j t.
Proof.
  unfold slice. replace (slen s + j - (slen s + i))%nat with (j - i)%nat by lia. f_equal.
  induction s as [|a s IH]; [done|]. exact IH.
Qed.

(** The digits of the whole bytes come before the padding. *)
Lemma digits_before_padding s (body pad : string) n : encode s = body +:+ pad → string_all (Ascii.eqb "=") pad = true →
  (3 * n ≤ 4 * slen s)%nat → (n ≤ slen body)%nat.
Proof.
  intros E Hpad Hn. destruct (Nat.le_gt_cases n (slen body)) as [|Hlt]; [done|exfalso].
  destruct (get_digit s (slen body)) as (d & Hd & _ & Hne); [lia|]. rewrite E in Hd.
  pose proof (get_app_right 0 body pad) as Hg. rewrite Nat.add_0_r, Hd in Hg. destruct pad as [|c pad]; [done|].
  cbn in Hg. injection Hg as <-. apply andb_true_iff in Hpad as [Hc%Ascii.eqb_eq _]. by subst d.
Qed.

(** Wherever a value stands in the data, its own digits stand in the text. *)
Lemma own_digits_in_text pre v post zeros (body pad : string) :
  slen zeros = (slen pre mod 3)%nat → encode (pre +:+ v +:+ post) = body +:+ pad → string_all (Ascii.eqb "=") pad = true →
  ∃ i j, slice i j body =
    slice (first_digit (slen zeros)) (last_digit (slen zeros) (slen v)) (encode (zeros +:+ v)).
Proof.
  intros Hz E Hpad. set (m := (slen pre / 3)%nat). pose proof (Nat.div_mod_eq (slen pre) 3) as Em. fold m in Em.
  pose proof (Nat.mod_upper_bound (slen pre) 3 ltac:(done)) as Hmod.
  pose proof (take_drop_str (3 * m) pre) as Hpre. set (a := take_str (3 * m) pre) in *. set (b := drop_str (3 * m) pre) in *.
  assert (slen b = slen zeros) as Hb by (unfold b; rewrite slen_drop_str, Hz; lia).
  assert (slen a = 3 * m)%nat as Ha by (apply (f_equal slen) in Hpre; rewrite slen_app in Hpre; lia).
  rewrite <- Hpre, sapp_assoc, (encode_app3 m) in E by done.
  exists (slen (encode a) + first_digit (slen zeros))%nat, (slen (encode a) + last_digit (slen zeros) (slen v))%nat.
  assert (slen (encode a) + last_digit (slen zeros) (slen v) ≤ slen body)%nat as Hlen.
  { apply (digits_before_padding (a +:+ b +:+ v +:+ post) body pad); [by rewrite (encode_app3 m)|done|].
    rewrite (slen_encode3 m) by done. rewrite !slen_app. unfold last_digit. pose proof (Nat.div_mod_eq (8 * (slen zeros + slen v)) 6). lia. }
  rewrite <- (slice_left _ _ body pad) by done. rewrite <- E, slice_right, <- Hb.
  rewrite (aligned_digits b zeros v post "") by (done || lia). by rewrite sapp_nil_r.
Qed.
