(* ===== verification/IpPolicy.v ===== *)
(** * Addresses that are never reachable (network/ip_policy.ts)

    The runtime's `isIP` of node:net is a parameter, and so is `Number(s)` on a
    string that is neither empty nor all digits: both are the members of the
    class [Runtime]. *)
From S2P Require Import Prelude JsString Json Containment AuthzTypes Semantics Targets.

(** What the code takes from its runtime: `isIP` answers 0, 4 or 6;
    `Number_other` is `Number(s)` when it is an integer, on strings that are not
    plain digits. *)
Class Runtime : Type := {
  isIP : string → Z;
  Number_other : string → option Z;
}.

(** `s.split(ab)` for a two-character separator. *)
Fixpoint split2 (a b : ascii) (s : string) : list string :=
  match s with
  | EmptyString => [""]
  | String x s' =>
      match s' with
      | EmptyString => [s]
      | String y s'' =>
          if Ascii.eqb x a && Ascii.eqb y b then "" :: split2 a b s''
          else match split2 a b s' with
               | [] => [s]
               | t :: ts => String x t :: ts
               end
      end
  end.

(** `s.indexOf(sub)` and `s.lastIndexOf(sub)`; [None] is `-1`. *)
Fixpoint index_sub (s sub : string) : option nat :=
  if String.prefix sub s then Some 0%nat
  else match s with EmptyString => None | String _ s' => S <$> index_sub s' sub end.

Fixpoint last_index_sub (s sub : string) : option nat :=
  match (match s with EmptyString => None | String _ s' => last_index_sub s' sub end) with
  | Some i => Some (S i)
  | None => if String.prefix sub s then Some 0%nat else None
  end.

Section Policy.
Context `{Runtime}.

(** `Number(s)`, where it is an integer. *)
Definition Number_integer (s : string) : option Z :=
  if string_all is_digit s then Some (Z.of_N (parse_digits 0 s)) else Number_other s.

Definition Ipv4Octets : Type := (Z * Z * Z * Z)%type.

Definition octet (part : string) : option Z :=
  n ← Number_integer part;
  if (n <? 0)%Z || (255 <? n)%Z then None else Some n.

Definition parseIpv4 (address : string) : option Ipv4Octets :=
  match split_on "." address with
  | [p1; p2; p3; p4] =>
      a ← octet p1; b ← octet p2; c ← octet p3; d ← octet p4; Some (a, b, c, d)
  | _ => None
  end.

Definition isDeniedIpv4 (octets : Ipv4Octets) : bool :=
  let '(a, b, _, _) := octets in
  if (a =? 0)%Z || (a =? 10)%Z || (a =? 127)%Z then true
  else if (a =? 100)%Z && (64 <=? b)%Z && (b <=? 127)%Z then true
  else if (a =? 169)%Z && (b =? 254)%Z then true
  else if (a =? 172)%Z && (16 <=? b)%Z && (b <=? 31)%Z then true
  else (a =? 192)%Z && (b =? 168)%Z.

(** `/^[0-9a-f]{1,4}$/i` and `Number.parseInt(token, 16)` on such a token. *)
Definition is_hex (c : ascii) : bool := is_digit c || in_range 97 102 c || in_range 65 70 c.

Definition hex_token (token : string) : bool :=
  (1 <=? slen token)%nat && (slen token <=? 4)%nat && string_all is_hex token.

Definition hex_value (c : ascii) : Z :=
  Z.of_nat (if is_digit c then code c - 48
            else if in_range 97 102 c then code c - 87 else code c - 55).

Fixpoint parse_hex (acc : Z) (s : string) : Z :=
  match s with
  | EmptyString => acc
  | String c s' => parse_hex (acc * 16 + hex_value c) s'
  end.

Fixpoint parse_words (tokens : list string) : option (list Z) :=
  match tokens with
  | [] => Some []
  | token :: rest =>
      if has_char "." token then
        match rest with
        | [] =>
            '(a, b, c, d) ← parseIpv4 token;
            Some [Z.lor (Z.shiftl a 8) b; Z.lor (Z.shiftl c 8) d]
        | _ => None
        end
      else if negb (hex_token token) then None
      else words ← parse_words rest; Some (parse_hex 0 token :: words)
  end.

Definition parseIpv6Half (half : string) : option (list Z) :=
  if String.eqb half "" then Some [] else parse_words (split_on ":" half).

Definition parseIpv6 (address : string) : option (list Z) :=
  let withoutZone := hd "" (split_on "%" address) in
  if negb (bool_decide (index_sub withoutZone "::" = last_index_sub withoutZone "::")) then None
  else
    let halves := split2 ":" ":" withoutZone in
    left ← parseIpv6Half (hd "" halves);
    right ← parseIpv6Half (default "" (halves !! 1%nat));
    if (length halves =? 1)%nat then
      if (length left =? 8)%nat then Some left else None
    else
      let omitted := (8 - Z.of_nat (length left) - Z.of_nat (length right))%Z in
      if (omitted <? 1)%Z then None
      else Some (left ++ repeat 0%Z (Z.to_nat omitted) ++ right).

Definition mappedIpv4 (words : list Z) : option Ipv4Octets :=
  match words with
  | [w0; w1; w2; w3; w4; w5; w6; w7] =>
      if forallb (λ w, (w =? 0)%Z) [w0; w1; w2; w3; w4] && (w5 =? 65535)%Z
      then Some (Z.shiftr w6 8, Z.land w6 255, Z.shiftr w7 8, Z.land w7 255)
      else None
  | _ => None
  end.

Definition isDeniedIpv6 (words : list Z) : bool :=
  match mappedIpv4 words with
  | Some mapped => isDeniedIpv4 mapped
  | None =>
      if forallb (λ w, (w =? 0)%Z) words then true
      else if forallb (λ w, (w =? 0)%Z) (take 7 words) && bool_decide (words !! 7%nat = Some 1%Z)
      then true
      else
        let first := default 0%Z (words !! 0%nat) in
        if (Z.land first 65024 =? 64512)%Z then true
        else (Z.land first 65472 =? 65152)%Z
  end.

Definition isDeniedIpAddress (address : string) : bool :=
  let version := isIP address in
  if (version =? 4)%Z then
    match parseIpv4 address with Some octets => isDeniedIpv4 octets | None => false end
  else if negb (version =? 6)%Z then false
  else match parseIpv6 address with Some words => isDeniedIpv6 words | None => false end.

End Policy.

(** ** CIDR blocks *)

(** A block of the [bits]-bit address space. *)
Record Cidr : Type := { cidr_base : Z; cidr_length : Z }.

Definition in_cidr (bits address : Z) (c : Cidr) : bool :=
  (address / 2 ^ (bits - cidr_length c) =? cidr_base c / 2 ^ (bits - cidr_length c))%Z.

Definition ipv4 (a b c d : Z) : Z := (((a * 256 + b) * 256 + c) * 256 + d)%Z.

(** "This network", RFC 1918, shared address space, loopback and link-local. *)
Definition denied_v4_blocks : list Cidr := [
  {| cidr_base := ipv4 0 0 0 0; cidr_length := 8 |};
  {| cidr_base := ipv4 10 0 0 0; cidr_length := 8 |};
  {| cidr_base := ipv4 127 0 0 0; cidr_length := 8 |};
  {| cidr_base := ipv4 100 64 0 0; cidr_length := 10 |};
  {| cidr_base := ipv4 169 254 0 0; cidr_length := 16 |};
  {| cidr_base := ipv4 172 16 0 0; cidr_length := 12 |};
  {| cidr_base := ipv4 192 168 0 0; cidr_length := 16 |}
].

(** The address eight 16-bit words denote. *)
Definition ipv6 (words : list Z) : Z := fold_left (λ acc w, acc * 65536 + w)%Z words 0%Z.

(** Unspecified, loopback, unique local and link-local addresses. *)
Definition denied_v6_blocks : list Cidr := [
  {| cidr_base := 0; cidr_length := 128 |};
  {| cidr_base := 1; cidr_length := 128 |};
  {| cidr_base := ipv6 [64512; 0; 0; 0; 0; 0; 0; 0]%Z; cidr_length := 7 |};
  {| cidr_base := ipv6 [65152; 0; 0; 0; 0; 0; 0; 0]%Z; cidr_length := 10 |}
]%Z.

(** `::ffff:0:0/96` *)
Definition mapped_block : Cidr :=
  {| cidr_base := ipv6 [0; 0; 0; 0; 0; 65535; 0; 0]%Z; cidr_length := 96 |}.

Definition denied_v4 (address : Z) : bool := existsb (in_cidr 32 address) denied_v4_blocks.

Definition denied_v6 (address : Z) : bool :=
  if in_cidr 128 address mapped_block then denied_v4 (address mod 2 ^ 32)
  else existsb (in_cidr 128 address) denied_v6_blocks.

(** ** Laws *)

Lemma div_of_quotient n m q r : (0 ≤ r < m)%Z → n = (q * m + r)%Z → (n / m = q)%Z.
Proof. intros Hr ->. symmetry. apply (Z.div_unique _ _ _ r); lia. Qed.

Definition is_byte (z : Z) : Prop := (0 ≤ z ≤ 255)%Z.
Definition is_word (z : Z) : Prop := (0 ≤ z ≤ 65535)%Z.

Lemma ipv4_div a b c d : is_byte a → is_byte b → is_byte c → is_byte d →
  (ipv4 a b c d / 2 ^ 24 = a ∧ ipv4 a b c d / 2 ^ 22 = a * 4 + b / 64 ∧
   ipv4 a b c d / 2 ^ 20 = a * 16 + b / 16 ∧ ipv4 a b c d / 2 ^ 16 = a * 256 + b)%Z.
Proof.
  unfold is_byte, ipv4. intros. pose proof (Z.div_mod b 64). pose proof (Z.div_mod b 16).
  pose proof (Z.mod_pos_bound b 64). pose proof (Z.mod_pos_bound b 16).
  split_and!.
  - apply (div_of_quotient _ _ _ ((b * 256 + c) * 256 + d)); lia.
  - apply (div_of_quotient _ _ _ ((b mod 64 * 256 + c) * 256 + d)); lia.
  - apply (div_of_quotient _ _ _ ((b mod 16 * 256 + c) * 256 + d)); lia.
  - apply (div_of_quotient _ _ _ (c * 256 + d)); lia.
Qed.

Lemma if_orb (a b : bool) : (if a then true else b) = a || b.
Proof. by destruct a. Qed.

Lemma isDeniedIpv4_blocks a b c d :
  is_byte a → is_byte b → is_byte c → is_byte d →
  isDeniedIpv4 (a, b, c, d) = denied_v4 (ipv4 a b c d).
Proof.
  intros Ha Hb Hc Hd. destruct (ipv4_div a b c d) as (E24 & E22 & E20 & E16); try done.
  unfold denied_v4, in_cidr. cbn [existsb denied_v4_blocks cidr_base cidr_length].
  change (32 - 8)%Z with 24%Z. change (32 - 10)%Z with 22%Z. change (32 - 12)%Z with 20%Z.
  change (32 - 16)%Z with 16%Z. rewrite E24, E22, E20, E16.
  change (ipv4 0 0 0 0 / 2 ^ 24)%Z with 0%Z. change (ipv4 10 0 0 0 / 2 ^ 24)%Z with 10%Z.
  change (ipv4 127 0 0 0 / 2 ^ 24)%Z with 127%Z. change (ipv4 100 64 0 0 / 2 ^ 22)%Z with 401%Z.
  change (ipv4 169 254 0 0 / 2 ^ 16)%Z with 43518%Z.
  change (ipv4 172 16 0 0 / 2 ^ 20)%Z with 2753%Z.
  change (ipv4 192 168 0 0 / 2 ^ 16)%Z with 49320%Z.
  clear E24 E22 E20 E16. unfold is_byte in *.
  pose proof (Z.div_mod b 64). pose proof (Z.mod_pos_bound b 64).
  pose proof (Z.div_mod b 16). pose proof (Z.mod_pos_bound b 16).
  unfold isDeniedIpv4. rewrite !if_orb. apply eq_true_iff_eq.
  rewrite !orb_true_iff, !andb_true_iff, !Z.eqb_eq, !Z.leb_le. lia.
Qed.

(** Masking the low bits off a number. *)
Lemma land_high w k n : (0 ≤ k ≤ n)%Z → (0 ≤ w < 2 ^ n)%Z →
  Z.land w (Z.shiftl (Z.ones (n - k)) k) = (w / 2 ^ k * 2 ^ k)%Z.
Proof.
  intros Hk Hw. rewrite <- Z.shiftr_div_pow2, <- Z.shiftl_mul_pow2 by lia.
  apply Z.bits_inj'. intros i Hi. rewrite Z.land_spec, !Z.shiftl_spec by done.
  destruct (Z.ltb_spec i k).
  - rewrite !(Z.testbit_neg_r _ (i - k)) by lia. apply andb_false_r.
  - rewrite Z.shiftr_spec by lia. replace (i - k + k)%Z with i by lia.
    destruct (Z.ltb_spec (i - k) (n - k)).
    + rewrite Z.ones_spec_low by lia. apply andb_true_r.
    + rewrite Z.ones_spec_high by lia. rewrite andb_false_r. symmetry.
      destruct (Z.eq_dec w 0) as [->|]; [apply Z.testbit_0_l|].
      apply Z.bits_above_log2; [lia|].
      assert (Z.log2 w < n)%Z; [apply Z.log2_lt_pow2|]; lia.
Qed.

Lemma word_masks w : is_word w →
  (Z.land w 65024 =? 64512)%Z = (w / 512 =? 126)%Z ∧
  (Z.land w 65472 =? 65152)%Z = (w / 64 =? 1018)%Z.
Proof.
  intros Hw. unfold is_word in Hw.
  pose proof (land_high w 9 16 ltac:(lia) ltac:(lia)) as E9.
  pose proof (land_high w 6 16 ltac:(lia) ltac:(lia)) as E6.
  change (Z.shiftl (Z.ones (16 - 9)) 9) with 65024%Z in E9.
  change (Z.shiftl (Z.ones (16 - 6)) 6) with 65472%Z in E6.
  rewrite E9, E6. change (2 ^ 9)%Z with 512%Z. change (2 ^ 6)%Z with 64%Z.
  split; apply eq_true_iff_eq; rewrite !Z.eqb_eq; lia.
Qed.

Lemma word_bytes w : is_word w →
  is_byte (Z.shiftr w 8) ∧ is_byte (Z.land w 255) ∧
  (Z.shiftr w 8 * 256 + Z.land w 255 = w)%Z.
Proof.
  intros Hw. unfold is_byte, is_word in *. rewrite Z.shiftr_div_pow2 by lia.
  assert (Z.land w 255 = w mod 256)%Z as -> by exact (Z.land_ones w 8 ltac:(lia)).
  change (2 ^ 8)%Z with 256%Z. pose proof (Z.div_mod w 256). pose proof (Z.mod_pos_bound w 256). lia.
Qed.

(** One step of a quotient by a multiple of the word size. *)
Lemma horner_div x w m : (0 < m)%Z → is_word w → ((x * 65536 + w) / (65536 * m) = x / m)%Z.
Proof.
  intros Hm Hw. rewrite <- Z.div_div by lia. f_equal. unfold is_word in Hw.
  apply (div_of_quotient _ _ _ w); lia.
Qed.

Section Words.
Context (w0 w1 w2 w3 w4 w5 w6 w7 : Z).
Context (H0 : is_word w0) (H1 : is_word w1) (H2 : is_word w2) (H3 : is_word w3).
Context (H4 : is_word w4) (H5 : is_word w5) (H6 : is_word w6) (H7 : is_word w7).

Local Abbreviation words := [w0; w1; w2; w3; w4; w5; w6; w7].

Lemma ipv6_div :
  (ipv6 words / 2 ^ 121 = w0 / 512 ∧ ipv6 words / 2 ^ 118 = w0 / 64 ∧
   ipv6 words / 2 ^ 32 = ipv6 [w0; w1; w2; w3; w4; w5] ∧
   ipv6 words mod 2 ^ 32 = w6 * 65536 + w7)%Z.
Proof.
  unfold ipv6. cbn [fold_left]. change (0 * 65536 + w0)%Z with w0.
  change (2 ^ 121)%Z with (65536 * (65536 * (65536 * (65536 * (65536 * (65536 * (65536 * 512)))))))%Z.
  change (2 ^ 118)%Z with (65536 * (65536 * (65536 * (65536 * (65536 * (65536 * (65536 * 64)))))))%Z.
  change (2 ^ 32)%Z with (65536 * 65536)%Z.
  split_and!; [by rewrite !horner_div by done..| |].
  - rewrite horner_div by done. apply (div_of_quotient _ _ _ w6); unfold is_word in *; lia.
  - symmetry. apply (Z.mod_unique _ _ (((((w0 * 65536 + w1) * 65536 + w2) * 65536 + w3) * 65536 + w4)
      * 65536 + w5)); unfold is_word in *; lia.
Qed.

Lemma mapped_block_words :
  in_cidr 128 (ipv6 words) mapped_block =
  forallb (λ w, (w =? 0)%Z) [w0; w1; w2; w3; w4] && (w5 =? 65535)%Z.
Proof.
  unfold in_cidr. change (128 - cidr_length mapped_block)%Z with 32%Z.
  destruct ipv6_div as (_ & _ & -> & _).
  change (cidr_base mapped_block / 2 ^ 32)%Z with 65535%Z.
  unfold is_word, ipv6 in *. apply eq_true_iff_eq. cbn [fold_left forallb].
  rewrite !andb_true_iff, !Z.eqb_eq. lia.
Qed.

Lemma isDeniedIpv6_blocks : isDeniedIpv6 words = denied_v6 (ipv6 words).
Proof.
  unfold denied_v6, isDeniedIpv6, mappedIpv4. rewrite mapped_block_words.
  destruct (_ && _).
  - destruct ipv6_div as (_ & _ & _ & ->).
    destruct (word_bytes w6 H6) as (? & ? & E6). destruct (word_bytes w7 H7) as (? & ? & E7).
    rewrite isDeniedIpv4_blocks by done. f_equal. unfold ipv4. lia.
  - change (default 0%Z (words !! 0%nat)) with w0. change (words !! 7%nat) with (Some w7).
    cbn [forallb take]. unfold denied_v6_blocks.
    cbn [existsb]. unfold in_cidr. cbn [cidr_base cidr_length].
    change (128 - 128)%Z with 0%Z. change (128 - 7)%Z with 121%Z. change (128 - 10)%Z with 118%Z.
    destruct ipv6_div as (-> & -> & _ & _). destruct (word_masks w0 H0) as [-> ->].
    change (ipv6 [64512; 0; 0; 0; 0; 0; 0; 0]%Z / 2 ^ 121)%Z with 126%Z.
    change (ipv6 [65152; 0; 0; 0; 0; 0; 0; 0]%Z / 2 ^ 118)%Z with 1018%Z.
    rewrite !Z.div_1_r. rewrite !if_orb, orb_false_r. unfold is_word, ipv6 in *. cbn [fold_left].
    apply eq_true_iff_eq. rewrite !orb_true_iff, !andb_true_iff, !Z.eqb_eq, bool_decide_eq_true.
    assert (Some w7 = Some 1%Z ↔ w7 = 1%Z) as Hs by naive_solver.
    rewrite Hs. lia.
Qed.
End Words.

(** ** Texts of addresses *)

Definition dotted (a b c d : Z) : string :=
  join "." [Z_to_string a; Z_to_string b; Z_to_string c; Z_to_string d].

Lemma digits_free c s : is_digit c = false → string_all is_digit s = true → has_char c s = false.
Proof. apply string_all_free. Qed.

Lemma parseIpv4_dotted `{Runtime} a b c d :
  is_byte a → is_byte b → is_byte c → is_byte d → parseIpv4 (dotted a b c d) = Some (a, b, c, d).
Proof.
  intros Ha Hb Hc Hd. unfold parseIpv4, dotted.
  assert (∀ z, is_byte z → has_char "." (Z_to_string z) = false ∧ octet (Z_to_string z) = Some z) as Hz.
  { intros z Hz. unfold is_byte in Hz. assert (string_all is_digit (Z_to_string z) = true) as Hd'
      by (apply Z_to_string_digits; lia).
    split; [by apply digits_free|]. unfold octet, Number_integer. rewrite Hd'. cbn.
    assert (Z.of_N (parse_digits 0 (Z_to_string z)) = z) as ->.
    { destruct z; [done| |lia]. cbn [Z_to_string]. by rewrite parse_digits_N_to_string. }
    rewrite (proj2 (Z.ltb_ge z 0)), (proj2 (Z.ltb_ge 255 z)) by lia. done. }
  destruct (Hz a Ha) as [? Ea], (Hz b Hb) as [? Eb], (Hz c Hc) as [? Ec], (Hz d Hd) as [? Ed].
  rewrite split_join; [|done|by repeat constructor]. by rewrite Ea, Eb, Ec, Ed.
Qed.

(** Colon-separated tokens and the words they denote; the last token may be a
    dotted IPv4 address. *)
Inductive words_text : list string → list Z → Prop :=
  | words_nil : words_text [] []
  | words_hex token tokens words :
      hex_token token = true → words_text tokens words →
      words_text (token :: tokens) (parse_hex 0 token :: words)
  | words_dotted a b c d :
      is_byte a → is_byte b → is_byte c → is_byte d →
      words_text [dotted a b c d] [a * 256 + b; c * 256 + d]%Z.

(** The text of an address: eight words, or two shorter runs around `::`. *)
Inductive ipv6_text : string → list Z → Prop :=
  | ipv6_full tokens words :
      words_text tokens words → length words = 8%nat → ipv6_text (join ":" tokens) words
  | ipv6_compressed left right wl wr :
      words_text left wl → words_text right wr → (length wl + length wr ≤ 7)%nat →
      ipv6_text (join ":" left +:+ "::" +:+ join ":" right)
                (wl ++ repeat 0%Z (8 - length wl - length wr) ++ wr).

Lemma parse_hex_bound s : ∀ acc n, string_all is_hex s = true → (0 ≤ acc < 16 ^ Z.of_nat n)%Z →
  (0 ≤ parse_hex acc s < 16 ^ Z.of_nat (n + slen s))%Z.
Proof.
  induction s as [|c s IH]; intros acc n Hs Hacc; simpl in *.
  { by rewrite Nat.add_0_r. }
  apply andb_true_iff in Hs as [Hc Hs]. rewrite <- Nat.add_succ_comm. apply IH; [done|].
  assert (0 ≤ hex_value c < 16)%Z.
  { unfold is_hex, hex_value, is_digit, in_range in *.
    destruct (Nat.leb_spec 48 (code c)), (Nat.leb_spec (code c) 57), (Nat.leb_spec 97 (code c)),
      (Nat.leb_spec (code c) 102), (Nat.leb_spec 65 (code c)), (Nat.leb_spec (code c) 70);
      simpl in *; try done; lia. }
  rewrite Nat2Z.inj_succ, Z.pow_succ_r by lia. lia.
Qed.

Lemma words_text_words tokens words : words_text tokens words → Forall is_word words.
Proof.
  induction 1 as [|token tokens words Ht Hw IH|]; [constructor| |].
  - constructor; [|done]. unfold hex_token in Ht. rewrite !andb_true_iff, !Nat.leb_le in Ht.
    destruct Ht as [[_ Hl] Ht]. pose proof (parse_hex_bound token 0 0 Ht ltac:(simpl; lia)) as Hb.
    assert (16 ^ Z.of_nat (0 + slen token) ≤ 16 ^ 4)%Z by (apply Z.pow_le_mono_r; lia).
    unfold is_word. lia.
  - unfold is_byte, is_word in *. repeat constructor; lia.
Qed.

Lemma ipv6_text_words s words : ipv6_text s words → length words = 8%nat ∧ Forall is_word words.
Proof.
  destruct 1 as [tokens words Hw Hl|left right wl wr Hl Hr Hlen].
  - eauto using words_text_words.
  - rewrite !length_app, repeat_length. split; [lia|].
    apply Forall_app. split; [by eapply words_text_words|]. apply Forall_app.
    split; [|by eapply words_text_words]. apply Forall_forall.
    intros w Hw%list_elem_of_In%repeat_spec. subst. unfold is_word. lia.
Qed.

(** ** Splitting at the double colon *)

Definition good_token (t : string) : Prop := t ≠ "" ∧ has_char ":" t = false.

Lemma words_text_good tokens words : words_text tokens words → Forall good_token tokens.
Proof.
  induction 1 as [|token tokens words Ht Hw IH|a b c d Ha Hb Hc Hd]; constructor; try done.
  - unfold hex_token in Ht. rewrite !andb_true_iff, !Nat.leb_le in Ht. destruct Ht as [[Hl _] Ht].
    split; [intros ->; simpl in Hl; lia|]. by apply (string_all_free is_hex).
  - unfold is_byte in *. assert (∀ z, (0 ≤ z)%Z → has_char ":" (Z_to_string z) = false) as Hz.
    { intros z Hz. by apply digits_free, Z_to_string_digits. }
    split; [unfold dotted; cbn [join]; by destruct (Z_to_string a)|].
    unfold dotted. cbn [join]. rewrite !has_char_app, !Hz by lia. done.
Qed.

(** The first character of a joined text is not a colon. *)
Definition no_colon_first (s : string) : Prop := ∀ rest, s ≠ String ":" rest.

Lemma prefix_colons_none c s : c ≠ ":"%char → String.prefix "::" (String c s) = false.
Proof. intros Hc. cbn [String.prefix]. by destruct (ascii_dec ":" c) as [<-|]. Qed.

Lemma prefix_one_colon s : no_colon_first s → String.prefix "::" (String ":" s) = false.
Proof.
  intros Hs. destruct s as [|c s]; [done|]. cbn [String.prefix].
  destruct (ascii_dec ":" c) as [<-|]; [by destruct (Hs s)|].
  by destruct (ascii_dec ":" ":").
Qed.

Lemma split2_unfold x y s :
  split2 ":" ":" (String x (String y s)) =
  if Ascii.eqb x ":" && Ascii.eqb y ":" then "" :: split2 ":" ":" s
  else match split2 ":" ":" (String y s) with
       | [] => [String x (String y s)]
       | t :: ts => String x t :: ts
       end.
Proof. done. Qed.

Lemma split2_nonempty s : split2 ":" ":" s ≠ [].
Proof.
  destruct s as [|x [|y s]]; [done..|]. rewrite split2_unfold.
  by destruct (Ascii.eqb x ":" && Ascii.eqb y ":"), (split2 ":" ":" (String y s)).
Qed.

Lemma split2_cons c s : (c = ":"%char → no_colon_first s) →
  split2 ":" ":" (String c s) =
  match split2 ":" ":" s with h :: r => String c h :: r | [] => [] end.
Proof.
  intros Hc. destruct s as [|y s]; [done|]. rewrite split2_unfold.
  assert (Ascii.eqb c ":" && Ascii.eqb y ":" = false) as ->.
  { apply andb_false_iff. destruct (Ascii.eqb_spec c ":") as [->|]; [right|by left].
    destruct (Ascii.eqb_spec y ":") as [->|]; [by destruct (Hc eq_refl s)|done]. }
  pose proof (split2_nonempty (String y s)). by destruct (split2 ":" ":" (String y s)).
Qed.

(** Reading over a colon-free token. *)
Lemma over_token t s : has_char ":" t = false →
  index_sub (t +:+ s) "::" = Nat.add (slen t) <$> index_sub s "::" ∧
  last_index_sub (t +:+ s) "::" =
    match last_index_sub s "::" with
    | Some i => Some (slen t + i)%nat
    | None => None
    end ∧
  split2 ":" ":" (t +:+ s) = match split2 ":" ":" s with h :: r => (t +:+ h) :: r | [] => [] end.
Proof.
  induction t as [|c t IH]; cbn [String.append].
  - intros _. split_and!; [by destruct (index_sub s "::")|by destruct (last_index_sub s "::")|].
    by destruct (split2 ":" ":" s).
  - intros [Hc Ht]%orb_false_iff. destruct (IH Ht) as (IH1 & IH2 & IH3).
    apply Ascii.eqb_neq in Hc. cbn [index_sub last_index_sub].
    rewrite prefix_colons_none, IH1, IH2 by done. split_and!.
    + by destruct (index_sub s "::").
    + by destruct (last_index_sub s "::").
    + rewrite split2_cons, IH3 by done. by destruct (split2 ":" ":" s).
Qed.

(** Reading over a single colon. *)
Lemma over_colon s : no_colon_first s →
  index_sub (String ":" s) "::" = S <$> index_sub s "::" ∧
  last_index_sub (String ":" s) "::" =
    match last_index_sub s "::" with Some i => Some (S i) | None => None end ∧
  split2 ":" ":" (String ":" s) =
    match split2 ":" ":" s with h :: r => String ":" h :: r | [] => [] end.
Proof.
  intros Hs. cbn [index_sub last_index_sub]. rewrite prefix_one_colon by done.
  split_and!; [done|done|]. by rewrite split2_cons.
Qed.

Lemma good_first t s : good_token t → no_colon_first (t +:+ s).
Proof. intros [Hne Hc] rest. destruct t as [|c t]; [done|]. cbn. by intros [= -> ?]. Qed.

Lemma join_first tokens s :
  Forall good_token tokens → tokens ≠ [] → no_colon_first (join ":" tokens +:+ s).
Proof.
  intros Hg Hne. destruct tokens as [|t tokens]; [done|]. inversion_clear Hg.
  destruct tokens; cbn [join]; [by apply good_first|]. rewrite sapp_assoc. by apply good_first.
Qed.

(** Joined tokens hold no double colon. *)
Lemma join_plain tokens : Forall good_token tokens →
  index_sub (join ":" tokens) "::" = None ∧ last_index_sub (join ":" tokens) "::" = None ∧
  split2 ":" ":" (join ":" tokens) = [join ":" tokens].
Proof.
  induction 1 as [|t tokens [Hne Hc] Hg IH]; [done|]. destruct (over_token t "" Hc) as (T1 & T2 & T3).
  destruct tokens as [|t' tokens]; [rewrite !sapp_nil_r in T1, T2, T3; cbn [join];
    rewrite T1, T2, T3; cbn; by rewrite sapp_nil_r|].
  rewrite join_cons by done. cbn [String.append]. destruct IH as (I1 & I2 & I3).
  pose proof (join_first _ "" Hg ltac:(done)) as Hf. rewrite sapp_nil_r in Hf.
  destruct (over_colon _ Hf) as (C1 & C2 & C3).
  destruct (over_token t (String ":" (join ":" (t' :: tokens))) Hc) as (U1 & U2 & U3).
  by rewrite U1, U2, U3, C1, C2, C3, I1, I2, I3.
Qed.

(** Two joined runs around a double colon: one occurrence, two halves. *)
Lemma join_colons left right : Forall good_token left → Forall good_token right →
  let s := join ":" left +:+ "::" +:+ join ":" right in
  index_sub s "::" = Some (slen (join ":" left)) ∧
  last_index_sub s "::" = Some (slen (join ":" left)) ∧
  split2 ":" ":" s = [join ":" left; join ":" right].
Proof.
  intros Hl Hr. cbn zeta. induction Hl as [|t tokens [Hne Hc] Hg IH].
  - cbn [join String.append slen]. destruct (join_plain right Hr) as (R1 & R2 & R3).
    assert (no_colon_first (join ":" right)) as Hf.
    { destruct right; [done|]. rewrite <- (sapp_nil_r (join _ _)). by apply join_first. }
    destruct (over_colon _ Hf) as (C1 & C2 & C3).
    set (r := join ":" right) in *.
    assert (String.prefix "::" (String ":" (String ":" r)) = true) as Hp
      by (apply (startsWith_iff (String ":" (String ":" r)) "::"); by exists r).
    split_and!.
    + cbn [index_sub]. by rewrite Hp.
    + cbn [last_index_sub] in *. by rewrite C2, R2, Hp.
    + rewrite split2_unfold. cbn. by rewrite R3.
  - destruct (over_token t ("::" +:+ join ":" right) Hc) as (T1 & T2 & T3).
    destruct tokens as [|t' tokens].
    + cbn [join slen] in *. destruct IH as (I1 & I2 & I3). cbn [String.append] in *.
      rewrite T1, T2, T3, I1, I2, I3. cbn. by rewrite sapp_nil_r, Nat.add_0_r.
    + rewrite join_cons by done. rewrite !sapp_assoc.
      destruct IH as (I1 & I2 & I3). set (s := join ":" (t' :: tokens) +:+ _) in *.
      destruct (over_token t (String ":" s) Hc) as (U1 & U2 & U3). cbn [String.append].
      destruct (over_colon s (join_first _ _ Hg ltac:(done))) as (C1 & C2 & C3).
      rewrite U1, U2, U3, C1, C2, C3, I1, I2, I3. rewrite slen_app. done.
Qed.

(** ** Reading an address *)

Lemma lor_byte x y : (0 ≤ y ≤ 255)%Z → Z.lor (Z.shiftl x 8) y = (x * 256 + y)%Z.
Proof.
  intros Hy. assert (Z.land (Z.shiftl x 8) y = 0%Z) as E.
  { apply Z.bits_inj'. intros i Hi. rewrite Z.land_spec, Z.bits_0, Z.shiftl_spec by done.
    apply andb_false_iff. destruct (Z.ltb_spec i 8); [left; apply Z.testbit_neg_r; lia|right].
    destruct (Z.eq_dec y 0) as [->|]; [apply Z.testbit_0_l|].
    apply Z.bits_above_log2; [lia|]. assert (Z.log2 y < 8)%Z; [apply Z.log2_lt_pow2; lia|lia]. }
  pose proof (Z.add_lor_land (Z.shiftl x 8) y) as Ha. rewrite Z.shiftl_mul_pow2 in * by lia.
  change (2 ^ 8)%Z with 256%Z in *. lia.
Qed.

Section Reading.
Context `{Runtime}.

Lemma parse_words_text tokens words : words_text tokens words → parse_words tokens = Some words.
Proof.
  induction 1 as [|token tokens words Ht Hw IH|a b c d Ha Hb Hc Hd]; [done| |].
  - cbn [parse_words]. rewrite (string_all_free is_hex "." token), Ht, IH; [done..|].
    unfold hex_token in Ht. by apply andb_true_iff in Ht as [_ ?].
  - cbn [parse_words]. assert (has_char "." (dotted a b c d) = true) as ->.
    { unfold dotted. cbn [join]. rewrite !has_char_app. cbn. by rewrite !orb_true_r. }
    rewrite parseIpv4_dotted by done. cbn. f_equal. unfold is_byte in *.
    by rewrite !lor_byte.
Qed.

Lemma parseIpv6Half_text tokens words :
  words_text tokens words → parseIpv6Half (join ":" tokens) = Some words.
Proof.
  intros Hw. unfold parseIpv6Half. pose proof (words_text_good _ _ Hw) as Hg.
  destruct (decide (tokens = [])) as [->|Hne]; [by inversion Hw|].
  assert (join ":" tokens ≠ "") as Hj.
  { destruct tokens as [|t [|t' ts]]; [done| |]; inversion_clear Hg as [|?? [Ht _] _];
      [done|]. rewrite join_cons by done. by destruct t. }
  apply String.eqb_neq in Hj. rewrite Hj, split_join; [by apply parse_words_text|done|].
  eapply Forall_impl; [exact Hg|]. by intros ? [_ ?].
Qed.

Lemma words_text_no_zone tokens words :
  words_text tokens words → has_char "%" (join ":" tokens) = false.
Proof.
  assert (∀ z, (0 ≤ z)%Z → has_char "%" (Z_to_string z) = false) as Hz.
  { intros z Hz. by apply digits_free, Z_to_string_digits. }
  induction 1 as [|t tokens words Ht Hw IH|a b c d Ha Hb Hc Hd]; [done| |].
  - assert (has_char "%" t = false) as Hp.
    { apply (string_all_free is_hex); [done|]. unfold hex_token in Ht.
      by apply andb_true_iff in Ht as [_ ?]. }
    destruct (decide (tokens = [])) as [->|]; [done|]. rewrite join_cons, !has_char_app by done.
    by rewrite Hp, IH.
  - unfold is_byte in *. unfold dotted. cbn [join]. rewrite !has_char_app, !Hz by lia. done.
Qed.

Lemma parseIpv6_text s words : ipv6_text s words → parseIpv6 s = Some words.
Proof.
  unfold parseIpv6. destruct 1 as [tokens words Hw Hl|left right wl wr Hl Hr Hlen].
  - rewrite split_on_char_free by by eapply words_text_no_zone. cbn [hd].
    destruct (join_plain _ (words_text_good _ _ Hw)) as (-> & -> & ->).
    rewrite bool_decide_true by done. cbn [negb hd lookup list_lookup default].
    rewrite (parseIpv6Half_text _ _ Hw). cbn. by rewrite Hl.
  - rewrite split_on_char_free
      by (rewrite !has_char_app, (words_text_no_zone _ _ Hl), (words_text_no_zone _ _ Hr); done).
    cbn [hd]. destruct (join_colons _ _ (words_text_good _ _ Hl) (words_text_good _ _ Hr))
      as (-> & -> & ->).
    rewrite bool_decide_true by done. cbn [negb hd length Nat.eqb].
    change (default "" ([join ":" left; join ":" right] !! 1%nat)) with (join ":" right).
    rewrite (parseIpv6Half_text _ _ Hl). cbn [mbind option_bind].
    rewrite (parseIpv6Half_text _ _ Hr). cbn [mbind option_bind].
    rewrite (proj2 (Z.ltb_ge _ 1)) by lia.
    replace (Z.to_nat (8 - Z.of_nat (length wl) - Z.of_nat (length wr)))
      with (8 - length wl - length wr)%nat by lia. done.
Qed.

End Reading.

(** ** Properties *)

(** Denied IPv4 addresses: a dotted address is denied exactly when it lies in one
    of the blocks 0/8, 10/8, 127/8, 100.64/10, 169.254/16, 172.16/12 and
    192.168/16. *)
Theorem denied_ipv4_blocks `{Runtime} a b c d
    (Ha : is_byte a) (Hb : is_byte b) (Hc : is_byte c) (Hd : is_byte d)
    (Hip : isIP (dotted a b c d) = 4%Z) :
  isDeniedIpAddress (dotted a b c d) = denied_v4 (ipv4 a b c d).
Proof.
  unfold isDeniedIpAddress. rewrite Hip, parseIpv4_dotted by done. by apply isDeniedIpv4_blocks.
Qed.

(** Denied IPv6 addresses: whatever way the address is written (in full, with a
    run of zeros elided, or ending in a dotted IPv4 address), it is denied
    exactly when it is unspecified, loopback, unique local (fc00::/7) or
    link-local (fe80::/10), or when it maps a denied IPv4 address. *)
Theorem denied_ipv6_blocks `{Runtime} s words
    (Htext : ipv6_text s words) (Hip : isIP s = 6%Z) :
  isDeniedIpAddress s = denied_v6 (ipv6 words).
Proof.
  unfold isDeniedIpAddress. rewrite Hip. cbn. rewrite (parseIpv6_text _ _ Htext).
  apply ipv6_text_words in Htext as [Hl Hw].
  do 8 (destruct words as [|? words]; [done|]). destruct words; [|done].
  repeat match goal with H : Forall _ (_ :: _) |- _ => inversion_clear H end.
  by apply isDeniedIpv6_blocks.
Qed.

(** A runtime for concrete inputs. *)
Definition sample_runtime : Runtime := {|
  isIP s := if has_char ":" s then 6%Z
            else if string_all (λ c, is_digit c || Ascii.eqb c ".") s then 4%Z else 0%Z;
  Number_other _ := None;
|}.

Lemma denied_ipv4_blocks_witness :
  @isDeniedIpAddress sample_runtime "172.31.0.9" = true ∧ denied_v4 (ipv4 172 31 0 9) = true.
Proof.
  split; [|reflexivity].
  refine (@denied_ipv4_blocks sample_runtime 172 31 0 9 _ _ _ _ eq_refl); split; discriminate.
Defined.

Lemma denied_ipv6_blocks_witness : @isDeniedIpAddress sample_runtime "::ffff:10.1.2.3" = true.
Proof.
  refine (@denied_ipv6_blocks sample_runtime "::ffff:10.1.2.3" _
    (ipv6_compressed [] ["ffff"; dotted 10 1 2 3] [] _ words_nil
      (words_hex "ffff" _ _ eq_refl (words_dotted 10 1 2 3 _ _ _ _)) _) eq_refl);
    try (split; discriminate). apply le_S, le_S, le_S, le_S, le_n.
Defined.
