(* ===== verification/Secrets.v ===== *)
(** * Named secrets (network/secrets.ts)

    The registry of resolved secrets, the values to mask and to forbid, and the
    headers injected into an allowed request.  A string is its UTF-8 bytes, so
    the length of its encoding is its length. *)
From S2P Require Import Prelude JsString Json AuthzTypes AuthzConfig.

Definition MIN_SECRET_BYTES : nat := 4.

(** Name and values; `Object.entries` of the registry. *)
Definition SecretValues : Type := list (string * list string).

(** The value is [None] when the code stores `undefined`, see [singleValue]. *)
Record InjectHeader : Type := { ih_name : string; ih_value : option string }.

Record InjectHeaderPreview : Type := { ihp_name : string; ihp_secrets : list string }.

(** ** Resolution of the registry *)

(** What the source of a secret yields; the resolver can also throw. *)
Inductive SourceValue : Type :=
  | SourceNull
  | SourceOne (value : string)
  | SourceMany (values : list string)
  | SourceThrows (message : string).

Definition secrets_at (name : string) : string :=
  "[nas] " +:+ "secrets[" +:+ dquote +:+ name +:+ dquote +:+ "]".

Definition assertMinSecretBytes (value name : string) : option string :=
  let bytes := slen value in
  if (bytes <? MIN_SECRET_BYTES)%nat
  then Some (secrets_at name +:+ " is only " +:+ nat_to_string bytes +:+ " bytes. Values under "
             +:+ nat_to_string MIN_SECRET_BYTES +:+ " bytes mask unrelated content.")
  else None.

(** The non-empty strings of a source. *)
Definition source_values (value : SourceValue) : list string :=
  List.filter (λ entry, negb (String.eqb entry ""))
    match value with
    | SourceNull | SourceThrows _ => []
    | SourceOne value => [value]
    | SourceMany values => values
    end.

(** One entry: its error, [None] when it is optional and empty, or its values. *)
Definition resolve_secret_entry (resolveSource : string → SourceValue)
    (secret : string * SecretConfig) : Result (option (string * list string)) :=
  let '(name, config) := secret in
  let required := negb (bool_decide (sc_required config = Some false)) in
  match resolveSource (sc_from config) with
  | SourceThrows message =>
      Err ("[nas] could not resolve " +:+ drop_str 6 (secrets_at name) +:+ " ("
           +:+ sc_from config +:+ "): " +:+ message)
  | value =>
      match source_values value with
      | [] =>
          if required
          then Err (secrets_at name +:+ " (" +:+ sc_from config
                    +:+ ") is empty. The session cannot start unless required = false.")
          else Ok None
      | values =>
          match omap (λ entry, assertMinSecretBytes entry name) values with
          | message :: _ => Err message
          | [] => Ok (Some (name, values))
          end
      end
  end.

(** All entries are resolved concurrently: when some fail, the failure that
    settles first, which [first] picks, is the error of the whole. *)
Definition resolveSecretRegistry (resolveSource : string → SourceValue)
    (first : list string → string) (secrets : list (string * SecretConfig)) :
    Result SecretValues :=
  let results := map (resolve_secret_entry resolveSource) secrets in
  match omap (λ r, match r with Err e => Some e | Ok _ => None end) results with
  | [] => Ok (map_set_all [] (omap (λ r, match r with Ok entry => entry | Err _ => None end) results))
  | errors => Err (first errors)
  end.

(** ** Dispositions *)

(** `dispositions[name] ?? dispositions["*"] ?? "mask"`; [None] is a property
    that `dispositions` inherits from `Object.prototype`, no disposition at all. *)
Definition dispositionFor (dispositions : list (string * SecretDisposition)) (name : string) :
    option SecretDisposition :=
  match prop_read dispositions name with
  | Own d => Some d
  | Inherited => None
  | Missing => Some (default DispMask (map_get dispositions "*"))
  end.

Definition valuesWithDisposition (registry : SecretValues)
    (dispositions : list (string * SecretDisposition)) (wanted : list SecretDisposition) :
    list string :=
  flat_map (λ '(name, values),
    match dispositionFor dispositions name with
    | Some d => if includes wanted d then values else []
    | None => []
    end) registry.

Definition maskValuesFor (registry : SecretValues)
    (dispositions : list (string * SecretDisposition)) : list string :=
  valuesWithDisposition registry dispositions [DispMask; DispInject].

Definition forbidValuesFor (registry : SecretValues)
    (dispositions : list (string * SecretDisposition)) : list string :=
  valuesWithDisposition registry dispositions [DispForbid].

(** ** Injected headers *)

(** The result of `singleValue`: `null`, a string, or the `undefined` found at
    index 0 of an inherited function of one parameter. *)
Inductive Single : Type := SingleNull | SingleUndefined | SingleString (value : string).

(** The inherited properties with `length === 1`. *)
Definition unary_prototype_names : list string :=
  ["constructor"; "hasOwnProperty"; "isPrototypeOf"; "propertyIsEnumerable";
   "__lookupGetter__"; "__lookupSetter__"]%string.

Definition singleValue (registry : SecretValues) (name : string) : Single :=
  match prop_read registry name with
  | Own [value] => SingleString value
  | Own _ | Missing => SingleNull
  | Inherited => if includes unary_prototype_names name then SingleUndefined else SingleNull
  end.

Definition is_null (s : Single) : bool := match s with SingleNull => true | _ => false end.

(** `singleValue(registry, reference) ?? ""` *)
Definition single_or_empty (s : Single) : string :=
  match s with SingleString value => value | _ => "" end.

(** `text.replace` with the expression of [template_names]: the scan holds back
    what may be the start of a reference. *)
Fixpoint template_replace (f : string → string) (st : TemplateState) (s : string) : string :=
  match s with
  | EmptyString =>
      match st with
      | Outside dollar => if dollar then "$" else ""
      | Inside name => "${" +:+ name
      end
  | String c s' =>
      match st with
      | Inside name =>
          if Ascii.eqb c "}" then f name +:+ template_replace f (Outside false) s'
          else template_replace f (Inside (name +:+ String c "")) s'
      | Outside true =>
          if Ascii.eqb c "{" then template_replace f (Inside "") s'
          else if Ascii.eqb c "$" then String "$" (template_replace f (Outside true) s')
          else String "$" (String c (template_replace f (Outside false) s'))
      | Outside false =>
          if Ascii.eqb c "$" then template_replace f (Outside true) s'
          else String c (template_replace f (Outside false) s')
      end
  end.

Definition applicableInjects (injects : list Inject) (registry : SecretValues) :
    list (string * InjectValue) :=
  omap (λ entry,
    match parseInjectValue (inj_value entry) with
    | Err _ => None
    | Ok value =>
        if existsb (λ name, is_null (singleValue registry name)) (injectReferences value)
        then None else Some (inj_name entry, value)
    end) injects.

Definition render_header (registry : SecretValues) (inject : string * InjectValue) :
    list InjectHeader :=
  let '(name, value) := inject in
  match value with
  | InjLiteral text => [{| ih_name := name; ih_value := Some text |}]
  | InjSecret secret =>
      match singleValue registry secret with
      | SingleNull => []
      | SingleUndefined => [{| ih_name := name; ih_value := None |}]
      | SingleString value => [{| ih_name := name; ih_value := Some value |}]
      end
  | InjTemplate text _ =>
      let text := template_replace (λ reference, single_or_empty (singleValue registry reference))
                    (Outside false) text in
      [{| ih_name := name; ih_value := Some text |}]
  end.

Definition renderInjectHeaders (injects : list Inject) (registry : SecretValues) :
    list InjectHeader :=
  flat_map (render_header registry) (applicableInjects injects registry).

Definition describeInjectHeaders (injects : list Inject) (registry : SecretValues) :
    list InjectHeaderPreview :=
  map (λ '(name, value), {| ihp_name := name; ihp_secrets := injectReferences value |})
      (applicableInjects injects registry).

(** ** Laws *)

(** A header is rendered for exactly the entries that are described. *)
Lemma render_header_name registry injects inject :
  In inject (applicableInjects injects registry) →
  map ih_name (render_header registry inject) = [inject.1].
Proof.
  intros Hin. apply list_elem_of_In, list_elem_of_omap in Hin as (entry & _ & H).
  destruct (parseInjectValue _) as [value|]; [|done]. case_match eqn:E; [done|].
  injection H as <-. destruct value as [text|name|text names]; try done.
  simpl in E. rewrite orb_false_r in E. simpl. by destruct (singleValue registry name).
Qed.

Lemma applicable_has_values injects registry name value :
  In (name, value) (applicableInjects injects registry) → ∀ secret,
  In secret (injectReferences value) → ¬ In secret object_prototype_names →
  ∃ v, map_get registry secret = Some [v].
Proof.
  intros Hin secret Hs Hp. apply list_elem_of_In, list_elem_of_omap in Hin as (entry & _ & H).
  destruct (parseInjectValue _) as [parsed|]; [|done]. case_match eqn:E; [done|].
  injection H as <- <-. apply includes_false in Hp. rewrite existsb_false in E.
  specialize (E _ Hs). unfold singleValue, prop_read in E. rewrite Hp in E.
  destruct (map_get registry secret) as [[|v [|]]|]; try done. eauto.
Qed.

Lemma valuesWithDisposition_In registry dispositions wanted v :
  In v (valuesWithDisposition registry dispositions wanted) ↔
  ∃ name values d, In (name, values) registry ∧ In v values ∧
    dispositionFor dispositions name = Some d ∧ In d wanted.
Proof.
  unfold valuesWithDisposition. rewrite in_flat_map. split.
  - intros ([name values] & Hin & Hv). destruct (dispositionFor dispositions name) eqn:E; [|done].
    destruct (includes wanted _) eqn:Ei; [|done]. apply includes_In in Ei. naive_solver.
  - intros (name & values & d & Hin & Hv & Hd & Hw). exists (name, values). split; [done|].
    rewrite Hd. apply includes_In in Hw. by rewrite Hw.
Qed.

(** ** Properties *)

(** What the approver is shown is what is sent: previews and rendered headers
    correspond one to one, with the same names; every secret a shown header
    refers to has exactly one value, so no header is assembled from a missing or
    ambiguous secret; and an entry whose secrets all have one value is shown. *)
Theorem described_headers_rendered injects registry :
  Forall2 (λ preview header, ih_name header = ihp_name preview ∧
      ∀ secret, In secret (ihp_secrets preview) → ¬ In secret object_prototype_names →
        ∃ value, map_get registry secret = Some [value])
    (describeInjectHeaders injects registry) (renderInjectHeaders injects registry) ∧
  (∀ entry value, In entry injects → parseInjectValue (inj_value entry) = Ok value →
    (∀ secret, In secret (injectReferences value) → ∃ v, map_get registry secret = Some [v]) →
    In {| ihp_name := inj_name entry; ihp_secrets := injectReferences value |}
       (describeInjectHeaders injects registry)).
Proof.
  split.
  - unfold describeInjectHeaders, renderInjectHeaders.
    pose proof (applicable_has_values injects registry) as Hv.
    pose proof (render_header_name registry injects) as Hn. revert Hv Hn.
    induction (applicableInjects injects registry) as [|[name value] l IH]; intros Hv Hn; cbn;
      [constructor|].
    pose proof (Hn (name, value) ltac:(by left)) as H1.
    cbn [render_header] in H1.
    destruct (match value with InjLiteral _ => _ | InjSecret _ => _ | InjTemplate _ _ => _ end)
      as [|h [|]]; try done. injection H1 as H1. cbn [app]. constructor.
    + split; [done|]. cbn. intros secret Hin Hp. eapply Hv; [by left|done|done].
    + apply IH; intros; [eapply Hv; [by right|done|done]|apply Hn; by right].
  - intros entry value Hin Hp Hv. unfold describeInjectHeaders. apply in_map_iff.
    exists (inj_name entry, value). split; [done|].
    apply list_elem_of_In, list_elem_of_omap. exists entry. split; [by apply list_elem_of_In|].
    rewrite Hp. case_match eqn:E; [|done]. apply existsb_exists in E as (secret & Hs & E).
    destruct (Hv _ Hs) as [v Hg]. unfold singleValue, prop_read in E. by rewrite Hg in E.
Qed.

(** Which values the proxy masks and which it forbids: a value is masked exactly
    when a secret that holds it is masked or injected, and forbidden exactly when
    a secret that holds it is forbidden; the own entry of a secret wins over the
    entry for all, and without either the secret is masked. *)
Theorem secret_values_guarded registry dispositions v :
  (In v (maskValuesFor registry dispositions) ↔
   ∃ name values, In (name, values) registry ∧ In v values ∧
     (dispositionFor dispositions name = Some DispMask ∨
      dispositionFor dispositions name = Some DispInject)) ∧
  (In v (forbidValuesFor registry dispositions) ↔
   ∃ name values, In (name, values) registry ∧ In v values ∧
     dispositionFor dispositions name = Some DispForbid) ∧
  (∀ name, ¬ In name object_prototype_names →
     dispositionFor dispositions name =
     Some match map_get dispositions name, map_get dispositions "*" with
          | Some d, _ | None, Some d => d
          | None, None => DispMask
          end).
Proof.
  unfold maskValuesFor, forbidValuesFor. rewrite !valuesWithDisposition_In. split_and!.
  - simpl. naive_solver.
  - simpl. naive_solver.
  - intros name Hn. unfold dispositionFor, prop_read.
    apply includes_false in Hn. rewrite Hn.
    destruct (map_get dispositions name); [done|]. by destruct (map_get dispositions "*").
Qed.

(** A secret named like a property of `Object.prototype` is neither masked nor
    forbidden, although nothing was configured for it. *)
Lemma prototype_secret_unguarded :
  maskValuesFor [("constructor", ["hunter22"])] [("*", DispMask)] = [] ∧
  forbidValuesFor [("constructor", ["hunter22"])] [("*", DispForbid)] = [].
Proof. split; reflexivity. Qed.
