(* ===== verification/Protocol.v ===== *)
(** * Messages between the proxy and the broker (network/protocol.ts)

    The typed messages, and the validators that run on the parsed JSON before the
    broker reads a field.  A parsed JSON object is the list of its members with
    distinct names; none of the names the code reads is inherited from
    `Object.prototype`.  Lengths are counted in the code units of the model. *)
From S2P Require Import Prelude JsString Json Containment AuthzTypes Pattern Relation Selection.
From S2P Require Import Semantics MatchLaws Targets Specificity AuthzConfig Witness Validate.
From S2P Require Import Compile Resolve Decide Base64 IpPolicy Secrets.

(** ** Vocabulary *)

Inductive ApprovalScope : Type :=
  | ScopeOnce | ScopeRule | ScopeHostPort | ScopeHost | ScopeViolation.
#[export] Instance ApprovalScope_eq_dec : EqDecision ApprovalScope.
Proof. solve_decision. Defined.

Definition ApprovalScope_string (s : ApprovalScope) : string :=
  match s with
  | ScopeOnce => "once" | ScopeRule => "rule" | ScopeHostPort => "host-port"
  | ScopeHost => "host" | ScopeViolation => "violation"
  end.

Definition APPROVAL_SCOPES : list string :=
  ["once"; "rule"; "host-port"; "host"; "violation"]%string.

Inductive NetworkPrincipal : Type := PrincipalAgent | PrincipalDind.
#[export] Instance NetworkPrincipal_eq_dec : EqDecision NetworkPrincipal.
Proof. solve_decision. Defined.

Inductive RequestKind : Type := KindConnect | KindForward.

(** `Decision` of this file: the answer to a request. *)
Inductive Verdict : Type := VerdictAllow | VerdictDeny.
#[export] Instance Verdict_eq_dec : EqDecision Verdict.
Proof. solve_decision. Defined.

Definition DecisionReason_string (r : DecisionReason) : string :=
  match r with
  | ReasonRule => "rule" | ReasonIndeterminate => "indeterminate"
  | ReasonScopeFallback => "scope-fallback" | ReasonNetworkFallback => "network-fallback"
  | ReasonWebsocketDenied => "websocket-denied"
  end.

(** `NormalizedTarget` has the members of `TargetAddress`. *)
Definition NormalizedTarget : Type := TargetAddress.

Record ReviewContext : Type := {
  rvc_path : string;
  rvc_contentType : option string;
  rvc_bodySize : Z;
}.

Inductive UnavailableCode : Type :=
  | BodyUnreadable | BodyTooLarge | Capacity | InvalidCapture | StoreFailed.

Inductive RequestBodyCapture : Type :=
  | CaptureDisabled
  | CaptureNotApplicable
  | CaptureUnavailable (code : UnavailableCode)
  | CaptureAttached (byteLength : Z) (sha256 : string) (contentType contentEncoding : option string)
      (data : string).

Inductive RequestBodyAuditStatus : Type :=
  | StatusDisabled
  | StatusNotApplicable
  | StatusAttached (byteLength : Z) (sha256 : string)
  | StatusUnavailable (code : UnavailableCode).

Inductive BodyDiagnostic : Type :=
  | DiagBodyUnreadable
  | DiagBodyTooLarge (byteLength maxBodyBytes : Z)
  | DiagInvalidJson
  | DiagEmptyJsonBody
  | DiagNonScalarAtPointer (pointer : string)
  | DiagGraphqlUnparseable (pointer : string)
  | DiagGraphqlQueryString (pointer : string)
  | DiagGraphqlUnresolvedFieldArgument (pointer fieldPath argument : string).

Record AuthorizeRequest : Type := {
  ar_requestId : string;
  ar_sessionId : string;
  ar_principal : option NetworkPrincipal;
  ar_target : NormalizedTarget;
  ar_method : string;
  ar_transport : RequestTransport;
  ar_requestKind : RequestKind;
  ar_observedAt : string;
  ar_bodyTruth : list (string * Truth);
  ar_bodyDiagnostics : list (string * BodyDiagnostic);
  ar_requestBodyCapture : RequestBodyCapture;
  ar_reviewContext : option ReviewContext;
}.

Record DecisionResponse : Type := {
  dr_requestId : string;
  dr_decision : Verdict;
  dr_scope : option ApprovalScope;
  dr_reason : string;
  dr_ruleId : option string;
  dr_message : option string;
  dr_injectHeaders : option (list InjectHeader);
  dr_maskValues : option (list string);
  dr_forbidValues : option (list string);
  dr_removeHeaders : option (list string);
}.

Inductive ViolationFindingKind : Type :=
  | SchemaMismatch | UnexpectedBody | BodyUnavailable | InspectionIncomplete | FindingsTruncated.
#[export] Instance ViolationFindingKind_eq_dec : EqDecision ViolationFindingKind.
Proof. solve_decision. Defined.

Definition VIOLATION_FINDING_KINDS : list (string * ViolationFindingKind) :=
  [("schema-mismatch", SchemaMismatch); ("unexpected-body", UnexpectedBody);
   ("body-unavailable", BodyUnavailable); ("inspection-incomplete", InspectionIncomplete);
   ("findings-truncated", FindingsTruncated)]%string.

Definition APPROVABLE_FINDING_KINDS : list ViolationFindingKind :=
  [SchemaMismatch; UnexpectedBody; BodyUnavailable].

Record ViolationFinding : Type := {
  vf_expect : Z;
  vf_expectKind : string;
  vf_at : string;
  vf_kind : ViolationFindingKind;
  vf_pointer : string;
  vf_value : option string;
  vf_label : option string;
  vf_excerpt : option string;
  vf_count : Z;
}.

Definition isApprovableFinding (finding : ViolationFinding) : bool :=
  (0 <=? vf_expect finding)%Z && includes APPROVABLE_FINDING_KINDS (vf_kind finding).

Record RequestPolicyReviewRequest : Type := {
  rv_requestId : string;
  rv_sessionId : string;
  rv_principal : option NetworkPrincipal;
  rv_ruleId : string;
  rv_target : NormalizedTarget;
  rv_method : string;
  rv_findings : list ViolationFinding;
  rv_reviewContext : option ReviewContext;
}.

Record RequestPolicyOutcomeRequest : Type := {
  ro_requestId : string;
  ro_sessionId : string;
  ro_principal : option NetworkPrincipal;
  ro_ruleId : string;
  ro_result : string;
  ro_reason : string;
  ro_findings : option (list ViolationFinding);
}.

Definition targetKey (target : NormalizedTarget) : string :=
  ta_host target +:+ ":" +:+ Z_to_string (ta_port target).

(** ** Targets and addresses *)

(** `s.trim()`: ASCII white space. *)
Definition is_space (c : ascii) : bool := in_range 9 13 c || Ascii.eqb c " ".

Fixpoint trim_start (s : string) : string :=
  match s with
  | EmptyString => ""
  | String c s' => if is_space c then trim_start s' else s
  end.

(** Remove the trailing characters in a class. *)
Fixpoint strip_end (f : ascii → bool) (s : string) : string :=
  match s with
  | EmptyString => ""
  | String c s' =>
      match strip_end f s' with
      | EmptyString => if f c then "" else String c ""
      | rest => String c rest
      end
  end.

Definition trim (s : string) : string := strip_end is_space (trim_start s).

(** [None] is the thrown "host must not be empty". *)
Definition normalizeHost (host : string) : option string :=
  let value := toLowerCase (trim host) in
  let value :=
    if startsWith value "[" && endsWith value "]" then slice 1 (slen value - 1) value else value in
  let value := strip_end (λ c, Ascii.eqb c ".") value in
  if String.eqb value "" then None else Some value.

Definition denyReasonForTarget `{Runtime} (target : NormalizedTarget) : option (option string) :=
  host ← normalizeHost (ta_host target);
  Some (if String.eqb host "localhost" then Some "blocked-special-host"
        else if negb (isIP host =? 0)%Z && isDeniedIpAddress host then Some "blocked-private-ip"
        else None).

(** ** Values of the parsed message *)

Definition as_object (v : JsonValue) : option (list (string * JsonValue)) :=
  match v with JObject members => Some members | _ => None end.

Definition as_string (v : JsonValue) : option string :=
  match v with JScalar (ScString s) => Some s | _ => None end.

Definition member (m : list (string * JsonValue)) (name : string) : option JsonValue := map_get m name.

Definition string_member (m : list (string * JsonValue)) (name : string) : option string :=
  v ← member m name; as_string v.

(** `Number.isSafeInteger` *)
Definition MAX_SAFE_INTEGER : Z := 9007199254740991.

Definition safe_integer (v : JsonValue) : option Z :=
  match v with
  | JScalar (ScNumber x) =>
      z ← number_to_Z x; if (Z.abs z <=? MAX_SAFE_INTEGER)%Z then Some z else None
  | _ => None
  end.

Definition integer_member (m : list (string * JsonValue)) (name : string) : option Z :=
  v ← member m name; safe_integer v.

(** `value === "..."`, `value === 1`, `value === null` *)
Definition is_text (v : option JsonValue) (s : string) : bool :=
  bool_decide (v ≫= as_string = Some s).

Definition is_number (v : option JsonValue) (z : Z) : bool :=
  bool_decide (v ≫= safe_integer = Some z).

Definition is_null_value (v : option JsonValue) : bool :=
  match v with Some JNull => true | _ => false end.

Definition is_string (v : option JsonValue) : bool :=
  match v ≫= as_string with Some _ => true | None => false end.

Definition isListedValue (v : option JsonValue) (allowed : list string) : bool :=
  match v ≫= as_string with Some s => includes allowed s | None => false end.

Definition hasExactFields (m : list (string * JsonValue)) (fields : list string) : bool :=
  (length m =? length fields)%nat && forallb (includes fields) (map_keys m).

Definition integer_at_least (v : option JsonValue) (low : Z) : bool :=
  match v ≫= safe_integer with Some z => (low <=? z)%Z | None => false end.

(** `switch (value) { case label: ... default: ... }` on a string. *)
Fixpoint switch {A} (value : option string) (cases : list (list string * A)) (otherwise : A) : A :=
  match cases with
  | [] => otherwise
  | (labels, result) :: rest =>
      if existsb (λ label, bool_decide (value = Some label)) labels then result
      else switch value rest otherwise
  end.

(** ** Parts of a message *)

Definition isNormalizedTarget (v : option JsonValue) : bool :=
  match v ≫= as_object with
  | None => false
  | Some target =>
      (length target =? 2)%nat &&
      match string_member target "host", integer_member target "port" with
      | Some host, Some port =>
          (0 <? slen host)%nat && (slen host <=? 253)%nat && (0 <? port)%Z && (port <=? 65535)%Z
      | _, _ => false
      end
  end.

(** `/^[A-Za-z]{1,16}$/` *)
Definition HTTP_METHOD (s : string) : bool :=
  (1 <=? slen s)%nat && (slen s <=? 16)%nat && string_all is_alpha s.

Definition REVIEW_CONTEXT_FIELDS : list string := ["path"; "contentType"; "bodySize"]%string.

Definition isReviewContext (v : JsonValue) : bool :=
  match as_object v with
  | None => false
  | Some context =>
      forallb (includes REVIEW_CONTEXT_FIELDS) (map_keys context) &&
      is_string (member context "path") &&
      (is_null_value (member context "contentType") || is_string (member context "contentType")) &&
      integer_at_least (member context "bodySize") 0
  end.

(** `/^sha256:[0-9a-f]{64}$/` *)
Definition REQUEST_BODY_SHA256 (s : string) : bool :=
  startsWith s "sha256:" && (slen s =? 71)%nat &&
  string_all (λ c, is_digit c || in_range 97 102 c) (drop_str 7 s).

Definition validateRequestBodyCapture (v : option JsonValue) : option string :=
  let invalid := Some "invalid authorize request body capture" in
  match v ≫= as_object with
  | None => invalid
  | Some capture =>
      let check (b : bool) := if b then None else invalid in
      switch (string_member capture "state") [
        (["disabled"; "not-applicable"], check (hasExactFields capture ["state"]));
        (["unavailable"],
          check (hasExactFields capture ["state"; "code"] &&
                 isListedValue (member capture "code")
                   ["body-unreadable"; "body-too-large"; "invalid-capture"]));
        (["attached"],
          check (hasExactFields capture
                   ["state"; "encoding"; "byteLength"; "sha256"; "contentType"; "contentEncoding";
                    "data"] &&
                 is_text (member capture "encoding") "base64" &&
                 integer_at_least (member capture "byteLength") 0 &&
                 match string_member capture "sha256" with
                 | Some s => REQUEST_BODY_SHA256 s
                 | None => false
                 end &&
                 (is_null_value (member capture "contentType") ||
                  is_string (member capture "contentType")) &&
                 (is_null_value (member capture "contentEncoding") ||
                  is_string (member capture "contentEncoding")) &&
                 match string_member capture "data" with
                 | Some s => isCanonicalBase64 s
                 | None => false
                 end))
      ] invalid
  end%string.

Definition isBodyDiagnostic (v : JsonValue) : bool :=
  match as_object v with
  | None => false
  | Some diagnostic =>
      switch (string_member diagnostic "code") [
        (["body-unreadable"; "invalid-json"; "empty-json-body"], hasExactFields diagnostic ["code"]);
        (["body-too-large"],
          hasExactFields diagnostic ["code"; "byteLength"; "maxBodyBytes"] &&
          integer_at_least (member diagnostic "byteLength") 1 &&
          integer_at_least (member diagnostic "maxBodyBytes") 1);
        (["non-scalar-at-pointer"; "graphql-unparseable"; "graphql-query-string"],
          hasExactFields diagnostic ["code"; "pointer"] && is_string (member diagnostic "pointer"));
        (["graphql-unresolved-field-argument"],
          hasExactFields diagnostic ["code"; "pointer"; "fieldPath"; "argument"] &&
          is_string (member diagnostic "pointer") && is_string (member diagnostic "fieldPath") &&
          is_string (member diagnostic "argument"))
      ] false
  end%string.

(** ** Rule ids of a document *)

(** `/^[a-z][a-z0-9._-]{0,63}(?:\.\$fallback)?$/` *)
Definition SAFE_RULE_ID (s : string) : bool :=
  RULE_KEY_PATTERN s ||
  endsWith s ".$fallback" && RULE_KEY_PATTERN (take_str (slen s - 10) s).

Definition documentHasConcreteRuleId (document : ResolvedDocument) (ruleId : string) : bool :=
  existsb (λ scope, existsb (λ rule, String.eqb (rr_id rule) ruleId) (rs_rules scope))
          (doc_scopes document).

Definition documentHasRuleId (document : ResolvedDocument) (ruleId : string) : bool :=
  existsb (λ scope, String.eqb (rs_fallbackRuleId scope) ruleId ||
                    existsb (λ rule, String.eqb (rr_id rule) ruleId) (rs_rules scope))
          (doc_scopes document).

(** ** `validateAuthorizeRequest` *)

Definition principal_ok (m : list (string * JsonValue)) : bool :=
  match member m "principal" with
  | None => true
  | v => is_text v "agent" || is_text v "dind"
  end.

Definition AUTHORIZE_FIELDS : list string :=
  ["version"; "type"; "requestId"; "sessionId"; "principal"; "target"; "method"; "transport";
   "requestKind"; "observedAt"; "bodyTruth"; "bodyDiagnostics"; "requestBodyCapture";
   "reviewContext"]%string.

Definition TRUTH_VALUES : list string := ["true"; "false"; "indeterminate"]%string.
Definition REQUEST_TRANSPORTS : list string := ["http"; "websocket"]%string.
Definition REQUEST_KINDS : list string := ["connect"; "forward"]%string.

(** The first error of a list of checks. *)
Fixpoint first_error {A} (check : A → option string) (l : list A) : option string :=
  match l with
  | [] => None
  | x :: l' => match check x with Some e => Some e | None => first_error check l' end
  end.

Definition check_truth (document : ResolvedDocument) (entry : string * JsonValue) : option string :=
  if negb (documentHasConcreteRuleId document entry.1)
  then Some "unknown authorize body truth rule ID"
  else if negb (isListedValue (Some entry.2) TRUTH_VALUES)
  then Some "invalid authorize body truth value"
  else None.

Definition check_diagnostic (document : ResolvedDocument) (truths : list (string * JsonValue))
    (entry : string * JsonValue) : option string :=
  if negb (documentHasConcreteRuleId document entry.1)
  then Some "unknown authorize body diagnostic rule ID"
  else if negb (isBodyDiagnostic entry.2) then Some "invalid authorize body diagnostic"
  else if negb (is_text (map_get truths entry.1) "indeterminate")
  then Some "unexpected authorize body diagnostic"
  else None.

Definition check_diagnosed (diagnostics : list (string * JsonValue)) (entry : string * JsonValue) :
    option string :=
  if is_text (Some entry.2) "indeterminate" && negb (map_has diagnostics entry.1)
  then Some "missing authorize body diagnostic" else None.

Definition ruleCount (document : ResolvedDocument) : nat :=
  fold_left (λ count scope, (count + length (rs_rules scope))%nat) (doc_scopes document) 0%nat.

(** The tables of the body conditions. *)
Definition validate_tables (document : ResolvedDocument) (message : list (string * JsonValue)) :
    option string :=
  match member message "bodyTruth" ≫= as_object with
  | None => Some "invalid authorize body truth table"
  | Some truths =>
      if (ruleCount document <? length truths)%nat then Some "too many authorize body truths"
      else match first_error (check_truth document) truths with
      | Some e => Some e
      | None =>
          match member message "bodyDiagnostics" ≫= as_object with
          | None => Some "invalid authorize body diagnostic table"
          | Some diagnostics =>
              if (ruleCount document <? length diagnostics)%nat
              then Some "too many authorize body diagnostics"
              else match first_error (check_diagnostic document truths) diagnostics with
              | Some e => Some e
              | None => first_error (check_diagnosed diagnostics) truths
              end
          end
      end
  end.

Definition validateAuthorizeRequest (value : JsonValue) (expectedSessionId : string)
    (document : ResolvedDocument) : option string :=
  match as_object value with
  | None => Some "invalid authorize request"
  | Some message =>
      if negb (principal_ok message) then Some "invalid network principal"
      else if negb (is_number (member message "version") 1) ||
              negb (is_text (member message "type") "authorize") ||
              negb (is_string (member message "requestId"))
      then Some "invalid authorize request"
      else if negb (is_text (member message "sessionId") expectedSessionId)
      then Some "authorize session mismatch"
      else if existsb (λ field, negb (includes AUTHORIZE_FIELDS field)) (map_keys message)
      then Some "invalid authorize request"
      else if negb (isNormalizedTarget (member message "target"))
      then Some "invalid authorize target"
      else if negb match string_member message "method" with
                   | Some method => HTTP_METHOD method
                   | None => false
                   end
      then Some "invalid authorize method"
      else if negb (isListedValue (member message "transport") REQUEST_TRANSPORTS)
      then Some "invalid authorize transport"
      else if negb (isListedValue (member message "requestKind") REQUEST_KINDS)
      then Some "invalid authorize request kind"
      else if negb (is_string (member message "observedAt"))
      then Some "invalid authorize observation time"
      else if match member message "reviewContext" with
              | None => false
              | Some context => negb (isReviewContext context)
              end
      then Some "invalid authorize review context"
      else match validateRequestBodyCapture (member message "requestBodyCapture") with
           | Some e => Some e
           | None => validate_tables document message
           end
  end.

(** ** Violation records *)

Definition MAX_FINDINGS : nat := 1024.
Definition MAX_FINDING_VALUE_CHARS : nat := MAX_BODY_EXPECT_POINTER_CHARS + 1 + 552.
Definition MAX_FINDING_LABEL_CHARS : nat := 552.
Definition MAX_FINDING_POINTER_CHARS : nat := 1024.
Definition MAX_FINDING_EXCERPT_CHARS : nat := 2048.
Definition MAX_FINDING_SELECTOR_CHARS : nat := 512.

Definition FINDING_FIELDS : list string :=
  ["expect"; "expectKind"; "at"; "kind"; "pointer"; "value"; "label"; "excerpt"; "count"]%string.

Definition EXPECT_KINDS : list string := [""; "emptyBody"; "jsonRoot"; "body"; "unionShape"]%string.

Definition isBoundedString (v : option JsonValue) (max : nat) : bool :=
  match v ≫= as_string with Some s => (slen s <=? max)%nat | None => false end.

Definition isBoundedNullableString (v : option JsonValue) (max : nat) : bool :=
  is_null_value v || isBoundedString v max.

Definition check_finding (finding : JsonValue) : option string :=
  match as_object finding with
  | None => Some "invalid violation finding"
  | Some record =>
      if existsb (λ field, negb (includes FINDING_FIELDS field)) (map_keys record)
      then Some "invalid violation finding"
      else if negb (integer_at_least (member record "expect") (-1)) ||
              negb (isListedValue (member record "expectKind") EXPECT_KINDS) ||
              negb (isBoundedString (member record "at") MAX_FINDING_SELECTOR_CHARS) ||
              negb (isListedValue (member record "kind") (map fst VIOLATION_FINDING_KINDS)) ||
              negb (isBoundedString (member record "pointer") MAX_FINDING_POINTER_CHARS) ||
              negb (isBoundedNullableString (member record "value") MAX_FINDING_VALUE_CHARS) ||
              negb (isBoundedNullableString (member record "label") MAX_FINDING_LABEL_CHARS) ||
              negb (isBoundedNullableString (member record "excerpt") MAX_FINDING_EXCERPT_CHARS) ||
              negb (integer_at_least (member record "count") 1)
      then Some "invalid violation finding"
      else None
  end.

Definition validateViolationFindings (value : option JsonValue) : option string :=
  match value with
  | Some (JArray findings) =>
      if (MAX_FINDINGS <? length findings)%nat then Some "too many violation findings"
      else first_error check_finding findings
  | _ => Some "invalid violation findings"
  end.

(** ** `validateRequestPolicyReview` and `validateRequestPolicyOutcome` *)

Definition REQUEST_POLICY_REVIEW_FIELDS : list string :=
  ["version"; "type"; "requestId"; "sessionId"; "principal"; "ruleId"; "target"; "method";
   "findings"; "reviewContext"]%string.

Definition validateRequestPolicyReview (value : JsonValue) (expectedSessionId : string)
    (document : ResolvedDocument) : option string :=
  match as_object value with
  | None => Some "invalid request-policy review request"
  | Some message =>
      if negb (principal_ok message) then Some "invalid network principal"
      else if negb (is_number (member message "version") 1) ||
              negb (is_text (member message "type") "request_policy_review") ||
              negb (is_string (member message "requestId"))
      then Some "invalid request-policy review request"
      else if negb (is_text (member message "sessionId") expectedSessionId)
      then Some "request-policy review session mismatch"
      else if existsb (λ field, negb (includes REQUEST_POLICY_REVIEW_FIELDS field)) (map_keys message)
      then Some "invalid request-policy review request"
      else if negb match string_member message "ruleId" with
                   | Some ruleId => SAFE_RULE_ID ruleId && documentHasRuleId document ruleId
                   | None => false
                   end
      then Some "invalid request-policy review rule ID"
      else if negb (isNormalizedTarget (member message "target"))
      then Some "invalid request-policy review target"
      else if negb match string_member message "method" with
                   | Some method => HTTP_METHOD method
                   | None => false
                   end
      then Some "invalid request-policy review method"
      else if match member message "reviewContext" with
              | None => false
              | Some context => negb (isReviewContext context)
              end
      then Some "invalid request-policy review context"
      else match validateViolationFindings (member message "findings") with
           | Some e => Some e
           | None =>
               match member message "findings" with
               | Some (JArray []) => Some "request-policy review carries no violation"
               | _ => None
               end
           end
  end.

Definition REQUEST_POLICY_SUCCESS_REASONS : list string :=
  ["no-inspection"; "empty-body"; "recognized-json"; "violations-allowed"; "violations-approved";
   "masked-json"]%string.

Definition REQUEST_POLICY_BLOCK_REASONS : list string :=
  ["violations-denied"; "review-unanswered"; "body-unavailable"; "unexpected-body"; "invalid-json";
   "schema-mismatch"; "forbidden-secret"; "resource-limit"; "key-collision";
   "serialization-failed"; "processing-failed"]%string.

Definition REQUEST_POLICY_RESULTS : list string := ["pass"; "rewrite"; "block"]%string.

Definition REQUEST_POLICY_OUTCOME_FIELDS : list string :=
  ["version"; "type"; "requestId"; "sessionId"; "principal"; "ruleId"; "result"; "reason";
   "findings"]%string.

(** Whether the result and the reason of a report agree. *)
Definition outcome_consistent (result reason : string) : bool :=
  if String.eqb result "block" then includes REQUEST_POLICY_BLOCK_REASONS reason
  else if String.eqb result "rewrite"
  then includes ["masked-json"; "violations-allowed"; "violations-approved"]%string reason
  else includes REQUEST_POLICY_SUCCESS_REASONS reason && negb (String.eqb reason "masked-json").

Definition validateRequestPolicyOutcome (value : JsonValue) (expectedSessionId : string)
    (document : ResolvedDocument) : option string :=
  match as_object value with
  | None => Some "invalid request-policy outcome request"
  | Some message =>
      if negb (principal_ok message) then Some "invalid network principal"
      else if negb (is_number (member message "version") 1) ||
              negb (is_text (member message "type") "request_policy_outcome") ||
              negb (is_string (member message "requestId"))
      then Some "invalid request-policy outcome request"
      else if negb (is_text (member message "sessionId") expectedSessionId)
      then Some "request-policy outcome session mismatch"
      else if existsb (λ field, negb (includes REQUEST_POLICY_OUTCOME_FIELDS field)) (map_keys message)
      then Some "invalid request-policy outcome request"
      else match string_member message "ruleId" with
      | None => Some "invalid request-policy outcome rule ID"
      | Some ruleId =>
      if negb (SAFE_RULE_ID ruleId) then Some "invalid request-policy outcome rule ID"
      else if negb (documentHasRuleId document ruleId)
      then Some "unknown request-policy outcome rule ID"
      else if negb (isListedValue (member message "result") REQUEST_POLICY_RESULTS)
      then Some "invalid request-policy outcome result"
      else if negb (isListedValue (member message "reason")
                      (REQUEST_POLICY_SUCCESS_REASONS ++ REQUEST_POLICY_BLOCK_REASONS))
      then Some "invalid request-policy outcome reason"
      else match (match member message "findings" with
                  | None => None
                  | v => validateViolationFindings v
                  end) with
           | Some e => Some e
           | None =>
               match string_member message "result", string_member message "reason" with
               | Some result, Some reason =>
                   if outcome_consistent result reason then None
                   else Some "invalid request-policy outcome result/reason pairing"
               | _, _ => None
               end
           end
      end
  end.
