(* ===== verification/Messages.v ===== *)
(** * Reading a validated message

    The broker reads the fields of a parsed message through a type assertion
    ("as AuthorizeRequest").  The decoders here are that reading, [None] where a
    field is missing or of the wrong type; the properties say that the validators
    of network/protocol.ts leave no such case. *)
From S2P Require Import Prelude JsString Json Containment AuthzTypes Pattern Relation Selection.
From S2P Require Import Semantics MatchLaws Targets Specificity AuthzConfig Witness Validate.
From S2P Require Import Compile Resolve Decide Samples Base64 IpPolicy Secrets Protocol.

Definition members := list (string * JsonValue).

(** `null` or a string. *)
Definition nullable_string (v : JsonValue) : option (option string) :=
  match v with
  | JNull => Some None
  | JScalar (ScString s) => Some (Some s)
  | _ => None
  end.

Definition nullable_member (m : members) (name : string) : option (option string) :=
  v ← member m name; nullable_string v.

Definition listed {A} (table : list (string * A)) (v : JsonValue) : option A :=
  s ← as_string v; map_get table s.

Definition listed_member {A} (table : list (string * A)) (m : members) (name : string) : option A :=
  v ← member m name; listed table v.

(** An absent member, or a decoded one. *)
Definition optional_member {A} (decode : JsonValue → option A) (m : members) (name : string) :
    option (option A) :=
  match member m name with
  | None => Some None
  | Some v => Some <$> decode v
  end.

Definition truths : list (string * Truth) :=
  [("true", TTrue); ("false", TFalse); ("indeterminate", TIndeterminate)]%string.
Definition transports : list (string * RequestTransport) :=
  [("http", TransportHttp); ("websocket", TransportWebsocket)]%string.
Definition kinds : list (string * RequestKind) :=
  [("connect", KindConnect); ("forward", KindForward)]%string.
Definition principals : list (string * NetworkPrincipal) :=
  [("agent", PrincipalAgent); ("dind", PrincipalDind)]%string.
Definition capture_codes : list (string * UnavailableCode) :=
  [("body-unreadable", BodyUnreadable); ("body-too-large", BodyTooLarge);
   ("invalid-capture", InvalidCapture)]%string.

Definition decode_target (v : JsonValue) : option NormalizedTarget :=
  m ← as_object v;
  host ← string_member m "host";
  port ← integer_member m "port";
  Some {| ta_host := host; ta_port := port |}.

Definition decode_context (v : JsonValue) : option ReviewContext :=
  m ← as_object v;
  path ← string_member m "path";
  contentType ← nullable_member m "contentType";
  bodySize ← integer_member m "bodySize";
  Some {| rvc_path := path; rvc_contentType := contentType; rvc_bodySize := bodySize |}.

Definition decode_capture (v : JsonValue) : option RequestBodyCapture :=
  m ← as_object v;
  switch (string_member m "state") [
    (["disabled"], Some CaptureDisabled);
    (["not-applicable"], Some CaptureNotApplicable);
    (["unavailable"], CaptureUnavailable <$> listed_member capture_codes m "code");
    (["attached"],
      byteLength ← integer_member m "byteLength";
      sha256 ← string_member m "sha256";
      contentType ← nullable_member m "contentType";
      contentEncoding ← nullable_member m "contentEncoding";
      data ← string_member m "data";
      Some (CaptureAttached byteLength sha256 contentType contentEncoding data))
  ]%string None.

Definition decode_diagnostic (v : JsonValue) : option BodyDiagnostic :=
  m ← as_object v;
  switch (string_member m "code") [
    (["body-unreadable"], Some DiagBodyUnreadable);
    (["invalid-json"], Some DiagInvalidJson);
    (["empty-json-body"], Some DiagEmptyJsonBody);
    (["body-too-large"],
      byteLength ← integer_member m "byteLength";
      maxBodyBytes ← integer_member m "maxBodyBytes";
      Some (DiagBodyTooLarge byteLength maxBodyBytes));
    (["non-scalar-at-pointer"], DiagNonScalarAtPointer <$> string_member m "pointer");
    (["graphql-unparseable"], DiagGraphqlUnparseable <$> string_member m "pointer");
    (["graphql-query-string"], DiagGraphqlQueryString <$> string_member m "pointer");
    (["graphql-unresolved-field-argument"],
      pointer ← string_member m "pointer";
      fieldPath ← string_member m "fieldPath";
      argument ← string_member m "argument";
      Some (DiagGraphqlUnresolvedFieldArgument pointer fieldPath argument))
  ]%string None.

(** Every entry of an object through one decoder. *)
Definition decode_table {A} (decode : JsonValue → option A) (v : JsonValue) :
    option (list (string * A)) :=
  m ← as_object v; mapM (λ e, (λ x, (e.1, x)) <$> decode e.2) m.

Definition decode_authorize (v : JsonValue) : option AuthorizeRequest :=
  m ← as_object v;
  requestId ← string_member m "requestId";
  sessionId ← string_member m "sessionId";
  principal ← optional_member (listed principals) m "principal";
  target ← (x ← member m "target"; decode_target x);
  method ← string_member m "method";
  transport ← listed_member transports m "transport";
  requestKind ← listed_member kinds m "requestKind";
  observedAt ← string_member m "observedAt";
  bodyTruth ← (x ← member m "bodyTruth"; decode_table (listed truths) x);
  bodyDiagnostics ← (x ← member m "bodyDiagnostics"; decode_table decode_diagnostic x);
  capture ← (x ← member m "requestBodyCapture"; decode_capture x);
  reviewContext ← optional_member decode_context m "reviewContext";
  Some {|
    ar_requestId := requestId; ar_sessionId := sessionId; ar_principal := principal;
    ar_target := target; ar_method := method; ar_transport := transport;
    ar_requestKind := requestKind; ar_observedAt := observedAt; ar_bodyTruth := bodyTruth;
    ar_bodyDiagnostics := bodyDiagnostics; ar_requestBodyCapture := capture;
    ar_reviewContext := reviewContext |}.

Definition decode_finding (v : JsonValue) : option ViolationFinding :=
  m ← as_object v;
  expect ← integer_member m "expect";
  expectKind ← string_member m "expectKind";
  selector ← string_member m "at";
  kind ← listed_member VIOLATION_FINDING_KINDS m "kind";
  pointer ← string_member m "pointer";
  value ← nullable_member m "value";
  label ← nullable_member m "label";
  excerpt ← nullable_member m "excerpt";
  count ← integer_member m "count";
  Some {|
    vf_expect := expect; vf_expectKind := expectKind; vf_at := selector; vf_kind := kind;
    vf_pointer := pointer; vf_value := value; vf_label := label; vf_excerpt := excerpt;
    vf_count := count |}.

Definition decode_findings (v : JsonValue) : option (list ViolationFinding) :=
  match v with JArray l => mapM decode_finding l | _ => None end.

Definition decode_review (v : JsonValue) : option RequestPolicyReviewRequest :=
  m ← as_object v;
  requestId ← string_member m "requestId";
  sessionId ← string_member m "sessionId";
  principal ← optional_member (listed principals) m "principal";
  ruleId ← string_member m "ruleId";
  target ← (x ← member m "target"; decode_target x);
  method ← string_member m "method";
  findings ← (x ← member m "findings"; decode_findings x);
  reviewContext ← optional_member decode_context m "reviewContext";
  Some {|
    rv_requestId := requestId; rv_sessionId := sessionId; rv_principal := principal;
    rv_ruleId := ruleId; rv_target := target; rv_method := method; rv_findings := findings;
    rv_reviewContext := reviewContext |}.

Definition decode_outcome (v : JsonValue) : option RequestPolicyOutcomeRequest :=
  m ← as_object v;
  requestId ← string_member m "requestId";
  sessionId ← string_member m "sessionId";
  principal ← optional_member (listed principals) m "principal";
  ruleId ← string_member m "ruleId";
  result ← string_member m "result";
  reason ← string_member m "reason";
  findings ← optional_member decode_findings m "findings";
  Some {|
    ro_requestId := requestId; ro_sessionId := sessionId; ro_principal := principal;
    ro_ruleId := ruleId; ro_result := result; ro_reason := reason; ro_findings := findings |}.

(** ** Validated parts decode *)

(** The checks on one value, as the reading of that value. *)
Lemma is_text_Some v s : is_text v s = true → v ≫= as_string = Some s.
Proof. unfold is_text. by intros H%bool_decide_eq_true. Qed.

Lemma is_string_Some v : is_string v = true → ∃ s, v ≫= as_string = Some s.
Proof. unfold is_string. destruct (v ≫= as_string); naive_solver. Qed.

Lemma integer_at_least_Some v low :
  integer_at_least v low = true → ∃ z, v ≫= safe_integer = Some z ∧ (low ≤ z)%Z.
Proof.
  unfold integer_at_least. destruct (v ≫= safe_integer) as [z|]; [|done].
  intros H%Z.leb_le. eauto.
Qed.

Lemma nullable_Some m name :
  is_null_value (member m name) || is_string (member m name) = true →
  ∃ s, nullable_member m name = Some s.
Proof.
  unfold nullable_member. destruct (member m name) as [v|]; [|done]. cbn.
  destruct v as [|[]| |]; naive_solver.
Qed.

Lemma listed_Some {A} (table : list (string * A)) v :
  isListedValue v (map fst table) = true → ∃ x, (w ← v; listed table w) = Some x.
Proof.
  unfold isListedValue, listed. destruct v as [v|]; [|done]. cbn.
  destruct (as_string v) as [s|]; [|done]. cbn. intros H%includes_In.
  destruct (map_get table s) eqn:E; [eauto|]. by apply map_get_None in E.
Qed.

Ltac read_string :=
  match goal with
  | H : is_string (member ?m ?n) = true |- _ =>
      let s := fresh "s" in apply is_string_Some in H as [s H];
      change (string_member m n = Some s) in H; rewrite ?H
  end.

Ltac read_integer :=
  match goal with
  | H : integer_at_least (member ?m ?n) _ = true |- _ =>
      let z := fresh "z" in let Hz := fresh "Hz" in
      apply integer_at_least_Some in H as (z & H & Hz);
      change (integer_member m n = Some z) in H; rewrite ?H
  end.

Ltac read_nullable :=
  match goal with
  | H : is_null_value (member ?m ?n) || is_string (member ?m ?n) = true |- _ =>
      apply nullable_Some in H as [? H]; rewrite ?H
  end.

(** Split the conjunctions of a validator. *)
Ltac split_checks :=
  repeat match goal with
  | H : _ && _ = true |- _ => apply andb_true_iff in H as [? H]
  | H : (_ <? _)%nat = true |- _ => apply Nat.ltb_lt in H
  | H : (_ <=? _)%nat = true |- _ => apply Nat.leb_le in H
  | H : (_ <? _)%Z = true |- _ => apply Z.ltb_lt in H
  | H : (_ <=? _)%Z = true |- _ => apply Z.leb_le in H
  end.

Ltac bind := cbn [mbind option_bind fmap option_fmap option_map].

Definition wf_target (t : NormalizedTarget) : Prop :=
  (1 ≤ slen (ta_host t) ≤ 253)%nat ∧ (1 ≤ ta_port t ≤ 65535)%Z.

Lemma target_decodes v : isNormalizedTarget v = true →
  ∃ t, (w ← v; decode_target w) = Some t ∧ wf_target t.
Proof.
  unfold isNormalizedTarget, decode_target. destruct v as [v|]; [|done].
  cbn [mbind option_bind]. destruct (as_object v) as [m|]; [|done]. cbn [mbind option_bind].
  destruct (string_member m "host") as [host|], (integer_member m "port") as [port|];
    rewrite ?andb_false_r; try done.
  intros H. split_checks.
  cbn. eexists. split; [done|]. unfold wf_target. cbn. lia.
Qed.

Lemma context_decodes v : isReviewContext v = true →
  ∃ c, decode_context v = Some c ∧ (0 ≤ rvc_bodySize c)%Z.
Proof.
  unfold isReviewContext, decode_context. destruct (as_object v) as [m|]; [|done]. bind.
  intros H. split_checks. read_string. bind. read_nullable. bind. read_integer. bind. eauto.
Qed.

(** The retained body of a well-formed capture. *)
Definition wf_capture (c : RequestBodyCapture) : Prop :=
  match c with
  | CaptureAttached byteLength sha256 _ _ data =>
      (0 ≤ byteLength)%Z ∧ REQUEST_BODY_SHA256 sha256 = true ∧ ∃ bytes, data = encode bytes
  | _ => True
  end.

(** One case of a switch at a time. *)
Ltac switch_cases :=
  cbn [switch existsb]; rewrite ?orb_false_r;
  repeat (first [rewrite bool_decide_true by done | rewrite bool_decide_false by done]; cbn [orb]);
  repeat (case_bool_decide; simplify_eq; cbn [orb];
    repeat (first [rewrite bool_decide_true by done | rewrite bool_decide_false by done]; cbn [orb])).

Lemma capture_decodes v : validateRequestBodyCapture v = None →
  ∃ c, (w ← v; decode_capture w) = Some c ∧ wf_capture c.
Proof.
  unfold validateRequestBodyCapture, decode_capture. destruct v as [v|]; [|done]. bind.
  destruct (as_object v) as [m|]; [|done]. bind.
  destruct (string_member m "state") as [state|]; [|done]. switch_cases; try done;
    destruct (hasExactFields m _); cbn [andb]; try done.
  - intros _. by eexists.
  - intros _. by eexists.
  - destruct (isListedValue (member m "code") _) eqn:El; [|done]. intros _.
    destruct (listed_Some capture_codes _ El) as [code Hc].
    unfold listed_member. rewrite Hc. by eexists.
  - intros Hv. case_match eqn:E; [|done]. clear Hv. split_checks.
    destruct (string_member m "data") as [data|]; [|done].
    destruct (string_member m "sha256") as [sha|]; [|done].
    read_integer. bind. read_nullable. bind. read_nullable. bind. eexists. split; [done|].
    split_and!; [done..|]. by apply isCanonicalBase64_image.
Qed.

Lemma diagnostic_decodes v : isBodyDiagnostic v = true → ∃ d, decode_diagnostic v = Some d.
Proof.
  unfold isBodyDiagnostic, decode_diagnostic. destruct (as_object v) as [m|]; [|done]. bind.
  destruct (string_member m "code") as [code|]; [|done]. switch_cases; try done; try (by eexists);
    intros Hv; split_checks; repeat read_string; bind; try (by eexists).
  do 2 (read_integer; bind). by eexists.
Qed.

(** ** Tables *)

Lemma first_error_None {A} (check : A → option string) l :
  first_error check l = None → Forall (λ x, check x = None) l.
Proof.
  induction l as [|x l IH]; cbn; [constructor|]. destruct (check x) eqn:E; [done|]. by constructor; auto.
Qed.

Lemma mapM_total {A B} (f : A → option B) l :
  Forall (λ x, ∃ y, f x = Some y) l → ∃ r, mapM f l = Some r.
Proof.
  induction 1 as [|x l [y Hy] _ [r Hr]]; [by exists []|]. exists (y :: r). cbn. by rewrite Hy, Hr.
Qed.

(** A decoded table has the entries of the object. *)
Lemma decode_table_Some {A} (decode : JsonValue → option A) v m t :
  as_object v = Some m → decode_table decode v = Some t →
  Forall2 (λ e d, d.1 = e.1 ∧ decode e.2 = Some d.2) m t.
Proof.
  unfold decode_table. intros ->. bind. intros H%mapM_Some. eapply Forall2_impl; [exact H|].
  intros e [k x] He. cbn in *. destruct (decode e.2) eqn:E; [|done]. by simplify_eq/=.
Qed.

(** ** Whole messages *)

Lemma optional_decodes {A} (decode : JsonValue → option A) m name (ok : A → Prop) :
  (∀ v, member m name = Some v → ∃ x, decode v = Some x ∧ ok x) →
  ∃ x, optional_member decode m name = Some x ∧ ∀ y, x = Some y → ok y.
Proof.
  intros H. unfold optional_member. destruct (member m name) as [v|]; [|eexists; done].
  destruct (H v eq_refl) as (x & Hx & Ho). rewrite Hx. eexists. split; [done|]. by intros y [= <-].
Qed.

Lemma principal_decodes m : principal_ok m = true →
  ∃ p, optional_member (listed principals) m "principal" = Some p ∧ ∀ q, p = Some q → True.
Proof.
  intros Hok. apply optional_decodes. intros v Hv. unfold principal_ok in Hok. rewrite Hv in Hok.
  apply orb_true_iff in Hok as [H%is_text_Some|H%is_text_Some]; cbn in H;
    unfold listed; rewrite H; by eexists.
Qed.

Lemma context_member_decodes m :
  match member m "reviewContext" with
  | None => false
  | Some context => negb (isReviewContext context)
  end = false →
  ∃ c, optional_member decode_context m "reviewContext" = Some c ∧
       ∀ y, c = Some y → (0 ≤ rvc_bodySize y)%Z.
Proof.
  intros H. apply optional_decodes. intros v Hv. rewrite Hv in H. apply context_decodes.
  by apply negb_false_iff in H.
Qed.

(** What the tables of a validated message hold. *)
Record wf_tables (document : ResolvedDocument) (truth : list (string * Truth))
    (diagnostics : list (string * BodyDiagnostic)) : Prop := {
  truth_known : ∀ id t, In (id, t) truth → documentHasConcreteRuleId document id = true;
  truth_count : (length truth ≤ ruleCount document)%nat;
  diagnosed : ∀ id, In (id, TIndeterminate) truth ↔ In id (map_keys diagnostics);
}.

Lemma truth_text v t : listed truths v = Some t →
  (is_text (Some v) "indeterminate" = true ↔ t = TIndeterminate).
Proof.
  unfold listed, is_text. cbn. destruct (as_string v) as [s|]; [|done]. cbn.
  rewrite bool_decide_eq_true. repeat case_decide; naive_solver.
Qed.

(** The diagnoses of a table answer its undecided entries. *)
Lemma diagnosed_iff ts ds t d id :
  (∀ e, e ∈ ds → is_text (map_get ts e.1) "indeterminate" = true ∧
                 ∃ x, decode_diagnostic e.2 = Some x) →
  (∀ e, e ∈ ts → check_diagnosed ds e = None) →
  Forall2 (λ e x, x.1 = e.1 ∧ listed truths e.2 = Some x.2) ts t →
  Forall2 (λ e x, x.1 = e.1 ∧ decode_diagnostic e.2 = Some x.2) ds d →
  In (id, TIndeterminate) t ↔ In id (map_keys d).
Proof.
  intros F2 E3 Rt Rd. split.
  + intros Hin%list_elem_of_In. apply list_elem_of_lookup in Hin as [i Hi].
    destruct (Forall2_lookup_r _ _ _ _ _ Rt Hi) as (e & He & Hk & Hx). cbn in Hk, Hx. subst.
    apply list_elem_of_lookup_2 in He. specialize (E3 _ He). unfold check_diagnosed in E3.
    rewrite (proj2 (truth_text _ _ Hx) eq_refl) in E3. cbn in E3. unfold map_has in E3.
    destruct (map_get ds e.1) as [x|] eqn:Eg; [|done]. apply map_get_In in Eg.
    apply list_elem_of_In, list_elem_of_lookup in Eg as [j Hj].
    destruct (Forall2_lookup_l _ _ _ _ _ Rd Hj) as (y & Hy & Hk & _).
    unfold map_keys. apply in_map_iff. exists y. split; [done|].
    apply list_elem_of_In. by eapply list_elem_of_lookup_2.
  + unfold map_keys. intros (y & <- & Hin)%in_map_iff.
    apply list_elem_of_In, list_elem_of_lookup in Hin as [i Hi].
    destruct (Forall2_lookup_r _ _ _ _ _ Rd Hi) as (e & He & Hk & _).
    apply list_elem_of_lookup_2 in He. destruct (F2 _ He) as [Hx _].
    unfold is_text in Hx. destruct (map_get ts e.1) as [v|] eqn:Eg; [|done].
    apply map_get_In, list_elem_of_In, list_elem_of_lookup in Eg as [j Hj].
    destruct (Forall2_lookup_l _ _ _ _ _ Rt Hj) as ([k x] & Hy & Hk' & Hx'). cbn in Hk', Hx'.
    rewrite Hk. subst k. apply list_elem_of_In. apply list_elem_of_lookup_2 in Hy.
    assert (x = TIndeterminate) as ->; [|done]. by apply (truth_text _ _ Hx').
Qed.

Lemma tables_decode document m : validate_tables document m = None →
  ∃ t d, (x ← member m "bodyTruth"; decode_table (listed truths) x) = Some t ∧
         (x ← member m "bodyDiagnostics"; decode_table decode_diagnostic x) = Some d ∧
         wf_tables document t d.
Proof.
  unfold validate_tables. destruct (member m "bodyTruth") as [tv|]; [|done]. bind.
  destruct (as_object tv) as [ts|] eqn:Et; [|done].
  destruct (Nat.ltb_spec (ruleCount document) (length ts)) as [|Hlt]; [done|].
  destruct (first_error (check_truth document) ts) eqn:E1; [done|].
  destruct (member m "bodyDiagnostics") as [dv|]; [|done]. bind.
  destruct (as_object dv) as [ds|] eqn:Ed; [|done].
  destruct (Nat.ltb_spec (ruleCount document) (length ds)) as [|Hld]; [done|].
  destruct (first_error (check_diagnostic document ts) ds) eqn:E2; [done|]. intros E3.
  apply first_error_None in E1, E2, E3.
  assert (Forall (λ e, documentHasConcreteRuleId document e.1 = true ∧
                       ∃ t, listed truths e.2 = Some t) ts) as F1.
  { eapply Forall_impl; [exact E1|]. intros e He. unfold check_truth in He.
    destruct (documentHasConcreteRuleId document e.1); [|done]. cbn in He.
    destruct (isListedValue (Some e.2) TRUTH_VALUES) eqn:El; [|done].
    split; [done|]. exact (listed_Some truths _ El). }
  assert (Forall (λ e, is_text (map_get ts e.1) "indeterminate" = true ∧
                       ∃ d, decode_diagnostic e.2 = Some d) ds) as F2.
  { eapply Forall_impl; [exact E2|]. intros e He. unfold check_diagnostic in He.
    destruct (documentHasConcreteRuleId document e.1); [|done]. cbn in He.
    destruct (isBodyDiagnostic e.2) eqn:Eb; [|done]. cbn in He.
    destruct (is_text (map_get ts e.1) _); [|done]. split; [done|]. by apply diagnostic_decodes. }
  assert (∃ t, decode_table (listed truths) tv = Some t) as [t Ht].
  { unfold decode_table. rewrite Et. bind. apply mapM_total. eapply Forall_impl; [exact F1|].
    intros e (_ & t & He). rewrite He. by eexists. }
  assert (∃ d, decode_table decode_diagnostic dv = Some d) as [d Hd].
  { unfold decode_table. rewrite Ed. bind. apply mapM_total. eapply Forall_impl; [exact F2|].
    intros e (_ & d & He). rewrite He. by eexists. }
  exists t, d. split; [done|]. split; [done|].
  pose proof (decode_table_Some _ _ _ _ Et Ht) as Rt. pose proof (decode_table_Some _ _ _ _ Ed Hd) as Rd.
  clear Ht Hd. rewrite Forall_forall in F1, F2, E3. split.
  - intros id x Hin%list_elem_of_In. apply list_elem_of_lookup in Hin as [i Hi].
    destruct (Forall2_lookup_r _ _ _ _ _ Rt Hi) as (e & He & Hk & _). cbn in Hk. subst.
    apply F1. by eapply list_elem_of_lookup_2.
  - by rewrite <- (Forall2_length _ _ _ Rt).
  - intros id. exact (diagnosed_iff ts ds t d id F2 E3 Rt Rd).
Qed.

(** What the broker reads of an accepted "authorize" message is there and has its
    type: the message belongs to the session, its target is a host of 1 to 253
    characters and a port of 1 to 65535, its method is a word, an attached body is
    in canonical form, the truth table speaks of rules of the document only, and
    exactly the undecided rules have a diagnosis. *)
Theorem validateAuthorizeRequest_decodes value sessionId document
    (Hvalid : validateAuthorizeRequest value sessionId document = None) :
  ∃ m, decode_authorize value = Some m ∧ ar_sessionId m = sessionId ∧
    wf_target (ar_target m) ∧ HTTP_METHOD (ar_method m) = true ∧
    wf_capture (ar_requestBodyCapture m) ∧
    (∀ c, ar_reviewContext m = Some c → (0 ≤ rvc_bodySize c)%Z) ∧
    wf_tables document (ar_bodyTruth m) (ar_bodyDiagnostics m).
Proof.
  unfold validateAuthorizeRequest in Hvalid. unfold decode_authorize.
  destruct (as_object value) as [m|]; [|done]. bind.
  destruct (principal_ok m) eqn:Ep; [|done]. cbn [negb] in Hvalid.
  destruct (negb (is_number _ _) || negb (is_text _ _) || negb (is_string _)) eqn:Eh; [done|].
  apply orb_false_iff in Eh as [_ Eh%negb_false_iff]. read_string. bind.
  destruct (is_text (member m "sessionId") sessionId) eqn:Es; [|done]. cbn [negb] in Hvalid.
  apply is_text_Some in Es. change (string_member m "sessionId" = Some sessionId) in Es.
  rewrite Es. bind. destruct (existsb _ (map_keys m)); [done|].
  destruct (principal_decodes m Ep) as (p & -> & _). bind.
  destruct (isNormalizedTarget _) eqn:Et; [|done]. cbn [negb] in Hvalid.
  destruct (target_decodes _ Et) as (t & -> & Ht). bind.
  destruct (string_member m "method") as [method|]; [|done]. bind.
  destruct (HTTP_METHOD method) eqn:Em; [|done]. cbn [negb] in Hvalid.
  destruct (isListedValue (member m "transport") _) eqn:Etr; [|done]. cbn [negb] in Hvalid.
  destruct (listed_Some transports _ Etr) as [tr Htr]. unfold listed_member. rewrite Htr. bind.
  destruct (isListedValue (member m "requestKind") _) eqn:Ek; [|done]. cbn [negb] in Hvalid.
  destruct (listed_Some kinds _ Ek) as [k Hk]. rewrite Hk. bind.
  destruct (is_string (member m "observedAt")) eqn:Eo; [|done]. cbn [negb] in Hvalid.
  read_string. bind.
  destruct (match member m "reviewContext" with None => _ | Some c => _ end) eqn:Ec; [done|].
  destruct (validateRequestBodyCapture _) eqn:Eb; [done|].
  destruct (tables_decode _ _ Hvalid) as (ts & ds & Hts & Hds & Hw).
  rewrite Hts. bind. rewrite Hds. bind.
  destruct (capture_decodes _ Eb) as (c & -> & Hc). bind.
  destruct (context_member_decodes m Ec) as (x & -> & Hx). bind.
  eexists. split; [done|]. by split_and!.
Qed.

(** A violation record within the bounds of the protocol. *)
Record wf_finding (f : ViolationFinding) : Prop := {
  finding_expect : (-1 ≤ vf_expect f)%Z;
  finding_at : (slen (vf_at f) ≤ MAX_FINDING_SELECTOR_CHARS)%nat;
  finding_pointer : (slen (vf_pointer f) ≤ MAX_FINDING_POINTER_CHARS)%nat;
  finding_value : ∀ s, vf_value f = Some s → (slen s ≤ MAX_FINDING_VALUE_CHARS)%nat;
  finding_label : ∀ s, vf_label f = Some s → (slen s ≤ MAX_FINDING_LABEL_CHARS)%nat;
  finding_excerpt : ∀ s, vf_excerpt f = Some s → (slen s ≤ MAX_FINDING_EXCERPT_CHARS)%nat;
  finding_count : (1 ≤ vf_count f)%Z;
}.

Lemma bounded_Some m name max : isBoundedString (member m name) max = true →
  ∃ s, string_member m name = Some s ∧ (slen s ≤ max)%nat.
Proof.
  unfold isBoundedString, string_member. destruct (member m name ≫= as_string) as [s|]; [|done].
  intros H%Nat.leb_le. eauto.
Qed.

Lemma bounded_nullable_Some m name max : isBoundedNullableString (member m name) max = true →
  ∃ s, nullable_member m name = Some s ∧ ∀ t, s = Some t → (slen t ≤ max)%nat.
Proof.
  unfold isBoundedNullableString, isBoundedString, nullable_member.
  destruct (member m name) as [v|]; [|done]. bind.
  destruct v as [|[s|?|?]|?|?]; cbn [is_null_value as_string nullable_string orb]; try done.
  - intros _. by exists None.
  - intros H%Nat.leb_le. exists (Some s). split; [done|]. by intros t [= <-].
Qed.

Lemma finding_decodes v : check_finding v = None → ∃ f, decode_finding v = Some f ∧ wf_finding f.
Proof.
  unfold check_finding, decode_finding. destruct (as_object v) as [m|]; [|done]. bind.
  destruct (existsb _ (map_keys m)); [done|].
  destruct (_ || negb (integer_at_least (member m "count") 1)) eqn:E; [done|]. intros _.
  rewrite !orb_false_iff, !negb_false_iff in E.
  destruct E as ((((((((He & Hk) & Ha) & Hkind) & Hp) & Hv) & Hl) & Hx) & Hc).
  read_integer. bind. destruct (bounded_Some _ _ _ Ha) as (a & -> & Ba).
  assert (∃ k, string_member m "expectKind" = Some k) as [k ->].
  { unfold isListedValue in Hk. unfold string_member. destruct (_ ≫= as_string); [by eexists|done]. }
  bind. destruct (listed_Some VIOLATION_FINDING_KINDS _ Hkind) as [kind Hkd].
  unfold listed_member. rewrite Hkd. bind. destruct (bounded_Some _ _ _ Hp) as (p & -> & Bp). bind.
  destruct (bounded_nullable_Some _ _ _ Hv) as (vv & -> & Bv). bind.
  destruct (bounded_nullable_Some _ _ _ Hl) as (vl & -> & Bl). bind.
  destruct (bounded_nullable_Some _ _ _ Hx) as (vx & -> & Bx). bind. read_integer. bind.
  eexists. split; [done|]. by split.
Qed.

(** What the broker reads of an accepted "review" message is there and has its
    type: the message names a rule of the document, and carries between 1 and 1024
    violation records, each within the bounds on positions, counts and lengths. *)
Theorem validateRequestPolicyReview_decodes value sessionId document
    (Hvalid : validateRequestPolicyReview value sessionId document = None) :
  ∃ m, decode_review value = Some m ∧ rv_sessionId m = sessionId ∧
    documentHasRuleId document (rv_ruleId m) = true ∧ wf_target (rv_target m) ∧
    (1 ≤ length (rv_findings m) ≤ MAX_FINDINGS)%nat ∧ Forall wf_finding (rv_findings m).
Proof.
  unfold validateRequestPolicyReview in Hvalid. unfold decode_review.
  destruct (as_object value) as [m|]; [|done]. bind.
  destruct (principal_ok m) eqn:Ep; [|done]. cbn [negb] in Hvalid.
  destruct (negb (is_number _ _) || negb (is_text _ _) || negb (is_string _)) eqn:Eh; [done|].
  apply orb_false_iff in Eh as [_ Eh%negb_false_iff]. read_string. bind.
  destruct (is_text (member m "sessionId") sessionId) eqn:Es; [|done]. cbn [negb] in Hvalid.
  apply is_text_Some in Es. change (string_member m "sessionId" = Some sessionId) in Es.
  rewrite Es. bind. destruct (existsb _ (map_keys m)); [done|].
  destruct (principal_decodes m Ep) as (p & -> & _). bind.
  destruct (string_member m "ruleId") as [ruleId|]; [|done]. bind.
  destruct (SAFE_RULE_ID ruleId); [|done].
  destruct (documentHasRuleId document ruleId) eqn:Er; [|done]. cbn [andb negb] in Hvalid.
  destruct (isNormalizedTarget _) eqn:Et; [|done]. cbn [negb] in Hvalid.
  destruct (target_decodes _ Et) as (t & -> & Ht). bind.
  destruct (string_member m "method") as [method|]; [|done]. bind.
  destruct (HTTP_METHOD method); [|done]. cbn [negb] in Hvalid.
  destruct (match member m "reviewContext" with None => _ | Some c => _ end) eqn:Ec; [done|].
  destruct (validateViolationFindings _) eqn:Ef; [done|].
  destruct (context_member_decodes m Ec) as (x & -> & Hx). bind.
  destruct (member m "findings") as [[|?|fs|?]|]; try done. bind. unfold validateViolationFindings in Ef.
  destruct (Nat.ltb_spec MAX_FINDINGS (length fs)) as [|Hlen]; [done|].
  apply first_error_None in Ef. cbn [decode_findings].
  assert (∃ r, mapM decode_finding fs = Some r ∧ Forall wf_finding r) as (r & Hr & Hw).
  { clear -Ef. induction Ef as [|f fs Hf _ (r & Hr & Hw)]; [exists []; by split|].
    destruct (finding_decodes f Hf) as (g & Hg & Hwg). exists (g :: r). cbn. rewrite Hg. bind.
    rewrite Hr. split; [done|by constructor]. }
  rewrite Hr. bind. eexists. split; [done|]. cbn. apply mapM_Some, Forall2_length in Hr. split_and!; try done.
  - rewrite <- Hr. destruct fs; [done|]. cbn. lia.
  - by rewrite <- Hr.
Qed.

(** ** Concrete messages *)

Definition text (s : string) : JsonValue := JScalar (ScString s).
Definition integer (z : Z) : JsonValue := JScalar (ScNumber (of_Z z)).

Definition sample_target_json : JsonValue :=
  JObject [("host", text "api.example.com"); ("port", integer 443)].

Definition sample_authorize_json : JsonValue := JObject [
  ("version", integer 1); ("type", text "authorize"); ("requestId", text "req_1");
  ("sessionId", text "sess_1"); ("target", sample_target_json); ("method", text "POST");
  ("transport", text "http"); ("requestKind", text "forward"); ("observedAt", text "now");
  ("bodyTruth", JObject [("api.graphql", text "indeterminate"); ("api.read", text "true")]);
  ("bodyDiagnostics", JObject [("api.graphql", JObject [("code", text "invalid-json")])]);
  ("requestBodyCapture", JObject [("state", text "attached"); ("encoding", text "base64");
     ("byteLength", integer 2);
     ("sha256", text "sha256:0123456789abcdef0123456789abcdef0123456789abcdef0123456789abcdef");
     ("contentType", JNull); ("contentEncoding", JNull); ("data", text "e30=")]);
  ("reviewContext", JObject [("path", text "/graphql"); ("contentType", JNull);
     ("bodySize", integer 2)])
].

Definition sample_review_json (ruleId : string) : JsonValue := JObject [
  ("version", integer 1); ("type", text "request_policy_review"); ("requestId", text "req_1");
  ("sessionId", text "sess_1"); ("ruleId", text ruleId); ("target", sample_target_json);
  ("method", text "POST");
  ("findings", JArray [JObject [("expect", integer 0); ("expectKind", text "jsonRoot");
     ("at", text ""); ("kind", text "schema-mismatch"); ("pointer", text ""); ("value", JNull);
     ("label", JNull); ("excerpt", JNull); ("count", integer 1)]])
].

Lemma validateAuthorizeRequest_decodes_witness :
  ∃ m, decode_authorize sample_authorize_json = Some m ∧ ar_sessionId m = "sess_1".
Proof.
  destruct (validateAuthorizeRequest_decodes sample_authorize_json "sess_1" sample_document
    ltac:(vm_compute; reflexivity)) as (m & Hm & Hs & _). exists m. split; [exact Hm|exact Hs].
Defined.

Lemma validateRequestPolicyReview_decodes_witness :
  ∃ m, decode_review (sample_review_json "api.graphql") = Some m ∧ rv_sessionId m = "sess_1".
Proof.
  destruct (validateRequestPolicyReview_decodes (sample_review_json "api.graphql") "sess_1"
    sample_document ltac:(vm_compute; reflexivity)) as (m & Hm & Hs & _).
  exists m. split; [exact Hm|exact Hs].
Defined.

(** ** Rule ids the messages refuse *)

Definition refused_config : AuthzConfig := {|
  ac_secrets := None; ac_mask := None;
  ac_network := {|
    nc_scopes := [("GitHub", {|
      so_targets := ["api.github.com:443"]; so_fallback := None; so_webSocket := None;
      so_limits := None; so_secrets := None; so_inject := None; so_audit := None;
      so_rules := Some [("graphql", (plain_rule None ["/graphql"] Allow))] |})];
    nc_fallback := None; nc_defaults := None |} |}.

Definition refused_document : ResolvedDocument := Eval vm_compute in
  default no_document (resolveAuthzConfig refused_config ≫= ro_document).

(** A scope whose name has an upper-case letter is a valid configuration: it
    compiles and resolves without an error, and its rules decide requests.  But
    no report and no review about them is accepted, because SAFE_RULE_ID holds the
    whole id `<scope>.<key>` to the syntax of a key. *)
Lemma unsafe_rule_id_refused :
  (∃ outcome, resolveAuthzConfig refused_config = Some outcome ∧
     ro_document outcome = Some refused_document ∧ has_error (ro_diagnostics outcome) = false) ∧
  documentHasConcreteRuleId refused_document "GitHub.graphql" = true ∧
  (∀ m sessionId, string_member m "ruleId" = Some "GitHub.graphql" →
     validateRequestPolicyReview (JObject m) sessionId refused_document ≠ None ∧
     validateRequestPolicyOutcome (JObject m) sessionId refused_document ≠ None).
Proof.
  split; [|split; [vm_compute; reflexivity|]].
  - eexists. split; [vm_compute; reflexivity|]. split; vm_compute; reflexivity.
  - intros m sessionId Hm. unfold validateRequestPolicyReview, validateRequestPolicyOutcome.
    cbn [as_object]. rewrite Hm. change (SAFE_RULE_ID "GitHub.graphql") with false. cbn [andb negb].
    split; repeat (case_match; try done).
Qed.
