(* ===== verification/Credential.v ===== *)
(** * Credentials the host holds (network/agent_credential.ts)

    An [AgentCredential] is a record of the operations of the interface; what
    [headers] and the source of a credential answer at the moment of a call are
    arguments, so a credential is the one seen by one call. *)
From S2P Require Import Prelude JsString Json Containment AuthzTypes Pattern Relation Selection.
From S2P Require Import Semantics MatchLaws Targets Specificity AuthzConfig Witness Validate.
From S2P Require Import Compile Resolve Decide Base64 IpPolicy Secrets Protocol.

Definition CREDENTIAL_REFRESH_DENY_REASON : string := "credential-refresh-owned-by-host".
Definition CREDENTIAL_REVOKED_DENY_REASON : string := "credential-revoked-on-host".

Record AgentCredential : Type := {
  injectsInto : string → option string → bool;
  removeHeaders : list string;
  isHostOwnedRefresh : string → string → option string → bool;
  headers : option (list InjectHeader);
}.

Definition pathWithoutQuery (path : string) : string := hd "" (split_on "?" path).

Definition isPostTo (host method : string) (path : option string)
    (expectedHost expectedPath : string) : bool :=
  if negb (String.eqb host expectedHost) || negb (String.eqb (toUpperCase method) "POST") then false
  else match path with
       | None => false
       | Some path => String.eqb (pathWithoutQuery path) expectedPath
       end.

Definition claudeAgentCredential (current : string) : AgentCredential := {|
  injectsInto host _ := includes ["api.anthropic.com"; "mcp-proxy.anthropic.com"]%string host;
  removeHeaders := ["x-api-key"];
  isHostOwnedRefresh host method path :=
    isPostTo host method path "platform.claude.com" "/v1/oauth/token";
  headers := Some [{| ih_name := "Authorization"; ih_value := Some ("Bearer " +:+ current) |}];
|}.

(** The source answers a token and an optional account, or [None]. *)
Definition codexAgentCredential (current : option (string * option string)) : AgentCredential := {|
  injectsInto host path :=
    if negb (String.eqb host "chatgpt.com") then false
    else match path with
         | None => false
         | Some path =>
             let withoutQuery := pathWithoutQuery path in
             String.eqb withoutQuery "/backend-api" || startsWith withoutQuery "/backend-api/"
         end;
  removeHeaders := [];
  isHostOwnedRefresh host method path := isPostTo host method path "auth.openai.com" "/oauth/token";
  headers :=
    match current with
    | None => None
    | Some (accessToken, accountId) =>
        Some ({| ih_name := "Authorization"; ih_value := Some ("Bearer " +:+ accessToken) |} ::
              match accountId with
              | Some id => [{| ih_name := "chatgpt-account-id"; ih_value := Some id |}]
              | None => []
              end)
    end;
|}.

Definition credentialFor (credentials : list AgentCredential) (host : string) (path : option string) :
    option AgentCredential :=
  List.find (λ credential, injectsInto credential host path) credentials.

Definition isHostOwnedCredentialRefresh (credentials : list AgentCredential) (host method : string)
    (path : option string) : bool :=
  existsb (λ credential, isHostOwnedRefresh credential host method path) credentials.

Definition isRevokedCredentialTarget (credentials : list AgentCredential) (host : string)
    (path : option string) : bool :=
  match credentialFor credentials host path with
  | Some credential => match headers credential with None => true | Some _ => false end
  | None => false
  end.

(** `{...decision, injectHeaders, removeHeaders}` *)
Definition with_headers (decision : DecisionResponse) (inject : list InjectHeader)
    (remove : list string) : DecisionResponse := {|
  dr_requestId := dr_requestId decision; dr_decision := dr_decision decision;
  dr_scope := dr_scope decision; dr_reason := dr_reason decision; dr_ruleId := dr_ruleId decision;
  dr_message := dr_message decision; dr_injectHeaders := Some inject;
  dr_maskValues := dr_maskValues decision; dr_forbidValues := dr_forbidValues decision;
  dr_removeHeaders :=
    if (0 <? length remove)%nat then Some remove else dr_removeHeaders decision;
|}.

Definition applyAgentCredentials (decision : DecisionResponse) (host : string)
    (path : option string) (credentials : list AgentCredential) : DecisionResponse :=
  if negb (bool_decide (dr_decision decision = VerdictAllow)) then decision
  else match credentialFor credentials host path with
  | None => decision
  | Some credential =>
      match headers credential with
      | None => decision
      | Some headers =>
          let overridden := map (λ h, toLowerCase (ih_name h)) headers in
          let injectHeaders :=
            List.filter (λ header, negb (includes overridden (toLowerCase (ih_name header))))
              (default [] (dr_injectHeaders decision)) ++ headers in
          with_headers decision injectHeaders (removeHeaders credential)
      end
  end.

(** ** Property *)

(** The credential of the host always wins: on a request it applies to, the
    headers sent are those of the credential and, of the headers the policy
    injects, the ones with other names; no header name the credential sets is set
    by anything else, and the headers the credential removes are removed. *)
Theorem credential_headers_win decision host path credentials credential hs
    (Hallow : dr_decision decision = VerdictAllow)
    (Hfor : credentialFor credentials host path = Some credential)
    (Hheaders : headers credential = Some hs) :
  ∃ sent, dr_injectHeaders (applyAgentCredentials decision host path credentials) = Some sent ∧
    (∀ h, In h hs → In h sent) ∧
    (∀ h h', In h sent → In h' hs → toLowerCase (ih_name h) = toLowerCase (ih_name h') → In h hs) ∧
    (∀ h, In h sent → In h hs ∨ In h (default [] (dr_injectHeaders decision))) ∧
    (removeHeaders credential ≠ [] →
     dr_removeHeaders (applyAgentCredentials decision host path credentials) =
       Some (removeHeaders credential)).
Proof.
  unfold applyAgentCredentials. rewrite Hallow, Hfor, Hheaders. rewrite bool_decide_true by done.
  cbn [negb with_headers dr_injectHeaders dr_removeHeaders]. eexists. split; [done|]. split_and!.
  - intros h Hin. apply in_app_iff. by right.
  - intros h h' [[_ Hf]%filter_In|Hin]%in_app_iff Hin' Heq; [|done]. exfalso.
    apply negb_true_iff, includes_false in Hf. apply Hf. rewrite Heq. by apply (in_map (λ h, toLowerCase (ih_name h))) in Hin'.
  - intros h [[Hin _]%filter_In|Hin]%in_app_iff; auto.
  - intros Hne. by destruct (removeHeaders credential).
Qed.

Lemma credential_headers_win_witness :
  let decision := {| dr_requestId := "r"; dr_decision := VerdictAllow; dr_scope := None;
    dr_reason := "rule"; dr_ruleId := None; dr_message := None;
    dr_injectHeaders := Some [{| ih_name := "authorization"; ih_value := Some "mine" |}];
    dr_maskValues := None; dr_forbidValues := None; dr_removeHeaders := None |} in
  ∃ sent, dr_injectHeaders (applyAgentCredentials decision "api.anthropic.com" None
            [codexAgentCredential None; claudeAgentCredential "token"]) = Some sent ∧
    ∀ h, In h [{| ih_name := "Authorization"; ih_value := Some "Bearer token" |}] → In h sent.
Proof.
  intros decision.
  destruct (credential_headers_win decision "api.anthropic.com" None
    [codexAgentCredential None; claudeAgentCredential "token"] (claudeAgentCredential "token")
    [{| ih_name := "Authorization"; ih_value := Some "Bearer token" |}] eq_refl eq_refl eq_refl)
    as (sent & Hs & Hin & _).
  exists sent. split; [exact Hs|exact Hin].
Defined.
