(* ===== verification/Mask.v ===== *)
(** * Masking of text shown to people (network/mask_patterns.ts)

    A string is its UTF-8 bytes, the bytes the code encodes. *)
From S2P Require Import Prelude JsString Json AuthzTypes Base64.

Definition MASK_REPLACEMENT : string := "****".
Definition B64_MIN_PATTERN_LEN : nat := 8.

Definition is_unreserved (c : ascii) : bool :=
  is_alpha c || is_digit c || Ascii.eqb c "_" || Ascii.eqb c "." || Ascii.eqb c "~" || Ascii.eqb c "-".

Definition upper_hex (n : nat) : string := toUpperCase (hex_digit n).

Fixpoint percentEncodeAll (plusForSpace : bool) (value : string) : string :=
  match value with
  | EmptyString => ""
  | String c rest =>
      (if is_unreserved c then String c ""
       else if plusForSpace && Ascii.eqb c " " then "+"
       else "%" +:+ upper_hex (code c / 16) +:+ upper_hex (code c mod 16))
      +:+ percentEncodeAll plusForSpace rest
  end.

Definition zero_char : ascii := "000"%char.

(** `.replace(/=+$/, "")` *)
Definition without_padding (s : string) : string :=
  match indexOf s "=" with Some i => take_str i s | None => s end.

Definition url_safe (c : ascii) : ascii :=
  if Ascii.eqb c "+" then "-" else if Ascii.eqb c "/" then "_" else c.

(** The part of the encoding at one alignment that neighbouring bytes cannot
    change, in both alphabets. *)
Definition aligned_substrings (value : string) (k : nat) : list string :=
  let prefixed := repeat_str k (String zero_char "") +:+ value in
  let encoded := without_padding (encode prefixed) in
  let start := ((8 * k + 5) / 6)%nat in
  let finish := (8 * (k + slen value) / 6)%nat in
  let candidate := slice start finish encoded in
  if (B64_MIN_PATTERN_LEN <=? slen candidate)%nat
  then [candidate; map_string url_safe candidate] else [].

Definition base64ConfidentSubstrings (value : string) : list string :=
  flat_map (aligned_substrings value) [0; 1; 2]%nat.

(** `s.length`, which counts UTF-16 units: none for the bytes that continue a
    character, two for the first of a character of four bytes. *)
Fixpoint utf16_length (s : string) : nat :=
  match s with
  | EmptyString => 0
  | String c rest =>
      ((if (128 <=? code c)%nat && (code c <? 192)%nat then 0 else if (240 <=? code c)%nat then 2 else 1)
       + utf16_length rest)%nat
  end.

(** The stable sort by decreasing length. *)
Fixpoint insert_pattern (p : string) (l : list string) : list string :=
  match l with
  | [] => [p]
  | q :: l' => if (utf16_length q <=? utf16_length p)%nat then p :: l else q :: insert_pattern p l'
  end.

Definition sort_patterns (l : list string) : list string := foldr insert_pattern [] l.

Definition patterns_of (value : string) : list string :=
  if String.eqb value "" then []
  else value :: percentEncodeAll false value :: percentEncodeAll true value
       :: base64ConfidentSubstrings value.

Definition expandMaskPatterns (values : list string) : list string :=
  sort_patterns (unique (flat_map patterns_of values)).

(** `text.replaceAll(p, MASK_REPLACEMENT)` for a non-empty pattern: [skip] counts
    the characters of the occurrence being replaced that are still to read. *)
Fixpoint replace_all (p : string) (skip : nat) (text : string) : string :=
  match text with
  | EmptyString => ""
  | String c rest =>
      match skip with
      | S skip => replace_all p skip rest
      | 0 =>
          if String.prefix p text
          then MASK_REPLACEMENT +:+ replace_all p (slen p - 1) rest
          else String c (replace_all p 0 rest)
      end
  end.

Definition maskText (text : string) (patterns : list string) : string :=
  fold_left (λ out p, replace_all p 0 out) patterns text.

(** ** Gaps between the replaced occurrences *)

Fixpoint gaps (p : string) (skip : nat) (text : string) : list string :=
  match text with
  | EmptyString => [""]
  | String c rest =>
      match skip with
      | S skip => gaps p skip rest
      | 0 =>
          if String.prefix p text then "" :: gaps p (slen p - 1) rest
          else match gaps p 0 rest with
               | g :: gs => String c g :: gs
               | [] => [String c ""]
               end
      end
  end.

Lemma gaps_nonempty p text : ∀ skip, gaps p skip text ≠ [].
Proof.
  induction text as [|c rest IH]; intros [|skip]; cbn [gaps]; [done..| |apply IH].
  destruct (String.prefix p _); [done|]. by destruct (gaps p 0 rest).
Qed.

Lemma replace_all_gaps p text : ∀ skip,
  replace_all p skip text = join MASK_REPLACEMENT (gaps p skip text).
Proof.
  induction text as [|c rest IH]; intros [|skip]; cbn [gaps replace_all]; [done..| |apply IH].
  pose proof (gaps_nonempty p rest) as Hne. destruct (String.prefix p _).
  - by rewrite join_cons, IH by apply Hne.
  - rewrite IH. specialize (Hne 0%nat). destruct (gaps p 0 rest) as [|g gs]; [done|].
    destruct gs; [done|]. by rewrite !join_cons by done.
Qed.

Lemma prefix_app p s t : String.prefix p s = true → String.prefix p (s +:+ t) = true.
Proof.
  intros [r ->]%(startsWith_iff s p). apply (startsWith_iff _ p). exists (r +:+ t).
  by rewrite sapp_assoc.
Qed.

(** The first gap is where the text starts. *)
Lemma gaps_head p text g gs : gaps p 0 text = g :: gs → ∃ r, text = g +:+ r.
Proof.
  revert g gs. induction text as [|c rest IH]; cbn [gaps]; intros g gs H.
  { injection H as <- <-. by exists "". }
  destruct (String.prefix p _); [injection H as <- <-; by eexists|].
  destruct (gaps p 0 rest) as [|g' gs']; injection H as <- <-.
  - by exists rest.
  - destruct (IH _ _ eq_refl) as [r ->]. by exists r.
Qed.

(** No gap holds the pattern, and what a gap holds the text holds. *)
Lemma gaps_spec p text : p ≠ "" → ∀ skip,
  Forall (λ g, str_includes g p = false ∧
               ∀ q, str_includes g q = true → q ≠ "" → str_includes text q = true)
         (gaps p skip text).
Proof.
  intros Hp. induction text as [|c rest IH]; intros skip; cbn [gaps].
  { constructor; [|done]. split; [by destruct p|]. by destruct q. }
  assert (∀ skip, Forall (λ g, str_includes g p = false ∧
    ∀ q, str_includes g q = true → q ≠ "" → str_includes (String c rest) q = true)
    (gaps p skip rest)) as IH'.
  { intros k. eapply Forall_impl; [apply (IH k)|]. intros g [H1 H2]. split; [done|].
    intros q Hq Hne. cbn [str_includes]. rewrite (H2 q) by done. apply orb_true_r. }
  destruct skip as [|skip]; [|done]. destruct (String.prefix p (String c rest)) eqn:E.
  - constructor; [|done]. split; [by destruct p|]. by destruct q.
  - pose proof (gaps_head p rest) as Hh. pose proof (gaps_nonempty p rest 0).
    specialize (IH' 0%nat). destruct (gaps p 0 rest) as [|g gs]; [done|].
    destruct (Hh _ _ eq_refl) as [r Hr]. inversion_clear IH' as [|? ? [H1 H2] HF].
    constructor; [|done]. split.
    + cbn [str_includes]. rewrite H1, orb_false_r. apply not_true_iff_false. intros Ht.
      rewrite Hr in E. change (String c (g +:+ r)) with (String c g +:+ r) in E.
      by rewrite (prefix_app _ _ r Ht) in E.
    + intros q Hq Hne. cbn [str_includes] in Hq. apply orb_true_iff in Hq as [Hq|Hq]; [|by apply H2].
      cbn [str_includes]. rewrite Hr. change (String c (g +:+ r)) with (String c g +:+ r).
      by rewrite (prefix_app _ _ r Hq).
Qed.

(** A text free of stars cannot overlap the replacement. *)
Lemma prefix_before_star q g r : has_char "*" q = false →
  String.prefix q (g +:+ String "*" r) = true → String.prefix q g = true.
Proof.
  revert g. induction q as [|c q IH]; intros g Hs; [by destruct g|].
  cbn [has_char] in Hs. apply orb_false_iff in Hs as [Hc Hs]. apply Ascii.eqb_neq in Hc.
  destruct g as [|d g]; cbn [String.append String.prefix].
  - by destruct (ascii_dec c "*").
  - destruct (ascii_dec c d); [|done]. by apply IH.
Qed.

Lemma includes_around_mask q g r : q ≠ "" → has_char "*" q = false →
  str_includes (g +:+ MASK_REPLACEMENT +:+ r) q = true →
  str_includes g q = true ∨ str_includes r q = true.
Proof.
  intros Hne Hs. assert (∀ s, String.prefix q (String "*" s) = false) as Hstar.
  { intros s. destruct q as [|c q]; [done|]. cbn [has_char] in Hs.
    apply orb_false_iff in Hs as [Hc _]. apply Ascii.eqb_neq in Hc. cbn [String.prefix].
    by destruct (ascii_dec c "*"). }
  induction g as [|c g IH].
  - cbn [String.append MASK_REPLACEMENT str_includes]. rewrite !Hstar. cbn [orb]. by right.
  - cbn [String.append str_includes]. intros [H|H]%orb_true_iff.
    + left. apply orb_true_iff. left.
      by apply (prefix_before_star q (String c g) ("***" +:+ r)).
    + destruct (IH H) as [H'|H']; [left; by rewrite H', orb_true_r|by right].
Qed.

Lemma includes_join q gs : q ≠ "" → has_char "*" q = false →
  str_includes (join MASK_REPLACEMENT gs) q = true → Exists (λ g, str_includes g q = true) gs.
Proof.
  intros Hne Hs. induction gs as [|g gs IH]; [by destruct q|].
  destruct (decide (gs = [])) as [->|Hgs]; [by constructor|]. rewrite join_cons by done.
  intros [H|H]%includes_around_mask; [by constructor| |done..]. right. auto.
Qed.

Lemma replace_all_removes p text q : p ≠ "" → q ≠ "" → has_char "*" q = false →
  str_includes (replace_all p 0 text) q = true → str_includes text q = true ∧ q ≠ p.
Proof.
  intros Hp Hq Hs. rewrite replace_all_gaps. intros H%includes_join; [|done..].
  pose proof (gaps_spec p text Hp 0) as HF. apply Exists_exists in H as (g & Hg & Hin).
  rewrite Forall_forall in HF. destruct (HF g Hg) as [H1 H2]. split; [auto|]. congruence.
Qed.

Lemma replace_all_absent p text : str_includes text p = false → replace_all p 0 text = text.
Proof.
  induction text as [|c rest IH]; [done|]. cbn [str_includes replace_all].
  intros [-> H]%orb_false_iff. by rewrite IH.
Qed.

(** ** Patterns *)

Lemma insert_pattern_In p q l : In q (insert_pattern p l) ↔ q = p ∨ In q l.
Proof.
  induction l as [|r l IH]; cbn; [naive_solver|]. destruct (utf16_length r <=? utf16_length p)%nat; cbn; [naive_solver|].
  rewrite IH. naive_solver.
Qed.

Lemma expandMaskPatterns_In p values :
  In p (expandMaskPatterns values) ↔ ∃ v, In v values ∧ In p (patterns_of v).
Proof.
  unfold expandMaskPatterns. rewrite <- in_flat_map, <- (unique_In (flat_map patterns_of values)).
  unfold sort_patterns. induction (unique (flat_map patterns_of values)) as [|q l IH]; [done|].
  cbn [foldr]. rewrite insert_pattern_In, IH. simpl. naive_solver.
Qed.

Lemma slen_map_string f s : slen (map_string f s) = slen s.
Proof. induction s; cbn; [done|]. by f_equal. Qed.

Lemma patterns_nonempty p v : In p (patterns_of v) → p ≠ "".
Proof.
  unfold patterns_of. destruct (String.eqb_spec v "") as [|Hne]; [done|].
  assert (∀ b, percentEncodeAll b v ≠ "") as Hp.
  { intros b. destruct v as [|c v]; [done|]. cbn [percentEncodeAll].
    destruct (is_unreserved c); [done|]. by destruct (b && Ascii.eqb c " "). }
  intros [<-|[<-|[<-|H]]]; [done|apply Hp..|].
  apply in_flat_map in H as (k & _ & H). unfold aligned_substrings in H.
  destruct (Nat.leb_spec B64_MIN_PATTERN_LEN (slen (slice ((8 * k + 5) / 6) (8 * (k + slen v) / 6)
    (without_padding (encode (repeat_str k (String zero_char "") +:+ v)))))) as [Hl|]; [|done].
  unfold B64_MIN_PATTERN_LEN in Hl. set (s := slice _ _ _) in *.
  pose proof (slen_map_string url_safe s) as Hm.
  destruct H as [<-|[<-|[]]]; intros E; rewrite E in *; simpl in *; lia.
Qed.

(** ** The forms of a value, without the patterns *)

Definition unreserved (c : ascii) : Prop := is_alpha c = true ∨ is_digit c = true ∨ In c ["_"; "."; "~"; "-"]%char.

(** [e] is [v] as a part of a URL: what is not unreserved is a percent sign and two
    digits, a space a plus sign where [plus] holds. *)
Inductive quoted_form (plus : bool) : string → string → Prop :=
  | quoted_end : quoted_form plus "" ""
  | quoted_plain c v e : unreserved c → quoted_form plus v e → quoted_form plus (String c v) (String c e)
  | quoted_space v e : plus = true → quoted_form plus v e → quoted_form plus (String " " v) (String "+" e)
  | quoted_byte c high low v e : ¬ unreserved c → (plus = true → c ≠ " "%char) →
      String.get (code c / 16) "0123456789ABCDEF" = Some high → String.get (code c mod 16) "0123456789ABCDEF" = Some low →
      quoted_form plus v e → quoted_form plus (String c v) (String "%" (String high (String low e))).

Definition url_letter (c : ascii) : ascii := match c with "+"%char => "-"%char | "/"%char => "_"%char | _ => c end.

(** [e] is [data] in base64, in either alphabet, with or without its padding. *)
Inductive base64_form (data : string) : string → Prop :=
  | base64_standard e padding : encode data = e +:+ padding → string_all (Ascii.eqb "=") padding = true → base64_form data e
  | base64_url e padding : encode data = e +:+ padding → string_all (Ascii.eqb "=") padding = true →
      base64_form data (map_string url_letter e).

(** ** Quoted forms are patterns *)

Lemma is_unreserved_iff c : is_unreserved c = true ↔ unreserved c.
Proof. unfold is_unreserved, unreserved. rewrite !orb_true_iff, !Ascii.eqb_eq. cbn. naive_solver. Qed.

Lemma upper_hex_get n d : String.get n "0123456789ABCDEF" = Some d → upper_hex n = String d "".
Proof. intros H. do 16 (destruct n as [|n]; [injection H as <-; reflexivity|]). by destruct n. Qed.

Lemma quoted_form_pattern plus v e : quoted_form plus v e → e = percentEncodeAll plus v.
Proof.
  induction 1 as [|c v e Hc _ IH|v e Hp _ IH|c high low v e Hc Hs Hh Hl _ IH]; cbn [percentEncodeAll].
  - done.
  - apply is_unreserved_iff in Hc. rewrite Hc. by rewrite IH.
  - subst plus. by rewrite IH.
  - assert (is_unreserved c = false) as -> by (apply not_true_iff_false; by rewrite is_unreserved_iff).
    assert (plus && Ascii.eqb c " " = false) as ->.
    { destruct plus; [|done]. apply Ascii.eqb_neq. by apply Hs. }
    by rewrite (upper_hex_get _ _ Hh), (upper_hex_get _ _ Hl), IH.
Qed.

Lemma quoted_form_exists plus v : quoted_form plus v (percentEncodeAll plus v).
Proof.
  induction v as [|c v IH]; cbn [percentEncodeAll]; [constructor|]. destruct (is_unreserved c) eqn:Hc.
  { constructor; [by apply is_unreserved_iff|done]. }
  assert (¬ unreserved c) as Hn by (rewrite <- is_unreserved_iff; congruence).
  destruct (plus && Ascii.eqb c " ") eqn:Hs.
  { apply andb_true_iff in Hs as [Hp ->%Ascii.eqb_eq]. by apply quoted_space. }
  assert (∀ n, (n < 16)%nat → ∃ d, String.get n "0123456789ABCDEF" = Some d) as Hget.
  { intros n Hlt. do 16 (destruct n as [|n]; [by eexists|]). lia. }
  assert (code c < 256)%nat as Hb by apply nat_ascii_bounded.
  destruct (Hget (code c / 16)%nat) as [high Hh]; [apply Nat.Div0.div_lt_upper_bound; lia|].
  destruct (Hget (code c mod 16)%nat) as [low Hl]; [by apply Nat.mod_upper_bound|].
  rewrite (upper_hex_get _ _ Hh), (upper_hex_get _ _ Hl). apply quoted_byte; try done.
  intros ->. rewrite andb_false_iff in Hs. destruct Hs as [?|Hs]; [done|]. by apply Ascii.eqb_neq in Hs.
Qed.

(** A percent sign, a digit, a letter or an unreserved character: never a star. *)
Lemma quoted_form_starless plus v e : quoted_form plus v e → has_char "*" e = false.
Proof.
  assert (∀ n d, String.get n "0123456789ABCDEF" = Some d → Ascii.eqb d "*" = false) as Hget.
  { intros n d H. do 16 (destruct n as [|n]; [by injection H as <-|]). by destruct n. }
  induction 1 as [|c v e Hc _ IH|v e Hp _ IH|c high low v e Hc Hs Hh Hl _ IH]; cbn [has_char]; [done|..]; rewrite IH.
  - rewrite orb_false_r. apply Ascii.eqb_neq. intros ->. by apply is_unreserved_iff in Hc.
  - done.
  - by rewrite (Hget _ _ Hh), (Hget _ _ Hl).
Qed.

(** ** Texts in texts *)

Lemma str_includes_iff s q : str_includes s q = true ↔ ∃ a b, s = a +:+ q +:+ b.
Proof.
  assert (∀ s, String.prefix q s = true ↔ ∃ b, s = q +:+ b) as Hpre by (intros t; apply startsWith_iff).
  induction s as [|c s IH]; cbn [str_includes]; rewrite orb_true_iff, Hpre.
  - split; [intros [[b E]|]; [by exists "", b|done]|]. intros (a & b & E). left. destruct a; [by exists b|done].
  - rewrite IH. split.
    + intros [[b E]|(a & b & ->)]; [by exists "", b|by exists (String c a), b].
    + intros ([|x a] & b & E); [left; by exists b|right]. injection E as -> ->. by exists a, b.
Qed.

Lemma includes_trans s q r : str_includes s q = true → str_includes q r = true → str_includes s r = true.
Proof.
  rewrite !str_includes_iff. intros (a & b & ->) (a' & b' & ->). exists (a +:+ a'), (b' +:+ b). by rewrite !sapp_assoc.
Qed.

Lemma includes_slice i j s : str_includes s (slice i j s) = true.
Proof.
  apply str_includes_iff. exists (take_str i s), (drop_str (j - i) (drop_str i s)). unfold slice. by rewrite !take_drop_str.
Qed.

Lemma map_string_app f s t : map_string f (s +:+ t) = map_string f s +:+ map_string f t.
Proof. induction s as [|c s IH]; [done|]. cbn. by rewrite IH. Qed.

Lemma includes_map f s q : str_includes s q = true → str_includes (map_string f s) (map_string f q) = true.
Proof. rewrite !str_includes_iff. intros (a & b & ->). exists (map_string f a), (map_string f b). by rewrite !map_string_app. Qed.

Lemma map_string_ext f g s : (∀ c, f c = g c) → map_string f s = map_string g s.
Proof. intros Hfg. induction s as [|c s IH]; [done|]. cbn. by rewrite Hfg, IH. Qed.

Lemma url_letter_safe c : url_letter c = url_safe c.
Proof. by destruct c as [[] [] [] [] [] [] [] []]. Qed.

(** ** Base64 forms hold patterns *)

Definition zeros (k : nat) : string := repeat_str k (String zero_char "").

Lemma slen_zeros k : slen (zeros k) = k.
Proof. induction k as [|k IH]; [done|]. unfold zeros in *. cbn. by rewrite IH. Qed.

Lemma indexOf_cut s i : indexOf s "=" = Some i → ∃ c rest, s = take_str i s +:+ String c rest ∧ c = "="%char ∧ slen (take_str i s) = i.
Proof.
  revert i. induction s as [|a s IH]; cbn; [done|]. intros i. destruct (Ascii.eqb_spec a "=") as [->|Hne].
  - intros H. injection H as <-. by eexists _, s.
  - destruct (indexOf s "=") as [j|]; [|done]. intros H. injection H as <-.
    destruct (IH j eq_refl) as (c & rest & E & Hc & Hl). exists c, rest. cbn. by rewrite <- E, Hl.
Qed.

(** The cut before the padding keeps the digits of the data. *)
Lemma without_padding_slice i j s : (3 * j ≤ 4 * slen s)%nat → slice i j (without_padding (encode s)) = slice i j (encode s).
Proof.
  intros Hj. unfold without_padding. destruct (indexOf (encode s) "=") as [n|] eqn:E; [|done].
  destruct (indexOf_cut _ _ E) as (c & rest & Es & -> & Hn). rewrite Es at 2. rewrite slice_left; [done|]. rewrite Hn.
  destruct (Nat.le_gt_cases j n) as [|Hlt]; [done|exfalso]. destruct (get_digit s n) as (d & Hd & _ & Hne); [lia|].
  rewrite Es in Hd. pose proof (get_app_right 0 (take_str n (encode s)) (String "=" rest)) as Hg.
  rewrite Hn, Nat.add_0_r, Hd in Hg. cbn in Hg. by injection Hg as ->.
Qed.

(** The digits of a value at an alignment. *)
Definition own_digits (v : string) (k : nat) : string := slice (first_digit k) (last_digit k (slen v)) (encode (zeros k +:+ v)).

Lemma last_digit_data k n : (3 * last_digit k n ≤ 4 * (k + n))%nat.
Proof. unfold last_digit. pose proof (Nat.div_mod_eq (8 * (k + n)) 6). lia. Qed.

Lemma aligned_patterns v k : aligned_substrings v k =
  if (8 <=? slen (own_digits v k))%nat then [own_digits v k; map_string url_safe (own_digits v k)] else [].
Proof.
  unfold aligned_substrings, own_digits. fold (zeros k). cbv zeta.
  change ((8 * k + 5) / 6)%nat with (first_digit k). change (8 * (k + slen v) / 6)%nat with (last_digit k (slen v)).
  rewrite without_padding_slice; [done|]. rewrite slen_app, slen_zeros. apply last_digit_data.
Qed.

Lemma slen_take n s : (n ≤ slen s)%nat → slen (take_str n s) = n.
Proof. revert n. induction s as [|a s IH]; intros [|n]; cbn; intros; try done; [lia|]. rewrite IH; lia. Qed.

Lemma slen_own_digits v k : (k < 3)%nat → (7 ≤ slen v)%nat → (8 ≤ slen (own_digits v k))%nat.
Proof.
  intros Hk Hv. unfold own_digits, slice.
  assert (last_digit k (slen v) ≤ slen (encode (zeros k +:+ v)))%nat as Hlen.
  { apply (digits_before_padding (zeros k +:+ v) _ ""); [by rewrite sapp_nil_r|done|]. rewrite slen_app, slen_zeros. apply last_digit_data. }
  rewrite slen_take by (rewrite slen_drop_str; lia). unfold first_digit, last_digit.
  pose proof (Nat.Div0.div_le_mono (8 * (k + 7)) (8 * (k + slen v)) 6 ltac:(lia)) as Hm. destruct k as [|[|[|k]]]; cbn in Hm |- *; lia.
Qed.

Lemma own_digits_In v k : v ≠ "" → (k < 3)%nat → (8 ≤ slen (own_digits v k))%nat →
  In (own_digits v k) (patterns_of v) ∧ In (map_string url_letter (own_digits v k)) (patterns_of v).
Proof.
  intros Hv Hk Hlen. rewrite (map_string_ext _ _ _ url_letter_safe).
  unfold patterns_of. rewrite (proj2 (String.eqb_neq v "") Hv). unfold base64ConfidentSubstrings.
  split; do 3 right; apply in_flat_map; exists k; rewrite aligned_patterns, (proj2 (Nat.leb_le _ _) Hlen);
    (split; [destruct k as [|[|[|k]]]; cbn; tauto || lia|cbn; tauto]).
Qed.

Lemma base64_starless v k : has_char "*" (own_digits v k) = false ∧ has_char "*" (map_string url_letter (own_digits v k)) = false.
Proof.
  assert (∀ s, has_char "*" (encode s) = false ∧ has_char "*" (map_string url_letter (encode s)) = false) as Hs.
  { intros s. assert (∀ c, is_b64 c = true → Ascii.eqb c "*" = false ∧ Ascii.eqb (url_letter c) "*" = false) as Hc.
    { intros [[] [] [] [] [] [] [] []]; done. }
    induction s as [|a|a b|a b c s IH] using string_ind3; [done|..]; cbn [encode map_string has_char].
    - destruct (sextets a a a) as (H1 & H2 & _). destruct (b64_char_value _ H1) as (_ & D1 & _), (b64_char_value _ H2) as (_ & D2 & _).
      destruct (Hc _ D1) as [-> ->], (Hc _ D2) as [-> ->]. done.
    - destruct (sextets a b a) as (H1 & _ & H2 & H3 & _).
      destruct (b64_char_value _ H1) as (_ & D1 & _), (b64_char_value _ H2) as (_ & D2 & _), (b64_char_value _ H3) as (_ & D3 & _).
      destruct (Hc _ D1) as [-> ->], (Hc _ D2) as [-> ->], (Hc _ D3) as [-> ->]. done.
    - destruct (sextets a b c) as (H1 & _ & H2 & _ & H3 & H4).
      destruct (b64_char_value _ H1) as (_ & D1 & _), (b64_char_value _ H2) as (_ & D2 & _), (b64_char_value _ H3) as (_ & D3 & _),
        (b64_char_value _ H4) as (_ & D4 & _).
      destruct (Hc _ D1) as [-> ->], (Hc _ D2) as [-> ->], (Hc _ D3) as [-> ->], (Hc _ D4) as [-> ->]. done. }
  assert (∀ s q, has_char "*" s = false → str_includes s q = true → has_char "*" q = false) as Hpart.
  { intros s q Hn (a & b & ->)%str_includes_iff. rewrite !has_char_app, !orb_false_iff in Hn. tauto. }
  destruct (Hs (zeros k +:+ v)) as [H1 H2].
  split; [by apply (Hpart _ _ H1), includes_slice|by apply (Hpart _ _ H2), includes_map, includes_slice].
Qed.

Lemma base64_form_pattern pre v post e : v ≠ "" → (7 ≤ slen v)%nat → base64_form (pre +:+ v +:+ post) e →
  ∃ p, In p (patterns_of v) ∧ has_char "*" p = false ∧ str_includes e p = true.
Proof.
  intros Hv Hlen. set (k := (slen pre mod 3)%nat). assert (k < 3)%nat as Hk by (by apply Nat.mod_upper_bound).
  destruct (own_digits_In v k Hv Hk (slen_own_digits v k Hk Hlen)) as [Hin Hin'].
  assert (∀ body padding, encode (pre +:+ v +:+ post) = body +:+ padding → string_all (Ascii.eqb "=") padding = true →
    str_includes body (own_digits v k) = true) as Hbody.
  { intros body padding E Hpad. destruct (own_digits_in_text pre v post (zeros k) body padding (slen_zeros k) E Hpad) as (i & j & Es).
    rewrite slen_zeros in Es. unfold own_digits. rewrite <- Es. apply includes_slice. }
  destruct (base64_starless v k) as [Hs Hs'].
  intros [e' padding E Hpad|e' padding E Hpad].
  - exists (own_digits v k). split_and!; [done|done|by eapply Hbody].
  - exists (map_string url_letter (own_digits v k)). split_and!; [done|done|]. apply includes_map. by eapply Hbody.
Qed.

(** Every pattern is a form of the value or at least eight characters of one. *)
Lemma pattern_form p v : In p (patterns_of v) → v ≠ "" ∧
  (p = v ∨ (∃ plus, quoted_form plus v p) ∨
   ∃ pre post e, base64_form (pre +:+ v +:+ post) e ∧ str_includes e p = true ∧ (8 ≤ slen p)%nat).
Proof.
  unfold patterns_of. destruct (String.eqb_spec v "") as [|Hv]; [done|]. intros Hin. split; [done|].
  destruct Hin as [<-|[<-|[<-|Hin]]]; [by left|right; left; eexists; apply quoted_form_exists..|right; right].
  apply in_flat_map in Hin as (k & _ & Hin). rewrite aligned_patterns in Hin.
  destruct (Nat.leb_spec 8 (slen (own_digits v k))) as [Hlen|]; [|done].
  assert (encode (zeros k +:+ v +:+ "") = encode (zeros k +:+ v) +:+ "") as E by by rewrite !sapp_nil_r.
  exists (zeros k), "". destruct Hin as [<-|[<-|[]]].
  - exists (encode (zeros k +:+ v)). split; [by apply (base64_standard _ _ "" E)|]. split; [apply includes_slice|done].
  - exists (map_string url_letter (encode (zeros k +:+ v))). split; [by apply (base64_url _ _ "" E)|]. rewrite <- (map_string_ext _ _ _ url_letter_safe), slen_map_string.
    split; [apply includes_map, includes_slice|done].
Qed.

(** ** Masking *)

(** Patterns without stars do not survive, and a text without patterns is kept. *)
Lemma patterns_masked values text :
  (∀ v p, In v values → In p (patterns_of v) → has_char "*" p = false →
    str_includes (maskText text (expandMaskPatterns values)) p = false) ∧
  ((∀ v p, In v values → In p (patterns_of v) → str_includes text p = false) →
    maskText text (expandMaskPatterns values) = text).
Proof.
  assert (∀ p, In p (expandMaskPatterns values) → p ≠ "") as Hne.
  { intros p (v & _ & Hp)%expandMaskPatterns_In. by eapply patterns_nonempty. }
  unfold maskText. split.
  - intros v p Hv Hp Hs. assert (In p (expandMaskPatterns values)) as Hin
      by (apply expandMaskPatterns_In; eauto).
    apply not_true_iff_false. revert text Hin Hne.
    induction (expandMaskPatterns values) as [|q l IH]; cbn [fold_left]; intros text Hin Hne Ht; [done|].
    assert (∀ l text, (∀ q, In q l → q ≠ "") →
      str_includes (fold_left (λ out p, replace_all p 0 out) l text) p = true →
      str_includes text p = true) as Hkeep.
    { clear -Hs Hp. induction l as [|q l IH]; cbn [fold_left]; intros text Hne Ht; [done|].
      apply IH in Ht; [|naive_solver]. apply replace_all_removes in Ht; [tauto|naive_solver| |done].
      by eapply patterns_nonempty. }
    destruct (decide (q = p)) as [->|Hqp].
    + apply Hkeep in Ht; [|naive_solver].
      apply replace_all_removes in Ht as [_ ?]; try done; by eapply patterns_nonempty.
    + destruct Hin as [|Hin]; [done|]. eapply IH; [done| |exact Ht]. naive_solver.
  - intros Ha. assert (∀ p, In p (expandMaskPatterns values) → str_includes text p = false) as Hl.
    { intros p (v & Hv & Hp)%expandMaskPatterns_In. eauto. }
    induction (expandMaskPatterns values) as [|q l IH]; cbn [fold_left]; [done|].
    rewrite replace_all_absent by naive_solver. apply IH; naive_solver.
Qed.

(** ** Property *)

(** C40.  after masking, a text holds no value of the registry that has no star in it, no
    value in the form it has in a URL, and no base64 encoding of any data a value of at
    least seven bytes is a part of, at whatever place of the data it stands; and a text
    is shown as it is when it holds no value, no such form, and not even eight characters
    of such an encoding.  The base64 form of shorter values is not always hidden. *)
Theorem masked_text_hides values text :
  let shown := maskText text (expandMaskPatterns values) in
  (∀ v, In v values → v ≠ "" →
    (has_char "*" v = false → str_includes shown v = false) ∧
    (∀ plus e, quoted_form plus v e → str_includes shown e = false) ∧
    ((7 ≤ slen v)%nat → ∀ pre post e, base64_form (pre +:+ v +:+ post) e → str_includes shown e = false)) ∧
  ((∀ v, In v values → v ≠ "" →
    str_includes text v = false ∧ (∀ plus e, quoted_form plus v e → str_includes text e = false) ∧
    ∀ pre post e p, base64_form (pre +:+ v +:+ post) e → str_includes e p = true → (8 ≤ slen p)%nat →
      str_includes text p = false) →
   shown = text).
Proof.
  cbn zeta. destruct (patterns_masked values text) as [Hhide Hkeep]. split.
  - intros v Hv Hne. assert (In v (patterns_of v) ∧ ∀ plus, In (percentEncodeAll plus v) (patterns_of v)) as [Hplain Hquoted].
    { unfold patterns_of. rewrite (proj2 (String.eqb_neq v "") Hne). split; [by left|]. intros []; cbn; tauto. }
    split_and!.
    + intros Hs. by apply (Hhide v).
    + intros plus e He. pose proof (quoted_form_starless _ _ _ He). apply quoted_form_pattern in He as ->. by apply (Hhide v).
    + intros Hlen pre post e He. apply not_true_iff_false. intros Hin.
      destruct (base64_form_pattern pre v post e Hne Hlen He) as (p & Hp & Hs & Hep).
      pose proof (includes_trans _ _ _ Hin Hep) as Ht. by rewrite (Hhide v p) in Ht.
  - intros Hnone. apply Hkeep. intros v p Hv Hp. destruct (pattern_form p v Hp) as [Hne Hform].
    destruct (Hnone v Hv Hne) as (H1 & H2 & H3).
    destruct Hform as [->|[[plus Hq]|(pre & post & e & He & Hin & Hlen)]]; [done|by eapply H2|by eapply H3].
Qed.

(** A token in a query, and the base64 of what stands around it: both are hidden. *)
Lemma masked_text_hides_witness :
  let token := "s3cr3t/key" in
  let form := encode ("user:" +:+ token) in
  let shown := maskText ("/v1?k=" +:+ token +:+ "&b=" +:+ form) (expandMaskPatterns [token]) in
  shown = "/v1?k=****&b=dXNlcjp****" ∧ str_includes shown token = false ∧ str_includes shown form = false.
Proof.
  intros token form shown. split; [vm_compute; reflexivity|].
  destruct (masked_text_hides [token] ("/v1?k=" +:+ token +:+ "&b=" +:+ form)) as [Hhide _].
  destruct (Hhide token (or_introl eq_refl) ltac:(discriminate)) as (Hplain & _ & Hbase).
  split; [exact (Hplain eq_refl)|].
  apply (Hbase ltac:(cbn; lia) "user:" "" form). apply (base64_standard _ _ ""); vm_compute; reflexivity.
Defined.

(** The proviso is needed: a value that ends in stars can be put together again
    by the replacement of the rest of itself. *)
Lemma starred_value_survives :
  maskText "abab**" (expandMaskPatterns ["ab**"]) = "ab****" ∧
  str_includes (maskText "abab**" (expandMaskPatterns ["ab**"])) "ab**" = true.
Proof. vm_compute. done. Qed.

Example mask_ex :
  maskText "/v1?k=s3cr%20t&b=czNjciB0" (expandMaskPatterns ["s3cr t"]) = "/v1?k=****&b=****".
Proof. vm_compute. reflexivity. Qed.
