(* ===== verification/Broker.v ===== *)
(** * The session broker (network/broker.ts)

    The broker answers the proxy, asks people, and remembers what they answered.
    Its methods are asynchronous: between two `await`s a method runs alone, at an
    `await` every other method may run.  A method is modelled by the segments
    between its `await`s: an event of [Event] runs one segment, a [Task] is a
    method suspended at an `await`, with what it has in hand.  Two `await`s with no
    access to the state between them are one suspension.

    A pending group is an object that methods keep across an `await` even after it
    has left the map of groups: groups live in a heap, [b_heap], and are referred
    to by their index.  The promise a waiter holds is the number of the call; a
    promise is settled once, [b_settled].

    Times of day, notifications and the socket are left out; the result of an
    operation that can fail (writing an entry, appending to the audit log) is part
    of the event that resumes the method. *)
From S2P Require Import Prelude JsString Json Containment TtlLru AuthzTypes Pattern Relation.
From S2P Require Import Selection Semantics MatchLaws Targets Specificity AuthzConfig Witness.
From S2P Require Import Validate Compile Resolve Decide Base64 IpPolicy Secrets Protocol Mask.
From S2P Require Import Credential Messages.

(** ** Configuration of a broker, constant for a session *)

Record BrokerOptions : Type := {
  bo_sessionId : string;
  bo_document : ResolvedDocument;
  bo_principal : NetworkPrincipal;
  bo_secretValues : SecretValues;
  bo_proxyMasking : bool;
  (** `auditDir` is set *)
  bo_auditDir : bool;
  (** `requestBodyAudit.enable`, `.maxBodyBytes` *)
  bo_bodyAudit : bool;
  bo_maxBodyBytes : Z;
}.

(** ** Keys *)

Definition NUL : string := String "000" "".

(** `scope: Exclude<ApprovalScope, "once">` *)
Definition approvalKey (ruleId : string) (reason : DecisionReason) (target : NormalizedTarget)
    (scope : ApprovalScope) : string :=
  let pinned := if bool_decide (scope = ScopeHost) then ta_host target else targetKey target in
  ruleId +:+ NUL +:+ DecisionReason_string reason +:+ NUL +:+ ApprovalScope_string scope +:+ NUL
  +:+ pinned.

Definition approvalKeys (ruleId : string) (reason : DecisionReason) (target : NormalizedTarget) :
    list string :=
  [approvalKey ruleId reason target ScopeRule; approvalKey ruleId reason target ScopeHostPort;
   approvalKey ruleId reason target ScopeHost].

Definition stringify_value (value : option string) : string :=
  match value with Some s => stringify_string s | None => "null" end.

Definition violationKey (ruleId : string) (finding : ViolationFinding) : string :=
  ruleId +:+ NUL +:+ Z_to_string (vf_expect finding) +:+ NUL +:+ stringify_value (vf_value finding).

(** `[...l].sort()`: the order of strings by code units. *)
Fixpoint string_leb (a b : string) : bool :=
  match a, b with
  | EmptyString, _ => true
  | String _ _, EmptyString => false
  | String x a', String y b' =>
      (code x <? code y)%nat || (code x =? code y)%nat && string_leb a' b'
  end.

Fixpoint insert_string (s : string) (l : list string) : list string :=
  match l with
  | [] => [s]
  | t :: l' => if string_leb s t then s :: l else t :: insert_string s l'
  end.

Definition sort_strings (l : list string) : list string := foldr insert_string [] l.

Definition violationGroupKey (sessionId ruleId : string) (identities : list string) : string :=
  join NUL (sessionId :: ruleId :: sort_strings identities).

Definition pendingGroupKey (sessionId ruleId : string) (reason : DecisionReason)
    (target : NormalizedTarget) : string :=
  sessionId +:+ NUL +:+ ruleId +:+ NUL +:+ DecisionReason_string reason +:+ NUL +:+ targetKey target.

(** ** Which scopes an approval offers *)

Definition scopePinsTarget (scope : option ResolvedScope) : bool :=
  match scope with
  | None => false
  | Some scope =>
      match rs_targets scope with
      | [target] =>
          match t_host target, t_port target with HostExact _, Some _ => true | _, _ => false end
      | _ => false
      end
  end.

Definition approvalScopesFor (decided : Decision) : list ApprovalScope :=
  if scopePinsTarget (dec_scope decided) then [ScopeOnce; ScopeRule]
  else [ScopeOnce; ScopeHostPort; ScopeHost].

Definition violationScopesFor (asked : list ViolationFinding) : list ApprovalScope :=
  if forallb (λ finding, negb (bool_decide (vf_label finding = None))) asked
  then [ScopeOnce] else [ScopeOnce; ScopeViolation].

Definition violationNeedsApproval (rule : ResolvedRule) (finding : ViolationFinding) : bool :=
  if (vf_expect finding <? 0)%Z then true
  else match rr_expect rule !! Z.to_nat (vf_expect finding) with
       | None => true
       | Some expect => bool_decide (re_onViolation expect = VioReview)
       end.

Definition DEFAULT_APPROVAL_SCOPE : ApprovalScope := ScopeOnce.

(** ** Answers *)

Definition allowDecision (requestId reason : string) (scope : option ApprovalScope) :
    DecisionResponse := {|
  dr_requestId := requestId; dr_decision := VerdictAllow; dr_scope := scope; dr_reason := reason;
  dr_ruleId := None; dr_message := None; dr_injectHeaders := None; dr_maskValues := None;
  dr_forbidValues := None; dr_removeHeaders := None;
|}.

Definition denyDecision (requestId reason : string) (scope : option ApprovalScope) :
    DecisionResponse := {|
  dr_requestId := requestId; dr_decision := VerdictDeny; dr_scope := scope; dr_reason := reason;
  dr_ruleId := None; dr_message := Some reason; dr_injectHeaders := None; dr_maskValues := None;
  dr_forbidValues := None; dr_removeHeaders := None;
|}.

(** `{...baseDecision, requestId}` *)
Definition with_request_id (d : DecisionResponse) (requestId : string) : DecisionResponse := {|
  dr_requestId := requestId; dr_decision := dr_decision d; dr_scope := dr_scope d;
  dr_reason := dr_reason d; dr_ruleId := dr_ruleId d; dr_message := dr_message d;
  dr_injectHeaders := dr_injectHeaders d; dr_maskValues := dr_maskValues d;
  dr_forbidValues := dr_forbidValues d; dr_removeHeaders := dr_removeHeaders d;
|}.

(** A member that is set only when the list is not empty. *)
Definition unless_empty {A} (l : list A) (otherwise : option (list A)) : option (list A) :=
  if (0 <? length l)%nat then Some l else otherwise.

Definition decorateWithPolicy (o : BrokerOptions) (decision : DecisionResponse)
    (decided : option Decision) : DecisionResponse :=
  match decided with
  | Some decided =>
      if negb (bool_decide (dr_decision decision = VerdictAllow)) then decision
      else
        let inject := renderInjectHeaders (dec_inject decided) (bo_secretValues o) in
        let mask := if bo_proxyMasking o
                    then maskValuesFor (bo_secretValues o) (dec_secrets decided) else [] in
        let forbid := if bo_proxyMasking o
                      then forbidValuesFor (bo_secretValues o) (dec_secrets decided) else [] in
        {| dr_requestId := dr_requestId decision; dr_decision := dr_decision decision;
           dr_scope := dr_scope decision; dr_reason := dr_reason decision;
           dr_ruleId := Some (dec_ruleId decided); dr_message := dr_message decision;
           dr_injectHeaders := unless_empty inject (dr_injectHeaders decision);
           dr_maskValues := unless_empty mask (dr_maskValues decision);
           dr_forbidValues := unless_empty forbid (dr_forbidValues decision);
           dr_removeHeaders := dr_removeHeaders decision |}
  | None => decision
  end.

(** The credentials as the host holds them at the moment of the call. *)
Definition decorateAllow (o : BrokerOptions) (credentials : list AgentCredential)
    (decision : DecisionResponse) (decided : option Decision) (target : NormalizedTarget)
    (reviewContext : option ReviewContext) : DecisionResponse :=
  applyAgentCredentials (decorateWithPolicy o decision decided) (ta_host target)
    (rvc_path <$> reviewContext) credentials.

(** ** State *)

(** A request of a group; an "authorize" request keeps what the retention of its
    body came to, and no body. *)
Inductive PendingRequest : Type :=
  | AuthorizePending (message : AuthorizeRequest) (status : RequestBodyAuditStatus)
  | ViolationPending (message : RequestPolicyReviewRequest).

(** What distinguishes an `AuthorizePendingGroup` from a `ViolationPendingGroup`. *)
Inductive GroupKind : Type :=
  | AuthorizeGroup (reason : DecisionReason) (injectHeaders : list InjectHeaderPreview)
  | ViolationGroup (identities : list string) (findings : list ViolationFinding).

Record PendingGroup : Type := {
  g_kind : GroupKind;
  g_groupKey : string;
  g_ruleId : string;
  g_target : NormalizedTarget;
  g_allowedScopes : list ApprovalScope;
  (** the request its timer answers for *)
  g_first : string;
  g_requests : list (string * PendingRequest);
  g_decisions : list (string * Decision);
  g_waiters : list (string * nat);
  g_timer : bool;
}.

(** The call of "approve" or "deny" waiting for its acknowledgement; a timer has none. *)
Definition Ack : Type := option (nat * string * Verdict).

(** Methods suspended at an `await`. *)
Inductive Task : Type :=
  (** after `createPendingGroup` or `createViolationGroup` *)
  | AfterCreate (call : nat) (gid : nat) (requestId : string) (request : PendingRequest)
      (decided : option Decision)
  (** after the entry of a request that joined an open group *)
  | AfterJoin (call : nat) (gid : nat) (requestId : string)
  (** `resolveRequest` after detaching the request *)
  | Resolving (gid : nat) (requestId : string) (request : PendingRequest) (decided : option Decision)
      (waiter : option nat) (base : DecisionResponse) (outcome : Verdict) (ack : Ack)
  (** `resolveGroup` at `closeNotification` *)
  | Closing (gid : nat) (base : DecisionResponse) (outcome : Verdict) (useNegativeCache : bool)
      (ack : Ack)
  (** the loop over the requests of a group, at the request of a position *)
  | Answering (gid : nat) (base : DecisionResponse) (outcome : Verdict) (position : nat) (ack : Ack)
  (** `close` waiting for the notifications *)
  | Shutdown.

Record Broker : Type := {
  b_approved : gset string;
  b_denied : gset string;
  b_approvedViolations : gset string;
  b_deniedViolations : gset string;
  b_negativeCache : TtlLruCache string unit;
  b_groups : gmap string nat;
  b_requestIndex : gmap string string;
  b_heap : list PendingGroup;
  b_tasks : list Task;
  b_calls : nat;
  b_settled : list nat;
}.

Definition NEGATIVE_CACHE_SIZE : nat := 1024.

Definition new_broker (negativeCacheTtlMs : Z) : Broker := {|
  b_approved := ∅; b_denied := ∅; b_approvedViolations := ∅; b_deniedViolations := ∅;
  b_negativeCache :=
    {| c_maxSize := NEGATIVE_CACHE_SIZE; c_ttlMs := negativeCacheTtlMs; c_entries := [] |};
  b_groups := ∅; b_requestIndex := ∅; b_heap := []; b_tasks := []; b_calls := 0; b_settled := [];
|}.

(** Writing one part of the state. *)
Definition with_sets (b : Broker) (approved denied approvedViolations deniedViolations : gset string) :
    Broker := {|
  b_approved := approved; b_denied := denied; b_approvedViolations := approvedViolations;
  b_deniedViolations := deniedViolations; b_negativeCache := b_negativeCache b;
  b_groups := b_groups b; b_requestIndex := b_requestIndex b; b_heap := b_heap b;
  b_tasks := b_tasks b; b_calls := b_calls b; b_settled := b_settled b |}.

Definition with_cache (b : Broker) (cache : TtlLruCache string unit) : Broker := {|
  b_approved := b_approved b; b_denied := b_denied b; b_approvedViolations := b_approvedViolations b;
  b_deniedViolations := b_deniedViolations b; b_negativeCache := cache; b_groups := b_groups b;
  b_requestIndex := b_requestIndex b; b_heap := b_heap b; b_tasks := b_tasks b;
  b_calls := b_calls b; b_settled := b_settled b |}.

Definition with_maps (b : Broker) (groups : gmap string nat) (requestIndex : gmap string string) :
    Broker := {|
  b_approved := b_approved b; b_denied := b_denied b; b_approvedViolations := b_approvedViolations b;
  b_deniedViolations := b_deniedViolations b; b_negativeCache := b_negativeCache b;
  b_groups := groups; b_requestIndex := requestIndex; b_heap := b_heap b; b_tasks := b_tasks b;
  b_calls := b_calls b; b_settled := b_settled b |}.

Definition with_heap (b : Broker) (heap : list PendingGroup) : Broker := {|
  b_approved := b_approved b; b_denied := b_denied b; b_approvedViolations := b_approvedViolations b;
  b_deniedViolations := b_deniedViolations b; b_negativeCache := b_negativeCache b;
  b_groups := b_groups b; b_requestIndex := b_requestIndex b; b_heap := heap; b_tasks := b_tasks b;
  b_calls := b_calls b; b_settled := b_settled b |}.

Definition with_tasks (b : Broker) (tasks : list Task) : Broker := {|
  b_approved := b_approved b; b_denied := b_denied b; b_approvedViolations := b_approvedViolations b;
  b_deniedViolations := b_deniedViolations b; b_negativeCache := b_negativeCache b;
  b_groups := b_groups b; b_requestIndex := b_requestIndex b; b_heap := b_heap b; b_tasks := tasks;
  b_calls := b_calls b; b_settled := b_settled b |}.

Definition with_calls (b : Broker) (calls : nat) (settled : list nat) : Broker := {|
  b_approved := b_approved b; b_denied := b_denied b; b_approvedViolations := b_approvedViolations b;
  b_deniedViolations := b_deniedViolations b; b_negativeCache := b_negativeCache b;
  b_groups := b_groups b; b_requestIndex := b_requestIndex b; b_heap := b_heap b;
  b_tasks := b_tasks b; b_calls := calls; b_settled := settled |}.

Definition suspend (b : Broker) (t : Task) : Broker := with_tasks b (b_tasks b ++ [t]).

Definition update_group (b : Broker) (gid : nat) (f : PendingGroup → PendingGroup) : Broker :=
  with_heap b (alter f gid (b_heap b)).

(** Writing one part of a group. *)
Definition set_timer (timer : bool) (g : PendingGroup) : PendingGroup := {|
  g_kind := g_kind g; g_groupKey := g_groupKey g; g_ruleId := g_ruleId g; g_target := g_target g;
  g_allowedScopes := g_allowedScopes g; g_first := g_first g; g_requests := g_requests g;
  g_decisions := g_decisions g; g_waiters := g_waiters g; g_timer := timer |}.

Definition set_requests (requests : list (string * PendingRequest))
    (decisions : list (string * Decision)) (waiters : list (string * nat)) (g : PendingGroup) :
    PendingGroup := {|
  g_kind := g_kind g; g_groupKey := g_groupKey g; g_ruleId := g_ruleId g; g_target := g_target g;
  g_allowedScopes := g_allowedScopes g; g_first := g_first g; g_requests := requests;
  g_decisions := decisions; g_waiters := waiters; g_timer := g_timer g |}.

(** `group.waiters.set(requestId, ...)` *)
Definition add_waiter (requestId : string) (call : nat) (g : PendingGroup) : PendingGroup :=
  set_requests (g_requests g) (g_decisions g) (map_set (g_waiters g) requestId call) g.

(** `group.requests.set(...)`, `group.decisions.set(...)` *)
Definition add_request (requestId : string) (request : PendingRequest) (decided : option Decision)
    (g : PendingGroup) : PendingGroup :=
  set_requests (map_set (g_requests g) requestId request)
    (match decided with
     | Some d => map_set (g_decisions g) requestId d
     | None => g_decisions g
     end) (g_waiters g) g.

(** What `detachRequest` deletes from the group. *)
Definition drop_request (requestId : string) (g : PendingGroup) : PendingGroup :=
  set_requests (map_delete (g_requests g) requestId) (map_delete (g_decisions g) requestId)
    (map_delete (g_waiters g) requestId) g.

Definition is_authorize_group (g : PendingGroup) : bool :=
  match g_kind g with AuthorizeGroup _ _ => true | ViolationGroup _ _ => false end.

(** ** What a method asks of the world *)

Record AuditViolation : Type := {
  av_expect : Z; av_at : string; av_kind : ViolationFindingKind; av_pointer : string;
  av_value : option string; av_label : option string; av_count : Z;
}.

Definition toAuditViolation (f : ViolationFinding) : AuditViolation := {|
  av_expect := vf_expect f; av_at := vf_at f; av_kind := vf_kind f; av_pointer := vf_pointer f;
  av_value := vf_value f; av_label := vf_label f; av_count := vf_count f |}.

(** A line of the audit log, without its id and its time. *)
Record AuditLogEntry : Type := {
  al_principal : NetworkPrincipal;
  al_requestId : string;
  al_decision : Verdict;
  al_reason : string;
  al_phase : string;
  al_ruleId : option string;
  al_method : option string;
  al_path : option string;
  al_target : option string;
  al_route : option string;
  al_requestPolicyResult : option string;
  al_injectedHeaders : option (list string);
  al_bodyDiagnostic : option BodyDiagnostic;
  al_bodyStatus : option RequestBodyAuditStatus;
  al_violations : option (list AuditViolation);
}.

(** An entry shown to the approver, without its times. *)
Record PendingEntry : Type := {
  pe_requestId : string;
  pe_target : NormalizedTarget;
  pe_method : string;
  pe_requestKind : RequestKind;
  pe_reviewContext : option ReviewContext;
  pe_ruleId : string;
  pe_askReason : option DecisionReason;
  pe_bodyDiagnostic : option BodyDiagnostic;
  pe_bodyStatus : option RequestBodyAuditStatus;
  pe_approvalScopes : list ApprovalScope;
  pe_injectHeaders : list InjectHeaderPreview;
  pe_violations : option (list ViolationFinding);
}.

Inductive BrokerResponse : Type :=
  | RespDecision (decision : DecisionResponse)
  | RespOutcomeRecorded (requestId : string)
  | RespAck (requestId : string) (decision : Verdict)
  | RespError (requestId message : string).

Inductive Output : Type :=
  | Answer (call : nat) (response : BrokerResponse)
  | WriteEntry (entry : PendingEntry)
  | RemoveEntry (requestId : string)
  | Audit (entry : AuditLogEntry).

(** What the world answers while one segment runs. *)
Record Env : Type := {
  env_now : Z;
  (** what `close`, `appendAuditLog` and the files of the entries came to *)
  env_ok : bool;
  env_credentials : list AgentCredential;
  (** what `storeRequestBody` returns, [None] if it throws *)
  env_store : option RequestBodyAuditStatus;
}.

Section Methods.
Context `{Runtime} (o : BrokerOptions).

Definition maskPatterns : list string :=
  expandMaskPatterns (flat_map snd (bo_secretValues o)).

Definition maskedReviewContext (context : option ReviewContext) : option ReviewContext :=
  (λ c, {| rvc_path := maskText (rvc_path c) maskPatterns; rvc_contentType := rvc_contentType c;
           rvc_bodySize := rvc_bodySize c |}) <$> context.

Definition maskedFindings (findings : list ViolationFinding) : list ViolationFinding :=
  map (λ f, {|
    vf_expect := vf_expect f; vf_expectKind := vf_expectKind f; vf_at := vf_at f;
    vf_kind := vf_kind f; vf_pointer := maskText (vf_pointer f) maskPatterns;
    vf_value := (λ s, maskText s maskPatterns) <$> vf_value f;
    vf_label := (λ s, maskText s maskPatterns) <$> vf_label f;
    vf_excerpt := (λ s, maskText s maskPatterns) <$> vf_excerpt f;
    vf_count := vf_count f |}) findings.

(** `this.agentCredentials` *)
Definition agentCredentials (env : Env) : list AgentCredential :=
  match bo_principal o with PrincipalAgent => env_credentials env | PrincipalDind => [] end.

Definition findRuleById (ruleId : string) : option ResolvedRule :=
  fold_left (λ found scope,
    match found with
    | Some rule => Some rule
    | None => List.find (λ rule, String.eqb (rr_id rule) ruleId) (rs_rules scope)
    end) (doc_scopes (bo_document o)) None.

(** `(audit ?? this.document.defaults.audit) !== "off"` *)
Definition audited (audit : option AuditMode) : bool :=
  negb (bool_decide (default (rd_audit (doc_defaults (bo_document o))) audit = AuditOff)).

Definition captureRequestBody (env : Env) (message : AuthorizeRequest) : RequestBodyAuditStatus :=
  if negb (bo_bodyAudit o) then StatusDisabled
  else match ar_requestBodyCapture message with
  | CaptureDisabled => StatusUnavailable InvalidCapture
  | CaptureNotApplicable => StatusNotApplicable
  | CaptureUnavailable code => StatusUnavailable code
  | CaptureAttached byteLength _ _ _ data =>
      if (bo_maxBodyBytes o <? byteLength)%Z then StatusUnavailable BodyTooLarge
      else if (bo_maxBodyBytes o <? Z.of_nat (slen (decode data)))%Z
      then StatusUnavailable BodyTooLarge
      else default (StatusUnavailable StoreFailed) (env_store env)
  end.

Definition selectedBodyDiagnostic (message : AuthorizeRequest) (reason : DecisionReason)
    (ruleId : string) : option BodyDiagnostic :=
  if bool_decide (reason = ReasonIndeterminate)
  then map_get (ar_bodyDiagnostics message) ruleId else None.

(** `recordAudit`: the line written, if any. *)
Definition recordAudit (message : AuthorizeRequest) (decision : Verdict) (reason : string)
    (injectedHeaders : option (list string)) (decided : option Decision)
    (status : RequestBodyAuditStatus) : option AuditLogEntry :=
  if negb (bo_auditDir o) && negb (bo_bodyAudit o) then None
  else Some {|
    al_principal := bo_principal o; al_requestId := ar_requestId message; al_decision := decision;
    al_reason := reason; al_phase := "authorization"; al_ruleId := dec_ruleId <$> decided;
    al_method := Some (ar_method message);
    al_path := rvc_path <$> maskedReviewContext (ar_reviewContext message);
    al_target := Some (targetKey (ar_target message)); al_route := None;
    al_requestPolicyResult := None; al_injectedHeaders := injectedHeaders;
    al_bodyDiagnostic :=
      (d ← decided; selectedBodyDiagnostic message (dec_reason d) (dec_ruleId d));
    al_bodyStatus := Some status; al_violations := None |}.

Definition recordViolationAudit (message : RequestPolicyReviewRequest) (decision : Verdict)
    (reason : string) (findings : list ViolationFinding) : option AuditLogEntry :=
  if negb (bo_auditDir o) then None
  else Some {|
    al_principal := bo_principal o; al_requestId := rv_requestId message; al_decision := decision;
    al_reason := reason; al_phase := "request-policy"; al_ruleId := Some (rv_ruleId message);
    al_method := Some (rv_method message);
    al_path := rvc_path <$> maskedReviewContext (rv_reviewContext message);
    al_target := Some (targetKey (rv_target message)); al_route := None;
    al_requestPolicyResult := None; al_injectedHeaders := None;
    al_bodyDiagnostic := None; al_bodyStatus := None;
    al_violations := Some (map toAuditViolation (maskedFindings findings)) |}.

(** Append to the audit log, then answer: a failure to append throws, and the
    call gets no answer. *)
Definition audit_then (env : Env) (audit : option AuditLogEntry) (outputs : list Output) :
    list Output :=
  match audit with
  | None => outputs
  | Some entry => if env_ok env then Audit entry :: outputs else []
  end.

Definition header_names (decision : DecisionResponse) : option (list string) :=
  map ih_name <$> dr_injectHeaders decision.

(** ** Entries *)

Definition toPendingEntry (message : AuthorizeRequest) (g : PendingGroup) (reason : DecisionReason)
    (previews : list InjectHeaderPreview) (status : RequestBodyAuditStatus) : PendingEntry := {|
  pe_requestId := ar_requestId message; pe_target := ar_target message;
  pe_method := ar_method message; pe_requestKind := ar_requestKind message;
  pe_reviewContext := maskedReviewContext (ar_reviewContext message);
  pe_ruleId := g_ruleId g; pe_askReason := Some reason;
  pe_bodyDiagnostic := selectedBodyDiagnostic message reason (g_ruleId g);
  pe_bodyStatus := Some status; pe_approvalScopes := g_allowedScopes g;
  pe_injectHeaders := previews; pe_violations := None |}.

Definition toViolationPendingEntry (message : RequestPolicyReviewRequest) (g : PendingGroup)
    (findings : list ViolationFinding) : PendingEntry := {|
  pe_requestId := rv_requestId message; pe_target := rv_target message;
  pe_method := rv_method message; pe_requestKind := KindForward;
  pe_reviewContext := maskedReviewContext (rv_reviewContext message);
  pe_ruleId := g_ruleId g; pe_askReason := None; pe_bodyDiagnostic := None; pe_bodyStatus := None;
  pe_approvalScopes := g_allowedScopes g; pe_injectHeaders := [];
  pe_violations := Some (maskedFindings findings) |}.

Definition pending_entry (g : PendingGroup) (request : PendingRequest) : list Output :=
  match request, g_kind g with
  | AuthorizePending message status, AuthorizeGroup reason previews =>
      [WriteEntry (toPendingEntry message g reason previews status)]
  | ViolationPending message, ViolationGroup _ findings =>
      [WriteEntry (toViolationPendingEntry message g findings)]
  | _, _ => []
  end.

(** ** Groups of a request *)

Definition group_at (b : Broker) (gid : nat) : option PendingGroup := b_heap b !! gid.

(** `this.groups.get(groupKey)` *)
Definition open_group (b : Broker) (groupKey : string) : option (nat * PendingGroup) :=
  gid ← b_groups b !! groupKey; g ← group_at b gid; Some (gid, g).

(** `findGroupByRequestId`; the empty key is falsy. *)
Definition findGroupByRequestId (b : Broker) (requestId : string) : option (nat * PendingGroup) :=
  groupKey ← b_requestIndex b !! requestId;
  if String.eqb groupKey "" then None else open_group b groupKey.

(** Register the promise of a call. *)
Definition wait (b : Broker) (call gid : nat) (requestId : string) : Broker :=
  update_group b gid (add_waiter requestId call).

(** The end of `authorize` and of `reviewViolations` with a group in hand: a request
    that is not of the group yet is added to it and its entry is written. *)
Definition join_group (b : Broker) (call gid : nat) (g : PendingGroup) (requestId : string)
    (request : PendingRequest) (decided : option Decision) : Broker * list Output :=
  if map_has (g_requests g) requestId then (wait b call gid requestId, [])
  else
    let b := update_group b gid (add_request requestId request decided) in
    let b := with_maps b (b_groups b) (<[requestId := g_groupKey g]> (b_requestIndex b)) in
    (suspend b (AfterJoin call gid requestId), pending_entry g request).

(** `createPendingGroup` and `createViolationGroup` up to the writing of the entry. *)
Definition create_group (b : Broker) (call : nat) (kind : GroupKind) (groupKey ruleId : string)
    (target : NormalizedTarget) (scopes : list ApprovalScope) (requestId : string)
    (request : PendingRequest) (decided : option Decision) : Broker * list Output :=
  let gid := length (b_heap b) in
  let g := {|
    g_kind := kind; g_groupKey := groupKey; g_ruleId := ruleId; g_target := target;
    g_allowedScopes := scopes; g_first := requestId; g_requests := [(requestId, request)];
    g_decisions := match decided with Some d => [(requestId, d)] | None => [] end;
    g_waiters := []; g_timer := true |} in
  let b := with_heap b (b_heap b ++ [g]) in
  let b := with_maps b (<[groupKey := gid]> (b_groups b))
             (<[requestId := groupKey]> (b_requestIndex b)) in
  (suspend b (AfterCreate call gid requestId request decided), pending_entry g request).

(** ** `authorize`, from the retention of the body on *)

Definition toAuthzRequest (message : AuthorizeRequest) : DecisionRequest := {|
  dr_method := toUpperCase (ar_method message);
  dr_path := pathForSelection (from_option rvc_path "" (ar_reviewContext message));
  dr_body := None;
  dr_transport := Some (ar_transport message) |}.

(** `message.bodyTruth[rule.id] ?? "indeterminate"`; an id holds a dot, so it is no
    property of `Object.prototype`. *)
Definition body_truth (message : AuthorizeRequest) (rule : ResolvedRule) : option Truth :=
  Some (default TIndeterminate (map_get (ar_bodyTruth message) (rr_id rule))).

Definition answer (call : nat) (decision : DecisionResponse) : list Output :=
  [Answer call (RespDecision decision)].

Definition decide_message (message : AuthorizeRequest) : option Decision :=
  decide_with (bo_document o) (ar_target message) (toAuthzRequest message) (body_truth message).

(** From `identityKeys` on: the answers already given, then a group. *)
Definition ask_people (b : Broker) (env : Env) (call : nat) (message : AuthorizeRequest)
    (decided : Decision) (status : RequestBodyAuditStatus) (shouldAudit : bool) :
    Broker * list Output :=
  let requestId := ar_requestId message in
  let ruleId := dec_ruleId decided in
  let audit (decision : Verdict) (reason : string) (names : option (list string)) :=
    if shouldAudit then recordAudit message decision reason names (Some decided) status else None in
  let deny (reason : string) :=
    audit_then env (audit VerdictDeny reason None) (answer call (denyDecision requestId reason None)) in
  let identityKeys := approvalKeys ruleId (dec_reason decided) (ar_target message) in
  if existsb (λ key, bool_decide (key ∈ b_denied b)) identityKeys then (b, deny "denied-by-user")
  else if existsb (λ key, bool_decide (key ∈ b_approved b)) identityKeys then
    let decision := decorateAllow o (agentCredentials env) (allowDecision requestId "approved" None)
                      (Some decided) (ar_target message) (ar_reviewContext message) in
    (b, audit_then env (audit VerdictAllow "approved" (header_names decision)) (answer call decision))
  else
    let groupKey := pendingGroupKey (bo_sessionId o) ruleId (dec_reason decided) (ar_target message) in
    let '(recent, cache) := cache_get (env_now env) (b_negativeCache b) groupKey in
    let b := with_cache b cache in
    match recent with
    | Some _ => (b, deny "recent-deny")
    | None =>
        let request := AuthorizePending message status in
        match open_group b groupKey with
        | Some (gid, g) =>
            if is_authorize_group g
            then join_group b call gid g requestId request (Some decided)
            else create_group b call
                   (AuthorizeGroup (dec_reason decided)
                      (describeInjectHeaders (dec_inject decided) (bo_secretValues o)))
                   groupKey ruleId (ar_target message) (approvalScopesFor decided) requestId request
                   (Some decided)
        | None =>
            create_group b call
              (AuthorizeGroup (dec_reason decided)
                 (describeInjectHeaders (dec_inject decided) (bo_secretValues o)))
              groupKey ruleId (ar_target message) (approvalScopesFor decided) requestId request
              (Some decided)
        end
    end.

Definition authorize (b : Broker) (env : Env) (call : nat) (message : AuthorizeRequest) :
    Broker * list Output :=
  let status := captureRequestBody env message in
  let requestId := ar_requestId message in
  let target := ar_target message in
  let path := rvc_path <$> ar_reviewContext message in
  let credentials := agentCredentials env in
  let refuse (reason : string) :=
    (b, audit_then env (recordAudit message VerdictDeny reason None None status)
          (answer call (denyDecision requestId reason None))) in
  match denyReasonForTarget target with
  | None => (b, [])
  | Some (Some reason) => refuse reason
  | Some None =>
      if isHostOwnedCredentialRefresh credentials (ta_host target) (ar_method message) path
      then refuse CREDENTIAL_REFRESH_DENY_REASON
      else if isRevokedCredentialTarget credentials (ta_host target) path
      then refuse CREDENTIAL_REVOKED_DENY_REASON
      else match decide_message message with
      | None => (b, [])
      | Some decided =>
          let shouldAudit := negb (bool_decide (dec_audit decided = AuditOff)) || bo_bodyAudit o in
          let audit (decision : Verdict) (names : option (list string)) :=
            if shouldAudit
            then recordAudit message decision (DecisionReason_string (dec_reason decided)) names
                   (Some decided) status
            else None in
          match dec_action decided, bo_principal o with
          | Deny, _ | Review, PrincipalDind =>
              (b, audit_then env (audit VerdictDeny None)
                    (answer call (denyDecision requestId (DecisionReason_string (dec_reason decided)) None)))
          | Allow, _ =>
              let decision := decorateAllow o credentials
                (allowDecision requestId (DecisionReason_string (dec_reason decided)) None)
                (Some decided) target (ar_reviewContext message) in
              (b, audit_then env (audit VerdictAllow (header_names decision)) (answer call decision))
          | Review, PrincipalAgent => ask_people b env call message decided status shouldAudit
          end
      end
  end.

(** ** `recordRequestPolicyOutcome`, on a valid message *)

Definition recordRequestPolicyOutcome (env : Env) (call : nat)
    (message : RequestPolicyOutcomeRequest) : list Output :=
  let rule := findRuleById (ro_ruleId message) in
  let recorded := [Answer call (RespOutcomeRecorded (ro_requestId message))] in
  if bo_auditDir o && audited (rr_audit <$> rule) then
    let entry := {|
      al_principal := bo_principal o; al_requestId := ro_requestId message;
      al_decision := if String.eqb (ro_result message) "block" then VerdictDeny else VerdictAllow;
      al_reason := ro_reason message; al_phase := "request-policy";
      al_ruleId := Some (ro_ruleId message); al_method := None; al_path := None; al_target := None;
      al_route := (λ rule, join " " (map cp_source (rm_paths (rr_match rule)))) <$> rule;
      al_requestPolicyResult := Some (ro_result message);
      al_injectedHeaders := None; al_bodyDiagnostic := None; al_bodyStatus := None;
      al_violations := match ro_findings message with
                       | Some (f :: fs) => Some (map toAuditViolation (maskedFindings (f :: fs)))
                       | _ => None
                       end |} in
    if env_ok env then Audit entry :: recorded
    else [Answer call (RespError (ro_requestId message) "request-policy outcome audit unavailable")]
  else recorded.

(** ** `reviewViolations`, on a valid message *)

Definition reviewViolations (b : Broker) (env : Env) (call : nat)
    (message : RequestPolicyReviewRequest) : Broker * list Output :=
  let requestId := rv_requestId message in
  let ruleId := rv_ruleId message in
  match bo_principal o with
  | PrincipalDind => (b, answer call (denyDecision requestId "dind-review-forbidden" None))
  | PrincipalAgent =>
  match findRuleById ruleId with
  | None =>
      (b, [Answer call (RespError requestId
             "request-policy review names a rule that has no expectations")])
  | Some rule =>
      let audit (decision : Verdict) (reason : string) :=
        if audited (Some (rr_audit rule))
        then recordViolationAudit message decision reason (rv_findings message) else None in
      let deny (reason : string) :=
        audit_then env (audit VerdictDeny reason) (answer call (denyDecision requestId reason None)) in
      let asked := List.filter (violationNeedsApproval rule) (rv_findings message) in
      if (length asked =? 0)%nat then (b, deny "review-condition-mismatch")
      else if existsb (λ finding, negb (isApprovableFinding finding)) asked
      then (b, deny "unapprovable-violation")
      else if existsb (λ finding, bool_decide (violationKey ruleId finding ∈ b_deniedViolations b)) asked
      then (b, deny "denied-by-user")
      else
        let undecided := List.filter (λ finding,
          negb (bool_decide (violationKey ruleId finding ∈ b_approvedViolations b))) asked in
        if (length undecided =? 0)%nat
        then (b, audit_then env (audit VerdictAllow "approved")
                   (answer call (allowDecision requestId "approved" None)))
        else
          let identities := map (violationKey ruleId) undecided in
          let groupKey := violationGroupKey (bo_sessionId o) ruleId identities in
          let '(recent, cache) := cache_get (env_now env) (b_negativeCache b) groupKey in
          let b := with_cache b cache in
          match recent with
          | Some _ => (b, deny "recent-deny")
          | None =>
              let request := ViolationPending message in
              let create := create_group b call (ViolationGroup identities (rv_findings message))
                groupKey ruleId (rv_target message) (violationScopesFor undecided) requestId request
                None in
              match open_group b groupKey with
              | Some (gid, g) =>
                  if is_authorize_group g then create else join_group b call gid g requestId request None
              | None => create
              end
          end
  end
  end.

(** ** Answering *)

(** Settle the promise of a call; a promise that is settled already stays as it is. *)
Definition settle (b : Broker) (call : nat) (decision : DecisionResponse) : Broker * list Output :=
  if includes (b_settled b) call then (b, [])
  else (with_calls b (b_calls b) (call :: b_settled b), answer call decision).

Definition settle_waiter (b : Broker) (waiter : option nat) (decision : DecisionResponse) :
    Broker * list Output :=
  match waiter with
  | None => (b, [])
  | Some call => settle b call decision
  end.

Definition acknowledge (ack : Ack) : list Output :=
  match ack with
  | None => []
  | Some (call, requestId, decision) => [Answer call (RespAck requestId decision)]
  end.

(** The answer to one request of a resolved group, and its line of the audit log. *)
Definition resolution (env : Env) (g : PendingGroup) (requestId : string) (request : PendingRequest)
    (decided : option Decision) (base : DecisionResponse) (outcome : Verdict) :
    DecisionResponse * option AuditLogEntry :=
  let decision := with_request_id base requestId in
  match request with
  | ViolationPending message =>
      let findings := match g_kind g with
                      | ViolationGroup _ findings => findings
                      | AuthorizeGroup _ _ => []
                      end in
      (decision,
       if audited (rr_audit <$> findRuleById (g_ruleId g))
       then recordViolationAudit message outcome (dr_reason base) findings else None)
  | AuthorizePending message status =>
      let decision :=
        match outcome with
        | VerdictAllow => decorateAllow o (agentCredentials env) decision decided (ar_target message)
                            (ar_reviewContext message)
        | VerdictDeny => decision
        end in
      (decision,
       if audited (dec_audit <$> decided) || bo_bodyAudit o
       then recordAudit message outcome (dr_reason base) (header_names decision) decided status
       else None)
  end.

(** `resolveRequest` up to its first `await`: the request is detached, and with its
    last request the group leaves the map of groups. *)
Definition resolveRequest (b : Broker) (requestId : string) (base : DecisionResponse)
    (outcome : Verdict) (ack : Ack) : Broker * list Output :=
  match findGroupByRequestId b requestId with
  | None => (b, acknowledge ack)
  | Some (gid, g) =>
      match map_get (g_requests g) requestId with
      | None => (b, acknowledge ack)
      | Some request =>
          let waiter := map_get (g_waiters g) requestId in
          let decided := map_get (g_decisions g) requestId in
          let last := (length (map_delete (g_requests g) requestId) =? 0)%nat in
          let b := with_maps b (if last then delete (g_groupKey g) (b_groups b) else b_groups b)
                     (delete requestId (b_requestIndex b)) in
          let b := update_group b gid (λ g,
                     let g := drop_request requestId g in if last then set_timer false g else g) in
          (suspend b (Resolving gid requestId request decided waiter base outcome ack), [])
      end
  end.

(** `resolveGroup` up to its first `await`. *)
Definition resolveGroup (b : Broker) (groupKey : string) (base : DecisionResponse)
    (outcome : Verdict) (useNegativeCache : bool) (ack : Ack) : Broker * list Output :=
  match open_group b groupKey with
  | None => (b, acknowledge ack)
  | Some (gid, g) =>
      let b := update_group b gid (set_timer false) in
      let b := with_maps b (delete groupKey (b_groups b)) (b_requestIndex b) in
      (suspend b (Closing gid base outcome useNegativeCache ack), [])
  end.

(** The loop of `resolveAuthorizeGroup` and `resolveViolationGroup`, from the request
    at a position to the next `await`.  The iterator of the map of requests sees
    the requests added while it is suspended; none is deleted, since the group has
    left the map of groups. *)
Definition answer_from (b : Broker) (gid : nat) (base : DecisionResponse) (outcome : Verdict)
    (position : nat) (ack : Ack) : Broker * list Output :=
  match (g ← group_at b gid; g_requests g !! position) with
  | None => (b, acknowledge ack)
  | Some (requestId, _) =>
      let b := with_maps b (b_groups b) (delete requestId (b_requestIndex b)) in
      (suspend b (Answering gid base outcome position ack), [])
  end.

(** ** `approve` and `deny` *)

Definition remember (b : Broker) (g : PendingGroup) (scope : ApprovalScope) (outcome : Verdict) :
    Broker :=
  if bool_decide (scope = ScopeOnce) then b
  else match g_kind g with
  | ViolationGroup identities _ =>
      if negb (bool_decide (scope = ScopeViolation)) then b
      else
        let keys : gset string := list_to_set identities in
        match outcome with
        | VerdictAllow => with_sets b (b_approved b) (b_denied b)
                            (b_approvedViolations b ∪ keys) (b_deniedViolations b ∖ keys)
        | VerdictDeny => with_sets b (b_approved b) (b_denied b)
                           (b_approvedViolations b ∖ keys) (b_deniedViolations b ∪ keys)
        end
  | AuthorizeGroup reason _ =>
      if bool_decide (scope = ScopeViolation) then b
      else
        let key := approvalKey (g_ruleId g) reason (g_target g) scope in
        match outcome with
        | VerdictAllow => with_sets b ({[key]} ∪ b_approved b) (b_denied b ∖ {[key]})
                            (b_approvedViolations b) (b_deniedViolations b)
        | VerdictDeny => with_sets b (b_approved b ∖ {[key]}) ({[key]} ∪ b_denied b)
                           (b_approvedViolations b) (b_deniedViolations b)
        end
  end.

(** `group.allowedScopes.includes(scope)`, for the text of the message. *)
Definition allowed_scope (g : PendingGroup) (scope : string) : option ApprovalScope :=
  List.find (λ s, String.eqb (ApprovalScope_string s) scope) (g_allowedScopes g).

Definition not_found (call : nat) (requestId : string) : list Output :=
  [Answer call (RespError requestId ("Pending request not found: " +:+ requestId))].

Definition not_allowed (call : nat) (requestId scope : string) : list Output :=
  [Answer call (RespError requestId ("scope not allowed for this request: " +:+ scope))].

Definition approve (b : Broker) (call : nat) (requestId : string) (scope : option string) :
    Broker * list Output :=
  match findGroupByRequestId b requestId with
  | None => (b, not_found call requestId)
  | Some (gid, g) =>
      let go (selectedScope : ApprovalScope) :=
        let b := remember b g selectedScope VerdictAllow in
        let decision := allowDecision requestId "approved-by-user" (Some selectedScope) in
        let ack := Some (call, requestId, VerdictAllow) in
        if bool_decide (selectedScope = ScopeOnce)
        then resolveRequest b requestId decision VerdictAllow ack
        else resolveGroup b (g_groupKey g) decision VerdictAllow true ack in
      match scope with
      | None => go DEFAULT_APPROVAL_SCOPE
      | Some text =>
          match allowed_scope g text with
          | None => (b, not_allowed call requestId text)
          | Some scope => go scope
          end
      end
  end.

Definition deny (b : Broker) (call : nat) (requestId : string) (scope : option string) :
    Broker * list Output :=
  match findGroupByRequestId b requestId with
  | None => (b, not_found call requestId)
  | Some (gid, g) =>
      let ack := Some (call, requestId, VerdictDeny) in
      match scope with
      | None =>
          resolveGroup b (g_groupKey g) (denyDecision requestId "denied-by-user" None) VerdictDeny true
            ack
      | Some text =>
          match allowed_scope g text with
          | None => (b, not_allowed call requestId text)
          | Some scope =>
              let b := remember b g scope VerdictDeny in
              let decision := denyDecision requestId "denied-by-user" (Some scope) in
              if bool_decide (scope = ScopeOnce)
              then resolveRequest b requestId decision VerdictDeny ack
              else resolveGroup b (g_groupKey g) decision VerdictDeny false ack
          end
      end
  end.

(** ** Events *)

Inductive Message : Type :=
  | MAuthorize (message : AuthorizeRequest)
  | MReview (message : RequestPolicyReviewRequest)
  | MApprove (requestId : string) (scope : option string)
  | MDeny (requestId : string) (scope : option string)
  | MOutcome (message : RequestPolicyOutcomeRequest).

Inductive Event : Type :=
  (** a message of a new connection *)
  | EvMessage (message : Message)
  (** the suspended method of a position goes on *)
  | EvResume (position : nat)
  (** the timer of a group fires *)
  | EvTimeout (gid : nat)
  | EvClose.

(** The branches of `handleMessage` for these messages. *)
Definition handle (b : Broker) (env : Env) (call : nat) (message : Message) : Broker * list Output :=
  match message with
  | MAuthorize message => authorize b env call message
  | MReview message => reviewViolations b env call message
  | MApprove requestId scope => approve b call requestId scope
  | MDeny requestId scope => deny b call requestId scope
  | MOutcome message => (b, recordRequestPolicyOutcome env call message)
  end.

(** A method goes on after its `await`; when the `await` failed it ends. *)
Definition resume (b : Broker) (env : Env) (t : Task) : Broker * list Output :=
  if negb (env_ok env) then (b, [])
  else match t with
  | AfterCreate call gid requestId request decided =>
      match group_at b gid with
      | None => (b, [])
      | Some g => join_group b call gid g requestId request decided
      end
  | AfterJoin call gid requestId => (wait b call gid requestId, [])
  | Resolving gid requestId request decided waiter base outcome ack =>
      match group_at b gid with
      | None => (b, [])
      | Some g =>
          let '(decision, audit) := resolution env g requestId request decided base outcome in
          let '(b, answers) := settle_waiter b waiter decision in
          (b, RemoveEntry requestId :: audit_then env audit (answers ++ acknowledge ack))
      end
  | Closing gid base outcome useNegativeCache ack =>
      match group_at b gid with
      | None => (b, [])
      | Some g =>
          let b := match outcome, useNegativeCache with
                   | VerdictDeny, true =>
                       with_cache b (cache_set (env_now env) (b_negativeCache b) (g_groupKey g) ())
                   | _, _ => b
                   end in
          answer_from b gid base outcome 0 ack
      end
  | Answering gid base outcome position ack =>
      match (g ← group_at b gid; e ← g_requests g !! position; Some (g, e)) with
      | None => (b, [])
      | Some (g, (requestId, request)) =>
          let decided := map_get (g_decisions g) requestId in
          let '(decision, audit) := resolution env g requestId request decided base outcome in
          let '(b, answers) := settle_waiter b (map_get (g_waiters g) requestId) decision in
          let '(b, rest) := answer_from b gid base outcome (S position) ack in
          (b, RemoveEntry requestId :: audit_then env audit (answers ++ rest))
      end
  | Shutdown =>
      let b := with_sets b ∅ ∅ ∅ ∅ in
      let b := with_maps b ∅ ∅ in
      (with_cache b (cache_clear (b_negativeCache b)), [])
  end.

(** `close` up to its first `await`: every waiter of an open group is denied. *)
Definition close (b : Broker) : Broker * list Output :=
  let '(b, outputs) := fold_left (λ acc entry,
      let '(b, outputs) := acc in
      let gid := entry.2 in
      let waiters := from_option g_waiters [] (group_at b gid) in
      let b := update_group b gid (set_timer false) in
      fold_left (λ acc waiter,
        let '(b, outputs) := acc in
        let decision := {|
          dr_requestId := waiter.1; dr_decision := VerdictDeny; dr_scope := None;
          dr_reason := "broker closed"; dr_ruleId := None; dr_message := None;
          dr_injectHeaders := None; dr_maskValues := None; dr_forbidValues := None;
          dr_removeHeaders := None |} in
        let '(b, answers) := settle b waiter.2 decision in
        (b, outputs ++ answers)) waiters (b, outputs))
    (map_to_list (b_groups b)) (b, []) in
  (suspend b Shutdown, outputs).

(** One segment; [None] when the event is not enabled. *)
Definition step (b : Broker) (env : Env) (event : Event) : option (Broker * list Output) :=
  match event with
  | EvMessage message =>
      let call := b_calls b in
      Some (handle (with_calls b (S call) (b_settled b)) env call message)
  | EvResume position =>
      t ← b_tasks b !! position;
      Some (resume (with_tasks b (delete position (b_tasks b))) env t)
  | EvTimeout gid =>
      g ← group_at b gid;
      if g_timer g
      then Some (resolveGroup (update_group b gid (set_timer false)) (g_groupKey g)
                   (denyDecision (g_first g) "prompt-timeout" None) VerdictDeny true None)
      else None
  | EvClose => Some (close b)
  end.

(** A run of the broker: the events with what the world answered, and everything
    that was output. *)
Fixpoint run (b : Broker) (events : list (Env * Event)) : option (Broker * list Output) :=
  match events with
  | [] => Some (b, [])
  | (env, event) :: rest =>
      '(b, outputs) ← step b env event;
      '(b, more) ← run b rest;
      Some (b, outputs ++ more)
  end.

End Methods.

(** ** From the socket to a message *)

Definition BROKER_MESSAGE_TYPES : list string :=
  ["authorize"; "request_policy_outcome"; "request_policy_review"; "approve"; "deny";
   "list_pending"]%string.

Definition parseBrokerMessage (value : JsonValue) : option (list (string * JsonValue)) :=
  message ← as_object value;
  if negb (isListedValue (member message "type") BROKER_MESSAGE_TYPES) then None
  else if is_text (member message "type") "approve" || is_text (member message "type") "deny" then
    if negb (is_string (member message "requestId")) then None
    else match member message "scope" with
         | None => Some message
         | scope => if is_string scope then Some message else None
         end
  else Some message.

(** What becomes of a line: it is dropped, answered at once, or handed to the
    broker of the agent or of DinD.  The request id of an error is the one of the
    message where that is a string. *)
Inductive Receipt : Type :=
  | Dropped
  | Reply (response : BrokerResponse)
  | ListPending
  | ToBroker (principal : NetworkPrincipal) (message : Message).

Definition request_id (message : list (string * JsonValue)) : string :=
  default "" (string_member message "requestId").

(** A validated message, read; [Dropped] where the reading fails, which the
    validators exclude. *)
Definition validated {A} (principal : NetworkPrincipal) (message : list (string * JsonValue))
    (error : option string) (make : A → Message) (decoded : option A) : Receipt :=
  match error with
  | Some e => Reply (RespError (request_id message) e)
  | None => match decoded with Some m => ToBroker principal (make m) | None => Dropped end
  end.

(** `handleMessage` of the broker of one principal, on the three messages of the proxy. *)
Definition handle_proxy (o : BrokerOptions) (message : list (string * JsonValue)) : Receipt :=
  let value := JObject message in
  switch (string_member message "type") [
    (["authorize"],
      validated (bo_principal o) message
        (validateAuthorizeRequest value (bo_sessionId o) (bo_document o)) MAuthorize
        (decode_authorize value));
    (["request_policy_outcome"],
      validated (bo_principal o) message
        (validateRequestPolicyOutcome value (bo_sessionId o) (bo_document o)) MOutcome
        (decode_outcome value));
    (["request_policy_review"],
      match bo_principal o with
      | PrincipalDind =>
          Reply (RespDecision (denyDecision (request_id message) "dind-review-forbidden" None))
      | PrincipalAgent =>
          validated (bo_principal o) message
            (validateRequestPolicyReview value (bo_sessionId o) (bo_document o)) MReview
            (decode_review value)
      end)
  ]%string Dropped.

(** `handleMessage` of the broker of the agent, which owns the broker of DinD. *)
Definition receive (agent : BrokerOptions) (dind : option BrokerOptions) (value : JsonValue) :
    Receipt :=
  match parseBrokerMessage value with
  | None => Dropped
  | Some message =>
      let scope := string_member message "scope" in
      let proxy :=
        let error (e : string) := Reply (RespError (request_id message) e) in
        let principal := member message "principal" in
        (* `message.principal ?? "agent"` *)
        if bool_decide (principal = None) || is_null_value principal || is_text principal "agent"
        then handle_proxy agent message
        else if is_text principal "dind" then
          match dind with
          | Some dind => handle_proxy dind message
          | None => error "network principal policy unavailable"
          end
        else error "invalid network principal" in
      switch (string_member message "type") [
        (["approve"], ToBroker PrincipalAgent (MApprove (request_id message) scope));
        (["deny"], ToBroker PrincipalAgent (MDeny (request_id message) scope));
        (["list_pending"], ListPending);
        (["authorize"; "request_policy_outcome"; "request_policy_review"], proxy)
      ]%string Dropped
  end.
