(* ===== verification/BrokerKeys.v ===== *)
(** * The keys of the broker

    What the broker remembers and what it groups is a string of components
    separated by NUL.  The keys determine their components, for rule ids without
    NUL: an answer is reused only for the question it was given to. *)
From S2P Require Import Prelude JsString Json Containment TtlLru AuthzTypes Pattern Relation.
From S2P Require Import Selection Semantics MatchLaws Targets Specificity AuthzConfig Witness.
From S2P Require Import Validate Compile Resolve Decide Samples Base64 IpPolicy Secrets Protocol.
From S2P Require Import Mask.
From S2P Require Import Credential Messages Broker TargetLaws.

Abbreviation nul := "000"%char.

Definition plain (s : string) : bool := negb (has_char nul s).

(** The ids of a document hold no NUL, and no rule has the name of a reason. *)
Definition document_plain (document : ResolvedDocument) : bool :=
  forallb (λ scope,
    plain (rs_fallbackRuleId scope) &&
    forallb (λ rule, plain (rr_id rule) &&
      negb (includes (map DecisionReason_string [ReasonRule; ReasonIndeterminate; ReasonScopeFallback;
              ReasonNetworkFallback; ReasonWebsocketDenied]) (rr_id rule))) (rs_rules scope))
    (doc_scopes document).

(** ** Splitting off a component *)

Lemma split_component c a b x y :
  has_char c a = false → has_char c b = false →
  a +:+ String c x = b +:+ String c y → a = b ∧ x = y.
Proof.
  revert b. induction a as [|d a IH]; intros b Ha Hb H.
  - destruct b as [|e b]; cbn in *; [by simplify_eq|]. injection H as <- _.
    by rewrite Ascii.eqb_refl in Hb.
  - apply orb_false_iff in Ha as [Hd Ha]. destruct b as [|e b].
    + cbn in H. injection H as -> _. by rewrite Ascii.eqb_refl in Hd.
    + apply orb_false_iff in Hb as [He Hb]. cbn in H. injection H as -> H.
      destruct (IH _ Ha Hb H) as [-> ->]. done.
Qed.

Lemma nul_component a b x y :
  plain a = true → plain b = true → a +:+ NUL +:+ x = b +:+ NUL +:+ y → a = b ∧ x = y.
Proof. unfold plain. intros Ha%negb_true_iff Hb%negb_true_iff. by apply split_component. Qed.

Lemma reason_plain r : plain (DecisionReason_string r) = true.
Proof. by destruct r. Qed.

Lemma scope_plain s : plain (ApprovalScope_string s) = true.
Proof. by destruct s. Qed.

Lemma DecisionReason_string_inj r r' : DecisionReason_string r = DecisionReason_string r' → r = r'.
Proof. by destruct r, r'. Qed.

Lemma ApprovalScope_string_inj s s' : ApprovalScope_string s = ApprovalScope_string s' → s = s'.
Proof. by destruct s, s'. Qed.

Lemma Z_to_string_colon z : has_char ":" (Z_to_string z) = false.
Proof.
  assert (∀ n, has_char ":" (N_to_string n) = false) as Hn.
  { intros n. apply (string_all_free is_digit); [reflexivity|apply N_to_string_digits]. }
  destruct z as [|p|p]; [reflexivity|apply Hn|]. cbn [Z_to_string]. rewrite has_char_app, Hn. reflexivity.
Qed.

Lemma Z_to_string_inj a b : Z_to_string a = Z_to_string b → a = b.
Proof.
  assert (∀ p q, N_to_string (Npos p) ≠ "-" +:+ N_to_string (Npos q)) as Hneg.
  { intros p q H. pose proof (N_to_string_digits (Npos p)) as Hd. rewrite H in Hd.
    apply andb_true_iff in Hd as [Hd _]. discriminate Hd. }
  assert (∀ p, "0" ≠ N_to_string (Npos p)) as H0.
  { intros p H. by apply (N_to_string_inj 0 (Npos p)) in H. }
  destruct a as [|p|p], b as [|q|q]; cbn [Z_to_string]; try done; intros H.
  - by destruct (H0 q).
  - by destruct (H0 p).
  - apply N_to_string_inj in H. congruence.
  - by destruct (Hneg p q).
  - by destruct (Hneg q p).
  - apply sapp_inj_l, N_to_string_inj in H. congruence.
Qed.

Lemma targetKey_inj t t' : targetKey t = targetKey t' → t = t'.
Proof.
  unfold targetKey. destruct t as [h p], t' as [h' p']. cbn. intros H.
  assert (slen h = slen h') as Hl.
  { apply (f_equal (λ s, lastIndexOf s ":")) in H. cbn in H.
    rewrite !lastIndexOf_app in H by apply Z_to_string_colon. congruence. }
  destruct (sapp_inj_len _ _ _ _ H Hl) as [-> Hp]. injection Hp as Hp%Z_to_string_inj.
  by subst.
Qed.

(** ** Approval keys *)

(** The targets an approval of some width reaches. *)
Definition covers (scope : ApprovalScope) (t t' : NormalizedTarget) : Prop :=
  match scope with
  | ScopeHost => ta_host t = ta_host t'
  | _ => t = t'
  end.

Lemma approvalKey_inj ruleId reason target scope ruleId' reason' target' scope' :
  plain ruleId = true → plain ruleId' = true →
  approvalKey ruleId reason target scope = approvalKey ruleId' reason' target' scope' →
  ruleId = ruleId' ∧ reason = reason' ∧ scope = scope' ∧ covers scope target target'.
Proof.
  intros Hp Hp'. unfold approvalKey. intros [-> H]%nul_component; [|done..].
  apply nul_component in H as [Hr H]; [|apply reason_plain..].
  apply nul_component in H as [Hs H]; [|apply scope_plain..].
  apply DecisionReason_string_inj in Hr as ->. apply ApprovalScope_string_inj in Hs as ->.
  split_and!; [done..|]. destruct scope'; cbn in *; try (by apply targetKey_inj). done.
Qed.

Lemma approvalKeys_In k ruleId reason target :
  In k (approvalKeys ruleId reason target) →
  ∃ scope, k = approvalKey ruleId reason target scope ∧ scope ≠ ScopeOnce.
Proof. intros [<-|[<-|[<-|[]]]]; eauto. Qed.

Lemma pendingGroupKey_inj sessionId ruleId reason target ruleId' reason' target' :
  plain ruleId = true → plain ruleId' = true →
  pendingGroupKey sessionId ruleId reason target = pendingGroupKey sessionId ruleId' reason' target' →
  ruleId = ruleId' ∧ reason = reason' ∧ target = target'.
Proof.
  intros Hp Hp'. unfold pendingGroupKey. intros H%sapp_inj_l%sapp_inj_l.
  apply nul_component in H as [-> H]; [|done..].
  apply nul_component in H as [Hr H]; [|apply reason_plain..].
  apply DecisionReason_string_inj in Hr as ->. by apply targetKey_inj in H.
Qed.

(** ** JSON text of a violating value *)

(** The character an escaped text starts with. *)
Definition first_escaped (s : string) : ascii :=
  match s with
  | EmptyString => nul
  | String c rest =>
      if negb (Ascii.eqb c "\") then c
      else match rest with
      | EmptyString => nul
      | String e rest =>
          if Ascii.eqb e "b" then ascii_of_nat 8
          else if Ascii.eqb e "f" then ascii_of_nat 12
          else if Ascii.eqb e "n" then ascii_of_nat 10
          else if Ascii.eqb e "r" then ascii_of_nat 13
          else if Ascii.eqb e "t" then ascii_of_nat 9
          else if Ascii.eqb e "u" then
            match rest with
            | String _ (String _ (String h (String l _))) =>
                ascii_of_N (Z.to_N (hex_value h * 16 + hex_value l))
            | _ => nul
            end
          else e
      end
  end.

Lemma first_escaped_char x u : first_escaped (escape_char x +:+ u) = x.
Proof. destruct x as [[] [] [] [] [] [] [] []]; reflexivity. Qed.

Lemma escape_char_plain x : has_char nul (escape_char x) = false.
Proof. destruct x as [[] [] [] [] [] [] [] []]; reflexivity. Qed.

Lemma escape_char_unquoted x u v : escape_char x +:+ u ≠ dquote +:+ v.
Proof. destruct x as [[] [] [] [] [] [] [] []]; discriminate. Qed.

Lemma escape_string_inj a b x y :
  escape_string a +:+ dquote +:+ x = escape_string b +:+ dquote +:+ y → a = b ∧ x = y.
Proof.
  revert b. induction a as [|c a IH]; intros [|d b] H; cbn [escape_string] in H;
    rewrite ?sapp_assoc in H.
  - split; [done|]. by apply sapp_inj_l, sapp_inj_l in H.
  - symmetry in H. by apply escape_char_unquoted in H.
  - by apply escape_char_unquoted in H.
  - assert (c = d) as ->.
    { apply (f_equal first_escaped) in H. by rewrite !first_escaped_char in H. }
    apply sapp_inj_l in H. destruct (IH _ H) as [-> ->]. done.
Qed.

Lemma stringify_value_inj v v' : stringify_value v = stringify_value v' → v = v'.
Proof.
  destruct v as [s|], v' as [s'|]; cbn [stringify_value]; try done.
  unfold stringify_string. intros H%sapp_inj_l.
  rewrite <- (sapp_nil_r (escape_string s +:+ _)), <- (sapp_nil_r (escape_string s' +:+ _)) in H.
  rewrite !sapp_assoc in H. apply escape_string_inj in H as [-> _]. done.
Qed.

Lemma stringify_value_plain v : plain (stringify_value v) = true.
Proof.
  unfold plain. destruct v as [s|]; [|done]. cbn [stringify_value]. unfold stringify_string.
  rewrite !has_char_app. assert (has_char nul (escape_string s) = false) as ->; [|done].
  induction s as [|c s IH]; [done|]. cbn [escape_string]. by rewrite has_char_app, escape_char_plain, IH.
Qed.

Lemma Z_to_string_plain z : plain (Z_to_string z) = true.
Proof.
  unfold plain. assert (∀ n, has_char nul (N_to_string n) = false) as Hn.
  { intros n. apply (string_all_free is_digit); [reflexivity|apply N_to_string_digits]. }
  destruct z as [|p|p]; [reflexivity|by cbn [Z_to_string]; rewrite Hn|].
  cbn [Z_to_string]. rewrite has_char_app, Hn. reflexivity.
Qed.

Lemma violationKey_inj ruleId finding ruleId' finding' :
  plain ruleId = true → plain ruleId' = true →
  violationKey ruleId finding = violationKey ruleId' finding' →
  ruleId = ruleId' ∧ vf_expect finding = vf_expect finding' ∧ vf_value finding = vf_value finding'.
Proof.
  intros Hp Hp'. unfold violationKey. intros [-> H]%nul_component; [|done..].
  apply nul_component in H as [He H]; [|apply Z_to_string_plain..].
  by apply Z_to_string_inj in He; apply stringify_value_inj in H.
Qed.

(** ** Groups of violations *)

Lemma insert_string_perm s l : insert_string s l ≡ₚ s :: l.
Proof.
  induction l as [|t l IH]; cbn; [done|]. destruct (string_leb s t); [done|].
  rewrite IH. apply perm_swap.
Qed.

Lemma sort_strings_perm l : sort_strings l ≡ₚ l.
Proof.
  unfold sort_strings. induction l as [|s l IH]; cbn [foldr]; [done|]. by rewrite insert_string_perm, IH.
Qed.

(** A key of a violation is three components. *)
Definition violation_shaped (key : string) : Prop :=
  ∃ a b c, key = a +:+ NUL +:+ b +:+ NUL +:+ c ∧ plain a = true ∧ plain b = true ∧ plain c = true.

Lemma violationKey_shaped ruleId finding : plain ruleId = true → violation_shaped (violationKey ruleId finding).
Proof.
  intros Hp. exists ruleId, (Z_to_string (vf_expect finding)), (stringify_value (vf_value finding)).
  split_and!; [done|done|apply Z_to_string_plain|apply stringify_value_plain].
Qed.

Lemma join_shaped_inj l : ∀ l', Forall violation_shaped l → Forall violation_shaped l' →
  join NUL l = join NUL l' → (l = [] ↔ l' = []) → l = l'.
Proof.
  induction l as [|k l IH]; intros [|k' l'] Hl Hl' H Hn; [done|naive_solver|naive_solver|].
  apply Forall_cons in Hl as [(a & b & c & -> & Ha & Hb & Hc) Hr].
  apply Forall_cons in Hl' as [(a' & b' & c' & -> & Ha' & Hb' & Hc') Hr'].
  assert (∀ a b c l, join NUL ((a +:+ NUL +:+ b +:+ NUL +:+ c) :: l) =
    a +:+ NUL +:+ b +:+ NUL +:+ (join NUL (c :: l))) as Hj.
  { intros x y z m. destruct m; [done|]. rewrite !join_cons by done. by rewrite !sapp_assoc. }
  rewrite !Hj in H. apply nul_component in H as [-> H]; [|done..].
  apply nul_component in H as [-> H]; [|done..].
  destruct l as [|k l], l' as [|k' l'].
  - cbn [join] in H. by subst.
  - cbn [join] in H. exfalso. rewrite H in Hc. unfold plain in Hc. rewrite !has_char_app in Hc.
    cbn in Hc. by rewrite !orb_true_r in Hc.
  - cbn [join] in H. exfalso. rewrite <- H in Hc'. unfold plain in Hc'. rewrite !has_char_app in Hc'.
    cbn in Hc'. by rewrite !orb_true_r in Hc'.
  - rewrite !(join_cons _ c), !(join_cons _ c') in H by done.
    apply nul_component in H as [-> H]; [|done..]. f_equal. by apply IH.
Qed.

Lemma violationGroupKey_inj sessionId ruleId ids ruleId' ids' :
  plain ruleId = true → plain ruleId' = true → ids ≠ [] → ids' ≠ [] →
  Forall violation_shaped ids → Forall violation_shaped ids' →
  violationGroupKey sessionId ruleId ids = violationGroupKey sessionId ruleId' ids' →
  ruleId = ruleId' ∧ ids ≡ₚ ids'.
Proof.
  intros Hp Hp' Hn Hn' Hs Hs'. unfold violationGroupKey.
  assert (∀ l, l ≠ [] → sort_strings l ≠ []) as Hne.
  { intros l Hl Hs0. apply Hl. pose proof (sort_strings_perm l) as Hq. rewrite Hs0 in Hq.
    by apply Permutation_nil in Hq. }
  rewrite !(join_cons NUL sessionId), (join_cons NUL ruleId), (join_cons NUL ruleId') by auto.
  intros H%sapp_inj_l%sapp_inj_l. apply nul_component in H as [-> H]; [|done..].
  split; [done|]. apply join_shaped_inj in H.
  - by rewrite <- (sort_strings_perm ids), <- (sort_strings_perm ids'), H.
  - by rewrite sort_strings_perm.
  - by rewrite sort_strings_perm.
  - split; intros Hz; exfalso; [by apply (Hne ids)|by apply (Hne ids')].
Qed.

(** The two kinds of groups never share a key. *)
Lemma group_keys_disjoint sessionId ruleId reason target ruleId' ids :
  plain ruleId = true → plain ruleId' = true → ids ≠ [] →
  Forall violation_shaped ids →
  (∀ k, In k ids → ∀ r x, k ≠ DecisionReason_string r +:+ NUL +:+ x) →
  pendingGroupKey sessionId ruleId reason target ≠ violationGroupKey sessionId ruleId' ids.
Proof.
  intros Hp Hp' Hn Hs Hr. unfold pendingGroupKey, violationGroupKey.
  pose proof (sort_strings_perm ids) as Hq.
  destruct (sort_strings ids) as [|k l] eqn:E; [by apply Permutation_nil in Hq|].
  rewrite !(join_cons NUL sessionId), (join_cons NUL ruleId') by done.
  intros H%sapp_inj_l%sapp_inj_l. apply nul_component in H as [-> H]; [|done..].
  assert (In k ids) as Hin.
  { apply list_elem_of_In. rewrite <- Hq. by left. }
  rewrite Forall_forall in Hs. destruct (Hs k) as (a & b & c & -> & Ha & Hb & Hc);
    [by apply list_elem_of_In|].
  assert (∃ x, join NUL ((a +:+ NUL +:+ b +:+ NUL +:+ c) :: l) = a +:+ NUL +:+ x) as [x Hx].
  { destruct l; [by eexists|]. rewrite join_cons by done. rewrite !sapp_assoc. by eexists. }
  rewrite Hx in H. apply nul_component in H as [Ha' _]; [|apply reason_plain|done].
  by apply (Hr _ Hin reason (b +:+ NUL +:+ c)); rewrite Ha'.
Qed.
