(* ===== verification/BrokerLaws.v ===== *)
(** * What the broker promises

    An invariant of every reachable state relates what the broker remembers, the
    groups it keeps and the methods it suspended to the messages it received.  The
    properties: nothing is let through without the policy or a person saying so,
    for this very question. *)
From S2P Require Import Prelude JsString Json Containment TtlLru AuthzTypes Pattern Relation.
From S2P Require Import Selection Semantics MatchLaws Targets Specificity AuthzConfig Witness.
From S2P Require Import Validate Compile Resolve Decide Samples DecideLaws Base64 IpPolicy Secrets.
From S2P Require Import Protocol Mask Credential Messages Broker BrokerKeys.

(** ** Plain ids *)

Section Plain.
Context (document : ResolvedDocument) (Hplain : document_plain document = true).

Lemma plain_scope s : In s (doc_scopes document) →
  plain (rs_fallbackRuleId s) = true ∧
  ∀ r, In r (rs_rules s) → plain (rr_id r) = true ∧
       ∀ reason, rr_id r ≠ DecisionReason_string reason.
Proof.
  unfold document_plain in Hplain. rewrite forallb_forall in Hplain. intros Hs.
  specialize (Hplain s Hs). apply andb_true_iff in Hplain as [Hf Hr]. split; [done|].
  intros r Hin. rewrite forallb_forall in Hr. specialize (Hr r Hin).
  apply andb_true_iff in Hr as [Hp Hn]. split; [done|]. intros reason Hid.
  apply negb_true_iff, includes_false in Hn. apply Hn. rewrite Hid.
  destruct reason; cbn; tauto.
Qed.

Lemma decide_with_plain address request leaf d :
  decide_with document address request leaf = Some d → plain (dec_ruleId d) = true.
Proof.
  unfold decide_with. destruct (selectScope document address) as [s|] eqn:Es.
  2:{ intros [= <-]. by destruct (bool_decide _). }
  apply selectScope_In in Es as [[Hin _]|]; [|done]. destruct (plain_scope s Hin) as [Hf Hr].
  destruct (_ && _); [intros [= <-]; exact Hf|]. unfold decide_scope.
  destruct (orderedCandidates s request) as [rules|] eqn:Eo; cbn [mbind option_bind]; [|done].
  assert (∀ r, In r rules → plain (rr_id r) = true) as Hrules.
  { intros r Hr'%(orderedCandidates_In _ _ _ Eo). unfold candidates in Hr'.
    apply filter_In in Hr' as [Hr' _]. by apply Hr. }
  intros [b x a -> _ _|b x a -> _ _|_]%decide_rules_outcome; [apply Hrules, in_elt..|exact Hf].
Qed.
End Plain.

Section Laws.
Context {runtime : Runtime} (o : BrokerOptions).

Lemma findRuleById_In ruleId rule : findRuleById o ruleId = Some rule →
  ∃ s, In s (doc_scopes (bo_document o)) ∧ In rule (rs_rules s) ∧ rr_id rule = ruleId.
Proof.
  unfold findRuleById. generalize (doc_scopes (bo_document o)). intros l.
  assert (∀ l acc, (∀ r, acc = Some r → ∃ s, In s l ∧ In r (rs_rules s) ∧ rr_id r = ruleId) →
    ∀ l', (∀ s, In s l' → In s l) →
    fold_left (λ found scope, match found with Some rule => Some rule
      | None => List.find (λ rule, String.eqb (rr_id rule) ruleId) (rs_rules scope) end) l' acc = Some rule →
    ∃ s, In s l ∧ In rule (rs_rules s) ∧ rr_id rule = ruleId) as Hgen.
  { clear. intros l acc Hacc l'. revert acc Hacc.
    induction l' as [|s l' IH]; intros acc Hacc Hsub; cbn [fold_left]; [apply Hacc|].
    apply IH; [|intros; apply Hsub; by right]. intros r. destruct acc as [r0|]; [apply Hacc|].
    intros [Hin Hid%String.eqb_eq]%find_some. exists s. split; [apply Hsub; by left|done]. }
  by apply (Hgen l None ltac:(done) l).
Qed.

(** ** Questions and answers *)

(** The question an "authorize" message raises, if its decision is "review". *)
Definition question (m : AuthorizeRequest) : option (string * DecisionReason) :=
  d ← decide_message o m;
  match dec_action d with Review => Some (dec_ruleId d, dec_reason d) | _ => None end.

(** How far an approval for one target reaches. *)
Definition reaches (scope : option string) (t t' : NormalizedTarget) : Prop :=
  t = t' ∨ scope = Some "host" ∧ ta_host t = ta_host t'.

(** Someone approved, by the id of a request that raised it, the same question: the
    same rule, the same reason, and a target the chosen scope covers. *)
Definition approved_question (H : list Message) (ruleId : string) (reason : DecisionReason)
    (target : NormalizedTarget) : Prop :=
  ∃ scope m, In (MApprove (ar_requestId m) scope) H ∧ In (MAuthorize m) H ∧
    question m = Some (ruleId, reason) ∧ reaches scope (ar_target m) target.

(** A violation of a "review" message that needs an answer, as a key. *)
Definition violates (m : RequestPolicyReviewRequest) (key : string) : Prop :=
  ∃ rule f, findRuleById o (rv_ruleId m) = Some rule ∧ In f (rv_findings m) ∧
    violationNeedsApproval rule f = true ∧ key = violationKey (rv_ruleId m) f.

(** Someone approved a request with that violation. *)
Definition approved_violation (H : list Message) (key : string) : Prop :=
  ∃ scope m, In (MApprove (rv_requestId m) scope) H ∧ In (MReview m) H ∧ violates m key.

(** What an answer "allow" to a call needs. *)
Definition justified (H : list Message) (call : nat) : Prop :=
  match H !! call with
  | Some (MAuthorize m) =>
      denyReasonForTarget (ar_target m) = Some None ∧
      ∃ d, decide_message o m = Some d ∧
        (dec_action d = Allow ∨
         dec_action d = Review ∧ approved_question H (dec_ruleId d) (dec_reason d) (ar_target m))
  | Some (MReview m) =>
      ∃ rule, findRuleById o (rv_ruleId m) = Some rule ∧
        ∀ f, In f (rv_findings m) → violationNeedsApproval rule f = true →
          isApprovableFinding f = true ∧ approved_violation H (violationKey (rv_ruleId m) f)
  | _ => False
  end.

(** ** Groups *)

(** The shape of a group's key. *)
Definition group_ok (g : PendingGroup) : Prop :=
  plain (g_ruleId g) = true ∧
  match g_kind g with
  | AuthorizeGroup reason _ =>
      g_groupKey g = pendingGroupKey (bo_sessionId o) (g_ruleId g) reason (g_target g)
  | ViolationGroup ids _ =>
      ids ≠ [] ∧ (∃ rule, findRuleById o (g_ruleId g) = Some rule) ∧
      Forall (λ k, ∃ f, k = violationKey (g_ruleId g) f) ids ∧
      g_groupKey g = violationGroupKey (bo_sessionId o) (g_ruleId g) ids
  end.

(** What a call that waits in a group asked: the group's question, and what is left
    of a violation beyond the group is approved. *)
Definition waits (H : list Message) (kind : GroupKind) (ruleId : string) (target : NormalizedTarget)
    (call : nat) : Prop :=
  match kind with
  | AuthorizeGroup reason _ =>
      ∃ m, H !! call = Some (MAuthorize m) ∧ question m = Some (ruleId, reason) ∧
        ar_target m = target ∧ denyReasonForTarget target = Some None
  | ViolationGroup ids _ =>
      ∃ m rule, H !! call = Some (MReview m) ∧ findRuleById o (rv_ruleId m) = Some rule ∧
        rv_ruleId m = ruleId ∧
        ∀ f, In f (rv_findings m) → violationNeedsApproval rule f = true →
          isApprovableFinding f = true ∧
          (In (violationKey ruleId f) ids ∨ approved_violation H (violationKey ruleId f))
  end.

Definition waits_in (H : list Message) (g : PendingGroup) (call : nat) : Prop :=
  waits H (g_kind g) (g_ruleId g) (g_target g) call.

(** What an approval of the group amounts to. *)
Definition group_approved (H : list Message) (g : PendingGroup) : Prop :=
  match g_kind g with
  | AuthorizeGroup reason _ => approved_question H (g_ruleId g) reason (g_target g)
  | ViolationGroup ids _ => ∀ k, In k ids → approved_violation H k
  end.

(** A request with an id raised the question of a key. *)
Definition asked_under (H : list Message) (requestId key : string) : Prop :=
  (∃ m r reason, In (MAuthorize m) H ∧ ar_requestId m = requestId ∧ question m = Some (r, reason) ∧
     key = pendingGroupKey (bo_sessionId o) r reason (ar_target m)) ∨
  (∃ m ids, In (MReview m) H ∧ rv_requestId m = requestId ∧ ids ≠ [] ∧
     (∀ k, In k ids → violates m k) ∧
     key = violationGroupKey (bo_sessionId o) (rv_ruleId m) ids).

Lemma waits_justified H g call :
  waits_in H g call → group_approved H g → justified H call.
Proof.
  unfold waits_in, waits, group_approved, justified. destruct (g_kind g) as [reason ?|ids ?].
  - intros (m & -> & Hq & <- & Hpub) Ha. split; [done|]. unfold question in Hq.
    destruct (decide_message o m) as [d|]; [|done]. cbn in Hq.
    destruct (dec_action d) eqn:Ed; try done. injection Hq as Hr Hre. exists d. split; [done|].
    right. split; [done|]. by rewrite Hr, Hre.
  - intros (m & rule & -> & Hr & Hid & Hf) Ha. exists rule. split; [done|]. intros f Hin Hn.
    destruct (Hf f Hin Hn) as [Hap [Hk|Hk]]; split; try done; rewrite Hid; auto.
Qed.

(** ** More messages change nothing *)

Section More.
Context (h h' : list Message) (Hle : h `prefix_of` h').

Lemma more_In m : In m h → In m h'.
Proof. destruct Hle as [k ->]. intros ?. apply in_app_iff. by left. Qed.

Lemma more_lookup call m : h !! call = Some m → h' !! call = Some m.
Proof. intros Hm. by eapply prefix_lookup_Some. Qed.

Lemma more_approved_question r reason t :
  approved_question h r reason t → approved_question h' r reason t.
Proof. intros (s & m & ? & ? & ?). exists s, m. do 2 (split; [by apply more_In|]). done. Qed.

Lemma more_approved_violation k : approved_violation h k → approved_violation h' k.
Proof. intros (s & m & ? & ? & ?). exists s, m. do 2 (split; [by apply more_In|]). done. Qed.

Lemma more_justified call : justified h call → justified h' call.
Proof.
  unfold justified. destruct (h !! call) as [m|] eqn:E; [|done]. rewrite (more_lookup _ _ E).
  destruct m; try done.
  - intros (? & d & ? & [|[? Ha]]); eauto 10 using more_approved_question.
  - intros (rule & ? & Hf). exists rule. split; [done|]. intros f Hin Hn.
    destruct (Hf f Hin Hn). eauto using more_approved_violation.
Qed.

Lemma more_waits kind r t call : waits h kind r t call → waits h' kind r t call.
Proof.
  unfold waits. destruct kind.
  - intros (m & Hm & ?). exists m. split; [by apply more_lookup|done].
  - intros (m & rule & Hm & Hr & Hi & Hf). exists m, rule. split; [by apply more_lookup|].
    split; [done|]. split; [done|]. intros f Hin Hn. destruct (Hf f Hin Hn) as [? [|]];
      eauto using more_approved_violation.
Qed.

Lemma more_group_approved g : group_approved h g → group_approved h' g.
Proof.
  unfold group_approved. destruct (g_kind g); eauto using more_approved_question.
  intros Ha k Hk. eauto using more_approved_violation.
Qed.

Lemma more_asked_under rid key : asked_under h rid key → asked_under h' rid key.
Proof.
  intros [(m & r & re & Hm & ?)|(m & ids & Hm & ?)]; [left; exists m, r, re|right; exists m, ids];
    (split; [by apply more_In|done]).
Qed.
End More.

(** ** The invariant *)

(** Two states of one group object. *)
Definition same_group (g g' : PendingGroup) : Prop :=
  g_kind g' = g_kind g ∧ g_groupKey g' = g_groupKey g ∧ g_ruleId g' = g_ruleId g ∧
  g_target g' = g_target g ∧ g_allowedScopes g' = g_allowedScopes g.

Definition grown (heap heap' : list PendingGroup) : Prop :=
  ∀ gid g, heap !! gid = Some g → ∃ g', heap' !! gid = Some g' ∧ same_group g g'.

Definition task_ok (h : list Message) (heap : list PendingGroup) (t : Task) : Prop :=
  match t with
  | AfterCreate call gid requestId _ _ =>
      ∃ g, heap !! gid = Some g ∧ waits_in h g call ∧ asked_under h requestId (g_groupKey g)
  | AfterJoin call gid _ => ∃ g, heap !! gid = Some g ∧ waits_in h g call
  | Resolving _ _ _ _ waiter base _ _ =>
      dr_decision base = VerdictAllow → ∀ call, waiter = Some call → justified h call
  | Closing gid base _ _ _ | Answering gid base _ _ _ =>
      ∃ g, heap !! gid = Some g ∧ (dr_decision base = VerdictAllow → group_approved h g)
  | Shutdown => True
  end.

Record Inv (h : list Message) (b : Broker) : Prop := {
  inv_calls : b_calls b = length h;
  inv_heap : ∀ gid g, b_heap b !! gid = Some g →
    group_ok g ∧ ∀ requestId call, In (requestId, call) (g_waiters g) → waits_in h g call;
  inv_groups : ∀ key gid, b_groups b !! key = Some gid →
    ∃ g, b_heap b !! gid = Some g ∧ g_groupKey g = key;
  inv_index : ∀ requestId key, b_requestIndex b !! requestId = Some key →
    asked_under h requestId key;
  inv_tasks : Forall (task_ok h (b_heap b)) (b_tasks b);
  inv_approved : ∀ k, k ∈ b_approved b → ∃ s m r reason,
    In (MApprove (ar_requestId m) (Some (ApprovalScope_string s))) h ∧ In (MAuthorize m) h ∧
    question m = Some (r, reason) ∧ k = approvalKey r reason (ar_target m) s;
  inv_violations : ∀ k, k ∈ b_approvedViolations b → approved_violation h k;
}.

Definition outputs_ok (h : list Message) (outputs : list Output) : Prop :=
  ∀ call d, In (Answer call (RespDecision d)) outputs → dr_decision d = VerdictAllow →
    justified h call.

(** What one segment keeps. *)
Definition keeps (h : list Message) (r : Broker * list Output) : Prop :=
  Inv h r.1 ∧ outputs_ok h r.2.

Lemma same_group_waits h g g' call : same_group g g' → waits_in h g' call ↔ waits_in h g call.
Proof. intros (Hk & _ & Hr & Ht & _). unfold waits_in. by rewrite Hk, Hr, Ht. Qed.

Lemma same_group_approved h g g' : same_group g g' → group_approved h g' ↔ group_approved h g.
Proof. intros (Hk & _ & Hr & Ht & _). unfold group_approved. by rewrite Hk, Hr, Ht. Qed.

Lemma same_group_ok g g' : same_group g g' → group_ok g' ↔ group_ok g.
Proof. intros (Hk & Hg & Hr & Ht & _). unfold group_ok. by rewrite Hk, Hr, Hg, Ht. Qed.

Lemma task_ok_grown h heap heap' t : grown heap heap' → task_ok h heap t → task_ok h heap' t.
Proof.
  intros Hg. destruct t; cbn; try done.
  - intros (g & Hh & Hw & Ha). destruct (Hg _ _ Hh) as (g' & Hh' & Hs). exists g'.
    rewrite (same_group_waits _ _ _ _ Hs). destruct Hs as (_ & -> & _). done.
  - intros (g & Hh & Hw). destruct (Hg _ _ Hh) as (g' & Hh' & Hs). exists g'.
    by rewrite (same_group_waits _ _ _ _ Hs).
  - intros (g & Hh & Hw). destruct (Hg _ _ Hh) as (g' & Hh' & Hs). exists g'.
    by rewrite (same_group_approved _ _ _ Hs).
  - intros (g & Hh & Hw). destruct (Hg _ _ Hh) as (g' & Hh' & Hs). exists g'.
    by rewrite (same_group_approved _ _ _ Hs).
Qed.

Lemma task_ok_more h h' heap t : h `prefix_of` h' → task_ok h heap t → task_ok h' heap t.
Proof.
  intros Hle. destruct t; cbn; try done.
  - intros (g & ? & Hw & Ha). exists g. split_and!; [done|by eapply more_waits|by eapply more_asked_under].
  - intros (g & ? & Hw). exists g. split; [done|by eapply more_waits].
  - intros Hw Hd call Hc. eapply more_justified; eauto.
  - intros (g & ? & Hw). exists g. split; [done|]. intros ?. eapply more_group_approved; eauto.
  - intros (g & ? & Hw). exists g. split; [done|]. intros ?. eapply more_group_approved; eauto.
Qed.

(** ** Parts of a segment *)

Lemma inv_new ttl : Inv [] (new_broker ttl).
Proof. split; cbn; try done; try (constructor); intros *; rewrite ?lookup_empty; set_solver. Qed.

Lemma inv_message h b m :
  Inv h b → Inv (h ++ [m]) (with_calls b (S (b_calls b)) (b_settled b)).
Proof.
  intros [Hc Hh Hg Hi Ht Ha Hv]. assert (h `prefix_of` h ++ [m]) as Hle by by exists [m].
  split; cbn; try done.
  - rewrite length_app, Hc. cbn. lia.
  - intros gid g E. destruct (Hh gid g E) as [? Hw]. split; [done|]. intros rid call Hin.
    eapply more_waits; eauto. by eapply Hw.
  - intros. eapply more_asked_under; eauto.
  - eapply Forall_impl; [exact Ht|]. intros t. by apply task_ok_more.
  - intros k Hk. destruct (Ha k Hk) as (s & m' & r & re & ? & ? & ? & ?). exists s, m', r, re.
    do 2 (split; [apply in_app_iff; by left|]). done.
  - intros. eapply more_approved_violation; eauto.
Qed.

(** The last message of a history. *)
Lemma message_last h b m : Inv h b →
  (h ++ [m]) !! b_calls b = Some m ∧ In m (h ++ [m]).
Proof.
  intros Hi. rewrite (inv_calls _ _ Hi). split; [by apply list_lookup_middle|].
  apply in_app_iff. right. by left.
Qed.

Lemma inv_cache h b c : Inv h b → Inv h (with_cache b c).
Proof. by intros [? ? ? ? ? ? ?]. Qed.

Lemma inv_settled h b settled : Inv h b → Inv h (with_calls b (b_calls b) settled).
Proof. by intros [? ? ? ? ? ? ?]. Qed.

Lemma inv_maps h b groups index :
  Inv h b →
  (∀ key gid, groups !! key = Some gid → b_groups b !! key = Some gid ∨
     ∃ g, b_heap b !! gid = Some g ∧ g_groupKey g = key) →
  (∀ rid key, index !! rid = Some key → b_requestIndex b !! rid = Some key ∨ asked_under h rid key) →
  Inv h (with_maps b groups index).
Proof.
  intros [? ? Hg Hi ? ? ?] Hgroups Hindex. split; cbn; try done.
  - intros key gid Hk. destruct (Hgroups key gid Hk); auto.
  - intros rid key Hk. destruct (Hindex rid key Hk); auto.
Qed.

Lemma inv_suspend h b t : Inv h b → task_ok h (b_heap b) t → Inv h (suspend b t).
Proof.
  intros [? ? ? ? ? ? ?] Ht. split; cbn; try done. apply Forall_app. by repeat constructor.
Qed.

Lemma inv_resume h b i : Inv h b → Inv h (with_tasks b (delete i (b_tasks b))).
Proof. intros [? ? ? ? ? ? ?]. split; cbn; try done. by apply Forall_delete. Qed.

Lemma grown_alter (f : PendingGroup → PendingGroup) gid heap :
  (∀ g, same_group g (f g)) → grown heap (alter f gid heap).
Proof.
  intros Hf i g Hi. destruct (Nat.eq_dec i gid) as [->|Hne].
  - rewrite list_lookup_alter_eq, Hi. eexists. split; [done|apply Hf].
  - rewrite list_lookup_alter_ne by done. exists g. by repeat split.
Qed.

Lemma inv_update h b gid f :
  Inv h b → (∀ g, same_group g (f g)) →
  (∀ g rid call, b_heap b !! gid = Some g → In (rid, call) (g_waiters (f g)) →
     In (rid, call) (g_waiters g) ∨ waits_in h g call) →
  Inv h (update_group b gid f).
Proof.
  intros [? Hh Hg ? Ht ? ?] Hf Hw. pose proof (grown_alter f gid (b_heap b) Hf) as Hgrown.
  split; cbn; try done.
  - intros i g Hi. destruct (Nat.eq_dec i gid) as [->|Hne].
    + rewrite list_lookup_alter_eq in Hi. destruct (b_heap b !! gid) as [g0|] eqn:E; [|done].
      cbn in Hi. injection Hi as <-. destruct (Hh _ _ E) as [Hok Hwait].
      split; [by apply (same_group_ok _ _ (Hf g0))|]. intros rid call Hin.
      apply (same_group_waits _ _ _ _ (Hf g0)). destruct (Hw _ _ _ eq_refl Hin); eauto.
    + rewrite list_lookup_alter_ne in Hi by done. eauto.
  - intros key i Hk. destruct (Hg key i Hk) as (g & Hi & <-).
    destruct (Hgrown _ _ Hi) as (g' & Hi' & _ & Hk' & _). eauto.
  - eapply Forall_impl; [exact Ht|]. intros t. by apply task_ok_grown.
Qed.

Lemma inv_sets h b a d av dv :
  Inv h b →
  (∀ k, k ∈ a → k ∈ b_approved b ∨ ∃ s m r reason,
     In (MApprove (ar_requestId m) (Some (ApprovalScope_string s))) h ∧ In (MAuthorize m) h ∧
     question m = Some (r, reason) ∧ k = approvalKey r reason (ar_target m) s) →
  (∀ k, k ∈ av → k ∈ b_approvedViolations b ∨ approved_violation h k) →
  Inv h (with_sets b a d av dv).
Proof.
  intros [? ? ? ? ? Ha Hv] Hsa Hsv. split; cbn; try done.
  - intros k Hk. destruct (Hsa k Hk); auto.
  - intros k Hk. destruct (Hsv k Hk); auto.
Qed.

Lemma same_group_refl g : same_group g g.
Proof. by repeat split. Qed.

Lemma same_timer t g : same_group g (set_timer t g).
Proof. by repeat split. Qed.

Lemma same_requests r d w g : same_group g (set_requests r d w g).
Proof. by repeat split. Qed.

Lemma keeps_intro h b outs : Inv h b → outputs_ok h outs → keeps h (b, outs).
Proof. by split. Qed.

Lemma outputs_nil h : outputs_ok h [].
Proof. by intros ? ?. Qed.

Lemma outputs_app h l l' : outputs_ok h l → outputs_ok h l' → outputs_ok h (l ++ l').
Proof. intros H1 H2 call d [?|?]%in_app_iff; eauto. Qed.

Lemma outputs_cons h out l :
  match out with Answer _ (RespDecision _) => False | _ => True end →
  outputs_ok h l → outputs_ok h (out :: l).
Proof. intros Ho Hl call d [->|Hin]; [done|eauto]. Qed.

Lemma outputs_audit h env a l : outputs_ok h l → outputs_ok h (audit_then env a l).
Proof.
  intros Hl. unfold audit_then. destruct a; [|done]. destruct (env_ok env); [|apply outputs_nil].
  by apply outputs_cons.
Qed.

Lemma outputs_answer h call d :
  (dr_decision d = VerdictAllow → justified h call) → outputs_ok h (answer call d).
Proof. intros Hj call' d' [[= <- <-]|[]]. done. Qed.

Lemma outputs_ack h ack : outputs_ok h (acknowledge ack).
Proof. destruct ack as [[[c r] v]|]; cbn; [by apply outputs_cons, outputs_nil|apply outputs_nil]. Qed.

Lemma outputs_entry h g request : outputs_ok h (pending_entry o g request).
Proof.
  unfold pending_entry. destruct request, (g_kind g); try apply outputs_nil;
    by apply outputs_cons, outputs_nil.
Qed.

#[local] Hint Resolve outputs_nil outputs_ack outputs_entry outputs_audit outputs_app
  inv_cache inv_settled keeps_intro same_timer same_requests same_group_refl : core.

(** ** Joining and creating groups *)

Lemma keeps_wait h b call gid g requestId :
  Inv h b → b_heap b !! gid = Some g → waits_in h g call →
  keeps h (wait b call gid requestId, []).
Proof.
  intros Hi Hg Hw. apply keeps_intro; [|apply outputs_nil]. apply inv_update; [done|by repeat split|].
  intros g' rid c Hg' Hin. cbn in Hin. rewrite Hg in Hg'. injection Hg' as <-.
  apply map_set_In in Hin. destruct Hin as [[= -> ->]|?]; auto.
Qed.

Lemma keeps_join h b call gid g requestId request decided :
  Inv h b → b_heap b !! gid = Some g → waits_in h g call → asked_under h requestId (g_groupKey g) →
  keeps h (join_group o b call gid g requestId request decided).
Proof.
  intros Hi Hg Hw Ha. unfold join_group.
  destruct (map_has (g_requests g) requestId); [by eapply keeps_wait|].
  apply keeps_intro; [|apply outputs_entry].
  assert (Inv h (update_group b gid (add_request requestId request decided))) as Hi'.
  { apply inv_update; [done|by repeat split|]. intros. by left. }
  destruct (grown_alter (add_request requestId request decided) gid (b_heap b)
    ltac:(by repeat split) _ _ Hg) as (g' & Hg' & Hs).
  apply inv_suspend.
  - apply inv_maps; [done|by left|]. intros rid key. rewrite lookup_insert_Some.
    intros [[<- <-]|[_ ?]]; [by right|by left].
  - cbn. exists g'. split; [done|]. by apply (same_group_waits _ _ _ _ Hs).
Qed.

Lemma keeps_create h b call kind key ruleId target scopes requestId request decided :
  Inv h b →
  group_ok {| g_kind := kind; g_groupKey := key; g_ruleId := ruleId; g_target := target;
              g_allowedScopes := scopes; g_first := requestId; g_requests := [(requestId, request)];
              g_decisions := match decided with Some d => [(requestId, d)] | None => [] end;
              g_waiters := []; g_timer := true |} →
  waits h kind ruleId target call → asked_under h requestId key →
  keeps h (create_group o b call kind key ruleId target scopes requestId request decided).
Proof.
  intros Hi Hok Hw Ha. unfold create_group. set (g := {| g_kind := kind |}) in *.
  apply keeps_intro; [|apply outputs_entry].
  assert (Inv h (with_heap b (b_heap b ++ [g]))) as Hi'.
  { destruct Hi as [? Hh Hg ? Ht ? ?].
    assert (grown (b_heap b) (b_heap b ++ [g])) as Hgr.
    { intros i x Hx. exists x. split; [by apply lookup_app_l_Some|done]. }
    split; cbn; try done.
    - intros i x. rewrite lookup_app_Some. intros [Hx|[_ Hx]]; [eauto|].
      apply list_lookup_singleton_Some in Hx as [_ <-]. by split.
    - intros k i Hk. destruct (Hg k i Hk) as (x & Hx & <-). exists x.
      split; [by apply lookup_app_l_Some|done].
    - eapply Forall_impl; [exact Ht|]. intros t. by apply task_ok_grown. }
  assert (b_heap (with_heap b (b_heap b ++ [g])) !! length (b_heap b) = Some g) as Hlast
    by (cbn; by apply list_lookup_middle).
  apply inv_suspend.
  - apply inv_maps; [done| |].
    + intros k i. rewrite lookup_insert_Some. intros [[<- <-]|[_ ?]]; [right; eauto|by left].
    + intros rid k. rewrite lookup_insert_Some. intros [[<- <-]|[_ ?]]; [by right|by left].
  - cbn. exists g. split_and!; [exact Hlast|done|done].
Qed.

Lemma open_group_Some h b key gid g :
  Inv h b → open_group b key = Some (gid, g) → b_heap b !! gid = Some g ∧ g_groupKey g = key.
Proof.
  intros Hi. unfold open_group, group_at. destruct (b_groups b !! key) as [i|] eqn:Eg; [|done]. cbn.
  destruct (b_heap b !! i) as [x|] eqn:Eh; [|done]. cbn. intros [= <- <-].
  destruct (inv_groups _ _ Hi _ _ Eg) as (y & Hy & ?). split; [done|]. congruence.
Qed.

Lemma findGroup_Some h b requestId gid g :
  Inv h b → findGroupByRequestId b requestId = Some (gid, g) →
  b_heap b !! gid = Some g ∧ asked_under h requestId (g_groupKey g).
Proof.
  intros Hi. unfold findGroupByRequestId.
  destruct (b_requestIndex b !! requestId) as [key|] eqn:E; [|done]. cbn.
  destruct (String.eqb key ""); [done|]. intros Ho. destruct (open_group_Some _ _ _ _ _ Hi Ho) as [? ->].
  split; [done|]. by eapply inv_index.
Qed.

(** ** The policy's part of an answer *)

Lemma applyAgentCredentials_decision d host path cs :
  dr_decision (applyAgentCredentials d host path cs) = dr_decision d.
Proof. unfold applyAgentCredentials. by repeat case_match. Qed.

Lemma decorateAllow_decision cs d decided t c :
  dr_decision (decorateAllow o cs d decided t c) = dr_decision d.
Proof.
  unfold decorateAllow. rewrite applyAgentCredentials_decision. unfold decorateWithPolicy.
  by repeat case_match.
Qed.

Section Plainly.
Context (Hplain : document_plain (bo_document o) = true).

Lemma question_plain m r reason : question m = Some (r, reason) → plain r = true.
Proof.
  unfold question. destruct (decide_message o m) as [d|] eqn:E; [|done]. cbn.
  destruct (dec_action d); try done. intros [= <- <-]. by eapply decide_with_plain.
Qed.

Lemma rule_plain r rule : findRuleById o r = Some rule →
  plain r = true ∧ ∀ reason, r ≠ DecisionReason_string reason.
Proof.
  intros (s & Hs & Hr & <-)%findRuleById_In. by destruct (plain_scope _ Hplain s Hs) as [_ ?]; eauto.
Qed.

(** ** `authorize` *)

Lemma outputs_deny h call rid reason scope : outputs_ok h (answer call (denyDecision rid reason scope)).
Proof. by apply outputs_answer. Qed.

#[local] Hint Resolve outputs_deny : core.

(** An answer remembered for a question. *)
Lemma approved_reused h b r reason t :
  Inv h b → plain r = true →
  existsb (λ key, bool_decide (key ∈ b_approved b)) (approvalKeys r reason t) = true →
  approved_question h r reason t.
Proof.
  intros Hi Hp (k & Hk & Ha%bool_decide_eq_true)%existsb_exists.
  apply approvalKeys_In in Hk as (s & -> & _).
  destruct (inv_approved _ _ Hi _ Ha) as (s' & m & r' & re' & Happ & Hm & Hq & Hkey).
  apply approvalKey_inj in Hkey as (<- & <- & <- & Hc); [|done|by eapply question_plain].
  exists (Some (ApprovalScope_string s)), m. split_and!; [done..|].
  destruct s; cbn in Hc; [left|left|left|right|left]; by symmetry in Hc || split.
Qed.

Lemma keeps_ask h b env call m decided status audit :
  Inv h b → h !! call = Some (MAuthorize m) → In (MAuthorize m) h →
  denyReasonForTarget (ar_target m) = Some None →
  decide_message o m = Some decided → dec_action decided = Review →
  keeps h (ask_people o b env call m decided status audit).
Proof.
  intros Hi Hm Hin Hpub Hd Ha.
  assert (question m = Some (dec_ruleId decided, dec_reason decided)) as Hq.
  { unfold question. rewrite Hd. cbn. by rewrite Ha. }
  pose proof (question_plain _ _ _ Hq) as Hp.
  unfold ask_people. destruct (existsb _ (approvalKeys _ _ _)) eqn:Eden; [auto|].
  destruct (existsb (λ key, bool_decide (key ∈ b_approved b)) _) eqn:Eapp.
  { apply keeps_intro; [done|]. apply outputs_audit, outputs_answer. intros _.
    unfold justified. rewrite Hm. split; [done|]. exists decided. split; [done|]. right. split; [done|].
    by eapply approved_reused. }
  destruct (cache_get _ _ _) as [recent cache]. destruct recent as [[]|]; [auto|].
  assert (asked_under h (ar_requestId m) (pendingGroupKey (bo_sessionId o) (dec_ruleId decided)
    (dec_reason decided) (ar_target m))) as Hask by (left; eauto 10).
  assert (∀ kind, kind = AuthorizeGroup (dec_reason decided)
      (describeInjectHeaders (dec_inject decided) (bo_secretValues o)) →
    keeps h (create_group o (with_cache b cache) call kind
      (pendingGroupKey (bo_sessionId o) (dec_ruleId decided) (dec_reason decided) (ar_target m))
      (dec_ruleId decided) (ar_target m) (approvalScopesFor decided) (ar_requestId m)
      (AuthorizePending m status) (Some decided))) as Hcreate.
  { intros kind ->. apply keeps_create; [auto|by split|by exists m|done]. }
  destruct (open_group (with_cache b cache) _) as [[gid g]|] eqn:Eo; [|by apply Hcreate].
  destruct (is_authorize_group g) eqn:Ek; [|by apply Hcreate].
  apply (open_group_Some h) in Eo as [Hg Hkey]; [|auto].
  apply keeps_join; [auto|done| |by rewrite Hkey].
  destruct (inv_heap _ _ Hi _ _ Hg) as [[Hpg Hok] _]. unfold is_authorize_group in Ek.
  unfold waits_in. destruct (g_kind g) as [reason ?|]; [|done]. rewrite Hkey in Hok.
  apply pendingGroupKey_inj in Hok as (<- & <- & <-); [|done..]. by exists m.
Qed.

Lemma keeps_authorize h b env call m :
  Inv h b → h !! call = Some (MAuthorize m) → In (MAuthorize m) h →
  keeps h (authorize o b env call m).
Proof.
  intros Hi Hm Hin. unfold authorize.
  destruct (denyReasonForTarget (ar_target m)) as [[reason|]|] eqn:Epub; [auto| |auto].
  destruct (isHostOwnedCredentialRefresh _ _ _ _); [auto|].
  destruct (isRevokedCredentialTarget _ _ _); [auto|].
  destruct (decide_message o m) as [decided|] eqn:Ed; [|auto].
  destruct (dec_action decided) eqn:Ea; [| |auto].
  - apply keeps_intro; [done|]. apply outputs_audit, outputs_answer. intros _.
    unfold justified. rewrite Hm. split; [done|]. exists decided. auto.
  - destruct (bo_principal o); [|auto]. by apply keeps_ask.
Qed.

(** ** `reviewViolations` *)

Lemma asked_In rule l f :
  In f (List.filter (violationNeedsApproval rule) l) ↔ In f l ∧ violationNeedsApproval rule f = true.
Proof. apply filter_In. Qed.

Lemma length_zero {A} (l : list A) : (length l =? 0)%nat = false → l ≠ [].
Proof. by destruct l. Qed.

(** The violations of a message without an answer, as identities of a group. *)
Lemma identities_ok m rule ids :
  findRuleById o (rv_ruleId m) = Some rule → ids ≠ [] →
  Forall (λ k, ∃ f, k = violationKey (rv_ruleId m) f) ids →
  group_ok {| g_kind := ViolationGroup ids (rv_findings m);
    g_groupKey := violationGroupKey (bo_sessionId o) (rv_ruleId m) ids; g_ruleId := rv_ruleId m;
    g_target := rv_target m; g_allowedScopes := []; g_first := ""; g_requests := [];
    g_decisions := []; g_waiters := []; g_timer := true |}.
Proof.
  intros Hr Hne Hids. split; [by destruct (rule_plain _ _ Hr)|]. cbn. eauto 10.
Qed.

Lemma identities_shaped r ids : plain r = true →
  Forall (λ k, ∃ f, k = violationKey r f) ids → Forall violation_shaped ids.
Proof.
  intros Hp Hf. eapply Forall_impl; [exact Hf|]. intros k [f ->]. by apply violationKey_shaped.
Qed.

(** Every violation that needs an answer is undecided, or was approved. *)
Lemma review_covered h b m rule :
  let asked := List.filter (violationNeedsApproval rule) (rv_findings m) in
  let undecided := List.filter (λ finding,
    negb (bool_decide (violationKey (rv_ruleId m) finding ∈ b_approvedViolations b))) asked in
  Inv h b → existsb (λ finding, negb (isApprovableFinding finding)) asked = false →
  ∀ f, In f (rv_findings m) → violationNeedsApproval rule f = true →
    isApprovableFinding f = true ∧
    (In (violationKey (rv_ruleId m) f) (map (violationKey (rv_ruleId m)) undecided) ∨
     approved_violation h (violationKey (rv_ruleId m) f)).
Proof.
  intros asked undecided Hi Hap f Hf Hn. rewrite existsb_false in Hap.
  assert (In f asked) as Hfa by by apply asked_In.
  split; [by apply negb_false_iff, Hap|].
  destruct (bool_decide (violationKey (rv_ruleId m) f ∈ b_approvedViolations b)) eqn:E.
  - right. apply (inv_violations _ _ Hi). by apply bool_decide_eq_true in E.
  - left. apply in_map, filter_In. by rewrite E.
Qed.

(** A call that would wait in a new group may wait in the open group of that key. *)
Lemma waits_join h g m findings ids call :
  group_ok g → is_authorize_group g = false → plain (rv_ruleId m) = true → ids ≠ [] →
  Forall (λ k, ∃ f, k = violationKey (rv_ruleId m) f) ids →
  g_groupKey g = violationGroupKey (bo_sessionId o) (rv_ruleId m) ids →
  waits h (ViolationGroup ids findings) (rv_ruleId m) (rv_target m) call → waits_in h g call.
Proof.
  intros [Hpg Hok] Hk Hp Hne Hshape Hkey (m' & rule & Hm & Hr & Hid & Hf).
  unfold is_authorize_group in Hk. unfold waits_in. destruct (g_kind g) as [|ids' ?]; [done|].
  destruct Hok as (Hne' & _ & Hshape' & Hkey'). rewrite Hkey' in Hkey.
  apply violationGroupKey_inj in Hkey as [Hrule Hperm]; [|done..|
    by apply (identities_shaped (g_ruleId g))|by apply (identities_shaped (rv_ruleId m))].
  exists m', rule. split_and!; [done..|congruence|]. intros f Hin Hn.
  destruct (Hf f Hin Hn) as [? [Hx|Hx]]; (split; [done|]); rewrite Hrule; [left|by right].
  apply list_elem_of_In. rewrite Hperm. by apply list_elem_of_In.
Qed.

Lemma keeps_review h b env call m :
  Inv h b → h !! call = Some (MReview m) → In (MReview m) h →
  keeps h (reviewViolations o b env call m).
Proof.
  intros Hi Hm Hin. unfold reviewViolations. destruct (bo_principal o); [|auto].
  destruct (findRuleById o (rv_ruleId m)) as [rule|] eqn:Er; [|by apply keeps_intro; [|apply outputs_cons]].
  destruct (rule_plain _ _ Er) as [Hp Hreason]. pose proof (review_covered h b m rule) as Hall.
  cbv zeta in Hall. set (asked := List.filter (violationNeedsApproval rule) (rv_findings m)) in *.
  destruct (length asked =? 0)%nat; [auto|]. destruct (existsb _ asked) eqn:Eap; [auto|].
  destruct (existsb (λ f, bool_decide (violationKey (rv_ruleId m) f ∈ b_deniedViolations b)) asked);
    [auto|]. set (undecided := List.filter _ asked) in *.
  specialize (Hall Hi eq_refl). destruct (length undecided =? 0)%nat eqn:El.
  { apply keeps_intro; [done|]. apply outputs_audit, outputs_answer. intros _.
    unfold justified. rewrite Hm. exists rule. split; [done|]. intros f Hf Hn.
    destruct (Hall f Hf Hn) as [? [Hx|?]]; [|done]. apply Nat.eqb_eq in El. by destruct undecided. }
  apply length_zero in El. set (ids := map (violationKey (rv_ruleId m)) undecided) in *.
  assert (ids ≠ []) as Hids by by destruct undecided.
  assert (Forall (λ k, ∃ f, k = violationKey (rv_ruleId m) f) ids) as Hshape.
  { apply Forall_forall. intros k Hk%list_elem_of_In. apply in_map_iff in Hk as (f & <- & _). eauto. }
  destruct (cache_get _ _ _) as [recent cache]. destruct recent as [[]|]; [auto|].
  assert (asked_under h (rv_requestId m) (violationGroupKey (bo_sessionId o) (rv_ruleId m) ids)) as Hask.
  { right. exists m, ids. split_and!; [done..| |done]. intros k (f & <- & Hf)%in_map_iff.
    apply filter_In in Hf as [Hf _]. apply asked_In in Hf as [? ?]. exists rule, f. done. }
  assert (waits h (ViolationGroup ids (rv_findings m)) (rv_ruleId m) (rv_target m) call) as Hw
    by (exists m, rule; done).
  destruct (open_group (with_cache b cache) _) as [[gid g]|] eqn:Eo;
    [destruct (is_authorize_group g) eqn:Ek|].
  2:{ apply (open_group_Some h) in Eo as [Hg Hkey]; [|auto]. cbn in Hg.
      apply keeps_join; [auto|done| |by rewrite Hkey].
      eapply waits_join; [by apply (inv_heap _ _ Hi gid)|done..]. }
  all: apply keeps_create; [auto|exact (identities_ok m rule ids Er Hids Hshape)|done|done].
Qed.

(** ** Resolving *)

Lemma keeps_ack h b ack : Inv h b → keeps h (b, acknowledge ack).
Proof. auto. Qed.

Lemma keeps_resolveGroup h b key base outcome neg ack :
  Inv h b → (∀ gid g, open_group b key = Some (gid, g) →
    dr_decision base = VerdictAllow → group_approved h g) →
  keeps h (resolveGroup b key base outcome neg ack).
Proof.
  intros Hi Ha. unfold resolveGroup. destruct (open_group b key) as [[gid g]|] eqn:Eo;
    [|by apply keeps_ack].
  pose proof (open_group_Some _ _ _ _ _ Hi Eo) as [Hg _].
  apply keeps_intro; [|apply outputs_nil]. apply inv_suspend.
  - apply inv_maps; [apply inv_update; [done|auto|by left]| |by left].
    intros k i. rewrite lookup_delete_Some. intros [_ ?]. by left.
  - cbn. destruct (grown_alter (set_timer false) gid (b_heap b) (same_timer false) _ _ Hg)
      as (g' & Hg' & Hs). exists g'. split; [done|]. intros Hd.
    apply (same_group_approved _ _ _ Hs). by eapply Ha.
Qed.

Lemma keeps_resolveRequest h b requestId base outcome ack :
  Inv h b → (∀ gid g, findGroupByRequestId b requestId = Some (gid, g) →
    dr_decision base = VerdictAllow → group_approved h g) →
  keeps h (resolveRequest b requestId base outcome ack).
Proof.
  intros Hi Ha. unfold resolveRequest.
  destruct (findGroupByRequestId b requestId) as [[gid g]|] eqn:Ef; [|by apply keeps_ack].
  pose proof (findGroup_Some _ _ _ _ _ Hi Ef) as [Hg _].
  destruct (map_get (g_requests g) requestId) as [request|]; [|by apply keeps_ack].
  apply keeps_intro; [|apply outputs_nil]. apply inv_suspend.
  - apply inv_update.
    + apply inv_maps; [done| |].
      * intros k i. case_match; [rewrite lookup_delete_Some; intros [_ ?]|]; by left.
      * intros rid k. rewrite lookup_delete_Some. intros [_ ?]. by left.
    + intros g'. by case_match.
    + intros g' rid call _ Hin. left.
      assert (In (rid, call) (map_delete (g_waiters g') requestId)) as Hx by by case_match.
      by eapply map_delete_In.
  - intros Hd call Hw. apply map_get_In in Hw.
    apply (waits_justified _ g); [|by eapply Ha]. by eapply (inv_heap _ _ Hi).
Qed.

Lemma keeps_answer_from h b gid base outcome position ack g :
  Inv h b → b_heap b !! gid = Some g → (dr_decision base = VerdictAllow → group_approved h g) →
  keeps h (answer_from b gid base outcome position ack).
Proof.
  intros Hi Hg Ha. unfold answer_from, group_at. rewrite Hg. cbn.
  destruct (g_requests g !! position) as [[rid request]|]; [|by apply keeps_ack].
  apply keeps_intro; [|apply outputs_nil]. apply inv_suspend; [|cbn; eauto].
  apply inv_maps; [done|by left|]. intros r k. rewrite lookup_delete_Some. intros [_ ?]. by left.
Qed.

(** ** `approve` and `deny` *)

(** The identities a message was asked under. *)
Lemma asked_identities m ids :
  ids ≠ [] → (∀ k, In k ids → violates m k) →
  plain (rv_ruleId m) = true ∧ Forall violation_shaped ids ∧
  ∀ k, In k ids → ∀ r x, k ≠ DecisionReason_string r +:+ NUL +:+ x.
Proof.
  intros Hne Hids.
  assert (plain (rv_ruleId m) = true ∧ ∀ reason, rv_ruleId m ≠ DecisionReason_string reason)
    as [Hp Hreason].
  { destruct ids as [|k ids]; [done|]. destruct (Hids k (or_introl eq_refl)) as (rule & _ & Hr & _).
    by apply (rule_plain _ _ Hr). }
  split_and!; [done| |].
  - apply (identities_shaped (rv_ruleId m)); [done|]. apply Forall_forall.
    intros k Hk%list_elem_of_In. destruct (Hids k Hk) as (? & f & _ & _ & _ & ->). eauto.
  - intros k Hk r x Hx. destruct (Hids k Hk) as (? & f & _ & _ & _ & ->).
    unfold violationKey in Hx. apply nul_component in Hx as [Hx _]; [|done|apply reason_plain].
    by eapply Hreason.
Qed.

(** A message for violations is never asked under the key of a question. *)
Lemma mixed_keys m ids r reason t :
  plain r = true → ids ≠ [] → (∀ k, In k ids → violates m k) →
  pendingGroupKey (bo_sessionId o) r reason t ≠ violationGroupKey (bo_sessionId o) (rv_ruleId m) ids.
Proof.
  intros Hp Hne Hids. destruct (asked_identities m ids Hne Hids) as (? & ? & ?).
  by apply group_keys_disjoint.
Qed.

(** An "approve" message for a request of a group approves the group's question. *)
Lemma approve_approves h b requestId scope gid g :
  Inv h b → In (MApprove requestId scope) h →
  findGroupByRequestId b requestId = Some (gid, g) → group_approved h g.
Proof.
  intros Hi Hin Hf. destruct (findGroup_Some _ _ _ _ _ Hi Hf) as [Hg Hask].
  destruct (inv_heap _ _ Hi _ _ Hg) as [[Hp Hok] _]. unfold group_approved.
  destruct (g_kind g) as [reason ?|ids ?].
  - destruct Hask as [(m & r & re & Hm & <- & Hq & Hkey)|(m & ids & Hm & _ & Hne & Hids & Hkey)];
      rewrite Hok in Hkey.
    + apply pendingGroupKey_inj in Hkey as (<- & <- & Ht); [|done|by eapply question_plain].
      exists scope, m. split_and!; [done..|]. by left.
    + exfalso. by eapply mixed_keys.
  - destruct Hok as (Hne & [rule Hr] & Hshape & Hok).
    destruct Hask as [(m & r & re & Hm & _ & Hq & Hkey)|(m & ids' & Hm & <- & Hne' & Hids & Hkey)];
      rewrite Hok in Hkey.
    + exfalso. destruct (rule_plain _ _ Hr) as [_ Hreason]. symmetry in Hkey.
      eapply group_keys_disjoint; [..|exact Hkey]; [by eapply question_plain|done|done| |].
      * by apply (identities_shaped (g_ruleId g)).
      * intros k Hk%list_elem_of_In r' x Hx. rewrite Forall_forall in Hshape.
        destruct (Hshape k Hk) as [f ->]. unfold violationKey in Hx.
        apply nul_component in Hx as [Hx _]; [|done|apply reason_plain]. by eapply Hreason.
    + destruct (asked_identities m ids' Hne' Hids) as (Hpm & Hs' & _).
      apply violationGroupKey_inj in Hkey as [_ Hperm]; [|done..|by apply (identities_shaped (g_ruleId g))|done].
      intros k Hk. exists scope, m. split_and!; [done..|]. apply Hids.
      apply list_elem_of_In. rewrite <- Hperm. by apply list_elem_of_In.
Qed.

Lemma inv_remember h b g scope outcome gid requestId :
  Inv h b → b_heap b !! gid = Some g → findGroupByRequestId b requestId = Some (gid, g) →
  (outcome = VerdictAllow → In (MApprove requestId (Some (ApprovalScope_string scope))) h) →
  Inv h (remember b g scope outcome).
Proof.
  intros Hi Hg Hf Hin. unfold remember. case_bool_decide; [done|].
  destruct (g_kind g) as [reason ?|ids ?] eqn:Ek.
  - case_bool_decide; [done|]. destruct outcome; apply inv_sets; try done; try (by left);
      [|set_solver].
    intros k. rewrite elem_of_union, elem_of_singleton. intros [->|?]; [right|by left].
    specialize (Hin eq_refl).
    pose proof (approve_approves _ _ _ _ _ _ Hi Hin Hf) as Happ.
    destruct (findGroup_Some _ _ _ _ _ Hi Hf) as [_ Hask].
    destruct (inv_heap _ _ Hi _ _ Hg) as [[Hp Hok] _]. rewrite Ek in Hok.
    destruct Hask as [(m & r & re & Hm & <- & Hq & Hkey)|(m & ids & Hm & _ & Hne & Hids & Hkey)];
      rewrite Hok in Hkey.
    + apply pendingGroupKey_inj in Hkey as (<- & <- & ->); [|done|by eapply question_plain].
      exists scope, m, (g_ruleId g), reason. done.
    + exfalso. by eapply mixed_keys.
  - case_bool_decide as Hs; cbn [negb]; [|done].
    destruct outcome; apply inv_sets; try done; try (by left); [|set_solver].
    intros k. rewrite elem_of_union, elem_of_list_to_set. intros [?|Hk]; [by left|right].
    pose proof (approve_approves _ _ _ _ _ _ Hi (Hin eq_refl) Hf) as Happ.
    unfold group_approved in Happ. rewrite Ek in Happ. by apply Happ, list_elem_of_In.
Qed.

Lemma remember_open b g scope outcome key :
  open_group (remember b g scope outcome) key = open_group b key.
Proof. unfold remember. by repeat case_match. Qed.

Lemma remember_find b g scope outcome requestId :
  findGroupByRequestId (remember b g scope outcome) requestId = findGroupByRequestId b requestId.
Proof. unfold remember. by repeat case_match. Qed.

Lemma findGroup_open h b requestId gid g : Inv h b →
  findGroupByRequestId b requestId = Some (gid, g) → open_group b (g_groupKey g) = Some (gid, g).
Proof.
  intros Hi. unfold findGroupByRequestId.
  destruct (b_requestIndex b !! requestId) as [key|]; [|done]. cbn.
  destruct (String.eqb key ""); [done|]. intros Ho.
  by destruct (open_group_Some _ _ _ _ _ Hi Ho) as [_ ->].
Qed.

Lemma allowed_scope_text g text scope :
  allowed_scope g text = Some scope → ApprovalScope_string scope = text ∧ In scope (g_allowedScopes g).
Proof. unfold allowed_scope. intros [? ?%String.eqb_eq]%find_some. done. Qed.

(** The two methods of `resolve`, after an answer was remembered. *)
Lemma keeps_decided h b g gid requestId scope outcome base once neg ack :
  Inv h b → findGroupByRequestId b requestId = Some (gid, g) →
  (outcome = VerdictAllow → scope ≠ ScopeOnce →
     In (MApprove requestId (Some (ApprovalScope_string scope))) h) →
  (dr_decision base = VerdictAllow → group_approved h g) →
  keeps h (if once : bool then resolveRequest (remember b g scope outcome) requestId base outcome ack
           else resolveGroup (remember b g scope outcome) (g_groupKey g) base outcome neg ack).
Proof.
  intros Hi Hf Hin Ha. destruct (findGroup_Some _ _ _ _ _ Hi Hf) as [Hg _].
  assert (Inv h (remember b g scope outcome)) as Hi'.
  { destruct (bool_decide (scope = ScopeOnce)) eqn:E.
    - unfold remember. by rewrite E.
    - apply bool_decide_eq_false in E. eapply inv_remember; eauto. }
  destruct once; [apply keeps_resolveRequest|apply keeps_resolveGroup]; try done; intros gid' g'.
  - rewrite remember_find, Hf. by intros [= <- <-].
  - rewrite remember_open, (findGroup_open _ _ _ _ _ Hi Hf). by intros [= <- <-].
Qed.

Lemma outputs_other h call response :
  match response with RespDecision _ => False | _ => True end →
  outputs_ok h [Answer call response].
Proof. intros Hr. apply outputs_cons; [by destruct response|apply outputs_nil]. Qed.

Lemma keeps_approve h b call requestId scope :
  Inv h b → In (MApprove requestId scope) h → keeps h (approve b call requestId scope).
Proof.
  intros Hi Hin. unfold approve.
  destruct (findGroupByRequestId b requestId) as [[gid g]|] eqn:Ef;
    [|by apply keeps_intro, outputs_other].
  pose proof (approve_approves _ _ _ _ _ _ Hi Hin Ef) as Ha.
  destruct scope as [text|].
  - destruct (allowed_scope g text) as [s|] eqn:Es; [|by apply keeps_intro, outputs_other].
    apply allowed_scope_text in Es as [<- _]. by apply (keeps_decided h b g gid).
  - by apply (keeps_decided h b g gid).
Qed.

Lemma keeps_deny h b call requestId scope :
  Inv h b → keeps h (deny b call requestId scope).
Proof.
  intros Hi. unfold deny.
  destruct (findGroupByRequestId b requestId) as [[gid g]|] eqn:Ef;
    [|by apply keeps_intro, outputs_other].
  destruct scope as [text|].
  - destruct (allowed_scope g text) as [s|] eqn:Es; [|by apply keeps_intro, outputs_other].
    by apply (keeps_decided h b g gid).
  - by apply keeps_resolveGroup.
Qed.

(** ** Every segment *)

Lemma keeps_settle h b waiter decision :
  Inv h b → (dr_decision decision = VerdictAllow → ∀ call, waiter = Some call → justified h call) →
  keeps h (settle_waiter b waiter decision).
Proof.
  intros Hi Hj. unfold settle_waiter, settle. destruct waiter as [call|]; [|auto].
  destruct (includes (b_settled b) call); [auto|].
  apply keeps_intro; [by apply inv_settled|]. apply outputs_answer. eauto.
Qed.

Lemma settle_waiter_state b waiter decision :
  b_heap (settle_waiter b waiter decision).1 = b_heap b.
Proof. unfold settle_waiter, settle. by repeat case_match. Qed.

Lemma resolution_decision env g requestId request decided base outcome :
  dr_decision (resolution o env g requestId request decided base outcome).1 = dr_decision base.
Proof.
  destruct request, outcome; cbn [resolution fst]; rewrite ?decorateAllow_decision; done.
Qed.

Lemma keeps_handle h b env m :
  Inv h b → keeps (h ++ [m]) (handle o (with_calls b (S (b_calls b)) (b_settled b)) env (b_calls b) m).
Proof.
  intros Hi. destruct (message_last _ _ m Hi) as [Hm Hin]. apply (inv_message _ _ m) in Hi.
  destruct m; cbn [handle].
  - by apply keeps_authorize.
  - by apply keeps_review.
  - by apply keeps_approve.
  - by apply keeps_deny.
  - apply keeps_intro; [done|]. unfold recordRequestPolicyOutcome.
    repeat case_match; repeat first [apply outputs_other; done | apply outputs_cons; [done|]].
Qed.

Lemma keeps_resume h b env t :
  Inv h b → task_ok h (b_heap b) t → keeps h (resume o b env t).
Proof.
  intros Hi Ht. unfold resume. destruct (negb (env_ok env)); [auto|].
  destruct t as [call gid rid request decided|call gid rid|gid rid request decided waiter base v ack
    |gid base v neg ack|gid base v position ack|]; unfold group_at; cbn in Ht.
  - destruct Ht as (g & Hg & Hw & Ha). rewrite Hg. by apply keeps_join.
  - destruct Ht as (g & Hg & Hw). by eapply keeps_wait.
  - destruct (b_heap b !! gid) as [g|]; [|auto].
    pose proof (resolution_decision env g rid request decided base v) as Hd.
    destruct (resolution _ _ _ _ _ _ _ _) as [decision audit]. cbn in Hd.
    destruct (keeps_settle h b waiter decision) as [Hi' Ho']; [done|intros E; apply Ht; congruence|].
    destruct (settle_waiter b waiter decision) as [b' answers]. apply keeps_intro; [done|].
    apply outputs_cons; [done|]. auto.
  - destruct Ht as (g & Hg & Ha). rewrite Hg. apply keeps_answer_from with g; [|by repeat case_match|done].
    repeat case_match; auto.
  - destruct Ht as (g & Hg & Ha). rewrite Hg. cbn [mbind option_bind].
    destruct (g_requests g !! position) as [[rid request]|]; cbn [mbind option_bind]; [|auto].
    pose proof (resolution_decision env g rid request (map_get (g_decisions g) rid) base v) as Hd.
    destruct (resolution _ _ _ _ _ _ _ _) as [decision audit]. cbn in Hd.
    assert (dr_decision decision = VerdictAllow →
      ∀ call, map_get (g_waiters g) rid = Some call → justified h call) as Hj.
    { intros E call Hc%map_get_In. apply (waits_justified _ g); [|apply Ha; congruence].
      by eapply (inv_heap _ _ Hi). }
    destruct (keeps_settle h b _ _ Hi Hj) as [Hi' Ho'].
    pose proof (settle_waiter_state b (map_get (g_waiters g) rid) decision) as Hst.
    destruct (settle_waiter b _ decision) as [b' answers]. cbn in Hi', Ho', Hst. rewrite <- Hst in Hg.
    destruct (keeps_answer_from h b' gid base v (S position) ack g Hi' Hg Ha) as [Hi'' Ho''].
    destruct (answer_from b' gid base v (S position) ack) as [b'' rest].
    apply keeps_intro; [done|]. apply outputs_cons; [done|]. auto.
  - apply keeps_intro; [|auto]. apply inv_cache. apply inv_maps.
    + apply inv_sets; [done|set_solver..].
    + intros ? ?. by rewrite lookup_empty.
    + intros ? ?. by rewrite lookup_empty.
Qed.

(** The segment of `close`. *)
Lemma keeps_close_waiters h b (waiters : list (string * nat)) outputs :
  keeps h (b, outputs) →
  keeps h (fold_left (λ acc waiter,
    let '(b, outputs) := acc in
    let decision := {|
      dr_requestId := waiter.1; dr_decision := VerdictDeny; dr_scope := None;
      dr_reason := "broker closed"; dr_ruleId := None; dr_message := None;
      dr_injectHeaders := None; dr_maskValues := None; dr_forbidValues := None;
      dr_removeHeaders := None |} in
    let '(b, answers) := settle b waiter.2 decision in
    (b, outputs ++ answers)) waiters (b, outputs)).
Proof.
  revert b outputs. induction waiters as [|w waiters IH]; intros b outputs Hk; [done|].
  cbn [fold_left]. unfold settle. destruct Hk as [Hi Ho].
  destruct (includes (b_settled b) w.2); apply IH, keeps_intro.
  - done.
  - auto.
  - by apply inv_settled.
  - apply outputs_app; [done|]. by apply outputs_answer.
Qed.

Lemma keeps_close h b : Inv h b → keeps h (close b).
Proof.
  intros Hi. unfold close. generalize (map_to_list (b_groups b)). intros entries.
  assert (keeps h (b, [])) as Hk by auto. revert Hk. generalize ([] : list Output).
  clear Hi. revert b. induction entries as [|[key gid] entries IH]; intros b outputs [Hi Ho];
    cbn [fold_left].
  - apply keeps_intro; [by apply inv_suspend|done].
  - match goal with |- keeps h (let '(_, _) := fold_left _ _ ?acc in _) =>
      assert (keeps h acc) as Hk; [|destruct acc as [b' outputs']; by apply IH] end.
    apply keeps_close_waiters, keeps_intro; [|done]. apply inv_update; [done|auto|by left].
Qed.

(** The messages of a run, in the order in which they were numbered as calls. *)
Definition messages (events : list (Env * Event)) : list Message :=
  flat_map (λ e, match e.2 with EvMessage m => [m] | _ => [] end) events.

Lemma keeps_step h b env event r :
  Inv h b → step o b env event = Some r → keeps (h ++ messages [(env, event)]) r.
Proof.
  intros Hi. destruct event as [m|i|gid|]; cbn [step messages flat_map app snd];
    rewrite ?app_nil_r.
  - intros [= <-]. by apply keeps_handle.
  - destruct (b_tasks b !! i) as [t|] eqn:Et; cbn [mbind option_bind]; [|done]. intros [= <-].
    apply keeps_resume; [by apply inv_resume|]. pose proof (inv_tasks _ _ Hi) as Ht.
    rewrite Forall_forall in Ht. apply Ht. by eapply list_elem_of_lookup_2.
  - destruct (group_at b gid) as [g|]; cbn [mbind option_bind]; [|done].
    destruct (g_timer g); [|done]. intros [= <-]. apply keeps_resolveGroup; [|done].
    apply inv_update; [done|auto|by left].
  - intros [= <-]. by apply keeps_close.
Qed.

Lemma messages_app l l' : messages (l ++ l') = messages l ++ messages l'.
Proof. apply flat_map_app. Qed.

Lemma outputs_more h h' l : h `prefix_of` h' → outputs_ok h l → outputs_ok h' l.
Proof. intros Hle Hl call d Hin Hd. eapply more_justified; eauto. Qed.

Lemma keeps_run h b events r :
  Inv h b → run o b events = Some r → keeps (h ++ messages events) r.
Proof.
  revert h b r. induction events as [|[env event] events IH]; intros h b r Hi; cbn [run].
  - intros [= <-]. rewrite app_nil_r. auto.
  - destruct (step o b env event) as [[b' outputs]|] eqn:Es; cbn [mbind option_bind]; [|done].
    destruct (keeps_step _ _ _ _ _ Hi Es) as [Hi' Ho'].
    destruct (run o b' events) as [[b'' more]|] eqn:Er; cbn [mbind option_bind]; [|done].
    intros [= <-]. destruct (IH _ _ _ Hi' Er) as [Hi'' Ho''].
    rewrite <- app_assoc, <- messages_app in Hi'', Ho''. apply keeps_intro; [exact Hi''|].
    apply outputs_app; [|exact Ho'']. eapply outputs_more; [|exact Ho'].
    change ((env, event) :: events) with ([(env, event)] ++ events). rewrite messages_app.
    exists (messages events). by rewrite app_assoc.
Qed.
End Plainly.
End Laws.
