(* ===== verification/BrokerProps.v ===== *)
(** * Properties of the session broker

    The promises of the broker, as theorems about its runs, with a sample session
    on which the witnesses evaluate. *)
From S2P Require Import Prelude JsString Json Containment TtlLru AuthzTypes Pattern Relation.
From S2P Require Import Selection Semantics MatchLaws Targets Specificity AuthzConfig Witness.
From S2P Require Import Validate Compile Resolve Decide Samples Base64 IpPolicy Secrets.
From S2P Require Import Protocol Mask Credential Messages Broker BrokerKeys BrokerLaws.

Lemma decorateAllow_requestId o cs d decided t c :
  dr_requestId (decorateAllow o cs d decided t c) = dr_requestId d.
Proof.
  unfold decorateAllow, applyAgentCredentials, decorateWithPolicy. by repeat case_match.
Qed.

(** ** What is remembered *)

Definition remembered (b : Broker) : gset string * gset string * (gset string * gset string) :=
  (b_approved b, b_denied b, (b_approvedViolations b, b_deniedViolations b)).

(** No question is both approved and denied. *)
Definition consistent (b : Broker) : Prop :=
  b_approved b ## b_denied b ∧ b_approvedViolations b ## b_deniedViolations b.

Lemma consistent_same b b' : remembered b' = remembered b → consistent b → consistent b'.
Proof. unfold remembered, consistent. by intros [= -> -> -> ->]. Qed.

Lemma consistent_remember b g scope outcome : consistent b → consistent (remember b g scope outcome).
Proof.
  unfold consistent, remember. intros [? ?].
  repeat case_match; try done; cbn; set_solver.
Qed.

Section Props.
Context {runtime : Runtime} (o : BrokerOptions).

Lemma join_remembered b call gid g rid request decided :
  remembered (join_group o b call gid g rid request decided).1 = remembered b.
Proof. unfold join_group. by case_match. Qed.

Lemma authorize_remembered b env call m : remembered (authorize o b env call m).1 = remembered b.
Proof.
  unfold authorize, ask_people. repeat case_match; try done; by rewrite join_remembered.
Qed.

Lemma review_remembered b env call m : remembered (reviewViolations o b env call m).1 = remembered b.
Proof.
  unfold reviewViolations. repeat case_match; try done; by rewrite join_remembered.
Qed.

Lemma resolveRequest_remembered b rid base outcome ack :
  remembered (resolveRequest b rid base outcome ack).1 = remembered b.
Proof. unfold resolveRequest. by repeat case_match. Qed.

Lemma resolveGroup_remembered b key base outcome neg ack :
  remembered (resolveGroup b key base outcome neg ack).1 = remembered b.
Proof. unfold resolveGroup. by repeat case_match. Qed.

Lemma answer_from_remembered b gid base outcome position ack :
  remembered (answer_from b gid base outcome position ack).1 = remembered b.
Proof. unfold answer_from. by repeat case_match. Qed.

Lemma settle_remembered b waiter d : remembered (settle_waiter b waiter d).1 = remembered b.
Proof. unfold settle_waiter, settle. by repeat case_match. Qed.

Lemma approve_consistent b call rid scope :
  consistent b → consistent (approve b call rid scope).1.
Proof.
  intros Hc. unfold approve. repeat case_match; try done;
    (eapply consistent_same;
      [first [apply resolveRequest_remembered|apply resolveGroup_remembered]
      |first [by apply consistent_remember|done]]).
Qed.

Lemma deny_consistent b call rid scope : consistent b → consistent (deny b call rid scope).1.
Proof.
  intros Hc. unfold deny. repeat case_match; try done;
    (eapply consistent_same;
      [first [apply resolveRequest_remembered|apply resolveGroup_remembered]
      |first [by apply consistent_remember|done]]).
Qed.

Lemma close_waiters_remembered f b (waiters : list (string * nat)) outputs :
  remembered (fold_left (λ acc (waiter : string * nat),
    let '(b, outputs) := acc in
    let '(b, answers) := settle b waiter.2 (f waiter.1) in
    (b, outputs ++ answers : list Output)) waiters (b, outputs)).1 = remembered b.
Proof.
  revert b outputs. induction waiters as [|w waiters IH]; intros b outputs; [done|].
  cbn [fold_left]. unfold settle. destruct (includes (b_settled b) w.2); by rewrite IH.
Qed.

Lemma close_remembered b : remembered (close b).1 = remembered b.
Proof.
  unfold close. generalize (map_to_list (b_groups b)). generalize ([] : list Output). intros outputs entries.
  revert b outputs. induction entries as [|[key gid] entries IH]; intros b outputs; [done|].
  cbn [fold_left].
  match goal with |- context [fold_left _ (from_option _ _ _) ?acc] => 
    pose proof (close_waiters_remembered (λ rid, {|
          dr_requestId := rid; dr_decision := VerdictDeny; dr_scope := None;
          dr_reason := "broker closed"; dr_ruleId := None; dr_message := None;
          dr_injectHeaders := None; dr_maskValues := None; dr_forbidValues := None;
          dr_removeHeaders := None |}) acc.1 (from_option g_waiters [] (group_at b gid)) acc.2) as Hw end.
  cbn [fst snd] in Hw |- *.
  match goal with |- context [fold_left _ (from_option _ _ _) ?acc] => 
    match type of Hw with remembered (?r).1 = _ =>
     change (fold_left _ (from_option g_waiters [] (group_at b gid)) acc) with r; destruct r as [b' outputs'] end end.
  rewrite IH. exact Hw.
Qed.

Lemma step_consistent b env event r : consistent b → step o b env event = Some r → consistent r.1.
Proof.
  intros Hc. destruct event as [m|i|gid|]; cbn [step].
  - intros [= <-]. destruct m; cbn [handle].
    + by eapply consistent_same; [apply authorize_remembered|].
    + by eapply consistent_same; [apply review_remembered|].
    + by apply approve_consistent.
    + by apply deny_consistent.
    + done.
  - destruct (b_tasks b !! i) as [t|]; cbn [mbind option_bind]; [|done]. intros [= <-].
    unfold resume. destruct (negb (env_ok env)); [done|]. destruct t.
    + destruct (group_at _ _); [|done]. by eapply consistent_same; [apply join_remembered|].
    + done.
    + destruct (group_at _ _); [|done]. destruct (resolution _ _ _ _ _ _ _ _) as [d a].
      match goal with |- context [settle_waiter ?b ?w ?d] =>
        pose proof (settle_remembered b w d) as Hs; destruct (settle_waiter b w d) end.
      by eapply consistent_same.
    + destruct (group_at _ _); [|done].
      eapply consistent_same; [apply answer_from_remembered|]. by repeat case_match.
    + destruct (g ← group_at _ _; _) as [[g [rid request]]|]; [|done].
      destruct (resolution _ _ _ _ _ _ _ _) as [d a].
      match goal with |- context [settle_waiter ?b ?w ?d] =>
        pose proof (settle_remembered b w d) as Hs; destruct (settle_waiter b w d) as [b' answers] end.
      match goal with |- context [answer_from ?b ?i ?d ?v ?p ?a] =>
        pose proof (answer_from_remembered b i d v p a) as Ha; destruct (answer_from b i d v p a) end.
      cbn in *. eapply consistent_same; [|exact Hc]. by rewrite Ha, Hs.
    + split; cbn; set_solver.
  - destruct (group_at b gid); cbn [mbind option_bind]; [|done]. destruct (g_timer _); [|done].
    intros [= <-]. by eapply consistent_same; [apply resolveGroup_remembered|].
  - intros [= <-]. by eapply consistent_same; [apply close_remembered|].
Qed.

Lemma run_consistent b events r : consistent b → run o b events = Some r → consistent r.1.
Proof.
  revert b r. induction events as [|[env event] events IH]; intros b r Hc; cbn [run].
  - by intros [= <-].
  - destruct (step o b env event) as [[b' outs]|] eqn:Es; cbn [mbind option_bind]; [|done].
    apply (step_consistent _ _ _ _ Hc) in Es.
    destruct (run o b' events) as [[b'' more]|] eqn:Er; cbn [mbind option_bind]; [|done].
    intros [= <-]. by apply (IH _ _ Es Er).
Qed.

(** ** The loop over a resolved group *)

(** What the loop has done between two states, for the request of an entry. *)
Definition answered (base : DecisionResponse) (g : PendingGroup) (b b' : Broker)
    (outputs : list Output) (requestId : string) : Prop :=
  In (RemoveEntry requestId) outputs ∧ b_requestIndex b' !! requestId = None ∧
  ∀ call, map_get (g_waiters g) requestId = Some call →
    In call (b_settled b') ∧
    (¬ In call (b_settled b) → ∃ d, In (Answer call (RespDecision d)) outputs ∧
       dr_decision d = dr_decision base).

(** What only grows or shrinks. *)
Definition further (b b' : Broker) : Prop :=
  b_heap b' = b_heap b ∧ b_tasks b' = b_tasks b ∧ b_groups b' = b_groups b ∧
  (∀ call, In call (b_settled b) → In call (b_settled b')) ∧
  (∀ rid, b_requestIndex b !! rid = None → b_requestIndex b' !! rid = None).

Lemma settle_further b waiter d :
  let r := settle_waiter b waiter d in
  further b r.1 ∧ ∀ call, waiter = Some call → In call (b_settled r.1) ∧
    (¬ In call (b_settled b) → In (Answer call (RespDecision d)) r.2).
Proof.
  unfold settle_waiter, settle. destruct waiter as [call|].
  - destruct (includes (b_settled b) call) eqn:E; (split; [split_and!; cbn; auto|]); intros ? [= <-].
    + by apply includes_In in E.
    + cbn. auto.
  - by split; [split_and!|].
Qed.

Lemma audit_then_In env audit outputs x : env_ok env = true → In x outputs → In x (audit_then env audit outputs).
Proof. unfold audit_then. intros ->. destruct audit; [by right|done]. Qed.

Lemma run_more events env event b b' outputs :
  step o b env event = Some (b', outputs) →
  run o b ((env, event) :: events) =
  (λ r, (r.1, outputs ++ r.2)) <$> run o b' events.
Proof. intros Hs. cbn [run]. rewrite Hs. cbn. by destruct (run o b' events) as [[? ?]|]. Qed.

Lemma settled_by b waiter d call :
  In call (b_settled (settle_waiter b waiter d).1) →
  In call (b_settled b) ∨ In (Answer call (RespDecision d)) (settle_waiter b waiter d).2.
Proof.
  unfold settle_waiter, settle. destruct waiter as [c|]; [|by left].
  destruct (includes (b_settled b) c); [by left|]. cbn. intros [->|?]; auto.
Qed.

(** The segment that answers one request. *)
Lemma answering_step b env gid g base outcome position ack rid request decision audit :
  env_ok env = true → b_heap b !! gid = Some g → g_requests g !! position = Some (rid, request) →
  resolution o env g rid request (map_get (g_decisions g) rid) base outcome = (decision, audit) →
  let s := settle_waiter b (map_get (g_waiters g) rid) decision in
  let rest := answer_from s.1 gid base outcome (S position) ack in
  step o (suspend b (Answering gid base outcome position ack)) env (EvResume (length (b_tasks b))) =
  Some (rest.1, RemoveEntry rid :: audit_then env audit (s.2 ++ rest.2)).
Proof.
  intros Henv Hg Hr Hres s rest. cbn [step suspend with_tasks b_tasks].
  rewrite list_lookup_middle by done. cbn [mbind option_bind]. f_equal.
  rewrite delete_middle, app_nil_r. unfold resume. rewrite Henv. cbn [negb].
  unfold group_at. replace (b_heap _ !! gid) with (Some g) by done. cbn [mbind option_bind].
  rewrite Hr. cbn [mbind option_bind]. rewrite Hres.
  replace (settle_waiter _ _ _) with s by by destruct b. subst rest.
  destruct s as [b1 answers]. cbn [fst snd]. by destruct (answer_from _ _ _ _ _ _).
Qed.

Lemma answered_more base g b b' outputs more rid :
  answered base g b b' outputs rid → answered base g b b' (outputs ++ more) rid.
Proof.
  intros (H1 & H2 & H3). split_and!; [apply in_app_iff; by left|done|]. intros call Hcall.
  destruct (H3 call Hcall) as [? Hn]. split; [done|]. intros Hnot.
  destruct (Hn Hnot) as (d & ? & ?). exists d. split; [apply in_app_iff; by left|done].
Qed.

(** An answered request stays answered in what follows. *)
Lemma answered_here base g b b1 b' outputs rid waiter decision audit env more :
  env_ok env = true → waiter = map_get (g_waiters g) rid → dr_decision decision = dr_decision base →
  settle_waiter (with_maps b (b_groups b) (delete rid (b_requestIndex b))) waiter decision
    = (b1, outputs) →
  further b1 b' →
  answered base g b b' (RemoveEntry rid :: audit_then env audit (outputs ++ more)) rid.
Proof.
  intros Henv -> Hd Hs (_ & _ & _ & Hset & Hindex).
  destruct (settle_further (with_maps b (b_groups b) (delete rid (b_requestIndex b)))
    (map_get (g_waiters g) rid) decision) as [(_ & _ & _ & _ & Hx) Hw].
  rewrite Hs in Hx, Hw. cbn [fst snd] in Hx, Hw. split_and!; [by left| |].
  - apply Hindex, Hx. cbn. apply lookup_delete_eq.
  - intros call Hcall. destruct (Hw call Hcall) as [Hin Hnew]. split; [by apply Hset|].
    intros Hn. exists decision. split; [|done]. right. apply audit_then_In; [done|].
    apply in_app_iff. left. by apply Hnew.
Qed.

Lemma answered_later base g b waiter decision b0 b' env audit rid rid' more outputs :
  env_ok env = true → dr_decision decision = dr_decision base → b_settled b0 = b_settled b →
  let s := settle_waiter b0 waiter decision in
  answered base g s.1 b' outputs rid →
  answered base g b b' ((RemoveEntry rid' :: audit_then env audit (s.2 ++ more)) ++ outputs) rid.
Proof.
  intros Henv Hd Hb s (H1 & H2 & H3). split_and!; [|done|].
  { apply in_app_iff. by right. }
  intros call Hcall. destruct (H3 call Hcall) as [Hin Hnew]. split; [done|]. intros Hn.
  destruct (In_dec Nat.eq_dec call (b_settled s.1)) as [Hy|Hy].
  - apply settled_by in Hy as [Hy|Hy]; [by rewrite Hb in Hy|]. exists decision. split; [|done].
    apply in_app_iff. left. right. apply audit_then_In; [done|]. apply in_app_iff. by left.
  - destruct (Hnew Hy) as (d & ? & ?). exists d. split; [|done]. apply in_app_iff. by right.
Qed.

Lemma answer_loop env gid g base outcome ack : env_ok env = true →
  ∀ k position b, b_heap b !! gid = Some g → (position + k)%nat = length (g_requests g) →
  let r := answer_from b gid base outcome position ack in
  ∃ b' outputs,
    run o r.1 (repeat (env, EvResume (length (b_tasks b))) k) = Some (b', outputs) ∧
    further b b' ∧
    (∀ i rid request, (position ≤ i)%nat → g_requests g !! i = Some (rid, request) →
       answered base g b b' outputs rid) ∧
    (∀ x, In x (acknowledge ack) → In x (r.2 ++ outputs)).
Proof.
  intros Henv. induction k as [|k IH]; intros position b Hg Hlen r.
  - exists r.1, []. subst r. cbn [repeat run].
    assert (g_requests g !! position = None) as Hn by (apply lookup_ge_None; lia).
    unfold answer_from, group_at. rewrite Hg. cbn [mbind option_bind]. rewrite Hn. cbn [fst snd].
    split_and!; [done|by split_and!| |].
    + intros i rid request Hi Hr. apply lookup_lt_Some in Hr. lia.
    + intros x Hx. by rewrite app_nil_r.
  - destruct (g_requests g !! position) as [[rid request]|] eqn:Hr.
    2:{ apply lookup_ge_None in Hr. lia. }
    set (b0 := with_maps b (b_groups b) (delete rid (b_requestIndex b))).
    assert (r = (suspend b0 (Answering gid base outcome position ack), [])) as ->.
    { subst r. unfold answer_from, group_at. rewrite Hg. cbn [mbind option_bind]. by rewrite Hr. }
    destruct (resolution o env g rid request (map_get (g_decisions g) rid) base outcome)
      as [decision audit] eqn:Eres.
    pose proof (resolution_decision o env g rid request (map_get (g_decisions g) rid) base outcome) as Hd.
    pose proof (answering_step b0 _ _ _ _ _ _ ack _ _ _ _ Henv Hg Hr Eres) as Hstep.
    rewrite Eres in Hd. cbn [fst snd repeat] in *. rewrite (run_more _ _ _ _ _ _ Hstep).
    destruct (settle_further b0 (map_get (g_waiters g) rid) decision) as [(Hh & Ht & Hgr & Hs & Hx) _].
    set (s := settle_waiter b0 _ decision) in *.
    destruct (IH (S position) s.1) as (b' & outputs & Hrun & Hfur & Hans & Hack);
      [by rewrite Hh|lia|].
    rewrite Ht in Hrun. cbn [b_tasks b0 with_maps] in Hrun. rewrite Hrun.
    eexists b', _. split; [done|]. split.
    { destruct Hfur as (Hh' & Ht' & Hgr' & Hs' & Hx').
      split_and!; [by rewrite Hh'|by rewrite Ht'|by rewrite Hgr'|auto|].
      intros r Hn. apply Hx', Hx. cbn. rewrite lookup_delete_None. by right. }
    cbn [fst snd]. split.
    + intros i rid' request' Hi Hr'. destruct (Nat.eq_dec i position) as [->|Hne].
      * rewrite Hr in Hr'. injection Hr' as <- <-.
        apply answered_more, (answered_here base g b s.1 b' s.2 rid (map_get (g_waiters g) rid)
          decision); try done. apply surjective_pairing.
      * apply (answered_later base g b (map_get (g_waiters g) rid) decision b0); try done.
        apply (Hans i rid' request'); [lia|done].
    + intros x Hxin. rewrite app_nil_l. specialize (Hack x Hxin). apply in_app_iff in Hack as [Ha|Ha];
        apply in_app_iff; [left; right|by right].
      apply audit_then_In; [done|]. apply in_app_iff. by right.
Qed.

(** ** The properties *)

Section Plainly.
Context (Hplain : document_plain (bo_document o) = true).

(** A run from a new broker, and an answer in it. *)
Lemma run_answers ttl events b outputs call d :
  run o (new_broker ttl) events = Some (b, outputs) →
  In (Answer call (RespDecision d)) outputs → dr_decision d = VerdictAllow →
  justified o (messages events) call.
Proof.
  intros Hrun Hin Hd. destruct (keeps_run o Hplain [] _ events _ (inv_new o ttl) Hrun) as [_ Ho].
  by eapply Ho.
Qed.
End Plainly.

(** C3.  Only the policy or a person lets a request through.  In every run of a
    new broker, whatever the interleaving of its methods, an "authorize" call is
    answered "allow" only if its target is not a denied address, and the policy's
    decision is "allow", or is "review" and someone approved, by the id of a
    request, that very question: the same rule, the same reason, and the same
    target, or the same host where the approval was for the host. *)
Theorem authorize_allow_justified (ttl : Z) (events : list (Env * Event)) (b : Broker)
    (outputs : list Output) (call : nat) (d : DecisionResponse) (m : AuthorizeRequest) :
  document_plain (bo_document o) = true →
  run o (new_broker ttl) events = Some (b, outputs) →
  messages events !! call = Some (MAuthorize m) →
  In (Answer call (RespDecision d)) outputs → dr_decision d = VerdictAllow →
  denyReasonForTarget (ar_target m) = Some None ∧
  ∃ decided, decide_message o m = Some decided ∧
    (dec_action decided = Allow ∨
     dec_action decided = Review ∧
     ∃ scope m', In (MApprove (ar_requestId m') scope) (messages events) ∧
       In (MAuthorize m') (messages events) ∧
       question o m' = Some (dec_ruleId decided, dec_reason decided) ∧
       (ar_target m' = ar_target m ∨
        scope = Some "host" ∧ ta_host (ar_target m') = ta_host (ar_target m))).
Proof.
  intros Hp Hrun Hm Hin Hd. pose proof (run_answers Hp _ _ _ _ _ _ Hrun Hin Hd) as Hj.
  unfold justified in Hj. by rewrite Hm in Hj.
Qed.

(** C5.  A body that violates an expectation passes only if people said so.  In
    every run, a "request_policy_review" call is answered "allow" only if the rule
    exists and every violation that needs an answer is one that can be approved,
    and someone approved a request of the same rule with a violation of the same
    expectation and the same value. *)
Theorem review_allow_justified (ttl : Z) (events : list (Env * Event)) (b : Broker)
    (outputs : list Output) (call : nat) (d : DecisionResponse) (m : RequestPolicyReviewRequest) :
  document_plain (bo_document o) = true →
  run o (new_broker ttl) events = Some (b, outputs) →
  messages events !! call = Some (MReview m) →
  In (Answer call (RespDecision d)) outputs → dr_decision d = VerdictAllow →
  ∃ rule, findRuleById o (rv_ruleId m) = Some rule ∧
    ∀ f, In f (rv_findings m) → violationNeedsApproval rule f = true →
      isApprovableFinding f = true ∧
      ∃ scope m' f', In (MApprove (rv_requestId m') scope) (messages events) ∧
        In (MReview m') (messages events) ∧ rv_ruleId m' = rv_ruleId m ∧ In f' (rv_findings m') ∧
        vf_expect f' = vf_expect f ∧ vf_value f' = vf_value f.
Proof.
  intros Hp Hrun Hm Hin Hd. pose proof (run_answers Hp _ _ _ _ _ _ Hrun Hin Hd) as Hj.
  unfold justified in Hj. rewrite Hm in Hj. destruct Hj as (rule & Hr & Hf). exists rule.
  split; [done|]. intros f Hfin Hn. destruct (Hf f Hfin Hn) as [? (scope & m' & Ha & Hm' & Hv)].
  split; [done|]. destruct Hv as (rule' & f' & Hr' & Hf' & _ & Hkey).
  apply violationKey_inj in Hkey as (Hid & He & Hv); [|by eapply rule_plain..].
  by exists scope, m', f'.
Qed.

(** An answer and its opposite are never remembered together: in every
    reachable state no question is both approved and denied, and no violation is. *)
Theorem approvals_disjoint (ttl : Z) (events : list (Env * Event)) (b : Broker)
    (outputs : list Output) :
  run o (new_broker ttl) events = Some (b, outputs) →
  b_approved b ## b_denied b ∧ b_approvedViolations b ## b_deniedViolations b.
Proof. intros Hrun. apply (run_consistent (new_broker ttl) events (b, outputs)); [done|exact Hrun]. Qed.

(** C8.  Resolving a group answers everyone who waits in it.  Once `resolveGroup`
    has begun, running it to its end takes as many turns as the group has requests
    and one more; it ends with the group gone, every request of the group without
    its entry and its index, and every waiting call answered with the verdict
    given, unless it had been answered before; then the person is acknowledged. *)
Theorem resolveGroup_answers (b : Broker) (env : Env) (key : string) (gid : nat) (g : PendingGroup)
    (base : DecisionResponse) (outcome : Verdict) (neg : bool) (ack : Ack) :
  open_group b key = Some (gid, g) → env_ok env = true →
  let r := resolveGroup b key base outcome neg ack in
  r.2 = [] ∧
  ∃ b' outputs,
    run o r.1 (repeat (env, EvResume (length (b_tasks b))) (S (length (g_requests g)))) =
      Some (b', outputs) ∧
    b_tasks b' = b_tasks b ∧ open_group b' key = None ∧
    (∀ rid request, In (rid, request) (g_requests g) →
       In (RemoveEntry rid) outputs ∧ b_requestIndex b' !! rid = None ∧
       ∀ call, map_get (g_waiters g) rid = Some call →
         In call (b_settled b') ∧
         (¬ In call (b_settled b) → ∃ d, In (Answer call (RespDecision d)) outputs ∧
            dr_decision d = dr_decision base)) ∧
    (∀ x, In x (acknowledge ack) → In x outputs).
Proof.
  intros Ho Henv. unfold resolveGroup. rewrite Ho. split; [done|]. cbn [fst repeat].
  assert (b_heap b !! gid = Some g) as Hg.
  { unfold open_group, group_at in Ho. destruct (b_groups b !! key) as [i|]; [|done]. cbn in Ho.
    destruct (b_heap b !! i) eqn:E; [|done]. cbn in Ho. by injection Ho as -> ->. }
  set (b0 := with_maps _ _ _). set (b1 := match outcome, neg with
    | VerdictDeny, true => with_cache b0 (cache_set (env_now env) (b_negativeCache b0) (g_groupKey g) ())
    | _, _ => b0 end).
  assert (b_heap b0 !! gid = Some (set_timer false g)) as Hg0
    by (cbn; by rewrite list_lookup_alter_eq, Hg).
  assert (b_heap b1 !! gid = Some (set_timer false g)) as Hg1 by (by destruct outcome, neg).
  assert (b_tasks b1 = b_tasks b ∧ b_groups b1 = delete key (b_groups b) ∧ b_settled b1 = b_settled b)
    as (Htasks & Hgroups & Hsettled) by (by destruct outcome, neg).
  assert (step o (suspend b0 (Closing gid base outcome neg ack)) env (EvResume (length (b_tasks b))) =
    Some (answer_from b1 gid base outcome 0 ack)) as Hstep.
  { cbn [step suspend with_tasks b_tasks b0 with_maps update_group with_heap].
    rewrite list_lookup_middle by done. cbn [mbind option_bind]. f_equal.
    rewrite delete_middle, app_nil_r. unfold resume. rewrite Henv. cbn [negb]. unfold group_at.
    replace (b_heap _ !! gid) with (Some (set_timer false g)) by done. by destruct outcome, neg. }
  destruct (answer_loop env gid (set_timer false g) base outcome ack Henv
    (length (g_requests g)) 0 b1 Hg1 eq_refl) as (b' & outputs & Hrun & Hfur & Hans & Hack).
  rewrite (surjective_pairing (answer_from _ _ _ _ _ _)) in Hstep.
  rewrite (run_more _ _ _ _ _ _ Hstep). rewrite Htasks in Hrun. rewrite Hrun.
  destruct Hfur as (_ & Ht & Hgr & _). eexists b', _. split; [done|]. split; [by rewrite Ht|]. split.
  { unfold open_group. by rewrite Hgr, Hgroups, lookup_delete_eq. }
  split; [|exact Hack]. intros rid request [i Hi]%list_elem_of_In%list_elem_of_lookup.
  destruct (Hans i rid request (Nat.le_0_l i) Hi) as (H1 & H2 & H3).
  split_and!; [apply in_app_iff; by right|done|]. intros call Hc.
  destruct (H3 call Hc) as [? H4]. split; [done|]. rewrite Hsettled in H4. intros Hn.
  destruct (H4 Hn) as (d & ? & ?). exists d. split; [apply in_app_iff; by right|done].
Qed.

(** ** Remembered answers *)

(** An "authorize" message that reaches the question to a person. *)
Definition asks (env : Env) (m : AuthorizeRequest) (d : Decision) : Prop :=
  bo_principal o = PrincipalAgent ∧ denyReasonForTarget (ar_target m) = Some None ∧
  isHostOwnedCredentialRefresh (agentCredentials o env) (ta_host (ar_target m)) (ar_method m)
    (rvc_path <$> ar_reviewContext m) = false ∧
  isRevokedCredentialTarget (agentCredentials o env) (ta_host (ar_target m))
    (rvc_path <$> ar_reviewContext m) = false ∧
  decide_message o m = Some d ∧ dec_action d = Review.

Lemma asks_authorize b env call m d : asks env m d →
  ∃ shouldAudit, authorize o b env call m =
    ask_people o b env call m d (captureRequestBody o env m) shouldAudit.
Proof.
  intros (Hp & Hpub & Hr & Hv & Hd & Ha). unfold authorize. rewrite Hpub, Hr, Hv, Hd, Ha, Hp. eauto.
Qed.

Lemma covers_key ruleId reason t t' scope : covers scope t t' →
  approvalKey ruleId reason t scope = approvalKey ruleId reason t' scope.
Proof. destruct scope; cbn; intros Hc; try by subst. unfold approvalKey. cbn. by rewrite Hc. Qed.

Lemma approvalKeys_complete ruleId reason t scope :
  scope ≠ ScopeOnce → scope ≠ ScopeViolation →
  In (approvalKey ruleId reason t scope) (approvalKeys ruleId reason t).
Proof. unfold approvalKeys. destruct scope; cbn; intros; try done; tauto. Qed.

Lemma allowed_scope_offered g scope : In scope (g_allowedScopes g) →
  allowed_scope g (ApprovalScope_string scope) = Some scope.
Proof.
  unfold allowed_scope. induction (g_allowedScopes g) as [|s l IH]; [done|]. intros Hin. cbn.
  destruct (String.eqb_spec (ApprovalScope_string s) (ApprovalScope_string scope)) as [E|E].
  - by apply ApprovalScope_string_inj in E as ->.
  - destruct Hin as [->|?]; auto. done.
Qed.

(** The key an answer of a group remembers is a key of the covered question. *)
Lemma existsb_key (keys : gset string) g reason scope t key :
  scope ≠ ScopeOnce → scope ≠ ScopeViolation → covers scope (g_target g) t →
  key = approvalKey (g_ruleId g) reason (g_target g) scope → key ∈ keys →
  existsb (λ key, bool_decide (key ∈ keys)) (approvalKeys (g_ruleId g) reason t) = true.
Proof.
  intros Hn Hv Hc -> Hin. apply existsb_exists. eexists. split; [by apply approvalKeys_complete|].
  apply bool_decide_eq_true. by rewrite <- (covers_key _ _ _ _ _ Hc).
Qed.

(** An approval is reused.  After a person approved a request of an
    "authorize" group with an offered scope wider than "once", a request that
    raises the same question for a target the scope covers is answered "allow" at
    once, without a group and without a change of state, as long as none of its
    keys is denied. *)
Theorem approval_reused (b : Broker) (call call' : nat) (requestId : string) (scope : ApprovalScope)
    (gid : nat) (g : PendingGroup) (previews : list InjectHeaderPreview) (env : Env)
    (m : AuthorizeRequest) (d : Decision) :
  findGroupByRequestId b requestId = Some (gid, g) →
  g_kind g = AuthorizeGroup (dec_reason d) previews → In scope (g_allowedScopes g) →
  scope ≠ ScopeOnce → scope ≠ ScopeViolation →
  asks env m d → dec_ruleId d = g_ruleId g → covers scope (g_target g) (ar_target m) →
  let b' := (approve b call requestId (Some (ApprovalScope_string scope))).1 in
  existsb (λ key, bool_decide (key ∈ b_denied b'))
    (approvalKeys (dec_ruleId d) (dec_reason d) (ar_target m)) = false →
  ∃ audit decision, authorize o b' env call' m = (b', audit_then env audit (answer call' decision)) ∧
    dr_decision decision = VerdictAllow ∧ dr_requestId decision = ar_requestId m.
Proof.
  intros Hf Hk Hin Hn Hv Has Hrule Hc b' Hden.
  destruct (asks_authorize b' env call' m d Has) as [au ->]. unfold ask_people. rewrite Hden.
  assert (remembered b' = remembered (remember b g scope VerdictAllow)) as Hrem.
  { subst b'. unfold approve. rewrite Hf, (allowed_scope_offered _ _ Hin).
    rewrite bool_decide_eq_false_2 by done. apply resolveGroup_remembered. }
  injection Hrem as Happ _ _ _. rewrite Hrule.
  rewrite (existsb_key (b_approved b') g (dec_reason d) scope (ar_target m) _ Hn Hv Hc eq_refl).
  - do 2 eexists. split; [done|]. by rewrite decorateAllow_decision, decorateAllow_requestId.
  - rewrite Happ. unfold remember. rewrite Hk, !bool_decide_eq_false_2 by done. cbn. set_solver.
Qed.

(** A denial is reused, over any approval.  After a person denied a request of
    an "authorize" group with an offered scope wider than "once", a request that
    raises the same question for a target the scope covers is denied at once,
    whatever has been approved. *)
Theorem denial_reused (b : Broker) (call call' : nat) (requestId : string) (scope : ApprovalScope)
    (gid : nat) (g : PendingGroup) (previews : list InjectHeaderPreview) (env : Env)
    (m : AuthorizeRequest) (d : Decision) :
  findGroupByRequestId b requestId = Some (gid, g) →
  g_kind g = AuthorizeGroup (dec_reason d) previews → In scope (g_allowedScopes g) →
  scope ≠ ScopeOnce → scope ≠ ScopeViolation →
  asks env m d → dec_ruleId d = g_ruleId g → covers scope (g_target g) (ar_target m) →
  let b' := (deny b call requestId (Some (ApprovalScope_string scope))).1 in
  ∃ audit, authorize o b' env call' m =
    (b', audit_then env audit (answer call' (denyDecision (ar_requestId m) "denied-by-user" None))).
Proof.
  intros Hf Hk Hin Hn Hv Has Hrule Hc b'.
  destruct (asks_authorize b' env call' m d Has) as [au ->]. unfold ask_people. rewrite Hrule.
  assert (remembered b' = remembered (remember b g scope VerdictDeny)) as Hrem.
  { subst b'. unfold deny. rewrite Hf, (allowed_scope_offered _ _ Hin).
    rewrite bool_decide_eq_false_2 by done. apply resolveGroup_remembered. }
  injection Hrem as _ Hden _ _.
  rewrite (existsb_key (b_denied b') g (dec_reason d) scope (ar_target m) _ Hn Hv Hc eq_refl); [eauto|].
  rewrite Hden. unfold remember. rewrite Hk, !bool_decide_eq_false_2 by done. cbn. set_solver.
Qed.
End Props.

(** ** A sample session *)

(** The sample document, with a "review" for violations of the GraphQL rule. *)
Definition reviewing (r : ResolvedRule) : ResolvedRule := {|
  rr_id := rr_id r; rr_key := rr_key r; rr_precedes := rr_precedes r; rr_match := rr_match r;
  rr_onMatch := rr_onMatch r; rr_onIndeterminate := rr_onIndeterminate r;
  rr_expect := map (λ e, {| re_shape := re_shape e; re_onViolation := VioReview |}) (rr_expect r);
  rr_limits := rr_limits r; rr_secrets := rr_secrets r; rr_inject := rr_inject r;
  rr_audit := rr_audit r |}.

Definition session_document : ResolvedDocument := {|
  doc_contractVersion := doc_contractVersion sample_document;
  doc_fallback := doc_fallback sample_document; doc_defaults := doc_defaults sample_document;
  doc_scopes := map (λ s, {|
    rs_name := rs_name s; rs_targets := rs_targets s; rs_fallback := rs_fallback s;
    rs_webSocket := rs_webSocket s; rs_fallbackRuleId := rs_fallbackRuleId s;
    rs_limits := rs_limits s; rs_secrets := rs_secrets s; rs_inject := rs_inject s;
    rs_audit := rs_audit s; rs_rules := map reviewing (rs_rules s) |}) (doc_scopes sample_document) |}.

Definition session : BrokerOptions := {|
  bo_sessionId := "sess_1"; bo_document := session_document; bo_principal := PrincipalAgent;
  bo_secretValues := []; bo_proxyMasking := false; bo_auditDir := true; bo_bodyAudit := false;
  bo_maxBodyBytes := 0 |}.

Definition session_env : Env :=
  {| env_now := 0; env_ok := true; env_credentials := []; env_store := None |}.

Definition session_authorize (requestId host : string) (port : Z) : AuthorizeRequest := {|
  ar_requestId := requestId; ar_sessionId := "sess_1"; ar_principal := None;
  ar_target := {| ta_host := host; ta_port := port |}; ar_method := "GET";
  ar_transport := TransportHttp; ar_requestKind := KindForward;
  ar_observedAt := ""; ar_bodyTruth := [("wide.all", TTrue)]; ar_bodyDiagnostics := [];
  ar_requestBodyCapture := CaptureDisabled;
  ar_reviewContext := Some {| rvc_path := "/x"; rvc_contentType := None; rvc_bodySize := 0 |} |}.

Definition session_finding (value : string) : ViolationFinding := {|
  vf_expect := 0; vf_expectKind := "json"; vf_at := "/query"; vf_kind := SchemaMismatch;
  vf_pointer := "/query"; vf_value := Some value; vf_label := None; vf_excerpt := None;
  vf_count := 1 |}.

Definition session_review (requestId value : string) : RequestPolicyReviewRequest := {|
  rv_requestId := requestId; rv_sessionId := "sess_1"; rv_principal := None;
  rv_ruleId := "api.graphql"; rv_target := sample_address; rv_method := "POST";
  rv_findings := [session_finding value]; rv_reviewContext := None |}.

Definition at_env (events : list Event) : list (Env * Event) := map (pair session_env) events.

(** A request is asked about and approved for its host; another port of the host
    is let through without asking. *)
Definition session_asked : list (Env * Event) := at_env [
  EvMessage (MAuthorize (session_authorize "r1" "www.example.com" 443)); EvResume 0].
Definition session_approved : list (Env * Event) := session_asked ++ at_env [
  EvMessage (MApprove "r1" (Some "host")); EvResume 0; EvResume 0;
  EvMessage (MAuthorize (session_authorize "r2" "www.example.com" 8443))].

(** A violation is asked about and approved; the same value passes again. *)
Definition session_reviewed : list (Env * Event) := at_env [
  EvMessage (MReview (session_review "v1" "a")); EvResume 0;
  EvMessage (MApprove "v1" (Some "violation")); EvResume 0; EvResume 0;
  EvMessage (MReview (session_review "v2" "a"))].

Abbreviation session_run := (@run sample_runtime session (new_broker 30000)).
Definition ended (r : option (Broker * list Output)) : Broker * list Output :=
  default (new_broker 30000, []) r.

Lemma session_plain : document_plain (bo_document session) = true.
Proof. vm_compute. reflexivity. Defined.

(** The answer to a request of the sample session. *)
Definition session_answer (requestId : string) (ruleId : option string) : DecisionResponse := {|
  dr_requestId := requestId; dr_decision := VerdictAllow; dr_scope := None; dr_reason := "approved";
  dr_ruleId := ruleId; dr_message := None; dr_injectHeaders := None; dr_maskValues := None;
  dr_forbidValues := None; dr_removeHeaders := None |}.

Ltac find_in := vm_compute; repeat first [left; reflexivity | right].

Lemma authorize_allow_justified_witness :
  ∃ decided, decide_message session (session_authorize "r2" "www.example.com" 8443) = Some decided.
Proof.
  destruct (@authorize_allow_justified sample_runtime session 30000 session_approved
    (ended (session_run session_approved)).1 (ended (session_run session_approved)).2 2
    (session_answer "r2" (Some "wide.all")) (session_authorize "r2" "www.example.com" 8443)
    session_plain ltac:(vm_compute; reflexivity) ltac:(vm_compute; reflexivity) ltac:(find_in) eq_refl)
    as (_ & decided & Hd & _).
  exists decided. exact Hd.
Defined.

Lemma review_allow_justified_witness :
  ∃ rule, findRuleById session "api.graphql" = Some rule.
Proof.
  destruct (@review_allow_justified sample_runtime session 30000 session_reviewed
    (ended (session_run session_reviewed)).1 (ended (session_run session_reviewed)).2 2
    (session_answer "v2" None) (session_review "v2" "a")
    session_plain ltac:(vm_compute; reflexivity) ltac:(vm_compute; reflexivity) ltac:(find_in) eq_refl)
    as (rule & Hr & _).
  exists rule. exact Hr.
Defined.

Lemma approvals_disjoint_witness :
  b_approved (ended (session_run session_approved)).1 ## b_denied (ended (session_run session_approved)).1.
Proof.
  exact (proj1 (@approvals_disjoint sample_runtime session 30000 session_approved
    (ended (session_run session_approved)).1 (ended (session_run session_approved)).2
    ltac:(vm_compute; reflexivity))).
Defined.

(** The group of the request that was asked about. *)
Definition session_state : Broker := (ended (session_run session_asked)).1.
Definition session_key : string :=
  pendingGroupKey "sess_1" "wide.all" ReasonRule {| ta_host := "www.example.com"; ta_port := 443 |}.
Definition session_group : PendingGroup := Eval vm_compute in
  match open_group session_state session_key with
  | Some (_, g) => g
  | None => {| g_kind := ViolationGroup [] []; g_groupKey := ""; g_ruleId := "";
               g_target := sample_address; g_allowedScopes := []; g_first := ""; g_requests := [];
               g_decisions := []; g_waiters := []; g_timer := false |}
  end.

Lemma resolveGroup_answers_witness : ∃ b' outputs,
  @run sample_runtime session
    (resolveGroup session_state session_key (denyDecision "r1" "prompt-timeout" None) VerdictDeny true None).1
    (repeat (session_env, EvResume 0) 2) = Some (b', outputs) ∧
  ∃ d, In (Answer 0 (RespDecision d)) outputs.
Proof.
  destruct (@resolveGroup_answers sample_runtime session session_state session_env session_key 0
    session_group (denyDecision "r1" "prompt-timeout" None) VerdictDeny true None
    ltac:(vm_compute; reflexivity) eq_refl) as (_ & b' & outputs & Hrun & _ & _ & Hans & _).
  exists b', outputs. split; [exact Hrun|].
  destruct (Hans _ _ ltac:(left; reflexivity)) as (_ & _ & Hw).
  destruct (Hw 0 ltac:(vm_compute; reflexivity)) as [_ Hd].
  destruct (Hd ltac:(vm_compute; intros [])) as (d & Hin & _). exists d. exact Hin.
Defined.

Definition session_decided : Decision := Eval vm_compute in
  match decide_message session (session_authorize "r2" "www.example.com" 8443) with
  | Some d => d
  | None => {| dec_action := Deny; dec_ruleId := ""; dec_reason := ReasonRule; dec_scope := None;
               dec_rule := None; dec_expect := []; dec_inject := []; dec_secrets := [];
               dec_limits := LIMIT_CEILINGS; dec_audit := AuditOff |}
  end.

Lemma session_asks :
  @asks sample_runtime session session_env (session_authorize "r2" "www.example.com" 8443) session_decided.
Proof. split_and!; vm_compute; reflexivity. Defined.

Lemma approval_reused_witness : ∃ audit decision,
  @authorize sample_runtime session (approve session_state 1 "r1" (Some "host")).1 session_env 2
    (session_authorize "r2" "www.example.com" 8443) =
  ((approve session_state 1 "r1" (Some "host")).1, audit_then session_env audit (answer 2 decision)).
Proof.
  destruct (@approval_reused sample_runtime session session_state 1 2 "r1" ScopeHost 0 session_group
    [] session_env (session_authorize "r2" "www.example.com" 8443) session_decided
    ltac:(vm_compute; reflexivity) eq_refl ltac:(find_in) ltac:(discriminate) ltac:(discriminate)
    session_asks eq_refl eq_refl ltac:(vm_compute; reflexivity)) as (audit & decision & H & _).
  exists audit, decision. exact H.
Defined.

Lemma denial_reused_witness : ∃ audit,
  @authorize sample_runtime session (deny session_state 1 "r1" (Some "host")).1 session_env 2
    (session_authorize "r2" "www.example.com" 8443) =
  ((deny session_state 1 "r1" (Some "host")).1,
   audit_then session_env audit (answer 2 (denyDecision "r2" "denied-by-user" None))).
Proof.
  exact (@denial_reused sample_runtime session session_state 1 2 "r1" ScopeHost 0 session_group
    [] session_env (session_authorize "r2" "www.example.com" 8443) session_decided
    ltac:(vm_compute; reflexivity) eq_refl ltac:(find_in) ltac:(discriminate) ltac:(discriminate)
    session_asks eq_refl eq_refl).
Defined.

(** ** A waiter that is never woken

    A person, or the timer, can answer a group while the entry of one of its requests
    is being written.  The loop over the group finds no waiter for that request, and
    the call registers its promise afterwards, in a group that has been resolved:
    nothing is suspended, no group is open, no timer runs, and the call has no
    answer. *)
Definition session_lost : list (Env * Event) := at_env [
  EvMessage (MAuthorize (session_authorize "r1" "www.example.com" 443));
  EvMessage (MDeny "r1" None);
  (* the group is resolved *)
  EvResume 1; EvResume 1;
  (* the writing of the entry ends *)
  EvResume 0].

Definition answers_call (call : nat) (out : Output) : bool :=
  match out with Answer c (RespDecision _) => (c =? call)%nat | _ => false end.

Lemma waiter_lost :
  let '(b, outputs) := ended (session_run session_lost) in
  b_tasks b = [] ∧ map_to_list (b_groups b) = [] ∧ forallb (λ g, negb (g_timer g)) (b_heap b) = true ∧
  existsb (answers_call 0) outputs = false ∧ existsb (λ g, existsb (λ w, w.2 =? 0)%nat (g_waiters g)) (b_heap b) = true.
Proof. vm_compute. repeat split. Qed.
