(* ===== verification/Calendar.v ===== *)
(** * Dates as text

    `Date.prototype.toISOString` by the definitions of ECMAScript (days and years of the
    proleptic Gregorian calendar), and the order of such texts: the stores compare
    times as text. *)
From S2P Require Import Prelude JsString.
From Stdlib Require Import Sorting.Sorted.

#[local] Open Scope Z_scope.

(** ** The calendar *)

Definition msPerDay : Z := 86400000.

(** The first day of a year, 1970-01-01 being day 0. *)
Definition day_from_year (y : Z) : Z :=
  365 * (y - 1970) + (y - 1969) / 4 - (y - 1901) / 100 + (y - 1601) / 400.

(** The year of a day: the estimate is at most one off. *)
Definition year_of_day (d : Z) : Z :=
  let y := 1970 + 400 * d / 146097 in
  if d <? day_from_year y then y - 1 else if day_from_year (y + 1) <=? d then y + 1 else y.

Definition is_leap (y : Z) : bool := day_from_year (y + 1) - day_from_year y =? 366.

(** The day of the year before month [m], counted from 0. *)
Definition month_start (leap : bool) (m : Z) : Z :=
  let l := if leap then 1 else 0 in
  nth (Z.to_nat m) [0; 31; 59 + l; 90 + l; 120 + l; 151 + l; 181 + l; 212 + l; 243 + l; 273 + l; 304 + l; 334 + l] (365 + l).

Definition month_of (leap : bool) (day : Z) : Z :=
  match find (λ m, day <? month_start leap (m + 1)) [0; 1; 2; 3; 4; 5; 6; 7; 8; 9; 10] with
  | Some m => m
  | None => 11
  end.

(** Decimal digits of [v], [n] of them. *)
Fixpoint pad (n : nat) (v : Z) : string :=
  match n with
  | O => ""
  | S n => String (ascii_of_nat (48 + Z.to_nat (v / 10 ^ Z.of_nat n))) (pad n (v mod 10 ^ Z.of_nat n))
  end.

Definition iso_year (y : Z) : string :=
  if (0 <=? y) && (y <=? 9999) then pad 4 y else (if y <? 0 then "-" else "+") +:+ pad 6 (Z.abs y).

Definition iso_date (d : Z) : string :=
  let y := year_of_day d in
  let day := d - day_from_year y in
  let m := month_of (is_leap y) day in
  iso_year y +:+ "-" +:+ pad 2 (m + 1) +:+ "-" +:+ pad 2 (day - month_start (is_leap y) m + 1).

Definition iso_time (ms : Z) : string :=
  pad 2 (ms / 3600000) +:+ ":" +:+ pad 2 (ms mod 3600000 / 60000) +:+ ":" +:+ pad 2 (ms mod 60000 / 1000) +:+ "." +:+
  pad 3 (ms mod 1000) +:+ "Z".

Definition max_time : Z := 8640000000000000.

(** `new Date(t).toISOString()`, [None] for the exception of an invalid date. *)
Definition toISOString (t : Z) : option string :=
  if max_time <? Z.abs t then None else Some (iso_date (t / msPerDay) +:+ "T" +:+ iso_time (t mod msPerDay)).

Example iso_epoch : toISOString 0 = Some "1970-01-01T00:00:00.000Z".
Proof. reflexivity. Qed.
Example iso_leap_day : toISOString 1709251199999 = Some "2024-02-29T23:59:59.999Z".
Proof. reflexivity. Qed.
Example iso_far : toISOString 253402300800000 = Some "+010000-01-01T00:00:00.000Z".
Proof. reflexivity. Qed.
Example iso_before : toISOString (-62167219200001) = Some "-000001-12-31T23:59:59.999Z".
Proof. reflexivity. Qed.

(** ** Laws of the calendar *)

Lemma day_from_year_mono a b : a ≤ b → day_from_year a ≤ day_from_year b.
Proof. unfold day_from_year. intros H. Z.to_euclidean_division_equations. lia. Qed.

Lemma year_of_day_spec d : day_from_year (year_of_day d) ≤ d < day_from_year (year_of_day d + 1).
Proof.
  unfold year_of_day. set (y := 1970 + 400 * d / 146097).
  assert (day_from_year (y - 1) ≤ d < day_from_year (y + 2)) as Hy.
  { unfold day_from_year, y. Z.to_euclidean_division_equations. lia. }
  destruct (Z.ltb_spec d (day_from_year y)); [replace (y - 1 + 1) with y by lia; lia|].
  destruct (Z.leb_spec (day_from_year (y + 1)) d); [replace (y + 1 + 1) with (y + 2) by lia; lia|lia].
Qed.

Lemma year_length y : day_from_year (y + 1) - day_from_year y = 365 ∨ day_from_year (y + 1) - day_from_year y = 366.
Proof. unfold day_from_year. Z.to_euclidean_division_equations. lia. Qed.

Lemma year_length_leap y : day_from_year (y + 1) - day_from_year y = 365 + (if is_leap y then 1 else 0).
Proof. unfold is_leap. destruct (year_length y) as [->| ->]; done. Qed.

Lemma month_start_mono leap a b : a ≤ b → month_start leap a ≤ month_start leap b.
Proof.
  intros H. unfold month_start. assert (Z.to_nat a ≤ Z.to_nat b)%nat as Hn by lia. revert Hn.
  generalize (Z.to_nat a), (Z.to_nat b). clear. intros n m Hn. induction Hn as [|m Hn IH]; [done|].
  etransitivity; [exact IH|]. clear. do 12 (destruct m as [|m]; [destruct leap; cbn; lia|]). destruct leap; by destruct m.
Qed.

Lemma month_of_spec leap day : 0 ≤ day < month_start leap 12 →
  month_start leap (month_of leap day) ≤ day < month_start leap (month_of leap day + 1) ∧ 0 ≤ month_of leap day ≤ 11.
Proof.
  intros H. destruct leap; cbv [month_of find month_start Z.to_nat Pos.to_nat Pos.iter_op Init.Nat.add Z.add Pos.add Pos.succ nth] in H |- *;
  repeat match goal with |- context [?a <? ?b] => destruct (Z.ltb_spec a b); [lia|] end; lia.
Qed.

(** Two values in the steps of a monotone function are compared by their steps, then by
    what is left. *)
Lemma step_compare f m m' x x' :
  (∀ a b, a ≤ b → f a ≤ f b) → f m ≤ x < f (m + 1) → f m' ≤ x' < f (m' + 1) →
  (x ?= x') = match m ?= m' with Eq => x - f m ?= x' - f m' | c => c end.
Proof.
  intros Hf Hx Hx'. destruct (Z.compare_spec m m') as [->|H|H].
  - destruct (Z.compare_spec x x'), (Z.compare_spec (x - f m') (x' - f m')); done || lia.
  - pose proof (Hf (m + 1) m'). apply Z.compare_lt_iff. lia.
  - pose proof (Hf (m' + 1) m). apply Z.compare_gt_iff. lia.
Qed.

Lemma div_compare k x x' : 0 < k →
  (x ?= x') = match x / k ?= x' / k with Eq => x mod k ?= x' mod k | c => c end.
Proof.
  intros Hk. rewrite (step_compare (λ m, k * m) (x / k) (x' / k)).
  - by rewrite !Z.mod_eq by lia.
  - intros a b Hab. nia.
  - pose proof (Z.div_mod x k). pose proof (Z.mod_pos_bound x k). lia.
  - pose proof (Z.div_mod x' k). pose proof (Z.mod_pos_bound x' k). lia.
Qed.

(** ** The order of texts *)

Definition text_lt (a b : string) : bool := match String.compare a b with Lt => true | _ => false end.
Definition text_le (a b : string) : bool := match String.compare a b with Gt => false | _ => true end.

Lemma ascii_compare_refl a : Ascii.compare a a = Eq.
Proof. apply N.compare_refl. Qed.

Lemma text_compare_refl s : String.compare s s = Eq.
Proof. induction s as [|a s IH]; [done|]. cbn. by rewrite ascii_compare_refl. Qed.

Lemma text_compare_cons a s b t :
  String.compare (String a s) (String b t) = match Ascii.compare a b with Eq => String.compare s t | c => c end.
Proof. done. Qed.

Lemma text_compare_app p s t : String.compare (p +:+ s) (p +:+ t) = String.compare s t.
Proof. induction p as [|a p IH]; [done|]. cbn. by rewrite ascii_compare_refl. Qed.

Lemma digit_compare a b : 0 ≤ a ≤ 9 → 0 ≤ b ≤ 9 →
  Ascii.compare (ascii_of_nat (48 + Z.to_nat a)) (ascii_of_nat (48 + Z.to_nat b)) = (a ?= b).
Proof.
  intros Ha Hb. unfold Ascii.compare, ascii_of_nat. rewrite !N_ascii_embedding by lia.
  destruct (N.compare_spec (N.of_nat (48 + Z.to_nat a)) (N.of_nat (48 + Z.to_nat b))), (Z.compare_spec a b); done || lia.
Qed.

(** Numbers of one width are compared as numbers, then what follows them. *)
Lemma pad_compare n s t : ∀ a b, 0 ≤ a < 10 ^ Z.of_nat n → 0 ≤ b < 10 ^ Z.of_nat n →
  String.compare (pad n a +:+ s) (pad n b +:+ t) = match a ?= b with Eq => String.compare s t | c => c end.
Proof.
  induction n as [|n IH]; intros a b Ha Hb.
  - replace (a ?= b) with Eq by (symmetry; apply Z.compare_eq_iff; lia). done.
  - assert (10 ^ Z.of_nat (S n) = 10 * 10 ^ Z.of_nat n) as E by (rewrite <- Z.pow_succ_r by lia; f_equal; lia).
    rewrite E in Ha, Hb. pose proof (Z.pow_pos_nonneg 10 (Z.of_nat n)) as Hp.
    assert (0 < 10 ^ Z.of_nat n) as Hpos by lia. clear Hp E. cbn [pad String.append].
    rewrite text_compare_cons, IH by (apply Z.mod_pos_bound; lia).
    rewrite (div_compare (10 ^ Z.of_nat n) a b) by done. rewrite digit_compare.
    + by destruct (a / 10 ^ Z.of_nat n ?= b / 10 ^ Z.of_nat n).
    + split; [apply Z.div_pos; lia|]. enough (a / 10 ^ Z.of_nat n < 10) by lia. apply Z.div_lt_upper_bound; lia.
    + split; [apply Z.div_pos; lia|]. enough (b / 10 ^ Z.of_nat n < 10) by lia. apply Z.div_lt_upper_bound; lia.
Qed.

Lemma month_start_range leap m : 0 ≤ m ≤ 11 → 28 ≤ month_start leap (m + 1) - month_start leap m ≤ 31.
Proof.
  intros H. assert (m = 0 ∨ m = 1 ∨ m = 2 ∨ m = 3 ∨ m = 4 ∨ m = 5 ∨ m = 6 ∨ m = 7 ∨ m = 8 ∨ m = 9 ∨ m = 10 ∨ m = 11) as Hm by lia.
  repeat destruct Hm as [->|Hm]; try subst m; destruct leap; vm_compute; split; discriminate.
Qed.

(** The year, the month and the day of the month, counted from 0. *)
Definition civil (d : Z) : Z * Z * Z :=
  let y := year_of_day d in
  let day := d - day_from_year y in
  let m := month_of (is_leap y) day in
  (y, m, day - month_start (is_leap y) m).

Lemma civil_range d : let '(y, m, day) := civil d in 0 ≤ m ≤ 11 ∧ 0 ≤ day < 31.
Proof.
  unfold civil. pose proof (year_of_day_spec d) as Hy. pose proof (year_length_leap (year_of_day d)) as Hl.
  destruct (month_of_spec (is_leap (year_of_day d)) (d - day_from_year (year_of_day d))) as [Hm Hr].
  { change (month_start (is_leap (year_of_day d)) 12) with (365 + if is_leap (year_of_day d) then 1 else 0). lia. }
  split; [done|]. pose proof (month_start_range (is_leap (year_of_day d)) _ Hr). lia.
Qed.

Lemma civil_compare d d' :
  let '(y, m, day) := civil d in let '(y', m', day') := civil d' in
  (d ?= d') = match y ?= y' with Eq => match m ?= m' with Eq => day ?= day' | c => c end | c => c end.
Proof.
  unfold civil. pose proof (year_of_day_spec d) as Hy. pose proof (year_of_day_spec d') as Hy'.
  pose proof (year_length_leap (year_of_day d)) as Hl. pose proof (year_length_leap (year_of_day d')) as Hl'.
  rewrite (step_compare day_from_year _ _ d d' day_from_year_mono Hy Hy').
  destruct (Z.compare_spec (year_of_day d) (year_of_day d')) as [Eq|?|?]; [|done|done]. rewrite <- Eq in *.
  apply (step_compare (month_start (is_leap (year_of_day d)))); [apply month_start_mono| |];
    apply month_of_spec; change (month_start (is_leap (year_of_day d)) 12) with (365 + if is_leap (year_of_day d) then 1 else 0); lia.
Qed.

(** The days of the years with four digits. *)
Definition four_digits (d : Z) : Prop := day_from_year 0 ≤ d < day_from_year 10000.

Lemma four_digits_year d : four_digits d → 0 ≤ year_of_day d ≤ 9999.
Proof.
  intros [H0 H1]. pose proof (year_of_day_spec d) as [Hy Hy']. split.
  - destruct (Z.le_gt_cases 0 (year_of_day d)) as [|Hn]; [done|].
    pose proof (day_from_year_mono (year_of_day d + 1) 0 ltac:(lia)). lia.
  - destruct (Z.le_gt_cases (year_of_day d) 9999) as [|Hn]; [done|].
    pose proof (day_from_year_mono 10000 (year_of_day d) ltac:(lia)). lia.
Qed.

Lemma iso_date_civil d : four_digits d →
  iso_date d = let '(y, m, day) := civil d in pad 4 y +:+ "-" +:+ pad 2 (m + 1) +:+ "-" +:+ pad 2 (day + 1).
Proof.
  intros H%four_digits_year. unfold iso_date, iso_year, civil.
  by rewrite (proj2 (andb_true_iff _ _)) by (split; apply Z.leb_le; lia).
Qed.

Lemma shift_compare a b : (a + 1 ?= b + 1) = (a ?= b).
Proof. destruct (Z.compare_spec (a + 1) (b + 1)), (Z.compare_spec a b); done || lia. Qed.

Lemma iso_date_compare d d' s t : four_digits d → four_digits d' →
  String.compare (iso_date d +:+ s) (iso_date d' +:+ t) = match d ?= d' with Eq => String.compare s t | c => c end.
Proof.
  intros Hd Hd'. rewrite !iso_date_civil by done. pose proof (civil_range d) as Hr. pose proof (civil_range d') as Hr'.
  pose proof (civil_compare d d') as Hc. apply four_digits_year in Hd, Hd'.
  assert (∀ x y m day, civil x = (y, m, day) → y = year_of_day x) as Hyear by (unfold civil; naive_solver).
  destruct (civil d) as [[y m] day] eqn:E. destruct (civil d') as [[y' m'] day'] eqn:E'.
  apply Hyear in E, E'. rewrite Hc, !sapp_assoc, pad_compare by (cbn; lia). destruct (y ?= y'); [|done|done].
  rewrite !text_compare_app, pad_compare by (cbn; lia). rewrite shift_compare. destruct (m ?= m'); [|done|done].
  rewrite !text_compare_app, pad_compare by (cbn; lia). by rewrite shift_compare.
Qed.

Lemma iso_time_compare ms ms' : 0 ≤ ms < msPerDay → 0 ≤ ms' < msPerDay →
  String.compare (iso_time ms) (iso_time ms') = (ms ?= ms').
Proof.
  intros H H'. unfold iso_time, msPerDay in *.
  assert (∀ x, 0 ≤ x < 86400000 → 0 ≤ x / 3600000 < 24 ∧ 0 ≤ x mod 3600000 / 60000 < 60 ∧ 0 ≤ x mod 60000 / 1000 < 60 ∧
    0 ≤ x mod 1000 < 1000) as Hr by (intros x Hx; Z.to_euclidean_division_equations; lia).
  destruct (Hr ms H) as (H1 & H2 & H3 & H4), (Hr ms' H') as (H1' & H2' & H3' & H4').
  rewrite pad_compare by (cbn; lia). rewrite (div_compare 3600000 ms ms') by done.
  destruct (ms / 3600000 ?= ms' / 3600000); [|done|done].
  rewrite text_compare_app, pad_compare by (cbn; lia). rewrite (div_compare 60000 (ms mod 3600000)) by done.
  assert (∀ x, (x mod 3600000) mod 60000 = x mod 60000) as Em by (intros x; apply Z.mod_mod_divide; by exists 60).
  assert (∀ x, (x mod 60000) mod 1000 = x mod 1000) as Es by (intros x; apply Z.mod_mod_divide; by exists 60).
  rewrite !Em. destruct (ms mod 3600000 / 60000 ?= ms' mod 3600000 / 60000); [|done|done].
  rewrite text_compare_app, pad_compare by (cbn; lia). rewrite (div_compare 1000 (ms mod 60000)), !Es by done.
  destruct (ms mod 60000 / 1000 ?= ms' mod 60000 / 1000); [|done|done].
  rewrite text_compare_app, pad_compare, text_compare_refl by (cbn; lia). by destruct (ms mod 1000 ?= ms' mod 1000).
Qed.

(** Times of the years 0 to 9999 are ordered as their texts. *)
Definition four_digit_time (t : Z) : Prop := four_digits (t / msPerDay).

Definition iso (t : Z) : string := iso_date (t / msPerDay) +:+ "T" +:+ iso_time (t mod msPerDay).

Lemma toISOString_iso t : four_digit_time t → toISOString t = Some (iso t).
Proof.
  intros H. unfold toISOString. assert (Z.abs t ≤ max_time) as Ht.
  { unfold four_digit_time, four_digits, msPerDay, max_time in *. change (day_from_year 0) with (-719528) in H.
    change (day_from_year 10000) with 2932897 in H. Z.to_euclidean_division_equations. lia. }
  by rewrite (proj2 (Z.ltb_ge _ _) Ht).
Qed.

Lemma iso_compare t t' : four_digit_time t → four_digit_time t' → String.compare (iso t) (iso t') = (t ?= t').
Proof.
  intros H H'. unfold iso. rewrite iso_date_compare by done.
  rewrite (div_compare msPerDay t t') by done. destruct (t / msPerDay ?= t' / msPerDay); [|done|done].
  rewrite text_compare_app. by apply iso_time_compare; apply Z.mod_pos_bound.
Qed.

(** ** Days as bounds *)

Lemma iso_time_first_second ms : 0 ≤ ms < msPerDay →
  String.compare (iso_time ms) "00:00:00Z" = if ms <? 1000 then Lt else Gt.
Proof.
  intros H. unfold iso_time, msPerDay in *. assert (0 ≤ ms / 3600000 < 24 ∧ 0 ≤ ms mod 3600000 / 60000 < 60 ∧
    0 ≤ ms mod 60000 / 1000 < 60) as (H1 & H2 & H3) by (Z.to_euclidean_division_equations; lia).
  change "00:00:00Z" with (pad 2 0 +:+ ":" +:+ pad 2 0 +:+ ":" +:+ pad 2 0 +:+ "Z").
  rewrite pad_compare, text_compare_app, pad_compare, text_compare_app, pad_compare by (cbn; lia).
  destruct (Z.compare_spec (ms / 3600000) 0), (Z.compare_spec (ms mod 3600000 / 60000) 0), (Z.compare_spec (ms mod 60000 / 1000) 0),
    (Z.ltb_spec ms 1000); try done; exfalso; Z.to_euclidean_division_equations; lia.
Qed.

(** The text of the start of a day, as a bound without milliseconds, lies after the
    texts of the first second of the day. *)
Lemma midnight_compare t d : four_digit_time t → four_digits d →
  String.compare (iso t) (iso_date d +:+ "T00:00:00Z") = if t <? d * msPerDay + 1000 then Lt else Gt.
Proof.
  intros Ht Hd. unfold iso. change "T00:00:00Z" with ("T" +:+ "00:00:00Z"). rewrite iso_date_compare by done.
  rewrite text_compare_app, iso_time_first_second by (by apply Z.mod_pos_bound).
  destruct (Z.compare_spec (t / msPerDay) d), (Z.ltb_spec (t mod msPerDay) 1000), (Z.ltb_spec t (d * msPerDay + 1000));
    try done; exfalso; unfold msPerDay in *; Z.to_euclidean_division_equations; lia.
Qed.

(** ** The texts are totally ordered *)

Lemma text_compare_antisym s t : String.compare s t = CompOpp (String.compare t s).
Proof. apply String.compare_antisym. Qed.

Lemma text_compare_eq s t : String.compare s t = Eq → s = t.
Proof. apply String.compare_eq_iff. Qed.

Lemma text_compare_trans c s : ∀ t u, String.compare s t = c → String.compare t u = c → String.compare s u = c.
Proof.
  induction s as [|a s IH]; intros [|b t] [|e u]; cbn; try congruence.
  unfold Ascii.compare. destruct (N.compare_spec (N_of_ascii a) (N_of_ascii b)) as [E1|E1|E1],
    (N.compare_spec (N_of_ascii b) (N_of_ascii e)) as [E2|E2|E2], (N.compare_spec (N_of_ascii a) (N_of_ascii e)) as [E3|E3|E3];
    try lia; try congruence; apply IH.
Qed.

Lemma text_le_trans s t u : text_le s t = true → text_le t u = true → text_le s u = true.
Proof.
  unfold text_le. destruct (String.compare s t) eqn:E1; [|destruct (String.compare t u) eqn:E2|done]; intros H1 H2; try done.
  - by apply text_compare_eq in E1 as ->.
  - apply text_compare_eq in E2 as ->. by rewrite E1.
  - by rewrite (text_compare_trans Lt s t u).
Qed.

Lemma text_le_total s t : text_le s t = true ∨ text_le t s = true.
Proof. unfold text_le. rewrite (text_compare_antisym t s). destruct (String.compare s t); cbn; auto. Qed.

Lemma text_le_antisym s t : text_le s t = true → text_le t s = true → s = t.
Proof.
  unfold text_le. rewrite (text_compare_antisym t s). destruct (String.compare s t) eqn:E; cbn; try done.
  by apply text_compare_eq in E.
Qed.

Lemma text_lt_le s t : text_lt s t = negb (text_le t s).
Proof. unfold text_lt, text_le. rewrite (text_compare_antisym t s). by destruct (String.compare s t). Qed.
