(* ===== verification/AuditStore.v ===== *)
(** * The audit store (audit/store.ts, audit/types.ts)

    The database has two tables: the log of decisions and the retained request bodies.
    A table is the list of its rows, a statement of SQL the function it denotes; texts
    are compared as SQLite does, byte by byte.  An operation is one transaction.  The
    clock is an argument; what JavaScript reads from a text ([date_parse],
    [json_parse]) and the hash are the class [AuditRuntime]. *)
From S2P Require Import Prelude JsString Json Calendar.
From stdpp Require Import sorting.

Class AuditRuntime := {
  (** `Date.parse`, [None] for NaN. *)
  date_parse : string → option Z;
  (** `JSON.parse`, [None] for the exception. *)
  json_parse : string → option JsonValue;
  (** The hexadecimal SHA-256 digest of bytes. *)
  sha256_hex : string → string;
}.

(** ORDER BY: the rows sorted by a test of two rows. *)
Definition test_order {A} (le : A → A → bool) : relation A := λ a b, le a b = true.
#[export] Instance test_order_dec {A} (le : A → A → bool) : RelDecision (test_order le).
Proof. intros a b. unfold test_order. apply _. Defined.
Definition order_by {A} (le : A → A → bool) (l : list A) : list A := merge_sort (test_order le) l.

(** A number that may also be no integer at all. *)
Abbreviation jsnum := (option Z) (only parsing).

Definition MAX_SAFE_INTEGER : Z := 9007199254740991.

(** `Number.isSafeInteger`, with the integer. *)
Definition safe_integer (x : jsnum) : option Z :=
  z ← x; if (Z.abs z <=? MAX_SAFE_INTEGER)%Z then Some z else None.

(** ** Entries and rows *)

Record AuditLogEntry : Type := {
  ae_id : string;
  ae_timestamp : string;
  ae_domain : string;
  ae_sessionId : string;
  ae_requestId : string;
  ae_decision : string;
  ae_reason : string;
  ae_phase : option string;
  ae_ruleId : option string;
  ae_method : option string;
  ae_route : option string;
  ae_path : option string;
  ae_requestPolicyKind : option string;
  ae_requestPolicyResult : option string;
  ae_scope : option string;
  ae_target : option string;
  ae_command : option string;
  ae_injectedHeaders : option JsonValue;
  ae_violations : option JsonValue;
  ae_bodyDiagnostic : option JsonValue;
  ae_requestBodyAuditStatus : option JsonValue;
  ae_principal : option string;
}.

Record AuditLogRow : Type := {
  lr_id : string;
  lr_timestamp : string;
  lr_domain : string;
  lr_session_id : string;
  lr_request_id : string;
  lr_decision : string;
  lr_reason : string;
  lr_phase : option string;
  lr_rule_id : option string;
  lr_method : option string;
  lr_route : option string;
  lr_path : option string;
  lr_request_policy_kind : option string;
  lr_request_policy_result : option string;
  lr_scope : option string;
  lr_target : option string;
  lr_command : option string;
  lr_injected_headers : option string;
  lr_violations : option string;
  lr_body_diagnostic : option string;
  lr_body_audit_status : option string;
  lr_principal : option string;
}.

Record RequestBodyWrite : Type := {
  rw_sessionId : string;
  rw_requestId : string;
  rw_capturedAt : string;
  rw_contentType : option string;
  rw_contentEncoding : option string;
  rw_byteLength : jsnum;
  rw_sha256 : string;
  rw_body : string;
}.

Record RequestBodyStorageLimits : Type := { sl_retentionSeconds : jsnum; sl_maxTotalBytes : jsnum }.

Record RequestBodyRow : Type := {
  br_session_id : string;
  br_request_id : string;
  br_captured_at : string;
  br_expires_at : string;
  br_content_type : option string;
  br_content_encoding : option string;
  br_byte_length : Z;
  br_sha256 : string;
  br_body : string;
}.

Inductive RequestBodyStoreResult : Type :=
  | Attached (byteLength : Z) (sha256 : string)
  | UnavailableCapacity
  | UnavailableInvalidCapture.

Record StoredRequestBody : Type := {
  sb_sessionId : string;
  sb_requestId : string;
  sb_capturedAt : string;
  sb_expiresAt : string;
  sb_contentType : option string;
  sb_contentEncoding : option string;
  sb_byteLength : Z;
  sb_sha256 : string;
  sb_body : string;
}.

Record AuditDb : Type := { db_audit_log : list AuditLogRow; db_request_body : list RequestBodyRow }.

Definition empty_db : AuditDb := {| db_audit_log := []; db_request_body := [] |}.

(** The file of the database, [None] when it does not exist; opening creates it. *)
Definition openDatabase (file : option AuditDb) : AuditDb := default empty_db file.

(** ** The log *)

Definition entry_row (e : AuditLogEntry) : AuditLogRow := {|
  lr_id := ae_id e;
  lr_timestamp := ae_timestamp e;
  lr_domain := ae_domain e;
  lr_session_id := ae_sessionId e;
  lr_request_id := ae_requestId e;
  lr_decision := ae_decision e;
  lr_reason := ae_reason e;
  lr_phase := ae_phase e;
  lr_rule_id := ae_ruleId e;
  lr_method := ae_method e;
  lr_route := ae_route e;
  lr_path := ae_path e;
  lr_request_policy_kind := ae_requestPolicyKind e;
  lr_request_policy_result := ae_requestPolicyResult e;
  lr_scope := ae_scope e;
  lr_target := ae_target e;
  lr_command := ae_command e;
  lr_injected_headers := stringify <$> ae_injectedHeaders e;
  lr_violations := stringify <$> ae_violations e;
  lr_body_diagnostic := stringify <$> ae_bodyDiagnostic e;
  lr_body_audit_status := stringify <$> ae_requestBodyAuditStatus e;
  lr_principal := ae_principal e;
|}.

(** INSERT OR REPLACE on the primary key. *)
Definition appendAuditLog (entry : AuditLogEntry) (file : option AuditDb) : option AuditDb :=
  let db := openDatabase file in
  Some {| db_audit_log :=
            List.filter (λ r, negb (String.eqb (lr_id r) (ae_id entry))) (db_audit_log db) ++ [entry_row entry];
          db_request_body := db_request_body db |}.

(** ** Request bodies *)

Section Bodies.
Context `{AuditRuntime}.

Definition requestBodySha256 (body : string) : string := "sha256:" +:+ sha256_hex body.

(** DELETE FROM request_body WHERE expires_at <= now *)
Definition prune (now : string) (rows : list RequestBodyRow) : list RequestBodyRow :=
  List.filter (λ r, negb (text_le (br_expires_at r) now)) rows.

Definition same_identity (sessionId requestId : string) (r : RequestBodyRow) : bool :=
  String.eqb (br_session_id r) sessionId && String.eqb (br_request_id r) requestId.

Definition total_bytes (rows : list RequestBodyRow) : Z := fold_right (λ r, Z.add (br_byte_length r)) 0%Z rows.

(** ORDER BY captured_at, session_id, request_id *)
Definition body_le (a b : RequestBodyRow) : bool :=
  match String.compare (br_captured_at a) (br_captured_at b) with
  | Lt => true
  | Gt => false
  | Eq =>
      match String.compare (br_session_id a) (br_session_id b) with
      | Lt => true
      | Gt => false
      | Eq => text_le (br_request_id a) (br_request_id b)
      end
  end.

Fixpoint evict (candidates : list RequestBodyRow) (overflow : Z) (rows : list RequestBodyRow) : list RequestBodyRow :=
  match candidates with
  | [] => rows
  | candidate :: candidates =>
      let rows := List.filter (λ r, negb (same_identity (br_session_id candidate) (br_request_id candidate) r)) rows in
      let overflow := (overflow - br_byte_length candidate)%Z in
      if (overflow <=? 0)%Z then rows else evict candidates overflow rows
  end.

(** The transaction of a write. *)
Definition write_body (input : RequestBodyWrite) (byteLength maxTotalBytes : Z) (expiresAt now : string)
    (rows : list RequestBodyRow) : RequestBodyStoreResult * list RequestBodyRow :=
  let rows := prune now rows in
  match List.filter (same_identity (rw_sessionId input) (rw_requestId input)) rows with
  | existing :: _ =>
      if (br_byte_length existing =? byteLength)%Z && String.eqb (br_sha256 existing) (rw_sha256 input)
      then (Attached byteLength (rw_sha256 input), rows)
      else (UnavailableInvalidCapture, rows)
  | [] =>
      if (maxTotalBytes <? byteLength)%Z then (UnavailableCapacity, rows)
      else
        let overflow := (total_bytes rows + byteLength - maxTotalBytes)%Z in
        let rows := if (0 <? overflow)%Z
                    then evict (order_by body_le rows) overflow rows else rows in
        (Attached byteLength (rw_sha256 input),
         rows ++ [{| br_session_id := rw_sessionId input; br_request_id := rw_requestId input;
                     br_captured_at := rw_capturedAt input; br_expires_at := expiresAt;
                     br_content_type := rw_contentType input; br_content_encoding := rw_contentEncoding input;
                     br_byte_length := byteLength; br_sha256 := rw_sha256 input; br_body := rw_body input |}])
  end.

(** The result and the file, [None] when it throws.  [now] is the text of the clock. *)
Definition storeRequestBody (input : RequestBodyWrite) (limits : RequestBodyStorageLimits) (now : string)
    (file : option AuditDb) : option (RequestBodyStoreResult * option AuditDb) :=
  let invalid := Some (UnavailableInvalidCapture, file) in
  match safe_integer (rw_byteLength input) with
  | None => invalid
  | Some byteLength =>
      if (byteLength <? 0)%Z || negb (byteLength =? Z.of_nat (slen (rw_body input)))%Z
         || negb (String.eqb (requestBodySha256 (rw_body input)) (rw_sha256 input))
      then invalid
      else
        match date_parse (rw_capturedAt input) with
        | None => invalid
        | Some capturedAtMs =>
            match safe_integer (sl_retentionSeconds limits), safe_integer (sl_maxTotalBytes limits) with
            | Some retentionSeconds, Some maxTotalBytes =>
                if (retentionSeconds <=? 0)%Z || (maxTotalBytes <=? 0)%Z then None
                else
                  expiresAt ← toISOString (capturedAtMs + retentionSeconds * 1000);
                  let db := openDatabase file in
                  let '(result, rows) := write_body input byteLength maxTotalBytes expiresAt now (db_request_body db) in
                  Some (result, Some {| db_audit_log := db_audit_log db; db_request_body := rows |})
            | _, _ => None
            end
        end
  end.

Definition requestBodyRowToStored (r : RequestBodyRow) : StoredRequestBody := {|
  sb_sessionId := br_session_id r; sb_requestId := br_request_id r; sb_capturedAt := br_captured_at r;
  sb_expiresAt := br_expires_at r; sb_contentType := br_content_type r; sb_contentEncoding := br_content_encoding r;
  sb_byteLength := br_byte_length r; sb_sha256 := br_sha256 r; sb_body := br_body r |}.

Definition getRequestBody (sessionId requestId now : string) (file : option AuditDb) :
    option StoredRequestBody * option AuditDb :=
  match file with
  | None => (None, None)
  | Some db =>
      let rows := prune now (db_request_body db) in
      (requestBodyRowToStored <$> head (List.filter (same_identity sessionId requestId) rows),
       Some {| db_audit_log := db_audit_log db; db_request_body := rows |})
  end.
End Bodies.

(** ** Queries *)

Record AuditLogFilter : Type := {
  af_startDate : option string;
  af_endDate : option string;
  af_before : option string;
  af_sessionIds : option (list string);
  af_sessionContains : option string;
  af_domain : option string;
  af_excludeCommandPrefixes : option (list string);
  af_limit : option jsnum;
}.

Definition normaliseLimit (limit : option jsnum) : option nat :=
  match limit with
  | Some (Some z) => if (z <=? 0)%Z then None else Some (Z.to_nat z)
  | _ => None
  end.

(** A pattern of LIKE with a backslash as its escape character. *)
Inductive LikeToken : Type := AnySequence | AnyOne | Literal (a : ascii) | NoMatch.

Definition backslash : ascii := "\".

Fixpoint like_tokens (pattern : string) : list LikeToken :=
  match pattern with
  | "" => []
  | String a rest =>
      if Ascii.eqb a backslash then
        match rest with
        | "" => [NoMatch]
        | String b rest => Literal b :: like_tokens rest
        end
      else (if Ascii.eqb a "%" then AnySequence else if Ascii.eqb a "_" then AnyOne else Literal a) :: like_tokens rest
  end.

(** ASCII letters match in both cases. *)
Fixpoint like_match (tokens : list LikeToken) (s : string) {struct tokens} : bool :=
  match tokens with
  | [] => String.eqb s ""
  | NoMatch :: _ => false
  | Literal a :: tokens =>
      match s with String b s => Ascii.eqb (lower_char a) (lower_char b) && like_match tokens s | "" => false end
  | AnyOne :: tokens => match s with String _ s => like_match tokens s | "" => false end
  | AnySequence :: tokens =>
      (fix skip (s : string) : bool :=
         like_match tokens s || match s with String _ s => skip s | "" => false end) s
  end.

Definition like (s pattern : string) : bool := like_match (like_tokens pattern) s.

(** `replace(/[\\%_]/g, "\\$&")` *)
Fixpoint escape_like (s : string) : string :=
  match s with
  | "" => ""
  | String a s =>
      if Ascii.eqb a backslash || Ascii.eqb a "%" || Ascii.eqb a "_"
      then String backslash (String a (escape_like s)) else String a (escape_like s)
  end.

Section Query.
Context `{AuditRuntime}.

(** [None] for the exception of an invalid date. *)
Definition nextDay (dateStr : string) : option string :=
  d ← date_parse (dateStr +:+ "T00:00:00Z");
  text ← toISOString (d + msPerDay);
  Some (take_str 10 text).

(** A member of the filter that is absent or empty adds no condition. *)
Definition condition (member : option string) (test : string → AuditLogRow → bool) (r : AuditLogRow) : bool :=
  match member with
  | None | Some "" => true
  | Some value => test value r
  end.

Definition command_excluded (prefix : string) (r : AuditLogRow) : bool :=
  match lr_command r with
  | None => false
  | Some command => like command (escape_like prefix +:+ "%") || like command ("%/" +:+ escape_like prefix +:+ "%")
  end.

(** The rows WHERE keeps; [None] when a date of the filter is invalid. *)
Definition where_rows (filter : AuditLogFilter) : option (AuditLogRow → bool) :=
  endText ← match af_endDate filter with
            | None | Some "" => Some None
            | Some endDate => next ← nextDay endDate; Some (Some (next +:+ "T00:00:00Z"))
            end;
  Some (λ r,
    condition (af_startDate filter) (λ v r, text_le (v +:+ "T00:00:00Z") (lr_timestamp r)) r &&
    match endText with Some text => text_lt (lr_timestamp r) text | None => true end &&
    condition (af_before filter) (λ v r, text_lt (lr_timestamp r) v) r &&
    condition (af_domain filter) (λ v r, String.eqb (lr_domain r) v) r &&
    match af_sessionIds filter with
    | None | Some [] => true
    | Some ids => includes ids (lr_session_id r)
    end &&
    condition (af_sessionContains filter) (λ v r, like (lr_session_id r) ("%" +:+ escape_like v +:+ "%")) r &&
    forallb (λ prefix, negb (command_excluded prefix r)) (default [] (af_excludeCommandPrefixes filter))).

(** ORDER BY timestamp, id *)
Definition log_le (a b : AuditLogRow) : bool :=
  match String.compare (lr_timestamp a) (lr_timestamp b) with
  | Lt => true
  | Gt => false
  | Eq => text_le (lr_id a) (lr_id b)
  end.

(** A column of JSON; [None] for the exception. *)
Definition json_column (text : option string) : option (option JsonValue) :=
  match text with
  | None => Some None
  | Some text => v ← json_parse text; Some (Some v)
  end.

Definition rowToEntry (r : AuditLogRow) : option AuditLogEntry :=
  injectedHeaders ← json_column (lr_injected_headers r);
  violations ← json_column (lr_violations r);
  bodyDiagnostic ← json_column (lr_body_diagnostic r);
  requestBodyAuditStatus ← json_column (lr_body_audit_status r);
  Some {|
    ae_id := lr_id r;
    ae_timestamp := lr_timestamp r;
    ae_domain := lr_domain r;
    ae_sessionId := lr_session_id r;
    ae_requestId := lr_request_id r;
    ae_decision := lr_decision r;
    ae_reason := lr_reason r;
    ae_phase := Some (default "authorization" (lr_phase r));
    ae_ruleId := lr_rule_id r;
    ae_method := lr_method r;
    ae_route := lr_route r;
    ae_path := lr_path r;
    ae_requestPolicyKind := lr_request_policy_kind r;
    ae_requestPolicyResult := lr_request_policy_result r;
    ae_scope := lr_scope r;
    ae_target := lr_target r;
    ae_command := lr_command r;
    ae_injectedHeaders := injectedHeaders;
    ae_violations := violations;
    ae_bodyDiagnostic := bodyDiagnostic;
    ae_requestBodyAuditStatus := requestBodyAuditStatus;
    ae_principal := lr_principal r;
  |}.

Definition select_rows (limit : option nat) (where_ : AuditLogRow → bool) (rows : list AuditLogRow) : list AuditLogRow :=
  match limit with
  | None => order_by log_le (List.filter where_ rows)
  | Some n => rev (take n (order_by (flip log_le) (List.filter where_ rows)))
  end.

Definition queryAuditLogs (filter : AuditLogFilter) (file : option AuditDb) : option (list AuditLogEntry) :=
  match af_sessionIds filter with
  | Some [] => Some []
  | _ =>
      match file with
      | None => Some []
      | Some db =>
          where_ ← where_rows filter;
          mapM rowToEntry (select_rows (normaliseLimit (af_limit filter)) where_ (db_audit_log db))
      end
  end.
End Query.
