(* ===== verification/AuditLaws.v ===== *)
(** * Laws of the audit store: sorting, patterns, tables

    With a runtime for the witnesses: [sample_runtime] reads the dates the store compares;
    its hash is the body itself. *)
From S2P Require Import Prelude JsString Json Calendar AuditStore.
From stdpp Require Import sorting.

(** ** Sorting *)

Section Order.
Context {A : Type} (le : A → A → bool).
Context (Htotal : ∀ a b, le a b = true ∨ le b a = true) (Htrans : ∀ a b c, le a b = true → le b c = true → le a c = true).

#[local] Instance order_total : Total (test_order le).
Proof. exact Htotal. Qed.

#[local] Instance order_trans : Transitive (test_order le).
Proof. exact Htrans. Qed.

Lemma order_by_perm l : order_by le l ≡ₚ l.
Proof. apply merge_sort_Permutation. Qed.

Lemma order_by_In l x : In x (order_by le l) ↔ In x l.
Proof. split; apply Permutation_in; [|symmetry]; apply order_by_perm. Qed.

Lemma order_by_sorted l : StronglySorted (test_order le) (order_by le l).
Proof. by apply StronglySorted_merge_sort. Qed.
End Order.

(** A list has one sorted arrangement if its elements have different keys. *)
Lemma sorted_unique {A} (R : relation A) l : ∀ l',
  l ≡ₚ l' → StronglySorted R l → StronglySorted R l' → (∀ x y, In x l → In y l → R x y → R y x → x = y) → l = l'.
Proof.
  induction l as [|x l IH]; intros l' Hp Hs Hs' Hkey.
  - by apply Permutation_nil_l in Hp as ->.
  - destruct l' as [|y l']; [by apply Permutation_nil_r in Hp|].
    apply StronglySorted_inv in Hs as [Hs Hx], Hs' as [Hs' Hy]. rewrite Forall_forall in Hx, Hy.
    setoid_rewrite list_elem_of_In in Hx. setoid_rewrite list_elem_of_In in Hy.
    assert (x = y) as ->.
    { assert (In x (y :: l')) as Hin by (eapply Permutation_in; [exact Hp|by left]).
      assert (In y (x :: l)) as Hin' by (eapply Permutation_in; [symmetry; exact Hp|by left]).
      destruct Hin as [->|Hin]; [done|]. destruct Hin' as [->|Hin']; [done|].
      apply Hkey; [by left|by right|by apply Hx|by apply Hy]. }
    f_equal. apply IH; [by apply Permutation_cons_inv in Hp|done|done|]. intros a b Ha Hb. apply Hkey; by right.
Qed.

Lemma sorted_impl {A} (R S : relation A) l : (∀ x y, R x y → S x y) → StronglySorted R l → StronglySorted S l.
Proof. intros H. induction 1 as [|x l Hs IH Hx]; constructor; [done|]. eapply Forall_impl; [exact Hx|apply H]. Qed.

Lemma sorted_rev {A} (R : relation A) l : StronglySorted (flip R) l → StronglySorted R (rev l).
Proof.
  induction 1 as [|x l Hs IH Hx]; [constructor|]. cbn [rev]. apply StronglySorted_app. split_and!; [|done|by repeat constructor].
  intros a b Ha Hb. apply list_elem_of_singleton in Hb as ->. rewrite Forall_forall in Hx. apply Hx.
  apply list_elem_of_In, in_rev. by apply list_elem_of_In in Ha.
Qed.

(** ** Patterns *)

Fixpoint chars (s : string) : list ascii := match s with "" => [] | String a s => a :: chars s end.

Lemma tokens_escaped s rest : like_tokens (escape_like s +:+ rest) = map Literal (chars s) ++ like_tokens rest.
Proof.
  induction s as [|a s IH]; [done|]. cbn [escape_like chars map app].
  destruct (Ascii.eqb_spec a backslash) as [->|Hb]; [cbn [orb String.append like_tokens]; by rewrite Ascii.eqb_refl, IH|].
  destruct (Ascii.eqb_spec a "%") as [->|Hp]; [cbn [orb String.append like_tokens]; by rewrite Ascii.eqb_refl, IH|].
  destruct (Ascii.eqb_spec a "_") as [->|Hu]; [cbn [orb String.append like_tokens]; by rewrite Ascii.eqb_refl, IH|].
  cbn [orb String.append like_tokens]. apply Ascii.eqb_neq in Hb, Hp, Hu. by rewrite Hb, Hp, Hu, IH.
Qed.

Lemma like_any tokens s : like_match (AnySequence :: tokens) s = true ↔ ∃ a b, s = a +:+ b ∧ like_match tokens b = true.
Proof.
  cbn [like_match]. induction s as [|c s IH].
  - rewrite orb_false_r. split; [intros H; by exists "", ""|]. intros (a & b & E & H). by destruct a; [cbn in E; subst|].
  - rewrite orb_true_iff, IH. split.
    + intros [H|(a & b & -> & H)]; [by exists "", (String c s)|]. by exists (String c a), b.
    + intros (a & b & E & H). destruct a as [|c' a]; [cbn in E; subst; by left|]. injection E as -> ->. right. eauto.
Qed.

Lemma like_literals v tokens : ∀ s,
  like_match (map Literal (chars v) ++ tokens) s = true ↔
  ∃ m b, s = m +:+ b ∧ toLowerCase m = toLowerCase v ∧ like_match tokens b = true.
Proof.
  induction v as [|c v IH]; intros s; cbn [chars map app].
  - split; [intros H; by exists "", s|]. intros (m & b & -> & Hm & H). by destruct m.
  - cbn [like_match]. destruct s as [|d s].
    + split; [done|]. intros (m & b & E & Hm & H). by destruct m.
    + rewrite andb_true_iff, Ascii.eqb_eq, IH. split.
      * intros (Hc & m & b & -> & Hm & H). exists (String d m), b. split_and!; [done| |done]. cbn. by rewrite Hc, <- Hm.
      * intros (m & b & E & Hm & H). destruct m as [|d' m]; [done|]. injection E as -> ->. cbn in Hm. injection Hm as Hd Hm.
        split; [done|]. eauto.
Qed.

Lemma like_all s : like_match [AnySequence] s = true.
Proof. apply like_any. exists s, "". by rewrite sapp_nil_r. Qed.

(** A text between two `%` is found in any case, anywhere. *)
Definition contains_text (s v : string) : Prop := ∃ a m b, s = a +:+ m +:+ b ∧ toLowerCase m = toLowerCase v.
Definition begins_with_text (s v : string) : Prop := ∃ m b, s = m +:+ b ∧ toLowerCase m = toLowerCase v.

Lemma like_contains s v : like s ("%" +:+ escape_like v +:+ "%") = true ↔ contains_text s v.
Proof.
  unfold like. cbn [String.append]. change (like_tokens (String "%" (escape_like v +:+ "%"))) with
    (AnySequence :: like_tokens (escape_like v +:+ "%")). rewrite tokens_escaped, like_any. split.
  - intros (a & b & -> & H). apply like_literals in H as (m & c & -> & Hm & _). by exists a, m, c.
  - intros (a & m & b & -> & Hm). exists a, (m +:+ b). split; [done|]. apply like_literals. exists m, b. by rewrite like_all.
Qed.

Lemma like_begins s v : like s (escape_like v +:+ "%") = true ↔ begins_with_text s v.
Proof.
  unfold like. rewrite tokens_escaped. change (like_tokens "%") with [AnySequence]. rewrite like_literals. split.
  - intros (m & b & -> & Hm & _). by exists m, b.
  - intros (m & b & -> & Hm). exists m, b. by rewrite like_all.
Qed.

Lemma like_begins_after_slash s v :
  like s ("%/" +:+ escape_like v +:+ "%") = true ↔ ∃ a r, s = a +:+ "/" +:+ r ∧ begins_with_text r v.
Proof.
  unfold like. change (like_tokens ("%/" +:+ escape_like v +:+ "%")) with
    (AnySequence :: (map Literal (chars "/") ++ like_tokens (escape_like v +:+ "%"))).
  rewrite tokens_escaped, like_any. change (like_tokens "%") with [AnySequence]. split.
  - intros (a & b & -> & H). apply like_literals in H as (m & c & -> & Hm & H). apply like_literals in H as (m' & d & -> & Hm' & _).
    exists a, (m' +:+ d). split; [|by exists m', d]. f_equal. f_equal.
    destruct m as [|c [|]]; try done. cbn in Hm. injection Hm as Hm. f_equal. revert Hm. clear.
    destruct c as [[] [] [] [] [] [] [] []]; by vm_compute.
  - intros (a & r & -> & m & b & -> & Hm). exists a, ("/" +:+ m +:+ b). split; [done|]. apply like_literals.
    exists "/", (m +:+ b). split_and!; [done|done|]. apply like_literals. exists m, b. by rewrite like_all.
Qed.

(** ** Retained bodies *)

Definition identity (r : RequestBodyRow) : string * string := (br_session_id r, br_request_id r).

Lemma same_identity_iff sessionId requestId r :
  same_identity sessionId requestId r = true ↔ identity r = (sessionId, requestId).
Proof. unfold same_identity, identity. rewrite andb_true_iff, !String.eqb_eq. split; [by intros [-> ->]|]. intros E. by injection E. Qed.

Lemma body_le_total a b : body_le a b = true ∨ body_le b a = true.
Proof.
  unfold body_le. rewrite (text_compare_antisym (br_captured_at b)), (text_compare_antisym (br_session_id b)).
  destruct (String.compare (br_captured_at a) _); cbn; auto. destruct (String.compare (br_session_id a) _); cbn; auto.
  apply text_le_total.
Qed.

Lemma body_le_trans a b c : body_le a b = true → body_le b c = true → body_le a c = true.
Proof.
  unfold body_le. destruct (String.compare (br_captured_at a) (br_captured_at b)) eqn:E1; [|intros _|done].
  - apply text_compare_eq in E1 as ->. destruct (String.compare (br_captured_at b) _); [|done|done].
    destruct (String.compare (br_session_id a) (br_session_id b)) eqn:E2; [|intros _|done].
    + apply text_compare_eq in E2 as ->. destruct (String.compare (br_session_id b) _); [|done|done]. apply text_le_trans.
    + destruct (String.compare (br_session_id b) (br_session_id c)) eqn:E3; [|intros _|done].
      * apply text_compare_eq in E3 as <-. by rewrite E2.
      * by rewrite (text_compare_trans Lt _ _ _ E2 E3).
  - destruct (String.compare (br_captured_at b) (br_captured_at c)) eqn:E3; [|intros _|done].
    + apply text_compare_eq in E3 as <-. by rewrite E1.
    + by rewrite (text_compare_trans Lt _ _ _ E1 E3).
Qed.

Lemma total_bytes_app l l' : total_bytes (l ++ l') = (total_bytes l + total_bytes l')%Z.
Proof. induction l as [|r l IH]; [done|]. cbn [app total_bytes fold_right]. unfold total_bytes in *. lia. Qed.

Lemma total_bytes_cons r l : total_bytes (r :: l) = (br_byte_length r + total_bytes l)%Z.
Proof. done. Qed.

#[export] Instance total_bytes_proper : Proper ((≡ₚ) ==> eq) total_bytes.
Proof. intros l l' H. induction H; rewrite ?total_bytes_cons; lia. Qed.

(** What holds of the rows at all times: one body per request, and each as long and
    with the hash the row says. *)
Definition sound_row `{AuditRuntime} (r : RequestBodyRow) : Prop :=
  br_byte_length r = Z.of_nat (slen (br_body r)) ∧ br_sha256 r = requestBodySha256 (br_body r).

Record bodies_ok `{AuditRuntime} (rows : list RequestBodyRow) : Prop := {
  ok_unique : List.NoDup (map identity rows);
  ok_sound : ∀ r, In r rows → sound_row r;
}.

Lemma bodies_ok_sublist `{AuditRuntime} rows rows' : rows' `sublist_of` rows → bodies_ok rows → bodies_ok rows'.
Proof.
  intros Hs [Hu Hd]. split.
  - apply NoDup_ListNoDup. apply NoDup_ListNoDup in Hu. eapply sublist_NoDup; [exact Hu|]. by apply fmap_sublist.
  - intros r Hin. apply Hd. apply list_elem_of_In. apply list_elem_of_In in Hin. by eapply elem_of_sublist.
Qed.

Lemma filtered_sublist {A} (f : A → bool) l : List.filter f l `sublist_of` l.
Proof. induction l as [|x l IH]; [done|]. cbn. destruct (f x); by constructor. Qed.

Lemma total_bytes_sublist `{AuditRuntime} rows rows' : bodies_ok rows → rows' `sublist_of` rows →
  (0 ≤ total_bytes rows' ≤ total_bytes rows)%Z.
Proof.
  intros [_ Hd] Hs. induction Hs as [|r l l' Hs IH|r l l' Hs IH]; [done| |]; rewrite ?total_bytes_cons;
    destruct (Hd r) as [-> _]; try (by left); specialize (IH (λ x Hx, Hd x (or_intror Hx))); lia.
Qed.

(** Deleting the rows of a list of candidates, one identity each. *)
Lemma filter_other_identity rows r : List.NoDup (map identity (r :: rows)) →
  List.filter (λ r', negb (same_identity (br_session_id r) (br_request_id r) r')) (r :: rows) = rows.
Proof.
  intros Hnd. apply List.NoDup_cons_iff in Hnd as [Hn _]. cbn [List.filter].
  assert (∀ r', same_identity (br_session_id r) (br_request_id r) r' = true ↔ identity r' = identity r) as Hid
    by (intros r'; apply same_identity_iff).
  rewrite (proj2 (Hid r)) by done. cbn [negb]. induction rows as [|x rows IH]; [done|]. cbn [List.filter].
  destruct (same_identity _ _ x) eqn:E; cbn [negb].
  - apply Hid in E. destruct Hn. rewrite <- E. by left.
  - f_equal. apply IH. intros Hin. apply Hn. by right.
Qed.

Lemma filter_perm {A} (f : A → bool) l l' : l ≡ₚ l' → List.filter f l ≡ₚ List.filter f l'.
Proof.
  induction 1 as [|x l l' _ IH|x y l|l l' l'' _ IH1 _ IH2]; cbn; [constructor| | |by etransitivity].
  - destruct (f x); [by constructor|done].
  - destruct (f x), (f y); [apply perm_swap|done|done|done].
Qed.

(** Evicting the sorted rows removes as many from the front as are needed. *)
Lemma evict_drops `{AuditRuntime} candidates : ∀ rows overflow, bodies_ok rows → rows ≡ₚ candidates →
  (0 < overflow)%Z → (overflow ≤ total_bytes candidates)%Z →
  ∃ k, evict candidates overflow rows `sublist_of` rows ∧ evict candidates overflow rows ≡ₚ drop k candidates ∧
    (overflow ≤ total_bytes (take k candidates))%Z ∧
    (∀ j, (j < k)%nat → (total_bytes (take j candidates) < overflow)%Z).
Proof.
  induction candidates as [|c candidates IH]; intros rows overflow Hok Hp Hpos Hover; [cbn in Hover; lia|].
  cbn [evict]. rewrite total_bytes_cons in Hover.
  set (rows' := List.filter _ rows). assert (rows' ≡ₚ candidates) as Hp'.
  { unfold rows'. rewrite (filter_perm _ _ _ Hp). rewrite filter_other_identity; [done|].
    rewrite <- Hp. apply Hok. }
  assert (rows' `sublist_of` rows) as Hsub by apply filtered_sublist.
  assert (bodies_ok rows') as Hok' by (by eapply bodies_ok_sublist).
  destruct (Z.leb_spec (overflow - br_byte_length c) 0) as [Hle|Hgt].
  - exists 1%nat. cbn [take drop]. split_and!; [done|done|rewrite total_bytes_cons; change (total_bytes (take 0 candidates)) with 0%Z; lia|].
    intros j Hj. replace j with 0%nat by lia. done.
  - destruct (IH rows' (overflow - br_byte_length c)%Z Hok' Hp' ltac:(lia) ltac:(lia)) as (k & Hs & Hd & Hk & Hmin).
    exists (S k). cbn [take drop]. rewrite total_bytes_cons. split_and!; [by etransitivity|done|lia|].
    intros [|j] Hj; [done|]. cbn [take]. rewrite total_bytes_cons. specialize (Hmin j ltac:(lia)). lia.
Qed.

(** ** A runtime and sample data *)

#[local] Open Scope Z_scope.

Fixpoint read_digits (acc : Z) (s : string) : Z :=
  match s with
  | "" => acc
  | String a s => read_digits (10 * acc + (Z.of_nat (nat_of_ascii a) - 48)) s
  end.

(** The fields of a text YYYY-MM-DDTHH:MM:SS, with or without milliseconds. *)
Definition parse_iso (s : string) : option Z :=
  let field i n := read_digits 0 (take_str n (drop_str i s)) in
  if (slen s <? 20)%nat then None
  else
    let y := field 0%nat 4%nat in
    let day := day_from_year y + month_start (is_leap y) (field 5%nat 2%nat - 1) + field 8%nat 2%nat - 1 in
    Some (day * msPerDay + field 11%nat 2%nat * 3600000 + field 14%nat 2%nat * 60000 + field 17%nat 2%nat * 1000 +
          if (slen s <? 24)%nat then 0 else field 20%nat 3%nat).

Lemma read_pad n : ∀ acc v, 0 ≤ v < 10 ^ Z.of_nat n → read_digits acc (pad n v) = acc * 10 ^ Z.of_nat n + v.
Proof.
  induction n as [|n IH]; intros acc v Hv.
  - cbn [pad read_digits]. change (10 ^ Z.of_nat 0) with 1 in *. lia.
  - assert (10 ^ Z.of_nat (S n) = 10 * 10 ^ Z.of_nat n) as E by (rewrite <- Z.pow_succ_r by lia; f_equal; lia).
    rewrite E in Hv |- *. assert (0 < 10 ^ Z.of_nat n) as Hpos by (apply Z.pow_pos_nonneg; lia).
    cbn [pad read_digits]. rewrite IH by (by apply Z.mod_pos_bound).
    assert (0 ≤ v / 10 ^ Z.of_nat n < 10) as Hd by (split; [apply Z.div_pos; lia|apply Z.div_lt_upper_bound; lia]).
    unfold ascii_of_nat. unfold nat_of_ascii. rewrite N_ascii_embedding by lia.
    rewrite Nat2N.id. pose proof (Z.div_mod v (10 ^ Z.of_nat n) ltac:(lia)). nia.
Qed.

Lemma pad_slen n v : slen (pad n v) = n.
Proof. revert v. induction n as [|n IH]; intros v; [done|]. cbn. by rewrite IH. Qed.

Lemma take_pad n v rest : take_str n (pad n v +:+ rest) = pad n v.
Proof. rewrite <- (pad_slen n v) at 1. apply take_str_app. Qed.

Lemma parse_iso_day d : four_digits d → parse_iso (iso_date d +:+ "T00:00:00Z") = Some (d * msPerDay).
Proof.
  intros Hd. rewrite iso_date_civil by done. pose proof (civil_range d) as Hr.
  pose proof (four_digits_year d Hd) as Hy. unfold civil in *.
  set (y := year_of_day d) in *. set (m := month_of (is_leap y) (d - day_from_year y)) in *.
  set (day := d - day_from_year y - month_start (is_leap y) m) in *.
  set (s := (pad 4 y +:+ "-" +:+ pad 2 (m + 1) +:+ "-" +:+ pad 2 (day + 1)) +:+ "T00:00:00Z").
  assert (slen s = 20%nat) as Hs by (unfold s; by rewrite !slen_app, !pad_slen).
  unfold parse_iso. rewrite Hs. cbn [Nat.ltb Nat.leb].
  assert (take_str 4 (drop_str 0 s) = pad 4 y) as -> by (unfold s; rewrite !sapp_assoc; apply take_pad).
  assert (∀ n a b, slen a = n → drop_str n (a +:+ b) = b) as Hdrop by (intros n a b <-; apply drop_str_app).
  assert (take_str 2 (drop_str 5 s) = pad 2 (m + 1)) as ->.
  { unfold s. rewrite <- sapp_assoc, (sapp_assoc (_ +:+ _)), Hdrop by (by rewrite slen_app, pad_slen). rewrite !sapp_assoc. apply take_pad. }
  assert (take_str 2 (drop_str 8 s) = pad 2 (day + 1)) as ->.
  { unfold s. rewrite <- !sapp_assoc, (sapp_assoc (_ +:+ _)), Hdrop by (by rewrite !slen_app, !pad_slen). apply take_pad. }
  assert (drop_str 10 s = "T00:00:00Z") as E10.
  { unfold s. apply Hdrop. by rewrite !slen_app, !pad_slen. }
  assert (∀ i, drop_str (10 + i) s = drop_str i "T00:00:00Z") as Hrest.
  { intros i. rewrite <- E10. clear. generalize s. intros t. do 10 (destruct t as [|? t]; [by destruct i|]). done. }
  rewrite (Hrest 1%nat : drop_str 11 s = _), (Hrest 4%nat : drop_str 14 s = _), (Hrest 7%nat : drop_str 17 s = _).
  rewrite !read_pad by (cbn; lia). change (10 ^ Z.of_nat 4) with 10000. change (10 ^ Z.of_nat 2) with 100.
  replace (0 * 10000 + y) with y by lia. replace (0 * 100 + (m + 1) - 1) with m by lia.
  change (read_digits 0 (take_str 2 (drop_str 1 "T00:00:00Z"))) with 0.
  change (read_digits 0 (take_str 2 (drop_str 4 "T00:00:00Z"))) with 0.
  change (read_digits 0 (take_str 2 (drop_str 7 "T00:00:00Z"))) with 0. f_equal. unfold day.
  change (20 <? 24)%nat with true. unfold msPerDay. lia.
Qed.

#[export] Instance sample_runtime : AuditRuntime := {
  date_parse := parse_iso;
  json_parse := λ s, if String.eqb s (stringify (JArray [JScalar (ScString "authorization")]))
                     then Some (JArray [JScalar (ScString "authorization")]) else None;
  sha256_hex := λ s, s;
}.
