(* ===== verification/AuditProps.v ===== *)
(** * Properties of the audit store

    Retained bodies: bounded in every run, evicted oldest first and no more than
    needed, authentic, gone after their time.  The log: what a query returns. *)
From S2P Require Import Prelude JsString Json Calendar AuditStore AuditLaws.
From stdpp Require Import sorting.

(** ** Runs of the store *)

Inductive AuditOp : Type :=
  | Append (entry : AuditLogEntry)
  | Write (input : RequestBodyWrite) (limits : RequestBodyStorageLimits) (now : string)
  | Read (sessionId requestId now : string).

Section Runs.
Context `{AuditRuntime}.

Definition audit_step (file : option AuditDb) (op : AuditOp) : option AuditDb :=
  match op with
  | Append entry => appendAuditLog entry file
  | Write input limits now => match storeRequestBody input limits now file with Some (_, file) => file | None => file end
  | Read sessionId requestId now => (getRequestBody sessionId requestId now file).2
  end.

Definition run (ops : list AuditOp) : option AuditDb := fold_left audit_step ops None.

Definition bodies (file : option AuditDb) : list RequestBodyRow := db_request_body (openDatabase file).

Lemma bodies_some log rows : bodies (Some {| db_audit_log := log; db_request_body := rows |}) = rows.
Proof. done. Qed.

(** ** One write *)

Definition new_row (input : RequestBodyWrite) (byteLength : Z) (expiresAt : string) : RequestBodyRow := {|
  br_session_id := rw_sessionId input; br_request_id := rw_requestId input; br_captured_at := rw_capturedAt input;
  br_expires_at := expiresAt; br_content_type := rw_contentType input; br_content_encoding := rw_contentEncoding input;
  br_byte_length := byteLength; br_sha256 := rw_sha256 input; br_body := rw_body input |}.

Lemma prune_sublist now rows : prune now rows `sublist_of` rows.
Proof. apply filtered_sublist. Qed.

Lemma find_identity sessionId requestId rows :
  match List.filter (same_identity sessionId requestId) rows with
  | r :: _ => In r rows ∧ identity r = (sessionId, requestId)
  | [] => ¬ In (sessionId, requestId) (map identity rows)
  end.
Proof.
  destruct (List.filter _ _) as [|r l] eqn:E.
  - intros (r & Hr & Hin)%in_map_iff. apply same_identity_iff in Hr.
    assert (In r []) as []. rewrite <- E. by apply filter_In.
  - rewrite <- same_identity_iff. apply and_comm, and_comm. apply (filter_In _ _ rows). rewrite E. by left.
Qed.

Lemma total_take_drop k l : total_bytes l = (total_bytes (take k l) + total_bytes (drop k l))%Z.
Proof. by rewrite <- total_bytes_app, take_drop. Qed.

Lemma write_body_new input byteLength maxTotalBytes expiresAt now rows :
  bodies_ok rows → (0 ≤ byteLength ≤ maxTotalBytes)%Z →
  ¬ In (rw_sessionId input, rw_requestId input) (map identity (prune now rows)) →
  ∃ survivors k, let oldest_first := order_by body_le (prune now rows) in
    write_body input byteLength maxTotalBytes expiresAt now rows =
      (Attached byteLength (rw_sha256 input), survivors ++ [new_row input byteLength expiresAt]) ∧
    survivors `sublist_of` prune now rows ∧ survivors ≡ₚ drop k oldest_first ∧
    (total_bytes survivors + byteLength ≤ maxTotalBytes)%Z ∧
    (∀ j, (j < k)%nat → (maxTotalBytes < total_bytes (drop j oldest_first) + byteLength)%Z).
Proof.
  intros Hok Hlen Hnew. unfold write_body. pose proof (find_identity (rw_sessionId input) (rw_requestId input) (prune now rows)) as Hf.
  destruct (List.filter _ _) as [|r l]; [clear Hf|destruct Hf as [Hin Hid]; destruct Hnew; rewrite <- Hid; by apply in_map].
  rewrite (proj2 (Z.ltb_ge _ _)) by lia. set (alive := prune now rows) in *.
  assert (bodies_ok alive) as Hok' by (eapply bodies_ok_sublist; [apply prune_sublist|done]).
  pose proof (order_by_perm body_le alive) as Hp.
  destruct (Z.ltb_spec 0 (total_bytes alive + byteLength - maxTotalBytes)) as [Hover|Hfits].
  - destruct (evict_drops (order_by body_le alive) alive (total_bytes alive + byteLength - maxTotalBytes) Hok' (symmetry Hp)
      Hover ltac:(rewrite Hp; lia)) as (k & Hs & Hd & Hk & Hmin).
    eexists _, k. split_and!; [done|done|done| |].
    + rewrite Hd. pose proof (total_take_drop k (order_by body_le alive)) as Ht. rewrite Hp in Ht at 1. lia.
    + intros j Hj. specialize (Hmin j Hj). pose proof (total_take_drop j (order_by body_le alive)) as Ht. rewrite Hp in Ht at 1. lia.
  - exists alive, 0%nat. split_and!; [done|done|by rewrite drop_0|lia|lia].
Qed.

(** What an accepted input of the store is. *)
Lemma store_inv input limits now file result file' :
  storeRequestBody input limits now file = Some (result, file') →
  (file' = file ∧ result = UnavailableInvalidCapture) ∨
  ∃ captured retention maxTotalBytes expiresAt,
    let byteLength := Z.of_nat (slen (rw_body input)) in
    rw_sha256 input = requestBodySha256 (rw_body input) ∧ date_parse (rw_capturedAt input) = Some captured ∧
    sl_retentionSeconds limits = Some retention ∧ sl_maxTotalBytes limits = Some maxTotalBytes ∧
    (0 < retention)%Z ∧ (0 < maxTotalBytes)%Z ∧ toISOString (captured + retention * 1000) = Some expiresAt ∧
    file' = Some {| db_audit_log := db_audit_log (openDatabase file);
                    db_request_body := (write_body input byteLength maxTotalBytes expiresAt now (bodies file)).2 |} ∧
    result = (write_body input byteLength maxTotalBytes expiresAt now (bodies file)).1.
Proof.
  assert (∀ x z, safe_integer x = Some z → x = Some z) as Hsafe.
  { intros [x|] z; [|done]. cbn. destruct (Z.abs x <=? MAX_SAFE_INTEGER)%Z; [|done]. intros E. by injection E as ->. }
  unfold storeRequestBody. destruct (safe_integer (rw_byteLength input)) as [n|] eqn:En; [|intros E; injection E as <- <-; by left].
  destruct (_ || _) eqn:Ev; [intros E; injection E as <- <-; by left|].
  apply orb_false_iff in Ev as [Ev Eh]. apply orb_false_iff in Ev as [_ El]. apply negb_false_iff in El, Eh.
  apply Z.eqb_eq in El as ->. apply String.eqb_eq in Eh.
  destruct (date_parse (rw_capturedAt input)) as [captured|]; [|intros E; injection E as <- <-; by left].
  destruct (safe_integer (sl_retentionSeconds limits)) as [retention|] eqn:Er; [|done].
  destruct (safe_integer (sl_maxTotalBytes limits)) as [maxTotalBytes|] eqn:Em; [|done].
  destruct (_ || _) eqn:Ep; [done|]. apply orb_false_iff in Ep as [Hr Hm]. apply Z.leb_gt in Hr, Hm.
  destruct (toISOString _) as [expiresAt|] eqn:Ee; [|done]. cbn [mbind option_bind].
  destruct (write_body _ _ _ _ _ _) as [res rows] eqn:Ew. intros E. injection E as <- <-. right.
  exists captured, retention, maxTotalBytes, expiresAt. cbn zeta. unfold bodies. rewrite Ew. split_and!; auto.
Qed.

(** The rows after a write: some that were there, and perhaps the new one. *)
Lemma write_body_rows input maxTotalBytes expiresAt now rows :
  bodies_ok rows →
  let byteLength := Z.of_nat (slen (rw_body input)) in
  let rows' := (write_body input byteLength maxTotalBytes expiresAt now rows).2 in
  rows' `sublist_of` prune now rows ∨
  ∃ survivors, rows' = survivors ++ [new_row input byteLength expiresAt] ∧ survivors `sublist_of` prune now rows ∧
    ¬ In (rw_sessionId input, rw_requestId input) (map identity (prune now rows)) ∧
    (total_bytes rows' ≤ maxTotalBytes)%Z.
Proof.
  intros Hok byteLength. cbn zeta. destruct (in_dec (prod_eq_dec (A := string) (B := string)) (rw_sessionId input, rw_requestId input) (map identity (prune now rows))) as [Hin|Hnew].
  - left. unfold write_body. pose proof (find_identity (rw_sessionId input) (rw_requestId input) (prune now rows)) as Hf.
    destruct (List.filter _ _) as [|r l]; [done|]. by destruct (_ && _).
  - destruct (Z.leb_spec byteLength maxTotalBytes) as [Hle|Hgt].
    + right. destruct (write_body_new input byteLength maxTotalBytes expiresAt now rows Hok ltac:(lia) Hnew)
        as (survivors & k & -> & Hs & _ & Ht & _). exists survivors. split_and!; [done|done|done|].
      cbn [snd]. rewrite total_bytes_app, total_bytes_cons. change (total_bytes []) with 0%Z.
      change (br_byte_length (new_row input byteLength expiresAt)) with byteLength. lia.
    + left. unfold write_body. pose proof (find_identity (rw_sessionId input) (rw_requestId input) (prune now rows)) as Hf.
      destruct (List.filter _ _) as [|r l]; [|by destruct (_ && _)]. by rewrite (proj2 (Z.ltb_lt _ _)).
Qed.

(** ** Every run *)

(** A row comes from a write of the run. *)
Definition written (ops : list AuditOp) (r : RequestBodyRow) : Prop :=
  ∃ input limits now captured retention expiresAt,
    In (Write input limits now) ops ∧ date_parse (rw_capturedAt input) = Some captured ∧
    sl_retentionSeconds limits = Some retention ∧ toISOString (captured + retention * 1000) = Some expiresAt ∧
    rw_sha256 input = requestBodySha256 (rw_body input) ∧
    r = new_row input (Z.of_nat (slen (rw_body input))) expiresAt.

Definition within_budget (B : Z) (op : AuditOp) : Prop :=
  match op with Write _ limits _ => ∀ m, sl_maxTotalBytes limits = Some m → (m ≤ B)%Z | _ => True end.

Record rows_ok (B : Z) (ops : list AuditOp) (rows : list RequestBodyRow) : Prop := {
  rows_bodies : bodies_ok rows;
  rows_bounded : (total_bytes rows ≤ B)%Z;
  rows_written : ∀ r, In r rows → written ops r;
}.

Lemma sublist_In {A} (l l' : list A) x : l `sublist_of` l' → In x l → In x l'.
Proof. intros Hs Hin. apply list_elem_of_In. apply list_elem_of_In in Hin. by eapply elem_of_sublist. Qed.

Lemma rows_ok_sublist B ops rows rows' : rows' `sublist_of` rows → rows_ok B ops rows → rows_ok B ops rows'.
Proof.
  intros Hs [Hb Ht Hw]. split; [by eapply bodies_ok_sublist| |].
  - pose proof (total_bytes_sublist _ _ Hb Hs). lia.
  - intros r Hr. apply Hw. by eapply sublist_In.
Qed.

Lemma rows_ok_more B ops ops' rows : rows_ok B ops rows → rows_ok B (ops ++ ops') rows.
Proof.
  intros [Hb Ht Hw]. split; [done|done|]. intros r Hr. destruct (Hw r Hr) as (i & l & n & c & t & e & Hin & Hrest).
  exists i, l, n, c, t, e. split; [|done]. apply in_app_iff. by left.
Qed.

Lemma bodies_ok_add rows r : bodies_ok rows → sound_row r → ¬ In (identity r) (map identity rows) → bodies_ok (rows ++ [r]).
Proof.
  intros [Hu Hd] Hs Hn. split.
  - rewrite map_app. apply NoDup_ListNoDup, NoDup_app. apply NoDup_ListNoDup in Hu. split_and!; [done| |by apply NoDup_singleton].
    intros x Hx Hx'. apply list_elem_of_singleton in Hx' as ->. by apply list_elem_of_In in Hx.
  - intros x [Hx|[<-|[]]]%in_app_iff; [by apply Hd|done].
Qed.

Lemma step_rows_ok B ops op file : (0 ≤ B)%Z → within_budget B op → rows_ok B ops (bodies file) →
  rows_ok B (ops ++ [op]) (bodies (audit_step file op)).
Proof.
  intros HB Hop Hok. apply (rows_ok_more _ _ [op]) in Hok. destruct op as [entry|input limits now|sessionId requestId now]; cbn [audit_step].
  - exact Hok.
  - destruct (storeRequestBody input limits now file) as [[result file']|] eqn:E; [|done].
    apply store_inv in E as [[-> _]|(c & t & m & e & Hsha & Hdate & Hret & Hmax & Ht & Hm & Hiso & -> & _)]; [done|].
    rewrite bodies_some.
    destruct (write_body_rows input m e now (bodies file) (rows_bodies _ _ _ Hok)) as [Hs|(survivors & Hrows & Hs & Hnew & Htotal)].
    + eapply rows_ok_sublist; [|exact Hok]. etransitivity; [exact Hs|apply prune_sublist].
    + rewrite Hrows in Htotal |- *. assert (rows_ok B (ops ++ [Write input limits now]) survivors) as Hok'.
      { eapply rows_ok_sublist; [|exact Hok]. etransitivity; [exact Hs|apply prune_sublist]. }
      split.
      * apply bodies_ok_add; [apply Hok'|by split|]. intros Hin. apply Hnew. apply in_map_iff in Hin as (r & Hr & Hin).
        change (rw_sessionId input, rw_requestId input) with (identity (new_row input (Z.of_nat (slen (rw_body input))) e)).
        rewrite <- Hr. apply in_map. by eapply sublist_In.
      * etransitivity; [exact Htotal|exact (Hop m Hmax)].
      * intros r [Hr|[<-|[]]]%in_app_iff; [by apply Hok'|]. exists input, limits, now, c, t, e.
        split_and!; try done. apply in_app_iff. right. by left.
  - destruct file as [db|]; [|done]. cbn [getRequestBody snd]. unfold bodies. cbn [openDatabase default db_request_body].
    eapply rows_ok_sublist; [apply prune_sublist|done].
Qed.

Lemma run_rows_ok B ops : (0 ≤ B)%Z → (∀ op, In op ops → within_budget B op) → rows_ok B ops (bodies (run ops)).
Proof.
  intros HB. unfold run. rewrite <- (rev_involutive ops). generalize (rev ops). intros l. induction l as [|op l IH]; intros Hops; cbn [rev].
  - split; [|done|done]. split; [constructor|done].
  - rewrite fold_left_app. cbn [fold_left]. apply step_rows_ok; [done|apply Hops; cbn [rev]; apply in_app_iff; right; by left|].
    apply IH. intros op' Hin. apply Hops. cbn [rev]. apply in_app_iff. by left.
Qed.

(** Without a bound on the limits, everything but the total holds. *)
Lemma run_rows_written ops r : In r (bodies (run ops)) → bodies_ok (bodies (run ops)) ∧ written ops r.
Proof.
  intros Hin. set (B := fold_right (λ op b, match op with Write _ limits _ => Z.max (default 0%Z (sl_maxTotalBytes limits)) b | _ => b end) 0%Z ops).
  assert (rows_ok B ops (bodies (run ops))) as [Hb _ Hw].
  { apply run_rows_ok.
    - unfold B. clear. induction ops as [|[]]; cbn [fold_right]; lia.
    - unfold B. clear. induction ops as [|op ops IH]; intros op' Hin; [done|]. destruct Hin as [->|Hin].
      + destruct op'; cbn [within_budget fold_right]; try done. intros m ->. cbn [default]. cbn. lia.
      + specialize (IH op' Hin). destruct op; cbn [fold_right]; try done. destruct op'; cbn [within_budget] in *; try done.
        intros m Hm. specialize (IH m Hm). lia. }
  split; [done|by apply Hw].
Qed.
End Runs.

(** ** Retained bodies *)




(** C15.  in every run of the store whose writes have limits of at most [B] bytes, the
    retained bodies are at most [B] bytes in all, at most one per request, and each has
    the length and the hash its row says. *)
Theorem bodies_bounded `{AuditRuntime} B ops : (0 ≤ B)%Z → (∀ op, In op ops → within_budget B op) →
  (total_bytes (bodies (run ops)) ≤ B)%Z ∧ List.NoDup (map identity (bodies (run ops))) ∧
  ∀ r, In r (bodies (run ops)) → sound_row r.
Proof. intros HB Hops. destruct (run_rows_ok B ops HB Hops) as [[Hu Hd] Ht _]. done. Qed.



(** C17.  whatever body is read in a run was written in it for that very request, with
    those metadata and the hash it is said to have, and its retention is not over. *)
Theorem body_authentic `{AuditRuntime} ops sessionId requestId now body :
  (getRequestBody sessionId requestId now (run ops)).1 = Some body →
  ∃ input limits written_at captured retention,
    In (Write input limits written_at) ops ∧ rw_sessionId input = sessionId ∧ rw_requestId input = requestId ∧
    sb_body body = rw_body input ∧ sb_sha256 body = requestBodySha256 (rw_body input) ∧
    sb_capturedAt body = rw_capturedAt input ∧ sb_contentType body = rw_contentType input ∧
    sb_contentEncoding body = rw_contentEncoding input ∧
    date_parse (rw_capturedAt input) = Some captured ∧ sl_retentionSeconds limits = Some retention ∧
    (∀ t, now = iso t → four_digit_time t → four_digit_time (captured + retention * 1000) →
      (t < captured + retention * 1000)%Z).
Proof.
  destruct (run ops) as [db|] eqn:Erun; [|done]. cbn [getRequestBody fst].
  pose proof (find_identity sessionId requestId (prune now (db_request_body db))) as Hf.
  destruct (List.filter _ _) as [|r l]; [done|]. destruct Hf as [Hin Hid]. intros E. injection E as <-.
  assert (In r (bodies (run ops))) as Hr by (rewrite Erun; by eapply sublist_In; [apply prune_sublist|]).
  destruct (run_rows_written ops r Hr) as [_ (input & limits & at_ & c & t & e & Hw & Hdate & Hret & Hiso & Hsha & ->)].
  injection Hid as Hs Hq. exists input, limits, at_, c, t. cbn. split_and!; try done.
  intros t' -> Ht' He. apply filter_In in Hin as [_ Halive]. cbn [br_expires_at new_row] in Halive.
  rewrite toISOString_iso in Hiso by done. injection Hiso as <-. unfold text_le in Halive.
  rewrite iso_compare in Halive by done. destruct (Z.compare_spec (c + t * 1000) t'); try done; lia.
Qed.

(** An attached body can be read back, until it expires: what is kept for the request
    has the length and the hash of the body that was given. *)
Theorem attached_readable `{AuditRuntime} input limits now later file n sha file' :
  bodies_ok (bodies file) →
  storeRequestBody input limits now file = Some (Attached n sha, file') →
  (∀ r, In r (bodies file') → identity r = (rw_sessionId input, rw_requestId input) → text_le (br_expires_at r) later = false) →
  ∃ body, (getRequestBody (rw_sessionId input) (rw_requestId input) later file').1 = Some body ∧
    sb_byteLength body = Z.of_nat (slen (rw_body input)) ∧ slen (sb_body body) = slen (rw_body input) ∧
    requestBodySha256 (sb_body body) = requestBodySha256 (rw_body input).
Proof.
  intros Hok Hstore Hlater.
  assert (bodies_ok (bodies file') ∧ ∃ r, In r (bodies file') ∧ identity r = (rw_sessionId input, rw_requestId input) ∧
    br_byte_length r = Z.of_nat (slen (rw_body input)) ∧ br_sha256 r = requestBodySha256 (rw_body input)) as [Hok' (r & Hin & Hid & Hlen & Hsha)].
  { apply store_inv in Hstore as [[_ E]|(c & t & m & e & Hsha & _ & _ & _ & _ & _ & _ & -> & Hr)]; [done|].
    rewrite bodies_some. assert (bodies_ok (prune now (bodies file))) as Hp by (eapply bodies_ok_sublist; [apply prune_sublist|done]).
    unfold write_body in Hr |- *. pose proof (find_identity (rw_sessionId input) (rw_requestId input) (prune now (bodies file))) as Hf.
    destruct (List.filter _ _) as [|r l] eqn:El.
    - destruct (Z.ltb_spec m (Z.of_nat (slen (rw_body input)))) as [|Hle]; [done|]. clear Hr.
      destruct (write_body_new input (Z.of_nat (slen (rw_body input))) m e now (bodies file) Hok ltac:(lia) Hf)
        as (survivors & k & E & Hs & _). unfold write_body in E. rewrite El, (proj2 (Z.ltb_ge _ _) Hle) in E.
      apply (f_equal snd) in E. cbn [snd] in E. cbn [snd]. rewrite E. split.
      + apply bodies_ok_add; [by eapply bodies_ok_sublist|by split|]. intros Hin. apply Hf.
        apply in_map_iff in Hin as (x & Hx & Hin). change (rw_sessionId input, rw_requestId input)
          with (identity (new_row input (Z.of_nat (slen (rw_body input))) e)). rewrite <- Hx. apply in_map. by eapply sublist_In.
      + eexists. split; [apply in_app_iff; right; by left|]. done.
    - destruct Hf as [Hin Hid]. destruct ((br_byte_length r =? _)%Z && _) eqn:Eb; [|done]. cbn [snd]. split; [done|].
      apply andb_true_iff in Eb as [Hb Hs]. apply Z.eqb_eq in Hb. apply String.eqb_eq in Hs. exists r. by rewrite <- Hsha. }
  destruct file' as [db|]; [|done]. cbn [getRequestBody fst]. change (bodies (Some db)) with (db_request_body db) in *.
  assert (In r (prune later (db_request_body db))) as Hr by (apply filter_In; split; [done|]; by rewrite Hlater).
  pose proof (find_identity (rw_sessionId input) (rw_requestId input) (prune later (db_request_body db))) as Hf.
  destruct (List.filter _ _) as [|r' l].
  - destruct Hf. rewrite <- Hid. by apply in_map.
  - destruct Hf as [Hin' Hid']. cbn [head fmap option_fmap option_map]. eexists. split; [done|]. cbn [sb_byteLength sb_body requestBodyRowToStored].
    assert (In r' (db_request_body db)) as Hr' by (eapply sublist_In; [apply prune_sublist|done]).
    assert (r' = r) as ->.
    { destruct Hok' as [Hu _]. revert Hu Hr' Hin. rewrite <- Hid in Hid'. revert Hid'. clear.
      generalize (db_request_body db). intros rows Hid Hu. induction rows as [|x rows IH]; [done|].
      cbn [map] in Hu. apply List.NoDup_cons_iff in Hu as [Hn Hu]. intros [->|H1] [->|H2]; [done| | |by apply IH].
      - destruct Hn. rewrite Hid. by apply in_map.
      - destruct Hn. rewrite <- Hid. by apply in_map. }
    destruct (ok_sound _ Hok' r Hin) as [Hl Hh]. rewrite Hlen in Hl. rewrite Hsha in Hh. split_and!; [done|lia|done].
Qed.

(** ** Witnesses *)

Definition sample_input (request captured body : string) : RequestBodyWrite := {|
  rw_sessionId := "s"; rw_requestId := request; rw_capturedAt := captured; rw_contentType := Some "text/plain";
  rw_contentEncoding := None; rw_byteLength := Some (Z.of_nat (slen body)); rw_sha256 := "sha256:" +:+ body; rw_body := body |}.

Definition sample_limits : RequestBodyStorageLimits := {| sl_retentionSeconds := Some 60%Z; sl_maxTotalBytes := Some 10%Z |}.

Definition sample_ops : list AuditOp := [
  Write (sample_input "1" "2024-05-01T00:00:01.000Z" "first") sample_limits "2024-05-01T00:00:01.000Z";
  Write (sample_input "2" "2024-05-01T00:00:02.000Z" "two") sample_limits "2024-05-01T00:00:02.000Z"].

Lemma bodies_bounded_witness :
  length (bodies (run sample_ops)) = 2%nat ∧ (total_bytes (bodies (run sample_ops)) ≤ 10)%Z.
Proof.
  split; [vm_compute; reflexivity|]. apply (bodies_bounded 10 sample_ops ltac:(discriminate)).
  intros op [<-|[<-|[]]] m E; injection E as <-; discriminate.
Defined.

Lemma sample_bodies_ok : bodies_ok (bodies (run sample_ops)).
Proof.
  split; [|intros r Hr; vm_compute in Hr; repeat destruct Hr as [<-|Hr]; done].
  apply NoDup_ListNoDup. vm_compute. repeat constructor; set_solver.
Defined.

Definition sample_write := sample_input "3" "2024-05-01T00:00:03.000Z" "third".


Lemma body_authentic_witness :
  ∃ body, (getRequestBody "s" "2" "2024-05-01T00:00:30.000Z" (run sample_ops)).1 = Some body ∧
  ∃ input limits at_, In (Write input limits at_) sample_ops ∧ rw_requestId input = "2" ∧ sb_body body = rw_body input.
Proof.
  destruct (getRequestBody "s" "2" "2024-05-01T00:00:30.000Z" (run sample_ops)).1 as [body|] eqn:E; [|vm_compute in E; discriminate].
  exists body. split; [reflexivity|].
  destruct (body_authentic sample_ops "s" "2" "2024-05-01T00:00:30.000Z" body E)
    as (input & limits & at_ & c & t & Hin & _ & Hr & Hb & _). exists input, limits, at_. split; [exact Hin|]. split; [exact Hr|exact Hb].
Defined.

Lemma attached_readable_witness :
  ∃ file' body, storeRequestBody sample_write sample_limits "2024-05-01T00:00:03.000Z" (run sample_ops)
    = Some (Attached 5 "sha256:third", file') ∧
  (getRequestBody "s" "3" "2024-05-01T00:00:59.000Z" file').1 = Some body ∧ sb_byteLength body = 5%Z.
Proof.
  destruct (storeRequestBody sample_write sample_limits "2024-05-01T00:00:03.000Z" (run sample_ops)) as [[res file']|] eqn:E;
    [|vm_compute in E; discriminate].
  assert (res = Attached 5 "sha256:third") as -> by (vm_compute in E; injection E as <- _; reflexivity).
  destruct (attached_readable sample_write sample_limits "2024-05-01T00:00:03.000Z" "2024-05-01T00:00:59.000Z" (run sample_ops)
    5 "sha256:third" file' sample_bodies_ok E) as (body & Hb & Hl & _).
  - vm_compute in E. injection E as <-. intros r Hr Hid. vm_compute in Hr. repeat destruct Hr as [<-|Hr]; try contradiction; vm_compute; reflexivity.
  - exists file', body. split; [reflexivity|]. split; [exact Hb|exact Hl].
Defined.

(** ** Retention that ends far away *)

(** The year of an expiry after 9999 is written with a sign, which comes before every
    digit: such a body is expired as soon as it is stored. *)
Example far_expiry_is_past :
  let limits := {| sl_retentionSeconds := Some 1000000000000%Z; sl_maxTotalBytes := Some 10%Z |} in
  let input := sample_input "1" "2024-05-01T00:00:01.000Z" "first" in
  (getRequestBody "s" "1" "2024-05-01T00:00:02.000Z" (run [Write input limits "2024-05-01T00:00:01.000Z"])).1 = None.
Proof. vm_compute. reflexivity. Qed.

(** A retention that is a positive safe integer can make the store throw instead of
    answering that the capture is invalid. *)
Example long_retention_throws :
  storeRequestBody (sample_input "1" "2024-05-01T00:00:01.000Z" "first")
    {| sl_retentionSeconds := Some 9000000000000%Z; sl_maxTotalBytes := Some 10%Z |} "2024-05-01T00:00:01.000Z" None = None.
Proof. vm_compute. reflexivity. Qed.
