(* ===== verification/AuditQuery.v ===== *)
(** * What a query of the audit log returns *)
From S2P Require Import Prelude JsString Json Calendar AuditStore AuditLaws.
From stdpp Require Import sorting.

(** ** Order and limit *)

Lemma log_le_total a b : log_le a b = true ∨ log_le b a = true.
Proof.
  unfold log_le. rewrite (text_compare_antisym (lr_timestamp b)). destruct (String.compare (lr_timestamp a) _); cbn; auto.
  apply text_le_total.
Qed.

Lemma log_le_trans a b c : log_le a b = true → log_le b c = true → log_le a c = true.
Proof.
  unfold log_le. destruct (String.compare (lr_timestamp a) (lr_timestamp b)) eqn:E1; [|intros _|done].
  - apply text_compare_eq in E1 as ->. destruct (String.compare (lr_timestamp b) _); [|done|done]. apply text_le_trans.
  - destruct (String.compare (lr_timestamp b) (lr_timestamp c)) eqn:E3; [|intros _|done].
    + apply text_compare_eq in E3 as <-. by rewrite E1.
    + by rewrite (text_compare_trans Lt _ _ _ E1 E3).
Qed.

Lemma log_le_antisym a b : log_le a b = true → log_le b a = true → lr_id a = lr_id b.
Proof.
  unfold log_le. rewrite (text_compare_antisym (lr_timestamp b)). destruct (String.compare (lr_timestamp a) _); cbn; try done.
  apply text_le_antisym.
Qed.

(** The last rows of a chronological list, all of them without a limit. *)
Definition last_rows {A} (limit : option nat) (l : list A) : list A :=
  match limit with None => l | Some n => drop (length l - n) l end.

Lemma rev_take_rev {A} n (l : list A) : rev (take n (rev l)) = drop (length l - n) l.
Proof. rewrite <- (rev_involutive l) at 3. rewrite <- (length_rev l). generalize (rev l). clear l. intros l.
  rewrite skipn_rev. f_equal. rewrite length_rev || idtac. destruct (Nat.le_gt_cases n (length l)) as [H|H].
  - f_equal. lia.
  - rewrite !firstn_all2 by lia. done.
Qed.

(** A limit keeps the newest rows, in the order they have without it. *)
Lemma limit_keeps_newest where_ rows limit : List.NoDup (map lr_id rows) →
  select_rows limit where_ rows = last_rows limit (select_rows None where_ rows).
Proof.
  intros Hu. destruct limit as [n|]; [|done]. unfold select_rows, last_rows. set (l := List.filter where_ rows).
  enough (order_by (flip log_le) l = rev (order_by log_le l)) as -> by apply rev_take_rev.
  rewrite <- (rev_involutive (order_by (flip log_le) l)). f_equal. apply (sorted_unique (test_order log_le)).
  - rewrite <- (Permutation_rev (order_by (flip log_le) l)). by rewrite !order_by_perm.
  - apply sorted_rev. apply (order_by_sorted (flip log_le)); unfold flip; intros *; [apply log_le_total|].
    intros Hab Hbc. by eapply log_le_trans.
  - apply order_by_sorted; [apply log_le_total|apply log_le_trans].
  - intros x y Hx Hy Hxy Hyx. apply in_rev in Hx, Hy. apply order_by_In, filter_In in Hx as [Hx _], Hy as [Hy _].
    by eapply NoDup_map_inj, log_le_antisym.
Qed.

Lemma selected_sorted where_ rows : StronglySorted (test_order log_le) (select_rows None where_ rows).
Proof. apply order_by_sorted; [apply log_le_total|apply log_le_trans]. Qed.

Lemma selected_In where_ rows r : In r (select_rows None where_ rows) ↔ In r rows ∧ where_ r = true.
Proof. unfold select_rows. by rewrite order_by_In, filter_In. Qed.

(** ** Dates of a filter *)


Lemma iso_date_length d : four_digits d → slen (iso_date d) = 10%nat.
Proof. intros H. rewrite iso_date_civil by done. destruct (civil d) as [[y m] day]. by rewrite !slen_app, !pad_slen. Qed.

(** `Date.parse` of the start of a day. *)
Definition parses_days `{AuditRuntime} : Prop :=
  ∀ d, four_digits d → date_parse (iso_date d +:+ "T00:00:00Z") = Some (d * msPerDay)%Z.

Lemma four_digit_day d : four_digits d → four_digit_time (d * msPerDay).
Proof. unfold four_digit_time. by rewrite Z.div_mul by done. Qed.

Lemma nextDay_iso `{AuditRuntime} d : parses_days → four_digits d → four_digits (d + 1) → nextDay (iso_date d) = Some (iso_date (d + 1)).
Proof.
  intros Hp Hd Hd'. unfold nextDay. rewrite Hp by done. cbn [mbind option_bind].
  replace (d * msPerDay + msPerDay)%Z with ((d + 1) * msPerDay)%Z by lia.
  rewrite toISOString_iso by (by apply four_digit_day). cbn [mbind option_bind]. f_equal. unfold iso.
  rewrite Z.div_mul by done. rewrite <- (iso_date_length (d + 1)) by done. apply take_str_app.
Qed.

(** ** Queries *)

(** A filter with its dates as days and its cursor as a time. *)
Record Times : Type := { tm_start : option Z; tm_end : option Z; tm_before : option Z }.

Record filter_times (filter : AuditLogFilter) (times : Times) : Prop := {
  ft_start : af_startDate filter = iso_date <$> tm_start times;
  ft_end : af_endDate filter = iso_date <$> tm_end times;
  ft_before : af_before filter = iso <$> tm_before times;
  ft_start_range : ∀ d, tm_start times = Some d → four_digits d;
  ft_end_range : ∀ d, tm_end times = Some d → four_digits d ∧ four_digits (d + 1);
  ft_before_range : ∀ t, tm_before times = Some t → four_digit_time t;
}.

(** The rows a filter asks for, of a row of time [t] on the day [day]: the first and the
    last day are inclusive. *)
Record wanted (filter : AuditLogFilter) (times : Times) (r : AuditLogRow) (t day : Z) : Prop := {
  wanted_start : ∀ d, tm_start times = Some d → (d ≤ day)%Z;
  wanted_end : ∀ d, tm_end times = Some d → (day ≤ d)%Z;
  wanted_before : ∀ b, tm_before times = Some b → (t < b)%Z;
  wanted_domain : ∀ d, af_domain filter = Some d → d ≠ "" → lr_domain r = d;
  wanted_sessions : ∀ ids, af_sessionIds filter = Some ids → In (lr_session_id r) ids;
  wanted_contains : ∀ v, af_sessionContains filter = Some v → contains_text (lr_session_id r) v;
  wanted_command : ∀ prefixes prefix command, af_excludeCommandPrefixes filter = Some prefixes → In prefix prefixes →
    lr_command r = Some command → ¬ begins_with_text command prefix ∧
    ∀ a rest, command = a +:+ "/" +:+ rest → ¬ begins_with_text rest prefix;
}.

(** The day a query counts a time to: its bounds have no milliseconds, and a text ends
    before it goes on with them, so that a day begins a second late. *)
Definition filed_day (t : Z) : Z := ((t - 1000) / msPerDay)%Z.

Lemma filed_day_spec t d : (d * msPerDay + 1000 ≤ t ↔ d ≤ filed_day t)%Z.
Proof.
  unfold filed_day. pose proof (Z.div_mod (t - 1000) msPerDay ltac:(done)).
  pose proof (Z.mod_pos_bound (t - 1000) msPerDay ltac:(done)). assert (0 < msPerDay)%Z by done. nia.
Qed.

Lemma filed_day_late t : (1000 ≤ t mod msPerDay)%Z → filed_day t = (t / msPerDay)%Z.
Proof.
  intros H. unfold filed_day. pose proof (Z.div_mod t msPerDay ltac:(done)). pose proof (Z.mod_pos_bound t msPerDay ltac:(done)).
  symmetry. apply (Z.div_unique _ _ _ (t mod msPerDay - 1000)); lia.
Qed.

Lemma filed_day_early t : (t mod msPerDay < 1000)%Z → filed_day t = (t / msPerDay - 1)%Z.
Proof.
  intros H. unfold filed_day. pose proof (Z.div_mod t msPerDay ltac:(done)). pose proof (Z.mod_pos_bound t msPerDay ltac:(done)).
  symmetry. apply (Z.div_unique _ _ _ (t mod msPerDay - 1000 + msPerDay)); [left; change msPerDay with 86400000%Z in *|]; lia.
Qed.

Lemma condition_iff member test r :
  condition member test r = true ↔ ∀ v, member = Some v → v ≠ "" → test v r = true.
Proof. unfold condition. destruct member as [[|a s]|]; naive_solver. Qed.

Lemma command_excluded_iff prefix r :
  command_excluded prefix r = false ↔ ∀ command, lr_command r = Some command → ¬ begins_with_text command prefix ∧
    ∀ a rest, command = a +:+ "/" +:+ rest → ¬ begins_with_text rest prefix.
Proof.
  unfold command_excluded. destruct (lr_command r) as [command|]; [|naive_solver].
  rewrite orb_false_iff, <- !not_true_iff_false, like_begins, like_begins_after_slash. split.
  - intros [H1 H2] c E. injection E as <-. split; [done|]. intros a rest -> Hb. apply H2. eauto.
  - intros H. destruct (H command eq_refl) as [H1 H2]. split; [done|]. intros (a & rest & E & Hb). by eapply H2.
Qed.

Lemma contains_empty s : contains_text s "".
Proof. by exists "", "", s. Qed.

Lemma iso_nonempty t : four_digit_time t → iso t ≠ "".
Proof. intros H E. apply (f_equal slen) in E. unfold iso in E. rewrite !slen_app, iso_date_length in E by done. done. Qed.

Lemma iso_date_nonempty d : four_digits d → iso_date d ≠ "".
Proof. intros H E. apply (f_equal slen) in E. by rewrite iso_date_length in E. Qed.

Lemma where_rows_wanted `{AuditRuntime} filter times : parses_days → filter_times filter times →
  af_sessionIds filter ≠ Some [] →
  ∃ where_, where_rows filter = Some where_ ∧
    ∀ r t, lr_timestamp r = iso t → four_digit_time t → where_ r = true ↔ wanted filter times r t (filed_day t).
Proof.
  intros Hp [Hs He Hb Hsr Her Hbr] Hids. unfold where_rows. rewrite He.
  assert (match iso_date <$> tm_end times with
    | None | Some "" => Some None
    | Some endDate => next ← nextDay endDate; Some (Some (next +:+ "T00:00:00Z")) end =
    Some ((λ d, iso_date (d + 1) +:+ "T00:00:00Z") <$> tm_end times)) as ->.
  { destruct (tm_end times) as [d|]; [|done]. cbn [fmap option_fmap option_map]. destruct (Her d eq_refl) as [Hd Hd'].
    pose proof (iso_date_nonempty d Hd) as Hne. destruct (iso_date d) as [|a s] eqn:E; [done|]. rewrite <- E.
    by rewrite nextDay_iso. }
  cbn [mbind option_bind]. eexists. split; [done|]. intros r t Ht Hr.
  rewrite !andb_true_iff, !condition_iff, Hs, Hb, forallb_forall. split.
  - intros ((((((H1 & H2) & H3) & H4) & H5) & H6) & H7). split.
    + intros d E. rewrite E in H1. specialize (H1 _ eq_refl (iso_date_nonempty d (Hsr d E))). rewrite Ht in H1.
      unfold text_le in H1. rewrite text_compare_antisym, midnight_compare in H1 by eauto.
      apply filed_day_spec. destruct (Z.ltb_spec t (d * msPerDay + 1000)); [done|lia].
    + intros d E. rewrite E in H2. cbn [fmap option_fmap option_map] in H2. rewrite Ht in H2. unfold text_lt in H2.
      destruct (Her d E) as [_ Hd']. rewrite midnight_compare in H2 by done.
      pose proof (filed_day_spec t (d + 1)). destruct (Z.ltb_spec t ((d + 1) * msPerDay + 1000)); [lia|done].
    + intros b E. rewrite E in H3. specialize (H3 _ eq_refl (iso_nonempty b (Hbr b E))). rewrite Ht in H3.
      unfold text_lt in H3. rewrite iso_compare in H3 by eauto. by destruct (Z.compare_spec t b).
    + intros d E Hd. by apply String.eqb_eq, H4.
    + intros ids E. rewrite E in H5, Hids. destruct ids; [done|]. by apply includes_In in H5.
    + intros v E. destruct (decide (v = "")) as [->|Hv]; [apply contains_empty|]. by apply like_contains, H6.
    + intros prefixes prefix command E Hin. rewrite E in H7. apply command_excluded_iff, negb_true_iff, H7, Hin.
  - intros [H1 H2 H3 H4 H5 H6 H7]. split_and!.
    + intros v E _. destruct (tm_start times) as [d|] eqn:Ed; [|done]. injection E as <-. rewrite Ht.
      unfold text_le. rewrite text_compare_antisym, midnight_compare by eauto. specialize (H1 d eq_refl). apply filed_day_spec in H1.
      by rewrite (proj2 (Z.ltb_ge _ _) H1).
    + destruct (tm_end times) as [d|] eqn:Ed; [|done]. cbn [fmap option_fmap option_map]. rewrite Ht. unfold text_lt.
      destruct (Her d eq_refl) as [_ Hd']. rewrite midnight_compare by done. specialize (H2 d eq_refl).
      pose proof (filed_day_spec t (d + 1)). assert (t < (d + 1) * msPerDay + 1000)%Z as H2' by lia. clear H2. rename H2' into H2.
      by rewrite (proj2 (Z.ltb_lt _ _) H2).
    + intros v E _. destruct (tm_before times) as [b|] eqn:Eb; [|done]. injection E as <-. rewrite Ht.
      unfold text_lt. rewrite iso_compare by eauto. specialize (H3 b eq_refl). by rewrite (proj2 (Z.compare_lt_iff _ _) H3).
    + intros v E Hv. by apply String.eqb_eq, H4.
    + destruct (af_sessionIds filter) as [[|i ids]|]; [done| |done]. apply includes_In. by apply H5.
    + intros v E Hv. by apply like_contains, H6.
    + intros prefix Hin. apply negb_true_iff, command_excluded_iff. destruct (af_excludeCommandPrefixes filter) as [prefixes|]; [|done].
      intros command Hc. by apply (H7 prefixes prefix command).
Qed.

(** ** Round trip *)

(** An entry as it is read back: without a phase it is an authorization. *)
Definition with_phase (e : AuditLogEntry) : AuditLogEntry := {|
  ae_id := ae_id e; ae_timestamp := ae_timestamp e; ae_domain := ae_domain e; ae_sessionId := ae_sessionId e;
  ae_requestId := ae_requestId e; ae_decision := ae_decision e; ae_reason := ae_reason e;
  ae_phase := Some (default "authorization" (ae_phase e)); ae_ruleId := ae_ruleId e; ae_method := ae_method e;
  ae_route := ae_route e; ae_path := ae_path e; ae_requestPolicyKind := ae_requestPolicyKind e;
  ae_requestPolicyResult := ae_requestPolicyResult e; ae_scope := ae_scope e; ae_target := ae_target e;
  ae_command := ae_command e; ae_injectedHeaders := ae_injectedHeaders e; ae_violations := ae_violations e;
  ae_bodyDiagnostic := ae_bodyDiagnostic e; ae_requestBodyAuditStatus := ae_requestBodyAuditStatus e;
  ae_principal := ae_principal e |}.

(** `JSON.parse` reads the values of an entry back from `JSON.stringify`. *)
Definition json_reads `{AuditRuntime} (e : AuditLogEntry) : Prop :=
  ∀ column v, In column [ae_injectedHeaders e; ae_violations e; ae_bodyDiagnostic e; ae_requestBodyAuditStatus e] →
    column = Some v → json_parse (stringify v) = Some v.

Lemma json_column_reads `{AuditRuntime} column :
  (∀ v, column = Some v → json_parse (stringify v) = Some v) → json_column (stringify <$> column) = Some column.
Proof. intros Hj. destruct column as [v|]; [|done]. cbn. by rewrite Hj. Qed.

Lemma entry_read_back `{AuditRuntime} e : json_reads e → rowToEntry (entry_row e) = Some (with_phase e).
Proof.
  intros Hj. unfold rowToEntry. cbn [entry_row lr_injected_headers lr_violations lr_body_diagnostic lr_body_audit_status].
  rewrite !json_column_reads; [done|..]; intros v; apply Hj; cbn; tauto.
Qed.

Definition logged (es : list AuditLogEntry) : option AuditDb := fold_left (λ file e, appendAuditLog e file) es None.

Lemma append_rows e file : db_audit_log (openDatabase (appendAuditLog e file)) =
  List.filter (λ r, negb (String.eqb (lr_id r) (ae_id e))) (db_audit_log (openDatabase file)) ++ [entry_row e].
Proof. done. Qed.

Lemma logged_rows es : List.NoDup (map ae_id es) → db_audit_log (openDatabase (logged es)) = map entry_row es.
Proof.
  unfold logged. rewrite <- (rev_involutive es). generalize (rev es). intros l. induction l as [|e l IH]; intros Hu; [done|].
  cbn [rev] in Hu |- *. rewrite map_app in Hu. apply NoDup_ListNoDup, NoDup_app in Hu as (Hu & Hn & _).
  rewrite fold_left_app. cbn [fold_left]. rewrite append_rows.
  rewrite IH by (by apply NoDup_ListNoDup). rewrite map_app. f_equal.
  assert (∀ x, In x (rev l) → ae_id x ≠ ae_id e) as Hne.
  { intros x Hx E. apply (Hn (ae_id e)); [|by left]. apply list_elem_of_In. rewrite <- E. by apply in_map. }
  revert Hne. clear. generalize (rev l). intros m Hne. induction m as [|x m IH]; [done|]. cbn [map List.filter].
  rewrite IH by (intros y Hy; apply Hne; by right). cbn [lr_id entry_row].
  by rewrite (proj2 (String.eqb_neq _ _) (Hne x (or_introl eq_refl))).
Qed.

Lemma mapM_entries `{AuditRuntime} es : (∀ e, In e es → json_reads e) →
  mapM rowToEntry (map entry_row es) = Some (map with_phase es).
Proof.
  induction es as [|e es IH]; intros Hj; [done|]. cbn [map mapM]. rewrite entry_read_back by (apply Hj; by left).
  cbn [mbind option_bind]. by rewrite IH by (intros x Hx; apply Hj; by right).
Qed.

Definition no_filter : AuditLogFilter := {|
  af_startDate := None; af_endDate := None; af_before := None; af_sessionIds := None; af_sessionContains := None;
  af_domain := None; af_excludeCommandPrefixes := None; af_limit := None |}.

(** ** Properties *)

(** C18.  a query returns, of the rows its filter asks for, the last ones up to the limit,
    in chronological order.  The first and the last day of a filter are inclusive, with
    one exception: a row of the first second of a day is counted to the day before. *)
Theorem query_exact `{AuditRuntime} filter times db :
  parses_days → filter_times filter times → af_sessionIds filter ≠ Some [] →
  List.NoDup (map lr_id (db_audit_log db)) →
  (∀ r, In r (db_audit_log db) → ∃ t, lr_timestamp r = iso t ∧ four_digit_time t) →
  ∃ rows, queryAuditLogs filter (Some db) = mapM rowToEntry (last_rows (normaliseLimit (af_limit filter)) rows) ∧
    (∀ r t, lr_timestamp r = iso t → four_digit_time t → (1000 ≤ t mod msPerDay)%Z →
      In r rows ↔ In r (db_audit_log db) ∧ wanted filter times r t (t / msPerDay)) ∧
    (∀ r t, lr_timestamp r = iso t → four_digit_time t → (t mod msPerDay < 1000)%Z →
      In r rows ↔ In r (db_audit_log db) ∧ wanted filter times r t (t / msPerDay - 1)) ∧
    List.NoDup (map lr_id rows) ∧
    StronglySorted (λ a b, ∀ s t, four_digit_time s → four_digit_time t → lr_timestamp a = iso s → lr_timestamp b = iso t →
      (s ≤ t)%Z) rows.
Proof.
  intros Hp Hft Hids Hu Htimes. destruct (where_rows_wanted filter times Hp Hft Hids) as (where_ & Hw & Hwanted).
  exists (select_rows None where_ (db_audit_log db)). split_and!.
  - unfold queryAuditLogs. rewrite Hw. cbn [mbind option_bind]. rewrite (limit_keeps_newest where_ _ (normaliseLimit _)) by done.
    by destruct (af_sessionIds filter) as [[|]|].
  - intros r t Ht Hr Hlate. by rewrite selected_In, (Hwanted r t), filed_day_late by done.
  - intros r t Ht Hr Hearly. by rewrite selected_In, (Hwanted r t), filed_day_early by done.
  - unfold select_rows. eapply (Permutation_NoDup (l := map lr_id (List.filter where_ (db_audit_log db)))).
    + apply Permutation_map. symmetry. apply order_by_perm.
    + apply NoDup_ListNoDup. apply NoDup_ListNoDup in Hu. eapply sublist_NoDup; [exact Hu|].
      apply fmap_sublist, filtered_sublist.
  - eapply sorted_impl; [|apply selected_sorted]. intros a b Hab s t Hs Ht Ea Eb.
    unfold test_order, log_le in Hab. rewrite Ea, Eb, iso_compare in Hab by done. by destruct (Z.compare_spec s t); [lia|lia|].
Qed.

(** C19.  what is logged is read back, every entry once and as it was, in the order of the
    timestamps. *)
Theorem log_round_trip `{AuditRuntime} es : es ≠ [] → List.NoDup (map ae_id es) → (∀ e, In e es → json_reads e) →
  ∃ entries, queryAuditLogs no_filter (logged es) = Some (map with_phase entries) ∧ entries ≡ₚ es ∧
    StronglySorted (λ a b, text_le (ae_timestamp a) (ae_timestamp b) = true) entries.
Proof.
  intros Hne Hu Hj. pose proof (logged_rows es Hu) as Hrows.
  assert (∃ db, logged es = Some db) as [db Edb].
  { unfold logged. destruct es as [|e es]; [done|]. cbn [fold_left]. unfold appendAuditLog at 2.
    generalize {| db_audit_log := List.filter (λ r, negb (String.eqb (lr_id r) (ae_id e))) (db_audit_log (openDatabase None)) ++ [entry_row e];
      db_request_body := db_request_body (openDatabase None) |}.
    clear. induction es as [|e es IH]; intros db; [by exists db|]. cbn [fold_left]. unfold appendAuditLog at 2. apply IH. }
  rewrite Edb in Hrows |- *. change (db_audit_log (openDatabase (Some db))) with (db_audit_log db) in Hrows.
  unfold queryAuditLogs. change (af_sessionIds no_filter) with (@None (list string)).
  assert (∃ where_, where_rows no_filter = Some where_ ∧ ∀ r, where_ r = true) as (where_ & -> & Hall).
  { unfold where_rows. cbn. eexists. split; [done|]. done. }
  cbn [mbind option_bind normaliseLimit no_filter af_limit]. rewrite Hrows.
  assert (List.filter where_ (map entry_row es) = map entry_row es) as Hf.
  { clear -Hall. induction es as [|e es IH]; [done|]. cbn [map List.filter]. by rewrite Hall, IH. }
  set (sorted := select_rows None where_ (map entry_row es)).
  assert (sorted ≡ₚ map entry_row es) as Hp by (unfold sorted, select_rows; rewrite order_by_perm, Hf; done).
  apply Permutation_map_inv in Hp as (entries & Eentries & Hp). exists entries.
  split_and!; [|by symmetry|].
  - rewrite Eentries. apply mapM_entries. intros e He. apply Hj. eapply Permutation_in; [symmetry; exact Hp|done].
  - pose proof (selected_sorted where_ (map entry_row es)) as Hs. fold sorted in Hs. rewrite Eentries in Hs. revert Hs. clear.
    induction entries as [|e entries IH]; intros Hs; [constructor|]. cbn [map] in Hs.
    apply StronglySorted_inv in Hs as [Hs Hx]. constructor; [by apply IH|]. rewrite Forall_forall in Hx.
    apply Forall_forall. intros x Hin. apply list_elem_of_In, (in_map entry_row), list_elem_of_In, Hx in Hin as Hle.
    cbn in Hle. unfold test_order, log_le in Hle. cbn in Hle.
    unfold text_le. by destruct (String.compare _ _).
Qed.

(** ** Witnesses *)

Definition sample_entry (id timestamp command : string) (headers : option JsonValue) : AuditLogEntry := {|
  ae_id := id; ae_timestamp := timestamp; ae_domain := "hostexec"; ae_sessionId := "Session-A"; ae_requestId := "r";
  ae_decision := "allow"; ae_reason := "rule"; ae_phase := None; ae_ruleId := None; ae_method := None; ae_route := None;
  ae_path := None; ae_requestPolicyKind := None; ae_requestPolicyResult := None; ae_scope := None; ae_target := None;
  ae_command := Some command; ae_injectedHeaders := headers; ae_violations := None; ae_bodyDiagnostic := None;
  ae_requestBodyAuditStatus := None; ae_principal := None |}.

Definition sample_log : list AuditLogEntry := [
  sample_entry "b" "2024-05-02T00:00:00.500Z" "git status" (Some (JArray [JScalar (ScString "authorization")]));
  sample_entry "a" "2024-05-01T10:00:00.000Z" "/opt/nas/bin/nas hook stop" None;
  sample_entry "c" "2024-05-02T09:00:00.000Z" "git push" None].

Definition sample_filter : AuditLogFilter := {|
  af_startDate := Some "2024-05-02"; af_endDate := Some "2024-05-02"; af_before := None; af_sessionIds := None;
  af_sessionContains := Some "sion-a"; af_domain := Some "hostexec"; af_excludeCommandPrefixes := Some ["nas hook"];
  af_limit := Some (Some 5%Z) |}.

Definition sample_times : Times := {| tm_start := Some 19845%Z; tm_end := Some 19845%Z; tm_before := None |}.

Lemma query_exact_witness :
  ∃ rows, queryAuditLogs sample_filter (logged sample_log) = mapM rowToEntry (last_rows (Some 5%nat) rows) ∧
    List.NoDup (map lr_id rows).
Proof.
  destruct (logged sample_log) as [db|] eqn:E; [|vm_compute in E; discriminate].
  destruct (query_exact sample_filter sample_times db) as (rows & Hq & _ & _ & Hu & _).
  - exact parse_iso_day.
  - assert (four_digits 19845 ∧ four_digits 19846) as [H1 H2] by (repeat split; vm_compute; discriminate || reflexivity).
    split; [vm_compute; reflexivity..| | |]; intros d Hd; cbn in Hd; [injection Hd as <-|injection Hd as <-|discriminate];
      [exact H1|split; [exact H1|exact H2]].
  - discriminate.
  - vm_compute in E. injection E as <-. apply NoDup_ListNoDup. vm_compute. repeat constructor; set_solver.
  - vm_compute in E. injection E as <-. intros r [<-|[<-|[<-|[]]]]; cbn.
    + exists 1714608000500%Z. split; [vm_compute; reflexivity|split; vm_compute; discriminate || reflexivity].
    + exists 1714557600000%Z. split; [vm_compute; reflexivity|split; vm_compute; discriminate || reflexivity].
    + exists 1714640400000%Z. split; [vm_compute; reflexivity|split; vm_compute; discriminate || reflexivity].
  - exists rows. split; [exact Hq|exact Hu].
Defined.

Lemma log_round_trip_witness :
  ∃ entries, queryAuditLogs no_filter (logged sample_log) = Some (map with_phase entries) ∧ entries ≡ₚ sample_log.
Proof.
  destruct (log_round_trip sample_log) as (entries & Hq & Hp & _).
  - discriminate.
  - apply NoDup_ListNoDup. vm_compute. repeat constructor; set_solver.
  - intros e [<-|[<-|[<-|[]]]] column v [<-|[<-|[<-|[<-|[]]]]] Hv; try discriminate. injection Hv as <-. vm_compute. reflexivity.
  - exists entries. split; [exact Hq|exact Hp].
Defined.

(** ** The first second of a day *)

(** The entry of half a second past midnight is not found on its day, but on the day
    before: the bounds have no milliseconds, and `.` comes before `Z`. *)
Example first_second_misfiled :
  let day d := {| af_startDate := Some d; af_endDate := Some d; af_before := None; af_sessionIds := None;
                  af_sessionContains := None; af_domain := None; af_excludeCommandPrefixes := None; af_limit := None |} in
  (map ae_id <$> queryAuditLogs (day "2024-05-02") (logged sample_log)) = Some ["c"] ∧
  (map ae_id <$> queryAuditLogs (day "2024-05-01") (logged sample_log)) = Some ["a"; "b"].
Proof. split; vm_compute; reflexivity. Qed.
