(* ===== verification/PortForward.v ===== *)
(** * Port forwards (network/port_forward_model.ts)

    A forward connects a port of the host to a port of the container, in one of two
    directions, on behalf of one or more owners.  A chain of forwards that leads back
    to where it starts would loop every connection; [createsForwardCycle] refuses
    it. *)
From S2P Require Import Prelude JsString Json AuthzTypes Semantics BrokerKeys.

Inductive ForwardDirection : Type := DirLocal | DirRemote.
#[export] Instance ForwardDirection_eq_dec : EqDecision ForwardDirection.
Proof. solve_decision. Defined.

Inductive ForwardOwner : Type := OwnConfig | OwnDynamic | OwnInternal.
#[export] Instance ForwardOwner_eq_dec : EqDecision ForwardOwner.
Proof. solve_decision. Defined.

Definition ForwardDirection_string (d : ForwardDirection) : string :=
  match d with DirLocal => "local" | DirRemote => "remote" end.

Record ForwardSpec : Type := {
  fs_direction : ForwardDirection;
  fs_hostPort : Z;
  fs_containerPort : Z;
}.

Inductive ForwardState : Type := FwPending | FwActive | FwUnavailable | FwFailed.
#[export] Instance ForwardState_eq_dec : EqDecision ForwardState.
Proof. solve_decision. Defined.

(** `ManagedForward extends ForwardSpec` *)
Record ManagedForward : Type := {
  mf_spec : ForwardSpec;
  mf_owners : list ForwardOwner;
  mf_createdAt : string;
  mf_state : ForwardState;
  mf_error : option string;
}.

Definition mf_hostPort (e : ManagedForward) : Z := fs_hostPort (mf_spec e).
Definition mf_containerPort (e : ManagedForward) : Z := fs_containerPort (mf_spec e).
Definition is_local (spec : ForwardSpec) : bool := bool_decide (fs_direction spec = DirLocal).

Definition with_owners (e : ManagedForward) (owners : list ForwardOwner) : ManagedForward := {|
  mf_spec := mf_spec e; mf_owners := owners; mf_createdAt := mf_createdAt e;
  mf_state := mf_state e; mf_error := mf_error e |}.

Definition with_state (e : ManagedForward) (state : ForwardState) (error : option string) :
    ManagedForward := {|
  mf_spec := mf_spec e; mf_owners := mf_owners e; mf_createdAt := mf_createdAt e;
  mf_state := state; mf_error := error |}.

Definition removeUserOwners (entry : ManagedForward) : option ManagedForward :=
  let owners := List.filter (λ owner, bool_decide (owner = OwnInternal)) (mf_owners entry) in
  if (length owners =? 0)%nat then None else Some (with_owners entry owners).

(** A copy of an immutable value is the value. *)
Definition copyManagedForward (entry : ManagedForward) : ManagedForward := {|
  mf_spec := {| fs_direction := fs_direction (mf_spec entry); fs_hostPort := fs_hostPort (mf_spec entry);
                fs_containerPort := fs_containerPort (mf_spec entry) |};
  mf_owners := mf_owners entry; mf_createdAt := mf_createdAt entry; mf_state := mf_state entry;
  mf_error := mf_error entry |}.

Definition forwardKey (direction : ForwardDirection) (containerPort : Z) : string :=
  ForwardDirection_string direction +:+ ":" +:+ Z_to_string containerPort.

Definition spec_key (spec : ForwardSpec) : string :=
  forwardKey (fs_direction spec) (fs_containerPort spec).

(** ** Cycles *)

Definition host_node (port : Z) : string := "host:" +:+ Z_to_string port.
Definition container_node (port : Z) : string := "container:" +:+ Z_to_string port.

Definition endpoints (entry : ForwardSpec) : string * string :=
  match fs_direction entry with
  | DirLocal => (host_node (fs_hostPort entry), container_node (fs_containerPort entry))
  | DirRemote => (container_node (fs_containerPort entry), host_node (fs_hostPort entry))
  end.

(** The loop over [node]; each turn that goes on adds one node to [visited]. *)
Fixpoint cycle_loop (fuel : nat) (edges : list (string * string)) (source : string)
    (node : option string) (visited : list string) : bool :=
  match node with
  | None => false
  | Some n =>
      if includes visited n then false
      else if String.eqb n source then true
      else match fuel with
           | 0 => false
           | S fuel => cycle_loop fuel edges source (map_get edges n) (visited ++ [n])
           end
  end.

Definition createsForwardCycle (entries : list ForwardSpec) (added : ForwardSpec) : bool :=
  let edges := map_set_all [] (map endpoints entries) in
  let '(source, target) := endpoints added in
  cycle_loop (S (length edges)) edges source (Some target) [].

(** ** The loop finds exactly the paths *)

Section Walk.
Context (edges : list (string * string)).

Definition next (a b : string) : Prop := map_get edges a = Some b.

Fixpoint steps (n : nat) (a : string) : option string :=
  match n with 0 => Some a | S n => b ← map_get edges a; steps n b end.

Lemma steps_rtc a b : rtc next a b ↔ ∃ n, steps n a = Some b.
Proof.
  split.
  - induction 1 as [a|a c b Hc _ [n Hn]]; [by exists 0|]. exists (S n). cbn. by rewrite Hc.
  - intros [n Hn]. revert a Hn. induction n as [|n IH]; intros a; cbn; [by intros [= ->]|].
    destruct (map_get edges a) as [c|] eqn:E; cbn; [|done]. intros Hn.
    eapply rtc_l; [exact E|]. by apply IH.
Qed.

Lemma cycle_loop_sound fuel source node visited :
  cycle_loop fuel edges source node visited = true → ∃ n, node = Some n ∧ rtc next n source.
Proof.
  revert node visited. induction fuel as [|fuel IH]; intros [n|] visited; cbn; try done;
    destruct (includes visited n); try done;
    destruct (String.eqb_spec n source) as [->|]; try done; try (intros _; by exists source).
  intros (m & Hm & Hp)%IH. exists n. split; [done|]. by eapply rtc_l.
Qed.

(** A walk that has not come back: [visited] are the nodes it left, all distinct. *)
Lemma cycle_loop_complete n : ∀ fuel source a visited,
  steps n a = Some source →
  (∀ k, k < n → steps k a ≠ Some source)%nat →
  List.NoDup visited → (∀ v, In v visited → In v (map_keys edges)) →
  (∀ k v, k ≤ n → steps k a = Some v → ¬ In v visited)%nat →
  (length edges < length visited + fuel)%nat →
  cycle_loop fuel edges source (Some a) visited = true.
Proof.
  induction n as [|n IH]; intros fuel source a visited Hn Hmin Hnd Hkeys Hnew Hfuel.
  - cbn in Hn. injection Hn as ->. pose proof (Hnew 0 source ltac:(lia) eq_refl) as Hv.
    apply includes_false in Hv.
    destruct fuel; cbn; by rewrite Hv, String.eqb_refl.
  - cbn in Hn. destruct (map_get edges a) as [b|] eqn:Ea; [|done]. cbn in Hn.
    pose proof (Hnew 0 a ltac:(lia) eq_refl) as Hv.
    assert (a ≠ source) as Hne by (intros ->; by apply (Hmin 0 ltac:(lia))).
    assert (In a (map_keys edges)) as Hkey.
    { apply map_get_In in Ea. by apply (in_map fst) in Ea. }
    destruct fuel as [|fuel].
    { exfalso. assert (length (a :: visited) ≤ length (map_keys edges))%nat as Hl.
      { apply NoDup_incl_length; [by constructor|]. intros x [<-|Hx]; auto. }
      unfold map_keys in Hl. rewrite length_fmap in Hl. cbn in Hl. lia. }
    cbn. apply includes_false in Hv. rewrite Hv. apply String.eqb_neq in Hne. rewrite Hne, Ea.
    apply includes_false in Hv.
    assert (List.NoDup (visited ++ [a])) as Hnd'.
    { apply NoDup_ListNoDup, NoDup_app. rewrite NoDup_ListNoDup. split_and!; [done| |apply NoDup_singleton].
      intros x Hx ->%list_elem_of_singleton. by apply Hv, list_elem_of_In. }
    apply IH; [done| |done| | |rewrite length_app; cbn; lia].
    + intros k Hk Hs. apply (Hmin (S k) ltac:(lia)). cbn. by rewrite Ea.
    + intros v [Hx|[<-|[]]]%in_app_iff; auto.
    + intros k v Hk Hs [Hx|[<-|[]]]%in_app_iff.
      * apply (Hnew (S k) v ltac:(lia)); [|done]. cbn. by rewrite Ea.
      * (* the walk is back at [a]: it would reach the source sooner *)
        apply (Hmin (n - k)%nat ltac:(lia)).
        assert (∀ i j x, steps (i + j)%nat x = (y ← steps i x; steps j y)) as Hadd.
        { clear. induction i as [|i IH]; intros j x; cbn; [done|].
          destruct (map_get edges x) as [y|]; [apply IH|done]. }
        rewrite <- Hn. replace n with (k + (n - k))%nat at 2 by lia. by rewrite Hadd, Hs.
Qed.

Lemma cycle_loop_spec source target :
  cycle_loop (S (length edges)) edges source (Some target) [] = true ↔ rtc next target source.
Proof.
  split; [intros (n & [= <-] & ?)%cycle_loop_sound; done|]. intros [n Hn]%steps_rtc.
  assert (∃ n, steps n target = Some source ∧ ∀ k, (k < n)%nat → steps k target ≠ Some source)
    as (m & Hm & Hmin).
  { clear -Hn. induction (lt_wf n) as [n _ IH].
    destruct (decide (Exists (λ k, steps k target = Some source) (seq 0 n))) as [He|He].
    - apply Exists_exists in He as (k & Hk%elem_of_seq & Hs). by apply (IH k); [lia|].
    - exists n. split; [done|]. intros k Hk Hs. apply He, Exists_exists. exists k.
      split; [apply elem_of_seq; lia|done]. }
  apply (cycle_loop_complete m); try done; [constructor|naive_solver|cbn; lia].
Qed.
End Walk.

(** ** Tables of forwards *)

Definition edge (entries : list ForwardSpec) (a b : string) : Prop :=
  In (a, b) (map endpoints entries).

(** No chain of forwards leads back to where it starts. *)
Definition acyclic (entries : list ForwardSpec) : Prop := ∀ a, ¬ tc (edge entries) a a.

(** The ports that are listened on. *)
Definition sources (entries : list ForwardSpec) : list string := map_keys (map endpoints entries).

Lemma map_set_all_fresh {K V} `{EqDecision K} (es : list (K * V)) : ∀ m,
  List.NoDup (map_keys (m ++ es)) → map_set_all m es = m ++ es.
Proof.
  unfold map_keys. induction es as [|[k v] es IH]; intros m Hnd; cbn; [by rewrite app_nil_r|].
  rewrite fmap_app in Hnd. cbn in Hnd. rewrite map_set_missing.
  - unfold map_set_all in IH. rewrite IH.
    + by rewrite <- app_assoc.
    + by rewrite <- app_assoc, fmap_app.
  - apply map_get_None. intros Hin. apply NoDup_ListNoDup, NoDup_app in Hnd as (_ & Hd & _).
    by apply (Hd k); [apply list_elem_of_In|left].
Qed.

Lemma edges_lookup entries a b :
  List.NoDup (sources entries) →
  map_get (map_set_all [] (map endpoints entries)) a = Some b ↔ edge entries a b.
Proof.
  intros Hnd. rewrite map_set_all_fresh by done. split; [apply map_get_In|by apply map_get_NoDup].
Qed.

Section Add.
Context (entries : list ForwardSpec) (added : ForwardSpec).
Context (Hnd : List.NoDup (sources (entries ++ [added]))).

Abbreviation source := (endpoints added).1.
Abbreviation target := (endpoints added).2.

Lemma edge_app a b : edge (entries ++ [added]) a b ↔ edge entries a b ∨ a = source ∧ b = target.
Proof.
  unfold edge. rewrite map_app, in_app_iff. cbn. destruct (endpoints added). naive_solver.
Qed.

Lemma sources_entries : List.NoDup (sources entries) ∧ ¬ In source (sources entries).
Proof.
  unfold sources, map_keys in *. rewrite map_app, fmap_app in Hnd. cbn in Hnd.
  apply NoDup_ListNoDup, NoDup_app in Hnd as (H1 & H2 & _). split; [by apply NoDup_ListNoDup|].
  intros Hin. apply (H2 source); [by apply list_elem_of_In|by left].
Qed.

(** The added source has no other way out, so a path to it does not need the added
    forward. *)
Lemma rtc_to_source a : rtc (edge (entries ++ [added])) a source → rtc (edge entries) a source.
Proof.
  intros H. remember source as s eqn:Es. revert Es. induction H as [a|a b c Hab Hbc IH]; intros ->.
  - apply rtc_refl.
  - apply edge_app in Hab as [Hab|[-> _]]; [|apply rtc_refl]. eapply rtc_l; [exact Hab|by apply IH].
Qed.

Lemma tc_split a b : tc (edge (entries ++ [added])) a b →
  tc (edge entries) a b ∨
  (rtc (edge (entries ++ [added])) a source ∧ rtc (edge (entries ++ [added])) target b).
Proof.
  induction 1 as [a b Hab|a b c Hab Hbc IH].
  - apply edge_app in Hab as [Hab|[-> ->]]; [left; by apply tc_once|right; split; apply rtc_refl].
  - pose proof Hab as [Hab'|[-> ->]]%edge_app.
    + destruct IH as [IH|[IH1 IH2]]; [left; by eapply tc_l|right]. split; [by eapply rtc_l|done].
    + right. split; [apply rtc_refl|by apply tc_rtc].
Qed.

Lemma createsForwardCycle_path :
  createsForwardCycle entries added = true ↔ rtc (edge entries) target source.
Proof.
  unfold createsForwardCycle. rewrite (surjective_pairing (endpoints added)), cycle_loop_spec.
  destruct sources_entries as [Hs _].
  split; apply rtc_subrel; intros a b; by apply edges_lookup.
Qed.
End Add.

Lemma acyclic_add entries added :
  List.NoDup (sources (entries ++ [added])) → acyclic entries →
  createsForwardCycle entries added = false → acyclic (entries ++ [added]).
Proof.
  intros Hnd Hac Hno a [Ht|[H1 H2]]%tc_split; [by eapply Hac|].
  assert (createsForwardCycle entries added = true) as Hyes; [|congruence].
  apply createsForwardCycle_path; [done|]. apply rtc_to_source. by etrans.
Qed.

Lemma edge_sub entries entries' a b :
  (∀ e, In e entries' → In e entries) → edge entries' a b → edge entries a b.
Proof. intros Hsub (e & He & Hin)%in_map_iff. apply in_map_iff. exists e. auto. Qed.

Lemma acyclic_sub entries entries' :
  (∀ e, In e entries' → In e entries) → acyclic entries → acyclic entries'.
Proof.
  intros Hsub Hac a Ht. apply (Hac a). revert Ht. apply (tc_congruence (λ x, x)). intros x y. by apply edge_sub.
Qed.

(** The check for cycles is exact: where no two forwards listen on the same port
    and no chain of forwards leads back to its start, a new forward is refused as a
    cycle exactly when it would close one; the walk along the forwards always
    ends. *)
Theorem createsForwardCycle_exact entries added
    (Hsources : List.NoDup (sources (entries ++ [added]))) (Hacyclic : acyclic entries) :
  createsForwardCycle entries added = true ↔ ¬ acyclic (entries ++ [added]).
Proof.
  split.
  - intros Hp%createsForwardCycle_path Hac; [|done]. apply (Hac (endpoints added).1).
    eapply tc_rtc_r; [apply tc_once, edge_app; right; by split|].
    revert Hp. apply rtc_subrel. intros a b ?. apply edge_app. by left.
  - intros Hn. destruct (createsForwardCycle entries added) eqn:E; [done|].
    exfalso. by apply Hn, acyclic_add.
Qed.

Definition local_forward (hostPort containerPort : Z) : ForwardSpec :=
  {| fs_direction := DirLocal; fs_hostPort := hostPort; fs_containerPort := containerPort |}.
Definition remote_forward (containerPort hostPort : Z) : ForwardSpec :=
  {| fs_direction := DirRemote; fs_hostPort := hostPort; fs_containerPort := containerPort |}.

Lemma acyclic_nil : acyclic [].
Proof. intros a Ht. apply tc_nsteps in Ht as ([|n] & Hn & Ht); [lia|]. by inversion Ht. Qed.

Lemma createsForwardCycle_exact_witness :
  ¬ acyclic [local_forward 8080 80; remote_forward 80 8080].
Proof.
  apply (createsForwardCycle_exact [local_forward 8080 80] (remote_forward 80 8080)).
  - repeat constructor; vm_compute; naive_solver.
  - apply (acyclic_add []); [|exact acyclic_nil|vm_compute; reflexivity].
    repeat constructor; vm_compute; naive_solver.
  - vm_compute. reflexivity.
Defined.
