(* ===== verification/Effects.v ===== *)
(** * Asynchronous methods

    A method of a class with mutable state, as a program: it reads and writes the
    state, calls operations of the outside world, and waits for some of them.
    Between two waits it runs alone; at an `await` everything else may run.
    [Effects] names the operations, what they answer, and what of the outside world
    they change; a rejected promise and a thrown exception are one thing.

    [safe] is the weakest precondition of a program under interference, [machine] a
    queue of methods that run one after the other (a promise chain), interleaved
    with synchronous calls.  Threads has methods that run concurrently. *)
From S2P Require Import Prelude.

Class Effects : Type := {
  IO : Type;
  reply : IO → Type;
  (** what can be thrown *)
  fault : Type;
  (** what the theorems follow of the outside world *)
  world : Type;
  (** the world after an operation has answered *)
  react : world → ∀ io, reply io + fault → world;
}.

Section Programs.
Context `{Effects} {S : Type}.
Abbreviation E := fault.
Abbreviation W := world.

Inductive prog (A : Type) : Type :=
  | Ret (a : A)
  | Throw (e : E)
  | Read (k : S → prog A)
  | Write (s : S) (k : prog A)
  (** an operation that answers at once *)
  | Call (io : IO) (k : reply io + E → prog A)
  (** an operation that is waited for *)
  | Await (io : IO) (k : reply io + E → prog A).
#[global] Arguments Ret {A} a.
#[global] Arguments Throw {A} e.
#[global] Arguments Read {A} k.
#[global] Arguments Write {A} s k.
#[global] Arguments Call {A} io k.
#[global] Arguments Await {A} io k.

#[global] Instance prog_ret : MRet prog := @Ret.

#[global] Instance prog_bind : MBind prog := λ A B f, fix bind (m : prog A) : prog B :=
  match m with
  | Ret a => f a
  | Throw e => Throw e
  | Read k => Read (λ s, bind (k s))
  | Write s k => Write s (bind k)
  | Call io k => Call io (λ r, bind (k r))
  | Await io k => Await io (λ r, bind (k r))
  end.

#[global] Instance prog_fmap : FMap prog := λ A B f m, m ≫= λ a, Ret (f a).

(** `try { m } catch (e) { h(e) }` *)
Fixpoint try {A} (m : prog A) (h : E → prog A) : prog A :=
  match m with
  | Ret a => Ret a
  | Throw e => h e
  | Read k => Read (λ s, try (k s) h)
  | Write s k => Write s (try k h)
  | Call io k => Call io (λ r, try (k r) h)
  | Await io k => Await io (λ r, try (k r) h)
  end.

Definition answered {A} (r : A + E) : prog A :=
  match r with inl a => Ret a | inr e => Throw e end.

Definition get : prog S := Read Ret.
Definition modify (f : S → S) : prog () := Read (λ s, Write (f s) (Ret ())).
Definition call (io : IO) : prog (reply io) := Call io answered.
Definition await (io : IO) : prog (reply io) := Await io answered.

(** ** Runs of one program

    [rely s w io r s' w'] is what everything else may do while the program, which
    left [s] and [w], waits for [io], and how [io] may be answered then. *)
Context (rely : S → W → ∀ io, reply io + E → S → W → Prop).

Inductive evaluates {A} : prog A → S → W → S → W → A + E → Prop :=
  | Eval_ret a s w : evaluates (Ret a) s w s w (inl a)
  | Eval_throw e s w : evaluates (Throw e) s w s w (inr e)
  | Eval_read k s w s' w' r : evaluates (k s) s w s' w' r → evaluates (Read k) s w s' w' r
  | Eval_write s0 k s w s' w' r : evaluates k s0 w s' w' r → evaluates (Write s0 k) s w s' w' r
  | Eval_call io k a s w s' w' r :
      evaluates (k a) s (react w io a) s' w' r → evaluates (Call io k) s w s' w' r
  | Eval_await io k a s w s1 w1 s' w' r :
      rely s w io a s1 w1 → evaluates (k a) s1 (react w1 io a) s' w' r →
      evaluates (Await io k) s w s' w' r.

(** [Q] holds at the end, and [I] at every wait, whatever is answered and whatever
    happens meanwhile. *)
Fixpoint safe {A} (I : S → W → Prop) (Q : S → W → A + E → Prop) (m : prog A) (s : S) (w : W) : Prop :=
  match m with
  | Ret a => Q s w (inl a)
  | Throw e => Q s w (inr e)
  | Read k => safe I Q (k s) s w
  | Write s' k => safe I Q k s' w
  | Call io k => ∀ r, safe I Q (k r) s (react w io r)
  | Await io k => I s w ∧ ∀ r s' w', rely s w io r s' w' → safe I Q (k r) s' (react w' io r)
  end.

Lemma safe_bind {A B} I Q (m : prog A) (f : A → prog B) s w :
  safe I (λ s w r, match r with inl a => safe I Q (f a) s w | inr e => Q s w (inr e) end) m s w →
  safe I Q (m ≫= f) s w.
Proof.
  revert s w. induction m as [a|e|k IH|s0 k IH|io k IH|io k IH]; intros s w; cbn; auto.
  intros [Hi Hk]. auto.
Qed.

Lemma safe_mono {A} (I : S → W → Prop) (Q Q' : S → W → A + E → Prop) m s w :
  safe I Q m s w → (∀ s w r, Q s w r → Q' s w r) → safe I Q' m s w.
Proof.
  intros Hs HQ. revert s w Hs.
  induction m as [a|e|k IH|s0 k IH|io k IH|io k IH]; intros s w; cbn; auto.
  intros [Hi Hk]. auto.
Qed.

Lemma safe_fmap {A B} I Q (m : prog A) (f : A → B) s w :
  safe I (λ s w r, Q s w match r with inl a => inl (f a) | inr e => inr e end) m s w →
  safe I Q (f <$> m) s w.
Proof. intros Hm. apply safe_bind. eapply safe_mono; [exact Hm|]. by intros ?? [a|e]. Qed.

Lemma safe_try {A} I Q (m : prog A) h s w :
  safe I (λ s w r, match r with inl a => Q s w (inl a) | inr e => safe I Q (h e) s w end) m s w →
  safe I Q (try m h) s w.
Proof.
  revert s w. induction m as [a|e|k IH|s0 k IH|io k IH|io k IH]; intros s w; cbn; auto.
  intros [Hi Hk]. auto.
Qed.

(** [safe_bind] through an intermediate assertion. *)
Lemma safe_seq {A B} I (R : S → W → A + E → Prop) Q (m : prog A) (f : A → prog B) s w :
  safe I R m s w →
  (∀ s w a, R s w (inl a) → safe I Q (f a) s w) → (∀ s w e, R s w (inr e) → Q s w (inr e)) →
  safe I Q (m ≫= f) s w.
Proof. intros Hm Hf He. apply safe_bind. eapply safe_mono; [exact Hm|]. intros ?? [a|e]; auto. Qed.

Lemma safe_catch {A} I (R Q : S → W → A + E → Prop) (m : prog A) h s w :
  safe I R m s w →
  (∀ s w a, R s w (inl a) → Q s w (inl a)) → (∀ s w e, R s w (inr e) → safe I Q (h e) s w) →
  safe I Q (try m h) s w.
Proof. intros Hm Hf He. apply safe_try. eapply safe_mono; [exact Hm|]. intros ?? [a|e]; auto. Qed.

Lemma safe_evaluates {A} I Q (m : prog A) s w s' w' r :
  safe I Q m s w → evaluates m s w s' w' r → Q s' w' r.
Proof. intros Hs He. induction He; cbn in Hs; auto. destruct Hs as [_ Hs]. eauto. Qed.

(** The steps of a program. *)
Lemma safe_get {B} I Q (f : S → prog B) s w : safe I Q (f s) s w → safe I Q (get ≫= f) s w.
Proof. done. Qed.

Lemma safe_modify {B} I Q g (f : () → prog B) s w : safe I Q (f ()) (g s) w → safe I Q (modify g ≫= f) s w.
Proof. done. Qed.

Lemma safe_modify_last I (Q : S → W → () + E → Prop) g s w : Q (g s) w (inl ()) → safe I Q (modify g) s w.
Proof. done. Qed.

Lemma safe_ret {A} I (Q : S → W → A + E → Prop) a s w : Q s w (inl a) → safe I Q (mret a) s w.
Proof. done. Qed.

Lemma safe_ret_bind {A B} I Q (a : A) (f : A → prog B) s w : safe I Q (f a) s w → safe I Q (mret a ≫= f) s w.
Proof. done. Qed.

Lemma safe_throw {A} I (Q : S → W → A + E → Prop) e s w : Q s w (inr e) → safe I Q (Throw e) s w.
Proof. done. Qed.

Lemma safe_throw_bind {A B} I Q e (f : A → prog B) s w : Q s w (inr e) → safe I Q (Throw e ≫= f) s w.
Proof. done. Qed.

Lemma safe_call {A} I Q io (f : reply io → prog A) s w :
  (∀ r, safe I Q (answered r ≫= f) s (react w io r)) → safe I Q (call io ≫= f) s w.
Proof. intros Hf r. destruct r; apply Hf. Qed.

Lemma safe_call_last I io (Q : S → W → reply io + E → Prop) s w :
  (∀ r, Q s (react w io r) r) → safe I Q (call io) s w.
Proof. intros Hf [a|e]; apply Hf. Qed.

Lemma safe_await {A} I Q io (f : reply io → prog A) s w :
  I s w → (∀ r s' w', rely s w io r s' w' → safe I Q (answered r ≫= f) s' (react w' io r)) →
  safe I Q (await io ≫= f) s w.
Proof. intros Hi Hf. split; [done|]. intros r s' w' Hs. destruct r; by apply (Hf _ s' w' Hs). Qed.

Lemma safe_await_last I io (Q : S → W → reply io + E → Prop) s w :
  I s w → (∀ r s' w', rely s w io r s' w' → Q s' (react w' io r) r) → safe I Q (await io) s w.
Proof. intros Hi Hf. split; [done|]. intros r s' w' Hs. destruct r; by apply (Hf _ s' w' Hs). Qed.

Lemma safe_assoc {A B C} I Q (m : prog A) (f : A → prog B) (g : B → prog C) s w :
  safe I Q (m ≫= λ a, f a ≫= g) s w → safe I Q ((m ≫= f) ≫= g) s w.
Proof.
  revert s w. induction m as [a|e|k IH|s0 k IH|io k IH|io k IH]; intros s w; cbn;
    [done|done|apply IH|apply IH| |].
  - intros Hk r. apply IH, Hk.
  - intros [Hi Hk]. split; [done|]. intros r s' w' Hs. by apply IH, Hk.
Qed.

(** Every program ends, whatever it is answered. *)
Lemma evaluates_total {A} (m : prog A) (answers : ∀ io, reply io + E) s w :
  (∀ s w io, rely s w io (answers io) s w) → ∃ s' w' r, evaluates m s w s' w' r.
Proof.
  intros Hr. revert s w. induction m as [a|e|k IH|s0 k IH|io k IH|io k IH]; intros s w.
  - eexists _, _, _. constructor.
  - eexists _, _, _. constructor.
  - destruct (IH s s w) as (s' & w' & r & He). eexists _, _, _. by constructor.
  - destruct (IH s0 w) as (s' & w' & r & He). eexists _, _, _. by constructor.
  - destruct (IH (answers io) s (react w io (answers io))) as (s' & w' & r & He).
    eexists _, _, _. by econstructor.
  - destruct (IH (answers io) s (react w io (answers io))) as (s' & w' & r & He).
    eexists _, _, _. by eapply Eval_await.
Qed.

(** A run alone, answered by an oracle. *)
Fixpoint run {A} (answers : ∀ io, reply io + E) (m : prog A) (s : S) (w : W) : S * W * (A + E) :=
  match m with
  | Ret a => (s, w, inl a)
  | Throw e => (s, w, inr e)
  | Read k => run answers (k s) s w
  | Write s' k => run answers k s' w
  | Call io k | Await io k => run answers (k (answers io)) s (react w io (answers io))
  end.

Lemma run_evaluates {A} answers (m : prog A) s w :
  (∀ s w io, rely s w io (answers io) s w) →
  evaluates m s w (run answers m s w).1.1 (run answers m s w).1.2 (run answers m s w).2.
Proof.
  intros Hr. revert s w. induction m as [a|e|k IH|s0 k IH|io k IH|io k IH]; intros s w; cbn [run];
    [constructor..| |]; try apply IH.
  - econstructor. apply IH.
  - eapply Eval_await; [done|apply IH].
Qed.

(** ** Segments

    What runs until the next wait; calls are answered by an oracle. *)
Inductive paused (A : Type) : Type :=
  | Finished (r : A + E)
  | Blocked (io : IO) (k : reply io + E → prog A).
#[global] Arguments Finished {A} r.
#[global] Arguments Blocked {A} io k.

Fixpoint segment {A} (answers : ∀ io, reply io + E) (m : prog A) (s : S) (w : W) : S * W * paused A :=
  match m with
  | Ret a => (s, w, Finished (inl a))
  | Throw e => (s, w, Finished (inr e))
  | Read k => segment answers (k s) s w
  | Write s' k => segment answers k s' w
  | Call io k => segment answers (k (answers io)) s (react w io (answers io))
  | Await io k => (s, w, Blocked io k)
  end.

Lemma safe_segment {A} I Q answers (m : prog A) s w :
  safe I Q m s w →
  match segment answers m s w with
  | (s', w', Finished r) => Q s' w' r
  | (s', w', Blocked io k) =>
      I s' w' ∧ ∀ r s'' w'', rely s' w' io r s'' w'' → safe I Q (k r) s'' (react w'' io r)
  end.
Proof.
  revert s w. induction m as [a|e|k IH|s0 k IH|io k IH|io k IH]; intros s w; cbn; auto; try apply IH.
  intros Hk. apply IH, Hk.
Qed.
End Programs.

Arguments prog {_} S A.

(** ** What a method does to the state

    [moves m]: whatever is answered and whatever happens meanwhile, the state after
    [m] is related to the one before it. *)

Section Moves.
Context `{Effects} {S : Type}.
Context (rely : S → world → ∀ io, reply io + fault → S → world → Prop).
Context (T : S → S → Prop) `{!PreOrder T}.
Context (Hrely : ∀ s w io r s' w', rely s w io r s' w' → T s s').

Definition moves {A} (m : prog S A) : Prop :=
  ∀ s w, safe rely (λ _ _, True) (λ s' _ _, T s s') m s w.

Lemma moves_from {A} (m : prog S A) s0 s w : moves m → T s0 s → safe rely (λ _ _, True) (λ s' _ _, T s0 s') m s w.
Proof. intros Hm Hs. eapply safe_mono; [apply Hm|]. intros s' w' r Hs'. by etrans. Qed.

Lemma moves_ret {A} (a : A) : moves (mret a).
Proof. intros s w. by apply safe_ret. Qed.

Lemma moves_throw {A} e : moves (Throw e : prog S A).
Proof. intros s w. by apply safe_throw. Qed.

Lemma moves_bind {A B} (m : prog S A) (f : A → prog S B) : moves m → (∀ a, moves (f a)) → moves (m ≫= f).
Proof.
  intros Hm Hf s w. eapply safe_seq; [apply Hm| |]; cbn; intros s1 w1 a Hs; [apply moves_from; auto|done].
Qed.

Lemma moves_try {A} (m : prog S A) h : moves m → (∀ e, moves (h e)) → moves (try m h).
Proof.
  intros Hm Hh s w. eapply safe_catch; [apply Hm| |]; cbn; intros s1 w1 a Hs; [done|apply moves_from; auto].
Qed.

Lemma moves_get {B} (f : S → prog S B) : (∀ s, moves (f s)) → moves (get ≫= f).
Proof. intros Hf s w. apply Hf. Qed.

Lemma moves_modify f : (∀ s, T s (f s)) → moves (modify f).
Proof. intros Hf s w. apply safe_modify_last, Hf. Qed.

Lemma moves_call io : moves (call io).
Proof. intros s w. refine (safe_call_last _ _ io _ _ _ _). by intros r. Qed.

Lemma moves_await io : moves (await io).
Proof. intros s w. refine (safe_await_last _ _ io _ _ _ _ _); [done|]. intros r s' w' Hr. by eapply Hrely. Qed.
End Moves.

(** ** A queue of methods *)

Section Queue.
Context `{Effects} {S : Type}.
Abbreviation E := fault.
Abbreviation W := world.

Record machine (R : Type) : Type := {
  m_state : S;
  m_world : W;
  (** the method that waits, with the number of its call *)
  m_current : option (nat * { io : IO & reply io + E → prog S R });
  m_queue : list (nat * prog S R);
  m_calls : nat;
  m_results : list (nat * (R + E));
}.
#[global] Arguments m_state {R} _.
#[global] Arguments m_world {R} _.
#[global] Arguments m_current {R} _.
#[global] Arguments m_queue {R} _.
#[global] Arguments m_calls {R} _.
#[global] Arguments m_results {R} _.
#[global] Arguments Build_machine {R} _ _ _ _ _ _.

Definition idle_machine (R : Type) (s : S) (w : W) : machine R := {|
  m_state := s; m_world := w; m_current := None; m_queue := []; m_calls := 0; m_results := [] |}.

(** A method goes on to its next wait or to its end. *)
Definition proceed {R} (answers : ∀ io, reply io + E) (m : machine R) (w : W)
    (queue : list (nat * prog S R)) (id : nat) (p : prog S R) : machine R :=
  let '(s, w, next) := segment answers p (m_state m) w in
  match next with
  | Finished r => {| m_state := s; m_world := w; m_current := None; m_queue := queue;
                     m_calls := m_calls m; m_results := m_results m ++ [(id, r)] |}
  | Blocked io k => {| m_state := s; m_world := w; m_current := Some (id, existT io k);
                       m_queue := queue; m_calls := m_calls m; m_results := m_results m |}
  end.

(** What the runtime does next: the waiting method is answered, or, when there is
    none, the first method of the queue starts. *)
Definition turn {R} (answers : ∀ io, reply io + E) (m : machine R) : machine R :=
  match m_current m with
  | Some (id, existT io k) =>
      proceed answers m (react (m_world m) io (answers io)) (m_queue m) id (k (answers io))
  | None =>
      match m_queue m with
      | [] => m
      | (id, p) :: queue => proceed answers m (m_world m) queue id p
      end
  end.

(** A synchronous call: it changes the state and may reject, or append a method. *)
Definition submit {R} (m : machine R) (s : S) (job : option (prog S R + E)) : machine R :=
  let id := m_calls m in
  {| m_state := s; m_world := m_world m; m_current := m_current m;
     m_queue := match job with Some (inl p) => m_queue m ++ [(id, p)] | _ => m_queue m end;
     m_calls := Datatypes.S id;
     m_results := match job with Some (inr e) => m_results m ++ [(id, inr e)] | _ => m_results m end |}.

(** ** An invariant of the machine

    Only synchronous calls happen while a method waits; [steady] is what they may do
    to the state.  [I] holds always, [J] when no method is under way. *)
Context (steady : S → S → Prop).

Definition meanwhile (s : S) (w : W) (io : IO) (r : reply io + E) (s' : S) (w' : W) : Prop :=
  steady s s' ∧ w' = w.

Lemma safe_await_meanwhile {A} I Q io (f : reply io → prog S A) s w :
  I s w → (∀ r s', steady s s' → safe meanwhile I Q (answered r ≫= f) s' (react w io r)) →
  safe meanwhile I Q (await io ≫= f) s w.
Proof. intros Hi Hf. apply safe_await; [done|]. intros r s' w' [Hs ->]. by apply Hf. Qed.

Lemma safe_await_last_meanwhile I io (Q : S → W → reply io + E → Prop) s w :
  I s w → (∀ r s', steady s s' → Q s' (react w io r) r) → safe meanwhile I Q (await io) s w.
Proof. intros Hi Hf. apply safe_await_last; [done|]. intros r s' w' [Hs ->]. by apply Hf. Qed.

Context (I J : S → W → Prop) (HJI : ∀ s w, J s w → I s w).
Context (Hrefl : ∀ s, steady s s) (Htrans : ∀ a b c, steady a b → steady b c → steady a c).

Definition job_safe {R} (p : prog S R) : Prop :=
  ∀ s w, J s w → safe meanwhile I (λ s w _, J s w) p s w.

Record machine_inv {R} (m : machine R) : Prop := {
  inv_always : I (m_state m) (m_world m);
  inv_idle : m_current m = None → J (m_state m) (m_world m);
  inv_current :
    match m_current m with
    | Some (_, existT io k) =>
        ∀ r s', steady (m_state m) s' →
          safe meanwhile I (λ s w _, J s w) (k r) s' (react (m_world m) io r)
    | None => True
    end;
  inv_queue : ∀ id p, In (id, p) (m_queue m) → job_safe p;
}.

Lemma machine_inv_idle R s w : J s w → machine_inv (idle_machine R s w).
Proof. intros Hs. split; cbn; auto; done. Qed.

Lemma machine_inv_proceed {R} answers (m : machine R) w queue id p :
  safe meanwhile I (λ s w _, J s w) p (m_state m) w → (∀ id p, In (id, p) queue → job_safe p) →
  machine_inv (proceed answers m w queue id p).
Proof.
  intros Hp Hq. apply (safe_segment _ _ _ answers) in Hp. unfold proceed.
  destruct (segment answers p (m_state m) w) as [[s w'] [r|io k]]; cbn in Hp.
  - split; cbn; auto; done.
  - destruct Hp as [Hi Hk]. split; [done|done| |done]. intros r s' Hs. by apply Hk.
Qed.

Lemma machine_inv_turn {R} answers (m : machine R) : machine_inv m → machine_inv (turn answers m).
Proof.
  intros Hm. unfold turn. pose proof (inv_current _ Hm) as Hk.
  destruct (m_current m) as [[id [io k]]|] eqn:Ec.
  - apply machine_inv_proceed; [by apply Hk|by apply inv_queue].
  - destruct (m_queue m) as [|[id p] queue] eqn:Eq; [done|]. apply machine_inv_proceed.
    + apply (inv_queue _ Hm id); [rewrite Eq; by left|by apply inv_idle].
    + intros i q Hin. apply (inv_queue _ Hm i). rewrite Eq. by right.
Qed.

Lemma machine_inv_submit {R} (m : machine R) s job :
  machine_inv m → steady (m_state m) s →
  (I (m_state m) (m_world m) → I s (m_world m)) → (J (m_state m) (m_world m) → J s (m_world m)) →
  match job with Some (inl p) => job_safe p | _ => True end →
  machine_inv (submit m s job).
Proof.
  intros Hm Hs Hi Hj Hjob. split; cbn.
  - by apply Hi, inv_always.
  - intros Hc. by apply Hj, inv_idle.
  - pose proof (inv_current _ Hm) as Hk. destruct (m_current m) as [[id [io k]]|]; [|done].
    intros r s' Hs'. apply Hk. by eapply Htrans.
  - intros id p Hin. destruct job as [[q|e]|]; [|by apply (inv_queue _ Hm id)..].
    apply in_app_iff in Hin as [Hin|[[= <- <-]|[]]]; [by apply (inv_queue _ Hm id)|done].
Qed.
End Queue.

(** One step of the program at hand; an operation leaves its two answers. *)
Ltac program_step :=
  lazymatch goal with
  | |- safe _ _ _ ((_ ≫= _) ≫= _) _ _ => apply safe_assoc
  | |- safe _ _ _ (get ≫= _) _ _ => apply safe_get
  | |- safe _ _ _ (modify _ ≫= _) _ _ => apply safe_modify
  | |- safe _ _ _ (modify _) _ _ => apply safe_modify_last
  | |- safe _ _ _ (mret _ ≫= _) _ _ => apply safe_ret_bind
  | |- safe _ _ _ (Ret _ ≫= _) _ _ => apply safe_ret_bind
  | |- safe _ _ _ (mret _) _ _ => apply safe_ret
  | |- safe _ _ _ (Throw _ ≫= _) _ _ => apply safe_throw_bind
  | |- safe _ _ _ (Throw _) _ _ => apply safe_throw
  | |- safe _ _ _ (answered ?r ≫= _) _ _ => destruct r; cbn [answered]
  | |- safe _ _ _ (call ?io ≫= _) _ _ => refine (safe_call _ _ _ io _ _ _ _); intros ?
  | |- safe _ _ _ (call ?io) _ _ => refine (safe_call_last _ _ io _ _ _ _); intros ?
  | |- safe (meanwhile _) _ _ (await ?io ≫= _) _ _ =>
      refine (safe_await_meanwhile _ _ _ io _ _ _ _ _); [|intros ? ? ?]
  | |- safe (meanwhile _) _ _ (await ?io) _ _ =>
      refine (safe_await_last_meanwhile _ _ io _ _ _ _ _); [|intros ? ? ?]
  | |- safe _ _ _ (await ?io ≫= _) _ _ => refine (safe_await _ _ _ io _ _ _ _ _); [|intros ? ? ? ?]
  | |- safe _ _ _ (await ?io) _ _ => refine (safe_await_last _ _ io _ _ _ _ _); [|intros ? ? ? ?]
  end.

Arguments machine {_} S R.
