(* ===== verification/PortBind.v ===== *)
(** * The broker of port forwards (network/port_bind_broker.ts)

    One broker per session opens ports between host and container.  Its operations
    are queued and run one after the other; each is a program of [Effects], so that
    everything that is not queued (new calls, `prepareInitial`, `close`) may happen
    at each of its awaits.

    Sockets are left out: an open binding is the host port its server listens on.
    The lease of the listener scan and the control connections keep no state these
    operations read.  Of the outside world the theorems follow the host ports that
    servers listen on and the container ports the gateway was asked to forward. *)
From S2P Require Import Prelude JsString Json AuthzTypes Semantics Protocol Broker PortForward.
From S2P Require Import Effects.

(** ** Errors *)

Inductive ControlErrorKind : Type :=
  | HostPortTaken | BindingConflict | NoSuchBinding | InvalidRequest | ContainerPortTaken
  | RelayUnavailable | InternalError.

Definition ControlErrorKind_string (k : ControlErrorKind) : string :=
  match k with
  | HostPortTaken => "host-port-taken" | BindingConflict => "binding-conflict"
  | NoSuchBinding => "no-such-binding" | InvalidRequest => "invalid-request"
  | ContainerPortTaken => "container-port-taken" | RelayUnavailable => "relay-unavailable"
  | InternalError => "internal"
  end.

(** `Exclude<EnsureRelayResult, "ready">` *)
Inductive NotReadyReason : Type := ContainerNotRunning | Unreachable | Unsupported.

Definition NotReadyReason_string (r : NotReadyReason) : string :=
  match r with
  | ContainerNotRunning => "container-not-running" | Unreachable => "unreachable"
  | Unsupported => "unsupported"
  end.

(** What can be thrown: a `ControlError`, a `RelayNotReadyError`, an error of the
    system with its code, any other. *)
Inductive BindError : Type :=
  | ControlError (kind : ControlErrorKind) (message : string)
  | RelayNotReadyError (reason : NotReadyReason)
  | SystemError (code message : string)
  | OtherError (message : string).

(** `error.message` *)
Definition error_message (e : BindError) : string :=
  match e with
  | ControlError kind message => ControlErrorKind_string kind +:+ ": " +:+ message
  | RelayNotReadyError reason => "relay is not available: " +:+ NotReadyReason_string reason
  | SystemError _ message | OtherError message => message
  end.

(** `code === "EADDRINUSE" || code === "EACCES"` *)
Definition port_unavailable (e : BindError) : bool :=
  match e with
  | SystemError code _ => String.eqb code "EADDRINUSE" || String.eqb code "EACCES"
  | _ => false
  end.

(** ** The world *)

Inductive ProbeResult : Type := ProbeOk | ProbeNoAnswer | ProbeNotRunning | ProbeUnreachable.

(** A member of `bindings` or `forwards`, and what the registry records. *)
Record PortBinding : Type := { pb_containerPort : Z; pb_hostPort : Z; pb_createdAt : string }.

Record PersistedPorts : Type := {
  pp_portForwards : list ManagedForward;
  pp_bindings : list PortBinding;
  pp_forwards : list PortBinding;
}.

Inductive BindIO : Type :=
  (** `server.listen`; answers the port the system chooses when none is asked for *)
  | Listen (hostPort containerPort : Z)
  (** closing the server of a binding; [ShutServer] is the same in `close` *)
  | CloseServer (hostPort : Z)
  | ShutServer (hostPort : Z)
  (** `Promise.allSettled` over servers to close and forwards to drop *)
  | CloseAll (hostPorts containerPorts : list Z)
  | GatewayForward (containerPort hostPort : Z)
  (** answers whether the listener was closed *)
  | GatewayUnforward (containerPort : Z)
  | GatewayProbe (containerPort : Z)
  | ProbeHostPort (hostPort : Z)
  | IsRelayConnected
  | CompleteInitialForwards (reason : option string)
  | OnInitialComplete (reason : option string)
  | Persist (ports : PersistedPorts)
  (** closing the control server and removing its socket *)
  | CloseControl
  | CloseGateway
  | Now.

Definition bind_reply (io : BindIO) : Type :=
  match io with
  | Listen _ _ => Z
  | GatewayUnforward _ | IsRelayConnected => bool
  | GatewayProbe _ | ProbeHostPort _ => ProbeResult
  | Now => string
  | _ => ()
  end.

(** `server.address().port`: the port asked for, or the one chosen for port 0. *)
Definition server_port (hostPort chosen : Z) : Z := if (hostPort =? 0)%Z then chosen else hostPort.

Record Outside : Type := {
  out_listening : list Z;
  out_granted : list Z;
  (** whether `close` has begun to close servers *)
  out_shut : bool;
}.

Definition new_outside : Outside := {| out_listening := []; out_granted := []; out_shut := false |}.

Fixpoint remove_one (port : Z) (l : list Z) : list Z :=
  match l with
  | [] => []
  | p :: l => if (p =? port)%Z then l else p :: remove_one port l
  end.

Definition unlisten (w : Outside) (port : Z) : Outside :=
  {| out_listening := remove_one port (out_listening w); out_granted := out_granted w;
     out_shut := out_shut w |}.

(** The gateway revokes before it waits for the relay. *)
Definition revoke (w : Outside) (port : Z) : Outside :=
  {| out_listening := out_listening w;
     out_granted := List.filter (λ p, negb (p =? port)%Z) (out_granted w);
     out_shut := out_shut w |}.

Definition shut (w : Outside) : Outside :=
  {| out_listening := out_listening w; out_granted := out_granted w; out_shut := true |}.

Definition bind_react (w : Outside) (io : BindIO) (r : bind_reply io + BindError) : Outside :=
  match io return bind_reply io + BindError → Outside with
  | Listen hostPort _ => λ r,
      match r with
      | inl chosen => {| out_listening := out_listening w ++ [server_port hostPort chosen];
                         out_granted := out_granted w; out_shut := out_shut w |}
      | inr _ => w
      end
  | CloseServer hostPort => λ _, unlisten w hostPort
  | CloseAll hostPorts containerPorts => λ _,
      fold_left revoke containerPorts (fold_left unlisten hostPorts w)
  | GatewayForward containerPort _ => λ _,
      {| out_listening := out_listening w; out_granted := containerPort :: out_granted w;
         out_shut := out_shut w |}
  | GatewayUnforward containerPort => λ _, revoke w containerPort
  | ShutServer hostPort => λ _, shut (unlisten w hostPort)
  | CloseControl => λ _, shut w
  | CloseGateway => λ _, {| out_listening := out_listening w; out_granted := []; out_shut := true |}
  | _ => λ _, w
  end r.

#[export] Instance bind_effects : Effects :=
  {| IO := BindIO; reply := bind_reply; fault := BindError; world := Outside; react := bind_react |}.

(** ** State *)

Inductive Initial : Type := InitialIdle | InitialPending | InitialReady | InitialFailed.
#[export] Instance Initial_eq_dec : EqDecision Initial.
Proof. solve_decision. Defined.

Record BindState : Type := {
  (** container port → host port of the open server *)
  bs_open : list (Z * Z);
  bs_managed : list (string * ManagedForward);
  (** a symbol is the number of its creation *)
  bs_generations : list (string * nat);
  bs_symbols : nat;
  bs_initial : Initial;
  bs_closing : bool;
}.

Definition new_bind_state : BindState := {|
  bs_open := []; bs_managed := []; bs_generations := []; bs_symbols := 0;
  bs_initial := InitialIdle; bs_closing := false |}.

Definition set_open (f : list (Z * Z) → list (Z * Z)) (s : BindState) : BindState := {|
  bs_open := f (bs_open s); bs_managed := bs_managed s; bs_generations := bs_generations s;
  bs_symbols := bs_symbols s; bs_initial := bs_initial s; bs_closing := bs_closing s |}.

Definition set_managed (f : list (string * ManagedForward) → list (string * ManagedForward))
    (s : BindState) : BindState := {|
  bs_open := bs_open s; bs_managed := f (bs_managed s); bs_generations := bs_generations s;
  bs_symbols := bs_symbols s; bs_initial := bs_initial s; bs_closing := bs_closing s |}.

(** `generations.set(key, Symbol(key))` *)
Definition new_generation (key : string) (s : BindState) : BindState := {|
  bs_open := bs_open s; bs_managed := bs_managed s;
  bs_generations := map_set (bs_generations s) key (bs_symbols s);
  bs_symbols := S (bs_symbols s); bs_initial := bs_initial s; bs_closing := bs_closing s |}.

Definition drop_generation (key : string) (s : BindState) : BindState := {|
  bs_open := bs_open s; bs_managed := bs_managed s;
  bs_generations := map_delete (bs_generations s) key;
  bs_symbols := bs_symbols s; bs_initial := bs_initial s; bs_closing := bs_closing s |}.

Definition clear_generations (s : BindState) : BindState := {|
  bs_open := bs_open s; bs_managed := bs_managed s; bs_generations := [];
  bs_symbols := bs_symbols s; bs_initial := bs_initial s; bs_closing := bs_closing s |}.

Definition set_initial (initial : Initial) (s : BindState) : BindState := {|
  bs_open := bs_open s; bs_managed := bs_managed s; bs_generations := bs_generations s;
  bs_symbols := bs_symbols s; bs_initial := initial; bs_closing := bs_closing s |}.

Definition set_closing (s : BindState) : BindState := {|
  bs_open := bs_open s; bs_managed := bs_managed s; bs_generations := bs_generations s;
  bs_symbols := bs_symbols s; bs_initial := bs_initial s; bs_closing := true |}.

(** Writing to the entry object of a key. *)
Definition update_entry (key : string) (f : ManagedForward → ManagedForward)
    (managed : list (string * ManagedForward)) : list (string * ManagedForward) :=
  match map_get managed key with Some e => map_set managed key (f e) | None => managed end.

Definition entries (s : BindState) : list ManagedForward := map snd (bs_managed s).
Definition specs (s : BindState) : list ForwardSpec := map mf_spec (entries s).

(** ** Methods *)

Abbreviation method := (prog BindState).

Definition throw {A} (kind : ControlErrorKind) (message : string) : method A :=
  Throw (ControlError kind message).

Definition fail {A} (message : string) : method A := Throw (OtherError message).

(** `.catch(() => {})` on a method without a result *)
Definition ignore_errors (m : method ()) : method () := try m (λ _, mret ()).

(** `now().toISOString()`, which does not throw. *)
Definition now : method string :=
  Call Now (λ r : string + BindError, Ret match r with inl t => t | inr _ => "" end).

Definition MAX_PORT : Z := 65535.
Definition MAX_CANDIDATES : nat := 65.

Definition validPort (port : Z) : bool := (1 <=? port)%Z && (port <=? MAX_PORT)%Z.

Fixpoint candidates_from (fuel : nat) (next : Z) : list Z :=
  match fuel with
  | 0 => []
  | S fuel => if (next <=? MAX_PORT)%Z then next :: candidates_from fuel (next + 1) else []
  end.

Definition hostPortCandidates (containerPort : Z) (requested : option Z) : list Z :=
  match requested with
  | Some requested => [requested]
  | None => containerPort :: candidates_from (MAX_CANDIDATES - 1) (Z.max (containerPort + 1) 1024)
  end.

Definition listPortForwards (s : BindState) : list ManagedForward := map copyManagedForward (entries s).

Definition project (e : ManagedForward) : PortBinding := {|
  pb_containerPort := mf_containerPort e; pb_hostPort := mf_hostPort e;
  pb_createdAt := mf_createdAt e |}.

Definition projectPortForwards (l : list ManagedForward) : list PortBinding * list PortBinding :=
  (map project (List.filter (λ e, is_local (mf_spec e)) l),
   map project (List.filter (λ e, negb (is_local (mf_spec e))) l)).

Definition persist : method () :=
  s ← get;
  let portForwards := listPortForwards s in
  let '(bindings, forwards) := projectPortForwards portForwards in
  await (Persist {| pp_portForwards := portForwards; pp_bindings := bindings; pp_forwards := forwards |}).

Definition persistRevocation : method () :=
  try persist (λ error, _ ← ignore_errors persist; Throw error).

Definition failInitial (error : BindError) : method () :=
  s ← get;
  if negb (bool_decide (bs_initial s = InitialPending)) then mret ()
  else
    _ ← modify (λ s, set_open (λ _, []) (clear_generations (set_managed (λ _, [])
                       (set_initial InitialFailed s))));
    _ ← ignore_errors (await (CloseAll (map snd (bs_open s))
          (map mf_containerPort (List.filter (λ e, negb (is_local (mf_spec e))) (entries s)))));
    _ ← ignore_errors persist;
    let reason := error_message error in
    connected ← call IsRelayConnected;
    _ ← (if connected : bool then ignore_errors (call (CompleteInitialForwards (Some reason)))
         else mret ());
    call (OnInitialComplete (Some reason)).

Definition completeInitial : method () :=
  s ← get;
  if negb (bool_decide (bs_initial s = InitialPending)) then mret ()
  else
    connected ← call IsRelayConnected;
    if negb (connected : bool) then mret ()
    else if existsb (λ e, negb (bool_decide (mf_state e = FwActive))) (entries s) then mret ()
    else
      _ ← modify (set_initial InitialReady);
      _ ← call (CompleteInitialForwards None);
      call (OnInitialComplete None).

(** The queued part of `onForwardState`. *)
Definition forward_state (key : string) (generation : nat) (containerPort : Z)
    (state : ForwardState) (error : option string) : method () :=
  s ← get;
  match map_get (bs_managed s) key with
  | None => mret ()
  | Some _ =>
      if negb (bool_decide (map_get (bs_generations s) key = Some generation)) then mret ()
      else
        _ ← modify (set_managed (update_entry key (λ e, with_state e state error)));
        if bool_decide (bs_initial s = InitialPending) then
          if bool_decide (state = FwFailed) || bool_decide (state = FwUnavailable) then
            failInitial (OtherError (match error with
              | Some error => error
              | None => "initial forwarding " +:+ Z_to_string containerPort +:+ " " +:+
                        (if bool_decide (state = FwFailed) then "failed" else "unavailable")
              end))
          else try (_ ← persist; completeInitial) failInitial
        else persistRevocation
  end.

Definition validateSpec (spec : ForwardSpec) : method () :=
  if validPort (fs_containerPort spec) && validPort (fs_hostPort spec) then mret ()
  else throw InvalidRequest "direction and ports are invalid".

Definition probe (spec : ForwardSpec) : method ProbeResult :=
  try (if is_local spec then await (GatewayProbe (fs_containerPort spec))
       else await (ProbeHostPort (fs_hostPort spec)))
    (λ error, match error with
     | RelayNotReadyError ContainerNotRunning => mret ProbeNotRunning
     | RelayNotReadyError _ => mret ProbeUnreachable
     | _ => mret ProbeNoAnswer
     end).

Definition AddForwardResult : Type := ManagedForward * ProbeResult.

Record RemoveForwardResult : Type := {
  rf_removed : bool; rf_retainedInternal : bool; rf_listenerClosed : bool }.

Section Broker.
(** `opts.reservedPorts` *)
Context (reserved : list Z).

(** The `catch` of `add`: [acquired] is the port of a server at hand. *)
Definition rollback {A} (spec : ForwardSpec) (inserted : bool) (acquired : option Z)
    (error : BindError) : method A :=
  let key := spec_key spec in
  _ ← (if inserted then
         _ ← modify (λ s, drop_generation key (set_managed (λ m, map_delete m key) s));
         if is_local spec
         then modify (set_open (λ o, map_delete o (fs_containerPort spec)))
         else _ ← await (GatewayUnforward (fs_containerPort spec)); mret ()
       else mret ());
  _ ← match acquired with Some hostPort => await (CloseServer hostPort) | None => mret () end;
  Throw error.

(** The part of `add` before the entry is inserted; [Some] when it answers. *)
Definition add_existing (spec : ForwardSpec) (owner : ForwardOwner) : method (option AddForwardResult) :=
  let key := spec_key spec in
  _ ← validateSpec spec;
  s ← get;
  match map_get (bs_managed s) key with
  | Some existing =>
      if negb (mf_hostPort existing =? fs_hostPort spec)%Z then
        throw BindingConflict ("container port " +:+ Z_to_string (fs_containerPort spec) +:+
          " already maps to host port " +:+ Z_to_string (mf_hostPort existing))
      else
        _ ← (if includes (mf_owners existing) owner then mret ()
             else
               let updated := with_owners existing (mf_owners existing ++ [owner]) in
               _ ← modify (set_managed (λ m, map_set m key updated));
               try persist (λ error,
                 _ ← modify (set_managed (λ m, map_set m key existing)); Throw error));
        s ← get;
        result ← probe spec;
        mret (Some (copyManagedForward (default existing (map_get (bs_managed s) key)), result))
  | None =>
      if negb (is_local spec) && includes reserved (fs_containerPort spec) then
        throw ContainerPortTaken ("container port " +:+ Z_to_string (fs_containerPort spec) +:+
          " is used by nas itself")
      else if is_local spec &&
              existsb (λ e, is_local (mf_spec e) && (mf_hostPort e =? fs_hostPort spec)%Z) (entries s)
      then throw BindingConflict ("host port " +:+ Z_to_string (fs_hostPort spec) +:+
             " already has a local forward")
      else if createsForwardCycle (specs s) spec
      then throw BindingConflict "the forwarding mapping creates a cycle"
      else mret None
  end.

(** Opening the listener of an inserted entry; answers the server at hand. *)
Definition add_open (spec : ForwardSpec) (prepared : option Z) : method (option Z) :=
  if is_local spec then
    match prepared with
    | Some hostPort => mret (Some hostPort)
    | None =>
        _ ← try (await (Listen (fs_hostPort spec) (fs_containerPort spec))) (λ error,
              if port_unavailable error
              then throw HostPortTaken ("host port " +:+ Z_to_string (fs_hostPort spec) +:+
                     " is unavailable")
              else Throw error);
        mret (Some (fs_hostPort spec))
    end
  else
    _ ← try (await (GatewayForward (fs_containerPort spec) (fs_hostPort spec))) (λ error,
          match error with
          | RelayNotReadyError reason =>
              throw RelayUnavailable match reason with
                | ContainerNotRunning => "the container is not running"
                | Unsupported => "the relay lacks secure forwarding support; restart the session"
                | Unreachable => "the relay could not be started"
                end
          | error =>
              throw ContainerPortTaken ("container port " +:+ Z_to_string (fs_containerPort spec) +:+
                " could not be opened: " +:+ error_message error)
          end);
    mret prepared.

(** Recording an opened forward. *)
Definition add_record (spec : ForwardSpec) (acquired : option Z) : method AddForwardResult :=
  let key := spec_key spec in
  _ ← match is_local spec, acquired with
      | true, Some hostPort => modify (set_open (λ o, map_set o (fs_containerPort spec) hostPort))
      | _, _ => mret ()
      end;
  _ ← modify (set_managed (update_entry key (λ e, with_state e FwActive (mf_error e))));
  s ← get;
  _ ← persist;
  result ← probe spec;
  match map_get (bs_managed s) key with
  | Some entry => mret (copyManagedForward entry, result)
  | None => fail ""
  end.

Definition new_entry (spec : ForwardSpec) (owners : list ForwardOwner) (createdAt : string) :
    ManagedForward := {|
  mf_spec := spec; mf_owners := owners; mf_createdAt := createdAt; mf_state := FwPending;
  mf_error := None |}.

Definition insert_entry (entry : ManagedForward) (s : BindState) : BindState :=
  let key := spec_key (mf_spec entry) in
  new_generation key (set_managed (λ m, map_set m key entry) s).

Definition add (spec : ForwardSpec) (owner : ForwardOwner) (prepared : option Z) :
    method AddForwardResult :=
  before ← try (found ← add_existing spec owner;
                match found with
                | Some result => mret (inl result)
                | None => createdAt ← now; mret (inr createdAt)
                end) (rollback spec false prepared);
  match before with
  | inl result => mret result
  | inr createdAt =>
      _ ← modify (insert_entry (new_entry spec [owner] createdAt));
      acquired ← try (add_open spec prepared) (rollback spec true prepared);
      try (add_record spec acquired) (rollback spec true acquired)
  end.

Definition remove (direction : ForwardDirection) (containerPort : Z) : method RemoveForwardResult :=
  let id := forwardKey direction containerPort in
  s ← get;
  match map_get (bs_managed s) id with
  | None => throw NoSuchBinding "no forwarding matches that key"
  | Some entry =>
      match removeUserOwners entry with
      | Some retained =>
          let removed := negb (length (mf_owners retained) =? length (mf_owners entry))%nat in
          _ ← (if removed then
                 _ ← modify (set_managed (λ m, map_set m id retained)); persistRevocation
               else mret ());
          mret {| rf_removed := removed; rf_retainedInternal := true; rf_listenerClosed := false |}
      | None =>
          _ ← modify (λ s, drop_generation id (set_managed (λ m, map_delete m id) s));
          listenerClosed ←
            (if is_local (mf_spec entry) then
               let binding := map_get (bs_open s) (mf_containerPort entry) in
               _ ← modify (set_open (λ o, map_delete o (mf_containerPort entry)));
               match binding with
               | Some hostPort => _ ← await (CloseServer hostPort); mret true
               | None => mret false
               end
             else await (GatewayUnforward (mf_containerPort entry)));
          _ ← persistRevocation;
          mret {| rf_removed := true; rf_retainedInternal := false; rf_listenerClosed := listenerClosed |}
      end
  end.

(** The loop of `addLocal` over the candidates: the port of the first server that
    can listen. *)
Fixpoint acquire (containerPort : Z) (candidates : list Z) : method (option Z) :=
  match candidates with
  | [] => mret None
  | candidate :: rest =>
      got ← try (chosen ← await (Listen candidate containerPort);
                 _ ← now; mret (Some (server_port candidate chosen))) (λ error,
              if port_unavailable error then mret None else Throw error);
      match got with
      | Some port => mret (Some port)
      | None => acquire containerPort rest
      end
  end.

Definition addLocal (containerPort : Z) (hostPort : option Z) : method AddForwardResult :=
  s ← get;
  let existing := map_get (bs_managed s) (forwardKey DirLocal containerPort) in
  let requested := match hostPort with Some 0%Z => None | h => h end in
  match existing, requested with
  | None, None =>
      if negb (validPort containerPort) then throw InvalidRequest "invalid container port"
      else
        acquired ← acquire containerPort (hostPortCandidates containerPort hostPort);
        match acquired with
        | None => throw HostPortTaken ("no free host port near " +:+ Z_to_string containerPort)
        | Some port =>
            add {| fs_direction := DirLocal; fs_hostPort := port; fs_containerPort := containerPort |}
              OwnDynamic (Some port)
        end
  | _, _ =>
      let port := default (default containerPort (mf_hostPort <$> existing)) requested in
      add {| fs_direction := DirLocal; fs_hostPort := port; fs_containerPort := containerPort |}
        OwnDynamic None
  end.

Inductive ForwardSelector : Type :=
  | SelectLocalHost (hostPort : Z)
  | SelectContainer (direction : ForwardDirection) (containerPort : Z).

Definition removeSelected (selector : ForwardSelector) : method RemoveForwardResult :=
  s ← get;
  let entry := match selector with
               | SelectLocalHost hostPort =>
                   List.find (λ e, is_local (mf_spec e) && (mf_hostPort e =? hostPort)%Z) (entries s)
               | SelectContainer direction containerPort =>
                   map_get (bs_managed s) (forwardKey direction containerPort)
               end in
  match entry with
  | None => throw NoSuchBinding "no forwarding matches that selector"
  | Some entry => remove (fs_direction (mf_spec entry)) (mf_containerPort entry)
  end.

(** The body of the loop of `prepareInitial`. *)
Definition prepare_one (spec : ForwardSpec) (owners : list ForwardOwner) : method () :=
  _ ← validateSpec spec;
  if (length owners =? 0)%nat || existsb (λ o, bool_decide (o = OwnDynamic)) owners
  then fail "invalid initial owners"
  else
  s ← get;
  if map_has (bs_managed s) (spec_key spec) || createsForwardCycle (specs s) spec
  then fail "conflicting initial forwarding"
  else if negb (is_local spec) && includes reserved (fs_containerPort spec)
  then fail ("container port " +:+ Z_to_string (fs_containerPort spec) +:+ " is used by nas itself")
  else if is_local spec &&
          existsb (λ e, is_local (mf_spec e) && (mf_hostPort e =? fs_hostPort spec)%Z) (entries s)
  then fail ("host port " +:+ Z_to_string (fs_hostPort spec) +:+ " already has a local forward")
  else
    createdAt ← now;
    let entry := new_entry spec owners createdAt in
    if is_local spec then
      _ ← await (Listen (fs_hostPort spec) (fs_containerPort spec));
      _ ← modify (set_open (λ o, map_set o (fs_containerPort spec) (fs_hostPort spec)));
      modify (insert_entry (with_state entry FwActive None))
    else modify (insert_entry entry).

Fixpoint prepare_all (requested : list (ForwardSpec * list ForwardOwner)) : method () :=
  match requested with
  | [] => mret ()
  | (spec, owners) :: rest => _ ← prepare_one spec owners; prepare_all rest
  end.

Definition prepare (requested : list (ForwardSpec * list ForwardOwner)) : method () :=
  try (_ ← prepare_all requested;
       _ ← persist;
       if (length requested =? 0)%nat then modify (set_initial InitialReady) else mret ())
    (λ error, _ ← failInitial error; Throw error).

(** `close` after the queue has run. *)
Fixpoint close_all (servers : list Z) : method () :=
  match servers with
  | [] => mret ()
  | hostPort :: rest => _ ← await (ShutServer hostPort); close_all rest
  end.

(** It is queued behind what runs.  In the code two calls of `close` wait for the same end
    of the queue, and then for each other's servers in any order; here the second is
    queued behind the first, and finds nothing left to shut.  The stage closes its
    broker once. *)
Definition close_broker : method () :=
  s ← get;
  _ ← close_all (map snd (bs_open s));
  _ ← modify (λ s, clear_generations (set_managed (λ _, []) (set_open (λ _, []) s)));
  _ ← await CloseControl;
  await CloseGateway.

(** ** Calls *)

Inductive Call : Type :=
  | AddPortForward (spec : ForwardSpec) (owner : ForwardOwner)
  | RemovePortForward (direction : ForwardDirection) (containerPort : Z)
  | AddLocal (containerPort : Z) (hostPort : option Z)
  | RemoveSelected (selector : ForwardSelector)
  | PrepareInitial (requested : list (ForwardSpec * list ForwardOwner))
  | OnRelayConnected
  | OnForwardState (containerPort : Z) (state : ForwardState) (error : option string)
  | CloseBroker.

(** What a queued method answers. *)
Inductive Answer : Type :=
  | Added (result : AddForwardResult)
  | Removed (result : RemoveForwardResult)
  | Done.

Definition mutate (s : BindState) (action : method Answer) : option (method Answer + BindError) :=
  if bs_closing s then Some (inr (OtherError "broker is closed")) else Some (inl action).

Definition mutateUser (s : BindState) (action : method Answer) : option (method Answer + BindError) :=
  if bool_decide (bs_initial s = InitialPending) || bool_decide (bs_initial s = InitialFailed)
  then Some (inr (ControlError RelayUnavailable "initial forwarding is not ready"))
  else mutate s action.

(** The synchronous part of a call: the state after it, and the method it queues or
    its rejection. *)
Definition begin (s : BindState) (c : Call) : BindState * option (method Answer + BindError) :=
  match c with
  | AddPortForward spec owner => (s, mutateUser s (Added <$> add spec owner None))
  | RemovePortForward direction containerPort => (s, mutateUser s (Removed <$> remove direction containerPort))
  | AddLocal containerPort hostPort => (s, mutateUser s (Added <$> addLocal containerPort hostPort))
  | RemoveSelected selector => (s, mutateUser s (Removed <$> removeSelected selector))
  | PrepareInitial requested =>
      if negb (bool_decide (bs_initial s = InitialIdle)) || negb (length (bs_managed s) =? 0)%nat
      then (s, Some (inr (OtherError "initial forwarding already prepared")))
      else let s := set_initial InitialPending s in
           (s, mutate s (_ ← prepare requested; mret Done))
  | OnRelayConnected =>
      if negb (bool_decide (bs_initial s = InitialPending)) then (s, None)
      else (s, mutate s (_ ← completeInitial; mret Done))
  | OnForwardState containerPort state error =>
      let key := forwardKey DirRemote containerPort in
      match map_get (bs_generations s) key with
      | None => (s, None)
      | Some generation =>
          if bs_closing s then (s, None)
          else (s, mutate s (_ ← forward_state key generation containerPort state error; mret Done))
      end
  | CloseBroker =>
      let s := set_closing s in (s, Some (inl (_ ← close_broker; mret Done)))
  end.

(** The broker with its queue: a call begins, or the runtime takes a turn. *)
Definition BindMachine : Type := machine BindState Answer.

Inductive BindEvent : Type :=
  | BeginCall (c : Call)
  | Turn (answers : ∀ io : BindIO, bind_reply io + BindError).

Definition bind_step (m : BindMachine) (event : BindEvent) : BindMachine :=
  match event with
  | BeginCall c => let '(s, job) := begin (m_state m) c in submit m s job
  | Turn answers => turn answers m
  end.

Definition bind_run (events : list BindEvent) : BindMachine :=
  fold_left bind_step events (idle_machine Answer new_bind_state new_outside).
End Broker.
