(* ===== verification/PortBindLaws.v ===== *)
(** * The table of port forwards stays in order

    [quiet] holds whenever no operation of the broker is under way: the table holds
    no two forwards on one port and no cycle, the open bindings are exactly the local
    forwards of the table, the servers that listen are exactly the open bindings, and
    the gateway forwards nothing that the table does not hold.  [table_ok], its part
    about the table, holds also at every wait. *)
From S2P Require Import Prelude JsString Json AuthzTypes Semantics Protocol Broker BrokerKeys.
From S2P Require Import PortForward Effects PortBind.

(** ** Multisets of ports *)

Lemma remove_one_perm port l : In port l → l ≡ₚ port :: remove_one port l.
Proof.
  induction l as [|p l IH]; [done|]. cbn. destruct (Z.eqb_spec p port) as [->|Hne]; [done|].
  intros [->|Hin]; [done|]. rewrite (IH Hin) at 1. apply perm_swap.
Qed.

Lemma remove_one_notin port l : ¬ In port l → remove_one port l = l.
Proof.
  induction l as [|p l IH]; [done|]. cbn. intros Hn.
  destruct (Z.eqb_spec p port) as [->|]; [naive_solver|]. f_equal. apply IH. naive_solver.
Qed.

Lemma remove_one_submseteq port l k : l ⊆+ port :: k → remove_one port l ⊆+ k.
Proof.
  intros Hs. destruct (decide (port ∈ l)) as [Hin|Hn].
  - rewrite (remove_one_perm port l) in Hs by (by apply list_elem_of_In).
    by apply (submseteq_app_inv_l _ _ [port]) in Hs.
  - rewrite remove_one_notin by (by rewrite <- list_elem_of_In).
    apply submseteq_Permutation in Hs as [x Hs].
    assert (port ∈ x) as Hx.
    { assert (port ∈ l ++ x) as Hp; [rewrite <- Hs; left|]. set_solver. }
    apply elem_of_Permutation in Hx as [x' Hx].
    rewrite Hx, <- Permutation_middle in Hs. apply Permutation.Permutation_cons_inv in Hs.
    rewrite Hs. by apply submseteq_inserts_r.
Qed.

Lemma remove_one_superseteq port l k : port :: k ⊆+ l → k ⊆+ remove_one port l.
Proof.
  intros Hs. assert (In port l) as Hin.
  { apply list_elem_of_In. eapply elem_of_submseteq; [|exact Hs]. left. }
  rewrite (remove_one_perm port l Hin) in Hs. by apply (submseteq_app_inv_l _ _ [port]) in Hs.
Qed.

#[export] Instance remove_one_proper port : Proper ((≡ₚ) ==> (≡ₚ)) (remove_one port).
Proof.
  intros l l' H. destruct (decide (port ∈ l)) as [Hin|Hn].
  - assert (port ∈ l') as Hin' by by rewrite <- H.
    apply list_elem_of_In, remove_one_perm in Hin, Hin'. rewrite Hin, Hin' in H.
    by apply Permutation.Permutation_cons_inv in H.
  - rewrite !remove_one_notin; [done|..]; by rewrite <- list_elem_of_In, <- ?H.
Qed.

Lemma remove_one_snoc port l : remove_one port (l ++ [port]) ≡ₚ l.
Proof. rewrite <- Permutation_cons_append. cbn. by rewrite Z.eqb_refl. Qed.

(** ** The table *)

(** What the theorems read of the entries of the table. *)
Definition skeleton (m : list (string * ManagedForward)) : list (string * ForwardSpec) :=
  map (λ '(k, e), (k, mf_spec e)) m.

Lemma skeleton_specs s : specs s = map snd (skeleton (bs_managed s)).
Proof. unfold specs, entries, skeleton. rewrite !map_map. apply map_ext. by intros [k e]. Qed.

Lemma skeleton_get m k : map_get (skeleton m) k = mf_spec <$> map_get m k.
Proof. induction m as [|[j e] m IH]; cbn; [done|]. case_decide; [done|exact IH]. Qed.

Lemma skeleton_set m k e : skeleton (map_set m k e) = map_set (skeleton m) k (mf_spec e).
Proof. induction m as [|[j e'] m IH]; cbn; [done|]. case_decide; cbn; [done|by f_equal]. Qed.

Lemma skeleton_delete m k : skeleton (map_delete m k) = map_delete (skeleton m) k.
Proof. induction m as [|[j e'] m IH]; cbn; [done|]. case_decide; cbn; [done|by f_equal]. Qed.

Lemma map_set_same {K V} `{EqDecision K} (m : list (K * V)) k v : map_get m k = Some v → map_set m k v = m.
Proof. induction m as [|[j w] m IH]; cbn; [done|]. case_decide; [naive_solver|]. by intros ->%IH. Qed.

Lemma map_set_set {K V} `{EqDecision K} (m : list (K * V)) k v v' :
  map_set (map_set m k v) k v' = map_set m k v'.
Proof.
  induction m as [|[j w] m IH]; cbn; [by rewrite decide_True|].
  case_decide; cbn; case_decide; try done. by f_equal.
Qed.

Lemma map_delete_set {K V} `{EqDecision K} (m : list (K * V)) k v :
  map_get m k = None → map_delete (map_set m k v) k = m.
Proof.
  induction m as [|[j w] m IH]; cbn; [by rewrite decide_True|].
  case_decide; [done|]. intros Hg. cbn. rewrite decide_False by done. f_equal. by apply IH.
Qed.

(** Writing an entry with the same ports. *)
Lemma skeleton_rewrite m k e e' :
  map_get m k = Some e → mf_spec e' = mf_spec e → skeleton (map_set m k e') = skeleton m.
Proof. intros Hg He. rewrite skeleton_set, He. apply map_set_same. by rewrite skeleton_get, Hg. Qed.

Lemma skeleton_update m k f :
  (∀ e, mf_spec (f e) = mf_spec e) → skeleton (update_entry k f m) = skeleton m.
Proof.
  intros Hf. unfold update_entry. destruct (map_get m k) as [e|] eqn:E; [|done].
  by eapply skeleton_rewrite.
Qed.

Lemma update_entry_get m k f : map_get (update_entry k f m) k = f <$> map_get m k.
Proof. unfold update_entry. destruct (map_get m k) eqn:E; cbn; [apply map_get_set_eq|done]. Qed.

Section Table.
Context (reserved : list Z).

(** The ports of a forward that the broker accepts. *)
Definition spec_ok (spec : ForwardSpec) : Prop :=
  validPort (fs_containerPort spec) = true ∧ validPort (fs_hostPort spec) = true ∧
  (is_local spec = false → ¬ In (fs_containerPort spec) reserved).

Record table_ok (T : list (string * ForwardSpec)) : Prop := {
  tk_nodup : List.NoDup (map_keys T);
  tk_key : ∀ k spec, In (k, spec) T → k = spec_key spec ∧ spec_ok spec;
  tk_sources : List.NoDup (sources (map snd T));
  tk_acyclic : acyclic (map snd T);
}.

Lemma table_ok_nil : table_ok [].
Proof. split; try constructor; [done|done|apply acyclic_nil]. Qed.

Lemma table_ok_sublist T T' : T' `sublist_of` T → table_ok T → table_ok T'.
Proof.
  intros Hs [H1 H2 H3 H4].
  assert (∀ p, In p T' → In p T) as Hin.
  { intros p. rewrite <- !list_elem_of_In. intros Hp. by eapply elem_of_sublist. }
  assert (map snd T' `sublist_of` map snd T) as Hs' by by apply fmap_sublist.
  split.
  - by eapply sublist_keys_NoDup.
  - auto.
  - eapply sublist_keys_NoDup; [|exact H3]. by apply fmap_sublist.
  - eapply acyclic_sub; [|exact H4]. intros e. rewrite <- !list_elem_of_In. intros He.
    by eapply elem_of_sublist.
Qed.

Lemma table_ok_delete T k : table_ok T → table_ok (map_delete T k).
Proof. apply table_ok_sublist, map_delete_sublist. Qed.

Lemma host_node_inj a b : host_node a = host_node b → a = b.
Proof. intros H. apply Z_to_string_inj. by injection H. Qed.

Lemma container_node_inj a b : container_node a = container_node b → a = b.
Proof. intros H. apply Z_to_string_inj. by injection H. Qed.

Lemma forwardKey_inj d p d' p' : forwardKey d p = forwardKey d' p' → d = d' ∧ p = p'.
Proof. destruct d, d'; intros H; try done; (split; [done|]); apply Z_to_string_inj; by injection H. Qed.

Lemma source_local spec : is_local spec = true → (endpoints spec).1 = host_node (fs_hostPort spec).
Proof. unfold is_local, endpoints. by destruct (fs_direction spec). Qed.

Lemma source_remote spec : is_local spec = false → (endpoints spec).1 = container_node (fs_containerPort spec).
Proof. unfold is_local, endpoints. by destruct (fs_direction spec). Qed.

Lemma is_local_direction f g : is_local f = is_local g ↔ fs_direction f = fs_direction g.
Proof. unfold is_local. by destruct (fs_direction f), (fs_direction g). Qed.

(** The tests of `add` and `prepareInitial` are enough. *)
Lemma table_ok_insert T spec :
  table_ok T → spec_ok spec → map_get T (spec_key spec) = None →
  (is_local spec = true → ∀ f, In f (map snd T) → is_local f = true → fs_hostPort f ≠ fs_hostPort spec) →
  createsForwardCycle (map snd T) spec = false →
  table_ok (T ++ [(spec_key spec, spec)]).
Proof.
  intros HT Hspec Hnew Hhost Hcycle.
  assert (List.NoDup (sources (map snd T ++ [spec]))) as Hsrc.
  { unfold sources, map_keys. rewrite map_app, fmap_app. apply NoDup_ListNoDup, NoDup_app.
    split; [apply NoDup_ListNoDup, (tk_sources _ HT)|]. split; [|apply NoDup_singleton].
    intros x Hx Hx'. cbn in Hx'. apply list_elem_of_singleton in Hx' as ->.
    apply list_elem_of_In, in_map_iff in Hx as (ep & Hep & (f & <- & Hf)%in_map_iff).
    destruct (is_local spec) eqn:El, (is_local f) eqn:Ef.
    - rewrite (source_local f Ef), (source_local spec El) in Hep.
      apply host_node_inj in Hep. by destruct (Hhost eq_refl f Hf Ef).
    - by rewrite (source_remote f Ef), (source_local spec El) in Hep.
    - by rewrite (source_local f Ef), (source_remote spec El) in Hep.
    - rewrite (source_remote f Ef), (source_remote spec El) in Hep. apply container_node_inj in Hep.
      apply in_map_iff in Hf as ([k g] & <- & Hf). pose proof (tk_key _ HT _ _ Hf) as [-> _].
      apply map_get_None in Hnew. apply Hnew, in_map_iff. eexists (_, g). split; [|exact Hf].
      cbn in *. unfold spec_key. rewrite Hep. f_equal. by apply is_local_direction; rewrite El, Ef. }
  split.
  - unfold map_keys. rewrite fmap_app. apply NoDup_ListNoDup, NoDup_app.
    split; [apply NoDup_ListNoDup, (tk_nodup _ HT)|]. split; [|apply NoDup_singleton].
    intros x Hx Hx'. cbn in Hx'. apply list_elem_of_singleton in Hx' as ->.
    apply map_get_None in Hnew. by apply Hnew, list_elem_of_In.
  - intros k f [Hin|[[= <- <-]|[]]]%in_app_iff; [by apply (tk_key _ HT)|done].
  - by rewrite map_app.
  - rewrite map_app. apply acyclic_add; [done|apply (tk_acyclic _ HT)|done].
Qed.
End Table.

(** ** Open bindings *)

Definition binding_ports (spec : ForwardSpec) : Z * Z := (fs_containerPort spec, fs_hostPort spec).

(** The ports of the local forwards of a table. *)
Definition local_ports (T : list (string * ForwardSpec)) : list (Z * Z) :=
  map binding_ports (List.filter is_local (map snd T)).

#[export] Instance local_ports_proper : Proper ((≡ₚ) ==> (≡ₚ)) local_ports.
Proof.
  intros T T' H. unfold local_ports. apply Permutation.Permutation_map.
  induction H as [|[k f] T T' _ IH|[k f] [k' f'] T|T T' T'' _ IH1 _ IH2]; cbn; [done| | |by etrans].
  - by destruct (is_local f); rewrite ?IH.
  - destruct (is_local f), (is_local f'); try done. apply perm_swap.
Qed.

Lemma local_ports_app T T' : local_ports (T ++ T') = local_ports T ++ local_ports T'.
Proof. unfold local_ports. by rewrite map_app, List.filter_app, map_app. Qed.

Lemma local_ports_In T c h :
  In (c, h) (local_ports T) ↔
  ∃ k spec, In (k, spec) T ∧ is_local spec = true ∧ fs_containerPort spec = c ∧ fs_hostPort spec = h.
Proof.
  unfold local_ports, binding_ports. rewrite in_map_iff. split.
  - intros (f & [= <- <-] & [([k g] & <- & Hin)%in_map_iff Hl]%filter_In). eauto 10.
  - intros (k & f & Hin & Hl & <- & <-). exists f. split; [done|]. apply filter_In.
    split; [|done]. apply in_map_iff. by exists (k, f).
Qed.

Section Open.
Context {reserved : list Z} {T : list (string * ForwardSpec)} (HT : table_ok reserved T).
Context {opened : list (Z * Z)} (Hopen : opened ≡ₚ local_ports T).

Lemma local_ports_NoDup : List.NoDup (map_keys (local_ports T)).
Proof.
  assert (map (forwardKey DirLocal) (map_keys (local_ports T)) `sublist_of` map_keys T) as Hs.
  { assert (∀ k spec, In (k, spec) T → k = spec_key spec) as Hk by (intros k f Hin; by apply (tk_key _ _ HT)).
    clear -Hk. induction T as [|[k f] T' IH]; [done|].
    specialize (IH (λ k f Hin, Hk k f (or_intror Hin))). unfold local_ports in *. cbn.
    destruct (is_local f) eqn:E; cbn; [|by apply sublist_cons].
    rewrite (Hk k f) by (by left). unfold spec_key. apply bool_decide_eq_true in E. rewrite E.
    by apply sublist_skip. }
  apply (List.NoDup_map_inv (forwardKey DirLocal)), NoDup_ListNoDup.
  eapply sublist_NoDup; [|exact Hs]. apply NoDup_ListNoDup, (tk_nodup _ _ HT).
Qed.

Lemma open_NoDup : List.NoDup (map_keys opened).
Proof.
  eapply Permutation_NoDup; [|exact local_ports_NoDup]. by apply Permutation.Permutation_map.
Qed.

Lemma open_lookup c h :
  map_get opened c = Some h ↔ ∃ spec, map_get T (forwardKey DirLocal c) = Some spec ∧ fs_hostPort spec = h
                                      ∧ is_local spec = true ∧ fs_containerPort spec = c.
Proof.
  split.
  - intros Hin%map_get_In. eapply Permutation_in in Hin; [|exact Hopen].
    apply local_ports_In in Hin as (k & f & Hin & Hl & <- & <-). exists f. split_and!; try done.
    pose proof (proj1 (tk_key _ _ HT _ _ Hin)) as ->. apply map_get_NoDup in Hin; [|apply (tk_nodup _ _ HT)].
    unfold spec_key in Hin. by apply bool_decide_eq_true in Hl as <-.
  - intros (f & Hf%map_get_In & <- & Hl & <-). apply map_get_NoDup; [apply open_NoDup|].
    eapply Permutation_in; [symmetry; exact Hopen|]. apply local_ports_In. eauto 10.
Qed.

Lemma open_missing spec :
  map_get T (spec_key spec) = None → is_local spec = true → map_get opened (fs_containerPort spec) = None.
Proof.
  intros Hn Hl. destruct (map_get opened (fs_containerPort spec)) eqn:E; [|done].
  apply open_lookup in E as (f & Hf & _). unfold spec_key in Hn. apply bool_decide_eq_true in Hl.
  rewrite Hl in Hn. congruence.
Qed.

(** Deleting a forward of the table. *)
Context {k : string} {spec : ForwardSpec} (Hget : map_get T k = Some spec).

Lemma table_key : k = spec_key spec ∧ spec_ok reserved spec.
Proof. apply (tk_key _ _ HT), map_get_In, Hget. Qed.

Lemma local_ports_delete :
  local_ports T ≡ₚ (if is_local spec then [binding_ports spec] else []) ++ local_ports (map_delete T k).
Proof.
  transitivity (local_ports ([(k, spec)] ++ map_delete T k)).
  - by apply local_ports_proper, map_delete_perm.
  - rewrite local_ports_app. unfold local_ports at 1. cbn. by destruct (is_local spec).
Qed.

Lemma open_get : is_local spec = true → map_get opened (fs_containerPort spec) = Some (fs_hostPort spec).
Proof.
  intros Hl. apply open_lookup. exists spec. split_and!; try done.
  destruct table_key as [Hk _]. unfold spec_key in Hk. pose proof Hl as Hd%bool_decide_eq_true.
  by rewrite <- Hd, <- Hk.
Qed.

Lemma open_delete :
  is_local spec = true →
  map_delete opened (fs_containerPort spec) ≡ₚ local_ports (map_delete T k) ∧
  map snd opened ≡ₚ fs_hostPort spec :: map snd (map_delete opened (fs_containerPort spec)).
Proof.
  intros Hl. pose proof (map_delete_perm _ _ _ (open_get Hl)) as Hp. split.
  - pose proof local_ports_delete as Hd. rewrite Hl in Hd. rewrite <- Hopen, Hp in Hd.
    by apply Permutation.Permutation_cons_inv in Hd.
  - by rewrite Hp at 1.
Qed.
End Open.

(** ** What holds at the waits and between the operations *)

Section Laws.
Context (reserved : list Z).

(** What everything that is not queued may do to the state: `prepareInitial` marks
    the initial forwards pending, `close` marks the broker closing. *)
Record steady (s s' : BindState) : Prop := {
  st_open : bs_open s' = bs_open s;
  st_managed : bs_managed s' = bs_managed s;
  st_generations : bs_generations s' = bs_generations s;
  st_symbols : bs_symbols s' = bs_symbols s;
  st_initial : bs_initial s' = bs_initial s ∨ bs_initial s = InitialIdle ∧ bs_initial s' = InitialPending;
  st_closing : bs_closing s = true → bs_closing s' = true;
}.

#[export] Instance steady_preorder : PreOrder steady.
Proof.
  split; [by split; try left|]. intros a b c [????? ] [?????]. split; try congruence; [|auto].
  destruct st_initial0 as [Hb|[Ha Hb]]; rewrite Hb in st_initial1; naive_solver.
Qed.

(** The assertion of every wait. *)
Definition table_safe (s : BindState) (w : Outside) : Prop := table_ok reserved (skeleton (bs_managed s)).

(** [held] are the ports of servers that an operation has at hand. *)
Record quiet_held (held : list Z) (s : BindState) (w : Outside) : Prop := {
  qt_table : table_ok reserved (skeleton (bs_managed s));
  qt_open : bs_open s ≡ₚ local_ports (skeleton (bs_managed s));
  qt_listening : out_listening w ⊆+ held ++ map snd (bs_open s);
  qt_listens : out_shut w = false → held ++ map snd (bs_open s) ⊆+ out_listening w;
  qt_granted : out_shut w = false → ∀ c, In c (out_granted w) →
    map_has (bs_managed s) (forwardKey DirRemote c) = true;
}.

Definition quiet : BindState → Outside → Prop := quiet_held [].

Lemma quiet_safe s w : quiet s w → table_safe s w.
Proof. apply qt_table. Qed.

Lemma steady_safe s s' w w' : steady s s' → table_safe s w → table_safe s' w'.
Proof. intros Hs. unfold table_safe. by rewrite (st_managed _ _ Hs). Qed.

(** Nothing of the ports has changed. *)
Record same_ports (s : BindState) (w : Outside) (s' : BindState) (w' : Outside) : Prop := {
  sp_managed : bs_managed s' = bs_managed s;
  sp_open : bs_open s' = bs_open s;
  sp_shut : out_shut w' = out_shut w;
  sp_listening : out_listening w' ≡ₚ out_listening w;
  sp_granted : ∀ c, In c (out_granted w') → In c (out_granted w);
}.

Lemma steady_same_ports s s' w : steady s s' → same_ports s w s' w.
Proof. by intros [??????]. Qed.

(** [quiet] reads only the ports of the table. *)
Lemma quiet_transfer held s w s' w' :
  quiet_held held s w → skeleton (bs_managed s') = skeleton (bs_managed s) → bs_open s' = bs_open s →
  out_shut w' = out_shut w → out_listening w' ≡ₚ out_listening w →
  (∀ c, In c (out_granted w') → In c (out_granted w)) → quiet_held held s' w'.
Proof.
  intros [H1 H2 H3 H4 H5] Hm Ho Hc Hl Hg.
  split; rewrite ?Hm, ?Ho, ?Hl, ?Hc; auto.
  intros Hf c Hin. specialize (H5 Hf c (Hg c Hin)). revert H5. unfold map_has.
  pose proof (skeleton_get (bs_managed s) (forwardKey DirRemote c)) as Hs.
  rewrite <- Hm, skeleton_get in Hs. by do 2 destruct (map_get _ (forwardKey DirRemote c)).
Qed.

Lemma quiet_same held s w s' w' : quiet_held held s w → same_ports s w s' w' → quiet_held held s' w'.
Proof. intros Hq [Hm ????]. eapply quiet_transfer; try done. by rewrite Hm. Qed.

Lemma quiet_steady held s s' w : quiet_held held s w → steady s s' → quiet_held held s' w.
Proof. intros Hq Hs. eapply quiet_same; [done|by apply steady_same_ports]. Qed.

Abbreviation safely := (safe (meanwhile steady) table_safe).

(** ** Steps that change nothing *)

Lemma safe_persist (Q : BindState → Outside → () + BindError → Prop) s w :
  table_safe s w → (∀ r s', steady s s' → Q s' w r) → safely Q persist s w.
Proof. intros Hi HQ. unfold persist, projectPortForwards. program_step. program_step; [done|by apply HQ]. Qed.

Lemma safe_persistRevocation (Q : BindState → Outside → () + BindError → Prop) s w :
  table_safe s w → (∀ r s', steady s s' → Q s' w r) → safely Q persistRevocation s w.
Proof.
  intros Hi HQ. apply safe_try, safe_persist; [done|]. intros [[]|e] s1 H1; [by apply HQ|].
  apply safe_bind, safe_try, safe_persist; [by eapply steady_safe|].
  intros [[]|e'] s2 H2; cbn; apply HQ; by etrans.
Qed.

Lemma safe_probe (Q : BindState → Outside → ProbeResult + BindError → Prop) spec s w :
  table_safe s w → (∀ r s', steady s s' → Q s' w (inl r)) → safely Q (probe spec) s w.
Proof.
  intros Hi HQ. unfold probe. apply safe_try.
  destruct (is_local spec); (program_step; [done|]);
    (case_match; [by apply HQ|]); repeat case_match; by apply HQ.
Qed.

Lemma safe_validate {A} (Q : BindState → Outside → A + BindError → Prop) spec f s w :
  (validPort (fs_containerPort spec) = true → validPort (fs_hostPort spec) = true → safely Q (f ()) s w) →
  (∀ e, Q s w (inr e)) → safely Q (validateSpec spec ≫= f) s w.
Proof.
  intros Hf He. unfold validateSpec.
  destruct (validPort (fs_containerPort spec)), (validPort (fs_hostPort spec)); cbn; auto; apply He.
Qed.

(** ** `add` *)

Definition unlisten_opt (acquired : option Z) (w : Outside) : Outside :=
  match acquired with Some hostPort => unlisten w hostPort | None => w end.

(** The world after the rollback of an inserted entry. *)
Definition revoke_remote (spec : ForwardSpec) (w : Outside) : Outside :=
  if is_local spec then w else revoke w (fs_containerPort spec).

Definition without (spec : ForwardSpec) (s : BindState) : BindState :=
  let s := drop_generation (spec_key spec) (set_managed (λ m, map_delete m (spec_key spec)) s) in
  if is_local spec then set_open (λ o, map_delete o (fs_containerPort spec)) s else s.

Lemma safe_close_held {A} (Q : BindState → Outside → A + BindError → Prop) acquired error s w :
  table_safe s w → (∀ e s', steady s s' → Q s' (unlisten_opt acquired w) (inr e)) →
  safely Q (_ ← match acquired with Some hostPort => await (CloseServer hostPort) | None => mret () end;
            Throw error) s w.
Proof.
  intros Hi HQ. destruct acquired as [h|]; [|by apply HQ]. program_step; [done|].
  program_step; repeat program_step; by apply HQ.
Qed.

Lemma safe_rollback_early {A} (Q : BindState → Outside → A + BindError → Prop) spec acquired error s w :
  table_safe s w → (∀ e s', steady s s' → Q s' (unlisten_opt acquired w) (inr e)) →
  safely Q (rollback spec false acquired error) s w.
Proof. intros Hi HQ. unfold rollback. program_step. by apply safe_close_held. Qed.

Lemma safe_rollback {A} (Q : BindState → Outside → A + BindError → Prop) spec acquired error s w :
  is_local spec = true ∨ acquired = None → table_safe s w →
  (∀ e s', steady (without spec s) s' → Q s' (unlisten_opt acquired (revoke_remote spec w)) (inr e)) →
  safely Q (rollback spec true acquired error) s w.
Proof.
  intros Hacq Hi HQ.
  assert (table_safe (without spec s) w) as Hi'.
  { unfold table_safe, without. destruct (is_local spec); cbn; rewrite skeleton_delete; by apply table_ok_delete. }
  unfold rollback, revoke_remote in *. program_step. program_step. revert HQ Hi'. unfold without.
  destruct (is_local spec); intros HQ Hi'.
  - program_step. by apply safe_close_held.
  - program_step. program_step; [done|]. destruct Hacq as [Hacq| ->]; [done|].
    program_step; [|by apply HQ]. program_step. by apply HQ.
Qed.

(** What `add` finds out before it changes anything. *)
Record addable (spec : ForwardSpec) (s : BindState) : Prop := {
  ad_ok : spec_ok reserved spec;
  ad_new : map_get (bs_managed s) (spec_key spec) = None;
  ad_host : is_local spec = true → ∀ f, In f (specs s) → is_local f = true → fs_hostPort f ≠ fs_hostPort spec;
  ad_cycle : createsForwardCycle (specs s) spec = false;
}.

(** The table holds [spec] on behalf of [owner], and no other entry has changed. *)
Record owned (spec : ForwardSpec) (owner : ForwardOwner) (s s' : BindState) (w' : Outside)
    (entry : ManagedForward) : Prop := {
  ow_quiet : quiet s' w';
  ow_get : map_get (bs_managed s') (spec_key spec) = Some entry;
  ow_spec : mf_spec entry = spec;
  ow_owner : In owner (mf_owners entry);
  ow_others : ∀ k, k ≠ spec_key spec → map_get (bs_managed s') k = map_get (bs_managed s) k;
}.

Lemma host_taken_spec spec s :
  existsb (λ e, is_local (mf_spec e) && (mf_hostPort e =? fs_hostPort spec)%Z) (entries s) = false →
  ∀ f, In f (specs s) → is_local f = true → fs_hostPort f ≠ fs_hostPort spec.
Proof.
  intros Hn f (e & <- & He)%in_map_iff Hl Hh. rewrite existsb_false in Hn. specialize (Hn e He).
  cbn beta in Hn. unfold mf_hostPort in Hn. by rewrite Hl, Hh, Z.eqb_refl in Hn.
Qed.

Lemma copyManagedForward_id e : copyManagedForward e = e.
Proof. by destruct e as [[]]. Qed.

Lemma map_get_entry s k e :
  table_ok reserved (skeleton (bs_managed s)) → map_get (bs_managed s) k = Some e → k = spec_key (mf_spec e).
Proof.
  intros HT Hg. apply (tk_key _ _ HT k (mf_spec e)), map_get_In. by rewrite skeleton_get, Hg.
Qed.

Lemma spec_key_eq f g :
  spec_key f = spec_key g → fs_hostPort f = fs_hostPort g → f = g.
Proof. destruct f, g. intros [Hd Hc]%forwardKey_inj Hh. cbn in *. by subst. Qed.

(** The two ways of `add` before an entry is inserted: an entry of these ports gets
    the owner, or nothing has happened. *)
Lemma safe_add_existing spec owner s w :
  quiet s w ∨ map_get (bs_managed s) (spec_key spec) = None ∧ table_safe s w →
  safely (λ s' w' r, match r with
    | inl (Some (entry, _)) => owned spec owner s s' w' entry
    | inl None => s' = s ∧ w' = w ∧ addable spec s
    | inr _ => same_ports s w s' w'
    end) (add_existing reserved spec owner) s w.
Proof.
  intros Hq. assert (table_safe s w) as Hi by (destruct Hq as [Hq|[_ Hq]]; [apply Hq|done]).
  unfold add_existing. apply safe_validate; [|by intros e; apply steady_same_ports].
  intros Hc Hh. program_step.
  destruct (map_get (bs_managed s) (spec_key spec)) as [existing|] eqn:Eg.
  - destruct Hq as [Hq|[? _]]; [|done].
    destruct (Z.eqb_spec (mf_hostPort existing) (fs_hostPort spec)) as [Eh|_]; cbn [negb];
      [|by apply steady_same_ports].
    assert (mf_spec existing = spec) as Hspec.
    { apply spec_key_eq; [|done]. symmetry. by eapply map_get_entry. }
    assert (∀ s1 e, skeleton (bs_managed s1) = skeleton (bs_managed s) →
        bs_open s1 = bs_open s →
        map_get (bs_managed s1) (spec_key spec) = Some e → mf_spec e = spec → In owner (mf_owners e) →
        (∀ k, k ≠ spec_key spec → map_get (bs_managed s1) k = map_get (bs_managed s) k) →
        ∀ s2, steady s1 s2 → owned spec owner s s2 w e) as Howned.
    { intros s1 e Hm Ho Hg He Hin Hk s2 Hs. split; try done; try by rewrite (st_managed _ _ Hs).
      eapply quiet_steady; [|done]. by eapply quiet_transfer. }
    destruct (includes (mf_owners existing) owner) eqn:Eo.
    + program_step. program_step. apply safe_bind, safe_probe; [done|].
      intros r s1 Hs. cbn. rewrite Eg. cbn. rewrite copyManagedForward_id. apply (Howned s); auto.
      by apply includes_In.
    + set (updated := with_owners existing (mf_owners existing ++ [owner])).
      apply safe_assoc. program_step.
      set (s1 := set_managed _ s).
      assert (skeleton (bs_managed s1) = skeleton (bs_managed s)) as Hsk by (by eapply skeleton_rewrite).
      assert (table_safe s1 w) as Hi1 by (unfold table_safe; by rewrite Hsk).
      apply safe_bind, safe_try, safe_persist; [done|]. intros [[]|e] s2 Hs2; [|].
      * program_step. apply safe_bind, safe_probe; [by eapply steady_safe|]. intros r s3 Hs3. cbn.
        rewrite (st_managed _ _ Hs2). cbn. rewrite map_get_set_eq. cbn. rewrite copyManagedForward_id.
        apply (Howned s1); auto; cbn.
        -- apply map_get_set_eq.
        -- apply in_app_iff. right. by left.
        -- intros k Hk. by rewrite map_get_set_ne.
        -- by etrans.
      * program_step. program_step. split; cbn; try done.
        -- rewrite (st_managed _ _ Hs2). cbn. rewrite map_set_set. by apply map_set_same.
        -- apply (st_open _ _ Hs2).
  - destruct (negb (is_local spec) && includes reserved (fs_containerPort spec)) eqn:Er;
      [by apply steady_same_ports|].
    destruct (is_local spec && existsb _ (entries s)) eqn:Et; [by apply steady_same_ports|].
    destruct (createsForwardCycle (specs s) spec) eqn:Ec; [by apply steady_same_ports|].
    split_and!; try done. split; try done.
    + split_and!; [done|done|]. intros Hl. rewrite Hl in Er. by apply includes_false.
    + intros Hl. rewrite Hl in Et. by apply host_taken_spec.
Qed.

Lemma skeleton_has m k : map_has (skeleton m) k = map_has m k.
Proof. unfold map_has. rewrite skeleton_get. by destruct (map_get m k). Qed.

(** The ports of the servers an operation has at hand. *)
Definition held_ports (acquired : option Z) : list Z :=
  match acquired with Some hostPort => [hostPort] | None => [] end.

Section Insert.
Context (spec : ForwardSpec) (s : BindState) (w : Outside).
Context (Hadd : addable spec s).

Lemma addable_skeleton : map_get (skeleton (bs_managed s)) (spec_key spec) = None.
Proof. by rewrite skeleton_get, (ad_new _ _ Hadd). Qed.

Lemma table_insert :
  table_ok reserved (skeleton (bs_managed s)) →
  table_ok reserved (skeleton (bs_managed s) ++ [(spec_key spec, spec)]).
Proof.
  intros HT. destruct Hadd as [H1 H2 H3 H4]. rewrite skeleton_specs in H3, H4.
  apply table_ok_insert; auto. apply addable_skeleton.
Qed.

(** A forward that is opened and recorded. *)
Lemma quiet_insert s' w' :
  quiet_held (if is_local spec then [fs_hostPort spec] else []) s w →
  skeleton (bs_managed s') = skeleton (bs_managed s) ++ [(spec_key spec, spec)] →
  bs_open s' = (if is_local spec then map_set (bs_open s) (fs_containerPort spec) (fs_hostPort spec)
                else bs_open s) →
  out_shut w' = out_shut w → out_listening w' = out_listening w →
  (∀ c, In c (out_granted w') → In c (out_granted w) ∨ is_local spec = false ∧ c = fs_containerPort spec) →
  quiet s' w'.
Proof.
  intros [H1 H2 H3 H4 H5] Hm Ho Hc Hl Hg.
  assert (bs_open s' ≡ₚ local_ports (skeleton (bs_managed s')) ∧
          map snd (bs_open s') ≡ₚ (if is_local spec then [fs_hostPort spec] else []) ++ map snd (bs_open s))
    as [Hop Hports].
  { rewrite Ho, Hm, local_ports_app. unfold local_ports at 2. cbn. destruct (is_local spec) eqn:El; cbn.
    - rewrite map_set_missing by (apply (open_missing H1 H2); [apply addable_skeleton|done]).
      split; [by rewrite H2|]. rewrite map_app. cbn. symmetry. apply Permutation_cons_append.
    - by rewrite app_nil_r. }
  split; [rewrite Hm; by apply table_insert|done|..]; cbn [app]; rewrite ?Hports, ?Hl, ?Hc; auto.
  intros Hf c Hin. rewrite <- skeleton_has, Hm. unfold map_has. rewrite map_get_missing_app.
  destruct (Hg c Hin) as [Hin'|[El ->]].
  - specialize (H5 Hf c Hin'). rewrite <- skeleton_has in H5. unfold map_has in H5.
    by destruct (map_get (skeleton (bs_managed s)) (forwardKey DirRemote c)).
  - destruct (map_get _ _); [done|]. rewrite decide_True; [done|]. unfold spec_key.
    apply bool_decide_eq_false in El. by destruct (fs_direction spec).
Qed.

(** A forward that is taken back. *)
Lemma same_without held e s3 s4 w0 w4 :
  quiet_held held s w → bs_managed s3 = map_set (bs_managed s) (spec_key spec) e →
  bs_open s3 = bs_open s ∨
    is_local spec = true ∧ (∃ h, bs_open s3 = map_set (bs_open s) (fs_containerPort spec) h) →
  steady (without spec s3) s4 → out_shut w4 = out_shut w0 →
  out_listening w4 ≡ₚ out_listening w0 → (∀ c, In c (out_granted w4) → In c (out_granted w0)) →
  same_ports s w0 s4 w4.
Proof.
  intros Hq Hm Ho Hs Hc Hl Hg. split; auto.
  - rewrite (st_managed _ _ Hs). transitivity (map_delete (bs_managed s3) (spec_key spec)).
    + unfold without. by destruct (is_local spec).
    + rewrite Hm. apply map_delete_set, (ad_new _ _ Hadd).
  - rewrite (st_open _ _ Hs). unfold without. destruct (is_local spec) eqn:El; cbn.
    + pose proof (open_missing (qt_table _ _ _ Hq) (qt_open _ _ _ Hq) spec addable_skeleton El) as Hn.
      destruct Ho as [->|[_ [h ->]]]; [by apply map_delete_missing|by apply map_delete_set].
    + destruct Ho as [->|[? _]]; done.
Qed.
End Insert.

Lemma safe_now {A} (Q : BindState → Outside → A + BindError → Prop) f s w :
  (∀ t, safely Q (f t) s w) → safely Q (now ≫= f) s w.
Proof. intros Hf r. apply Hf. Qed.

(** What `add` guarantees: the forward is in place, or nothing has changed. *)
Definition add_post (spec : ForwardSpec) (owner : ForwardOwner) (prepared : option Z)
    (s : BindState) (w : Outside) (s' : BindState) (w' : Outside)
    (r : AddForwardResult + BindError) : Prop :=
  match r with
  | inl (entry, _) => owned spec owner s s' w' entry
  | inr _ => same_ports s (unlisten_opt prepared w) s' w'
  end.

Lemma safe_add_record spec owner prepared acquired s w w0 w1 s1 createdAt :
  addable spec s →
  bs_managed s1 = map_set (bs_managed s) (spec_key spec) (new_entry spec [owner] createdAt) →
  bs_open s1 = bs_open s →
  acquired = (if is_local spec then Some (fs_hostPort spec) else None) →
  quiet_held (held_ports acquired) s w0 →
  out_listening w1 = out_listening w0 → out_shut w1 = out_shut w0 → out_shut w0 = out_shut w →
  (∀ c, In c (out_granted w1) → In c (out_granted w0) ∨ is_local spec = false ∧ c = fs_containerPort spec) →
  out_listening (unlisten_opt acquired w1) ≡ₚ out_listening (unlisten_opt prepared w) →
  (∀ c, In c (out_granted w0) → In c (out_granted w)) →
  safely (add_post spec owner prepared s w)
    (try (add_record spec acquired) (rollback spec true acquired)) s1 w1.
Proof.
  intros Hadd Hm Ho Hacq Hq Hl1 Hs1 Hs0 Hg1 Hl0 Hg0.
  set (e := with_state (new_entry spec [owner] createdAt) FwActive None).
  set (opened := if is_local spec then map_set (bs_open s) (fs_containerPort spec) (fs_hostPort spec)
                 else bs_open s).
  set (s2 := set_managed (λ _, map_set (bs_managed s) (spec_key spec) e) (set_open (λ _, opened) s1)).
  assert (skeleton (bs_managed s2) = skeleton (bs_managed s) ++ [(spec_key spec, spec)]) as Hsk.
  { cbn. rewrite skeleton_set. by apply map_set_missing, addable_skeleton. }
  assert (table_safe s2 w1) as Hi.
  { unfold table_safe. rewrite Hsk. apply table_insert; [done|apply (qt_table _ _ _ Hq)]. }
  assert (safely (λ s' w' r, w' = w1 ∧ steady s2 s' ∧ match r with inl (entry, _) => entry = e | inr _ => True end)
            (add_record spec acquired) s1 w1) as Hrec.
  { unfold add_record. subst acquired.
    destruct (is_local spec) eqn:El.
    all: program_step; program_step; program_step.
    all: replace (set_managed _ _) with s2 by
      (unfold s2, opened, update_entry, set_managed, set_open; cbn; rewrite ?El, ?Hm, ?Ho, map_get_set_eq, map_set_set; by destruct s1).
    all: apply safe_bind, safe_persist; [done|]; intros [[]|err] s3 H3; [|done].
    all: apply safe_bind, safe_probe; [by eapply steady_safe|]; intros r s4 H4.
    all: cbn; rewrite map_get_set_eq; split_and!; [done|by etrans|apply copyManagedForward_id]. }
  eapply safe_catch; [exact Hrec|..]; cbn beta.
  - intros s3 w3 [entry pr] (-> & H3 & ->). cbn. split; try done.
    + apply (quiet_insert spec s w0 Hadd s3 w1); try done.
      * by destruct (is_local spec); subst.
      * by rewrite (st_managed _ _ H3).
      * by rewrite (st_open _ _ H3).
    + rewrite (st_managed _ _ H3). apply map_get_set_eq.
    + by left.
    + intros k Hk. rewrite (st_managed _ _ H3). cbn. by rewrite map_get_set_ne.
  - intros s3 w3 err (-> & H3 & _). apply safe_rollback.
    + subst. destruct (is_local spec); auto.
    + by eapply steady_safe.
    + intros err' s4 H4. eapply (same_without spec s w0 Hadd _ e s3); try done.
      * by rewrite (st_managed _ _ H3).
      * rewrite (st_open _ _ H3). cbn. unfold opened. destruct (is_local spec); eauto.
      * subst acquired. unfold revoke_remote. destruct (is_local spec), prepared; cbn; congruence.
      * subst acquired. unfold revoke_remote. by destruct (is_local spec).
      * intros c. subst acquired. unfold revoke_remote. destruct (is_local spec) eqn:El.
        -- intros Hin. destruct prepared; apply Hg0; destruct (Hg1 c Hin); naive_solver.
        -- cbn. intros [Hin Hne]%filter_In. destruct prepared; apply Hg0; destruct (Hg1 c Hin) as [|[_ ->]]; try done;
             by rewrite Z.eqb_refl in Hne.
Qed.

(** What opening the listener of an inserted entry may leave behind. *)
Lemma safe_add_open (Q : BindState → Outside → option Z + BindError → Prop) spec prepared s w :
  table_safe s w → validPort (fs_hostPort spec) = true →
  (∀ h, prepared = Some h → is_local spec = true) →
  (∀ s' w' acquired, steady s s' →
     match is_local spec, prepared with
     | true, Some h => acquired = Some h ∧ w' = w
     | true, None => acquired = Some (fs_hostPort spec) ∧ out_granted w' = out_granted w ∧
                     out_shut w' = out_shut w ∧ out_listening w' = out_listening w ++ [fs_hostPort spec]
     | false, _ => acquired = None ∧ out_listening w' = out_listening w ∧ out_shut w' = out_shut w ∧
                   out_granted w' = fs_containerPort spec :: out_granted w
     end → Q s' w' (inl acquired)) →
  (∀ s' w' e, steady s s' → out_listening w' = out_listening w → out_shut w' = out_shut w →
     (∀ c, In c (out_granted w') → In c (out_granted w) ∨ is_local spec = false ∧ c = fs_containerPort spec) →
     Q s' w' (inr e)) →
  safely Q (add_open spec prepared) s w.
Proof.
  intros Hi Hv Hp Hok Herr. unfold add_open.
  destruct (is_local spec) eqn:El; [destruct prepared as [h|]|].
  - program_step. by apply Hok.
  - apply safe_bind, safe_try. program_step; [done|]. destruct r as [chosen|e].
    + program_step. apply Hok; [done|]. split_and!; [done..|]. cbn. unfold server_port.
      destruct (Z.eqb_spec (fs_hostPort spec) 0) as [E0|_]; [|done]. by rewrite E0 in Hv.
    + destruct (port_unavailable e); apply Herr; auto.
  - assert (prepared = None) as -> by (destruct prepared; [by specialize (Hp _ eq_refl)|done]).
    apply safe_bind, safe_try. program_step; [done|]. destruct r as [[]|e].
    + program_step. by apply Hok.
    + destruct e; (apply Herr; [done..|]); cbn; naive_solver.
Qed.

Lemma quiet_listen s w w' hostPort :
  quiet s w → out_shut w' = out_shut w → out_granted w' = out_granted w → out_listening w' = out_listening w ++ [hostPort] →
  quiet_held [hostPort] s w'.
Proof.
  intros [H1 H2 H3 H4 H5] Hs Hg Hl. split; rewrite ?Hs, ?Hg, ?Hl, ?(Permutation.Permutation_app_comm _ [hostPort]); auto.
  - by apply submseteq_skip.
  - intros Hc. by apply submseteq_skip, H4.
Qed.

Lemma safe_add_new spec owner prepared s w createdAt :
  addable spec s → quiet_held (held_ports prepared) s w →
  (∀ h, prepared = Some h → is_local spec = true ∧ h = fs_hostPort spec) →
  safely (add_post spec owner prepared s w)
    (_ ← modify (insert_entry (new_entry spec [owner] createdAt));
     acquired ← try (add_open spec prepared) (rollback spec true prepared);
     try (add_record spec acquired) (rollback spec true acquired)) s w.
Proof.
  intros Hadd Hq Hp. program_step. set (s1 := insert_entry _ s). apply safe_bind, safe_try.
  assert (skeleton (bs_managed s1) = skeleton (bs_managed s) ++ [(spec_key spec, spec)]) as Hsk.
  { cbn. rewrite skeleton_set. by apply map_set_missing, addable_skeleton. }
  assert (table_safe s1 w) as Hi.
  { unfold table_safe. rewrite Hsk. apply table_insert; [done|apply (qt_table _ _ _ Hq)]. }
  apply safe_add_open; [done|apply (ad_ok _ _ Hadd)|intros h Hh; by apply Hp in Hh as []|..].
  - intros s2 w2 acquired H2 Hopen.
    assert (∀ w0, quiet_held (held_ports acquired) s w0 →
      acquired = (if is_local spec then Some (fs_hostPort spec) else None) →
      out_listening w2 = out_listening w0 → out_shut w2 = out_shut w0 → out_shut w0 = out_shut w →
      (∀ c, In c (out_granted w2) → In c (out_granted w0) ∨ is_local spec = false ∧ c = fs_containerPort spec) →
      out_listening (unlisten_opt acquired w2) ≡ₚ out_listening (unlisten_opt prepared w) →
      (∀ c, In c (out_granted w0) → In c (out_granted w)) →
      safely (add_post spec owner prepared s w)
        (try (add_record spec acquired) (rollback spec true acquired)) s2 w2) as Hrec.
    { intros w0 **. eapply (safe_add_record spec owner prepared acquired s w w0); try done.
      - by rewrite (st_managed _ _ H2).
      - by rewrite (st_open _ _ H2). }
    destruct (is_local spec) eqn:El; [destruct prepared as [h|]|].
    + destruct Hopen as [-> ->]. destruct (Hp h eq_refl) as [_ ->]. apply (Hrec w); auto.
    + destruct Hopen as (-> & Hg & Hsh & Hl). apply (Hrec w2); auto.
      * by apply (quiet_listen s w).
      * cbn. rewrite Hl. apply remove_one_snoc.
      * by rewrite Hg.
    + destruct Hopen as (-> & Hl & Hsh & Hg). destruct prepared as [h|]; [by destruct (Hp h eq_refl)|].
      apply (Hrec w); auto.
      * intros c. rewrite Hg. cbn. naive_solver.
      * cbn. by rewrite Hl.
  - intros s2 w2 e H2 Hl Hsh Hg. apply safe_rollback.
    + destruct prepared as [h|]; [left; by apply (Hp h)|by right].
    + by eapply steady_safe.
    + intros e' s3 H3.
      eapply (same_without spec s w Hadd _ (new_entry spec [owner] createdAt) s2); try done.
      * by rewrite (st_managed _ _ H2).
      * left. by rewrite (st_open _ _ H2).
      * unfold revoke_remote. destruct (is_local spec), prepared; cbn; by rewrite Hsh.
      * unfold revoke_remote. destruct (is_local spec), prepared; cbn; by rewrite Hl.
      * intros c. unfold revoke_remote. destruct (is_local spec) eqn:El, prepared; cbn;
          try (intros Hin; destruct (Hg c Hin); naive_solver).
        all: intros [Hin Hne]%filter_In; destruct (Hg c Hin) as [|[_ ->]]; [done|];
          by rewrite Z.eqb_refl in Hne.
Qed.

Lemma same_ports_trans s w s1 w1 s2 w2 :
  same_ports s w s1 w1 → same_ports s1 w1 s2 w2 → same_ports s w s2 w2.
Proof. intros [] []. split; try congruence; auto. by etrans. Qed.

Lemma safe_add spec owner prepared s w :
  quiet_held (held_ports prepared) s w →
  (∀ h, prepared = Some h →
     is_local spec = true ∧ h = fs_hostPort spec ∧ map_get (bs_managed s) (spec_key spec) = None) →
  safely (add_post spec owner prepared s w) (add reserved spec owner prepared) s w.
Proof.
  intros Hq Hp. unfold add. apply safe_bind, safe_try, safe_bind.
  eapply safe_mono; [apply safe_add_existing|].
  { destruct prepared as [h|]; [right|by left]. destruct (Hp h eq_refl) as (_ & _ & Hn).
    split; [done|apply (qt_table _ _ _ Hq)]. }
  intros s1 w1 [[[entry pr]|]|e]; cbv beta iota.
  - done.
  - intros (-> & -> & Hadd). apply safe_now. intros createdAt. apply safe_add_new; [done..|].
    intros h Hh. by destruct (Hp h Hh) as (? & ? & _).
  - intros Hs. apply safe_rollback_early.
    + unfold table_safe. rewrite (sp_managed _ _ _ _ Hs). apply (qt_table _ _ _ Hq).
    + intros e' s2 H2. destruct Hs as [Hm Ho Hc Hl Hg].
      assert (out_listening (unlisten_opt prepared w1) ≡ₚ out_listening (unlisten_opt prepared w)) as Hl'.
      { destruct prepared; [|done]. cbn. by rewrite Hl. }
      destruct H2 as [H2o H2m _ _ _ _]. split; try congruence; by destruct prepared.
Qed.

Lemma add_post_quiet spec owner prepared s w s' w' r :
  quiet s (unlisten_opt prepared w) → add_post spec owner prepared s w s' w' r → quiet s' w'.
Proof. destruct r as [[entry pr]|e]; cbn; intros Hq Hp; [apply Hp|by eapply quiet_same]. Qed.

(** ** `remove` *)

Lemma quiet_unlisten hostPort s w : quiet_held [hostPort] s w → quiet s (unlisten w hostPort).
Proof.
  intros [H1 H2 H3 H4 H5]. split; auto; cbn.
  - by apply remove_one_submseteq.
  - intros Hc. by apply remove_one_superseteq, H4.
Qed.

(** The state without an entry and its binding. *)
Lemma quiet_delete_local s w s1 entry :
  quiet s w → map_get (bs_managed s) (spec_key (mf_spec entry)) = Some entry → is_local (mf_spec entry) = true →
  bs_managed s1 = map_delete (bs_managed s) (spec_key (mf_spec entry)) →
  bs_open s1 = map_delete (bs_open s) (mf_containerPort entry) →
  quiet_held [mf_hostPort entry] s1 w.
Proof.
  intros [H1 H2 H3 H4 H5] Hg El Hm Ho.
  assert (map_get (skeleton (bs_managed s)) (spec_key (mf_spec entry)) = Some (mf_spec entry)) as Hg'
    by by rewrite skeleton_get, Hg.
  destruct (open_delete H1 H2 Hg' El) as [Hd1 Hd2].
  rewrite Hd2 in H3, H4. split; rewrite ?Hm, ?Ho, ?skeleton_delete; auto.
  - by apply table_ok_delete.
  - intros Hf c Hin. specialize (H5 Hf c Hin). revert H5. unfold map_has.
    rewrite map_get_delete_ne; [done|]. unfold spec_key. apply bool_decide_eq_true in El. rewrite El.
    by intros [? _]%forwardKey_inj.
Qed.

Lemma quiet_delete_remote s w s1 entry :
  quiet s w → map_get (bs_managed s) (spec_key (mf_spec entry)) = Some entry → is_local (mf_spec entry) = false →
  bs_managed s1 = map_delete (bs_managed s) (spec_key (mf_spec entry)) →
  bs_open s1 = bs_open s →
  quiet s1 (revoke w (mf_containerPort entry)).
Proof.
  intros [H1 H2 H3 H4 H5] Hg El Hm Ho.
  assert (map_get (skeleton (bs_managed s)) (spec_key (mf_spec entry)) = Some (mf_spec entry)) as Hg'
    by by rewrite skeleton_get, Hg.
  pose proof (local_ports_delete Hg') as Hd. rewrite El in Hd. cbn in Hd.
  split; rewrite ?Hm, ?Ho, ?skeleton_delete; auto.
  - by apply table_ok_delete.
  - by rewrite <- Hd.
  - intros Hf c [Hin Hne]%filter_In. specialize (H5 Hf c Hin). revert H5. unfold map_has.
    rewrite map_get_delete_ne; [done|]. intros [_ Heq]%forwardKey_inj. unfold mf_containerPort in Hne.
    by rewrite Heq, Z.eqb_refl in Hne.
Qed.

(** After `remove`, whether it answers or fails: the entry has lost its user owners, or
    is gone. *)
Record revoked (id : string) (s s' : BindState) (w' : Outside) : Prop := {
  rv_quiet : quiet s' w';
  rv_get : map_get (bs_managed s') id = (entry ← map_get (bs_managed s) id; removeUserOwners entry);
  rv_others : ∀ k, k ≠ id → map_get (bs_managed s') k = map_get (bs_managed s) k;
}.

Lemma revoked_steady id s s1 s2 w : revoked id s s1 w → steady s1 s2 → revoked id s s2 w.
Proof. intros [] Hs. split; rewrite ?(st_managed _ _ Hs); auto. by eapply quiet_steady. Qed.

Lemma removeUserOwners_same entry retained :
  removeUserOwners entry = Some retained → length (mf_owners retained) = length (mf_owners entry) →
  retained = entry.
Proof.
  unfold removeUserOwners. case_match; [done|]. intros [= <-]. cbn. intros Hl.
  replace (List.filter _ _) with (mf_owners entry); [by destruct entry|].
  clear -Hl. induction (mf_owners entry) as [|o l IH]; cbn in *; [done|].
  pose proof (List.filter_length_le (λ owner, bool_decide (owner = OwnInternal)) l).
  destruct (bool_decide (o = OwnInternal)); cbn in *; [f_equal; apply IH; lia|lia].
Qed.

Lemma skeleton_keys m : map_keys (skeleton m) = map_keys m.
Proof. unfold skeleton, map_keys. rewrite map_map. apply map_ext. by intros [? ?]. Qed.

Section Remove.
Context (id : string) (s : BindState) (w : Outside) (Hq : quiet s w).
Context (entry : ManagedForward) (Hget : map_get (bs_managed s) id = Some entry).

Lemma safe_retain retained :
  removeUserOwners entry = Some retained →
  safely (λ s' w' (_ : () + BindError), revoked id s s' w')
    (_ ← modify (set_managed (λ m, map_set m id retained)); persistRevocation) s w.
Proof.
  intros Er. assert (mf_spec retained = mf_spec entry) as Hspec.
  { unfold removeUserOwners in Er. case_match; [done|]. by injection Er as <-. }
  program_step. set (s1 := set_managed _ s).
  assert (revoked id s s1 w) as Hr1.
  { split; cbn.
    - eapply quiet_transfer; [exact Hq|..]; try done. cbn. by eapply skeleton_rewrite.
    - by rewrite map_get_set_eq, Hget.
    - intros k Hk. by rewrite map_get_set_ne. }
  apply safe_persistRevocation; [apply Hr1|]. intros r s2 H2. by eapply revoked_steady.
Qed.

Context (Hgone : removeUserOwners entry = None).

Lemma revoked_deleted s' w' :
  quiet s' w' → bs_managed s' = map_delete (bs_managed s) id → revoked id s s' w'.
Proof.
  intros Hq' Hm. split; [done|..]; rewrite Hm.
  - rewrite Hget. cbn. rewrite Hgone. apply map_get_delete_eq. rewrite <- skeleton_keys. apply Hq.
  - intros k Hk. by apply map_get_delete_ne.
Qed.

(** The end of `remove`. *)
Lemma safe_removed (answer : RemoveForwardResult) s' w' :
  quiet s' w' → bs_managed s' = map_delete (bs_managed s) id →
  safely (λ s' w' _, revoked id s s' w') (_ ← persistRevocation; mret answer) s' w'.
Proof.
  intros Hq' Hm. apply safe_bind, safe_persistRevocation; [apply Hq'|]. intros r s3 H3.
  assert (revoked id s s3 w') as Hr by (eapply revoked_steady; [by eapply revoked_deleted|done]).
  by destruct r.
Qed.
End Remove.

Lemma safe_remove direction containerPort s w :
  quiet s w →
  safely (λ s' w' _, revoked (forwardKey direction containerPort) s s' w') (remove direction containerPort) s w.
Proof.
  intros Hq. unfold remove. set (id := forwardKey direction containerPort). program_step.
  destruct (map_get (bs_managed s) id) as [entry|] eqn:Eg; [|split; [done|by rewrite Eg|done]].
  assert (id = spec_key (mf_spec entry)) as Hid by (eapply map_get_entry; [apply Hq|done]).
  destruct (removeUserOwners entry) as [retained|] eqn:Er.
  - destruct (Nat.eqb_spec (length (mf_owners retained)) (length (mf_owners entry))) as [El|_]; cbn [negb].
    + apply removeUserOwners_same in Er as Hsame; [|done]. subst retained.
      program_step. program_step. split; [done|by rewrite Eg; cbn; rewrite Er|done].
    + apply safe_bind. eapply safe_mono; [by eapply safe_retain|]. by intros s' w' [[]|e].
  - program_step. set (s1 := drop_generation id _). destruct (is_local (mf_spec entry)) eqn:El.
    + apply safe_assoc. program_step. set (s2 := set_open _ s1).
      assert (quiet_held [mf_hostPort entry] s2 w) as Hq2.
      { eapply (quiet_delete_local s w s2 entry); try done; [by rewrite <- Hid|]. cbn. by rewrite Hid. }
      assert (map_get (bs_open s) (mf_containerPort entry) = Some (mf_hostPort entry)) as ->.
      { eapply (open_get (qt_table _ _ _ Hq) (qt_open _ _ _ Hq)); [|done]. by rewrite skeleton_get, Eg. }
      apply safe_assoc. program_step; [apply Hq2|].
      assert (quiet s' (unlisten w (mf_hostPort entry))) as Hq'.
      { eapply quiet_steady; [by apply quiet_unlisten|done]. }
      pose proof (st_managed _ _ H) as Hm. program_step; repeat program_step.
      * by eapply safe_removed.
      * by eapply revoked_deleted.
    + program_step.
      { unfold table_safe. cbn. rewrite skeleton_delete. apply table_ok_delete, Hq. }
      assert (quiet s' (revoke w (mf_containerPort entry))) as Hq'.
      { eapply quiet_steady; [|done]. eapply (quiet_delete_remote s w s1 entry); try done; [by rewrite <- Hid|].
        cbn. by rewrite Hid. }
      pose proof (st_managed _ _ H) as Hm. program_step; repeat program_step.
      * by eapply safe_removed.
      * by eapply revoked_deleted.
Qed.

(** ** The other operations *)

(** The search for a host port holds at most the server it answers. *)
Lemma safe_acquire containerPort candidates s w :
  quiet s w →
  safely (λ s' w' r, steady s s' ∧ match r with
    | inl (Some hostPort) => quiet_held [hostPort] s' w'
    | _ => quiet s' w'
    end) (acquire containerPort candidates) s w.
Proof.
  revert s w. induction candidates as [|candidate rest IH]; intros s w Hq; cbn [acquire]; [by split|].
  apply safe_bind, safe_try. program_step; [apply Hq|].
  assert (quiet s' w) as Hq' by by eapply quiet_steady.
  destruct r as [chosen|e]; cbn [answered].
  - program_step. apply safe_now. intros _. program_step. program_step. split; [done|].
    by eapply quiet_listen.
  - program_step. destruct (port_unavailable e); [|by split].
    program_step. eapply safe_mono; [by apply IH|]. intros s2 w2 r [H2 Hr]. split; [by etrans|done].
Qed.

Lemma safe_addLocal containerPort hostPort s w :
  quiet s w → safely (λ s' w' _, quiet s' w') (addLocal reserved containerPort hostPort) s w.
Proof.
  intros Hq. unfold addLocal. program_step. set (requested := match hostPort with Some 0%Z => _ | _ => _ end).
  assert (∀ spec, safely (λ s' w' _, quiet s' w') (add reserved spec OwnDynamic None) s w) as Hadd.
  { intros spec. eapply safe_mono; [by apply (safe_add spec OwnDynamic None)|].
    intros s' w' r Hp. eapply add_post_quiet; [|exact Hp]. done. }
  destruct (map_get (bs_managed s) (forwardKey DirLocal containerPort)) as [e|] eqn:Eg; [apply Hadd|].
  destruct requested; [apply Hadd|].
  destruct (validPort containerPort); cbn [negb]; [|done].
  apply safe_bind. eapply safe_mono; [by apply safe_acquire|]. intros s1 w1 [[port|]|e] [H1 Hr]; [|done..].
  set (spec := {| fs_direction := DirLocal; fs_hostPort := port; fs_containerPort := containerPort |}).
  eapply safe_mono; [apply (safe_add spec OwnDynamic (Some port)); [done|]|].
  - intros h [= <-]. split_and!; [done..|]. by rewrite (st_managed _ _ H1).
  - intros s' w' r Hp. eapply add_post_quiet; [|exact Hp]. by apply quiet_unlisten.
Qed.

Lemma safe_removeSelected selector s w :
  quiet s w → safely (λ s' w' _, quiet s' w') (removeSelected selector) s w.
Proof.
  intros Hq. unfold removeSelected. program_step. case_match; [|done].
  eapply safe_mono; [by apply safe_remove|]. by intros s' w' r [].
Qed.

(** *** The initial forwards *)

Lemma unlisten_all hostPorts : ∀ w,
  out_shut (fold_left unlisten hostPorts w) = out_shut w ∧
  out_granted (fold_left unlisten hostPorts w) = out_granted w ∧
  ∀ L, out_listening w ⊆+ hostPorts ++ L → out_listening (fold_left unlisten hostPorts w) ⊆+ L.
Proof.
  induction hostPorts as [|h hs IH]; intros w; cbn; [done|].
  destruct (IH (unlisten w h)) as (H1 & H2 & H3). split_and!; [done|done|].
  intros L HL. apply H3. cbn. by apply remove_one_submseteq.
Qed.

Lemma revoke_all containerPorts : ∀ w,
  out_listening (fold_left revoke containerPorts w) = out_listening w ∧
  out_shut (fold_left revoke containerPorts w) = out_shut w ∧
  ∀ c, In c (out_granted (fold_left revoke containerPorts w)) ↔ In c (out_granted w) ∧ ¬ In c containerPorts.
Proof.
  induction containerPorts as [|p ps IH]; intros w; cbn [fold_left].
  - split_and!; [done|done|]. intros c. cbn. tauto.
  - destruct (IH (revoke w p)) as (H1 & Hs & H2). split_and!; [done|done|]. intros c. rewrite H2. cbn [revoke out_granted In].
    rewrite filter_In, negb_true_iff, Z.eqb_neq. naive_solver.
Qed.

(** Everything that was open is closed. *)
Record emptied (s : BindState) (w : Outside) : Prop := {
  em_managed : bs_managed s = [];
  em_open : bs_open s = [];
  em_listening : out_listening w = [];
  em_granted : out_shut w = false → out_granted w = [];
}.

Lemma emptied_quiet s w : emptied s w → quiet s w.
Proof.
  intros [Hm Ho Hl Hg]. split; rewrite ?Hm, ?Ho, ?Hl; cbn; auto; [apply table_ok_nil|].
  intros Hs c. by rewrite Hg.
Qed.

Lemma emptied_steady s s' w : steady s s' → emptied s w → emptied s' w.
Proof. intros Hs []. split; rewrite ?(st_managed _ _ Hs), ?(st_open _ _ Hs); auto. Qed.

Lemma remote_granted s w c :
  quiet s w → out_shut w = false → In c (out_granted w) →
  In c (map mf_containerPort (List.filter (λ e, negb (is_local (mf_spec e))) (entries s))).
Proof.
  intros Hq Hs Hc. pose proof (qt_granted _ _ _ Hq Hs c Hc) as Hk. unfold map_has in Hk.
  destruct (map_get (bs_managed s) (forwardKey DirRemote c)) as [e|] eqn:Eg; [|done].
  pose proof (map_get_entry _ _ _ (qt_table _ _ _ Hq) Eg) as [Hd ->]%forwardKey_inj.
  apply in_map_iff. exists e. split; [done|]. apply filter_In. split.
  - apply map_get_In in Eg. by apply (in_map snd) in Eg.
  - unfold is_local. by rewrite <- Hd.
Qed.

(** The world after `failInitial` has closed everything. *)
Lemma emptied_close s w s' :
  quiet s w → bs_managed s' = [] → bs_open s' = [] →
  emptied s' (fold_left revoke (map mf_containerPort (List.filter (λ e, negb (is_local (mf_spec e))) (entries s)))
                (fold_left unlisten (map snd (bs_open s)) w)).
Proof.
  intros Hq Hm Ho. destruct (unlisten_all (map snd (bs_open s)) w) as (H1 & H2 & H3).
  destruct (revoke_all (map mf_containerPort (List.filter (λ e, negb (is_local (mf_spec e))) (entries s)))
    (fold_left unlisten (map snd (bs_open s)) w)) as (H4 & H6 & H5).
  split; [done|done|..].
  - rewrite H4. apply submseteq_nil_r, H3. rewrite app_nil_r. apply (qt_listening _ _ _ Hq).
  - rewrite H6, H1. intros Hs. apply incl_l_nil. intros c [Hin Hn]%H5. rewrite H2 in Hin.
    destruct Hn. by eapply remote_granted.
Qed.

(** What `failInitial` leaves: nothing, or what there was when the initial forwards
    are not pending. *)
Definition failed_initial (s : BindState) (w : Outside) (s' : BindState) (w' : Outside) : Prop :=
  if decide (bs_initial s = InitialPending) then emptied s' w' ∧ bs_initial s' = InitialFailed
  else s' = s ∧ w' = w.

(** The end of `failInitial`. *)
Definition notify_failure (reason : string) : method () :=
  connected ← call IsRelayConnected;
  _ ← (if connected : bool then ignore_errors (call (CompleteInitialForwards (Some reason))) else mret ());
  call (OnInitialComplete (Some reason)).

Lemma safe_notify (P : BindState → Outside → Prop) reason s w :
  P s w → safely (λ s' w' (_ : () + BindError), P s' w') (notify_failure reason) s w.
Proof.
  intros HP. unfold notify_failure. program_step. destruct r as [[|]|e]; cbn [answered]; [| |done].
  - program_step. apply safe_bind, safe_try. program_step. case_match; by repeat program_step.
  - by repeat program_step.
Qed.

Lemma safe_failInitial error s w :
  quiet s w → safely (λ s' w' (_ : () + BindError), failed_initial s w s' w') (failInitial error) s w.
Proof.
  intros Hq. unfold failInitial, failed_initial. program_step.
  destruct (decide (bs_initial s = InitialPending)) as [Hp|Hp].
  2: { rewrite bool_decide_eq_false_2 by done. done. }
  rewrite bool_decide_eq_true_2 by done. cbn [negb]. program_step.
  set (s1 := set_open _ _). apply safe_bind, safe_try. program_step; [apply table_ok_nil|].
  rename s' into s2, H into H2.
  assert (∀ s' w', steady s1 s' → w' = bind_react w (CloseAll (map snd (bs_open s))
      (map mf_containerPort (List.filter (λ e, negb (is_local (mf_spec e))) (entries s)))) r →
    emptied s' w' ∧ bs_initial s' = InitialFailed) as Hend.
  { intros s' w' Hs ->. split.
    - apply (emptied_close s w s' Hq); [by rewrite (st_managed _ _ Hs)|by rewrite (st_open _ _ Hs)].
    - by destruct (st_initial _ _ Hs) as [->|[? _]]. }
  assert (safely (λ s' w' (_ : () + BindError), emptied s' w' ∧ bs_initial s' = InitialFailed)
    (_ ← ignore_errors persist; notify_failure (error_message error)) s2 (react w (CloseAll _ _) r)) as Hrest.
  { apply safe_bind, safe_try, safe_persist; [by apply (emptied_quiet _ _ (proj1 (Hend s2 _ H2 eq_refl)))|].
    intros r' s3 H3. assert (steady s1 s3) as H13 by by etrans.
    by destruct r' as [[]|e']; [|program_step]; apply safe_notify, Hend. }
  destruct r as [[]|e]; [|program_step]; exact Hrest.
Qed.

Lemma failed_initial_quiet s w s' w' : quiet s w → failed_initial s w s' w' → quiet s' w'.
Proof.
  intros Hq. unfold failed_initial. case_decide; [by intros [He _]; apply emptied_quiet|].
  by intros [-> ->].
Qed.

Lemma safe_completeInitial s w :
  quiet s w → safely (λ s' w' (_ : () + BindError), quiet s' w') completeInitial s w.
Proof.
  intros Hq. unfold completeInitial. program_step. case_match; [done|].
  program_step. destruct r as [[|]|e]; cbn [answered]; [|done..]. program_step. cbn [negb].
  destruct (existsb _ (entries s)); [done|]. program_step.
  assert (quiet (set_initial InitialReady s) w) as Hq' by (by eapply quiet_transfer; [exact Hq|..]).
  program_step. by program_step; repeat program_step.
Qed.

Lemma safe_forward_state containerPort generation state error s w :
  quiet s w →
  safely (λ s' w' (_ : () + BindError), quiet s' w')
    (forward_state (forwardKey DirRemote containerPort) generation containerPort state error) s w.
Proof.
  intros Hq. unfold forward_state. program_step. case_match; [|done]. case_match; [done|]. program_step.
  set (s1 := set_managed _ s).
  assert (quiet s1 w) as Hq1 by (eapply quiet_transfer; [exact Hq|..]; try done; by apply skeleton_update).
  assert (∀ e, safely (λ s' w' (_ : () + BindError), quiet s' w') (failInitial e) s1 w) as Hfail.
  { intros e. eapply safe_mono; [by apply safe_failInitial|]. intros s' w' r. by apply failed_initial_quiet. }
  case_match; [case_match; [apply Hfail|]|].
  - apply safe_try, safe_bind, safe_persist; [apply Hq1|]. intros r s2 Hs2.
    assert (quiet s2 w) as Hq2 by by eapply quiet_steady.
    assert (∀ s' w' e, quiet s' w' → safely (λ s' w' (_ : () + BindError), quiet s' w') (failInitial e) s' w') as Hf.
    { intros s' w' e Hq'. eapply safe_mono; [by apply safe_failInitial|]. intros ? ? ?. by apply failed_initial_quiet. }
    destruct r as [[]|e]; [|by apply Hf]. eapply safe_mono; [by apply safe_completeInitial|].
    intros s3 w3 [[]|e] Hq3; [done|by apply Hf].
  - apply safe_persistRevocation; [apply Hq1|]. intros r s2 Hs2. by eapply quiet_steady.
Qed.

(** An initial forward of the table. *)
Definition prepared_entry (s : BindState) (p : ForwardSpec * list ForwardOwner) : Prop :=
  ∃ entry, map_get (bs_managed s) (spec_key p.1) = Some entry ∧ mf_spec entry = p.1 ∧ mf_owners entry = p.2.

(** The table has grown, the phase has not changed. *)
Record grown (s s' : BindState) : Prop := {
  gr_entries : ∀ k e, map_get (bs_managed s) k = Some e → map_get (bs_managed s') k = Some e;
  gr_initial : bs_initial s = InitialPending → bs_initial s' = InitialPending;
}.

#[export] Instance grown_preorder : PreOrder grown.
Proof. split; [by split|]. intros a b c [] []. split; auto. Qed.

Lemma steady_grown s s' : steady s s' → grown s s'.
Proof. intros Hs. split; [by rewrite (st_managed _ _ Hs)|]. intros Hi. by destruct (st_initial _ _ Hs) as [->|[? _]]; congruence. Qed.

Lemma insert_grown s s' spec entry :
  addable spec s → bs_managed s' = map_set (bs_managed s) (spec_key spec) entry → bs_initial s' = bs_initial s →
  grown s s'.
Proof.
  intros Ha Hm Hi. split; [|by rewrite Hi]. intros k e Hk. rewrite Hm, map_get_set_ne; [done|].
  intros <-. by rewrite (ad_new _ _ Ha) in Hk.
Qed.

Lemma steady_addable spec s s' : steady s s' → addable spec s → addable spec s'.
Proof.
  intros Hs []. split; unfold specs, entries in *; rewrite ?(st_managed _ _ Hs); auto.
Qed.

Lemma addable_prepare spec s :
  validPort (fs_containerPort spec) = true → validPort (fs_hostPort spec) = true →
  map_has (bs_managed s) (spec_key spec) || createsForwardCycle (specs s) spec = false →
  negb (is_local spec) && includes reserved (fs_containerPort spec) = false →
  is_local spec && existsb (λ e, is_local (mf_spec e) && (mf_hostPort e =? fs_hostPort spec)%Z) (entries s) = false →
  addable spec s.
Proof.
  intros H1 H2 [H3 H4]%orb_false_iff H5 H6. split; try done.
  - split_and!; [done|done|]. intros Hl. rewrite Hl in H5. by apply includes_false.
  - unfold map_has in H3. by destruct (map_get (bs_managed s) (spec_key spec)).
  - intros Hl. rewrite Hl in H6. by apply host_taken_spec.
Qed.

Lemma safe_prepare_one spec owners s w :
  quiet s w →
  safely (λ s' w' r, quiet s' w' ∧ grown s s' ∧ (r = inl () → prepared_entry s' (spec, owners)))
    (prepare_one reserved spec owners) s w.
Proof.
  intros Hq. unfold prepare_one. assert (grown s s) as Hg by done.
  apply safe_validate; [|by intros e; split_and!]. intros Hc Hh. case_match; [by split_and!|]. program_step.
  case_match; [by split_and!|]. case_match; [by split_and!|]. case_match; [by split_and!|].
  assert (addable spec s) as Ha by by apply addable_prepare.
  apply safe_now. intros createdAt. set (entry := new_entry spec owners createdAt).
  destruct (is_local spec) eqn:El.
  - program_step; [apply Hq|]. assert (quiet s' w) as Hq' by by eapply quiet_steady.
    destruct r as [chosen|e]; cbn [answered]; [|program_step; split_and!; [done|by apply steady_grown|done]].
    do 3 program_step. set (s2 := insert_entry _ _).
    assert (bs_managed s2 = map_set (bs_managed s') (spec_key spec) (with_state entry FwActive None)) as Hm2 by done.
    pose proof (steady_addable spec s s' ltac:(done) Ha) as Ha'. split_and!.
    + eapply (quiet_insert spec s' (bind_react w (Listen _ (fs_containerPort spec)) (inl chosen))); try done; rewrite ?El; try done.
      * eapply quiet_listen; [done|done|done|]. cbn. unfold server_port.
        destruct (Z.eqb_spec (fs_hostPort spec) 0) as [E0|_]; [|done]. by rewrite E0 in Hh.
      * rewrite Hm2, skeleton_set. by apply map_set_missing, addable_skeleton.
      * auto.
    + etrans; [by apply steady_grown|]. by eapply insert_grown.
    + intros _. eexists. rewrite Hm2. cbn [fst]. by rewrite map_get_set_eq.
  - program_step. set (s2 := insert_entry _ _).
    assert (bs_managed s2 = map_set (bs_managed s) (spec_key spec) entry) as Hm2 by done. split_and!.
    + eapply (quiet_insert spec s w); try done; rewrite ?El; try done.
      * rewrite Hm2, skeleton_set. by apply map_set_missing, addable_skeleton.
      * auto.
    + by eapply insert_grown.
    + intros _. eexists. rewrite Hm2. cbn [fst]. by rewrite map_get_set_eq.
Qed.

Lemma prepared_grown s s' p : grown s s' → prepared_entry s p → prepared_entry s' p.
Proof. intros [Hg _] (e & He & ?). exists e. auto. Qed.

Lemma safe_prepare_all requested s w :
  quiet s w →
  safely (λ s' w' r, quiet s' w' ∧ grown s s' ∧ (r = inl () → Forall (prepared_entry s') requested))
    (prepare_all reserved requested) s w.
Proof.
  revert s w. induction requested as [|[spec owners] rest IH]; intros s w Hq; cbn [prepare_all]; [by split_and!|].
  apply safe_bind. eapply safe_mono; [by apply safe_prepare_one|]. intros s1 w1 [[]|e] (Hq1 & Hg1 & Hp1).
  - eapply safe_mono; [by apply IH|]. intros s2 w2 r (Hq2 & Hg2 & Hp2). split_and!; [done|by etrans|].
    intros Hr. constructor; [|by apply Hp2]. eapply prepared_grown; [done|]. by apply Hp1.
  - by split_and!.
Qed.

(** Preparing the initial forwards is all or nothing. *)
Lemma safe_prepare requested s w :
  quiet s w →
  safely (λ s' w' r, quiet s' w' ∧ match r with
    | inl _ => Forall (prepared_entry s') requested
    | inr _ => bs_initial s = InitialPending → emptied s' w' ∧ bs_initial s' = InitialFailed
    end) (prepare reserved requested) s w.
Proof.
  intros Hq. unfold prepare.
  assert (∀ s1 w1 e, quiet s1 w1 → grown s s1 →
    safely (λ s' w' (r : () + BindError), quiet s' w' ∧ match r with
      | inl _ => Forall (prepared_entry s') requested
      | inr _ => bs_initial s = InitialPending → emptied s' w' ∧ bs_initial s' = InitialFailed
      end) (_ ← failInitial e; Throw e) s1 w1) as Hfail.
  { intros s1 w1 e Hq1 [_ Hi]. apply safe_bind. eapply safe_mono; [by apply safe_failInitial|].
    intros s2 w2 r Hf. pose proof (failed_initial_quiet _ _ _ _ Hq1 Hf) as Hq2.
    assert (bs_initial s = InitialPending → emptied s2 w2 ∧ bs_initial s2 = InitialFailed) as He.
    { intros Hp. unfold failed_initial in Hf. by rewrite decide_True in Hf by auto. }
    by destruct r as [[]|]. }
  apply safe_try, safe_bind. eapply safe_mono; [by apply safe_prepare_all|].
  intros s1 w1 [[]|e] (Hq1 & Hg1 & Hp1); [|by apply Hfail]. specialize (Hp1 eq_refl).
  apply safe_bind, safe_persist; [apply Hq1|]. intros r s2 H2.
  assert (quiet s2 w1) as Hq2 by by eapply quiet_steady.
  destruct r as [[]|e]; [|by apply Hfail; [|etrans; [|apply steady_grown]]].
  assert (Forall (prepared_entry s2) requested) as Hp2.
  { eapply Forall_impl; [exact Hp1|]. intros p. by apply prepared_grown, steady_grown. }
  case_match; [|by split]. program_step. split; [by eapply quiet_transfer; [exact Hq2|..]|].
  eapply Forall_impl; [exact Hp2|]. intros p (e & ?). by exists e.
Qed.

(** *** `close` *)

Lemma safe_close_all servers : ∀ s w,
  quiet s w →
  safely (λ s' w' r, quiet s' w' ∧ steady s s' ∧
      (r = inl () → ∀ L, out_listening w ⊆+ servers ++ L → out_listening w' ⊆+ L))
    (close_all servers) s w.
Proof.
  induction servers as [|hostPort rest IH]; intros s w Hq; cbn [close_all]; [by split_and!|].
  program_step; [apply Hq|].
  assert (quiet s' (shut (unlisten w hostPort))) as Hq'.
  { eapply quiet_steady; [|done]. destruct Hq as [H1 H2 H3 H4 H5]. split; try done. cbn.
    etrans; [|exact H3]. destruct (decide (hostPort ∈ out_listening w)) as [Hin|Hn].
    - rewrite (remove_one_perm hostPort (out_listening w)) at 2 by by apply list_elem_of_In.
      by apply submseteq_cons.
    - by rewrite remove_one_notin by by rewrite <- list_elem_of_In. }
  destruct r as [[]|e]; cbn [answered].
  - program_step. eapply safe_mono; [by apply IH|]. intros s2 w2 r (Hq2 & Hs2 & Hl2).
    split_and!; [done|by etrans|]. intros Hr L HL. apply Hl2; [done|]. cbn. by apply remove_one_submseteq.
  - program_step. by split_and!.
Qed.

Lemma safe_close_broker s w :
  quiet s w →
  safely (λ s' w' r, quiet s' w' ∧ (r = inl () → emptied s' w' ∧ out_granted w' = [])) close_broker s w.
Proof.
  intros Hq. unfold close_broker. program_step. apply safe_bind.
  eapply safe_mono; [by apply safe_close_all|]. intros s1 w1 [[]|e] (Hq1 & Hs1 & Hl1); [|by split].
  assert (out_listening w1 = []) as Hempty.
  { apply submseteq_nil_r, (Hl1 eq_refl). rewrite app_nil_r. apply (qt_listening _ _ _ Hq). }
  program_step. set (s2 := clear_generations _).
  assert (∀ s' w', steady s2 s' → out_listening w' = [] → out_shut w' = true → emptied s' w') as Hend.
  { intros s' w' Hs Hl Hsh. split; [by rewrite (st_managed _ _ Hs)|by rewrite (st_open _ _ Hs)|done|by rewrite Hsh]. }
  program_step; [apply table_ok_nil|].
  assert (emptied s' (shut w1)) as He' by by apply Hend. destruct r as [[]|e]; cbn [answered].
  - program_step. program_step; [unfold table_safe; rewrite (em_managed _ _ He'); apply table_ok_nil|].
    assert (emptied s'0 (bind_react (shut w1) CloseGateway r)) as He2 by (apply Hend; [by etrans|done..]).
    split; [by apply emptied_quiet|]. by intros ->.
  - program_step. split; [by apply emptied_quiet|done].
Qed.

(** ** Every history of the broker *)

Lemma job_safe_quiet {A} (m : method A) (f : A → Answer) :
  (∀ s w, quiet s w → safely (λ s' w' (_ : A + BindError), quiet s' w') m s w) →
  job_safe steady table_safe quiet (f <$> m).
Proof. intros Hm s w Hq. apply safe_fmap. by apply Hm. Qed.

Lemma job_safe_done (m : method ()) :
  (∀ s w, quiet s w → safely (λ s' w' (_ : () + BindError), quiet s' w') m s w) →
  job_safe steady table_safe quiet (_ ← m; mret Done).
Proof.
  intros Hm s w Hq. apply safe_bind. eapply safe_mono; [by apply Hm|]. by intros s' w' [[]|e].
Qed.

Lemma begin_steady s c : steady s (begin reserved s c).1.
Proof.
  destruct c as [| | | |requested| |p state error|]; cbn; try done; [|by destruct (negb _)|by repeat case_match|by split; try left].
  destruct (negb (bool_decide (bs_initial s = InitialIdle))) eqn:Ei; cbn; [done|].
  destruct (length (bs_managed s) =? 0)%nat; cbn; [|done].
  apply negb_false_iff, bool_decide_eq_true in Ei. by split; try (right; split).
Qed.

Definition job_ok (job : option (method Answer + BindError)) : Prop :=
  match job with Some (inl p) => job_safe steady table_safe quiet p | _ => True end.

Lemma mutate_ok s m : job_safe steady table_safe quiet m → job_ok (mutate s m).
Proof. unfold mutate. by destruct (bs_closing s). Qed.

Lemma mutateUser_ok s m : job_safe steady table_safe quiet m → job_ok (mutateUser s m).
Proof. unfold mutateUser. intros Hm. destruct (_ || _); [done|by apply mutate_ok]. Qed.

Lemma begin_ok s c : job_ok (begin reserved s c).2.
Proof.
  destruct c as [spec owner|direction p|p h|selector|requested| |p state error|]; cbn [begin snd].
  - apply mutateUser_ok, job_safe_quiet. intros s0 w0 Hq.
    eapply safe_mono; [by apply (safe_add _ _ None)|]. intros s' w' r Hp. by eapply add_post_quiet; [|exact Hp].
  - apply mutateUser_ok, job_safe_quiet. intros s0 w0 Hq. eapply safe_mono; [by apply safe_remove|].
    by intros s' w' r [].
  - apply mutateUser_ok, job_safe_quiet. intros s0 w0 Hq. by apply safe_addLocal.
  - apply mutateUser_ok, job_safe_quiet. intros s0 w0 Hq. by apply safe_removeSelected.
  - destruct (_ || _); [done|]. apply mutate_ok, job_safe_done. intros s0 w0 Hq.
    eapply safe_mono; [by apply safe_prepare|]. by intros s' w' r [].
  - destruct (negb _); [done|]. apply mutate_ok, job_safe_done. intros s0 w0 Hq. by apply safe_completeInitial.
  - destruct (map_get _ _) as [generation|]; [|done]. destruct (bs_closing s); [done|].
    apply mutate_ok, job_safe_done. intros s0 w0 Hq. by apply safe_forward_state.
  - apply job_safe_done. intros s0 w0 Hq. eapply safe_mono; [by apply safe_close_broker|]. by intros s' w' r [].
Qed.

Abbreviation bind_inv := (machine_inv steady table_safe quiet).

Lemma bind_inv_run events : bind_inv (bind_run reserved events).
Proof.
  unfold bind_run. assert (bind_inv (idle_machine Answer new_bind_state new_outside)) as H0.
  { apply machine_inv_idle; [apply quiet_safe|]. apply emptied_quiet. by split. }
  revert H0. generalize (idle_machine Answer new_bind_state new_outside).
  induction events as [|event events IH]; intros m Hm; cbn [fold_left]; [done|]. apply IH.
  destruct event as [c|answers]; cbn [bind_step].
  - pose proof (begin_steady (m_state m) c) as Hs. pose proof (begin_ok (m_state m) c) as Hj.
    destruct (begin reserved (m_state m) c) as [s job]. apply machine_inv_submit; try done;
      [intros ???; apply transitivity|intros ?; by eapply steady_safe|intros ?; by eapply quiet_steady].
  - apply machine_inv_turn; try done. apply quiet_safe.
Qed.
End Laws.
