(* ===== verification/PortControl.v ===== *)
(** * Control requests of the port broker (network/port_bind_broker.ts)

    A request is one line of JSON on the control socket: it is parsed by its exact
    set of keys, dispatched to the operations of [PortBind], and answered by the
    outcome or by the kind of the error. *)
From S2P Require Import Prelude JsString Json AuthzTypes Semantics Protocol Broker BrokerKeys.
From S2P Require Import PortForward Effects PortBind PortBindLaws.
From stdpp Require Import sorting.

Inductive ControlRequest : Type :=
  | RequestBind (containerPort : Z) (hostPort : option Z)
  | RequestUnbindContainer (containerPort : Z)
  | RequestUnbindHost (hostPort : Z)
  | RequestCandidates
  | RequestForward (containerPort hostPort : Z)
  | RequestUnforward (containerPort : Z)
  | RequestAddLocal (containerPort : Z) (hostPort : option Z)
  | RequestAddRemote (containerPort hostPort : Z)
  | RequestRemoveLocalHost (hostPort : Z)
  | RequestRemove (direction : ForwardDirection) (containerPort : Z).

Section Parse.
Context (request : list (string * JsonValue)).

Definition hasKeys (expected : list string) : bool :=
  bool_decide (sort_strings (map_keys request) = expected).

(** `validPort(request[name])` *)
Definition port_member (name : string) : option Z :=
  z ← member request name ≫= safe_integer; if validPort z then Some z else None.

Definition has_port (name : string) : bool :=
  match port_member name with Some _ => true | None => false end.

Definition port_of (name : string) : Z := default 0%Z (member request name ≫= safe_integer).

(** `request.hostPort`, with `null` as [None]. *)
Definition nullable_port (name : string) : option Z := member request name ≫= safe_integer.

Definition type_is (type : string) : bool := is_text (member request "type") type.
Definition direction_is (d : ForwardDirection) : bool :=
  is_text (member request "direction") (ForwardDirection_string d).

Definition parse_members : option ControlRequest :=
  if type_is "bind" && hasKeys ["containerPort"; "hostPort"; "type"] && has_port "containerPort" &&
     (is_null_value (member request "hostPort") || is_number (member request "hostPort") 0 ||
      has_port "hostPort")
  then Some (RequestBind (port_of "containerPort") (nullable_port "hostPort"))
  else if type_is "unbind" && hasKeys ["containerPort"; "type"] && has_port "containerPort"
  then Some (RequestUnbindContainer (port_of "containerPort"))
  else if type_is "unbind" && hasKeys ["hostPort"; "type"] && has_port "hostPort"
  then Some (RequestUnbindHost (port_of "hostPort"))
  else if type_is "candidates" && hasKeys ["type"] then Some RequestCandidates
  else if type_is "forward" && hasKeys ["containerPort"; "hostPort"; "type"] &&
          has_port "containerPort" && has_port "hostPort"
  then Some (RequestForward (port_of "containerPort") (port_of "hostPort"))
  else if type_is "unforward" && hasKeys ["containerPort"; "type"] && has_port "containerPort"
  then Some (RequestUnforward (port_of "containerPort"))
  else if type_is "add-forward" && direction_is DirLocal &&
          hasKeys ["containerPort"; "direction"; "hostPort"; "type"] && has_port "containerPort" &&
          (is_null_value (member request "hostPort") || has_port "hostPort")
  then Some (RequestAddLocal (port_of "containerPort") (nullable_port "hostPort"))
  else if type_is "add-forward" && direction_is DirRemote &&
          hasKeys ["containerPort"; "direction"; "hostPort"; "type"] && has_port "containerPort" &&
          has_port "hostPort"
  then Some (RequestAddRemote (port_of "containerPort") (port_of "hostPort"))
  else if type_is "remove-forward" && direction_is DirLocal &&
          hasKeys ["direction"; "hostPort"; "type"] && has_port "hostPort"
  then Some (RequestRemoveLocalHost (port_of "hostPort"))
  else if type_is "remove-forward" && direction_is DirLocal &&
          hasKeys ["containerPort"; "direction"; "type"] && has_port "containerPort"
  then Some (RequestRemove DirLocal (port_of "containerPort"))
  else if type_is "remove-forward" && direction_is DirRemote &&
          hasKeys ["containerPort"; "direction"; "type"] && has_port "containerPort"
  then Some (RequestRemove DirRemote (port_of "containerPort"))
  else None.
End Parse.

(** [line] is what `JSON.parse` gives, [None] when it throws. *)
Definition parseControlRequest (line : option JsonValue) : ControlRequest + BindError :=
  match line with
  | None => inr (ControlError InvalidRequest "request must be valid JSON")
  | Some (JObject request) =>
      match parse_members request with
      | Some r => inl r
      | None => inr (ControlError InvalidRequest "request shape is invalid")
      end
  | Some _ => inr (ControlError InvalidRequest "request must be an object")
  end.

(** ** Dispatch *)

Definition dynamic_spec (direction : ForwardDirection) (containerPort hostPort : Z) : ForwardSpec :=
  {| fs_direction := direction; fs_hostPort := hostPort; fs_containerPort := containerPort |}.

(** The operation of a request; `candidates` changes nothing of the broker. *)
Definition request_call (request : ControlRequest) : option Call :=
  match request with
  | RequestBind c h | RequestAddLocal c h => Some (AddLocal c h)
  | RequestUnbindContainer c => Some (RemoveSelected (SelectContainer DirLocal c))
  | RequestUnbindHost h | RequestRemoveLocalHost h => Some (RemoveSelected (SelectLocalHost h))
  | RequestCandidates => None
  | RequestForward c h | RequestAddRemote c h => Some (AddPortForward (dynamic_spec DirRemote c h) OwnDynamic)
  | RequestUnforward c => Some (RemovePortForward DirRemote c)
  | RequestRemove d c => Some (RemoveSelected (SelectContainer d c))
  end.

(** *** `candidates` *)

Inductive ListenerScope : Type := ScopeAny | ScopeLoopback | ScopeLoopback6 | ScopeRemote.

Definition isReachableScope (scope : ListenerScope) : bool :=
  match scope with ScopeAny | ScopeLoopback => true | _ => false end.

Inductive ListenerWatchState : Type := Watching | WatchNotRunning | WatchUnreachable.

(** [None] is `"ready"`. *)
Definition watchState (ensured : option NotReadyReason) : ListenerWatchState :=
  match ensured with
  | None => Watching
  | Some ContainerNotRunning => WatchNotRunning
  | Some _ => WatchUnreachable
  end.

Definition ObservedListener : Type := Z * ListenerScope.

(** A container port with its scope and whether it is reachable. *)
Definition PortBindCandidate : Type := Z * ListenerScope * bool.

Definition candidates (reserved : list Z) (s : BindState) (listeners : list ObservedListener) :
    list PortBindCandidate :=
  map (λ '(p, scope), (p, scope, isReachableScope scope))
    (List.filter (λ '(p, _),
       negb (map_has (bs_open s) p) && negb (includes reserved p) &&
       negb (existsb (λ e, negb (is_local (mf_spec e)) && (mf_containerPort e =? p)%Z &&
                           (bool_decide (mf_state e = FwActive) || bool_decide (mf_state e = FwPending) ||
                            includes (mf_owners e) OwnInternal)) (entries s)))
       listeners).

(** *** Answers *)

Inductive ControlResponse : Type :=
  | ResponseBind (hostPort : Z) (probe : ProbeResult)
  | ResponseCandidates (candidates : list PortBindCandidate) (watch : ListenerWatchState)
  | ResponseForward (containerPort hostPort : Z) (answers : bool)
  | ResponseAdded (result : AddForwardResult)
  | ResponseRemoved (result : RemoveForwardResult)
  | ResponseOk
  | ResponseError (kind : ControlErrorKind) (message : string).

Definition probe_ok (probe : ProbeResult) : bool := match probe with ProbeOk => true | _ => false end.

(** `bind`, `forward` and the others make their answer of what the operation
    answers; [None] when it answers something else. *)
Definition request_response (request : ControlRequest) (answer : Answer) : option ControlResponse :=
  match request, answer with
  | RequestBind _ _, Added (entry, probe) => Some (ResponseBind (mf_hostPort entry) probe)
  | RequestForward _ _, Added (entry, probe) =>
      Some (ResponseForward (mf_containerPort entry) (mf_hostPort entry) (probe_ok probe))
  | (RequestAddLocal _ _ | RequestAddRemote _ _), Added result => Some (ResponseAdded result)
  | (RequestRemoveLocalHost _ | RequestRemove _ _), Removed result => Some (ResponseRemoved result)
  | (RequestUnbindContainer _ | RequestUnbindHost _ | RequestUnforward _), Removed _ => Some ResponseOk
  | _, _ => None
  end.

Definition error_response (error : BindError) : ControlResponse :=
  ResponseError match error with ControlError kind _ => kind | _ => InternalError end (error_message error).

(** `sessionPortForwards`: older registries have no `portForwards`. *)
Definition registry_entry (direction : ForwardDirection) (b : PortBinding) : ManagedForward := {|
  mf_spec := dynamic_spec direction (pb_containerPort b) (pb_hostPort b);
  mf_owners := [OwnDynamic]; mf_createdAt := pb_createdAt b; mf_state := FwActive; mf_error := None |}.

Definition sessionPortForwards (portForwards : option (list ManagedForward))
    (bindings : list PortBinding) (forwards : option (list PortBinding)) : list ManagedForward :=
  match portForwards with
  | Some l => map copyManagedForward l
  | None => map copyManagedForward
              (map (registry_entry DirLocal) bindings ++ map (registry_entry DirRemote) (default [] forwards))
  end.

Definition sessionForwards portForwards bindings forwards : list PortBinding :=
  (projectPortForwards (sessionPortForwards portForwards bindings forwards)).2.

(** ** What is accepted *)

Definition json_text (s : string) : JsonValue := JScalar (ScString s).
Definition json_port (z : Z) : JsonValue := JScalar (ScNumber (of_Z z)).
Definition json_nullable (z : option Z) : JsonValue := match z with Some z => json_port z | None => JNull end.

(** The object a client writes. *)
Definition request_members (r : ControlRequest) : list (string * JsonValue) :=
  match r with
  | RequestBind c h => [("type", json_text "bind"); ("containerPort", json_port c); ("hostPort", json_nullable h)]
  | RequestUnbindContainer c => [("type", json_text "unbind"); ("containerPort", json_port c)]
  | RequestUnbindHost h => [("type", json_text "unbind"); ("hostPort", json_port h)]
  | RequestCandidates => [("type", json_text "candidates")]
  | RequestForward c h =>
      [("type", json_text "forward"); ("containerPort", json_port c); ("hostPort", json_port h)]
  | RequestUnforward c => [("type", json_text "unforward"); ("containerPort", json_port c)]
  | RequestAddLocal c h =>
      [("type", json_text "add-forward"); ("direction", json_text "local");
       ("containerPort", json_port c); ("hostPort", json_nullable h)]
  | RequestAddRemote c h =>
      [("type", json_text "add-forward"); ("direction", json_text "remote");
       ("containerPort", json_port c); ("hostPort", json_port h)]
  | RequestRemoveLocalHost h =>
      [("type", json_text "remove-forward"); ("direction", json_text "local"); ("hostPort", json_port h)]
  | RequestRemove d c =>
      [("type", json_text "remove-forward"); ("direction", json_text (ForwardDirection_string d));
       ("containerPort", json_port c)]
  end.

Definition valid_request (r : ControlRequest) : bool :=
  match r with
  | RequestBind c h => validPort c && match h with Some h => (h =? 0)%Z || validPort h | None => true end
  | RequestAddLocal c h => validPort c && match h with Some h => validPort h | None => true end
  | RequestForward c h | RequestAddRemote c h => validPort c && validPort h
  | RequestUnbindHost p | RequestRemoveLocalHost p | RequestUnbindContainer p | RequestUnforward p
  | RequestRemove _ p => validPort p
  | RequestCandidates => true
  end.

(** *** The order of the keys does not matter *)

Lemma string_leb_total a : ∀ b, string_leb a b = false → string_leb b a = true.
Proof.
  induction a as [|x a IH]; intros [|y b]; cbn; try done.
  rewrite !orb_false_iff, !andb_false_iff, orb_true_iff, andb_true_iff.
  intros [Hlt [Heq|Hab]].
  - left. apply Nat.ltb_ge in Hlt. apply Nat.eqb_neq in Heq. apply Nat.ltb_lt. lia.
  - destruct (Nat.eq_dec (code y) (code x)) as [E|E].
    + right. rewrite E, Nat.eqb_refl. auto.
    + left. apply Nat.ltb_ge in Hlt. apply Nat.ltb_lt. lia.
Qed.

Lemma code_inj a b : code a = code b → a = b.
Proof. intros H. rewrite <- (ascii_nat_embedding a), <- (ascii_nat_embedding b). unfold code in H. by rewrite H. Qed.

#[export] Instance string_leb_antisymm : AntiSymm (=) string_leb.
Proof.
  intros a. induction a as [|x a IH]; intros [|y b]; cbn; try done.
  intros [H1|[H1 H2]%andb_prop_elim]%orb_prop_elim [H3|[H3 H4]%andb_prop_elim]%orb_prop_elim.
  all: try apply Is_true_true in H1; try apply Is_true_true in H3.
  all: try apply Nat.ltb_lt in H1; try apply Nat.ltb_lt in H3; try apply Nat.eqb_eq in H1; try apply Nat.eqb_eq in H3; try lia.
  apply code_inj in H1. f_equal; [done|by apply IH].
Qed.

#[export] Instance string_leb_trans : Transitive string_leb.
Proof.
  intros a. induction a as [|x a IH]; intros [|y b] [|z c]; cbn; try done.
  intros [H1|[H1 H2]%andb_prop_elim]%orb_prop_elim [H3|[H3 H4]%andb_prop_elim]%orb_prop_elim.
  all: try apply Is_true_true in H1; try apply Is_true_true in H3.
  all: try apply Nat.ltb_lt in H1; try apply Nat.ltb_lt in H3; try apply Nat.eqb_eq in H1; try apply Nat.eqb_eq in H3.
  1-3: apply orb_prop_intro; left; apply Is_true_true, Nat.ltb_lt; lia.
  apply orb_prop_intro; right. apply andb_prop_intro. split; [apply Is_true_true, Nat.eqb_eq; lia|by eapply IH].
Qed.

Lemma insert_string_sorted s l : Sorted string_leb l → Sorted string_leb (insert_string s l).
Proof.
  induction l as [|t l IH]; cbn; [by repeat constructor|]. intros Hs.
  destruct (string_leb s t) eqn:E.
  - constructor; [done|]. constructor. by rewrite E.
  - apply Sorted_inv in Hs as [Hs Hh]. constructor; [by apply IH|].
    assert (string_leb t s) as Hts by by rewrite string_leb_total.
    destruct l as [|u l]; cbn; [by constructor|]. apply HdRel_inv in Hh. destruct (string_leb s u); by constructor.
Qed.

Lemma sort_strings_sorted l : Sorted string_leb (sort_strings l).
Proof. induction l as [|s l IH]; cbn; [constructor|by apply insert_string_sorted]. Qed.

#[export] Instance sort_strings_proper : Proper ((≡ₚ) ==> (=)) sort_strings.
Proof.
  intros l l' H. apply (Sorted_unique string_leb); try apply sort_strings_sorted.
  by rewrite !sort_strings_perm.
Qed.

Lemma parse_members_perm m m' :
  List.NoDup (map_keys m) → m ≡ₚ m' → parse_members m = parse_members m'.
Proof.
  intros Hnd Hp. assert (∀ name, member m name = member m' name) as Hm by (intros; by apply map_get_perm).
  assert (∀ l, hasKeys m l = hasKeys m' l) as Hk.
  { intros l. unfold hasKeys. f_equal. by rewrite (sort_strings_proper (map_keys m) (map_keys m'))
      by (by apply Permutation.Permutation_map). }
  unfold parse_members, has_port, port_member, port_of, nullable_port, type_is, direction_is.
  by rewrite !Hm, !Hk.
Qed.

Lemma safe_integer_port z : validPort z = true ∨ z = 0%Z → safe_integer (json_port z) = Some z.
Proof.
  intros Hz. unfold json_port, safe_integer. rewrite number_to_Z_of_Z. cbn.
  rewrite (proj2 (Z.leb_le _ _)); [done|]. unfold validPort, MAX_PORT, MAX_SAFE_INTEGER in *.
  destruct Hz as [[H1 H2]%andb_true_iff| ->]; lia.
Qed.

Lemma request_keys_NoDup r : List.NoDup (map_keys (request_members r)).
Proof. apply NoDup_ListNoDup. destruct r; vm_compute; repeat constructor; set_solver. Qed.

Lemma has_port_of m name z :
  member m name = Some (json_port z) → validPort z = true → has_port m name = true ∧ port_of m name = z.
Proof.
  intros Hm Hz. unfold has_port, port_of, port_member. rewrite Hm. cbn [mbind option_bind].
  rewrite safe_integer_port by auto. cbn [mbind option_bind default]. by rewrite Hz.
Qed.

Lemma nullable_port_of m name h :
  member m name = Some (json_nullable h) → (∀ z, h = Some z → validPort z = true ∨ z = 0%Z) →
  nullable_port m name = h.
Proof.
  intros Hm Hz. unfold nullable_port. rewrite Hm. cbn [mbind option_bind].
  destruct h as [z|]; [|done]. by apply safe_integer_port, Hz.
Qed.

Lemma nullable_ok m name h :
  member m name = Some (json_nullable h) → (∀ z, h = Some z → validPort z = true) →
  is_null_value (member m name) || has_port m name = true.
Proof.
  intros Hm Hz. destruct h as [z|]; [|by rewrite Hm].
  by rewrite (proj1 (has_port_of m name z Hm (Hz z eq_refl))), orb_true_r.
Qed.

Lemma parse_request_members r : valid_request r = true → parse_members (request_members r) = Some r.
Proof.
  intros Hv. unfold parse_members.
  destruct r as [c h|c|h| |c h|c|c h|c h|h|d c]; cbn [request_members valid_request] in *;
    try destruct d; try (lazymatch type of Hv with _ && _ = true => apply andb_true_iff in Hv as [Hv Hh] end).
  all: repeat match goal with
    | |- context [type_is ?m ?t] => let b := eval vm_compute in (type_is m t) in change (type_is m t) with b
    | |- context [direction_is ?m ?d] =>
        let b := eval vm_compute in (direction_is m d) in change (direction_is m d) with b
    | |- context [hasKeys ?m ?l] => let b := eval vm_compute in (hasKeys m l) in change (hasKeys m l) with b
    end; cbn [andb].
  all: repeat match goal with
    | Hp : validPort ?z = true |- context [has_port ?m ?name] =>
        let H1 := fresh in let H2 := fresh in
        destruct (has_port_of m name z eq_refl Hp) as [H1 H2]; rewrite H1, H2; clear H1 H2
    end; cbn [andb]; try done.
  - assert (∀ z, h = Some z → validPort z = true ∨ z = 0%Z) as Hz.
    { intros z ->. apply orb_true_iff in Hh as [Hh|Hh]; [right; lia|by left]. }
    erewrite (nullable_port_of _ "hostPort" h) by done.
    destruct h as [z|]; [|done]. destruct (Hz z eq_refl) as [Hp|Hp].
    + match goal with |- context [has_port ?m "hostPort"] =>
        rewrite (proj1 (has_port_of m "hostPort" z eq_refl Hp)) end. by rewrite orb_true_r.
    + subst. reflexivity.
  - assert (∀ z, h = Some z → validPort z = true) as Hz by (by intros z ->).
    erewrite (nullable_port_of _ "hostPort" h) by (try done; intros z Hs; left; by apply Hz).
    by erewrite (nullable_ok _ "hostPort" h) by done.
Qed.
