(* ===== verification/PortBindProps.v ===== *)
(** * What the port broker guarantees

    The theorems hold in every history of [bind_run]: for any calls in any order,
    begun at any time, and any answers of the sockets, the relay and the registry. *)
From S2P Require Import Prelude JsString Json AuthzTypes Semantics Protocol Broker BrokerKeys.
From S2P Require Import PortForward Effects PortBind PortBindLaws PortControl.

Section Histories.
Context (reserved : list Z) (events : list BindEvent).
Abbreviation history := (bind_run reserved events).

Lemma history_quiet : m_current history = None → quiet reserved (m_state history) (m_world history).
Proof. eapply inv_idle, bind_inv_run. Qed.
End Histories.

(** C37.  At every moment the table of forwards is in order: each entry is filed under
    its direction and container port, all ports lie between 1 and 65535, no two
    forwards listen on the same port, no forward listens on a port reserved by nas in
    the container, and no chain of forwards leads back to where it starts. *)
Theorem forwards_in_order reserved events :
  let T := skeleton (bs_managed (m_state (bind_run reserved events))) in
  List.NoDup (map_keys T) ∧
  (∀ k spec, In (k, spec) T → k = spec_key spec ∧ spec_ok reserved spec) ∧
  List.NoDup (sources (map snd T)) ∧ acyclic (map snd T).
Proof. by destruct (inv_always _ _ _ _ (bind_inv_run reserved events)). Qed.

(** C36.  Whenever no operation is under way, the bindings held open are exactly the
    local forwards of the table, no server listens that is not the server of a
    binding, and, unless the broker was closed, every binding has its server and the
    gateway forwards only container ports of the table: nothing leaks, whatever
    failed before. *)
Theorem listeners_exact reserved events (Hidle : m_current (bind_run reserved events) = None) :
  let s := m_state (bind_run reserved events) in
  let w := m_world (bind_run reserved events) in
  bs_open s ≡ₚ local_ports (skeleton (bs_managed s)) ∧
  out_listening w ⊆+ map snd (bs_open s) ∧
  (out_shut w = false →
     out_listening w ≡ₚ map snd (bs_open s) ∧
     ∀ c, In c (out_granted w) → map_has (bs_managed s) (forwardKey DirRemote c) = true).
Proof.
  cbn zeta. destruct (history_quiet reserved events Hidle) as [_ H2 H3 H4 H5]. split_and!; [done|done|].
  intros Hs. split; [|by apply H5]. apply anti_symm with submseteq; [apply _|done|by apply H4].
Qed.

(** C35.  Adding a forward is all or nothing: when it answers, the table holds the
    forward on behalf of the owner, and when it fails, at whatever step, the table,
    the bindings and the listening servers are those there were before. *)
Theorem add_all_or_nothing reserved events spec owner s' w' r
    (Hidle : m_current (bind_run reserved events) = None)
    (Hrun : evaluates (meanwhile steady) (add reserved spec owner None)
              (m_state (bind_run reserved events)) (m_world (bind_run reserved events)) s' w' r) :
  let s := m_state (bind_run reserved events) in
  let w := m_world (bind_run reserved events) in
  match r with
  | inl (entry, _) =>
      map_get (bs_managed s') (spec_key spec) = Some entry ∧ mf_spec entry = spec ∧
      In owner (mf_owners entry) ∧
      (is_local spec = true → map_get (bs_open s') (fs_containerPort spec) = Some (fs_hostPort spec)) ∧
      ∀ k, k ≠ spec_key spec → map_get (bs_managed s') k = map_get (bs_managed s) k
  | inr _ =>
      bs_managed s' = bs_managed s ∧ bs_open s' = bs_open s ∧ out_listening w' ≡ₚ out_listening w ∧
      ∀ c, In c (out_granted w') → In c (out_granted w)
  end.
Proof.
  cbn zeta. pose proof (history_quiet reserved events Hidle) as Hq.
  pose proof (safe_evaluates _ _ _ _ _ _ _ _ _ (safe_add reserved spec owner None _ _ Hq ltac:(done)) Hrun) as Hp.
  destruct r as [[entry probe]|e]; cbn in Hp.
  - destruct Hp as [H1 H2 H3 H4 H5]. split_and!; auto. intros Hl. subst.
    eapply open_get; [apply H1|apply H1|rewrite skeleton_get, H2; done|done].
  - by destruct Hp.
Qed.

(** C38.  Removing a forward revokes it even when closing its listener or writing the
    registry fails: a forward owned by nas itself keeps only that owner, any other is
    gone with its binding or its permission, and no other forward changes. *)
Theorem remove_revokes reserved events direction containerPort s' w' r
    (Hidle : m_current (bind_run reserved events) = None)
    (Hrun : evaluates (meanwhile steady) (remove direction containerPort)
              (m_state (bind_run reserved events)) (m_world (bind_run reserved events)) s' w' r) :
  let s := m_state (bind_run reserved events) in
  let id := forwardKey direction containerPort in
  map_get (bs_managed s') id = (entry ← map_get (bs_managed s) id; removeUserOwners entry) ∧
  (∀ k, k ≠ id → map_get (bs_managed s') k = map_get (bs_managed s) k) ∧
  (map_get (bs_managed s') id = None →
     match direction with
     | DirLocal => map_get (bs_open s') containerPort = None
     | DirRemote => out_shut w' = false → ¬ In containerPort (out_granted w')
     end).
Proof.
  cbn zeta. pose proof (history_quiet reserved events Hidle) as Hq.
  destruct (safe_evaluates _ _ _ _ _ _ _ _ _ (safe_remove reserved direction containerPort _ _ Hq) Hrun)
    as [H1 H2 H3]. split_and!; [done|done|]. intros Hn. destruct direction.
  - destruct (map_get (bs_open s') containerPort) as [h|] eqn:E; [|done].
    apply (open_lookup (qt_table _ _ _ _ H1) (qt_open _ _ _ _ H1)) in E as (f & Hf & _).
    by rewrite skeleton_get, Hn in Hf.
  - intros Hs Hin. apply (qt_granted _ _ _ _ H1 Hs) in Hin. unfold map_has in Hin. by rewrite Hn in Hin.
Qed.

(** The forwards of the configuration are opened together or not at all: when
    preparing them answers, all of them are in the table with their owners; when it
    fails, nothing is left open and the initial phase has failed. *)
Theorem prepare_all_or_nothing reserved events requested s' w' r
    (Hidle : m_current (bind_run reserved events) = None)
    (Hpending : bs_initial (m_state (bind_run reserved events)) = InitialPending)
    (Hrun : evaluates (meanwhile steady) (prepare reserved requested)
              (m_state (bind_run reserved events)) (m_world (bind_run reserved events)) s' w' r) :
  match r with
  | inl _ =>
      ∀ spec owners, In (spec, owners) requested →
      ∃ entry, map_get (bs_managed s') (spec_key spec) = Some entry ∧ mf_spec entry = spec ∧
               mf_owners entry = owners
  | inr _ =>
      bs_managed s' = [] ∧ bs_open s' = [] ∧ out_listening w' = [] ∧ bs_initial s' = InitialFailed
  end.
Proof.
  pose proof (history_quiet reserved events Hidle) as Hq.
  destruct (safe_evaluates _ _ _ _ _ _ _ _ _ (safe_prepare reserved requested _ _ Hq) Hrun) as [_ Hp].
  destruct r as [[]|e].
  - intros spec owners Hin. rewrite List.Forall_forall in Hp. apply (Hp (spec, owners) Hin).
  - by destruct (Hp Hpending) as [[] ?].
Qed.

(** The automatic search for a host port tries at most 65 ports, all different,
    all between 1 and 65535, the container's port first and no other privileged
    one. *)
Theorem hostPortCandidates_bounds containerPort (Hport : validPort containerPort = true) :
  let ports := hostPortCandidates containerPort None in
  (length ports ≤ MAX_CANDIDATES)%nat ∧ List.NoDup ports ∧ hd_error ports = Some containerPort ∧
  ∀ p, In p ports → validPort p = true ∧ (p = containerPort ∨ (1024 ≤ p)%Z).
Proof.
  apply andb_true_iff in Hport as [H1%Z.leb_le H2%Z.leb_le]. unfold MAX_PORT in H2.
  assert (∀ n lo, (length (candidates_from n lo) ≤ n)%nat ∧ List.NoDup (candidates_from n lo) ∧
    ∀ p, In p (candidates_from n lo) → (lo ≤ p ≤ MAX_PORT)%Z) as H.
  { induction n as [|n IH]; intros lo; cbn; [split_and!; [lia|constructor|done]|].
    destruct (Z.leb_spec lo MAX_PORT) as [Hle|_]; [|split_and!; [cbn; lia|constructor|done]].
    destruct (IH (lo + 1)%Z) as (Hl & Hn & Hr). split_and!; [cbn; lia| |].
    - constructor; [|done]. intros Hin%Hr. lia.
    - intros p [<-|Hin%Hr]; lia. }
  destruct (H (MAX_CANDIDATES - 1)%nat (Z.max (containerPort + 1) 1024)) as (Hl & Hn & Hr).
  unfold hostPortCandidates. split_and!; [unfold MAX_CANDIDATES in *; cbn [length] in *; lia| |done|].
  - constructor; [|done]. intros Hin%Hr. lia.
  - unfold validPort, MAX_PORT in *. intros p [<-|Hin%Hr]; split; try (by left); try (right; lia); lia.
Qed.

(** A control request is read as it was written: the JSON object of a request
    with valid ports, with its keys in any order, is parsed to that request. *)
Theorem parseControlRequest_print r members
    (Hvalid : valid_request r = true) (Horder : members ≡ₚ request_members r) :
  parseControlRequest (Some (JObject members)) = inl r.
Proof.
  cbn. rewrite (parse_members_perm members (request_members r)), parse_request_members; [done|done| |done].
  eapply Permutation_NoDup; [|apply (request_keys_NoDup r)]. symmetry. by apply Permutation.Permutation_map.
Qed.

(** ** Samples *)

Definition fine_reply (io : BindIO) : bind_reply io :=
  match io with
  | Listen hostPort _ => hostPort
  | GatewayUnforward _ | IsRelayConnected => true
  | GatewayProbe _ | ProbeHostPort _ => ProbeOk
  | Now => "2026-01-01T00:00:00.000Z"
  | CloseServer _ | ShutServer _ | CloseAll _ _ | GatewayForward _ _ | CompleteInitialForwards _
  | OnInitialComplete _ | Persist _ | CloseControl | CloseGateway => tt
  end.

Definition fine : ∀ io : IO, reply io + fault := λ io, inl (fine_reply io).

(** The registry cannot be written. *)
Definition no_registry : ∀ io : IO, reply io + fault := λ io : BindIO,
  match io with Persist _ => inr (SystemError "ENOSPC" "no space left") | _ => fine io end.

Definition sample_forward : ForwardSpec := local_forward 18080 8080.

(** One local forward, added and open. *)
Definition sample_history : list BindEvent :=
  [BeginCall (AddPortForward sample_forward OwnDynamic); Turn fine; Turn fine; Turn fine; Turn fine].

Lemma listeners_exact_witness :
  out_listening (m_world (bind_run [] sample_history)) ≡ₚ [18080]%Z.
Proof.
  destruct (listeners_exact [] sample_history ltac:(vm_compute; reflexivity)) as (_ & _ & H).
  by destruct (H ltac:(vm_compute; reflexivity)).
Defined.

Definition at_rest : BindState := m_state (bind_run [] sample_history).
Definition world_at_rest : Outside := m_world (bind_run [] sample_history).

Lemma add_all_or_nothing_witness :
  map fst (bs_open (run no_registry (add [] (local_forward 18081 8081) OwnDynamic None) at_rest world_at_rest).1.1)
  = [8080]%Z.
Proof.
  pose proof (add_all_or_nothing [] sample_history (local_forward 18081 8081) OwnDynamic _ _ _
    ltac:(vm_compute; reflexivity) (run_evaluates (meanwhile steady) no_registry _ _ _ (λ s _ _, conj (reflexivity s) eq_refl))) as H.
  assert ((run no_registry (add [] (local_forward 18081 8081) OwnDynamic None) at_rest world_at_rest).2
          = inr (SystemError "ENOSPC" "no space left")) as Hr by (vm_compute; reflexivity).
  unfold at_rest, world_at_rest in *. rewrite Hr in H. destruct H as (_ & Ho & _). rewrite Ho. vm_compute. reflexivity.
Defined.

Lemma remove_revokes_witness :
  map_get (bs_managed (run no_registry (remove DirLocal 8080) at_rest world_at_rest).1.1)
    (forwardKey DirLocal 8080) = None.
Proof.
  destruct (remove_revokes [] sample_history DirLocal 8080 _ _ _
    ltac:(vm_compute; reflexivity) (run_evaluates (meanwhile steady) no_registry _ _ _ (λ s _ _, conj (reflexivity s) eq_refl))) as [H _].
  unfold at_rest, world_at_rest. rewrite H. vm_compute. reflexivity.
Defined.

(** The initial forwards are pending once the call has begun; the method itself is
    queued behind an operation that is at rest. *)
Definition pending_history : list BindEvent := [BeginCall (PrepareInitial [])].

Lemma prepare_all_or_nothing_witness :
  bs_open (run no_registry (prepare [] [(sample_forward, [OwnConfig])])
             (m_state (bind_run [] pending_history)) (m_world (bind_run [] pending_history))).1.1 = [].
Proof.
  pose proof (prepare_all_or_nothing [] pending_history [(sample_forward, [OwnConfig])] _ _ _
    ltac:(vm_compute; reflexivity) ltac:(vm_compute; reflexivity)
    (run_evaluates (meanwhile steady) no_registry _ _ _ (λ s _ _, conj (reflexivity s) eq_refl))) as H.
  assert ((run no_registry (prepare [] [(sample_forward, [OwnConfig])])
             (m_state (bind_run [] pending_history)) (m_world (bind_run [] pending_history))).2
          = inr (SystemError "ENOSPC" "no space left")) as Hr by (vm_compute; reflexivity).
  rewrite Hr in H. by destruct H as (_ & Ho & _).
Defined.

Lemma hostPortCandidates_bounds_witness :
  List.NoDup (hostPortCandidates 65534 None) ∧ hd_error (hostPortCandidates 65534 None) = Some 65534%Z.
Proof.
  destruct (hostPortCandidates_bounds 65534 ltac:(vm_compute; reflexivity)) as (_ & H1 & H2 & _).
  exact (conj H1 H2).
Defined.

Lemma parseControlRequest_print_witness :
  parseControlRequest (Some (JObject
    [("hostPort", JNull); ("type", json_text "bind"); ("containerPort", json_port 8080)])) =
  inl (RequestBind 8080 None).
Proof.
  apply (parseControlRequest_print (RequestBind 8080 None)); [vm_compute; reflexivity|].
  cbn. apply Permutation_cons_append.
Defined.
