(* ===== verification/Threads.v ===== *)
(** * Concurrent methods

    Methods of [Effects] that run concurrently on one event loop: a method runs alone
    up to its next `await`, and any of the waiting ones goes on next.  The outside
    world only moves forward ([later]); [permits] says which answers an operation can
    have in a state, so that a promise the program itself settles is answered only
    when it is.  An invariant kept at every wait and at every end holds in every run. *)
From S2P Require Import Prelude Effects.

Section Threads.
Context `{Effects} {S : Type}.
Abbreviation E := fault.
Abbreviation W := world.
Context (later : W → W → Prop) (permits : S → ∀ io, reply io + E → bool).

Record pool (R : Type) : Type := {
  pl_state : S;
  pl_world : W;
  (** the methods that wait, by the number of their start *)
  pl_threads : list (nat * { io : IO & reply io + E → prog S R });
  pl_started : nat;
  pl_results : list (nat * (R + E));
}.
#[global] Arguments pl_state {R} _.
#[global] Arguments pl_world {R} _.
#[global] Arguments pl_threads {R} _.
#[global] Arguments pl_started {R} _.
#[global] Arguments pl_results {R} _.
#[global] Arguments Build_pool {R} _ _ _ _ _.

Definition empty_pool (R : Type) (s : S) (w : W) : pool R := {|
  pl_state := s; pl_world := w; pl_threads := []; pl_started := 0; pl_results := [] |}.

(** A method goes on to its next wait or to its end. *)
Definition advance {R} (answers : ∀ io, reply io + E) (started : nat)
    (threads : list (nat * { io : IO & reply io + E → prog S R })) (pl : pool R) (w : W)
    (id : nat) (p : prog S R) : pool R :=
  let '(s, w, next) := segment answers p (pl_state pl) w in
  match next with
  | Finished r => {| pl_state := s; pl_world := w; pl_threads := threads; pl_started := started;
                     pl_results := pl_results pl ++ [(id, r)] |}
  | Blocked io k => {| pl_state := s; pl_world := w; pl_threads := threads ++ [(id, existT io k)];
                       pl_started := started; pl_results := pl_results pl |}
  end.

(** A method starts; its number is that of the start. *)
Definition launch {R} (answers : ∀ io, reply io + E) (pl : pool R) (p : nat → prog S R) : pool R :=
  advance answers (Datatypes.S (pl_started pl)) (pl_threads pl) pl (pl_world pl) (pl_started pl)
    (p (pl_started pl)).

(** A waiting method is answered; nothing happens when it cannot be answered so. *)
Definition wake {R} (answers : ∀ io, reply io + E) (pl : pool R) (id : nat) : pool R :=
  match map_get (pl_threads pl) id with
  | Some (existT io k) =>
      if permits (pl_state pl) io (answers io) then
        advance answers (pl_started pl) (map_delete (pl_threads pl) id) pl
          (react (pl_world pl) io (answers io)) id (k (answers io))
      else pl
  | None => pl
  end.

(** ** An invariant of the pool *)

Context `{!PreOrder later} (Hreact : ∀ w io r, later w (react w io r)).
Context (I : S → W → Prop).

Definition among_others (s : S) (w : W) (io : IO) (r : reply io + E) (s' : S) (w' : W) : Prop :=
  I s' w' ∧ later w w' ∧ permits s' io r = true.

Definition thread_safe {R} (p : prog S R) (s : S) (w : W) : Prop :=
  safe among_others I (λ s w _, I s w) p s w.

(** Whatever a waiting method is answered, it goes on safely. *)
Definition waits_safe {R} (s : S) (w : W) (t : { io : IO & reply io + E → prog S R }) : Prop :=
  match t with
  | existT io k => ∀ r s' w', among_others s w io r s' w' → thread_safe (k r) s' (react w' io r)
  end.

Record pool_inv {R} (pl : pool R) : Prop := {
  pool_always : I (pl_state pl) (pl_world pl);
  pool_threads : ∀ id t, In (id, t) (pl_threads pl) → waits_safe (pl_state pl) (pl_world pl) t;
}.

Lemma empty_pool_inv R s w : I s w → pool_inv (empty_pool R s w).
Proof. by split. Qed.

Lemma waits_safe_later {R} s w s' w' (t : { io : IO & reply io + E → prog S R }) :
  later w w' → waits_safe s w t → waits_safe s' w' t.
Proof.
  destruct t as [io k]. intros Hl Ht r s2 w2 (H1 & H2 & H3). apply Ht. split_and!; [done| |done]. by etrans.
Qed.

Lemma segment_later {R} answers (p : prog S R) s w : later w (segment answers p s w).1.2.
Proof.
  revert s w. induction p as [a|e|k IH|s0 k IH|io k IH|io k IH]; intros s w; cbn; try apply IH; try done.
  etrans; [apply Hreact|apply IH].
Qed.

Lemma advance_inv {R} answers started threads (pl : pool R) w id p :
  later (pl_world pl) w → thread_safe p (pl_state pl) w →
  (∀ t, In t threads → In t (pl_threads pl)) →
  pool_inv pl → pool_inv (advance answers started threads pl w id p).
Proof.
  intros Hw Hp Ht Hpl. pose proof (segment_later answers p (pl_state pl) w) as Hl.
  assert (∀ s' j t, In (j, t) threads → waits_safe s' (segment answers p (pl_state pl) w).1.2 t) as Hold.
  { intros s' j t Hin. eapply (waits_safe_later _ (pl_world pl)); [by etrans|]. by eapply pool_threads, Ht. }
  apply (safe_segment _ _ _ answers) in Hp. unfold advance.
  destruct (segment answers p (pl_state pl) w) as [[s w2] [r|io k]]; cbn in Hp, Hold.
  - split; cbn; [done|]. eauto.
  - destruct Hp as [Hi Hk]. split; cbn; [done|]. intros j t [Hin|[[= <- <-]|[]]]%in_app_iff; eauto.
Qed.

Lemma launch_inv {R} answers (pl : pool R) p :
  (∀ id, thread_safe (p id) (pl_state pl) (pl_world pl)) →
  pool_inv pl → pool_inv (launch answers pl p).
Proof. intros Hp. by apply advance_inv. Qed.

Lemma wake_inv {R} answers (pl : pool R) id : pool_inv pl → pool_inv (wake answers pl id).
Proof.
  intros Hpl. unfold wake. destruct (map_get (pl_threads pl) id) as [[io k]|] eqn:Eg; [|done].
  destruct (permits _ io _) eqn:Ep; [|done]. apply advance_inv; [apply Hreact| | |done].
  - apply map_get_In in Eg. apply (pool_threads _ Hpl _ _ Eg). split_and!; [apply Hpl|done|done].
  - intros t Hin%list_elem_of_In. apply list_elem_of_In. eapply elem_of_sublist; [exact Hin|].
    apply map_delete_sublist.
Qed.
End Threads.

Arguments pool {_} S R.

(** The world of a program that is judged by the trace of its operations. *)
Definition traced (IO : Type) (reply : IO → Type) (fault : Type) : Effects := {|
  Effects.IO := IO; Effects.reply := reply; Effects.fault := fault;
  world := list { io : IO & reply io + fault };
  react := λ trace io r, trace ++ [existT io r] |}.
