(* ===== verification/NodePath.v ===== *)
(** * Paths (node:path, POSIX)

    The methods of `node:path` that the host-command code calls, as Node documents
    them: a path is cut at "/", empty and "." segments vanish, ".." takes back the
    segment before it. *)
From S2P Require Import Prelude JsString.

Definition slash : ascii := "/".

Definition isAbsolute (p : string) : bool := startsWith p "/".

(** The segments of a path; [allow_above] keeps the ".." that lead out of it. *)
Definition push_segment (allow_above : bool) (stack : list string) (segment : string) : list string :=
  if String.eqb segment "" || String.eqb segment "." then stack
  else if String.eqb segment ".." then
    match stack with
    | top :: rest => if String.eqb top ".." then (if allow_above then segment :: stack else stack) else rest
    | [] => if allow_above then [segment] else []
    end
  else segment :: stack.

Definition normalize_segments (allow_above : bool) (segments : list string) : list string :=
  reverse (fold_left (push_segment allow_above) segments []).

Definition normalizeString (p : string) (allow_above : bool) : list string :=
  normalize_segments allow_above (split_on slash p).

Definition normalize (p : string) : string :=
  if String.eqb p "" then "."
  else
    let s := join "/" (normalizeString p (negb (isAbsolute p))) in
    let trailing := endsWith p "/" in
    if String.eqb s "" then
      if isAbsolute p then "/" else if trailing then "./" else "."
    else (if isAbsolute p then "/" else "") +:+ s +:+ (if trailing then "/" else "").

(** `path.join` *)
Definition join_paths (paths : list string) : string :=
  normalize (join "/" (List.filter (λ p, negb (String.eqb p "")) paths)).

Section Cwd.
(** `process.cwd()`, an absolute path *)
Context (process_cwd : string).

(** `path.resolve(...paths)` reads from the last absolute path on; its segments from
    the root. *)
Definition from_last_absolute (paths : list string) : list string :=
  fold_left (λ acc p, if isAbsolute p then [p] else acc ++ [p]) (process_cwd :: paths) [].

Definition resolve_segments (paths : list string) : list string :=
  normalize_segments false (concat (map (split_on slash) (from_last_absolute paths))).

Definition resolve (paths : list string) : string := "/" +:+ join "/" (resolve_segments paths).

Fixpoint common_prefix (a b : list string) : nat :=
  match a, b with
  | x :: a, y :: b => if String.eqb x y then S (common_prefix a b) else 0
  | _, _ => 0
  end.

Definition relative (from to : string) : string :=
  let a := resolve_segments [from] in
  let b := resolve_segments [to] in
  let n := common_prefix a b in
  join "/" (replicate (length a - n) ".." ++ drop n b).
End Cwd.

(** `path.dirname`: what comes before the last slash, trailing slashes aside. *)
Fixpoint strip_slashes (p : string) : string :=
  match p with
  | EmptyString => ""
  | String c rest =>
      match strip_slashes rest with
      | EmptyString => if Ascii.eqb c slash then "" else String c ""
      | rest => String c rest
      end
  end.

Definition dirname (p : string) : string :=
  match p with
  | EmptyString => "."
  | String c rest =>
      let rest := strip_slashes rest in
      match lastIndexOf rest slash with
      | None => if Ascii.eqb c slash then "/" else "."
      | Some O => if Ascii.eqb c slash then "//" else String c ""
      | Some i => String c (take_str i rest)
      end
  end.

Definition basename (p : string) : string :=
  default "" (last (List.filter (λ s, negb (String.eqb s "")) (split_on slash p))).

Example normalize_ex :
  map normalize ["./a//b/../c/"; "../x"; "/../a/."; "a/.."; "./"; ""; "/"] =
  ["a/c/"; "../x"; "/a"; "."; "./"; "."; "/"]%string.
Proof. reflexivity. Qed.

Example relative_ex :
  map (λ '(a, b), relative "/w" a b) [("/w/a", "/w/b/c"); ("/w", "/w"); ("/", "x"); ("/w", "/"); ("/w", "/w/..b")] =
  ["../b/c"; ""; "w/x"; ".."; "..b"]%string.
Proof. reflexivity. Qed.

Example basename_ex : map basename ["/opt/bin/git"; "a/b/"; "git"; "/"; ""; "a/.."] = ["git"; "b"; "git"; ""; ""; ".."]%string.
Proof. reflexivity. Qed.

Example dirname_ex :
  map dirname ["/a/b"; "/a/b/"; "/a"; "/"; "a"; ""; "a/b/c"; "//a"; "a//b"; "/a//"] =
  ["/a"; "/a"; "/"; "/"; "."; "."; "a/b"; "//"; "a/"; "/"]%string.
Proof. reflexivity. Qed.

(** ** Laws *)

(** A name that a segment of a normalized absolute path can be. *)
Definition clean_segment (s : string) : Prop := s ≠ "" ∧ s ≠ "." ∧ s ≠ ".." ∧ has_char slash s = false.

Lemma push_segment_clean stack s :
  has_char slash s = false → Forall clean_segment stack → Forall clean_segment (push_segment false stack s).
Proof.
  intros Hs Hst. unfold push_segment. destruct (String.eqb_spec s ""); [done|].
  destruct (String.eqb_spec s "."); cbn [orb]; [done|]. destruct (String.eqb_spec s "..") as [->|].
  - destruct stack as [|top rest]; [done|]. apply Forall_cons in Hst as [Ht Hr].
    destruct (String.eqb top ".."); [by constructor|done].
  - constructor; [done|exact Hst].
Qed.

Lemma resolve_segments_clean process_cwd paths : Forall clean_segment (resolve_segments process_cwd paths).
Proof.
  unfold resolve_segments, normalize_segments. rewrite Forall_reverse.
  assert (∀ l st, Forall (λ s, has_char slash s = false) l → Forall clean_segment st →
    Forall clean_segment (fold_left (push_segment false) l st)) as H.
  { induction l as [|s l IH]; intros st Hl Hst; cbn; [done|]. apply Forall_cons in Hl as [Hs Hl].
    apply IH; [done|]. by apply push_segment_clean. }
  apply H; [|constructor]. apply Forall_concat, Forall_map, Forall_true. intros p. apply split_on_char_free_tokens.
Qed.

Lemma common_prefix_spec a : ∀ b,
  take (common_prefix a b) a = take (common_prefix a b) b ∧ (common_prefix a b ≤ length a)%nat.
Proof.
  induction a as [|x a IH]; intros [|y b]; cbn; try (split; [done|lia]).
  destruct (String.eqb_spec x y) as [->|]; cbn; [|split; [done|lia]].
  destruct (IH b) as [H1 H2]. split; [by f_equal|lia].
Qed.

Lemma common_prefix_app a b : common_prefix a (a ++ b) = length a.
Proof. induction a as [|x a IH]; cbn; [done|]. by rewrite String.eqb_refl, IH. Qed.

Section Relative.
Context (process_cwd : string).
Abbreviation segs p := (resolve_segments process_cwd [p]).

(** A relative path that does not begin with ".." leads down: its root is an
    ancestor, and it is made of the segments below it. *)
Lemma relative_down root target :
  startsWith (relative process_cwd root target) ".." = false →
  segs target = segs root ++ drop (length (segs root)) (segs target) ∧
  relative process_cwd root target = join "/" (drop (length (segs root)) (segs target)).
Proof.
  unfold relative. destruct (common_prefix_spec (segs root) (segs target)) as [H1 H2].
  set (n := common_prefix _ _) in *. destruct (length (segs root) - n)%nat as [|k] eqn:E.
  - intros _. assert (n = length (segs root)) as -> by lia. split; [|done].
    rewrite <- (take_drop (length (segs root)) (segs target)) at 1. rewrite <- H1. by rewrite firstn_all.
  - intros Hs. exfalso. cbn [replicate app] in Hs.
    assert (∃ r, join "/" (".." :: replicate k ".." ++ drop n (segs target)) = ".." +:+ r) as [r Hr].
    { destruct (replicate k ".." ++ drop n (segs target)) as [|t ts]; [by exists ""|]. eexists. by apply join_cons. }
    assert (startsWith (".." +:+ r) ".." = true) as Ht by (apply startsWith_iff; eauto).
    rewrite Hr in Hs. congruence.
Qed.

Lemma relative_below root target below :
  segs target = segs root ++ below → relative process_cwd root target = join "/" below.
Proof.
  intros H. unfold relative. rewrite H, common_prefix_app, Nat.sub_diag, drop_app_length. done.
Qed.
End Relative.

(** Resolving below an absolute root: the relative path is walked from there. *)
Lemma fold_push_above l : ∀ base stack,
  fold_left (push_segment true) l [] = stack → ¬ In ".." stack →
  fold_left (push_segment false) l base = stack ++ base.
Proof.
  induction l as [|s l IH] using rev_ind; intros base stack; cbn; [by intros <-|].
  rewrite !fold_left_app. cbn. set (st := fold_left (push_segment true) l []). intros Hst Hn.
  assert (¬ In ".." st) as Hn'.
  { intros Hin. apply Hn. rewrite <- Hst. unfold push_segment. destruct (_ || _); [done|].
    destruct (String.eqb_spec s ".."); [|by right]. destruct st as [|top rest]; [done|].
    destruct (String.eqb_spec top ".."); [by right|]. destruct Hin; [done|done]. }
  rewrite (IH base st eq_refl Hn'). revert Hst. unfold push_segment.
  destruct (_ || _); [by intros ->|]. destruct (String.eqb_spec s "..") as [->|]; [|by intros <-].
  destruct st as [|top rest]; cbn; [intros <-; by destruct Hn; left|].
  destruct (String.eqb_spec top ".."); [intros <-; by destruct Hn; left|by intros ->].
Qed.

(** ** The canonical text of a path *)

(** What [resolve] prints for the segments. *)
Definition path_of (segments : list string) : string := "/" +:+ join "/" segments.

Lemma clean_char_free l : Forall clean_segment l → Forall (λ t, has_char slash t = false) l.
Proof. intros Hl. eapply Forall_impl; [exact Hl|]. by intros s (_ & _ & _ & Hs). Qed.

Lemma split_slash_join l : Forall clean_segment l → split_on slash (path_of l) = "" :: match l with [] => [""] | _ => l end.
Proof.
  intros Hl. change (path_of l) with (String slash (join "/" l)). cbn [split_on].
  rewrite Ascii.eqb_refl. f_equal. destruct l as [|t ts]; [done|]. change "/" with (String slash "").
  apply split_join; [done|by apply clean_char_free].
Qed.

Lemma fold_push_clean l : ∀ stack, Forall clean_segment l → fold_left (push_segment false) l stack = reverse l ++ stack.
Proof.
  induction l as [|s l IH]; intros stack Hl; [done|]. apply Forall_cons in Hl as [(H1 & H2 & H3 & _) Hl].
  cbn [fold_left]. rewrite IH by done. rewrite reverse_cons, <- app_assoc. f_equal. unfold push_segment.
  destruct (String.eqb_spec s ""); [done|]. destruct (String.eqb_spec s "."); [done|].
  by destruct (String.eqb_spec s "..").
Qed.

Lemma path_of_absolute l : isAbsolute (path_of l) = true.
Proof. apply startsWith_iff. by exists (join "/" l). Qed.

(** A canonical path is its own resolution. *)
Lemma resolve_path_of process_cwd l : Forall clean_segment l → resolve_segments process_cwd [path_of l] = l.
Proof.
  intros Hc. unfold resolve_segments, from_last_absolute. cbn [fold_left]. rewrite path_of_absolute.
  cbn [map concat]. rewrite app_nil_r, split_slash_join by done. unfold normalize_segments. cbn [fold_left].
  change (push_segment false [] "") with (@nil string). destruct l as [|t ts] eqn:El; [done|].
  rewrite fold_push_clean by done. by rewrite app_nil_r, reverse_involutive.
Qed.

Lemma path_of_inj a b : Forall clean_segment a → Forall clean_segment b → path_of a = path_of b → a = b.
Proof. intros Ha Hb E. by rewrite <- (resolve_path_of "/" a Ha), <- (resolve_path_of "/" b Hb), E. Qed.

Lemma join_snoc sep l x : l ≠ [] → join sep (l ++ [x]) = join sep l +:+ sep +:+ x.
Proof.
  induction l as [|t l IH]; [done|]. intros _. destruct l as [|t' l]; [done|].
  change ((t :: t' :: l) ++ [x]) with (t :: t' :: (l ++ [x])). rewrite (join_cons sep t (t' :: (l ++ [x]))) by done.
  change (t' :: (l ++ [x])) with ((t' :: l) ++ [x]). rewrite IH, (join_cons sep t (t' :: l)) by done.
  by rewrite !sapp_assoc.
Qed.

Lemma strip_slashes_free s : has_char slash s = false → strip_slashes s = s.
Proof.
  induction s as [|c s IH]; [done|]. cbn. intros [Hc Hs]%orb_false_iff. rewrite IH by done. destruct s; [by rewrite Hc|done].
Qed.

Lemma strip_slashes_app a s : s ≠ "" → has_char slash s = false → strip_slashes (a +:+ s) = a +:+ s.
Proof.
  intros Hne Hs. induction a as [|c a IH]; [by apply strip_slashes_free|]. cbn. rewrite IH.
  destruct a; [by destruct s|done].
Qed.

(** The directory of a canonical path is the path without its last segment. *)
Lemma dirname_path_of l x : Forall clean_segment l → clean_segment x → dirname (path_of (l ++ [x])) = path_of l.
Proof.
  intros Hl (Hx & _ & _ & Hf). unfold path_of. destruct (decide (l = [])) as [->|Hne].
  - cbn. rewrite strip_slashes_free, (proj2 (lastIndexOf_None _ _) Hf) by done. done.
  - rewrite join_snoc by done. change (dirname (String slash (join "/" l +:+ String slash x)) = String slash (join "/" l)).
    unfold dirname. replace (join "/" l +:+ String slash x) with ((join "/" l +:+ "/") +:+ x) by by rewrite sapp_assoc.
    rewrite strip_slashes_app by done. rewrite sapp_assoc. change ("/" +:+ x) with (String slash x).
    rewrite lastIndexOf_app by done. rewrite take_str_app.
    destruct (slen (join "/" l)) eqn:E; [|done]. exfalso. destruct l as [|t ts]; [done|].
    apply Forall_cons in Hl as [[Ht _] _]. destruct ts, t; done.
Qed.

Lemma path_of_length l : Forall clean_segment l → (length l ≤ slen (path_of l))%nat.
Proof.
  intros Hl. assert (length l ≤ slen (join "/" l))%nat as H; [|cbn; lia].
  induction l as [|t ts IH]; [done|]. apply Forall_cons in Hl as [[Ht _] Hl]. specialize (IH Hl).
  destruct ts as [|t' ts]; [destruct t; [done|cbn; lia]|]. rewrite join_cons, !slen_app by done.
  change (slen "/") with 1%nat. cbn [length] in *. lia.
Qed.

Lemma resolve_is_path_of process_cwd paths : ∃ l, resolve process_cwd paths = path_of l ∧ Forall clean_segment l.
Proof. eexists. split; [done|apply resolve_segments_clean]. Qed.
