(* ===== verification/HostMatch.v ===== *)
(** * Rules for commands on the host (hostexec/match.ts, types.ts, integrity.ts)

    A command of the container runs on the host when a rule matches its name and its
    arguments.  This file also has the parts of hostexec/broker.ts that compute from
    a request and a rule: the inherited environment, the working directory, what a
    rule of the installed script runs, and the capability that an approval is for. *)
From S2P Require Import Prelude JsString Json NodePath.

(** What the code takes from its runtime. *)
Class HostRuntime : Type := {
  (** `new RegExp(pattern).test(text)`; [None] when the pattern is no pattern *)
  regex_test : string → string → option bool;
  (** `a.localeCompare(b) <= 0` *)
  locale_leb : string → string → bool;
  (** a URL that parses has a user name or a password; [None] when it does not parse *)
  url_credentials : string → option bool;
  (** SHA-256 of a text, in hexadecimal *)
  sha256_hex : string → string;
  process_cwd : string;
  process_env : list (string * string);
  home_dir : string;
}.

(** ** Configuration (config/types.ts) *)

Inductive HostExecApproval : Type := ApprovalAllow | ApprovalPrompt | ApprovalDeny.
#[export] Instance HostExecApproval_eq_dec : EqDecision HostExecApproval.
Proof. solve_decision. Defined.

Inductive HostExecCwdMode : Type := CwdWorkspaceOnly | CwdWorkspaceOrSessionTmp | CwdAllowlist | CwdAny.

Inductive HostExecInheritEnvMode : Type := InheritMinimal | InheritAll.
#[export] Instance HostExecInheritEnvMode_eq_dec : EqDecision HostExecInheritEnvMode.
Proof. solve_decision. Defined.

Inductive HostExecPromptScope : Type := PromptOnce | PromptCapability.
#[export] Instance HostExecPromptScope_eq_dec : EqDecision HostExecPromptScope.
Proof. solve_decision. Defined.

Record HostExecInheritEnvConfig : Type := {
  ie_mode : HostExecInheritEnvMode;
  ie_keys : list string;
}.

Record HostExecRule : Type := {
  hr_id : string;
  hr_argv0 : string;
  hr_argRegex : option string;
  hr_cwdMode : HostExecCwdMode;
  hr_cwdAllow : list string;
  hr_env : list (string * string);
  hr_inheritEnv : HostExecInheritEnvConfig;
  hr_approval : HostExecApproval;
}.

Inductive StdinMode : Type := StdinFd | StdinNone.

(** The fields whose values are fixed, `version` and `type`, are left out. *)
Record ExecuteRequest : Type := {
  er_sessionId : string;
  er_requestId : string;
  er_argv0 : string;
  er_args : list string;
  er_cwd : string;
  er_tty : bool;
  er_stdinMode : StdinMode;
}.

(** ** match.ts *)

Section Match.
Context `{HostRuntime}.

Record MatchContext : Type := { mc_cwd : string; mc_workspaceRoot : string }.

Definition isRelativeHostExecArgv0 (argv0 : string) : bool :=
  if isAbsolute argv0 then false else str_includes argv0 "/".

Definition isBareCommandHostExecArgv0 (argv0 : string) : bool :=
  negb (isAbsolute argv0) && negb (str_includes argv0 "/").

Definition hostCommandArgv0 (ruleArgv0 requestArgv0 : string) : string :=
  if isBareCommandHostExecArgv0 ruleArgv0 then basename requestArgv0 else requestArgv0.

(** The comparison with a file below the workspace, or [None] when it is not below. *)
Definition workspace_match (ruleArgv0 absolute : string) (context : MatchContext) : option bool :=
  let relToWorkspace := relative process_cwd (mc_workspaceRoot context) absolute in
  if startsWith relToWorkspace ".." then None
  else Some (String.eqb (normalize ruleArgv0) (normalize ("./" +:+ relToWorkspace))).

Definition argv0MatchesRule (ruleArgv0 actualArgv0 : string) (context : option MatchContext) : bool :=
  if isRelativeHostExecArgv0 ruleArgv0 then
    if isRelativeHostExecArgv0 actualArgv0 then
      if String.eqb (normalize ruleArgv0) (normalize actualArgv0) then true
      else match context with
           | Some context =>
               default false (workspace_match ruleArgv0
                 (resolve process_cwd [mc_cwd context; actualArgv0]) context)
           | None => false
           end
    else match context with
         | Some context =>
             if isAbsolute actualArgv0
             then default false (workspace_match ruleArgv0 actualArgv0 context) else false
         | None => false
         end
  else if isAbsolute ruleArgv0 then String.eqb (normalize ruleArgv0) (normalize actualArgv0)
  else String.eqb (basename actualArgv0) ruleArgv0.

Definition buildArgsString (args : list string) : string := join " " args.

(** The first rule that matches; the outer [None] is a thrown exception. *)
Fixpoint matchRule (rules : list HostExecRule) (argv0 : string) (args : list string)
    (context : option MatchContext) : option (option HostExecRule) :=
  match rules with
  | [] => Some None
  | rule :: rules =>
      if negb (argv0MatchesRule (hr_argv0 rule) argv0 context) then matchRule rules argv0 args context
      else match hr_argRegex rule with
           | None => Some (Some rule)
           | Some pattern =>
               match regex_test pattern (buildArgsString args) with
               | None => None
               | Some false => matchRule rules argv0 args context
               | Some true => Some (Some rule)
               end
           end
  end.

(** The class `\s` *)
Definition is_white (c : ascii) : bool := in_range 9 13 c || Ascii.eqb c " " || (code c =? 160)%nat.

Fixpoint has_white (s : string) : bool :=
  match s with EmptyString => false | String c s => is_white c || has_white s end.

Definition argsAmbiguousForArgRegex (args : list string) : bool :=
  existsb (λ arg, String.eqb arg "" || has_white arg) args.

Definition effectiveApproval (rule : HostExecRule) (args : list string) : HostExecApproval :=
  if bool_decide (hr_approval rule = ApprovalAllow) &&
     match hr_argRegex rule with Some _ => true | None => false end && argsAmbiguousForArgRegex args
  then ApprovalPrompt else hr_approval rule.

(** ** integrity.ts *)

(** `"absent"`, or the SHA-256 of the content (the other fields are not compared). *)
Inductive IntegritySnapshot : Type := Absent | Content (sha256 : string).

Inductive IntegrityVerdict : Type := IntegrityPass | IntegrityPrompt.
#[export] Instance IntegrityVerdict_eq_dec : EqDecision IntegrityVerdict.
Proof. solve_decision. Defined.

Definition decideIntegrity (baseline : option IntegritySnapshot) (current : IntegritySnapshot) :
    IntegrityVerdict :=
  match baseline with
  | None => IntegrityPrompt
  | Some Absent => match current with Absent => IntegrityPass | _ => IntegrityPrompt end
  | Some (Content sha) =>
      match current with
      | Absent => IntegrityPrompt
      | Content sha' => if String.eqb sha' sha then IntegrityPass else IntegrityPrompt
      end
  end.

(** ** broker.ts: the environment *)

Definition MINIMAL_ENV_KEYS : list string := ["HOME"; "PATH"; "LANG"; "TERM"; "USER"; "LOGNAME"].
Definition DEFAULT_PATH : string := "/usr/local/sbin:/usr/local/bin:/usr/sbin:/usr/bin:/sbin:/bin".

Definition isNasOwnedEnvKey (key : string) : bool := startsWith key "NAS_".

Definition PROXY_ENV_KEYS : list string := ["http_proxy"; "https_proxy"; "all_proxy"; "ftp_proxy"].

Definition isProxyCredentialEnv (key value : string) : bool :=
  if negb (includes PROXY_ENV_KEYS (toLowerCase key)) then false
  else default false (url_credentials (if str_includes value "://" then value else "http://" +:+ value)).

(** Copying a variable that is set. *)
Definition copy_env (hostEnv : list (string * string)) (env : list (string * string)) (key : string) :
    list (string * string) :=
  match map_get hostEnv key with Some value => map_set env key value | None => env end.

Definition buildInheritedEnv (inheritEnv : HostExecInheritEnvConfig) (hostEnv : list (string * string)) :
    list (string * string) :=
  let envVars :=
    match ie_mode inheritEnv with
    | InheritAll =>
        fold_left (λ env '(key, value),
          if isNasOwnedEnvKey key then env
          else if isProxyCredentialEnv key value then env
          else map_set env key value) hostEnv []
    | InheritMinimal =>
        let env := fold_left (copy_env hostEnv) MINIMAL_ENV_KEYS [] in
        map_set env "PATH" (default DEFAULT_PATH (map_get env "PATH"))
    end in
  fold_left (copy_env hostEnv) (ie_keys inheritEnv) envVars.

(** ** broker.ts: the working directory *)

Definition isWithin (target root : string) : bool :=
  let rel := relative process_cwd root target in
  String.eqb rel "" || (negb (startsWith rel "..") && negb (isAbsolute rel)).

(** `assertWithinRoot`; [false] when it throws. *)
Definition assertWithinRoot (resolved root : string) : bool :=
  let rel := relative process_cwd root resolved in
  negb (negb (String.eqb rel "") && (startsWith rel ".." || isAbsolute rel)).

Definition expandTilde (rawPath home : string) : string :=
  if String.eqb rawPath "~" then home
  else if startsWith rawPath "~/" then join_paths [home; drop_str 2 rawPath]
  else rawPath.

(** ** broker.ts: the installed script *)

Definition normalizeInstalledScriptPath (value : option string) : option string :=
  match value with
  | Some v => if negb (String.eqb v "") && isAbsolute v then Some (normalize v) else None
  | None => None
  end.

Definition isInstalledScriptRequest (installedScriptPath : option string) (argv0 : string) : bool :=
  match installedScriptPath with
  | Some p => isAbsolute argv0 && String.eqb (normalize argv0) p
  | None => false
  end.

Definition installedScriptPayload (requestArgs : list string) : option (string * list string) :=
  match requestArgs with
  | "-h" :: _ | "--help" :: _ => None
  | "--" :: argv0 :: args => Some (argv0, args)
  | ["--"] => None
  | argv0 :: args => Some (argv0, args)
  | [] => None
  end%string.

(** ** broker.ts: capabilities *)

Record ResolvedExecutionCapability : Type := {
  rc_ruleId : string;
  rc_argv0 : string;
  rc_normalizedArgv : list string;
  rc_normalizedCwd : string;
  rc_envBindings : list (string * string);
  rc_inheritEnv : HostExecInheritEnvConfig;
}.

(** Sorting by a comparison, stable as `Array.prototype.sort`. *)
Fixpoint insert_by {A} (leb : A → A → bool) (x : A) (l : list A) : list A :=
  match l with
  | [] => [x]
  | y :: l' => if leb x y then x :: l else y :: insert_by leb x l'
  end.

Definition sort_by {A} (leb : A → A → bool) (l : list A) : list A := foldr (insert_by leb) [] l.

(** The order of the members is that of their keys, before or after the recursion. *)
Fixpoint sortJsonValue (value : JsonValue) : JsonValue :=
  match value with
  | JArray elements => JArray (map sortJsonValue elements)
  | JObject members =>
      JObject (sort_by (λ a b, locale_leb a.1 b.1)
                 (map (λ '(key, nested), (key, sortJsonValue nested)) members))
  | _ => value
  end.

Definition canonicalJson (value : JsonValue) : string := stringify (sortJsonValue value).

Definition ie_mode_string (m : HostExecInheritEnvMode) : string :=
  match m with InheritMinimal => "minimal" | InheritAll => "unsafe-inherit-all" end.

Definition text (s : string) : JsonValue := JScalar (ScString s).

Definition capability_json (c : ResolvedExecutionCapability) : JsonValue :=
  JObject [("ruleId", text (rc_ruleId c)); ("argv0", text (rc_argv0 c));
           ("normalizedArgv", JArray (map text (rc_normalizedArgv c)));
           ("normalizedCwd", text (rc_normalizedCwd c));
           ("envBindings", JArray (map (λ '(key, source),
              JObject [("key", text key); ("source", text source)]) (rc_envBindings c)));
           ("inheritEnv", JObject [("mode", text (ie_mode_string (ie_mode (rc_inheritEnv c))));
                                   ("keys", JArray (map text (ie_keys (rc_inheritEnv c))))])].

Definition buildApprovalKey (capability : ResolvedExecutionCapability) : string :=
  sha256_hex (canonicalJson (capability_json capability)).
End Match.
