(* ===== verification/HostMatchLaws.v ===== *)
(** * Laws of the rules for host commands

    What a rule that matches says about the file that runs, what the regular
    expression sees of the arguments, which variables a rule inherits, and that the
    key of an approval determines the command it is for. *)
From S2P Require Import Prelude JsString Json NodePath HostMatch.

(** ** Arguments *)

Lemma is_white_space s : has_white s = false → has_char " " s = false.
Proof.
  induction s as [|c s IH]; cbn; [done|]. intros [Hc Hs]%orb_false_iff.
  rewrite IH by done. unfold is_white in Hc. destruct (Ascii.eqb_spec c " ") as [->|]; [done|].
  by apply orb_false_r.
Qed.

Lemma unambiguous_args args :
  argsAmbiguousForArgRegex args = false →
  Forall (λ arg, has_char " " arg = false) args ∧ ¬ In "" args.
Proof.
  unfold argsAmbiguousForArgRegex. rewrite existsb_false. intros H. split.
  - apply List.Forall_forall. intros arg Hin. specialize (H arg Hin). apply orb_false_iff in H as [_ H].
    by apply is_white_space.
  - intros Hin. by specialize (H "" Hin).
Qed.

(** The regular expression of a rule sees the arguments joined by blanks.  For
    arguments that are not called ambiguous the joined text determines the list: two
    such lists with the same text are the same, so a rule that allows them without
    asking allowed exactly these arguments. *)
Theorem argRegex_sees_arguments args args'
    (Hargs : argsAmbiguousForArgRegex args = false) (Hargs' : argsAmbiguousForArgRegex args' = false)
    (Htext : buildArgsString args = buildArgsString args') :
  args = args'.
Proof.
  apply unambiguous_args in Hargs as [H1 H2]. apply unambiguous_args in Hargs' as [H1' H2'].
  assert (∀ l, l ≠ [] → ¬ In "" l → join " " l ≠ "") as Hne.
  { intros [|t [|t' ts]] Hl Hn; cbn; [done| |]; destruct t; try done; by destruct Hn; left. }
  unfold buildArgsString in Htext. destruct args as [|t ts], args' as [|t' ts']; [done|..].
  - by destruct (Hne (t' :: ts') ltac:(done) H2').
  - by destruct (Hne (t :: ts) ltac:(done) H2).
  - rewrite <- (split_join " " (t :: ts) ltac:(done) H1), <- (split_join " " (t' :: ts') ltac:(done) H1').
    by rewrite Htext.
Qed.

Lemma argRegex_sees_arguments_witness :
  buildArgsString ["a"; "b c"] = buildArgsString ["a"; "b"; "c"] ∧ ["push"; "-f"] = ["push"; "-f"]%string.
Proof.
  split; [vm_compute; reflexivity|].
  apply (argRegex_sees_arguments ["push"; "-f"] ["push"; "-f"]); vm_compute; reflexivity.
Defined.

(** ** Names *)

Section Names.
Context `{HostRuntime}.

Lemma push_segment_free stack s :
  has_char slash s = false → Forall (λ t, t ≠ "" ∧ t ≠ "." ∧ has_char slash t = false) stack →
  Forall (λ t, t ≠ "" ∧ t ≠ "." ∧ has_char slash t = false) (push_segment true stack s).
Proof.
  intros Hs Hst. unfold push_segment. destruct (String.eqb_spec s ""); [done|].
  destruct (String.eqb_spec s "."); cbn [orb]; [done|]. destruct (String.eqb_spec s "..") as [->|].
  - destruct stack as [|top rest]; [by repeat constructor|]. destruct (String.eqb top ".."); [by constructor|].
    by apply Forall_cons in Hst as [_ Hst].
  - by constructor.
Qed.

Lemma normalizeString_free p :
  Forall (λ t, t ≠ "" ∧ t ≠ "." ∧ has_char slash t = false) (normalizeString p true).
Proof.
  unfold normalizeString, normalize_segments. rewrite Forall_reverse.
  assert (∀ l st, Forall (λ s, has_char slash s = false) l →
    Forall (λ t, t ≠ "" ∧ t ≠ "." ∧ has_char slash t = false) st →
    Forall (λ t, t ≠ "" ∧ t ≠ "." ∧ has_char slash t = false) (fold_left (push_segment true) l st)) as Hf.
  { induction l as [|s l IH]; intros st Hl Hst; cbn; [done|]. apply Forall_cons in Hl as [Hs Hl].
    apply IH; [done|]. by apply push_segment_free. }
  apply Hf; [apply split_on_char_free_tokens|constructor].
Qed.

Abbreviation free_segment := (λ t, t ≠ "" ∧ t ≠ "." ∧ has_char slash t = false).

Lemma split_trailing p : last (split_on slash (p +:+ "/")) = Some "".
Proof.
  induction p as [|a p IH]; cbn; [done|]. destruct (Ascii.eqb a slash).
  - destruct (split_on slash (p +:+ "/")) eqn:E; [by apply split_on_nonempty in E|exact IH].
  - destruct (split_on slash (p +:+ "/")) as [|t [|t' ts]] eqn:E; [by apply split_on_nonempty in E| |exact IH].
    exfalso. assert (has_char slash (join "/" [t]) = true) as Hc.
    { rewrite <- E. change "/" with (String slash ""). rewrite join_split, has_char_app. by rewrite orb_true_r. }
    pose proof (split_on_char_free_tokens slash (p +:+ "/")) as Hf. rewrite E in Hf.
    apply Forall_cons in Hf as [Hf _]. cbn in Hc. congruence.
Qed.

Lemma free_char l : Forall free_segment l → Forall (λ t, has_char slash t = false) l.
Proof. intros Hl. eapply Forall_impl; [exact Hl|naive_solver]. Qed.

Lemma join_trailing l : Forall free_segment l → l ≠ [] → endsWith (join "/" l) "/" = false.
Proof.
  intros Hl Hne. destruct (endsWith (join "/" l) "/") eqn:E; [|done]. apply endsWith_iff in E as [p Hp].
  pose proof (split_trailing p) as Ht. rewrite <- Hp in Ht. change "/" with (String slash "") in Ht.
  rewrite split_join in Ht by (try done; by apply free_char).
  apply last_Some_elem_of in Ht. rewrite List.Forall_forall in Hl. by destruct (Hl "" ltac:(by apply list_elem_of_In)).
Qed.

Lemma join_empty l : Forall free_segment l → join "/" l = "" → l = [].
Proof.
  intros Hl Hj. destruct l as [|t ts]; [done|]. apply Forall_cons in Hl as [[Ht _] _].
  destruct ts; cbn in Hj; [done|]. by destruct t.
Qed.

(** A normalized relative path has the segments it shows. *)
Lemma normalize_segments_of p below :
  isAbsolute p = false → Forall free_segment below →
  normalize p = (if decide (below = []) then "./" else join "/" below) → normalizeString p true = below.
Proof.
  intros Ha Hb. unfold normalize. rewrite Ha. cbn [negb]. pose proof (normalizeString_free p) as Hf.
  set (l := normalizeString p true) in *. destruct (String.eqb_spec p "") as [->|Hp].
  { case_decide as Hd; [done|]. intros Hj. exfalso. assert (below = ["."]) as ->.
    { rewrite <- (split_join slash below) by (try done; by apply free_char).
      change (String slash "") with "/". by rewrite <- Hj. }
    apply Forall_cons in Hb as [(_ & Hb & _) _]. done. }
  destruct (String.eqb_spec (join "/" l) "") as [Hl|Hl].
  - apply join_empty in Hl as ->; [|done]. case_decide as Hd; [by intros _|].
    intros Hj. exfalso. destruct (endsWith p "/").
    + assert (endsWith (join "/" below) "/" = true) as He by by rewrite <- Hj. by rewrite join_trailing in He.
    + assert (below = ["."]) as ->.
      { rewrite <- (split_join slash below) by (try done; by apply free_char).
        change (String slash "") with "/". by rewrite <- Hj. }
      apply Forall_cons in Hb as [(_ & Hb & _) _]. done.
  - cbn [String.append]. assert (l ≠ []) as Hne by by intros ->. case_decide as Hd.
    + intros Hj. exfalso. destruct (endsWith p "/").
      * assert (join "/" l = ".") as Hdot by (by apply (sapp_inj_r _ _ "/")).
        assert (l = ["."]) as Hl'.
        { rewrite <- (split_join slash l) by (try done; by apply free_char).
          change (String slash "") with "/". by rewrite Hdot. }
        rewrite Hl' in Hf. apply Forall_cons in Hf as [(_ & Hf & _) _]. done.
      * rewrite sapp_nil_r in Hj. pose proof (join_trailing l Hf Hne) as He. by rewrite Hj in He.
    + intros Hj. destruct (endsWith p "/").
      * exfalso. assert (endsWith (join "/" below) "/" = true) as He by (apply endsWith_iff; eauto).
        by rewrite join_trailing in He.
      * rewrite sapp_nil_r in Hj. rewrite <- (split_join slash l), <- (split_join slash below)
          by (try done; by apply free_char). by change (String slash "") with "/"; rewrite Hj.
Qed.

Lemma isAbsolute_slash s : isAbsolute ("/" +:+ s) = true.
Proof. unfold isAbsolute. apply startsWith_iff. eauto. Qed.

(** A path that was resolved is its own resolution. *)
Lemma resolve_resolve paths : resolve_segments process_cwd [resolve process_cwd paths] = resolve_segments process_cwd paths.
Proof. exact (resolve_path_of process_cwd _ (resolve_segments_clean process_cwd paths)). Qed.

(** A relative path that stays below: it is appended to the segments of the base. *)
Lemma resolve_below base p :
  isAbsolute p = false → ¬ In ".." (normalizeString p true) →
  resolve_segments process_cwd [base; p] = resolve_segments process_cwd [base] ++ normalizeString p true.
Proof.
  intros Ha Hn. unfold resolve_segments. set (l := from_last_absolute process_cwd [base]).
  assert (from_last_absolute process_cwd [base; p] = l ++ [p]) as ->.
  { unfold l, from_last_absolute. cbn [fold_left]. by rewrite Ha. }
  rewrite map_app, concat_app. cbn [map concat]. rewrite app_nil_r. unfold normalizeString, normalize_segments in *.
  rewrite fold_left_app, <- reverse_app. f_equal. apply fold_push_above; [done|].
  intros Hin. apply Hn. by apply list_elem_of_In, elem_of_reverse, list_elem_of_In.
Qed.

Lemma clean_free l : Forall clean_segment l → Forall free_segment l.
Proof. intros Hl. eapply Forall_impl; [exact Hl|]. by intros s (H1 & H2 & _ & H3). Qed.

(** "./" in front of a clean relative path does not change it. *)
Lemma normalize_dot_slash below :
  Forall clean_segment below → normalize ("./" +:+ join "/" below) = if decide (below = []) then "./" else join "/" below.
Proof.
  intros Hb. assert (normalizeString ("./" +:+ join "/" below) true = below) as Hn.
  { unfold normalizeString, normalize_segments. change ("./" +:+ join "/" below) with (String "." ("/" +:+ join "/" below)).
    assert (split_on slash (String "." ("/" +:+ join "/" below)) =
      "." :: match below with [] => [""] | _ => below end) as ->.
    { cbn [split_on]. change (Ascii.eqb "." slash) with false. cbv iota.
      change ("/" +:+ join "/" below) with (path_of below). by rewrite split_slash_join. }
    cbn [fold_left]. change (push_segment true [] ".") with (@nil string).
    destruct below as [|t ts] eqn:Eb; [done|].
    assert (∀ l stack, Forall clean_segment l → fold_left (push_segment true) l stack = reverse l ++ stack) as Hf.
    { induction l as [|s l IH]; intros stack Hl; [done|]. apply Forall_cons in Hl as [(H1 & H2 & H3 & _) Hl].
      cbn [fold_left]. rewrite IH by done. rewrite reverse_cons, <- app_assoc. f_equal. unfold push_segment.
      destruct (String.eqb_spec s ""); [done|]. destruct (String.eqb_spec s "."); [done|].
      by destruct (String.eqb_spec s ".."). }
    rewrite Hf by done. by rewrite app_nil_r, reverse_involutive. }
  unfold normalize. change (isAbsolute ("./" +:+ join "/" below)) with false. cbn [negb].
  change (String.eqb ("./" +:+ join "/" below) "") with false. cbv iota. rewrite Hn.
  case_decide as Hd; [by subst|].
  destruct (String.eqb_spec (join "/" below) "") as [Hj|_]; [by apply join_empty in Hj; [|apply clean_free]|].
  assert (endsWith ("./" +:+ join "/" below) "/" = false) as ->; [|by rewrite sapp_nil_r].
  destruct (endsWith ("./" +:+ join "/" below) "/") eqn:E; [|done]. apply endsWith_iff in E as [p Hp].
  pose proof (join_trailing below (clean_free below Hb) Hd) as Ht.
  assert (endsWith (join "/" below) "/" = true) as He; [|congruence].
  apply endsWith_iff. destruct p as [|a [|b p]]; cbn in Hp.
  - by injection Hp as _ Hp.
  - injection Hp as _ Hp. by apply join_empty in Hp; [|apply clean_free].
  - injection Hp as _ _ Hp. by exists p.
Qed.

Lemma workspace_match_same_file ruleArgv0 absolute context :
  isRelativeHostExecArgv0 ruleArgv0 = true → workspace_match ruleArgv0 absolute context = Some true →
  resolve_segments process_cwd [absolute] = resolve_segments process_cwd [mc_workspaceRoot context; ruleArgv0].
Proof.
  unfold isRelativeHostExecArgv0. destruct (isAbsolute ruleArgv0) eqn:Ea; [done|]. intros _. unfold workspace_match.
  destruct (startsWith (relative _ _ _) "..") eqn:Es; [done|]. intros [= He].
  destruct (relative_down _ _ _ Es) as [Hd Hr]. rewrite Hr in He. apply String.eqb_eq in He.
  set (below := drop _ _) in *. assert (Forall clean_segment below) as Hc.
  { apply Forall_drop, resolve_segments_clean. }
  pose proof (normalize_dot_slash below Hc) as Hnd. cbn [String.append] in Hnd. rewrite Hnd in He.
  assert (normalizeString ruleArgv0 true = below) as Hn by (apply normalize_segments_of; [done|by apply clean_free|done]).
  rewrite resolve_below; [by rewrite Hn|done|]. rewrite Hn. intros Hin. rewrite List.Forall_forall in Hc.
  by destruct (Hc _ Hin) as (_ & _ & ? & _).
Qed.

(** A rule for a file of the workspace (a relative path) that matches a command
    which is not written as the rule is matches that very file: what the command names,
    resolved in its working directory, and the path of the rule, resolved in the
    workspace, are the same. *)
Theorem workspace_rule_same_file ruleArgv0 actualArgv0 context
    (Hrule : isRelativeHostExecArgv0 ruleArgv0 = true)
    (Hmatch : argv0MatchesRule ruleArgv0 actualArgv0 (Some context) = true)
    (Hspelled : isAbsolute actualArgv0 = true ∨ normalize ruleArgv0 ≠ normalize actualArgv0) :
  resolve process_cwd [mc_cwd context; actualArgv0] = resolve process_cwd [mc_workspaceRoot context; ruleArgv0].
Proof.
  unfold resolve. do 2 f_equal. unfold argv0MatchesRule in Hmatch. rewrite Hrule in Hmatch.
  destruct (isAbsolute actualArgv0) eqn:Ea.
  - assert (isRelativeHostExecArgv0 actualArgv0 = false) as Hr by (unfold isRelativeHostExecArgv0; by rewrite Ea).
    rewrite Hr in Hmatch. destruct (workspace_match _ _ _) as [[]|] eqn:Em; try done.
    rewrite <- (workspace_match_same_file _ _ _ Hrule Em).
    unfold resolve_segments, from_last_absolute. cbn [fold_left]. by rewrite Ea.
  - destruct Hspelled as [?|Hne]; [done|]. destruct (isRelativeHostExecArgv0 actualArgv0); [|done].
    rewrite (proj2 (String.eqb_neq _ _) Hne) in Hmatch.
    destruct (workspace_match _ _ _) as [[]|] eqn:Em; try done.
    rewrite <- (workspace_match_same_file _ _ _ Hrule Em). symmetry. apply resolve_resolve.
Qed.

(** *** Directories *)

Lemma isWithin_below target root :
  isWithin target root = true ↔
  ∃ below, resolve_segments process_cwd [target] = resolve_segments process_cwd [root] ++ below ∧
    startsWith (join "/" below) ".." = false.
Proof.
  unfold isWithin. cbv zeta. split.
  - intros Hw. assert (startsWith (relative process_cwd root target) ".." = false) as Hs.
    { destruct (String.eqb_spec (relative process_cwd root target) "") as [->|]; [done|].
      cbn [orb] in Hw. apply andb_true_iff in Hw as [Hw _]. by apply negb_true_iff in Hw. }
    destruct (relative_down _ _ _ Hs) as [Hd Hr]. eexists. split; [exact Hd|]. by rewrite <- Hr.
  - intros (below & Hd & Hs). rewrite (relative_below _ _ _ _ Hd), Hs.
    destruct (String.eqb_spec (join "/" below) ""); [done|]. cbn [negb andb orb].
    pose proof (resolve_segments_clean process_cwd [target]) as Hc. rewrite Hd in Hc. apply Forall_app in Hc as [_ Hc].
    destruct below as [|t ts]; [done|]. apply Forall_cons in Hc as [(H1 & _ & _ & Hf) _].
    unfold isAbsolute. destruct t as [|a t]; [done|]. cbn in Hf. apply orb_false_iff in Hf as [Ha _].
    assert (∀ s, startsWith (String a s) "/" = false) as Hst.
    { intros s. destruct (startsWith (String a s) "/") eqn:E; [|done]. apply startsWith_iff in E as [r Hr].
      injection Hr as -> _. by rewrite Ascii.eqb_refl in Ha. }
    destruct ts; cbn [join String.append]; by rewrite Hst.
Qed.

Lemma first_segment_up s l : clean_segment s → startsWith (join "/" (s :: l)) ".." = startsWith s "..".
Proof.
  intros (Hs & _). destruct l as [|t l]; [done|]. rewrite join_cons by done.
  apply Bool.eq_iff_eq_true. rewrite !startsWith_iff. destruct s as [|a [|b s]]; [congruence|by split; intros [r [=]]|].
  split; intros [r Hr]; cbn in Hr; injection Hr as -> ->; eexists; reflexivity.
Qed.

(** The first name below a directory begins with two dots. *)
Definition dotted (below : list string) : Prop := ∃ name rest, below = name :: rest ∧ startsWith name ".." = true.

Lemma dotted_up below : Forall clean_segment below → startsWith (join "/" below) ".." = true ↔ dotted below.
Proof.
  destruct below as [|name rest]; intros Hc.
  - split; [done|]. by intros (? & ? & ? & _).
  - apply Forall_cons in Hc as [Hname _]. rewrite first_segment_up by done. split; [by exists name, rest|].
    intros (? & ? & E & Hs). by injection E as <- <-.
Qed.

(** The containment test is containment by segments, but for names with two dots. *)
Lemma isWithin_segments target root :
  isWithin target root = true ↔
  ∃ below, resolve_segments process_cwd [target] = resolve_segments process_cwd [root] ++ below ∧ ¬ dotted below.
Proof.
  rewrite isWithin_below. pose proof (resolve_segments_clean process_cwd [target]) as Hc.
  split; intros (below & E & Hb); exists below; (split; [done|]); rewrite E in Hc; apply Forall_app in Hc as [_ Hc];
    [rewrite <- dotted_up, Hb by done; done|]. apply not_true_iff_false. by rewrite dotted_up.
Qed.
End Names.

(** ** The inherited environment *)

Section Inherit.
Context `{HostRuntime}.

Lemma copy_env_get hostEnv keys key : ∀ env,
  map_get (fold_left (copy_env hostEnv) keys env) key =
  if includes keys key && map_has hostEnv key then map_get hostEnv key else map_get env key.
Proof.
  induction keys as [|k keys IH]; intros env; cbn [fold_left]; [done|]. rewrite IH. unfold copy_env, map_has.
  cbn [includes existsb]. change (existsb (λ y, bool_decide (key = y)) keys) with (includes keys key).
  case_bool_decide as Hk; cbn [orb andb].
  - subst k. destruct (map_get hostEnv key) as [v|] eqn:Ek; cbn; [|by rewrite andb_false_r].
    rewrite andb_true_r. destruct (includes keys key); [done|]. by rewrite map_get_set_eq.
  - destruct (includes keys key && _); [done|]. destruct (map_get hostEnv k); [|done]. by rewrite map_get_set_ne.
Qed.

(** Variables that a blanket copy leaves out. *)
Definition kept_back (key value : string) : bool := isNasOwnedEnvKey key || isProxyCredentialEnv key value.

Lemma copy_all_get hostEnv key : ∀ env,
  List.NoDup (map_keys hostEnv) →
  map_get (fold_left (λ env '(key, value),
    if isNasOwnedEnvKey key then env else if isProxyCredentialEnv key value then env
    else map_set env key value) hostEnv env) key =
  match map_get hostEnv key with
  | Some value => if kept_back key value then map_get env key else Some value
  | None => map_get env key
  end.
Proof.
  unfold kept_back. induction hostEnv as [|[k v] hostEnv IH]; intros env Hnd; cbn [fold_left]; [done|].
  cbn in Hnd. inversion_clear Hnd as [|? ? Hk Hnd']. rewrite IH by done. cbn [map_get].
  destruct (decide (key = k)) as [->|Hne].
  - rewrite (proj2 (map_get_None hostEnv k)) by exact Hk.
    destruct (isNasOwnedEnvKey k); [done|]. destruct (isProxyCredentialEnv k v); [done|]. apply map_get_set_eq.
  - assert (map_get (if isNasOwnedEnvKey k then env else if isProxyCredentialEnv k v then env
      else map_set env k v) key = map_get env key) as ->; [|done].
    destruct (isNasOwnedEnvKey k); [done|]. destruct (isProxyCredentialEnv k v); [done|].
    by rewrite map_get_set_ne.
Qed.

(** What a rule inherits of one variable. *)
Definition inherited (inheritEnv : HostExecInheritEnvConfig) (hostEnv : list (string * string)) (key : string) :
    option string :=
  if includes (ie_keys inheritEnv) key && map_has hostEnv key then map_get hostEnv key
  else match ie_mode inheritEnv with
       | InheritAll => value ← map_get hostEnv key; if kept_back key value then None else Some value
       | InheritMinimal =>
           if String.eqb key "PATH" then Some (default DEFAULT_PATH (map_get hostEnv "PATH"))
           else if includes MINIMAL_ENV_KEYS key then map_get hostEnv key else None
       end.

(** The environment a rule inherits has, for every name, exactly this: the
    variable of the host when the rule names it; else, in the minimal mode, the six
    basic variables, with a default PATH; else every variable but those of nas itself
    and the proxy variables with credentials.  So no token of nas and no password of a
    proxy gets into a command unless its rule names the variable. *)
Theorem inherited_env_exact inheritEnv hostEnv key (Hnd : List.NoDup (map_keys hostEnv)) :
  map_get (buildInheritedEnv inheritEnv hostEnv) key = inherited inheritEnv hostEnv key.
Proof.
  unfold buildInheritedEnv, inherited. rewrite copy_env_get. destruct (_ && map_has hostEnv key); [done|].
  destruct (ie_mode inheritEnv).
  - rewrite map_get_set, !copy_env_get. destruct (String.eqb_spec key "PATH") as [->|Hne].
    + rewrite decide_True by done. unfold map_has. by destruct (map_get hostEnv "PATH").
    + rewrite decide_False by congruence. unfold map_has. destruct (includes MINIMAL_ENV_KEYS key); [|done].
      by destruct (map_get hostEnv key).
  - rewrite copy_all_get by done. destruct (map_get hostEnv key) as [v|]; cbn; [|done]. by destruct (kept_back key v).
Qed.
End Inherit.

(** A runtime for the samples. *)
Definition plain_runtime : HostRuntime := {|
  regex_test := λ pattern text, Some (startsWith text pattern);
  locale_leb := λ a b, String.leb a b;
  url_credentials := λ url, Some (str_includes url "@");
  sha256_hex := λ text, text;
  process_cwd := "/work";
  process_env := []; home_dir := "/home/u" |}.

Lemma inherited_env_exact_witness :
  map_get (buildInheritedEnv (H := plain_runtime) {| ie_mode := InheritAll; ie_keys := ["NAS_SESSION_ID"] |}
    [("NAS_SESSION_ID", "s"); ("NAS_UPSTREAM_PROXY", "t"); ("http_proxy", "u:p@h"); ("A", "1")]) "http_proxy" = None
  ∧ map_get (buildInheritedEnv (H := plain_runtime) {| ie_mode := InheritAll; ie_keys := ["NAS_SESSION_ID"] |}
    [("NAS_SESSION_ID", "s"); ("NAS_UPSTREAM_PROXY", "t"); ("http_proxy", "u:p@h"); ("A", "1")]) "NAS_SESSION_ID"
    = Some "s".
Proof.
  split.
  - rewrite (inherited_env_exact (H := plain_runtime)); [vm_compute; reflexivity|].
    cbn. repeat constructor; cbn; naive_solver.
  - vm_compute. reflexivity.
Defined.

Lemma workspace_rule_same_file_witness :
  resolve "/work" ["/work/src"; "../tools/x"] = resolve "/work" ["/work"; "./tools/x"].
Proof.
  apply (workspace_rule_same_file (H := plain_runtime) "./tools/x" "../tools/x"
    {| mc_cwd := "/work/src"; mc_workspaceRoot := "/work" |}).
  - vm_compute. reflexivity.
  - vm_compute. reflexivity.
  - right. vm_compute. discriminate.
Defined.
