(* ===== verification/HostKeys.v ===== *)
(** * Approval keys of host commands

    The canonical JSON text of a capability determines the capability, whatever the
    collation the members are sorted by, so an approval that is remembered by its key
    covers the one command it was given for. *)
From S2P Require Import Prelude JsString Json Broker BrokerKeys NodePath HostMatch HostMatchLaws.

(** ** JSON texts of strings, arrays and objects *)

Fixpoint textual (v : JsonValue) : bool :=
  match v with
  | JScalar (ScString _) => true
  | JArray l => forallb textual l
  | JObject m => forallb (λ e, textual e.2) m
  | _ => false
  end.

Definition closing (c : ascii) : bool := Ascii.eqb c "]" || Ascii.eqb c "}".

(** A separated list of self-delimiting texts, closed by a character none begins with. *)
Section Separated.
Context {A : Type} (f : A → string) (P : A → Prop) (c : ascii).
Context (Hc : c ≠ ","%char) (Hfirst : ∀ a x y, P a → f a +:+ x ≠ String c y).

Definition delimits (a : A) : Prop := ∀ b x y, P b → f a +:+ x = f b +:+ y → a = b ∧ x = y.

Lemma join_step (t : string) ts x :
  join "," (t :: ts) +:+ x = t +:+ match ts with [] => x | _ => String "," (join "," ts +:+ x) end.
Proof. destruct ts; cbn [join]; [done|]. by rewrite !sapp_assoc. Qed.

Lemma separated_inj l : ∀ l' x y,
  Forall delimits l → Forall P l → Forall P l' →
  join "," (map f l) +:+ String c x = join "," (map f l') +:+ String c y → l = l' ∧ x = y.
Proof.
  induction l as [|a l IH]; intros [|b l'] x y Hd Hp Hp' Heq.
  - by injection Heq as ->.
  - cbn [map] in Heq. rewrite join_step in Heq. symmetry in Heq. apply Forall_cons in Hp' as [Hb _].
    by apply Hfirst in Heq.
  - cbn [map] in Heq. rewrite join_step in Heq. apply Forall_cons in Hp as [Ha _]. by apply Hfirst in Heq.
  - cbn [map] in Heq. rewrite !join_step in Heq.
    apply Forall_cons in Hd as [Hd Hds], Hp as [Ha Hp], Hp' as [Hb Hp'].
    apply Hd in Heq as [-> Heq]; [|done].
    destruct l as [|a2 l], l' as [|b2 l']; cbn [map] in Heq.
    + by injection Heq as ->.
    + injection Heq as Hx _. done.
    + injection Heq as Hx _. by symmetry in Hx.
    + injection Heq as Heq. apply (IH (b2 :: l')) in Heq as [-> ->]; done.
Qed.
End Separated.

Lemma stringify_first v x y c :
  textual v = true → stringify v +:+ x = String c y →
  c = ascii_of_nat 34 ∨ c = "["%char ∨ c = "{"%char.
Proof. destruct v as [|[s| |]|l|m]; cbn; try done; intros _ [= <- _]; auto. Qed.

Lemma stringify_string_delimits s s' x y :
  stringify_string s +:+ x = stringify_string s' +:+ y → s = s' ∧ x = y.
Proof.
  unfold stringify_string. rewrite !sapp_assoc. intros Heq. apply sapp_inj_l in Heq. by apply escape_string_inj.
Qed.

Lemma stringify_delimits v : textual v = true → delimits stringify (λ v, textual v = true) v.
Proof.
  induction v as [|s|l IH|m IH] using JsonValue_rect'; intros Hv v' x y Hv' Heq; [done| | |].
  - destruct s as [s| |]; try done. destruct v' as [|[s'| |]|l'|m']; try done.
    apply stringify_string_delimits in Heq as [-> ->]. done.
  - destruct v' as [|[s'| |]|l'|m']; try done. cbn [stringify] in Heq. cbn [textual] in Hv, Hv'.
    rewrite forallb_forall in Hv, Hv'. rewrite !sapp_assoc in Heq. apply sapp_inj_l in Heq.
    apply (separated_inj stringify (λ v, textual v = true)) in Heq as [-> ->]; [done|done| | | |].
    + intros a x' y' Ha Hf. apply stringify_first in Hf; [naive_solver|done].
    + apply List.Forall_forall. intros a Ha. rewrite List.Forall_forall in IH. by apply IH, Hv.
    + by apply List.Forall_forall.
    + by apply List.Forall_forall.
  - destruct v' as [|[s'| |]|l'|m']; try done. cbn [stringify] in Heq. cbn [textual] in Hv, Hv'.
    rewrite forallb_forall in Hv, Hv'. rewrite !sapp_assoc in Heq. apply sapp_inj_l in Heq.
    apply (separated_inj (λ e, stringify_string e.1 +:+ ":" +:+ stringify e.2) (λ e, textual e.2 = true))
      in Heq as [-> ->]; [done|done| | | |].
    + intros a x' y' _ Hf. by injection Hf.
    + apply List.Forall_forall. intros [k v] Ha [k' v'] x' y' Hb Hkv. cbn [fst snd] in Hb, Hkv. rewrite !sapp_assoc in Hkv.
      apply stringify_string_delimits in Hkv as [-> Hkv]. apply sapp_inj_l in Hkv.
      rewrite List.Forall_forall in IH. apply (IH _ Ha) in Hkv as [Hv2 ->]; [|by apply (Hv _ Ha)|done].
      cbn in Hv2. by subst.
    + by apply List.Forall_forall.
    + by apply List.Forall_forall.
Qed.

(** ** Sorting by keys *)

Lemma insert_by_perm {A} (leb : A → A → bool) x l : insert_by leb x l ≡ₚ x :: l.
Proof.
  induction l as [|y l IH]; cbn; [done|]. destruct (leb x y); [done|]. rewrite IH. apply perm_swap.
Qed.

Lemma sort_by_perm {A} (leb : A → A → bool) l : sort_by leb l ≡ₚ l.
Proof.
  unfold sort_by. induction l as [|x l IH]; cbn; [done|]. by rewrite insert_by_perm, IH.
Qed.

Section Canonical.
Context `{HostRuntime}.

Abbreviation members m := (map (λ '(key, nested), (key, sortJsonValue nested)) m).

Lemma members_get (m : list (string * JsonValue)) k :
  map_get (members m) k = sortJsonValue <$> map_get m k.
Proof. induction m as [|[k' v] m IH]; cbn; [done|]. by case_decide. Qed.

Lemma members_keys (m : list (string * JsonValue)) : map_keys (members m) = map_keys m.
Proof. induction m as [|[k v] m IH]; cbn; [done|]. by f_equal. Qed.

Abbreviation sorted m := (sort_by (λ a b : string * JsonValue, locale_leb a.1 b.1) (members m)).

Lemma sorted_NoDup m : List.NoDup (map_keys m) → List.NoDup (map_keys (sorted m)).
Proof.
  intros Hnd. rewrite <- members_keys in Hnd. eapply Permutation_NoDup; [|exact Hnd].
  apply Permutation_map. symmetry. apply sort_by_perm.
Qed.

Lemma sorted_get m k : List.NoDup (map_keys m) → map_get (sorted m) k = sortJsonValue <$> map_get m k.
Proof.
  intros Hnd. rewrite <- members_get. apply map_get_perm; [apply sort_by_perm|by apply sorted_NoDup].
Qed.

(** Two objects with distinct keys and the same sorted form have the same members. *)
Lemma sorted_members m m' k :
  List.NoDup (map_keys m) → List.NoDup (map_keys m') → sortJsonValue (JObject m) = sortJsonValue (JObject m') →
  sortJsonValue <$> map_get m k = sortJsonValue <$> map_get m' k.
Proof.
  intros Hnd Hnd' [= Heq]. by rewrite <- !sorted_get, Heq.
Qed.

Lemma sort_textual v : textual v = true → textual (sortJsonValue v) = true.
Proof.
  induction v as [|s|l IH|m IH] using JsonValue_rect'; cbn; try done.
  - rewrite !forallb_forall. intros Hv x Hx. apply in_map_iff in Hx as (v & <- & Hin).
    rewrite List.Forall_forall in IH. by apply IH, Hv.
  - rewrite !forallb_forall. intros Hv x Hx%list_elem_of_In. rewrite sort_by_perm in Hx.
    apply list_elem_of_In, in_map_iff in Hx as ([k v] & <- & Hin). rewrite List.Forall_forall in IH.
    by apply (IH _ Hin), (Hv _ Hin).
Qed.

Lemma canonicalJson_inj v v' :
  textual v = true → textual v' = true → canonicalJson v = canonicalJson v' → sortJsonValue v = sortJsonValue v'.
Proof.
  unfold canonicalJson. intros Hv Hv' Heq.
  destruct (stringify_delimits (sortJsonValue v) (sort_textual v Hv) (sortJsonValue v') "" "") as [-> _]; [by apply sort_textual| |done].
  by rewrite Heq.
Qed.

Lemma texts_inj l l' : sortJsonValue (JArray (map text l)) = sortJsonValue (JArray (map text l')) → l = l'.
Proof.
  cbn. intros [= Heq]. revert l' Heq. induction l as [|s l IH]; intros [|s' l'] Heq; cbn in Heq; try done.
  injection Heq as -> Heq. f_equal. by apply IH.
Qed.

Abbreviation binding := (λ '(key, source), JObject [("key", text key); ("source", text source)]).

Lemma binding_inj b b' : sortJsonValue (binding b) = sortJsonValue (binding b') → b = b'.
Proof.
  destruct b as [k s], b' as [k' s']. intros Heq.
  assert (∀ name, sortJsonValue <$> map_get [("key", text k); ("source", text s)] name =
    sortJsonValue <$> map_get [("key", text k'); ("source", text s')] name) as Hm.
  { intros name. apply sorted_members; [..|exact Heq]; cbn; repeat constructor; cbn; naive_solver. }
  pose proof (Hm "key") as H1. pose proof (Hm "source") as H2. vm_compute in H1, H2. congruence.
Qed.

Lemma bindings_inj l l' :
  sortJsonValue (JArray (map binding l)) = sortJsonValue (JArray (map binding l')) → l = l'.
Proof.
  intros Heq. assert (map sortJsonValue (map binding l) = map sortJsonValue (map binding l')) as Hl by by injection Heq.
  clear Heq. revert l' Hl. induction l as [|b l IH]; intros [|b' l'] Heq; cbn [map] in Heq; try done.
  assert (sortJsonValue (binding b) = sortJsonValue (binding b')) as Hb by congruence.
  f_equal; [by apply binding_inj|]. apply IH. congruence.
Qed.

(** The canonical text of a capability determines it. *)
Lemma capability_json_textual c : textual (capability_json c) = true.
Proof.
  assert (∀ l, forallb textual (map text l) = true) as Ht.
  { intros l. by induction l. }
  cbn. rewrite !Ht. cbn. rewrite !andb_true_r. apply forallb_forall. intros x Hx.
  by apply in_map_iff in Hx as ([k s] & <- & _).
Qed.

Lemma capability_keys c : ∃ m, capability_json c = JObject m ∧ List.NoDup (map_keys m).
Proof. eexists. split; [reflexivity|]. cbn. repeat constructor; cbn; naive_solver. Qed.

Lemma canonical_capability c c' :
  canonicalJson (capability_json c) = canonicalJson (capability_json c') → c = c'.
Proof.
  intros Heq. apply canonicalJson_inj in Heq; [|apply capability_json_textual..].
  unfold capability_json in Heq. set (m := [("ruleId", text (rc_ruleId c)); _; _; _; _; _]) in Heq.
  set (m' := [("ruleId", text (rc_ruleId c')); _; _; _; _; _]) in Heq.
  assert (∀ name, sortJsonValue <$> map_get m name = sortJsonValue <$> map_get m' name) as Hm.
  { intros name. apply sorted_members; [..|exact Heq]; cbn; repeat constructor; cbn; naive_solver. }
  assert (∀ (name : string) v v', map_get m name = Some v → map_get m' name = Some v' →
    sortJsonValue v = sortJsonValue v') as Hfield.
  { intros name v v' Hv Hv'. specialize (Hm name). rewrite Hv, Hv' in Hm. by injection Hm. }
  clear Hm Heq. destruct c as [rid a0 argv cwd binds [mode keys]], c' as [rid' a0' argv' cwd' binds' [mode' keys']].
  cbn [rc_ruleId rc_argv0 rc_normalizedArgv rc_normalizedCwd rc_envBindings rc_inheritEnv ie_mode ie_keys] in m, m'.
  assert (rid = rid') as -> by (pose proof (Hfield "ruleId" _ _ eq_refl eq_refl) as Hf; by injection Hf).
  assert (a0 = a0') as -> by (pose proof (Hfield "argv0" _ _ eq_refl eq_refl) as Hf; by injection Hf).
  assert (cwd = cwd') as -> by (pose proof (Hfield "normalizedCwd" _ _ eq_refl eq_refl) as Hf; by injection Hf).
  assert (argv = argv') as -> by apply texts_inj, (Hfield "normalizedArgv" _ _ eq_refl eq_refl).
  assert (binds = binds') as -> by apply bindings_inj, (Hfield "envBindings" _ _ eq_refl eq_refl).
  pose proof (Hfield "inheritEnv" _ _ eq_refl eq_refl) as Hi. clear Hfield m m'.
  assert (∀ name v v', map_get [("mode", text (ie_mode_string mode)); ("keys", JArray (map text keys))] name = Some v →
    map_get [("mode", text (ie_mode_string mode')); ("keys", JArray (map text keys'))] name = Some v' →
    sortJsonValue v = sortJsonValue v') as Hfield.
  { intros name v v' Hv Hv'. enough (sortJsonValue <$> Some v = sortJsonValue <$> Some v') as He by by injection He.
    rewrite <- Hv, <- Hv'. apply sorted_members; [..|exact Hi]; cbn; repeat constructor; cbn; naive_solver. }
  assert (keys = keys') as -> by apply texts_inj, (Hfield "keys" _ _ eq_refl eq_refl).
  pose proof (Hfield "mode" _ _ eq_refl eq_refl) as Hf. by destruct mode, mode'.
Qed.

(** Two requests with one approval key are requests for one capability: the same
    rule, command and arguments, working directory, secrets and inherited environment,
    provided that the hash does not map the two texts to one digest.  So an approval
    remembered by its key is never used for anything but what the person was shown. *)
Theorem approval_key_capability c c'
    (Hkey : buildApprovalKey c = buildApprovalKey c')
    (Hhash : sha256_hex (canonicalJson (capability_json c)) = sha256_hex (canonicalJson (capability_json c')) →
      canonicalJson (capability_json c) = canonicalJson (capability_json c')) :
  c = c'.
Proof. by apply canonical_capability, Hhash. Qed.
End Canonical.

Definition sample_capability : ResolvedExecutionCapability := {|
  rc_ruleId := "git"; rc_argv0 := "git"; rc_normalizedArgv := ["git"; "push"]; rc_normalizedCwd := "/work";
  rc_envBindings := [("TOKEN", "secret:github")]%string;
  rc_inheritEnv := {| ie_mode := InheritMinimal; ie_keys := ["A"] |} |}.

Lemma approval_key_capability_witness :
  sample_capability = sample_capability ∧
  buildApprovalKey (H := plain_runtime) sample_capability ≠
  buildApprovalKey (H := plain_runtime)
    {| rc_ruleId := "git"; rc_argv0 := "git"; rc_normalizedArgv := ["git"; "push -f"]; rc_normalizedCwd := "/work";
       rc_envBindings := [("TOKEN", "secret:github")]%string;
       rc_inheritEnv := {| ie_mode := InheritMinimal; ie_keys := ["A"] |} |}.
Proof.
  split.
  - apply (approval_key_capability (H := plain_runtime) sample_capability sample_capability); [reflexivity|done].
  - vm_compute. discriminate.
Defined.
