(* ===== verification/ContainerPlan.v ===== *)
(** * The plan of a container (pipeline/state.ts, container_plan.ts, env_ops.ts)

    What every stage of the launch contributes to: the image, the mounts, the
    environment, the network and the command of the agent's container.  A stage
    returns a patch, [mergeContainerPlan] adds it.  Variables that extend a value the
    container only knows at its start travel as commands of a shell,
    [encodeDynamicEnvOps], which the entrypoint evaluates. *)
From S2P Require Import Prelude JsString Json.

(** ** state.ts *)

Record MountSpec : Type := { ms_source : string; ms_target : string; ms_readOnly : bool }.
#[export] Instance MountSpec_eq_dec : EqDecision MountSpec.
Proof. solve_decision. Defined.

Record NamedVolumeMount : Type := { nv_name : string; nv_target : string; nv_readOnly : bool }.

Inductive EnvOpMode : Type := OpPrefix | OpSuffix.
#[export] Instance EnvOpMode_eq_dec : EqDecision EnvOpMode.
Proof. solve_decision. Defined.

Record DynamicEnvOp : Type := { eo_mode : EnvOpMode; eo_key : string; eo_value : string; eo_separator : string }.

Record EnvPlan : Type := { ep_static : list (string * string); ep_dynamicOps : list DynamicEnvOp }.

Inductive NetworkAttachment : Type :=
  | NetNetwork (name : string) (alias : option string)
  | NetContainer (containerName : string).

Record ExtraHost : Type := { eh_host : string; eh_ip : string }.

Record CommandSpec : Type := { cs_agentCommand : list string; cs_extraArgs : list string }.

Record ContainerPlan : Type := {
  cp_image : string;
  cp_workDir : string;
  cp_mounts : list MountSpec;
  cp_namedVolumes : list NamedVolumeMount;
  cp_env : EnvPlan;
  cp_network : option NetworkAttachment;
  cp_extraHosts : list ExtraHost;
  cp_shmSize : option string;
  cp_seccompProfile : option string;
  cp_apparmorProfile : option string;
  cp_extraRunArgs : list string;
  cp_command : CommandSpec;
  cp_labels : list (string * string);
}.

(** ** container_plan.ts *)

(** [pa_envStatic] and [pa_dynamicOps] are the two members of its `env`. *)
Record ContainerPatch : Type := {
  pa_image : option string;
  pa_workDir : option string;
  pa_mounts : option (list MountSpec);
  pa_namedVolumes : option (list NamedVolumeMount);
  pa_envStatic : option (list (string * string));
  pa_dynamicOps : option (list DynamicEnvOp);
  pa_network : option NetworkAttachment;
  pa_extraHosts : option (list ExtraHost);
  pa_shmSize : option string;
  pa_seccompProfile : option string;
  pa_apparmorProfile : option string;
  pa_extraRunArgs : option (list string);
  pa_command : option CommandSpec;
  pa_labels : option (list (string * string));
}.

Definition emptyContainerPlan (image workDir : string) : ContainerPlan := {|
  cp_image := image; cp_workDir := workDir; cp_mounts := []; cp_namedVolumes := [];
  cp_env := {| ep_static := []; ep_dynamicOps := [] |}; cp_network := None; cp_extraHosts := [];
  cp_shmSize := None; cp_seccompProfile := None; cp_apparmorProfile := None; cp_extraRunArgs := [];
  cp_command := {| cs_agentCommand := []; cs_extraArgs := [] |}; cp_labels := [] |}.

(** The three ways a member of the patch meets the one of the base. *)
Definition replaced {A} (base : A) (patch : option A) : A := default base patch.
Definition optional {A} (base patch : option A) : option A := match patch with Some v => Some v | None => base end.
Definition appended {A} (base : list A) (patch : option (list A)) : list A := base ++ default [] patch.
Definition keyed (base : list (string * string)) (patch : option (list (string * string))) : list (string * string) :=
  map_set_all base (default [] patch).

Definition mergeContainerPlan (base : ContainerPlan) (patch : ContainerPatch) : ContainerPlan := {|
  cp_image := replaced (cp_image base) (pa_image patch);
  cp_workDir := replaced (cp_workDir base) (pa_workDir patch);
  cp_mounts := appended (cp_mounts base) (pa_mounts patch);
  cp_namedVolumes := appended (cp_namedVolumes base) (pa_namedVolumes patch);
  cp_env := {| ep_static := keyed (ep_static (cp_env base)) (pa_envStatic patch);
               ep_dynamicOps := appended (ep_dynamicOps (cp_env base)) (pa_dynamicOps patch) |};
  cp_network := optional (cp_network base) (pa_network patch);
  cp_extraHosts := appended (cp_extraHosts base) (pa_extraHosts patch);
  cp_shmSize := optional (cp_shmSize base) (pa_shmSize patch);
  cp_seccompProfile := optional (cp_seccompProfile base) (pa_seccompProfile patch);
  cp_apparmorProfile := optional (cp_apparmorProfile base) (pa_apparmorProfile patch);
  cp_extraRunArgs := appended (cp_extraRunArgs base) (pa_extraRunArgs patch);
  cp_command := replaced (cp_command base) (pa_command patch);
  cp_labels := keyed (cp_labels base) (pa_labels patch) |}.

(** A patch that says nothing. *)
Definition no_patch : ContainerPatch := {|
  pa_image := None; pa_workDir := None; pa_mounts := None; pa_namedVolumes := None; pa_envStatic := None;
  pa_dynamicOps := None; pa_network := None; pa_extraHosts := None; pa_shmSize := None; pa_seccompProfile := None;
  pa_apparmorProfile := None; pa_extraRunArgs := None; pa_command := None; pa_labels := None |}.

(** ** env_ops.ts *)

Definition is_word (c : ascii) : bool := is_alpha c || is_digit c || Ascii.eqb c "_".

(** `/^[A-Za-z_][A-Za-z0-9_]*$/` *)
Definition ENV_KEY_RE (s : string) : bool :=
  match s with
  | EmptyString => false
  | String c rest => (is_alpha c || Ascii.eqb c "_") && string_all is_word rest
  end.

Definition quote : ascii := "'".

(** `s.replace(/'/g, "'\\''")` *)
Fixpoint escape_quotes (s : string) : string :=
  match s with
  | EmptyString => ""
  | String c rest => if Ascii.eqb c quote then "'\''" +:+ escape_quotes rest else String c (escape_quotes rest)
  end.

Definition shellQuote (s : string) : string := "'" +:+ escape_quotes s +:+ "'".

Definition op_function (mode : EnvOpMode) : string :=
  match mode with OpPrefix => "__nas_pfx" | OpSuffix => "__nas_sfx" end.

Definition encode_op (op : DynamicEnvOp) : Result string :=
  if negb (ENV_KEY_RE (eo_key op)) then
    Err ("[nas] encodeDynamicEnvOps: invalid env var key: " +:+ stringify (JScalar (ScString (eo_key op))))
  else
    Ok (op_function (eo_mode op) +:+ " " +:+ shellQuote (eo_key op) +:+ " " +:+ shellQuote (eo_value op) +:+ " " +:+
        shellQuote (eo_separator op)).

Definition encodeDynamicEnvOps (ops : list DynamicEnvOp) : Result string :=
  lines ← fold_right (λ op rest, line ← encode_op op; lines ← rest; Ok (line :: lines)) (Ok []) ops;
  Ok (join (String "010" "") lines).

(** ** The shell that evaluates them (docker/embed/entrypoint.sh) *)

(** `__nas_pfx` and `__nas_sfx`: the variable is extended, or set when it is unset. *)
Definition apply_op (env : list (string * string)) (op : DynamicEnvOp) : list (string * string) :=
  map_set env (eo_key op)
    match map_get env (eo_key op), eo_mode op with
    | Some old, OpPrefix => eo_value op +:+ eo_separator op +:+ old
    | Some old, OpSuffix => old +:+ eo_separator op +:+ eo_value op
    | None, _ => eo_value op
    end.
