(* ===== verification/Agents.v ===== *)
(** * Agents in the container (agents/)

    What each agent needs of the host: its state directory, its settings, its binary,
    and, when its credentials are injected by the proxy, a dummy file in the place of
    the real credentials.  [provisionAgent] makes an agent usable, [configureAgent]
    adds the command that starts it.  Both extend the `docker run` arguments and the
    variables they are given. *)
From S2P Require Import Prelude JsString Json NodePath ContainerPlan.

(** ** types.ts *)

Inductive AgentType : Type := AgentClaude | AgentCopilot | AgentCodex.
#[export] Instance AgentType_eq_dec : EqDecision AgentType.
Proof. solve_decision. Defined.

Inductive AgentMode : Type := ModeTerminal | ModeAcp.
#[export] Instance AgentMode_eq_dec : EqDecision AgentMode.
Proof. solve_decision. Defined.

Record ClaudeStatePaths : Type := { cl_claudeDir : string; cl_claudeJson : string }.

Record ProtectedEntry : Type := { pe_source : string; pe_name : string; pe_readOnly : bool }.

Record ProtectedClaudeState : Type := {
  ps_rootDir : string;
  ps_runtimeDir : string;
  ps_claudeJson : string;
  ps_entries : list ProtectedEntry;
}.

Record ClaudeProbes : Type := {
  claudeDirExists : bool;
  claudeJsonExists : bool;
  claudeBinPath : option string;
  claudeSettingsFiles : list string;
}.

Record CopilotProbes : Type := {
  copilotBinPath : option string;
  copilotLegacyDirExists : bool;
  copilotSettingsFiles : list string;
}.

Record CodexProbes : Type := {
  codexDirExists : bool;
  codexBinPath : option string;
  codexCodeModeHostBinPath : option string;
  codexSettingsFiles : list string;
}.

Inductive AgentProbes : Type :=
  | ProbesClaude (p : ClaudeProbes)
  | ProbesCopilot (p : CopilotProbes)
  | ProbesCodex (p : CodexProbes).

Record AgentProvisionResult : Type := {
  ar_mounts : list MountSpec;
  ar_dockerArgs : list string;
  ar_envVars : list (string * string);
}.

Record AgentConfigResult : Type := {
  ac_provisioned : AgentProvisionResult;
  ac_agentCommand : list string;
}.

(** `AgentProvisionInput` and, with [ai_mode], `AgentConfigInput`; [ai_codexDir] is the
    only member of `CodexStatePaths`. *)
Record AgentInput : Type := {
  ai_protectedClaudeState : option ProtectedClaudeState;
  ai_agent : AgentType;
  ai_containerHome : string;
  ai_hostHome : string;
  ai_probes : AgentProbes;
  ai_protectSettings : bool;
  ai_priorDockerArgs : list string;
  ai_priorEnvVars : list (string * string);
  ai_claudeCredentialsFile : option string;
  ai_codexAuthFile : option string;
  ai_claudeState : option ClaudeStatePaths;
  ai_codexDir : option string;
  ai_mountHostBinary : option bool;
  ai_mode : AgentMode;
}.

(** ** credentials.ts *)

Inductive AgentCredentialsMode : Type := Injected | Passthrough.
#[export] Instance AgentCredentialsMode_eq_dec : EqDecision AgentCredentialsMode.
Proof. solve_decision. Defined.

Inductive AgentCredentialsConfig : Type :=
  | AuthForAll (mode : AgentCredentialsMode)
  | AuthByAgent (claude copilot codex : option AgentCredentialsMode).

Definition supportsProxiedCredentials (agent : AgentType) : bool :=
  bool_decide (agent = AgentClaude) || bool_decide (agent = AgentCodex).

Definition configuredAgentCredentials (auth : option AgentCredentialsConfig) (agent : AgentType) :
    option AgentCredentialsMode :=
  match auth with
  | None => None
  | Some (AuthForAll mode) => Some mode
  | Some (AuthByAgent claude copilot codex) =>
      match agent with AgentClaude => claude | AgentCopilot => copilot | AgentCodex => codex end
  end.

Definition resolveAgentCredentials (agent : AgentType) (auth : option AgentCredentialsConfig) (devcontainer : bool) :
    AgentCredentialsMode :=
  if negb (supportsProxiedCredentials agent) then Passthrough
  else match configuredAgentCredentials auth agent with
       | Some configured => configured
       | None => if bool_decide (agent = AgentCodex) && devcontainer then Passthrough else Injected
       end.

Definition usesAgent (agent : AgentType) (extraAgents : list AgentType) (wanted : AgentType) : bool :=
  bool_decide (agent = wanted) || includes extraAgents wanted.

Definition usesProxiedCredentials (agent : AgentType) (extraAgents : list AgentType)
    (auth : option AgentCredentialsConfig) (wanted : AgentType) (devcontainer : bool) : bool :=
  usesAgent agent extraAgents wanted && bool_decide (resolveAgentCredentials wanted auth devcontainer = Injected).

(** ** settings_protection.ts *)

Definition CLAUDE_SETTINGS_FILES : list string := ["settings.json"; "settings.local.json"].
Definition CODEX_SETTINGS_FILES : list string := ["config.toml"].
Definition COPILOT_SETTINGS_FILES : list string := ["config.json"; "mcp-config.json"].

(** [isFile] is the outcome of `statSync(p).isFile()`, `false` when it throws. *)
Definition existingSettingsFiles (isFile : string → bool) (hostStateDir : string) (candidates : list string) : list string :=
  List.filter (λ relPath, isFile (join_paths [hostStateDir; relPath])) candidates.

Definition settingsMountArgs (hostStateDir containerStateDir : string) (relPaths : list string) : list string :=
  flat_map (λ relPath,
    ["-v"; hostStateDir +:+ "/" +:+ relPath +:+ ":" +:+ containerStateDir +:+ "/" +:+ relPath +:+ ":ro"]) relPaths.

Definition settingsMountSpecs (hostStateDir containerStateDir : string) (relPaths : list string) : list MountSpec :=
  map (λ relPath, {| ms_source := join_paths [hostStateDir; relPath];
                     ms_target := containerStateDir +:+ "/" +:+ relPath; ms_readOnly := true |}) relPaths.

(** ** claude.ts *)

Definition DEFAULT_CONTAINER_PATH : string := "/usr/local/sbin:/usr/local/bin:/usr/sbin:/usr/bin:/sbin:/bin".
Definition CLAUDE_AGENT_ACP_COMMAND : string := "claude-agent-acp".
Definition NAS_PROXY_CA_CERT_PATH : string := "/usr/local/share/ca-certificates/nas-proxy.crt".

Definition rw (source target : string) : MountSpec := {| ms_source := source; ms_target := target; ms_readOnly := false |}.
Definition ro (source target : string) : MountSpec := {| ms_source := source; ms_target := target; ms_readOnly := true |}.

(** A path that is given and not empty, as an `if` tests it. *)
Definition given_path (p : option string) : option string :=
  match p with Some "" | None => None | Some p => Some p end.

Definition bind_arg (source target suffix : string) : list string := ["-v"; source +:+ ":" +:+ target +:+ suffix].

(** The mounts of the private state. *)
Definition protected_mounts (containerHome : string) (state : ProtectedClaudeState) : list MountSpec :=
  rw (ps_runtimeDir state) (containerHome +:+ "/.claude") ::
  map (λ entry, {| ms_source := pe_source entry; ms_target := containerHome +:+ "/.claude/" +:+ pe_name entry;
                   ms_readOnly := pe_readOnly entry |}) (ps_entries state) ++
  [rw (ps_claudeJson state) (containerHome +:+ "/.claude.json")].

Definition provisionClaude (input : AgentInput) (probes : ClaudeProbes) : Result AgentProvisionResult :=
  let containerHome := ai_containerHome input in
  let hostHome := ai_hostHome input in
  let containerLocalBin := containerHome +:+ "/.local/bin" in
  let envVars := map_set (ai_priorEnvVars input) "PATH"
    (containerLocalBin +:+ ":" +:+ default DEFAULT_CONTAINER_PATH (map_get (ai_priorEnvVars input) "PATH")) in
  if ai_protectSettings input && bool_decide (ai_protectedClaudeState input = None) then
    Err "[nas] Protected Claude state must be prepared before configuring Claude"
  else
    let credentialsFile := given_path (ai_claudeCredentialsFile input) in
    if bool_decide (credentialsFile ≠ None) && bool_decide (ai_protectedClaudeState input = None) then
      Err "[nas] Dummy Claude credentials must be mounted onto protected Claude state"
    else
      let mountHostBinary := default (bool_decide (ai_claudeState input = None)) (ai_mountHostBinary input) in
      let hostBinary := if mountHostBinary then given_path (claudeBinPath probes) else None in
      let stateMounts := protected_mounts containerHome <$> ai_protectedClaudeState input in
      let credentialsMount := match credentialsFile with
                              | Some file => [rw file (containerHome +:+ "/.claude/.credentials.json")]
                              | None => []
                              end in
      match ai_claudeState input with
      | Some state =>
          let ideMounts := default [rw (cl_claudeDir state) (containerHome +:+ "/.claude");
                                    rw (cl_claudeJson state) (containerHome +:+ "/.claude.json")] stateMounts in
          let hostBinaryMounts := match hostBinary with
                                  | Some bin => [ro bin (containerLocalBin +:+ "/claude")]
                                  | None => []
                                  end in
          Ok {| ar_mounts := ideMounts ++ hostBinaryMounts ++ credentialsMount;
                ar_dockerArgs := ai_priorDockerArgs input; ar_envVars := envVars |}
      | None =>
          let unprotected := bool_decide (stateMounts = None) in
          Ok {| ar_mounts := default [] stateMounts ++ credentialsMount;
                ar_dockerArgs := ai_priorDockerArgs input ++
                  (if unprotected && claudeDirExists probes
                   then bind_arg (hostHome +:+ "/.claude") (containerHome +:+ "/.claude") "" else []) ++
                  (if unprotected && claudeJsonExists probes
                   then bind_arg (hostHome +:+ "/.claude.json") (containerHome +:+ "/.claude.json") "" else []) ++
                  match hostBinary with
                  | Some bin => bind_arg bin (containerLocalBin +:+ "/claude") ":ro"
                  | None => []
                  end;
                ar_envVars := envVars |}
      end.

Definition configureClaude (input : AgentInput) (probes : ClaudeProbes) : Result AgentConfigResult :=
  provisioned ← provisionClaude input probes;
  match ai_claudeState input, ai_mode input with
  | Some _, _ => Ok {| ac_provisioned := provisioned; ac_agentCommand := ["claude"] |}
  | None, ModeAcp =>
      match given_path (claudeBinPath probes) with
      | None => Err ("[nas] ACP mode requires Claude Code installed on the host; install and log in to Claude on " +:+
                     "the host before starting nas")
      | Some _ =>
          Ok {| ac_provisioned := {|
                  ar_mounts := ar_mounts provisioned; ar_dockerArgs := ar_dockerArgs provisioned;
                  ar_envVars := map_set (map_set (ar_envVars provisioned) "CLAUDE_CODE_EXECUTABLE"
                                           (ai_containerHome input +:+ "/.local/bin/claude"))
                                  "NODE_EXTRA_CA_CERTS" NAS_PROXY_CA_CERT_PATH |};
                ac_agentCommand := [CLAUDE_AGENT_ACP_COMMAND] |}
      end
  | None, ModeTerminal =>
      Ok {| ac_provisioned := provisioned;
            ac_agentCommand :=
              match given_path (claudeBinPath probes) with
              | Some _ => ["claude"]
              | None => ["bash"; "-c";
                         "curl -fsSL https://claude.ai/install.sh | bash && claude " +:+ dquote +:+ "$@" +:+ dquote;
                         "claude"]
              end |}
  end.

(** ** codex.ts *)

Definition provisionCodex (input : AgentInput) (probes : CodexProbes) : Result AgentProvisionResult :=
  let containerHome := ai_containerHome input in
  let stateDir := containerHome +:+ "/.codex" in
  let authFile := given_path (ai_codexAuthFile input) in
  if bool_decide (ai_codexDir input ≠ None) && bool_decide (authFile ≠ None) then
    Err "[nas] Dummy Codex credentials are not supported for Dev Container sessions"
  else
    let mountHostBinary := default (bool_decide (ai_codexDir input = None)) (ai_mountHostBinary input) in
    let binary := if mountHostBinary then given_path (codexBinPath probes) else None in
    let helper := if mountHostBinary then given_path (codexCodeModeHostBinPath probes) else None in
    let settings := if ai_protectSettings input then codexSettingsFiles probes else [] in
    match ai_codexDir input with
    | Some codexDir =>
        Ok {| ar_mounts :=
                rw codexDir stateDir :: settingsMountSpecs codexDir stateDir settings ++
                match binary with Some bin => [ro bin "/usr/local/bin/codex"] | None => [] end ++
                match helper with Some bin => [ro bin "/usr/local/bin/codex-code-mode-host"] | None => [] end;
              ar_dockerArgs := ai_priorDockerArgs input; ar_envVars := ai_priorEnvVars input |}
    | None =>
        let hostDir := ai_hostHome input +:+ "/.codex" in
        Ok {| ar_mounts := match authFile with Some file => [rw file (stateDir +:+ "/auth.json")] | None => [] end;
              ar_dockerArgs := ai_priorDockerArgs input ++
                (if codexDirExists probes
                 then bind_arg hostDir stateDir "" ++ settingsMountArgs hostDir stateDir settings else []) ++
                match binary with Some bin => bind_arg bin "/usr/local/bin/codex" ":ro" | None => [] end ++
                match helper with Some bin => bind_arg bin "/usr/local/bin/codex-code-mode-host" ":ro" | None => [] end;
              ar_envVars := ai_priorEnvVars input |}
    end.

Definition configureCodex (input : AgentInput) (probes : CodexProbes) : Result AgentConfigResult :=
  provisioned ← provisionCodex input probes;
  Ok {| ac_provisioned := provisioned;
        ac_agentCommand :=
          match ai_codexDir input, given_path (codexBinPath probes) with
          | Some _, _ => ["codex"]
          | None, Some _ => ["codex"; "-c"; "shell_environment_policy.inherit=all"]
          | None, None => ["bash"; "-c"; "echo 'codex binary not found'; exit 1"]
          end |}.

(** ** copilot.ts *)

Definition provisionCopilot (input : AgentInput) (probes : CopilotProbes) : AgentProvisionResult :=
  let hostDir := ai_hostHome input +:+ "/.copilot" in
  let stateDir := ai_containerHome input +:+ "/.copilot" in
  {| ar_mounts :=
       (if copilotLegacyDirExists probes
        then rw hostDir stateDir ::
             settingsMountSpecs hostDir stateDir (if ai_protectSettings input then copilotSettingsFiles probes else [])
        else []) ++
       match given_path (copilotBinPath probes) with Some bin => [ro bin "/usr/local/bin/copilot"] | None => [] end;
     ar_dockerArgs := ai_priorDockerArgs input; ar_envVars := ai_priorEnvVars input |}.

Definition configureCopilot (input : AgentInput) (probes : CopilotProbes) : AgentConfigResult :=
  let provisioned := provisionCopilot input probes in
  {| ac_provisioned := {|
       ar_mounts := ar_mounts provisioned; ar_dockerArgs := ar_dockerArgs provisioned;
       ar_envVars := match map_get (ar_envVars provisioned) "REMOTE_CONTAINERS" with
                     | Some _ => ar_envVars provisioned
                     | None => map_set (ar_envVars provisioned) "REMOTE_CONTAINERS" "true"
                     end |};
     ac_agentCommand :=
       match given_path (copilotBinPath probes) with
       | Some _ => ["copilot"]
       | None => ["bash"; "-c"; "echo 'copilot binary not found'; exit 1"]
       end |}.

(** ** registry.ts *)

Definition expectClaudeProbes (probes : AgentProbes) : Result ClaudeProbes :=
  match probes with ProbesClaude p => Ok p | _ => Err "Agent probe mismatch: expected claude probes" end.

Definition expectCopilotProbes (probes : AgentProbes) : Result CopilotProbes :=
  match probes with ProbesCopilot p => Ok p | _ => Err "Agent probe mismatch: expected copilot probes" end.

Definition expectCodexProbes (probes : AgentProbes) : Result CodexProbes :=
  match probes with ProbesCodex p => Ok p | _ => Err "Agent probe mismatch: expected codex probes" end.

Definition agentBinaryFound (agent : AgentType) (probes : AgentProbes) : Result bool :=
  match agent with
  | AgentClaude => p ← expectClaudeProbes probes; Ok (bool_decide (claudeBinPath p ≠ None))
  | AgentCopilot => p ← expectCopilotProbes probes; Ok (bool_decide (copilotBinPath p ≠ None))
  | AgentCodex => p ← expectCodexProbes probes; Ok (bool_decide (codexBinPath p ≠ None))
  end.

(** The agent is given only the inputs that concern it: the private state and the
    dummy credentials of another agent are not passed on. *)
Definition provisionAgent (input : AgentInput) : Result AgentProvisionResult :=
  match ai_agent input with
  | AgentClaude => p ← expectClaudeProbes (ai_probes input); provisionClaude input p
  | AgentCopilot => p ← expectCopilotProbes (ai_probes input); Ok (provisionCopilot input p)
  | AgentCodex => p ← expectCodexProbes (ai_probes input); provisionCodex input p
  end.

Definition acp_unsupported : string := "ACP mode currently supports only agent " +:+ dquote +:+ "claude" +:+ dquote.

Definition configureAgent (input : AgentInput) : Result AgentConfigResult :=
  match ai_agent input with
  | AgentClaude => p ← expectClaudeProbes (ai_probes input); configureClaude input p
  | AgentCopilot =>
      if bool_decide (ai_mode input ≠ ModeTerminal) then Err acp_unsupported
      else p ← expectCopilotProbes (ai_probes input); Ok (configureCopilot input p)
  | AgentCodex =>
      if bool_decide (ai_mode input ≠ ModeTerminal) then Err acp_unsupported
      else p ← expectCodexProbes (ai_probes input); configureCodex input p
  end.
