(* ===== verification/MountPlan.v ===== *)
(** * The mounts of a container (stages/mount/stage.ts)

    [planMount] decides from the state of the pipeline and from what was probed of the
    host which paths the container sees, where, and which of them it may write: the
    workspace or its masked view, the configuration and the git metadata that nas and
    git run code from (read-only, with every directory above them pinned against
    renaming), the Nix store, the agents, and the environment.

    The lists the code pushes to are the fields of [Draft]; a section of the function
    is a function of drafts.  Warnings are left out. *)
From S2P Require Import Prelude JsString Json AuthzTypes AuthzConfig NodePath Protocol HostMatch ContainerPlan Agents.

(** ** Data *)

Record MountPlanDirectory : Type := { md_path : string; md_mode : Z; md_removeOnTeardown : bool }.
Record MountPlanFile : Type := { mf_path : string; mf_content : string; mf_mode : Z }.

Record WorkspaceState : Type := {
  ws_workDir : string;
  ws_mountDir : option string;
  ws_imageName : string;
  ws_maskedRoot : option string;
}.

(** [None] for `enabled: false`. *)
Definition DbusState : Type := option string.
Record DisplayRuntime : Type := { di_displayNumber : Z; di_socketPath : string; di_xauthorityPath : string }.
Definition DisplayState : Type := option DisplayRuntime.

Record HostEnv : Type := {
  he_home : string;
  he_user : string;
  he_uid : option Z;
  he_gid : option Z;
  he_env : list (string * string);
}.

(** The members of the profile that the stage reads; [pr_extraMounts] are the `dst`. *)
Record Profile : Type := {
  pr_agent : AgentType;
  pr_extraAgents : list AgentType;
  pr_mode : option AgentMode;
  pr_protectSettings : bool;
  pr_auth : option AgentCredentialsConfig;
  pr_secrets : list (string * SecretConfig);
  pr_mask : option MaskConfig;
  pr_nixMountSocket : bool;
  pr_direnvEnable : bool;
  pr_extraMounts : list string;
}.

Record MountStageInput : Type := {
  mi_host : HostEnv;
  mi_profile : Profile;
  mi_workspace : WorkspaceState;
  mi_nixEnabled : bool;
  mi_dbus : DbusState;
  mi_display : DisplayState;
  mi_container : ContainerPlan;
  mi_hasHostNix : bool;
}.

Record DevcontainerMountInput : Type := {
  dc_vscodeDir : string;
  dc_claudeState : option ClaudeStatePaths;
  dc_codexDir : option string;
}.

Record GitMetadataProbe : Type := {
  gm_readOnlyPaths : list string;
  gm_missingHookDirs : list string;
  gm_missingCommonDirFiles : list string;
  gm_skippedSymlinks : list string;
}.

Record ResolvedExtraMount : Type := {
  xm_normalizedSrc : string;
  xm_srcExists : bool;
  xm_readOnly : bool;
  xm_index : nat;
}.

Inductive EnvMode : Type := EnvSet | EnvPrefix | EnvSuffix.
#[export] Instance EnvMode_eq_dec : EqDecision EnvMode.
Proof. solve_decision. Defined.

Record ResolvedEnvEntry : Type := {
  re_key : string;
  re_value : string;
  re_index : Z;
  re_keySource : string;
  re_mode : EnvMode;
  re_separator : string;
}.

Record MountProbes : Type := {
  mb_direnvDataDir : option string;
  mb_agentProbes : AgentProbes;
  mb_extraAgentProbes : list (AgentType * AgentProbes);
  mb_nixConfRealPath : option string;
  mb_nixBinPath : option string;
  mb_gitConfigExists : bool;
  mb_resolvedExtraMounts : list ResolvedExtraMount;
  mb_resolvedEnvEntries : list ResolvedEnvEntry;
  mb_gitWorktreeMainRoot : option string;
  mb_localConfigPaths : list string;
  mb_gitMetadata : option GitMetadataProbe;
}.

Record Draft : Type := {
  dr_directories : list MountPlanDirectory;
  dr_files : list MountPlanFile;
  dr_args : list string;
  dr_mounts : list MountSpec;
  dr_extraRunArgs : list string;
  dr_envVars : list (string * string);
}.

Record MountPlan : Type := {
  mp_directories : list MountPlanDirectory;
  mp_files : list MountPlanFile;
  mp_dockerArgs : list string;
  mp_envVars : list (string * string);
  mp_containerPatch : ContainerPatch;
}.

Definition empty_draft : Draft := {|
  dr_directories := []; dr_files := []; dr_args := []; dr_mounts := []; dr_extraRunArgs := []; dr_envVars := [] |}.

Definition set_env (key value : string) (d : Draft) : Draft := {|
  dr_directories := dr_directories d; dr_files := dr_files d; dr_args := dr_args d; dr_mounts := dr_mounts d;
  dr_extraRunArgs := dr_extraRunArgs d; dr_envVars := map_set (dr_envVars d) key value |}.

Definition with_env (envVars : list (string * string)) (d : Draft) : Draft := {|
  dr_directories := dr_directories d; dr_files := dr_files d; dr_args := dr_args d; dr_mounts := dr_mounts d;
  dr_extraRunArgs := dr_extraRunArgs d; dr_envVars := envVars |}.

Definition push_args (args : list string) (d : Draft) : Draft := {|
  dr_directories := dr_directories d; dr_files := dr_files d; dr_args := dr_args d ++ args; dr_mounts := dr_mounts d;
  dr_extraRunArgs := dr_extraRunArgs d; dr_envVars := dr_envVars d |}.

Definition push_mounts (mounts : list MountSpec) (d : Draft) : Draft := {|
  dr_directories := dr_directories d; dr_files := dr_files d; dr_args := dr_args d; dr_mounts := dr_mounts d ++ mounts;
  dr_extraRunArgs := dr_extraRunArgs d; dr_envVars := dr_envVars d |}.

Definition push_run_args (args : list string) (d : Draft) : Draft := {|
  dr_directories := dr_directories d; dr_files := dr_files d; dr_args := dr_args d; dr_mounts := dr_mounts d;
  dr_extraRunArgs := dr_extraRunArgs d ++ args; dr_envVars := dr_envVars d |}.

Definition push_directory (path : string) (d : Draft) : Draft := {|
  dr_directories := dr_directories d ++ [{| md_path := path; md_mode := 493; md_removeOnTeardown := false |}];
  dr_files := dr_files d; dr_args := dr_args d; dr_mounts := dr_mounts d;
  dr_extraRunArgs := dr_extraRunArgs d; dr_envVars := dr_envVars d |}.

Definition push_file (path content : string) (d : Draft) : Draft := {|
  dr_directories := dr_directories d;
  dr_files := dr_files d ++ [{| mf_path := path; mf_content := content; mf_mode := 420 |}];
  dr_args := dr_args d; dr_mounts := dr_mounts d;
  dr_extraRunArgs := dr_extraRunArgs d; dr_envVars := dr_envVars d |}.

(** ** Mount arguments *)

Definition mount_arg (m : MountSpec) : string :=
  ms_source m +:+ ":" +:+ ms_target m +:+ (if ms_readOnly m then ":ro" else "").

Definition addMount (m : MountSpec) (d : Draft) : Draft := push_mounts [m] (push_args ["-v"; mount_arg m] d).

Definition parseMountSpec (rawMount : string) : Result MountSpec :=
  let readOnly := endsWith rawMount ":ro" in
  let mountValue := if readOnly then take_str (slen rawMount - 3) rawMount else rawMount in
  match indexOf mountValue ":" with
  | None => Err ("[nas] Invalid mount arg: " +:+ rawMount)
  | Some i => Ok {| ms_source := take_str i mountValue; ms_target := drop_str (S i) mountValue; ms_readOnly := readOnly |}
  end.

(** The mounts and the other arguments of a list. *)
Fixpoint appendStructuredArgs (dockerArgs : list string) : Result (list MountSpec * list string) :=
  match dockerArgs with
  | [] => Ok ([], [])
  | "-v" :: raw :: rest =>
      mount ← parseMountSpec raw;
      '(mounts, extra) ← appendStructuredArgs rest;
      Ok (mount :: mounts, extra)
  | arg :: rest =>
      '(mounts, extra) ← appendStructuredArgs rest;
      Ok (mounts, arg :: extra)
  end%string.

Definition resolveContainerUser (hostUser : string) : string :=
  let user := trim hostUser in if String.eqb user "" then "nas" else user.

(** The names of `selectAppliedSecrets` (network/secrets.ts): a name of `apply` that
    is a property of `Object.prototype` counts; an assignment to `__proto__` adds no
    key. *)
Definition selectAppliedSecrets (secrets : list (string * SecretConfig)) (apply : option (list string)) : list string :=
  match apply with
  | None => map_keys secrets
  | Some names => unique (List.filter (λ name,
      match prop_read secrets name with
      | Own _ | Inherited => negb (String.eqb name "__proto__")
      | Missing => false
      end) names)
  end.

Definition COMMONDIR_PLACEHOLDER : string := "./" +:+ String "010" "".

(** What the template literal shows of an inherited property. *)
Class ObjectRuntime : Type := { inherited_text : string → string }.

Section Plan.
Context `{HostRuntime}.

Definition isPathWithin (target root : string) : bool := isWithin target root.

(** ** Paths in the container *)

Definition assertPathWithin (resolved root rawPath rootLabel : string) : Result () :=
  let rel := relative process_cwd root resolved in
  if String.eqb rel "" then Ok ()
  else if startsWith rel ".." || isAbsolute rel then
    Err ("[nas] extra-mounts.dst " +:+ dquote +:+ rawPath +:+ dquote +:+ " escapes " +:+ rootLabel +:+ " (" +:+ root +:+
         "); resolved to " +:+ resolved)
  else Ok ().

Definition resolveContainerMountPath (rawPath containerHome containerWorkDir : string) : Result string :=
  if String.eqb rawPath "~" || startsWith rawPath "~/" then
    let resolved := normalize (resolve process_cwd [expandTilde rawPath containerHome]) in
    _ ← assertPathWithin resolved containerHome rawPath "containerHome"; Ok resolved
  else if isAbsolute rawPath then Ok (normalize (resolve process_cwd [rawPath]))
  else
    let resolved := normalize (resolve process_cwd [containerWorkDir; rawPath]) in
    _ ← assertPathWithin resolved containerWorkDir rawPath "containerWorkDir"; Ok resolved.

(** ** Git metadata and pins *)

Definition mergeGitMetadata (a b : option GitMetadataProbe) : option GitMetadataProbe :=
  match a, b with
  | None, _ => b
  | _, None => a
  | Some a, Some b => Some {|
      gm_readOnlyPaths := unique (gm_readOnlyPaths a ++ gm_readOnlyPaths b);
      gm_missingHookDirs := unique (gm_missingHookDirs a ++ gm_missingHookDirs b);
      gm_missingCommonDirFiles := unique (gm_missingCommonDirFiles a ++ gm_missingCommonDirFiles b);
      gm_skippedSymlinks := unique (gm_skippedSymlinks a ++ gm_skippedSymlinks b) |}
  end.

Record GitProtectionPlan : Type := {
  gp_readOnlyPaths : list string;
  gp_createDirs : list string;
  gp_createCommonDirFiles : list string;
  gp_skippedSymlinks : list string;
}.

(** `byPathDepth(a, b) <= 0` *)
Definition byPathDepth (a b : string) : bool :=
  let la := length (split_on slash a) in
  let lb := length (split_on slash b) in
  (la <? lb)%nat || ((la =? lb)%nat && locale_leb a b).

Definition planGitProtection (probe : option GitMetadataProbe) (mountSource : string) (extraGitFiles : list string)
    (mountedTargets : list string) : GitProtectionPlan :=
  let inScope p := negb (String.eqb p mountSource) && isPathWithin p mountSource && negb (includes mountedTargets p) in
  let probed f := match probe with Some probe => f probe | None => [] end in
  let createDirs := List.filter inScope (probed gm_missingHookDirs) in
  let createCommonDirFiles := List.filter inScope (probed gm_missingCommonDirFiles) in
  let readOnly := unique (List.filter inScope (probed gm_readOnlyPaths ++ extraGitFiles) ++ createDirs ++ createCommonDirFiles) in
  {| gp_readOnlyPaths := sort_by byPathDepth readOnly; gp_createDirs := createDirs;
     gp_createCommonDirFiles := createCommonDirFiles;
     gp_skippedSymlinks := List.filter inScope (probed gm_skippedSymlinks) |}.

(** The directories from [dir] up to the root of the mount, the root excluded; a
    directory has a shorter name than what it holds. *)
Fixpoint pin_walk (fuel : nat) (mountSource dir : string) : list string :=
  match fuel with
  | O => []
  | S fuel =>
      if negb (String.eqb dir mountSource) && isPathWithin dir mountSource
      then dir :: pin_walk fuel mountSource (dirname dir)
      else []
  end.

Definition pins_of (mountSource target : string) : list string :=
  if String.eqb target mountSource || negb (isPathWithin target mountSource) then []
  else pin_walk (slen target) mountSource (dirname target).

Definition planRenamePins (readOnlyTargets : list string) (mountSource : string) (mountedTargets : list string) :
    list string :=
  sort_by byPathDepth
    (unique (List.filter (λ dir, negb (includes mountedTargets dir)) (flat_map (pins_of mountSource) readOnlyTargets))).

(** ** The workspace *)

Definition resolveWorkspaceMountSource (workspace : WorkspaceState) (probes : MountProbes) : string :=
  default (resolve process_cwd [default (ws_workDir workspace) (ws_mountDir workspace)]) (mb_gitWorktreeMainRoot probes).

(** The masked root, where there is one and it is not the empty string. *)
Definition masked_root (workspace : WorkspaceState) : option string := given_path (ws_maskedRoot workspace).

Definition viewSource (workspace : WorkspaceState) (mountSource target : string) : Result string :=
  match masked_root workspace with
  | None => Ok target
  | Some maskedRoot =>
      if negb (isPathWithin target mountSource) then
        Err ("[nas] devcontainer with active MaskFs requires the workDir beneath the mounted root (a linked worktree " +:+
             "outside its repository root is not covered)")
      else Ok (join_paths [maskedRoot; relative process_cwd mountSource target])
  end.

(** The `.nas` configuration, as (source, target). *)
Definition config_mounts (workspace : WorkspaceState) (mountSource : string) (devcontainer : bool) (paths : list string) :
    Result (list (string * string)) :=
  mapM (λ configPath,
    if devcontainer then
      let configDir := dirname configPath in
      source ← viewSource workspace mountSource configDir; Ok (source, configDir)
    else Ok (configPath, configPath))
  (List.filter (λ p, isPathWithin p mountSource) paths).

(** The first mounts and variables: the workspace, and what a Dev Container adds. *)
Definition workspace_mounts (workspace : WorkspaceState) (mountSource containerHome containerWorkDir : string)
    (devcontainer : option DevcontainerMountInput) (d : Draft) : Result Draft :=
  let d := addMount (rw (default mountSource (ws_maskedRoot workspace)) mountSource) d in
  d ← match devcontainer with
      | None => Ok d
      | Some dc =>
          let d := addMount (rw (dc_vscodeDir dc) (containerHome +:+ "/.vscode-server")) d in
          source ← viewSource workspace mountSource (containerWorkDir +:+ "/.devcontainer");
          Ok (addMount (ro source (containerWorkDir +:+ "/.devcontainer")) d)
      end;
  Ok (set_env "WORKSPACE" containerWorkDir (push_args ["-w"; containerWorkDir] d)).

(** The read-only mounts of the workspace, and the pins above them. *)
Definition protected_workspace (workspace : WorkspaceState) (probes : MountProbes) (mountSource containerWorkDir : string)
    (devcontainer : bool) (d : Draft) : Result Draft :=
  configs ← config_mounts workspace mountSource devcontainer (mb_localConfigPaths probes);
  let gitProtection := planGitProtection (mb_gitMetadata probes) mountSource
    (match given_path (ws_mountDir workspace) with Some _ => [join_paths [containerWorkDir; ".git"]] | None => [] end)
    (map ms_target (dr_mounts d) ++ map snd configs) in
  let d := fold_left (λ d dir, push_directory dir d) (gp_createDirs gitProtection) d in
  let d := fold_left (λ d file, push_file file COMMONDIR_PLACEHOLDER d) (gp_createCommonDirFiles gitProtection) d in
  gits ← mapM (λ target, source ← viewSource workspace mountSource target; Ok (source, target))
           (gp_readOnlyPaths gitProtection);
  let protectedMounts := configs ++ gits in
  let readOnlyTargets := map ms_target (List.filter ms_readOnly (dr_mounts d)) ++ map snd protectedMounts in
  pins ← mapM (λ dir, source ← viewSource workspace mountSource dir; Ok (rw source dir))
           (planRenamePins readOnlyTargets mountSource (map ms_target (dr_mounts d) ++ readOnlyTargets));
  let d := fold_left (λ d m, addMount m d) pins d in
  Ok (fold_left (λ d m, addMount m d) (map (λ '(source, target), ro source target) protectedMounts) d).

(** ** Host facilities *)

Definition identity_env (host : HostEnv) (d : Draft) : Draft :=
  match he_uid host, he_gid host with
  | Some uid, Some gid => set_env "NAS_GID" (Z_to_string gid) (set_env "NAS_UID" (Z_to_string uid) d)
  | _, _ => d
  end.

Definition nix_mounts (host : HostEnv) (probes : MountProbes) (containerHome : string) (d : Draft) : Draft :=
  let d := addMount (rw "/nix" "/nix") d in
  let d := match given_path (mb_nixConfRealPath probes) with
           | None => d
           | Some conf =>
               if negb (startsWith conf "/nix/") then
                 set_env "NIX_CONF_PATH" "/tmp/nas-host-nix.conf" (addMount (ro conf "/tmp/nas-host-nix.conf") d)
               else set_env "NIX_CONF_PATH" conf d
           end in
  let d := set_env "NIX_ENABLED" "true" (set_env "NIX_REMOTE" "daemon" d) in
  let xdgCache := default (he_home host +:+ "/.cache") (given_path (map_get (he_env host) "XDG_CACHE_HOME")) in
  let hostNixCache := xdgCache +:+ "/nix" in
  let d := addMount (rw hostNixCache (containerHome +:+ "/.cache/nix")) (push_directory hostNixCache d) in
  match given_path (mb_nixBinPath probes) with Some bin => set_env "NIX_BIN_PATH" bin d | None => d end.

Definition extra_mount (profile : Profile) (containerHome containerWorkDir : string) (d : Draft) (m : ResolvedExtraMount) :
    Result Draft :=
  if negb (xm_srcExists m) then Ok d
  else match pr_extraMounts profile !! xm_index m with
       | None => Err "TypeError"
       | Some dst =>
           normalizedDst ← resolveContainerMountPath dst containerHome containerWorkDir;
           Ok (addMount {| ms_source := xm_normalizedSrc m; ms_target := normalizedDst; ms_readOnly := xm_readOnly m |} d)
       end.

Fixpoint fold_result {A B} (f : A → B → Result A) (acc : A) (l : list B) : Result A :=
  match l with
  | [] => Ok acc
  | x :: l => acc ← f acc x; fold_result f acc l
  end.

(** ** The environment of the profile *)

(** `envVars`, `mergedEnvVars` and `dynamicEnvOps`. *)
Record EnvState : Type := {
  es_envVars : list (string * string);
  es_merged : list (string * string);
  es_ops : list DynamicEnvOp;
}.

Context `{ObjectRuntime}.

(** `object[key] = value` with a string: the prototype cannot be set to one. *)
Definition object_set (o : list (string * string)) (key value : string) : list (string * string) :=
  if String.eqb key "__proto__" then o else map_set o key value.

(** `mergedEnvVars[key]`, where `key in mergedEnvVars`. *)
Definition merged_value (o : list (string * string)) (key : string) : option string :=
  match prop_read o key with
  | Own v => Some v
  | Inherited => Some (inherited_text key)
  | Missing => None
  end.

Definition entry_value (profile : Profile) (containerHome containerWorkDir : string) (entry : ResolvedEnvEntry) :
    Result string :=
  if pr_direnvEnable profile && String.eqb (re_key entry) "XDG_DATA_HOME" && bool_decide (re_mode entry = EnvSet) &&
     negb (String.eqb (re_value entry) "")
  then resolveContainerMountPath (re_value entry) containerHome containerWorkDir
  else Ok (expandTilde (re_value entry) containerHome).

(** A value is stored in both objects. *)
Definition store (key value : string) (ops : list DynamicEnvOp) (s : EnvState) : EnvState := {|
  es_envVars := object_set (es_envVars s) key value; es_merged := object_set (es_merged s) key value; es_ops := ops |}.

Definition apply_entry (entry : ResolvedEnvEntry) (value : string) (s : EnvState) : EnvState :=
  let key := re_key entry in
  let deferred mode := {|
    es_envVars := es_envVars s; es_merged := es_merged s;
    es_ops := es_ops s ++ [{| eo_mode := mode; eo_key := key; eo_value := value; eo_separator := re_separator entry |}] |} in
  match re_mode entry, merged_value (es_merged s) key with
  | EnvPrefix, Some old => store key (value +:+ re_separator entry +:+ old) (es_ops s) s
  | EnvPrefix, None => deferred OpPrefix
  | EnvSuffix, Some old => store key (old +:+ re_separator entry +:+ value) (es_ops s) s
  | EnvSuffix, None => deferred OpSuffix
  | EnvSet, _ => store key value (List.filter (λ op, negb (String.eqb (eo_key op) key)) (es_ops s)) s
  end.

Definition env_step (profile : Profile) (containerHome containerWorkDir : string) (s : EnvState)
    (entry : ResolvedEnvEntry) : Result EnvState :=
  if negb (ENV_KEY_RE (re_key entry)) then
    Err ("[nas] Invalid env var name from profile.env[" +:+ Z_to_string (re_index entry) +:+ "]." +:+
         re_keySource entry +:+ ": " +:+ re_key entry)
  else value ← entry_value profile containerHome containerWorkDir entry; Ok (apply_entry entry value s).

Definition direnv_mounts (profile : Profile) (probes : MountProbes) (containerHome containerWorkDir : string)
    (merged : list (string * string)) (d : Draft) : Result Draft :=
  if negb (pr_direnvEnable profile) then Ok d
  else
    let d := set_env "NAS_DIRENV_ENABLED" "true" d in
    '(dataHome, d) ← match given_path (map_get merged "XDG_DATA_HOME") with
                     | Some staticDataHome =>
                         dataHome ← resolveContainerMountPath staticDataHome containerHome containerWorkDir;
                         Ok (dataHome, set_env "XDG_DATA_HOME" dataHome d)
                     | None => Ok (containerHome +:+ "/.local/share", d)
                     end;
    Ok match mb_direnvDataDir probes with
       | Some dir => addMount (ro dir (dataHome +:+ "/direnv")) d
       | None => d
       end.

(** ** Runtime sockets *)

Definition dbus_mounts (host : HostEnv) (dbus : DbusState) (d : Draft) : Result Draft :=
  match dbus with
  | None => Ok d
  | Some runtimeDir =>
      match he_uid host, given_path (Some runtimeDir) with
      | Some uid, Some runtimeDir =>
          let containerRuntimeDir := "/run/user/" +:+ Z_to_string uid in
          Ok (set_env "DBUS_SESSION_BUS_ADDRESS" ("unix:path=" +:+ containerRuntimeDir +:+ "/bus")
                (set_env "XDG_RUNTIME_DIR" containerRuntimeDir (addMount (rw runtimeDir containerRuntimeDir) d)))
      | _, _ => Err "[nas] dbus.session.enable requires an initialized DBus proxy runtime"
      end
  end.

Definition display_mounts (display : DisplayState) (containerHome : string) (d : Draft) : Draft :=
  match display with
  | None => d
  | Some di =>
      let number := Z_to_string (di_displayNumber di) in
      let d := addMount (ro (di_socketPath di) ("/tmp/.X11-unix/X" +:+ number)) d in
      let d := addMount (ro (di_xauthorityPath di) (containerHome +:+ "/.Xauthority")) d in
      set_env "XAUTHORITY" (containerHome +:+ "/.Xauthority") (set_env "DISPLAY" (":" +:+ number) d)
  end.

(** ** Agents *)

(** `applyAgent`: what the agent has added. *)
Definition applyAgent (priorEnv : list (string * string)) (d : Draft) (priorDockerArgs : list string)
    (agentResult : AgentProvisionResult) : Result Draft :=
  let agentArgs := drop (length priorDockerArgs) (ar_dockerArgs agentResult) in
  let agentEnv := List.filter (λ '(k, v), negb (bool_decide (map_get priorEnv k = Some v))) (ar_envVars agentResult) in
  '(mounts, extra) ← appendStructuredArgs agentArgs;
  let d := push_run_args extra (push_mounts mounts (push_args agentArgs d)) in
  Ok (with_env (map_set_all (dr_envVars d) agentEnv) (push_mounts (ar_mounts agentResult) d)).

(** What the agents are told; [priors] are the arguments and the variables so far. *)
Definition agent_input (input : MountStageInput) (containerHome : string) (agent : AgentType) (probes : AgentProbes)
    (protectedClaudeState : option ProtectedClaudeState) (claudeCredentialsFile codexAuthFile : option string)
    (claudeState : option ClaudeStatePaths) (codexDir : option string) (mountHostBinary : bool)
    (priors : list string * list (string * string)) : AgentInput := {|
  ai_protectedClaudeState := protectedClaudeState; ai_agent := agent; ai_containerHome := containerHome;
  ai_hostHome := he_home (mi_host input); ai_probes := probes;
  ai_protectSettings := pr_protectSettings (mi_profile input);
  ai_priorDockerArgs := priors.1; ai_priorEnvVars := priors.2;
  ai_claudeCredentialsFile := claudeCredentialsFile; ai_codexAuthFile := codexAuthFile;
  ai_claudeState := claudeState; ai_codexDir := codexDir; ai_mountHostBinary := Some mountHostBinary;
  ai_mode := default ModeTerminal (pr_mode (mi_profile input)) |}.

Definition resolvePriorEnvVars (input : MountStageInput) : list (string * string) := ep_static (cp_env (mi_container input)).

Definition priors_of (input : MountStageInput) (d : Draft) : list string * list (string * string) :=
  (dr_args d, map_set_all (resolvePriorEnvVars input) (dr_envVars d)).

(** An agent of `extraAgents`. *)
Definition extra_agent (input : MountStageInput) (containerHome : string) (devcontainer : option DevcontainerMountInput)
    (protectedClaudeState : option ProtectedClaudeState) (claudeCredentialsFile codexAuthFile : option string)
    (d : Draft) (extra : AgentType * AgentProbes) : Result Draft :=
  let '(agent, probes) := extra in
  let priors := priors_of input d in
  _ ← agentBinaryFound agent probes;
  result ← provisionAgent (agent_input input containerHome agent probes protectedClaudeState claudeCredentialsFile
    codexAuthFile
    (match agent with AgentClaude => devcontainer ≫= dc_claudeState | _ => None end)
    (match agent with AgentCodex => devcontainer ≫= dc_codexDir | _ => None end) true priors);
  applyAgent priors.2 d priors.1 result.

(** The agent that is started, and its command. *)
Definition main_agent (input : MountStageInput) (probes : MountProbes) (containerHome : string)
    (devcontainer : option DevcontainerMountInput) (protectedClaudeState : option ProtectedClaudeState)
    (claudeCredentialsFile codexAuthFile : option string) (d : Draft) : Result (Draft * list string) :=
  let priors := priors_of input d in
  result ← configureAgent (agent_input input containerHome (pr_agent (mi_profile input)) (mb_agentProbes probes)
    protectedClaudeState claudeCredentialsFile codexAuthFile (devcontainer ≫= dc_claudeState)
    (devcontainer ≫= dc_codexDir) (match devcontainer with Some _ => false | None => true end) priors);
  d ← applyAgent priors.2 d priors.1 (ac_provisioned result);
  Ok (d, ac_agentCommand result).

(** ** The whole *)

Definition planMount (input : MountStageInput) (probes : MountProbes) (devcontainer : option DevcontainerMountInput)
    (protectedClaudeState : option ProtectedClaudeState) (claudeCredentialsFile codexAuthFile : option string) :
    Result MountPlan :=
  let host := mi_host input in
  let profile := mi_profile input in
  let workspace := mi_workspace input in
  if usesAgent (pr_agent profile) (pr_extraAgents profile) AgentClaude && pr_protectSettings profile &&
     match protectedClaudeState with None => true | Some _ => false end
  then Err "[nas] Protected Claude state must be prepared before planning mounts"
  else if match pr_mask profile with
          | Some mask => bool_decide (mk_maskfs mask = Some true) &&
                         negb (bool_decide (selectAppliedSecrets (pr_secrets profile) (mk_apply mask) = [])) &&
                         bool_decide (masked_root workspace = None)
          | None => false
          end
  then Err ("[nas] BUG: mask config is set but workspace.maskedRoot is not — MaskFsStage must run before " +:+ "MountStage")
  else
    let isDevcontainer := match devcontainer with Some _ => true | None => false end in
    let containerUser := resolveContainerUser (he_user host) in
    let containerHome := "/home/" +:+ containerUser in
    let mountSource := resolveWorkspaceMountSource workspace probes in
    let containerWorkDir := resolve process_cwd [ws_workDir workspace] in
    let d := set_env "NAS_HOME" containerHome (set_env "NAS_USER" containerUser empty_draft) in
    d ← workspace_mounts workspace mountSource containerHome containerWorkDir devcontainer d;
    d ← protected_workspace workspace probes mountSource containerWorkDir isDevcontainer d;
    let d := identity_env host d in
    _ ← match mi_dbus input, he_uid host with
        | Some _, None => Err "[nas] dbus.session.enable requires a host UID to mount /run/user/$UID"
        | _, _ => Ok ()
        end;
    let d := if mi_nixEnabled input && pr_nixMountSocket profile && mi_hasHostNix input
             then nix_mounts host probes containerHome d else d in
    let d := if mb_gitConfigExists probes
             then addMount (ro (he_home host +:+ "/.config/git") (containerHome +:+ "/.config/git")) d else d in
    d ← fold_result (extra_mount profile containerHome containerWorkDir) d (mb_resolvedExtraMounts probes);
    s ← fold_result (env_step profile containerHome containerWorkDir)
          {| es_envVars := dr_envVars d; es_merged := map_set_all (resolvePriorEnvVars input) (dr_envVars d); es_ops := [] |}
          (mb_resolvedEnvEntries probes);
    d ← direnv_mounts profile probes containerHome containerWorkDir (es_merged s) (with_env (es_envVars s) d);
    d ← match es_ops s with
        | [] => Ok d
        | ops => text ← encodeDynamicEnvOps ops; Ok (set_env "NAS_ENV_OPS" text d)
        end;
    d ← dbus_mounts host (mi_dbus input) d;
    let d := display_mounts (mi_display input) containerHome d in
    '(d, agentCommand) ← main_agent input probes containerHome devcontainer protectedClaudeState claudeCredentialsFile
                           codexAuthFile d;
    d ← fold_result (extra_agent input containerHome devcontainer protectedClaudeState claudeCredentialsFile codexAuthFile)
          d (mb_extraAgentProbes probes);
    Ok {| mp_directories := dr_directories d; mp_files := dr_files d; mp_dockerArgs := dr_args d;
          mp_envVars := dr_envVars d;
          mp_containerPatch := {|
            pa_image := None; pa_workDir := Some containerWorkDir; pa_mounts := Some (dr_mounts d);
            pa_namedVolumes := None; pa_envStatic := Some (map_delete (dr_envVars d) "NAS_ENV_OPS");
            pa_dynamicOps := Some (es_ops s); pa_network := None; pa_extraHosts := None;
            pa_shmSize := match mi_display input with Some _ => Some "2g" | None => None end;
            pa_seccompProfile := None; pa_apparmorProfile := None; pa_extraRunArgs := Some (dr_extraRunArgs d);
            pa_command := Some {| cs_agentCommand := agentCommand;
                                  cs_extraArgs := cs_extraArgs (cp_command (mi_container input)) |};
            pa_labels := None |} |}.

(** ** The stage *)

(** What the stage asks of MountSetupService; the directories and files are made by
    [ensure]. *)
Record MountSetupService : Type := {
  prepareClaudeState : string → bool → bool → Result ProtectedClaudeState;
  prepareClaudeCredentials : string → Result string;
  prepareCodexCredentials : string → Result string;
  probeWorktreeGitMetadata : string → Result (option GitMetadataProbe);
  ensure : list MountPlanDirectory → list MountPlanFile → Result ();
}.

Definition with_git_metadata (probes : MountProbes) (gitMetadata : option GitMetadataProbe) : MountProbes := {|
  mb_direnvDataDir := mb_direnvDataDir probes; mb_agentProbes := mb_agentProbes probes;
  mb_extraAgentProbes := mb_extraAgentProbes probes; mb_nixConfRealPath := mb_nixConfRealPath probes;
  mb_nixBinPath := mb_nixBinPath probes; mb_gitConfigExists := mb_gitConfigExists probes;
  mb_resolvedExtraMounts := mb_resolvedExtraMounts probes; mb_resolvedEnvEntries := mb_resolvedEnvEntries probes;
  mb_gitWorktreeMainRoot := mb_gitWorktreeMainRoot probes; mb_localConfigPaths := mb_localConfigPaths probes;
  mb_gitMetadata := gitMetadata |}.

(** `cond ? yield* e : undefined` *)
Definition when {A} (cond : bool) (e : Result A) : Result (option A) :=
  if cond then v ← e; Ok (Some v) else Ok None.

Definition run_mount_stage (service : MountSetupService) (input : MountStageInput) (mountProbes : MountProbes)
    (devcontainer : option DevcontainerMountInput) : Result ContainerPlan :=
  let profile := mi_profile input in
  let home := he_home (mi_host input) in
  let isDevcontainer := match devcontainer with Some _ => true | None => false end in
  let uses := usesProxiedCredentials (pr_agent profile) (pr_extraAgents profile) (pr_auth profile) in
  let proxiedClaudeCredentials := uses AgentClaude false in
  let usesPrivateClaudeRoot :=
    usesAgent (pr_agent profile) (pr_extraAgents profile) AgentClaude &&
    (pr_protectSettings profile || proxiedClaudeCredentials) in
  protectedState ← when usesPrivateClaudeRoot
                     (prepareClaudeState service home (negb proxiedClaudeCredentials) (pr_protectSettings profile));
  claudeCredentialsFile ← when proxiedClaudeCredentials (prepareClaudeCredentials service home);
  codexAuthFile ← when (uses AgentCodex isDevcontainer) (prepareCodexCredentials service home);
  worktreeGitMetadata ← match given_path (ws_mountDir (mi_workspace input)) with
                        | Some _ => probeWorktreeGitMetadata service (resolve process_cwd [ws_workDir (mi_workspace input)])
                        | None => Ok None
                        end;
  plan ← planMount input
           (with_git_metadata mountProbes (mergeGitMetadata (mb_gitMetadata mountProbes) worktreeGitMetadata))
           devcontainer protectedState claudeCredentialsFile codexAuthFile;
  _ ← ensure service (mp_directories plan) (mp_files plan);
  Ok (mergeContainerPlan (mi_container input) (mp_containerPatch plan)).
End Plan.
