(* ===== verification/MountLaws.v ===== *)
(** * Laws of the mounts (stages/mount/stage.ts)

    What a container sees of the workspace: the configuration and the git metadata
    that the host runs code from are read-only, and no directory above them can be
    renamed; a directory of the root whose name begins with two dots is the exception,
    [dotted_directory_unprotected]. *)
From S2P Require Import Prelude JsString Json AuthzTypes AuthzConfig NodePath Protocol HostMatch HostMatchLaws HostKeys.
From S2P Require Import ContainerPlan Agents MountPlan.

(** ** Results *)

Lemma bind_Ok {A B} (e : Result A) (f : A → Result B) b : (e ≫= f) = Ok b → ∃ a, e = Ok a ∧ f a = Ok b.
Proof. destruct e as [a|]; [by exists a|done]. Qed.

Ltac bind_ok H :=
  let a := fresh "a" in let E := fresh "E" in apply bind_Ok in H as (a & E & H).

Lemma mapM_Ok_Forall2 {A B} (f : A → Result B) l : ∀ k, mapM f l = Ok k → Forall2 (λ x y, f x = Ok y) l k.
Proof.
  induction l as [|x l IH]; intros k Hk; cbn in Hk.
  - injection Hk as <-. constructor.
  - bind_ok Hk. bind_ok Hk. injection Hk as <-. constructor; [done|by apply IH].
Qed.

Lemma fold_result_rel {A B} (R : A → A → Prop) `{!PreOrder R} (f : A → B → Result A) l :
  (∀ a x a', f a x = Ok a' → R a a') → ∀ a a', fold_result f a l = Ok a' → R a a'.
Proof.
  intros Hf. induction l as [|x l IH]; intros a a' H; cbn in H; [injection H as <-; reflexivity|].
  bind_ok H. etransitivity; [by eapply Hf|by apply IH].
Qed.

(** ** The mounts only grow *)

Definition grows (d d' : Draft) : Prop := dr_mounts d `prefix_of` dr_mounts d'.

#[export] Instance grows_preorder : PreOrder grows.
Proof. split; [intros d; unfold grows; done|intros d1 d2 d3; unfold grows; by etrans]. Qed.

Create HintDb mounts discriminated.

Lemma grows_refl d : grows d d.
Proof. done. Qed.

Lemma grows_set_env d k v d' : grows d d' → grows d (set_env k v d').
Proof. done. Qed.

Lemma grows_with_env d l d' : grows d d' → grows d (with_env l d').
Proof. done. Qed.

Lemma grows_push_args d l d' : grows d d' → grows d (push_args l d').
Proof. done. Qed.

Lemma grows_push_run_args d l d' : grows d d' → grows d (push_run_args l d').
Proof. done. Qed.

Lemma grows_push_directory d l d' : grows d d' → grows d (push_directory l d').
Proof. done. Qed.

Lemma grows_push_file d p c d' : grows d d' → grows d (push_file p c d').
Proof. done. Qed.

Lemma grows_push_mounts d l d' : grows d d' → grows d (push_mounts l d').
Proof. intros Hd. etrans; [exact Hd|]. by exists l. Qed.

Lemma grows_addMount d m d' : grows d d' → grows d (addMount m d').
Proof. intros Hd. by apply grows_push_mounts, grows_push_args. Qed.

#[export] Hint Resolve grows_refl grows_set_env grows_with_env grows_push_args grows_push_run_args grows_push_directory
  grows_push_file grows_push_mounts grows_addMount : mounts.

Ltac grow := eauto 20 with mounts.

Section Plan.
Context `{HostRuntime} `{ObjectRuntime}.

Lemma grows_identity_env host d : grows d (identity_env host d).
Proof. unfold identity_env. destruct (he_uid host), (he_gid host); grow. Qed.

Lemma grows_nix host probes home d : grows d (nix_mounts host probes home d).
Proof.
  unfold nix_mounts. cbv zeta.
  destruct (given_path (mb_nixConfRealPath probes)), (given_path (mb_nixBinPath probes)); try case_match; grow.
Qed.

Lemma grows_extra_mount profile home wd d m d' : extra_mount profile home wd d m = Ok d' → grows d d'.
Proof.
  unfold extra_mount. destruct (negb _); [intros Hd; injection Hd as <-; grow|]. destruct (_ !! _); [|done].
  intros Hd. bind_ok Hd. injection Hd as <-. grow.
Qed.

Lemma grows_direnv profile probes home wd merged d d' : direnv_mounts profile probes home wd merged d = Ok d' → grows d d'.
Proof.
  unfold direnv_mounts. destruct (negb _); [intros Hd; injection Hd as <-; grow|]. intros Hd. bind_ok Hd.
  destruct a as [dataHome d1]. assert (grows d d1) as H1.
  { destruct (given_path _); [bind_ok E|]; injection E as <- <-; grow. }
  injection Hd as <-. destruct (mb_direnvDataDir probes); grow.
Qed.

Lemma grows_dbus host dbus d d' : dbus_mounts host dbus d = Ok d' → grows d d'.
Proof.
  unfold dbus_mounts. destruct dbus as [dir|]; [|intros Hd; injection Hd as <-; grow].
  destruct (he_uid host), (given_path (Some dir)); try done. intros Hd. injection Hd as <-. grow.
Qed.

Lemma grows_display display home d : grows d (display_mounts display home d).
Proof. destruct display; grow. Qed.

Lemma grows_applyAgent prior d args result d' : applyAgent prior d args result = Ok d' → grows d d'.
Proof. unfold applyAgent. intros Hd. bind_ok Hd. destruct a. injection Hd as <-. grow. Qed.

Lemma grows_extra_agent input home dc st cred codex d extra d' :
  extra_agent input home dc st cred codex d extra = Ok d' → grows d d'.
Proof. unfold extra_agent. destruct extra. intros Hd. bind_ok Hd. bind_ok Hd. by eapply grows_applyAgent. Qed.

Lemma grows_main_agent input probes home dc st cred codex d r :
  main_agent input probes home dc st cred codex d = Ok r → grows d r.1.
Proof. unfold main_agent. intros Hd. bind_ok Hd. bind_ok Hd. injection Hd as <-. by eapply grows_applyAgent. Qed.

(** The mounts of a plan begin with those of the workspace. *)
Lemma planMount_prefix input probes dc st cred codex plan :
  planMount input probes dc st cred codex = Ok plan →
  let workspace := mi_workspace input in
  let containerUser := resolveContainerUser (he_user (mi_host input)) in
  let containerHome := "/home/" +:+ containerUser in
  let mountSource := resolveWorkspaceMountSource workspace probes in
  let containerWorkDir := resolve process_cwd [ws_workDir workspace] in
  ∃ d1 d2 d3,
    workspace_mounts workspace mountSource containerHome containerWorkDir dc
      (set_env "NAS_HOME" containerHome (set_env "NAS_USER" containerUser empty_draft)) = Ok d1 ∧
    protected_workspace workspace probes mountSource containerWorkDir (match dc with Some _ => true | None => false end) d1 = Ok d2 ∧
    grows d2 d3 ∧ pa_mounts (mp_containerPatch plan) = Some (dr_mounts d3).
Proof.
  unfold planMount. destruct (_ && _ && _); [done|]. destruct (match pr_mask _ with Some _ => _ | None => _ end); [done|].
  cbv zeta. intros Hp. apply bind_Ok in Hp as (d1 & E1 & Hp). apply bind_Ok in Hp as (d2 & E2 & Hp).
  exists d1, d2. apply bind_Ok in Hp as (u & _ & Hp). apply bind_Ok in Hp as (d3 & E3 & Hp).
  apply bind_Ok in Hp as (s & _ & Hp). apply bind_Ok in Hp as (d4 & E4 & Hp). apply bind_Ok in Hp as (d5 & E5 & Hp).
  apply bind_Ok in Hp as (d6 & E6 & Hp). apply bind_Ok in Hp as ([d7 agentCommand] & E7 & Hp).
  apply bind_Ok in Hp as (d8 & E8 & Hp). exists d8. split_and!; [done|done| |by injection Hp as <-].
  eapply (fold_result_rel grows) in E3; [|intros ???; apply grows_extra_mount].
  eapply (fold_result_rel grows) in E8; [|intros ???; apply grows_extra_agent].
  apply grows_direnv in E4. apply grows_dbus in E6. apply grows_main_agent in E7. cbn [fst] in E7.
  assert (grows d4 d5) as H5 by (destruct (es_ops s); [|bind_ok E5]; injection E5 as <-; grow).
  trans d3; [|trans d4; [exact E4|]; trans d5; [done|]; etrans; [exact E6|]; etrans; [apply grows_display|];
    by trans d7].
  etrans; [|exact E3]. clear. destruct (mb_gitConfigExists probes), (mi_nixEnabled input && _ && _);
    try apply grows_addMount; try (etrans; [|apply grows_nix]); apply grows_identity_env.
Qed.

(** ** Pins *)

Lemma sort_by_In {A} (leb : A → A → bool) l x : In x (sort_by leb l) ↔ In x l.
Proof. split; apply Permutation_in; [|symmetry]; apply sort_by_perm. Qed.

Lemma planRenamePins_In readOnlyTargets mountSource mounted dir :
  In dir (planRenamePins readOnlyTargets mountSource mounted) ↔
  ¬ In dir mounted ∧ ∃ target, In target readOnlyTargets ∧ In dir (pins_of mountSource target).
Proof.
  unfold planRenamePins. rewrite sort_by_In, unique_In, filter_In, in_flat_map, negb_true_iff, includes_false. tauto.
Qed.

(** Whether a path leads up shows in its first segment. *)
Lemma below_within root below :
  Forall clean_segment (root ++ below) →
  isPathWithin (path_of (root ++ below)) (path_of root) = negb (startsWith (join "/" below) "..").
Proof.
  intros Hc. pose proof Hc as [Hr _]%Forall_app. apply Bool.eq_iff_eq_true. unfold isPathWithin.
  rewrite isWithin_below, !resolve_path_of, negb_true_iff by done. split; [|by exists below].
  intros (below' & <-%app_inv_head & Hs). done.
Qed.

Lemma within_first root s mid more :
  Forall clean_segment (root ++ (s :: mid) ++ more) →
  isPathWithin (path_of (root ++ (s :: mid) ++ more)) (path_of root) = negb (startsWith s "..").
Proof.
  intros Hc. rewrite below_within by done. pose proof Hc as [_ [Hs _]%Forall_cons]%Forall_app.
  f_equal. by apply (first_segment_up s (mid ++ more)).
Qed.

Lemma below_not_root root s mid more :
  Forall clean_segment (root ++ (s :: mid) ++ more) → String.eqb (path_of (root ++ (s :: mid) ++ more)) (path_of root) = false.
Proof.
  intros Hc. apply String.eqb_neq. intros E. pose proof Hc as [Hr _]%Forall_app. apply path_of_inj in E; [|done|done].
  apply (f_equal length) in E. rewrite !length_app in E. cbn in E. lia.
Qed.

(** The directory of a path below [root ++ s :: mid]. *)
Lemma dirname_below root s mid more x :
  Forall clean_segment (root ++ (s :: mid) ++ more ++ [x]) →
  Forall clean_segment (root ++ (s :: mid) ++ more) ∧
  dirname (path_of (root ++ (s :: mid) ++ more ++ [x])) = path_of (root ++ (s :: mid) ++ more).
Proof.
  replace (root ++ (s :: mid) ++ more ++ [x]) with ((root ++ (s :: mid) ++ more) ++ [x]) by by rewrite <- !app_assoc.
  intros [Hc Hx]%Forall_app. split; [done|]. apply Forall_cons in Hx as [Hx _]. by apply dirname_path_of.
Qed.

Lemma pin_walk_ancestors root s mid : ∀ fuel more,
  Forall clean_segment (root ++ (s :: mid) ++ more) → startsWith s ".." = false → (length more < fuel)%nat →
  In (path_of (root ++ s :: mid)) (pin_walk fuel (path_of root) (path_of (root ++ (s :: mid) ++ more))).
Proof.
  induction fuel as [|fuel IH]; intros more Hc Hs Hf; [lia|]. cbn [pin_walk].
  rewrite below_not_root, within_first, Hs by done. cbn [negb andb].
  destruct more as [|m ms]; [rewrite app_nil_r; apply in_eq|]. apply in_cons.
  destruct (exists_last (l := m :: ms)) as (more & x & E); [done|]. rewrite E in *. clear E m ms.
  destruct (dirname_below _ _ _ _ _ Hc) as [Hc' ->]. rewrite length_app in Hf. cbn in Hf. apply IH; [done|done|lia].
Qed.

Lemma pins_of_ancestors root s mid x rest :
  Forall clean_segment (root ++ (s :: mid) ++ x :: rest) →
  isPathWithin (path_of (root ++ (s :: mid) ++ x :: rest)) (path_of root) = true →
  In (path_of (root ++ s :: mid)) (pins_of (path_of root) (path_of (root ++ (s :: mid) ++ x :: rest))).
Proof.
  intros Hc Hw. unfold pins_of. rewrite Hw, below_not_root by done. cbn [negb orb].
  rewrite within_first, negb_true_iff in Hw by done. pose proof (path_of_length _ Hc) as Hlen.
  destruct (exists_last (l := x :: rest)) as (more & y & E); [done|]. rewrite E in *.
  destruct (dirname_below _ _ _ _ _ Hc) as [Hc' ->]. apply pin_walk_ancestors; [done|done|].
  rewrite !length_app in Hlen. cbn [length] in Hlen. lia.
Qed.

(** ** The protected paths *)

(** What the host runs code from: the files of git that the probes found, those that
    git would create, and the file of a linked worktree. *)
Definition git_files (workspace : WorkspaceState) (probes : MountProbes) : list string :=
  match mb_gitMetadata probes with
  | Some probe => gm_readOnlyPaths probe ++ gm_missingHookDirs probe ++ gm_missingCommonDirFiles probe
  | None => []
  end ++
  match given_path (ws_mountDir workspace) with
  | Some _ => [join_paths [resolve process_cwd [ws_workDir workspace]; ".git"]]
  | None => []
  end.

(** A path at or below a directory; the exception is one that goes on below it with a name
    that begins with two dots, which is taken for a path outside of the directory. *)
Definition held (p root : string) : Prop :=
  ∃ below, resolve_segments process_cwd [p] = resolve_segments process_cwd [root] ++ below ∧ ¬ dotted below.

(** The paths of the workspace that the agent must not change; in a Dev Container the
    whole directory of the configuration and the one that defines the container. *)
Inductive protected_path (workspace : WorkspaceState) (probes : MountProbes) (devcontainer : bool) : string → Prop :=
  | protected_config p :
      In p (mb_localConfigPaths probes) → held p (resolveWorkspaceMountSource workspace probes) →
      protected_path workspace probes devcontainer (if devcontainer then dirname p else p)
  | protected_git p :
      In p (git_files workspace probes) → held p (resolveWorkspaceMountSource workspace probes) →
      p ≠ resolveWorkspaceMountSource workspace probes →
      protected_path workspace probes devcontainer p
  | protected_definition :
      devcontainer = true →
      protected_path workspace probes devcontainer (resolve process_cwd [ws_workDir workspace] +:+ "/.devcontainer").

Lemma addMounts l : ∀ d, dr_mounts (fold_left (λ d m, addMount m d) l d) = dr_mounts d ++ l.
Proof.
  induction l as [|m l IH]; intros d; [by rewrite app_nil_r|]. cbn [fold_left]. rewrite IH.
  cbn. by rewrite <- app_assoc.
Qed.

Lemma push_files_mounts content l : ∀ d, dr_mounts (fold_left (λ d f, push_file f content d) l d) = dr_mounts d.
Proof. induction l as [|f l IH]; intros d; [done|]. cbn [fold_left]. by rewrite IH. Qed.

Lemma push_directories_mounts l : ∀ d, dr_mounts (fold_left (λ d f, push_directory f d) l d) = dr_mounts d.
Proof. induction l as [|f l IH]; intros d; [done|]. cbn [fold_left]. by rewrite IH. Qed.

Lemma workspace_mounts_list workspace mountSource home wd dc d d' :
  workspace_mounts workspace mountSource home wd dc d = Ok d' →
  ∃ rest, dr_mounts d' = dr_mounts d ++ rw (default mountSource (ws_maskedRoot workspace)) mountSource :: rest ∧
    match dc with
    | None => rest = []
    | Some dc => ∃ source, rest = [rw (dc_vscodeDir dc) (home +:+ "/.vscode-server"); ro source (wd +:+ "/.devcontainer")]
    end.
Proof.
  unfold workspace_mounts. cbv zeta. destruct dc as [dc|]; intros Hd.
  - bind_ok Hd. bind_ok E. injection E as <-. injection Hd as <-. cbn. rewrite <- !app_assoc.
    eexists. split; [done|]. by eexists.
  - bind_ok Hd. injection E as <-. injection Hd as <-. cbn. by exists [].
Qed.

(** The configurations with their sources. *)
Lemma config_mounts_targets workspace mountSource devcontainer paths configs :
  config_mounts workspace mountSource devcontainer paths = Ok configs →
  map snd configs = map (λ p, if devcontainer : bool then dirname p else p)
                      (List.filter (λ p, isPathWithin p mountSource) paths).
Proof.
  unfold config_mounts. intros Hm%mapM_Ok_Forall2. induction Hm as [|p [source target] l k Hp Hm IH]; [done|].
  cbn. f_equal; [|exact IH]. destruct devcontainer; [bind_ok Hp|]; by injection Hp as <- <-.
Qed.

Lemma sources_targets workspace mountSource targets gits :
  mapM (λ target, source ← viewSource workspace mountSource target; Ok (source, target)) targets = Ok gits →
  map snd gits = targets.
Proof.
  intros Hm%mapM_Ok_Forall2. induction Hm as [|p [source target] l k Hp Hm IH]; [done|].
  cbn. f_equal; [|exact IH]. bind_ok Hp. by injection Hp as <- <-.
Qed.

Lemma pins_targets workspace mountSource targets pins :
  mapM (λ dir, source ← viewSource workspace mountSource dir; Ok (rw source dir)) targets = Ok pins →
  map ms_target pins = targets.
Proof.
  intros Hm%mapM_Ok_Forall2. induction Hm as [|p m l k Hp Hm IH]; [done|].
  cbn. f_equal; [|exact IH]. bind_ok Hp. by injection Hp as <-.
Qed.

(** The read-only targets, the pins, and the mounts that are made of them. *)
Lemma protected_workspace_mounts workspace probes mountSource wd devcontainer d d' :
  protected_workspace workspace probes mountSource wd devcontainer d = Ok d' →
  ∃ configs gits pins,
    map snd configs = map (λ p, if devcontainer : bool then dirname p else p)
                        (List.filter (λ p, isPathWithin p mountSource) (mb_localConfigPaths probes)) ∧
    map snd gits = gp_readOnlyPaths (planGitProtection (mb_gitMetadata probes) mountSource
      (match given_path (ws_mountDir workspace) with Some _ => [join_paths [wd; ".git"]] | None => [] end)
      (map ms_target (dr_mounts d) ++ map snd configs)) ∧
    (let readOnlyTargets := map ms_target (List.filter ms_readOnly (dr_mounts d)) ++ map snd (configs ++ gits) in
     map ms_target pins = planRenamePins readOnlyTargets mountSource (map ms_target (dr_mounts d) ++ readOnlyTargets)) ∧
    dr_mounts d' = dr_mounts d ++ pins ++ map (λ '(source, target), ro source target) (configs ++ gits).
Proof.
  unfold protected_workspace. cbv zeta. intros Hd. apply bind_Ok in Hd as (configs & Ec & Hd).
  apply bind_Ok in Hd as (gits & Eg & Hd). apply bind_Ok in Hd as (pins & Ep & Hd).
  exists configs, gits, pins. apply config_mounts_targets in Ec. apply sources_targets in Eg. apply pins_targets in Ep.
  rewrite push_files_mounts, push_directories_mounts in Ep. split_and!; [done|done|done|].
  injection Hd as <-. rewrite !addMounts, push_files_mounts, push_directories_mounts. by rewrite <- app_assoc.
Qed.

(** Every protected path is among the read-only targets, but for the state of the
    editor's server, which a Dev Container mounts writable. *)
Lemma protected_among workspace probes mountSource home wd dc d d1 (configs gits : list (string * string)) :
  mountSource = resolveWorkspaceMountSource workspace probes →
  wd = resolve process_cwd [ws_workDir workspace] → dr_mounts d = [] →
  workspace_mounts workspace mountSource home wd dc d = Ok d1 →
  let devcontainer := match dc with Some _ => true | None => false end in
  map snd configs = map (λ p, if devcontainer : bool then dirname p else p)
                      (List.filter (λ p, isPathWithin p mountSource) (mb_localConfigPaths probes)) →
  map snd gits = gp_readOnlyPaths (planGitProtection (mb_gitMetadata probes) mountSource
    (match given_path (ws_mountDir workspace) with Some _ => [join_paths [wd; ".git"]] | None => [] end)
    (map ms_target (dr_mounts d1) ++ map snd configs)) →
  ∀ p, protected_path workspace probes devcontainer p → (devcontainer = true → p ≠ home +:+ "/.vscode-server") →
    In p (map ms_target (List.filter ms_readOnly (dr_mounts d1)) ++ map snd (configs ++ gits)).
Proof.
  intros -> -> Hd Hm devcontainer Hc Hg p Hp Hv. apply workspace_mounts_list in Hm as (rest & Hm & Hr).
  rewrite Hd in Hm. cbn [app] in Hm. rewrite map_app, !in_app_iff. destruct Hp as [p Hin Hw%isWithin_segments|p Hin Hw%isWithin_segments Hne|Hdc].
  - right. left. rewrite Hc. apply in_map_iff. exists p. split; [done|]. by apply filter_In.
  - destruct (in_dec String.string_dec p (map snd configs)) as [|Hn]; [by right; left|].
    destruct (in_dec String.string_dec p (map ms_target (dr_mounts d1))) as [Ht|Hnt].
    + left. rewrite Hm in Ht |- *. cbn in Ht. destruct Ht as [Ht|Ht]; [by destruct Hne|].
      destruct dc as [dc|]; [|by rewrite Hr in Ht]. destruct Hr as [source ->]. cbn in Ht |- *.
      destruct Ht as [Ht|[Ht|[]]]; [by destruct (Hv eq_refl)|by left].
    + right. right. rewrite Hg. cbn [gp_readOnlyPaths planGitProtection].
      apply sort_by_In, unique_In. rewrite !in_app_iff, !filter_In. unfold isPathWithin.
      rewrite Hw. assert (negb (String.eqb p (resolveWorkspaceMountSource workspace probes)) = true) as ->
        by (apply negb_true_iff; by apply String.eqb_neq).
      assert (negb (includes (map ms_target (dr_mounts d1) ++ map snd configs) p) = true) as ->.
      { apply negb_true_iff, includes_false. rewrite in_app_iff. tauto. }
      cbn [andb]. unfold git_files in Hin. destruct (mb_gitMetadata probes); rewrite ?in_app_iff in *; tauto.
  - left. unfold devcontainer in Hdc. destruct dc as [dc|]; [|done]. destruct Hr as [source ->]. rewrite Hm. cbn. by left.
Qed.

(** What a plan makes of the protected paths: read-only targets, and mounts above. *)
Lemma planMount_protects input probes dc st cred codex plan :
  planMount input probes dc st cred codex = Ok plan →
  let workspace := mi_workspace input in
  let mountSource := resolveWorkspaceMountSource workspace probes in
  let devcontainer := match dc with Some _ => true | None => false end in
  ∃ mounts targets, pa_mounts (mp_containerPatch plan) = Some mounts ∧
    (∀ p, protected_path workspace probes devcontainer p →
       (devcontainer = true → p ≠ "/home/" +:+ resolveContainerUser (he_user (mi_host input)) +:+ "/.vscode-server") →
       In p targets) ∧
    (∀ p, In p targets → ∃ m, In m mounts ∧ ms_readOnly m = true ∧ ms_target m = p) ∧
    (∀ p dir, In p targets → In dir (pins_of mountSource p) → In dir (map ms_target mounts)) ∧
    In mountSource (map ms_target mounts).
Proof.
  intros Hp. apply planMount_prefix in Hp as (d1 & d2 & d3 & E1 & E2 & [later Hgrow] & Hm).
  cbv zeta. set (workspace := mi_workspace input) in *. set (mountSource := resolveWorkspaceMountSource workspace probes) in *.
  set (devcontainer := match dc with Some _ => true | None => false end) in *.
  apply protected_workspace_mounts in E2 as (configs & gits & pins & Hc & Hg & Hpins & Hd2). cbv zeta in Hpins.
  pose proof (protected_among workspace probes mountSource _ _ dc
    (set_env "NAS_HOME" _ (set_env "NAS_USER" _ empty_draft)) d1 configs gits eq_refl eq_refl eq_refl E1 Hc Hg) as Hamong.
  set (protected := configs ++ gits) in *.
  set (targets := map ms_target (List.filter ms_readOnly (dr_mounts d1)) ++ map snd protected) in *.
  exists (dr_mounts d3), targets. split_and!; [done|..].
  - intros p Hp Hv. apply Hamong; [exact Hp|]. intros Hdc. by rewrite sapp_assoc; apply Hv.
  - intros p Hin. rewrite Hgrow, Hd2. unfold targets in Hin. apply in_app_iff in Hin as [Hin|Hin].
    + apply in_map_iff in Hin as (m & <- & [Hin Hro]%filter_In). exists m. rewrite !in_app_iff. tauto.
    + apply in_map_iff in Hin as ([source target] & <- & Hin). exists (ro source target). split; [|done].
      rewrite !in_app_iff. left. right. right. apply in_map_iff. by exists (source, target).
  - intros p dir Hin Hdir. destruct (in_dec String.string_dec dir (map ms_target (dr_mounts d1) ++ targets)) as [Hmounted|Hn].
    + apply in_app_iff in Hmounted as [Hmounted|Hmounted]; [rewrite Hgrow, Hd2, !map_app, !in_app_iff; tauto|].
      unfold targets in Hmounted. rewrite Hgrow, Hd2, !map_app, !in_app_iff. apply in_app_iff in Hmounted as [Hin'|Hin'].
      * apply in_map_iff in Hin' as (m & <- & [Hin' Hro]%filter_In). do 2 left. by apply in_map.
      * left. right. right. rewrite map_map. apply in_map_iff in Hin' as ([source target] & <- & Hin').
        apply in_map_iff. by exists (source, target).
    + assert (In dir (map ms_target pins)) as Hpin by (rewrite Hpins; apply planRenamePins_In; eauto).
      rewrite Hgrow, Hd2, !map_app, !in_app_iff. tauto.
  - rewrite Hgrow, Hd2. apply workspace_mounts_list in E1 as (rest & Hrest & _). rewrite Hrest, !map_app, !in_app_iff.
    do 2 left. right. cbn. by left.
Qed.


(** C28.  The way to a protected path cannot be renamed: the root of the workspace mount
    and every directory between it and the path is itself a mount point of the
    container, where a rename fails.  The exceptions are those of the protected paths:
    the way must not begin below the root with a name that begins with two dots. *)
Theorem protected_paths_pinned input probes dc st cred codex plan
    (Hplan : planMount input probes dc st cred codex = Ok plan) root below rest
    (Hp : protected_path (mi_workspace input) probes (match dc with Some _ => true | None => false end)
            (path_of (root ++ below ++ rest)))
    (Heditor : dc ≠ None → path_of (root ++ below ++ rest) ≠
                 "/home/" +:+ resolveContainerUser (he_user (mi_host input)) +:+ "/.vscode-server")
    (Hroot : resolveWorkspaceMountSource (mi_workspace input) probes = path_of root)
    (Hdots : ¬ dotted (below ++ rest)) (Hclean : Forall clean_segment (root ++ below ++ rest)) :
  In (path_of (root ++ below)) (map ms_target (default [] (pa_mounts (mp_containerPatch plan)))).
Proof.
  apply planMount_protects in Hplan as (mounts & targets & -> & Hin & Hro & Hpins & Hsource). cbn [default].
  rewrite Hroot in Hpins, Hsource. destruct below as [|s mid]; [by rewrite app_nil_r|].
  assert (In (path_of (root ++ (s :: mid) ++ rest)) targets) as Ht.
  { apply Hin; [done|]. intros Hdc. apply Heditor. by destruct dc. }
  destruct rest as [|x rest].
  - apply Hro in Ht as (m & Hm & _ & Et). rewrite app_nil_r in Et. rewrite <- Et. by apply in_map.
  - apply (Hpins _ _ Ht), pins_of_ancestors; [done|]. apply isWithin_segments. exists ((s :: mid) ++ x :: rest).
    split; [|done]. pose proof Hclean as [Hr _]%Forall_app. by rewrite !resolve_path_of.
Qed.
End Plan.

(** ** A session *)

Definition no_inherited : ObjectRuntime := {| inherited_text := λ key, "function " +:+ key +:+ "() { [native code] }" |}.

(** A worktree of "/w/app" at "/w/app/wt/x" with a configuration, the files of git that
    were found and a directory of hooks that is to be made. *)
Definition sample_profile (entries : list AgentType) : Profile := {|
  pr_agent := AgentCodex; pr_extraAgents := entries; pr_mode := None; pr_protectSettings := false; pr_auth := None;
  pr_secrets := []; pr_mask := None; pr_nixMountSocket := true; pr_direnvEnable := false;
  pr_extraMounts := ["data"; "~/cache"] |}.

Definition sample_input : MountStageInput := {|
  mi_host := {| he_home := "/home/me"; he_user := "me"; he_uid := Some 1000%Z; he_gid := Some 100%Z; he_env := [] |};
  mi_profile := sample_profile [];
  mi_workspace := {| ws_workDir := "/w/app/wt/x"; ws_mountDir := Some "/w/app"; ws_imageName := "nas"; ws_maskedRoot := None |};
  mi_nixEnabled := true; mi_dbus := None; mi_display := None; mi_container := emptyContainerPlan "nas" "/w/app";
  mi_hasHostNix := true |}.

Definition sample_probes : MountProbes := {|
  mb_direnvDataDir := None;
  mb_agentProbes := ProbesCodex {| codexDirExists := true; codexBinPath := Some "/opt/codex";
    codexCodeModeHostBinPath := None; codexSettingsFiles := [] |};
  mb_extraAgentProbes := []; mb_nixConfRealPath := Some "/etc/nix/nix.conf"; mb_nixBinPath := None;
  mb_gitConfigExists := true;
  mb_resolvedExtraMounts := [{| xm_normalizedSrc := "/data"; xm_srcExists := true; xm_readOnly := true; xm_index := 0 |}];
  mb_resolvedEnvEntries := [{| re_key := "PATH"; re_value := "/opt/bin"; re_index := 0; re_keySource := "key";
    re_mode := EnvPrefix; re_separator := ":" |}];
  mb_gitWorktreeMainRoot := None; mb_localConfigPaths := ["/w/app/wt/x/.nas/config.pkl"; "/w/.nas/config.pkl"];
  mb_gitMetadata := Some {| gm_readOnlyPaths := ["/w/app/.git/config"; "/w/app/.git/modules/a/config"];
    gm_missingHookDirs := ["/w/app/.git/hooks"]; gm_missingCommonDirFiles := []; gm_skippedSymlinks := [] |} |}.

Definition session_plan : Result MountPlan :=
  @planMount plain_runtime no_inherited sample_input sample_probes None None None None.

Example sample_mounts :
  match session_plan with Ok plan => map mount_arg (default [] (pa_mounts (mp_containerPatch plan))) | Err _ => [] end =
  ["/w/app:/w/app"; "/w/app/.git:/w/app/.git"; "/w/app/wt:/w/app/wt"; "/w/app/.git/modules:/w/app/.git/modules";
   "/w/app/wt/x:/w/app/wt/x"; "/w/app/.git/modules/a:/w/app/.git/modules/a"; "/w/app/wt/x/.nas:/w/app/wt/x/.nas";
   "/w/app/wt/x/.nas/config.pkl:/w/app/wt/x/.nas/config.pkl:ro"; "/w/app/.git/config:/w/app/.git/config:ro";
   "/w/app/.git/hooks:/w/app/.git/hooks:ro"; "/w/app/wt/x/.git:/w/app/wt/x/.git:ro";
   "/w/app/.git/modules/a/config:/w/app/.git/modules/a/config:ro"; "/nix:/nix";
   "/etc/nix/nix.conf:/tmp/nas-host-nix.conf:ro"; "/home/me/.cache/nix:/home/me/.cache/nix";
   "/home/me/.config/git:/home/me/.config/git:ro"; "/data:/w/app/wt/x/data:ro"; "/home/me/.codex:/home/me/.codex";
   "/opt/codex:/usr/local/bin/codex:ro"]%string.
Proof. vm_compute. reflexivity. Qed.


Lemma protected_paths_pinned_witness :
  ∃ plan, session_plan = Ok plan ∧
    In "/w/app/.git/modules" (map ms_target (default [] (pa_mounts (mp_containerPatch plan)))).
Proof.
  unfold session_plan. destruct (planMount _ _ _ _ _ _) as [plan|] eqn:E; [|vm_compute in E; congruence]. exists plan. split; [done|].
  apply (protected_paths_pinned (H := plain_runtime) (H0 := no_inherited) sample_input sample_probes None None None None
    plan E ["w"; "app"] [".git"; "modules"] ["a"; "config"]).
  - apply protected_git; [vm_compute; tauto| |vm_compute; congruence].
    exists [".git"; "modules"; "a"; "config"]. split; [vm_compute; reflexivity|].
    intros (name & rest & En & Hd). injection En as <- _. discriminate Hd.
  - done.
  - vm_compute. reflexivity.
  - intros (name & rest & En & Hd). injection En as <- _. discriminate Hd.
  - repeat constructor; done.
Defined.

(** A directory whose name begins with two dots is taken for one outside of the mount:
    a configuration below it is not protected. *)
Lemma dotted_directory_unprotected :
  @config_mounts plain_runtime (mi_workspace sample_input) "/w/app" false
    ["/w/app/..d/.nas/config.pkl"; "/w/app/d/.nas/config.pkl"] =
  Ok [("/w/app/d/.nas/config.pkl", "/w/app/d/.nas/config.pkl")].
Proof. vm_compute. reflexivity. Qed.
