(* ===== verification/EnvLaws.v ===== *)
(** * The environment of the profile (stages/mount/stage.ts, pipeline/env_ops.ts)

    An entry sets a variable, or puts text before or after its value.  Where the value
    is known when the container is planned the stage computes it; where only the image
    knows it, an operation is left for the entrypoint.  Together they do what the
    entries say, in their order. *)
From S2P Require Import Prelude JsString Json NodePath Protocol HostMatch HostMatchLaws ContainerPlan Agents MountPlan.

(** ** Maps over maps *)

Lemma map_get_set_all (es : list (string * string)) : ∀ (m : list (string * string)) k,
  List.NoDup (map_keys es) →
  map_get (map_set_all m es) k = match map_get es k with Some v => Some v | None => map_get m k end.
Proof.
  induction es as [|[k' v] es IH]; intros m k Hnd; [done|]. cbn in Hnd. apply List.NoDup_cons_iff in Hnd as [Hn Hnd].
  change (map_set_all m ((k', v) :: es)) with (map_set_all (map_set m k' v) es). rewrite IH by done. cbn [map_get].
  rewrite map_get_set. case_decide as Hk.
  - subst k'. rewrite decide_True by done. apply map_get_None in Hn. by rewrite Hn.
  - by rewrite decide_False by congruence.
Qed.

(** Two environments that give every variable the same value. *)
Definition same_env (a b : list (string * string)) : Prop := ∀ k, map_get a k = map_get b k.

#[export] Instance same_env_equiv : Equivalence same_env.
Proof. split; unfold same_env; [done|congruence|]. intros a b c H1 H2 k. by rewrite H1. Qed.

#[export] Instance map_set_proper : Proper (same_env ==> eq ==> eq ==> same_env) map_set.
Proof. intros a b H k _ <- v _ <- x. rewrite !map_get_set. case_decide; [done|apply H]. Qed.

#[export] Instance apply_op_proper : Proper (same_env ==> eq ==> same_env) apply_op.
Proof. intros a b H op _ <-. unfold apply_op. rewrite (H (eo_key op)). by rewrite H. Qed.

#[export] Instance apply_ops_proper : Proper (eq ==> same_env ==> same_env) (fold_left apply_op).
Proof.
  intros ops _ <-. induction ops as [|op ops IH]; intros a b Hab; [done|].
  cbn. apply IH. by rewrite Hab.
Qed.

Section Entries.
Context `{HostRuntime} `{ObjectRuntime} (profile : Profile) (containerHome containerWorkDir : string).

(** ** The meaning of the entries *)

(** An entry on an environment whose values are all known. *)
Definition run_entry (env : list (string * string)) (entry : ResolvedEnvEntry) : list (string * string) :=
  match entry_value profile containerHome containerWorkDir entry with
  | Err _ => env
  | Ok value =>
      let op mode := {| eo_mode := mode; eo_key := re_key entry; eo_value := value; eo_separator := re_separator entry |} in
      match re_mode entry with
      | EnvSet => map_set env (re_key entry) value
      | EnvPrefix => apply_op env (op OpPrefix)
      | EnvSuffix => apply_op env (op OpSuffix)
      end
  end.

(** What the container has once its entrypoint has run: the variables of the image,
    those the stages before set, those of the profile, and the operations. *)
Definition container_env (image prior : list (string * string)) (s : EnvState) : list (string * string) :=
  fold_left apply_op (es_ops s) (map_set_all image (map_set_all prior (es_envVars s))).

(** ** Operations on other variables *)

Lemma apply_op_other env op k : k ≠ eo_key op → map_get (apply_op env op) k = map_get env k.
Proof. intros Hk. unfold apply_op. by rewrite map_get_set, decide_False. Qed.

Lemma apply_ops_other ops : ∀ env k, (∀ op, In op ops → eo_key op ≠ k) → map_get (fold_left apply_op ops env) k = map_get env k.
Proof.
  induction ops as [|op ops IH]; intros env k Hk; [done|]. cbn. rewrite IH by (intros; apply Hk; by right).
  apply apply_op_other. apply not_eq_sym, Hk. by left.
Qed.

(** Setting a variable that no operation touches commutes with them. *)
Lemma apply_ops_set ops : ∀ env k v, (∀ op, In op ops → eo_key op ≠ k) →
  same_env (fold_left apply_op ops (map_set env k v)) (map_set (fold_left apply_op ops env) k v).
Proof.
  induction ops as [|op ops IH]; intros env k v Hk; [done|]. cbn.
  assert (same_env (apply_op (map_set env k v) op) (map_set (apply_op env op) k v)) as ->.
  { intros x. unfold apply_op. assert (eo_key op ≠ k) as Hne by (apply Hk; by left).
    rewrite (map_get_set env), decide_False by done. rewrite !map_get_set. repeat case_decide; congruence. }
  apply IH. intros; apply Hk; by right.
Qed.

(** A variable that is set has no use for the operations before. *)
Lemma apply_ops_filter ops : ∀ env k v,
  same_env (map_set (fold_left apply_op (List.filter (λ op, negb (String.eqb (eo_key op) k)) ops) env) k v)
           (map_set (fold_left apply_op ops env) k v).
Proof.
  assert (∀ ops a b k, (∀ x, x ≠ k → map_get a x = map_get b x) →
    ∀ x, x ≠ k → map_get (fold_left apply_op (List.filter (λ op, negb (String.eqb (eo_key op) k)) ops) a) x =
                 map_get (fold_left apply_op ops b) x) as Hf.
  { clear. intros ops. induction ops as [|op ops IH]; intros a b k Hab x Hx; [by apply Hab|]. cbn.
    destruct (String.eqb_spec (eo_key op) k) as [E|E]; cbn; apply IH; try done.
    - intros y Hy. rewrite Hab by done. symmetry. apply apply_op_other. congruence.
    - intros y Hy. unfold apply_op. rewrite (Hab (eo_key op)) by done. rewrite !map_get_set. case_decide; [done|by apply Hab]. }
  intros env k v x. rewrite !map_get_set. case_decide as Hx; [done|]. apply (Hf ops env env k); [done|congruence].
Qed.

(** ** The stage computes the meaning *)

(** What holds between two entries: the known values are those of the container's
    static environment, and operations concern other variables. *)
Record env_invariant (prior : list (string * string)) (s : EnvState) : Prop := {
  inv_keys : List.NoDup (map_keys (es_envVars s));
  inv_merged : same_env (es_merged s) (map_set_all prior (es_envVars s));
  inv_ops : ∀ op, In op (es_ops s) → map_get (es_merged s) (eo_key op) = None;
}.

Ltac unique_keys := eauto using map_set_NoDup, map_set_all_NoDup, inv_keys.

Lemma static_get image prior s k :
  List.NoDup (map_keys prior) → env_invariant prior s →
  map_get (map_set_all image (map_set_all prior (es_envVars s))) k =
  match map_get (es_merged s) k with Some v => Some v | None => map_get image k end.
Proof.
  intros Hp Hi. rewrite map_get_set_all by unique_keys. by rewrite (inv_merged _ _ Hi k).
Qed.

(** A stored value is a value of the static environment. *)
Lemma store_static image prior s key value ops :
  List.NoDup (map_keys prior) → env_invariant prior s → key ≠ "__proto__" →
  same_env (map_set_all image (map_set_all prior (es_envVars (store key value ops s))))
           (map_set (map_set_all image (map_set_all prior (es_envVars s))) key value).
Proof.
  intros Hp Hi Hk x. cbn [es_envVars store]. unfold object_set. rewrite (proj2 (String.eqb_neq key "__proto__")) by done.
  rewrite map_get_set, !map_get_set_all, map_get_set
    by unique_keys.
  by case_decide.
Qed.

Lemma store_invariant prior s key value ops :
  env_invariant prior s → key ≠ "__proto__" → (∀ op, In op ops → In op (es_ops s) ∧ eo_key op ≠ key) →
  env_invariant prior (store key value ops s).
Proof.
  intros Hi Hk Hops. assert (∀ o, object_set o key value = map_set o key value) as Hset.
  { intros o. unfold object_set. by rewrite (proj2 (String.eqb_neq key "__proto__")). }
  split; cbn [store es_envVars es_merged es_ops]; rewrite ?Hset.
  - unique_keys.
  - intros x. rewrite map_get_set_all by unique_keys. rewrite !map_get_set.
    case_decide; [done|]. rewrite (inv_merged _ _ Hi x). by rewrite map_get_set_all by unique_keys.
  - intros op [Hin Hne]%Hops. rewrite map_get_set_ne by done. by apply Hi.
Qed.

Lemma merged_value_own o key :
  ¬ In key object_prototype_names → merged_value o key = map_get o key.
Proof.
  intros Hk. unfold merged_value, prop_read. destruct (map_get o key); [done|].
  by rewrite (proj2 (includes_false _ _) Hk).
Qed.

(** A stored value replaces the variable, where the remaining operations are those on
    other variables. *)
Lemma container_env_store image prior s key value ops :
  List.NoDup (map_keys prior) → env_invariant prior s → key ≠ "__proto__" → (∀ op, In op ops → eo_key op ≠ key) →
  same_env (container_env image prior (store key value ops s))
    (map_set (fold_left apply_op ops (map_set_all image (map_set_all prior (es_envVars s)))) key value).
Proof.
  intros Hp Hi Hk Hops. unfold container_env. change (es_ops (store key value ops s)) with ops.
  rewrite (store_static image prior s key value ops Hp Hi Hk). by apply apply_ops_set.
Qed.

(** An entry whose variable is not taken for one that is known: setting is always
    understood, but for "__proto__"; extending is not for the names that every object
    has. *)
Record own_name (entry : ResolvedEnvEntry) : Prop := {
  on_proto : re_key entry ≠ "__proto__";
  on_extends : re_mode entry ≠ EnvSet → ¬ In (re_key entry) object_prototype_names;
}.

Lemma entry_applied image prior s entry value :
  List.NoDup (map_keys prior) → env_invariant prior s → own_name entry →
  entry_value profile containerHome containerWorkDir entry = Ok value →
  env_invariant prior (apply_entry entry value s) ∧
  same_env (container_env image prior (apply_entry entry value s)) (run_entry (container_env image prior s) entry).
Proof.
  intros Hp Hi [Hproto Hn] Hv. unfold run_entry. rewrite Hv. cbv zeta. unfold apply_entry.
  assert (re_mode entry ≠ EnvSet → merged_value (es_merged s) (re_key entry) = map_get (es_merged s) (re_key entry)) as Hown
    by (intros Hm; by apply merged_value_own, Hn).
  (* a value that is known *)
  assert (∀ old v op, map_get (es_merged s) (re_key entry) = Some old → eo_key op = re_key entry →
    match eo_mode op with OpPrefix => eo_value op +:+ eo_separator op +:+ old
                        | OpSuffix => old +:+ eo_separator op +:+ eo_value op end = v →
    env_invariant prior (store (re_key entry) v (es_ops s) s) ∧
    same_env (container_env image prior (store (re_key entry) v (es_ops s) s))
      (apply_op (container_env image prior s) op)) as Hknown.
  { intros old v op Hold Hop <-.
    assert (∀ op, In op (es_ops s) → eo_key op ≠ re_key entry) as Hops.
    { intros op' Hin E. apply (inv_ops _ _ Hi) in Hin. congruence. }
    split; [apply store_invariant; [done|done|]; intros op' Hin; split; [done|by apply Hops]|].
    assert (map_get (container_env image prior s) (re_key entry) = Some old) as Hget.
    { unfold container_env. rewrite (apply_ops_other _ _ _ Hops). by rewrite (static_get image prior s _ Hp Hi), Hold. }
    rewrite container_env_store by done. unfold apply_op. by rewrite Hop, Hget. }
  (* a value that only the container knows *)
  assert (∀ op, map_get (es_merged s) (re_key entry) = None → eo_key op = re_key entry →
    env_invariant prior {| es_envVars := es_envVars s; es_merged := es_merged s; es_ops := es_ops s ++ [op] |} ∧
    same_env (container_env image prior {| es_envVars := es_envVars s; es_merged := es_merged s; es_ops := es_ops s ++ [op] |})
      (apply_op (container_env image prior s) op)) as Hdeferred.
  { intros op Hold Hop. split.
    - destruct Hi as [H1 H2 H3]. split; cbn; [done|done|]. intros op' [Hin|[<-|[]]]%in_app_iff; [by apply H3|congruence].
    - unfold container_env. cbn [es_ops es_envVars]. by rewrite fold_left_app. }
  destruct (re_mode entry); try rewrite Hown by done; clear Hown Hn;
    destruct (map_get (es_merged s) (re_key entry)) as [old|] eqn:Hold; try (by eapply Hknown); try (by apply Hdeferred).
  all: assert (∀ op, In op (List.filter (λ op, negb (String.eqb (eo_key op) (re_key entry))) (es_ops s)) →
         In op (es_ops s) ∧ eo_key op ≠ re_key entry) as Hops
         by (intros op [Hin Hne%negb_true_iff%String.eqb_neq]%filter_In; done).
  all: split; [by apply store_invariant|]; rewrite container_env_store by (done || apply Hops); apply apply_ops_filter.
Qed.

(** C29.  The environment the profile asks for: what the stage stores and what it leaves
    to the entrypoint make, on every image, of every variable exactly what setting,
    prefixing and suffixing it in the order of the entries makes of the variables of
    the image, of the stages before and of the session.  Left out are entries that
    extend a variable named like a member of `Object.prototype`, as "constructor", or
    that are for "__proto__": [prototype_name_is_known] shows what the stage stores. *)
Theorem env_entries_applied image prior s entries s'
    (Hrun : fold_result (env_step profile containerHome containerWorkDir) s entries = Ok s')
    (Hprior : List.NoDup (map_keys prior)) (Hkeys : List.NoDup (map_keys (es_envVars s)))
    (Hmerged : es_merged s = map_set_all prior (es_envVars s)) (Hops : es_ops s = [])
    (Hnames : ∀ entry, In entry entries → own_name entry) k :
  map_get (container_env image prior s') k = map_get (fold_left run_entry entries (container_env image prior s)) k.
Proof.
  assert (env_invariant prior s) as Hi by (split; [done|by rewrite Hmerged|by rewrite Hops]). clear Hkeys Hmerged Hops.
  assert (∀ env, same_env (container_env image prior s) env →
    same_env (container_env image prior s') (fold_left run_entry entries env)) as Hg; [|by apply Hg].
  revert s Hi Hrun. induction entries as [|entry entries IH]; intros s Hi Hrun env Henv.
  - cbn in Hrun. by injection Hrun as <-.
  - cbn [fold_result] in Hrun. destruct (env_step _ _ _ s entry) as [s1|] eqn:E1; [|done].
    unfold env_step in E1. destruct (negb _); [done|].
    destruct (entry_value profile containerHome containerWorkDir entry) as [value|] eqn:Ev; [|done].
    cbn [mbind result_bind] in E1. injection E1 as <-.
    destruct (entry_applied image prior s entry value Hprior Hi (Hnames entry ltac:(by left)) Ev) as [Hi1 Hs1].
    cbn [fold_left]. eapply IH; [by intros e He; apply Hnames; right|exact Hi1|exact Hrun|].
    etrans; [exact Hs1|]. unfold run_entry. rewrite Ev. destruct (re_mode entry); by rewrite Henv.
Qed.
End Entries.

(** ** A profile *)

Definition silent_object : ObjectRuntime := {| inherited_text := λ key, "function " +:+ key +:+ "() { [native code] }" |}.

Definition plain_profile : Profile := {|
  pr_agent := AgentCodex; pr_extraAgents := []; pr_mode := None; pr_protectSettings := false; pr_auth := None;
  pr_secrets := []; pr_mask := None; pr_nixMountSocket := false; pr_direnvEnable := false; pr_extraMounts := [] |}.

Definition env_entry (mode : EnvMode) (key value : string) : ResolvedEnvEntry := {|
  re_key := key; re_value := value; re_index := 0; re_keySource := "key"; re_mode := mode; re_separator := ":" |}.

(** PATH is of the image, LANG of the stages before; A is extended before it is set. *)
Definition sample_entries : list ResolvedEnvEntry :=
  [env_entry EnvPrefix "PATH" "~/bin"; env_entry EnvSuffix "LANG" "x"; env_entry EnvPrefix "A" "1";
   env_entry EnvSet "A" "2"; env_entry EnvSuffix "A" "3"; env_entry EnvSuffix "PATH" "/opt"].

Definition sample_state (prior : list (string * string)) : EnvState := {|
  es_envVars := [("NAS_USER", "u")]; es_merged := map_set_all prior [("NAS_USER", "u")]; es_ops := [] |}.

Lemma env_entries_applied_witness :
  let run := @container_env [("PATH", "/bin"); ("A", "0")] [("LANG", "C")] in
  ∃ s, @fold_result _ _ (@env_step plain_runtime silent_object plain_profile "/home/u" "/w") (sample_state [("LANG", "C")])
         sample_entries = Ok s ∧
    map_get (run s) "PATH" =
      map_get (fold_left (@run_entry plain_runtime plain_profile "/home/u" "/w") sample_entries
                 (run (sample_state [("LANG", "C")]))) "PATH" ∧
    map (map_get (run s)) ["PATH"; "LANG"; "A"] = [Some "/home/u/bin:/bin:/opt"; Some "C:x"; Some "2:3"].
Proof.
  intros run. set (entries := sample_entries). set (s0 := sample_state [("LANG", "C")]).
  destruct (fold_result (@env_step plain_runtime silent_object plain_profile "/home/u" "/w") s0 entries) as [s|] eqn:E;
    [|vm_compute in E; congruence].
  exists s. split; [done|]. split.
  - apply (@env_entries_applied plain_runtime silent_object plain_profile "/home/u" "/w" [("PATH", "/bin"); ("A", "0")]
      [("LANG", "C")] s0 entries s E).
    + repeat constructor; cbn; tauto.
    + repeat constructor; cbn; tauto.
    + reflexivity.
    + reflexivity.
    + intros entry Hin. cbn in Hin. split; [|intros _]; cbn; intuition (subst; discriminate).
  - vm_compute in E. assert (∀ a b : EnvState, Ok a = Ok b → a = b) as Hinj by congruence. apply Hinj in E. subst s.
    vm_compute. reflexivity.
Defined.

(** A variable named like a member of `Object.prototype` is taken for known: a prefix
    is put before the text of the inherited function. *)
Lemma prototype_name_is_known :
  match @env_step plain_runtime silent_object plain_profile "/home/u" "/w" (sample_state []) (env_entry EnvPrefix "constructor" "1") with
  | Ok s => map_get (es_envVars s) "constructor"
  | Err _ => None
  end = Some "1:function constructor() { [native code] }".
Proof. reflexivity. Qed.
