(* ===== verification/LaunchPlan.v ===== *)
(** * Launching the container (stages/launch/)

    The finished plan becomes the arguments of `docker run`, or the document of Docker
    Compose for a Dev Container.  Both drop every capability but those the entrypoint
    needs and forbid new privileges. *)
From S2P Require Import Prelude JsString Json ContainerPlan Agents.

(** ** hardening.ts *)

Definition AGENT_NO_NEW_PRIVILEGES : string := "no-new-privileges".
Definition AGENT_CAP_ADD : list string := ["CHOWN"; "DAC_OVERRIDE"; "FOWNER"; "SETUID"; "SETGID"; "KILL"].

Definition agentPrivilegeRunArgs : list string :=
  ["--security-opt"; AGENT_NO_NEW_PRIVILEGES; "--cap-drop"; "ALL"] ++ flat_map (λ cap, ["--cap-add"; cap]) AGENT_CAP_ADD.

(** ** plan.ts *)

Definition NAS_MANAGED_LABEL : string := "nas.managed".
Definition NAS_MANAGED_VALUE : string := "true".
Definition NAS_KIND_LABEL : string := "nas.kind".
Definition NAS_KIND_AGENT : string := "agent".
Definition NAS_PWD_LABEL : string := "nas.pwd".
Definition NAS_SESSION_ID_LABEL : string := "nas.session_id".

Definition containerNameForSession (sessionId : string) : string := "nas-agent-" +:+ sessionId.

(** The name of the container and its plan; [agentArgs] are those of the profile. *)
Definition finalizeLaunchPlan (base : ContainerPlan) (sessionId : string) (agentArgs extraArgs : list string) :
    string * ContainerPlan :=
  (containerNameForSession sessionId,
   mergeContainerPlan base {|
     pa_image := None; pa_workDir := None; pa_mounts := None; pa_namedVolumes := None; pa_envStatic := None;
     pa_dynamicOps := None; pa_network := None; pa_extraHosts := None; pa_shmSize := None; pa_seccompProfile := None;
     pa_apparmorProfile := None; pa_extraRunArgs := None;
     pa_command := Some {| cs_agentCommand := cs_agentCommand (cp_command base);
                           cs_extraArgs := cs_extraArgs (cp_command base) ++ agentArgs ++ extraArgs |};
     pa_labels := Some (map_set_all [] [(NAS_MANAGED_LABEL, NAS_MANAGED_VALUE); (NAS_KIND_LABEL, NAS_KIND_AGENT);
                                        (NAS_PWD_LABEL, cp_workDir base); (NAS_SESSION_ID_LABEL, sessionId)]) |}).

(** ** stage.ts *)

Record LaunchOpts : Type := {
  lo_mode : option AgentMode;
  lo_image : string;
  lo_name : string;
  lo_args : list string;
  lo_envVars : list (string * string);
  lo_command : list string;
  lo_labels : list (string * string);
}.

Definition read_only_suffix (readOnly : bool) : string := if readOnly then ":ro" else "".

Definition network_args (network : option NetworkAttachment) : list string :=
  match network with
  | None => []
  | Some (NetContainer containerName) => ["--network"; "container:" +:+ containerName]
  | Some (NetNetwork name alias) =>
      ["--network"; name] ++ match given_path alias with Some alias => ["--network-alias"; alias] | None => [] end
  end.

Definition owns_namespace (network : option NetworkAttachment) : bool :=
  match network with Some (NetContainer _) => false | _ => true end.

Definition security_args (kind : string) (profile : option string) : list string :=
  match profile with Some profile => ["--security-opt"; kind +:+ "=" +:+ profile] | None => [] end.

(** The environment of the container, with the commands for its start. *)
Definition launch_env (env : EnvPlan) : Result (list (string * string)) :=
  match ep_dynamicOps env with
  | [] => Ok (ep_static env)
  | ops => text ← encodeDynamicEnvOps ops; Ok (map_set (ep_static env) "NAS_ENV_OPS" text)
  end.

(** The arguments before those other stages have added by themselves. *)
Definition launch_args (plan : ContainerPlan) : list string :=
  ["--log-driver=none"; "-w"; cp_workDir plan] ++ agentPrivilegeRunArgs ++
  security_args "seccomp" (cp_seccompProfile plan) ++ security_args "apparmor" (cp_apparmorProfile plan) ++
  ["--init"] ++
  flat_map (λ m, ["-v"; ms_source m +:+ ":" +:+ ms_target m +:+ read_only_suffix (ms_readOnly m)]) (cp_mounts plan) ++
  flat_map (λ v, ["-v"; nv_name v +:+ ":" +:+ nv_target v +:+ read_only_suffix (nv_readOnly v)]) (cp_namedVolumes plan) ++
  network_args (cp_network plan) ++
  (if owns_namespace (cp_network plan)
   then map (λ e, "--add-host=" +:+ eh_host e +:+ ":" +:+ eh_ip e) (cp_extraHosts plan) else []) ++
  match cp_shmSize plan with Some size => ["--shm-size"; size] | None => [] end.

Definition compileLaunchOpts (plan : ContainerPlan) (containerName : string) (mode : option AgentMode) : Result LaunchOpts :=
  let args := launch_args plan ++ cp_extraRunArgs plan in
  envVars ← launch_env (cp_env plan);
  let acp := bool_decide (mode = Some ModeAcp) in
  Ok {| lo_mode := if acp then mode else None; lo_image := cp_image plan; lo_name := containerName; lo_args := args;
        lo_envVars := if acp then map_set envVars "NAS_EXECUTION_MODE" "acp" else envVars;
        lo_command := cs_agentCommand (cp_command plan) ++ cs_extraArgs (cp_command plan);
        lo_labels := cp_labels plan |}.

(** The plan of the launch: the container's name, its plan, and its options. *)
Definition planLaunch (base : ContainerPlan) (sessionId : string) (agentArgs : list string) (mode : option AgentMode)
    (extraArgs : list string) : Result (string * ContainerPlan * LaunchOpts) :=
  let '(containerName, container) := finalizeLaunchPlan base sessionId agentArgs extraArgs in
  opts ← compileLaunchOpts container containerName mode;
  Ok (containerName, container, opts).

(** ** compose.ts *)

Inductive ComposeMount : Type :=
  | ComposeBindMount (source target : string) (read_only : bool)
  | ComposeNamedVolumeMount (source target : string) (read_only : bool).

(** How the service is attached: [network_mode], or the session network with its
    aliases. *)
Inductive ComposeAttachment : Type :=
  | network_mode (value : string)
  | session_network (aliases : option (list string)).

(** The members whose values are fixed (`restart`, `logging`, `init`) are left out. *)
Record ComposeAgentService : Type := {
  ca_image : string;
  ca_container_name : string;
  ca_working_dir : string;
  ca_command : list string;
  ca_security_opt : list string;
  ca_cap_drop : list string;
  ca_cap_add : list string;
  ca_volumes : list ComposeMount;
  ca_attachment : ComposeAttachment;
  ca_environment : list (string * string);
  ca_extra_hosts : option (list string);
  ca_shm_size : option string;
  ca_labels : option (list (string * string));
}.

(** [cd_network] is the name of the external session network, [cd_volumes] the names of
    the external volumes. *)
Record ComposeDocument : Type := {
  cd_name : string;
  cd_agent : ComposeAgentService;
  cd_network : option string;
  cd_volumes : option (list string);
}.

(** `value.split("$").join("$$")` *)
Definition escapeComposeValue (value : string) : string := join "$$" (split_on "$" value).

Definition compileCompose (container : ContainerPlan) (containerName projectName : string) : Result ComposeDocument :=
  match cp_network container with
  | None => Err "[nas] Compose launch requires a named network"
  | Some network =>
      match cp_extraRunArgs container with
      | _ :: _ => Err "[nas] Compose launch cannot represent extraRunArgs"
      | [] =>
          ops ← match ep_dynamicOps (cp_env container) with
                | [] => Ok []
                | ops => text ← encodeDynamicEnvOps ops; Ok [("NAS_ENV_OPS", escapeComposeValue text)]
                end;
          let escaped := map (λ '(key, value), (key, escapeComposeValue value)) in
          let labels := map_set_all [] (escaped (cp_labels container)) in
          let service := {|
            ca_image := escapeComposeValue (cp_image container);
            ca_container_name := escapeComposeValue containerName;
            ca_working_dir := escapeComposeValue (cp_workDir container);
            ca_command := "/usr/local/bin/nas-devcontainer-idle" ::
              map escapeComposeValue (cs_extraArgs (cp_command container));
            ca_security_opt := AGENT_NO_NEW_PRIVILEGES ::
              match cp_seccompProfile container with Some p => ["seccomp=" +:+ escapeComposeValue p] | None => [] end ++
              match cp_apparmorProfile container with Some p => ["apparmor=" +:+ escapeComposeValue p] | None => [] end;
            ca_cap_drop := ["ALL"];
            ca_cap_add := AGENT_CAP_ADD;
            ca_volumes :=
              map (λ m, ComposeBindMount (escapeComposeValue (ms_source m)) (escapeComposeValue (ms_target m))
                          (ms_readOnly m)) (cp_mounts container) ++
              map (λ v, ComposeNamedVolumeMount (escapeComposeValue (nv_name v)) (escapeComposeValue (nv_target v))
                          (nv_readOnly v)) (cp_namedVolumes container);
            ca_attachment := match network with
                             | NetContainer name => network_mode (escapeComposeValue ("container:" +:+ name))
                             | NetNetwork _ alias => session_network ((λ alias, [escapeComposeValue alias]) <$> alias)
                             end;
            ca_environment := map_set_all [] (escaped (ep_static (cp_env container)) ++ ops);
            ca_extra_hosts :=
              match network, cp_extraHosts container with
              | NetContainer _, _ | _, [] => None
              | NetNetwork _ _, hosts => Some (map (λ e, escapeComposeValue (eh_host e +:+ ":" +:+ eh_ip e)) hosts)
              end;
            ca_shm_size := escapeComposeValue <$> cp_shmSize container;
            ca_labels := match labels with [] => None | _ => Some labels end |} in
          Ok {| cd_name := escapeComposeValue projectName; cd_agent := service;
                cd_network := match network with NetNetwork name _ => Some (escapeComposeValue name) | NetContainer _ => None end;
                cd_volumes := match cp_namedVolumes container with
                              | [] => None
                              | volumes => Some (unique (map nv_name volumes))
                              end |}
      end
  end.
