(* ===== verification/LaunchLaws.v ===== *)
(** * What a launched container is given

    [describe] is what a plan asks of Docker.  The arguments of `docker run`, read as
    Docker reads its flags, and the Compose document, read after Compose has replaced
    `$$`, both say exactly that.  The commands for the entrypoint are read back by a
    shell as the words they were made of. *)
From S2P Require Import Prelude JsString Json ContainerPlan Agents LaunchPlan.

(** ** The shell of the entrypoint *)

Definition newline_char : ascii := "010".

(** Commands separated by newlines, words by spaces; a quoted text stands for itself,
    outside of quotes a backslash does for the next character; what else has a meaning
    to the shell is refused. *)
Fixpoint shell_lex (s : string) (quoted : bool) (word : option string) (words : list string) :
    option (list (list string)) :=
  match s with
  | EmptyString => if quoted then None else Some [words ++ option_list word]
  | String c rest =>
      if quoted then
        if Ascii.eqb c quote then shell_lex rest false word words
        else shell_lex rest true (Some (default "" word +:+ String c "")) words
      else if Ascii.eqb c quote then shell_lex rest true (Some (default "" word)) words
      else if Ascii.eqb c "\" then
        match rest with
        | EmptyString => None
        | String x rest => shell_lex rest false (Some (default "" word +:+ String x "")) words
        end
      else if Ascii.eqb c " " then shell_lex rest false None (words ++ option_list word)
      else if Ascii.eqb c newline_char then
        (λ commands, (words ++ option_list word) :: commands) <$> shell_lex rest false None []
      else if is_word c then shell_lex rest false (Some (default "" word +:+ String c "")) words
      else None
  end.

Definition shell_commands (text : string) : option (list (list string)) := shell_lex text false None [].

(** The call of an operation. *)
Definition op_words (op : DynamicEnvOp) : list string :=
  [op_function (eo_mode op); eo_key op; eo_value op; eo_separator op].

Lemma lex_quoted s : ∀ word words rest,
  shell_lex (escape_quotes s +:+ String quote rest) true (Some word) words = shell_lex rest false (Some (word +:+ s)) words.
Proof.
  induction s as [|c s IH]; intros word words rest.
  - cbn. by rewrite sapp_nil_r.
  - cbn [escape_quotes]. destruct (Ascii.eqb_spec c quote) as [->|Hc].
    + change (("'\''" +:+ escape_quotes s) +:+ String quote rest) with
        (String quote (String "\" (String quote (String quote (escape_quotes s +:+ String quote rest))))).
      cbn [shell_lex]. cbn. rewrite IH, sapp_assoc. done.
    + cbn [String.append shell_lex]. destruct (Ascii.eqb_spec c quote); [done|]. rewrite IH. cbn [default]. by rewrite sapp_assoc.
Qed.

Lemma lex_quote s words rest :
  shell_lex (shellQuote s +:+ rest) false None words = shell_lex rest false (Some s) words.
Proof.
  unfold shellQuote. change (("'" +:+ escape_quotes s +:+ "'") +:+ rest) with (String quote ((escape_quotes s +:+ "'") +:+ rest)).
  rewrite sapp_assoc. exact (lex_quoted s "" words rest).
Qed.

Lemma lex_space rest word words : shell_lex (" " +:+ rest) false (Some word) words = shell_lex rest false None (words ++ [word]).
Proof. done. Qed.

Lemma encode_op_text op text :
  encode_op op = Ok text →
  text = op_function (eo_mode op) +:+ " " +:+ shellQuote (eo_key op) +:+ " " +:+ shellQuote (eo_value op) +:+ " " +:+
         shellQuote (eo_separator op).
Proof. unfold encode_op. destruct (negb _); [done|]. intros Ht. by injection Ht. Qed.

Lemma lex_op op text rest :
  encode_op op = Ok text →
  shell_lex (text +:+ rest) false None [] =
  shell_lex rest false (Some (eo_separator op)) [op_function (eo_mode op); eo_key op; eo_value op].
Proof.
  intros ->%encode_op_text. rewrite !sapp_assoc.
  assert (∀ r, shell_lex (op_function (eo_mode op) +:+ " " +:+ r) false None [] =
    shell_lex r false None [op_function (eo_mode op)]) as ->.
  { intros r. by destruct (eo_mode op). }
  rewrite lex_quote, lex_space, lex_quote, lex_space.
  by rewrite lex_quote.
Qed.

(** C32.  What the container evaluates at its start is exactly the list of operations:
    whatever the values and separators hold (quotes, newlines, `$(...)`), the shell
    reads each line as one call of the prefix or suffix function with the key, the
    value and the separator. *)
Theorem shell_reads_ops ops text (Hops : ops ≠ []) (Htext : encodeDynamicEnvOps ops = Ok text) :
  shell_commands text = Some (map op_words ops).
Proof.
  unfold encodeDynamicEnvOps in Htext.
  destruct (fold_right _ (Ok []) ops) as [lines|] eqn:E; [|done]. cbn in Htext. injection Htext as <-.
  unfold shell_commands. revert lines E. induction ops as [|op ops IH]; intros lines E; [done|]. clear Hops.
  cbn in E. destruct (encode_op op) as [line|] eqn:Eop; [|done]. cbn in E.
  destruct (fold_right _ (Ok []) ops) as [lines'|] eqn:El; [|done]. cbn in E. injection E as <-.
  destruct ops as [|op' ops].
  - cbn in El. injection El as <-. cbn [join map]. rewrite <- (sapp_nil_r line), (lex_op op line) by done. done.
  - specialize (IH ltac:(done) lines' eq_refl). destruct lines' as [|line' lines'].
    { exfalso. cbn in El. destruct (encode_op op'); [|done]. cbn in El. by destruct (fold_right _ (Ok []) ops). }
    rewrite join_cons, (lex_op op line) by done.
    change (((λ commands, [op_function (eo_mode op); eo_key op; eo_value op; eo_separator op] :: commands) <$>
      shell_lex (join (String "010" "") (line' :: lines')) false None []) = Some (map op_words (op :: op' :: ops))).
    by rewrite IH.
Qed.

Lemma shell_reads_ops_witness :
  let ops := [{| eo_mode := OpPrefix; eo_key := "PATH"; eo_value := "/opt/it's; $(x)"; eo_separator := ":" |};
              {| eo_mode := OpSuffix; eo_key := "A"; eo_value := ""; eo_separator := " " |}] in
  ∃ text, encodeDynamicEnvOps ops = Ok text ∧
    shell_commands text = Some [["__nas_pfx"; "PATH"; "/opt/it's; $(x)"; ":"]; ["__nas_sfx"; "A"; ""; " "]].
Proof.
  intros ops. eexists. split; [vm_compute; reflexivity|]. apply (shell_reads_ops ops); [done|vm_compute; reflexivity].
Defined.

(** ** What Docker is asked for *)

(** What is mounted where, and whether only for reading. *)
Record Volume : Type := { vo_source : string; vo_target : string; vo_readOnly : bool }.

(** What both ways of launching decide. *)
Record Description : Type := {
  de_workDir : string;
  de_security : list string;
  de_cap_drop : list string;
  de_cap_add : list string;
  de_volumes : list Volume;
  de_network : option string;
  de_aliases : list string;
  de_hosts : list string;
  de_shm : option string;
}.

Definition network_text (network : option NetworkAttachment) : option string :=
  match network with
  | Some (NetNetwork name _) => Some name
  | Some (NetContainer name) => Some ("container:" +:+ name)
  | None => None
  end.

Definition asked_aliases (network : option NetworkAttachment) : list string :=
  match network with Some (NetNetwork _ (Some alias)) => [alias] | _ => [] end.

(** The aliases that are not empty. *)
Definition network_aliases (network : option NetworkAttachment) : list string :=
  List.filter (λ alias, negb (String.eqb alias "")) (asked_aliases network).

Definition plan_volumes (plan : ContainerPlan) : list Volume :=
  map (λ m, {| vo_source := ms_source m; vo_target := ms_target m; vo_readOnly := ms_readOnly m |}) (cp_mounts plan) ++
  map (λ v, {| vo_source := nv_name v; vo_target := nv_target v; vo_readOnly := nv_readOnly v |}) (cp_namedVolumes plan).

(** What a plan asks for; a container whose network is another's has the hosts of that
    one. *)
Definition describe (plan : ContainerPlan) (aliases : list string) : Description := {|
  de_workDir := cp_workDir plan;
  de_security := "no-new-privileges" ::
    match cp_seccompProfile plan with Some p => ["seccomp=" +:+ p] | None => [] end ++
    match cp_apparmorProfile plan with Some p => ["apparmor=" +:+ p] | None => [] end;
  de_cap_drop := ["ALL"];
  de_cap_add := ["CHOWN"; "DAC_OVERRIDE"; "FOWNER"; "SETUID"; "SETGID"; "KILL"];
  de_volumes := plan_volumes plan;
  de_network := network_text (cp_network plan);
  de_aliases := aliases;
  de_hosts := match cp_network plan with
              | Some (NetContainer _) => []
              | _ => map (λ e, eh_host e +:+ ":" +:+ eh_ip e) (cp_extraHosts plan)
              end;
  de_shm := cp_shmSize plan |}.

Definition no_flags : Description := {|
  de_workDir := ""; de_security := []; de_cap_drop := []; de_cap_add := []; de_volumes := []; de_network := None;
  de_aliases := []; de_hosts := []; de_shm := None |}.

(** How Docker reads the value of `-v`: a source, a target and perhaps a mode, between
    colons. *)
Definition read_volume (value : string) : option Volume :=
  match split_on ":" value with
  | [source; target] => Some {| vo_source := source; vo_target := target; vo_readOnly := false |}
  | [source; target; mode] =>
      if String.eqb mode "ro" then Some {| vo_source := source; vo_target := target; vo_readOnly := true |}
      else if String.eqb mode "rw" then Some {| vo_source := source; vo_target := target; vo_readOnly := false |}
      else None
  | _ => None
  end.

(** One flag of `docker run` after those in [d]. *)
Definition flag (name value : string) (d : Description) : option Description :=
  match d with
  | {| de_workDir := w; de_security := s; de_cap_drop := cd; de_cap_add := ca; de_volumes := v; de_network := n;
       de_aliases := al; de_hosts := h; de_shm := shm |} =>
      if String.eqb name "-w" then Some (Build_Description value s cd ca v n al h shm)
      else if String.eqb name "--security-opt" then Some (Build_Description w (s ++ [value]) cd ca v n al h shm)
      else if String.eqb name "--cap-drop" then Some (Build_Description w s (cd ++ [value]) ca v n al h shm)
      else if String.eqb name "--cap-add" then Some (Build_Description w s cd (ca ++ [value]) v n al h shm)
      else if String.eqb name "-v" then volume ← read_volume value; Some (Build_Description w s cd ca (v ++ [volume]) n al h shm)
      else if String.eqb name "--network" then Some (Build_Description w s cd ca v (Some value) al h shm)
      else if String.eqb name "--network-alias" then Some (Build_Description w s cd ca v n (al ++ [value]) h shm)
      else if String.eqb name "--add-host" then Some (Build_Description w s cd ca v n al (h ++ [value]) shm)
      else if String.eqb name "--shm-size" then Some (Build_Description w s cd ca v n al h (Some value))
      else None
  end.

(** The flags of `docker run`: a name and its value, in one argument where it holds
    "=", and the two that stand alone. *)
Fixpoint docker_flags (args : list string) (d : Description) : option Description :=
  match args with
  | [] => Some d
  | arg :: rest =>
      if String.eqb arg "--log-driver=none" || String.eqb arg "--init" then docker_flags rest d
      else if startsWith arg "--add-host=" then flag "--add-host" (drop_str 11 arg) d ≫= docker_flags rest
      else match rest with
           | value :: rest => flag arg value d ≫= docker_flags rest
           | [] => None
           end
  end.

Lemma docker_flags_two name value rest d :
  String.eqb name "--log-driver=none" || String.eqb name "--init" = false → startsWith name "--add-host=" = false →
  docker_flags (name :: value :: rest) d = flag name value d ≫= docker_flags rest.
Proof. intros H1 H2. cbn [docker_flags]. by rewrite H1, H2. Qed.

Definition with_volumes (d : Description) (l : list Volume) : Description :=
  Build_Description (de_workDir d) (de_security d) (de_cap_drop d) (de_cap_add d) (de_volumes d ++ l) (de_network d)
    (de_aliases d) (de_hosts d) (de_shm d).

Definition with_hosts (d : Description) (l : list string) : Description :=
  Build_Description (de_workDir d) (de_security d) (de_cap_drop d) (de_cap_add d) (de_volumes d) (de_network d)
    (de_aliases d) (de_hosts d ++ l) (de_shm d).

(** A colon in a source or a target would be read as the end of it. *)
Definition no_colon (v : Volume) : Prop := has_char ":" (vo_source v) = false ∧ has_char ":" (vo_target v) = false.

Lemma read_volume_text v : no_colon v →
  read_volume (vo_source v +:+ ":" +:+ vo_target v +:+ read_only_suffix (vo_readOnly v)) = Some v.
Proof.
  destruct v as [source target readOnly]. intros [Hs Ht]. cbn in *. unfold read_volume.
  change (":" +:+ target +:+ read_only_suffix readOnly) with (String ":" (target +:+ read_only_suffix readOnly)).
  rewrite split_on_app by done. destruct readOnly; cbn [read_only_suffix].
  - change ":ro" with (String ":" "ro"). by rewrite split_on_app.
  - by rewrite sapp_nil_r, split_on_char_free.
Qed.

Lemma docker_volumes {A} (f : A → string) (g : A → Volume) l : (∀ x, In x l → read_volume (f x) = Some (g x)) → ∀ rest d,
  docker_flags (flat_map (λ m, ["-v"; f m]) l ++ rest) d = docker_flags rest (with_volumes d (map g l)).
Proof.
  induction l as [|m l IH]; intros Hl rest d.
  - unfold with_volumes. cbn. rewrite app_nil_r. by destruct d.
  - change (docker_flags ("-v" :: f m :: flat_map (λ m, ["-v"; f m]) l ++ rest) d =
      docker_flags rest (with_volumes d (map g (m :: l)))).
    rewrite docker_flags_two by done. unfold flag. destruct d. cbn -[docker_flags flat_map]. rewrite (Hl m) by (by left).
    cbn -[docker_flags flat_map]. rewrite IH by (intros; apply Hl; by right).
    unfold with_volumes. cbn. by rewrite <- app_assoc.
Qed.

Lemma docker_hosts {A} (f : A → string) l : ∀ rest d,
  docker_flags (map (λ e, "--add-host=" +:+ f e) l ++ rest) d = docker_flags rest (with_hosts d (map f l)).
Proof.
  induction l as [|e l IH]; intros rest d.
  - unfold with_hosts. cbn. rewrite app_nil_r. by destruct d.
  - change (docker_flags (("--add-host=" +:+ f e) :: map (λ e, "--add-host=" +:+ f e) l ++ rest) d =
      docker_flags rest (with_hosts d (map f (e :: l)))).
    cbn [docker_flags]. assert (startsWith ("--add-host=" +:+ f e) "--add-host=" = true) as -> by (apply startsWith_iff; eauto).
    cbn [String.append]. cbn -[docker_flags map]. unfold flag. destruct d. cbn -[docker_flags map]. rewrite IH.
    unfold with_hosts. cbn. by rewrite <- app_assoc.
Qed.

Lemma docker_privileges rest w :
  docker_flags (["--log-driver=none"; "-w"; w] ++ agentPrivilegeRunArgs ++ rest) no_flags =
  docker_flags rest (Build_Description w ["no-new-privileges"] ["ALL"]
    ["CHOWN"; "DAC_OVERRIDE"; "FOWNER"; "SETUID"; "SETGID"; "KILL"] [] None [] [] None).
Proof. reflexivity. Qed.

Lemma docker_security kind p rest d :
  docker_flags (security_args kind p ++ rest) d =
  docker_flags rest (Build_Description (de_workDir d)
    (de_security d ++ match p with Some p => [kind +:+ "=" +:+ p] | None => [] end) (de_cap_drop d) (de_cap_add d)
    (de_volumes d) (de_network d) (de_aliases d) (de_hosts d) (de_shm d)).
Proof. destruct p; cbn [security_args app]; [by destruct d|]. rewrite app_nil_r. by destruct d. Qed.

Lemma docker_network network rest w s cd ca v h shm :
  docker_flags (network_args network ++ rest) (Build_Description w s cd ca v None [] h shm) =
  docker_flags rest (Build_Description w s cd ca v (network_text network) (network_aliases network) h shm).
Proof.
  destruct network as [[name [[|c alias]|]|name]|]; try done.
Qed.

(** A plan whose values hold dollars and colons. *)
Definition sample_plan (network : NetworkAttachment) : ContainerPlan := {|
  cp_image := "nas:1"; cp_workDir := "/w/$x";
  cp_mounts := [{| ms_source := "/h/a$b"; ms_target := "/w"; ms_readOnly := false |};
                {| ms_source := "/h/c"; ms_target := "/w/.git/config"; ms_readOnly := true |}];
  cp_namedVolumes := [{| nv_name := "cache"; nv_target := "/cache"; nv_readOnly := false |}];
  cp_env := {| ep_static := [("A", "1$")]; ep_dynamicOps := [] |}; cp_network := Some network;
  cp_extraHosts := [{| eh_host := "host"; eh_ip := "10.0.0.1" |}]; cp_shmSize := Some "2g";
  cp_seccompProfile := Some "/p$"; cp_apparmorProfile := None; cp_extraRunArgs := [];
  cp_command := {| cs_agentCommand := ["claude"]; cs_extraArgs := [] |}; cp_labels := [] |}.

(** C31.  The arguments of `docker run`, up to those another stage has added by itself,
    are read by Docker as exactly what the plan describes: its working directory, its
    mounts with their modes, its network with an alias that is not empty, its hosts
    unless another container owns the namespace, no new privileges, and no capabilities
    but six.  It is assumed that no source and no target of a mount holds a colon, which
    Docker would read as the end of it. *)
Theorem run_describes_plan plan name mode opts (Hopts : compileLaunchOpts plan name mode = Ok opts)
    (Hcolons : ∀ v, In v (plan_volumes plan) → no_colon v) :
  ∃ args, lo_args opts = args ++ cp_extraRunArgs plan ∧
    docker_flags args no_flags = Some (describe plan (network_aliases (cp_network plan))).
Proof.
  unfold compileLaunchOpts in Hopts. destruct (launch_env (cp_env plan)) as [envVars|]; [|done].
  injection Hopts as <-. exists (launch_args plan). split; [done|]. unfold launch_args.
  rewrite docker_privileges, !docker_security.
  change (["--init"] ++ ?l) with ("--init" :: l). cbn [docker_flags String.eqb Ascii.eqb Bool.eqb orb].
  assert (∀ {A} (l : list A) g, (∀ x, In x l → In (g x) (plan_volumes plan)) → ∀ x, In x l →
    read_volume (vo_source (g x) +:+ ":" +:+ vo_target (g x) +:+ read_only_suffix (vo_readOnly (g x))) = Some (g x)) as Hread
    by (intros A l g Hg x Hx; by apply read_volume_text, Hcolons, Hg).
  rewrite (docker_volumes _ _ (cp_mounts plan) (Hread _ _ (λ m, Build_Volume (ms_source m) (ms_target m) (ms_readOnly m))
    (λ m Hm, in_or_app _ _ _ (or_introl (in_map _ _ _ Hm))))).
  rewrite (docker_volumes _ _ (cp_namedVolumes plan) (Hread _ _ (λ v, Build_Volume (nv_name v) (nv_target v) (nv_readOnly v))
    (λ v Hv, in_or_app _ _ _ (or_intror (in_map _ _ _ Hv))))).
  unfold with_volumes. cbn [de_workDir de_security de_cap_drop de_cap_add de_volumes de_network de_aliases de_hosts de_shm].
  rewrite docker_network.
  assert (∀ d, docker_flags match cp_shmSize plan with Some size => ["--shm-size"; size] | None => [] end d =
    Some (Build_Description (de_workDir d) (de_security d) (de_cap_drop d) (de_cap_add d) (de_volumes d) (de_network d)
      (de_aliases d) (de_hosts d) (match cp_shmSize plan with Some size => Some size | None => de_shm d end))) as Hshm.
  { intros d. by destruct (cp_shmSize plan), d. }
  assert (∀ rest d, docker_flags ((if owns_namespace (cp_network plan)
      then map (λ e, "--add-host=" +:+ eh_host e +:+ ":" +:+ eh_ip e) (cp_extraHosts plan) else []) ++ rest) d =
    docker_flags rest (with_hosts d (if owns_namespace (cp_network plan)
      then map (λ e, eh_host e +:+ ":" +:+ eh_ip e) (cp_extraHosts plan) else []))) as Hhosts.
  { intros rest d. destruct (owns_namespace _); [apply docker_hosts|]. unfold with_hosts. rewrite app_nil_r. by destruct d. }
  rewrite Hhosts, Hshm. unfold with_hosts, describe. cbn. destruct (cp_shmSize plan), (cp_network plan) as [[]|]; done.
Qed.

Lemma run_describes_plan_witness :
  ∃ opts args, compileLaunchOpts (sample_plan (NetContainer "dind")) "c" (Some ModeAcp) = Ok opts ∧
    lo_args opts = args ∧ docker_flags args no_flags = Some (describe (sample_plan (NetContainer "dind")) []).
Proof.
  set (plan := sample_plan _). destruct (compileLaunchOpts plan "c" (Some ModeAcp)) as [opts|] eqn:E; [|vm_compute in E; congruence].
  destruct (run_describes_plan plan "c" (Some ModeAcp) opts E) as (args & Ha & Hd).
  { intros v Hv. vm_compute in Hv. repeat destruct Hv as [<-|Hv]; try done; split; reflexivity. }
  exists opts, args. split_and!; [done| |exact Hd]. by rewrite Ha, app_nil_r.
Defined.

(** ** What Compose makes of its document *)

(** The interpolation of Compose: `$$` is a dollar; a dollar before anything else
    would be the reference of a variable. *)
Fixpoint interpolate (s : string) : option string :=
  match s with
  | EmptyString => Some ""
  | String c rest =>
      if Ascii.eqb c "$" then
        match rest with
        | String x rest => if Ascii.eqb x "$" then String "$" <$> interpolate rest else None
        | EmptyString => None
        end
      else String c <$> interpolate rest
  end.

(** The list of the [omap]ped values, where all have one. *)
Definition interpolate_all (l : list string) : option (list string) := mapM interpolate l.

Lemma escape_cons c s :
  escapeComposeValue (String c s) = (if Ascii.eqb c "$" then "$$" else String c "") +:+ escapeComposeValue s.
Proof.
  unfold escapeComposeValue. cbn [split_on]. destruct (Ascii.eqb c "$").
  - pose proof (split_on_nonempty "$" s) as Hn. destruct (split_on "$" s) as [|t ts]; [done|]. by rewrite join_cons.
  - pose proof (split_on_nonempty "$" s) as Hn. destruct (split_on "$" s) as [|t [|t' ts]]; done.
Qed.

Lemma interpolate_escape s : interpolate (escapeComposeValue s) = Some s.
Proof.
  induction s as [|c s IH]; [done|]. rewrite escape_cons. destruct (Ascii.eqb_spec c "$") as [->|Hc].
  - cbn. by rewrite IH.
  - cbn. destruct (Ascii.eqb_spec c "$"); [done|]. by rewrite IH.
Qed.

Lemma interpolate_prefix p s : string_all (λ c, negb (Ascii.eqb c "$")) p = true →
  interpolate (p +:+ s) = String.append p <$> interpolate s.
Proof.
  induction p as [|c p IH]; cbn; [by destruct (interpolate s)|]. intros [Hc Hp]%andb_true_iff.
  destruct (Ascii.eqb c "$"); [done|]. rewrite IH by done. by destruct (interpolate s).
Qed.

Lemma interpolate_escapes l : interpolate_all (map escapeComposeValue l) = Some l.
Proof. unfold interpolate_all. induction l as [|s l IH]; cbn; [done|]. by rewrite interpolate_escape, IH. Qed.

Definition volume_of (m : ComposeMount) : option Volume :=
  match m with
  | ComposeBindMount source target ro | ComposeNamedVolumeMount source target ro =>
      source ← interpolate source; target ← interpolate target;
      Some {| vo_source := source; vo_target := target; vo_readOnly := ro |}
  end.

(** The description of the service of a document. *)
Definition describe_compose (doc : ComposeDocument) : option Description :=
  let agent := cd_agent doc in
  workDir ← interpolate (ca_working_dir agent);
  security ← interpolate_all (ca_security_opt agent);
  volumes ← mapM volume_of (ca_volumes agent);
  network ← match ca_attachment agent, cd_network doc with
            | network_mode value, _ => Some <$> interpolate value
            | session_network _, Some name => Some <$> interpolate name
            | session_network _, None => None
            end;
  aliases ← match ca_attachment agent with
            | session_network (Some aliases) => interpolate_all aliases
            | _ => Some []
            end;
  hosts ← match ca_extra_hosts agent with Some hosts => interpolate_all hosts | None => Some [] end;
  shm ← match ca_shm_size agent with Some size => Some <$> interpolate size | None => Some None end;
  Some (Build_Description workDir security (ca_cap_drop agent) (ca_cap_add agent) volumes network aliases hosts shm).

Lemma volumes_of_mounts (mounts : list MountSpec) rest :
  mapM volume_of (map (λ m, ComposeBindMount (escapeComposeValue (ms_source m)) (escapeComposeValue (ms_target m))
    (ms_readOnly m)) mounts ++ rest) =
  (app (map (λ m, {| vo_source := ms_source m; vo_target := ms_target m; vo_readOnly := ms_readOnly m |}) mounts)) <$> mapM volume_of rest.
Proof.
  induction mounts as [|m l IH]; cbn; [by destruct (mapM volume_of rest)|].
  rewrite !interpolate_escape. cbn. rewrite IH. by destruct (mapM volume_of rest).
Qed.

Lemma volumes_of_named (volumes : list NamedVolumeMount) :
  mapM volume_of (map (λ v, ComposeNamedVolumeMount (escapeComposeValue (nv_name v)) (escapeComposeValue (nv_target v))
    (nv_readOnly v)) volumes) =
  Some (map (λ v, {| vo_source := nv_name v; vo_target := nv_target v; vo_readOnly := nv_readOnly v |}) volumes).
Proof.
  induction volumes as [|v l IH]; cbn; [done|]. rewrite !interpolate_escape. cbn. by rewrite IH.
Qed.

Lemma security_of (seccomp apparmor : option string) :
  interpolate_all (AGENT_NO_NEW_PRIVILEGES ::
    match seccomp with Some p => ["seccomp=" +:+ escapeComposeValue p] | None => [] end ++
    match apparmor with Some p => ["apparmor=" +:+ escapeComposeValue p] | None => [] end) =
  Some ("no-new-privileges" ::
    match seccomp with Some p => ["seccomp=" +:+ p] | None => [] end ++
    match apparmor with Some p => ["apparmor=" +:+ p] | None => [] end).
Proof.
  unfold interpolate_all.
  destruct seccomp, apparmor; cbn -[interpolate escapeComposeValue String.append]; rewrite ?interpolate_prefix by done;
    rewrite ?interpolate_escape; done.
Qed.

(** C30.  The Compose document of a Dev Container gives the agent what the plan describes,
    and so what `docker run` would have given it: the same working directory, mounts,
    modes, network, hosts and privileges, whatever dollars the values hold.  In one thing
    the two differ: an alias that is empty is one of the document, and `docker run` is
    not given it. *)
Theorem compose_describes_plan plan name project doc (Hdoc : compileCompose plan name project = Ok doc) :
  describe_compose doc = Some (describe plan (asked_aliases (cp_network plan))).
Proof.
  unfold compileCompose in Hdoc. destruct (cp_network plan) as [network|] eqn:En; [|done].
  destruct (cp_extraRunArgs plan); [|done].
  match type of Hdoc with (?e ≫= _) = _ => destruct e as [ops|]; [|done] end.
  cbn [mbind result_bind] in Hdoc.
  assert (∀ a b : ComposeDocument, Ok a = Ok b → a = b) as Hinj by congruence. apply Hinj in Hdoc. subst doc.
  unfold describe_compose. cbn [cd_agent ca_working_dir ca_security_opt ca_volumes ca_attachment cd_network ca_extra_hosts
    ca_shm_size ca_cap_drop ca_cap_add].
  rewrite interpolate_escape, security_of, volumes_of_mounts, volumes_of_named. cbn [mbind option_bind fmap option_fmap option_map].
  unfold describe, plan_volumes. rewrite En.
  assert (match escapeComposeValue <$> cp_shmSize plan with Some size => Some <$> interpolate size | None => Some None end =
    Some (cp_shmSize plan)) as Hshm by (destruct (cp_shmSize plan); cbn; by rewrite ?interpolate_escape).
  assert (∀ (hosts : list ExtraHost),
    interpolate_all (map (λ e, escapeComposeValue (eh_host e +:+ ":" +:+ eh_ip e)) hosts) =
    Some (map (λ e, eh_host e +:+ ":" +:+ eh_ip e) hosts)) as Hhosts.
  { intros hosts. rewrite <- (interpolate_escapes (map (λ e, eh_host e +:+ ":" +:+ eh_ip e) hosts)). by rewrite map_map. }
  destruct network as [net alias|container].
  - rewrite interpolate_escape. cbn [mbind option_bind fmap option_fmap option_map].
    assert (match (λ alias, [escapeComposeValue alias]) <$> alias with Some l => interpolate_all l | None => Some [] end =
      Some (asked_aliases (Some (NetNetwork net alias)))) as Hal.
    { destruct alias as [alias|]; [|done]. cbn -[interpolate escapeComposeValue].
      by rewrite interpolate_escape. }
    rewrite Hal. cbn [mbind option_bind].
    assert (match match cp_extraHosts plan with [] => None | e :: l => Some (map (λ e, escapeComposeValue
      (eh_host e +:+ ":" +:+ eh_ip e)) (e :: l)) end with Some l => interpolate_all l | None => Some [] end =
      Some (map (λ e, eh_host e +:+ ":" +:+ eh_ip e) (cp_extraHosts plan))) as Hh
      by (destruct (cp_extraHosts plan); [done|apply Hhosts]).
    rewrite Hh. cbn [mbind option_bind]. rewrite Hshm. done.
  - rewrite interpolate_escape. cbn [mbind option_bind fmap option_fmap option_map]. rewrite Hshm. done.
Qed.

Lemma compose_describes_plan_witness :
  ∃ doc, compileCompose (sample_plan (NetNetwork "net" (Some "agent$1"))) "c" "p" = Ok doc ∧
    describe_compose doc = Some (describe (sample_plan (NetNetwork "net" (Some "agent$1"))) ["agent$1"]).
Proof.
  set (plan := sample_plan _). destruct (compileCompose plan "c" "p") as [doc|] eqn:E; [|vm_compute in E; congruence].
  exists doc. split; [done|]. apply (compose_describes_plan plan "c" "p" doc E).
Defined.
