(* ===== verification/LineReader.v ===== *)
(** * The reader of lines of the command gateway

    [RawLineReader] is the class of hostexec/gateway_execution.ts: a queue of the
    chunks a socket delivers, an offset into the first of them, and at most one
    promise that is waited for.  An operation is a function on the state of the
    reader and gives what the callers and the waiting promise get.  The reader
    refines [Stream], a plain buffer of bytes; the properties are proved there. *)
From S2P Require Import Prelude JsString.

Abbreviation bytes := (list ascii).

(** The byte 0x0a. *)
Definition newline : ascii := "010"%char.

Definition maxControlBytes : Z := 4 * 1024 * 1024.
Definition maxChunkBytes : Z := 64 * 1024.

Definition too_long : string := "control message exceeds 4194304 bytes".

(** ** Buffers *)

(** `chunk.indexOf(0x0a, start)` and `chunk.lastIndexOf(0x0a)` *)
Definition index_from (start : nat) (chunk : bytes) : option nat :=
  (λ found, (start + found.1)%nat) <$> list_find (λ b, b = newline) (drop start chunk).

Fixpoint last_index (chunk : bytes) : option nat :=
  match chunk with
  | [] => None
  | b :: rest =>
      match last_index rest with
      | Some i => Some (S i)
      | None => if decide (b = newline) then Some 0%nat else None
      end
  end.

(** `Buffer.concat(segments, total)`: cut or filled up with zeros to the total. *)
Definition concat_to (total : nat) (segments : list bytes) : bytes :=
  let all := concat segments in take total all ++ replicate (total - length all) "000"%char.

(** ** The class *)

Record RawLineReader : Type := {
  rr_chunks : list bytes;
  rr_chunkOffset : nat;
  rr_queuedBytes : Z;
  rr_ended : bool;
  rr_failure : option string;
  (** there is a promise that is waited for: `waiter`, `resolveWaiter` and
      `rejectWaiter` are set and cleared together *)
  rr_waiter : bool;
  rr_paused : bool;
  (** the listeners on the socket are attached *)
  rr_attached : bool;
}.

(** A line, the end, or an error. *)
Inductive Delivery : Type :=
  | Resolved (line : option bytes)
  | Rejected (error : option string).

(** What a call of `read` gets at once, and what the waiting promise gets. *)
Inductive Output : Type :=
  | Answer (d : Delivery)
  | Settle (d : Delivery).

Inductive Taken : Type :=
  | NoLine
  | Line (line : bytes)
  | Thrown (error : option string).

Definition new_reader : RawLineReader := {|
  rr_chunks := []; rr_chunkOffset := 0; rr_queuedBytes := 0; rr_ended := false; rr_failure := None;
  rr_waiter := false; rr_paused := true; rr_attached := true |}.

Definition with_queue (r : RawLineReader) (chunks : list bytes) (offset : nat) (queued : Z) : RawLineReader := {|
  rr_chunks := chunks; rr_chunkOffset := offset; rr_queuedBytes := queued; rr_ended := rr_ended r;
  rr_failure := rr_failure r; rr_waiter := rr_waiter r; rr_paused := rr_paused r; rr_attached := rr_attached r |}.

Definition with_waiter (r : RawLineReader) (waiter : bool) : RawLineReader := {|
  rr_chunks := rr_chunks r; rr_chunkOffset := rr_chunkOffset r; rr_queuedBytes := rr_queuedBytes r;
  rr_ended := rr_ended r; rr_failure := rr_failure r; rr_waiter := waiter; rr_paused := rr_paused r;
  rr_attached := rr_attached r |}.

Definition with_paused (r : RawLineReader) (paused : bool) : RawLineReader := {|
  rr_chunks := rr_chunks r; rr_chunkOffset := rr_chunkOffset r; rr_queuedBytes := rr_queuedBytes r;
  rr_ended := rr_ended r; rr_failure := rr_failure r; rr_waiter := rr_waiter r; rr_paused := paused;
  rr_attached := rr_attached r |}.

Definition with_ended (r : RawLineReader) (failure : option string) : RawLineReader := {|
  rr_chunks := rr_chunks r; rr_chunkOffset := rr_chunkOffset r; rr_queuedBytes := rr_queuedBytes r;
  rr_ended := true; rr_failure := failure; rr_waiter := rr_waiter r; rr_paused := rr_paused r;
  rr_attached := rr_attached r |}.

Definition with_attached (r : RawLineReader) (attached : bool) : RawLineReader := {|
  rr_chunks := rr_chunks r; rr_chunkOffset := rr_chunkOffset r; rr_queuedBytes := rr_queuedBytes r;
  rr_ended := rr_ended r; rr_failure := rr_failure r; rr_waiter := rr_waiter r; rr_paused := rr_paused r;
  rr_attached := attached |}.

Fixpoint find_newline (start index : nat) (chunks : list bytes) : option (nat * nat) :=
  match chunks with
  | [] => None
  | chunk :: rest =>
      match index_from start chunk with
      | Some offset => Some (index, offset)
      | None => find_newline 0 (S index) rest
      end
  end.

Definition findNewline (r : RawLineReader) : option (nat * nat) :=
  find_newline (rr_chunkOffset r) 0 (rr_chunks r).

(** The first loop of `takeLine`: the length of the line that ends at an offset of
    a chunk. *)
Fixpoint line_length (start : nat) (chunks : list bytes) (chunkIndex offset : nat) : nat :=
  match chunks with
  | [] => 0
  | chunk :: rest =>
      match chunkIndex with
      | O => (offset + 1 - start)%nat
      | S chunkIndex => (length chunk - start + line_length 0 rest chunkIndex offset)%nat
      end
  end.

(** The second loop.  The queue never runs out before the line does. *)
Fixpoint segments_of (start : nat) (chunks : list bytes) (remaining : nat) : list bytes :=
  match remaining, chunks with
  | O, _ | _, [] => []
  | _, chunk :: rest =>
      let length := Nat.min remaining (length chunk - start) in
      take length (drop start chunk) :: segments_of 0 rest (remaining - length)
  end.

Fixpoint consume_from (chunks : list bytes) (offset : nat) (queued : Z) (remaining : nat) :
    list bytes * nat * Z :=
  match remaining, chunks with
  | O, _ | _, [] => (chunks, offset, queued)
  | _, chunk :: rest =>
      let consumed := Nat.min remaining (length chunk - offset) in
      let offset := (offset + consumed)%nat in
      let queued := (queued - Z.of_nat consumed)%Z in
      let remaining := (remaining - consumed)%nat in
      if (offset =? length chunk)%nat then consume_from rest 0 queued remaining
      else (chunks, offset, queued)
  end.

Definition consume (r : RawLineReader) (length : nat) : RawLineReader :=
  let '(chunks, offset, queued) := consume_from (rr_chunks r) (rr_chunkOffset r) (rr_queuedBytes r) length in
  with_queue r chunks offset queued.

Definition joined (segments : list bytes) (total : nat) : bytes :=
  match segments with [segment] => segment | _ => concat_to total segments end.

(** The loop of `assertPartialBounded`, from the last chunk to the first. *)
Fixpoint partial_bytes (offset : nat) (reversed : list bytes) : nat :=
  match reversed with
  | [] => 0
  | chunk :: earlier =>
      let start := match earlier with [] => offset | _ => 0%nat end in
      match last_index chunk with
      | Some i => if (start <=? i)%nat then (length chunk - i - 1)%nat
                  else (length chunk - start + partial_bytes offset earlier)%nat
      | None => (length chunk - start + partial_bytes offset earlier)%nat
      end
  end.

Definition takeRemainder (r : RawLineReader) : RawLineReader * option bytes :=
  if (rr_queuedBytes r =? 0)%Z then (r, None)
  else
    let segments := match rr_chunks r with
                    | [] => []
                    | chunk :: rest => drop (rr_chunkOffset r) chunk :: rest
                    end in
    (with_queue r [] 0 0, Some (joined segments (Z.to_nat (rr_queuedBytes r)))).

(** `reject?.(this.failure)`, after the waiting promise has been forgotten. *)
Definition reject (r : RawLineReader) : RawLineReader * list Output :=
  (with_waiter r false, if rr_waiter r then [Settle (Rejected (rr_failure r))] else []).

(** `fail` and `resolveAvailable` call each other.  Every operation that may fail
    takes the [fail] to call. *)
Definition Fail : Type := string → RawLineReader → RawLineReader * list Output.

Section Failing.
Context (fail : Fail).

Definition takeLine_with (r : RawLineReader) : RawLineReader * list Output * Taken :=
  match findNewline r with
  | None => (r, [], NoLine)
  | Some (chunkIndex, offset) =>
      let lineLength := line_length (rr_chunkOffset r) (rr_chunks r) chunkIndex offset in
      if (Z.of_nat lineLength >? maxControlBytes + 2)%Z then
        let '(r, outputs) := fail too_long r in (r, outputs, Thrown (rr_failure r))
      else
        let segments := segments_of (rr_chunkOffset r) (rr_chunks r) lineLength in
        (consume r lineLength, [], Line (joined segments lineLength))
  end.

Definition assertPartialBounded_with (r : RawLineReader) :
    RawLineReader * list Output * option (option string) :=
  if (Z.of_nat (partial_bytes (rr_chunkOffset r) (reverse (rr_chunks r))) >? maxControlBytes + 2)%Z then
    let '(r, outputs) := fail too_long r in (r, outputs, Some (rr_failure r))
  else (r, [], None).

(** The `catch`: what is thrown is the failure of the reader. *)
Definition caught (r : RawLineReader) (outputs : list Output) (error : option string) :
    RawLineReader * list Output :=
  let '(r, outputs') := fail (default "" error) r in (r, outputs ++ outputs').

Definition resolveAvailable_with (r : RawLineReader) : RawLineReader * list Output :=
  if negb (rr_waiter r) then (r, [])
  else
    let '(r, outputs, taken) := takeLine_with r in
    match taken with
    | Line line => (with_waiter r false, outputs ++ [Settle (Resolved (Some line))])
    | Thrown error => caught r outputs error
    | NoLine =>
        let '(r, outputs', thrown) := assertPartialBounded_with r in
        let outputs := outputs ++ outputs' in
        match thrown with
        | Some error => caught r outputs error
        | None =>
            match rr_failure r with
            | Some _ => let '(r, outputs') := reject r in (r, outputs ++ outputs')
            | None =>
                if rr_ended r then
                  let '(r, remainder) := takeRemainder (with_waiter r false) in
                  (r, outputs ++ [Settle (Resolved remainder)])
                else (with_paused r false, outputs)
            end
        end
    end.
End Failing.

(** Once there is a failure, `fail` does no more than to reject the promise, which
    ends the recursion. *)
Definition fail : Fail := λ error r,
  match rr_failure r with
  | Some _ => reject r
  | None => resolveAvailable_with (λ _, reject) (with_paused (with_ended r (Some error)) true)
  end.

Definition takeLine := takeLine_with fail.
Definition assertPartialBounded := assertPartialBounded_with fail.
Definition resolveAvailable := resolveAvailable_with fail.

(** The `finally` of `read` clears what whoever settled the promise has cleared. *)
Definition read (r : RawLineReader) : RawLineReader * list Output :=
  let '(r, outputs, taken) := takeLine r in
  match taken with
  | Line line => (r, outputs ++ [Answer (Resolved (Some line))])
  | Thrown error => (r, outputs ++ [Answer (Rejected error)])
  | NoLine =>
      let '(r, outputs', thrown) := assertPartialBounded r in
      let outputs := outputs ++ outputs' in
      match thrown with
      | Some error => (r, outputs ++ [Answer (Rejected error)])
      | None =>
          match rr_failure r with
          | Some error => (r, outputs ++ [Answer (Rejected (Some error))])
          | None =>
              if rr_ended r then
                let '(r, remainder) := takeRemainder r in (r, outputs ++ [Answer (Resolved remainder)])
              else if rr_waiter r then (r, outputs)
              else (with_paused (with_waiter r true) false, outputs)
          end
      end
  end.

Definition onData (chunk : bytes) (r : RawLineReader) : RawLineReader * list Output :=
  resolveAvailable
    (with_queue (with_paused r true) (rr_chunks r ++ [chunk]) (rr_chunkOffset r)
       (rr_queuedBytes r + Z.of_nat (length chunk))%Z).

Definition onEnd (r : RawLineReader) : RawLineReader * list Output :=
  resolveAvailable (with_ended r (rr_failure r)).

Definition onError (message : string) (r : RawLineReader) : RawLineReader * list Output :=
  fail ("gateway disconnected: " +:+ message) r.

Definition abort (error : string) (r : RawLineReader) : RawLineReader * list Output := fail error r.

Definition close (r : RawLineReader) : RawLineReader * list Output :=
  (with_attached (with_paused r true) false, []).

(** ** Runs *)

Inductive Event : Type :=
  | EvRead
  | EvData (chunk : bytes)
  | EvEnd
  | EvError (message : string)
  | EvAbort (error : string)
  | EvClose.

Definition step (r : RawLineReader) (event : Event) : RawLineReader * list Output :=
  match event with
  | EvRead => read r
  | EvData chunk => if rr_attached r then onData chunk r else (r, [])
  | EvEnd => if rr_attached r then onEnd r else (r, [])
  | EvError message => if rr_attached r then onError message r else (r, [])
  | EvAbort error => abort error r
  | EvClose => close r
  end.

Fixpoint run {S E O} (step : S → E → S * list O) (s : S) (events : list E) : S * list O :=
  match events with
  | [] => (s, [])
  | event :: events =>
      let '(s, outputs) := step s event in
      let '(s, outputs') := run step s events in (s, outputs ++ outputs')
  end.

(** ** The shared reader

    [BufferedGatewayLineReader]: a monitor that looks one line ahead while an
    approval is pending, and the execution that reads after it, share one reader.
    The callers of `read` wait for one call before they make the next. *)

Inductive Puller : Type := PulledByMonitor | PulledByRead.
#[export] Instance Puller_eq_dec : EqDecision Puller.
Proof. solve_decision. Defined.

Inductive Monitor : Type := MonitorIdle | MonitorPending | MonitorSettled.

Record BufferedReader : Type := {
  br_queued : bool;
  br_queuedLine : option bytes;
  (** who waits for the promise `inFlight`; nobody when it is null *)
  br_inFlight : list Puller;
  br_monitor : Monitor;
  br_failure : option string;
  (** a `read` waits for the monitor *)
  br_reading : bool;
  br_source : RawLineReader;
}.

(** What the callback of the monitor, and a caller of `read`, get. *)
Inductive BufferedOutput : Type :=
  | Observed (d : Delivery)
  | Got (d : Delivery).

Definition new_buffered : BufferedReader := {|
  br_queued := false; br_queuedLine := None; br_inFlight := []; br_monitor := MonitorIdle;
  br_failure := None; br_reading := false; br_source := new_reader |}.

Definition with_queued (b : BufferedReader) (queued : bool) (line : option bytes) : BufferedReader := {|
  br_queued := queued; br_queuedLine := line; br_inFlight := br_inFlight b; br_monitor := br_monitor b;
  br_failure := br_failure b; br_reading := br_reading b; br_source := br_source b |}.

Definition with_inFlight (b : BufferedReader) (inFlight : list Puller) : BufferedReader := {|
  br_queued := br_queued b; br_queuedLine := br_queuedLine b; br_inFlight := inFlight;
  br_monitor := br_monitor b; br_failure := br_failure b; br_reading := br_reading b;
  br_source := br_source b |}.

Definition with_monitor (b : BufferedReader) (monitor : Monitor) : BufferedReader := {|
  br_queued := br_queued b; br_queuedLine := br_queuedLine b; br_inFlight := br_inFlight b;
  br_monitor := monitor; br_failure := br_failure b; br_reading := br_reading b;
  br_source := br_source b |}.

Definition with_buffered_failure (b : BufferedReader) (failure : option string) : BufferedReader := {|
  br_queued := br_queued b; br_queuedLine := br_queuedLine b; br_inFlight := br_inFlight b;
  br_monitor := br_monitor b; br_failure := failure; br_reading := br_reading b;
  br_source := br_source b |}.

Definition with_reading (b : BufferedReader) (reading : bool) : BufferedReader := {|
  br_queued := br_queued b; br_queuedLine := br_queuedLine b; br_inFlight := br_inFlight b;
  br_monitor := br_monitor b; br_failure := br_failure b; br_reading := reading;
  br_source := br_source b |}.

Definition with_source (b : BufferedReader) (source : RawLineReader) : BufferedReader := {|
  br_queued := br_queued b; br_queuedLine := br_queuedLine b; br_inFlight := br_inFlight b;
  br_monitor := br_monitor b; br_failure := br_failure b; br_reading := br_reading b;
  br_source := source |}.

(** A `read` that need not pull: the queued line or the failure. *)
Definition read_queued (b : BufferedReader) : BufferedReader * list BufferedOutput :=
  if br_queued b then (with_queued b false None, [Got (Resolved (br_queuedLine b))])
  else match br_failure b with
       | Some error => (b, [Got (Rejected (Some error))])
       | None => (b, [])
       end.

(** The `then`, `catch` and `finally` of the monitor, after which a `read` that waits
    for it goes on. *)
Definition monitor_settles (d : Delivery) (b : BufferedReader) : BufferedReader * list BufferedOutput :=
  let b := match d with
           | Resolved line => with_queued b true line
           | Rejected error => with_buffered_failure b (Some (default "null" error))
           end in
  let b := with_monitor b MonitorSettled in
  if br_reading b then
    let '(b, outputs) := read_queued (with_reading b false) in (b, Observed d :: outputs)
  else (b, [Observed d]).

(** The promise `inFlight` settles: everybody who waits for it goes on. *)
Definition pulled (b : BufferedReader) (o : Output) : BufferedReader * list BufferedOutput :=
  let d := match o with Answer d | Settle d => d end in
  run (λ b puller, match puller with
                   | PulledByMonitor => monitor_settles d b
                   | PulledByRead => (b, [Got d])
                   end) (with_inFlight b []) (br_inFlight b).

(** The source has done something. *)
Definition source_gives (b : BufferedReader) (result : RawLineReader * list Output) :
    BufferedReader * list BufferedOutput :=
  run pulled (with_source b result.1) result.2.

Definition pull (puller : Puller) (b : BufferedReader) : BufferedReader * list BufferedOutput :=
  let pullers := br_inFlight b in
  let b := with_inFlight b (pullers ++ [puller]) in
  match pullers with
  | [] => source_gives b (read (br_source b))
  | _ => (b, [])
  end.

Definition buffered_read (b : BufferedReader) : BufferedReader * list BufferedOutput :=
  if br_queued b then read_queued b
  else match br_failure b with
       | Some _ => read_queued b
       | None =>
           match br_monitor b with
           | MonitorPending => (with_reading b true, [])
           | MonitorIdle | MonitorSettled => pull PulledByRead b
           end
       end.

Definition startMonitor (b : BufferedReader) : BufferedReader * list BufferedOutput :=
  match br_monitor b with
  | MonitorIdle => pull PulledByMonitor (with_monitor b MonitorPending)
  | MonitorPending | MonitorSettled => (b, [])
  end.

Definition buffered_abort (error : string) (b : BufferedReader) : BufferedReader * list BufferedOutput :=
  source_gives (with_buffered_failure b (Some error)) (abort error (br_source b)).

Definition buffered_close (b : BufferedReader) : BufferedReader * list BufferedOutput :=
  let '(b, outputs) :=
    match br_monitor b with
    | MonitorPending => source_gives b (abort "gateway reader closed" (br_source b))
    | MonitorIdle | MonitorSettled => (b, [])
    end in
  let '(b, outputs') := source_gives b (close (br_source b)) in (b, outputs ++ outputs').

Inductive BufferedEvent : Type :=
  | BrStartMonitor
  | BrRead
  | BrAbort (error : string)
  | BrClose
  (** an event of the socket *)
  | BrSocket (event : Event).

Definition buffered_step (b : BufferedReader) (event : BufferedEvent) : BufferedReader * list BufferedOutput :=
  match event with
  | BrStartMonitor => startMonitor b
  | BrRead => buffered_read b
  | BrAbort error => buffered_abort error b
  | BrClose => buffered_close b
  | BrSocket event =>
      match event with
      | EvData _ | EvEnd | EvError _ => source_gives b (step (br_source b) event)
      | _ => (b, [])
      end
  end.
