(* ===== verification/LineReaderLaws.v ===== *)
(** * The reader of lines refines a buffer of bytes

    [Stream] is what [RawLineReader] promises: a buffer that grows at the end and is
    cut at newlines, the end or the failure of its source, and whether somebody
    waits.  Every operation of the reader does what the operation of the stream
    does, and gives the same to its callers. *)
From S2P Require Import Prelude JsString LineReader.

(** ** The specification *)

Record Stream : Type := {
  sm_buffer : bytes;
  sm_ended : bool;
  sm_failure : option string;
  sm_waiter : bool;
  sm_paused : bool;
  sm_attached : bool;
}.

(** The first line, with its newline, and what follows it. *)
Fixpoint cut (b : bytes) : option (bytes * bytes) :=
  match b with
  | [] => None
  | x :: b =>
      if decide (x = newline) then Some ([x], b)
      else match cut b with Some (line, rest) => Some (x :: line, rest) | None => None end
  end.

Definition oversized (b : bytes) : bool := (Z.of_nat (length b) >? maxControlBytes + 2)%Z.

Definition set_buffer (s : Stream) (b : bytes) : Stream := {|
  sm_buffer := b; sm_ended := sm_ended s; sm_failure := sm_failure s; sm_waiter := sm_waiter s;
  sm_paused := sm_paused s; sm_attached := sm_attached s |}.

Definition set_waiter (s : Stream) (waiter paused : bool) : Stream := {|
  sm_buffer := sm_buffer s; sm_ended := sm_ended s; sm_failure := sm_failure s; sm_waiter := waiter;
  sm_paused := paused; sm_attached := sm_attached s |}.

Definition set_ended (s : Stream) : Stream := {|
  sm_buffer := sm_buffer s; sm_ended := true; sm_failure := sm_failure s; sm_waiter := sm_waiter s;
  sm_paused := sm_paused s; sm_attached := sm_attached s |}.

(** The first failure is the one that counts. *)
Definition broken (s : Stream) (error : string) : Stream :=
  match sm_failure s with
  | Some _ => s
  | None => {| sm_buffer := sm_buffer s; sm_ended := true; sm_failure := Some error;
               sm_waiter := sm_waiter s; sm_paused := true; sm_attached := sm_attached s |}
  end.

(** What somebody who reads gets at once: a line that is there, even after a
    failure; else the failure; else, after the end, what is left. *)
Definition ready (s : Stream) : option (Delivery * Stream) :=
  let refused := (Rejected (sm_failure (broken s too_long)), broken s too_long) in
  match cut (sm_buffer s) with
  | Some (line, rest) =>
      Some (if oversized line then refused else (Resolved (Some line), set_buffer s rest))
  | None =>
      if oversized (sm_buffer s) then Some refused
      else match sm_failure s with
           | Some error => Some (Rejected (Some error), s)
           | None =>
               if sm_ended s then
                 Some (Resolved (match sm_buffer s with [] => None | b => Some b end), set_buffer s [])
               else None
           end
  end.

Definition offer (s : Stream) : Stream * list Output :=
  if sm_waiter s then
    match ready s with
    | Some (d, s) => (set_waiter s false (sm_paused s), [Settle d])
    | None => (set_waiter s true false, [])
    end
  else (s, []).

Definition break (error : string) (s : Stream) : Stream * list Output :=
  match sm_failure s with
  | Some e => (set_waiter s false (sm_paused s), if sm_waiter s then [Settle (Rejected (Some e))] else [])
  | None => offer (broken s error)
  end.

Definition stream_step (s : Stream) (event : Event) : Stream * list Output :=
  match event with
  | EvRead =>
      match ready s with
      | Some (d, s) => (s, [Answer d])
      | None => (if sm_waiter s then s else set_waiter s true false, [])
      end
  | EvData chunk =>
      if sm_attached s then offer (set_waiter (set_buffer s (sm_buffer s ++ chunk)) (sm_waiter s) true) else (s, [])
  | EvEnd =>
      if sm_attached s then offer (set_ended s) else (s, [])
  | EvError message => if sm_attached s then break ("gateway disconnected: " +:+ message) s else (s, [])
  | EvAbort error => break error s
  | EvClose => ({| sm_buffer := sm_buffer s; sm_ended := sm_ended s; sm_failure := sm_failure s;
                   sm_waiter := sm_waiter s; sm_paused := true; sm_attached := false |}, [])
  end.

(** ** What a reader stands for *)

(** The bytes a queue holds behind an offset. *)
Definition behind (offset : nat) (chunks : list bytes) : bytes :=
  match chunks with [] => [] | chunk :: rest => drop offset chunk ++ concat rest end.

Definition stream_of (r : RawLineReader) : Stream := {|
  sm_buffer := behind (rr_chunkOffset r) (rr_chunks r); sm_ended := rr_ended r; sm_failure := rr_failure r;
  sm_waiter := rr_waiter r; sm_paused := rr_paused r; sm_attached := rr_attached r |}.

Definition offset_ok (offset : nat) (chunks : list bytes) : Prop :=
  match chunks with [] => offset = 0%nat | chunk :: _ => (offset ≤ length chunk)%nat end.

(** The offset lies in the first chunk and the count of the bytes is right. *)
Record queue_ok (r : RawLineReader) : Prop := {
  ok_offset : offset_ok (rr_chunkOffset r) (rr_chunks r);
  ok_queued : rr_queuedBytes r = Z.of_nat (length (sm_buffer (stream_of r)));
}.

(** Moreover nobody waits for what is there. *)
Definition reader_ok (r : RawLineReader) : Prop :=
  queue_ok r ∧ (rr_waiter r = true → ready (stream_of r) = None).

(** An operation of the reader did what the operation of the stream does. *)
Definition refines (concrete : RawLineReader * list Output) (abstract : Stream * list Output) : Prop :=
  queue_ok concrete.1 ∧ (stream_of concrete.1, concrete.2) = abstract.

(** ** Lines *)

Lemma cut_app a b :
  cut (a ++ b) =
  match cut a with
  | Some (line, rest) => Some (line, rest ++ b)
  | None => match cut b with Some (line, rest) => Some (a ++ line, rest) | None => None end
  end.
Proof.
  induction a as [|x a IH]; cbn; [by destruct (cut b) as [[]|]|]. case_decide; [done|].
  rewrite IH. destruct (cut a) as [[]|]; [done|]. by destruct (cut b) as [[]|].
Qed.

Lemma cut_spec b line rest :
  cut b = Some (line, rest) → b = line ++ rest ∧ ∃ text, line = text ++ [newline] ∧ newline ∉ text.
Proof.
  revert line rest. induction b as [|x b IH]; intros line rest; cbn; [done|]. case_decide as Hx.
  - intros [= <- <-]. subst. split; [done|]. exists []. split; [done|]. apply not_elem_of_nil.
  - destruct (cut b) as [[line' rest']|] eqn:E; [|done]. intros [= <- <-].
    destruct (IH _ _ eq_refl) as (-> & text & -> & Ht). split; [done|]. exists (x :: text). split; [done|].
    rewrite not_elem_of_cons. by split.
Qed.

Lemma cut_None b : cut b = None ↔ newline ∉ b.
Proof.
  induction b as [|x b IH]; cbn; [split; [intros _; apply not_elem_of_nil|done]|].
  rewrite not_elem_of_cons. case_decide as Hx; [split; [done|]; by intros [[] _]|].
  destruct (cut b) as [[]|]; [|naive_solver]. split; [done|]. intros [_ Hb]. by apply IH in Hb.
Qed.

Lemma find_cut c :
  match list_find (λ b, b = newline) c with
  | Some (i, _) => (i < length c)%nat ∧ cut c = Some (take (S i) c, drop (S i) c)
  | None => cut c = None
  end.
Proof.
  induction c as [|x c IH]; cbn [list_find cut]; [done|]. case_decide as Hx; [cbn; split; [lia|by rewrite take_0, drop_0]|].
  destruct (list_find _ c) as [[i y]|] eqn:E; cbn.
  - destruct IH as [Hi ->]. split; [lia|done].
  - by rewrite IH.
Qed.

(** Searching for the newline is cutting. *)
Lemma find_newline_cut : ∀ chunks start index,
  offset_ok start chunks →
  match find_newline start index chunks with
  | Some (k, offset) =>
      ∃ i line rest, k = (index + i)%nat ∧ cut (behind start chunks) = Some (line, rest) ∧
        length line = line_length start chunks i offset
  | None => cut (behind start chunks) = None
  end.
Proof.
  induction chunks as [|chunk chunks IH]; intros start index Hs; cbn; [done|]. unfold index_from.
  rewrite cut_app. pose proof (find_cut (drop start chunk)) as Hf.
  destruct (list_find _ (drop start chunk)) as [[i x]|] eqn:E; cbn.
  - destruct Hf as [Hi ->]. exists 0%nat. do 2 eexists. split_and!; [lia|done|].
    rewrite length_take. cbn [line_length]. rewrite length_drop in *. lia.
  - rewrite Hf. assert (offset_ok 0 chunks) as H0 by (destruct chunks; cbn; lia). specialize (IH 0%nat (S index) H0).
    assert (behind 0 chunks = concat chunks) as Hb by (by destruct chunks).
    rewrite Hb in IH. destruct (find_newline 0 (S index) chunks) as [[k offset]|]; [|by rewrite IH].
    destruct IH as (i & line & rest & -> & -> & Hl). exists (S i). do 2 eexists. split_and!; [lia|done|].
    rewrite length_app, length_drop, Hl. done.
Qed.

Lemma concat_segments : ∀ chunks start n,
  concat (segments_of start chunks n) = take n (behind start chunks).
Proof.
  induction chunks as [|chunk chunks IH]; intros start n; destruct n as [|n]; try done.
  cbn [segments_of concat behind]. set (m := Nat.min (S n) (length chunk - start)).
  rewrite IH. assert (behind 0 chunks = concat chunks) as -> by (by destruct chunks).
  rewrite take_app, length_drop. f_equal; [|f_equal; lia].
  unfold m. destruct (Nat.min_spec (S n) (length chunk - start)) as [[_ ->]|[Hle ->]]; [done|].
  rewrite !take_ge; [done|rewrite length_drop; lia..].
Qed.

Lemma joined_segments segments n : length (concat segments) = n → joined segments n = concat segments.
Proof.
  intros Hn. unfold joined, concat_to.
  assert (take n (concat segments) ++ replicate (n - length (concat segments)) "000"%char = concat segments) as Hc.
  { rewrite Hn, Nat.sub_diag, take_ge by lia. apply app_nil_r. }
  destruct segments as [|s [|s' ss]]; [exact Hc| |exact Hc]. cbn. by rewrite app_nil_r.
Qed.

Lemma consume_behind : ∀ chunks start queued n,
  offset_ok start chunks → (n ≤ length (behind start chunks))%nat →
  let '(chunks', start', queued') := consume_from chunks start queued n in
  offset_ok start' chunks' ∧ behind start' chunks' = drop n (behind start chunks) ∧
  queued' = (queued - Z.of_nat n)%Z.
Proof.
  induction chunks as [|chunk chunks IH]; intros start queued n Hs Hn; destruct n as [|n]; cbn [consume_from];
    try (rewrite drop_0; split_and!; [done|done|lia]); [cbn in Hn; lia|].
  remember (Nat.min (S n) (length chunk - start)) as m eqn:Em'. cbn [offset_ok] in Hs.
  cbn [behind] in Hn |- *. rewrite length_app, length_drop in Hn.
  destruct (Nat.eqb_spec (start + m) (length chunk)) as [Em|Em].
  - assert (offset_ok 0 chunks) as H0 by (destruct chunks; cbn; lia).
    assert (behind 0 chunks = concat chunks) as Hb by (by destruct chunks).
    specialize (IH 0%nat (queued - Z.of_nat m)%Z (S n - m)%nat H0 ltac:(rewrite Hb; lia)).
    destruct (consume_from _ _ _ _) as [[chunks' start'] queued']. destruct IH as (H1 & H2 & H3).
    split_and!; [done| |lia]. rewrite H2, Hb, drop_app, length_drop.
    rewrite (drop_ge (drop start chunk)) by (rewrite length_drop; lia). cbn. f_equal. lia.
  - assert (m = S n) as Hm by lia. split_and!; [cbn; lia| |lia].
    cbn [behind]. rewrite Hm, drop_app_le by (rewrite length_drop; lia). by rewrite drop_drop.
Qed.

Lemma last_index_None c : last_index c = None ↔ newline ∉ c.
Proof.
  induction c as [|x c IH]; cbn; [split; [intros _; apply not_elem_of_nil|done]|]. rewrite not_elem_of_cons.
  destruct (last_index c) as [i|]; [|case_decide; naive_solver]. split; [done|]. intros [_ Hc]. by apply IH in Hc.
Qed.

Lemma last_index_drop c start i : last_index c = Some i → newline ∉ drop start c → (i < start)%nat.
Proof.
  revert start i. induction c as [|x c IH]; intros start i; cbn; [done|].
  destruct start as [|start]; cbn.
  - intros Hi Hn. rewrite not_elem_of_cons in Hn. destruct Hn as [Hx Hc]. apply last_index_None in Hc.
    rewrite Hc in Hi. by rewrite decide_False in Hi by done.
  - destruct (last_index c) as [j|] eqn:E; [|case_decide; intros [= <-] _; lia].
    intros [= <-] Hn. specialize (IH start j eq_refl Hn). lia.
Qed.

(** Without a newline in the buffer the loop counts all of it. *)
Lemma partial_bytes_all offset chunks :
  newline ∉ behind offset chunks → partial_bytes offset (reverse chunks) = length (behind offset chunks).
Proof.
  destruct chunks as [|chunk chunks]; [done|]. induction chunks as [|last chunks IH] using rev_ind; intros Hn; cbn [behind] in Hn |- *.
  - cbn. destruct (last_index chunk) as [i|] eqn:E; cbn in Hn; rewrite app_nil_r, length_drop in *; [|lia].
    pose proof (last_index_drop _ _ _ E Hn) as Hi. destruct (Nat.leb_spec offset i); [lia|]. lia.
  - rewrite concat_app in Hn |- *. cbn [concat] in Hn |- *. rewrite app_nil_r in Hn |- *.
    rewrite app_assoc, not_elem_of_app in Hn. destruct Hn as [Hn Hl].
    rewrite app_comm_cons, reverse_app. change (reverse [last]) with [last]. cbn [app partial_bytes].
    apply last_index_None in Hl as ->.
    assert (reverse (chunk :: chunks) ≠ []) as Hne.
    { intros Hr. apply (f_equal length) in Hr. rewrite length_reverse in Hr. done. }
    destruct (reverse (chunk :: chunks)) as [|c cs] eqn:Er; [done|].
    rewrite IH by exact Hn. cbn [behind]. rewrite app_assoc, !length_app. lia.
Qed.

(** ** Operations *)

Lemma takeLine_cut fail r :
  queue_ok r →
  match cut (sm_buffer (stream_of r)) with
  | None => takeLine_with fail r = (r, [], NoLine)
  | Some (line, rest) =>
      if oversized line then
        takeLine_with fail r = (let '(r, outputs) := fail too_long r in (r, outputs, Thrown (rr_failure r)))
      else ∃ r', takeLine_with fail r = (r', [], Line line) ∧ queue_ok r' ∧
        stream_of r' = set_buffer (stream_of r) rest
  end.
Proof.
  intros [Ho Hq]. unfold takeLine_with, findNewline. cbn [stream_of sm_buffer] in *.
  pose proof (find_newline_cut (rr_chunks r) (rr_chunkOffset r) 0 Ho) as Hf.
  destruct (find_newline _ _ _) as [[k offset]|]; [|by rewrite Hf].
  destruct Hf as (i & line & rest & -> & Hc & Hl). rewrite Hc. cbn [Nat.add]. rewrite <- Hl. unfold oversized.
  destruct (_ >? _)%Z; [done|]. apply cut_spec in Hc as [Hb _].
  assert (concat (segments_of (rr_chunkOffset r) (rr_chunks r) (length line)) = line) as Hs.
  { by rewrite concat_segments, Hb, take_app_length. }
  rewrite joined_segments by (by rewrite Hs). rewrite Hs. eexists. split; [done|].
  pose proof (consume_behind (rr_chunks r) (rr_chunkOffset r) (rr_queuedBytes r) (length line) Ho
    ltac:(rewrite Hb, length_app; lia)) as Hcons.
  unfold consume. destruct (consume_from _ _ _ _) as [[chunks offset'] queued]. destruct Hcons as (H1 & H2 & H3).
  rewrite Hb, drop_app_length in H2. split.
  - split; [done|]. cbn. rewrite H2, H3, Hq, Hb, length_app. lia.
  - unfold stream_of, set_buffer. cbn. by rewrite H2.
Qed.

Lemma bounded_cut fail r :
  cut (sm_buffer (stream_of r)) = None →
  assertPartialBounded_with fail r =
  if oversized (sm_buffer (stream_of r)) then
    let '(r, outputs) := fail too_long r in (r, outputs, Some (rr_failure r))
  else (r, [], None).
Proof.
  intros Hc%cut_None. unfold assertPartialBounded_with, oversized. by rewrite partial_bytes_all.
Qed.

Lemma takeRemainder_all r :
  queue_ok r →
  let '(r', line) := takeRemainder r in
  line = match sm_buffer (stream_of r) with [] => None | b => Some b end ∧
  queue_ok r' ∧ stream_of r' = set_buffer (stream_of r) [].
Proof.
  intros [Ho Hq]. unfold takeRemainder. destruct (Z.eqb_spec (rr_queuedBytes r) 0) as [E|E].
  - rewrite E in Hq. destruct (sm_buffer (stream_of r)) as [|x b] eqn:Eb; [|cbn in Hq; lia].
    split_and!; [done|by split; rewrite ?Eb|]. unfold set_buffer, stream_of in *. cbn in *. by rewrite Eb.
  - assert (concat match rr_chunks r with [] => [] | chunk :: rest => drop (rr_chunkOffset r) chunk :: rest end
      = sm_buffer (stream_of r)) as Hs by (cbn; by destruct (rr_chunks r)).
    rewrite joined_segments by (rewrite Hs, Hq; lia). rewrite Hs.
    split_and!; [|by split|done]. destruct (sm_buffer (stream_of r)); [cbn in Hq; lia|done].
Qed.

Lemma queue_waiter r b : queue_ok r → queue_ok (with_waiter r b).
Proof. by intros []. Qed.

Lemma queue_paused r b : queue_ok r → queue_ok (with_paused r b).
Proof. by intros []. Qed.

Lemma queue_ended r f : queue_ok r → queue_ok (with_ended r f).
Proof. by intros []. Qed.

#[local] Hint Resolve queue_waiter queue_paused queue_ended : core.

Lemma broken_failure s error : sm_failure (broken s error) ≠ None.
Proof. unfold broken. by destruct (sm_failure s) eqn:E; rewrite ?E. Qed.

(** The failure of a reader is delivered. *)
Lemma resolve_failed r error :
  queue_ok r → rr_failure r = Some error →
  refines (resolveAvailable_with (λ _, reject) r) (offer (stream_of r)).
Proof.
  intros Hq Hf. unfold resolveAvailable_with, offer. cbn [sm_waiter stream_of]. destruct (rr_waiter r) eqn:Ew; [|by split].
  pose proof (takeLine_cut (λ _, reject) r Hq) as Ht. unfold ready, broken. cbn [sm_failure stream_of] in *.
  rewrite Hf. destruct (cut _) as [[line rest]|] eqn:Ec.
  - destruct (oversized line).
    + rewrite Ht. unfold caught, reject. rewrite Ew, Hf. split; [by apply queue_waiter, queue_waiter|]. cbn. by rewrite Hf.
    + destruct Ht as (r' & -> & Hq' & Hs). split; [by apply queue_waiter|]. by rewrite <- Hs.
  - rewrite Ht, bounded_cut by done. cbn [sm_buffer stream_of]. destruct (oversized _).
    + unfold caught, reject. rewrite Ew, Hf. split; [by apply queue_waiter, queue_waiter|]. cbn. by rewrite Hf.
    + unfold reject. rewrite Hf, Ew. by split; [apply queue_waiter|].
Qed.

Lemma fail_refines error r : queue_ok r → refines (fail error r) (break error (stream_of r)).
Proof.
  intros Hq. unfold fail, break. cbn [sm_failure stream_of]. destruct (rr_failure r) as [e|] eqn:Ef.
  - unfold reject. rewrite Ef. split; [by apply queue_waiter|done].
  - pose proof (resolve_failed (with_paused (with_ended r (Some error)) true) error ltac:(auto) eq_refl) as Hr.
    unfold broken. cbn [sm_failure stream_of]. by rewrite Ef.
Qed.

(** A failure that is noticed while somebody waits for what is too long. *)
Lemma fail_too_long r :
  queue_ok r →
  (∃ line rest, cut (sm_buffer (stream_of r)) = Some (line, rest) ∧ oversized line = true) ∨
  (cut (sm_buffer (stream_of r)) = None ∧ oversized (sm_buffer (stream_of r)) = true) →
  let s := broken (stream_of r) too_long in
  refines (fail too_long r)
    (if rr_waiter r then (set_waiter s false (sm_paused s), [Settle (Rejected (sm_failure s))]) else (s, [])).
Proof.
  intros Hq Hbig s. destruct (fail_refines too_long r Hq) as [H1 H2]. split; [done|]. rewrite H2. clear H1 H2.
  unfold s, break, offer, ready, broken. cbn [sm_failure sm_waiter sm_buffer stream_of].
  destruct (rr_failure r) as [e|] eqn:Ef; cbn.
  - destruct (rr_waiter r) eqn:Ew; rewrite ?Ef; [done|]. unfold set_waiter, stream_of. cbn. by rewrite Ew.
  - destruct (rr_waiter r); [|done]. cbn in Hbig. destruct Hbig as [(line & rest & -> & ->)|[-> ->]]; done.
Qed.

Lemma resolve_refines r : queue_ok r → refines (resolveAvailable r) (offer (stream_of r)).
Proof.
  intros Hq. unfold resolveAvailable, resolveAvailable_with, offer. cbn [sm_waiter stream_of].
  destruct (rr_waiter r) eqn:Ew; [|by split].
  pose proof (takeLine_cut fail r Hq) as Ht. unfold ready. cbn [sm_buffer sm_failure stream_of sm_ended] in *.
  assert (∀ r' outputs, refines (fail too_long r) (r', outputs) → sm_waiter r' = false → sm_failure r' ≠ None →
    refines (let '(r, outputs) := fail too_long r in caught fail r outputs (rr_failure r)) (r', outputs)) as Hcaught.
  { intros s' outputs [H1 H2] Hw Hf. destruct (fail too_long r) as [r1 out] eqn:Er. cbn in H1, H2. injection H2 as Hs Ho.
    unfold caught, fail. assert (rr_waiter r1 = false) as Hw1 by (by rewrite <- Hs in Hw).
    assert (rr_failure r1 ≠ None) as Hf1.
    { by rewrite <- Hs in Hf. }
    destruct (rr_failure r1) as [e|]; [|done]. unfold reject. rewrite Hw1. split; [by apply queue_waiter|]. cbn.
    rewrite app_nil_r, <- Ho, <- Hs. f_equal. unfold stream_of, with_waiter. cbn. by rewrite Hw1. }
  destruct (cut _) as [[line rest]|] eqn:Ec.
  - destruct (oversized line) eqn:Eo.
    + rewrite Ht. pose proof (fail_too_long r Hq ltac:(left; eauto)) as Hf. rewrite Ew in Hf. cbv zeta in Hf.
      specialize (Hcaught _ _ Hf eq_refl (broken_failure _ _)). by destruct (fail too_long r).
    + destruct Ht as (r' & -> & Hq' & Hs). split; [by apply queue_waiter|]. by rewrite <- Hs.
  - rewrite Ht. unfold assertPartialBounded. rewrite bounded_cut by done. cbn [sm_buffer stream_of]. destruct (oversized _) eqn:Eo.
    + pose proof (fail_too_long r Hq ltac:(right; done)) as Hf. rewrite Ew in Hf. cbv zeta in Hf.
      specialize (Hcaught _ _ Hf eq_refl (broken_failure _ _)). by destruct (fail too_long r).
    + destruct (rr_failure r) as [e|] eqn:Ef.
      * unfold reject. rewrite Ew, Ef. split; [by apply queue_waiter|done].
      * destruct (rr_ended r) eqn:Ee.
        -- pose proof (takeRemainder_all (with_waiter r false) ltac:(auto)) as Hr.
           destruct (takeRemainder _) as [r' line]. destruct Hr as (-> & Hq' & Hs). split; [done|]. cbn. by rewrite Hs.
        -- split; [by apply queue_paused|]. unfold set_waiter, stream_of. cbn. by rewrite Ew.
Qed.

(** ** Every event *)

(** Who reads gets what is ready, or waits. *)
Lemma read_refines r : reader_ok r → refines (read r) (stream_step (stream_of r) EvRead).
Proof.
  intros [Hq Hw]. unfold read, takeLine. cbn [stream_step]. pose proof (takeLine_cut fail r Hq) as Ht.
  assert (ready (stream_of r) ≠ None → rr_waiter r = false) as Hidle.
  { intros Hr. destruct (rr_waiter r); [|done]. by destruct Hr; apply Hw. }
  unfold ready in Hidle |- *. cbn [sm_failure sm_ended sm_waiter stream_of] in *.
  pose proof (fail_too_long r Hq) as Hf. cbv zeta in Hf.
  assert (refines (fail too_long r) (broken (stream_of r) too_long, []) →
    refines (let '(r, outputs) := fail too_long r in (r, outputs ++ [Answer (Rejected (rr_failure r))]))
      (broken (stream_of r) too_long, [Answer (Rejected (sm_failure (broken (stream_of r) too_long)))])) as Hrefuse.
  { intros [H1 H2]. destruct (fail too_long r) as [r1 out]. cbn in H1, H2. injection H2 as Hs Ho. split; [done|].
    cbn. by rewrite Ho, <- Hs. }
  destruct (cut _) as [[line rest]|] eqn:Ec.
  - destruct (oversized line) eqn:Eo.
    + rewrite Ht. specialize (Hidle ltac:(done)). rewrite Hidle in Hf.
      specialize (Hrefuse (Hf ltac:(left; eauto))).
      by destruct (fail too_long r).
    + destruct Ht as (r' & -> & Hq' & Hs). split; [done|]. cbn. by rewrite Hs.
  - rewrite Ht. unfold assertPartialBounded. rewrite bounded_cut by done. cbn [sm_buffer stream_of] in *. destruct (oversized _) eqn:Eo.
    + specialize (Hidle ltac:(done)). rewrite Hidle in Hf.
      specialize (Hrefuse (Hf ltac:(right; done))).
      by destruct (fail too_long r).
    + destruct (rr_failure r) as [e|] eqn:Ef; [by split|]. destruct (rr_ended r) eqn:Ee.
      * pose proof (takeRemainder_all r Hq) as Hr. destruct (takeRemainder r) as [r' line].
        destruct Hr as (-> & Hq' & Hs). split; [done|]. cbn. by rewrite Hs.
      * destruct (rr_waiter r) eqn:Ew; [by split|]. split; [by apply queue_paused, queue_waiter|done].
Qed.

Lemma step_does r event : reader_ok r → refines (step r event) (stream_step (stream_of r) event).
Proof.
  intros Hok. pose proof Hok as [Hq _]. destruct event as [|chunk| |message|error|]; cbn [step]; [by apply read_refines| | | | |].
  - cbn [stream_step sm_attached stream_of]. destruct (rr_attached r); [|by split]. unfold onData.
    set (r' := with_queue _ _ _ _). assert (behind (rr_chunkOffset r) (rr_chunks r ++ [chunk]) = behind (rr_chunkOffset r) (rr_chunks r) ++ chunk) as Hb.
    { pose proof (ok_offset _ Hq) as Ho. destruct (rr_chunks r) as [|c cs]; cbn in *; [by rewrite Ho, drop_0, app_nil_r|].
      by rewrite concat_app, <- app_assoc; cbn; rewrite app_nil_r. }
    assert (queue_ok r') as Hq'.
    { destruct Hq as [Ho Hn]. split; cbn in *; [destruct (rr_chunks r); cbn in *; lia|]. rewrite Hb, length_app. lia. }
    pose proof (resolve_refines r' Hq') as Hr. assert (stream_of r' =
      set_waiter (set_buffer (stream_of r) (sm_buffer (stream_of r) ++ chunk)) (rr_waiter r) true) as Hs; [|by rewrite Hs in Hr].
    unfold stream_of, set_waiter, set_buffer. cbn. by rewrite Hb.
  - cbn [stream_step sm_attached stream_of]. destruct (rr_attached r); [|by split].
    exact (resolve_refines (with_ended r (rr_failure r)) (queue_ended _ _ Hq)).
  - cbn [stream_step sm_attached stream_of]. destruct (rr_attached r); [|by split]. by apply fail_refines.
  - by apply fail_refines.
  - split; [|done]. by destruct Hq.
Qed.

(** Nobody waits for what is there. *)
Definition attentive (s : Stream) : Prop := sm_waiter s = true → ready s = None.

Lemma ready_ext s s' :
  sm_buffer s' = sm_buffer s → sm_failure s' = sm_failure s → sm_ended s' = sm_ended s →
  ready s = None → ready s' = None.
Proof.
  unfold ready. intros -> -> ->. destruct (cut _) as [[line rest]|]; [done|].
  destruct (oversized _); [done|]. destruct (sm_failure s); [done|]. by destruct (sm_ended s).
Qed.

Lemma offer_attentive s : attentive (offer s).1.
Proof.
  unfold offer. destruct (sm_waiter s) eqn:Ew; [|intros ?; cbn in *; congruence].
  destruct (ready s) as [[d s']|] eqn:Er; [done|]. intros _. by apply (ready_ext s).
Qed.

Lemma break_attentive error s : attentive (break error s).1.
Proof. unfold break. destruct (sm_failure s); [done|]. apply offer_attentive. Qed.

Lemma ready_keeps s d s' : ready s = Some (d, s') → sm_waiter s' = sm_waiter s ∧ sm_attached s' = sm_attached s.
Proof.
  assert (∀ e, sm_waiter (broken s e) = sm_waiter s ∧ sm_attached (broken s e) = sm_attached s) as Hb.
  { intros e. unfold broken. by destruct (sm_failure s). }
  unfold ready. destruct (cut _) as [[line rest]|].
  - destruct (oversized line); intros [= <- <-]; auto.
  - destruct (oversized _); [intros [= <- <-]; auto|]. destruct (sm_failure s); [by intros [= <- <-]|].
    destruct (sm_ended s); [by intros [= <- <-]|done].
Qed.

Lemma stream_step_attentive s event : attentive s → attentive (stream_step s event).1.
Proof.
  intros Ha. destruct event as [|chunk| |message|error|]; cbn [stream_step].
  - destruct (ready s) as [[d s']|] eqn:Er.
    + intros Hw. destruct (ready_keeps _ _ _ Er) as [Hk _]. cbn in Hw. rewrite Hk in Hw. apply Ha in Hw. congruence.
    + destruct (sm_waiter s); intros _; [done|by apply (ready_ext s)].
  - destruct (sm_attached s); [apply offer_attentive|done].
  - destruct (sm_attached s); [apply offer_attentive|done].
  - destruct (sm_attached s); [apply break_attentive|done].
  - apply break_attentive.
  - intros Hw. by apply (ready_ext s), Ha.
Qed.

Lemma step_ok r event : reader_ok r → reader_ok (step r event).1.
Proof.
  intros Hok. destruct (step_does r event Hok) as [Hq Heq]. split; [done|]. destruct Hok as [_ Ha].
  pose proof (stream_step_attentive (stream_of r) event Ha) as Hs. by rewrite <- Heq in Hs.
Qed.

(** ** Runs *)

Lemma run_simulates {S T E O} (f : S → E → S * list O) (g : T → E → T * list O) (I : S → Prop) (abs : S → T)
    (Hstep : ∀ s e, I s → I (f s e).1 ∧ (abs (f s e).1, (f s e).2) = g (abs s) e) events : ∀ s, I s →
  I (run f s events).1 ∧ (abs (run f s events).1, (run f s events).2) = run g (abs s) events.
Proof.
  induction events as [|e events IH]; intros s Hs; cbn; [done|]. destruct (Hstep s e Hs) as [H1 H2].
  rewrite <- H2. destruct (f s e) as [s1 out]. cbn [fst snd] in *. destruct (IH s1 H1) as [H3 H4]. rewrite <- H4.
  by destruct (run f s1 events).
Qed.

Lemma new_reader_ok : reader_ok new_reader.
Proof. by split. Qed.

(** Who waits, waits for the socket: it flows, and nothing is there. *)
Definition flowing (s : Stream) : Prop := sm_waiter s = true → sm_attached s = true → sm_paused s = false.

Lemma offer_flowing s : flowing (offer s).1.
Proof.
  unfold offer. destruct (sm_waiter s) eqn:Ew; [|by intros Hw; cbn in Hw; rewrite Ew in Hw].
  by destruct (ready s) as [[d s']|].
Qed.

Lemma break_flowing error s : flowing (break error s).1.
Proof. unfold break. destruct (sm_failure s); [done|]. apply offer_flowing. Qed.

Lemma stream_step_flowing s event : attentive s → flowing s → flowing (stream_step s event).1.
Proof.
  intros Ha Hf. destruct event as [|chunk| |message|error|]; cbn [stream_step];
    try (destruct (sm_attached s); [first [apply offer_flowing|apply break_flowing]|exact Hf]).
  - destruct (ready s) as [[d s']|] eqn:Er.
    + destruct (ready_keeps _ _ _ Er) as [Hk _]. intros Hw. cbn in Hw. rewrite Hk in Hw. apply Ha in Hw. congruence.
    + destruct (sm_waiter s); [exact Hf|done].
  - apply break_flowing.
  - done.
Qed.

(** Every reader there can be. *)
Definition reader_inv (r : RawLineReader) : Prop := reader_ok r ∧ flowing (stream_of r).

Lemma step_inv r event : reader_inv r →
  reader_inv (step r event).1 ∧ (stream_of (step r event).1, (step r event).2) = stream_step (stream_of r) event.
Proof.
  intros [Hok Hf]. destruct (step_does r event Hok) as [_ Heq]. split; [|done]. split; [by apply step_ok|].
  pose proof (stream_step_flowing (stream_of r) event (proj2 Hok) Hf) as Hs. by rewrite <- Heq in Hs.
Qed.

Lemma run_inv events :
  let '(r, outputs) := run step new_reader events in
  reader_inv r ∧ (stream_of r, outputs) = run stream_step (stream_of new_reader) events.
Proof.
  assert (reader_inv new_reader) as Hnew by (split; [apply new_reader_ok|done]).
  pose proof (run_simulates step stream_step reader_inv stream_of step_inv events new_reader Hnew) as Hrun.
  by destruct (run step new_reader events).
Qed.

(** C12.  The reader is a buffer of bytes: whatever happens to it, it gives its callers
    what the buffer gives, and its queue of chunks holds the bytes of the buffer. *)
Theorem reader_refines_stream events :
  let '(r, outputs) := run step new_reader events in
  reader_ok r ∧ (stream_of r, outputs) = run stream_step (stream_of new_reader) events.
Proof.
  pose proof (run_inv events) as Hrun. destruct (run step new_reader events). by destruct Hrun as [[Hok _] Heq].
Qed.

(** *** Lines *)

(** The bytes the socket has delivered while the reader listened. *)
Fixpoint received (attached : bool) (events : list Event) : bytes :=
  match events with
  | [] => []
  | EvData chunk :: events => (if attached then chunk else []) ++ received attached events
  | EvClose :: events => received false events
  | _ :: events => received attached events
  end.

Definition line_of (o : Output) : bytes :=
  match o with Answer (Resolved (Some line)) | Settle (Resolved (Some line)) => line | _ => [] end.

Definition delivered (outputs : list Output) : bytes := concat (map line_of outputs).

(** A line is at most as long as the limit, ends at its only newline, or is what was
    left when the source had ended. *)
Definition framed (ended : bool) (o : Output) : Prop :=
  (Z.of_nat (length (line_of o)) ≤ maxControlBytes + 2)%Z ∧
  (line_of o = [] ∨ (∃ text, (newline ∉ text) ∧
     (line_of o = text ++ [newline] ∨ (line_of o = text ∧ ended = true)))).

Lemma oversized_false b : oversized b = false → (Z.of_nat (length b) ≤ maxControlBytes + 2)%Z.
Proof. unfold oversized. destruct (Z.gtb_spec (Z.of_nat (length b)) (maxControlBytes + 2)); [done|lia]. Qed.

Lemma framed_refused ended o : line_of o = [] → framed ended o.
Proof. unfold framed. intros ->. split; [done|by left]. Qed.

(** What is ready is the front of the buffer. *)
Lemma ready_front s d s' :
  ready s = Some (d, s') →
  line_of (Answer d) ++ sm_buffer s' = sm_buffer s ∧ framed (sm_ended s') (Answer d) ∧
  (sm_ended s = true → sm_ended s' = true).
Proof.
  assert (∀ e, sm_buffer (broken s e) = sm_buffer s ∧ (sm_ended s = true → sm_ended (broken s e) = true)) as Hb.
  { intros e. unfold broken. by destruct (sm_failure s). }
  destruct (Hb too_long) as [Hb1 Hb2]. unfold ready. destruct (cut (sm_buffer s)) as [[line rest]|] eqn:Ec.
  - apply cut_spec in Ec as (Hcut & text & -> & Ht). destruct (oversized _) eqn:Eo; intros [= <- <-].
    { split_and!; [done|by apply framed_refused|done]. }
    split_and!; [by rewrite Hcut| |done]. split; [by apply oversized_false|]. right. exists text. auto.
  - destruct (oversized _) eqn:Eo.
    { intros [= <- <-]. split_and!; [done|by apply framed_refused|done]. }
    destruct (sm_failure s).
    { intros [= <- <-]. split_and!; [done|by apply framed_refused|done]. }
    destruct (sm_ended s) eqn:Ee; [|done]. intros [= <- <-]. apply cut_None in Ec. apply oversized_false in Eo.
    destruct (sm_buffer s) as [|x b] eqn:Eb; [split_and!; [done|by apply framed_refused|done]|].
    split_and!; [cbn; by rewrite app_nil_r|split; [done|]|done]. right. exists (x :: b). cbn. auto.
Qed.

Lemma framed_ended ended ended' o : (ended = true → ended' = true) → framed ended o → framed ended' o.
Proof.
  intros He [Hl [Hf|(text & Ht & Hf)]]; split; [done|by left|done|]. right. exists text. split; [done|]. naive_solver.
Qed.

(** One event moves bytes from the front of the buffer to the callers. *)
Record moves (s : Stream) (chunk : bytes) (result : Stream * list Output) : Prop := {
  mv_bytes : delivered result.2 ++ sm_buffer result.1 = sm_buffer s ++ chunk;
  mv_framed : Forall (framed (sm_ended result.1)) result.2;
  mv_ended : sm_ended s = true → sm_ended result.1 = true;
  mv_attached : sm_attached result.1 = sm_attached s;
}.

Lemma moves_none s s' chunk :
  sm_buffer s' = sm_buffer s ++ chunk → (sm_ended s = true → sm_ended s' = true) → sm_attached s' = sm_attached s →
  moves s chunk (s', []).
Proof. by split. Qed.

Lemma offer_moves s chunk s0 :
  sm_buffer s = sm_buffer s0 ++ chunk → (sm_ended s0 = true → sm_ended s = true) → sm_attached s = sm_attached s0 →
  moves s0 chunk (offer s).
Proof.
  intros Hb He Ha. unfold offer. destruct (sm_waiter s); [|by apply moves_none].
  destruct (ready s) as [[d s']|] eqn:Er; [|by apply moves_none].
  destruct (ready_front _ _ _ Er) as (Hf & Hfr & He'). destruct (ready_keeps _ _ _ Er) as [_ Hk].
  split; cbn; [|by apply Forall_singleton|auto|congruence]. unfold delivered. cbn. by rewrite app_nil_r, <- Hb.
Qed.

Lemma break_moves s error : moves s [] (break error s).
Proof.
  unfold break. destruct (sm_failure s) as [e|] eqn:Ef.
  - split; cbn; [|destruct (sm_waiter s); [apply Forall_singleton; by apply framed_refused|constructor]|done|done].
    rewrite app_nil_r. by destruct (sm_waiter s).
  - apply offer_moves; unfold broken; rewrite Ef; cbn; [by rewrite app_nil_r|done|done].
Qed.

Lemma stream_step_moves s event :
  let result := stream_step s event in
  delivered result.2 ++ sm_buffer result.1 = sm_buffer s ++ received (sm_attached s) [event] ∧
  Forall (framed (sm_ended result.1)) result.2 ∧ (sm_ended s = true → sm_ended result.1 = true) ∧
  ∀ events, received (sm_attached s) (event :: events) =
    received (sm_attached s) [event] ++ received (sm_attached result.1) events.
Proof.
  assert (∀ chunk result, received (sm_attached s) [event] = chunk → moves s chunk result → stream_step s event = result →
    (∀ events, received (sm_attached s) (event :: events) = received (sm_attached s) [event] ++ received (sm_attached s) events) →
    let result := stream_step s event in
    delivered result.2 ++ sm_buffer result.1 = sm_buffer s ++ received (sm_attached s) [event] ∧
    Forall (framed (sm_ended result.1)) result.2 ∧ (sm_ended s = true → sm_ended result.1 = true) ∧
    ∀ events, received (sm_attached s) (event :: events) =
      received (sm_attached s) [event] ++ received (sm_attached result.1) events) as Hmoves.
  { intros chunk result Hc [H1 H2 H3 H4] -> Hr. cbv zeta. split_and!; [by rewrite Hc|done|done|]. intros events. by rewrite H4. }
  destruct event as [|chunk| |message|error|]; [| | | | |by split_and!; cbn; rewrite ?app_nil_r].
  all: eapply Hmoves; [reflexivity| |reflexivity|intros events; cbn; rewrite ?app_nil_r; done].
  - cbn. destruct (ready s) as [[d s']|] eqn:Er.
    + destruct (ready_front _ _ _ Er) as (Hf & Hfr & He'). destruct (ready_keeps _ _ _ Er) as [_ Hk].
      split; cbn; [|by apply Forall_singleton|auto|congruence]. unfold delivered. cbn. by rewrite !app_nil_r.
    + apply moves_none; rewrite ?app_nil_r; by destruct (sm_waiter s).
  - cbn. destruct (sm_attached s) eqn:Ea; rewrite app_nil_r; [|by apply moves_none; rewrite ?app_nil_r].
    apply offer_moves; cbn; by rewrite ?Ea.
  - cbn. destruct (sm_attached s) eqn:Ea; [|by apply moves_none; rewrite ?app_nil_r].
    apply offer_moves; cbn; by rewrite ?app_nil_r.
  - cbn. destruct (sm_attached s) eqn:Ea; [apply break_moves|by apply moves_none; rewrite ?app_nil_r].
  - apply break_moves.
Qed.

Lemma run_moves events : ∀ s,
  let '(s', outputs) := run stream_step s events in
  delivered outputs ++ sm_buffer s' = sm_buffer s ++ received (sm_attached s) events ∧
  Forall (framed (sm_ended s')) outputs ∧ (sm_ended s = true → sm_ended s' = true).
Proof.
  induction events as [|event events IH]; intros s; cbn [run]; [cbn; by rewrite app_nil_r|].
  destruct (stream_step_moves s event) as (H1 & H2 & H3 & H4). destruct (stream_step s event) as [s1 out]. cbn [fst snd] in H1, H2, H3, H4.
  specialize (IH s1). destruct (run stream_step s1 events) as [s2 out']. destruct IH as (H5 & H6 & H7). split_and!.
  - unfold delivered in *. rewrite map_app, concat_app, <- app_assoc, H5, app_assoc, H1, (H4 events). by rewrite <- app_assoc.
  - apply Forall_app. split; [|done]. eapply Forall_impl; [exact H2|]. intros o. by apply framed_ended.
  - auto.
Qed.

(** No byte is lost, doubled or out of place: what the callers have been given,
    followed by what the queue holds, is what the socket has delivered, however it
    was cut into chunks.  And every piece that a caller is given is a line with its
    newline, or the last piece after the end, and none is longer than the limit. *)
Theorem lines_in_order events :
  let '(r, outputs) := run step new_reader events in
  delivered outputs ++ behind (rr_chunkOffset r) (rr_chunks r) = received true events ∧
  Forall (framed (rr_ended r)) outputs.
Proof.
  pose proof (run_inv events) as Hrun. pose proof (run_moves events (stream_of new_reader)) as Hm.
  destruct (run step new_reader events) as [r outputs]. destruct Hrun as [_ Heq]. rewrite <- Heq in Hm. cbn in Hm. tauto.
Qed.

(** *** No lost wake-up *)

(** C13.  No wake-up is lost: while somebody waits for a line, neither a line nor the
    end nor a failure is there, and the socket of a reader that has not been closed
    flows, so that whatever comes next is seen. *)
Theorem waiting_reader_flows events :
  let r := (run step new_reader events).1 in
  rr_waiter r = true →
  ¬ newline ∈ behind (rr_chunkOffset r) (rr_chunks r) ∧ rr_ended r = false ∧ rr_failure r = None ∧
  (rr_attached r = true → rr_paused r = false).
Proof.
  pose proof (run_inv events) as Hrun. destruct (run step new_reader events) as [r outputs]. destruct Hrun as [[[_ Ha] Hf] _].
  cbn [fst]. intros Hw. specialize (Ha Hw). unfold ready in Ha. cbn [sm_buffer sm_failure sm_ended stream_of] in Ha.
  destruct (cut _) as [[line rest]|] eqn:Ec; [done|]. apply cut_None in Ec.
  destruct (oversized _); [done|]. destruct (rr_failure r) eqn:Efl; [done|]. destruct (rr_ended r) eqn:Ee; [done|].
  split_and!; [done..|]. intros Hat. by apply Hf.
Qed.

(** A line in two chunks, the second with the start of the next line. *)
Definition two_chunks : list Event :=
  [EvRead; EvData ["a"; "b"]%char; EvData ["c"; newline; "d"]%char; EvRead].

Lemma waiting_reader_flows_witness :
  let r := (run step new_reader two_chunks).1 in
  rr_waiter r = true ∧ (newline ∉ behind (rr_chunkOffset r) (rr_chunks r)) ∧ rr_paused r = false.
Proof.
  assert (rr_waiter (run step new_reader two_chunks).1 = true) as Hw by reflexivity.
  destruct (waiting_reader_flows two_chunks Hw) as (Hn & _ & _ & Hp). split_and!; [exact Hw|exact Hn|by apply Hp].
Defined.

(** ** The shared reader *)

Lemma ready_answers s d s' : attentive s → ready s = Some (d, s') → sm_waiter s' = false.
Proof.
  intros Ha Hr. destruct (ready_keeps _ _ _ Hr) as [Hk _]. destruct (sm_waiter s) eqn:Ew; [|done].
  apply Ha in Ew. congruence.
Qed.

(** A reader settles its promise, or answers, at most once, and then nobody waits. *)
Lemma stream_step_outputs s event :
  attentive s →
  let result := stream_step s event in
  (result.2 = [] ∧ sm_waiter result.1 = match event with EvRead => true | _ => sm_waiter s end) ∨
  (∃ o, result.2 = [o] ∧ sm_waiter result.1 = false ∧ (sm_waiter s = true ∨ event = EvRead)).
Proof.
  intros Ha.
  assert (∀ s0, sm_waiter s0 = sm_waiter s → ((offer s0).2 = [] ∧ sm_waiter (offer s0).1 = sm_waiter s) ∨
    (∃ o, (offer s0).2 = [o] ∧ sm_waiter (offer s0).1 = false ∧ (sm_waiter s = true ∨ event = EvRead))) as Hoffer.
  { intros s0 Hw. unfold offer. rewrite Hw. destruct (sm_waiter s); [|by left].
    destruct (ready s0) as [[d s']|]; [right; eauto|by left]. }
  assert (∀ error, ((break error s).2 = [] ∧ sm_waiter (break error s).1 = sm_waiter s) ∨
    (∃ o, (break error s).2 = [o] ∧ sm_waiter (break error s).1 = false ∧ (sm_waiter s = true ∨ event = EvRead))) as Hbreak.
  { intros error. unfold break. destruct (sm_failure s) eqn:Ef; [|apply Hoffer; unfold broken; by rewrite Ef].
    destruct (sm_waiter s) eqn:Ew; [right; eauto|by left]. }
  destruct event as [|chunk| |message|error|]; cbn [stream_step]; [|destruct (sm_attached s); [by apply Hoffer|by left]..| | |].
  - destruct (ready s) as [[d s']|] eqn:Er; [right; eexists; split_and!; [done|by eapply ready_answers|auto]|].
    left. split; [done|]. by destruct (sm_waiter s) eqn:Ew.
  - destruct (sm_attached s); [apply Hbreak|by left].
  - apply Hbreak.
  - by left.
Qed.

Definition queued_bytes (b : BufferedReader) : bytes :=
  if br_queued b then default [] (br_queuedLine b) else [].

Definition held (b : BufferedReader) : bytes := queued_bytes b ++ sm_buffer (stream_of (br_source b)).

Definition got (outputs : list BufferedOutput) : bytes :=
  concat (map (λ o, match o with Got (Resolved (Some line)) => line | _ => [] end) outputs).

(** At most one caller waits for the source, and nothing is queued while one does. *)
Record buffered_ok (b : BufferedReader) : Prop := {
  bo_source : reader_inv (br_source b);
  bo_waiter : rr_waiter (br_source b) = negb (bool_decide (br_inFlight b = []));
  bo_inFlight : match br_inFlight b with
                | [] => br_monitor b ≠ MonitorPending
                | [PulledByMonitor] => br_monitor b = MonitorPending ∧ br_queued b = false
                | [PulledByRead] => br_monitor b ≠ MonitorPending ∧ br_queued b = false
                | _ => False
                end;
  bo_idle : br_monitor b = MonitorIdle → br_queued b = false;
}.

Lemma got_app l l' : got (l ++ l') = got l ++ got l'.
Proof. unfold got. by rewrite map_app, concat_app. Qed.

Lemma read_queued_held b :
  let '(b', outputs) := read_queued b in
  got outputs ++ held b' = held b ∧ (buffered_ok b → buffered_ok b').
Proof.
  unfold read_queued, held, queued_bytes. destruct (br_queued b) eqn:Eq.
  - cbn. rewrite app_nil_r. split; [by destruct (br_queuedLine b)|].
    intros [H1 H2 H3 H4]. split; cbn; try done. destruct (br_inFlight b) as [|[] []]; naive_solver.
  - by destruct (br_failure b); cbn; rewrite Eq.
Qed.

Lemma monitor_settles_held d b :
  reader_inv (br_source b) → rr_waiter (br_source b) = false → br_inFlight b = [] → br_queued b = false →
  let '(b', outputs) := monitor_settles d b in
  got outputs ++ held b' = match d with Resolved (Some line) => line | _ => [] end ++ sm_buffer (stream_of (br_source b)) ∧
  buffered_ok b'.
Proof.
  intros Hi Hw Hf Hq. unfold monitor_settles. set (b1 := with_monitor _ MonitorSettled).
  assert (buffered_ok b1 ∧ held b1 = match d with Resolved (Some line) => line | _ => [] end ++
    sm_buffer (stream_of (br_source b))) as [Hok Hheld].
  { split; [split; destruct d; cbn; rewrite ?Hf; done|].
    unfold held, queued_bytes. destruct d as [[line|]|error]; cbn; try done. by rewrite Hq. }
  destruct (br_reading b1) eqn:Er; [|by rewrite <- Hheld].
  pose proof (read_queued_held (with_reading b1 false)) as Hr. destruct (read_queued _) as [b' outputs].
  destruct Hr as [Hr Hok']. split.
  - unfold got in *. cbn [map concat]. rewrite <- Hheld. exact Hr.
  - apply Hok'. destruct Hok as [H1 H2 H3 H4]. by split.
Qed.

(** What the source gives reaches whoever waits for it. *)
Lemma source_gives_held b event :
  reader_inv (br_source b) →
  let chunk := received (rr_attached (br_source b)) [event] in
  match br_inFlight b with
  | [] => rr_waiter (br_source b) = false ∧ event ≠ EvRead ∧ br_monitor b ≠ MonitorPending
  | [PulledByMonitor] => (rr_waiter (br_source b) = true ∨ event = EvRead) ∧
      br_monitor b = MonitorPending ∧ br_queued b = false
  | [PulledByRead] => (rr_waiter (br_source b) = true ∨ event = EvRead) ∧
      br_monitor b ≠ MonitorPending ∧ br_queued b = false
  | _ => False
  end →
  (br_monitor b = MonitorIdle → br_queued b = false) →
  let '(b', outputs) := source_gives b (step (br_source b) event) in
  got outputs ++ held b' = held b ++ chunk ∧ buffered_ok b'.
Proof.
  intros Hi chunk Hf Hidle. destruct (step_inv _ event Hi) as [Hi' Heq].
  pose proof (stream_step_moves (stream_of (br_source b)) event) as (Hm & _). cbv zeta in Hm.
  pose proof (stream_step_outputs (stream_of (br_source b)) event (proj2 (proj1 Hi))) as Ho. cbv zeta in Ho.
  destruct (step (br_source b) event) as [r' out]. rewrite <- Heq in Hm, Ho. cbn [fst snd] in *.
  change (sm_attached (stream_of (br_source b))) with (rr_attached (br_source b)) in Hm. fold chunk in Hm.
  change (sm_waiter (stream_of r')) with (rr_waiter r') in Ho.
  change (sm_waiter (stream_of (br_source b))) with (rr_waiter (br_source b)) in Ho.
  unfold source_gives. cbn [fst snd]. unfold held, queued_bytes. destruct Ho as [[-> Hw]|(o & -> & Hw & Hwho)].
  - cbn. cbn in Hm. rewrite <- app_assoc, <- Hm. split; [done|]. split; cbn; [done| | |done].
    + rewrite Hw. destruct (br_inFlight b) as [|[] []] eqn:Ef; cbn; try done.
      * destruct Hf as (-> & Hne & _). by destruct event.
      * destruct Hf as ([->| ->] & _); [by destruct event|done].
      * destruct Hf as ([->| ->] & _); [by destruct event|done].
    + destruct (br_inFlight b) as [|[] []]; naive_solver.
  - cbn [run]. unfold pulled. cbn [br_inFlight with_source]. unfold delivered in Hm. cbn [map concat] in Hm. rewrite app_nil_r in Hm.
    destruct (br_inFlight b) as [|[] []] eqn:Ef; try done.
    + destruct Hf as (Hwf & Hne & _). rewrite Hwf in Hwho. naive_solver.
    + destruct Hf as (_ & Hmon & Hqu). cbn [run].
      pose proof (monitor_settles_held (match o with Answer d | Settle d => d end)
        (with_inFlight (with_source b r') []) Hi' Hw eq_refl Hqu) as Hs.
      destruct (monitor_settles _ _) as [b' outputs]. destruct Hs as [Hg Hok]. unfold held, queued_bytes in Hg.
      rewrite !app_nil_r. split; [|done]. rewrite Hg, Hqu. cbn [app br_source with_inFlight with_source]. rewrite <- Hm.
      by destruct o as [[[]|]|[[]|]].
    + destruct Hf as (_ & Hmon & Hqu). cbn [run br_queued with_source with_inFlight]. rewrite Hqu, !app_nil_r. cbn [app br_source with_inFlight with_source]. split.
      * rewrite <- Hm. unfold got. cbn [map concat]. rewrite app_nil_r. by destruct o as [[[]|]|[[]|]].
      * split; cbn; rewrite ?Hw; try done.
Qed.

(** The source changes only by its own operations. *)
Lemma pulled_source b o : br_source (pulled b o).1 = br_source b.
Proof.
  assert (∀ d b, br_source (monitor_settles d b).1 = br_source b) as Hsettle.
  { intros d b0. unfold monitor_settles, read_queued. destruct d; cbn; destruct (br_reading b0); try done.
    cbn. by destruct (br_queued b0). }
  unfold pulled. generalize (br_inFlight b). intros pullers.
  assert (∀ b0, br_source (run (λ b puller, match puller with
      | PulledByMonitor => monitor_settles (match o with Answer d | Settle d => d end) b
      | PulledByRead => (b, [Got (match o with Answer d | Settle d => d end)]) end) b0 pullers).1 = br_source b0) as Hrun.
  { induction pullers as [|p pullers IH]; intros b0; cbn [run]; [done|].
    destruct p; [|cbn; specialize (IH b0); by destruct (run _ b0 pullers)].
    specialize (Hsettle (match o with Answer d | Settle d => d end) b0). destruct (monitor_settles _ b0) as [b1 out].
    specialize (IH b1). destruct (run _ b1 pullers). cbn in *. congruence. }
  by rewrite Hrun.
Qed.

Lemma source_gives_source b result : br_source (source_gives b result).1 = result.1.
Proof.
  unfold source_gives. destruct result as [r' outputs]. cbn [fst snd].
  assert (∀ b, br_source (run pulled b outputs).1 = br_source b) as Hrun; [|by rewrite Hrun].
  induction outputs as [|o outputs IH]; intros b0; cbn [run]; [done|].
  pose proof (pulled_source b0 o) as Hp. destruct (pulled b0 o) as [b1 out]. specialize (IH b1).
  destruct (run pulled b1 outputs). cbn in *. congruence.
Qed.

(** The calls that wait do not overlap. *)
Definition one_call_at_a_time (b : BufferedReader) (event : BufferedEvent) : Prop :=
  match event with
  | BrRead | BrStartMonitor => br_reading b = false ∧ PulledByRead ∉ br_inFlight b
  | _ => True
  end.

Definition socket_chunk (attached : bool) (event : BufferedEvent) : bytes :=
  match event with BrSocket (EvData chunk) => if attached then chunk else [] | _ => [] end.

Lemma stream_step_attached s event :
  sm_attached (stream_step s event).1 = match event with EvClose => false | _ => sm_attached s end.
Proof.
  assert (∀ s, sm_attached (offer s).1 = sm_attached s) as Hoffer.
  { intros s0. unfold offer. destruct (sm_waiter s0); [|done]. destruct (ready s0) as [[d s']|] eqn:Er; [|done].
    by apply ready_keeps in Er as [_ ?]. }
  assert (∀ error, sm_attached (break error s).1 = sm_attached s) as Hbreak.
  { intros error. unfold break. destruct (sm_failure s) eqn:E; [done|]. rewrite Hoffer. unfold broken. by rewrite E. }
  destruct event as [|chunk| |message|error|]; cbn [stream_step].
  - destruct (ready s) as [[d s']|] eqn:Er; [by apply ready_keeps in Er as [_ ?]|by destruct (sm_waiter s)].
  - destruct (sm_attached s) eqn:E; [by rewrite Hoffer|done].
  - destruct (sm_attached s) eqn:E; [by rewrite Hoffer|done].
  - destruct (sm_attached s) eqn:E; [by rewrite Hbreak|done].
  - apply Hbreak.
  - done.
Qed.

Lemma step_attached r event : reader_inv r →
  rr_attached (step r event).1 = match event with EvClose => false | _ => rr_attached r end.
Proof.
  intros Hi. destruct (step_inv r event Hi) as [_ Heq]. pose proof (stream_step_attached (stream_of r) event) as Ha.
  by rewrite <- Heq in Ha.
Qed.

(** A source operation from outside of a call. *)
Lemma source_event_held b event :
  buffered_ok b → event ≠ EvRead →
  let '(b', outputs) := source_gives b (step (br_source b) event) in
  got outputs ++ held b' = held b ++ received (rr_attached (br_source b)) [event] ∧ buffered_ok b' ∧
  rr_attached (br_source b') = match event with EvClose => false | _ => rr_attached (br_source b) end.
Proof.
  intros [H1 H2 H3 H4] Hne. pose proof (source_gives_held b event H1) as Hg. cbv zeta in Hg.
  pose proof (source_gives_source b (step (br_source b) event)) as Hs. rewrite <- (step_attached _ _ H1), <- Hs.
  destruct (source_gives b _) as [b' outputs]. destruct Hg as [Hg1 Hg2]; [|done|done].
  rewrite H2. destruct (br_inFlight b) as [|[] []]; naive_solver.
Qed.

Lemma pull_held puller b :
  buffered_ok b → br_inFlight b = [] → br_queued b = false →
  let b := match puller with PulledByMonitor => with_monitor b MonitorPending | PulledByRead => b end in
  let '(b', outputs) := pull puller b in
  got outputs ++ held b' = held b ∧ buffered_ok b' ∧ rr_attached (br_source b') = rr_attached (br_source b).
Proof.
  intros [H1 H2 H3 H4] Hf Hq. cbv zeta. rewrite Hf in H3. unfold pull.
  set (b1 := match puller with PulledByMonitor => _ | PulledByRead => b end).
  assert (br_inFlight b1 = [] ∧ br_source b1 = br_source b ∧ br_queued b1 = false ∧
    match puller with PulledByMonitor => br_monitor b1 = MonitorPending | PulledByRead => br_monitor b1 ≠ MonitorPending end)
    as (Hf1 & Hs1 & Hq1 & Hm1) by (unfold b1; by destruct puller). rewrite Hf1. cbn [app].
  cbn [br_source with_inFlight]. rewrite Hs1.
  pose proof (source_gives_held (with_inFlight b1 [puller]) EvRead) as Hg. cbv zeta in Hg.
  cbn [br_source with_inFlight br_inFlight br_monitor br_queued step] in Hg. rewrite Hs1 in Hg. specialize (Hg H1).
  pose proof (source_gives_source (with_inFlight b1 [puller]) (read (br_source b))) as Hsrc.
  pose proof (step_attached (br_source b) EvRead H1) as Hat. cbn [step] in Hat. rewrite <- Hat, <- Hsrc.
  destruct (source_gives _ _) as [b' outputs]. destruct Hg as [Hg1 Hg2].
  - destruct puller; auto.
  - auto.
  - split_and!; [|done|done]. rewrite Hg1, app_nil_r. unfold held, queued_bytes. cbn. by rewrite Hq1, Hs1.
Qed.

Lemma buffered_step_held b event :
  buffered_ok b → one_call_at_a_time b event →
  let '(b', outputs) := buffered_step b event in
  got outputs ++ held b' = held b ++ socket_chunk (rr_attached (br_source b)) event ∧ buffered_ok b' ∧
  rr_attached (br_source b') = match event with BrClose => false | _ => rr_attached (br_source b) end.
Proof.
  intros Hok Hone. assert (∀ b', held b' = held b → held b' = held b ++ []) as Hnil by (intros b' ->; by rewrite app_nil_r).
  destruct event as [| |error| |event]; cbn [buffered_step socket_chunk]; rewrite ?app_nil_r.
  - unfold startMonitor. destruct (br_monitor b) eqn:Em; [|by split; [|split]..].
    pose proof (bo_idle _ Hok Em) as Hq. pose proof (bo_inFlight _ Hok) as Hf. cbn in Hone.
    assert (br_inFlight b = []) as Hf0.
    { destruct (br_inFlight b) as [|[] []]; try done; [destruct Hf; congruence|]. destruct Hone as [_ []]. by left. }
    exact (pull_held PulledByMonitor b Hok Hf0 Hq).
  - unfold buffered_read. cbn in Hone. assert (∀ b0, br_source (read_queued b0).1 = br_source b0) as Hsrc.
    { intros b0. unfold read_queued. destruct (br_queued b0); [done|]. by destruct (br_failure b0). }
    pose proof (read_queued_held b) as Hr. specialize (Hsrc b).
    destruct (br_queued b) eqn:Eq; [|destruct (br_failure b) as [e|]].
    1, 2: destruct (read_queued b); cbn in Hsrc; rewrite Hsrc; naive_solver.
    assert (br_monitor b ≠ MonitorPending → br_inFlight b = []) as Hf.
    { intros Hm. pose proof (bo_inFlight _ Hok) as Hf. destruct (br_inFlight b) as [|[] []]; try done; [by destruct Hf|].
      destruct Hone as [_ []]. by left. }
    destruct (br_monitor b) eqn:Em.
    + by apply (pull_held PulledByRead b Hok (Hf ltac:(done))).
    + split; [done|split; [|done]]. destruct Hok as [H1 H2 H3 H4]. by split.
    + by apply (pull_held PulledByRead b Hok (Hf ltac:(done))).
  - unfold buffered_abort. assert (buffered_ok (with_buffered_failure b (Some error))) as Hok1 by (destruct Hok; by split).
    pose proof (source_event_held _ (EvAbort error) Hok1 ltac:(done)) as Hs. cbn [step br_source with_buffered_failure] in Hs.
    destruct (source_gives _ _). cbn in Hs. rewrite app_nil_r in Hs. exact Hs.
  - unfold buffered_close.
    assert (let '(b', outputs) := match br_monitor b with
      | MonitorPending => source_gives b (abort "gateway reader closed" (br_source b)) | _ => (b, []) end in
      got outputs ++ held b' = held b ∧ buffered_ok b') as Habort.
    { pose proof (source_event_held b (EvAbort "gateway reader closed") Hok ltac:(done)) as Hs. cbn [step] in Hs.
      destruct (br_monitor b); [done| |done]. destruct (source_gives _ _). cbn in Hs. rewrite app_nil_r in Hs. tauto. }
    destruct (match br_monitor b with MonitorPending => _ | _ => _ end) as [b1 outputs]. destruct Habort as [Hh Hok1].
    pose proof (source_event_held b1 EvClose Hok1 ltac:(done)) as Hs. cbn [step] in Hs.
    destruct (source_gives _ _) as [b2 outputs']. cbn in Hs. rewrite app_nil_r in Hs. destruct Hs as (Hs1 & Hs2 & Hs3).
    split_and!; [|done|done]. by rewrite got_app, <- app_assoc, Hs1, Hh.
  - pose proof (source_event_held b event Hok) as Hs. destruct event as [|chunk| |message|e|]; try (split; [by rewrite app_nil_r|by split]).
    all: specialize (Hs ltac:(done)); cbn [step] in Hs |- *; destruct (source_gives _ _); cbn in Hs; rewrite ?app_nil_r in *; exact Hs.
Qed.

Fixpoint one_at_a_time (b : BufferedReader) (events : list BufferedEvent) : Prop :=
  match events with
  | [] => True
  | event :: events => one_call_at_a_time b event ∧ one_at_a_time (buffered_step b event).1 events
  end.

(** The bytes of the socket until the reader is closed. *)
Fixpoint socket_bytes (attached : bool) (events : list BufferedEvent) : bytes :=
  match events with
  | [] => []
  | event :: events =>
      socket_chunk attached event ++
      socket_bytes (match event with BrClose => false | _ => attached end) events
  end.

Lemma buffered_run_held events : ∀ b,
  buffered_ok b → one_at_a_time b events →
  let '(b', outputs) := run buffered_step b events in
  got outputs ++ held b' = held b ++ socket_bytes (rr_attached (br_source b)) events.
Proof.
  induction events as [|event events IH]; intros b Hok Hone; cbn [run]; [cbn; by rewrite app_nil_r|].
  destruct Hone as [Hone Hrest]. pose proof (buffered_step_held b event Hok Hone) as Hs.
  destruct (buffered_step b event) as [b1 out]. destruct Hs as (Hs1 & Hs2 & Hs3). cbn in Hrest. specialize (IH b1 Hs2 Hrest).
  destruct (run buffered_step b1 events) as [b2 out']. cbn [socket_bytes]. rewrite <- Hs3, got_app, <- app_assoc, IH, !app_assoc.
  by rewrite Hs1.
Qed.

(** Looking ahead loses nothing.  While calls do not overlap, what the
    execution has read, followed by the line the monitor has looked at and the bytes
    of the queue, is what the socket has delivered until the reader was closed: every
    line that the monitor sees is read later, once and in its place. *)
Theorem peeked_line_is_read events
    (Hone : one_at_a_time new_buffered events) :
  let '(b, outputs) := run buffered_step new_buffered events in
  got outputs ++ held b = socket_bytes true events.
Proof.
  assert (buffered_ok new_buffered) as Hok.
  { split; [|done..]. split; [apply new_reader_ok|done]. }
  exact (buffered_run_held events new_buffered Hok Hone).
Qed.

(** The monitor sees a line while the approval is pending; the execution reads it,
    and then the next one. *)
Definition monitored : list BufferedEvent :=
  [BrStartMonitor; BrSocket (EvData ["a"; newline; "b"]%char); BrRead; BrRead; BrSocket (EvData [newline])].

Lemma peeked_line_is_read_witness :
  (run buffered_step new_buffered monitored).2 =
    [Observed (Resolved (Some ["a"; newline])); Got (Resolved (Some ["a"; newline]));
     Got (Resolved (Some ["b"; newline]))]%char ∧
  got (run buffered_step new_buffered monitored).2 ++ held (run buffered_step new_buffered monitored).1 =
    ["a"; newline; "b"; newline]%char.
Proof.
  split; [vm_compute; reflexivity|].
  assert (one_at_a_time new_buffered monitored) as Hone.
  { cbn. repeat split; by apply not_elem_of_nil. }
  pose proof (peeked_line_is_read monitored Hone) as Hr. destruct (run buffered_step new_buffered monitored). exact Hr.
Defined.
