(* ===== verification/GatewayProtocol.v ===== *)
(** * The protocol of the command gateway (hostexec/gateway_protocol.ts)

    The messages between the broker and the gateway that runs host commands, the
    schemas they are checked by, and the states in which each is legal.  The schemas
    are data; what checks a value by a schema (zod), decodes UTF-8 and parses JSON is
    a parameter, [Wire]. *)
From S2P Require Import Prelude JsString Json Protocol Base64 HostMatch LineReader.

(** ** Messages *)

Inductive GatewayState : Type := StAwaitingDecision | StRunning | StAwaitingResult | StTerminal.
#[export] Instance GatewayState_eq_dec : EqDecision GatewayState.
Proof. solve_decision. Defined.

Definition GatewayState_string (s : GatewayState) : string :=
  match s with
  | StAwaitingDecision => "awaiting_decision"
  | StRunning => "running"
  | StAwaitingResult => "awaiting_result"
  | StTerminal => "terminal"
  end.

(** The `start` message: what the gateway runs. *)
Record StartMessage : Type := {
  sm_requestId : string;
  sm_argv0 : string;
  sm_args : list string;
  sm_cwd : string;
  sm_env : list (string * string);
}.

Inductive GatewayToBrokerMessage : Type :=
  | GmExecute (request : ExecuteRequest)
  | GmSpawned (requestId : string) (pid : Z)
  | GmRawChunk (requestId : string) (fd : Z) (data : string)
  | GmProcessExit (requestId : string) (exitCode : Z)
  | GmCancelled (requestId reason : string)
  | GmTransportError (requestId message : string).

Inductive BrokerToGatewayMessage : Type :=
  | GrFallback (requestId : string)
  | GrError (requestId message : string)
  | GrStart (start : StartMessage)
  | GrMaskedChunk (requestId : string) (fd : Z) (data : string)
  | GrResult (requestId : string) (exitCode : Z)
  | GrKill (requestId signal : string).

Definition message_type (m : GatewayToBrokerMessage) : string :=
  match m with
  | GmExecute _ => "execute" | GmSpawned _ _ => "spawned" | GmRawChunk _ _ _ => "raw_chunk"
  | GmProcessExit _ _ => "process_exit" | GmCancelled _ _ => "cancelled"
  | GmTransportError _ _ => "transport_error"
  end.

Definition reply_type (m : BrokerToGatewayMessage) : string :=
  match m with
  | GrFallback _ => "fallback" | GrError _ _ => "error" | GrStart _ => "start"
  | GrMaskedChunk _ _ _ => "masked_chunk" | GrResult _ _ => "result" | GrKill _ _ => "kill"
  end.

(** ** Schemas *)

(** The combinators of zod that the module uses.  [z_object] is `.strict()`,
    [z_string valid] a string with a `superRefine`, [z_int] a bounded integer. *)
Inductive Schema : Type :=
  | z_string (valid : string → bool)
  | z_boolean
  | z_int (low high : Z)
  | z_literal (value : JsonScalar)
  | z_enum (values : list string)
  | z_array (element : Schema)
  | z_record (value : Schema)
  | z_union (options : list Schema)
  | z_discriminatedUnion (key : string) (options : list Schema)
  | z_object (shape : list (string * Schema)).

Definition z_text : Schema := z_string (λ _, true).
Definition z_word (s : string) : Schema := z_literal (ScString s).
Definition z_number (z : Z) : Schema := z_literal (ScNumber (of_Z z)).

(** `/^[A-Za-z0-9+/]*={0,2}$/` *)
Fixpoint base64_then_padding (value : string) : bool :=
  match value with
  | EmptyString => true
  | String c rest =>
      (is_b64 c && base64_then_padding rest) || String.eqb value "=" || String.eqb value "=="
  end.

Definition isStrictStandardBase64 (value : string) : bool :=
  if negb (slen value mod 4 =? 0)%nat then false
  else if negb (base64_then_padding value) then false
  else match indexOf value "=" with
       | Some firstPadding =>
           if (firstPadding <? slen value - 2)%nat then
             let padding := drop_str firstPadding value in
             String.eqb padding "=" || String.eqb padding "=="
           else true
       | None => true
       end.

(** [None] for a thrown error. *)
Definition decodedChunk (value : string) : option string :=
  if negb (isStrictStandardBase64 value) then None
  else let decoded := decode value in
       if String.eqb (encode decoded) value then Some decoded else None.

Definition chunkDataSchema : Schema := z_string (λ value,
  match decodedChunk value with
  | Some decoded => negb (Z.of_nat (slen decoded) >? maxChunkBytes)%Z
  | None => false
  end).

Definition streamFdSchema : Schema := z_union [z_number 1; z_number 2].
Definition requestIdSchema : Schema := z_text.
Definition processIntegerSchema : Schema := z_int (-2147483648) 2147483647.

Definition gatewayStateSchema : Schema :=
  z_enum ["awaiting_decision"; "running"; "awaiting_result"; "terminal"].

Definition externalExecuteSchema : Schema := z_object
  [("version", z_number 2); ("type", z_word "execute"); ("sessionId", z_text); ("requestId", z_text);
   ("argv0", z_text); ("args", z_array z_text); ("cwd", z_text); ("tty", z_boolean);
   ("stdinMode", z_enum ["fd"; "none"])].

Definition gatewayExecuteSchema : Schema := z_object
  [("type", z_word "execute"); ("request", externalExecuteSchema)].

Definition spawnedSchema : Schema := z_object
  [("type", z_word "spawned"); ("requestId", requestIdSchema); ("pid", processIntegerSchema)].

Definition rawChunkSchema : Schema := z_object
  [("type", z_word "raw_chunk"); ("requestId", requestIdSchema); ("fd", streamFdSchema);
   ("data", chunkDataSchema)].

Definition processExitSchema : Schema := z_object
  [("type", z_word "process_exit"); ("requestId", requestIdSchema); ("exitCode", processIntegerSchema)].

Definition cancelledSchema : Schema := z_object
  [("type", z_word "cancelled"); ("requestId", requestIdSchema); ("reason", z_text)].

Definition transportErrorSchema : Schema := z_object
  [("type", z_word "transport_error"); ("requestId", requestIdSchema); ("message", z_text)].

Definition gatewayToBrokerSchema : Schema := z_discriminatedUnion "type"
  [gatewayExecuteSchema; spawnedSchema; rawChunkSchema; processExitSchema; cancelledSchema;
   transportErrorSchema].

Definition fallbackSchema : Schema := z_object
  [("type", z_word "fallback"); ("requestId", requestIdSchema)].

Definition errorSchema : Schema := z_object
  [("type", z_word "error"); ("requestId", requestIdSchema); ("message", z_text)].

Definition startSchema : Schema := z_object
  [("type", z_word "start"); ("requestId", requestIdSchema); ("argv0", z_text); ("args", z_array z_text);
   ("cwd", z_text); ("env", z_record z_text)].

Definition maskedChunkSchema : Schema := z_object
  [("type", z_word "masked_chunk"); ("requestId", requestIdSchema); ("fd", streamFdSchema);
   ("data", chunkDataSchema)].

Definition resultSchema : Schema := z_object
  [("type", z_word "result"); ("requestId", requestIdSchema); ("exitCode", processIntegerSchema)].

Definition killSchema : Schema := z_object
  [("type", z_word "kill"); ("requestId", requestIdSchema); ("signal", z_enum ["SIGTERM"; "SIGKILL"])].

Definition brokerToGatewaySchema : Schema := z_discriminatedUnion "type"
  [fallbackSchema; errorSchema; startSchema; maskedChunkSchema; resultSchema; killSchema].

(** ** States *)

Definition statesForGatewayType (type : string) : list GatewayState :=
  switch (Some type)
    [(["execute"], [StAwaitingDecision]); (["spawned"], [StRunning]); (["raw_chunk"], [StRunning]);
     (["process_exit"], [StRunning]);
     (["cancelled"], [StAwaitingDecision; StRunning; StAwaitingResult]);
     (["transport_error"], [StAwaitingDecision; StRunning; StAwaitingResult])] [].

Definition statesForBrokerType (type : string) : list GatewayState :=
  switch (Some type)
    [(["fallback"], [StAwaitingDecision]); (["error"], [StAwaitingDecision; StAwaitingResult]);
     (["start"], [StAwaitingDecision]); (["masked_chunk"], [StRunning; StAwaitingResult]);
     (["result"], [StAwaitingResult]); (["kill"], [StRunning])] [].

(** ** Parsing *)

(** What the module takes from its runtime and from zod: a strict UTF-8 decoder,
    `JSON.parse`, the check of a value by a schema, and the text of its error. *)
Class Wire : Type := {
  utf8_decode : bytes → option string;
  json_parse : string → option JsonValue;
  safeParse : Schema → JsonValue → option JsonValue;
  zod_error : Schema → JsonValue → string;
}.

(** `new TextEncoder().encode(text)` *)
Definition utf8_char (c : ascii) : bytes :=
  let n := nat_of_ascii c in
  if (n <? 128)%nat then [c] else [ascii_of_nat (192 + n / 64); ascii_of_nat (128 + n mod 64)].

Fixpoint utf8_encode (text : string) : bytes :=
  match text with
  | EmptyString => []
  | String c rest => utf8_char c ++ utf8_encode rest
  end.

Definition carriage_return : ascii := "013"%char.

(** The line without its newline and a carriage return before it. *)
Definition payload (line : bytes) : bytes :=
  match last line with
  | Some c =>
      if decide (c = newline) then
        let line := take (length line - 1) line in
        match last line with
        | Some c => if decide (c = carriage_return) then take (length line - 1) line else line
        | None => line
        end
      else line
  | None => line
  end.

Section Parsing.
Context `{Wire}.

Definition parseWireLine (line : bytes) : Result JsonValue :=
  let payloadBytes := payload line in
  if (Z.of_nat (length payloadBytes) >? maxControlBytes)%Z then Err too_long
  else match utf8_decode payloadBytes with
       | None => Err "control message is not valid UTF-8"
       | Some text =>
           match json_parse text with
           | None => Err "control message is not valid JSON"
           | Some value => Ok value
           end
       end.

Definition assertControlSize (value : JsonValue) : Result () :=
  if (Z.of_nat (length (utf8_encode (stringify value))) >? maxControlBytes)%Z then Err too_long else Ok ().

Definition parseOrThrow (schema : Schema) (value : JsonValue) : Result JsonValue :=
  match safeParse schema value with
  | None => Err (zod_error schema value)
  | Some data => _ ← assertControlSize data; Ok data
  end.

Definition assertState (state : GatewayState) : Result () :=
  match safeParse gatewayStateSchema (JScalar (ScString (GatewayState_string state))) with
  | Some _ => Ok ()
  | None => Err ("invalid gateway state: " +:+ GatewayState_string state)
  end.

(** [states] is the table of the direction. *)
Definition assertLegalState (direction : string) (states : string → list GatewayState) (type : string)
    (state : GatewayState) : Result () :=
  _ ← assertState state;
  if includes (states type) state then Ok ()
  else Err (direction +:+ " message " +:+ type +:+ " is not legal in gateway state " +:+ GatewayState_string state).

(** The parsed value at its static type. *)
Definition texts_member (m : list (string * JsonValue)) (name : string) : option (list string) :=
  match member m name with Some (JArray l) => mapM as_string l | _ => None end.

Definition boolean_member (m : list (string * JsonValue)) (name : string) : option bool :=
  match member m name with Some (JScalar (ScBoolean b)) => Some b | _ => None end.

Definition number_member (m : list (string * JsonValue)) (name : string) : option Z :=
  match member m name with Some (JScalar (ScNumber x)) => number_to_Z x | _ => None end.

Definition stdin_mode (text : string) : StdinMode :=
  if String.eqb text "fd" then StdinFd else StdinNone.

Definition as_execute (value : JsonValue) : option ExecuteRequest :=
  m ← as_object value;
  sessionId ← string_member m "sessionId";
  requestId ← string_member m "requestId";
  argv0 ← string_member m "argv0";
  args ← texts_member m "args";
  cwd ← string_member m "cwd";
  tty ← boolean_member m "tty";
  stdinMode ← string_member m "stdinMode";
  Some {| er_sessionId := sessionId; er_requestId := requestId; er_argv0 := argv0; er_args := args;
          er_cwd := cwd; er_tty := tty; er_stdinMode := stdin_mode stdinMode |}.

Definition as_gateway_message (value : JsonValue) : option GatewayToBrokerMessage :=
  m ← as_object value;
  let requestId := string_member m "requestId" in
  switch (string_member m "type")
    [(["execute"], request ← member m "request" ≫= as_execute; Some (GmExecute request));
     (["spawned"], id ← requestId; pid ← number_member m "pid"; Some (GmSpawned id pid));
     (["raw_chunk"], id ← requestId; fd ← number_member m "fd"; data ← string_member m "data";
                     Some (GmRawChunk id fd data));
     (["process_exit"], id ← requestId; code ← number_member m "exitCode"; Some (GmProcessExit id code));
     (["cancelled"], id ← requestId; reason ← string_member m "reason"; Some (GmCancelled id reason));
     (["transport_error"], id ← requestId; text ← string_member m "message";
                           Some (GmTransportError id text))] None.

Definition parseExternalExecute (value : JsonValue) : Result JsonValue :=
  parseOrThrow externalExecuteSchema value.

Definition parseExternalExecuteLine (line : bytes) : Result JsonValue :=
  value ← parseWireLine line; parseExternalExecute value.

Definition type_of (data : JsonValue) : string :=
  default "" (m ← as_object data; string_member m "type").

Definition parseGatewayToBroker (value : JsonValue) (state : GatewayState) : Result JsonValue :=
  parsed ← parseOrThrow gatewayToBrokerSchema value;
  _ ← assertLegalState "gateway-to-broker" statesForGatewayType (type_of parsed) state;
  Ok parsed.

Definition parseGatewayToBrokerLine (line : bytes) (state : GatewayState) : Result JsonValue :=
  value ← parseWireLine line; parseGatewayToBroker value state.

Definition parseBrokerToGateway (value : JsonValue) (state : GatewayState) : Result JsonValue :=
  parsed ← parseOrThrow brokerToGatewaySchema value;
  _ ← assertLegalState "broker-to-gateway" statesForBrokerType (type_of parsed) state;
  Ok parsed.

Definition parseBrokerToGatewayLine (line : bytes) (state : GatewayState) : Result JsonValue :=
  value ← parseWireLine line; parseBrokerToGateway value state.
End Parsing.

(** ** What is sent *)

Definition json_string (s : string) : JsonValue := JScalar (ScString s).
Definition json_integer (z : Z) : JsonValue := JScalar (ScNumber (of_Z z)).

(** The object literal of a message. *)
Definition reply_json (m : BrokerToGatewayMessage) : JsonValue :=
  JObject match m with
  | GrFallback id => [("type", json_string "fallback"); ("requestId", json_string id)]
  | GrError id text => [("type", json_string "error"); ("requestId", json_string id); ("message", json_string text)]
  | GrStart start =>
      [("type", json_string "start"); ("requestId", json_string (sm_requestId start));
       ("argv0", json_string (sm_argv0 start)); ("args", JArray (map json_string (sm_args start)));
       ("cwd", json_string (sm_cwd start));
       ("env", JObject (map (λ e, (e.1, json_string e.2)) (sm_env start)))]
  | GrMaskedChunk id fd data =>
      [("type", json_string "masked_chunk"); ("requestId", json_string id); ("fd", json_integer fd);
       ("data", json_string data)]
  | GrResult id code =>
      [("type", json_string "result"); ("requestId", json_string id); ("exitCode", json_integer code)]
  | GrKill id signal =>
      [("type", json_string "kill"); ("requestId", json_string id); ("signal", json_string signal)]
  end.

(** `${JSON.stringify(message)}\n` *)
Definition reply_line (m : BrokerToGatewayMessage) : string :=
  stringify (reply_json m) +:+ String newline "".
