(* ===== verification/GatewayProtocolLaws.v ===== *)
(** * What the protocol of the gateway accepts

    The documented behaviour of the schemas, and its consequence: a message of the
    gateway that is accepted has the type and the bounds its reader relies on, in a
    state in which it is legal. *)
From S2P Require Import Prelude JsString Json Protocol Base64 HostMatch LineReader GatewayProtocol.

(** ** Schemas *)

Fixpoint accepts (schema : Schema) (v : JsonValue) {struct schema} : bool :=
  match schema with
  | z_string valid => match as_string v with Some s => valid s | None => false end
  | z_boolean => match v with JScalar (ScBoolean _) => true | _ => false end
  | z_int low high =>
      match v with
      | JScalar (ScNumber x) =>
          match number_to_Z x with Some z => (low <=? z)%Z && (z <=? high)%Z | None => false end
      | _ => false
      end
  | z_literal value => match v with JScalar x => bool_decide (x = value) | _ => false end
  | z_enum values => match as_string v with Some s => includes values s | None => false end
  | z_array element => match v with JArray l => forallb (accepts element) l | _ => false end
  | z_record value => match v with JObject m => forallb (λ e, accepts value e.2) m | _ => false end
  | z_union options | z_discriminatedUnion _ options => existsb (λ s, accepts s v) options
  | z_object shape =>
      match v with
      | JObject m =>
          forallb (includes (map fst shape)) (map_keys m) &&
          forallb (λ '(name, s), match map_get m name with Some w => accepts s w | None => false end) shape
      | _ => false
      end
  end.

(** The value a schema returns: objects are rebuilt from the members of the shape. *)
Fixpoint rebuild (schema : Schema) (v : JsonValue) {struct schema} : JsonValue :=
  match schema, v with
  | z_array element, JArray l => JArray (map (rebuild element) l)
  | z_record value, JObject m => JObject (map (λ e, (e.1, rebuild value e.2)) m)
  | (z_union options | z_discriminatedUnion _ options), _ =>
      (fix first options :=
         match options with
         | [] => v
         | s :: options => if accepts s v then rebuild s v else first options
         end) options
  | z_object shape, JObject m =>
      JObject (map (λ '(name, s), (name, match map_get m name with Some w => rebuild s w | None => JNull end)) shape)
  | _, _ => v
  end.

Definition zod_documented `{Wire} : Prop :=
  ∀ schema v, safeParse schema v = if accepts schema v then Some (rebuild schema v) else None.

(** The member of an accepted object. *)
Lemma accepts_member shape v :
  accepts (z_object shape) v = true →
  ∃ m, v = JObject m ∧ ∀ name s, In (name, s) shape → ∃ w, map_get m name = Some w ∧ accepts s w = true.
Proof.
  cbn [accepts]. destruct v as [| | |m]; try done. intros [_ Hs]%andb_true_iff. exists m. split; [done|].
  intros name s Hin. rewrite forallb_forall in Hs. specialize (Hs (name, s) Hin). cbn in Hs.
  destruct (map_get m name) as [w|]; [by exists w|done].
Qed.

Lemma accepts_union key options v :
  accepts (z_discriminatedUnion key options) v = true →
  ∃ s, In s options ∧ accepts s v = true ∧ rebuild (z_discriminatedUnion key options) v = rebuild s v.
Proof.
  cbn [accepts rebuild]. induction options as [|s options IH]; [done|]. cbn [existsb].
  destruct (accepts s v) eqn:E; [intros _; exists s; split_and!; [by left|done|done]|]. cbn.
  intros (s' & Hin & Ha & Hr)%IH. exists s'. split_and!; [by right|done|done].
Qed.

Lemma accepts_text v : accepts z_text v = true → ∃ s, v = JScalar (ScString s).
Proof. cbn. destruct v as [|[s| |]| |]; naive_solver. Qed.

Lemma accepts_valid valid v : accepts (z_string valid) v = true → ∃ s, v = JScalar (ScString s) ∧ valid s = true.
Proof. cbn. destruct v as [|[s| |]| |]; naive_solver. Qed.

Lemma accepts_word s v : accepts (z_word s) v = true → v = JScalar (ScString s).
Proof. cbn. destruct v as [|x| |]; try done. by intros ->%bool_decide_eq_true. Qed.

Lemma accepts_enum values v : accepts (z_enum values) v = true → ∃ s, v = JScalar (ScString s) ∧ In s values.
Proof. cbn. destruct v as [|[s| |]| |]; try done. intros H%includes_In. eauto. Qed.

Lemma accepts_int low high v :
  accepts (z_int low high) v = true → ∃ x z, v = JScalar (ScNumber x) ∧ number_to_Z x = Some z ∧ (low ≤ z ≤ high)%Z.
Proof.
  cbn. destruct v as [|[|x|]| |]; try done. destruct (number_to_Z x) as [z|] eqn:E; [|done].
  intros [H1%Z.leb_le H2%Z.leb_le]%andb_true_iff. exists x, z. done.
Qed.

Lemma accepts_boolean v : accepts z_boolean v = true → ∃ b, v = JScalar (ScBoolean b).
Proof. cbn. destruct v as [|[| |b]| |]; naive_solver. Qed.

Lemma accepts_fd v :
  accepts streamFdSchema v = true →
  ∃ z, v = JScalar (ScNumber (of_Z z)) ∧ (z = 1 ∨ z = 2)%Z ∧ rebuild streamFdSchema v = JScalar (ScNumber (of_Z z)).
Proof.
  cbn. destruct v as [|x| |]; try done. rewrite orb_false_r.
  intros [->%bool_decide_eq_true| ->%bool_decide_eq_true]%orb_true_iff; [exists 1%Z|exists 2%Z]; auto.
Qed.

Lemma accepts_texts v :
  accepts (z_array z_text) v = true →
  ∃ l, rebuild (z_array z_text) v = JArray (map json_string l) ∧ v = JArray (map json_string l).
Proof.
  cbn [accepts rebuild]. destruct v as [| |elements|]; try done. rewrite forallb_forall. intros Hall.
  assert (∃ l, elements = map json_string l) as [l ->].
  { induction elements as [|x elements IH]; [by exists []|].
    destruct (accepts_text x) as [s ->]; [apply Hall; by left|].
    destruct IH as [l ->]; [intros y Hy; apply Hall; by right|]. by exists (s :: l). }
  exists l. split; [|done]. by rewrite map_map.
Qed.

Lemma mapM_texts l : mapM as_string (map json_string l) = Some l.
Proof. induction l as [|s l IH]; cbn; [done|]. by rewrite IH. Qed.

(** ** Messages of the gateway *)

Definition process_integer (z : Z) : Prop := (-2147483648 ≤ z ≤ 2147483647)%Z.

(** The encoding of at most 64 KiB. *)
Definition chunk_data (data : string) : Prop :=
  ∃ decoded, data = encode decoded ∧ decode data = decoded ∧ (Z.of_nat (slen decoded) ≤ maxChunkBytes)%Z.

Definition message_ok (m : GatewayToBrokerMessage) : Prop :=
  match m with
  | GmSpawned _ pid => process_integer pid
  | GmRawChunk _ fd data => (fd = 1 ∨ fd = 2)%Z ∧ chunk_data data
  | GmProcessExit _ code => process_integer code
  | GmExecute _ | GmCancelled _ _ | GmTransportError _ _ => True
  end.

(** Only a command that may still run can speak of itself. *)
Definition message_legal (m : GatewayToBrokerMessage) (state : GatewayState) : Prop :=
  match m with
  | GmExecute _ => state = StAwaitingDecision
  | GmSpawned _ _ | GmRawChunk _ _ _ | GmProcessExit _ _ => state = StRunning
  | GmCancelled _ _ | GmTransportError _ _ => state ≠ StTerminal
  end.

Lemma accepts_chunk v :
  accepts chunkDataSchema v = true → ∃ data, v = JScalar (ScString data) ∧ chunk_data data.
Proof.
  intros (data & -> & Hd)%accepts_valid. exists data. split; [done|]. revert Hd. unfold decodedChunk.
  destruct (negb (isStrictStandardBase64 data)); [done|]. destruct (String.eqb_spec (encode (decode data)) data) as [He|]; [|done].
  destruct (Z.gtb_spec (Z.of_nat (slen (decode data))) maxChunkBytes) as [|Hle]; [done|]. intros _. exists (decode data). done.
Qed.

Definition members_ok (m : list (string * JsonValue)) (shape : list (string * Schema)) : Prop :=
  ∀ name s, In (name, s) shape → ∃ w, map_get m name = Some w ∧ accepts s w = true.

Lemma rebuild_object shape m :
  rebuild (z_object shape) (JObject m) =
  JObject (map (λ '(name, s), (name, match map_get m name with Some w => rebuild s w | None => JNull end)) shape).
Proof. done. Qed.

Lemma get_cons {V} (m : list (string * V)) k v k' :
  map_get ((k, v) :: m) k' = if String.eqb k' k then Some v else map_get m k'.
Proof. cbn. destruct (String.eqb_spec k' k) as [->|Hne]; [by rewrite decide_True|by rewrite decide_False]. Qed.

(** Reads the members of an object that is written out. *)
Ltac read_members :=
  unfold as_gateway_message, type_of, texts_member, boolean_member, number_member, string_member, member;
  cbn [as_object mbind option_bind]; rewrite !get_cons; cbn -[mapM number_to_Z as_execute].

Lemma execute_accepted v :
  accepts externalExecuteSchema v = true → ∃ request, as_execute (rebuild externalExecuteSchema v) = Some request.
Proof.
  intros (m & -> & Hall)%accepts_member. unfold externalExecuteSchema. rewrite rebuild_object. cbn [map].
  edestruct (Hall "sessionId") as (w1 & -> & H1); [cbn; tauto|]. apply accepts_text in H1 as [s1 ->].
  edestruct (Hall "requestId") as (w2 & -> & H2); [cbn; tauto|]. apply accepts_text in H2 as [s2 ->].
  edestruct (Hall "argv0") as (w3 & -> & H3); [cbn; tauto|]. apply accepts_text in H3 as [s3 ->].
  edestruct (Hall "args") as (w4 & -> & H4); [cbn; tauto|]. apply accepts_texts in H4 as (l & -> & ->).
  edestruct (Hall "cwd") as (w5 & -> & H5); [cbn; tauto|]. apply accepts_text in H5 as [s5 ->].
  edestruct (Hall "tty") as (w6 & -> & H6); [cbn; tauto|]. apply accepts_boolean in H6 as [b ->].
  edestruct (Hall "stdinMode") as (w7 & -> & H7); [cbn; tauto|]. apply accepts_enum in H7 as (s7 & -> & _).
  pose proof (mapM_texts l) as Hl. revert Hl. generalize (map json_string l). intros texts Hl.
  unfold as_execute. read_members. rewrite Hl. cbn. eauto.
Qed.

(** What is accepted by the schema of the gateway's messages is one of them. *)
Lemma gateway_accepted v :
  accepts gatewayToBrokerSchema v = true →
  ∃ m, as_gateway_message (rebuild gatewayToBrokerSchema v) = Some m ∧ message_ok m ∧
       type_of (rebuild gatewayToBrokerSchema v) = message_type m.
Proof.
  intros (s & Hin & Ha & Hr)%accepts_union. change (rebuild gatewayToBrokerSchema v = rebuild s v) in Hr. rewrite Hr. clear Hr.
  cbn [In] in Hin. destruct Hin as [<-|[<-|[<-|[<-|[<-|[<-|[]]]]]]];
    apply accepts_member in Ha as (m & -> & Hall);
    unfold gatewayExecuteSchema, spawnedSchema, rawChunkSchema, processExitSchema, cancelledSchema, transportErrorSchema;
    rewrite rebuild_object; cbn [map];
    (edestruct (Hall "type") as (w0 & -> & H0); [by left|]); apply accepts_word in H0 as ->.
  - edestruct (Hall "request") as (w & -> & H1); [cbn; tauto|]. apply execute_accepted in H1 as [request Hq].
    revert Hq. generalize (rebuild externalExecuteSchema w). intros data Hq.
    exists (GmExecute request). read_members. by rewrite Hq.
  - edestruct (Hall "requestId") as (w & -> & H1); [cbn; tauto|]. apply accepts_text in H1 as [id ->].
    edestruct (Hall "pid") as (w & -> & H2); [cbn; tauto|]. apply accepts_int in H2 as (x & z & -> & Hx & Hz).
    exists (GmSpawned id z). read_members. by rewrite Hx.
  - edestruct (Hall "requestId") as (w & -> & H1); [cbn; tauto|]. apply accepts_text in H1 as [id ->].
    edestruct (Hall "fd") as (w & -> & H2); [cbn; tauto|]. apply accepts_fd in H2 as (z & -> & Hz & ->).
    edestruct (Hall "data") as (w & -> & H3); [cbn; tauto|]. apply accepts_chunk in H3 as (data & -> & Hd).
    exists (GmRawChunk id z data). read_members. by rewrite number_to_Z_of_Z.
  - edestruct (Hall "requestId") as (w & -> & H1); [cbn; tauto|]. apply accepts_text in H1 as [id ->].
    edestruct (Hall "exitCode") as (w & -> & H2); [cbn; tauto|]. apply accepts_int in H2 as (x & z & -> & Hx & Hz).
    exists (GmProcessExit id z). read_members. by rewrite Hx.
  - edestruct (Hall "requestId") as (w & -> & H1); [cbn; tauto|]. apply accepts_text in H1 as [id ->].
    edestruct (Hall "reason") as (w & -> & H2); [cbn; tauto|]. apply accepts_text in H2 as [reason ->].
    exists (GmCancelled id reason). by read_members.
  - edestruct (Hall "requestId") as (w & -> & H1); [cbn; tauto|]. apply accepts_text in H1 as [id ->].
    edestruct (Hall "message") as (w & -> & H2); [cbn; tauto|]. apply accepts_text in H2 as [text ->].
    exists (GmTransportError id text). by read_members.
Qed.

(** C14.  A message of the gateway that the parser lets through is one of the declared
    messages, so that reading it at its type cannot fail; its process id and exit
    code are 32-bit integers, its stream is 1 or 2, its data the canonical encoding
    of at most 64 KiB; and the state allows it: nothing but a cancellation or a
    transport error is heard before the command runs or after it has exited. *)
Theorem accepted_message_typed `{Wire} value state data
    (Hzod : zod_documented) (Haccepted : parseGatewayToBroker value state = Ok data) :
  ∃ m, as_gateway_message data = Some m ∧ message_ok m ∧ message_legal m state.
Proof.
  unfold parseGatewayToBroker, parseOrThrow in Haccepted. rewrite Hzod in Haccepted.
  destruct (accepts gatewayToBrokerSchema value) eqn:Ea; [|done].
  destruct (gateway_accepted value Ea) as (m & Hm & Hok & Ht). unfold assertControlSize in Haccepted.
  destruct (_ >? _)%Z; [done|]. cbn [mbind result_bind] in Haccepted. unfold assertLegalState in Haccepted.
  destruct (assertState state); [|done]. cbn [mbind result_bind] in Haccepted. rewrite Ht in Haccepted.
  destruct (includes _ state) eqn:Ei; [|done]. injection Haccepted as <-. exists m. split_and!; [done|done|].
  apply includes_In in Ei. destruct m, state; cbn in Ei; naive_solver.
Qed.

(** A runtime whose schemas behave as documented. *)
Definition plain_wire : Wire := {|
  utf8_decode := λ _, Some "";
  json_parse := λ text, Some (JScalar (ScString text));
  safeParse := λ schema v, if accepts schema v then Some (rebuild schema v) else None;
  zod_error := λ _ _, "invalid" |}.

Definition sample_exit : JsonValue :=
  JObject [("exitCode", json_integer 3); ("type", json_string "process_exit"); ("requestId", json_string "r1")].

Lemma accepted_message_typed_witness :
  is_Ok (parseGatewayToBroker (H := plain_wire) sample_exit StRunning) = true ∧
  is_Ok (parseGatewayToBroker (H := plain_wire) sample_exit StAwaitingResult) = false ∧
  ∃ data m, parseGatewayToBroker (H := plain_wire) sample_exit StRunning = Ok data ∧
    as_gateway_message data = Some m ∧ message_ok m ∧ message_legal m StRunning.
Proof.
  split; [vm_compute; reflexivity|]. split; [vm_compute; reflexivity|].
  destruct (parseGatewayToBroker (H := plain_wire) sample_exit StRunning) as [data|error] eqn:E.
  - destruct (accepted_message_typed (H := plain_wire) sample_exit StRunning data (λ _ _, eq_refl) E) as (m & Hm).
    exists data, m. split; [reflexivity|exact Hm].
  - vm_compute in E. discriminate.
Defined.
