(* ===== verification/GatewayRun.v ===== *)
(** * One command of the gateway (hostexec/gateway_execution.ts)

    [runGatewayExecution] tells the gateway to start a command, passes the raw
    output the gateway reports through a mask filter per stream, sends the masked
    output back, and reports the exit code once everything has been sent.  It runs
    together with the tasks it starts: the writer of messages, a pump per filter, the
    monitor of the health of the filters, and a read that waits for the end of the
    connection.  The state is where each of them is; [step] is what happens when one
    of the things they wait for happens.  What a filter prints, what the socket, the
    hooks and the reader answer is chosen by the events. *)
From S2P Require Import Prelude JsString Json Base64 HostMatch LineReader GatewayProtocol.

Inductive StreamFd : Type := Fd1 | Fd2.
#[export] Instance StreamFd_eq_dec : EqDecision StreamFd.
Proof. solve_decision. Defined.

Definition fd_number (fd : StreamFd) : Z := match fd with Fd1 => 1 | Fd2 => 2 end.

Definition stream_fd (n : Z) : option StreamFd :=
  if decide (n = 1%Z) then Some Fd1 else if decide (n = 2%Z) then Some Fd2 else None.

(** ** State *)

(** [MaskFilterPipeline].  A chunk the filter prints is cut into pieces; the first of
    [mp_pieces] has been handed to the writer.  [mp_input] and [mp_emitted] are
    everything that was written to and read from the filter. *)
Record MaskFilter : Type := {
  mp_input : string;
  mp_emitted : string;
  mp_pieces : list string;
  (** `outputTask` has settled, `process.exited` has *)
  mp_outputDone : bool;
  mp_exited : option Z;
  mp_inputClosed : bool;
  mp_finishing : bool;
  mp_stopped : bool;
  mp_failure : option string;
}.

Inductive OutputPipeline : Type :=
  | IdentityPipeline
  | MaskFilterPipeline (p : MaskFilter).

(** Whose `send` it is. *)
Inductive Sender : Type := Main | Pump (fd : StreamFd).
#[export] Instance Sender_eq_dec : EqDecision Sender.
Proof. solve_decision. Defined.

(** The read that follows `process_exit`. *)
Inductive TerminalRead : Type := NoTerminalRead | TerminalReading | TerminalEnded (error : string).

(** What the function itself waits for, or how it has ended. *)
Inductive Phase : Type :=
  | AtStart
  | AtRead
  | AtSpawned
  | AtWrite (fd : StreamFd) (data : string)
  | AtExitHook (exitCode : Z)
  | AtFinish (exitCode : Z)
  | AtDrain (exitCode : Z)
  | AtResult (exitCode : Z)
  | AtKill (error : string)
  | AtStop (error : string)
  | Returned
  | Threw (error : string).

(** The variables of the function itself. *)
Record Progress : Type := {
  pg_phase : Phase;
  pg_state : GatewayState;
  pg_spawned : bool;
  pg_startSent : bool;
  pg_commandMayExist : bool;
}.

(** The chain of sends that have not been made, what it rejects with once one has
    failed, and the messages written to the socket. *)
Record MessageWriter : Type := {
  mw_queue : list (Sender * BrokerToGatewayMessage);
  mw_failure : option string;
  mw_written : list BrokerToGatewayMessage;
}.

Record PipelineHealthMonitor : Type := {
  hm_started : bool;
  hm_closed : bool;
  hm_failure : option string;
}.

(** The use of the reader: the messages of the gateway that were accepted, the read
    after `process_exit`, and how it was given up. *)
Record ReaderUse : Type := {
  ru_heard : list GatewayToBrokerMessage;
  ru_terminalRead : TerminalRead;
  ru_aborted : bool;
  ru_closed : bool;
}.

Record Execution : Type := {
  ex_main : Progress;
  ex_writer : MessageWriter;
  ex_pipelines : StreamFd → option OutputPipeline;
  ex_health : PipelineHealthMonitor;
  ex_reader : ReaderUse;
  ex_cancelled : option string;
}.

Record GatewayExecutionOptions : Type := {
  go_requestId : string;
  go_start : StartMessage;
  go_maskFilter : bool;
}.

Definition on_main (f : Progress → Progress) (x : Execution) : Execution := {|
  ex_main := f (ex_main x); ex_writer := ex_writer x; ex_pipelines := ex_pipelines x; ex_health := ex_health x;
  ex_reader := ex_reader x; ex_cancelled := ex_cancelled x |}.

Definition on_writer (f : MessageWriter → MessageWriter) (x : Execution) : Execution := {|
  ex_main := ex_main x; ex_writer := f (ex_writer x); ex_pipelines := ex_pipelines x; ex_health := ex_health x;
  ex_reader := ex_reader x; ex_cancelled := ex_cancelled x |}.

Definition set_pipeline (fd : StreamFd) (p : OutputPipeline) (x : Execution) : Execution := {|
  ex_main := ex_main x; ex_writer := ex_writer x;
  ex_pipelines := λ fd', if decide (fd' = fd) then Some p else ex_pipelines x fd';
  ex_health := ex_health x; ex_reader := ex_reader x; ex_cancelled := ex_cancelled x |}.

Definition on_health (f : PipelineHealthMonitor → PipelineHealthMonitor) (x : Execution) : Execution := {|
  ex_main := ex_main x; ex_writer := ex_writer x; ex_pipelines := ex_pipelines x; ex_health := f (ex_health x);
  ex_reader := ex_reader x; ex_cancelled := ex_cancelled x |}.

Definition on_reader (f : ReaderUse → ReaderUse) (x : Execution) : Execution := {|
  ex_main := ex_main x; ex_writer := ex_writer x; ex_pipelines := ex_pipelines x; ex_health := ex_health x;
  ex_reader := f (ex_reader x); ex_cancelled := ex_cancelled x |}.

Definition set_cancelled (reason : string) (x : Execution) : Execution := {|
  ex_main := ex_main x; ex_writer := ex_writer x; ex_pipelines := ex_pipelines x; ex_health := ex_health x;
  ex_reader := ex_reader x; ex_cancelled := Some reason |}.

Definition phase (x : Execution) : Phase := pg_phase (ex_main x).

Definition go_to (phase : Phase) : Execution → Execution := on_main (λ g, {|
  pg_phase := phase; pg_state := pg_state g; pg_spawned := pg_spawned g; pg_startSent := pg_startSent g;
  pg_commandMayExist := pg_commandMayExist g |}).

Definition set_state (state : GatewayState) : Execution → Execution := on_main (λ g, {|
  pg_phase := pg_phase g; pg_state := state; pg_spawned := pg_spawned g; pg_startSent := pg_startSent g;
  pg_commandMayExist := pg_commandMayExist g |}).

Definition set_spawned : Execution → Execution := on_main (λ g, {|
  pg_phase := pg_phase g; pg_state := StRunning; pg_spawned := true; pg_startSent := pg_startSent g;
  pg_commandMayExist := pg_commandMayExist g |}).

(** `startSent = true; commandMayExist = startSent; state = "running"` *)
Definition set_started : Execution → Execution := on_main (λ g, {|
  pg_phase := pg_phase g; pg_state := StRunning; pg_spawned := pg_spawned g; pg_startSent := true;
  pg_commandMayExist := true |}).

(** `commandMayExist = false; state = "terminal"` *)
Definition set_terminal : Execution → Execution := on_main (λ g, {|
  pg_phase := pg_phase g; pg_state := StTerminal; pg_spawned := pg_spawned g; pg_startSent := pg_startSent g;
  pg_commandMayExist := false |}).

Definition abort_reader : Execution → Execution := on_reader (λ u, {|
  ru_heard := ru_heard u; ru_terminalRead := ru_terminalRead u; ru_aborted := true; ru_closed := ru_closed u |}).

Definition close_reader : Execution → Execution := on_reader (λ u, {|
  ru_heard := ru_heard u; ru_terminalRead := ru_terminalRead u; ru_aborted := ru_aborted u; ru_closed := true |}).

Definition set_terminalRead (r : TerminalRead) : Execution → Execution := on_reader (λ u, {|
  ru_heard := ru_heard u; ru_terminalRead := r; ru_aborted := ru_aborted u; ru_closed := ru_closed u |}).

Definition hear (m : GatewayToBrokerMessage) : Execution → Execution := on_reader (λ u, {|
  ru_heard := ru_heard u ++ [m]; ru_terminalRead := ru_terminalRead u; ru_aborted := ru_aborted u;
  ru_closed := ru_closed u |}).

Definition new_filter : MaskFilter := {|
  mp_input := ""; mp_emitted := ""; mp_pieces := []; mp_outputDone := false; mp_exited := None;
  mp_inputClosed := false; mp_finishing := false; mp_stopped := false; mp_failure := None |}.

(** ** Sending *)

(** `send`: the message joins the chain. *)
Definition send (sender : Sender) (m : BrokerToGatewayMessage) : Execution → Execution := on_writer (λ w, {|
  mw_queue := mw_queue w ++ [(sender, m)]; mw_failure := mw_failure w; mw_written := mw_written w |}).

Section Run.
Context `{Wire} (options : GatewayExecutionOptions).

Definition masked_chunk (fd : StreamFd) (data : string) : BrokerToGatewayMessage :=
  GrMaskedChunk (go_requestId options) (fd_number fd) (encode data).

(** The call, up to its first `await`. *)
Definition begin_execution : Execution := {|
  ex_main := {| pg_phase := AtStart; pg_state := StAwaitingDecision; pg_spawned := false; pg_startSent := false;
                pg_commandMayExist := false |};
  ex_writer := {| mw_queue := [(Main, GrStart (go_start options))]; mw_failure := None; mw_written := [] |};
  ex_pipelines := λ _, None;
  ex_health := {| hm_started := false; hm_closed := false; hm_failure := None |};
  ex_reader := {| ru_heard := []; ru_terminalRead := NoTerminalRead; ru_aborted := false; ru_closed := false |};
  ex_cancelled := None |}.

(** The outcome of the first send of the chain: [None] when the line was written.
    A line that its own parser refuses is not written, and after a failure nothing is. *)
Definition write_outcome (x : Execution) (m : BrokerToGatewayMessage) (written : option string) : option string :=
  match mw_failure (ex_writer x) with
  | Some error => Some error
  | None =>
      match parseBrokerToGatewayLine (utf8_encode (reply_line m)) (pg_state (ex_main x)) with
      | Err error => Some error
      | Ok _ => written
      end
  end.

Definition write_done (m : BrokerToGatewayMessage) (rest : list (Sender * BrokerToGatewayMessage))
    (outcome : option string) : Execution → Execution := on_writer (λ w, {|
  mw_queue := rest; mw_failure := outcome;
  mw_written := match outcome with None => mw_written w ++ [m] | Some _ => mw_written w end |}).

(** ** Failures of the pipelines *)

(** `PipelineHealthMonitor.fail` *)
Definition health_fails (error : string) (x : Execution) : Execution :=
  let h := ex_health x in
  if hm_closed h then x
  else match hm_failure h with
       | Some _ => x
       | None =>
           if hm_started h then
             abort_reader (on_health (λ h, {| hm_started := hm_started h; hm_closed := hm_closed h;
                                              hm_failure := Some error |}) x)
           else x
       end.

Definition with_failure (p : MaskFilter) (failure : option string) : MaskFilter := {|
  mp_input := mp_input p; mp_emitted := mp_emitted p; mp_pieces := mp_pieces p; mp_outputDone := mp_outputDone p;
  mp_exited := mp_exited p; mp_inputClosed := mp_inputClosed p; mp_finishing := mp_finishing p;
  mp_stopped := mp_stopped p; mp_failure := failure |}.

(** `reportFailure`: only the first failure counts. *)
Definition reportFailure (fd : StreamFd) (p : MaskFilter) (error : string) (x : Execution) : Execution :=
  match mp_failure p with
  | Some _ => set_pipeline fd (MaskFilterPipeline p) x
  | None => health_fails error (set_pipeline fd (MaskFilterPipeline (with_failure p (Some error))) x)
  end.

Definition with_pieces (p : MaskFilter) (pieces : list string) (emitted : string) (outputDone : bool) : MaskFilter := {|
  mp_input := mp_input p; mp_emitted := emitted; mp_pieces := pieces; mp_outputDone := outputDone;
  mp_exited := mp_exited p; mp_inputClosed := mp_inputClosed p; mp_finishing := mp_finishing p;
  mp_stopped := mp_stopped p; mp_failure := mp_failure p |}.

Definition with_input (p : MaskFilter) (input : string) (inputClosed : bool) : MaskFilter := {|
  mp_input := input; mp_emitted := mp_emitted p; mp_pieces := mp_pieces p; mp_outputDone := mp_outputDone p;
  mp_exited := mp_exited p; mp_inputClosed := inputClosed; mp_finishing := mp_finishing p;
  mp_stopped := mp_stopped p; mp_failure := mp_failure p |}.

Definition with_exit (p : MaskFilter) (exited : option Z) : MaskFilter := {|
  mp_input := mp_input p; mp_emitted := mp_emitted p; mp_pieces := mp_pieces p; mp_outputDone := mp_outputDone p;
  mp_exited := exited; mp_inputClosed := mp_inputClosed p; mp_finishing := mp_finishing p;
  mp_stopped := mp_stopped p; mp_failure := mp_failure p |}.

(** `finishing = true` and `closeInput`; `stopped = true` and `closeInputForStop`. *)
Definition finishing (p : MaskFilter) : MaskFilter := {|
  mp_input := mp_input p; mp_emitted := mp_emitted p; mp_pieces := mp_pieces p; mp_outputDone := mp_outputDone p;
  mp_exited := mp_exited p; mp_inputClosed := true; mp_finishing := true;
  mp_stopped := mp_stopped p; mp_failure := mp_failure p |}.

Definition stopping (p : MaskFilter) : MaskFilter := {|
  mp_input := mp_input p; mp_emitted := mp_emitted p; mp_pieces := mp_pieces p; mp_outputDone := mp_outputDone p;
  mp_exited := mp_exited p; mp_inputClosed := true; mp_finishing := mp_finishing p;
  mp_stopped := true; mp_failure := mp_failure p |}.

Definition on_filter (f : MaskFilter → MaskFilter) (fd : StreamFd) (x : Execution) : Execution :=
  match ex_pipelines x fd with
  | Some (MaskFilterPipeline p) => set_pipeline fd (MaskFilterPipeline (f p)) x
  | Some IdentityPipeline | None => x
  end.

(** ** The function *)

(** The `finally`. *)
Definition finally (x : Execution) : Execution :=
  let x := match ru_terminalRead (ex_reader x) with NoTerminalRead => x | _ => abort_reader x end in
  close_reader (on_health (λ h, {| hm_started := hm_started h; hm_closed := true; hm_failure := hm_failure h |}) x).

(** `stop` of both pipelines. *)
Definition stop_all (error : string) (x : Execution) : Execution :=
  go_to (AtStop error) (on_filter stopping Fd2 (on_filter stopping Fd1 x)).

(** The `catch`. *)
Definition fails (error : string) (x : Execution) : Execution :=
  let g := ex_main x in
  if pg_startSent g && pg_commandMayExist g && bool_decide (pg_state g = StRunning) then
    go_to (AtKill error) (send Main (GrKill (go_requestId options) "SIGTERM") x)
  else stop_all error x.

(** `drain`, once the chain is empty. *)
Definition check_drain (x : Execution) : Execution :=
  match phase x, mw_queue (ex_writer x) with
  | AtDrain exitCode, [] =>
      match mw_failure (ex_writer x) with
      | Some error => fails error x
      | None => go_to (AtResult exitCode) (send Main (GrResult (go_requestId options) exitCode) x)
      end
  | _, _ => x
  end.

(** How `finish` of a pipeline has settled. *)
Definition finished (x : Execution) (fd : StreamFd) : option (Z + string) :=
  match ex_pipelines x fd with
  | None => Some (inr ("missing mask pipeline for fd " +:+ Z_to_string (fd_number fd)))
  | Some IdentityPipeline => Some (inl 0%Z)
  | Some (MaskFilterPipeline p) =>
      match mp_exited p, mp_outputDone p with
      | Some exitCode, true => Some (match mp_failure p with Some error => inr error | None => inl exitCode end)
      | _, _ => None
      end
  end.

(** The end of the wait for both pipelines: an error, a read that has ended, a
    cancellation, or both exit codes. *)
Definition check_finish (x : Execution) : Execution :=
  match phase x with
  | AtFinish exitCode =>
      match ex_cancelled x, ru_terminalRead (ex_reader x) with
      | Some reason, _ => fails reason x
      | None, TerminalEnded error => fails error x
      | None, _ =>
          match finished x Fd1, finished x Fd2 with
          | Some (inr error), _ | _, Some (inr error) => fails error x
          | Some (inl code1), Some (inl code2) =>
              match List.filter (λ code, negb (code =? 0)%Z) [code1; code2] with
              | failed :: _ =>
                  fails ("nas-mask-filter exited with code " +:+ Z_to_string failed +:+ "; output may be incomplete") x
              | [] => check_drain (go_to (AtDrain exitCode) x)
              end
          | _, _ => x
          end
      end
  | _ => x
  end.

(** The end of the wait for `onProcessExit`; [hook] is its outcome. *)
Definition check_exit_hook (hook : option (option string)) (x : Execution) : Execution :=
  match phase x with
  | AtExitHook exitCode =>
      match ex_cancelled x, ru_terminalRead (ex_reader x) with
      | Some reason, _ => fails reason x
      | None, TerminalEnded error => fails error x
      | None, _ =>
          match hook with
          | Some (Some error) => fails error x
          | Some None => check_finish (go_to (AtFinish exitCode) (on_filter finishing Fd2 (on_filter finishing Fd1 x)))
          | None => x
          end
      end
  | _ => x
  end.

(** `pipeline.write` *)
Definition write_pipeline (fd : StreamFd) (data : string) (x : Execution) : Execution :=
  match ex_pipelines x fd with
  | None => fails ("missing mask pipeline for fd " +:+ Z_to_string (fd_number fd)) x
  | Some IdentityPipeline => go_to (AtWrite fd data) (send Main (masked_chunk fd data) x)
  | Some (MaskFilterPipeline p) =>
      match mp_failure p with
      | Some error => fails error x
      | None => go_to (AtWrite fd data) (set_pipeline fd (MaskFilterPipeline (with_input p (mp_input p +:+ data) (mp_inputClosed p))) x)
      end
  end.

(** The `switch` over a message of this request. *)
Definition handle_message (m : GatewayToBrokerMessage) (x : Execution) : Execution :=
  match m with
  | GmExecute _ => fails "gateway sent execute after start" x
  | GmSpawned _ _ =>
      if pg_spawned (ex_main x) then fails "gateway sent duplicate spawned message" x
      else go_to AtSpawned (set_spawned x)
  | GmRawChunk _ fd data =>
      if negb (pg_spawned (ex_main x)) then fails "gateway sent raw output before spawned" x
      else match stream_fd fd with
           | Some fd => write_pipeline fd (decode data) x
           | None => fails ("missing mask pipeline for fd " +:+ Z_to_string fd) x
           end
  | GmProcessExit _ exitCode =>
      if negb (pg_spawned (ex_main x)) then fails "gateway exited before spawned" x
      else check_exit_hook None
             (go_to (AtExitHook exitCode) (set_terminalRead TerminalReading (set_state StAwaitingResult x)))
  | GmCancelled _ reason => fails ("gateway cancelled request: " +:+ reason) x
  | GmTransportError _ message => fails ("gateway transport error: " +:+ message) x
  end.

Definition message_request (m : GatewayToBrokerMessage) : option string :=
  match m with
  | GmExecute _ => None
  | GmSpawned requestId _ | GmRawChunk requestId _ _ | GmProcessExit requestId _
  | GmCancelled requestId _ | GmTransportError requestId _ => Some requestId
  end.

(** What `reader.read()` gave to the loop. *)
Definition handle_read (d : Delivery) (x : Execution) : Execution :=
  let failed error := fails (default error (hm_failure (ex_health x))) x in
  match d with
  | Rejected error => failed (default "null" error)
  | Resolved line =>
      match hm_failure (ex_health x), line with
      | Some error, _ => fails error x
      | None, None => fails "gateway disconnected before terminal state" x
      | None, Some line =>
          match parseGatewayToBrokerLine line (pg_state (ex_main x)) with
          | Err error => fails ("invalid gateway message: " +:+ error) x
          | Ok data =>
              match as_gateway_message data with
              | None => fails "invalid gateway message" x
              | Some m =>
                  match message_request m with
                  | Some requestId =>
                      if String.eqb requestId (go_requestId options) then handle_message m (hear m x)
                      else fails ("gateway request ID mismatch: expected " +:+ go_requestId options +:+
                                  ", got " +:+ requestId) x
                  | None => handle_message m x
                  end
              end
          end
      end
  end.

(** What the read after `process_exit` gave. *)
Definition terminal_read (d : Delivery) : string :=
  match d with
  | Resolved None => "gateway disconnected before terminal result"
  | Resolved (Some _) => "gateway sent message after process_exit"
  | Rejected error => default "null" error
  end.

(** After `onSpawned`: the two pipelines, the second only if the first was made, then
    the monitor.  [spawns] is how the two filters were spawned. *)
Definition new_pipeline : OutputPipeline :=
  if go_maskFilter options then MaskFilterPipeline new_filter else IdentityPipeline.

Definition make_pipelines (spawns : option string * option string) (x : Execution) : Execution :=
  match go_maskFilter options, spawns with
  | true, (Some error, _) => fails error x
  | true, (None, Some error) => fails error (set_pipeline Fd1 new_pipeline x)
  | _, _ =>
      go_to AtRead
        (on_health (λ h, {| hm_started := true; hm_closed := hm_closed h; hm_failure := hm_failure h |})
           (set_pipeline Fd2 new_pipeline (set_pipeline Fd1 new_pipeline x)))
  end.

(** ** The pumps *)

(** `chunk.subarray(offset, offset + maxChunkBytes)` for every offset. *)
Fixpoint pieces_of (fuel : nat) (chunk : string) : list string :=
  match fuel, chunk with
  | O, _ | _, EmptyString => []
  | S fuel, _ =>
      let size := Z.to_nat maxChunkBytes in take_str size chunk :: pieces_of fuel (drop_str size chunk)
  end.

(** The filter has printed a chunk, and the pump waits for one. *)
Definition pump_chunk (fd : StreamFd) (chunk : string) (x : Execution) : Execution :=
  match ex_pipelines x fd with
  | Some (MaskFilterPipeline p) =>
      if mp_outputDone p then x
      else match mp_pieces p, pieces_of (slen chunk) chunk with
           | [], piece :: pieces =>
               send (Pump fd) (masked_chunk fd piece)
                 (set_pipeline fd (MaskFilterPipeline (with_pieces p (piece :: pieces) (mp_emitted p +:+ chunk) false)) x)
           | _, _ => x
           end
  | Some IdentityPipeline | None => x
  end.

(** A send of the pump has settled. *)
Definition pump_sent (fd : StreamFd) (outcome : option string) (x : Execution) : Execution :=
  match ex_pipelines x fd with
  | Some (MaskFilterPipeline p) =>
      match outcome, mp_pieces p with
      | Some error, _ => check_finish (reportFailure fd (with_pieces p [] (mp_emitted p) true) error x)
      | None, _ :: piece :: pieces =>
          send (Pump fd) (masked_chunk fd piece)
            (set_pipeline fd (MaskFilterPipeline (with_pieces p (piece :: pieces) (mp_emitted p) false)) x)
      | None, _ => set_pipeline fd (MaskFilterPipeline (with_pieces p [] (mp_emitted p) false)) x
      end
  | Some IdentityPipeline | None => x
  end.

(** The output of the filter ends, while the pump waits for a chunk. *)
Definition pump_ends (fd : StreamFd) (outcome : option string) (x : Execution) : Execution :=
  match ex_pipelines x fd with
  | Some (MaskFilterPipeline p) =>
      if mp_outputDone p then x
      else match mp_pieces p with
           | [] =>
               let p := with_pieces p [] (mp_emitted p) true in
               check_finish match outcome with
                            | Some error => reportFailure fd p error x
                            | None => set_pipeline fd (MaskFilterPipeline p) x
                            end
           | _ => x
           end
  | Some IdentityPipeline | None => x
  end.

(** `closeInput` of `finish` is rejected; that it is fulfilled is no event, since a
    filter whose input is open neither ends its output nor exits by itself. *)
Definition input_ends (fd : StreamFd) (error : string) (x : Execution) : Execution :=
  match phase x, ex_pipelines x fd with
  | AtFinish _, Some (MaskFilterPipeline p) => if mp_finishing p then fails error x else x
  | _, _ => x
  end.

Definition filter_exits (fd : StreamFd) (exitCode : Z) (x : Execution) : Execution :=
  match ex_pipelines x fd with
  | Some (MaskFilterPipeline p) =>
      match mp_exited p with
      | Some _ => x
      | None =>
          let q := with_exit p (Some exitCode) in
          check_finish
            (if mp_finishing p || mp_stopped p then set_pipeline fd (MaskFilterPipeline q) x
             else reportFailure fd q ("nas-mask-filter exited before command completion with code " +:+
                                      Z_to_string exitCode) x)
      end
  | Some IdentityPipeline | None => x
  end.

(** ** Steps *)

Inductive ExecutionEvent : Type :=
  (** the first send of the chain is made; [Some error] when the socket fails *)
  | ExWritten (outcome : option string)
  (** a read settles *)
  | ExRead (d : Delivery)
  (** `onSpawned` or `onProcessExit` settles; how the filters are spawned *)
  | ExHook (outcome : option string) (spawns : option string * option string)
  (** `stdin.write` of a filter settles *)
  | ExInput (outcome : option string)
  (** `stdin.end` of a filter is rejected, when the pipelines are finished *)
  | ExInputEnds (fd : StreamFd) (error : string)
  | ExPrints (fd : StreamFd) (chunk : string)
  | ExOutputEnds (fd : StreamFd) (outcome : option string)
  | ExExits (fd : StreamFd) (exitCode : Z)
  | ExCancel (reason : string)
  (** the `stop` of every pipeline has settled *)
  | ExStopped.

(** Whoever has sent goes on. *)
Definition sent (sender : Sender) (outcome : option string) (x : Execution) : Execution :=
  match sender with
  | Pump fd => pump_sent fd outcome x
  | Main =>
      match phase x, outcome with
      | AtStart, None => go_to AtRead (set_started x)
      | AtWrite _ _, None => go_to AtRead x
      | AtResult _, None => finally (go_to Returned (set_terminal x))
      | AtKill error, _ => stop_all error x
      | (AtStart | AtWrite _ _ | AtResult _), Some error => fails error x
      | _, _ => x
      end
  end.

Definition execution_step (x : Execution) (event : ExecutionEvent) : Execution :=
  match event with
  | ExWritten outcome =>
      match mw_queue (ex_writer x) with
      | [] => x
      | (sender, m) :: rest =>
          let outcome := write_outcome x m outcome in
          check_drain (sent sender outcome (write_done m rest outcome x))
      end
  | ExRead d =>
      match phase x, ru_terminalRead (ex_reader x) with
      | AtRead, NoTerminalRead => handle_read d x
      | _, TerminalReading => check_finish (check_exit_hook None (set_terminalRead (TerminalEnded (terminal_read d)) x))
      | _, _ => x
      end
  | ExHook outcome spawns =>
      match phase x with
      | AtSpawned => match outcome with Some error => fails error x | None => make_pipelines spawns x end
      | AtExitHook _ => check_exit_hook (Some outcome) x
      | _ => x
      end
  | ExInput outcome =>
      match phase x with
      | AtWrite fd _ =>
          match ex_pipelines x fd with
          | Some (MaskFilterPipeline p) =>
              match outcome, mp_failure p with
              | Some error, _ | None, Some error => fails error x
              | None, None => go_to AtRead x
              end
          | Some IdentityPipeline | None => x
          end
      | _ => x
      end
  | ExInputEnds fd error => input_ends fd error x
  | ExPrints fd chunk => pump_chunk fd chunk x
  | ExOutputEnds fd outcome => pump_ends fd outcome x
  | ExExits fd exitCode => filter_exits fd exitCode x
  | ExCancel reason =>
      match ex_cancelled x with
      | Some _ => x
      | None => check_finish (check_exit_hook None (set_cancelled reason x))
      end
  | ExStopped => match phase x with AtStop error => finally (go_to (Threw error) x) | _ => x end
  end.

Definition execution (events : list ExecutionEvent) : Execution :=
  fold_left execution_step events begin_execution.
End Run.
