(* ===== verification/GatewayRunLaws.v ===== *)
(** * What the execution of a command keeps true

    The bytes a stream has received are those its pipeline gave, in order, up to what
    is still on its way; the messages to the gateway are those of one dialogue; and
    where the function waits determines what has been said and heard. *)
From S2P Require Import Prelude JsString Json Base64 HostMatch LineReader GatewayProtocol GatewayRun.

(** ** The bytes of a stream *)

Definition chunk_of (fd : StreamFd) (m : BrokerToGatewayMessage) : string :=
  match m with GrMaskedChunk _ n data => if decide (n = fd_number fd) then decode data else "" | _ => "" end.

Definition raw_chunk_of (fd : StreamFd) (m : GatewayToBrokerMessage) : string :=
  match m with GmRawChunk _ n data => if decide (n = fd_number fd) then decode data else "" | _ => "" end.

Fixpoint concat_str (l : list string) : string :=
  match l with [] => "" | s :: l => s +:+ concat_str l end.

(** What a stream of the gateway has been told, and what the command has written to it
    as the gateway has reported. *)
Definition told (fd : StreamFd) (l : list BrokerToGatewayMessage) : string := concat_str (map (chunk_of fd) l).
Definition raw (fd : StreamFd) (l : list GatewayToBrokerMessage) : string := concat_str (map (raw_chunk_of fd) l).

#[local] Arguments told : simpl never.
#[local] Arguments raw : simpl never.

Lemma concat_str_app l l' : concat_str (l ++ l') = concat_str l +:+ concat_str l'.
Proof. induction l as [|s l IH]; cbn; [done|]. by rewrite IH, sapp_assoc. Qed.

Lemma told_app fd l l' : told fd (l ++ l') = told fd l +:+ told fd l'.
Proof. unfold told. by rewrite map_app, concat_str_app. Qed.

Lemma raw_app fd l l' : raw fd (l ++ l') = raw fd l +:+ raw fd l'.
Proof. unfold raw. by rewrite map_app, concat_str_app. Qed.

(** ** The dialogue *)

Inductive Speech : Type := Silent | Speaking | Killed | Concluded (exitCode : Z).
#[export] Instance Speech_eq_dec : EqDecision Speech.
Proof. solve_decision. Defined.

Section Laws.
Context `{Wire} (options : GatewayExecutionOptions).
Abbreviation masked_chunk := (masked_chunk options).

(** One message after what has been said: the start first, then output, then the exit
    code and nothing else, or a request to kill and output. *)
Definition says (s : Speech) (m : BrokerToGatewayMessage) : option Speech :=
  match s, m with
  | Silent, GrStart _ => Some Speaking
  | Speaking, GrMaskedChunk _ _ _ => Some Speaking
  | Killed, GrMaskedChunk _ _ _ => Some Killed
  | Speaking, GrKill _ _ => Some Killed
  | Speaking, GrResult _ exitCode => Some (Concluded exitCode)
  | _, _ => None
  end.

Definition speech (l : list BrokerToGatewayMessage) : option Speech :=
  foldl (λ s m, s ≫= λ s, says s m) (Some Silent) l.

Lemma speech_app l m : speech (l ++ [m]) = speech l ≫= λ s, says s m.
Proof. unfold speech. by rewrite foldl_app. Qed.

Definition exits (l : list GatewayToBrokerMessage) : list Z :=
  omap (λ m, match m with GmProcessExit _ exitCode => Some exitCode | _ => None end) l.

Definition spawns (l : list GatewayToBrokerMessage) : list Z :=
  omap (λ m, match m with GmSpawned _ pid => Some pid | _ => None end) l.

(** The end of a command that runs has not been reported. *)
Definition unended (l : list GatewayToBrokerMessage) : Prop := exits l = [] ∨ spawns l = [].

Abbreviation written x := (mw_written (ex_writer x)).
Abbreviation queue x := (mw_queue (ex_writer x)).
Abbreviation heard x := (ru_heard (ex_reader x)).

(** ** What holds wherever the function waits *)

(** What a stream's pipeline has given so far. *)
Definition given (x : Execution) (fd : StreamFd) : string :=
  match ex_pipelines x fd with
  | Some IdentityPipeline => raw fd (heard x)
  | Some (MaskFilterPipeline p) => mp_emitted p
  | None => ""
  end.

(** What of it has not been written: [mains] are the sends of the function itself. *)
Definition unsent (x : Execution) (mains : list BrokerToGatewayMessage) (fd : StreamFd) : string :=
  match ex_pipelines x fd with
  | Some IdentityPipeline => told fd mains
  | Some (MaskFilterPipeline p) => concat_str (mp_pieces p)
  | None => ""
  end.

(** The send of a pump. *)
Definition pump_sends (x : Execution) (fd : StreamFd) : list BrokerToGatewayMessage :=
  match ex_pipelines x fd with
  | Some (MaskFilterPipeline p) => match mp_pieces p with piece :: _ => [masked_chunk fd piece] | [] => [] end
  | Some IdentityPipeline | None => []
  end.

Definition sends_of (sender : Sender) (q : list (Sender * BrokerToGatewayMessage)) : list BrokerToGatewayMessage :=
  map snd (List.filter (λ e, bool_decide (e.1 = sender)) q).

#[local] Arguments sends_of : simpl never.
#[local] Arguments GatewayRun.masked_chunk : simpl never.

Record core (x : Execution) (mains : list BrokerToGatewayMessage) : Prop := {
  co_main : sends_of Main (queue x) = mains;
  co_pump : ∀ fd, sends_of (Pump fd) (queue x) = pump_sends x fd;
  co_done : ∀ fd p, ex_pipelines x fd = Some (MaskFilterPipeline p) → mp_outputDone p = true → mp_pieces p = [];
  co_bytes : ∀ fd, ∃ rest, given x fd = told fd (written x) +:+ rest ∧
    (mw_failure (ex_writer x) = None → rest = unsent x mains fd);
  co_kind : ∀ fd p, ex_pipelines x fd = Some p →
    match p with IdentityPipeline => go_maskFilter options = false | MaskFilterPipeline _ => go_maskFilter options = true end;
  co_started : ∀ fd, ex_pipelines x fd ≠ None → speech (written x) ≠ Some Silent;
  co_chunks : ∀ fd m, ex_pipelines x fd ≠ Some IdentityPipeline → In m mains → chunk_of fd m = "";
}.

(** Two pipelines that have given the same. *)
Definition same_pipe (p q : option OutputPipeline) : Prop :=
  match p, q with
  | None, None | Some IdentityPipeline, Some IdentityPipeline => True
  | Some (MaskFilterPipeline p), Some (MaskFilterPipeline q) =>
      mp_pieces q = mp_pieces p ∧ mp_emitted q = mp_emitted p ∧ mp_outputDone q = mp_outputDone p
  | _, _ => False
  end.

Lemma core_ext x y mains :
  ex_writer y = ex_writer x → (∀ fd, same_pipe (ex_pipelines x fd) (ex_pipelines y fd)) →
  (∀ fd, raw fd (heard y) = raw fd (heard x)) → core x mains → core y mains.
Proof.
  intros Hw Hp Hr [H1 H2 H3 H4 H5 H6 H7].
  assert (∀ fd, given y fd = given x fd ∧ unsent y mains fd = unsent x mains fd ∧ pump_sends y fd = pump_sends x fd ∧
    (ex_pipelines y fd ≠ None → ex_pipelines x fd ≠ None)) as Hsame.
  { intros fd. specialize (Hp fd). specialize (Hr fd). unfold given, unsent, pump_sends, same_pipe in *.
    destruct (ex_pipelines x fd) as [[|p]|], (ex_pipelines y fd) as [[|q]|]; try done.
    destruct Hp as (-> & -> & _). by split_and!. }
  split; rewrite ?Hw; try done.
  - intros fd. rewrite H2. symmetry. apply Hsame.
  - intros fd q Hq Hd. specialize (Hp fd). rewrite Hq in Hp. unfold same_pipe in Hp.
    destruct (ex_pipelines x fd) as [[|p]|] eqn:E; try done. destruct Hp as (-> & _ & Hout). rewrite Hout in Hd. by eapply H3.
  - intros fd. destruct (Hsame fd) as (-> & -> & _). apply H4.
  - intros fd q Hq. specialize (Hp fd). rewrite Hq in Hp. destruct (ex_pipelines x fd) as [[|p]|] eqn:E, q; try done; exact (H5 fd _ E).
  - intros fd Hy. apply (H6 fd). by apply Hsame.
  - intros fd m Hy. apply H7. specialize (Hp fd). intros Hx. rewrite Hx in Hp. by destruct (ex_pipelines y fd) as [[|p]|].
Qed.

Lemma same_pipe_refl p : same_pipe p p.
Proof. by destruct p as [[|p]|]. Qed.

Lemma sends_of_app s q s' m :
  sends_of s (q ++ [(s', m)]) = sends_of s q ++ (if decide (s' = s) then [m] else []).
Proof.
  unfold sends_of. rewrite List.filter_app, map_app. cbn. case_decide as Hs; [by rewrite bool_decide_true|by rewrite bool_decide_false].
Qed.

Lemma sends_of_cons s q s' m :
  sends_of s ((s', m) :: q) = (if decide (s' = s) then [m] else []) ++ sends_of s q.
Proof.
  unfold sends_of. cbn. case_decide as Hs; [by rewrite bool_decide_true|by rewrite bool_decide_false].
Qed.

(** The function sends a message without output. *)
Lemma core_send x m :
  core x [] → (∀ fd, chunk_of fd m = "") → core (send Main m x) [m].
Proof.
  intros [H1 H2 H3 H4 H5 H6 H7] Hm. split; cbn; try done.
  - by rewrite sends_of_app, H1.
  - intros fd. by rewrite sends_of_app, H2, app_nil_r.
  - intros fd. destruct (H4 fd) as (rest & Hg & Hr). exists rest. split; [done|]. intros Hf. rewrite (Hr Hf). unfold unsent. cbn.
    destruct (ex_pipelines x fd) as [[|p]|]; [|done..]. unfold told. cbn. by rewrite Hm.
  - intros fd m' _ [<-|[]]. apply Hm.
Qed.

(** A message of the gateway without output, or to filters. *)
Lemma core_hear x m mains :
  core x mains → (∀ fd, ex_pipelines x fd ≠ Some IdentityPipeline ∨ raw_chunk_of fd m = "") → core (hear m x) mains.
Proof.
  intros [H1 H2 H3 H4 H5 H6 H7] Hm. split; cbn; try done. intros fd. destruct (H4 fd) as (rest & Hg & Hr).
  exists rest. split; [|done]. rewrite <- Hg. unfold given. cbn. destruct (ex_pipelines x fd) as [[|p]|] eqn:E; [|done..].
  destruct (Hm fd) as [Hne|He]; [congruence|]. rewrite raw_app. unfold raw at 2. cbn. by rewrite He, !sapp_nil_r.
Qed.

Lemma decode_chunk fd fd' data : chunk_of fd' (masked_chunk fd data) = if decide (fd = fd') then data else "".
Proof.
  unfold GatewayRun.masked_chunk. cbn. rewrite decode_encode. destruct fd, fd'; cbn; done.
Qed.

(** Output without a filter is sent on. *)
Lemma core_pass_on x id fd data :
  core x [] → ex_pipelines x fd = Some IdentityPipeline →
  core (send Main (masked_chunk fd (decode data)) (hear (GmRawChunk id (fd_number fd) data) x))
    [masked_chunk fd (decode data)].
Proof.
  intros [H1 H2 H3 H4 H5 H6 H7] Hfd. split; cbn; try done.
  - by rewrite sends_of_app, H1.
  - intros fd'. by rewrite sends_of_app, H2, app_nil_r.
  - intros fd'. destruct (H4 fd') as (rest & Hg & Hr). unfold given, unsent in Hg, Hr |- *. cbn.
    destruct (ex_pipelines x fd') as [[|p]|]; [|by exists rest..].
    exists (rest +:+ chunk_of fd' (masked_chunk fd (decode data))). split.
    + rewrite raw_app, Hg, sapp_assoc. f_equal. f_equal. rewrite decode_chunk. unfold raw. cbn. rewrite sapp_nil_r.
      destruct fd, fd'; done.
    + intros Hf. rewrite (Hr Hf). unfold told. cbn -[chunk_of]. by rewrite sapp_nil_r.
  - intros fd' m Hne [<-|[]]. rewrite decode_chunk. case_decide; [by subst|done].
Qed.

(** A message of the function leaves the chain. *)
Lemma core_write_main x m mains rest outcome s :
  core x mains → queue x = (Main, m) :: rest → speech (written x) = Some s →
  (outcome = None → mw_failure (ex_writer x) = None ∧ is_Some (says s m)) →
  (mw_failure (ex_writer x) ≠ None → outcome ≠ None) →
  ∃ mains', mains = m :: mains' ∧ core (write_done m rest outcome x) mains'.
Proof.
  intros [H1 H2 H3 H4 H5 H6 H7] Hq Hs Hsay Hstuck. rewrite Hq in H1, H2. rewrite sends_of_cons, decide_True in H1 by done.
  cbn [app] in H1. exists (sends_of Main rest). split; [done|]. split; cbn; try done.
  - intros fd. destruct (H4 fd) as (r & Hg & Hr). destruct outcome as [e|].
    + exists r. by split.
    + destruct (Hsay eq_refl) as [Hf _]. specialize (Hr Hf). change (given _ fd) with (given x fd).
      exists (unsent x (sends_of Main rest) fd). split; [|done]. rewrite Hg, Hr, told_app, sapp_assoc. f_equal.
      unfold unsent. unfold told at 2. cbn. rewrite sapp_nil_r. destruct (ex_pipelines x fd) as [[|p]|] eqn:E.
      * rewrite <- H1. unfold told. done.
      * rewrite H7; [done|by rewrite E|]. rewrite <- H1. by left.
      * rewrite H7; [done|by rewrite E|]. rewrite <- H1. by left.
  - intros fd Hp. specialize (H6 fd Hp). destruct outcome; [done|]. rewrite speech_app, Hs. cbn.
    destruct (Hsay eq_refl) as [_ [s' Hs']]. rewrite Hs'. intros [= ->]. by destruct s, m.
  - intros fd m' Hne Hin. apply (H7 fd); [done|]. rewrite <- H1. by right.
Qed.
(** *** The pumps *)

(** A filter's entry is replaced, and its pump sends what it should. *)
Lemma core_filter x fd p q sends queued mains :
  core x mains → ex_pipelines x fd = Some (MaskFilterPipeline p) →
  sends = match mp_pieces q with piece :: _ => [masked_chunk fd piece] | [] => [] end →
  (∀ sender, sends_of sender queued = if decide (sender = Pump fd) then sends else sends_of sender (queue x)) →
  (mp_outputDone q = true → mp_pieces q = []) →
  ∀ written' failure',
  (speech written' ≠ Some Silent) →
  (∀ fd', fd' ≠ fd → told fd' written' = told fd' (written x)) →
  (failure' = None → mw_failure (ex_writer x) = None) →
  (∃ rest, mp_emitted q = told fd written' +:+ rest ∧ (failure' = None → rest = concat_str (mp_pieces q))) →
  core (set_pipeline fd (MaskFilterPipeline q)
          (on_writer (λ _, {| mw_queue := queued; mw_failure := failure'; mw_written := written' |}) x)) mains.
Proof.
  intros [H1 H2 H3 H4 H5 H6 H7] Hfd Hsends Hq Hdone written' failure' Hsp Htold Hfail Hbytes.
  split; cbn.
  - by rewrite Hq, decide_False.
  - intros fd'. rewrite Hq. unfold pump_sends. cbn. destruct (decide (fd' = fd)) as [->|Hne].
    + rewrite decide_True by done. exact Hsends.
    + rewrite decide_False by congruence. apply H2.
  - intros fd' r. case_decide; [by intros [= <-]|apply H3].
  - intros fd'. unfold given, unsent. cbn. destruct (decide (fd' = fd)) as [->|Hne]; [exact Hbytes|].
    destruct (H4 fd') as (rest & Hg & Hr). exists rest. rewrite Htold by done. split; [exact Hg|]. intros Hf. by apply Hr, Hfail.
  - intros fd' r. case_decide as E; [|apply H5]. intros [= <-]. subst. exact (H5 fd _ Hfd).
  - intros fd' _. exact Hsp.
  - intros fd' m Hne. apply H7. revert Hne. case_decide as E; [|done]. subst. by rewrite Hfd.
Qed.

Lemma pieces_concat fuel : ∀ chunk, (slen chunk ≤ fuel)%nat → concat_str (pieces_of fuel chunk) = chunk.
Proof.
  induction fuel as [|fuel IH]; intros chunk Hl; [destruct chunk; [done|cbn in Hl; lia]|].
  destruct chunk as [|c chunk]; [done|]. change (pieces_of (S fuel) (String c chunk)) with
    (take_str (Z.to_nat maxChunkBytes) (String c chunk) :: pieces_of fuel (drop_str (Z.to_nat maxChunkBytes) (String c chunk))).
  remember (Z.to_nat maxChunkBytes) as size eqn:Es. cbn [concat_str]. rewrite IH; [apply take_drop_str|].
  rewrite slen_drop_str. assert (1 ≤ size)%nat by (rewrite Es; unfold maxChunkBytes; lia). cbn in *. lia.
Qed.

Lemma core_pump_chunk x fd chunk mains : core x mains → core (pump_chunk options fd chunk x) mains.
Proof.
  intros Hc. unfold pump_chunk. destruct (ex_pipelines x fd) as [[|p]|] eqn:Efd; [done| |done].
  destruct (mp_outputDone p) eqn:Ed; [done|]. destruct (mp_pieces p) as [|? ?] eqn:Ep; [|done].
  destruct (pieces_of (slen chunk) chunk) as [|piece pieces] eqn:Ec; [done|].
  eapply (core_filter x fd p (with_pieces p (piece :: pieces) (mp_emitted p +:+ chunk) false) [masked_chunk fd piece]
    (queue x ++ [(Pump fd, masked_chunk fd piece)]) mains Hc Efd eq_refl _ _ (written x) (mw_failure (ex_writer x))).
  - by apply (co_started _ _ Hc fd); rewrite Efd.
  - done.
  - done.
  - destruct (co_bytes _ _ Hc fd) as (rest & Hg & Hr). unfold given in Hg. unfold unsent in Hr. rewrite Efd in Hg, Hr.
    cbn [with_pieces mp_emitted mp_pieces]. exists (rest +:+ chunk). split; [by rewrite Hg, sapp_assoc|].
    intros Hf. rewrite (Hr Hf), Ep, <- Ec, pieces_concat; done.
  Unshelve.
  + intros sender. rewrite sends_of_app. destruct (decide (sender = Pump fd)) as [->|Hne].
    * rewrite decide_True by done. rewrite (co_pump _ _ Hc). unfold pump_sends. by rewrite Efd, Ep.
    * rewrite decide_False by congruence. apply app_nil_r.
  + done.
Qed.
(** The piece a pump has handed to the writer. *)
Lemma pump_head x fd m rest mains :
  core x mains → queue x = (Pump fd, m) :: rest →
  ∃ p piece pieces, ex_pipelines x fd = Some (MaskFilterPipeline p) ∧ mp_pieces p = piece :: pieces ∧
    m = masked_chunk fd piece ∧ mp_outputDone p = false ∧
    ∀ sender, sends_of sender rest = if decide (sender = Pump fd) then [] else sends_of sender (queue x).
Proof.
  intros Hc Hq. pose proof (co_pump _ _ Hc fd) as Hp. rewrite Hq, sends_of_cons, decide_True in Hp by done.
  unfold pump_sends in Hp. destruct (ex_pipelines x fd) as [[|p]|] eqn:Efd; try done.
  destruct (mp_pieces p) as [|piece pieces] eqn:Ep; [done|]. injection Hp as -> Hrest.
  exists p, piece, pieces. split_and!; try done.
  - destruct (mp_outputDone p) eqn:Ed; [|done]. rewrite (co_done _ _ Hc fd p Efd Ed) in Ep. done.
  - intros sender. rewrite Hq, sends_of_cons. case_decide as E1; [by subst|]. by rewrite decide_False by congruence.
Qed.

Lemma told_masked fd fd' piece l :
  told fd' (l ++ [masked_chunk fd piece]) = told fd' l +:+ (if decide (fd = fd') then piece else "").
Proof. rewrite told_app. f_equal. unfold told. cbn [map concat_str]. by rewrite decode_chunk, sapp_nil_r. Qed.

(** A piece has been written. *)
Lemma core_pump_sent x fd m rest mains s :
  core x mains → queue x = (Pump fd, m) :: rest → speech (written x) = Some s → is_Some (says s m) →
  mw_failure (ex_writer x) = None →
  core (pump_sent options fd None (write_done m rest None x)) mains.
Proof.
  intros Hc Hq Hs [s' Hs'] Hf. destruct (pump_head x fd m rest mains Hc Hq) as (p & piece & pieces & Efd & Ep & -> & Ed & Hrest).
  destruct (co_bytes _ _ Hc fd) as (r & Hg & Hr). unfold given in Hg. unfold unsent in Hr. rewrite Efd in Hg, Hr.
  specialize (Hr Hf). rewrite Ep in Hr. cbn [concat_str] in Hr.
  unfold pump_sent. cbn [ex_pipelines write_done on_writer]. rewrite Efd, Ep.
  assert (speech (written x ++ [masked_chunk fd piece]) ≠ Some Silent) as Hsp.
  { rewrite speech_app, Hs. cbn [mbind option_bind]. rewrite Hs'. intros [= ->]. by destruct s. }
  assert (∀ fd', fd' ≠ fd → told fd' (written x ++ [masked_chunk fd piece]) = told fd' (written x)) as Htold.
  { intros fd' Hne. rewrite told_masked, decide_False by congruence. apply sapp_nil_r. }
  assert (mp_emitted p = told fd (written x ++ [masked_chunk fd piece]) +:+ concat_str pieces) as Hbytes.
  { by rewrite told_masked, decide_True, Hg, Hr, sapp_assoc. }
  destruct pieces as [|next pieces].
  - eapply (core_filter x fd p (with_pieces p [] (mp_emitted p) false) [] rest mains Hc Efd); try done.
    by exists "".
  - eapply (core_filter x fd p (with_pieces p (next :: pieces) (mp_emitted p) false) [masked_chunk fd next]
      (rest ++ [(Pump fd, masked_chunk fd next)]) mains Hc Efd); try done.
    + intros sender. rewrite sends_of_app, Hrest. destruct (decide (sender = Pump fd)) as [->|Hne].
      * by rewrite decide_True.
      * rewrite decide_False by congruence. apply app_nil_r.
    + by exists (concat_str (next :: pieces)).
Qed.

(** A send of a pump has failed: its remaining pieces are lost. *)
Lemma core_pump_lost x fd m rest mains error :
  core x mains → queue x = (Pump fd, m) :: rest →
  ∃ p, ex_pipelines x fd = Some (MaskFilterPipeline p) ∧
    core (set_pipeline fd (MaskFilterPipeline (with_pieces p [] (mp_emitted p) true)) (write_done m rest (Some error) x)) mains.
Proof.
  intros Hc Hq. destruct (pump_head x fd m rest mains Hc Hq) as (p & piece & pieces & Efd & Ep & -> & Ed & Hrest).
  exists p. split; [done|].
  eapply (core_filter x fd p (with_pieces p [] (mp_emitted p) true) [] rest mains Hc Efd); try done.
  - by apply (co_started _ _ Hc fd); rewrite Efd.
  - destruct (co_bytes _ _ Hc fd) as (r & Hg & Hr). unfold given in Hg. rewrite Efd in Hg. by exists r.
Qed.

(** The output of a filter ends. *)
Lemma core_ends x fd p mains :
  core x mains → ex_pipelines x fd = Some (MaskFilterPipeline p) → mp_pieces p = [] →
  core (set_pipeline fd (MaskFilterPipeline (with_pieces p [] (mp_emitted p) true)) x) mains.
Proof.
  intros Hc Efd Ep.
  assert (core (set_pipeline fd (MaskFilterPipeline (with_pieces p [] (mp_emitted p) true))
    (on_writer (λ _, {| mw_queue := queue x; mw_failure := mw_failure (ex_writer x); mw_written := written x |}) x)) mains) as Hcore.
  { eapply (core_filter x fd p (with_pieces p [] (mp_emitted p) true) [] (queue x) mains Hc Efd); try done.
    - intros sender. case_decide as E; [|done]. subst. rewrite (co_pump _ _ Hc). unfold pump_sends. by rewrite Efd, Ep.
    - by apply (co_started _ _ Hc fd); rewrite Efd.
    - destruct (co_bytes _ _ Hc fd) as (r & Hg & Hr). unfold given in Hg. unfold unsent in Hr. rewrite Efd in Hg, Hr.
      exists r. split; [done|]. intros Hf. rewrite (Hr Hf), Ep. done. }
  unfold on_writer in Hcore. unfold set_pipeline in *. destruct x as [? [] ? ? ? ?]. exact Hcore.
Qed.
(** ** Where the function is *)

(** The sends the function waits for. *)
Definition mains (x : Execution) : list BrokerToGatewayMessage :=
  match phase x with
  | AtStart => [GrStart (go_start options)]
  | AtWrite fd data =>
      match ex_pipelines x fd with Some IdentityPipeline => [masked_chunk fd data] | _ => [] end
  | AtResult exitCode => [GrResult (go_requestId options) exitCode]
  | AtKill _ => [GrKill (go_requestId options) "SIGTERM"]
  | _ => []
  end.

(** What the command wrote has been given to the filters. *)
Definition inputs_ok (x : Execution) : Prop :=
  ∀ fd p, ex_pipelines x fd = Some (MaskFilterPipeline p) → mp_input p = raw fd (heard x).

Definition piped (x : Execution) (spawned : bool) : Prop :=
  ∀ fd, if spawned then ex_pipelines x fd ≠ None else ex_pipelines x fd = None ∧ raw fd (heard x) = "".

Definition going (x : Execution) : Prop :=
  speech (written x) = Some Speaking ∧ pg_state (ex_main x) = StRunning ∧ pg_startSent (ex_main x) = true ∧
  exits (heard x) = [] ∧ inputs_ok x ∧ (pg_spawned (ex_main x) = false → spawns (heard x) = []).

Definition ending (x : Execution) (exitCode : Z) : Prop :=
  speech (written x) = Some Speaking ∧ pg_state (ex_main x) = StAwaitingResult ∧ exits (heard x) = [exitCode] ∧
  inputs_ok x ∧ piped x true.

Definition all_finished (x : Execution) : Prop := ∀ fd, finished x fd = Some (inl 0%Z).

(** It may still fail: nothing has been concluded, and who asked to kill had not
    heard of the end of the command. *)
Definition stoppable (x : Execution) : Prop :=
  ∃ s, speech (written x) = Some s ∧ (∀ exitCode, s ≠ Concluded exitCode) ∧ (s = Killed → unended (heard x)).

Definition filters_stopped (x : Execution) : Prop :=
  ∀ fd p, ex_pipelines x fd = Some (MaskFilterPipeline p) → mp_stopped p = true.

Definition table (x : Execution) : Prop :=
  match phase x with
  | AtStart =>
      speech (written x) = Some Silent ∧ piped x false ∧ exits (heard x) = [] ∧ spawns (heard x) = [] ∧
      pg_startSent (ex_main x) = false ∧ pg_spawned (ex_main x) = false
  | AtRead => going x ∧ piped x (pg_spawned (ex_main x))
  | AtSpawned => going x ∧ piped x false ∧ pg_spawned (ex_main x) = true
  | AtWrite _ _ => going x ∧ piped x true ∧ pg_spawned (ex_main x) = true
  | AtExitHook exitCode | AtFinish exitCode => ending x exitCode
  | AtDrain exitCode | AtResult exitCode => ending x exitCode ∧ all_finished x
  | AtKill _ => speech (written x) = Some Speaking ∧ unended (heard x)
  | AtStop _ | Threw _ => stoppable x ∧ filters_stopped x
  | Returned => mw_failure (ex_writer x) = None ∧ ∃ exitCode, speech (written x) = Some (Concluded exitCode) ∧ exits (heard x) = [exitCode] ∧
      inputs_ok x ∧ piped x true ∧ all_finished x
  end.

Record inv (x : Execution) : Prop := {
  in_core : core x (mains x);
  in_table : table x;
}.

(** The pipelines of [y] are there as those of [x] are, with the same input, and stopped
    like them. *)
Definition same_input (p q : option OutputPipeline) : Prop :=
  match p, q with
  | None, None | Some IdentityPipeline, Some IdentityPipeline => True
  | Some (MaskFilterPipeline p), Some (MaskFilterPipeline q) => mp_input q = mp_input p ∧ mp_stopped q = mp_stopped p
  | _, _ => False
  end.

Lemma same_input_refl p : same_input p p.
Proof. by destruct p as [[|p]|]. Qed.

Lemma table_ext x y :
  ex_main y = ex_main x → speech (written y) = speech (written x) → heard y = heard x →
  (∀ fd, same_input (ex_pipelines x fd) (ex_pipelines y fd)) →
  (all_finished x → all_finished y) →
  (phase x = Returned → mw_failure (ex_writer y) = mw_failure (ex_writer x)) → table x → table y.
Proof.
  intros Hm Hs Hh Hp Hf Hw Ht.
  assert (inputs_ok x → inputs_ok y) as Hi.
  { intros Hi fd q Hq. specialize (Hp fd). rewrite Hq in Hp. rewrite Hh.
    destruct (ex_pipelines x fd) as [[|p]|] eqn:E; try done. destruct Hp as [-> _]. by apply Hi. }
  assert (filters_stopped x → filters_stopped y) as Hstop.
  { intros Hx fd q Hq. specialize (Hp fd). rewrite Hq in Hp.
    destruct (ex_pipelines x fd) as [[|p]|] eqn:E; try done. destruct Hp as [_ ->]. by eapply Hx. }
  assert (∀ b, piped x b → piped y b) as Hpiped.
  { intros b Hx fd. specialize (Hx fd). specialize (Hp fd). rewrite Hh.
    destruct b, (ex_pipelines x fd) as [[|p]|], (ex_pipelines y fd) as [[|q]|]; try done; naive_solver. }
  assert (going x → going y) as Hg.
  { intros (G1 & G2 & G3 & G4 & G5 & G6). unfold going. rewrite Hs, Hm, Hh. split_and!; auto. }
  assert (∀ c, ending x c → ending y c) as He.
  { intros c (G1 & G2 & G3 & G4 & G5). unfold ending. rewrite Hs, Hm, Hh. split_and!; auto. }
  unfold table, phase, stoppable in *. rewrite Hm, Hs, Hh.
  destruct (pg_phase (ex_main x)); try naive_solver.
  destruct Ht as (? & c & ? & ? & ? & ? & ?). rewrite Hw by done. split; [done|]. exists c. split_and!; auto.
Qed.

Lemma mains_ext x y :
  ex_main y = ex_main x → (∀ fd, same_input (ex_pipelines x fd) (ex_pipelines y fd)) → mains y = mains x.
Proof.
  intros Hm Hp. unfold mains, phase. rewrite Hm. destruct (pg_phase (ex_main x)) as [| | |fd data| | | | | | | |]; try done.
  specialize (Hp fd). by destruct (ex_pipelines x fd) as [[|p]|], (ex_pipelines y fd) as [[|q]|].
Qed.

(** *** Failing *)

Lemma on_filter_pipelines f fd x fd' :
  ex_pipelines (on_filter f fd x) fd' =
    match ex_pipelines x fd' with
    | Some (MaskFilterPipeline p) => Some (MaskFilterPipeline (if decide (fd' = fd) then f p else p))
    | o => o
    end.
Proof.
  unfold on_filter. destruct (ex_pipelines x fd) as [[|p]|] eqn:E; cbn; case_decide as Ef; subst; rewrite ?E; try done;
    by destruct (ex_pipelines x fd') as [[|]|].
Qed.

Lemma on_filters_stopped x fd q :
  ex_pipelines (on_filter stopping Fd2 (on_filter stopping Fd1 x)) fd = Some (MaskFilterPipeline q) → mp_stopped q = true.
Proof.
  rewrite !on_filter_pipelines. destruct (ex_pipelines x fd) as [[|p]|]; try done. intros [= <-]. by destruct fd.
Qed.

Lemma stop_all_inv x error : core x [] → stoppable x → inv (stop_all error x).
Proof.
  intros Hc Hs. unfold stop_all.
  assert (∀ fd y, core y [] → stoppable y → core (on_filter stopping fd y) [] ∧ stoppable (on_filter stopping fd y)) as Hstop.
  { intros fd y Hy Hsy. unfold on_filter. destruct (ex_pipelines y fd) as [[|p]|] eqn:E; [done| |done]. split; [|done].
    apply (core_ext y); try done. intros fd'. cbn. case_decide as Ef; [subst; by rewrite E|apply same_pipe_refl]. }
  destruct (Hstop Fd1 x Hc Hs) as [Hc1 Hs1]. destruct (Hstop Fd2 _ Hc1 Hs1) as [Hc2 Hs2].
  split; [|split; [exact Hs2|]]; [|intros fd q; exact (on_filters_stopped x fd q)]. apply (core_ext (on_filter stopping Fd2 (on_filter stopping Fd1 x))); try done. intros fd. apply same_pipe_refl.
Qed.

Definition failing (x : Execution) : Prop :=
  stoppable x ∧
  (pg_startSent (ex_main x) = true → pg_state (ex_main x) = StRunning →
   speech (written x) = Some Speaking ∧ unended (heard x)).

Lemma fails_inv x error : core x [] → failing x → inv (fails options error x).
Proof.
  intros Hc [Hs Hk]. unfold fails. destruct (pg_startSent (ex_main x)) eqn:E1; [|by apply stop_all_inv].
  destruct (pg_commandMayExist (ex_main x)); [|by apply stop_all_inv].
  destruct (decide (pg_state (ex_main x) = StRunning)) as [E3|E3].
  - rewrite bool_decide_true by done. cbn [andb]. destruct (Hk eq_refl E3) as [Hsp Hex].
    split; [|done]. apply (core_ext (send Main (GrKill (go_requestId options) "SIGTERM") x)); try done.
    + intros fd. apply same_pipe_refl.
    + by apply core_send.
  - rewrite bool_decide_false by done. by apply stop_all_inv.
Qed.

Lemma going_failing x : going x → failing x.
Proof. intros (G1 & G2 & G3 & G4 & _). split; [by exists Speaking|]. intros _ _. split; [done|]. by left. Qed.

Lemma ending_failing x exitCode : ending x exitCode → failing x.
Proof. intros (G1 & G2 & G3 & G4 & G5). split; [by exists Speaking|]. intros _. congruence. Qed.

(** Moving on with nothing sent. *)
Lemma go_to_inv x p :
  core x [] → table (go_to p x) → mains (go_to p x) = [] → inv (go_to p x).
Proof.
  intros Hc Ht Hm. split; [|done]. rewrite Hm. apply (core_ext x); try done. intros fd. apply same_pipe_refl.
Qed.
(** *** Waiting for the end *)

Lemma check_drain_inv x : inv x → inv (check_drain options x).
Proof.
  intros [Hc Ht]. unfold check_drain. destruct (phase x) as [| | | | | |c| | | | |] eqn:Ep; try by split.
  destruct (queue x) eqn:Eq; [|by split]. unfold mains in Hc. rewrite Ep in Hc. unfold table in Ht. rewrite Ep in Ht.
  destruct Ht as [He Hf]. destruct (mw_failure (ex_writer x)); [by eapply fails_inv, ending_failing|].
  split; [|done]. apply (core_ext (send Main (GrResult (go_requestId options) c) x)); try done.
  - intros fd. apply same_pipe_refl.
  - by apply core_send.
Qed.

Lemma finished_codes x code1 code2 :
  finished x Fd1 = Some (inl code1) → finished x Fd2 = Some (inl code2) →
  List.filter (λ code, negb (code =? 0)%Z) [code1; code2] = [] → all_finished x.
Proof.
  intros H1 H2. cbn. destruct (Z.eqb_spec code1 0); [|done]. destruct (Z.eqb_spec code2 0); [|done].
  subst. intros _ fd. by destruct fd.
Qed.

Lemma check_finish_inv x : inv x → inv (check_finish options x).
Proof.
  intros Hi. pose proof Hi as [Hc Ht]. unfold check_finish. destruct (phase x) as [| | | | |c| | | | | |] eqn:Ep; try done.
  unfold mains in Hc. rewrite Ep in Hc. unfold table in Ht. rewrite Ep in Ht.
  assert (∀ error, inv (fails options error x)) as Hfail by (intros error; by eapply fails_inv, ending_failing).
  destruct (ex_cancelled x); [done|]. destruct (ru_terminalRead (ex_reader x)); [| |done].
  1, 2: destruct (finished x Fd1) as [[code1|e1]|] eqn:E1; [|done|destruct (finished x Fd2) as [[]|]; done];
    destruct (finished x Fd2) as [[code2|e2]|] eqn:E2; [|done|done];
    destruct (List.filter _ _) eqn:Ef; [|done]; apply check_drain_inv, go_to_inv; [done| |done];
    split; [exact Ht|exact (finished_codes x code1 code2 E1 E2 Ef)].
Qed.

Lemma input_ends_inv fd error x : inv x → inv (input_ends options fd error x).
Proof.
  intros Hi. pose proof Hi as [Hc Ht]. unfold input_ends. destruct (phase x) as [| | | | |c| | | | | |] eqn:Ep; try done.
  destruct (ex_pipelines x fd) as [[|p]|]; [done| |done]. destruct (mp_finishing p); [|done].
  unfold mains in Hc. rewrite Ep in Hc. unfold table in Ht. rewrite Ep in Ht. by eapply fails_inv, ending_failing.
Qed.

Lemma finishing_inv x c :
  core x [] → ending x c →
  core (on_filter finishing Fd2 (on_filter finishing Fd1 x)) [] ∧ ending (on_filter finishing Fd2 (on_filter finishing Fd1 x)) c.
Proof.
  assert (∀ fd y, core y [] → ending y c → core (on_filter finishing fd y) [] ∧ ending (on_filter finishing fd y) c) as Hstep.
  { intros fd y Hc He. unfold on_filter. destruct (ex_pipelines y fd) as [[|p]|] eqn:E; [done| |done]. split.
    - apply (core_ext y); try done. intros fd'. cbn. case_decide as Ef; [subst; by rewrite E|apply same_pipe_refl].
    - destruct He as (G1 & G2 & G3 & G4 & G5). split_and!; try done.
      + intros fd' q. cbn. case_decide as Ef; [intros [= <-]; cbn; subst; by apply G4|apply G4].
      + intros fd'. cbn. case_decide; [done|apply G5]. }
  intros Hc He. destruct (Hstep Fd1 x Hc He). by apply Hstep.
Qed.

Lemma check_exit_hook_inv hook x : inv x → inv (check_exit_hook options hook x).
Proof.
  intros Hi. pose proof Hi as [Hc Ht]. unfold check_exit_hook. destruct (phase x) as [| | | |c| | | | | | |] eqn:Ep; try done.
  unfold mains in Hc. rewrite Ep in Hc. unfold table in Ht. rewrite Ep in Ht.
  assert (∀ error, inv (fails options error x)) as Hfail by (intros error; by eapply fails_inv, ending_failing).
  destruct (ex_cancelled x); [done|]. destruct (ru_terminalRead (ex_reader x)); [| |done].
  1, 2: destruct hook as [[error|]|]; [done| |done]; destruct (finishing_inv x c Hc Ht) as [Hc1 He1];
    apply check_finish_inv, go_to_inv; done.
Qed.

(** *** What does not concern the function *)

Lemma inv_ext x y :
  ex_main y = ex_main x → ex_writer y = ex_writer x → heard y = heard x →
  (∀ fd, same_pipe (ex_pipelines x fd) (ex_pipelines y fd)) →
  (∀ fd, same_input (ex_pipelines x fd) (ex_pipelines y fd)) →
  (all_finished x → all_finished y) → inv x → inv y.
Proof.
  intros Hm Hw Hh Hp Hi Hf [Hc Ht]. split.
  - rewrite (mains_ext x y Hm Hi). apply (core_ext x); try done. intros fd. by rewrite Hh.
  - apply (table_ext x); rewrite ?Hw; done.
Qed.

Lemma health_fails_inv error x : inv x → inv (health_fails error x).
Proof.
  intros Hi. unfold health_fails.
  destruct (hm_closed (ex_health x)), (hm_failure (ex_health x)), (hm_started (ex_health x)); try done.
  apply (inv_ext x); try done; intros fd; [apply same_pipe_refl|apply same_input_refl].
Qed.

Lemma same_pipes_set x fd p q :
  ex_pipelines x fd = Some (MaskFilterPipeline p) → same_pipe (Some (MaskFilterPipeline p)) (Some (MaskFilterPipeline q)) →
  ∀ fd', same_pipe (ex_pipelines x fd') (ex_pipelines (set_pipeline fd (MaskFilterPipeline q) x) fd').
Proof. intros Hfd Hs fd'. cbn -[same_pipe]. case_decide as E; [subst; by rewrite Hfd|apply same_pipe_refl]. Qed.

Lemma same_inputs_set x fd p q :
  ex_pipelines x fd = Some (MaskFilterPipeline p) → mp_input q = mp_input p ∧ mp_stopped q = mp_stopped p →
  ∀ fd', same_input (ex_pipelines x fd') (ex_pipelines (set_pipeline fd (MaskFilterPipeline q) x) fd').
Proof. intros Hfd Hs fd'. cbn -[same_input]. case_decide as E; [subst; by rewrite Hfd|apply same_input_refl]. Qed.

(** A step of a pump or of a filter whose `finish` has not settled. *)
Lemma refilter_inv x y fd p q :
  table x → ex_pipelines x fd = Some (MaskFilterPipeline p) →
  mp_input q = mp_input p ∧ mp_stopped q = mp_stopped p → ¬ all_finished x →
  ex_main y = ex_main x → speech (written y) = speech (written x) → heard y = heard x →
  ex_pipelines y = ex_pipelines (set_pipeline fd (MaskFilterPipeline q) x) → core y (mains x) → inv y.
Proof.
  intros Ht Hfd Hin Hf Hm Hs Hh Hp Hc.
  assert (∀ fd', same_input (ex_pipelines x fd') (ex_pipelines y fd')) as Hi.
  { intros fd'. rewrite Hp. by apply (same_inputs_set x fd p). }
  split; [by rewrite (mains_ext x y)|]. apply (table_ext x); try done.
  intros Hph. unfold table in Ht. rewrite Hph in Ht. naive_solver.
Qed.

(** It reports a failure. *)
Lemma report_inv x fd p q error :
  table x → ex_pipelines x fd = Some (MaskFilterPipeline p) →
  mp_input q = mp_input p ∧ mp_stopped q = mp_stopped p → ¬ all_finished x →
  core (set_pipeline fd (MaskFilterPipeline q) x) (mains x) → inv (reportFailure fd q error x).
Proof.
  intros Ht Hfd Hin Hf Hc. unfold reportFailure. destruct (mp_failure q) eqn:Ep; [by eapply refilter_inv|].
  apply health_fails_inv. eapply (refilter_inv x _ fd p (with_failure q (Some error))); try done.
  apply (core_ext (set_pipeline fd (MaskFilterPipeline q) x)); try done.
  intros fd'. cbn -[same_pipe]. case_decide; [done|apply same_pipe_refl].
Qed.

Lemma unfinished x fd p :
  ex_pipelines x fd = Some (MaskFilterPipeline p) → mp_outputDone p = false ∨ mp_exited p = None → ¬ all_finished x.
Proof.
  intros Hfd Hp Hall. specialize (Hall fd). unfold finished in Hall. rewrite Hfd in Hall.
  destruct Hp as [Hp|Hp]; rewrite Hp in Hall; by destruct (mp_exited p).
Qed.

(** *** The filters *)

Lemma pump_chunk_inv fd chunk x : inv x → inv (pump_chunk options fd chunk x).
Proof.
  intros [Hc Ht]. pose proof (core_pump_chunk x fd chunk _ Hc) as Hc'. unfold pump_chunk in *.
  destruct (ex_pipelines x fd) as [[|p]|] eqn:Efd; [done| |done]. destruct (mp_outputDone p) eqn:Ed; [done|].
  destruct (mp_pieces p) eqn:Ep; [|done]. destruct (pieces_of (slen chunk) chunk) as [|piece pieces]; [done|].
  eapply (refilter_inv x _ fd p (with_pieces p (piece :: pieces) (mp_emitted p +:+ chunk) false)); try done.
  eapply unfinished; [done|by left].
Qed.

Lemma pump_ends_inv fd outcome x : inv x → inv (pump_ends options fd outcome x).
Proof.
  intros [Hc Ht]. unfold pump_ends. destruct (ex_pipelines x fd) as [[|p]|] eqn:Efd; [done| |done].
  destruct (mp_outputDone p) eqn:Ed; [done|]. destruct (mp_pieces p) eqn:Ep; [|done].
  pose proof (core_ends x fd p _ Hc Efd Ep) as Hc'.
  assert (¬ all_finished x) as Hf by (eapply unfinished; [done|by left]).
  apply check_finish_inv. destruct outcome as [error|]; [by eapply report_inv|].
  by eapply (refilter_inv x _ fd p (with_pieces p [] (mp_emitted p) true)).
Qed.

Lemma filter_exits_inv fd exitCode x : inv x → inv (filter_exits options fd exitCode x).
Proof.
  intros [Hc Ht]. unfold filter_exits. destruct (ex_pipelines x fd) as [[|p]|] eqn:Efd; [done| |done].
  destruct (mp_exited p) eqn:Ee; [done|].
  assert (¬ all_finished x) as Hf by (eapply unfinished; [done|by right]).
  assert (core (set_pipeline fd (MaskFilterPipeline (with_exit p (Some exitCode))) x) (mains x)) as Hc'.
  { apply (core_ext x); try done. by apply (same_pipes_set x fd p). }
  apply check_finish_inv. destruct (mp_finishing p || mp_stopped p); [|by eapply report_inv].
  by eapply (refilter_inv x _ fd p (with_exit p (Some exitCode))).
Qed.

(** *** The writer *)

Lemma write_outcome_None x m outcome : write_outcome x m outcome = None → mw_failure (ex_writer x) = None.
Proof. unfold write_outcome. by destruct (mw_failure (ex_writer x)). Qed.

Lemma write_outcome_stuck x m outcome : mw_failure (ex_writer x) ≠ None → write_outcome x m outcome ≠ None.
Proof. unfold write_outcome. by destruct (mw_failure (ex_writer x)). Qed.

(** While a pump has something to send, output may be said. *)
Lemma pump_speaks x fd m rest :
  inv x → queue x = (Pump fd, m) :: rest → ∃ s, speech (written x) = Some s ∧ says s m = Some s.
Proof.
  intros [Hc Ht] Hq. destruct (pump_head x fd m rest _ Hc Hq) as (p & piece & pieces & Efd & Ep & -> & Ed & _).
  assert (speech (written x) ≠ Some Silent) as Hs by (apply (co_started _ _ Hc fd); by rewrite Efd).
  assert (¬ all_finished x) as Hf by (eapply unfinished; [done|by left]).
  assert (∃ s, speech (written x) = Some s ∧ ∀ c, s ≠ Concluded c) as (s & Hsp & Hne).
  { unfold table, going, ending, stoppable in Ht.
    destruct (phase x); try (exists Speaking; naive_solver);
      destruct Ht as ((s & ? & ? & _) & _); by exists s. }
  exists s. split; [done|]. rewrite Hsp in Hs. by destruct s; try done; edestruct Hne.
Qed.

Lemma pump_written_inv x fd m rest outcome :
  inv x → queue x = (Pump fd, m) :: rest →
  inv (pump_sent options fd (write_outcome x m outcome) (write_done m rest (write_outcome x m outcome) x)).
Proof.
  intros Hi Hq. pose proof Hi as [Hc Ht]. destruct (pump_speaks x fd m rest Hi Hq) as (s & Hs & Hsay).
  destruct (pump_head x fd m rest _ Hc Hq) as (p & piece & pieces & Efd & Ep & Em & Ed & _).
  assert (¬ all_finished x) as Hf by (eapply unfinished; [done|by left]).
  destruct (write_outcome x m outcome) as [error|] eqn:Eo.
  - destruct (core_pump_lost x fd m rest _ error Hc Hq) as (p' & Efd' & Hc'). rewrite Efd in Efd'. injection Efd' as <-.
    unfold pump_sent. cbn [ex_pipelines write_done on_writer]. rewrite Efd. apply check_finish_inv.
    eapply (report_inv (write_done m rest (Some error) x) fd p); try done.
    apply (table_ext x); try done; [intros fd'; apply same_input_refl|].
    intros Hph. unfold table in Ht. rewrite Hph in Ht. naive_solver.
  - pose proof (core_pump_sent x fd m rest _ s Hc Hq Hs (ex_intro _ s Hsay) (write_outcome_None _ _ _ Eo)) as Hc'.
    assert (speech (written x ++ [m]) = Some s) as Hs' by (rewrite speech_app, Hs; exact Hsay).
    unfold pump_sent in *. cbn [ex_pipelines write_done on_writer] in *. rewrite Efd, Ep in *.
    destruct pieces as [|next pieces].
    + eapply (refilter_inv x _ fd p (with_pieces p [] (mp_emitted p) false)); try done. by rewrite Hs.
    + eapply (refilter_inv x _ fd p (with_pieces p (next :: pieces) (mp_emitted p) false)); try done. by rewrite Hs.
Qed.

Lemma go_to_core p x : core x [] → core (go_to p x) [].
Proof. intros Hc. apply (core_ext x); try done. intros fd. apply same_pipe_refl. Qed.

Lemma finally_inv x : inv x → inv (finally x).
Proof.
  intros Hi. unfold finally.
  destruct (ru_terminalRead (ex_reader x)); apply (inv_ext x); try done; intros fd;
    try apply same_pipe_refl; apply same_input_refl.
Qed.

Lemma going_written x m outcome rest s :
  speech (written x) = Some s → (outcome = None → says s m = Some s) →
  speech (written (write_done m rest outcome x)) = Some s.
Proof.
  intros Hs Hsay. cbn. destruct outcome; [done|]. rewrite speech_app, Hs. by apply Hsay.
Qed.

(** What the function has sent has been made or has failed. *)
Lemma main_written_inv x m rest outcome :
  inv x → queue x = (Main, m) :: rest →
  inv (sent options Main (write_outcome x m outcome) (write_done m rest (write_outcome x m outcome) x)).
Proof.
  intros [Hc Ht] Hq. set (result := write_outcome x m outcome).
  assert (∃ s s', speech (written x) = Some s ∧ says s m = Some s' ∧ mains x = [m]) as (s & s' & Hs & Hsay & Hm).
  { pose proof (co_main _ _ Hc) as Hmain. rewrite Hq, sends_of_cons, decide_True in Hmain by done. cbn in Hmain.
    unfold mains, table, going, ending in *. destruct (phase x) as [| | |fd data| | | | | | | |]; try done.
    - injection Hmain as -> _. exists Silent, Speaking. naive_solver.
    - destruct (ex_pipelines x fd) as [[|]|]; try done. injection Hmain as -> _. exists Speaking, Speaking. naive_solver.
    - injection Hmain as -> _. exists Speaking, (Concluded exitCode). naive_solver.
    - injection Hmain as -> _. exists Speaking, Killed. naive_solver. }
  destruct (core_write_main x m (mains x) rest result s Hc Hq Hs) as (mains' & Hm' & Hc').
  { intros Hr. split; [by eapply write_outcome_None|by rewrite Hsay]. }
  { apply write_outcome_stuck. }
  rewrite Hm in Hm'. injection Hm' as <-.
  assert (speech (written (write_done m rest result x)) = Some (match result with None => s' | Some _ => s end)) as Hw.
  { cbn. destruct result; [done|]. by rewrite speech_app, Hs. }
  unfold sent. change (phase (write_done m rest result x)) with (phase x).
  unfold mains in Hm. unfold table in Ht. destruct (phase x) as [| | |fd data| | | |c|error| | |] eqn:Ep; try done.
  - destruct Ht as (Hs1 & Hpiped & Hex & Hsp & Hst & Hspawned). injection Hm as <-. rewrite Hs1 in Hs. injection Hs as <-. injection Hsay as <-.
    destruct result as [error|]; [apply fails_inv; [done|]; split; [by exists Silent|]; intros Hst'; change (pg_startSent (ex_main x) = true) in Hst'; congruence|].
    apply go_to_inv; [apply (core_ext (write_done (GrStart (go_start options)) rest None x)); try done; intros fd; apply same_pipe_refl| |done].
    unfold table. cbn. rewrite Hspawned. split; [|done]. split_and!; try done.
    intros fd p Hp. destruct (Hpiped fd) as [Hnone _]. change (ex_pipelines x fd = Some (MaskFilterPipeline p)) in Hp. by rewrite Hnone in Hp.
  - destruct Ht as ((Hs1 & Ht) & Hpiped & Hspawned). rewrite Hs1 in Hs. injection Hs as <-.
    destruct (ex_pipelines x fd) as [[|]|]; try done. injection Hm as <-. injection Hsay as <-.
    assert (going (write_done (masked_chunk fd data) rest result x)) as Hg by (split; [by destruct result|done]).
    destruct result as [error|]; [by apply fails_inv, going_failing|].
    apply go_to_inv; [done| |done]. unfold table. cbn. rewrite Hspawned. by split.
  - destruct Ht as ((Hs1 & Ht) & Hf). rewrite Hs1 in Hs. injection Hs as <-. injection Hm as <-. injection Hsay as <-.
    destruct result as [error|]; [by apply fails_inv; [|apply (ending_failing _ c); split]|].
    apply finally_inv, go_to_inv; [apply (core_ext (write_done (GrResult (go_requestId options) c) rest None x)); try done; intros fd; apply same_pipe_refl| |done].
    destruct Ht as (_ & Hex & Hin & Hp). split; [done|by exists c].
  - destruct Ht as (Hs1 & Hu). rewrite Hs1 in Hs. injection Hs as <-. injection Hm as <-. injection Hsay as <-.
    apply stop_all_inv; [done|]. unfold stoppable. rewrite Hw. destruct result; eexists; split_and!; done.
Qed.

Lemma begin_inv : inv (begin_execution options).
Proof.
  split; [split|]; try done; cbn.
  - intros fd. by exists "".
  - by intros fd m _ [<-|[]].
Qed.

(** *** The messages of the gateway *)

Lemma same_core p m x :
  core x [] → (∀ fd, raw_chunk_of fd m = "") → core (go_to p (hear m x)) [].
Proof. intros Hc Hm. apply go_to_core, core_hear; [done|]. by right. Qed.

Lemma raw_snoc fd l m : raw fd (l ++ [m]) = raw fd l +:+ raw_chunk_of fd m.
Proof. rewrite raw_app. unfold raw at 2. cbn [map concat_str]. by rewrite sapp_nil_r. Qed.

Lemma heard_inputs x m : inputs_ok x → (∀ fd, raw_chunk_of fd m = "") → inputs_ok (hear m x).
Proof.
  intros Hi Hm fd p Hp. change (mp_input p = raw fd (heard x ++ [m])). rewrite raw_snoc, Hm, sapp_nil_r. by apply Hi.
Qed.

Lemma exits_app l l' : exits (l ++ l') = exits l ++ exits l'.
Proof. apply omap_app. Qed.

Lemma spawns_app l l' : spawns (l ++ l') = spawns l ++ spawns l'.
Proof. apply omap_app. Qed.

Lemma heard_failing x m :
  going x → exits [m] = [] ∨ pg_spawned (ex_main x) = false ∧ spawns [m] = [] → failing (hear m x).
Proof.
  intros (G1 & G2 & G3 & G4 & G5 & G6) Hm. split; [by exists Speaking|]. intros _ _. split; [done|].
  change (unended (heard x ++ [m])). unfold unended. rewrite exits_app, spawns_app, G4.
  destruct Hm as [->|[Hs ->]]; [by left|]. right. by rewrite G6.
Qed.

Lemma stream_fd_number n fd : stream_fd n = Some fd → n = fd_number fd.
Proof. unfold stream_fd. repeat case_decide; by intros [= <-]. Qed.

Lemma number_stream_fd fd : stream_fd (fd_number fd) = Some fd.
Proof. by destruct fd. Qed.

(** Output of the command. *)
Lemma write_pipeline_inv x id fd data :
  core x [] → going x → piped x true → pg_spawned (ex_main x) = true →
  inv (write_pipeline options fd (decode data) (hear (GmRawChunk id (fd_number fd) data) x)).
Proof.
  set (m := GmRawChunk id (fd_number fd) data). intros Hc Hg Hp Hsp.
  assert (failing (hear m x)) as Hfail by (apply heard_failing; [done|by left]).
  assert (∀ fd', fd' ≠ fd → raw_chunk_of fd' m = "") as Hother.
  { intros fd' Hne. cbn. by destruct fd, fd'. }
  assert (raw_chunk_of fd m = decode data) as Hown by (by destruct fd).
  unfold write_pipeline. cbn [ex_pipelines hear on_reader]. pose proof (Hp fd) as Hfd.
  destruct (ex_pipelines x fd) as [[|p]|] eqn:Efd; [| |done].
  - assert (inv (go_to (AtWrite fd (decode data)) (send Main (masked_chunk fd (decode data)) (hear m x)))); [|done].
    destruct Hg as (G1 & G2 & G3 & G4 & G5 & G6). split.
    + unfold mains. cbn -[GatewayRun.masked_chunk]. rewrite Efd.
      apply (core_ext (send Main (masked_chunk fd (decode data)) (hear m x))); try done; [intros fd'; apply same_pipe_refl|].
      by apply core_pass_on.
    + unfold table. cbn. split; [|done]. split_and!; try done.
      * change (exits (heard x ++ [m]) = []). by rewrite exits_app, G4.
      * intros fd' q Hq. change (ex_pipelines x fd' = Some (MaskFilterPipeline q)) in Hq.
        pose proof (co_kind _ _ Hc fd _ Efd). pose proof (co_kind _ _ Hc fd' _ Hq). cbn in *. congruence.
      * intros Hs. change (pg_spawned (ex_main x) = false) in Hs. congruence.
  - assert (core (hear m x) []) as Hc'.
    { apply core_hear; [done|]. intros fd'. destruct (decide (fd' = fd)) as [->|Hne]; [left; congruence|right; by apply Hother]. }
    destruct (mp_failure p) as [error|]; [by apply fails_inv|].
    destruct Hg as (G1 & G2 & G3 & G4 & G5 & G6). apply go_to_inv.
    + apply (core_ext (hear m x)); try done. apply (same_pipes_set (hear m x) fd p); [exact Efd|done].
    + unfold table. cbn -[set_pipeline hear]. split_and!; [split_and!|..]; try done.
      * change (exits (heard x ++ [m]) = []). by rewrite exits_app, G4.
      * intros fd' q. cbn -[raw]. rewrite raw_snoc. case_decide as E.
        -- intros [= <-]. subst fd'. cbn [mp_input with_input]. rewrite Hown. f_equal. by apply G5.
        -- intros Hq. rewrite Hother, sapp_nil_r by done. by apply G5.
      * intros Hs. change (pg_spawned (ex_main x) = false) in Hs. congruence.
      * intros fd'. cbn. case_decide; [done|apply Hp].
    + unfold mains. cbn. by rewrite decide_True.
Qed.

Lemma silent_chunk m : exits [m] = [] → (∀ id n data, m ≠ GmRawChunk id n data) → ∀ fd, raw_chunk_of fd m = "".
Proof. intros _ Hm fd. destruct m; try done. by edestruct Hm. Qed.

Lemma handle_message_inv m x :
  phase x = AtRead → inv x → is_Some (message_request m) → inv (handle_message options m (hear m x)).
Proof.
  intros Hph [Hc Ht] Hm. unfold mains in Hc. unfold table in Ht. rewrite Hph in Hc, Ht. destruct Ht as [Hg Hp].
  assert (∀ error, (∀ fd, raw_chunk_of fd m = "") →
    exits [m] = [] ∨ pg_spawned (ex_main x) = false ∧ spawns [m] = [] → inv (fails options error (hear m x))) as Hfail.
  { intros error Hq He. apply fails_inv; [apply core_hear; [done|by right]|by apply heard_failing]. }
  destruct m as [|id pid|id n data|id c|id reason|id message]; [by destruct Hm| | | |apply Hfail; [done|by left]..].
  - cbn [handle_message]. change (pg_spawned (ex_main (hear (GmSpawned id pid) x))) with (pg_spawned (ex_main x)).
    destruct (pg_spawned (ex_main x)) eqn:Esp; [apply Hfail; [done|by left]|].
    destruct Hg as (G1 & G2 & G3 & G4 & G5 & G6). apply go_to_inv; [|split|done].
    + apply (core_ext (hear (GmSpawned id pid) x)); [done|intros fd; apply same_pipe_refl|done|].
      apply core_hear; [done|by right].
    + split_and!; try done.
      * change (exits (heard x ++ [GmSpawned id pid]) = []). by rewrite exits_app, G4.
      * by apply (heard_inputs x (GmSpawned id pid)).
    + split; [|done]. intros fd. destruct (Hp fd) as [Hn Hr]. split; [done|].
      change (raw fd (heard x ++ [GmSpawned id pid]) = ""). by rewrite raw_snoc, Hr.
  - cbn [handle_message]. change (pg_spawned (ex_main (hear (GmRawChunk id n data) x))) with (pg_spawned (ex_main x)).
    destruct (pg_spawned (ex_main x)) eqn:Esp; cbn [negb].
    + destruct (stream_fd n) as [fd|] eqn:Efd.
      * apply stream_fd_number in Efd as ->. by apply write_pipeline_inv.
      * apply Hfail; [|by left]. intros fd. cbn. case_decide as E; [|done]. subst. by rewrite number_stream_fd in Efd.
    + apply fails_inv; [|apply heard_failing; [done|by left]]. apply core_hear; [done|]. intros fd. left.
      destruct (Hp fd) as [-> _]. done.
  - cbn [handle_message]. change (pg_spawned (ex_main (hear (GmProcessExit id c) x))) with (pg_spawned (ex_main x)).
    destruct (pg_spawned (ex_main x)) eqn:Esp; cbn [negb]; [|apply Hfail; [done|by right]].
    destruct Hg as (G1 & G2 & G3 & G4 & G5 & G6). apply check_exit_hook_inv, go_to_inv; [| |done].
    + apply (core_ext (hear (GmProcessExit id c) x)); [done|intros fd; apply same_pipe_refl|done|].
      apply core_hear; [done|by right].
    + split_and!; try done.
      * change (exits (heard x ++ [GmProcessExit id c]) = [c]). by rewrite exits_app, G4.
      * by apply (heard_inputs x (GmProcessExit id c)).
Qed.

Lemma handle_read_inv d x : phase x = AtRead → inv x → inv (handle_read options d x).
Proof.
  intros Hph Hi. pose proof Hi as [Hc Ht]. unfold mains in Hc. unfold table in Ht. rewrite Hph in Hc, Ht. destruct Ht as [Hg Hp].
  assert (∀ error, inv (fails options error x)) as Hfail by (intros error; by apply fails_inv, going_failing).
  unfold handle_read. destruct d as [[line|]|error]; [| |done]; destruct (hm_failure (ex_health x)); try done.
  destruct (parseGatewayToBrokerLine line (pg_state (ex_main x))) as [data|error]; [|done].
  destruct (as_gateway_message data) as [m|]; [|done]. destruct (message_request m) as [id|] eqn:Em.
  - case_match; [|done]. by apply handle_message_inv.
  - destruct m; try done. apply Hfail.
Qed.

(** *** After `onSpawned` *)

Lemma core_open x fd :
  core x [] → speech (written x) = Some Speaking → ex_pipelines x fd = None → raw fd (heard x) = "" →
  core (set_pipeline fd (new_pipeline options) x) [].
Proof.
  intros [H1 H2 H3 H4 H5 H6 H7] Hs Hfd Hr.
  assert (given (set_pipeline fd (new_pipeline options) x) fd = "") as Hgiven.
  { unfold given. cbn. rewrite decide_True by done. unfold new_pipeline. by destruct (go_maskFilter options). }
  split; cbn; try done.
  - intros fd'. rewrite H2. unfold pump_sends. cbn. case_decide as E; [subst|done].
    rewrite Hfd. unfold new_pipeline. by destruct (go_maskFilter options).
  - intros fd' p. case_decide; [|apply H3]. unfold new_pipeline. destruct (go_maskFilter options); by intros [= <-].
  - intros fd'. destruct (decide (fd' = fd)) as [->|Hne].
    + rewrite Hgiven. destruct (H4 fd) as (rest & Hg & Hrest). unfold given in Hg. rewrite Hfd in Hg.
      destruct (told fd (written x)); [|done]. exists rest. split; [done|]. intros Hf. cbn in Hg. subst rest. unfold unsent. cbn.
      rewrite decide_True by done. unfold new_pipeline. by destruct (go_maskFilter options).
    + destruct (H4 fd') as (rest & Hg & Hrest). exists rest. unfold given, unsent in *. cbn. by rewrite decide_False.
  - intros fd' p. case_decide; [|apply H5]. intros [= <-]. unfold new_pipeline. by destruct (go_maskFilter options).
  - intros fd' _. by rewrite Hs.
Qed.

Lemma make_pipelines_inv how x : phase x = AtSpawned → inv x → inv (make_pipelines options how x).
Proof.
  intros Hph [Hc Ht]. unfold mains in Hc. unfold table in Ht. rewrite Hph in Hc, Ht. destruct Ht as (Hg & Hp & Hsp).
  pose proof Hg as (G1 & G2 & G3 & G4 & G5 & G6).
  assert (core (set_pipeline Fd1 (new_pipeline options) x) []) as Hc1.
  { by apply core_open; try done; apply (Hp Fd1). }
  assert (core (set_pipeline Fd2 (new_pipeline options) (set_pipeline Fd1 (new_pipeline options) x)) []) as Hc2.
  { apply core_open; try done; [cbn; by apply (Hp Fd2)|by apply (Hp Fd2)]. }
  assert (∀ error, inv (fails options error x)) as Hfail by (intros error; by apply fails_inv, going_failing).
  assert (∀ error, inv (fails options error (set_pipeline Fd1 (new_pipeline options) x))) as Hfail1.
  { intros error. apply fails_inv; [done|]. split; [by exists Speaking|]. intros _ _. split; [done|by left]. }
  assert (inv (go_to AtRead (on_health (λ h, {| hm_started := true; hm_closed := hm_closed h; hm_failure := hm_failure h |})
    (set_pipeline Fd2 (new_pipeline options) (set_pipeline Fd1 (new_pipeline options) x))))) as Hgo.
  { apply go_to_inv; [| |done].
    - eapply core_ext; [| | |exact Hc2]; try done. intros fd. apply same_pipe_refl.
    - unfold table. cbn -[set_pipeline]. split.
      + split_and!; try done. intros fd p Hfd. cbn -[raw]. destruct (Hp fd) as [_ ->].
        assert (new_pipeline options = MaskFilterPipeline p) as Hnew by (destruct fd; by injection Hfd).
        unfold new_pipeline in Hnew. destruct (go_maskFilter options); [by injection Hnew as <-|done].
      + intros fd. cbn. rewrite Hsp. by destruct fd. }
  unfold make_pipelines. destruct (go_maskFilter options), how as [[e1|] [e2|]]; done.
Qed.

(** *** Every step keeps it *)

Lemma set_terminalRead_inv r x : inv x → inv (set_terminalRead r x).
Proof. intros Hi. apply (inv_ext x); try done; intros fd; [apply same_pipe_refl|apply same_input_refl]. Qed.

Lemma set_cancelled_inv reason x : inv x → inv (set_cancelled reason x).
Proof. intros Hi. apply (inv_ext x); try done; intros fd; [apply same_pipe_refl|apply same_input_refl]. Qed.

Lemma hook_inv outcome how x : inv x → inv (execution_step options x (ExHook outcome how)).
Proof.
  intros Hi. pose proof Hi as [Hc Ht]. cbn [execution_step]. destruct (phase x) eqn:Eph; try done.
  - destruct outcome as [error|]; [|by apply make_pipelines_inv]. unfold mains in Hc. unfold table in Ht.
    rewrite Eph in Hc, Ht. destruct Ht as [Hg _]. by apply fails_inv, going_failing.
  - by apply check_exit_hook_inv.
Qed.

Lemma input_inv outcome x : inv x → inv (execution_step options x (ExInput outcome)).
Proof.
  intros Hi. pose proof Hi as [Hc Ht]. cbn [execution_step]. destruct (phase x) as [| | |fd data| | | | | | | |] eqn:Eph; try done.
  unfold mains in Hc. unfold table in Ht. rewrite Eph in Hc, Ht. destruct Ht as (Hg & Hp & Hsp).
  destruct (ex_pipelines x fd) as [[|p]|] eqn:Efd; [done| |done].
  assert (∀ error, inv (fails options error x)) as Hfail by (intros error; by apply fails_inv, going_failing).
  destruct outcome; [done|]. destruct (mp_failure p); [done|]. apply go_to_inv; [done| |done].
  unfold table. cbn. rewrite Hsp. by split.
Qed.

Lemma read_inv d x : inv x → inv (execution_step options x (ExRead d)).
Proof.
  intros Hi. cbn [execution_step].
  assert (inv (check_finish options (check_exit_hook options None (set_terminalRead (TerminalEnded (terminal_read d)) x)))) as He
    by (by apply check_finish_inv, check_exit_hook_inv, set_terminalRead_inv).
  destruct (phase x) eqn:Eph, (ru_terminalRead (ex_reader x)); try done. by apply handle_read_inv.
Qed.

Lemma execution_step_inv x e : inv x → inv (execution_step options x e).
Proof.
  intros Hi. destruct e as [outcome|d|outcome how|outcome|fd error|fd chunk|fd outcome|fd c|reason|].
  - cbn [execution_step]. destruct (queue x) as [|[[|fd] m] rest] eqn:Eq; [done|..].
    + by apply check_drain_inv, main_written_inv.
    + by apply check_drain_inv, pump_written_inv.
  - by apply read_inv.
  - by apply hook_inv.
  - by apply input_inv.
  - by apply input_ends_inv.
  - by apply pump_chunk_inv.
  - by apply pump_ends_inv.
  - by apply filter_exits_inv.
  - cbn [execution_step]. destruct (ex_cancelled x); [done|]. by apply check_finish_inv, check_exit_hook_inv, set_cancelled_inv.
  - cbn [execution_step]. pose proof Hi as [Hc Ht]. destruct (phase x) eqn:Eph; try done.
    unfold mains in Hc. unfold table in Ht. rewrite Eph in Hc, Ht. by apply finally_inv, go_to_inv.
Qed.

Lemma execution_inv events : inv (execution options events).
Proof.
  unfold execution. generalize (begin_execution options) begin_inv.
  induction events as [|e events IH]; intros x Hx; [done|]. by apply IH, execution_step_inv.
Qed.
End Laws.
