(* ===== verification/GatewayRunProps.v ===== *)
(** * What the execution of a command guarantees

    In every run, whatever the filters, the socket, the hooks and the reader do: the
    gateway receives one well-formed dialogue, what a stream is told is what its
    pipeline gave, in order, an exit code is reported only after everything has been
    masked and sent, and no filter is left running after a failure. *)
From S2P Require Import Prelude JsString Json Base64 HostMatch LineReader GatewayProtocol GatewayProtocolLaws.
From S2P Require Import GatewayRun GatewayRunLaws.

Section Props.
Context `{Wire} (options : GatewayExecutionOptions).
Abbreviation written x := (mw_written (ex_writer x)).
Abbreviation heard x := (ru_heard (ex_reader x)).

Lemma speech_result l s id c : speech l = Some s → In (GrResult id c) l → s = Concluded c.
Proof.
  revert s. induction l as [|m l IH] using rev_ind; intros s; [done|]. rewrite speech_app. intros Hs Hin.
  destruct (speech l) as [s'|] eqn:E; [|done]. cbn in Hs. apply in_app_iff in Hin as [Hin|[->|[]]].
  - rewrite (IH s' eq_refl Hin) in Hs. done.
  - destruct s'; try done. by injection Hs as <-.
Qed.

Lemma returned_speech x s c : inv options x → speech (written x) = Some s → s = Concluded c → phase x = Returned.
Proof.
  intros [_ Ht] Hs ->. unfold table, going, ending, stoppable in Ht. destruct (phase x); naive_solver.
Qed.

Lemma table_speech x : inv options x → ∃ s, speech (written x) = Some s ∧ (s = Killed → unended (heard x)).
Proof.
  intros [_ Ht]. unfold table, going, ending, stoppable in Ht. destruct (phase x); naive_solver.
Qed.

(** C11.  Whatever happens, the messages written to the gateway form one dialogue: the
    start first, then masked output, then either the exit code and nothing more, or one
    request to kill and only output after it. The request to kill is never made once
    the gateway has reported the end of the command, and after the exit code the
    function has returned. *)
Theorem one_dialogue events :
  let x := execution options events in
  ∃ s, speech (written x) = Some s ∧ (s = Killed → unended (heard x)) ∧
    (∀ exitCode, s = Concluded exitCode → phase x = Returned).
Proof.
  intros x. pose proof (execution_inv options events) as Hi. fold x in Hi.
  destruct (table_speech x Hi) as (s & Hs & Hk). exists s. split_and!; [done..|]. intros c. by apply returned_speech.
Qed.

(** C10.  Output is masked and in order: without a mask filter, what a stream has been
    told is a prefix of what the gateway reported of it; with one, it is a prefix of
    what the filter of that stream printed; and nothing is told before the pipeline of
    the stream exists. *)
Theorem output_in_order events fd :
  let x := execution options events in
  match ex_pipelines x fd with
  | None => told fd (written x) = ""
  | Some IdentityPipeline =>
      go_maskFilter options = false ∧ ∃ rest, raw fd (heard x) = told fd (written x) +:+ rest
  | Some (MaskFilterPipeline p) =>
      go_maskFilter options = true ∧ ∃ rest, mp_emitted p = told fd (written x) +:+ rest
  end.
Proof.
  intros x. destruct (execution_inv options events) as [Hc _]. fold x in Hc.
  destruct (co_bytes _ _ _ Hc fd) as (rest & Hg & _). unfold given in Hg.
  destruct (ex_pipelines x fd) as [[|p]|] eqn:Efd.
  - split; [exact (co_kind _ _ _ Hc fd _ Efd)|by exists rest].
  - split; [exact (co_kind _ _ _ Hc fd _ Efd)|by exists rest].
  - by destruct (told fd (written x)).
Qed.

(** C9.  An exit code is told to the gateway only when all output has been: it is the
    code the gateway reported, the function has returned, and for each stream either
    there is no filter and all reported output has been sent back, or the filter was
    given all of it, ended its output, exited with code 0 without a failure, and
    everything it printed has been sent. *)
Theorem result_after_output events id exitCode :
  let x := execution options events in
  In (GrResult id exitCode) (written x) →
  phase x = Returned ∧ exits (heard x) = [exitCode] ∧
  ∀ fd, match ex_pipelines x fd with
        | None => False
        | Some IdentityPipeline => told fd (written x) = raw fd (heard x)
        | Some (MaskFilterPipeline p) =>
            mp_input p = raw fd (heard x) ∧ mp_outputDone p = true ∧ mp_exited p = Some 0%Z ∧ mp_failure p = None ∧
            told fd (written x) = mp_emitted p
        end.
Proof.
  intros x Hin. pose proof (execution_inv options events) as Hi. fold x in Hi.
  destruct (table_speech x Hi) as (s & Hs & _). pose proof (speech_result _ _ _ _ Hs Hin) as ->.
  pose proof (returned_speech x _ _ Hi Hs eq_refl) as Hph. destruct Hi as [Hc Ht]. unfold table in Ht. unfold mains in Hc. rewrite Hph in Hc, Ht.
  destruct Ht as (Hw & c & Hs' & Hex & Hin' & Hp & Hf). rewrite Hs in Hs'. injection Hs' as <-.
  split_and!; [done..|]. intros fd. specialize (Hp fd). specialize (Hf fd). unfold finished in Hf.
  destruct (co_bytes _ _ _ Hc fd) as (rest & Hg & Hr). specialize (Hr Hw). unfold given, unsent in *.
  destruct (ex_pipelines x fd) as [[|p]|] eqn:Efd; [| |done].
  - subst rest. rewrite Hg. unfold told at 3. cbn. by rewrite sapp_nil_r.
  - destruct (mp_exited p) as [code|] eqn:E1; [|done]. destruct (mp_outputDone p) eqn:E2; [|done].
    destruct (mp_failure p) eqn:E3; [done|]. injection Hf as ->. rewrite (co_done _ _ _ Hc fd p Efd E2) in Hr.
    subst rest. split_and!; try done; [by apply Hin'|]. rewrite Hg. cbn. by rewrite sapp_nil_r.
Qed.

(** When the function throws, every filter it started has been stopped and no exit
    code has been told. *)
Theorem failure_stops_filters events error :
  let x := execution options events in
  phase x = Threw error →
  (∀ fd p, ex_pipelines x fd = Some (MaskFilterPipeline p) → mp_stopped p = true) ∧
  ∀ id exitCode, ¬ In (GrResult id exitCode) (written x).
Proof.
  intros x Hph. pose proof (execution_inv options events) as Hi. fold x in Hi. pose proof Hi as [_ Ht].
  unfold table in Ht. rewrite Hph in Ht. destruct Ht as ((s & Hs & Hne & _) & Hstop). split; [exact Hstop|].
  intros id c Hin. by apply (Hne c), (speech_result _ _ _ _ Hs Hin).
Qed.
End Props.

(** ** A run with filters, and one whose filter dies *)

Definition ascii_decode (l : bytes) : option string :=
  if forallb (λ c, (nat_of_ascii c <? 128)%nat) l then Some (String.string_of_list_ascii l) else None.

Definition sample_start : StartMessage := {|
  sm_requestId := "r1"; sm_argv0 := "git"; sm_args := ["status"]; sm_cwd := "/work"; sm_env := [("HOME", "/root")] |}.

Definition sample_options (filter : bool) : GatewayExecutionOptions := {|
  go_requestId := "r1"; go_start := sample_start; go_maskFilter := filter |}.

Definition sample_spawned : JsonValue :=
  JObject [("type", json_string "spawned"); ("requestId", json_string "r1"); ("pid", json_integer 7)].

Definition sample_chunk : JsonValue :=
  JObject [("type", json_string "raw_chunk"); ("requestId", json_string "r1"); ("fd", json_integer 1);
           ("data", json_string (encode "secret"))].

Definition sample_ended : JsonValue :=
  JObject [("type", json_string "process_exit"); ("requestId", json_string "r1"); ("exitCode", json_integer 3)].

Definition sample_values : list JsonValue :=
  [reply_json (GrStart sample_start); sample_spawned; sample_chunk; sample_ended;
   reply_json (GrMaskedChunk "r1" 1 (encode "******")); reply_json (GrResult "r1" 3); reply_json (GrKill "r1" "SIGTERM")].

(** A runtime for these texts. *)
Definition sample_wire : Wire := {|
  utf8_decode := ascii_decode;
  json_parse := λ text, List.find (λ v, String.eqb (stringify v) text) sample_values;
  safeParse := λ schema v, if accepts schema v then Some (rebuild schema v) else None;
  zod_error := λ _ _, "invalid" |}.

Definition gives (v : JsonValue) : ExecutionEvent := ExRead (Resolved (Some (utf8_encode (stringify v)))).

Definition sample_run : list ExecutionEvent :=
  [ExWritten None; gives sample_spawned; ExHook None (None, None); gives sample_chunk; ExInput None;
   ExPrints Fd1 "******"; gives sample_ended; ExHook None (None, None); ExWritten None; ExOutputEnds Fd1 None;
   ExExits Fd1 0; ExExits Fd2 0; ExOutputEnds Fd2 None; ExWritten None].

Lemma result_after_output_witness :
  ∃ x, x = execution (H := sample_wire) (sample_options true) sample_run ∧
    In (GrResult "r1" 3) (mw_written (ex_writer x)) ∧ told Fd1 (mw_written (ex_writer x)) = "******" ∧
    raw Fd1 (ru_heard (ex_reader x)) = "secret" ∧ phase x = Returned.
Proof.
  set (x := execution (H := sample_wire) (sample_options true) sample_run).
  assert (In (GrResult "r1" 3) (mw_written (ex_writer x))) as Hin by (vm_compute; tauto).
  destruct (result_after_output (H := sample_wire) (sample_options true) sample_run "r1" 3 Hin) as (Hph & _).
  exists x. split; [reflexivity|]. split; [exact Hin|]. split; [vm_compute; reflexivity|].
  split; [vm_compute; reflexivity|exact Hph].
Defined.

Definition failed_run : list ExecutionEvent :=
  [ExWritten None; gives sample_spawned; ExHook None (None, None); gives sample_chunk; ExInput None;
   ExExits Fd1 1; ExRead (Rejected None); ExWritten None; ExStopped].

Definition death : string := "nas-mask-filter exited before command completion with code 1".

Lemma failure_stops_filters_witness :
  ∃ x p, x = execution (H := sample_wire) (sample_options true) failed_run ∧ phase x = Threw death ∧
    ex_pipelines x Fd2 = Some (MaskFilterPipeline p) ∧ mp_stopped p = true ∧
    In (GrKill "r1" "SIGTERM") (mw_written (ex_writer x)).
Proof.
  set (x := execution (H := sample_wire) (sample_options true) failed_run).
  assert (phase x = Threw death) as Hph by (vm_compute; reflexivity).
  destruct (failure_stops_filters (H := sample_wire) (sample_options true) failed_run death Hph) as [Hstop _].
  destruct (ex_pipelines x Fd2) as [[|p]|] eqn:E; [vm_compute in E; discriminate| |vm_compute in E; discriminate].
  exists x, p. split; [reflexivity|]. split; [exact Hph|]. split; [exact E|]. split; [exact (Hstop Fd2 p E)|].
  vm_compute. tauto.
Defined.
