(* ===== verification/HostExec.v ===== *)
(** * The broker of host commands (hostexec/broker.ts)

    A client in the container asks for a command of the host; the gateway passes the
    request to the broker over a connection of its own.  The broker finds the rule,
    checks the file, asks a person where the rule or the file wants it, and sends the
    gateway what to start.

    Its methods are programs of [Effects] that run concurrently ([Threads]); every
    `await` is a wait, also one for a promise that is already settled ([Tick]).  Of
    the outside world the theorems follow the whole trace of its operations.  A
    socket, its reader, its lifecycle and the promise of its waiter are known by the
    number of the connection.  What happens on the connection once a command runs
    (gateway_execution.ts) is one operation, [AwaitCommand]. *)
From S2P Require Import Prelude JsString Json Broker NodePath HostMatch GatewayProtocol.
From S2P Require Import Effects Threads.

(** ** Data *)

Record HostExecConfig : Type := {
  hc_promptEnable : bool;
  hc_defaultScope : HostExecPromptScope;
  hc_timeoutSeconds : Z;
  hc_rules : list HostExecRule;
}.

Record HostExecBrokerOptions : Type := {
  ho_sessionId : string;
  ho_workspaceRoot : string;
  ho_sessionTmpDir : string;
  ho_hostexec : HostExecConfig;
  ho_audited : bool;
  ho_secretsFramePath : option string;
  ho_integrityTargets : list string;
  ho_installedScriptPath : option string;
  (** `hostExecBrokerSocketPath(paths, sessionId)` *)
  ho_brokerSocketPath : string;
}.

Record ResolvedExecution : Type := {
  rx_rule : HostExecRule;
  rx_approval : HostExecApproval;
  rx_cwd : string;
  rx_capability : ResolvedExecutionCapability;
  rx_envVars : list (string * string);
}.

Record HostExecPendingEntry : Type := {
  he_sessionId : string;
  he_requestId : string;
  he_approvalKey : string;
  he_ruleId : string;
  he_argv0 : string;
  he_args : list string;
  he_cwd : string;
  he_createdAt : string;
  he_updatedAt : string;
  he_defaultScope : HostExecPromptScope;
  he_capability : ResolvedExecutionCapability;
  he_integrityChanged : bool;
}.

Inductive AuditVerdict : Type := AuditAllow | AuditDeny.

Record HostExecAudit : Type := {
  hx_id : string;
  hx_timestamp : string;
  hx_requestId : string;
  hx_decision : AuditVerdict;
  hx_reason : string;
  hx_command : string;
}.

Inductive ControlMessage : Type :=
  | CmApprove (requestId : string) (scope : option string)
  | CmDeny (requestId : string)
  | CmListPending
  (** an execute frame on the wrong socket *)
  | CmExecute (requestId : string).

Inductive ControlResponse : Type :=
  | CrError (requestId message : string)
  | CrPending (items : list HostExecPendingEntry)
  | CrAck (requestId : string) (decision : AuditVerdict).

Definition text_member (members : list (string * JsonValue)) (name : string) : option string :=
  match map_get members name with Some (JScalar (ScString s)) => Some s | _ => None end.

(** An absent scope is [Some None]; [None] when it is no string. *)
Definition scope_member (members : list (string * JsonValue)) : option (option string) :=
  match map_get members "scope" with
  | None => Some None
  | Some (JScalar (ScString s)) => Some (Some s)
  | Some _ => None
  end.

Definition parseHostExecControlMessage (value : JsonValue) : option ControlMessage :=
  match value with
  | JObject members =>
      let type := text_member members "type" in
      if bool_decide (type = Some "list_pending") then Some CmListPending
      else match text_member members "requestId" with
           | None => None
           | Some requestId =>
               if bool_decide (type = Some "deny") then Some (CmDeny requestId)
               else if bool_decide (type = Some "execute") then Some (CmExecute requestId)
               else if negb (bool_decide (type = Some "approve")) then None
               else scope ← scope_member members; Some (CmApprove requestId scope)
           end
  | _ => None
  end.

Definition HostExecPromptScope_string (s : HostExecPromptScope) : string :=
  match s with PromptOnce => "once" | PromptCapability => "capability" end.

Definition ALLOWED_HOSTEXEC_SCOPES : list string := ["once"; "capability"].

(** ** Operations of the outside world *)

(** An `Error` with its `code` and its message. *)
Record HostError : Type := { hx_code : option string; hx_message : string }.

Definition error (message : string) : HostError := {| hx_code := None; hx_message := message |}.

(** `String(error)` *)
Definition error_text (e : HostError) : string := "Error: " +:+ hx_message e.

Definition has_code (e : HostError) (codes : list string) : bool :=
  match hx_code e with Some code => includes codes code | None => false end.

Inductive HostIO : Type :=
  (** a line of the control socket, parsed as JSON *)
  | ReadControl (c : nat)
  | WriteControl (c : nat) (response : ControlResponse)
  (** the first frame of the gateway, or why it does not parse *)
  | ReadFrame (c : nat)
  | StartMonitor (c : nat)
  | WriteGateway (c : nat) (message : BrokerToGatewayMessage) (state : GatewayState)
  (** `runGatewayExecution`: it begins by sending `start` *)
  | StartCommand (c : nat) (start : StartMessage)
  | AwaitCommand (c : nat)
  | AbortReader (c : nat) (message : string)
  | CloseReader (c : nat)
  | DestroySocket (c : nat)
  | RealPath (path : string)
  (** `readFileIntegrity`, when the broker starts and for a request *)
  | SnapshotFile (path : string)
  | CheckFile (path : string)
  | RequireSecret (name : string)
  | Digest (data : string)
  | RandomUUID
  | CurrentTime
  | AppendAuditLog (entry : HostExecAudit)
  | WritePending (entry : HostExecPendingEntry)
  | RemovePending (requestId : string)
  | ListPending
  | RemovePendingDir
  | RemoveSessionRegistry
  | Notify (entry : HostExecPendingEntry)
  | CloseNotification
  | SettleNotifications
  | Diagnose (event : string)
  | Filesystem (operation path : string)
  | ListenUnix (path : string)
  | CloseServers
  (** the promise of a waiter, and that of a cleanup *)
  | Decided (c : nat)
  | CleanedUp (c : nat)
  (** a settled promise *)
  | Tick.

Definition host_reply (io : HostIO) : Type :=
  match io with
  | ReadControl _ => option JsonValue
  | ReadFrame _ => option (GatewayToBrokerMessage + HostError)
  | RealPath _ | RequireSecret _ | RandomUUID | CurrentTime => string
  | SnapshotFile _ | CheckFile _ => IntegritySnapshot
  | ListPending => list HostExecPendingEntry
  | _ => ()
  end.

#[export] Instance host_effects : Effects := traced HostIO host_reply HostError.

Definition Trace : Type := list { io : HostIO & host_reply io + HostError }%type.

(** ** State *)

Inductive GatewayLifecycleState : Type :=
  | Preflight | AwaitingApproval | Running | Terminal | Cancelled.
#[export] Instance GatewayLifecycleState_eq_dec : EqDecision GatewayLifecycleState.
Proof. solve_decision. Defined.

(** An event of the read monitor: an error, or the next line. *)
Inductive MonitorEvent : Type :=
  | MonitorError (e : HostError)
  | MonitorLine (line : option (GatewayToBrokerMessage + HostError)).

Inductive CleanupTask : Type := NoCleanup | CleanupScheduled | CleanupRunning | CleanupDone.
#[export] Instance CleanupTask_eq_dec : EqDecision CleanupTask.
Proof. solve_decision. Defined.

Record GatewayRequestLifecycle : Type := {
  lc_state : GatewayLifecycleState;
  lc_cancelledError : option HostError;
  lc_deferred : option MonitorEvent;
  (** the request that [setCleanup] removes *)
  lc_cleanup : option string;
  lc_cleanupRequested : bool;
  lc_task : CleanupTask;
  (** whether the listeners on the socket are attached, and the monitor is armed *)
  lc_attached : bool;
  lc_monitoring : bool;
}.

Definition new_lifecycle : GatewayRequestLifecycle := {|
  lc_state := Preflight; lc_cancelledError := None; lc_deferred := None; lc_cleanup := None;
  lc_cleanupRequested := false; lc_task := NoCleanup; lc_attached := true; lc_monitoring := false |}.

(** A waiter is known by its connection, a group object by its approval key, which
    does not change, and the number of its creation. *)
Definition GroupRef : Type := string * nat.

Record PendingGroup : Type := {
  pg_createdAt : string;
  pg_requestIds : list string;
  pg_waiters : list (string * nat);
  pg_entries : list (string * HostExecPendingEntry);
  pg_requests : list (string * (ExecuteRequest * ResolvedExecution));
  (** the request named by the timer, while it is set *)
  pg_timer : option string;
  pg_aborted : bool;
}.

Record HostExecState : Type := {
  hs_approvedKeys : list string;
  hs_activeRequestIds : list string;
  (** approval key → number of the group *)
  hs_groups : list GroupRef;
  hs_heap : list (GroupRef * PendingGroup);
  hs_requestToApprovalKey : list (string * string);
  hs_lifecycles : list (nat * GatewayRequestLifecycle);
  (** the connections whose waiter is resolved *)
  hs_resolved : list nat;
  hs_baseline : list (string * IntegritySnapshot);
  hs_sockets : option (string * string);
}.

Definition new_host_state : HostExecState := {|
  hs_approvedKeys := []; hs_activeRequestIds := []; hs_groups := []; hs_heap := [];
  hs_requestToApprovalKey := []; hs_lifecycles := []; hs_resolved := []; hs_baseline := [];
  hs_sockets := None |}.

Definition set_approvedKeys (f : list string → list string) (s : HostExecState) : HostExecState := {|
  hs_approvedKeys := f (hs_approvedKeys s); hs_activeRequestIds := hs_activeRequestIds s;
  hs_groups := hs_groups s; hs_heap := hs_heap s;
  hs_requestToApprovalKey := hs_requestToApprovalKey s; hs_lifecycles := hs_lifecycles s;
  hs_resolved := hs_resolved s; hs_baseline := hs_baseline s; hs_sockets := hs_sockets s |}.

Definition set_active (f : list string → list string) (s : HostExecState) : HostExecState := {|
  hs_approvedKeys := hs_approvedKeys s; hs_activeRequestIds := f (hs_activeRequestIds s);
  hs_groups := hs_groups s; hs_heap := hs_heap s;
  hs_requestToApprovalKey := hs_requestToApprovalKey s; hs_lifecycles := hs_lifecycles s;
  hs_resolved := hs_resolved s; hs_baseline := hs_baseline s; hs_sockets := hs_sockets s |}.

Definition set_groups (f : list GroupRef → list GroupRef) (s : HostExecState) : HostExecState := {|
  hs_approvedKeys := hs_approvedKeys s; hs_activeRequestIds := hs_activeRequestIds s;
  hs_groups := f (hs_groups s); hs_heap := hs_heap s;
  hs_requestToApprovalKey := hs_requestToApprovalKey s; hs_lifecycles := hs_lifecycles s;
  hs_resolved := hs_resolved s; hs_baseline := hs_baseline s; hs_sockets := hs_sockets s |}.

Definition set_heap (f : list (GroupRef * PendingGroup) → list (GroupRef * PendingGroup)) (s : HostExecState) :
    HostExecState := {|
  hs_approvedKeys := hs_approvedKeys s; hs_activeRequestIds := hs_activeRequestIds s;
  hs_groups := hs_groups s; hs_heap := f (hs_heap s);
  hs_requestToApprovalKey := hs_requestToApprovalKey s; hs_lifecycles := hs_lifecycles s;
  hs_resolved := hs_resolved s; hs_baseline := hs_baseline s; hs_sockets := hs_sockets s |}.

Definition set_requestKeys (f : list (string * string) → list (string * string)) (s : HostExecState) :
    HostExecState := {|
  hs_approvedKeys := hs_approvedKeys s; hs_activeRequestIds := hs_activeRequestIds s;
  hs_groups := hs_groups s; hs_heap := hs_heap s;
  hs_requestToApprovalKey := f (hs_requestToApprovalKey s); hs_lifecycles := hs_lifecycles s;
  hs_resolved := hs_resolved s; hs_baseline := hs_baseline s; hs_sockets := hs_sockets s |}.

Definition set_lifecycle (c : nat) (f : GatewayRequestLifecycle → GatewayRequestLifecycle)
    (s : HostExecState) : HostExecState := {|
  hs_approvedKeys := hs_approvedKeys s; hs_activeRequestIds := hs_activeRequestIds s;
  hs_groups := hs_groups s; hs_heap := hs_heap s;
  hs_requestToApprovalKey := hs_requestToApprovalKey s;
  hs_lifecycles := match map_get (hs_lifecycles s) c with
                   | Some lc => map_set (hs_lifecycles s) c (f lc)
                   | None => hs_lifecycles s
                   end;
  hs_resolved := hs_resolved s; hs_baseline := hs_baseline s; hs_sockets := hs_sockets s |}.

Definition add_lifecycle (c : nat) (s : HostExecState) : HostExecState := {|
  hs_approvedKeys := hs_approvedKeys s; hs_activeRequestIds := hs_activeRequestIds s;
  hs_groups := hs_groups s; hs_heap := hs_heap s;
  hs_requestToApprovalKey := hs_requestToApprovalKey s;
  hs_lifecycles := map_set (hs_lifecycles s) c new_lifecycle;
  hs_resolved := hs_resolved s; hs_baseline := hs_baseline s; hs_sockets := hs_sockets s |}.

(** `waiter.resolve()` *)
Definition resolve_waiter (c : nat) (s : HostExecState) : HostExecState := {|
  hs_approvedKeys := hs_approvedKeys s; hs_activeRequestIds := hs_activeRequestIds s;
  hs_groups := hs_groups s; hs_heap := hs_heap s;
  hs_requestToApprovalKey := hs_requestToApprovalKey s; hs_lifecycles := hs_lifecycles s;
  hs_resolved := c :: hs_resolved s; hs_baseline := hs_baseline s; hs_sockets := hs_sockets s |}.

Definition set_baseline (path : string) (snapshot : IntegritySnapshot) (s : HostExecState) : HostExecState := {|
  hs_approvedKeys := hs_approvedKeys s; hs_activeRequestIds := hs_activeRequestIds s;
  hs_groups := hs_groups s; hs_heap := hs_heap s;
  hs_requestToApprovalKey := hs_requestToApprovalKey s; hs_lifecycles := hs_lifecycles s;
  hs_resolved := hs_resolved s; hs_baseline := map_set (hs_baseline s) path snapshot;
  hs_sockets := hs_sockets s |}.

Definition set_sockets (sockets : option (string * string)) (s : HostExecState) : HostExecState := {|
  hs_approvedKeys := hs_approvedKeys s; hs_activeRequestIds := hs_activeRequestIds s;
  hs_groups := hs_groups s; hs_heap := hs_heap s;
  hs_requestToApprovalKey := hs_requestToApprovalKey s; hs_lifecycles := hs_lifecycles s;
  hs_resolved := hs_resolved s; hs_baseline := hs_baseline s; hs_sockets := sockets |}.

(** ** Lifecycles *)

Definition is_cancelled (lc : GatewayRequestLifecycle) : bool :=
  match lc_cancelledError lc with Some _ => true | None => false end.

Definition with_state (st : GatewayLifecycleState) (lc : GatewayRequestLifecycle) : GatewayRequestLifecycle := {|
  lc_state := st; lc_cancelledError := lc_cancelledError lc; lc_deferred := lc_deferred lc;
  lc_cleanup := lc_cleanup lc; lc_cleanupRequested := lc_cleanupRequested lc; lc_task := lc_task lc;
  lc_attached := lc_attached lc; lc_monitoring := lc_monitoring lc |}.

Definition with_deferred (event : option MonitorEvent) (lc : GatewayRequestLifecycle) : GatewayRequestLifecycle := {|
  lc_state := lc_state lc; lc_cancelledError := lc_cancelledError lc; lc_deferred := event;
  lc_cleanup := lc_cleanup lc; lc_cleanupRequested := lc_cleanupRequested lc; lc_task := lc_task lc;
  lc_attached := lc_attached lc; lc_monitoring := lc_monitoring lc |}.

Definition with_monitoring (b : bool) (lc : GatewayRequestLifecycle) : GatewayRequestLifecycle := {|
  lc_state := lc_state lc; lc_cancelledError := lc_cancelledError lc; lc_deferred := lc_deferred lc;
  lc_cleanup := lc_cleanup lc; lc_cleanupRequested := lc_cleanupRequested lc; lc_task := lc_task lc;
  lc_attached := lc_attached lc; lc_monitoring := b |}.

Definition with_task (task : CleanupTask) (lc : GatewayRequestLifecycle) : GatewayRequestLifecycle := {|
  lc_state := lc_state lc; lc_cancelledError := lc_cancelledError lc; lc_deferred := lc_deferred lc;
  lc_cleanup := lc_cleanup lc; lc_cleanupRequested := lc_cleanupRequested lc; lc_task := task;
  lc_attached := lc_attached lc; lc_monitoring := lc_monitoring lc |}.

(** `startCleanup` *)
Definition start_cleanup (lc : GatewayRequestLifecycle) : GatewayRequestLifecycle :=
  match lc_cleanup lc, lc_task lc with
  | Some _, NoCleanup => with_task CleanupScheduled lc
  | _, _ => lc
  end.

Definition set_cleanup (requestId : string) (lc : GatewayRequestLifecycle) : GatewayRequestLifecycle :=
  let lc := {|
    lc_state := lc_state lc; lc_cancelledError := lc_cancelledError lc; lc_deferred := lc_deferred lc;
    lc_cleanup := Some requestId; lc_cleanupRequested := lc_cleanupRequested lc; lc_task := lc_task lc;
    lc_attached := lc_attached lc; lc_monitoring := lc_monitoring lc |} in
  if lc_cleanupRequested lc then start_cleanup lc else lc.

Definition mark_awaiting (lc : GatewayRequestLifecycle) : GatewayRequestLifecycle :=
  with_deferred None
    (if negb (is_cancelled lc) && bool_decide (lc_state lc = Preflight)
     then with_state AwaitingApproval lc else lc).

Definition defer_monitor_event (event : MonitorEvent) (lc : GatewayRequestLifecycle) : GatewayRequestLifecycle :=
  if bool_decide (lc_state lc = Preflight) && negb (is_cancelled lc)
  then with_deferred (Some event) lc else lc.

(** `markRunning`, `markTerminal` *)
Definition mark (st : GatewayLifecycleState) (lc : GatewayRequestLifecycle) : GatewayRequestLifecycle :=
  if is_cancelled lc then lc else with_state st lc.

(** `finish`: the listeners are detached. *)
Definition detach (lc : GatewayRequestLifecycle) : GatewayRequestLifecycle := {|
  lc_state := lc_state lc; lc_cancelledError := lc_cancelledError lc; lc_deferred := lc_deferred lc;
  lc_cleanup := lc_cleanup lc; lc_cleanupRequested := lc_cleanupRequested lc; lc_task := lc_task lc;
  lc_attached := false; lc_monitoring := lc_monitoring lc |}.

Definition mark_cancelled (e : HostError) (lc : GatewayRequestLifecycle) : GatewayRequestLifecycle := {|
  lc_state := Cancelled; lc_cancelledError := Some e; lc_deferred := lc_deferred lc;
  lc_cleanup := lc_cleanup lc; lc_cleanupRequested := true; lc_task := lc_task lc;
  lc_attached := lc_attached lc; lc_monitoring := lc_monitoring lc |}.

Abbreviation method := (prog HostExecState).

Definition fail {A} (message : string) : method A := Throw (error message).

(** An operation that does not throw and answers nothing. *)
Definition emit (io : HostIO) : method () := Call io (λ _, Ret ()).

(** `await` of a promise that does not reject. *)
Definition pause (io : HostIO) : method () := Await io (λ _, Ret ()).

(** `.catch(...)` of a method without a result that only writes to the log *)
Definition ignore_errors (m : method ()) : method () := try m (λ _, mret ()).

Definition lifecycle_of (s : HostExecState) (c : nat) : GatewayRequestLifecycle :=
  default new_lifecycle (map_get (hs_lifecycles s) c).

Definition cancelled_in (s : HostExecState) (c : nat) : bool := is_cancelled (lifecycle_of s c).

Definition cancel (c : nat) (e : HostError) : method () :=
  s ← get;
  let lc := lifecycle_of s c in
  if is_cancelled lc || bool_decide (lc_state lc = Terminal) then mret ()
  else
    _ ← modify (set_lifecycle c (mark_cancelled e));
    _ ← modify (set_lifecycle c detach);
    _ ← emit (AbortReader c (hx_message e));
    _ ← emit (DestroySocket c);
    modify (set_lifecycle c start_cleanup).

(** The request a message of the gateway is about. *)
Definition message_requestId (m : GatewayToBrokerMessage) : string :=
  match m with
  | GmExecute request => er_requestId request
  | GmSpawned requestId _ | GmRawChunk requestId _ _ | GmProcessExit requestId _
  | GmCancelled requestId _ | GmTransportError requestId _ => requestId
  end.

(** Why an event of the monitor cancels the request. *)
Definition monitor_error (requestId : string) (event : MonitorEvent) : HostError :=
  match event with
  | MonitorError e => e
  | MonitorLine None => error "gateway disconnected before approval"
  | MonitorLine (Some (inr e)) => e
  | MonitorLine (Some (inl m)) =>
      if negb (String.eqb (message_requestId m) requestId) then
        error ("gateway request ID mismatch: expected " +:+ requestId +:+ ", got " +:+ message_requestId m)
      else match m with
           | GmCancelled _ reason => error ("gateway cancelled request: " +:+ reason)
           | GmTransportError _ message => error ("gateway transport error: " +:+ message)
           | m => error ("gateway message " +:+ message_type m +:+ " is not accepted before approval")
           end
  end.

Definition handleGatewayLifecycleEvent (c : nat) (requestId : string) (event : MonitorEvent) : method () :=
  s ← get;
  let lc := lifecycle_of s c in
  match lc_state lc with
  | Preflight => modify (set_lifecycle c (defer_monitor_event event))
  | Running | Terminal => mret ()
  | _ => if is_cancelled lc then mret () else cancel c (monitor_error requestId event)
  end.

(** ** Groups *)

Definition no_group : PendingGroup := {|
  pg_createdAt := ""; pg_requestIds := []; pg_waiters := [];
  pg_entries := []; pg_requests := []; pg_timer := None; pg_aborted := false |}.

Definition group_at (s : HostExecState) (ref : GroupRef) : PendingGroup :=
  default no_group (map_get (hs_heap s) ref).

Definition update_group (ref : GroupRef) (f : PendingGroup → PendingGroup) : HostExecState → HostExecState :=
  set_heap (λ heap, match map_get heap ref with Some g => map_set heap ref (f g) | None => heap end).

(** `groups.get(approvalKey)` *)
Definition open_group (s : HostExecState) (approvalKey : string) : option GroupRef :=
  pair approvalKey <$> map_get (hs_groups s) approvalKey.

(** Members of a request leave, or enter, the five collections of its group. *)
Definition drop_request (requestId : string) (g : PendingGroup) : PendingGroup := {|
  pg_createdAt := pg_createdAt g;
  pg_requestIds := List.filter (λ r, negb (String.eqb r requestId)) (pg_requestIds g);
  pg_waiters := map_delete (pg_waiters g) requestId;
  pg_entries := map_delete (pg_entries g) requestId;
  pg_requests := map_delete (pg_requests g) requestId;
  pg_timer := pg_timer g; pg_aborted := pg_aborted g |}.

Definition add_request (requestId : string) (pending : ExecuteRequest * ResolvedExecution)
    (entry : HostExecPendingEntry) (waiter : nat) (g : PendingGroup) : PendingGroup := {|
  pg_createdAt := pg_createdAt g;
  pg_requestIds := if includes (pg_requestIds g) requestId then pg_requestIds g
                   else pg_requestIds g ++ [requestId];
  pg_waiters := map_set (pg_waiters g) requestId waiter;
  pg_entries := map_set (pg_entries g) requestId entry;
  pg_requests := map_set (pg_requests g) requestId pending;
  pg_timer := pg_timer g; pg_aborted := pg_aborted g |}.

(** `clearTimeout(group.timer)`, `group.notificationAbort.abort()` *)
Definition clear_timer (g : PendingGroup) : PendingGroup := {|
  pg_createdAt := pg_createdAt g; pg_requestIds := pg_requestIds g;
  pg_waiters := pg_waiters g; pg_entries := pg_entries g; pg_requests := pg_requests g;
  pg_timer := None; pg_aborted := pg_aborted g |}.

Definition abort_notification (g : PendingGroup) : PendingGroup := {|
  pg_createdAt := pg_createdAt g; pg_requestIds := pg_requestIds g;
  pg_waiters := pg_waiters g; pg_entries := pg_entries g; pg_requests := pg_requests g;
  pg_timer := pg_timer g; pg_aborted := true |}.

Definition findGroupByRequestId (s : HostExecState) (requestId : string) : option GroupRef :=
  approvalKey ← map_get (hs_requestToApprovalKey s) requestId;
  if String.eqb approvalKey "" then None else open_group s approvalKey.

(** `lifecycle.finish(); waiter.resolve()` *)
Definition release (c : nat) : method () :=
  _ ← modify (set_lifecycle c detach);
  modify (resolve_waiter c).

Definition release_opt (waiter : option nat) : method () :=
  match waiter with Some c => release c | None => mret () end.

Definition removePendingRequest (requestId : string) : method () :=
  s ← get;
  let group := findGroupByRequestId s requestId in
  _ ← modify (set_requestKeys (λ m, map_delete m requestId));
  match group with
  | None => await (RemovePending requestId)
  | Some ref =>
      let waiter := map_get (pg_waiters (group_at s ref)) requestId in
      _ ← modify (update_group ref (drop_request requestId));
      _ ← await (RemovePending requestId);
      s ← get;
      let g := group_at s ref in
      _ ← (if (length (pg_requests g) =? 0)%nat then
             _ ← modify (update_group ref clear_timer);
             _ ← modify (set_groups (λ m,
                   if bool_decide (map_get m ref.1 = Some ref.2) then map_delete m ref.1 else m));
             _ ← modify (update_group ref abort_notification);
             await CloseNotification
           else mret ());
      release_opt waiter
  end.

Section HostExec.
Context `{HostRuntime} (o : HostExecBrokerOptions).
Abbreviation config := (ho_hostexec o).

(** ** Resolving a request *)

Definition workspaceRoot : string := resolve process_cwd [ho_workspaceRoot o].
Definition sessionTmpDir : string := resolve process_cwd [ho_sessionTmpDir o].
Definition installedScriptPath : option string := normalizeInstalledScriptPath (ho_installedScriptPath o).

(** The targets to check: not the installed script. *)
Definition integrityTargets : list string :=
  List.filter (λ target,
    match installedScriptPath with
    | None => true
    | Some p => negb (isAbsolute target) || negb (String.eqb (normalize target) p)
    end) (ho_integrityTargets o).

(** `await realpath(p).catch(() => path.resolve(p))` *)
Definition canonicalizeIntegrityPath (p : string) : method string :=
  try (await (RealPath p)) (λ _, mret (resolve process_cwd [p])).

(** `process.env.HOME || os.homedir()` *)
Definition allow_home : string :=
  match map_get process_env "HOME" with Some "" | None => home_dir | Some home => home end.

Definition resolveAllowEntry (entry : string) : method string :=
  _ ← pause Tick;
  let below prefix root :=
    let resolved := resolve process_cwd [root; drop_str (slen prefix) entry] in
    if assertWithinRoot resolved root then mret resolved
    else fail ("hostexec cwd.allow entry " +:+ dquote +:+ entry +:+ dquote +:+ " escapes its root (" +:+
               root +:+ ")") in
  if startsWith entry "workspace:" then below "workspace:" workspaceRoot
  else if startsWith entry "session_tmp:" then below "session_tmp:" sessionTmpDir
  else canonicalizeIntegrityPath (expandTilde entry allow_home).

(** `Promise.all`; the entries are resolved one after the other here. *)
Fixpoint resolveAllowEntries (entries : list string) : method (list string) :=
  match entries with
  | [] => mret []
  | entry :: entries =>
      resolved ← resolveAllowEntry entry;
      rest ← resolveAllowEntries entries;
      mret (resolved :: rest)
  end.

Definition normalizeAllowedCwd (cwd : string) (rule : HostExecRule) : method string :=
  _ ← pause Tick;
  normalized ← canonicalizeIntegrityPath cwd;
  let withinWorkspace := isWithin normalized workspaceRoot in
  let withinSessionTmp := isWithin normalized sessionTmpDir in
  match hr_cwdMode rule with
  | CwdWorkspaceOnly =>
      if withinWorkspace then mret normalized else fail ("cwd is outside workspace: " +:+ normalized)
  | CwdWorkspaceOrSessionTmp =>
      if withinWorkspace || withinSessionTmp then mret normalized
      else fail ("cwd is outside workspace/session tmp: " +:+ normalized)
  | CwdAllowlist =>
      allowed ← resolveAllowEntries (hr_cwdAllow rule);
      if existsb (isWithin normalized) allowed then mret normalized
      else fail ("cwd is outside allowed paths: " +:+ normalized)
  | CwdAny => mret normalized
  end.

(** The secrets of a rule, one after the other. *)
Fixpoint add_secrets (bindings : list (string * string)) (env : list (string * string)) :
    method (list (string * string)) :=
  match bindings with
  | [] => mret env
  | (key, ref) :: bindings =>
      value ← await (RequireSecret (drop_str (slen "secret:") ref));
      add_secrets bindings (map_set env key value)
  end.

Definition buildEnv (rule : HostExecRule) : method (list (string * string)) :=
  env ← add_secrets (hr_env rule) (buildInheritedEnv (hr_inheritEnv rule) process_env);
  mret (map_set env "GIT_TERMINAL_PROMPT" (default "0" (map_get env "GIT_TERMINAL_PROMPT"))).

Definition is_installed (argv0 : string) : bool := isInstalledScriptRequest installedScriptPath argv0.

(** What the request runs as: the wrapper keeps its path. *)
Definition host_argv0 (rule : HostExecRule) (argv0 : string) : string :=
  if is_installed argv0 then argv0 else hostCommandArgv0 (hr_argv0 rule) argv0.

Definition capability_of (rule : HostExecRule) (hostArgv0 : string) (args : list string) (cwd : string) :
    ResolvedExecutionCapability := {|
  rc_ruleId := hr_id rule;
  rc_argv0 := hostArgv0;
  rc_normalizedArgv := hostArgv0 :: args;
  rc_normalizedCwd := cwd;
  rc_envBindings := sort_by (λ a b, locale_leb a.1 b.1) (hr_env rule);
  rc_inheritEnv := {| ie_mode := ie_mode (hr_inheritEnv rule);
                      ie_keys := sort_strings (ie_keys (hr_inheritEnv rule)) |};
|}.

Definition resolveRequest (message : ExecuteRequest) : method (option ResolvedExecution) :=
  match matchRule (hc_rules config) (er_argv0 message) (er_args message)
          (Some {| mc_cwd := er_cwd message; mc_workspaceRoot := workspaceRoot |}) with
  | None => fail "Invalid regular expression"
  | Some None => mret None
  | Some (Some rule) =>
      normalizedCwd ← normalizeAllowedCwd (er_cwd message) rule;
      envVars ← buildEnv rule;
      mret (Some {|
        rx_rule := rule;
        rx_approval := effectiveApproval rule (er_args message);
        rx_cwd := normalizedCwd;
        rx_capability := capability_of rule (host_argv0 rule (er_argv0 message)) (er_args message)
                           normalizedCwd;
        rx_envVars := envVars |})
  end.

Definition integrityVerdict (request : ExecuteRequest) (resolved : ResolvedExecution) : method IntegrityVerdict :=
  if is_installed (er_argv0 request) then mret IntegrityPass
  else if (length integrityTargets =? 0)%nat then mret IntegrityPass
  else
    let ruleArgv0 := hr_argv0 (rx_rule resolved) in
    if negb (isAbsolute ruleArgv0) && negb (isRelativeHostExecArgv0 ruleArgv0) then mret IntegrityPass
    else
      let hostPath := if isAbsolute (er_argv0 request) then er_argv0 request
                      else resolve process_cwd [rx_cwd resolved; er_argv0 request] in
      canonicalHostPath ← canonicalizeIntegrityPath hostPath;
      s ← get;
      let baseline := map_get (hs_baseline s) canonicalHostPath in
      current ← await (CheckFile canonicalHostPath);
      mret (decideIntegrity baseline current).

(** ** Answering *)

Definition recordAudit (requestId : string) (decision : AuditVerdict) (reason command : string) : method () :=
  if negb (ho_audited o) then pause Tick
  else
    id ← call RandomUUID;
    timestamp ← call CurrentTime;
    await (AppendAuditLog {| hx_id := id; hx_timestamp := timestamp; hx_requestId := requestId;
                             hx_decision := decision; hx_reason := reason; hx_command := command |}).

Definition writeGatewayError (c : nat) (requestId message : string) (state : GatewayState) : method () :=
  await (WriteGateway c (GrError requestId message) state).

Definition commandStr (request : ExecuteRequest) (resolved : ResolvedExecution) : string :=
  join " " (rc_argv0 (rx_capability resolved) :: er_args request).

Definition start_message (request : ExecuteRequest) (resolved : ResolvedExecution) (argv0 : string)
    (args : list string) : StartMessage := {|
  sm_requestId := er_requestId request; sm_argv0 := argv0; sm_args := args; sm_cwd := rx_cwd resolved;
  sm_env := map_set (rx_envVars resolved) "PWD" (rx_cwd resolved) |}.

(** What a request starts: [None] for the usage of the wrapper. *)
Definition start_of (request : ExecuteRequest) (resolved : ResolvedExecution) : option StartMessage :=
  if is_installed (er_argv0 request) then
    payload ← installedScriptPayload (er_args request);
    Some (start_message request resolved payload.1 payload.2)
  else Some (start_message request resolved (rc_argv0 (rx_capability resolved)) (er_args request)).

Definition runGatewayResolved (c : nat) (request : ExecuteRequest) (resolved : ResolvedExecution) : method () :=
  match start_of request resolved with
  | None => await (WriteGateway c (GrFallback (er_requestId request)) StAwaitingDecision)
  | Some start => _ ← emit (StartCommand c start); await (AwaitCommand c)
  end.

Definition toPendingEntry (request : ExecuteRequest) (resolved : ResolvedExecution)
    (approvalKey createdAt updatedAt : string) (integrityChanged : bool) : HostExecPendingEntry := {|
  he_sessionId := er_sessionId request; he_requestId := er_requestId request;
  he_approvalKey := approvalKey; he_ruleId := hr_id (rx_rule resolved);
  he_argv0 := rc_argv0 (rx_capability resolved); he_args := er_args request; he_cwd := rx_cwd resolved;
  he_createdAt := createdAt; he_updatedAt := updatedAt; he_defaultScope := hc_defaultScope config;
  he_capability := rx_capability resolved; he_integrityChanged := integrityChanged |}.

(** ** Resolving a group *)

Inductive Mode : Type := Approve | Deny (message : string).

Definition TIMED_OUT : string := "pending approval timed out".

(** A waiter whose request is decided. *)
Definition answer_waiter (mode : Mode) (requestId : string) (request : ExecuteRequest)
    (resolved : ResolvedExecution) (c : nat) : method () :=
  s ← get;
  match mode with
  | Deny message =>
      if cancelled_in s c then mret ()
      else
        let reason := if String.eqb message TIMED_OUT then "prompt-timeout" else "denied-by-user" in
        _ ← recordAudit requestId AuditDeny reason (commandStr request resolved);
        _ ← ignore_errors (writeGatewayError c requestId message StAwaitingDecision);
        modify (set_lifecycle c (mark Terminal))
  | Approve =>
      if cancelled_in s c then mret ()
      else
        _ ← recordAudit requestId AuditAllow "approved-by-user" (commandStr request resolved);
        s ← get;
        if cancelled_in s c then mret ()
        else
          _ ← modify (set_lifecycle c (mark Running));
          _ ← try (runGatewayResolved c request resolved) (λ e,
                s ← get;
                if cancelled_in s c then mret ()
                else ignore_errors (writeGatewayError c requestId (hx_message e) StAwaitingResult));
          modify (set_lifecycle c (mark Terminal))
  end.

(** The body of the loop of [resolveGroup]. *)
Definition resolve_one (ref : GroupRef) (mode : Mode) (selected : bool)
    (requestId : string) : method () :=
  s ← get;
  let g := group_at s ref in
  match map_get (pg_requests g) requestId with
  | None => mret ()
  | Some (request, resolved) =>
      let waiter := map_get (pg_waiters g) requestId in
      _ ← (if selected then modify (update_group ref (drop_request requestId)) else mret ());
      _ ← modify (set_requestKeys (λ m, map_delete m requestId));
      _ ← await (RemovePending requestId);
      s ← get;
      _ ← (if selected && (length (pg_requests (group_at s ref)) =? 0)%nat then
             _ ← modify (update_group ref clear_timer);
             _ ← modify (set_groups (λ m, map_delete m ref.1));
             _ ← modify (update_group ref abort_notification);
             await CloseNotification
           else mret ());
      match waiter with
      | None => mret ()
      | Some c =>
          _ ← ignore_errors (answer_waiter mode requestId request resolved c);
          release c
      end
  end.

Fixpoint resolve_all (ref : GroupRef) (mode : Mode) (selected : bool)
    (requestIds : list string) : method () :=
  match requestIds with
  | [] => mret ()
  | requestId :: requestIds =>
      _ ← resolve_one ref mode selected requestId;
      resolve_all ref mode selected requestIds
  end.

Definition resolveGroup (approvalKey : string) (mode : Mode) (selected : option string) : method () :=
  s ← get;
  match open_group s approvalKey with
  | None => mret ()
  | Some ref =>
      match selected with
      | Some requestId => resolve_all ref mode true [requestId]
      | None =>
          _ ← modify (update_group ref clear_timer);
          _ ← modify (set_groups (λ m, map_delete m approvalKey));
          _ ← modify (update_group ref abort_notification);
          _ ← await CloseNotification;
          s ← get;
          resolve_all ref mode false (map_keys (pg_requests (group_at s ref)))
      end
  end.

Definition resolvePendingRequest (requestId : string) (mode : Mode) : method () :=
  s ← get;
  match findGroupByRequestId s requestId with
  | None => pause Tick
  | Some ref => resolveGroup ref.1 mode (Some requestId)
  end.

(** ** Executing a request *)

Definition wasCancelled (c : nat) : method bool :=
  s ← get;
  if cancelled_in s c then _ ← pause (CleanedUp c); mret true
  else _ ← pause Tick; mret false.

(** `if (await wasCancelled()) return;` *)
Definition unless_cancelled (c : nat) (m : method ()) : method () :=
  b ← wasCancelled c;
  if b : bool then mret () else m.

(** The same after the request has been registered. *)
Definition remove_if_cancelled (c : nat) (requestId : string) (m : method ()) : method () :=
  b ← wasCancelled c;
  if b : bool then removePendingRequest requestId else m.

(** A denial without asking: audited, answered, terminal. *)
Definition deny_at_once (c : nat) (message : ExecuteRequest) (resolved : ResolvedExecution)
    (reason text : string) : method () :=
  unless_cancelled c
    (_ ← recordAudit (er_requestId message) AuditDeny reason (commandStr message resolved);
     unless_cancelled c
       (_ ← writeGatewayError c (er_requestId message) text StAwaitingDecision;
        modify (set_lifecycle c (mark Terminal)))).

Definition run_at_once (c : nat) (message : ExecuteRequest) (resolved : ResolvedExecution) : method () :=
  let reason := if bool_decide (rx_approval resolved = ApprovalAllow) then "rule-allow"
                else "approved-cached" in
  unless_cancelled c
    (_ ← recordAudit (er_requestId message) AuditAllow reason (commandStr message resolved);
     unless_cancelled c
       (_ ← modify (set_lifecycle c (mark Running));
        _ ← runGatewayResolved c message resolved;
        modify (set_lifecycle c (mark Terminal)))).

Definition new_group (createdAt : string) (message : ExecuteRequest)
    (resolved : ResolvedExecution) (entry : HostExecPendingEntry) (c : nat) : PendingGroup :=
  add_request (er_requestId message) (message, resolved) entry c
    {| pg_createdAt := createdAt; pg_requestIds := []; pg_waiters := [];
       pg_entries := []; pg_requests := []; pg_timer := Some (er_requestId message); pg_aborted := false |}.

Definition createPendingGroup (approvalKey : string) (message : ExecuteRequest)
    (resolved : ResolvedExecution) (integrityChanged : bool) (c : nat) : method () :=
  createdAt ← call CurrentTime;
  updatedAt ← call CurrentTime;
  let entry := toPendingEntry message resolved approvalKey createdAt updatedAt integrityChanged in
  s ← get;
  let number := length (hs_heap s) in
  _ ← modify (set_heap (λ heap, map_set heap (approvalKey, number) (new_group createdAt message resolved entry c)));
  _ ← modify (set_groups (λ m, map_set m approvalKey number));
  _ ← modify (set_requestKeys (λ m, map_set m (er_requestId message) approvalKey));
  _ ← await (WritePending entry);
  emit (Notify entry).

Definition joinPendingGroup (ref : GroupRef) (message : ExecuteRequest)
    (resolved : ResolvedExecution) (integrityChanged : bool) (c : nat) : method () :=
  s ← get;
  let g := group_at s ref in
  if map_has (pg_requests g) (er_requestId message)
  then fail ("duplicate pending request ID: " +:+ er_requestId message)
  else
    updatedAt ← call CurrentTime;
    let entry := toPendingEntry message resolved ref.1 (pg_createdAt g) updatedAt integrityChanged in
    _ ← modify (update_group ref (add_request (er_requestId message) (message, resolved) entry c));
    _ ← modify (set_requestKeys (λ m, map_set m (er_requestId message) ref.1));
    await (WritePending entry).

(** Asking a person, and waiting for the answer. *)
Definition ask (c : nat) (message : ExecuteRequest) (resolved : ResolvedExecution) (approvalKey : string)
    (integrity : IntegrityVerdict) : method () :=
  s ← get;
  let deferred := lc_deferred (lifecycle_of s c) in
  _ ← modify (set_lifecycle c mark_awaiting);
  _ ← match deferred with
      | Some event => handleGatewayLifecycleEvent c (er_requestId message) event
      | None => mret ()
      end;
  unless_cancelled c
    (s ← get;
     let changed := bool_decide (integrity = IntegrityPrompt) in
     let wait := remove_if_cancelled c (er_requestId message) (pause (Decided c)) in
     match open_group s approvalKey with
     | None =>
         _ ← createPendingGroup approvalKey message resolved changed c;
         remove_if_cancelled c (er_requestId message) wait
     | Some ref =>
         _ ← joinPendingGroup ref message resolved changed c;
         wait
     end).

(** What is done with a request once its file has been checked. *)
Definition decide_request (c : nat) (message : ExecuteRequest) (resolved : ResolvedExecution)
    (approvalKey : string) (integrity : IntegrityVerdict) : method () :=
  if bool_decide (integrity = IntegrityPrompt) && negb (hc_promptEnable config) then
    deny_at_once c message resolved "integrity-mismatch"
      "hostexec target changed since session start; approval required but prompt is disabled"
  else
    s ← get;
    if bool_decide (integrity = IntegrityPass) &&
       (bool_decide (rx_approval resolved = ApprovalAllow) ||
        includes (hs_approvedKeys s) approvalKey || negb (hc_promptEnable config))
    then
      if bool_decide (rx_approval resolved = ApprovalPrompt) && negb (hc_promptEnable config)
      then deny_at_once c message resolved "prompt-disabled" "hostexec prompt is disabled"
      else run_at_once c message resolved
    else ask c message resolved approvalKey integrity.

Definition approval_key (capability : ResolvedExecutionCapability) : method string :=
  let data := canonicalJson (capability_json capability) in
  _ ← await (Digest data);
  mret (sha256_hex data).

Definition executeStreaming (c : nat) (message : ExecuteRequest) : method () :=
  resolved ← resolveRequest message;
  unless_cancelled c
    match resolved with
    | None =>
        _ ← await (WriteGateway c (GrFallback (er_requestId message)) StAwaitingDecision);
        modify (set_lifecycle c (mark Terminal))
    | Some resolved =>
        if bool_decide (rx_approval resolved = ApprovalDeny) then
          deny_at_once c message resolved "policy-deny" "permission denied by hostexec policy"
        else
          approvalKey ← approval_key (rx_capability resolved);
          unless_cancelled c
            (integrity ← try (v ← integrityVerdict message resolved; mret (inl v)) (λ e, mret (inr e));
             match integrity with
             | inr e => deny_at_once c message resolved "integrity-check-error"
                          ("hostexec integrity check failed: " +:+ error_text e)
             | inl integrity => decide_request c message resolved approvalKey integrity
             end)
    end.

(** ** Control requests *)

Definition not_found (requestId : string) : ControlResponse :=
  CrError requestId ("Pending request not found: " +:+ requestId).

Definition approve (requestId : string) (scope : option string) : method ControlResponse :=
  s ← get;
  match findGroupByRequestId s requestId with
  | None => mret (not_found requestId)
  | Some ref =>
      let key := ref.1 in
      let refused := match scope with
                     | Some scope => if includes ALLOWED_HOSTEXEC_SCOPES scope then None else Some scope
                     | None => None
                     end in
      match refused with
      | Some scope => mret (CrError requestId ("scope not allowed for this request: " +:+ scope))
      | None =>
          let selectedScope := default (HostExecPromptScope_string (hc_defaultScope config)) scope in
          _ ← (if String.eqb selectedScope "capability" then
                 _ ← modify (set_approvedKeys (λ keys, if includes keys key then keys else keys ++ [key]));
                 resolveGroup key Approve None
               else resolvePendingRequest requestId Approve);
          mret (CrAck requestId AuditAllow)
      end
  end.

Definition DENIED : string := "permission denied by user".

Definition deny (requestId : string) : method ControlResponse :=
  s ← get;
  match findGroupByRequestId s requestId with
  | None => mret (not_found requestId)
  | Some _ =>
      _ ← resolvePendingRequest requestId (Deny DENIED);
      mret (CrAck requestId AuditDeny)
  end.

Definition handleControlMessage (message : ControlMessage) : method ControlResponse :=
  match message with
  | CmListPending => items ← await ListPending; mret (CrPending items)
  | CmApprove requestId scope => approve requestId scope
  | CmDeny requestId => deny requestId
  | CmExecute requestId => mret (CrError requestId "execute is not accepted on the control channel")
  end.

Definition toErrorResponse (message : ControlMessage) (errorMessage : string) : ControlResponse :=
  match message with
  | CmApprove requestId _ | CmDeny requestId | CmExecute requestId => CrError requestId errorMessage
  | CmListPending => CrPending []
  end.

(** ** Connections *)

(** `try { m } finally { f }` *)
Definition finally {A} (m : method A) (f : method ()) : method A :=
  r ← try (inl <$> m) (λ e, mret (inr e));
  _ ← f;
  match r with inl a => mret a | inr e => Throw e end.

Definition PIPE_CLOSED : list string := ["EPIPE"; "ECONNRESET"].

(** The connection of a request that is not active yet. *)
Definition serve (c : nat) (request : ExecuteRequest) : method () :=
  let requestId := er_requestId request in
  finally
    (_ ← modify (set_active (λ ids, requestId :: ids));
     _ ← modify (add_lifecycle c);
     _ ← emit (StartMonitor c);
     _ ← modify (set_lifecycle c (with_monitoring true));
     _ ← modify (set_lifecycle c (set_cleanup requestId));
     try (executeStreaming c request) (λ e,
       s ← get;
       if cancelled_in s c then mret ()
       else try (writeGatewayError c requestId (hx_message e) StAwaitingResult) (λ e,
              if has_code e PIPE_CLOSED then mret () else Throw e)))
    (_ ← modify (set_lifecycle c detach);
     _ ← emit (CloseReader c);
     modify (set_active (List.filter (λ id, negb (String.eqb id requestId))))).

Definition handleGatewayConnection (c : nat) : method () :=
  line ← try (await (ReadFrame c)) (λ _, mret None);
  match line with
  | Some (inl (GmExecute request)) =>
      s ← get;
      if includes (hs_activeRequestIds s) (er_requestId request) then
        _ ← ignore_errors (writeGatewayError c (er_requestId request) "duplicate active request ID"
                             StAwaitingDecision);
        emit (CloseReader c)
      else serve c request
  | _ => emit (CloseReader c)
  end.

Definition handleControlConnection (c : nat) : method () :=
  line ← await (ReadControl c);
  match line with
  | None => mret ()
  | Some value =>
      match parseHostExecControlMessage value with
      | None => await (WriteControl c (CrError "" "invalid control request"))
      | Some message =>
          response ← try (handleControlMessage message) (λ e, mret (toErrorResponse message (hx_message e)));
          try (await (WriteControl c response)) (λ e,
            if has_code e PIPE_CLOSED then mret () else Throw e)
      end
  end.

Inductive Channel : Type := InternalChannel | ControlChannel.

Definition handleConnection (channel : Channel) (c : nat) : method () :=
  _ ← ignore_errors match channel with
                    | InternalChannel => handleGatewayConnection c
                    | ControlChannel => handleControlConnection c
                    end;
  emit (DestroySocket c).

(** ** Start and close *)

Fixpoint snapshot_all (targets : list string) : method () :=
  match targets with
  | [] => mret ()
  | target :: targets =>
      canonicalTarget ← canonicalizeIntegrityPath target;
      _ ← ignore_errors (snapshot ← await (SnapshotFile canonicalTarget);
                         modify (set_baseline canonicalTarget snapshot));
      snapshot_all targets
  end.

Definition dirname (p : string) : string := resolve process_cwd [p; ".."].

Definition start (internalSocketPath controlSocketPath : string) : method () :=
  _ ← await (Diagnose "broker_started");
  _ ← modify (set_sockets (Some (internalSocketPath, controlSocketPath)));
  _ ← await (Filesystem "mkdir" (dirname controlSocketPath));
  _ ← await (Filesystem "mkdir" (dirname internalSocketPath));
  _ ← await (Filesystem "rm" controlSocketPath);
  _ ← await (Filesystem "rm" internalSocketPath);
  _ ← await (ListenUnix controlSocketPath);
  _ ← await (ListenUnix internalSocketPath);
  snapshot_all integrityTargets.

(** The waiters of a group, read again after each answer; [fuel] bounds the rounds. *)
Fixpoint close_waiters (fuel : nat) (ref : GroupRef) (seen : list string) : method () :=
  match fuel with
  | 0 => mret ()
  | S fuel =>
      s ← get;
      match List.find (λ e, negb (includes seen e.1)) (pg_waiters (group_at s ref)) with
      | None => mret ()
      | Some (requestId, c) =>
          _ ← ignore_errors (writeGatewayError c requestId "hostexec broker closed" StAwaitingDecision);
          _ ← release c;
          close_waiters fuel ref (requestId :: seen)
      end
  end.

(** The groups in the order of their creation, read again after each. *)
Fixpoint close_groups (fuel : nat) (next : nat) : method () :=
  match fuel with
  | 0 => mret ()
  | S fuel =>
      s ← get;
      match List.find (λ e, (next <=? e.2)%nat) (hs_groups s) with
      | None => mret ()
      | Some ref =>
          _ ← modify (update_group ref clear_timer);
          _ ← modify (update_group ref abort_notification);
          _ ← close_waiters fuel ref [];
          close_groups fuel (S ref.2)
      end
  end.

Definition remove_sockets (sockets : option (string * string)) : method () :=
  let controlTarget := default (ho_brokerSocketPath o) (snd <$> sockets) in
  _ ← match sockets with
      | Some (internalSocketPath, _) =>
          _ ← ignore_errors (await (Filesystem "rm" internalSocketPath));
          ignore_errors (await (Filesystem "rmdir" (dirname internalSocketPath)))
      | None => mret ()
      end;
  _ ← ignore_errors (await (Filesystem "rm" controlTarget));
  ignore_errors (await (Filesystem "rmdir" (dirname controlTarget))).

Definition close (fuel : nat) : method () :=
  _ ← await (Diagnose "broker_closing");
  _ ← emit CloseServers;
  _ ← close_groups fuel 0;
  _ ← await SettleNotifications;
  _ ← modify (set_groups (λ _, []));
  _ ← modify (set_requestKeys (λ _, []));
  _ ← modify (set_active (λ _, []));
  _ ← await RemovePendingDir;
  _ ← await RemoveSessionRegistry;
  _ ← match ho_secretsFramePath o with
      | Some p => ignore_errors (await (Filesystem "rm" p))
      | None => mret ()
      end;
  s ← get;
  _ ← remove_sockets (hs_sockets s);
  await (Diagnose "broker_closed").

(** ** Runs *)

(** The answers an operation can have: a settled promise does not reject, and the
    promises of the broker are answered once they are resolved. *)
Definition permits (s : HostExecState) (io : HostIO) : host_reply io + HostError → bool :=
  match io return host_reply io + HostError → bool with
  | Tick => λ r, match r with inl _ => true | inr _ => false end
  | Decided c => λ r, match r with inl _ => includes (hs_resolved s) c | inr _ => false end
  | CleanedUp c => λ r,
      match r with
      | inl _ => match lc_task (lifecycle_of s c) with NoCleanup | CleanupDone => true | _ => false end
      | inr _ => false
      end
  | _ => λ _, true
  end.

Inductive HostEvent : Type :=
  | Start (internalSocketPath controlSocketPath : string)
  | Connect (channel : Channel)
  | Wake (thread : nat)
  (** the socket closes, or fails with a message *)
  | SocketEnds (c : nat) (failure : option string)
  | MonitorFires (c : nat) (event : MonitorEvent)
  | CleanupRuns (c : nat)
  | TimerFires (ref : GroupRef)
  | Close (fuel : nat).

Definition socket_ends (c : nat) (failure : option string) : method () :=
  s ← get;
  if lc_attached (lifecycle_of s c) && map_has (hs_lifecycles s) c then
    cancel c (error match failure with
                    | None => "gateway disconnected"
                    | Some message => "gateway transport error: " +:+ message
                    end)
  else mret ().

Definition monitor_fires (c : nat) (event : MonitorEvent) : method () :=
  s ← get;
  let lc := lifecycle_of s c in
  match lc_cleanup lc with
  | Some requestId =>
      if lc_monitoring lc then
        _ ← modify (set_lifecycle c (with_monitoring false));
        handleGatewayLifecycleEvent c requestId event
      else mret ()
  | None => mret ()
  end.

Definition cleanup_runs (c : nat) : method () :=
  s ← get;
  let lc := lifecycle_of s c in
  match lc_cleanup lc with
  | Some requestId =>
      if bool_decide (lc_task lc = CleanupScheduled) then
        _ ← modify (set_lifecycle c (with_task CleanupRunning));
        _ ← ignore_errors (removePendingRequest requestId);
        modify (set_lifecycle c (with_task CleanupDone))
      else mret ()
  | None => mret ()
  end.

(** The timer of a group that is still set. *)
Definition timer_fires (ref : GroupRef) : method () :=
  s ← get;
  let g := group_at s ref in
  match pg_timer g with
  | Some requestId =>
      _ ← modify (update_group ref clear_timer);
      resolveGroup ref.1 (Deny TIMED_OUT) None
  | None => mret ()
  end.

Definition HostPool : Type := pool HostExecState ().

Definition host_answers : Type := ∀ io : HostIO, host_reply io + HostError.

Definition host_step (pl : HostPool) (event : HostEvent * host_answers) : HostPool :=
  let '(event, answers) := event in
  match event with
  | Start internalSocketPath controlSocketPath =>
      launch answers pl (λ _, start internalSocketPath controlSocketPath)
  | Connect channel => launch answers pl (handleConnection channel)
  | Wake thread => wake permits answers pl thread
  | SocketEnds c failure => launch answers pl (λ _, socket_ends c failure)
  | MonitorFires c event => launch answers pl (λ _, monitor_fires c event)
  | CleanupRuns c => launch answers pl (λ _, cleanup_runs c)
  | TimerFires ref => launch answers pl (λ _, timer_fires ref)
  | Close fuel => launch answers pl (λ _, close fuel)
  end.

Definition host_run (events : list (HostEvent * host_answers)) : HostPool :=
  fold_left host_step events (empty_pool () new_host_state []).
End HostExec.
