(* ===== verification/HostExecLaws.v ===== *)
(** * The invariant of the broker of host commands

    What the trace says about a request: that it was asked on a connection, what it
    resolved to, that its file is unchanged, that a person approved it.  The invariant
    says it of every request the broker holds and of every command it started;
    every method keeps it at each of its waits. *)
From S2P Require Import Prelude JsString Json Broker NodePath HostMatch GatewayProtocol.
From S2P Require Import Effects Threads HostExec.

(** ** What the trace says *)

Section Trace.
Context `{HostRuntime} (o : HostExecBrokerOptions).

(** An operation was answered so. *)
Definition happened (w : Trace) (io : HostIO) (r : host_reply io) : Prop := In (existT io (inl r)) w.

(** Connection [c] asked for the request. *)
Definition asked (w : Trace) (c : nat) (request : ExecuteRequest) : Prop :=
  happened w (ReadFrame c) (Some (inl (GmExecute request))).

Definition canonical (w : Trace) (p canonicalPath : string) : Prop :=
  happened w (RealPath p) canonicalPath ∨ canonicalPath = resolve process_cwd [p].

(** The directory an entry of `cwd.allow` stands for. *)
Definition allow_root (w : Trace) (entry root : string) : Prop :=
  (∃ base prefix, (base = workspaceRoot o ∧ prefix = "workspace:" ∨
                   base = sessionTmpDir o ∧ prefix = "session_tmp:") ∧
     startsWith entry prefix = true ∧
     root = resolve process_cwd [base; drop_str (slen prefix) entry] ∧
     assertWithinRoot root base = true) ∨
  canonical w (expandTilde entry allow_home) root.

Definition cwd_allowed (w : Trace) (rule : HostExecRule) (cwd normalized : string) : Prop :=
  canonical w cwd normalized ∧
  match hr_cwdMode rule with
  | CwdWorkspaceOnly => isWithin normalized (workspaceRoot o) = true
  | CwdWorkspaceOrSessionTmp =>
      isWithin normalized (workspaceRoot o) = true ∨ isWithin normalized (sessionTmpDir o) = true
  | CwdAllowlist => ∃ entry root, In entry (hr_cwdAllow rule) ∧ allow_root w entry root ∧
                      isWithin normalized root = true
  | CwdAny => True
  end.

(** Every variable is inherited, or a secret the rule names for it. *)
Definition env_built (w : Trace) (rule : HostExecRule) (env : list (string * string)) : Prop :=
  ∀ key value, In (key, value) env →
    In (key, value) (buildInheritedEnv (hr_inheritEnv rule) process_env) ∨
    (∃ ref, In (key, ref) (hr_env rule) ∧ happened w (RequireSecret (drop_str (slen "secret:") ref)) value) ∨
    key = "GIT_TERMINAL_PROMPT".

Record resolution (w : Trace) (request : ExecuteRequest) (resolved : ResolvedExecution) : Prop := {
  rs_rule : matchRule (hc_rules (ho_hostexec o)) (er_argv0 request) (er_args request)
      (Some {| mc_cwd := er_cwd request; mc_workspaceRoot := workspaceRoot o |}) = Some (Some (rx_rule resolved));
  rs_approval : rx_approval resolved = effectiveApproval (rx_rule resolved) (er_args request);
  rs_cwd : cwd_allowed w (rx_rule resolved) (er_cwd request) (rx_cwd resolved);
  rs_capability : rx_capability resolved =
    capability_of (rx_rule resolved) (host_argv0 o (rx_rule resolved) (er_argv0 request)) (er_args request)
      (rx_cwd resolved);
  rs_env : env_built w (rx_rule resolved) (rx_envVars resolved);
}.

Definition key_of (resolved : ResolvedExecution) : string := buildApprovalKey (rx_capability resolved).

(** The file of a request is as it was when the broker started, or the request is
    not subject to the check. *)
Definition integrity_passes (w : Trace) (request : ExecuteRequest) (resolved : ResolvedExecution) : Prop :=
  is_installed o (er_argv0 request) = true ∨ integrityTargets o = [] ∨
  isBareCommandHostExecArgv0 (hr_argv0 (rx_rule resolved)) = true ∨
  ∃ path baseline current,
    canonical w (if isAbsolute (er_argv0 request) then er_argv0 request
                 else resolve process_cwd [rx_cwd resolved; er_argv0 request]) path ∧
    happened w (SnapshotFile path) baseline ∧ happened w (CheckFile path) current ∧
    decideIntegrity (Some baseline) current = IntegrityPass.

(** What an approval of a request approves. *)
Definition selected_scope (scope : option string) : string :=
  default (HostExecPromptScope_string (hc_defaultScope (ho_hostexec o))) scope.

Definition approves (value : JsonValue) (requestId scope : string) : Prop :=
  ∃ scope', parseHostExecControlMessage value = Some (CmApprove requestId scope') ∧
    selected_scope scope' = scope.

(** After the request was asked a person approved it alone. *)
Definition approved_once (w : Trace) (c : nat) (request : ExecuteRequest) : Prop :=
  ∃ before after c' value,
    w = before ++ existT (ReadControl c') (inl (Some value)) :: after ∧ asked before c request ∧
    approves value (er_requestId request) "once".

(** A person approved the capability of a request that was asked before. *)
Definition approved_key (w : Trace) (key : string) : Prop :=
  ∃ before after c' value c request resolved,
    w = before ++ existT (ReadControl c') (inl (Some value)) :: after ∧ asked before c request ∧
    resolution before request resolved ∧ key_of resolved = key ∧
    approves value (er_requestId request) "capability".

(** Why a command may start, by the reason the audit log gives. *)
Inductive warrant (w : Trace) (c : nat) (request : ExecuteRequest) (resolved : ResolvedExecution) :
    string → Prop :=
  | Rule_allows : rx_approval resolved = ApprovalAllow → integrity_passes w request resolved →
      warrant w c request resolved "rule-allow"
  | Approved_before : rx_approval resolved = ApprovalPrompt → integrity_passes w request resolved →
      approved_key w (key_of resolved) → warrant w c request resolved "approved-cached"
  | Person_approves_key : approved_key w (key_of resolved) → warrant w c request resolved "approved-by-user"
  | Person_approves : approved_once w c request → warrant w c request resolved "approved-by-user".

Definition audited (w : Trace) (requestId reason command : string) : Prop :=
  ho_audited o = true →
  ∃ id timestamp, happened w (AppendAuditLog {|
    hx_id := id; hx_timestamp := timestamp; hx_requestId := requestId; hx_decision := AuditAllow;
    hx_reason := reason; hx_command := command |}) ().

(** A command may start on a connection. *)
Definition justified (w : Trace) (c : nat) (start : StartMessage) : Prop :=
  ∃ request resolved reason,
    asked w c request ∧ resolution w request resolved ∧ start_of o request resolved = Some start ∧
    rx_approval resolved ≠ ApprovalDeny ∧ warrant w c request resolved reason ∧
    audited w (er_requestId request) reason (commandStr request resolved).

Definition starts_justified (w : Trace) : Prop :=
  ∀ before c start r after,
    w = before ++ existT (StartCommand c start) r :: after → justified before c start.

(** ** The trace grows *)

Lemma happened_app w w' io r : happened w io r → happened (w ++ w') io r.
Proof. unfold happened. rewrite in_app_iff. auto. Qed.

Lemma happened_last w io r : happened (w ++ [existT io (inl r)]) io r.
Proof. apply in_app_iff. right. by left. Qed.

Lemma canonical_app w w' p q : canonical w p q → canonical (w ++ w') p q.
Proof. intros [Hh|Hh]; [left; by apply happened_app|by right]. Qed.

Lemma resolution_app w w' request resolved :
  resolution w request resolved → resolution (w ++ w') request resolved.
Proof.
  intros [H1 H2 [Hc H3] H4 H5]. split; [done|done| |done|].
  - split; [by apply canonical_app|]. destruct (hr_cwdMode _); [done|done| |done].
    destruct H3 as (entry & root & Hin & Hr & Hw). exists entry, root. split_and!; [done| |done].
    destruct Hr as [Hr|Hr]; [by left|right]. by apply canonical_app.
  - intros key value Hin. destruct (H5 key value Hin) as [?|[(ref & Hr & Hh)|?]]; [by left| |by auto].
    right. left. exists ref. split; [done|]. by apply happened_app.
Qed.

Lemma asked_app w w' c request : asked w c request → asked (w ++ w') c request.
Proof. apply happened_app. Qed.

Lemma integrity_app w w' request resolved :
  integrity_passes w request resolved → integrity_passes (w ++ w') request resolved.
Proof.
  intros [?|[?|[?|(p & b & cur & Hc & H1 & H2 & Hd)]]]; [by left|by right; left|by do 2 right; left|].
  do 3 right. exists p, b, cur. split_and!; [by apply canonical_app|by apply happened_app..|done].
Qed.

Lemma approved_key_app w w' key : approved_key w key → approved_key (w ++ w') key.
Proof.
  intros (before & after & c' & value & c & request & resolved & -> & Hk).
  exists before, (after ++ w'), c', value, c, request, resolved. split; [by rewrite <- app_assoc|done].
Qed.

Lemma warrant_app w w' c request resolved reason :
  warrant w c request resolved reason → warrant (w ++ w') c request resolved reason.
Proof.
  intros [H1 H2|H1 H2 H3|H1|(before & after & c' & value & -> & H1)].
  - apply Rule_allows; [done|by apply integrity_app].
  - apply Approved_before; [done|by apply integrity_app|by apply approved_key_app].
  - by apply Person_approves_key, approved_key_app.
  - apply Person_approves. exists before, (after ++ w'), c', value. split; [by rewrite <- app_assoc|done].
Qed.

Lemma starts_justified_nil : starts_justified [].
Proof. intros before c start r after Hw. by destruct before. Qed.

Lemma starts_justified_snoc w io r :
  starts_justified w →
  match io with StartCommand c start => justified w c start | _ => True end →
  starts_justified (w ++ [existT io r]).
Proof.
  intros Hw Hio before c start r' after Heq. destruct after as [|e after _] using rev_ind.
  - apply app_inj_tail in Heq as [-> Heq]. apply (f_equal (@projT1 _ _)) in Heq. cbn in Heq. by subst io.
  - rewrite app_comm_cons, app_assoc in Heq. apply app_inj_tail in Heq as [-> _]. by eapply Hw.
Qed.
End Trace.

(** ** The invariant *)

Section Invariant.
Context `{HostRuntime} (o : HostExecBrokerOptions).

(** What is known of a request the broker holds. *)
Record held (w : Trace) (key requestId : string) (request : ExecuteRequest) (resolved : ResolvedExecution) :
    Prop := {
  held_id : requestId = er_requestId request;
  held_key : key = key_of resolved;
  held_resolution : resolution o w request resolved;
  held_approval : rx_approval resolved ≠ ApprovalDeny;
  held_asked : ∃ c, asked w c request;
}.

Record group_ok (w : Trace) (key : string) (g : PendingGroup) : Prop := {
  go_requests : ∀ requestId request resolved, In (requestId, (request, resolved)) (pg_requests g) →
    held w key requestId request resolved;
  go_waiters : ∀ requestId c request resolved, map_get (pg_waiters g) requestId = Some c →
    map_get (pg_requests g) requestId = Some (request, resolved) → asked w c request;
  go_request_keys : List.NoDup (map_keys (pg_requests g));
  go_waiter_keys : List.NoDup (map_keys (pg_waiters g));
}.

Record ok (s : HostExecState) (w : Trace) : Prop := {
  ok_starts : starts_justified o w;
  ok_keys : ∀ key, In key (hs_approvedKeys s) → approved_key o w key;
  ok_heap : ∀ ref g, In (ref, g) (hs_heap s) → group_ok w ref.1 g;
  ok_index : ∀ requestId key, In (requestId, key) (hs_requestToApprovalKey s) →
    ∃ request resolved, held w key requestId request resolved;
  ok_baseline : ∀ path snapshot, In (path, snapshot) (hs_baseline s) → happened w (SnapshotFile path) snapshot;
}.

Lemma held_app w w' key requestId request resolved :
  held w key requestId request resolved → held (w ++ w') key requestId request resolved.
Proof.
  intros [H1 H2 H3 H4 [c H5]]. split; [done|done|by apply resolution_app|done|exists c; by apply asked_app].
Qed.

Lemma group_ok_app w w' key g : group_ok w key g → group_ok (w ++ w') key g.
Proof. intros [H1 H2 H3 H4]. split; eauto using held_app, asked_app. Qed.

(** The world may grow by anything but a start. *)
Lemma ok_snoc s w io r :
  match io with StartCommand c start => justified o w c start | _ => True end →
  ok s w → ok s (w ++ [existT io r]).
Proof.
  intros Hio [H1 H2 H3 H4 H5]. split; eauto using approved_key_app, group_ok_app, happened_app.
  - by apply starts_justified_snoc.
  - intros requestId key Hin. destruct (H4 requestId key Hin) as (request & resolved & Hh).
    exists request, resolved. by apply held_app.
Qed.

Lemma ok_new : ok new_host_state [].
Proof. split; cbn; try done; [apply starts_justified_nil|by intros []..]. Qed.

(** Changes of the state that the invariant does not speak of. *)
Record same_books (s s' : HostExecState) : Prop := {
  sb_keys : hs_approvedKeys s' = hs_approvedKeys s;
  sb_heap : hs_heap s' = hs_heap s;
  sb_index : hs_requestToApprovalKey s' = hs_requestToApprovalKey s;
  sb_baseline : hs_baseline s' = hs_baseline s;
}.

Lemma ok_same_books s s' w : same_books s s' → ok s w → ok s' w.
Proof. intros [E1 E2 E3 E4] [H1 H2 H3 H4 H5]. by split; rewrite ?E1, ?E2, ?E3, ?E4. Qed.

Lemma books_lifecycle c f s : same_books s (set_lifecycle c f s). Proof. done. Qed.
Lemma books_add_lifecycle c s : same_books s (add_lifecycle c s). Proof. done. Qed.
Lemma books_active f s : same_books s (set_active f s). Proof. done. Qed.
Lemma books_resolve c s : same_books s (resolve_waiter c s). Proof. done. Qed.
Lemma books_groups f s : same_books s (set_groups f s). Proof. done. Qed.
Lemma books_sockets x s : same_books s (set_sockets x s). Proof. done. Qed.

(** A group that changes. *)
Lemma ok_set_group s w ref g :
  group_ok w ref.1 g → ok s w → ok (set_heap (λ heap, map_set heap ref g) s) w.
Proof.
  intros Hg [H1 H2 H3 H4 H5]. split; cbn; [done|done| |done|done].
  intros ref' g' [[= -> ->]|Hin]%map_set_In; [done|by apply H3].
Qed.

Lemma ok_update_group s w ref f :
  (∀ g, group_ok w ref.1 g → group_ok w ref.1 (f g)) → ok s w → ok (update_group ref f s) w.
Proof.
  intros Hf Hok. unfold update_group. pose proof (ok_set_group s w ref) as Hset. unfold set_heap in *.
  destruct (map_get (hs_heap s) ref) as [g|] eqn:Eg.
  - apply Hset; [|done]. by eapply Hf, ok_heap, map_get_In.
  - by destruct s.
Qed.

Lemma group_ok_default w key : group_ok w key no_group.
Proof. split; cbn; try done; constructor. Qed.

Lemma group_at_ok s w ref : ok s w → group_ok w ref.1 (group_at s ref).
Proof.
  intros Hok. unfold group_at. destruct (map_get (hs_heap s) ref) as [g|] eqn:Eg; cbn.
  - by eapply ok_heap, map_get_In.
  - apply group_ok_default.
Qed.

Lemma ok_clear_timer s w ref : ok s w → ok (update_group ref clear_timer s) w.
Proof. apply ok_update_group. intros g [H1 H2 H3 H4]. by split. Qed.

Lemma ok_abort s w ref : ok s w → ok (update_group ref abort_notification s) w.
Proof. apply ok_update_group. intros g [H1 H2 H3 H4]. by split. Qed.

Lemma map_delete_keys_NoDup {V} (m : list (string * V)) k :
  List.NoDup (map_keys m) → List.NoDup (map_keys (map_delete m k)).
Proof. apply sublist_keys_NoDup, map_delete_sublist. Qed.

Lemma ok_drop_request s w ref requestId : ok s w → ok (update_group ref (drop_request requestId) s) w.
Proof.
  apply ok_update_group. intros g [H1 H2 H3 H4]. split; cbn.
  - intros r request resolved Hin%map_delete_In. by apply H1.
  - intros r c request resolved Hc Hr. apply map_get_In, map_delete_In in Hr as Hr', Hc as Hc'.
    apply (map_get_NoDup _ _ _ H3) in Hr'. apply (map_get_NoDup _ _ _ H4) in Hc'. eauto.
  - by apply map_delete_keys_NoDup.
  - by apply map_delete_keys_NoDup.
Qed.

(** A request that enters a group. *)
Lemma group_ok_add w key g requestId request resolved entry c :
  held w key requestId request resolved → asked w c request → group_ok w key g →
  group_ok w key (add_request requestId (request, resolved) entry c g).
Proof.
  intros Hh Ha [H1 H2 H3 H4]. split; cbn.
  - intros r req res [[= -> -> ->]|Hin]%map_set_In; [done|by apply H1].
  - intros r c' req res. rewrite !map_get_set. case_decide; [|apply H2]. by intros [= <-] [= <- <-].
  - by apply map_set_NoDup.
  - by apply map_set_NoDup.
Qed.

Lemma group_ok_new w key createdAt request resolved entry c :
  held w key (er_requestId request) request resolved → asked w c request →
  group_ok w key (new_group createdAt request resolved entry c).
Proof. intros Hh Ha. apply group_ok_add; [done|done|]. split; cbn; try done; constructor. Qed.

Lemma ok_approve s w key : approved_key o w key → ok s w →
  ok (set_approvedKeys (λ keys, if includes keys key then keys else keys ++ [key]) s) w.
Proof.
  intros Hk [H1 H2 H3 H4 H5]. split; cbn; try done. intros key'.
  destruct (includes _ key); [apply H2|]. intros [Hin|[<-|[]]]%in_app_iff; [by apply H2|done].
Qed.

Lemma ok_index_set s w requestId key request resolved :
  held w key requestId request resolved → ok s w →
  ok (set_requestKeys (λ m, map_set m requestId key) s) w.
Proof.
  intros Hh [H1 H2 H3 H4 H5]. split; cbn; try done.
  intros r k [[= -> ->]|Hin]%map_set_In; [by exists request, resolved|by apply H4].
Qed.

Lemma ok_index_fewer s w f : (∀ m x, In x (f m) → In x m) → ok s w → ok (set_requestKeys f s) w.
Proof. intros Hf [H1 H2 H3 H4 H5]. split; cbn; eauto. Qed.

Lemma ok_index_delete s w requestId : ok s w → ok (set_requestKeys (λ m, map_delete m requestId) s) w.
Proof. apply ok_index_fewer. intros m x. apply map_delete_In. Qed.

Lemma ok_index_clear s w : ok s w → ok (set_requestKeys (λ _, []) s) w.
Proof. by apply ok_index_fewer. Qed.

Lemma ok_set_baseline s w path snapshot :
  happened w (SnapshotFile path) snapshot → ok s w → ok (set_baseline path snapshot s) w.
Proof.
  intros Hh [H1 H2 H3 H4 H5]. split; cbn; try done. intros p x [[= -> ->]|Hin]%map_set_In; [done|by apply H5].
Qed.
End Invariant.

(** ** Methods that keep the invariant

    [triple P m R]: from a state that is [ok] and a trace of which [P] holds, [m]
    keeps the invariant at every wait and at its end, where [R] holds of its result.
    What holds of a trace and of every longer one is [Persistent]. *)

Class Persistent (P : Trace → Prop) : Prop := persists : ∀ w w', P w → P (w ++ w').

#[export] Instance persistent_const (P : Prop) : Persistent (λ _, P).
Proof. by intros w w' Hp. Qed.
#[export] Instance persistent_and P Q : Persistent P → Persistent Q → Persistent (λ w, P w ∧ Q w).
Proof. intros HP HQ w w' [Hp Hq]. split; [by apply HP|by apply HQ]. Qed.
#[export] Instance persistent_happened io r : Persistent (λ w, happened w io r).
Proof. intros w w'. apply happened_app. Qed.
#[export] Instance persistent_asked c request : Persistent (λ w, asked w c request).
Proof. intros w w'. apply asked_app. Qed.
#[export] Instance persistent_canonical `{HostRuntime} p q : Persistent (λ w, canonical w p q).
Proof. intros w w'. apply canonical_app. Qed.
#[export] Instance persistent_resolution `{HostRuntime} o request resolved :
  Persistent (λ w, resolution o w request resolved).
Proof. intros w w'. apply resolution_app. Qed.
#[export] Instance persistent_warrant `{HostRuntime} o c request resolved reason :
  Persistent (λ w, warrant o w c request resolved reason).
Proof. intros w w'. apply warrant_app. Qed.
#[export] Instance persistent_approved_key `{HostRuntime} o key : Persistent (λ w, approved_key o w key).
Proof. intros w w'. apply approved_key_app. Qed.
#[export] Instance persistent_integrity `{HostRuntime} o request resolved :
  Persistent (λ w, integrity_passes o w request resolved).
Proof. intros w w'. apply integrity_app. Qed.
#[export] Instance persistent_implies (Q : Prop) P : Persistent P → Persistent (λ w, Q → P w).
Proof. intros HP w w' Hp Hq. by apply HP, Hp. Qed.

Section Triples.
Context `{HostRuntime} (o : HostExecBrokerOptions).

Abbreviation others := (among_others prefix permits (ok o)).
Abbreviation safely := (safe others (ok o)).

Definition triple {A} (P : Trace → Prop) (m : method A) (R : Trace → A → Prop) : Prop :=
  ∀ s w, ok o s w → P w →
    safely (λ s' w' r, ok o s' w' ∧ w `prefix_of` w' ∧ match r with inl a => R w' a | inr _ => True end) m s w.

(** Nothing but the invariant. *)
Definition keeps {A} (m : method A) : Prop := triple (λ _, True) m (λ _ _, True).

Lemma persists_prefix P `{!Persistent P} w w' : w `prefix_of` w' → P w → P w'.
Proof. intros [t ->] Hp. by apply persists. Qed.

Lemma triple_mono {A} (P P' : Trace → Prop) (m : method A) (R R' : Trace → A → Prop) :
  triple P m R → (∀ w, P' w → P w) → (∀ w a, R w a → R' w a) → triple P' m R'.
Proof.
  intros Hm HP HR s w Hok Hp. eapply safe_mono; [apply Hm; auto|]. intros s' w' [a|e] (H1 & H2 & H3); auto.
Qed.

Lemma triple_pre {A} (P P' : Trace → Prop) (m : method A) R :
  (∀ w, P' w → P w) → triple P m R → triple P' m R.
Proof. intros HP Hm. by eapply triple_mono. Qed.

Lemma triple_bind {A B} P `{!Persistent P} (m : method A) R (f : A → method B) R' :
  triple P m R → (∀ a, triple (λ w, P w ∧ R w a) (f a) R') → triple P (m ≫= f) R'.
Proof.
  intros Hm Hf s w Hok Hp. eapply safe_seq; [by apply Hm| |].
  - intros s1 w1 a (H1 & H2 & H3). eapply safe_mono.
    + apply Hf; [done|]. split; [by eapply persists_prefix|done].
    + intros s2 w2 r (H4 & H5 & H6). split_and!; [done|by etrans|done].
  - intros s1 w1 e (H1 & H2 & _). done.
Qed.

Lemma triple_try {A} P `{!Persistent P} (m : method A) h R :
  triple P m R → (∀ e, triple P (h e) R) → triple P (try m h) R.
Proof.
  intros Hm Hh s w Hok Hp. eapply safe_catch; [by apply Hm|by intros s1 w1 a|].
  intros s1 w1 e (H1 & H2 & _). eapply safe_mono.
  - apply (Hh e); [done|]. by eapply persists_prefix.
  - intros s2 w2 r (H4 & H5 & H6). split_and!; [done|by etrans|done].
Qed.

Lemma triple_ret {A} (P : Trace → Prop) (a : A) (R : Trace → A → Prop) :
  (∀ w, P w → R w a) → triple P (mret a) R.
Proof. intros HR s w Hok Hp. split_and!; [done|done|by apply HR]. Qed.

Lemma triple_throw {A} P e (R : Trace → A → Prop) : triple P (Throw e) R.
Proof. intros s w Hok Hp. by split_and!. Qed.

Lemma triple_get {B} P (f : HostExecState → method B) R :
  (∀ s0, triple (λ w, P w ∧ ok o s0 w) (f s0) R) → triple P (get ≫= f) R.
Proof. intros Hf s w Hok Hp. by apply (Hf s). Qed.

Lemma triple_modify P f : (∀ s w, ok o s w → P w → ok o (f s) w) → triple P (modify f) (λ _ _, True).
Proof. intros Hf s w Hok Hp. split_and!; [by apply Hf|done|done]. Qed.

Definition quiet_io (io : HostIO) : Prop := match io with StartCommand _ _ => False | _ => True end.

Lemma ok_quiet s w io r : quiet_io io → ok o s w → ok o s (w ++ [existT io r]).
Proof. intros Hio. apply ok_snoc. by destruct io. Qed.

Lemma triple_await P `{!Persistent P} io :
  quiet_io io → triple P (await io) (λ w r, P w ∧ happened w io r).
Proof.
  intros Hio s w Hok Hp. apply safe_await_last; [done|]. intros r s' w' (Hok' & Hw & _).
  split_and!; [by apply ok_quiet|by apply prefix_app_r|]. destruct r as [a|e]; [|done].
  split; [by eapply persists, persists_prefix|apply happened_last].
Qed.

Lemma triple_await_bind {B} P `{!Persistent P} io (f : host_reply io → method B) R :
  quiet_io io → (∀ r, triple (λ w, P w ∧ happened w io r) (f r) R) → triple P (await io ≫= f) R.
Proof.
  intros Hio Hf. eapply triple_bind; [done|by apply triple_await|]. intros r.
  eapply triple_mono; [apply Hf|by intros w (_ & Hp)|done].
Qed.

Lemma triple_await_last P `{!Persistent P} io (R : Trace → host_reply io → Prop) :
  quiet_io io → (∀ w r, P w → happened w io r → R w r) → triple P (await io) R.
Proof.
  intros Hio HR. eapply triple_mono; [by apply (triple_await P io)|done|]. intros w r []. by apply HR.
Qed.

Lemma triple_call P `{!Persistent P} io :
  quiet_io io → triple P (call io) (λ w r, P w ∧ happened w io r).
Proof.
  intros Hio s w Hok Hp. refine (safe_call_last _ _ io _ _ _ _). intros r.
  split_and!; [by apply ok_quiet|by apply prefix_app_r|]. destruct r as [a|e]; [|done].
  split; [by apply persists|apply happened_last].
Qed.

Lemma triple_emit P io : quiet_io io → triple P (emit io) (λ _ _, True).
Proof. intros Hio s w Hok Hp r. split_and!; [by apply ok_quiet|by apply prefix_app_r|done]. Qed.

Lemma triple_pause P io : quiet_io io → triple P (pause io) (λ _ _, True).
Proof.
  intros Hio s w Hok Hp. split; [done|]. intros r s' w' (Hok' & Hw & _).
  split_and!; [by apply ok_quiet|by apply prefix_app_r|done].
Qed.

(** The same for methods of which only the invariant is known. *)
Lemma keeps_bind {A B} (m : method A) (f : A → method B) :
  keeps m → (∀ a, keeps (f a)) → keeps (m ≫= f).
Proof.
  intros Hm Hf. eapply triple_bind; [apply _|exact Hm|]. intros a. eapply triple_mono; [apply Hf|done|done].
Qed.

Lemma keeps_try {A} (m : method A) h : keeps m → (∀ e, keeps (h e)) → keeps (try m h).
Proof. intros Hm Hh. by apply triple_try; [apply _|..]. Qed.

Lemma keeps_get {B} (f : HostExecState → method B) : (∀ s, keeps (f s)) → keeps (get ≫= f).
Proof. intros Hf. apply triple_get. intros s. eapply triple_mono; [apply Hf|done|done]. Qed.

Lemma keeps_modify f : (∀ s w, ok o s w → ok o (f s) w) → keeps (modify f).
Proof. intros Hf. apply triple_modify. eauto. Qed.

Lemma keeps_await io : quiet_io io → keeps (await io).
Proof. intros Hio. eapply triple_mono; [by apply (triple_await (λ _, True) io)|done|done]. Qed.

Lemma keeps_call io : quiet_io io → keeps (call io).
Proof. intros Hio. eapply triple_mono; [by apply (triple_call (λ _, True) io)|done|done]. Qed.

Lemma keeps_ignore m : keeps m → keeps (ignore_errors m).
Proof. intros Hm. apply keeps_try; [done|]. intros e. by apply triple_ret. Qed.

(** A method that keeps the invariant, whatever is known. *)
Lemma keeps_triple {A} P (m : method A) : keeps m → triple P m (λ _ _, True).
Proof. intros Hm. by eapply triple_mono. Qed.

Lemma keeps_triple_bind {A B} P `{!Persistent P} (m : method A) (f : A → method B) R :
  keeps m → (∀ a, triple P (f a) R) → triple P (m ≫= f) R.
Proof.
  intros Hm Hf. eapply triple_bind; [done|by apply keeps_triple|]. intros a.
  eapply triple_mono; [apply Hf|by intros w []|done].
Qed.
End Triples.

Create HintDb host_books.
#[export] Hint Resolve books_lifecycle books_add_lifecycle books_active books_resolve
  books_groups books_sockets : host_books.
#[export] Hint Resolve ok_clear_timer ok_abort ok_drop_request ok_index_delete ok_index_clear : host_books.
#[export] Hint Extern 4 (ok _ _ _) => (eapply ok_same_books; [|eassumption]) : host_books.

(** One step of a method of which only the invariant is claimed; what is left are
    methods with a lemma of their own. *)
Ltac keep_step :=
  lazymatch goal with
  | |- keeps _ (get ≫= _) => apply keeps_get; intros ?
  | |- keeps _ (_ ≫= _) => apply keeps_bind; [|intros ?]
  | |- keeps _ (ignore_errors _) => apply keeps_ignore
  | |- keeps _ (try _ _) => apply keeps_try; [|intros ?]
  | |- keeps _ (mret _) => by apply triple_ret
  | |- keeps _ (Ret _) => by apply triple_ret
  | |- keeps _ (Throw _) => apply triple_throw
  | |- keeps _ (modify _) => apply keeps_modify; intros ? ? ?; first [by eauto 6 with host_books | idtac]
  | |- keeps _ (emit _) => apply triple_emit; exact I
  | |- keeps _ (pause _) => apply triple_pause; exact I
  | |- keeps _ (await _) => apply keeps_await; exact I
  | |- keeps _ (call _) => apply keeps_call; exact I
  | |- keeps _ (if ?b then _ else _) => destruct b
  | |- keeps _ (match ?x with _ => _ end) => destruct x
  end.
Ltac keep := cbv zeta; repeat keep_step.

Section Methods.
Context `{HostRuntime} (o : HostExecBrokerOptions).
Abbreviation keeps := (keeps o).
Abbreviation triple := (triple o).

Lemma keeps_cancel c e : keeps (cancel c e).
Proof. unfold cancel. keep. Qed.

Lemma keeps_lifecycle_event c requestId event : keeps (handleGatewayLifecycleEvent c requestId event).
Proof. unfold handleGatewayLifecycleEvent. keep; apply keeps_cancel. Qed.

Lemma keeps_release c : keeps (release c).
Proof. unfold release. keep. Qed.

Lemma keeps_removePendingRequest requestId : keeps (removePendingRequest requestId).
Proof.
  unfold removePendingRequest, release_opt. keep; try apply keeps_release.
Qed.

Lemma keeps_writeError c requestId message st : keeps (writeGatewayError c requestId message st).
Proof. apply keeps_await. exact I. Qed.

Lemma keeps_wasCancelled c : keeps (wasCancelled c).
Proof. unfold wasCancelled. keep. Qed.

(** *** Resolving *)

Lemma canonicalize_triple P `{!Persistent P} p :
  triple P (canonicalizeIntegrityPath p) (λ w q, P w ∧ canonical w p q).
Proof.
  unfold canonicalizeIntegrityPath. apply triple_try; [done| |].
  - apply triple_await_last; [done|exact I|]. intros w q Hp Hq. split; [done|by left].
  - intros _. apply triple_ret. intros w Hp. split; [done|by right].
Qed.

Lemma resolveAllowEntry_triple P `{!Persistent P} entry :
  triple P (resolveAllowEntry o entry) (λ w root, P w ∧ allow_root o w entry root).
Proof.
  unfold resolveAllowEntry. apply keeps_triple_bind; [done|by apply triple_pause|]. intros _.
  assert (∀ prefix base, startsWith entry prefix = true →
    (base = workspaceRoot o ∧ prefix = "workspace:" ∨ base = sessionTmpDir o ∧ prefix = "session_tmp:") →
    triple P (let resolved := resolve process_cwd [base; drop_str (slen prefix) entry] in
              if assertWithinRoot resolved base then mret resolved
              else fail ("hostexec cwd.allow entry " +:+ dquote +:+ entry +:+ dquote +:+ " escapes its root (" +:+
                     base +:+ ")")) (λ w root, P w ∧ allow_root o w entry root)) as Hbelow.
  { intros prefix base Hs Hb. cbv zeta. destruct (assertWithinRoot _ base) eqn:Ea; [|apply triple_throw].
    apply triple_ret. intros w Hp. split; [done|]. left. exists base, prefix. by split_and!. }
  cbv zeta. destruct (startsWith entry "workspace:") eqn:E1; [apply Hbelow; auto|].
  destruct (startsWith entry "session_tmp:") eqn:E2; [apply Hbelow; auto|].
  eapply triple_mono; [by apply (canonicalize_triple P)|done|]. intros w q [Hp Hq]. split; [done|by right].
Qed.

#[local] Instance persistent_allow_root entry root : Persistent (λ w, allow_root o w entry root).
Proof. intros w w' [Hr|Hr]; [by left|right]. by apply canonical_app. Qed.

#[local] Instance persistent_allow_roots entries roots :
  Persistent (λ w, Forall2 (allow_root o w) entries roots).
Proof. intros w w' Hf. eapply Forall2_impl; [exact Hf|]. intros entry root. apply persistent_allow_root. Qed.

Lemma resolveAllowEntries_triple P `{!Persistent P} entries :
  triple P (resolveAllowEntries o entries) (λ w roots, P w ∧ Forall2 (allow_root o w) entries roots).
Proof.
  revert P Persistent0. induction entries as [|entry entries IH]; intros P HP; cbn [resolveAllowEntries].
  - apply triple_ret. intros w Hp. split; [done|constructor].
  - eapply triple_bind; [done|by apply resolveAllowEntry_triple|]. intros root. cbv beta.
    eapply triple_bind; [apply _|apply (IH (λ w, P w ∧ P w ∧ allow_root o w entry root) _)|]. intros roots.
    apply triple_ret. intros w ((_ & Hp & Hr) & _ & Hf). split; [done|by constructor].
Qed.

Lemma normalizeAllowedCwd_triple cwd rule :
  triple (λ _, True) (normalizeAllowedCwd o cwd rule) (λ w p, cwd_allowed o w rule cwd p).
Proof.
  unfold normalizeAllowedCwd. apply keeps_triple_bind; [apply _|by apply triple_pause|]. intros _.
  eapply triple_bind; [apply _|by apply (canonicalize_triple (λ _, True))|]. intros normalized.
  cbv zeta beta. unfold cwd_allowed.
  destruct (hr_cwdMode rule).
  - destruct (isWithin normalized (workspaceRoot o)) eqn:E1; [|apply triple_throw].
    apply triple_ret. intros w (_ & _ & Hc). done.
  - destruct (isWithin normalized (workspaceRoot o)) eqn:E1; cbn [orb];
      [|destruct (isWithin normalized (sessionTmpDir o)) eqn:E2; [|apply triple_throw]];
      apply triple_ret; intros w (_ & _ & Hc); auto.
  - eapply triple_bind; [apply _|apply resolveAllowEntries_triple; apply _|]. intros roots.
    destruct (existsb (isWithin normalized) roots) eqn:Ee; [|apply triple_throw].
    apply triple_ret. intros w ((_ & _ & Hc) & _ & Hf). split; [done|].
    apply existsb_exists in Ee as (root & Hin & Hw). apply list_elem_of_In, list_elem_of_lookup in Hin as [i Hi].
    destruct (Forall2_lookup_r _ _ _ _ _ Hf Hi) as (entry & He & Hr). exists entry, root.
    split_and!; [|done|done]. by eapply list_elem_of_In, list_elem_of_lookup_2.
  - apply triple_ret. intros w (_ & _ & Hc). done.
Qed.

Lemma persistent_env rule env : Persistent (λ w, env_built w rule env).
Proof.
  intros w w' He key value Hin. destruct (He key value Hin) as [?|[(ref & Hr & Hh)|?]]; auto.
  right. left. exists ref. split; [done|]. by apply happened_app.
Qed.
#[local] Existing Instance persistent_env.

Lemma env_built_set w rule env key value :
  env_built w rule env →
  (∃ ref, In (key, ref) (hr_env rule) ∧ happened w (RequireSecret (drop_str (slen "secret:") ref)) value) ∨
  key = "GIT_TERMINAL_PROMPT" →
  env_built w rule (map_set env key value).
Proof. intros He Hk k v [[= -> ->]|Hin]%map_set_In; [by right|by apply He]. Qed.

Lemma add_secrets_triple P `{!Persistent P} rule bindings : ∀ env,
  (∀ x, In x bindings → In x (hr_env rule)) → (∀ w, P w → env_built w rule env) →
  triple P (add_secrets bindings env) (λ w env, P w ∧ env_built w rule env).
Proof.
  revert P Persistent0. induction bindings as [|[key ref] bindings IH]; intros P HP env Hin He; cbn [add_secrets].
  - apply triple_ret. auto.
  - apply triple_await_bind; [done|exact I|]. intros value.
    eapply triple_mono; [apply (IH (λ w, P w ∧ happened w (RequireSecret (drop_str (slen "secret:") ref)) value) _
      (map_set env key value))|done|naive_solver].
    + intros x Hx. apply Hin. by right.
    + intros w (Hp & Hh). apply env_built_set; [by apply He|]. left. exists ref. split; [|done].
      apply Hin. by left.
Qed.

Lemma buildEnv_triple P `{!Persistent P} rule :
  triple P (buildEnv rule) (λ w env, P w ∧ env_built w rule env).
Proof.
  unfold buildEnv. eapply triple_bind; [done|apply (add_secrets_triple P rule); [done|]|].
  - intros w _ key value Hin. by left.
  - intros env. apply triple_ret. intros w (_ & Hp & He). split; [done|]. apply env_built_set; auto.
Qed.

#[local] Instance persistent_cwd rule cwd p : Persistent (λ w, cwd_allowed o w rule cwd p).
Proof.
  intros w w' [Hc Hm]. split; [by apply canonical_app|]. destruct (hr_cwdMode rule); [done|done| |done].
  destruct Hm as (entry & root & Hin & Hr & Hw). exists entry, root. split_and!; [done| |done].
  by apply persistent_allow_root.
Qed.

Lemma resolveRequest_triple P `{!Persistent P} message :
  triple P (resolveRequest o message) (λ w r, P w ∧ from_option (resolution o w message) True r).
Proof.
  unfold resolveRequest. destruct (matchRule _ _ _ _) as [[rule|]|] eqn:Em; [|by apply triple_ret|apply triple_throw].
  eapply triple_bind; [done| |intros cwd; cbv beta].
  { eapply triple_mono; [apply normalizeAllowedCwd_triple|done|done]. }
  eapply triple_bind; [apply _|apply (buildEnv_triple (λ w, P w ∧ cwd_allowed o w rule (er_cwd message) cwd))|].
  intros env. apply triple_ret. intros w (_ & (Hp & Hc) & He). split; [done|]. by split; cbn.
Qed.

Lemma integrityVerdict_triple P `{!Persistent P} request resolved :
  triple P (integrityVerdict o request resolved)
    (λ w v, P w ∧ (v = IntegrityPass → integrity_passes o w request resolved)).
Proof.
  unfold integrityVerdict. destruct (is_installed o (er_argv0 request)) eqn:Ei.
  { apply triple_ret. intros w Hp. split; [done|]. by left. }
  destruct (Nat.eqb_spec (length (integrityTargets o)) 0) as [Hl|_].
  { apply triple_ret. intros w Hp. split; [done|]. right. left. by apply nil_length_inv. }
  cbv zeta. destruct (negb (isAbsolute _) && negb (isRelativeHostExecArgv0 _)) eqn:Eb.
  { apply triple_ret. intros w Hp. split; [done|]. intros _. do 2 right. left.
    unfold isBareCommandHostExecArgv0. unfold isRelativeHostExecArgv0 in Eb.
    destruct (isAbsolute (hr_argv0 (rx_rule resolved))); [done|exact Eb]. }
  eapply triple_bind; [done|by apply (canonicalize_triple P)|]. intros path. cbv beta.
  apply triple_get. intros s0.
  assert (Persistent (λ w, ∀ b, map_get (hs_baseline s0) path = Some b → happened w (SnapshotFile path) b)) as Hpers.
  { intros w w' Hb b Hg. by apply happened_app, Hb. }
  apply (triple_pre o (λ w, (P w ∧ P w ∧ canonical w
      (if isAbsolute (er_argv0 request) then er_argv0 request
       else resolve process_cwd [rx_cwd resolved; er_argv0 request]) path) ∧
      ∀ b, map_get (hs_baseline s0) path = Some b → happened w (SnapshotFile path) b)).
  { intros w [Hp Hok]. split; [exact Hp|]. intros b Hg. by eapply ok_baseline, map_get_In. }
  apply triple_await_bind; [apply _|exact I|]. intros current.
  apply triple_ret. intros w (((Hp & _ & Hc) & Hb) & Hh). split; [done|]. intros Hv. do 3 right.
  destruct (map_get (hs_baseline s0) path) as [b|] eqn:Eg; [|done].
  exists path, b, current. split_and!; auto.
Qed.

(** *** Answering *)

#[local] Instance persistent_audited requestId reason command :
  Persistent (λ w, audited o w requestId reason command).
Proof.
  intros w w' Ha Ho. destruct (Ha Ho) as (id & time & Hh). exists id, time. by apply happened_app.
Qed.

Lemma keeps_recordAudit requestId decision reason command : keeps (recordAudit o requestId decision reason command).
Proof. unfold recordAudit. keep. Qed.

Lemma recordAudit_triple P `{!Persistent P} requestId reason command :
  triple P (recordAudit o requestId AuditAllow reason command)
    (λ w _, P w ∧ audited o w requestId reason command).
Proof.
  unfold recordAudit. destruct (ho_audited o) eqn:Ea; cbn [negb].
  - apply keeps_triple_bind; [done|by apply keeps_call|]. intros id.
    apply keeps_triple_bind; [done|by apply keeps_call|]. intros time.
    apply triple_await_last; [done|exact I|]. intros w [] Hp Hh. split; [done|]. intros _. by exists id, time.
  - intros s w Hok Hp. split; [done|]. intros r s' w' (Hok' & Hw & _).
    split_and!; [by apply ok_quiet|by apply prefix_app_r| |].
    + eapply persists; by eapply persists_prefix.
    + unfold audited. by rewrite Ea.
Qed.

#[local] Instance persistent_justified c start : Persistent (λ w, justified o w c start).
Proof.
  intros w w' (req & res & reason & H1 & H2 & H3 & H4 & H5 & H6).
  exists req, res, reason. split_and!; auto using asked_app, resolution_app, warrant_app.
  by apply persistent_audited.
Qed.

Lemma runGatewayResolved_triple c request resolved :
  triple (λ w, ∀ start, start_of o request resolved = Some start → justified o w c start)
    (runGatewayResolved o c request resolved) (λ _ _, True).
Proof.
  unfold runGatewayResolved. destruct (start_of o request resolved) as [start|] eqn:Es.
  - apply (triple_pre o (λ w, justified o w c start)); [by eauto|].
    apply (triple_bind o _ _ (λ _ _, True)); [|intros []; apply keeps_triple, keeps_await; exact I].
    intros s w Hok Hj r. split; [by apply ok_snoc|]. by split; [apply prefix_app_r|].
  - apply keeps_triple, keeps_await. exact I.
Qed.

(** What is needed to answer a waiter. *)
Definition answerable (w : Trace) (mode : Mode) (c : nat) (request : ExecuteRequest)
    (resolved : ResolvedExecution) : Prop :=
  asked w c request ∧ resolution o w request resolved ∧ rx_approval resolved ≠ ApprovalDeny ∧
  (mode = Approve → warrant o w c request resolved "approved-by-user").

#[local] Instance persistent_answerable mode c request resolved :
  Persistent (λ w, answerable w mode c request resolved).
Proof. unfold answerable. apply _. Qed.

Lemma answerable_justified w c request resolved reason start :
  asked w c request → resolution o w request resolved → rx_approval resolved ≠ ApprovalDeny →
  warrant o w c request resolved reason →
  audited o w (er_requestId request) reason (commandStr request resolved) →
  start_of o request resolved = Some start → justified o w c start.
Proof. intros. by exists request, resolved, reason. Qed.

Lemma answer_waiter_triple mode requestId request resolved c :
  requestId = er_requestId request →
  triple (λ w, answerable w mode c request resolved) (answer_waiter o mode requestId request resolved c)
    (λ _ _, True).
Proof.
  intros ->. unfold answer_waiter. destruct mode as [|message].
  2: { apply keeps_triple. keep; [apply keeps_recordAudit|apply keeps_writeError]. }
  apply triple_get. intros s0. eapply triple_pre; [by intros w [Hw _]; exact Hw|].
  destruct (cancelled_in s0 c); [by apply triple_ret|].
  eapply triple_bind; [apply _|apply recordAudit_triple; apply _|]. intros [].
  apply triple_get. intros s1. eapply triple_pre; [by intros w [Hw _]; exact Hw|].
  destruct (cancelled_in s1 c); [by apply triple_ret|].
  apply keeps_triple_bind; [apply _|keep|]. intros _.
  apply (triple_bind o _ _ (λ _ _, True)); [|intros []; apply keeps_triple; keep].
  apply triple_try; [apply _| |intros e; apply keeps_triple; keep; apply keeps_writeError].
  eapply triple_mono; [apply runGatewayResolved_triple| |done].
  intros w (_ & (H1 & H2 & H3 & H4) & H5) start Hs. by eapply answerable_justified; auto.
Qed.

(** *** Resolving a group *)

Abbreviation safely := (safe (among_others prefix permits (ok o)) (ok o)).
Abbreviation kept w := (λ s' w' (r : () + HostError),
  ok o s' w' ∧ w `prefix_of` w' ∧ match r with inl _ => True | inr _ => True end).

Lemma group_answerable s w ref mode requestId request resolved c :
  ok o s w → map_get (pg_requests (group_at s ref)) requestId = Some (request, resolved) →
  map_get (pg_waiters (group_at s ref)) requestId = Some c →
  (mode = Approve → warrant o w c request resolved "approved-by-user") →
  requestId = er_requestId request ∧ answerable w mode c request resolved.
Proof.
  intros Hok Hr Hc Hm. destruct (group_at_ok o s w ref Hok) as [H1 H2 _ _].
  destruct (H1 _ _ _ (map_get_In _ _ _ Hr)) as [Hid Hk Hres Hap _]. split; [done|]. split_and!; eauto.
Qed.

(** Approving a request of a group needs a warrant for what the group holds. *)
Definition may_answer (s : HostExecState) (w : Trace) (ref : GroupRef) (mode : Mode) (requestId : string) : Prop :=
  mode = Approve → ∀ request resolved c,
    map_get (pg_requests (group_at s ref)) requestId = Some (request, resolved) →
    map_get (pg_waiters (group_at s ref)) requestId = Some c →
    warrant o w c request resolved "approved-by-user".

Lemma resolve_one_safe ref mode selected requestId s w :
  ok o s w → may_answer s w ref mode requestId →
  safely (kept w) (resolve_one o ref mode selected requestId) s w.
Proof.
  intros Hok Hgrant. unfold resolve_one. apply safe_get. cbv zeta.
  destruct (map_get (pg_requests (group_at s ref)) requestId) as [[request resolved]|] eqn:Er;
    [|by split_and!].
  set (waiter := map_get (pg_waiters (group_at s ref)) requestId).
  assert (match waiter with
          | Some c => requestId = er_requestId request ∧ answerable w mode c request resolved
          | None => True end) as Hw.
  { destruct waiter as [c|] eqn:Ec; [|done]. apply (group_answerable s w ref); [done|done|done|].
    intros Hm. by apply Hgrant. }
  clearbody waiter. clear Er Hgrant. revert s w Hok Hw.
  change (triple (λ w, match waiter with
    | Some c => requestId = er_requestId request ∧ answerable w mode c request resolved
    | None => True end) (
    _ ← (if selected then modify (update_group ref (drop_request requestId)) else mret ());
    _ ← modify (set_requestKeys (λ m, map_delete m requestId));
    _ ← await (RemovePending requestId);
    s ← get;
    _ ← (if selected && (length (pg_requests (group_at s ref)) =? 0)%nat then
           _ ← modify (update_group ref clear_timer);
           _ ← modify (set_groups (λ m, map_delete m ref.1));
           _ ← modify (update_group ref abort_notification);
           await CloseNotification
         else mret ());
    match waiter with
    | None => mret ()
    | Some c =>
        _ ← ignore_errors (answer_waiter o mode requestId request resolved c);
        release c
    end) (λ _ _, True)).
  destruct waiter as [c|].
  - do 3 (apply keeps_triple_bind; [apply _|keep|intros ?]).
    apply triple_get. intros s1. eapply triple_pre; [by intros w [Hw _]; exact Hw|].
    apply keeps_triple_bind; [apply _|keep|intros _].
    apply (triple_bind o _ _ (λ _ _, True)); [|intros []; apply keeps_triple, keeps_release].
    apply triple_try; [apply _| |by intros e; apply triple_ret].
    intros s w Hok [Hid Ha]. by apply answer_waiter_triple.
  - apply keeps_triple. keep.
Qed.

Lemma resolve_all_triple ref mode selected (P : Trace → Prop) `{!Persistent P} requestIds :
  (∀ s w requestId, ok o s w → P w → may_answer s w ref mode requestId) →
  triple P (resolve_all o ref mode selected requestIds) (λ _ _, True).
Proof.
  intros Hgrant. induction requestIds as [|requestId requestIds IH]; cbn [resolve_all]; [by apply triple_ret|].
  apply (triple_bind o _ _ (λ _ _, True)); [intros s w Hok Hp; apply resolve_one_safe; auto|].
  intros []. eapply triple_pre; [|exact IH]. by intros w [Hp _].
Qed.

(** A person approved the key, or the group is denied. *)
Definition granted (mode : Mode) (key : string) (w : Trace) : Prop := mode = Approve → approved_key o w key.

Lemma resolveGroup_triple key mode :
  triple (granted mode key) (resolveGroup o key mode None) (λ _ _, True).
Proof.
  unfold resolveGroup. apply triple_get. intros s0. unfold open_group.
  eapply triple_pre; [by intros w [Hw _]; exact Hw|].
  destruct (map_get (hs_groups s0) key) as [n|]; cbn [fmap option_fmap option_map]; [|by apply triple_ret].
  assert (Persistent (granted mode key)) as Hpers by apply persistent_implies, _.
  do 4 (apply keeps_triple_bind; [done|keep|intros ?]).
  apply triple_get. intros s1. eapply triple_pre; [by intros w [Hw _]; exact Hw|].
  apply resolve_all_triple; [done|]. intros s w requestId Hok Hg Hm request resolved c Hr _.
  destruct (group_at_ok o s w (key, n) Hok) as [H1 _ _ _].
  destruct (H1 _ _ _ (map_get_In _ _ _ Hr)) as [_ Hk _ _ _]. cbn in Hk. subst key.
  by apply Person_approves_key, Hg.
Qed.

Lemma resolvePendingRequest_safe requestId mode s w :
  ok o s w → (∀ ref, may_answer s w ref mode requestId) →
  safely (kept w) (resolvePendingRequest o requestId mode) s w.
Proof.
  intros Hok Hgrant. unfold resolvePendingRequest, resolveGroup. apply safe_get.
  destruct (findGroupByRequestId s requestId) as [ref|]; [|by apply (triple_pause o (λ _, True))].
  apply safe_get. destruct (open_group s ref.1) as [ref'|]; [|by split_and!].
  cbn [resolve_all]. eapply safe_seq; [by apply resolve_one_safe| |].
  - intros s1 w1 [] (H1 & H2 & _). by apply safe_ret.
  - intros s1 w1 e (H1 & H2 & _). done.
Qed.

(** *** Executing *)

Lemma unless_cancelled_triple P `{!Persistent P} c m :
  triple P m (λ _ _, True) → triple P (unless_cancelled c m) (λ _ _, True).
Proof.
  intros Hm. unfold unless_cancelled. apply keeps_triple_bind; [done|apply keeps_wasCancelled|]. intros [].
  - by apply triple_ret.
  - done.
Qed.

Lemma keeps_unless_cancelled c m : keeps m → keeps (unless_cancelled c m).
Proof. intros Hm. by apply unless_cancelled_triple; [apply _|]. Qed.

Lemma keeps_remove_if_cancelled c requestId m : keeps m → keeps (remove_if_cancelled c requestId m).
Proof.
  intros Hm. unfold remove_if_cancelled. apply keeps_bind; [apply keeps_wasCancelled|]. intros [].
  - apply keeps_removePendingRequest.
  - done.
Qed.

Lemma keeps_deny_at_once c message resolved reason text : keeps (deny_at_once o c message resolved reason text).
Proof.
  unfold deny_at_once. apply keeps_unless_cancelled. keep; [apply keeps_recordAudit|].
  apply keeps_unless_cancelled. keep. apply keeps_writeError.
Qed.

(** What is known of a request when its command may start or is asked for. *)
Definition resolved_request (w : Trace) (c : nat) (request : ExecuteRequest) (resolved : ResolvedExecution) :
    Prop :=
  asked w c request ∧ resolution o w request resolved ∧ rx_approval resolved ≠ ApprovalDeny.

Lemma resolved_held w c key request resolved :
  resolved_request w c request resolved → key = key_of resolved →
  held o w key (er_requestId request) request resolved.
Proof. intros (H1 & H2 & H3) Hk. split; [done|done|done|done|by exists c]. Qed.

Lemma run_at_once_triple c message resolved :
  triple (λ w, resolved_request w c message resolved ∧
      warrant o w c message resolved
        (if bool_decide (rx_approval resolved = ApprovalAllow) then "rule-allow" else "approved-cached"))
    (run_at_once o c message resolved) (λ _ _, True).
Proof.
  assert (Persistent (λ w, resolved_request w c message resolved)) as Hpers by (unfold resolved_request; apply _).
  unfold run_at_once. cbv zeta. set (reason := if bool_decide _ then _ else _).
  apply unless_cancelled_triple; [apply _|].
  eapply triple_bind; [apply _|apply recordAudit_triple; apply _|]. intros [].
  apply unless_cancelled_triple; [apply _|].
  apply keeps_triple_bind; [apply _|keep|intros ?].
  apply (triple_bind o _ _ (λ _ _, True)); [|intros []; apply keeps_triple; keep].
  eapply triple_pre; [|apply runGatewayResolved_triple].
  intros w (_ & ((H1 & H2 & H3) & H4) & H5) start Hs. by eapply answerable_justified.
Qed.

Lemma createPendingGroup_triple key c message resolved changed :
  triple (λ w, resolved_request w c message resolved ∧ key = key_of resolved)
    (createPendingGroup o key message resolved changed c) (λ _ _, True).
Proof.
  assert (Persistent (λ w, resolved_request w c message resolved)) as Hpers by (unfold resolved_request; apply _).
  unfold createPendingGroup. do 2 (apply keeps_triple_bind; [apply _|keep|intros ?]).
  apply triple_get. intros s0. eapply triple_pre; [by intros w [Hw _]; exact Hw|]. cbv zeta.
  eapply (triple_bind o _ _ (λ _ _, True)).
  { apply triple_modify. intros s w Hok (Hr & Hk). apply ok_set_group; [|done].
    apply group_ok_new; [by eapply resolved_held|apply Hr]. }
  intros []. apply keeps_triple_bind; [apply _|keep|intros ?].
  apply (triple_bind o _ _ (λ _ _, True)); [|intros ?; apply keeps_triple; keep].
  apply triple_modify. intros s w Hok ((Hr & Hk) & _). eapply ok_index_set; [by eapply resolved_held|done].
Qed.

Lemma joinPendingGroup_triple ref c message resolved changed :
  triple (λ w, resolved_request w c message resolved ∧ ref.1 = key_of resolved)
    (joinPendingGroup o ref message resolved changed c) (λ _ _, True).
Proof.
  assert (Persistent (λ w, resolved_request w c message resolved)) as Hpers by (unfold resolved_request; apply _).
  unfold joinPendingGroup. apply triple_get. intros s0. eapply triple_pre; [by intros w [Hw _]; exact Hw|].
  cbv zeta. destruct (map_has _ _); [apply triple_throw|].
  apply keeps_triple_bind; [apply _|keep|intros updatedAt].
  eapply (triple_bind o _ _ (λ _ _, True)).
  { apply triple_modify. intros s w Hok (Hr & Hk). apply ok_update_group; [|done].
    intros g Hg. apply group_ok_add; [by eapply resolved_held|apply Hr|done]. }
  intros []. apply (triple_bind o _ _ (λ _ _, True)); [|intros ?; apply keeps_triple; keep].
  apply triple_modify. intros s w Hok ((Hr & Hk) & _). eapply ok_index_set; [by eapply resolved_held|done].
Qed.

Lemma ask_triple c message resolved key integrity :
  triple (λ w, resolved_request w c message resolved ∧ key = key_of resolved)
    (ask o c message resolved key integrity) (λ _ _, True).
Proof.
  assert (Persistent (λ w, resolved_request w c message resolved)) as Hpers by (unfold resolved_request; apply _).
  assert (∀ m, keeps m → keeps (remove_if_cancelled c (er_requestId message) m)) as Hrem
    by (intros m; apply keeps_remove_if_cancelled).
  unfold ask. apply triple_get. intros s0. eapply triple_pre; [by intros w [Hw _]; exact Hw|]. cbv zeta.
  apply keeps_triple_bind; [apply _|keep|intros ?].
  apply keeps_triple_bind; [apply _|destruct (lc_deferred _); [apply keeps_lifecycle_event|keep]|intros ?].
  apply unless_cancelled_triple; [apply _|].
  apply triple_get. intros s1. eapply triple_pre; [by intros w [Hw _]; exact Hw|].
  unfold open_group. destruct (map_get (hs_groups s1) key) as [n|]; cbn [fmap option_fmap option_map].
  - apply (triple_bind o _ _ (λ _ _, True)); [|intros ?; apply keeps_triple, Hrem; keep].
    apply (joinPendingGroup_triple (key, n)).
  - apply (triple_bind o _ _ (λ _ _, True)); [|intros ?; apply keeps_triple, Hrem, Hrem; keep].
    apply createPendingGroup_triple.
Qed.

Lemma decide_request_triple c message resolved key integrity :
  triple (λ w, (resolved_request w c message resolved ∧ key = key_of resolved) ∧
      (integrity = IntegrityPass → integrity_passes o w message resolved))
    (decide_request o c message resolved key integrity) (λ _ _, True).
Proof.
  unfold decide_request. destruct (bool_decide _ && negb _); [apply keeps_triple, keeps_deny_at_once|].
  apply triple_get. intros s0.
  destruct (bool_decide (integrity = IntegrityPass)) eqn:Ei; cbn [andb];
    [|eapply triple_pre; [|apply ask_triple]; naive_solver].
  apply bool_decide_eq_true in Ei.
  destruct (_ || _ || _) eqn:Eor; [|eapply triple_pre; [|apply ask_triple]; naive_solver].
  destruct (bool_decide (rx_approval resolved = ApprovalPrompt) && _) eqn:Ed;
    [apply keeps_triple, keeps_deny_at_once|].
  eapply triple_pre; [|apply run_at_once_triple]. intros w (((Hr & Hk) & Hi) & Hok). split; [done|].
  specialize (Hi Ei). destruct (rx_approval resolved) eqn:Ea; cbn [bool_decide decide_rel] in *.
  - rewrite bool_decide_true by done. by apply Rule_allows.
  - rewrite bool_decide_false by done. apply Approved_before; [done|done|]. rewrite <- Hk.
    eapply ok_keys; [done|]. rewrite bool_decide_true in Ed by done. rewrite bool_decide_false in Eor by done.
    cbn in Ed, Eor. rewrite Ed, orb_false_r in Eor. by apply includes_In.
  - by destruct Hr as (_ & _ & []).
Qed.

Lemma executeStreaming_triple c message :
  triple (λ w, asked w c message) (executeStreaming o c message) (λ _ _, True).
Proof.
  unfold executeStreaming. eapply triple_bind; [apply _|by apply resolveRequest_triple; apply _|].
  intros resolved. cbv beta. destruct resolved as [resolved|]; cbn [from_option];
    [|apply keeps_triple, keeps_unless_cancelled; keep].
  eapply triple_pre with (P := λ w, asked w c message ∧ resolution o w message resolved); [naive_solver|].
  apply unless_cancelled_triple; [apply _|].
  destruct (bool_decide (rx_approval resolved = ApprovalDeny)) eqn:Ed; [apply keeps_triple, keeps_deny_at_once|].
  apply bool_decide_eq_false in Ed.
  assert (Persistent (λ w, resolved_request w c message resolved)) as Hpers by (unfold resolved_request; apply _).
  eapply triple_pre with (P := λ w, resolved_request w c message resolved); [by intros w [H1 H2]|].
  unfold approval_key. cbv zeta.
  eapply (triple_bind o _ _ (λ _ key, key = key_of resolved)).
  { apply keeps_triple_bind; [done|by apply keeps_await|]. intros []. by apply triple_ret. }
  intros key. apply unless_cancelled_triple; [apply _|].
  eapply (triple_bind o _ _ (λ w v, v = inl IntegrityPass → integrity_passes o w message resolved)).
  - apply triple_try; [apply _| |by intros e; apply triple_ret].
    eapply triple_bind; [apply _|apply (integrityVerdict_triple
      (λ w, resolved_request w c message resolved ∧ key = key_of resolved) _)|].
    intros v. apply triple_ret. intros w (_ & _ & Hv) [= ->]. by apply Hv.
  - intros [v|e]; [|apply keeps_triple, keeps_deny_at_once].
    eapply triple_pre; [|apply decide_request_triple]. intros w ((Hr & Hk) & Hv). split; [done|].
    intros ->. by apply Hv.
Qed.

(** *** Connections *)

Lemma finally_triple {A} P `{!Persistent P} (m : method A) f :
  triple P m (λ _ _, True) → keeps f → triple P (finally m f) (λ _ _, True).
Proof.
  intros Hm Hf. unfold finally. apply (triple_bind o _ _ (λ _ _, True)).
  - apply triple_try; [done| |by intros e; apply triple_ret]. intros s w Hok Hp.
    apply safe_fmap. eapply safe_mono; [by apply Hm|]. by intros s' w' [a|e].
  - intros r. apply keeps_triple_bind; [apply _|done|]. intros [].
    destruct r; [by apply triple_ret|apply triple_throw].
Qed.

Lemma serve_triple c request : triple (λ w, asked w c request) (serve o c request) (λ _ _, True).
Proof.
  unfold serve. cbv zeta. apply finally_triple; [apply _| |keep].
  do 5 (apply keeps_triple_bind; [apply _|keep|intros ?]).
  apply triple_try; [apply _|apply executeStreaming_triple|]. intros e. apply keeps_triple.
  keep. apply keeps_writeError.
Qed.

Lemma keeps_handleGatewayConnection c : keeps (handleGatewayConnection o c).
Proof.
  unfold handleGatewayConnection.
  eapply (triple_bind o _ _ (λ w line, line = None ∨ happened w (ReadFrame c) line)).
  - apply triple_try; [apply _| |intros e; apply triple_ret; by left].
    apply triple_await_last; [apply _|exact I|]. by right.
  - intros [[[request| | | | | ]|e]|]; try (apply keeps_triple; keep; fail).
    apply triple_get. intros s0. destruct (includes _ _); [apply keeps_triple; keep; apply keeps_writeError|].
    eapply triple_pre; [|apply serve_triple]. by intros w [[_ [?|Hh]] _].
Qed.

Lemma keeps_denial requestId : keeps (deny o requestId).
Proof.
  unfold deny. apply keeps_get. intros s0. destruct (findGroupByRequestId s0 requestId); [|keep].
  apply keeps_bind; [|intros ?; keep]. intros s w Hok _. by apply resolvePendingRequest_safe.
Qed.

(** An approval: the message was the last thing that happened. *)
Lemma approve_safe before c' value requestId scope s :
  let w := before ++ [existT (ReadControl c') (inl (Some value))] in
  parseHostExecControlMessage value = Some (CmApprove requestId scope) →
  ok o s before →
  safely (λ s' w' _, ok o s' w' ∧ w `prefix_of` w') (approve o requestId scope) s w.
Proof.
  intros w Hparse Hok0. assert (ok o s w) as Hok by by apply ok_quiet.
  unfold approve. apply safe_get. destruct (findGroupByRequestId s requestId) as [ref|] eqn:Ef; [|done].
  cbv zeta. set (refused := match scope with Some _ => _ | None => _ end). destruct refused as [bad|] eqn:Er; [done|].
  destruct (String.eqb_spec (default (HostExecPromptScope_string (hc_defaultScope (ho_hostexec o))) scope)
    "capability") as [Hs|Hs].
  - assert (approved_key o w ref.1) as Hkey.
    { unfold findGroupByRequestId in Ef. destruct (map_get _ requestId) as [key|] eqn:Ek; [|done]. cbn in Ef.
      destruct (String.eqb key ""); [done|]. unfold open_group in Ef.
      destruct (map_get (hs_groups s) key); [|done]. injection Ef as <-. cbn.
      destruct (ok_index o s before Hok0 _ _ (map_get_In _ _ _ Ek)) as (request & resolved & [Hid Hk Hres _ [c Hc]]).
      exists before, [], c', value, c, request, resolved. split_and!; [done|done|done|done|].
      exists scope. by rewrite <- Hid. }
    apply (safe_seq (H:=host_effects) _ _ (λ s' (w' : Trace) _, ok o s' w' ∧ w `prefix_of` w')); [|intros s1 w1 a Hq; by apply safe_ret|done].
    apply safe_modify. eapply safe_mono; [apply (resolveGroup_triple ref.1 Approve)| ].
    + by apply ok_approve.
    + by intros _.
    + by intros s1 w1 r (H1 & H2 & _).
  - apply (safe_seq (H:=host_effects) _ _ (λ s' (w' : Trace) _, ok o s' w' ∧ w `prefix_of` w')); [|intros s1 w1 a Hq; by apply safe_ret|done].
    eapply safe_mono; [apply resolvePendingRequest_safe; [done|]|by intros s1 w1 r (H1 & H2 & _)].
    intros ref' _ request resolved c Hr Hc. apply Person_approves.
    destruct (group_at_ok o s before ref' Hok0) as [G1 G2 _ _].
    destruct (G1 _ _ _ (map_get_In _ _ _ Hr)) as [Hid _ _ _ _].
    exists before, [], c', value. split_and!; [done|by eapply G2|]. exists scope. rewrite <- Hid. split; [done|].
    unfold selected_scope. subst refused. destruct scope as [scope|]; cbn in *.
    + do 2 (case_bool_decide; [done|]). done.
    + by destruct (hc_defaultScope (ho_hostexec o)).
Qed.

Lemma keeps_handleControlConnection c : keeps (handleControlConnection o c).
Proof.
  unfold handleControlConnection. intros s w Hok _.
  refine (safe_await _ _ _ (ReadControl c) _ _ _ Hok _). cbn [react host_effects traced].
  intros r s1 w1 (Hok1 & Hw1 & _). assert (ok o s1 (w1 ++ [existT (ReadControl c) r])) as Hok2 by by apply ok_quiet.
  assert (w `prefix_of` w1 ++ [existT (ReadControl c) r]) as Hw by by apply prefix_app_r.
  assert (∀ m : method (), keeps m → safely (kept w) m s1 (w1 ++ [existT (ReadControl c) r])) as Hkeep.
  { intros m Hm. eapply safe_mono; [by apply Hm|]. intros s2 w2 x (H1 & H2 & H3). split_and!; [done|by etrans|done]. }
  destruct r as [[value|]|e]; cbn [answered].
  2: by split_and!. 2: by split_and!. apply safe_ret_bind.
  destruct (parseHostExecControlMessage value) as [message|] eqn:Ep; [|apply Hkeep; keep].
  destruct message as [requestId scope|requestId| |requestId]; cbn [handleControlMessage].
  2-4: apply Hkeep; keep; apply keeps_denial.
  eapply safe_seq.
  - eapply safe_catch; [by apply (approve_safe w1 c value)| |].
    + intros s2 w2 a Hq. exact Hq.
    + intros s2 w2 e Hq. apply safe_ret. exact Hq.
  - intros s2 w2 a [H1 H2].
    assert (keeps (try (await (WriteControl c a)) (λ e, if has_code e PIPE_CLOSED then mret () else Throw e)))
      as Hwrite by keep.
    eapply safe_mono; [by apply Hwrite|]. intros s3 w3 x (H3 & H4 & H5).
    split_and!; [done| |done]. by repeat (etrans; [eassumption|]).
  - intros s2 w2 e [H1 H2]. split_and!; [done|by etrans|done].
Qed.

Lemma keeps_handleConnection channel c : keeps (handleConnection o channel c).
Proof.
  unfold handleConnection. keep; [apply keeps_handleGatewayConnection|apply keeps_handleControlConnection].
Qed.

(** *** Start, close and events *)

Lemma keeps_canonicalize p : keeps (canonicalizeIntegrityPath p).
Proof. unfold canonicalizeIntegrityPath. keep. Qed.

Lemma keeps_snapshot_all targets : keeps (snapshot_all targets).
Proof.
  induction targets as [|target targets IH]; cbn [snapshot_all]; [keep|].
  apply keeps_bind; [apply keeps_canonicalize|]. intros path. apply keeps_bind; [|intros _; exact IH].
  apply keeps_ignore. apply triple_await_bind; [apply _|exact I|]. intros snapshot.
  apply triple_modify. intros s w Hok [_ Hh]. by apply ok_set_baseline.
Qed.

Lemma keeps_start internal control : keeps (start o internal control).
Proof. unfold start. keep. apply keeps_snapshot_all. Qed.

Lemma keeps_waiters_closed fuel ref : ∀ seen, keeps (close_waiters fuel ref seen).
Proof.
  induction fuel as [|fuel IH]; intros seen; cbn [close_waiters]; keep;
    [apply keeps_writeError|apply keeps_release|apply IH].
Qed.

Lemma keeps_close_groups fuel : ∀ next, keeps (close_groups fuel next).
Proof.
  induction fuel as [|fuel IH]; intros next; cbn [close_groups]; keep; [apply keeps_waiters_closed|apply IH].
Qed.

Lemma keeps_closing fuel : keeps (close o fuel).
Proof. unfold close, remove_sockets. keep. apply keeps_close_groups. Qed.

Lemma keeps_socket_ends c failure : keeps (socket_ends c failure).
Proof. unfold socket_ends. keep. apply keeps_cancel. Qed.

Lemma keeps_monitor_fires c event : keeps (monitor_fires c event).
Proof. unfold monitor_fires. keep. apply keeps_lifecycle_event. Qed.

Lemma keeps_cleanup_runs c : keeps (cleanup_runs c).
Proof. unfold cleanup_runs. keep. apply keeps_removePendingRequest. Qed.

Lemma keeps_timer_fires ref : keeps (timer_fires o ref).
Proof.
  unfold timer_fires. apply keeps_get. intros s0. cbv zeta. destruct (pg_timer _); [|keep].
  apply keeps_bind; [keep|]. intros _. eapply triple_pre; [|apply resolveGroup_triple]. by intros w _.
Qed.

Abbreviation host_inv := (pool_inv prefix permits (ok o)).

Lemma keeps_thread (m : method ()) s w : keeps m → ok o s w → thread_safe prefix permits (ok o) m s w.
Proof. intros Hm Hok. eapply safe_mono; [by apply Hm|]. by intros s' w' r [Hok' _]. Qed.

Lemma host_inv_step pl event : host_inv pl → host_inv (host_step o pl event).
Proof.
  intros Hpl. assert (∀ (w : Trace) io r, w `prefix_of` react w io r) as Hreact by (intros; by apply prefix_app_r).
  destruct event as [event answers]. pose proof (pool_always _ _ _ _ Hpl) as Hok.
  destruct event; cbn [host_step]; try (apply launch_inv; [apply _|done| |done]; intros id; apply keeps_thread; [|done]).
  - apply keeps_start.
  - apply keeps_handleConnection.
  - by apply wake_inv; [apply _|..].
  - apply keeps_socket_ends.
  - apply keeps_monitor_fires.
  - apply keeps_cleanup_runs.
  - apply keeps_timer_fires.
  - apply keeps_closing.
Qed.

Lemma host_inv_run events : host_inv (host_run o events).
Proof.
  unfold host_run. assert (host_inv (empty_pool () new_host_state [])) as H0 by (apply empty_pool_inv, ok_new).
  revert H0. generalize (empty_pool () new_host_state []). induction events as [|e events IH]; intros pl Hpl; cbn; [done|].
  apply IH, host_inv_step, Hpl.
Qed.
End Methods.
