(* ===== verification/HostExecProps.v ===== *)
(** * Properties of the broker of host commands

    Why a command starts, who approved it, and what a group resolution leaves
    behind; a sample session on which the theorems are evaluated. *)
From S2P Require Import Prelude JsString Json Broker NodePath HostMatch HostMatchLaws GatewayProtocol.
From S2P Require Import Effects Threads HostExec HostExecLaws.

(** ** A sample session *)

Definition sample_runtime : HostRuntime := {|
  regex_test := λ pattern text, Some (startsWith text pattern);
  locale_leb := λ a b, String.leb a b;
  url_credentials := λ url, Some (str_includes url "@");
  sha256_hex := λ text, text;
  process_cwd := "/work";
  process_env := [("PATH", "/bin"); ("HOME", "/home/u"); ("NAS_UPSTREAM_PROXY", "token")]%string;
  home_dir := "/home/u" |}.

Definition sample_rule (approval : HostExecApproval) : HostExecRule := {|
  hr_id := "git"; hr_argv0 := "git"; hr_argRegex := None; hr_cwdMode := CwdWorkspaceOnly; hr_cwdAllow := [];
  hr_env := [("TOKEN", "secret:github")]%string;
  hr_inheritEnv := {| ie_mode := InheritMinimal; ie_keys := [] |}; hr_approval := approval |}.

Definition sample_options (approval : HostExecApproval) : HostExecBrokerOptions := {|
  ho_sessionId := "s"; ho_workspaceRoot := "/work"; ho_sessionTmpDir := "/tmp/s";
  ho_hostexec := {| hc_promptEnable := true; hc_defaultScope := PromptCapability; hc_timeoutSeconds := 300;
                    hc_rules := [sample_rule approval] |};
  ho_audited := true; ho_secretsFramePath := None; ho_integrityTargets := [];
  ho_installedScriptPath := None; ho_brokerSocketPath := "/run/s/sock" |}.

Definition sample_request (id : string) : ExecuteRequest := {|
  er_sessionId := "s"; er_requestId := id; er_argv0 := "git"; er_args := ["status"]; er_cwd := "/work/src";
  er_tty := false; er_stdinMode := StdinNone |}.

Definition control_text (type requestId : string) : JsonValue :=
  JObject [("type", text type); ("requestId", text requestId)].

(** The gateway asks with the id, the person says the text; everything succeeds. *)
Definition calm_world (id : string) (said : JsonValue) : host_answers := λ io,
  match io return host_reply io + HostError with
  | ReadFrame _ => inl (Some (inl (GmExecute (sample_request id))))
  | ReadControl _ => inl (Some said)
  | RealPath p => inl p
  | RequireSecret _ => inl "t0ken"
  | RandomUUID => inl "uuid"
  | CurrentTime => inl "now"
  | SnapshotFile _ | CheckFile _ => inl Absent
  | ListPending => inl []
  | _ => inl ()
  end.

Definition turn_of (thread : nat) (answers : host_answers) (n : nat) : list (HostEvent * host_answers) :=
  repeat (Wake thread, answers) n.

(** A request that its rule allows. *)
Definition allowed_session : list (HostEvent * host_answers) :=
  let answers := calm_world "r1" JNull in (Connect InternalChannel, answers) :: turn_of 0 answers 12.

(** A request that a person approves for its capability. *)
Definition approved_session : list (HostEvent * host_answers) :=
  let answers := calm_world "r1" (control_text "approve" "r1") in
  (Connect InternalChannel, answers) :: turn_of 0 answers 9 ++
  (Connect ControlChannel, answers) :: turn_of 1 answers 9.

Definition starts (w : Trace) : list (nat * StartMessage) :=
  omap (λ e, match e with existT (StartCommand c start) _ => Some (c, start) | _ => None end) w.

Definition final `{HostRuntime} (o : HostExecBrokerOptions) (events : list (HostEvent * host_answers)) :
    HostExecState := pl_state (host_run o events).

Definition trace_of `{HostRuntime} (o : HostExecBrokerOptions) (events : list (HostEvent * host_answers)) : Trace :=
  pl_world (host_run o events).

Example allowed_session_ex :
  map (λ e, (e.1, sm_argv0 e.2, sm_args e.2, sm_cwd e.2, map_get (sm_env e.2) "TOKEN"))
    (starts (trace_of (H := sample_runtime) (sample_options ApprovalAllow) allowed_session)) =
  [(0%nat, "git", ["status"], "/work/src", Some "t0ken")]%string.
Proof. vm_compute. reflexivity. Qed.

Example approved_session_ex :
  map (λ e, (e.1, sm_argv0 e.2, map_get (sm_env e.2) "NAS_UPSTREAM_PROXY"))
    (starts (trace_of (H := sample_runtime) (sample_options ApprovalPrompt) approved_session)) =
  [(0%nat, "git", None)]%string.
Proof. vm_compute. reflexivity. Qed.

(** ** Why a command starts *)

Section Commands.
Context `{HostRuntime} (o : HostExecBrokerOptions).

(** C2.  In every run of the broker, whatever the interleaving and whatever the
    outside world answers, a command that starts on a connection was asked for on it;
    it is the command its request resolves to by the first rule that matches, in a
    directory the rule allows and with no variable but the inherited ones and the
    secrets the rule names; the rule does not deny it; the audit log, when there is
    one, has already recorded that it is allowed and why; and the recorded reason is
    true: the rule allows it and its file is as it was when the broker started, or the
    same holds and a person approved the capability before, or a person approved its
    capability or, after it was asked for, this very request. *)
Theorem commands_justified events before c start r after
    (Hstart : trace_of o events = before ++ existT (StartCommand c start) r :: after) :
  justified o before c start.
Proof. eapply (ok_starts o _ _ (pool_always _ _ _ _ (host_inv_run o events))), Hstart. Qed.

(** C34.  When the rules confine commands to the workspace every command starts in the
    workspace: its working directory resolves to the segments of the root and some
    below them. *)
Theorem workspace_command_confined events before c start r after
    (Hstart : trace_of o events = before ++ existT (StartCommand c start) r :: after)
    (Honly : ∀ rule, In rule (hc_rules (ho_hostexec o)) → hr_cwdMode rule = CwdWorkspaceOnly) :
  ∃ below, resolve_segments process_cwd [sm_cwd start] =
           resolve_segments process_cwd [ho_workspaceRoot o] ++ below.
Proof.
  destruct (ok_starts o _ _ (pool_always _ _ _ _ (host_inv_run o events)) _ _ _ _ _ Hstart)
    as (request & resolved & reason & _ & [Hrule _ [_ Hcwd] _ _] & Hs & _).
  assert (In (rx_rule resolved) (hc_rules (ho_hostexec o))) as Hin.
  { revert Hrule. generalize (hc_rules (ho_hostexec o)).
    induction l as [|rule rules IH]; cbn; [done|]. destruct (negb _); [by intros Hm; right; apply IH|].
    destruct (hr_argRegex rule); [|by intros [= <-]; left]. destruct (regex_test _ _) as [[|]|]; [by intros [= <-]; left| |done].
    intros Hm. right. by apply IH. }
  rewrite (Honly _ Hin) in Hcwd. apply isWithin_below in Hcwd as (below & Hb & _). exists below.
  unfold workspaceRoot in Hb. rewrite resolve_resolve in Hb. revert Hs. unfold start_of. destruct (is_installed o _).
  - destruct (installedScriptPayload _); [|done]. by intros [= <-].
  - by intros [= <-].
Qed.
End Commands.

Lemma commands_justified_witness :
  ∃ before c start r after,
    trace_of (H := sample_runtime) (sample_options ApprovalPrompt) approved_session =
      before ++ existT (StartCommand c start) r :: after ∧
    justified (H := sample_runtime) (sample_options ApprovalPrompt) before c start.
Proof.
  set (w := trace_of (H := sample_runtime) (sample_options ApprovalPrompt) approved_session).
  set (i := 19%nat). destruct (drop i w) as [|[io r] after] eqn:Ed; [vm_compute in Ed; discriminate|].
  assert (∃ c start, io = StartCommand c start) as (c & start & ->).
  { vm_compute in Ed. injection Ed as Hio. subst io. eauto. }
  exists (take i w), c, start, r, after. assert (w = take i w ++ existT (StartCommand c start) r :: after) as Hw.
  { by rewrite <- Ed, take_drop. }
  split; [exact Hw|]. exact (commands_justified (H := sample_runtime) _ _ _ _ _ _ _ Hw).
Defined.

Lemma workspace_command_confined_witness :
  ∃ start, In (0%nat, start) (starts (trace_of (H := sample_runtime) (sample_options ApprovalPrompt) approved_session)) ∧
    ∃ below, resolve_segments "/work" [sm_cwd start] = resolve_segments "/work" ["/work"] ++ below.
Proof.
  set (w := trace_of (H := sample_runtime) (sample_options ApprovalPrompt) approved_session).
  set (i := 19%nat). destruct (drop i w) as [|[io r] after] eqn:Ed; [vm_compute in Ed; discriminate|].
  assert (∃ start, io = StartCommand 0 start ∧ In (0%nat, start) (starts w)) as (start & -> & Hin).
  { vm_compute in Ed. injection Ed as Hio. subst io. eexists. split; [reflexivity|]. vm_compute. by left. }
  assert (w = take i w ++ existT (StartCommand 0 start) r :: after) as Hw by by rewrite <- Ed, take_drop.
  exists start. split; [exact Hin|].
  apply (workspace_command_confined (H := sample_runtime) _ _ _ _ _ _ _ Hw). by intros rule [<-|[]].
Defined.

(** ** A request that is lost

    Two requests of one group are denied at the same time.  The group is empty for
    both denials; between them a third request opens a group under the same key.  The
    second denial then removes that group from the map: the person cannot answer the
    third request, and the timer of its group does nothing. *)
Definition lost_session : list (HostEvent * host_answers) :=
  let deny id := calm_world id (control_text "deny" id) in
  (Connect InternalChannel, calm_world "r1" JNull) :: turn_of 0 (calm_world "r1" JNull) 9 ++
  (Connect InternalChannel, calm_world "r2" JNull) :: turn_of 1 (calm_world "r2" JNull) 9 ++
  (Connect ControlChannel, deny "r1") :: turn_of 2 (deny "r1") 1 ++
  (Connect ControlChannel, deny "r2") :: turn_of 3 (deny "r2") 1 ++
  turn_of 2 (deny "r1") 1 ++
  (Connect InternalChannel, calm_world "r3" JNull) :: turn_of 4 (calm_world "r3" JNull) 9 ++
  turn_of 3 (deny "r2") 9 ++ turn_of 2 (deny "r1") 9.

(** The key of the sample capability, which is its canonical text. *)
Definition lost_key : string :=
  match hs_requestToApprovalKey (final (H := sample_runtime) (sample_options ApprovalPrompt) lost_session) with
  | (_, key) :: _ => key
  | [] => ""
  end.

Lemma request_lost :
  let o := sample_options ApprovalPrompt in
  let s := final (H := sample_runtime) o lost_session in
  let later := final (H := sample_runtime) o
    (lost_session ++ (TimerFires (lost_key, 1%nat), calm_world "r3" JNull) ::
     turn_of 4 (calm_world "r3" JNull) 9) in
  map_get (hs_requestToApprovalKey s) "r3" = Some lost_key ∧ findGroupByRequestId s "r3" = None ∧
  map_get (pg_waiters (group_at s (lost_key, 1%nat))) "r3" = Some 4%nat ∧
  In 0%nat (hs_resolved later) ∧ In 1%nat (hs_resolved later) ∧ ¬ In 4%nat (hs_resolved later).
Proof. vm_compute. repeat split; try naive_solver. Qed.

(** ** A decision answers everyone

    While a group that has left the map is resolved nothing else changes its requests
    and its waiters; the two operations that resolving waits for outside of its
    exception handlers are assumed to succeed. *)
Section Answers.
Context (o : HostExecBrokerOptions) (ref : GroupRef).

(** The requests and the waiters of the group stay, and who is answered stays so. *)
Record unanswered_only (s s' : HostExecState) : Prop := {
  uo_requests : pg_requests (group_at s' ref) = pg_requests (group_at s ref);
  uo_waiters : pg_waiters (group_at s' ref) = pg_waiters (group_at s ref);
  uo_resolved : ∀ c, In c (hs_resolved s) → In c (hs_resolved s');
}.

#[export] Instance unanswered_preorder : PreOrder unanswered_only.
Proof.
  split; [by split|]. intros s1 s2 s3 [A1 A2 A3] [B1 B2 B3]. split; [congruence|congruence|auto].
Qed.

Lemma unanswered_update f s :
  (∀ g, pg_requests (f g) = pg_requests g ∧ pg_waiters (f g) = pg_waiters g) →
  unanswered_only s (update_group ref f s).
Proof.
  intros Hf. assert (group_at (update_group ref f s) ref = f (group_at s ref) ∨
    group_at (update_group ref f s) ref = group_at s ref) as Hg.
  { unfold group_at, update_group. cbn. destruct (map_get (hs_heap s) ref) as [g|] eqn:Eg; [left|right].
    - by rewrite map_get_set_eq.
    - by rewrite Eg. }
  split; [..|done]; destruct Hg as [-> | ->]; try done; apply Hf.
Qed.

Definition succeeds (io : HostIO) : host_reply io + HostError → Prop :=
  match io with RemovePending _ | CloseNotification => λ r, ∃ a, r = inl a | _ => λ _, True end.

Definition undisturbed (s : HostExecState) (w : Trace) (io : HostIO) (r : host_reply io + HostError)
    (s' : HostExecState) (w' : Trace) : Prop := unanswered_only s s' ∧ succeeds io r.

Abbreviation moving := (moves (H := host_effects) undisturbed unanswered_only).

Lemma undisturbed_moves s w io r s' w' : undisturbed s w io r s' w' → unanswered_only s s'.
Proof. by intros []. Qed.

Lemma moving_lifecycle c f : moving (modify (set_lifecycle c f)).
Proof. apply moves_modify. intros s. by split. Qed.

Lemma moving_await io : moving (await io).
Proof. apply moves_await, undisturbed_moves. Qed.

Lemma moving_call io : moving (call io).
Proof. apply moves_call, _. Qed.

Lemma moving_emit io : moving (emit io).
Proof. by intros s w r. Qed.

Lemma moving_pause io : moving (pause io).
Proof. intros s w. split; [done|]. by intros r s' w' []. Qed.

Ltac move_step :=
  lazymatch goal with
  | |- moves _ _ (get ≫= _) => apply moves_get; intros ?
  | |- moves _ _ (_ ≫= _) => apply moves_bind; [apply _| |intros ?]
  | |- moves _ _ (try _ _) => apply moves_try; [apply _| |intros ?]
  | |- moves _ _ (ignore_errors _) => apply moves_try; [apply _| |intros ?]
  | |- moves _ _ (mret _) => apply moves_ret, _
  | |- moves _ _ (modify (set_lifecycle _ _)) => apply moving_lifecycle
  | |- moves _ _ (await ?io) => exact (moving_await io)
  | |- moves _ _ (call ?io) => exact (moving_call io)
  | |- moves _ _ (emit _) => apply moving_emit
  | |- moves _ _ (pause _) => apply moving_pause
  | |- moves _ _ (if ?b then _ else _) => destruct b
  | |- moves _ _ (match ?x with _ => _ end) => destruct x
  end.

Lemma moving_answer mode requestId request resolved c : moving (answer_waiter o mode requestId request resolved c).
Proof.
  unfold answer_waiter, recordAudit, writeGatewayError, runGatewayResolved. cbv zeta. repeat move_step.
Qed.

(** The waiter of a request is released. *)
Lemma resolve_one_answers mode requestId s w :
  safe (H := host_effects) undisturbed (λ _ _, True)
    (λ s' _ r, unanswered_only s s' ∧ r = inl () ∧
       ∀ c pending, map_get (pg_requests (group_at s ref)) requestId = Some pending →
         map_get (pg_waiters (group_at s ref)) requestId = Some c → In c (hs_resolved s'))
    (resolve_one o ref mode false requestId) s w.
Proof.
  unfold resolve_one. apply safe_get. cbv zeta.
  destruct (map_get (pg_requests (group_at s ref)) requestId) as [[request resolved]|] eqn:Er; [|by split_and!].
  apply safe_ret_bind, safe_modify.
  refine (safe_await _ _ _ (RemovePending requestId) _ _ _ I _). intros r s1 w1 [H1 [[] ->]]. cbn [answered].
  apply safe_ret_bind, safe_get. cbn [andb]. apply safe_ret_bind.
  assert (unanswered_only s s1) as Hs1 by (etrans; [|exact H1]; by split).
  destruct (map_get (pg_waiters (group_at s ref)) requestId) as [c|] eqn:Ec.
  - apply (safe_seq (H := host_effects) _ _ (λ s' _ (r : () + HostError), unanswered_only s s' ∧ r = inl ())).
    + apply (safe_catch (H := host_effects) _ _ (λ s' _ (_ : () + HostError), unanswered_only s s')).
      * exact (moves_from (H := host_effects) undisturbed unanswered_only _ s s1 _ (moving_answer _ _ _ _ _) Hs1).
      * by intros s2 w2 [] Hs.
      * by intros s2 w2 e Hs.
    + cbn. intros s2 w2 [] [Hs _]. split_and!; [|done|].
      * etrans; [exact Hs|]. split; [done|done|]. cbn. auto.
      * intros c' pending _ [= <-]. by left.
    + cbn. by intros s2 w2 e [_ [=]].
  - apply safe_ret. by split_and!.
Qed.

Lemma resolve_all_answers mode requestIds : ∀ s w,
  safe (H := host_effects) undisturbed (λ _ _, True)
    (λ s' _ r, unanswered_only s s' ∧ r = inl () ∧
       ∀ requestId c pending, In requestId requestIds →
         map_get (pg_requests (group_at s ref)) requestId = Some pending →
         map_get (pg_waiters (group_at s ref)) requestId = Some c → In c (hs_resolved s'))
    (resolve_all o ref mode false requestIds) s w.
Proof.
  induction requestIds as [|requestId requestIds IH]; intros s w; cbn [resolve_all]; [by split_and!|].
  eapply safe_seq; [apply resolve_one_answers| |by intros s1 w1 e (_ & [=] & _)].
  intros s1 w1 [] (H1 & _ & H2). eapply safe_mono; [apply IH|]. intros s2 w2 r (H3 & -> & H4).
  split_and!; [by etrans|done|]. intros r' c pending [<-|Hin] Hr Hc.
  - by eapply (uo_resolved _ _ H3), H2.
  - apply (H4 r' c pending); [done| |].
    + by rewrite (uo_requests _ _ H1).
    + by rewrite (uo_waiters _ _ H1).
Qed.
End Answers.

(** Approving a capability, and the time-out, resolve the whole group: when no
    other method touches its requests meanwhile and the pending files can be removed,
    the resolution ends without an error and every request of the group that has a
    waiter has been released, whatever happens to the connections and the commands of
    the others. *)
Theorem group_resolution_answers (o : HostExecBrokerOptions) key number mode s w s' w' r
    (Hopen : map_get (hs_groups s) key = Some number)
    (Hrun : evaluates (H := host_effects) (undisturbed (key, number)) (resolveGroup o key mode None) s w s' w' r) :
  r = inl () ∧
  ∀ requestId c pending,
    map_get (pg_requests (group_at s (key, number))) requestId = Some pending →
    map_get (pg_waiters (group_at s (key, number))) requestId = Some c → In c (hs_resolved s').
Proof.
  set (ref := (key, number)).
  assert (safe (H := host_effects) (undisturbed ref) (λ _ _, True)
    (λ s' _ r, r = inl () ∧ ∀ requestId c pending,
       map_get (pg_requests (group_at s ref)) requestId = Some pending →
       map_get (pg_waiters (group_at s ref)) requestId = Some c → In c (hs_resolved s'))
    (resolveGroup o key mode None) s w) as Hsafe; [|exact (safe_evaluates _ _ _ _ _ _ _ _ _ Hsafe Hrun)].
  unfold resolveGroup. apply safe_get. unfold open_group. rewrite Hopen. cbn [fmap option_fmap option_map].
  fold ref. do 3 apply safe_modify.
  refine (safe_await _ _ _ CloseNotification _ _ _ I _). intros x s1 w1 [Hs [[] ->]]. cbn [answered].
  apply safe_ret_bind, safe_get.
  assert (unanswered_only ref s s1) as [H1 H2 H3].
  { etrans; [by apply (unanswered_update ref clear_timer)|]. etrans; [|exact Hs].
    etrans; [|by apply unanswered_update]. by split. }
  eapply safe_mono; [apply resolve_all_answers|]. intros s2 w2 x (_ & -> & Hall). split; [done|].
  intros requestId c pending Hr Hc. rewrite <- H1 in Hr. rewrite <- H2 in Hc.
  apply (Hall requestId c pending); [|done|done]. by apply map_get_In, (in_map fst) in Hr.
Qed.

Definition waiting_session : list (HostEvent * host_answers) :=
  (Connect InternalChannel, calm_world "r1" JNull) :: turn_of 0 (calm_world "r1" JNull) 9 ++
  (Connect InternalChannel, calm_world "r2" JNull) :: turn_of 1 (calm_world "r2" JNull) 9.

Definition waiting_state : HostExecState := final (H := sample_runtime) (sample_options ApprovalPrompt) waiting_session.

Definition denied_state : HostExecState :=
  (run (calm_world "r1" JNull)
     (resolveGroup (sample_options ApprovalPrompt) lost_key (Deny TIMED_OUT) None)
     waiting_state []).1.1.

Lemma group_resolution_answers_witness : In 0%nat (hs_resolved denied_state) ∧ In 1%nat (hs_resolved denied_state).
Proof.
  destruct (group_resolution_answers (sample_options ApprovalPrompt) lost_key 0 (Deny TIMED_OUT)
    waiting_state [] _ _ _ ltac:(vm_compute; reflexivity)
    (run_evaluates (H := host_effects) _ (calm_world "r1" JNull) _ _ _
       (λ s w io, conj (reflexivity s) match io return succeeds io (calm_world "r1" JNull io) with
         | RemovePending _ | CloseNotification => ex_intro _ () eq_refl | _ => I end))) as [_ Hall].
  split.
  - eapply (Hall "r1"); vm_compute; reflexivity.
  - eapply (Hall "r2"); vm_compute; reflexivity.
Defined.
