(* ===== verification/Config.v ===== *)
(** * The configuration of profiles and its validation (config/types.ts, port_forwards.ts, validate.ts, load.ts)

    The data a configuration file is read into, the normalization of its port forwards,
    and what the type system of the configuration language cannot say: each check is a
    function from a profile to its errors, [validateProfile] collects them, and
    [validateConfig] returns the configuration with its port forwards normalized, or
    all errors.  A check that throws, as the authorization does on names inherited from
    `Object.prototype`, is [None].  The members of a profile that only one stage reads
    and nothing checks are left out. *)
From S2P Require Import Prelude JsString Json NodePath AuthzConfig PortForward PortBind.
From S2P Require Import Agents HostMatch ContainerPlan MountPlan Validate Compile Resolve Protocol Dind.

(** ** types.ts *)

Record PortPair : Type := { pp_hostPort : Z; pp_containerPort : Z }.

(** A number that may also be no integer at all. *)
Record RequestBodyAuditConfig : Type := {
  ra_enable : bool;
  ra_retentionSeconds : option Z;
  ra_maxBodyBytes : option Z;
  ra_maxTotalBytes : option Z;
}.

(** The members of `network` next to those of the authorization. *)
Record ProfileNetwork : Type := {
  pn_authz : NetworkConfig;
  pn_localForwards : list PortPair;
  pn_remoteForwards : list PortPair;
  pn_forwardPorts : list Z;
  pn_requestBodyAudit : RequestBodyAuditConfig;
}.

Record DockerConfig : Type := {
  do_enable : bool;
  do_shared : bool;
  do_networkScopes : option (list (string * ScopeConfig));
}.

Record AgentStateConfig : Type := {
  as_protectSettings : bool;
  as_claudeJson : option (list (string * JsonValue));
  as_auth : option AgentCredentialsConfig;
}.

Record DbusRuleConfig : Type := { db_name : string; db_rule : string }.

Record DbusSessionConfig : Type := {
  ds_enable : bool;
  ds_sourceAddress : option string;
  ds_see : list string;
  ds_talk : list string;
  ds_own : list string;
  ds_calls : list DbusRuleConfig;
  ds_broadcasts : list DbusRuleConfig;
}.

Record HostExecSection : Type := {
  hx_installScript : bool;
  hx_secrets : list (string * SecretConfig);
  hx_rules : list HostExecRule;
}.

(** An entry names its variable, or the command that prints the name. *)
Record EnvConfig : Type := {
  ev_key : option string;
  ev_mode : EnvMode;
  ev_separator : option string;
}.

(** [cp_retired] are the sections of retired settings a raw configuration may still
    have: `nix.extraPackages`, `gcloud` or `aws`, `gpg`. *)
Record RetiredMembers : Type := { rt_extraPackages : bool; rt_cloud : bool; rt_gpg : bool }.

Record ConfigProfile : Type := {
  cp_agent : AgentType;
  cp_extraAgents : list AgentType;
  cp_mode : AgentMode;
  cp_agentArgs : list string;
  cp_agentState : AgentStateConfig;
  cp_worktree : bool;
  cp_docker : DockerConfig;
  cp_network : ProfileNetwork;
  cp_dbus : DbusSessionConfig;
  cp_displaySize : string;
  cp_env : list EnvConfig;
  cp_hostexec : option HostExecSection;
  cp_secrets : list (string * SecretConfig);
  cp_guideEnable : bool;
  cp_mask : option MaskConfig;
  cp_retired : RetiredMembers;
}.

Record Config : Type := {
  cf_default : option string;
  cf_profiles : list (string * ConfigProfile);
}.

(** ** Texts of errors *)

Definition text (parts : list string) : string := String.concat "" parts.
Definition quoted (s : string) : string := dquote +:+ s +:+ dquote.
Definition of_profile (name : string) : string := "profile " +:+ quoted name +:+ ": ".
Definition at_index (i : nat) : string := "[" +:+ nat_to_string i +:+ "]".

(** ** port_forwards.ts *)

Definition MIN_PORT : Z := 1.

Record ForwardConfigResult : Type := {
  fr_entries : list ForwardSpec;
  fr_errors : list string;
}.

(** The fields of `normalizePortForwards` between two calls of `add`; the entries are
    the values of `byKey` in their order. *)
Record ForwardTable : Type := {
  ft_entries : list ForwardSpec;
  ft_byKey : list (string * ForwardSpec);
  ft_localListeners : list (Z * ForwardSpec);
  ft_errors : list string;
}.

Definition forward_error (t : ForwardTable) (errors : list string) : ForwardTable := {|
  ft_entries := ft_entries t; ft_byKey := ft_byKey t; ft_localListeners := ft_localListeners t;
  ft_errors := ft_errors t ++ errors |}.

Definition port_in_range (value : Z) : bool := (MIN_PORT <=? value)%Z && (value <=? MAX_PORT)%Z.

Definition range_error (profileName label field : string) (value : Z) : list string :=
  if port_in_range value then []
  else [text [of_profile profileName; label; "."; field; " must be an integer from 1 to 65535 (got "; Z_to_string value; ")"]].

Definition add_forward (profileName : string) (reserved : list Z) (direction : ForwardDirection) (pair : PortPair)
    (label : string) (t : ForwardTable) : ForwardTable :=
  let spec := {| fs_direction := direction; fs_hostPort := pp_hostPort pair; fs_containerPort := pp_containerPort pair |} in
  let t := forward_error t (range_error profileName label "hostPort" (fs_hostPort spec) ++
                            range_error profileName label "containerPort" (fs_containerPort spec)) in
  let t := if negb (is_local spec) && includes reserved (fs_containerPort spec)
           then forward_error t [text [of_profile profileName; label; ".containerPort "; Z_to_string (fs_containerPort spec);
                  " is reserved for an internal listener (including the Docker daemon when enabled)"]]
           else t in
  let key := spec_key spec in
  let insert t := {|
    ft_entries := ft_entries t ++ [spec]; ft_byKey := map_set (ft_byKey t) key spec;
    ft_localListeners := ft_localListeners t; ft_errors := ft_errors t |} in
  match map_get (ft_byKey t) key with
  | Some existing =>
      if (fs_hostPort existing =? fs_hostPort spec)%Z then t
      else forward_error t [text [of_profile profileName; label; " conflicts with "; key; ": hostPort ";
             Z_to_string (fs_hostPort spec); " differs from "; Z_to_string (fs_hostPort existing)]]
  | None =>
      if is_local spec then
        match map_get (ft_localListeners t) (fs_hostPort spec) with
        | Some listener =>
            if (fs_containerPort listener =? fs_containerPort spec)%Z
            then insert {| ft_entries := ft_entries t; ft_byKey := ft_byKey t;
                           ft_localListeners := map_set (ft_localListeners t) (fs_hostPort spec) spec; ft_errors := ft_errors t |}
            else forward_error t [text [of_profile profileName; label; ".hostPort "; Z_to_string (fs_hostPort spec);
                   " is already used by local:"; Z_to_string (fs_containerPort listener)]]
        | None =>
            insert {| ft_entries := ft_entries t; ft_byKey := ft_byKey t;
                      ft_localListeners := map_set (ft_localListeners t) (fs_hostPort spec) spec; ft_errors := ft_errors t |}
        end
      else insert t
  end.

Fixpoint add_forwards (profileName : string) (reserved : list Z) (direction : ForwardDirection) (prefix : string) (i : nat)
    (pairs : list PortPair) (t : ForwardTable) : ForwardTable :=
  match pairs with
  | [] => t
  | p :: pairs =>
      add_forwards profileName reserved direction prefix (S i) pairs
        (add_forward profileName reserved direction p (prefix +:+ at_index i) t)
  end.

Definition same_port (port : Z) : PortPair := {| pp_hostPort := port; pp_containerPort := port |}.

Definition empty_table : ForwardTable := {| ft_entries := []; ft_byKey := []; ft_localListeners := []; ft_errors := [] |}.

Definition forward_table (profileName : string) (localForwards remoteForwards : list PortPair) (forwardPorts : list Z)
    (reservedPorts : list Z) : ForwardTable :=
  add_forwards profileName reservedPorts DirRemote "network.proxy.forwardPorts" 0 (map same_port forwardPorts)
    (add_forwards profileName reservedPorts DirRemote "network.remoteForwards" 0 remoteForwards
      (add_forwards profileName reservedPorts DirLocal "network.localForwards" 0 localForwards empty_table)).

Definition normalizePortForwards (profileName : string) (localForwards remoteForwards : list PortPair)
    (forwardPorts : list Z) (reservedPorts : list Z) : ForwardConfigResult :=
  let t := forward_table profileName localForwards remoteForwards forwardPorts reservedPorts in
  {| fr_entries := ft_entries t; fr_errors := ft_errors t |}.

Definition migrationWarning (profileName : string) (ports : list Z) : string :=
  let replacement port := text ["new PortForwardConfig { hostPort = "; Z_to_string port; "; containerPort = "; Z_to_string port; " }"] in
  text ["[warn] "; of_profile profileName; "network.proxy.forwardPorts is deprecated; replace it with network.remoteForwards using: ";
        "network { remoteForwards { "; String.concat "; " (map replacement ports); " } }. See docs/migration/port-forwarding.md."].

(** The warnings of `normalizePortForwards`. *)
Definition forward_warnings (profileName : string) (forwardPorts : list Z) : list string :=
  match forwardPorts with [] => [] | _ => [migrationWarning profileName forwardPorts] end.

(** ** validate.ts *)

(** What the checks take from the runtime. *)
Class ConfigRuntime : Type := {
  (** the message of `new RegExp(text)`, [None] when it is a pattern *)
  regex_error : string → option string;
  (** `String(Number(digits))` *)
  digits_text : string → string;
}.

Definition LOCAL_PROXY_PORT : Z := 18080.
Definition DIND_INTERNAL_PORT : Z := 2375.

Definition SECRET_SOURCE_PREFIXES : list string := ["env:"; "file:"; "dotenv:"; "keyring:"; "lines:"; "cmd:"].

Definition AgentType_name (agent : AgentType) : string :=
  match agent with AgentClaude => "claude" | AgentCopilot => "copilot" | AgentCodex => "codex" end.

(** `name in object` *)
Definition is_member {V} (name : string) (o : list (string * V)) : bool :=
  map_has o name || includes object_prototype_names name.

(** ** Agents *)

Fixpoint extra_agents_errors (name : string) (agent : AgentType) (seen : list AgentType) (extras : list AgentType) : list string :=
  match extras with
  | [] => []
  | extra :: extras =>
      (if bool_decide (extra = agent)
       then [text [of_profile name; "extraAgents must not include the launched agent "; quoted (AgentType_name extra)]]
       else if includes seen extra then [text [of_profile name; "extraAgents lists "; quoted (AgentType_name extra); " twice"]]
       else []) ++
      extra_agents_errors name agent (seen ++ [extra]) extras
  end.

Definition validateExtraAgents (name : string) (profile : ConfigProfile) : list string :=
  extra_agents_errors name (cp_agent profile) [] (cp_extraAgents profile).

Definition validateClaudeJson (name : string) (profile : ConfigProfile) : list string :=
  if as_protectSettings (cp_agentState profile) then []
  else
    match as_claudeJson (cp_agentState profile) with
    | None | Some [] => []
    | Some _ => [of_profile name +:+ "agentState.claudeJson requires agentState.protectSettings = true; without it the container shares the host ~/.claude.json"]
    end.

Definition CLAUDE_API_KEY_ENV_KEYS : list string := ["ANTHROPIC_API_KEY"; "ANTHROPIC_AUTH_TOKEN"].
Definition CODEX_API_KEY_ENV_KEYS : list string := ["OPENAI_API_KEY"; "CODEX_API_KEY"].

Definition apiKeyEnvErrors (name : string) (profile : ConfigProfile) (keys : list string) (agent : AgentType) (label : string) :
    list string :=
  flat_map (λ entry,
    match ev_key entry with
    | None => []
    | Some key =>
        if includes keys key
        then [text [of_profile name; "env "; key; " does not work while "; label;
                " credentials are injected by the proxy; set agentState.auth = "; quoted "passthrough"; " (or new Mapping { [";
                quoted (AgentType_name agent); "] = "; quoted "passthrough"; " } for "; label; " only) to use an API key"]]
        else []
    end) (cp_env profile).

Definition auth_by_agent (auth : option AgentCredentialsConfig) : list (AgentType * AgentCredentialsMode) :=
  match auth with
  | Some (AuthByAgent claude copilot codex) =>
      flat_map (λ e, match e.2 with Some mode => [(e.1, mode)] | None => [] end)
        [(AgentClaude, claude); (AgentCopilot, copilot); (AgentCodex, codex)]
  | _ => []
  end.

Definition uses_proxied (profile : ConfigProfile) (agent : AgentType) : bool :=
  usesProxiedCredentials (cp_agent profile) (cp_extraAgents profile) (as_auth (cp_agentState profile)) agent false.

Definition validateAgentCredentials (name : string) (profile : ConfigProfile) : list string :=
  let auth := as_auth (cp_agentState profile) in
  let provisioned := cp_agent profile :: cp_extraAgents profile in
  (if match auth with Some (AuthForAll Injected) => true | _ => false end && negb (existsb supportsProxiedCredentials provisioned)
   then [text [of_profile name; "agentState.auth = "; quoted "injected"; " supports only agents "; quoted "claude"; " and ";
           quoted "codex"; "; use "; quoted "passthrough"; " for agent "; quoted (AgentType_name (cp_agent profile))]]
   else []) ++
  flat_map (λ '(agent, mode),
    if bool_decide (mode = Injected) && negb (supportsProxiedCredentials agent)
    then [text [of_profile name; "agentState.auth["; quoted (AgentType_name agent); "] = "; quoted "injected";
            " is unsupported; only agents "; quoted "claude"; " and "; quoted "codex"; " support "; quoted "injected"]]
    else []) (auth_by_agent auth) ++
  (if uses_proxied profile AgentClaude then apiKeyEnvErrors name profile CLAUDE_API_KEY_ENV_KEYS AgentClaude "Claude" else []) ++
  (if uses_proxied profile AgentCodex then apiKeyEnvErrors name profile CODEX_API_KEY_ENV_KEYS AgentCodex "Codex" else []).

(** The restrictions of ACP mode. *)
Definition acp_errors (name : string) (profile : ConfigProfile) : list string :=
  if negb (bool_decide (cp_mode profile = ModeAcp)) then []
  else
    (if bool_decide (cp_agent profile = AgentClaude) then []
     else [text [of_profile name; "mode "; quoted "acp"; " currently supports only agent "; quoted "claude"; "; use mode ";
             quoted "terminal"; " for agent "; quoted (AgentType_name (cp_agent profile))]]) ++
    (if (0 <? length (cp_agentArgs profile))%nat
     then [of_profile name +:+ "agentArgs are not supported in ACP mode; configure Claude through the ACP client or Claude settings"]
     else []) ++
    (if cp_guideEnable profile
     then [of_profile name +:+ "guide.enable is not supported in ACP mode; configure instructions through the ACP client or Claude settings"]
     else []) ++
    (if cp_worktree profile
     then [of_profile name +:+ "worktree creation is not supported in ACP mode; start nas from the workspace or an existing worktree"]
     else []).

(** ** Secrets and the network *)

Definition secret_error (profileName : string) (entry : string * SecretConfig) : list string :=
  let source := sc_from entry.2 in
  if String.eqb (trim source) ""
  then [text [of_profile profileName; "secrets["; quoted entry.1; "].from must be a non-empty string"]]
  else if existsb (startsWith source) SECRET_SOURCE_PREFIXES then []
  else [text [of_profile profileName; "secrets["; quoted entry.1; "].from ("; quoted source; ") must start with one of ";
          String.concat ", " SECRET_SOURCE_PREFIXES; " (literal values are not supported)"]].

Definition validateSecretRegistry (profileName : string) (secrets : list (string * SecretConfig)) : list string :=
  flat_map (secret_error profileName) secrets.

Definition FORBIDDEN_INJECT_HEADERS : list string :=
  ["host"; "content-length"; "transfer-encoding"; "connection"; "proxy-authorization"; "proxy-connection"; "keep-alive";
   "te"; "trailer"; "upgrade"].

Definition authz_config (profile : ConfigProfile) : AuthzConfig := {|
  ac_secrets := Some (cp_secrets profile); ac_mask := cp_mask profile; ac_network := pn_authz (cp_network profile) |}.

Definition dind_profile (profile : ConfigProfile) : DindProfile := {|
  dp_secrets := Some (cp_secrets profile); dp_mask := cp_mask profile;
  dp_networkScopes := do_networkScopes (cp_docker profile) |}.

Definition scope_injects (scope : ScopeConfig) : list Inject :=
  default [] (so_inject scope) ++ flat_map (λ rule, default [] (rc_inject rule.2)) (default [] (so_rules scope)).

Definition header_error (prefix scopeName : string) (entry : Inject) : list string :=
  let header := trim (inj_name entry) in
  if String.eqb header "" then [text [prefix; "inject in scope "; scopeName; " has no header name."]]
  else if includes FORBIDDEN_INJECT_HEADERS (toLowerCase header)
  then [text [prefix; "inject in scope "; scopeName; " targets the header "; header; ", which cannot be injected."]]
  else [].

Definition all_scopes (profile : ConfigProfile) : list (string * ScopeConfig) :=
  nc_scopes (pn_authz (cp_network profile)) ++ default [] (do_networkScopes (cp_docker profile)).

(** The errors and the warnings. *)
Definition validateAuthz (profileName : string) (profile : ConfigProfile) : option (list string * list string) :=
  diagnostics ← validateAuthzConfig (authz_config profile);
  dind ← resolveDindAuthzConfig (dind_profile profile);
  let diagnostics := diagnostics ++ ro_diagnostics dind in
  let prefix := of_profile profileName in
  Some (flat_map (λ d, if is_error d then [prefix +:+ d_message d] else []) diagnostics ++
        flat_map (λ scope, flat_map (header_error prefix scope.1) (scope_injects scope.2)) (all_scopes profile),
        flat_map (λ d, if is_error d then [] else [text ["[warn] "; prefix; d_message d]]) diagnostics).

Definition isSafeInteger (x : option Z) : option Z := z ← x; if (Z.abs z <=? MAX_SAFE_INTEGER)%Z then Some z else None.

Definition positive (x : option Z) : bool := match isSafeInteger x with Some z => (0 <? z)%Z | None => false end.

Definition validateRequestBodyAudit (profileName : string) (config : RequestBodyAuditConfig) : list string :=
  let prefix := of_profile profileName +:+ "requestBodyAudit" in
  flat_map (λ '(field, value), if positive value then [] else [text [prefix; "."; field; " must be a positive safe integer"]])
    [("retentionSeconds", ra_retentionSeconds config); ("maxBodyBytes", ra_maxBodyBytes config);
     ("maxTotalBytes", ra_maxTotalBytes config)] ++
  match isSafeInteger (ra_maxBodyBytes config) with
  | Some maxBodyBytes =>
      (if (33554432 <? maxBodyBytes)%Z then [prefix +:+ ".maxBodyBytes must be at most 33554432"] else []) ++
      match isSafeInteger (ra_maxTotalBytes config) with
      | Some maxTotalBytes =>
          if (0 <? maxBodyBytes)%Z && (0 <? maxTotalBytes)%Z && (maxTotalBytes <? maxBodyBytes)%Z
          then [prefix +:+ ".maxTotalBytes must be greater than or equal to requestBodyAudit.maxBodyBytes"] else []
      | None => []
      end
  | None => []
  end.

(** ** Environment, display, D-Bus *)

Definition EnvMode_name (mode : EnvMode) : string :=
  match mode with EnvSet => "set" | EnvPrefix => "prefix" | EnvSuffix => "suffix" end.

Definition env_error (profileName : string) (i : nat) (entry : EnvConfig) : list string :=
  match ev_mode entry, ev_separator entry with
  | EnvSet, Some _ => [text [of_profile profileName; "env"; at_index i; ".separator is only allowed when mode is "; quoted "prefix"; " or "; quoted "suffix"]]
  | EnvPrefix, None | EnvSuffix, None =>
      [text [of_profile profileName; "env"; at_index i; ".separator is required when mode is "; quoted (EnvMode_name (ev_mode entry))]]
  | _, _ => []
  end.

Definition validateEnvEntries (profileName : string) (entries : list EnvConfig) : list string :=
  concat (imap (env_error profileName) entries).

Definition DISPLAY_MAX_DIMENSION : Z := 16384.

(** The number a text of digits denotes. *)
Fixpoint digits_value (acc : Z) (s : string) : Z :=
  match s with "" => acc | String a s => digits_value (10 * acc + (Z.of_nat (code a) - 48)) s end.

Definition digits (s : string) : bool := negb (String.eqb s "") && string_all is_digit s.

Section Checks.
Context `{ConfigRuntime}.

Definition dimension_error (profileName field s : string) : list string :=
  let value := digits_value 0 s in
  if (value <? 1)%Z || (DISPLAY_MAX_DIMENSION <? value)%Z
  then [text [of_profile profileName; "display.size "; field; " "; digits_text s; " out of range 1-16384"]] else [].

(** The pattern is digits, "x", digits. *)
Definition validateDisplaySize (profileName size : string) : list string :=
  match split_on "x" size with
  | [w; h] =>
      if digits w && digits h
      then dimension_error profileName "width" w ++ dimension_error profileName "height" h
      else [text [of_profile profileName; "display.size ("; quoted size; ") must match "; quoted "<width>x<height>"; " (digits only)"]]
  | _ => [text [of_profile profileName; "display.size ("; quoted size; ") must match "; quoted "<width>x<height>"; " (digits only)"]]
  end.

Definition is_name_start (a : ascii) : bool := is_alpha a || Ascii.eqb a "_" || Ascii.eqb a "-".
Definition is_name_char (a : ascii) : bool := is_alpha a || is_digit a || Ascii.eqb a "_" || Ascii.eqb a "." || Ascii.eqb a "-".

(** DBUS_NAME_RE: a name, and perhaps one star at the end. *)
Fixpoint dbus_rest (s : string) : bool :=
  match s with
  | "" => true
  | String a rest => if is_name_char a then dbus_rest rest else Ascii.eqb a "*" && String.eqb rest ""
  end.

Definition DBUS_NAME_RE (s : string) : bool := match s with "" => false | String a rest => is_name_start a && dbus_rest rest end.

Definition no_equals (where_ value : string) : list string :=
  if str_includes value "=" then [text [where_; " ("; quoted value; ") must not contain "; quoted "="; " (argument injection)"]] else [].

Definition dbus_name_errors (where_ name : string) : list string :=
  no_equals where_ name ++
  (if DBUS_NAME_RE name then [] else [text [where_; " ("; quoted name; ") is not a valid D-Bus well-known name"]]).

Definition names_errors (profileName field : string) (names : list string) : list string :=
  concat (imap (λ i name, dbus_name_errors (text [of_profile profileName; "dbus.session."; field; at_index i]) name) names).

Definition rules_errors (profileName field : string) (rules : list DbusRuleConfig) : list string :=
  concat (imap (λ i entry,
    let where_ := text [of_profile profileName; "dbus.session."; field; at_index i] in
    dbus_name_errors (where_ +:+ ".name") (db_name entry) ++ no_equals (where_ +:+ ".rule") (db_rule entry)) rules).

Definition validateDbusRules (profileName : string) (session : DbusSessionConfig) : list string :=
  names_errors profileName "see" (ds_see session) ++ names_errors profileName "talk" (ds_talk session) ++
  names_errors profileName "own" (ds_own session) ++
  rules_errors profileName "calls" (ds_calls session) ++ rules_errors profileName "broadcasts" (ds_broadcasts session).

(** ** Rules for commands on the host *)

Definition is_key_start (a : ascii) : bool := is_alpha a || Ascii.eqb a "_".
Definition ENV_KEY_RE (s : string) : bool :=
  match s with "" => false | String a rest => is_key_start a && string_all (λ a, is_alpha a || is_digit a || Ascii.eqb a "_") rest end.

Definition of_rule (profileName : string) (i : nat) : string := text [of_profile profileName; "hostexec.rules"; at_index i].

Definition validateHostExecRuleEnvKeys (profileName : string) (i : nat) (rule : HostExecRule) : list string :=
  flat_map (λ e, if ENV_KEY_RE e.1 then []
                 else [text [of_rule profileName i; ".env key "; quoted e.1; " is not a valid environment variable name"]]) (hr_env rule).

Definition CwdMode_name (mode : HostExecCwdMode) : string :=
  match mode with
  | CwdWorkspaceOnly => "workspace-only"
  | CwdWorkspaceOrSessionTmp => "workspace-or-session-tmp"
  | CwdAllowlist => "allowlist"
  | CwdAny => "any"
  end.

Definition validateHostExecRuleCwdAllow (profileName : string) (i : nat) (rule : HostExecRule) : list string :=
  if (0 <? length (hr_cwdAllow rule))%nat && negb match hr_cwdMode rule with CwdAllowlist => true | _ => false end
  then [text [of_rule profileName i; ".cwd.allow is non-empty but cwd.mode is "; quoted (CwdMode_name (hr_cwdMode rule));
          " (must be "; quoted "allowlist"; ")"]]
  else [].

Definition validateHostExecRuleArgRegex (profileName : string) (i : nat) (rule : HostExecRule) : list string :=
  match hr_argRegex rule with
  | None => []
  | Some argRegex =>
      match regex_error argRegex with
      | None => []
      | Some message => [text [of_rule profileName i; ".match.argRegex ("; quoted argRegex; ") is not a valid regular expression: "; message]]
      end
  end.

Definition secret_reference : string := "secret:".

Definition validateHostExecRuleEnv (profileName : string) (i : nat) (rule : HostExecRule) (secretNames : list string) : list string :=
  flat_map (λ e : string * string,
    let '(key, value) := e in
    if negb (startsWith value secret_reference)
    then [text [of_rule profileName i; ".env."; key; " must use secret:<name> reference"]]
    else
      let secretName := drop_str (slen secret_reference) value in
      if includes secretNames secretName then []
      else [text [of_rule profileName i; ".env."; key; " references unknown secret "; quoted secretName]]) (hr_env rule).

Definition hostexec_errors (name : string) (section : HostExecSection) : list string :=
  let secretNames := map_keys (hx_secrets section) in
  concat (imap (λ i rule,
    validateHostExecRuleEnv name i rule secretNames ++ validateHostExecRuleEnvKeys name i rule ++
    validateHostExecRuleCwdAllow name i rule ++ validateHostExecRuleArgRegex name i rule) (hx_rules section)).

(** The warnings on rules with one `argv0`: a repeated pattern, and rules behind the
    first one without a pattern. *)
Fixpoint repeated_warnings (profileName argv0 : string) (seen : list (string * HostExecRule)) (group : list HostExecRule) : list string :=
  match group with
  | [] => []
  | rule :: group =>
      let regexKey := default "" (hr_argRegex rule) in
      match map_get seen regexKey with
      | Some prev =>
          text ["[warn] "; of_profile profileName; "hostexec rules "; quoted (hr_id prev); " and "; quoted (hr_id rule);
                " have identical match (argv0="; quoted argv0;
                match hr_argRegex rule with
                | None | Some "" => ""
                | Some argRegex => ", arg-regex=" +:+ quoted argRegex
                end; "); only the first rule will ever match"] ::
          repeated_warnings profileName argv0 seen group
      | None => repeated_warnings profileName argv0 (map_set seen regexKey rule) group
      end
  end.

Fixpoint shadowed_warnings (profileName argv0 : string) (group : list HostExecRule) : list string :=
  match group with
  | [] => []
  | catchAll :: rest =>
      match hr_argRegex catchAll with
      | Some _ => shadowed_warnings profileName argv0 rest
      | None =>
          flat_map (λ rule,
            match hr_argRegex rule with
            | None => []
            | Some argRegex =>
                [text ["[warn] "; of_profile profileName; "hostexec rule "; quoted (hr_id catchAll); " (argv0="; quoted argv0;
                       ", no arg-regex) shadows rule "; quoted (hr_id rule); " (arg-regex="; quoted argRegex;
                       "); consider reordering so the more specific rule comes first"]]
            end) rest
      end
  end.

Definition warnOverlappingHostExecRules (profileName : string) (rules : list HostExecRule) : list string :=
  flat_map (λ argv0,
    let group := List.filter (λ rule, String.eqb (hr_argv0 rule) argv0) rules in
    if (length group <? 2)%nat then []
    else repeated_warnings profileName argv0 [] group ++ shadowed_warnings profileName argv0 group)
    (unique (map hr_argv0 rules)).

(** ** Masking *)

Definition mask_errors (name : string) (mask : MaskConfig) (secrets : list (string * SecretConfig)) : list string :=
  flat_map (λ '(field, value), match value : option bool with
                               | Some _ => []
                               | None => [text [of_profile name; "mask."; field; " must be a boolean"]]
                               end)
    [("maskfs", mk_maskfs mask); ("proxy", mk_proxy mask); ("filter", mk_filter mask)] ++
  concat (imap (λ i secretName,
    if is_member secretName secrets then []
    else [text [of_profile name; "mask.apply"; at_index i; " ("; quoted secretName; ") is not a name in secrets"]])
    (default [] (mk_apply mask))).

(** ** Profiles *)

Definition NIX_EXTRA_PACKAGES_MIGRATION : string :=
  "nix.extraPackages is no longer supported. Define packages in .envrc or a devShell, and run direnv allow on the host.".

Definition CLOUD_CONFIG_MOUNT_MIGRATION : string :=
  text ["gcloud.mountConfig and aws.mountConfig are no longer supported. They bound the whole credential directory read-write, ";
        "so the agent could read every profile it held and rewrite the host's configuration. Inject the credential where it is ";
        "used instead — secrets plus a network scope for API calls, or a hostexec rule for the CLI — or bind the one path you ";
        "need through extraMounts with mode = "; quoted "ro"; "."].

Definition GPG_FORWARD_AGENT_MIGRATION : string :=
  text ["gpg.forwardAgent is no longer supported. Forwarding the agent socket let the agent sign and decrypt with every key the ";
        "host holds, with no prompt per use. Delegate the operation itself with a hostexec rule whose match pins argv0 = ";
        quoted "gpg"; " and the argument shape you want to allow."].

Definition retired_errors (name : string) (retired : RetiredMembers) : list string :=
  (if rt_extraPackages retired then [of_profile name +:+ NIX_EXTRA_PACKAGES_MIGRATION] else []) ++
  (if rt_cloud retired then [of_profile name +:+ CLOUD_CONFIG_MOUNT_MIGRATION] else []) ++
  (if rt_gpg retired then [of_profile name +:+ GPG_FORWARD_AGENT_MIGRATION] else []).

Definition shared_docker_errors (name : string) (docker : DockerConfig) : list string :=
  if do_enable docker && do_shared docker
  then [text [of_profile name; "docker.shared is no longer supported with docker.enable. The agent now joins the sidecar's network ";
          "namespace, and sessions sharing one namespace would see each other's loopback services. Remove docker.shared."]]
  else [].

Definition reservedPorts (profile : ConfigProfile) : list Z :=
  LOCAL_PROXY_PORT :: (if do_enable (cp_docker profile) then [DIND_INTERNAL_PORT] else []).

Definition normalized (name : string) (profile : ConfigProfile) : ForwardConfigResult :=
  normalizePortForwards name (pn_localForwards (cp_network profile)) (pn_remoteForwards (cp_network profile))
    (pn_forwardPorts (cp_network profile)) (reservedPorts profile).

Definition pair_of (spec : ForwardSpec) : PortPair :=
  {| pp_hostPort := fs_hostPort spec; pp_containerPort := fs_containerPort spec |}.

(** The profile with the forwards of its table in the place of those it had. *)
Definition with_forwards (profile : ConfigProfile) (entries : list ForwardSpec) : ConfigProfile := {|
  cp_agent := cp_agent profile; cp_extraAgents := cp_extraAgents profile; cp_mode := cp_mode profile;
  cp_agentArgs := cp_agentArgs profile; cp_agentState := cp_agentState profile; cp_worktree := cp_worktree profile;
  cp_docker := cp_docker profile;
  cp_network := {|
    pn_authz := pn_authz (cp_network profile);
    pn_localForwards := map pair_of (List.filter is_local entries);
    pn_remoteForwards := map pair_of (List.filter (λ e, negb (is_local e)) entries);
    pn_forwardPorts := pn_forwardPorts (cp_network profile);
    pn_requestBodyAudit := pn_requestBodyAudit (cp_network profile) |};
  cp_dbus := cp_dbus profile; cp_displaySize := cp_displaySize profile; cp_env := cp_env profile;
  cp_hostexec := cp_hostexec profile; cp_secrets := cp_secrets profile; cp_guideEnable := cp_guideEnable profile;
  cp_mask := cp_mask profile; cp_retired := cp_retired profile |}.

Record ProfileCheck : Type := { pc_errors : list string; pc_warnings : list string; pc_profile : ConfigProfile }.

Definition validateProfile (name : string) (profile : ConfigProfile) : option ProfileCheck :=
  '(authz, warnings) ← validateAuthz name profile;
  let forwards := normalized name profile in
  Some {|
    pc_errors :=
      validateAgentCredentials name profile ++ validateClaudeJson name profile ++ validateExtraAgents name profile ++
      acp_errors name profile ++ validateSecretRegistry name (cp_secrets profile) ++ authz ++
      shared_docker_errors name (cp_docker profile) ++ fr_errors forwards ++
      validateRequestBodyAudit name (pn_requestBodyAudit (cp_network profile)) ++
      retired_errors name (cp_retired profile) ++ validateDisplaySize name (cp_displaySize profile) ++
      validateDbusRules name (cp_dbus profile) ++ validateEnvEntries name (cp_env profile) ++
      match cp_hostexec profile with Some section => hostexec_errors name section | None => [] end ++
      match cp_mask profile with Some mask => mask_errors name mask (cp_secrets profile) | None => [] end;
    pc_warnings :=
      warnings ++
      match cp_hostexec profile with Some section => warnOverlappingHostExecRules name (hx_rules section) | None => [] end;
    pc_profile := with_forwards profile (fr_entries forwards) |}.

(** The checks of all profiles, in their order. *)
Fixpoint check_profiles (profiles : list (string * ConfigProfile)) : option (list (string * ProfileCheck)) :=
  match profiles with
  | [] => Some []
  | (name, profile) :: profiles =>
      check ← validateProfile name profile;
      checks ← check_profiles profiles;
      Some ((name, check) :: checks)
  end.

(** The default when it is no member of the profiles. *)
Definition missing_default (config : Config) : option string :=
  match cf_default config with
  | None | Some "" => None
  | Some name => if is_member name (cf_profiles config) then None else Some name
  end.

(** [None] for an exception other than ConfigValidationError. *)
Definition validateConfig (config : Config) : option (Result Config) :=
  match cf_profiles config with
  | [] => Some (Err "profiles must contain at least one entry")
  | _ =>
      match missing_default config with
      | Some name => Some (Err (text ["default profile "; quoted name; " not found in profiles"]))
      | None =>
          checks ← check_profiles (cf_profiles config);
          Some match flat_map (λ c, pc_errors c.2) checks with
               | [] => Ok {| cf_default := cf_default config; cf_profiles := map (λ c, (c.1, pc_profile c.2)) checks |}
               | errors => Err (String.concat newline errors)
               end
      end
  end.

(** `resolveProfile` of config/load.ts; [Inherited] is a member of `Object.prototype`
    taken for a profile. *)
Definition resolveProfile (config : Config) (profileName : option string) : Result (string * PropRead ConfigProfile) :=
  let available := String.concat ", " (map_keys (cf_profiles config)) in
  match match profileName with Some name => Some name | None => cf_default config end with
  | None | Some "" =>
      match cf_profiles config with
      | [(name, profile)] => Ok (name, Own profile)
      | _ => Err ("No profile specified and no default set. Available: " +:+ available)
      end
  | Some name =>
      match prop_read (cf_profiles config) name with
      | Missing => Err (text ["Profile "; quoted name; " not found. Available: "; available])
      | found => Ok (name, found)
      end
  end.
End Checks.
