(* ===== verification/ConfigLaws.v ===== *)
(** * What validation accepts

    [normalizePortForwards] accepts the requested forwards exactly when they are in
    range, not reserved, and no two of them want one container port or one listening
    port of the host for different things; its entries are then the requests without
    repetitions.  [valid_profile] states, without the order of the checks and the texts
    of errors, what a profile has to be; for every check of validate.ts a lemma says that
    it has no errors exactly if its part of [valid_profile] holds. *)
From S2P Require Import Prelude JsString Json NodePath AuthzTypes AuthzConfig Semantics BrokerKeys PortForward PortBind PortBindLaws.
From S2P Require Import Agents HostMatch ContainerPlan MountPlan Validate Compile CompileLaws Resolve ResolveLaws Protocol Dind Config.

(** * Port forwards *)

#[export] Instance ForwardSpec_eq_dec : EqDecision ForwardSpec.
Proof. solve_decision. Defined.

Definition spec_of (direction : ForwardDirection) (p : PortPair) : ForwardSpec :=
  {| fs_direction := direction; fs_hostPort := pp_hostPort p; fs_containerPort := pp_containerPort p |}.

(** The forwards a profile asks for, in the order they are added. *)
Definition requested (localForwards remoteForwards : list PortPair) (forwardPorts : list Z) : list ForwardSpec :=
  map (spec_of DirLocal) localForwards ++ map (spec_of DirRemote) remoteForwards ++
  map (λ port, spec_of DirRemote (same_port port)) forwardPorts.

Definition usable (reserved : list Z) (s : ForwardSpec) : Prop :=
  (1 <= fs_hostPort s <= 65535)%Z ∧ (1 <= fs_containerPort s <= 65535)%Z ∧
  (fs_direction s = DirRemote → ¬ In (fs_containerPort s) reserved).

(** Two forwards that cannot both be made: one end would be two different things. *)
Definition clash (s s' : ForwardSpec) : Prop :=
  s ≠ s' ∧ (fs_direction s = fs_direction s' ∧ fs_containerPort s = fs_containerPort s' ∨
            fs_direction s = DirLocal ∧ fs_direction s' = DirLocal ∧ fs_hostPort s = fs_hostPort s').

Record consistent (reserved : list Z) (specs : list ForwardSpec) : Prop := {
  cons_usable : ∀ s, In s specs → usable reserved s;
  cons_clash : ∀ s s', In s specs → In s' specs → ¬ clash s s';
}.

(** ** The table *)

Definition local_specs (l : list ForwardSpec) : list ForwardSpec := List.filter is_local l.

Record forward_table_ok (t : ForwardTable) : Prop := {
  tab_byKey : ft_byKey t = map (λ s, (spec_key s, s)) (ft_entries t);
  tab_listeners : ft_localListeners t = map (λ s, (fs_hostPort s, s)) (local_specs (ft_entries t));
  tab_keys : List.NoDup (map spec_key (ft_entries t));
  tab_hosts : List.NoDup (map fs_hostPort (local_specs (ft_entries t)));
}.

Lemma map_keys_pairs {A K} (f : A → K) l : map_keys (map (λ x, (f x, x)) l) = map f l.
Proof. induction l as [|x l IH]; [done|]. cbn. by f_equal. Qed.

Lemma map_get_pairs {A K} `{EqDecision K} (f : A → K) l k x : map_get (map (λ x, (f x, x)) l) k = Some x → In x l ∧ f x = k.
Proof. intros H%map_get_In. apply in_map_iff in H as (y & E & Hin). injection E as E ->. by split. Qed.

Lemma map_get_pairs_None {A K} `{EqDecision K} (f : A → K) l k : map_get (map (λ x, (f x, x)) l) k = None ↔ ¬ In k (map f l).
Proof. by rewrite map_get_None, map_keys_pairs. Qed.

(** What one request adds. *)
Definition fits (entries : list ForwardSpec) (s : ForwardSpec) : Prop :=
  ¬ In (spec_key s) (map spec_key entries) ∧ (is_local s = true → ¬ In (fs_hostPort s) (map fs_hostPort (local_specs entries))).

Lemma range_error_nil name label field value : range_error name label field value = [] ↔ (1 <= value <= 65535)%Z.
Proof. unfold range_error, port_in_range, MIN_PORT, MAX_PORT. destruct (Z.leb_spec 1 value), (Z.leb_spec value 65535); cbn; split; done || lia. Qed.

Lemma local_iff s : is_local s = true ↔ fs_direction s = DirLocal.
Proof. unfold is_local. by rewrite bool_decide_eq_true. Qed.

Lemma remote_iff s : is_local s = false ↔ fs_direction s = DirRemote.
Proof. unfold is_local. rewrite bool_decide_eq_false. by destruct (fs_direction s). Qed.

Lemma spec_key_local s s' : spec_key s = spec_key s' → is_local s = is_local s'.
Proof. intros [Hd _]%forwardKey_inj. unfold is_local. by rewrite Hd. Qed.

Lemma spec_key_of s s' : fs_direction s = fs_direction s' → fs_containerPort s = fs_containerPort s' → spec_key s = spec_key s'.
Proof. unfold spec_key. congruence. Qed.

Lemma NoDup_snoc {A} (l : list A) x : List.NoDup l → ¬ In x l → List.NoDup (l ++ [x]).
Proof.
  intros Hl Hx. apply NoDup_ListNoDup, NoDup_app. apply NoDup_ListNoDup in Hl. split_and!; [done| |by apply NoDup_singleton].
  intros y Hy Hy'. apply list_elem_of_singleton in Hy' as ->. by apply list_elem_of_In in Hy.
Qed.

(** One call of `add`: the entries grow by what fits, and there are no new errors exactly
    if the request is usable and fits or is an entry already. *)
Lemma add_forward_spec profileName reserved direction p label t : forward_table_ok t →
  let s := spec_of direction p in
  let t' := add_forward profileName reserved direction p label t in
  forward_table_ok t' ∧
  (fits (ft_entries t) s ∧ ft_entries t' = ft_entries t ++ [s] ∨ ¬ fits (ft_entries t) s ∧ ft_entries t' = ft_entries t) ∧
  (ft_errors t' = [] ↔ ft_errors t = [] ∧ usable reserved s ∧ (fits (ft_entries t) s ∨ In s (ft_entries t))).
Proof.
  intros Hok s. cbn zeta. unfold add_forward. fold (spec_of direction p). fold s.
  set (range := range_error profileName label "hostPort" (fs_hostPort s) ++ _).
  set (taken := negb (is_local s) && includes reserved (fs_containerPort s)).
  assert (∃ t1, t1 = (if taken then forward_error (forward_error t range) [text [of_profile profileName; label; ".containerPort ";
      Z_to_string (fs_containerPort s); " is reserved for an internal listener (including the Docker daemon when enabled)"]]
    else forward_error t range) ∧ ft_entries t1 = ft_entries t ∧ ft_byKey t1 = ft_byKey t ∧ ft_localListeners t1 = ft_localListeners t ∧
    (ft_errors t1 = [] ↔ ft_errors t = [] ∧ usable reserved s)) as (t1 & <- & He & Hk & Hl & Herr).
  { eexists. split; [done|]. split_and!; [by destruct taken..|].
    assert (range = [] ↔ (1 <= fs_hostPort s <= 65535)%Z ∧ (1 <= fs_containerPort s <= 65535)%Z) as Hr.
    { unfold range. rewrite app_nil, !range_error_nil. done. }
    assert (taken = false ↔ (is_local s = false → ¬ In (fs_containerPort s) reserved)) as Ht.
    { unfold taken. rewrite andb_false_iff, negb_false_iff, includes_false. destruct (is_local s); naive_solver. }
    unfold usable. rewrite <- remote_iff, <- Ht. destruct taken; cbn [ft_errors forward_error]; rewrite ?app_nil, Hr; naive_solver. }
  destruct Hok as [HbyKey Hlisten Hkeys Hhosts]. rewrite Hk, HbyKey.
  assert (∀ t2, ft_entries t2 = ft_entries t → ft_byKey t2 = ft_byKey t → ft_localListeners t2 = ft_localListeners t → forward_table_ok t2) as Hsame.
  { intros t2 E1 E2 E3. split; rewrite ?E1, ?E2, ?E3; done. }
  destruct (map_get _ (spec_key s)) as [existing|] eqn:Eg.
  - apply map_get_pairs in Eg as [Hin Hkey].
    assert (¬ fits (ft_entries t) s) as Hno by (intros [Hn _]; apply Hn; rewrite <- Hkey; by apply in_map).
    destruct (Z.eqb_spec (fs_hostPort existing) (fs_hostPort s)) as [Eh|Eh].
    + assert (existing = s) as -> by (by apply spec_key_eq). split_and!; [by apply Hsame|right; by rewrite He|]. rewrite Herr. tauto.
    + split_and!; [by apply Hsame|right; by cbn; rewrite He|]. cbn [ft_errors forward_error]. rewrite app_nil. split; [by intros [_ ?]|].
      intros (_ & _ & [?|Hs]); [done|]. destruct Eh. f_equal. by apply (NoDup_map_inj spec_key (ft_entries t)).
  - apply map_get_pairs_None in Eg. destruct (is_local s) eqn:Elocal.
    + rewrite Hl, Hlisten. destruct (map_get _ (fs_hostPort s)) as [listener|] eqn:El.
      * apply map_get_pairs in El as [Hin Hhost]. assert (In listener (ft_entries t)) as Hin' by (by apply filter_In in Hin as [? _]).
        assert (¬ fits (ft_entries t) s) as Hno by (intros [_ Hn]; apply (Hn Elocal); rewrite <- Hhost; by apply in_map).
        assert (¬ In s (ft_entries t)) as Hns by (intros Hs; apply Eg; by apply in_map).
        destruct (Z.eqb_spec (fs_containerPort listener) (fs_containerPort s)) as [Ec|Ec].
        { destruct Eg. apply filter_In in Hin as [_ Hloc]. enough (spec_key listener = spec_key s) as <- by (by apply in_map).
          unfold spec_key. rewrite Ec. f_equal. unfold is_local in Hloc, Elocal. apply bool_decide_eq_true in Hloc, Elocal. congruence. }
        split_and!; [by apply Hsame|right; by cbn; rewrite He|]. cbn [ft_errors forward_error]. rewrite app_nil. split; [by intros [_ ?]|]. tauto.
      * apply map_get_pairs_None in El. assert (fits (ft_entries t) s) as Hfit by done.
        cbn [ft_entries ft_errors]. rewrite He. split_and!; [|by left|rewrite Herr; tauto]. split; cbn [ft_entries ft_byKey ft_localListeners].
        -- rewrite map_set_missing by (by apply map_get_pairs_None). by rewrite map_app.
        -- rewrite map_set_missing by (by apply map_get_pairs_None). unfold local_specs. rewrite List.filter_app, map_app. cbn. by rewrite Elocal.
        -- rewrite map_app. apply NoDup_snoc; done.
        -- unfold local_specs. rewrite List.filter_app, map_app. cbn. rewrite Elocal. apply NoDup_snoc; done.
    + assert (fits (ft_entries t) s) as Hfit by (split; [done|]; by rewrite Elocal).
      cbn [ft_entries ft_errors]. rewrite He. split_and!; [|by left|rewrite Herr; tauto]. split; cbn [ft_entries ft_byKey ft_localListeners].
      * rewrite map_set_missing by (by apply map_get_pairs_None). by rewrite map_app.
      * rewrite Hl, Hlisten. unfold local_specs. rewrite List.filter_app, map_app. cbn. by rewrite Elocal, app_nil_r.
      * rewrite map_app. apply NoDup_snoc; done.
      * unfold local_specs. rewrite List.filter_app, map_app. cbn. by rewrite Elocal, app_nil_r.
Qed.

(** ** All requests *)

Lemma unique_snoc {A} `{EqDecision A} (l : list A) x : unique (l ++ [x]) = if includes l x then unique l else unique l ++ [x].
Proof.
  unfold unique at 1. rewrite fold_left_app. cbn. fold (unique l).
  assert (includes (unique l) x = includes l x) as ->; [|done]. apply eq_true_iff_eq. by rewrite !includes_In, unique_In.
Qed.

(** What holds of the table after the requests [specs]. *)
Record table_of (reserved : list Z) (specs : list ForwardSpec) (t : ForwardTable) : Prop := {
  of_ok : forward_table_ok t;
  of_errors : ft_errors t = [] ↔ consistent reserved specs;
  of_entries : consistent reserved specs → ft_entries t = unique specs;
}.

Lemma unique_host l a b : List.NoDup (map fs_hostPort (local_specs l)) → In a l → In b l → is_local a = true → is_local b = true →
  fs_hostPort a = fs_hostPort b → a = b.
Proof.
  intros Hn Ha Hb La Lb E. apply (NoDup_map_inj fs_hostPort (local_specs l)); [done|by apply filter_In..|done].
Qed.

Lemma consistent_snoc reserved specs s :
  consistent reserved (specs ++ [s]) ↔ consistent reserved specs ∧ usable reserved s ∧ ∀ s', In s' specs → ¬ clash s s'.
Proof.
  split.
  - intros [Hu Hc]. split_and!; [split| |]; intros; try apply Hu; try apply Hc; apply in_or_app; cbn; auto.
  - intros ([Hu Hc] & Hs & Hn). split.
    + intros s' [H|[<-|[]]]%in_app_or; auto.
    + intros a b [Ha|[<-|[]]]%in_app_or [Hb|[<-|[]]]%in_app_or; [by apply Hc| |by apply Hn|by intros [? _]].
      intros [Hne Hor]. apply (Hn a Ha). split; [done|]. naive_solver.
Qed.

(** Without clashes, a request is either an entry or fits. *)
Lemma fits_iff t s : forward_table_ok t →
  (∀ s', In s' (ft_entries t) → ¬ clash s s') ↔ fits (ft_entries t) s ∨ In s (ft_entries t).
Proof.
  intros [_ _ Hkeys Hhosts]. split.
  - intros Hn. destruct (in_dec ForwardSpec_eq_dec s (ft_entries t)) as [|Hs]; [by right|]. left. split.
    + intros (s' & E & Hin)%in_map_iff. apply (Hn s' Hin). split; [by intros ->|left]. by apply forwardKey_inj.
    + intros Hl (s' & E & [Hin Hl']%filter_In)%in_map_iff. apply (Hn s' Hin). split; [by intros ->|right]. apply local_iff in Hl, Hl'. done.
  - intros [[Hk Hh]|Hs] s' Hin [Hne [[Ed Ec]|(Hl%local_iff & Hl'%local_iff & E)]].
    + apply Hk. rewrite (spec_key_of s s') by done. by apply in_map.
    + apply (Hh Hl). rewrite E. apply in_map. by apply filter_In.
    + apply Hne. apply (NoDup_map_inj spec_key (ft_entries t)); [done..|]. by apply spec_key_of.
    + apply Hne. by apply (unique_host (ft_entries t)).
Qed.

Lemma table_of_add profileName reserved direction p label specs t : table_of reserved specs t →
  table_of reserved (specs ++ [spec_of direction p]) (add_forward profileName reserved direction p label t).
Proof.
  intros [Hok Herr Hent]. destruct (add_forward_spec profileName reserved direction p label t Hok) as (Hok' & Hstep & Herr').
  set (s := spec_of direction p) in *. set (t' := add_forward _ _ _ _ _ _) in *.
  assert (consistent reserved specs → ∀ s', In s' (ft_entries t) ↔ In s' specs) as Hmem.
  { intros Hc s'. rewrite Hent by done. apply unique_In. }
  split; [done| |].
  - rewrite Herr', Herr, consistent_snoc, <- fits_iff by done. split; intros (Hc & Hu & Hn); (split_and!; [done..|]);
      intros s' Hin; apply Hn; by apply (Hmem Hc).
  - intros [Hc [_ Hn]]%consistent_snoc. rewrite unique_snoc, <- (Hent Hc).
    assert (fits (ft_entries t) s ∨ In s (ft_entries t)) as Hor.
    { apply fits_iff; [done|]. intros s' Hin. apply Hn. by apply (Hmem Hc). }
    destruct Hstep as [[Hfit ->]|[Hno ->]].
    + destruct (includes specs s) eqn:Hs; [|done]. apply includes_In, (Hmem Hc) in Hs. destruct Hfit as [Hk _]. destruct Hk. by apply in_map.
    + destruct Hor as [|Hs]; [done|]. apply (Hmem Hc), includes_In in Hs. by rewrite Hs.
Qed.

Lemma table_of_adds profileName reserved direction prefix pairs : ∀ i specs t, table_of reserved specs t →
  table_of reserved (specs ++ map (spec_of direction) pairs) (add_forwards profileName reserved direction prefix i pairs t).
Proof.
  induction pairs as [|p pairs IH]; intros i specs t Ht; cbn [map add_forwards]; [by rewrite app_nil_r|].
  rewrite cons_middle, app_assoc. apply IH. by apply table_of_add.
Qed.

Lemma forward_table_of profileName locals remotes ports reserved :
  table_of reserved (requested locals remotes ports) (forward_table profileName locals remotes ports reserved).
Proof.
  unfold requested, forward_table. rewrite <- (map_map same_port (spec_of DirRemote)), app_assoc, <- (app_nil_l (map _ locals)).
  repeat apply table_of_adds. split; [split; cbn; constructor|split; [split|]|]; done.
Qed.

Lemma normalize_spec profileName locals remotes ports reserved :
  let result := normalizePortForwards profileName locals remotes ports reserved in
  (fr_errors result = [] ↔ consistent reserved (requested locals remotes ports)) ∧
  (consistent reserved (requested locals remotes ports) → fr_entries result = unique (requested locals remotes ports)).
Proof. destruct (forward_table_of profileName locals remotes ports reserved) as [_ H1 H2]. done. Qed.

(** * Profiles *)

(** ** The specification *)

Definition provisioned (p : ConfigProfile) : list AgentType := cp_agent p :: cp_extraAgents p.

Definition valid_source (prefixes : list string) (s : string) : Prop := ∃ prefix rest, In prefix prefixes ∧ s = prefix +:+ rest.

Definition dimension (s : string) : Prop := digits s = true ∧ (1 <= digits_value 0 s <= 16384)%Z.

(** Resolving an authorization configuration gives a document: the one decisions are
    made by. *)
Definition resolves (outcome : option ResolveOutcome) : Prop := ∃ o document, outcome = Some o ∧ ro_document o = Some document.

(** The name of an environment variable: letters, digits and underscores, without a
    digit in front. *)
Definition env_key (s : string) : Prop :=
  ∃ a rest, s = String a rest ∧ is_digit a = false ∧
    ∀ b, has_char b s = true → is_alpha b = true ∨ is_digit b = true ∨ b = "_"%char.

(** A name of the bus, perhaps with a star at its end. *)
Definition bus_name (s : string) : Prop :=
  ∃ a rest tail, s = String a rest +:+ tail ∧ (tail = "" ∨ tail = "*") ∧ (is_alpha a = true ∨ In a ["_"; "-"]%char) ∧
    ∀ b, has_char b rest = true → is_alpha b = true ∨ is_digit b = true ∨ In b ["_"; "-"; "."]%char.

(** The proxy puts the credentials of the agent into its requests. *)
Definition proxied (p : ConfigProfile) (agent : AgentType) : Prop :=
  In agent (provisioned p) ∧
  match as_auth (cp_agentState p), agent with
  | Some (AuthForAll mode), _ => mode ≠ Passthrough
  | Some (AuthByAgent claude _ _), AgentClaude => claude ≠ Some Passthrough
  | Some (AuthByAgent _ _ codex), AgentCodex => codex ≠ Some Passthrough
  | _, _ => agent ≠ AgentCopilot
  end.

(** A header that a scope or one of its rules injects. *)
Definition injected_by (scopes : list (string * ScopeConfig)) (inject : Inject) : Prop :=
  ∃ name scope, In (name, scope) scopes ∧
    (In inject (default [] (so_inject scope)) ∨
     ∃ key rule, In (key, rule) (default [] (so_rules scope)) ∧ In inject (default [] (rc_inject rule))).

Definition injectable_header (inject : Inject) : Prop :=
  let name := trim (inj_name inject) in
  name ≠ "" ∧ ¬ In (toLowerCase name) ["host"; "content-length"; "transfer-encoding"; "connection"; "proxy-authorization";
                                        "proxy-connection"; "keep-alive"; "te"; "trailer"; "upgrade"].

Record valid_rule `{ConfigRuntime} (secrets : list string) (rule : HostExecRule) : Prop := {
  vr_env : ∀ key value, In (key, value) (hr_env rule) →
    env_key key ∧ ∃ name, value = "secret:" +:+ name ∧ In name secrets;
  vr_cwd : hr_cwdAllow rule ≠ [] → hr_cwdMode rule = CwdAllowlist;
  vr_regex : ∀ pattern, hr_argRegex rule = Some pattern → regex_error pattern = None;
}.

Record valid_mask (secrets : list (string * SecretConfig)) (mask : MaskConfig) : Prop := {
  vm_flags : mk_maskfs mask ≠ None ∧ mk_proxy mask ≠ None ∧ mk_filter mask ≠ None;
  vm_apply : ∀ name, In name (default [] (mk_apply mask)) → In name (map_keys secrets) ∨ In name object_prototype_names;
}.

Record valid_audit (config : RequestBodyAuditConfig) : Prop := {
  va_retention : ∃ z, ra_retentionSeconds config = Some z ∧ (0 < z <= 9007199254740991)%Z;
  va_sizes : ∃ body total, ra_maxBodyBytes config = Some body ∧ ra_maxTotalBytes config = Some total ∧
    (0 < body <= 33554432)%Z ∧ (body <= total <= 9007199254740991)%Z;
}.

Definition requested_of (p : ConfigProfile) : list ForwardSpec :=
  requested (pn_localForwards (cp_network p)) (pn_remoteForwards (cp_network p)) (pn_forwardPorts (cp_network p)).

Definition dbus_names (session : DbusSessionConfig) : list string :=
  ds_see session ++ ds_talk session ++ ds_own session ++ map db_name (ds_calls session) ++ map db_name (ds_broadcasts session).

Record valid_profile `{ConfigRuntime} (p : ConfigProfile) : Prop := {
  vp_auth_all : as_auth (cp_agentState p) = Some (AuthForAll Injected) → ∃ agent, In agent (provisioned p) ∧ agent ≠ AgentCopilot;
  vp_auth_each : ∀ claude codex, as_auth (cp_agentState p) ≠ Some (AuthByAgent claude (Some Injected) codex);
  vp_api_keys : ∀ entry key, In entry (cp_env p) → ev_key entry = Some key →
    (proxied p AgentClaude → ¬ In key ["ANTHROPIC_API_KEY"; "ANTHROPIC_AUTH_TOKEN"]) ∧
    (proxied p AgentCodex → ¬ In key ["OPENAI_API_KEY"; "CODEX_API_KEY"]);
  vp_claudeJson : as_protectSettings (cp_agentState p) = false → default [] (as_claudeJson (cp_agentState p)) = [];
  vp_agents : List.NoDup (provisioned p);
  vp_acp : cp_mode p = ModeAcp →
    cp_agent p = AgentClaude ∧ cp_agentArgs p = [] ∧ cp_guideEnable p = false ∧ cp_worktree p = false;
  vp_secrets : ∀ name secret, In (name, secret) (cp_secrets p) →
    valid_source ["env:"; "file:"; "dotenv:"; "keyring:"; "lines:"; "cmd:"] (sc_from secret);
  vp_authz : resolves (resolveAuthzConfig (authz_config p));
  vp_dind : resolves (resolveDindAuthzConfig (dind_profile p));
  vp_inject : ∀ inject, injected_by (nc_scopes (pn_authz (cp_network p))) inject ∨
    injected_by (default [] (do_networkScopes (cp_docker p))) inject → injectable_header inject;
  vp_docker : do_enable (cp_docker p) = true → do_shared (cp_docker p) = false;
  vp_forwards : consistent (if do_enable (cp_docker p) then [18080; 2375] else [18080])%Z (requested_of p);
  vp_audit : valid_audit (pn_requestBodyAudit (cp_network p));
  vp_retired : cp_retired p = {| rt_extraPackages := false; rt_cloud := false; rt_gpg := false |};
  vp_display : ∃ w h, cp_displaySize p = w +:+ "x" +:+ h ∧ dimension w ∧ dimension h;
  vp_dbus_names : ∀ name, In name (dbus_names (cp_dbus p)) → bus_name name;
  vp_dbus_rules : ∀ rule, In rule (ds_calls (cp_dbus p) ++ ds_broadcasts (cp_dbus p)) → has_char "=" (db_rule rule) = false;
  vp_env : ∀ entry, In entry (cp_env p) → (ev_mode entry = EnvSet ↔ ev_separator entry = None);
  vp_hostexec : ∀ section rule, cp_hostexec p = Some section → In rule (hx_rules section) →
    valid_rule (map_keys (hx_secrets section)) rule;
  vp_mask : ∀ mask, cp_mask p = Some mask → valid_mask (cp_secrets p) mask;
}.

(** ** Lists of errors *)

Lemma no_error_if {A} (b : bool) (x : A) : (if b then [x] else []) = [] ↔ b = false.
Proof. by destruct b. Qed.

Lemma no_error_unless {A} (b : bool) (x : A) : (if b then [] else [x]) = [] ↔ b = true.
Proof. by destruct b. Qed.

Lemma no_error_each {A B} (f : A → list B) (P : A → Prop) l : (∀ x, f x = [] ↔ P x) → flat_map f l = [] ↔ ∀ x, In x l → P x.
Proof.
  intros Hf. induction l as [|x l IH]; cbn; [by split|]. rewrite app_nil, IH, Hf. naive_solver.
Qed.

Lemma no_error_indexed {A B} (f : nat → A → list B) (P : A → Prop) l : (∀ i x, f i x = [] ↔ P x) →
  concat (imap f l) = [] ↔ ∀ x, In x l → P x.
Proof.
  revert f. induction l as [|x l IH]; intros f Hf; cbn; [by split|]. rewrite app_nil, (IH (f ∘ S)), Hf by (intros; apply Hf). naive_solver.
Qed.

Create Rewrite HintDb no_errors.
#[export] Hint Rewrite @app_nil @no_error_if @no_error_unless : no_errors.
Ltac no_errors := autorewrite with no_errors jsdb.

(** ** Agents *)

Lemma supports_iff agent : supportsProxiedCredentials agent = true ↔ agent ≠ AgentCopilot.
Proof. by destruct agent. Qed.

Lemma apiKeyEnvErrors_nil name p keys agent label : apiKeyEnvErrors name p keys agent label = [] ↔
  ∀ entry, In entry (cp_env p) → ∀ key, ev_key entry = Some key → ¬ In key keys.
Proof.
  apply no_error_each. intros entry. destruct (ev_key entry) as [key|]; [|by split].
  rewrite no_error_if, includes_false. naive_solver.
Qed.

Lemma api_keys_nil name p agent keys label : (if uses_proxied p agent then apiKeyEnvErrors name p keys agent label else []) = [] ↔
  ∀ entry key, In entry (cp_env p) → ev_key entry = Some key → uses_proxied p agent = true → ¬ In key keys.
Proof. destruct (uses_proxied p agent); [rewrite apiKeyEnvErrors_nil; naive_solver|]. split; [by intros _|done]. Qed.

Lemma uses_proxied_iff p agent : agent ≠ AgentCopilot → uses_proxied p agent = true ↔ proxied p agent.
Proof.
  intros Ha. unfold uses_proxied, usesProxiedCredentials, usesAgent, proxied, provisioned.
  rewrite andb_true_iff, orb_true_iff, !bool_decide_eq_true, includes_In. cbn [In]. f_equiv.
  unfold resolveAgentCredentials. rewrite (proj2 (supports_iff agent) Ha), andb_false_r. cbn [negb].
  destruct (as_auth (cp_agentState p)) as [[[]|[[]|] copilot [[]|]]|], agent; cbn; naive_solver.
Qed.

Lemma validateAgentCredentials_nil name p : validateAgentCredentials name p = [] ↔
  (as_auth (cp_agentState p) = Some (AuthForAll Injected) → ∃ agent, In agent (provisioned p) ∧ agent ≠ AgentCopilot) ∧
  (∀ claude codex, as_auth (cp_agentState p) ≠ Some (AuthByAgent claude (Some Injected) codex)) ∧
  (∀ entry key, In entry (cp_env p) → ev_key entry = Some key →
    (proxied p AgentClaude → ¬ In key ["ANTHROPIC_API_KEY"; "ANTHROPIC_AUTH_TOKEN"]) ∧
    (proxied p AgentCodex → ¬ In key ["OPENAI_API_KEY"; "CODEX_API_KEY"])).
Proof.
  setoid_rewrite <- (uses_proxied_iff p AgentClaude ltac:(done)). setoid_rewrite <- (uses_proxied_iff p AgentCodex ltac:(done)).
  unfold validateAgentCredentials. rewrite !app_nil, !api_keys_nil, no_error_if. unfold CLAUDE_API_KEY_ENV_KEYS, CODEX_API_KEY_ENV_KEYS. fold (provisioned p).
  assert ((match as_auth (cp_agentState p) with Some (AuthForAll Injected) => true | _ => false end &&
      negb (existsb supportsProxiedCredentials (provisioned p)) = false) ↔
    (as_auth (cp_agentState p) = Some (AuthForAll Injected) → ∃ agent, In agent (provisioned p) ∧ agent ≠ AgentCopilot)) as ->.
  { rewrite andb_false_iff, negb_false_iff, existsb_exists. setoid_rewrite supports_iff.
    destruct (as_auth (cp_agentState p)) as [[[]|]|]; naive_solver. }
  assert (∀ f : _ → list string, (∀ agent mode, f (agent, mode) = [] ↔ ¬ (mode = Injected ∧ agent = AgentCopilot)) →
    flat_map f (auth_by_agent (as_auth (cp_agentState p))) = [] ↔
    ∀ claude codex, as_auth (cp_agentState p) ≠ Some (AuthByAgent claude (Some Injected) codex)) as H.
  { intros f Hf. rewrite (no_error_each f (λ e, ¬ (e.2 = Injected ∧ e.1 = AgentCopilot))) by (intros []; apply Hf).
    destruct (as_auth (cp_agentState p)) as [[mode|[[]|] [[]|] [[]|]]|]; cbn; naive_solver. }
  rewrite H; [naive_solver|]. intros agent mode. rewrite no_error_if. destruct agent, mode; cbn; naive_solver.
Qed.

Lemma validateClaudeJson_nil name p : validateClaudeJson name p = [] ↔
  (as_protectSettings (cp_agentState p) = false → default [] (as_claudeJson (cp_agentState p)) = []).
Proof. unfold validateClaudeJson. destruct (as_protectSettings _); [done|]. destruct (as_claudeJson _) as [[|]|]; naive_solver. Qed.

Lemma extra_agents_nil name agent extras : ∀ seen, (∀ x, In x seen → x ≠ agent) →
  extra_agents_errors name agent seen extras = [] ↔ List.NoDup extras ∧ ∀ x, In x extras → x ≠ agent ∧ ¬ In x seen.
Proof.
  induction extras as [|x extras IH]; intros seen Hs; cbn [extra_agents_errors]; [split; [split; [constructor|done]|done]|].
  rewrite app_nil, List.NoDup_cons_iff. case_bool_decide as E; [naive_solver|]. destruct (includes seen x) eqn:Ei; reflect_js; [naive_solver|].
  rewrite IH.
  - setoid_rewrite in_app_iff. cbn. naive_solver.
  - intros y [?|[<-|[]]]%in_app_or; auto.
Qed.

Lemma validateExtraAgents_nil name p : validateExtraAgents name p = [] ↔ List.NoDup (provisioned p).
Proof.
  unfold validateExtraAgents, provisioned. rewrite extra_agents_nil, List.NoDup_cons_iff by done. split.
  - intros [Hn Ha]. split; [intros Hin; by destruct (Ha _ Hin)|done].
  - intros [Ha Hn]. split; [done|]. intros x Hx. split; [by intros ->|by intros []].
Qed.

Lemma acp_errors_nil name p : acp_errors name p = [] ↔
  (cp_mode p = ModeAcp → cp_agent p = AgentClaude ∧ cp_agentArgs p = [] ∧ cp_guideEnable p = false ∧ cp_worktree p = false).
Proof.
  unfold acp_errors. case_bool_decide; cbn [negb]; [|naive_solver]. no_errors. rewrite bool_decide_eq_true, Nat.ltb_ge, Nat.le_0_r, length_zero_iff_nil.
  naive_solver.
Qed.

(** ** Secrets and the network *)

Lemma strip_end_first f a s : f a = false → strip_end f (String a s) ≠ "".
Proof. intros Ha. cbn. rewrite Ha. by destruct (strip_end f s). Qed.

Lemma has_prefix_iff prefixes s : existsb (startsWith s) prefixes = true ↔ valid_source prefixes s.
Proof.
  rewrite existsb_exists. unfold valid_source. setoid_rewrite startsWith_iff. naive_solver.
Qed.

Lemma source_not_blank s : valid_source SECRET_SOURCE_PREFIXES s → trim s ≠ "".
Proof. intros (prefix & rest & Hin & ->). repeat (destruct Hin as [<-|Hin]; [by apply strip_end_first|]). done. Qed.

Lemma validateSecretRegistry_nil name secrets : validateSecretRegistry name secrets = [] ↔
  ∀ n secret, In (n, secret) secrets → valid_source SECRET_SOURCE_PREFIXES (sc_from secret).
Proof.
  unfold validateSecretRegistry.
  rewrite (no_error_each _ (λ e, valid_source SECRET_SOURCE_PREFIXES (sc_from e.2))).
  - split; [intros H n s; apply (H (n, s))|intros H [n s]; apply H].
  - intros [n secret]. unfold secret_error. cbn [fst snd]. destruct (String.eqb_spec (trim (sc_from secret)) "") as [E|_].
    + split; [done|]. by intros ?%source_not_blank.
    + by rewrite no_error_unless, has_prefix_iff.
Qed.

Lemma header_error_nil prefix scope inject : header_error prefix scope inject = [] ↔ injectable_header inject.
Proof.
  unfold header_error, injectable_header. fold FORBIDDEN_INJECT_HEADERS. destruct (String.eqb_spec (trim (inj_name inject)) "") as [E|E]; [naive_solver|].
  rewrite no_error_if, includes_false. naive_solver.
Qed.

(** *** Authorization *)

Definition without_errors (diagnostics : option (list Diagnostic)) : Prop :=
  ∃ ds, diagnostics = Some ds ∧ has_error ds = false.

Lemma validated_resolves config : without_errors (validateAuthzConfig config) ↔ resolves (resolveAuthzConfig config).
Proof.
  unfold resolves. rewrite resolved_iff. unfold without_errors, validateAuthzConfig, no_error.
  destruct (compileAuthzConfig config) as [compiled|]; cbn; naive_solver.
Qed.

Lemma resolved_without_errors config : without_errors (ro_diagnostics <$> resolveAuthzConfig config) ↔ resolves (resolveAuthzConfig config).
Proof.
  unfold resolves. rewrite resolved_iff. split.
  - intros (ds & E & Hds). destruct (resolveAuthzConfig config) as [o|] eqn:Er; [|done]. apply (inj Some) in E as <-.
    unfold resolveAuthzConfig in Er. destruct (compileAuthzConfig config) as [compiled|]; [|done]. exists compiled. split; [done|].
    cbn [mbind option_bind] in Er. unfold no_error. destruct (has_error (co_diagnostics compiled)) eqn:He; [|done].
    apply (inj Some) in Er as <-. cbn [ro_diagnostics] in Hds. congruence.
  - intros (compiled & Hc & He). destruct (accepted_config_resolves _ _ Hc He) as [document ->]. by eexists.
Qed.

Lemma has_error_reworded ds : has_error (map reworded ds) = has_error ds.
Proof. unfold has_error. induction ds as [|d ds IH]; [done|]. cbn [map existsb]. by rewrite IH. Qed.

Lemma refused_nil {A} (f : A → list Diagnostic) l : (∀ x, In x l → has_error (f x) = false → f x = []) → has_error (flat_map f l) = false → flat_map f l = [].
Proof.
  intros Hf. induction l as [|x l IH]; [done|]. cbn [flat_map]. rewrite has_error_app, orb_false_iff. intros [Hx Hl].
  rewrite (Hf x), IH; auto using in_eq, in_cons.
Qed.

Lemma rejectReview_error b field : has_error (rejectReview b field) = false → rejectReview b field = [].
Proof. by destruct b. Qed.

Lemma reject_scopes_nil scopes : has_error (flat_map reject_scope scopes) = false → flat_map reject_scope scopes = [].
Proof.
  apply refused_nil. intros entry _. unfold reject_scope. rewrite has_error_app, orb_false_iff. intros [->%rejectReview_error Hr].
  cbn [app]. revert Hr. apply refused_nil. intros rule _. unfold reject_rule. rewrite !has_error_app, !orb_false_iff.
  intros (->%rejectReview_error & ->%rejectReview_error & Hx). cbn [app]. revert Hx.
  rewrite <- (map_id (imap _ _)), <- flat_map_concat_map. apply refused_nil.
  intros ds (i & x & -> & _)%list_elem_of_In%elem_of_lookup_imap. apply rejectReview_error.
Qed.

Lemma dind_without_errors profile : without_errors (ro_diagnostics <$> resolveDindAuthzConfig profile) ↔ resolves (resolveDindAuthzConfig profile).
Proof.
  pose proof (resolved_without_errors (dind_config profile)) as Hw. unfold resolveDindAuthzConfig, resolves, without_errors in *.
  destruct (resolveAuthzConfig (dind_config profile)) as [o|]; cbn in *; [|naive_solver].
  pose proof (reject_scopes_nil (default [] (dp_networkScopes profile))) as Hn.
  destruct (flat_map reject_scope _) as [|d ds]; cbn [length Nat.ltb Nat.leb app].
  - split.
    + intros (? & E & He). apply (inj Some) in E as <-. rewrite has_error_reworded in He.
      destruct (proj1 Hw (ex_intro _ _ (conj eq_refl He))) as (o' & document & E & Hd). apply (inj Some) in E as <-. by eexists _, document.
    + intros (? & document & E & Hd). apply (inj Some) in E as <-. cbn in Hd. eexists. split; [done|]. rewrite has_error_reworded.
      destruct (proj2 Hw (ex_intro _ o (ex_intro _ document (conj eq_refl Hd)))) as (? & E & He). by apply (inj Some) in E as <-.
  - split; [|by intros (? & ? & E & Hd); apply (inj Some) in E as <-].
    intros (? & E & He). apply (inj Some) in E as <-. cbn [app] in He. change (d :: ds ++ ?l) with ((d :: ds) ++ l) in He.
    rewrite has_error_app, orb_false_iff in He. destruct He as [He _]. by apply Hn in He.
Qed.

Lemma injected_by_iff scopes inject : injected_by scopes inject ↔ ∃ entry, In entry scopes ∧ In inject (scope_injects entry.2).
Proof.
  unfold injected_by, scope_injects. setoid_rewrite in_app_iff. setoid_rewrite in_flat_map. split.
  - intros (name & scope & Hs & [Hi|(key & rule & Hr & Hi)]); exists (name, scope); split; [done|by left|done|right; by exists (key, rule)].
  - intros ([name scope] & Hs & [Hi|([key rule] & Hr & Hi)]); exists name, scope; split; [done|by left|done|right; by exists key, rule].
Qed.

Lemma validateAuthz_nil name p : (∃ warnings, validateAuthz name p = Some ([], warnings)) ↔
  resolves (resolveAuthzConfig (authz_config p)) ∧ resolves (resolveDindAuthzConfig (dind_profile p)) ∧
  (∀ inject, injected_by (nc_scopes (pn_authz (cp_network p))) inject ∨
    injected_by (default [] (do_networkScopes (cp_docker p))) inject → injectable_header inject).
Proof.
  rewrite <- validated_resolves, <- dind_without_errors.
  unfold validateAuthz. set (prefix := of_profile name). set (injects := flat_map _ (all_scopes p)).
  assert (injects = [] ↔ (∀ inject, injected_by (nc_scopes (pn_authz (cp_network p))) inject ∨
    injected_by (default [] (do_networkScopes (cp_docker p))) inject → injectable_header inject)) as <-.
  { unfold injects, all_scopes. rewrite no_error_each by (intros; by apply no_error_each, header_error_nil).
    setoid_rewrite injected_by_iff. setoid_rewrite in_app_iff. naive_solver. }
  generalize (validateAuthzConfig (authz_config p)) (resolveDindAuthzConfig (dind_profile p)). intros authz dind.
  destruct authz as [ds|]; cbn; [|split; [by intros []|by intros [(? & ? & _) _]]].
  destruct dind as [dind|]; cbn; [|split; [by intros []|by intros (_ & (? & ? & _) & _)]].
  set (errors := flat_map _ _).
  assert (errors = [] ↔ without_errors (Some ds) ∧ without_errors (Some (ro_diagnostics dind))) as He.
  { unfold errors. rewrite (no_error_each _ (λ d, is_error d = false)) by (intros; apply no_error_if).
    unfold without_errors, has_error. setoid_rewrite existsb_false. setoid_rewrite in_app_iff. naive_solver. }
  split.
  - intros [w H]. injection H as H _. apply app_nil in H. tauto.
  - intros (H1 & H2 & H3). eexists. do 2 f_equal. apply app_nil. tauto.
Qed.

Lemma shared_docker_errors_nil name docker : shared_docker_errors name docker = [] ↔ (do_enable docker = true → do_shared docker = false).
Proof. unfold shared_docker_errors. rewrite no_error_if, andb_false_iff. destruct (do_enable docker); naive_solver. Qed.

Lemma isSafeInteger_Some x z : isSafeInteger x = Some z ↔ x = Some z ∧ (Z.abs z <= 9007199254740991)%Z.
Proof. change 9007199254740991%Z with MAX_SAFE_INTEGER. destruct x as [y|]; cbn; [|naive_solver]. destruct (Z.leb_spec (Z.abs y) MAX_SAFE_INTEGER); naive_solver lia. Qed.

Lemma positive_iff x : positive x = true ↔ ∃ z, x = Some z ∧ (0 < z <= 9007199254740991)%Z.
Proof.
  unfold positive. destruct (isSafeInteger x) as [z|] eqn:E.
  - apply isSafeInteger_Some in E as [-> Hz]. rewrite Z.ltb_lt. split; [|naive_solver]. intros. exists z. split; [done|lia].
  - split; [done|]. intros (z & -> & Hz). assert (isSafeInteger (Some z) = Some z) as H by (apply isSafeInteger_Some; split; [done|lia]). congruence.
Qed.

Lemma validateRequestBodyAudit_nil name config : validateRequestBodyAudit name config = [] ↔ valid_audit config.
Proof.
  unfold validateRequestBodyAudit. rewrite app_nil. cbn [flat_map]. rewrite app_nil_r, !app_nil, !no_error_unless, !positive_iff. split.
  - intros ((Hr & (b & Eb & Hb) & (t & Et & Ht)) & H).
    rewrite Eb, Et in H. rewrite (proj2 (isSafeInteger_Some (Some b) b)), (proj2 (isSafeInteger_Some (Some t) t)) in H by (split; [done|lia]).
    rewrite app_nil, !no_error_if in H. split; [done|]. exists b, t. split_and!; try done; lia.
  - intros [Hr (b & t & Eb & Et & Hb & Ht)]. split.
    + split_and!; [done|exists b|exists t]; (split; [done|lia]).
    + rewrite Eb, Et, (proj2 (isSafeInteger_Some (Some b) b)), (proj2 (isSafeInteger_Some (Some t) t)) by (split; [done|lia]).
      rewrite app_nil, !no_error_if. lia.
Qed.

(** ** Environment, display, D-Bus *)

Lemma validateEnvEntries_nil name entries : validateEnvEntries name entries = [] ↔
  ∀ entry, In entry entries → (ev_mode entry = EnvSet ↔ ev_separator entry = None).
Proof.
  apply no_error_indexed. intros i entry. unfold env_error. destruct (ev_mode entry), (ev_separator entry); naive_solver.
Qed.

Lemma retired_errors_nil name retired :
  retired_errors name retired = [] ↔ retired = {| rt_extraPackages := false; rt_cloud := false; rt_gpg := false |}.
Proof. unfold retired_errors. no_errors. destruct retired; cbn. naive_solver. Qed.

Section Checks.
Context `{ConfigRuntime}.

Lemma dimension_error_nil name field s : dimension_error name field s = [] ↔ (1 <= digits_value 0 s <= DISPLAY_MAX_DIMENSION)%Z.
Proof. unfold dimension_error. rewrite no_error_if, orb_false_iff. lia. Qed.

Lemma split_x w h : has_char "x" w = false → has_char "x" h = false → split_on "x" (w +:+ "x" +:+ h) = [w; h].
Proof. intros Hw Hh. change ("x" +:+ h) with (String "x" h). by rewrite split_on_app, split_on_char_free. Qed.

Lemma digits_no_x s : digits s = true → has_char "x" s = false.
Proof. intros [_ Hs]%andb_true_iff. by apply (string_all_free is_digit). Qed.

Lemma validateDisplaySize_nil name size :
  validateDisplaySize name size = [] ↔ ∃ w h, size = w +:+ "x" +:+ h ∧ dimension w ∧ dimension h.
Proof.
  unfold validateDisplaySize, dimension. split.
  - pose proof (join_split "x" size) as Hj. destruct (split_on "x" size) as [|w [|h [|? ?]]]; [done..| |done].
    destruct (digits w) eqn:Ew; [|done]. destruct (digits h) eqn:Eh; [|done]. cbn [andb].
    rewrite app_nil, !dimension_error_nil. intros [Hw Hh]. by exists w, h.
  - intros (w & h & -> & [Dw Hw] & [Dh Hh]). rewrite split_x by (by apply digits_no_x). rewrite Dw, Dh. cbn [andb].
    by rewrite app_nil, !dimension_error_nil.
Qed.

Lemma dbus_rest_no_equals s : dbus_rest s = true → has_char "=" s = false.
Proof.
  induction s as [|a s IH]; [done|]. cbn. destruct (is_name_char a) eqn:Ea.
  - intros Hs. rewrite (IH Hs), orb_false_r. destruct (Ascii.eqb_spec a "="); [by subst|done].
  - intros [->%Ascii.eqb_eq ->%String.eqb_eq]%andb_true_iff. done.
Qed.

Lemma name_no_equals s : DBUS_NAME_RE s = true → has_char "=" s = false.
Proof.
  destruct s as [|a s]; [done|]. cbn. intros [Ha Hs]%andb_true_iff. rewrite (dbus_rest_no_equals s Hs), orb_false_r.
  destruct (Ascii.eqb_spec a "="); [by subst|done].
Qed.

Lemma string_all_iff f s : string_all f s = true ↔ ∀ b, has_char b s = true → f b = true.
Proof.
  induction s as [|a s IH]; cbn; [done|]. rewrite andb_true_iff, IH. setoid_rewrite orb_true_iff. setoid_rewrite Ascii.eqb_eq. naive_solver.
Qed.

Lemma dbus_rest_iff s : dbus_rest s = true ↔ ∃ rest tail, s = rest +:+ tail ∧ (tail = "" ∨ tail = "*") ∧ string_all is_name_char rest = true.
Proof.
  induction s as [|a s IH]; cbn.
  - split; [|done]. intros _. by exists "", ""; auto.
  - destruct (is_name_char a) eqn:Ea.
    + rewrite IH. split.
      * intros (rest & tail & -> & Ht & Hr). exists (String a rest), tail. cbn. by rewrite Ea.
      * intros ([|b rest] & tail & E & Ht & Hr); cbn in E.
        { destruct Ht as [->| ->]; [done|]. injection E as -> _. done. }
        injection E as <- ->. cbn in Hr. rewrite Ea in Hr. by exists rest, tail.
    + rewrite andb_true_iff, Ascii.eqb_eq, String.eqb_eq. split.
      * intros [-> ->]. exists "", "*". auto.
      * intros ([|b rest] & tail & E & Ht & Hr); cbn in E.
        { destruct Ht as [->| ->]; [done|]. by injection E. }
        injection E as <- ->. cbn in Hr. by rewrite Ea in Hr.
Qed.

Lemma is_name_char_iff a : is_name_char a = true ↔ is_alpha a = true ∨ is_digit a = true ∨ In a ["_"; "-"; "."]%char.
Proof. unfold is_name_char. rewrite !orb_true_iff, !Ascii.eqb_eq. cbn. naive_solver. Qed.

Lemma bus_name_iff s : DBUS_NAME_RE s = true ↔ bus_name s.
Proof.
  unfold bus_name. destruct s as [|a s]; cbn [DBUS_NAME_RE].
  { split; [done|]. by intros (a & rest & tail & E & _). }
  rewrite andb_true_iff, dbus_rest_iff. setoid_rewrite string_all_iff. setoid_rewrite is_name_char_iff.
  unfold is_name_start. rewrite !orb_true_iff, !Ascii.eqb_eq. split.
  - intros (Ha & rest & tail & -> & Ht & Hr). exists a, rest, tail. cbn. naive_solver.
  - intros (b & rest & tail & E & Ht & Hb & Hr). cbn in E. injection E as -> ->. cbn in Hb. split; [naive_solver|by exists rest, tail].
Qed.

Lemma alpha_not_digit a : is_digit a = true → is_alpha a = false.
Proof.
  unfold is_digit, is_alpha, is_upper, is_lower, in_range. rewrite !andb_true_iff, !Nat.leb_le. intros [H1 H2].
  apply orb_false_iff. split; apply andb_false_iff; rewrite !Nat.leb_gt; lia.
Qed.

Lemma env_key_iff s : ENV_KEY_RE s = true ↔ env_key s.
Proof.
  unfold env_key. destruct s as [|a s]; cbn [ENV_KEY_RE].
  { split; [done|]. by intros (a & rest & E & _). }
  assert (∀ b, is_alpha b || is_digit b || Ascii.eqb b "_" = true ↔ is_alpha b = true ∨ is_digit b = true ∨ b = "_"%char) as Hk
    by (intros b; rewrite !orb_true_iff, Ascii.eqb_eq; naive_solver).
  rewrite andb_true_iff, string_all_iff. cbv beta. setoid_rewrite Hk.
  unfold is_key_start. rewrite orb_true_iff, Ascii.eqb_eq. split.
  - intros [Ha Hs]. exists a, s. split_and!; [done| |].
    + destruct (is_digit a) eqn:E; [|done]. destruct Ha as [Ha| ->]; [|done]. by rewrite (alpha_not_digit a E) in Ha.
    + intros b. cbn. rewrite orb_true_iff, Ascii.eqb_eq. naive_solver.
  - intros (b & rest & E & Hd & Hall). injection E as <- <-. split.
    + destruct (Hall a) as [?|[?|?]]; [cbn; by rewrite Ascii.eqb_refl|naive_solver|congruence|naive_solver].
    + intros b Hb. destruct (Hall b) as [?|[?|?]]; [cbn; by rewrite Hb, orb_true_r|naive_solver..].
Qed.

Lemma no_equals_nil where_ s : no_equals where_ s = [] ↔ has_char "=" s = false.
Proof. unfold no_equals. by rewrite str_includes_char, no_error_if. Qed.

Lemma dbus_name_errors_nil where_ name : dbus_name_errors where_ name = [] ↔ bus_name name.
Proof. rewrite <- bus_name_iff. unfold dbus_name_errors. rewrite app_nil, no_equals_nil, no_error_unless. split; [tauto|]. intros Hn. split; [by apply name_no_equals|done]. Qed.

Lemma names_errors_nil name field names : names_errors name field names = [] ↔ ∀ n, In n names → bus_name n.
Proof. apply no_error_indexed. intros i n. apply dbus_name_errors_nil. Qed.

Lemma rules_errors_nil name field rules : rules_errors name field rules = [] ↔
  (∀ n, In n (map db_name rules) → bus_name n) ∧ (∀ rule, In rule rules → has_char "=" (db_rule rule) = false).
Proof.
  unfold rules_errors. rewrite (no_error_indexed _ (λ r, bus_name (db_name r) ∧ has_char "=" (db_rule r) = false))
    by (intros; by rewrite app_nil, dbus_name_errors_nil, no_equals_nil).
  setoid_rewrite in_map_iff. naive_solver.
Qed.

Lemma validateDbusRules_nil name session : validateDbusRules name session = [] ↔
  (∀ n, In n (dbus_names session) → bus_name n) ∧
  (∀ rule, In rule (ds_calls session ++ ds_broadcasts session) → has_char "=" (db_rule rule) = false).
Proof.
  unfold validateDbusRules, dbus_names. rewrite !app_nil, !names_errors_nil, !rules_errors_nil. setoid_rewrite in_app_iff.
  setoid_rewrite in_app_iff. setoid_rewrite in_app_iff. setoid_rewrite in_app_iff. naive_solver.
Qed.

(** ** Rules for commands on the host, masking *)

Lemma validateHostExecRuleEnv_nil name i rule secrets : validateHostExecRuleEnv name i rule secrets = [] ↔
  ∀ e, In e (hr_env rule) → ∃ secret, e.2 = secret_reference +:+ secret ∧ In secret secrets.
Proof.
  apply no_error_each. intros [key value]. cbn [fst snd]. destruct (startsWith value secret_reference) eqn:E; cbn [negb].
  - apply startsWith_iff in E as [secret ->]. rewrite drop_str_app, no_error_unless, includes_In. split; [by exists secret|].
    intros (s & Es & Hs). by apply (inj (String.append secret_reference)) in Es as ->.
  - split; [done|]. intros (s & -> & _). apply not_true_iff_false in E. destruct E. apply startsWith_iff. by exists s.
Qed.

Lemma rule_errors_nil name i rule secrets :
  validateHostExecRuleEnv name i rule secrets ++ validateHostExecRuleEnvKeys name i rule ++
  validateHostExecRuleCwdAllow name i rule ++ validateHostExecRuleArgRegex name i rule = [] ↔ valid_rule secrets rule.
Proof.
  rewrite !app_nil, validateHostExecRuleEnv_nil. unfold validateHostExecRuleEnvKeys.
  rewrite (no_error_each _ (λ e, env_key e.1)) by (intros; by rewrite no_error_unless, env_key_iff).
  assert (validateHostExecRuleCwdAllow name i rule = [] ↔ (hr_cwdAllow rule ≠ [] → hr_cwdMode rule = CwdAllowlist)) as ->.
  { unfold validateHostExecRuleCwdAllow. rewrite no_error_if. destruct (hr_cwdAllow rule), (hr_cwdMode rule); cbn; naive_solver. }
  assert (validateHostExecRuleArgRegex name i rule = [] ↔ ∀ pattern, hr_argRegex rule = Some pattern → regex_error pattern = None) as ->.
  { unfold validateHostExecRuleArgRegex. destruct (hr_argRegex rule) as [pattern|]; [|done].
    destruct (regex_error pattern) eqn:E; split; try done; [|naive_solver]. intros Hp. by rewrite (Hp pattern eq_refl) in E. }
  split.
  - intros (He & Hk & Hc & Hr). split; [|done..]. intros key value Hin. split; [apply (Hk _ Hin)|apply (He _ Hin)].
  - intros [He Hc Hr]. split_and!; [|..|done|done]; intros [key value] Hin; by destruct (He _ _ Hin).
Qed.

Lemma hostexec_errors_nil name section :
  hostexec_errors name section = [] ↔ ∀ rule, In rule (hx_rules section) → valid_rule (map_keys (hx_secrets section)) rule.
Proof. apply no_error_indexed. intros i rule. apply rule_errors_nil. Qed.

Lemma is_member_iff {V} name (o : list (string * V)) : is_member name o = true ↔ In name (map_keys o) ∨ In name object_prototype_names.
Proof.
  unfold is_member, map_has. rewrite orb_true_iff, includes_In. f_equiv.
  destruct (map_get o name) eqn:E; cbn; [|split; [done|]; by apply map_get_None in E].
  split; [intros _|done]. apply map_get_In in E. by apply (in_map fst) in E.
Qed.

Lemma mask_errors_nil name mask secrets : mask_errors name mask secrets = [] ↔ valid_mask secrets mask.
Proof.
  unfold mask_errors. rewrite app_nil, (no_error_indexed _ (λ n, In n (map_keys secrets) ∨ In n object_prototype_names)) by (intros; by rewrite no_error_unless, is_member_iff).
  cbn [flat_map]. split.
  - intros [Hf Ha]. split; [|done]. destruct (mk_maskfs mask), (mk_proxy mask), (mk_filter mask); naive_solver.
  - intros [(H1 & H2 & H3) Ha]. split; [|done]. by destruct (mk_maskfs mask), (mk_proxy mask), (mk_filter mask).
Qed.

(** ** Profiles *)

Lemma normalized_spec name p :
  let reserved := if do_enable (cp_docker p) then [18080; 2375]%Z else [18080]%Z in
  (fr_errors (normalized name p) = [] ↔ consistent reserved (requested_of p)) ∧
  (consistent reserved (requested_of p) → fr_entries (normalized name p) = unique (requested_of p)).
Proof.
  cbn zeta. replace (if do_enable (cp_docker p) then _ else _) with (reservedPorts p); [apply normalize_spec|].
  unfold reservedPorts. by destruct (do_enable (cp_docker p)).
Qed.

(** The profile validation leaves: its forwards are the requested ones, each once. *)
Definition with_normal_forwards (p : ConfigProfile) : ConfigProfile := with_forwards p (unique (requested_of p)).

Lemma optional_errors_nil {A} (o : option A) (f : A → list string) (P : A → Prop) : (∀ x, f x = [] ↔ P x) →
  match o with Some x => f x | None => [] end = [] ↔ ∀ x, o = Some x → P x.
Proof. intros Hf. destruct o as [x|]; [rewrite Hf|]; naive_solver. Qed.

Lemma forward_errors_nil name p : fr_errors (normalized name p) = [] ↔
  consistent (if do_enable (cp_docker p) then [18080; 2375] else [18080])%Z (requested_of p).
Proof. apply normalized_spec. Qed.

Lemma hostexec_section_nil name p :
  match cp_hostexec p with Some section => hostexec_errors name section | None => [] end = [] ↔
  ∀ section, cp_hostexec p = Some section → ∀ rule, In rule (hx_rules section) → valid_rule (map_keys (hx_secrets section)) rule.
Proof. apply optional_errors_nil, hostexec_errors_nil. Qed.

Lemma mask_section_nil name p : match cp_mask p with Some mask => mask_errors name mask (cp_secrets p) | None => [] end = [] ↔
  ∀ mask, cp_mask p = Some mask → valid_mask (cp_secrets p) mask.
Proof. apply optional_errors_nil. intros mask. apply mask_errors_nil. Qed.

#[local] Hint Rewrite validateAgentCredentials_nil validateClaudeJson_nil validateExtraAgents_nil acp_errors_nil
  validateSecretRegistry_nil shared_docker_errors_nil forward_errors_nil validateRequestBodyAudit_nil retired_errors_nil
  validateDisplaySize_nil validateDbusRules_nil validateEnvEntries_nil hostexec_section_nil mask_section_nil : no_errors.

Lemma validateProfile_exact name p :
  (∃ check, validateProfile name p = Some check ∧ pc_errors check = []) ↔ valid_profile p.
Proof.
  unfold validateProfile. split.
  - intros (check & E & Hnil). destruct (validateAuthz name p) as [[authz warnings]|] eqn:Ea; [|done]. apply (inj Some) in E as <-.
    cbn [pc_errors] in Hnil. autorewrite with no_errors in Hnil.
    destruct Hnil as ((? & ? & ?) & ? & ? & ? & ? & -> & ? & ? & ? & ? & ? & (? & ?) & ? & ? & ?).
    destruct (proj1 (validateAuthz_nil name p) (ex_intro _ warnings Ea)) as (? & ? & ?). split; try done; eauto.
  - intros []. destruct (proj2 (validateAuthz_nil name p)) as [warnings Ea]; [done|]. rewrite Ea. cbn [mbind option_bind].
    eexists. split; [done|]. cbn [pc_errors]. autorewrite with no_errors. split_and!; eauto.
Qed.
End Checks.
