(* ===== verification/ConfigProps.v ===== *)
(** * Correctness of the validation of configurations

    A configuration is accepted exactly when it is valid -- the specification lists the
    admissible ports, prefixes, names and bounds itself -- and is returned with its port
    forwards in normal form, which validation accepts again and leaves as it is.
    [warnOverlappingHostExecRules] warns exactly of the rules that stand behind one with
    the same program that has no pattern or the same pattern text; [matchRule] never
    selects such a rule. *)
From S2P Require Import Prelude JsString Json NodePath AuthzTypes AuthzConfig PortForward PortBind.
From S2P Require Import Agents HostMatch HostMatchLaws ContainerPlan MountPlan Validate Compile Resolve Protocol Dind.
From S2P Require Import Config ConfigLaws.

(** ** A sample: one profile with forwards, a secret, rules for a command of the host and
    a filtered session bus *)

(** Patterns without "(" are patterns, and numbers are written without leading zeros. *)
Definition sample_config_runtime : ConfigRuntime := {|
  regex_error := λ pattern, if has_char "(" pattern then Some "Unterminated group" else None;
  digits_text := λ s, Z_to_string (digits_value 0 s) |}.

Definition sample_rule (id : string) (argRegex : option string) : HostExecRule := {|
  hr_id := id; hr_argv0 := "git"; hr_argRegex := argRegex; hr_cwdMode := CwdWorkspaceOnly; hr_cwdAllow := [];
  hr_env := [("GH_TOKEN", "secret:token")]; hr_inheritEnv := {| ie_mode := InheritMinimal; ie_keys := [] |};
  hr_approval := ApprovalPrompt |}.

Definition sample_bus : DbusSessionConfig := {|
  ds_enable := true; ds_sourceAddress := None; ds_see := ["org.example.Seen"]; ds_talk := ["org.example.*"]; ds_own := [];
  ds_calls := [{| db_name := "org.example.Portal"; db_rule := "Open@/org/example" |}]; ds_broadcasts := [] |}.

Definition sample_network : ProfileNetwork := {|
  pn_authz := {| nc_scopes := []; nc_fallback := None; nc_defaults := None |};
  pn_localForwards := [{| pp_hostPort := 8080; pp_containerPort := 3000 |}; {| pp_hostPort := 8080; pp_containerPort := 3000 |}];
  pn_remoteForwards := [{| pp_hostPort := 5432; pp_containerPort := 15432 |}];
  pn_forwardPorts := [6379]%Z;
  pn_requestBodyAudit := {| ra_enable := true; ra_retentionSeconds := Some 604800%Z; ra_maxBodyBytes := Some 8388608%Z; ra_maxTotalBytes := Some 268435456%Z |} |}.

Definition sample_profile : ConfigProfile := {|
  cp_agent := AgentClaude; cp_extraAgents := [AgentCodex]; cp_mode := ModeTerminal; cp_agentArgs := [];
  cp_agentState := {| as_protectSettings := true; as_claudeJson := Some []; as_auth := None |};
  cp_worktree := false; cp_docker := {| do_enable := true; do_shared := false; do_networkScopes := None |};
  cp_network := sample_network; cp_dbus := sample_bus; cp_displaySize := "1920x1080";
  cp_env := [{| ev_key := Some "PATH"; ev_mode := EnvPrefix; ev_separator := Some ":" |}];
  cp_hostexec := Some {| hx_installScript := false; hx_secrets := [("token", {| sc_from := "env:GH_TOKEN"; sc_required := None |})];
                         hx_rules := [sample_rule "push" (Some "^push"); sample_rule "git" None] |};
  cp_secrets := [("api", {| sc_from := "keyring:api"; sc_required := None |})];
  cp_guideEnable := false;
  cp_mask := Some {| mk_maskfs := Some true; mk_filter := Some true; mk_proxy := Some true; mk_apply := Some ["api"] |};
  cp_retired := {| rt_extraPackages := false; rt_cloud := false; rt_gpg := false |} |}.

Definition sample_profiles : Config := {| cf_default := Some "dev"; cf_profiles := [("dev", sample_profile)] |}.

Definition validated_profiles : Config := Eval vm_compute in
  match validateConfig (H := sample_config_runtime) sample_profiles with Some (Ok config) => config | _ => sample_profiles end.

(** ** Validation *)

Section Props.
Context `{ConfigRuntime}.

Lemma validateProfile_result name p check : validateProfile name p = Some check → pc_errors check = [] →
  pc_profile check = with_normal_forwards p.
Proof.
  intros E Hnil. assert (valid_profile p) as Hp by (apply (validateProfile_exact name); by exists check).
  apply vp_forwards, (proj2 (normalized_spec name p)) in Hp. unfold validateProfile in E.
  destruct (validateAuthz name p) as [[]|]; [|done]. apply (inj Some) in E as <-. cbn [pc_profile]. by rewrite Hp.
Qed.

Definition with_name (f : ConfigProfile → ConfigProfile) (entry : string * ConfigProfile) : string * ConfigProfile := (entry.1, f entry.2).

Lemma check_profiles_exact profiles result :
  (∃ checks, check_profiles profiles = Some checks ∧ flat_map (λ c, pc_errors c.2) checks = [] ∧
             map (λ c, (c.1, pc_profile c.2)) checks = result) ↔
  (∀ name p, In (name, p) profiles → valid_profile p) ∧ result = map (with_name with_normal_forwards) profiles.
Proof.
  revert result. induction profiles as [|[name p] profiles IH]; intros result; cbn [check_profiles map].
  { split; [intros (checks & E & _ & <-); injection E as <-|intros [_ ->]; exists []]; done. }
  split.
  - intros (checks & E & He & <-). destruct (validateProfile name p) as [check|] eqn:Ev; [|done].
    destruct (check_profiles profiles) as [rest|]; [|done]. cbn [mbind option_bind] in E. apply (inj Some) in E as <-.
    cbn [flat_map fst snd] in He. apply app_nil in He as [He Hrest].
    destruct (proj1 (IH (map (λ c, (c.1, pc_profile c.2)) rest))) as [Hall Er]; [by exists rest|]. split.
    + intros n q [E|Hin]; [|by apply (Hall n)]. injection E as -> ->. apply (validateProfile_exact n). by exists check.
    + cbn [map fst snd]. rewrite Er. unfold with_name at 2. cbn [fst snd]. do 2 f_equal. by apply (validateProfile_result name).
  - intros [Hall ->]. destruct (proj2 (validateProfile_exact name p)) as (check & Ev & Hnil); [apply (Hall name); by left|].
    destruct (proj2 (IH (map (with_name with_normal_forwards) profiles))) as (rest & Er & Hrest & Em).
    { split; [|done]. intros n q Hq. apply (Hall n). by right. }
    exists ((name, check) :: rest). rewrite Ev, Er. cbn [mbind option_bind flat_map map fst snd]. rewrite Hnil, Hrest, Em.
    split_and!; [done..|]. unfold with_name at 2. cbn [fst snd]. do 2 f_equal. by apply (validateProfile_result name).
Qed.

(** The default, if there is one, names a profile.  The names every object inherits, like
    "toString", are taken for profiles as well. *)
Definition valid_default (config : Config) : Prop :=
  ∀ name, cf_default config = Some name →
    name = "" ∨ In name (map_keys (cf_profiles config)) ∨ In name object_prototype_names.

Record valid_config (config : Config) : Prop := {
  vc_profiles : cf_profiles config ≠ [];
  vc_default : valid_default config;
  vc_valid : ∀ name p, In (name, p) (cf_profiles config) → valid_profile p;
}.

Definition normal_config (config : Config) : Config :=
  {| cf_default := cf_default config; cf_profiles := map (with_name with_normal_forwards) (cf_profiles config) |}.

Lemma validateConfig_ok config config' : validateConfig config = Some (Ok config') ↔ valid_config config ∧ config' = normal_config config.
Proof.
  unfold validateConfig. destruct (cf_profiles config) as [|e profiles] eqn:Ep.
  { split; [done|]. by intros [[Hp _ _] _]. }
  rewrite <- Ep. assert (missing_default config = None ↔ valid_default config) as Hd.
  { unfold missing_default, valid_default. setoid_rewrite <- is_member_iff. destruct (cf_default config) as [[|a name]|]; [naive_solver| |naive_solver].
    destruct (is_member _ _) eqn:Em; [naive_solver|]. split; [done|]. intros Hm. destruct (Hm _ eq_refl); congruence. }
  destruct (missing_default config) as [name|].
  { split; [done|]. intros [[_ Hv _] _]. by apply Hd in Hv. }
  pose proof (check_profiles_exact (cf_profiles config) (map (with_name with_normal_forwards) (cf_profiles config))) as Hc. split.
  - intros E. destruct (check_profiles (cf_profiles config)) as [checks|] eqn:Ec; [|done]. cbn [mbind option_bind] in E.
    apply (inj Some) in E. destruct (flat_map _ checks) eqn:Ee; [|done]. injection E as <-.
    destruct (proj1 (check_profiles_exact (cf_profiles config) _) (ex_intro _ checks (conj Ec (conj Ee eq_refl)))) as [Hall Er].
    split; [split; [by rewrite Ep|by apply Hd|done]|]. unfold normal_config. by rewrite Er.
  - intros [[_ _ Hall] ->]. destruct (proj2 Hc) as (checks & -> & He & Em); [done|]. cbn [mbind option_bind]. by rewrite He, Em.
Qed.

(** C20.  validation returns a configuration, with its port forwards in normal form,
    exactly when it is valid: when there is a profile, the default names one, and every
    profile satisfies [valid_profile], which writes out what each part has to be; for
    the authorization of the network and of Docker-in-Docker that is that they resolve
    to a document.  There is one exception to what the checks mean to do: a default, and
    a secret a mask applies to, may also be a name that every object inherits. *)
Theorem validateConfig_exact config config' :
  validateConfig config = Some (Ok config') ↔ valid_config config ∧ config' = normal_config config.
Proof. apply validateConfig_ok. Qed.

(** ** The normal form *)

Lemma spec_of_pair s direction : fs_direction s = direction → spec_of direction (pair_of s) = s.
Proof. intros <-. by destruct s. Qed.

Lemma is_local_iff s : is_local s = true ↔ fs_direction s = DirLocal.
Proof. unfold is_local. by rewrite bool_decide_eq_true. Qed.

Lemma specs_of_pairs direction (f : ForwardSpec → bool) l : (∀ s, f s = true → fs_direction s = direction) →
  map (spec_of direction) (map pair_of (List.filter f l)) = List.filter f l.
Proof.
  intros Hf. rewrite map_map. etransitivity; [|apply map_id]. apply map_ext_in. intros s [_ Hs]%filter_In. by apply spec_of_pair, Hf.
Qed.

Lemma unique_app_subset {A} `{EqDecision A} (l l' : list A) : List.NoDup l → (∀ x, In x l' → In x l) → unique (l ++ l') = l.
Proof.
  intros Hl. induction l' as [|x l' IH] using rev_ind; intros Hs; [rewrite app_nil_r; by apply unique_id|].
  rewrite app_assoc, unique_snoc. assert (includes (l ++ l') x = true) as ->; [|apply IH; intros; apply Hs; apply in_or_app; by left].
  apply includes_In, in_or_app. left. apply Hs, in_or_app. right. by left.
Qed.

Definition local_part (l : list ForwardSpec) := List.filter is_local l.
Definition remote_part (l : list ForwardSpec) := List.filter (λ s, negb (is_local s)) l.

Lemma parts_In l s : In s (local_part l ++ remote_part l) ↔ In s l.
Proof. unfold local_part, remote_part. rewrite in_app_iff, !filter_In, negb_true_iff. destruct (is_local s); naive_solver. Qed.

Lemma parts_NoDup l : List.NoDup l → List.NoDup (local_part l ++ remote_part l).
Proof.
  intros Hl. apply NoDup_ListNoDup, NoDup_app. split_and!; [by apply NoDup_ListNoDup, List.NoDup_filter| |by apply NoDup_ListNoDup, List.NoDup_filter].
  intros s [_ H1]%list_elem_of_In%filter_In [_ H2]%list_elem_of_In%filter_In. by rewrite H1 in H2.
Qed.

Lemma filter_again {A} (f : A → bool) l : List.filter f (List.filter f l) = List.filter f l.
Proof. induction l as [|x l IH]; [done|]. cbn. destruct (f x) eqn:E; [|done]. cbn. by rewrite E, IH. Qed.

Lemma filter_other {A} (f g : A → bool) l : (∀ x, g x = true → f x = false) → List.filter f (List.filter g l) = [].
Proof. intros Hf. induction l as [|x l IH]; [done|]. cbn. destruct (g x) eqn:E; [|done]. cbn. by rewrite (Hf x E). Qed.

Lemma parts_parts l : local_part (local_part l ++ remote_part l) = local_part l ∧ remote_part (local_part l ++ remote_part l) = remote_part l.
Proof.
  unfold local_part, remote_part. rewrite !List.filter_app, !filter_again.
  rewrite (filter_other is_local (λ s, negb (is_local s))), (filter_other (λ s, negb (is_local s)) is_local), app_nil_r.
  - done.
  - by intros s ->.
  - intros s. by destruct (is_local s).
Qed.

Lemma requested_normal p : requested_of (with_normal_forwards p) =
  local_part (unique (requested_of p)) ++ remote_part (unique (requested_of p)) ++
  map (λ port, spec_of DirRemote (same_port port)) (pn_forwardPorts (cp_network p)).
Proof.
  unfold requested_of at 1, requested. cbn. rewrite !specs_of_pairs; [done|..].
  - intros s. unfold is_local. rewrite negb_true_iff, bool_decide_eq_false. by destruct (fs_direction s).
  - intros s. by apply is_local_iff.
Qed.

Lemma unique_requested_normal p : unique (requested_of (with_normal_forwards p)) =
  local_part (unique (requested_of p)) ++ remote_part (unique (requested_of p)).
Proof.
  rewrite requested_normal, app_assoc. apply unique_app_subset; [apply parts_NoDup, unique_NoDup|].
  intros s Hs. apply parts_In, unique_In. unfold requested_of, requested. apply in_or_app. right. apply in_or_app. by right.
Qed.

Lemma requested_normal_In p s : In s (requested_of (with_normal_forwards p)) ↔ In s (requested_of p).
Proof. by rewrite <- unique_In, unique_requested_normal, parts_In, unique_In. Qed.

Lemma with_normal_forwards_idem p : with_normal_forwards (with_normal_forwards p) = with_normal_forwards p.
Proof.
  unfold with_normal_forwards at 1. rewrite unique_requested_normal. unfold with_normal_forwards, with_forwards. cbn.
  destruct (parts_parts (unique (requested_of p))) as [E1 E2]. unfold local_part, remote_part in *. by rewrite E1, E2.
Qed.

Lemma valid_normal p : valid_profile p → valid_profile (with_normal_forwards p).
Proof.
  intros [? ? ? ? ? ? ? ? ? ? ? [Hu Hc] ? ? ? ? ? ? ? ?]. split; try done. split.
  - intros s Hs. apply (proj1 (requested_normal_In p s)) in Hs. exact (Hu s Hs).
  - intros s s' Hs Hs'. apply (proj1 (requested_normal_In p _)) in Hs, Hs'. exact (Hc s s' Hs Hs').
Qed.

Lemma is_member_names f name (profiles : list (string * ConfigProfile)) : is_member name (map (with_name f) profiles) = is_member name profiles.
Proof.
  unfold is_member, map_has. f_equal. induction profiles as [|[n p] profiles IH]; [done|]. cbn. by case_decide.
Qed.

(** What validation returns is a fixed point of it: it is valid, and its port
    forwards are in normal form. *)
Theorem validate_idempotent config config' : validateConfig config = Some (Ok config') → validateConfig config' = Some (Ok config').
Proof.
  intros [[Hp Hd Hv] ->]%validateConfig_ok. apply validateConfig_ok. unfold normal_config. split; [split; cbn|].
  - by destruct (cf_profiles config).
  - unfold valid_default. cbn. intros name. setoid_rewrite <- is_member_iff. rewrite is_member_names, is_member_iff. apply Hd.
  - intros name p ([n q] & E & Hin)%in_map_iff. injection E as -> <-. by apply valid_normal, (Hv name).
  - cbn. f_equal. rewrite map_map. apply map_ext. intros [n p]. unfold with_name. cbn. by rewrite with_normal_forwards_idem.
Qed.
End Props.

Lemma validate_idempotent_witness :
  validateConfig (H := sample_config_runtime) validated_profiles = Some (Ok validated_profiles).
Proof. apply (validate_idempotent (H := sample_config_runtime) sample_profiles). vm_compute. reflexivity. Defined.

(** ** Names of `Object.prototype`

    The tests with `in`, and the plain read of a profile, find what every object
    inherits: a mask may name a secret that does not exist, and a profile that does not
    exist is resolved to an inherited function. *)
Lemma inherited_names_accepted :
  mask_errors "dev" {| mk_maskfs := Some true; mk_filter := Some true; mk_proxy := Some true; mk_apply := Some ["constructor"] |} [] = [] ∧
  missing_default {| cf_default := Some "toString"; cf_profiles := cf_profiles sample_profiles |} = None ∧
  resolveProfile sample_profiles (Some "constructor") = Ok ("constructor", Inherited).
Proof. split_and!; vm_compute; reflexivity. Qed.

(** * Warnings on rules for host commands *)

Definition regex_key (rule : HostExecRule) : string := default "" (hr_argRegex rule).

(** The first rule matches all the second one does: it has no pattern, or the same. *)
Definition covers (a b : HostExecRule) : Prop := hr_argRegex a = None ∨ regex_key a = regex_key b.

Definition shadows (a b : HostExecRule) : Prop := hr_argv0 a = hr_argv0 b ∧ covers a b.

(** ** The warnings *)

Lemma repeated_nil name argv0 group : ∀ seen, repeated_warnings name argv0 seen group = [] ↔
  ForallOrdPairs (λ a b, regex_key a ≠ regex_key b) group ∧ Forall (λ r, map_get seen (regex_key r) = None) group.
Proof.
  induction group as [|r group IH]; intros seen; cbn [repeated_warnings]; [split; [split; constructor|done]|].
  fold (regex_key r). destruct (map_get seen (regex_key r)) as [prev|] eqn:Eg.
  { split; [done|]. intros [_ H]. apply Forall_cons in H as [H _]. congruence. }
  rewrite IH. assert (Forall (λ r0, map_get (map_set seen (regex_key r) r) (regex_key r0) = None) group ↔
    Forall (λ b, regex_key r ≠ regex_key b) group ∧ Forall (λ r0, map_get seen (regex_key r0) = None) group) as ->.
  { rewrite <- Forall_and. apply Forall_iff. intros x. rewrite map_get_set. case_decide; naive_solver. }
  split.
  - intros (Hp & Hd & Hs). by repeat constructor.
  - intros [Hp Hs]. inversion Hp as [|? ? Hd Hp']; subst. apply Forall_cons in Hs as [_ Hs]. split_and!; done.
Qed.

Lemma shadowed_nil name argv0 group : shadowed_warnings name argv0 group = [] ↔
  ForallOrdPairs (λ a b, hr_argRegex a = None → hr_argRegex b = None) group.
Proof.
  induction group as [|r group IH]; cbn [shadowed_warnings]; [split; [constructor|done]|].
  destruct (hr_argRegex r) as [pattern|] eqn:Er.
  { rewrite IH. split; [|by inversion 1]. intros H. constructor; [|done]. apply Forall_forall. congruence. }
  rewrite (no_error_each _ (λ b, hr_argRegex b = None)) by (intros b; by destruct (hr_argRegex b)).
  split.
  - intros H. constructor; [apply List.Forall_forall; auto|]. clear IH. induction group as [|x group IH]; constructor.
    + apply List.Forall_forall. intros b Hb _. apply H. by right.
    + apply IH. intros b Hb. apply H. by right.
  - intros H. inversion H as [|? ? Hd _]; subst. rewrite List.Forall_forall in Hd. auto.
Qed.

Lemma ordered_pairs_and {A} (P Q R : A → A → Prop) l : (∀ a b, R a b ↔ P a b ∧ Q a b) →
  ForallOrdPairs P l ∧ ForallOrdPairs Q l ↔ ForallOrdPairs R l.
Proof.
  intros HR. induction l as [|x l IH]; [split; [constructor|split; constructor]|]. split.
  - intros [HP HQ]. inversion HP; inversion HQ; subst. constructor; [|tauto]. rewrite List.Forall_forall in *. intros. apply HR. auto.
  - intros H. inversion H as [|? ? Hd Ht]; subst. apply IH in Ht as [? ?]. rewrite List.Forall_forall in Hd.
    split; constructor; try done; apply List.Forall_forall; intros; by apply HR, Hd.
Qed.

Lemma group_nil name argv0 group : repeated_warnings name argv0 [] group ++ shadowed_warnings name argv0 group = [] ↔
  ForallOrdPairs (λ a b, ¬ covers a b) group.
Proof.
  rewrite app_nil, repeated_nil, shadowed_nil.
  rewrite <- (ordered_pairs_and (λ a b, regex_key a ≠ regex_key b) (λ a b, hr_argRegex a = None → hr_argRegex b = None)
    (λ a b, ¬ covers a b)); [split|].
  - intros [[H1 _] H2]. by split.
  - intros [H1 H2]. split; [split; [done|by apply Forall_forall]|done].
  - intros a b. unfold covers, regex_key. destruct (hr_argRegex a), (hr_argRegex b); cbn; naive_solver.
Qed.

Lemma ordered_pairs_short {A} (P : A → A → Prop) l : (length l < 2)%nat → ForallOrdPairs P l.
Proof. destruct l as [|x [|y l]]; cbn; intros; [constructor|repeat constructor|lia]. Qed.

(** Pairs with the same program are the pairs of the groups. *)
Lemma ordered_pairs_groups (P : HostExecRule → HostExecRule → Prop) rules :
  ForallOrdPairs (λ a b, hr_argv0 a = hr_argv0 b → P a b) rules ↔
  ∀ argv0, ForallOrdPairs P (List.filter (λ r, String.eqb (hr_argv0 r) argv0) rules).
Proof.
  induction rules as [|r rules IH]; [split; [intros _ argv0|intros _]; constructor|]. split.
  - intros H argv0. inversion H as [|? ? Hd Ht]; subst. cbn [List.filter]. rewrite List.Forall_forall in Hd.
    destruct (String.eqb_spec (hr_argv0 r) argv0) as [<-|]; [|by apply IH]. constructor; [|by apply IH].
    apply List.Forall_forall. intros b [Hb E%String.eqb_eq]%filter_In. by apply Hd.
  - intros H. constructor.
    + apply List.Forall_forall. intros b Hb E. specialize (H (hr_argv0 r)). cbn [List.filter] in H. rewrite String.eqb_refl in H.
      inversion H as [|? ? Hd _]; subst. rewrite List.Forall_forall in Hd. apply Hd, filter_In. split; [done|]. by apply String.eqb_eq.
    + apply IH. intros argv0. specialize (H argv0). cbn [List.filter] in H. destruct (String.eqb _ argv0); [by inversion H|done].
Qed.

Lemma warnings_nil name rules : warnOverlappingHostExecRules name rules = [] ↔ ForallOrdPairs (λ a b, ¬ shadows a b) rules.
Proof.
  unfold warnOverlappingHostExecRules.
  rewrite (no_error_each _ (λ argv0, ForallOrdPairs (λ a b, ¬ covers a b) (List.filter (λ r, String.eqb (hr_argv0 r) argv0) rules))).
  - assert (ForallOrdPairs (λ a b, ¬ shadows a b) rules ↔ ForallOrdPairs (λ a b, hr_argv0 a = hr_argv0 b → ¬ covers a b) rules) as ->.
    { rewrite <- (ordered_pairs_and (λ _ _, True) (λ a b, ¬ shadows a b) (λ a b, hr_argv0 a = hr_argv0 b → ¬ covers a b)).
      - split; [|by intros []]. intros H. split; [|done]. clear. induction rules; constructor; [by apply List.Forall_forall|done].
      - intros a b. unfold shadows. naive_solver. }
    rewrite ordered_pairs_groups. split; [|auto]. intros H argv0.
    destruct (in_dec String.string_dec argv0 (map hr_argv0 rules)) as [Hin|Hin]; [by apply H, unique_In|].
    assert (List.filter (λ r, String.eqb (hr_argv0 r) argv0) rules = []) as ->; [|constructor].
    destruct (List.filter _ rules) as [|r l] eqn:Ef; [done|]. destruct Hin.
    assert (In r (List.filter (λ r, String.eqb (hr_argv0 r) argv0) rules)) as [Hr <-%String.eqb_eq]%filter_In by (rewrite Ef; by left).
    by apply in_map.
  - intros argv0. destruct (Nat.ltb_spec (length (List.filter (λ r, String.eqb (hr_argv0 r) argv0) rules)) 2) as [Hlt|_]; [|apply group_nil].
    split; [intros _|done]. by apply ordered_pairs_short.
Qed.

(** ** The rules warned of *)

Section Match.
Context `{HostRuntime}.
Hypothesis empty_pattern : ∀ s, regex_test "" s = Some true.

Definition rejects (rule : HostExecRule) (argv0 : string) (args : list string) (context : option MatchContext) : Prop :=
  argv0MatchesRule (hr_argv0 rule) argv0 context = false ∨
  ∃ pattern, hr_argRegex rule = Some pattern ∧ regex_test pattern (buildArgsString args) = Some false.

Lemma rejects_skip rule pre post argv0 args context : rejects rule argv0 args context →
  matchRule (pre ++ rule :: post) argv0 args context = matchRule (pre ++ post) argv0 args context.
Proof.
  intros Hr. induction pre as [|x pre IH]; cbn [app matchRule]; [|by rewrite IH].
  destruct Hr as [->|(pattern & -> & ->)]; [done|]. by destruct (negb _).
Qed.

(** Where a rule covers another, the other is not reached. *)
Lemma shadowed_not_selected a rule : shadows a rule → ∀ pre post argv0 args context, In a pre →
  matchRule (pre ++ rule :: post) argv0 args context = matchRule (pre ++ post) argv0 args context.
Proof.
  intros [Ea Hc] pre post argv0 args context. induction pre as [|x pre IH]; [done|]. intros [->|Hin]; cbn [app matchRule]; [|by rewrite IH].
  destruct (argv0MatchesRule (hr_argv0 a) argv0 context) eqn:Em; cbn [negb].
  - destruct (hr_argRegex a) as [pattern|] eqn:Er; [|done]. destruct (regex_test pattern _) as [[]|] eqn:Et; [done| |done].
    apply rejects_skip. right. exists pattern. split; [|done]. unfold covers, regex_key in Hc. rewrite Er in Hc.
    destruct Hc as [?|Hc]; [done|]. cbn in Hc. destruct (hr_argRegex rule); cbn in Hc; [by subst|]. subst. by rewrite empty_pattern in Et.
  - apply rejects_skip. left. by rewrite <- Ea.
Qed.

(** C22.  validation warns of a list of rules exactly when one of them stands behind a rule
    of the same program that has no pattern or the same pattern text, and leaving such a
    rule out changes the choice for no command.  The test is on the texts: of a rule
    behind one whose pattern only matches as much, as "push" behind ".*", it does not
    warn. *)
Theorem warned_rules_unreachable name rules :
  (warnOverlappingHostExecRules name rules = [] ↔ ForallOrdPairs (λ a b, ¬ shadows a b) rules) ∧
  ∀ pre rule post, rules = pre ++ rule :: post → (∃ a, In a pre ∧ shadows a rule) →
  ∀ argv0 args context, matchRule rules argv0 args context = matchRule (pre ++ post) argv0 args context.
Proof.
  split; [apply warnings_nil|]. intros pre rule post -> (a & Hin & Ha) argv0 args context. by apply (shadowed_not_selected a).
Qed.
End Match.

Lemma warned_rules_unreachable_witness :
  length (warnOverlappingHostExecRules "dev" [sample_rule "git" None; sample_rule "push" (Some "push")]) = 1%nat ∧
  ∀ argv0 args context,
    matchRule (H := plain_runtime) [sample_rule "git" None; sample_rule "push" (Some "push")] argv0 args context =
    matchRule (H := plain_runtime) [sample_rule "git" None] argv0 args context.
Proof.
  split; [vm_compute; reflexivity|].
  destruct (warned_rules_unreachable (H := plain_runtime) (λ s, ltac:(by destruct s)) "dev"
    [sample_rule "git" None; sample_rule "push" (Some "push")]) as [_ Hskip].
  apply (Hskip [sample_rule "git" None] (sample_rule "push" (Some "push")) []); [reflexivity|].
  exists (sample_rule "git" None). split; [by left|]. split; [reflexivity|by left].
Defined.
