(* ===== verification/DbusProxy.v ===== *)
(** * The D-Bus proxy (stages/dbus_proxy/stage.ts, dbus_proxy_service.ts)

    The plan for xdg-dbus-proxy, the operations that start it, and what the proxy reads
    of its arguments: with a valid configuration the proxy is given exactly the configured
    policy and one socket of the host, and the bus in the container is the socket of the
    proxy. *)
From S2P Require Import Prelude JsString Json NodePath AuthzTypes AuthzConfig PortForward PortBind.
From S2P Require Import Agents HostMatch ContainerPlan MountPlan Validate Compile Resolve Protocol Dind.
From S2P Require Import Config ConfigLaws ConfigProps.

(** ** The plan *)

Definition SOCKET_READY_TIMEOUT_MS : Z := 5000.
Definition SOCKET_READY_POLL_MS : Z := 50.

(** What the stage reads of its input: the host, the session section of the profile and
    the probes. *)
Record DbusInput : Type := {
  du_host : HostEnv;
  du_session : DbusSessionConfig;
  du_sessionId : string;
  du_xdgDbusProxyPath : option string;
  du_dbusSessionAddress : option string;
}.

(** The state of an enabled proxy; [None] stands for `{ enabled: false }`. *)
Record DbusRuntime : Type := { dr_runtimeDir : string; dr_socket : string; dr_sourceAddress : string }.

Record DbusProxyPlan : Type := {
  dp_proxyBinaryPath : string;
  dp_runtimeDir : string;
  dp_sessionsDir : string;
  dp_sessionDir : string;
  dp_socketPath : string;
  dp_args : list string;
  dp_timeoutMs : Z;
  dp_pollIntervalMs : Z;
  dp_output : option DbusRuntime;
}.

(** The plan of every case in which the proxy is skipped with a warning. *)
Definition skipped : DbusProxyPlan := {|
  dp_proxyBinaryPath := ""; dp_runtimeDir := ""; dp_sessionsDir := ""; dp_sessionDir := ""; dp_socketPath := "";
  dp_args := []; dp_timeoutMs := 0; dp_pollIntervalMs := 0; dp_output := None |}.

Definition resolveSourceAddress (configuredAddress probeAddress : option string) (uid : Z) : string :=
  match configuredAddress with
  | None | Some "" =>
      match probeAddress with
      | None | Some "" => "unix:path=/run/user/" +:+ Z_to_string uid +:+ "/bus"
      | Some probeAddress => probeAddress
      end
  | Some configuredAddress => configuredAddress
  end.

Definition UNIX_PATH : string := "unix:path=".

(** The class `[A-Za-z0-9/_.+%-]` *)
Definition is_path_char (a : ascii) : bool :=
  is_alpha a || is_digit a || Ascii.eqb a "/" || Ascii.eqb a "_" || Ascii.eqb a "." || Ascii.eqb a "+" || Ascii.eqb a "%" || Ascii.eqb a "-".

Definition isValidUnixPathAddress (sourceAddress : string) : bool :=
  if negb (startsWith sourceAddress UNIX_PATH) then false
  else
    let path := drop_str (slen UNIX_PATH) sourceAddress in
    if String.eqb path "" then false
    else if negb (startsWith path "/") then false
    else string_all is_path_char path.

Definition buildProxyArgs (sourceAddress socketPath : string) (see talk own : list string) (calls broadcasts : list DbusRuleConfig) :
    list string :=
  [sourceAddress; socketPath; "--filter"] ++
  map (λ name, "--see=" +:+ name) see ++
  map (λ name, "--talk=" +:+ name) talk ++
  map (λ name, "--own=" +:+ name) own ++
  map (λ rule, "--call=" +:+ db_name rule +:+ "=" +:+ db_rule rule) calls ++
  map (λ rule, "--broadcast=" +:+ db_name rule +:+ "=" +:+ db_rule rule) broadcasts.

Definition resolveRuntimeDir (host : HostEnv) : string :=
  let otherwise := "/tmp/nas-" +:+ match he_uid host with Some uid => Z_to_string uid | None => "unknown" end +:+ "/dbus" in
  match map_get (he_env host) "XDG_RUNTIME_DIR" with
  | Some xdg => if (0 <? slen (Protocol.trim xdg))%nat then xdg +:+ "/nas/dbus" else otherwise
  | None => otherwise
  end.

(** [None] is `null`. *)
Definition planDbusProxy (input : DbusInput) : option DbusProxyPlan :=
  let session := du_session input in
  if negb (ds_enable session) then None
  else
    match he_uid (du_host input), du_xdgDbusProxyPath input with
    | None, _ | _, None | _, Some "" => Some skipped
    | Some uid, Some proxyBin =>
        let sourceAddress := resolveSourceAddress (ds_sourceAddress session) (du_dbusSessionAddress input) uid in
        if String.eqb sourceAddress "" then Some skipped
        else if negb (startsWith sourceAddress UNIX_PATH) then Some skipped
        else if negb (isValidUnixPathAddress sourceAddress) then Some skipped
        else
          let runtimeDir := resolveRuntimeDir (du_host input) in
          let sessionsDir := runtimeDir +:+ "/sessions" in
          let sessionDir := sessionsDir +:+ "/" +:+ du_sessionId input in
          let socketPath := sessionDir +:+ "/bus" in
          Some {|
            dp_proxyBinaryPath := proxyBin; dp_runtimeDir := runtimeDir; dp_sessionsDir := sessionsDir; dp_sessionDir := sessionDir;
            dp_socketPath := socketPath;
            dp_args := buildProxyArgs sourceAddress socketPath (ds_see session) (ds_talk session) (ds_own session)
                         (ds_calls session) (ds_broadcasts session);
            dp_timeoutMs := SOCKET_READY_TIMEOUT_MS; dp_pollIntervalMs := SOCKET_READY_POLL_MS;
            dp_output := Some {| dr_runtimeDir := sessionDir; dr_socket := socketPath; dr_sourceAddress := sourceAddress |} |}
    end.

(** ** Starting the proxy *)

Inductive DbusOp : Type :=
  | Mkdir (path : string) (mode : Z)
  | Spawn (binary : string) (args : list string)
  | WaitForFileExists (path : string) (timeoutMs pollIntervalMs : Z)
  | Kill.

(** The operations in their order up to the first that fails, and whether all succeed. *)
Fixpoint run_ops (succeeds : DbusOp → bool) (ops : list DbusOp) : list DbusOp * bool :=
  match ops with
  | [] => ([], true)
  | op :: ops => if succeeds op then let '(done_, ok) := run_ops succeeds ops in (op :: done_, ok) else ([op], false)
  end.

Definition startProxy (plan : DbusProxyPlan) : list DbusOp :=
  [Mkdir (dp_runtimeDir plan) 493; Mkdir (dp_sessionsDir plan) 448; Mkdir (dp_sessionDir plan) 448;
   Spawn (dp_proxyBinaryPath plan) (dp_args plan);
   WaitForFileExists (dp_socketPath plan) (dp_timeoutMs plan) (dp_pollIntervalMs plan)].

(** The finalizers of the stage's scope: the process is killed if it was started. *)
Definition release (succeeds : DbusOp → bool) (done_ : list DbusOp) : list DbusOp :=
  if existsb (λ op, match op with Spawn _ _ => succeeds op | _ => false end) done_ then [Kill] else [].

(** The stage: its operations, and its state, [None] when it fails. *)
Definition runDbusProxy (succeeds : DbusOp → bool) (plan : DbusProxyPlan) : list DbusOp * option (option DbusRuntime) :=
  let '(done_, ok) := run_ops succeeds (startProxy plan) in
  (done_, if ok then Some (dp_output plan) else None).

Definition dbus_stage (succeeds : DbusOp → bool) (input : DbusInput) : list DbusOp * option (option DbusRuntime) :=
  match planDbusProxy input with
  | None => ([], Some None)
  | Some plan => if String.eqb (dp_proxyBinaryPath plan) "" then ([], Some (dp_output plan)) else runDbusProxy succeeds plan
  end.

(** ** A host for the witness *)

Definition bus_host : HostEnv := {|
  he_home := "/home/u"; he_user := "u"; he_uid := Some 1000%Z; he_gid := Some 1000%Z;
  he_env := [("XDG_RUNTIME_DIR", "/run/user/1000")] |}.

Definition bus_input : DbusInput := {|
  du_host := bus_host; du_session := cp_dbus sample_profile; du_sessionId := "s1"; du_xdgDbusProxyPath := Some "/usr/bin/xdg-dbus-proxy";
  du_dbusSessionAddress := None |}.

Definition all_succeed (op : DbusOp) : bool := true.

Definition bus_state : DbusRuntime := {|
  dr_runtimeDir := "/run/user/1000/nas/dbus/sessions/s1"; dr_socket := "/run/user/1000/nas/dbus/sessions/s1/bus";
  dr_sourceAddress := "unix:path=/run/user/1000/bus" |}.

(** ** What xdg-dbus-proxy and D-Bus read *)

(** The text before and after the first occurrence of a character. *)
Fixpoint split_first (c : ascii) (s : string) : option (string * string) :=
  match s with
  | "" => None
  | String a s => if Ascii.eqb a c then Some ("", s) else '(t, rest) ← split_first c s; Some (String a t, rest)
  end.

(** The options, `NAME` and `NAME=RULE` as documented. *)
Inductive PolicyItem : Type :=
  | Filter
  | See (name : string)
  | Talk (name : string)
  | Own (name : string)
  | Call (rule : DbusRuleConfig)
  | Broadcast (rule : DbusRuleConfig).

Definition option_value (o name : string) : option string :=
  if startsWith o name then Some (drop_str (slen name) o) else None.

Definition named_rule (value : string) : option DbusRuleConfig := '(n, rule) ← split_first "=" value; Some {| db_name := n; db_rule := rule |}.

Definition read_option (o : string) : option PolicyItem :=
  if String.eqb o "--filter" then Some Filter
  else
    match option_value o "--see=", option_value o "--talk=", option_value o "--own=", option_value o "--call=", option_value o "--broadcast=" with
    | Some n, _, _, _, _ => Some (See n)
    | _, Some n, _, _, _ => Some (Talk n)
    | _, _, Some n, _, _ => Some (Own n)
    | _, _, _, Some value, _ => Call <$> named_rule value
    | _, _, _, _, Some value => Broadcast <$> named_rule value
    | _, _, _, _, _ => None
    end.

(** The policy of a command line: the address, the socket and the options. *)
Definition read_command (args : list string) : option (string * string * list PolicyItem) :=
  match args with address :: socket :: options => items ← mapM read_option options; Some (address, socket, items) | _ => None end.

(** An address of D-Bus: `transport:key=value,...`, several of them separated by ";". *)
Definition read_address (address : string) : option (list (string * list (string * string))) :=
  mapM (λ one, '(transport, rest) ← split_first ":" one; pairs ← mapM (split_first "=") (split_on "," rest); Some (transport, pairs)) (split_on ";" address).

(** ** Reading what is printed *)

Lemma split_first_app c t s : has_char c t = false → split_first c (t +:+ String c s) = Some (t, s).
Proof.
  induction t as [|a t IH]; cbn; [by rewrite Ascii.eqb_refl|]. intros [Ha Ht]%orb_false_iff. by rewrite Ha, IH.
Qed.

Lemma read_rule n rule : has_char "=" n = false → named_rule (n +:+ "=" +:+ rule) = Some {| db_name := n; db_rule := rule |}.
Proof. intros Hn. unfold named_rule. change ("=" +:+ rule) with (String "=" rule). by rewrite split_first_app. Qed.

(** How an item is written as an option. *)
Definition print_item (item : PolicyItem) : string :=
  match item with
  | Filter => "--filter"
  | See n => "--see=" +:+ n
  | Talk n => "--talk=" +:+ n
  | Own n => "--own=" +:+ n
  | Call r => "--call=" +:+ db_name r +:+ "=" +:+ db_rule r
  | Broadcast r => "--broadcast=" +:+ db_name r +:+ "=" +:+ db_rule r
  end.

(** The policy a profile asks for. *)
Definition policy_of (session : DbusSessionConfig) : list PolicyItem :=
  Filter :: map See (ds_see session) ++ map Talk (ds_talk session) ++ map Own (ds_own session) ++
  map Call (ds_calls session) ++ map Broadcast (ds_broadcasts session).

Definition readable (item : PolicyItem) : Prop :=
  match item with Call r | Broadcast r => has_char "=" (db_name r) = false | _ => True end.

Lemma drop_nothing s : drop_str 0 s = s.
Proof. by destruct s. Qed.

Lemma prefix_nothing s : String.prefix "" s = true.
Proof. by destruct s. Qed.

Lemma print_read item : readable item → read_option (print_item item) = Some item.
Proof.
  unfold read_option, option_value. destruct item as [|n|n|n|r|r]; cbn -[named_rule]; rewrite ?prefix_nothing, ?drop_nothing; try done.
  all: intros Hn; assert (db_name r +:+ String "=" (db_rule r) = db_name r +:+ "=" +:+ db_rule r) as -> by done; rewrite read_rule by done; by destruct r.
Qed.

Lemma args_print address socket session :
  buildProxyArgs address socket (ds_see session) (ds_talk session) (ds_own session) (ds_calls session) (ds_broadcasts session) =
  address :: socket :: map print_item (policy_of session).
Proof. unfold buildProxyArgs, policy_of. cbn. rewrite !map_app, !map_map. done. Qed.

Lemma policy_readable session : (∀ n, In n (dbus_names session) → DBUS_NAME_RE n = true) → Forall readable (policy_of session).
Proof.
  intros Hn. unfold policy_of, dbus_names in *. constructor; [done|]. rewrite !Forall_app. split_and!; apply List.Forall_forall;
    intros x (y & <- & Hy)%in_map_iff; cbn; try done; apply name_no_equals, Hn; rewrite !in_app_iff, !in_map_iff; eauto 10.
Qed.

Lemma read_args address socket session : (∀ n, In n (dbus_names session) → DBUS_NAME_RE n = true) →
  read_command (buildProxyArgs address socket (ds_see session) (ds_talk session) (ds_own session) (ds_calls session) (ds_broadcasts session))
  = Some (address, socket, policy_of session).
Proof.
  intros Hn%policy_readable. rewrite args_print. cbn [read_command]. change (map print_item) with (fmap (M := list) print_item).
  rewrite (mapM_fmap_Forall_Some read_option print_item); [done|]. eapply Forall_impl; [exact Hn|]. apply print_read.
Qed.

Lemma path_char_free c s : is_path_char c = false → string_all is_path_char s = true → has_char c s = false.
Proof. apply string_all_free. Qed.

(** A checked address is one absolute path of a Unix socket. *)
Lemma valid_address address : isValidUnixPathAddress address = true →
  ∃ p, read_address address = Some [("unix", [("path", p)])] ∧ isAbsolute p = true.
Proof.
  unfold isValidUnixPathAddress. destruct (startsWith address UNIX_PATH) eqn:E; [|done]. apply startsWith_iff in E as [p ->]. cbn [negb].
  rewrite drop_str_app. destruct (String.eqb_spec p ""); [done|]. destruct (startsWith p "/") eqn:Eabs; [|done]. cbn [negb]. intros Hp.
  exists p. split; [|by destruct p]. unfold read_address.
  rewrite (split_on_char_free ";") by (rewrite has_char_app, (path_char_free ";" p) by done; done). cbn.
  rewrite (split_on_char_free ",") by (cbn; by apply path_char_free). done.
Qed.

(** ** The stage *)

(** What the stage answers when it succeeds with a proxy. *)
Lemma stage_success succeeds input ops state : dbus_stage succeeds input = (ops, Some (Some state)) →
  ∃ binary plan, du_xdgDbusProxyPath input = Some binary ∧ planDbusProxy input = Some plan ∧ ops = startProxy plan ∧
    dp_proxyBinaryPath plan = binary ∧ dp_output plan = Some state ∧
    isValidUnixPathAddress (dr_sourceAddress state) = true ∧ dr_socket state = dr_runtimeDir state +:+ "/bus" ∧
    dp_args plan = buildProxyArgs (dr_sourceAddress state) (dr_socket state) (ds_see (du_session input)) (ds_talk (du_session input))
      (ds_own (du_session input)) (ds_calls (du_session input)) (ds_broadcasts (du_session input)) ∧
    (∀ op, In op ops → succeeds op = true).
Proof.
  unfold dbus_stage. destruct (planDbusProxy input) as [plan|] eqn:Ep; [|done].
  destruct (String.eqb_spec (dp_proxyBinaryPath plan) "") as [Eb|Eb].
  { intros [= <- E]. unfold planDbusProxy in Ep. repeat case_match; simplify_eq/=; done. }
  unfold runDbusProxy. destruct (run_ops succeeds (startProxy plan)) as [done_ ok] eqn:Er. destruct ok; [|done]. intros [= <- E].
  assert (∀ l l', run_ops succeeds l = (l', true) → l' = l ∧ ∀ op, In op l → succeeds op = true) as Hrun.
  { clear. induction l as [|op l IH]; intros l'; cbn; [intros [= <-]; by split|]. destruct (succeeds op) eqn:Eo; [|done].
    destruct (run_ops succeeds l) as [t ok]. intros [= <- ->]. destruct (IH t eq_refl) as [-> Hl]. split; [done|]. by intros x [<-|Hx]; auto. }
  apply Hrun in Er as [-> Hall]. unfold planDbusProxy in Ep. repeat case_match; simplify_eq/=; try done.
  eexists _, _. split_and!; try done. by apply negb_false_iff.
Qed.

Lemma dbus_mounts_spec host runtimeDir d d' : dbus_mounts host (Some runtimeDir) d = Ok d' →
  ∃ dir, In {| ms_source := runtimeDir; ms_target := dir; ms_readOnly := false |} (dr_mounts d') ∧
    map_get (dr_envVars d') "DBUS_SESSION_BUS_ADDRESS" = Some ("unix:path=" +:+ dir +:+ "/bus").
Proof.
  unfold dbus_mounts. destruct (he_uid host) as [uid|]; [|done]. destruct runtimeDir as [|a runtimeDir]; [done|]. cbn [given_path]. intros [= <-].
  exists ("/run/user/" +:+ Z_to_string uid). split; [cbn; apply in_or_app; right; by left|]. cbn [dr_envVars set_env]. by rewrite map_get_set, decide_True.
Qed.

(** C21.  when the stage of a valid profile succeeds with a proxy, the only process it
    starts is xdg-dbus-proxy, which reads of its arguments exactly the policy of the
    profile, filtering on, one absolute socket path of the host and the socket it serves;
    it is killed when the session ends, and the bus the container is told of is that
    socket, mounted with its directory. *)
Theorem dbus_proxied `{ConfigRuntime} profile succeeds input ops state
    (Hvalid : valid_profile profile) (Hsession : du_session input = cp_dbus profile)
    (Hrun : dbus_stage succeeds input = (ops, Some (Some state))) :
  ∃ args path,
    (∀ binary args', In (Spawn binary args') ops ↔ du_xdgDbusProxyPath input = Some binary ∧ args' = args) ∧
    read_command args = Some (dr_sourceAddress state, dr_socket state, policy_of (cp_dbus profile)) ∧
    read_address (dr_sourceAddress state) = Some [("unix", [("path", path)])] ∧ isAbsolute path = true ∧
    release succeeds ops = [Kill] ∧
    ∀ d d', dbus_mounts (du_host input) (Some (dr_runtimeDir state)) d = Ok d' →
      ∃ dir, In {| ms_source := dr_runtimeDir state; ms_target := dir; ms_readOnly := false |} (dr_mounts d') ∧
        dr_socket state = dr_runtimeDir state +:+ "/bus" ∧
        map_get (dr_envVars d') "DBUS_SESSION_BUS_ADDRESS" = Some ("unix:path=" +:+ dir +:+ "/bus").
Proof.
  apply stage_success in Hrun as (binary & plan & Hbin & _ & -> & Epath & Eout & Haddress & Hsocket & Hargs & Hall).
  destruct (valid_address _ Haddress) as (path & Hread & Habs). exists (dp_args plan), path. split_and!; try done.
  - intros b args'. unfold startProxy. rewrite Hbin, <- Epath. split.
    + intros [?|[?|[?|[E|[?|[]]]]]]; try done. by injection E as <- <-.
    + intros [[= ->] ->]. do 3 right. by left.
  - rewrite Hargs, Hsession. apply read_args. intros n Hn. by apply bus_name_iff, (vp_dbus_names _ Hvalid).
  - unfold release. assert (existsb (λ op, match op with Spawn _ _ => succeeds op | _ => false end) (startProxy plan) = true) as ->; [|done].
    apply existsb_exists. exists (Spawn (dp_proxyBinaryPath plan) (dp_args plan)).
    assert (In (Spawn (dp_proxyBinaryPath plan) (dp_args plan)) (startProxy plan)) as Hin by (do 3 right; by left). split; [done|by apply Hall].
  - intros d d' (dir & Hin & Hvar)%dbus_mounts_spec. by exists dir.
Qed.

Lemma sample_profile_valid : valid_profile (H := sample_config_runtime) sample_profile.
Proof. apply (validateProfile_exact (H := sample_config_runtime) "dev"). eexists. split; vm_compute; reflexivity. Qed.

Lemma dbus_proxied_witness :
  read_command (buildProxyArgs (dr_sourceAddress bus_state) (dr_socket bus_state) (ds_see sample_bus) (ds_talk sample_bus) (ds_own sample_bus)
    (ds_calls sample_bus) (ds_broadcasts sample_bus)) =
  Some ("unix:path=/run/user/1000/bus", "/run/user/1000/nas/dbus/sessions/s1/bus",
        [Filter; See "org.example.Seen"; Talk "org.example.*"; Call {| db_name := "org.example.Portal"; db_rule := "Open@/org/example" |}]) ∧
  ∃ args, (∀ binary args', In (Spawn binary args') (dbus_stage all_succeed bus_input).1 ↔ Some "/usr/bin/xdg-dbus-proxy" = Some binary ∧ args' = args).
Proof.
  split; [vm_compute; reflexivity|].
  destruct (dbus_proxied (H := sample_config_runtime) sample_profile all_succeed bus_input
    (dbus_stage all_succeed bus_input).1 bus_state sample_profile_valid eq_refl ltac:(vm_compute; reflexivity)) as (args & path & Hspawn & _).
  exists args. exact Hspawn.
Defined.
