(* ===== verification/SecretStore.v ===== *)
(** * Sources of secrets (hostexec/secret_store.ts)

    How the text of a source becomes a value, which files may be read for it, the reader
    of dotenv files and the store that remembers values; with the laws of the three: no
    value depends on a file in a credential store (but for an empty HOME and names that
    begin with two dots), what a dotenv file says is what is found in it. *)
From S2P Require Import Prelude JsString Json NodePath AuthzTypes AuthzConfig Protocol.
From S2P Require Import HostMatch HostMatchLaws Agents PortForward PortBind ContainerPlan MountPlan Config ConfigLaws.

(** ** What the code takes from the system *)

(** [HostRuntime] has the working directory and the home directory. *)
Class SecretHost : Type := {
  (** `process.platform` *)
  platform : string;
  (** `os.userInfo().uid`, [None] when it throws *)
  user_id : option Z;
  (** `stat(p).isFile()`, [false] when it throws *)
  is_file : string → bool;
}.

(** What `realpath` and `readFile` answer at a moment. *)
Record FileView : Type := { fv_realpath : string → Result string; fv_readFile : string → Result string }.

(** The three moments of a read: the path is followed, the roots are, the file is read. *)
Record FileViews : Type := { at_path : FileView; at_roots : FileView; at_read : FileView }.

Abbreviation ProcessEnv := (list (string * string)).

(** What a source yields; [SvInherited] is a member of `Object.prototype` taken for one. *)
Inductive SecretValue : Type := SvNull | SvText (value : string) | SvLines (values : list string) | SvInherited.

Definition read_member (o : list (string * string)) (name : string) : SecretValue :=
  match prop_read o name with Own value => SvText value | Inherited => SvInherited | Missing => SvNull end.

(** ** Files that may be read *)

Definition SENSITIVE_PREFIXES : list string :=
  ["/etc"; "/proc"; "/sys"; "/dev"; "/boot"; "/var/log"; "/private/etc"; "/private/var/log"].

Definition CREDENTIAL_HOME_ENTRIES : list string :=
  [".ssh"; ".gnupg"; ".password-store"; ".aws"; ".azure"; ".kube"; ".docker/config.json"; ".netrc"; ".git-credentials";
   ".pgpass"; ".local/share/keyrings"; ".claude/.credentials.json"; ".codex/auth.json"; ".local/share/nas"; ".local/state/nas"].

Definition CREDENTIAL_CONFIG_ENTRIES : list string := ["gcloud"; "gh"; "git/credentials"; "nas/trusted.json"].

Record SecretPathPolicy : Type := {
  sp_allowedRoots : list string;
  sp_homes : list string;
  sp_deniedEntries : list string;
}.

Section Store.
Context `{HostRuntime} `{SecretHost}.

Definition absoluteEnv (value : option string) : list string :=
  match value with
  | Some value => if negb (String.eqb value "") && isAbsolute value then [resolve process_cwd [value]] else []
  | None => []
  end.

Definition currentUid : string := match user_id with Some uid => Z_to_string uid | None => "unknown" end.

Definition buildSecretPathPolicy (env : ProcessEnv) : SecretPathPolicy :=
  let home := default home_dir (map_get env "HOME") in
  let homes := if String.eqb home "" then [] else [resolve process_cwd [home]] in
  let xdgConfig := absoluteEnv (map_get env "XDG_CONFIG_HOME") in
  let configDirs := map (λ h, join_paths [h; ".config"]) homes ++ xdgConfig in
  let denied :=
    flat_map (λ h, map (λ entry, join_paths [h; entry]) CREDENTIAL_HOME_ENTRIES) homes ++
    flat_map (λ dir, map (λ entry, join_paths [dir; entry]) CREDENTIAL_CONFIG_ENTRIES) configDirs ++
    flat_map (λ name, map (λ dir, join_paths [dir; "nas"]) (absoluteEnv (map_get env name)))
      ["XDG_DATA_HOME"; "XDG_STATE_HOME"; "XDG_RUNTIME_DIR"] ++
    [join_paths ["/tmp"; "nas-" +:+ currentUid]] ++
    map (λ dir, join_paths [dir; "auth.json"]) (absoluteEnv (map_get env "CODEX_HOME")) ++
    map (λ dir, join_paths [dir; ".credentials.json"]) (absoluteEnv (map_get env "CLAUDE_CONFIG_DIR")) in
  {| sp_allowedRoots := homes ++ xdgConfig; sp_homes := homes; sp_deniedEntries := denied |}.

Definition expand_roots (fs : FileView) (roots : list string) : list string :=
  unique (roots ++ map (λ root, match fv_realpath fs root with Ok real => real | Err _ => root end) roots).

Definition withRealRoots (fs : FileView) (policy : SecretPathPolicy) : SecretPathPolicy := {|
  sp_allowedRoots := expand_roots fs (sp_allowedRoots policy);
  sp_homes := expand_roots fs (sp_homes policy);
  sp_deniedEntries := expand_roots fs (sp_deniedEntries policy) |}.

Definition has_dots (p : string) : bool := existsb (String.eqb "..") (split_on slash p).

Definition normalizeSecretPath (rawPath : string) : Result string :=
  let dots := text ["secret path "; quoted rawPath; " must not contain "; quoted ".."; " segments"] in
  if String.eqb rawPath "" then Err "secret path must not be empty"
  else if has_dots rawPath then Err dots
  else
    let normalized := resolve process_cwd [rawPath] in
    if has_dots normalized then Err dots else Ok normalized.

Definition is_within (target root : string) (foldCase : bool) : bool :=
  if foldCase then isWithin (toLowerCase target) (toLowerCase root) else isWithin target root.

Definition sensitive (rawPath prefix : string) : Result unit :=
  Err (text ["secret path "; quoted rawPath; " is inside sensitive prefix "; prefix]).

Definition checkSecretPath (rawPath normalized : string) (policy : SecretPathPolicy) : Result unit :=
  let foldCase := String.eqb platform "darwin" in
  match List.find (λ entry, is_within normalized entry foldCase) (sp_deniedEntries policy) with
  | Some entry => Err (text ["secret path "; quoted rawPath; " is inside sensitive credential location "; entry])
  | None =>
      if existsb (λ root, is_within normalized root false) (sp_allowedRoots policy) then Ok tt
      else
        match List.find (λ prefix, is_within normalized prefix false) SENSITIVE_PREFIXES with
        | Some prefix => sensitive rawPath prefix
        | None =>
            if is_within normalized "/root" false && negb (includes (sp_homes policy) "/root") then sensitive rawPath "/root"
            else if is_within normalized "/var/lib" false then
              let rest := relative process_cwd "/var/lib" normalized in
              let segments := List.filter (λ s, negb (String.eqb s "")) (split_on slash rest) in
              if (length segments <? 2)%nat then sensitive rawPath "/var/lib" else Ok tt
            else Ok tt
        end
  end.

Definition assertSafeSecretPath (rawPath : string) (env : ProcessEnv) : Result unit :=
  normalized ← normalizeSecretPath rawPath;
  checkSecretPath rawPath normalized (buildSecretPathPolicy env).

Definition resolveSafeSecretPath (views : FileViews) (rawPath : string) (env : ProcessEnv) : Result string :=
  normalized ← normalizeSecretPath rawPath;
  let policy := buildSecretPathPolicy env in
  _ ← checkSecretPath rawPath normalized policy;
  real ← fv_realpath (at_path views) normalized;
  _ ← checkSecretPath rawPath real (withRealRoots (at_roots views) policy);
  Ok real.

Definition expandSecretPath (rawPath : string) (env : ProcessEnv) : string :=
  if has_dots rawPath then rawPath
  else
    let home := match map_get env "HOME" with None | Some "" => home_dir | Some home => home end in
    expandTilde rawPath home.

(** ** Texts *)

Definition carriage : ascii := "013"%char.
Definition line_feed : ascii := "010"%char.

Fixpoint strip_return (s : string) : string :=
  match s with
  | "" => ""
  | String a rest => match rest with "" => if Ascii.eqb a carriage then "" else String a "" | _ => String a (strip_return rest) end
  end.

(** A return before a line feed belongs to the separator. *)
Fixpoint strip_returns (parts : list string) : list string :=
  match parts with
  | [] => []
  | part :: parts => match parts with [] => [part] | _ => strip_return part :: strip_returns parts end
  end.

(** `text.split(/\r?\n/)` *)
Definition split_lines (text : string) : list string := strip_returns (split_on line_feed text).

Definition trimEnd (s : string) : string := strip_end is_space s.

Definition backslash_char : ascii := "092"%char.
Definition quote_char : ascii := "034"%char.

(** Replace a backslash and the character after it, if that is [c], by [c]. *)
Fixpoint unescape (c : ascii) (s : string) : string :=
  match s with
  | "" => ""
  | String a rest =>
      match rest with
      | String b rest' => if Ascii.eqb a backslash_char && Ascii.eqb b c then String c (unescape c rest') else String a (unescape c rest)
      | "" => s
      end
  end.

Definition dotenv_value (value : string) : string :=
  if startsWith value dquote && endsWith value dquote
  then unescape backslash_char (unescape quote_char (slice 1 (slen value - 1) value))
  else if startsWith value "'" && endsWith value "'" then slice 1 (slen value - 1) value
  else value.

(** A line: its key and its value, if it has them. *)
Definition dotenv_line (rawLine : string) : option (string * string) :=
  let line := trim rawLine in
  if String.eqb line "" || startsWith line "#" then None
  else
    let withoutExport := if startsWith line "export " then trim (drop_str 7 line) else line in
    match indexOf withoutExport "=" with
    | None | Some O => None
    | Some equalsIndex =>
        Some (trim (take_str equalsIndex withoutExport), dotenv_value (trim (drop_str (S equalsIndex) withoutExport)))
    end.

(** Assigning a text to `__proto__` changes nothing. *)
Definition assign (values : list (string * string)) (key value : string) : list (string * string) :=
  if String.eqb key "__proto__" then values else map_set values key value.

Definition parseDotEnv (text : string) : list (string * string) :=
  fold_left (λ values line, match dotenv_line line with Some (key, value) => assign values key value | None => values end) (split_lines text) [].

(** ** Keyring and commands *)

Definition resolveCommand (name : string) : option string :=
  List.find is_file
    (map (λ dir, join_paths [dir; name]) (List.filter (λ dir, negb (String.eqb dir "")) (split_on ":" (default "" (map_get process_env "PATH"))))).

(** [run] answers the command started: its output and exit code, or the error thrown. *)
Context (run : list string → Result (string * Z)).

Definition readKeyringViaCommand (command : string) (args : list string) : Result (option string) :=
  match resolveCommand command with
  | None => Err ("keyring helper not found: " +:+ command)
  | Some resolved =>
      '(stdout, code) ← run (resolved :: args);
      Ok (if negb (code =? 0)%Z then None else if String.eqb (trimEnd stdout) "" then None else Some (trimEnd stdout))
  end.

Definition defaultKeyringResolver (service account : string) : Result (option string) :=
  if String.eqb platform "linux" then readKeyringViaCommand "secret-tool" ["lookup"; "service"; service; "account"; account]
  else if String.eqb platform "darwin" then readKeyringViaCommand "security" ["find-generic-password"; "-s"; service; "-a"; account; "-w"]
  else Err ("keyring secrets are not supported on " +:+ platform).

Definition runSecretCommand (command : string) : Result SecretValue :=
  if String.eqb (trim command) "" then Err "cmd: secret source must name a command"
  else
    '(stdout, status) ← run ["sh"; "-c"; command];
    if negb (status =? 0)%Z then Err ("cmd: secret source exited with status " +:+ Z_to_string status)
    else Ok match split_lines (trim stdout) with [] | "" :: _ => SvNull | first :: _ => SvText first end.

(** ** Sources *)

Definition of_keyring (value : option string) : SecretValue := match value with Some value => SvText value | None => SvNull end.

Definition read_secret_file (views : FileViews) (rawPath : string) (env : ProcessEnv) : Result string :=
  filePath ← resolveSafeSecretPath views (expandSecretPath rawPath env) env;
  fv_readFile (at_read views) filePath.

Definition resolveSecret (keyringResolver : string → string → Result (option string)) (views : FileViews) (source : string)
    (env : ProcessEnv) : Result SecretValue :=
  if startsWith source "env:" then Ok (read_member env (drop_str 4 source))
  else if startsWith source "file:" then text ← read_secret_file views (drop_str 5 source) env; Ok (SvText (trimEnd text))
  else if startsWith source "lines:" then
    text ← read_secret_file views (drop_str 6 source) env;
    Ok (SvLines (List.filter (λ line, negb (String.eqb line "")) (split_lines text)))
  else if startsWith source "dotenv:" then
    let target := drop_str 7 source in
    let invalid := Err ("Invalid dotenv secret source: " +:+ source) in
    match lastIndexOf target "#" with
    | None | Some O => invalid
    | Some hashIndex =>
        if (hashIndex =? slen target - 1)%nat then invalid
        else
          text ← read_secret_file views (take_str hashIndex target) env;
          Ok (read_member (parseDotEnv text) (drop_str (S hashIndex) target))
    end
  else if startsWith source "keyring:" then
    let target := drop_str 8 source in
    let invalid := Err ("Invalid keyring secret source: " +:+ source) in
    match indexOf target "/" with
    | None | Some O => invalid
    | Some slashIndex =>
        if (slashIndex =? slen target - 1)%nat then invalid
        else value ← keyringResolver (take_str slashIndex target) (drop_str (S slashIndex) target); Ok (of_keyring value)
    end
  else if startsWith source "cmd:" then runSecretCommand (drop_str 4 source)
  else Err ("Unsupported secret source: " +:+ source).

(** ** The store *)

Record SecretStore : Type := {
  ss_secrets : list (string * SecretConfig);
  ss_env : ProcessEnv;
  ss_cache : list (string * SecretValue);
}.

Definition cached (store : SecretStore) (name : string) (value : SecretValue) : SecretStore :=
  {| ss_secrets := ss_secrets store; ss_env := ss_env store; ss_cache := map_set (ss_cache store) name value |}.

Definition is_empty (value : SecretValue) : bool := match value with SvNull | SvText "" => true | _ => false end.

Definition unavailable (name : string) : string := "Required secret is unavailable: " +:+ name.

(** An inherited member is no configuration: its `from` is no text, and reading it throws
    ([type_error] stands for the message). *)
Definition get (type_error : string) (keyringResolver : string → string → Result (option string)) (views : FileViews) (store : SecretStore) (name : string) :
    Result SecretValue * SecretStore :=
  match map_get (ss_cache store) name with
  | Some value => (Ok value, store)
  | None =>
      match prop_read (ss_secrets store) name with
      | Missing => (Err ("Unknown secret: " +:+ name), store)
      | Inherited => (Err type_error, store)
      | Own config =>
          match resolveSecret keyringResolver views (sc_from config) (ss_env store) with
          | Err e => (Err e, store)
          | Ok (SvLines _) =>
              (Err (text ["Secret "; quoted name; " resolved to multiple values (lines: source is not supported here)"]), store)
          | Ok value =>
              if is_empty value && bool_decide (sc_required config = Some true) then (Err (unavailable name), store)
              else
                let normalized := if is_empty value then SvNull else value in
                (Ok normalized, cached store name normalized)
          end
      end
  end.

Definition require (type_error : string) (keyringResolver : string → string → Result (option string)) (views : FileViews) (store : SecretStore) (name : string) :
    Result SecretValue * SecretStore :=
  match get type_error keyringResolver views store name with
  | (Ok SvNull, store) => (Err (unavailable name), store)
  | other => other
  end.
End Store.

(** ** Places *)






Section Places.
Context `{HostRuntime} `{SecretHost}.

Abbreviation segs p := (resolve_segments process_cwd [p]).














(** ** The policy covers the places *)


















(** ** The check *)







End Places.

(** ** Reading *)

Section Reads.
Context `{HostRuntime} `{SecretHost}.
Context (run : list string → Result (string * Z)).



(** What the store answered it answers again, whatever has changed since. *)
Lemma get_stable type_error keyringResolver views views' store store' name value :
  get run type_error keyringResolver views store name = (Ok value, store') →
  get run type_error keyringResolver views' store' name = (Ok value, store').
Proof.
  unfold get. destruct (map_get (ss_cache store) name) as [v|] eqn:E; [by intros [= <- <-]; rewrite E|].
  destruct (prop_read (ss_secrets store) name) as [config| |]; [|done|done].
  destruct (resolveSecret _ _ _ _ _) as [v|]; [|done].
  destruct v as [|v| |]; try done; (destruct (_ && _); [done|]); intros Hr; assert (map_get (ss_cache store') name = Some value) as ->; try done;
    injection Hr as <- <-; cbn [cached ss_cache]; by rewrite map_get_set, decide_True.
Qed.
End Reads.

(** ** Files of the format dotenv *)

Fixpoint escape (s : string) : string :=
  match s with
  | "" => ""
  | String a s => if Ascii.eqb a backslash_char || Ascii.eqb a quote_char then String backslash_char (String a (escape s)) else String a (escape s)
  end.

(** A line that gives a variable a quoted value. *)
Definition print_line (entry : string * string) : string := entry.1 +:+ "=" +:+ dquote +:+ escape entry.2 +:+ dquote.

Fixpoint print_dotenv (entries : list (string * string)) : string :=
  match entries with [] => "" | entry :: entries => print_line entry +:+ String line_feed (print_dotenv entries) end.

(** The quotes are unescaped first; what is left has its backslashes doubled. *)
Fixpoint doubled (s : string) : string :=
  match s with
  | "" => ""
  | String a s => if Ascii.eqb a backslash_char then String backslash_char (String a (doubled s)) else String a (doubled s)
  end.

Lemma unescape_other c a s : a ≠ backslash_char → unescape c (String a s) = String a (unescape c s).
Proof. intros Ha. cbn. destruct s; [done|]. by rewrite (proj2 (Ascii.eqb_neq a backslash_char) Ha). Qed.

Lemma unescape_hit c s : unescape c (String backslash_char (String c s)) = String c (unescape c s).
Proof. cbn. by rewrite Ascii.eqb_refl. Qed.

Lemma unescape_miss c b s : b ≠ c → unescape c (String backslash_char (String b s)) = String backslash_char (unescape c (String b s)).
Proof. intros Hb. cbn [unescape]. by rewrite (proj2 (Ascii.eqb_neq b c) Hb), andb_false_r. Qed.

Lemma unescape_lone c s : (∀ s', s ≠ String c s') → unescape c (String backslash_char s) = String backslash_char (unescape c s).
Proof. intros Hs. destruct s as [|b s]; [done|]. apply unescape_miss. intros ->. by destruct (Hs s). Qed.

Lemma escape_no_quote s : ∀ s', escape s ≠ String quote_char s'.
Proof.
  destruct s as [|a s]; [done|]. cbn. intros s'. destruct (Ascii.eqb_spec a backslash_char) as [->|]; [done|].
  destruct (Ascii.eqb_spec a quote_char) as [->|Ha]; [done|]. cbn. intros [= E _]. done.
Qed.

Lemma unescape_quotes s : unescape quote_char (escape s) = doubled s.
Proof.
  induction s as [|a s IH]; [done|]. cbn [escape doubled]. destruct (Ascii.eqb_spec a backslash_char) as [->|Ha]; cbn [orb].
  - rewrite unescape_miss by done. rewrite unescape_lone by apply escape_no_quote. by rewrite IH.
  - destruct (Ascii.eqb_spec a quote_char) as [->|Hq]; [by rewrite unescape_hit, IH|]. by rewrite unescape_other, IH.
Qed.

Lemma unescape_doubled s : unescape backslash_char (doubled s) = s.
Proof.
  induction s as [|a s IH]; [done|]. cbn [doubled]. destruct (Ascii.eqb_spec a backslash_char) as [->|Ha]; [by rewrite unescape_hit, IH|].
  by rewrite unescape_other, IH.
Qed.

Lemma escape_free c s : c ≠ backslash_char → has_char c s = false → has_char c (escape s) = false.
Proof.
  intros Hc. induction s as [|a s IH]; [done|]. cbn. intros [Ha Hs]%orb_false_iff. specialize (IH Hs).
  destruct (_ || _); cbn [has_char]; rewrite Ha, IH; cbn [orb]; [|done]. rewrite orb_false_r. apply Ascii.eqb_neq. congruence.
Qed.

(** ** Trimming *)

Lemma strip_end_keeps f s a : f a = false → strip_end f (s +:+ String a "") = s +:+ String a "".
Proof.
  intros Ha. induction s as [|b s IH]; cbn; [by rewrite Ha|]. rewrite IH. by destruct s.
Qed.

Lemma strip_end_none f s : string_all (λ a, negb (f a)) s = true → strip_end f s = s.
Proof.
  induction s as [|a s IH]; [done|]. cbn. intros [Ha%negb_true_iff Hs]%andb_true_iff. rewrite IH by done. destruct s; [by rewrite Ha|done].
Qed.

Lemma trim_none s : string_all (λ a, negb (is_space a)) s = true → trim s = s.
Proof.
  intros Hs. unfold trim. assert (trim_start s = s) as ->; [|by apply strip_end_none].
  destruct s as [|a s]; [done|]. cbn in *. apply andb_true_iff in Hs as [Ha%negb_true_iff _]. by rewrite Ha.
Qed.

Lemma trim_keeps a s b : is_space a = false → is_space b = false → trim (String a (s +:+ String b "")) = String a (s +:+ String b "").
Proof. intros Ha Hb. unfold trim. cbn [trim_start]. rewrite Ha. apply (strip_end_keeps is_space (String a s) b Hb). Qed.

(** ** The names of variables *)

Definition word_char (a : ascii) : bool := is_alpha a || is_digit a || Ascii.eqb a "_".

Lemma string_all_weaken (f g : ascii → bool) s : (∀ a, f a = true → g a = true) → string_all f s = true → string_all g s = true.
Proof. intros Hfg. induction s as [|a s IH]; [done|]. cbn. intros [Ha Hs]%andb_true_iff. by rewrite (Hfg a Ha), IH. Qed.

Lemma string_all_app f a b : string_all f (a +:+ b) = string_all f a && string_all f b.
Proof. induction a as [|x a IH]; [done|]. cbn. by rewrite IH, andb_assoc. Qed.

Lemma word_no_space a : word_char a = true → negb (is_space a) = true.
Proof. revert a. assert (∀ a, implb (word_char a) (negb (is_space a)) = true) as Hall. { intros [[] [] [] [] [] [] [] []]; reflexivity. }
  intros a Ha. specialize (Hall a). by rewrite Ha in Hall. Qed.

Lemma starts_before c k x p : has_char c p = false → startsWith (k +:+ String c x) p = true → startsWith k p = true.
Proof.
  revert k. induction p as [|a p IH]; intros k; [by destruct k|]. cbn [has_char]. intros [Ha Hp]%orb_false_iff.
  destruct k as [|b k]; unfold startsWith in *; cbn.
  - destruct (ascii_dec a c) as [->|]; [by rewrite Ascii.eqb_refl in Ha|done].
  - destruct (ascii_dec a b); [|done]. by apply IH.
Qed.

Lemma indexOf_first c k x : has_char c k = false → indexOf (k +:+ String c x) c = Some (slen k).
Proof.
  induction k as [|a k IH]; cbn; [by rewrite Ascii.eqb_refl|]. intros [Ha Hk]%orb_false_iff. by rewrite Ha, IH.
Qed.

Record variable_ok (entry : string * string) : Prop := {
  va_name : entry.1 ≠ "" ∧ string_all word_char entry.1 = true ∧ entry.1 ≠ "__proto__";
  va_value : has_char line_feed entry.2 = false;
}.

Lemma drop_past k c x : drop_str (S (slen k)) (k +:+ String c x) = x.
Proof. induction k as [|a k IH]; [by destruct x|]. exact IH. Qed.

Lemma dotenv_value_quoted v : dotenv_value (dquote +:+ escape v +:+ dquote) = v.
Proof.
  unfold dotenv_value. set (q := dquote +:+ escape v +:+ dquote).
  assert (startsWith q dquote = true) as -> by (apply startsWith_iff; by eexists).
  assert (endsWith q dquote = true) as -> by (apply endsWith_iff; exists (dquote +:+ escape v); unfold q; by rewrite sapp_assoc).
  cbn [andb]. assert (slice 1 (slen q - 1) q = escape v) as ->; [|by rewrite unescape_quotes, unescape_doubled].
  unfold slice, q. change (dquote +:+ escape v +:+ dquote) with (String quote_char (escape v +:+ dquote)).
  cbn [drop_str slen]. replace (drop_str 0 (escape v +:+ dquote)) with (escape v +:+ dquote) by by destruct (escape v +:+ dquote).
  assert (slen (escape v +:+ dquote) = S (slen (escape v))) as -> by (rewrite slen_app; cbn; lia).
  replace (S (S (slen (escape v))) - 1 - 1)%nat with (slen (escape v)) by lia. apply take_str_app.
Qed.

Lemma print_line_ends k v : ∃ s, print_line (k, v) = s +:+ String quote_char "".
Proof. exists (k +:+ "=" +:+ dquote +:+ escape v). unfold print_line. cbn [fst snd]. by rewrite !sapp_assoc. Qed.

Lemma dotenv_line_printed k v : variable_ok (k, v) → dotenv_line (print_line (k, v)) = Some (k, v).
Proof.
  intros [(Hne & Hword & _) _]. cbn [fst snd] in *. assert (has_char "=" k = false) as Heq by (by apply (string_all_free word_char)).
  assert (string_all (λ a, negb (is_space a)) k = true) as Hns by (by apply (string_all_weaken word_char); [apply word_no_space|]).
  set (q := dquote +:+ escape v +:+ dquote). assert (print_line (k, v) = k +:+ String "=" q) as El by done.
  assert (trim (k +:+ String "=" q) = k +:+ String "=" q) as Et.
  { destruct k as [|a k]; [done|]. cbn in Hns. apply andb_true_iff in Hns as [Ha%negb_true_iff _].
    replace (String a k +:+ String "=" q) with (String a ((k +:+ "=" +:+ dquote +:+ escape v) +:+ String quote_char "")); [by apply trim_keeps|].
    unfold q. cbn. by rewrite !sapp_assoc. }
  unfold dotenv_line. rewrite El, Et.
  assert (∀ p, has_char "=" p = false → string_all word_char p = false → startsWith (k +:+ String "=" q) p = false) as Hstart.
  { intros p Hp Hw. apply not_true_iff_false. intros Hs%starts_before; [|done]. apply startsWith_iff in Hs as [r ->].
    rewrite string_all_app, Hw in Hword. done. }
  rewrite !Hstart by done. assert (String.eqb (k +:+ String "=" q) "" = false) as -> by (by destruct k). cbn [orb].
  rewrite indexOf_first by done. destruct (slen k) as [|n] eqn:Ek; [by destruct k|]. rewrite <- Ek, take_str_app, drop_past, trim_none by done.
  do 2 f_equal. assert (trim q = q) as -> by (by apply (trim_keeps quote_char (escape v) quote_char)). apply dotenv_value_quoted.
Qed.

Lemma strip_return_keeps s a : a ≠ carriage → strip_return (s +:+ String a "") = s +:+ String a "".
Proof.
  intros Ha. induction s as [|b s IH]; cbn; [by rewrite (proj2 (Ascii.eqb_neq a carriage) Ha)|]. rewrite IH. by destruct s.
Qed.

Lemma split_lines_printed entries : Forall variable_ok entries → split_lines (print_dotenv entries) = map print_line entries ++ [""].
Proof.
  unfold split_lines. induction entries as [|[k v] entries IH]; [done|]. intros [[(_ & Hword & _) Hv] Hok]%Forall_cons. cbn [fst snd] in *.
  cbn [print_dotenv map]. rewrite split_on_app.
  - specialize (IH Hok). destruct (split_on line_feed (print_dotenv entries)) eqn:E; [by apply split_on_nonempty in E|].
    change (strip_returns (print_line (k, v) :: s :: l)) with (strip_return (print_line (k, v)) :: strip_returns (s :: l)). rewrite IH.
    destruct (print_line_ends k v) as [t ->]. by rewrite strip_return_keeps.
  - unfold print_line. cbn [fst snd]. rewrite !has_char_app, (string_all_free word_char line_feed k), escape_free by done. done.
Qed.

(** What is written for some variables, in double quotes with backslashes before
    quotes and backslashes, is read back, whatever the values hold but line feeds. *)
Theorem dotenv_round_trip entries (Hok : Forall variable_ok entries) (Hkeys : List.NoDup (map_keys entries)) :
  parseDotEnv (print_dotenv entries) = entries.
Proof.
  unfold parseDotEnv. rewrite split_lines_printed by done. rewrite fold_left_app. cbn [fold_left]. change (dotenv_line "") with (@None (string * string)).
  cbv iota. enough (∀ acc, List.NoDup (map_keys (acc ++ entries)) → fold_left (λ values line, match dotenv_line line with Some (key, value) => assign values key value | None => values end)
    (map print_line entries) acc = acc ++ entries) as H by (by apply (H [])).
  clear Hkeys. induction entries as [|[k v] entries IH]; intros acc Hn; cbn [map fold_left]; [by rewrite app_nil_r|].
  apply Forall_cons in Hok as [Hkv Hok]. rewrite dotenv_line_printed by done. unfold assign.
  pose proof Hkv as [(_ & _ & Hproto) _]. rewrite (proj2 (String.eqb_neq k "__proto__") Hproto).
  assert (map_get acc k = None) as Hk.
  { apply map_get_None. intros Hin. unfold map_keys in Hn. rewrite map_app in Hn. apply NoDup_remove_2 in Hn. apply Hn, in_or_app. by left. }
  rewrite map_set_missing by done. rewrite IH; [by rewrite <- app_assoc|done|]. by rewrite <- app_assoc.
Qed.

Lemma dotenv_round_trip_witness :
  parseDotEnv (print_dotenv [("API_KEY", "a=" +:+ dquote +:+ "b # c"); ("_X", " d ")]) =
  [("API_KEY", "a=" +:+ dquote +:+ "b # c"); ("_X", " d ")].
Proof.
  apply dotenv_round_trip.
  - repeat constructor; done.
  - cbn. repeat constructor; cbn; intros; naive_solver.
Defined.

(** ** A system *)

Definition sample_system : SecretHost := {| platform := "linux"; user_id := Some 1000%Z; is_file := λ p, String.eqb p "/usr/bin/secret-tool" |}.

(** A note of the user's, and a key, whose content is [key]; names are real names. *)
Definition sample_files (key : string) : FileView := {|
  fv_realpath := λ p, Ok p;
  fv_readFile := λ p, if String.eqb p "/home/u/notes/token" then Ok ("s3cret" +:+ String line_feed "")
                      else if String.eqb p "/home/u/.ssh/id" then Ok key else Err "ENOENT" |}.

Definition sample_views (key : string) : FileViews :=
  {| at_path := sample_files ""; at_roots := sample_files ""; at_read := sample_files key |}.

Definition no_run (command : list string) : Result (string * Z) := Err "ENOENT".
Definition no_keyring (service account : string) : Result (option string) := Ok None.
Definition user_env : ProcessEnv := [("HOME", "/home/u"); ("XDG_CONFIG_HOME", "/home/u/.config")].

Abbreviation sample_secret key source env :=
  (resolveSecret (H := plain_runtime) (H0 := sample_system) no_run no_keyring (sample_views key) source env).



(** ** What the checks do not see

    A name of two dots and more below a credential store, the stores of a home directory
    that the variable HOME, being empty, does not name, and names of `Object.prototype`. *)
Lemma dotted_credential_readable :
  resolveSafeSecretPath (H := plain_runtime) (H0 := sample_system) (sample_views "") "/home/u/.ssh/..id" user_env = Ok "/home/u/.ssh/..id" ∧
  match resolveSafeSecretPath (H := plain_runtime) (H0 := sample_system) (sample_views "") "/home/u/.ssh/id" user_env with Err _ => True | Ok _ => False end.
Proof. split; [vm_compute; reflexivity|vm_compute; exact I]. Qed.

Lemma empty_home_unprotected : sample_secret "KEY" "file:~/.ssh/id" [("HOME", "")] = Ok (SvText "KEY").
Proof. vm_compute. reflexivity. Qed.

Lemma inherited_secret : sample_secret "KEY" "env:constructor" user_env = Ok SvInherited.
Proof. vm_compute. reflexivity. Qed.
